(* ===== verification/_CoqProject ===== *)
-Q . S2P
Prelude.v
GoStrings.v
GoFloat.v
BTree.v
Wal.v
Engine.v
Durability.v
Store.v
KeyValue.v
KeyCheck.v
Index.v
Membership.v
Raft.v
RaftOps.v
RaftElection.v
RaftLog.v
RaftProps.v
RaftConfig.v
RaftReplication.v
RaftSpec.v
RaftRepr.v
RaftSafety.v
RaftExamples.v
RaftRun.v
RaftFaults.v
Transport.v
TransportProps.v
LogStore.v
Fsm.v
FsmProps.v
Flap.v
Sla.v
TimeSeries.v
TimeSeriesProps.v
Compaction.v
History.v
SlaExact.v
SlaExamples.v
Alert.v
Distribution.v
AuthData.v
Auth.v
AuthInv.v
AuthProps.v
AuthExamples.v
AuthCluster.v
ApiKeys.v
AccessExamples.v
Ssrf.v
