(* ===== verification/Prelude.v ===== *)
(** * AnubisWatch: a verification library

    AnubisWatch is a self-hosted uptime monitor: nodes probe souls (monitored
    targets), keep the judgments in an embedded store, replicate everything
    with Raft, share the checks among themselves and report service levels.
    This library models the code that carries that and proves what makes it
    correct. Definitions keep the names of the Go code under src/.

    ** The program and the files

    - The store (src/internal/storage/engine.go, encryption.go, keycheck.go):
      an in-memory B+Tree over a write-ahead log, with encrypted values.
      BTree.v is the tree with its chained leaves, Wal.v the log file as bytes
      (frames, failed appends, compaction, recovery), Engine.v the engine
      CobaltDB on both, Durability.v the engine as a system that crashes and
      restarts, Store.v the theorems and a codec and cipher to run it with.
      KeyCheck.v is the check of the encryption key in [NewEngine].
    - KeyValue.v is the interface the store offers to the rest: a class with
      operations and laws, and the proofs that CobaltDB, and the store in
      memory, honour it. Index.v is the maps by which resources are found by ID
      (storage.go, [rebuildIndexes] of engine.go).
    - Raft (src/internal/raft/node.go, membership.go, quorum.go): Membership.v
      is configurations, Raft.v the node with its RPC handlers, RaftOps.v
      proposals, application, snapshots, compaction and restart. The node's
      fields are a record; each critical section is a function of it; the
      outcome of every disk write is an argument. RaftElection.v, RaftLog.v,
      RaftProps.v, RaftConfig.v and RaftReplication.v are the theorems about
      a node or a pair. RaftSpec.v is an abstract protocol with one log per
      member and term, RaftRepr.v how a node represents its part of it, and
      RaftSafety.v the cluster of nodes that implements it. RaftExamples.v,
      RaftRun.v and RaftFaults.v are concrete runs, the last two of a cluster.
      LogStore.v is the log store on the key/value interface
      (storage/raft_log.go).
    - The transport between nodes (src/internal/raft/transport_auth.go and the
      framing of transport.go): Transport.v, with its theorems in
      TransportProps.v.
    - The state machine (src/internal/raft/fsm.go and the replicated writes of
      storage/storage.go): Fsm.v, with its theorems in FsmProps.v.
    - Checks: Flap.v is confirmation retries and flap detection
      (src/internal/core/flap.go, src/internal/probe/retry_flap.go), Ssrf.v
      the addresses a probe may reach (src/internal/probe/ssrf.go), Alert.v
      the alert manager's decisions (src/internal/alert/manager.go,
      replication.go), and Distribution.v the planner that assigns checks to
      members (src/internal/cluster/distribution.go).
    - History and service levels: Sla.v is the arithmetic of
      src/internal/sla (intervals, tallies, histogram, reports), TimeSeries.v
      the stored judgments and their summaries, compaction, retention and the
      collection of a report (src/internal/storage/judgments.go, timeseries.go,
      retention.go, sla.go), TimeSeriesProps.v the history of a soul that the
      store keeps, Compaction.v its life through saves, purges, compactions
      and restarts, History.v and SlaExact.v what is read from it,
      SlaExamples.v a run.
    - Access: AuthData.v and Auth.v are the directory of accounts, sessions,
      invitations and failed sign-ins (src/internal/auth/local.go, users.go),
      AuthInv.v its invariant, AuthProps.v its theorems, AuthExamples.v runs.
      AuthCluster.v is the same directory shared by the nodes
      (src/internal/auth/cluster.go, src/cmd/anubis/cluster_auth.go), ApiKeys.v
      the API keys (src/internal/auth/apikey.go, src/internal/core/apikey.go,
      src/cmd/anubis/apikey_store.go), AccessExamples.v runs of both.
    - GoStrings.v and GoFloat.v are the parts of Go's library on strings,
      numbers in strings and float64 (on Rocq's [SpecFloat]) that the code
      calls. This file has what all share: the order of Go strings, byte
      strings, sorting, and lemmas on lists and maps.

    A client request becomes an FSM command, a signed frame to the other
    nodes (Transport.v), a log entry (Raft.v, LogStore.v), a committed entry
    (RaftOps.v), a write to the store (Fsm.v, KeyValue.v), and a frame of the
    write-ahead log (Engine.v, Wal.v).

    ** What is proved

    - Store.v: what a reader sees is the result of all acknowledged
      operations, in every run with failures, checkpoints and crashes
      (a refinement of a map); recovery accepts every crash image and refuses
      damage; failed appends are contained; checkpoints are invisible; the
      B+Tree stays well formed; reads, scans and batches are exact. KeyCheck.v:
      the store opens only with its own key, and one from before the key
      records only with a key that decrypts one of its values.
    - Raft, a cluster: there is one leader per term in every run with lost,
      repeated and reordered messages, failing disks, crashes and restarts
      (RaftElection.v). In the runs of RaftSafety.v logs match, a leader holds
      what earlier terms committed, and what one member has committed is never
      replaced; all of it because the cluster implements the protocol of
      RaftSpec.v. These runs have a fixed set of voters and no compaction; a
      campaign goes on only if its term and vote were written, and a log write
      or deletion happens as a whole or not at all.
    - Raft, a node: quorums are counted over the latest configuration, a
      change adds or removes exactly one peer and no other is taken until it
      commits, and majorities before and after it overlap (Membership.v,
      RaftConfig.v); the follower's log after an AppendEntries, the commit
      rule, compaction, snapshots, application in order with every failure a
      pass may meet, check-quorum and pre-votes (RaftProps.v); convergence of
      replication to a follower that needs no snapshot (RaftReplication.v); the
      log store implements the map the node assumes (LogStore.v). Four results
      are about defects: the runs
      [failed_campaign_loses_acknowledged] and
      [partial_store_resurrects_entries] (RaftFaults.v), which show why the
      runs of RaftSafety.v leave such writes out, and
      [probe_below_base_stalls] (RaftReplication.v) and
      [restart_forgets_log_position] (RaftProps.v).
    - TransportProps.v: what a handler or a caller is given carries the MAC of
      exactly that method, sender, number and payload, an accepted frame is never
      accepted again, the sliding window of machine words equals a receiver
      that remembers every number, and an exchange between holders of the
      secret succeeds.
    - FsmProps.v: through any transient failures the store ends up as if each
      command had been carried out once, in order, for commands on tables
      without a handler of their own and keys that do not compete for an index
      entry; lookups by ID follow the log; framed writes equal single ones;
      snapshots restore the state.
    - Flap.v: the bounded detector equals one that remembers everything;
      notifications alternate; retries are made exactly after failed attempts
      that leave time for one, and end. Ssrf.v: the dialer connects exactly to
      what the policy permits, the policy being stated byte by byte,
      independently of the code's lists and masks; a network is a prefix, and
      an IPv4 address is judged alike in all its IPv6 forms. Alert.v: cooldowns
      hold, there is one open incident per rule and soul, and taking over a
      soul restores the state its rules depend on. Distribution.v: plans depend
      on the inputs as sets only; owners are members of the soul's regions, as
      many as asked for or possible; plans are stable under membership changes
      when hash-based, and even otherwise.
    - TimeSeriesProps.v: each save appends to the history of its soul, record
      and summaries together, and retention only moves the horizon before
      which data may be missing; a rollup keeps what it counted of deleted
      sources. Compaction.v: compaction never rewrites a live summary, so the
      history holds in every life of the store. SlaExact.v: in every such life
      a report counts each check of the period once, from the summary of a
      whole hour or day where one is kept and from its record otherwise, and
      so all of them as long as no record of the period is purged. History.v: an export by the hour is the whole
      export, and the latest judgment the newest.
    - AuthProps.v: a restart restores the directory, roles change only within
      the authority of who changes them, workspaces keep an owner, a locked
      source stays locked, invitations are redeemed once, the directory is
      well formed and its tables bounded. AuthCluster.v: a change to the
      shared directory takes effect once, at one moment. ApiKeys.v: a key acts
      within what its owner still holds, works until it expires, and never
      after it was revoked.

    ** Conventions and bounds

    Byte strings are lists of bytes and a nil slice is [None] where the code
    tells them apart ([gobytes]); strings are Rocq strings of bytes. uint64 is
    Z with [u64] (mod 2^64) wherever the code adds; election safety assumes
    terms stay below 2^64. Times and durations are nanoseconds in Z, and the
    theorems about stored times assume that they are in the range of int64.
    Loops that are not structural take fuel that is enough by a lemma: the
    file length for recovery and resynchronisation (every step advances), the
    depth of the tree for descents, the number of leaves for the leaf chain,
    the distance to the commit index for an apply pass, six for the attempts
    of a check, the range or list length for framed deletions, the batch
    length for a batch of commands, the hours of a period for what walks it by
    the hour. A Go panic is [None]. Errors are values, and a theorem about an
    operation covers its error branches.

    Code outside src/ is a parameter with documented behaviour as a class of
    laws: JSON of the WAL's frames ([WalCodec]), of membership entries, log
    entries, key-check records, commands, judgments and summaries ([TSCodec])
    and of the session file, HKDF with AES-GCM ([Crypto]), HMAC-SHA-256,
    bcrypt, [math.Log] and [math.Pow], URL parsing and the resolver. Each has
    an instance where a theorem depends on its laws, so that the theorems are
    exercised. CRC-32, FNV-1a and the address parsers of the standard library
    are definitions. Maps whose iteration order Go leaves open are traversed
    in the order of [map_to_list]; no theorem depends on it.

    The theorems on access assume that generated IDs and tokens are new, that
    the configured administrator stays the same, and one reading of the clock
    per critical section; those on the transport that the MAC has no
    collisions among the frames sent; those on history that workspace and
    soul IDs have no slash and a new judgment has an ID not stored for the
    soul. An embalmed judgment is counted by summaries and not from records,
    and the theorem on reports says so. A batch ([SaveJudgments]) is modelled,
    but the life of a history saves judgments one at a time through the
    time-series store. The round trips of encoding/json are those of valid
    UTF-8 text.

    A crash of the store is that of the process: what was written or renamed
    is there afterwards, synced or not, and an append under way may be cut
    anywhere; power failures that lose unsynced data are not modelled, nor an
    open that fails after its rewrite replaced the log. The runs of incidents
    are of one node, without incidents loaded from others. A member's list of
    peers on disk ([persistMembers]) is an input of a restart; its writing is
    not a step.

    ** Not modelled

    Raft's connections, TLS, discovery, join protocol and forwarding, and the
    polling loops of reads; the chunked snapshot store; the typed
    Save/Get/List helpers and storage statistics; the timers that start
    compaction, retention and janitors; the incremental assignment and
    rebalancing of the distributor, which use floating-point load; the alert
    conditions that do (an argument of Alert.v) and delivery to channels;
    calendars of maintenance windows; OIDC and LDAP; the probes themselves and
    journeys, which are network clients; the HTTP, gRPC, WebSocket and MCP
    servers, backup, status pages, mail, telemetry and the command line, which
    are I/O and wiring around these parts. Goroutines are interleaved at lock
    boundaries; data races inside a critical section are not considered. *)
From stdpp Require Import base gmap strings list sorting.
From Stdlib Require Import ZArith Lia Strings.Byte.
From Stdlib Require Strings.String.

(** ** Go strings and their order *)

(** Go compares strings byte by byte; [String.compare] does the same on the
    stored bytes, a proper prefix being the smaller string. *)
Definition str_lt (a b : string) : Prop := String.compare a b = Lt.

Declare Scope key_scope.
Delimit Scope key_scope with key.
Infix "<" := str_lt : key_scope.
Notation "a <= b" := (~ str_lt b a) : key_scope.

Lemma ascii_compare_lt_trans a b c :
  Ascii.compare a b = Lt -> Ascii.compare b c = Lt -> Ascii.compare a c = Lt.
Proof. unfold Ascii.compare. rewrite !N.compare_lt_iff. lia. Qed.

Lemma ascii_compare_refl a : Ascii.compare a a = Eq.
Proof. apply N.compare_refl. Qed.

Lemma str_compare_refl s : String.compare s s = Eq.
Proof. induction s as [|a s IH]; simpl; [done|]. by rewrite ascii_compare_refl. Qed.

Lemma str_lt_cons a b s t :
  str_lt (String a s) (String b t) <->
  Ascii.compare a b = Lt \/ (a = b /\ str_lt s t).
Proof.
  unfold str_lt; simpl. destruct (Ascii.compare a b) eqn:E; split; intros H.
  - right. by apply Ascii.compare_eq_iff in E.
  - destruct H as [H|[_ H]]; congruence.
  - auto.
  - done.
  - congruence.
  - destruct H as [H|[-> _]]; [done|]. by rewrite ascii_compare_refl in E.
Qed.

Lemma str_lt_nil_r s : ~ str_lt s "".
Proof. by destruct s. Qed.

Lemma str_lt_nil_l a s : str_lt "" (String a s).
Proof. done. Qed.

#[export] Instance str_lt_strict : StrictOrder str_lt.
Proof.
  split.
  - intros s H. unfold str_lt in H. by rewrite str_compare_refl in H.
  - intros x. induction x as [|a x IH]; intros [|b y] [|c z]; try done.
    rewrite !str_lt_cons. intros [H1|[-> H1]] [H2|[-> H2]].
    + left. by eapply ascii_compare_lt_trans.
    + by left.
    + by left.
    + right. split; [done|]. by apply IH with y.
Qed.

Lemma str_lt_trichotomy a b : str_lt a b \/ a = b \/ str_lt b a.
Proof.
  unfold str_lt. rewrite (String.compare_antisym b a).
  destruct (String.compare a b) eqn:E; simpl; auto.
  apply String.compare_eq_iff in E. auto.
Qed.

#[export] Instance str_lt_dec : RelDecision str_lt.
Proof. intros a b. unfold str_lt. apply _. Defined.

Lemma str_ltb_lt a b : String.ltb a b = true <-> str_lt a b.
Proof. unfold String.ltb, str_lt. by destruct (String.compare a b). Qed.

Lemma str_ltb_ge a b : String.ltb a b = false <-> ~ str_lt a b.
Proof. rewrite <- str_ltb_lt. by destruct (String.ltb a b). Qed.

Lemma str_leb_le a b : String.leb a b = true <-> ~ str_lt b a.
Proof.
  unfold String.leb, str_lt. rewrite (String.compare_antisym b a).
  by destruct (String.compare a b).
Qed.

Lemma str_leb_gt a b : String.leb a b = false <-> str_lt b a.
Proof.
  unfold String.leb, str_lt. rewrite (String.compare_antisym b a).
  by destruct (String.compare a b).
Qed.

Lemma str_lt_irrefl a : ~ str_lt a a.
Proof. apply irreflexivity. apply _. Qed.

Lemma str_lt_trans a b c : str_lt a b -> str_lt b c -> str_lt a c.
Proof. apply transitivity. Qed.

Lemma str_le_lt_trans a b c : ~ str_lt b a -> str_lt b c -> str_lt a c.
Proof.
  intros H1 H2. destruct (str_lt_trichotomy a b) as [H|[->|H]]; [|done|done].
  by eapply str_lt_trans.
Qed.

Lemma str_lt_le_trans a b c : str_lt a b -> ~ str_lt c b -> str_lt a c.
Proof.
  intros H1 H2. destruct (str_lt_trichotomy b c) as [H|[<-|H]]; [|done|done].
  by eapply str_lt_trans.
Qed.

Lemma str_le_antisym a b : ~ str_lt a b -> ~ str_lt b a -> a = b.
Proof. destruct (str_lt_trichotomy a b) as [?|[?|?]]; done. Qed.

Lemma str_lt_le a b : str_lt a b -> ~ str_lt b a.
Proof. intros H1 H2. by apply (str_lt_irrefl a), (str_lt_trans _ b). Qed.

Lemma str_lt_ne a b : str_lt a b -> a <> b.
Proof. intros H ->. by apply str_lt_irrefl in H. Qed.

(** Keys that start with a prefix are exactly an interval of the order. *)
Lemma prefix_ge p s : String.prefix p s = true -> ~ str_lt s p.
Proof.
  revert s; induction p as [|a p IH]; intros [|b s] H; try done.
  simpl in H. case_match; [subst|done].
  rewrite str_lt_cons. intros [E|[_ E]].
  - by rewrite ascii_compare_refl in E.
  - by eapply IH.
Qed.

Lemma prefix_interval p k k' :
  ~ str_lt k p -> String.prefix p k = false -> str_lt k k' ->
  String.prefix p k' = false.
Proof.
  revert k k'; induction p as [|a p IH]; intros [|b k] [|c k'] H1 H2 H3; try done.
  simpl in *. destruct (Ascii.ascii_dec a c) as [->|]; [|done].
  rewrite str_lt_cons in H1. rewrite str_lt_cons in H3.
  destruct (Ascii.ascii_dec c b) as [->|Hne].
  - destruct H3 as [H3|[_ H3]]; [by rewrite ascii_compare_refl in H3|].
    eapply IH; [|done|done]. intros ?. apply H1. auto.
  - exfalso. apply H1. left. by destruct H3 as [H3|[-> _]].
Qed.

(** ** [sort.Search] *)

(** The binary search of Go's [sort] package: the smallest index in [0, n)
    at which the monotone predicate holds, [n] when there is none. The loop
    invariant shrinks [j - i], so [n] rounds are enough. *)
Fixpoint search_loop (fuel i j : nat) (f : nat -> bool) : nat :=
  match fuel with
  | 0%nat => i
  | S fuel =>
      if Nat.ltb i j then
        let h := ((i + j) / 2)%nat in
        if negb (f h) then search_loop fuel (h + 1) j f
        else search_loop fuel i h f
      else i
  end.

Definition sort_Search (n : nat) (f : nat -> bool) : nat := search_loop n 0 n f.

Lemma search_loop_spec fuel i j f :
  (j - i <= fuel)%nat -> (i <= j)%nat ->
  (forall a b, (i <= a <= b)%nat -> (b < j)%nat -> f a = true -> f b = true) ->
  let r := search_loop fuel i j f in
  (i <= r <= j)%nat /\ (forall a, (i <= a < r)%nat -> f a = false) /\
  (forall a, (r <= a < j)%nat -> f a = true).
Proof.
  revert i j; induction fuel as [|fuel IH]; intros i j Hf Hij Hm; cbn [search_loop]; cbv zeta.
  { assert (i = j) by lia. subst. split_and!; intros; lia. }
  destruct (Nat.ltb_spec i j) as [Hlt|Hge]; [|split_and!; intros; lia].
  set (h := ((i + j) / 2)%nat).
  assert (i <= h < j)%nat as Hh.
  { subst h. split; [apply Nat.div_le_lower_bound|apply Nat.Div0.div_lt_upper_bound]; lia. }
  destruct (f h) eqn:Fh; cbn [negb].
  - destruct (IH i h) as (R1 & R2 & R3); [lia|lia|intros; eapply (Hm a); [lia|lia|done]|].
    split_and!; [lia|lia|done|]. intros a Ha.
    destruct (decide (a < h)%nat); [apply R3; lia|]. eapply (Hm h); [lia|lia|done].
  - destruct (IH (h + 1)%nat j) as (R1 & R2 & R3);
      [lia|lia|intros; eapply (Hm a); [lia|lia|done]|].
    split_and!; [lia|lia| |done]. intros a Ha.
    destruct (decide (a <= h)%nat); [|apply R2; lia].
    destruct (f a) eqn:Fa; [|done]. rewrite <- Fh. symmetry. eapply (Hm a); [lia|lia|done].
Qed.

Lemma sort_Search_spec n f :
  (forall a b, (a <= b < n)%nat -> f a = true -> f b = true) ->
  let r := sort_Search n f in
  (r <= n)%nat /\ (forall a, (a < r)%nat -> f a = false) /\
  (forall a, (r <= a < n)%nat -> f a = true).
Proof.
  intros Hm; unfold sort_Search; cbv zeta. destruct (search_loop_spec n 0 n f) as (H1 & H2 & H3);
    [lia|lia|intros; eapply (Hm a); [lia|done]|].
  split_and!; [lia|intros; apply H2; lia|done].
Qed.

(** ** Go slices of bytes *)

(** A Go [[]byte] is either nil or a sequence of bytes; the storage engine
    distinguishes the nil slice (a tombstone) from the empty one. *)
Abbreviation bytes := (list byte).
Abbreviation gobytes := (option (list byte)).

#[export] Instance byte_eq_dec : EqDecision byte := Byte.byte_eq_dec.

Definition byte_to_Z (b : byte) : Z := Z.of_N (Byte.to_N b).
Definition byte_of_Z (z : Z) : byte := default x00 (Byte.of_N (Z.to_N (Z.land z 255))).

Lemma byte_to_Z_range b : (0 <= byte_to_Z b < 256)%Z.
Proof. unfold byte_to_Z. pose proof (Byte.to_N_bounded b). lia. Qed.

Lemma land_255 z : Z.land z 255 = (z mod 256)%Z.
Proof. change 255%Z with (Z.ones 8). by rewrite Z.land_ones. Qed.

Lemma byte_to_of_Z z : byte_to_Z (byte_of_Z z) = (z mod 256)%Z.
Proof.
  unfold byte_to_Z, byte_of_Z. rewrite land_255.
  pose proof (Z.mod_pos_bound z 256 ltac:(lia)).
  destruct (Byte.of_N (Z.to_N (z mod 256))) as [b|] eqn:E; simpl.
  - apply Byte.to_of_N in E. rewrite E. lia.
  - apply Byte.of_N_None_iff in E. lia.
Qed.

(** The four-byte big-endian length prefix of a WAL frame, written and read
    with the shifts and masks of the source. *)
Definition be32 (n : Z) : bytes :=
  [byte_of_Z (Z.land (Z.shiftr n 24) 255); byte_of_Z (Z.land (Z.shiftr n 16) 255);
   byte_of_Z (Z.land (Z.shiftr n 8) 255); byte_of_Z (Z.land n 255)].

Definition be32_decode (b0 b1 b2 b3 : byte) : Z :=
  Z.lor (Z.lor (Z.lor (Z.shiftl (byte_to_Z b0) 24) (Z.shiftl (byte_to_Z b1) 16))
    (Z.shiftl (byte_to_Z b2) 8)) (byte_to_Z b3).

Lemma lor_shiftl_add x y k :
  (0 <= k)%Z -> (0 <= y < 2 ^ k)%Z -> Z.lor (Z.shiftl x k) y = (x * 2 ^ k + y)%Z.
Proof.
  intros Hk Hy. rewrite <- Z.add_nocarry_lor; [by rewrite Z.shiftl_mul_pow2|].
  apply Z.bits_inj'. intros n Hn. rewrite Z.land_spec, Z.bits_0.
  destruct (decide (n < k)%Z); [by rewrite Z.shiftl_spec_low|].
  rewrite <- (Z.mod_small y (2 ^ k)) by done.
  rewrite Z.mod_pow2_bits_high by lia. apply andb_false_r.
Qed.

Lemma be32_decode_add b0 b1 b2 b3 :
  be32_decode b0 b1 b2 b3 =
  (byte_to_Z b0 * 2 ^ 24 + byte_to_Z b1 * 2 ^ 16 + byte_to_Z b2 * 2 ^ 8 + byte_to_Z b3)%Z.
Proof.
  unfold be32_decode.
  pose proof (byte_to_Z_range b1). pose proof (byte_to_Z_range b2). pose proof (byte_to_Z_range b3).
  rewrite (Z.shiftl_mul_pow2 (byte_to_Z b1)), (Z.shiftl_mul_pow2 (byte_to_Z b2)) by lia.
  rewrite (lor_shiftl_add _ (byte_to_Z b1 * 2 ^ 16) 24) by lia.
  replace (byte_to_Z b0 * 2 ^ 24 + byte_to_Z b1 * 2 ^ 16)%Z with
    (Z.shiftl (byte_to_Z b0 * 2 ^ 8 + byte_to_Z b1) 16) by (rewrite Z.shiftl_mul_pow2; lia).
  rewrite (lor_shiftl_add _ (byte_to_Z b2 * 2 ^ 8) 16) by lia.
  replace ((byte_to_Z b0 * 2 ^ 8 + byte_to_Z b1) * 2 ^ 16 + byte_to_Z b2 * 2 ^ 8)%Z with
    (Z.shiftl ((byte_to_Z b0 * 2 ^ 8 + byte_to_Z b1) * 2 ^ 8 + byte_to_Z b2) 8)
    by (rewrite Z.shiftl_mul_pow2; lia).
  rewrite lor_shiftl_add, Z.shiftl_mul_pow2 by lia. ring.
Qed.

Lemma be32_roundtrip n :
  (0 <= n < 2 ^ 32)%Z ->
  exists b0 b1 b2 b3, be32 n = [b0; b1; b2; b3] /\ be32_decode b0 b1 b2 b3 = n.
Proof.
  intros Hn. unfold be32. eexists _, _, _, _. split; [done|].
  rewrite be32_decode_add, !byte_to_of_Z, !land_255, !Z.mod_mod by lia.
  rewrite !Z.shiftr_div_pow2 by lia.
  change (2 ^ 24)%Z with 16777216%Z. change (2 ^ 16)%Z with 65536%Z. change (2 ^ 8)%Z with 256%Z.
  change (2 ^ 32)%Z with 4294967296%Z in Hn.
  Z.to_euclidean_division_equations. lia.
Qed.

Lemma str_sorted_NoDup (l : list string) : StronglySorted str_lt l -> NoDup l.
Proof.
  induction 1 as [|x l _ IH Hall]; constructor; [|done].
  intros Hx. rewrite Forall_forall in Hall. by apply (str_lt_irrefl x), Hall.
Qed.

(** ** Maps *)

(** A filter on the keys of a map. *)
Lemma lookup_filter_key `{Countable K} {A} (P : K -> Prop)
    `{!forall k, Decision (P k), !forall e : K * A, Decision (P e.1)} (m : gmap K A) k :
  filter (fun e : K * A => P e.1) m !! k = if decide (P k) then m !! k else None.
Proof.
  rewrite map_lookup_filter. destruct (m !! k) as [x|]; simpl; [|by case_decide].
  unfold guard. by do 2 case_decide.
Qed.

(** ** Lists *)

Lemma filter_all {A} (P : A -> Prop) `{!forall x, Decision (P x)} (l : list A) :
  Forall P l -> filter P l = l.
Proof. induction 1 as [|x l Hx _ IH]; [done|]. rewrite filter_cons, decide_True by done. by rewrite IH. Qed.

Lemma filter_ext_in {A} (P Q : A -> Prop) `{forall x, Decision (P x)} `{forall x, Decision (Q x)} (l : list A) :
  (forall x, x ∈ l -> P x <-> Q x) -> filter P l = filter Q l.
Proof.
  induction l as [|x l IH]; intros Hx; [done|]. rewrite !filter_cons.
  rewrite IH by (intros y Hy; apply Hx; by right). specialize (Hx x (list_elem_of_here _ _)).
  do 2 case_decide; tauto.
Qed.

(** ** Integers and times *)

(** Arithmetic on uint64. *)
Definition u64 (x : Z) : Z := (x mod 2 ^ 64)%Z.

(** Go's zero time, in nanoseconds since 1970. *)
Definition zero_time : Z := (-62135596800 * 1000000000)%Z.

(** ** Decisions *)

(** A condition on the target of a pointer that may be nil. *)
#[export] Instance some_dec {A} (P : A -> Prop) `{!forall x, Decision (P x)} (o : option A) :
  Decision (exists x, o = Some x /\ P x).
Proof.
  refine (match o with
          | Some x => match decide (P x) with left H => left _ | right H => right _ end
          | None => right _ end); naive_solver.
Defined.

(** ** Sorting

    [sort.Slice] and [sort.SliceStable] with a comparison function. *)
Section sorting.
Context {A : Type} (less : A -> A -> bool).

Fixpoint sort_insert (x : A) (l : list A) : list A :=
  match l with
  | [] => [x]
  | y :: rest => if less y x then y :: sort_insert x rest else x :: l
  end.

Definition sort_by (l : list A) : list A := foldr sort_insert [] l.
End sorting.

(** ** Sorting is canonical *)

Section sorted.
Context {A : Type} {K : Type} (less : A -> A -> bool) (key : A -> K).
Hypothesis less_irrefl : forall a, less a a = false.
Hypothesis less_trans : forall a b c, less a b = true -> less b c = true -> less a c = true.
Hypothesis less_total : forall a b, key a <> key b -> less a b = true \/ less b a = true.

Notation before := (fun a b => less a b = true).

Lemma sort_insert_perm x l : sort_insert less x l ≡ₚ x :: l.
Proof.
  induction l as [|y l IH]; cbn; [done|]. destruct (less y x); [|done]. rewrite IH. constructor.
Qed.

Lemma sort_by_cons x l : sort_by less (x :: l) = sort_insert less x (sort_by less l).
Proof. done. Qed.

Lemma sort_by_perm l : sort_by less l ≡ₚ l.
Proof. induction l as [|x l IH]; [done|]. by rewrite sort_by_cons, sort_insert_perm, IH. Qed.

Lemma sort_insert_sorted x l :
  StronglySorted before l -> Forall (fun y => key x <> key y) l -> StronglySorted before (sort_insert less x l).
Proof.
  induction 1 as [|y l Hs IH Hy]; intros Hk; cbn; [by repeat constructor|].
  apply Forall_cons in Hk as [Hxy Hk]. destruct (less y x) eqn:E.
  - constructor; [by apply IH|]. rewrite sort_insert_perm. by constructor.
  - destruct (less_total x y Hxy) as [Hl|Hl]; [|congruence]. constructor; [by constructor|].
    constructor; [done|]. eapply Forall_impl; [exact Hy|]. cbn. eauto.
Qed.

Lemma sort_by_sorted l : NoDup (map key l) -> StronglySorted before (sort_by less l).
Proof.
  induction l as [|x l IH]; [constructor|]. intros [Hx Hd]%NoDup_cons. rewrite sort_by_cons. apply sort_insert_sorted; [by apply IH|].
  rewrite sort_by_perm. apply Forall_forall. intros y Hy E. apply Hx. rewrite E. by apply list_elem_of_fmap_2.
Qed.

Instance before_antisymm : AntiSymm (=) before.
Proof. intros a b H1 H2. pose proof (less_trans _ _ _ H1 H2). by rewrite less_irrefl in *. Qed.

(** Any sorted arrangement of the elements is the one the sort returns. *)
Lemma sort_by_unique l l' : NoDup (map key l) -> l' ≡ₚ l -> StronglySorted before l' -> l' = sort_by less l.
Proof.
  intros Hd Hp Hs. eapply (StronglySorted_unique before); [done|by apply sort_by_sorted|].
  by rewrite sort_by_perm.
Qed.

Lemma sort_by_canonical l l' : NoDup (map key l) -> l' ≡ₚ l -> sort_by less l' = sort_by less l.
Proof.
  intros Hd Hp. apply sort_by_unique; [done|by rewrite sort_by_perm|]. apply sort_by_sorted. by rewrite Hp.
Qed.

Lemma sorted_filter (P : A -> Prop) `{forall a, Decision (P a)} l :
  StronglySorted before l -> StronglySorted before (filter P l).
Proof.
  induction 1 as [|y l Hs IH Hy]; [constructor|]. rewrite filter_cons. case_decide; [|done].
  constructor; [done|]. rewrite Forall_forall in *. intros z [_ Hz]%list_elem_of_filter. auto.
Qed.

Lemma sort_by_filter (P : A -> Prop) `{forall a, Decision (P a)} l :
  NoDup (map key l) -> sort_by less (filter P l) = filter P (sort_by less l).
Proof.
  intros Hd. symmetry. apply sort_by_unique.
  - eapply sublist_NoDup; [exact Hd|]. apply fmap_sublist, sublist_filter.
  - by rewrite sort_by_perm.
  - by apply sorted_filter, sort_by_sorted.
Qed.
End sorted.
