(* ===== verification/GoStrings.v ===== *)
(** * Go strings

    The functions of Go's packages strings, strconv and fmt that the modelled
    code calls, on strings of bytes, and the facts about them that its keys,
    addresses, frames and numbers need. *)
From stdpp Require Import base list strings sets gmap.
From Stdlib Require Import ZArith Lia Strings.Ascii DecimalString DecimalN.
From Stdlib Require Strings.String.
From S2P Require Import Prelude.

(** ** Package strings *)

Definition code (c : ascii) : N := N_of_ascii c.

(** The UTF-8 encodings of the runes that [unicode.IsSpace] accepts have one,
    two or three bytes. *)
Definition space1 (a : ascii) : bool :=
  bool_decide (code a ∈ [9; 10; 11; 12; 13; 32]%N).
Definition space2 (a b : ascii) : bool :=
  bool_decide (code a = 194%N /\ code b ∈ [133; 160]%N).
Definition space3 (a b c : ascii) : bool :=
  bool_decide ((code a = 225 /\ code b = 154 /\ code c = 128) \/
    (code a = 226 /\ code b = 128 /\ (128 <= code c <= 138 \/ code c ∈ [168; 169; 175])) \/
    (code a = 226 /\ code b = 129 /\ code c = 159) \/
    (code a = 227 /\ code b = 128 /\ code c = 128))%N.

(** Dropping spaces at the front; [two] and [three] see the bytes in the order
    of the list, so that the same function trims the reversed end. *)
Fixpoint trim_front (two : ascii -> ascii -> bool) (three : ascii -> ascii -> ascii -> bool)
    (l : list ascii) : list ascii :=
  match l with
  | [] => []
  | a :: l1 =>
      if space1 a then trim_front two three l1 else
      match l1 with
      | [] => l
      | b :: l2 =>
          if two a b then trim_front two three l2 else
          match l2 with
          | [] => l
          | c :: l3 => if three a b c then trim_front two three l3 else l
          end
      end
  end.

Definition trim_bytes (l : list ascii) : list ascii :=
  let l := trim_front space2 space3 l in
  rev (trim_front (fun b a => space2 a b) (fun c b a => space3 a b c) (rev l)).

Definition TrimSpace (s : string) : string :=
  String.string_of_list_ascii (trim_bytes (String.list_ascii_of_string s)).

Definition HasPrefix (s p : string) : bool := String.prefix p s.
Definition HasSuffix (s p : string) : bool :=
  bool_decide (String.length p <= String.length s)%nat &&
  String.eqb (String.substring (String.length s - String.length p) (String.length p) s) p.
Definition TrimSuffix (s p : string) : string :=
  if HasSuffix s p then String.substring 0 (String.length s - String.length p) s else s.

(** [strings.LastIndex] for a single byte; [None] is -1. *)
Fixpoint last_index (c : ascii) (s : string) : option nat :=
  match s with
  | EmptyString => None
  | String.String a s =>
      match last_index c s with
      | Some i => Some (S i)
      | None => if decide (a = c) then Some O else None
      end
  end.

Definition TrimPrefix (s p : string) : string :=
  if HasPrefix s p then String.substring (String.length p) (String.length s - String.length p) s else s.

(** ** Numbers *)

(** [fmt.Sprintf("%d", i)] for a uint64. *)
Definition sprintf_d (i : Z) : string := NilZero.string_of_uint (N.to_uint (Z.to_N i)).

Definition is_digit (c : Ascii.ascii) : bool :=
  let n := Ascii.N_of_ascii c in (48 <=? n)%N && (n <=? 57)%N.

Fixpoint digit_prefix (s : string) : string :=
  match s with
  | EmptyString => EmptyString
  | String c rest => if is_digit c then String c (digit_prefix rest) else EmptyString
  end.

(** [fmt.Sscanf(s, "%d", &idx)] on a uint64 that starts as 0: the number the
    leading digits form, left at 0 when there is none or it does not fit. *)
Definition sscanf_d (s : string) : Z :=
  match NilZero.uint_of_string (digit_prefix s) with
  | Some d => let v := Z.of_N (N.of_uint d) in if decide (v < 2 ^ 64)%Z then v else 0
  | None => 0
  end.

(** ** Package strconv *)

Definition digit_value (base : Z) (c : ascii) : option Z :=
  let n := Z.of_N (code c) in
  let v := if decide (48 <= n <= 57)%Z then (n - 48)%Z
           else if decide (97 <= n <= 122)%Z then (n - 87)%Z
           else if decide (65 <= n <= 90)%Z then (n - 55)%Z else base in
  if decide (v < base)%Z then Some v else None.

Fixpoint parse_digits (base acc : Z) (s : string) : option Z :=
  match s with
  | EmptyString => Some acc
  | String.String c s =>
      match digit_value base c with
      | Some v => parse_digits base (base * acc + v)%Z s
      | None => None
      end
  end.

(** [strconv.ParseUint] for a base other than 0. *)
Definition ParseUint (s : string) (base bits : Z) : option Z :=
  if decide (s = "") then None else
  match parse_digits base 0 s with
  | Some v => if decide (v < 2 ^ bits)%Z then Some v else None
  | None => None
  end.

Definition ParseInt (s : string) (base bits : Z) : option Z :=
  let '(neg, rest) :=
    match s with
    | String.String c rest => if decide (c = "-"%char) then (true, rest) else if decide (c = "+"%char) then (false, rest) else (false, s)
    | EmptyString => (false, s)
    end in
  match ParseUint rest base bits with
  | None => None
  | Some v =>
      if neg : bool then if decide (v <= 2 ^ (bits - 1))%Z then Some (- v)%Z else None
      else if decide (v < 2 ^ (bits - 1))%Z then Some v else None
  end.

(** [strconv.FormatInt(i, 10)]. *)
Definition FormatInt (i : Z) : string := if decide (i < 0)%Z then "-" +:+ sprintf_d (- i) else sprintf_d i.

(** ** Words *)

Definition flush_word (word : list ascii) : list string :=
  match word with [] => [] | _ => [String.string_of_list_ascii (rev word)] end.

Fixpoint fields_from (word l : list ascii) : list string :=
  match l with
  | [] => flush_word word
  | a :: l1 =>
      if space1 a then flush_word word ++ fields_from [] l1 else
      match l1 with
      | [] => flush_word (a :: word)
      | b :: l2 =>
          if space2 a b then flush_word word ++ fields_from [] l2 else
          match l2 with
          | [] => fields_from (a :: word) l1
          | c :: l3 => if space3 a b c then flush_word word ++ fields_from [] l3 else fields_from (a :: word) l1
          end
      end
  end.

(** [strings.Fields]: the words between runs of spaces. *)
Definition Fields (s : string) : list string := fields_from [] (String.list_ascii_of_string s).

(** [strings.Cut] at a byte. *)
Fixpoint cut_at (x : ascii) (s : string) : option (string * string) :=
  match s with
  | EmptyString => None
  | String.String c s =>
      if decide (c = x) then Some ("", s) else
      match cut_at x s with
      | Some (a, b) => Some (String.String c a, b)
      | None => None
      end
  end.

(** [strings.Split] at a byte. *)
Fixpoint split_at (x : ascii) (s : string) : list string :=
  match s with
  | EmptyString => [""]
  | String.String c s =>
      if decide (c = x) then "" :: split_at x s else
      match split_at x s with
      | w :: ws => String.String c w :: ws
      | [] => [String.String c ""]
      end
  end.

(** ** Trimming *)

Section trim.
Context (two : ascii -> ascii -> bool) (three : ascii -> ascii -> ascii -> bool).

Definition starts_space (l : list ascii) : bool :=
  match l with
  | a :: b :: c :: _ => space1 a || two a b || three a b c
  | [a; b] => space1 a || two a b
  | [a] => space1 a
  | [] => false
  end.

Lemma trim_front_spec l :
  exists dropped, l = dropped ++ trim_front two three l /\ starts_space (trim_front two three l) = false.
Proof.
  induction l as [l IH] using (well_founded_induction (well_founded_ltof _ (@length ascii))).
  assert (forall a l', l = a ++ l' -> (length l' < length l)%nat ->
    exists dropped, l = dropped ++ trim_front two three l' /\ starts_space (trim_front two three l') = false) as Hd.
  { intros a l' El Hlen. destruct (IH l' Hlen) as (p & Hp & Hs). exists (a ++ p). split; [|done].
    rewrite <- app_assoc, <- Hp. done. }
  destruct l as [|a l1]; [by exists []|]. simpl. destruct (space1 a) eqn:E1.
  { apply (Hd [a]); [done|simpl; lia]. }
  destruct l1 as [|b l2]; [exists []; simpl; by rewrite E1|]. destruct (two a b) eqn:E2.
  { apply (Hd [a; b]); [done|simpl; lia]. }
  destruct l2 as [|c l3]; [exists []; simpl; by rewrite E1, E2|]. destruct (three a b c) eqn:E3.
  { apply (Hd [a; b; c]); [done|simpl; lia]. }
  exists []. simpl. by rewrite E1, E2, E3.
Qed.

Lemma trim_front_done l : starts_space l = false -> trim_front two three l = l.
Proof.
  destruct l as [|a [|b [|c l]]]; simpl; rewrite ?orb_false_iff; [done|by intros ->| |].
  - by intros [-> ->].
  - by intros [[-> ->] ->].
Qed.

Lemma starts_space_prefix l l' : starts_space (l ++ l') = false -> starts_space l = false.
Proof.
  destruct l as [|a [|b [|c l]]]; simpl; rewrite ?orb_false_iff; [done|..].
  - destruct l' as [|b [|c l']]; rewrite ?orb_false_iff; naive_solver.
  - destruct l' as [|c l']; rewrite ?orb_false_iff; naive_solver.
  - done.
Qed.

Lemma starts_space_map (f : ascii -> ascii) l :
  (forall a, space1 (f a) = space1 a) -> (forall a b, two (f a) (f b) = two a b) ->
  (forall a b c, three (f a) (f b) (f c) = three a b c) -> starts_space (f <$> l) = starts_space l.
Proof. intros H1 H2 H3. destruct l as [|a [|b [|c l]]]; simpl; by rewrite ?H1, ?H2, ?H3. Qed.
End trim.

Notation starts_front := (starts_space space2 space3).
Notation starts_back := (starts_space (fun b a => space2 a b) (fun c b a => space3 a b c)).

Lemma trim_bytes_done l : starts_front l = false -> starts_back (rev l) = false -> trim_bytes l = l.
Proof.
  intros H1 H2. unfold trim_bytes. rewrite (trim_front_done _ _ l H1), (trim_front_done _ _ _ H2).
  apply rev_involutive.
Qed.

Lemma trim_bytes_ends l : starts_front (trim_bytes l) = false /\ starts_back (rev (trim_bytes l)) = false.
Proof.
  unfold trim_bytes. destruct (trim_front_spec space2 space3 l) as (p & _ & Hs).
  set (m := trim_front space2 space3 l) in *. clearbody m.
  destruct (trim_front_spec (fun b a => space2 a b) (fun c b a => space3 a b c) (rev m)) as (q & Hq & Hs').
  set (r := trim_front _ _ (rev m)) in *. clearbody r. rewrite rev_involutive. split; [|done].
  apply (starts_space_prefix _ _ _ (rev q)). rewrite <- rev_app_distr, <- Hq, rev_involutive. done.
Qed.

(** ** Decimal numbers *)

Lemma digit_prefix_uint d : digit_prefix (NilEmpty.string_of_uint d) = NilEmpty.string_of_uint d.
Proof. induction d as [|d IH|d IH|d IH|d IH|d IH|d IH|d IH|d IH|d IH|d IH]; simpl; by rewrite ?IH. Qed.

Lemma digit_prefix_sprintf i : digit_prefix (sprintf_d i) = sprintf_d i.
Proof. unfold sprintf_d. destruct (N.to_uint _); [done|..]; apply digit_prefix_uint. Qed.

Lemma to_uint_not_nil n : N.to_uint n <> Decimal.Nil.
Proof.
  intros E. pose proof (Unsigned.of_to n) as H. rewrite E in H. simpl in H. subst n. done.
Qed.

Lemma sscanf_sprintf i : (0 <= i < 2 ^ 64)%Z -> sscanf_d (sprintf_d i) = i.
Proof.
  intros Hi. unfold sscanf_d. rewrite digit_prefix_sprintf. unfold sprintf_d.
  rewrite NilZero.usu by apply to_uint_not_nil. rewrite Unsigned.of_to, Z2N.id by lia.
  by rewrite decide_True by lia.
Qed.

Lemma substring_whole s : String.substring 0 (String.length s) s = s.
Proof. induction s as [|c s IH]; simpl; [done|]. by rewrite IH. Qed.

(** ** Concatenation *)

Lemma prefix_append p s : String.prefix p (p +:+ s) = true.
Proof. induction p as [|c p IH]; simpl; [by destruct s|]. by destruct (Ascii.ascii_dec c c). Qed.

Lemma length_string_app a b : String.length (a +:+ b) = (String.length a + String.length b)%nat.
Proof. induction a as [|c a IH]; simpl; [done|]. by rewrite IH. Qed.

Lemma string_app_assoc a b c : (a +:+ b) +:+ c = a +:+ (b +:+ c).
Proof. induction a as [|x a IH]; [done|]. exact (f_equal (String.String x) IH). Qed.

Lemma append_inj_prefix a b x y : String.length a = String.length b -> a +:+ x = b +:+ y -> a = b /\ x = y.
Proof.
  revert b. induction a as [|c a IH]; intros [|d b] Hl He; simpl in *; try done.
  injection He as -> He. injection Hl as Hl. destruct (IH b Hl He) as [-> ->]. done.
Qed.

Lemma append_inj_suffix a b x y : String.length x = String.length y -> a +:+ x = b +:+ y -> a = b /\ x = y.
Proof.
  intros Hl He. apply append_inj_prefix; [|done]. apply (f_equal String.length) in He.
  rewrite !length_string_app in He. lia.
Qed.

Lemma substring_suffix p s : String.substring (String.length p) (String.length (p +:+ s) - String.length p) (p +:+ s) = s.
Proof.
  rewrite length_string_app. replace (String.length p + String.length s - String.length p)%nat with (String.length s) by lia.
  induction p as [|c p IH]; [|exact IH]. cbn [String.length]. change ("" +:+ s) with s. induction s as [|c s IH]; [done|].
  simpl. f_equal. exact IH.
Qed.

(** ** Parsing what was printed *)

Lemma parse_digits_acc d acc :
  parse_digits 10 (Z.pos acc) (NilEmpty.string_of_uint d) = Some (Z.pos (Pos.of_uint_acc d acc)).
Proof.
  revert acc. induction d as [|d IH|d IH|d IH|d IH|d IH|d IH|d IH|d IH|d IH|d IH]; intros acc; [done|..];
    cbn [NilEmpty.string_of_uint parse_digits Pos.of_uint_acc]; rewrite <- IH; (etransitivity; [|reflexivity]);
    cbv [digit_value]; simpl; f_equal; lia.
Qed.

Lemma parse_digits_uint d : parse_digits 10 0 (NilEmpty.string_of_uint d) = Some (Z.of_N (N.of_uint d)).
Proof.
  induction d as [|d IH|d IH|d IH|d IH|d IH|d IH|d IH|d IH|d IH|d IH]; [done|exact IH|..]; exact (parse_digits_acc d _).
Qed.

Lemma parse_sprintf i : (0 <= i)%Z -> parse_digits 10 0 (sprintf_d i) = Some i.
Proof.
  intros Hi. unfold sprintf_d, NilZero.string_of_uint. pose proof (to_uint_not_nil (Z.to_N i)) as Hn.
  transitivity (parse_digits 10 0 (NilEmpty.string_of_uint (N.to_uint (Z.to_N i)))).
  { by destruct (N.to_uint (Z.to_N i)). }
  rewrite parse_digits_uint, Unsigned.of_to. f_equal. lia.
Qed.

(** Visible ASCII, which no space starts in. *)
Definition visible_char (c : ascii) : Prop := (33 <= code c <= 126)%N.
Definition plain (s : string) : Prop := s <> "" /\ Forall visible_char (String.list_ascii_of_string s).

#[export] Instance visible_char_dec c : Decision (visible_char c).
Proof. unfold visible_char. apply _. Defined.
#[export] Instance plain_dec s : Decision (plain s).
Proof. unfold plain. apply _. Defined.

Lemma visible_not_space a b c :
  visible_char a -> space1 a = false /\ space2 a b = false /\ space3 a b c = false.
Proof.
  unfold visible_char, space1, space2, space3. intros Ha. split_and!; apply bool_decide_eq_false; set_unfold; lia.
Qed.

Lemma uint_visible d : Forall visible_char (String.list_ascii_of_string (NilEmpty.string_of_uint d)).
Proof.
  induction d as [|d IH|d IH|d IH|d IH|d IH|d IH|d IH|d IH|d IH|d IH]; simpl; [constructor|..];
    (constructor; [by vm_compute|done]).
Qed.

Lemma sprintf_plain i : plain (sprintf_d i).
Proof.
  unfold sprintf_d, NilZero.string_of_uint. pose proof (to_uint_not_nil (Z.to_N i)) as Hn.
  split; [by destruct (N.to_uint (Z.to_N i))|].
  destruct (N.to_uint (Z.to_N i)); [done|..]; apply uint_visible.
Qed.

Lemma ParseUint_sprintf i bits : (0 <= i < 2 ^ bits)%Z -> ParseUint (sprintf_d i) 10 bits = Some i.
Proof.
  intros Hi. unfold ParseUint. rewrite decide_False by apply sprintf_plain. rewrite parse_sprintf by lia.
  by rewrite decide_True by lia.
Qed.

Lemma sprintf_sign i : exists c s, sprintf_d i = String.String c s /\ c <> "-"%char /\ c <> "+"%char.
Proof.
  unfold sprintf_d, NilZero.string_of_uint. pose proof (to_uint_not_nil (Z.to_N i)) as Hn.
  destruct (N.to_uint (Z.to_N i)); [done|..]; simpl; do 2 eexists; by split_and!.
Qed.

Lemma ParseInt_format i bits : (- 2 ^ (bits - 1) <= i < 2 ^ (bits - 1))%Z -> (0 < bits)%Z -> ParseInt (FormatInt i) 10 bits = Some i.
Proof.
  intros Hi Hb. assert (2 ^ bits = 2 * 2 ^ (bits - 1))%Z as Eb.
  { rewrite <- Z.pow_succ_r by lia. f_equal. lia. }
  unfold FormatInt. case_decide as Hn.
  - change ("-" +:+ sprintf_d (- i)) with (String.String "-" (sprintf_d (- i))). unfold ParseInt. rewrite decide_True by done.
    rewrite ParseUint_sprintf by lia. rewrite decide_True by lia. f_equal. lia.
  - destruct (sprintf_sign i) as (c & s & Es & Hm & Hp). unfold ParseInt. rewrite Es, !decide_False by done.
    rewrite <- Es, ParseUint_sprintf by lia. by rewrite decide_True by lia.
Qed.

Lemma format_plain i : plain (FormatInt i).
Proof.
  unfold FormatInt. case_decide; [|apply sprintf_plain]. destruct (sprintf_plain (- i)) as [_ Hf]. split; [done|].
  constructor; [by vm_compute|exact Hf].
Qed.

Lemma list_ascii_app a b :
  String.list_ascii_of_string (a +:+ b) = String.list_ascii_of_string a ++ String.list_ascii_of_string b.
Proof. induction a as [|c a IH]; [done|]. exact (f_equal (cons c) IH). Qed.

(** Words of visible characters survive joining with spaces and splitting. *)
Lemma fields_word w word rest :
  Forall visible_char w -> fields_from word (w ++ " "%char :: rest) = flush_word (rev w ++ word) ++ fields_from [] rest.
Proof.
  intros Hw. revert word. induction Hw as [|a w Ha Hw IH]; intros word; [done|].
  assert (forall word l, fields_from word (a :: l) =
    match l with [] => flush_word (a :: word) | _ => fields_from (a :: word) l end) as Hstep.
  { intros wd l. simpl. destruct (visible_not_space a a a Ha) as [-> _]. destruct l as [|b [|c l]]; [done| |].
    - by destruct (visible_not_space a b b Ha) as (_ & -> & _).
    - by destruct (visible_not_space a b c Ha) as (_ & -> & ->). }
  rewrite <- app_comm_cons, Hstep. specialize (IH (a :: word)). simpl rev. rewrite <- app_assoc. simpl app at 2.
  destruct (w ++ " "%char :: rest) eqn:E; [by destruct w|]. exact IH.
Qed.

Lemma fields_last w word : Forall visible_char w -> fields_from word w = flush_word (rev w ++ word).
Proof.
  intros Hw. revert word. induction Hw as [|a w Ha Hw IH]; intros word; [done|]. simpl rev. rewrite <- app_assoc.
  change ([a] ++ word) with (a :: word). rewrite <- IH. simpl. destruct (visible_not_space a a a Ha) as [-> _].
  destruct w as [|b [|c l]]; [done| |].
  - by destruct (visible_not_space a b b Ha) as (_ & -> & _).
  - by destruct (visible_not_space a b c Ha) as (_ & -> & ->).
Qed.

Lemma flush_plain w : plain w -> flush_word (rev (String.list_ascii_of_string w) ++ []) = [w].
Proof.
  intros [Hne _]. rewrite app_nil_r. unfold flush_word. destruct (rev _) as [|c l] eqn:E.
  - apply (f_equal (@length ascii)) in E. rewrite length_rev in E. destruct w; [done|]. simpl in E. lia.
  - rewrite <- E, rev_involutive, String.string_of_list_ascii_of_string. done.
Qed.

Lemma Fields_cons w rest : plain w -> Fields (w +:+ " " +:+ rest) = w :: Fields rest.
Proof.
  intros Hw. unfold Fields. rewrite list_ascii_app. simpl. rewrite fields_word by apply Hw. by rewrite flush_plain.
Qed.

Lemma Fields_one w : plain w -> Fields w = [w].
Proof. intros Hw. unfold Fields. rewrite fields_last by apply Hw. by rewrite flush_plain. Qed.

Lemma TrimSpace_plain_ends s a b l m :
  String.list_ascii_of_string s = a :: l -> String.list_ascii_of_string s = m ++ [b] -> visible_char a -> visible_char b ->
  TrimSpace s = s.
Proof.
  intros Ea Eb Ha Hb. unfold TrimSpace. rewrite trim_bytes_done; [by rewrite String.string_of_list_ascii_of_string|..].
  - rewrite Ea. destruct l as [|c [|d l]]; simpl; destruct (visible_not_space a a a Ha) as [-> _]; [done|..];
      destruct (visible_not_space a c c Ha) as (_ & -> & _); [done|].
    by destruct (visible_not_space a c d Ha) as (_ & _ & ->).
  - rewrite Eb, rev_unit. assert (forall x y, space2 x b = false /\ space3 y x b = false) as H23.
    { unfold space2, space3, visible_char in *. intros x y. split; apply bool_decide_eq_false; set_unfold; lia. }
    destruct (rev m) as [|c [|d r]]; simpl; destruct (visible_not_space b b b Hb) as [-> _]; [done|..];
      destruct (H23 c c) as [-> _]; [done|]. by destruct (H23 c d) as [_ ->].
Qed.

Lemma parse_digits_nonneg base acc s v : (0 <= base -> 0 <= acc -> parse_digits base acc s = Some v -> 0 <= v)%Z.
Proof.
  intros Hb. revert acc. induction s as [|c s IH]; intros acc Ha; cbn; [intros [= <-]; done |].
  destruct (digit_value base c) as [d|] eqn:E; [| done]. apply IH.
  assert (0 <= d)%Z by (revert E; unfold digit_value; repeat case_match; intros; simplify_eq; lia). nia.
Qed.
