(* ===== verification/GoFloat.v ===== *)
(** * float64

    The IEEE 754 double-precision arithmetic of Go's [float64], on the
    specification floats of the Standard Library, with the conversions and
    the functions of package math the figures of a report use. [math.Log] and
    [math.Pow] stay parameters of what uses them. *)
From Stdlib Require Import ZArith Floats.SpecFloat.
From stdpp Require Import base decidable.

Open Scope Z_scope.

Definition float64 := spec_float.

#[export] Instance float64_eq_dec : EqDecision float64.
Proof. unfold EqDecision, Decision. repeat decide equality. Defined.

Declare Scope float64_scope.
Delimit Scope float64_scope with f64.
Bind Scope float64_scope with float64.

Definition fadd : float64 -> float64 -> float64 := SFadd 53 1024.
Definition fsub : float64 -> float64 -> float64 := SFsub 53 1024.
Definition fmul : float64 -> float64 -> float64 := SFmul 53 1024.
Definition fdiv : float64 -> float64 -> float64 := SFdiv 53 1024.

Infix "+" := fadd : float64_scope.
Infix "-" := fsub : float64_scope.
Infix "*" := fmul : float64_scope.
Infix "/" := fdiv : float64_scope.

(** [float64(n)] for an integer, rounded to nearest even. *)
Definition float_of (n : Z) : float64 := binary_normalize 53 1024 n 0 false.

(** The constant [n / d]. *)
Definition const (n d : Z) : float64 := (float_of n / float_of d)%f64.

Definition flt : float64 -> float64 -> bool := SFltb.
Definition fle : float64 -> float64 -> bool := SFleb.

Definition Inf (neg : bool) : float64 := S754_infinity neg.

(** [math.Max] and [math.Min]: NaN wins, and so does the matching zero. *)
Definition math_Max (x y : float64) : float64 :=
  match x, y with
  | S754_infinity false, _ | _, S754_infinity false => Inf false
  | S754_nan, _ | _, S754_nan => S754_nan
  | S754_zero true, S754_zero _ => y
  | S754_zero false, S754_zero _ => x
  | _, _ => if flt y x then x else y
  end.
Definition math_Min (x y : float64) : float64 :=
  match x, y with
  | S754_infinity true, _ | _, S754_infinity true => Inf true
  | S754_nan, _ | _, S754_nan => S754_nan
  | S754_zero true, S754_zero _ => x
  | S754_zero false, S754_zero _ => y
  | _, _ => if flt x y then x else y
  end.

(** [int(math.Floor(x))] and [int(math.Ceil(x))] of a number in the range of
    int64. *)
Definition floor_int (x : float64) : Z :=
  match x with S754_finite s m e => Z.shiftl (cond_Zopp s (Zpos m)) e | _ => 0 end.
Definition ceil_int (x : float64) : Z :=
  match x with S754_finite s m e => - Z.shiftl (- cond_Zopp s (Zpos m)) e | _ => 0 end.
