(* ===== verification/BTree.v ===== *)
(** * The in-memory B+Tree of the storage engine

    Models [btreeIndex] and [btreeNode] of src/internal/storage/engine.go:
    node splitting, insertion, point lookup descent and the walk along the
    chained leaves. Go's leaves are shared between their parent and the
    [next] pointer of the leaf on their left; here a leaf carries the address
    it was allocated at, [next] holds an address, and following it looks the
    leaf up in the current tree, so an update made through the parent is the
    one a scan sees. An index panic of the Go code is [None]. *)
From stdpp Require Import base gmap strings list sorting.
From Stdlib Require Import Lia.
From S2P Require Import Prelude.

(** ** Data *)

Record leaf := Leaf {
  laddr : nat;
  lkeys : list string;
  lvalues : list gobytes;
  lnext : option nat;
}.

Inductive btreeNode :=
| LeafNode (l : leaf)
| InnerNode (keys : list string) (children : list btreeNode).

Record btreeIndex := BTreeIndex {
  root : btreeNode;
  nextSeq : Z;
  btreeOrder : nat;
  heapTop : nat; (* address of the next allocated leaf *)
}.

Definition defaultBTreeOrder : nat := 32.
Definition minBTreeOrder : nat := 4.
Definition maxBTreeOrder : nat := 256.

Definition node_keys (n : btreeNode) : list string :=
  match n with LeafNode l => lkeys l | InnerNode ks _ => ks end.

Fixpoint depth (n : btreeNode) : nat :=
  match n with
  | LeafNode _ => 1
  | InnerNode _ cs => S (max_list_with depth cs)
  end.

(** The leaves from left to right. *)
Fixpoint leaves (n : btreeNode) : list leaf :=
  match n with
  | LeafNode l => [l]
  | InnerNode _ cs => concat (map leaves cs)
  end.

(** ** Operations *)

Definition findKeyIndex (keys : list string) (key : string) : nat :=
  sort_Search (length keys) (fun i =>
    match keys !! i with Some k => String.leb key k | None => false end).

Definition findChildIndex (keys : list string) (key : string) : nat :=
  sort_Search (length keys) (fun i =>
    match keys !! i with Some k => String.ltb key k | None => false end).

Definition insert_slice {A} (slice : list A) (idx : nat) (val : A) : option (list A) :=
  if decide (idx <= length slice) then Some (take idx slice ++ val :: drop idx slice)
  else None.

Definition insertString (slice : list string) (idx : nat) (val : string) :
    option (list string) := insert_slice slice idx val.
Definition insertBytes (slice : list gobytes) (idx : nat) (val : gobytes) :
    option (list gobytes) := insert_slice slice idx val.
Definition insertNode (slice : list btreeNode) (idx : nat) (val : btreeNode) :
    option (list btreeNode) := insert_slice slice idx val.

(** [splitChild] on the receiver's keys and children; [top] is the address
    given to a newly allocated leaf. *)
Definition splitChild (keys : list string) (children : list btreeNode)
    (idx order top : nat) : option (list string * list btreeNode * nat) :=
  child ← children !! idx;
  let mid := (order - 1) / 2 in
  match child with
  | LeafNode (Leaf a cks cvs nx) =>
      separator ← cks !! (mid + 1);
      if decide (length cvs < mid + 1) then None else
      let newNode := LeafNode (Leaf top (drop (mid + 1) cks) (drop (mid + 1) cvs) nx) in
      let child' := LeafNode (Leaf a (take (mid + 1) cks) (take (mid + 1) cvs) (Some top)) in
      keys' ← insertString keys idx separator;
      children' ← insertNode (<[idx:=child']> children) (idx + 1) newNode;
      Some (keys', children', S top)
  | InnerNode cks ccs =>
      separator ← cks !! mid;
      if decide (length ccs < mid + 1) then None else
      let newNode := InnerNode (drop (mid + 1) cks) (drop (mid + 1) ccs) in
      let child' := InnerNode (take mid cks) (take (mid + 1) ccs) in
      keys' ← insertString keys idx separator;
      children' ← insertNode (<[idx:=child']> children) (idx + 1) newNode;
      Some (keys', children', top)
  end.

Fixpoint insertNonFull (fuel : nat) (n : btreeNode) (key : string) (value : gobytes)
    (order top : nat) : option (btreeNode * nat) :=
  match fuel with
  | 0 => None
  | S fuel =>
      match n with
      | LeafNode (Leaf a ks vs nx) =>
          let idx := findKeyIndex ks key in
          if decide (ks !! idx = Some key) then
            if decide (idx < length vs) then
              Some (LeafNode (Leaf a ks (<[idx:=value]> vs) nx), top)
            else None
          else
            ks' ← insertString ks idx key;
            vs' ← insertBytes vs idx value;
            Some (LeafNode (Leaf a ks' vs' nx), top)
      | InnerNode ks cs =>
          let idx := findChildIndex ks key in
          child ← cs !! idx;
          if decide (order - 1 <= length (node_keys child)) then
            '(ks', cs', top') ← splitChild ks cs idx order top;
            separator ← ks' !! idx;
            let idx' := if String.leb separator key then S idx else idx in
            child' ← cs' !! idx';
            '(child'', top'') ← insertNonFull fuel child' key value order top';
            Some (InnerNode ks' (<[idx':=child'']> cs'), top'')
          else
            '(child', top') ← insertNonFull fuel child key value order top;
            Some (InnerNode ks (<[idx:=child']> cs), top')
      end
  end.

Definition grow_root (idx : btreeIndex) : option (btreeNode * nat) :=
  if decide (btreeOrder idx - 1 <= length (node_keys (root idx))) then
    '(ks, cs, top) ← splitChild [] [root idx] 0 (btreeOrder idx) (heapTop idx);
    Some (InnerNode ks cs, top)
  else Some (root idx, heapTop idx).

Definition btree_insert (idx : btreeIndex) (key : string) (value : gobytes) : option btreeIndex :=
  '(r, top) ← grow_root idx;
  '(r', top') ← insertNonFull (depth r) r key value (btreeOrder idx) top;
  Some (BTreeIndex r' (nextSeq idx) (btreeOrder idx) top').

(** The descent shared by [Get] and the scans. [Get] gives up when the child
    index is out of range, the scans fall back to the last child. *)
Fixpoint descend (fuel : nat) (n : btreeNode) (key : string) : option leaf :=
  match fuel with
  | 0 => None
  | S fuel =>
      match n with
      | LeafNode l => Some l
      | InnerNode ks cs =>
          child ← cs !! findChildIndex ks key;
          descend fuel child key
      end
  end.

Fixpoint descend_last (fuel : nat) (n : btreeNode) (key : string) : option leaf :=
  match fuel with
  | 0 => None
  | S fuel =>
      match n with
      | LeafNode l => Some l
      | InnerNode ks cs =>
          match cs !! findChildIndex ks key with
          | Some child => descend_last fuel child key
          | None => child ← last cs; descend_last fuel child key
          end
      end
  end.

Fixpoint leftmost (fuel : nat) (n : btreeNode) : option leaf :=
  match fuel with
  | 0 => None
  | S fuel =>
      match n with
      | LeafNode l => Some l
      | InnerNode _ cs => child ← head cs; leftmost fuel child
      end
  end.

Definition deref (r : btreeNode) (a : nat) : option leaf :=
  list_find (fun l => laddr l = a) (leaves r) ≫= fun p => Some p.2.

(** [for node != nil { ...; node = node.next }]: the leaves visited. *)
Fixpoint follow (fuel : nat) (r : btreeNode) (cur : option leaf) : list leaf :=
  match fuel, cur with
  | S fuel, Some l => l :: follow fuel r (lnext l ≫= deref r)
  | _, _ => []
  end.

Definition leaf_entries (l : leaf) : list (string * gobytes) := zip (lkeys l) (lvalues l).

Definition entries (ls : list leaf) : list (string * gobytes) := concat (map leaf_entries ls).

(** [scanAllNodes]: every entry whose value is not a tombstone. *)
Definition live (e : string * gobytes) : option (string * bytes) := (fun v => (e.1, v)) <$> e.2.

Definition scanAllNodes (idx : btreeIndex) : list (string * bytes) :=
  let r := root idx in
  omap live (entries (follow (length (leaves r)) r (leftmost (depth r) r))).

(** The walk of [rebuildIndexes] over the leaves: all keys, deleted ones too. *)
Definition tree_keys (idx : btreeIndex) : list string :=
  let r := root idx in map fst (entries (follow (length (leaves r)) r (leftmost (depth r) r))).

(** ** Well-formedness *)

(** Separator bounds: the lower one inclusive, the upper one exclusive. *)
Definition above (lo : option string) (k : string) : Prop :=
  match lo with Some l => ~ str_lt k l | None => True end.
Definition strictly_above (lo : option string) (k : string) : Prop :=
  match lo with Some l => str_lt l k | None => True end.
Definition below (hi : option string) (k : string) : Prop :=
  match hi with Some h => str_lt k h | None => True end.
Definition in_bounds (lo hi : option string) (k : string) : Prop := above lo k /\ below hi k.

Definition node_leaf_keys (n : btreeNode) : list string := concat (map lkeys (leaves n)).

(** [wf o h lo hi n]: a tree of height [h] (all leaves at the same depth),
    at most [o - 1] keys per node, keys strictly sorted and within the
    bounds, and one more child than separators. *)
Inductive wf (o : nat) : nat -> option string -> option string -> btreeNode -> Prop :=
| wf_leaf lo hi a ks vs nx :
    length ks = length vs -> StronglySorted str_lt ks -> Forall (in_bounds lo hi) ks ->
    length ks <= o - 1 ->
    wf o 0 lo hi (LeafNode (Leaf a ks vs nx))
| wf_inner h lo hi ks cs :
    wfs o h lo ks hi cs -> length ks <= o - 1 ->
    wf o (S h) lo hi (InnerNode ks cs)
with wfs (o : nat) : nat -> option string -> list string -> option string ->
    list btreeNode -> Prop :=
| wfs_one h lo hi c : wf o h lo hi c -> wfs o h lo [] hi [c]
| wfs_cons h lo hi k ks c cs :
    wf o h lo (Some k) c -> strictly_above lo k -> below hi k ->
    wfs o h (Some k) ks hi cs ->
    wfs o h lo (k :: ks) hi (c :: cs).

Scheme wf_mind := Induction for wf Sort Prop
  with wfs_mind := Induction for wfs Sort Prop.
Combined Scheme wf_wfs_ind from wf_mind, wfs_mind.

(** The leaf chain: every [next] is the address of the leaf to the right. *)
Definition head_addr (ls : list leaf) (after : option nat) : option nat :=
  match ls with l :: _ => Some (laddr l) | [] => after end.

Fixpoint linked (ls : list leaf) (after : option nat) : Prop :=
  match ls with
  | [] => True
  | l :: rest => lnext l = head_addr rest after /\ linked rest after
  end.

Definition chain_ok (top : nat) (ls : list leaf) : Prop :=
  linked ls None /\ NoDup (map laddr ls) /\ Forall (fun l => laddr l < top) ls.

Record wf_index (idx : btreeIndex) : Prop := {
  wfi_order : minBTreeOrder <= btreeOrder idx;
  wfi_tree : exists h, wf (btreeOrder idx) h None None (root idx);
  wfi_chain : chain_ok (heapTop idx) (leaves (root idx));
}.

(** The abstract value of the index: a finite map from keys to slices. *)
Definition contents (idx : btreeIndex) : gmap string gobytes :=
  list_to_map (entries (leaves (root idx))).

(** ** Bounds *)

Lemma above_weaken lo k k' : above lo k -> str_lt k k' -> strictly_above lo k'.
Proof. destruct lo; simpl; [|done]. intros H1 H2. by eapply str_le_lt_trans. Qed.

Lemma strictly_above_above lo k : strictly_above lo k -> above lo k.
Proof. destruct lo; simpl; [|done]. apply str_lt_le. Qed.

Lemma above_above lo k k' : above lo k -> ~ str_lt k' k -> above lo k'.
Proof.
  destruct lo as [l|]; simpl; [|done]. intros H1 H2 H3. apply H1.
  by eapply str_le_lt_trans.
Qed.

Lemma below_below hi k k' : below hi k -> ~ str_lt k k' -> below hi k'.
Proof. destruct hi; simpl; [|done]. intros H1 H2. by eapply str_le_lt_trans. Qed.

Lemma below_lt hi k k' : below hi k -> str_lt k' k -> below hi k'.
Proof. intros H1 H2. eapply below_below; [done|]. by apply str_lt_le. Qed.

Create HintDb btree.
#[export] Hint Resolve above_weaken strictly_above_above above_above below_below below_lt
  str_lt_trans str_lt_le : btree.

Lemma node_leaf_keys_inner ks cs :
  node_leaf_keys (InnerNode ks cs) = concat (map node_leaf_keys cs).
Proof.
  unfold node_leaf_keys; simpl. induction cs as [|c cs IH]; simpl; [done|].
  by rewrite map_app, concat_app, IH.
Qed.

Lemma wf_bounds_mut o :
  (forall h lo hi n, wf o h lo hi n -> Forall (in_bounds lo hi) (node_leaf_keys n)) /\
  (forall h lo ks hi cs, wfs o h lo ks hi cs ->
    Forall (in_bounds lo hi) (concat (map node_leaf_keys cs))).
Proof.
  apply wf_wfs_ind.
  - intros. unfold node_leaf_keys; simpl. by rewrite app_nil_r.
  - intros h lo hi ks cs _ IH _. by rewrite node_leaf_keys_inner.
  - intros h lo hi c _ IH. simpl. by rewrite app_nil_r.
  - intros h lo hi k ks c cs _ IH1 Hlo Hhi _ IH2. simpl. apply Forall_app; split.
    + eapply Forall_impl; [exact IH1|]. intros x [H1 H2]; simpl in *. split; eauto with btree.
    + eapply Forall_impl; [exact IH2|]. intros x [H1 H2]; simpl in *. split; eauto with btree.
Qed.

Lemma wf_bounds o h lo hi n : wf o h lo hi n -> Forall (in_bounds lo hi) (node_leaf_keys n).
Proof. apply wf_bounds_mut. Qed.

Lemma wfs_length o h lo ks hi cs : wfs o h lo ks hi cs -> length cs = S (length ks).
Proof. induction 1; simpl; congruence. Qed.

Lemma wf_depth_mut o :
  (forall h lo hi n, wf o h lo hi n -> depth n = S h) /\
  (forall h lo ks hi cs, wfs o h lo ks hi cs -> max_list_with depth cs = S h).
Proof. apply wf_wfs_ind; intros; simpl in *; lia. Qed.

Lemma wf_depth o h lo hi n : wf o h lo hi n -> depth n = S h.
Proof. apply wf_depth_mut. Qed.

Lemma wfs_keys_sorted o h lo ks hi cs :
  wfs o h lo ks hi cs -> StronglySorted str_lt ks /\ Forall (strictly_above lo) ks /\ Forall (below hi) ks.
Proof.
  induction 1 as [|h lo hi k ks c cs H1 H2 H3 H4 (IH1 & IH2 & IH3)].
  - split_and!; constructor.
  - split_and!; constructor; auto.
    eapply Forall_impl; [exact IH2|]. intros x ?; simpl in *; eauto with btree.
Qed.

(** ** Binary search over sorted keys *)

Lemma StronglySorted_lookup_lt (ks : list string) i j a b :
  StronglySorted str_lt ks -> ks !! i = Some a -> ks !! j = Some b -> i < j -> str_lt a b.
Proof.
  intros Hs. revert i j. induction Hs as [|x l Hs IH Hall]; intros i j Hi Hj Hij; [done|].
  destruct i as [|i], j as [|j]; simpl in *; [lia| |lia|].
  - simplify_eq. rewrite Forall_forall in Hall. apply Hall.
    apply list_elem_of_lookup. eauto.
  - eapply IH; eauto; lia.
Qed.

(** A predicate that holds from some index on is found by [sort_Search]. *)
Lemma search_sorted (ks : list string) (P : string -> bool) :
  StronglySorted str_lt ks ->
  (forall a b, P a = true -> str_lt a b -> P b = true) ->
  let r := sort_Search (length ks)
    (fun i => match ks !! i with Some k => P k | None => false end) in
  r <= length ks /\ Forall (fun k => P k = false) (take r ks) /\
  Forall (fun k => P k = true) (drop r ks).
Proof.
  intros Hs Hup; cbv zeta.
  destruct (sort_Search_spec (length ks)
    (fun i => match ks !! i with Some k => P k | None => false end)) as (H1 & H2 & H3).
  { intros i j Hij Hi. destruct (ks !! i) as [a|] eqn:Ea; [|done].
    destruct (lookup_lt_is_Some_2 ks j) as [b Eb]; [lia|]. rewrite Eb.
    destruct (decide (i = j)) as [->|]; [congruence|].
    eapply Hup; [done|]. eapply StronglySorted_lookup_lt; eauto; lia. }
  set (r := sort_Search _ _) in *. split_and!; [done| |].
  - apply Forall_lookup_2. intros i k Hk. apply lookup_take_Some in Hk as [Hk Hi].
    specialize (H2 i Hi). by rewrite Hk in H2.
  - apply Forall_lookup_2. intros i k Hk. rewrite lookup_drop in Hk.
    specialize (H3 (r + i)). rewrite Hk in H3. apply H3.
    apply lookup_lt_Some in Hk. lia.
Qed.

Lemma findKeyIndex_spec ks key :
  StronglySorted str_lt ks ->
  let r := findKeyIndex ks key in
  r <= length ks /\ Forall (fun k => str_lt k key) (take r ks) /\
  Forall (fun k => ~ str_lt k key) (drop r ks).
Proof.
  intros Hs. destruct (search_sorted ks (String.leb key) Hs) as (H1 & H2 & H3).
  { intros a b Ha Hab. apply str_leb_le. apply str_leb_le in Ha.
    intros ?. apply Ha. by eapply str_lt_trans. }
  split_and!; [done| |].
  - eapply Forall_impl; [exact H2|]. intros k Hk. by apply str_leb_gt.
  - eapply Forall_impl; [exact H3|]. intros k Hk. by apply str_leb_le.
Qed.

Lemma findChildIndex_spec ks key :
  StronglySorted str_lt ks ->
  let r := findChildIndex ks key in
  r <= length ks /\ Forall (fun k => ~ str_lt key k) (take r ks) /\
  Forall (fun k => str_lt key k) (drop r ks).
Proof.
  intros Hs. destruct (search_sorted ks (String.ltb key) Hs) as (H1 & H2 & H3).
  { intros a b Ha Hab. apply str_ltb_lt. apply str_ltb_lt in Ha. by eapply str_lt_trans. }
  split_and!; [done| |].
  - eapply Forall_impl; [exact H2|]. intros k Hk. by apply str_ltb_ge.
  - eapply Forall_impl; [exact H3|]. intros k Hk. by apply str_ltb_lt.
Qed.

(** ** Focusing on one child *)

(** The bounds [lo_i], [hi_i] of child [i]: replacing the child by one or by
    two nodes within those bounds keeps the parent well formed. *)
Record focus (o h : nat) (lo : option string) (ks : list string) (hi : option string)
    (cs : list btreeNode) (i : nat) (c : btreeNode) (lo_i hi_i : option string) : Prop := {
  fo_child : wf o h lo_i hi_i c;
  fo_put : forall c', wf o h lo_i hi_i c' -> wfs o h lo ks hi (<[i:=c']> cs);
  fo_split : forall k c1 c2, wf o h lo_i (Some k) c1 -> wf o h (Some k) hi_i c2 ->
    strictly_above lo_i k -> below hi_i k ->
    wfs o h lo (take i ks ++ k :: drop i ks) hi (take i cs ++ c1 :: c2 :: drop (S i) cs);
  fo_key : forall key, in_bounds lo hi key ->
    Forall (fun k => ~ str_lt key k) (take i ks) -> Forall (fun k => str_lt key k) (drop i ks) ->
    in_bounds lo_i hi_i key;
  fo_left : Forall (fun x => forall y, above lo_i y -> str_lt x y)
    (concat (map node_leaf_keys (take i cs)));
  fo_right : Forall (fun x => forall y, below hi_i y -> str_lt y x)
    (concat (map node_leaf_keys (drop (S i) cs)));
  fo_lo : forall k, above lo_i k -> above lo k;
  fo_hi : forall k, below hi_i k -> below hi k;
}.

Lemma wfs_focus o h lo ks hi cs i c :
  wfs o h lo ks hi cs -> cs !! i = Some c ->
  exists lo_i hi_i, focus o h lo ks hi cs i c lo_i hi_i.
Proof.
  intros Hw. revert i. induction Hw as [h lo hi c0 Hc0|h lo hi k ks c0 cs Hc0 Hlo Hhi Hw IH];
    intros i Hi.
  - destruct i as [|i]; [|done]. simplify_eq/=. exists lo, hi.
    constructor; simpl; auto; try by constructor.
    intros k c1 c2 H1 H2 H3 H4. constructor; auto. by constructor.
  - destruct i as [|i]; simplify_eq/=.
    + exists lo, (Some k). constructor; simpl; auto.
      * intros c' Hc'. by constructor.
      * intros k' c1 c2 H1 H2 H3 H4. constructor; [done|done|eauto with btree|].
        by constructor.
      * intros key [H1 H2] _ H3. split; [done|]. by inversion H3.
      * eapply Forall_impl; [by eapply wf_bounds_mut|]. intros x [H1 H2] y Hy; simpl in *.
        by eapply str_lt_le_trans.
      * intros x Hx. eauto with btree.
    + destruct (IH i Hi) as (lo_i & hi_i & F). destruct F. exists lo_i, hi_i.
      constructor; simpl; auto.
      * intros c' Hc'. constructor; auto.
      * intros k' c1 c2 H1 H2 H3 H4. constructor; auto.
      * intros key [H1 H2] H3 H4. inversion H3; subst. apply fo_key0; [split|..]; auto.
      * apply Forall_app; split; [|done].
        eapply Forall_impl; [by eapply wf_bounds|]. intros x [H1 H2] y Hy; simpl in *.
        specialize (fo_lo0 y Hy). simpl in fo_lo0. by eapply str_lt_le_trans.
      * intros x Hx. specialize (fo_lo0 x Hx); simpl in *. eauto with btree.
Qed.

(** ** Splitting a full child *)

Lemma wfs_split_at o h lo ks hi cs i sep :
  wfs o h lo ks hi cs -> ks !! i = Some sep ->
  wfs o h lo (take i ks) (Some sep) (take (i + 1) cs) /\
  wfs o h (Some sep) (drop (i + 1) ks) hi (drop (i + 1) cs) /\
  strictly_above lo sep /\ below hi sep.
Proof.
  intros Hw. revert i. induction Hw as [|h lo hi k ks c cs Hc Hlo Hhi Hw IH]; intros i Hi; [done|].
  destruct i as [|i]; simplify_eq/=.
  - rewrite !take_0, !drop_0. split_and!; auto. by constructor.
  - destruct (IH i Hi) as (H1 & H2 & H3 & H4). simpl in H3.
    split_and!; eauto with btree. constructor; auto.
Qed.

(** How a split changes the leaf sequence of the child: an inner split keeps
    it, a leaf split cuts the leaf in two and allocates the right half. *)
Inductive split_leaves (top : nat) : nat -> list leaf -> list leaf -> list leaf -> Prop :=
| split_leaves_inner l1 l2 : split_leaves top top (l1 ++ l2) l1 l2
| split_leaves_leaf a ks vs nx m :
    length ks = length vs ->
    split_leaves top (S top) [Leaf a ks vs nx]
      [Leaf a (take m ks) (take m vs) (Some top)] [Leaf top (drop m ks) (drop m vs) nx].

Record split_ok (o h : nat) (lo hi : option string) (c : btreeNode) (top : nat)
    (sep : string) (c1 c2 : btreeNode) (top' : nat) : Prop := {
  so_left : wf o h lo (Some sep) c1;
  so_right : wf o h (Some sep) hi c2;
  so_lo : strictly_above lo sep;
  so_hi : below hi sep;
  so_len1 : length (node_keys c1) < o - 1;
  so_len2 : length (node_keys c2) < o - 1;
  so_leaves : split_leaves top top' (leaves c) (leaves c1) (leaves c2);
}.

Lemma StronglySorted_take_drop (ks : list string) i :
  StronglySorted str_lt ks ->
  StronglySorted str_lt (take i ks) /\ StronglySorted str_lt (drop i ks).
Proof.
  intros Hs. rewrite <- (take_drop i ks) in Hs.
  split; [by eapply StronglySorted_app_1_l | by eapply StronglySorted_app_1_r].
Qed.

Lemma split_around (ks : list string) i sep :
  StronglySorted str_lt ks -> ks !! i = Some sep ->
  Forall (fun k => str_lt k sep) (take i ks) /\ Forall (fun k => ~ str_lt k sep) (drop i ks).
Proof.
  intros Hs Hi. split; apply Forall_lookup_2; intros j k Hk.
  - apply lookup_take_Some in Hk as [Hk Hj]. by eapply StronglySorted_lookup_lt.
  - rewrite lookup_drop in Hk. destruct j as [|j].
    + rewrite Nat.add_0_r in Hk. simplify_eq. apply str_lt_irrefl.
    + apply str_lt_le. eapply (StronglySorted_lookup_lt ks i (i + S j)); eauto. lia.
Qed.

Lemma insert_slice_le {A} (l : list A) i x :
  i <= length l -> insert_slice l i x = Some (take i l ++ x :: drop i l).
Proof. intros. unfold insert_slice. by rewrite decide_True. Qed.

Lemma insert_after_replace {A} (l : list A) i c1 c2 :
  i < length l ->
  insert_slice (<[i:=c1]> l) (i + 1) c2 = Some (take i l ++ c1 :: c2 :: drop (S i) l).
Proof.
  intros Hi. rewrite insert_slice_le by (rewrite length_insert; lia). f_equal.
  rewrite drop_insert_lt by lia.
  rewrite Nat.add_1_r. rewrite (take_S_r _ _ c1) by (by apply list_lookup_insert_eq).
  rewrite take_insert_ge by lia. by rewrite <- app_assoc.
Qed.

Lemma splitChild_ok o h lo hi c top :
  minBTreeOrder <= o -> wf o h lo hi c -> o - 1 <= length (node_keys c) ->
  exists sep c1 c2 top', split_ok o h lo hi c top sep c1 c2 top' /\
    forall ks cs i, cs !! i = Some c -> i <= length ks ->
      splitChild ks cs i o top =
      Some (take i ks ++ sep :: drop i ks, take i cs ++ c1 :: c2 :: drop (S i) cs, top').
Proof.
  unfold minBTreeOrder. intros Ho Hw Hfull. set (mid := (o - 1) / 2).
  assert (mid + 1 < o - 1 /\ 1 <= mid) as [Hmid Hmid1].
  { unfold mid. pose proof (Nat.Div0.div_le_upper_bound (o - 1) 2 (o - 2)).
    pose proof (Nat.div_le_lower_bound (o - 1) 2 1).
    pose proof (Nat.Div0.div_lt_upper_bound (o - 1) 2 (o - 2)). lia. }
  destruct Hw as [lo hi a ks vs nx Hlen Hs Hb Hle|h lo hi ks cs Hw Hle]; simpl in Hfull.
  - destruct (lookup_lt_is_Some_2 ks (mid + 1)) as [sep Hsep]; [lia|].
    destruct (lookup_lt_is_Some_2 ks mid) as [prev Hprev]; [lia|].
    destruct (split_around ks (mid + 1) sep Hs Hsep) as [Hl Hr].
    destruct (StronglySorted_take_drop ks (mid + 1) Hs) as [Hsl Hsr].
    assert (in_bounds lo hi sep) as [_ Hsep_hi] by (by eapply Forall_lookup_1).
    assert (in_bounds lo hi prev) as [Hprev_lo _] by (by eapply Forall_lookup_1).
    assert (str_lt prev sep) as Hps
      by (eapply (StronglySorted_lookup_lt ks mid (mid + 1)); eauto; lia).
    eexists sep, _, _, (S top); split; cycle 1.
    { intros ks' cs' i Hc Hi. unfold splitChild. fold mid. rewrite Hc; cbn [mbind option_bind].
      rewrite Hsep; cbn [mbind option_bind]. rewrite decide_False by lia.
      unfold insertString, insertNode. rewrite (insert_slice_le ks') by done; cbn [mbind option_bind].
      rewrite insert_after_replace by (by eapply lookup_lt_Some). done. }
    rewrite <- (take_drop (mid + 1) ks) in Hb. apply Forall_app in Hb as [Hb1 Hb2].
    constructor; simpl; auto.
    + constructor; [rewrite !length_take; lia|done| |rewrite length_take; lia].
      apply Forall_and; split; [by eapply Forall_impl; [exact Hb1|intros ? []]|done].
    + constructor; [rewrite !length_drop; lia|done| |rewrite length_drop; lia].
      apply Forall_and; split; [done|by eapply Forall_impl; [exact Hb2|intros ? []]].
    + eauto with btree.
    + rewrite length_take; lia.
    + rewrite length_drop; lia.
    + by constructor.
  - destruct (lookup_lt_is_Some_2 ks mid) as [sep Hsep]; [lia|].
    destruct (wfs_split_at _ _ _ _ _ _ _ _ Hw Hsep) as (H1 & H2 & H3 & H4).
    pose proof (wfs_length _ _ _ _ _ _ Hw) as Hlen.
    eexists sep, _, _, top; split; cycle 1.
    { intros ks' cs' i Hc Hi. unfold splitChild. fold mid. rewrite Hc; cbn [mbind option_bind].
      rewrite Hsep; cbn [mbind option_bind]. rewrite decide_False by lia.
      unfold insertString, insertNode. rewrite (insert_slice_le ks') by done; cbn [mbind option_bind].
      rewrite insert_after_replace by (by eapply lookup_lt_Some). done. }
    constructor; simpl; auto.
    + constructor; [done|rewrite length_take; lia].
    + constructor; [done|rewrite length_drop; lia].
    + rewrite length_take; lia.
    + rewrite length_drop; lia.
    + rewrite <- (take_drop (mid + 1) cs) at 1. rewrite map_app, concat_app. constructor.
Qed.

(** ** Insertion at the level of the leaf sequence *)

(** The specification of an insertion: replace or add one entry of a list
    sorted by key. *)
Fixpoint alist_put (key : string) (v : gobytes) (l : list (string * gobytes)) :
    list (string * gobytes) :=
  match l with
  | [] => [(key, v)]
  | (k, w) :: l' =>
      match String.compare key k with
      | Lt => (key, v) :: l
      | Eq => (key, v) :: l'
      | Gt => (k, w) :: alist_put key v l'
      end
  end.

Lemma compare_gt key k : str_lt k key -> String.compare key k = Gt.
Proof. intros H. rewrite String.compare_antisym. by rewrite H. Qed.

Lemma alist_put_app_r key v l1 l2 :
  Forall (fun e => str_lt e.1 key) l1 -> alist_put key v (l1 ++ l2) = l1 ++ alist_put key v l2.
Proof.
  induction 1 as [|[k w] l1 Hk _ IH]; simpl in *; [done|].
  by rewrite (compare_gt _ _ Hk), IH.
Qed.

Lemma alist_put_app_l key v l1 l2 :
  Forall (fun e => str_lt key e.1) l2 -> alist_put key v (l1 ++ l2) = alist_put key v l1 ++ l2.
Proof.
  intros H2. induction l1 as [|[k w] l1 IH]; simpl.
  - destruct H2 as [|[k w] l2 Hk H2]; simpl in *; [done|]. by rewrite Hk.
  - destruct (String.compare key k); simpl; congruence.
Qed.

Lemma alist_put_to_map key v l :
  (list_to_map (alist_put key v l) : gmap string gobytes) = <[key:=v]> (list_to_map l).
Proof.
  induction l as [|[k w] l IH]; simpl; [done|].
  destruct (String.compare key k) eqn:E; simpl; [| done |].
  - apply String.compare_eq_iff in E. subst. by rewrite insert_insert_eq.
  - rewrite IH. apply insert_insert_ne. intros ->. by rewrite str_compare_refl in E.
Qed.

(** One leaf is replaced by a segment of leaves holding the new entry. *)
Record leaf_step (key : string) (v : gobytes) (top top' : nat) (l : leaf) (ls : list leaf) :
    Prop := {
  ls_entries : entries ls = alist_put key v (leaf_entries l);
  ls_head : exists l' rest, ls = l' :: rest /\ laddr l' = laddr l;
  ls_linked : linked ls (lnext l);
  ls_addrs : laddr l < top ->
    NoDup (map laddr ls) /\ Forall (fun x => laddr x = laddr l \/ top <= laddr x < top') ls;
  ls_top : top <= top';
}.

Inductive tree_step (key : string) (v : gobytes) (top top' : nat) (ls ls' : list leaf) : Prop :=
| TreeStep pre l post new :
    ls = pre ++ l :: post -> ls' = pre ++ new ++ post ->
    leaf_step key v top top' l new ->
    Forall (fun k => str_lt k key) (concat (map lkeys pre)) ->
    Forall (fun k => str_lt key k) (concat (map lkeys post)) ->
    tree_step key v top top' ls ls'.

Lemma tree_step_app key v top top' ls ls' L R :
  tree_step key v top top' ls ls' ->
  Forall (fun k => str_lt k key) (concat (map lkeys L)) ->
  Forall (fun k => str_lt key k) (concat (map lkeys R)) ->
  tree_step key v top top' (L ++ ls ++ R) (L ++ ls' ++ R).
Proof.
  intros [pre l post new -> -> Hstep Hl Hr] HL HR.
  eapply (TreeStep _ _ _ _ _ _ (L ++ pre) l (post ++ R) new).
  - by rewrite <- !app_assoc.
  - by rewrite <- !app_assoc.
  - done.
  - rewrite map_app, concat_app. by apply Forall_app.
  - rewrite map_app, concat_app. by apply Forall_app.
Qed.

Lemma linked_app ls1 ls2 after :
  linked (ls1 ++ ls2) after <-> linked ls1 (head_addr ls2 after) /\ linked ls2 after.
Proof.
  induction ls1 as [|l ls1 IH]; simpl; [tauto|].
  rewrite IH. destruct ls1; simpl; tauto.
Qed.

Lemma Forall_zip_fst {B} (P : string -> Prop) (ks : list string) (vs : list B) :
  Forall P ks -> Forall (fun e => P e.1) (zip ks vs).
Proof.
  intros H. revert vs. induction H; intros [|v vs]; simpl; constructor; auto.
Qed.

Lemma entries_app ls1 ls2 : entries (ls1 ++ ls2) = entries ls1 ++ entries ls2.
Proof. unfold entries. by rewrite map_app, concat_app. Qed.

Lemma entries_one l : entries [l] = leaf_entries l.
Proof. unfold entries; simpl. apply app_nil_r. Qed.

Lemma zip_take_drop {A B} (ks : list A) (vs : list B) m :
  length ks = length vs ->
  zip ks vs = zip (take m ks) (take m vs) ++ zip (drop m ks) (drop m vs).
Proof.
  intros. rewrite <- (take_drop m ks) at 1. rewrite <- (take_drop m vs) at 1.
  apply zip_with_app. rewrite !length_take; lia.
Qed.

(** The leaf that receives the entry was split off on the left or right. *)
Lemma leaf_step_split_left key v top top' a ks vs nx m ls :
  length ks = length vs ->
  leaf_step key v (S top) top' (Leaf a (take m ks) (take m vs) (Some top)) ls ->
  Forall (fun k => str_lt key k) (drop m ks) ->
  leaf_step key v top top' (Leaf a ks vs nx) (ls ++ [Leaf top (drop m ks) (drop m vs) nx]).
Proof.
  intros Hlen [He (l' & rest & -> & Hl') Hl Ha Ht] Hk. simpl in *. constructor; simpl; [| | | |lia].
  - change (l' :: rest ++ ?x) with ((l' :: rest) ++ x). rewrite entries_app, He, entries_one.
    unfold leaf_entries; simpl. rewrite (zip_take_drop ks vs m) by done.
    symmetry. apply alist_put_app_l. by apply Forall_zip_fst.
  - eauto.
  - apply (linked_app (l' :: rest)). by split.
  - intros Hlt. destruct Ha as [Ha1 Ha2]; [lia|].
    change (l' :: rest ++ ?x) with ((l' :: rest) ++ x).
    change (laddr l' :: map laddr (rest ++ ?x)) with (map laddr ((l' :: rest) ++ x)).
    rewrite map_app. split.
    + apply NoDup_app. split_and!; [done| |apply NoDup_singleton].
      intros x Hx. apply list_elem_of_fmap in Hx as (y & -> & Hy).
      rewrite Forall_forall in Ha2. specialize (Ha2 y Hy). simpl.
      rewrite list_elem_of_singleton. lia.
    + apply Forall_app; split; [|repeat constructor; simpl; lia].
      eapply Forall_impl; [exact Ha2|]. simpl. lia.
Qed.

Lemma leaf_step_split_right key v top top' a ks vs nx m ls :
  length ks = length vs ->
  leaf_step key v (S top) top' (Leaf top (drop m ks) (drop m vs) nx) ls ->
  Forall (fun k => str_lt k key) (take m ks) ->
  leaf_step key v top top' (Leaf a ks vs nx) (Leaf a (take m ks) (take m vs) (Some top) :: ls).
Proof.
  intros Hlen [He (l' & rest & -> & Hl') Hl Ha Ht] Hk. simpl in *. constructor; simpl; [| | | |lia].
  - change (?x :: l' :: rest) with ([x] ++ l' :: rest). rewrite entries_app, He, entries_one.
    unfold leaf_entries; simpl. rewrite (zip_take_drop ks vs m) by done.
    symmetry. apply alist_put_app_r. by apply (Forall_zip_fst (fun k => str_lt k key)).
  - eauto.
  - split; [congruence|done].
  - intros Hlt. destruct Ha as [Ha1 Ha2]; [lia|]. split.
    + apply NoDup_cons. split; [|done].
      intros Hx. apply (list_elem_of_fmap laddr (l' :: rest)) in Hx as (y & Hy1 & Hy).
      rewrite Forall_forall in Ha2. specialize (Ha2 y Hy). lia.
    + constructor; [simpl; lia|]. eapply Forall_impl; [exact Ha2|]. simpl. lia.
Qed.

(** ** Insertion into a node that is not full *)

Lemma sorted_insert_mid (ks : list string) i key :
  StronglySorted str_lt ks ->
  Forall (fun k => str_lt k key) (take i ks) -> Forall (fun k => str_lt key k) (drop i ks) ->
  StronglySorted str_lt (take i ks ++ key :: drop i ks).
Proof.
  intros Hs H1 H2. destruct (StronglySorted_take_drop ks i Hs).
  rewrite Forall_forall in H1, H2. apply StronglySorted_app. split_and!.
  - intros x y Hx [->|Hy]%elem_of_cons; [auto|].
    eapply str_lt_trans; [by apply H1|by apply H2].
  - done.
  - constructor; [done|]. by apply Forall_forall.
Qed.

(** Past the insertion point every key is greater, unless it is the key. *)
Lemma findKeyIndex_fresh ks key :
  StronglySorted str_lt ks -> ks !! findKeyIndex ks key <> Some key ->
  Forall (fun k => str_lt key k) (drop (findKeyIndex ks key) ks).
Proof.
  intros Hs Hne. destruct (findKeyIndex_spec ks key Hs) as (_ & _ & Hr).
  set (i := findKeyIndex ks key) in *. destruct (StronglySorted_take_drop ks i Hs) as [_ Hd].
  destruct (drop i ks) as [|k rest] eqn:E; [constructor|].
  assert (ks !! i = Some k) as Hk.
  { rewrite <- (Nat.add_0_r i), <- lookup_drop, E. done. }
  apply Forall_cons in Hr as [Hr _]. apply StronglySorted_cons in Hd as [Hd1 Hd2].
  assert (str_lt key k).
  { destruct (str_lt_trichotomy key k) as [?|[->|?]]; [done|congruence|done]. }
  constructor; [done|]. eapply Forall_impl; [exact Hd1|]. intros; by eapply str_lt_trans.
Qed.

Lemma leaf_step_single key v top a ks vs ks' vs' nx :
  zip ks' vs' = alist_put key v (zip ks vs) ->
  leaf_step key v top top (Leaf a ks vs nx) [Leaf a ks' vs' nx].
Proof.
  intros E. constructor; simpl; eauto.
  - by rewrite entries_one.
  - intros _. split; [apply NoDup_singleton|]. constructor; auto.
Qed.

Lemma zip_update ks vs i key v :
  length ks = length vs -> StronglySorted str_lt ks -> ks !! i = Some key ->
  zip ks (<[i:=v]> vs) = alist_put key v (zip ks vs).
Proof.
  intros Hlen Hs Hi. destruct (lookup_lt_is_Some_2 vs i) as [w Hw].
  { rewrite <- Hlen. by eapply lookup_lt_Some. }
  destruct (split_around ks i key Hs Hi) as [Hl _].
  rewrite (zip_take_drop ks _ i) by (by rewrite length_insert).
  rewrite (zip_take_drop ks vs i) by done.
  rewrite take_insert_ge by lia. rewrite drop_insert_ge by lia. rewrite Nat.sub_diag.
  rewrite alist_put_app_r by (by apply (Forall_zip_fst (fun k => str_lt k key))).
  rewrite (drop_S ks _ _ Hi), (drop_S vs _ _ Hw). simpl. by rewrite str_compare_refl.
Qed.

Lemma zip_insert ks vs i key v :
  length ks = length vs ->
  Forall (fun k => str_lt k key) (take i ks) -> Forall (fun k => str_lt key k) (drop i ks) ->
  zip (take i ks ++ key :: drop i ks) (take i vs ++ v :: drop i vs) =
  alist_put key v (zip ks vs).
Proof.
  intros Hlen H1 H2. rewrite (zip_take_drop ks vs i) by done.
  rewrite alist_put_app_r by (by apply (Forall_zip_fst (fun k => str_lt k key))).
  assert (alist_put key v (zip (drop i ks) (drop i vs)) =
    (key, v) :: zip (drop i ks) (drop i vs)) as ->
    by (apply (alist_put_app_l key v []); by apply Forall_zip_fst).
  rewrite zip_with_app by (rewrite !length_take; lia). done.
Qed.

Lemma insertNonFull_leaf fuel o lo hi a ks vs nx key v top :
  wf o 0 lo hi (LeafNode (Leaf a ks vs nx)) -> length ks < o - 1 -> in_bounds lo hi key ->
  exists l', insertNonFull (S fuel) (LeafNode (Leaf a ks vs nx)) key v o top =
      Some (LeafNode l', top) /\
    wf o 0 lo hi (LeafNode l') /\ leaf_step key v top top (Leaf a ks vs nx) [l'].
Proof.
  intros Hw Hlt Hkey. inversion Hw as [? ? ? ? ? ? Hlen Hs Hb Hle|]; subst. simpl.
  destruct (findKeyIndex_spec ks key Hs) as (Hi & Hl & _).
  pose proof (findKeyIndex_fresh ks key Hs) as Hfresh.
  set (i := findKeyIndex ks key) in *. case_decide as Hk.
  - rewrite decide_True by (rewrite <- Hlen; by eapply lookup_lt_Some).
    eexists. split; [done|]. split.
    + constructor; auto. by rewrite length_insert.
    + apply leaf_step_single. by apply zip_update.
  - specialize (Hfresh Hk). unfold insertString, insertBytes.
    rewrite !insert_slice_le by lia. simpl. eexists. split; [done|]. split.
    + constructor.
      * rewrite !length_app; simpl. rewrite !length_take, !length_drop. lia.
      * by apply sorted_insert_mid.
      * rewrite <- (take_drop i ks) in Hb. apply Forall_app in Hb as [Hb1 Hb2].
        apply Forall_app; split; [done|]. by constructor.
      * rewrite length_app; simpl. rewrite length_take, length_drop. lia.
    + apply leaf_step_single. by apply zip_insert.
Qed.

Lemma tree_step_single key v top top' l ls' :
  tree_step key v top top' [l] ls' -> leaf_step key v top top' l ls'.
Proof.
  intros [pre l' post new E -> Hs _ _]. destruct pre as [|? pre]; simplify_eq/=.
  - by rewrite app_nil_r.
  - by destruct pre.
Qed.

Lemma tree_step_split_left key v top top' top'' ls l1 l2 l1' :
  split_leaves top top' ls l1 l2 -> tree_step key v top' top'' l1 l1' ->
  Forall (fun k => str_lt key k) (concat (map lkeys l2)) ->
  tree_step key v top top'' ls (l1' ++ l2).
Proof.
  intros [s1 s2|a ks vs nx m Hlen] Hstep Hr.
  - apply (tree_step_app _ _ _ _ _ _ [] s2 Hstep); [constructor|done].
  - apply tree_step_single in Hstep. simpl in Hr. rewrite app_nil_r in Hr.
    eapply (TreeStep _ _ _ _ _ _ [] _ [] _); [done|by rewrite app_nil_r| |constructor|constructor].
    by apply leaf_step_split_left.
Qed.

Lemma tree_step_split_right key v top top' top'' ls l1 l2 l2' :
  split_leaves top top' ls l1 l2 -> tree_step key v top' top'' l2 l2' ->
  Forall (fun k => str_lt k key) (concat (map lkeys l1)) ->
  tree_step key v top top'' ls (l1 ++ l2').
Proof.
  intros [s1 s2|a ks vs nx m Hlen] Hstep Hr.
  - pose proof (tree_step_app _ _ _ _ _ _ s1 [] Hstep Hr ltac:(constructor)) as H.
    by rewrite !app_nil_r in H.
  - apply tree_step_single in Hstep. simpl in Hr. rewrite app_nil_r in Hr.
    eapply (TreeStep _ _ _ _ _ _ [] _ [] _); [done|by rewrite app_nil_r| |constructor|constructor].
    by apply leaf_step_split_right.
Qed.

Lemma concat_lkeys_leaves cs :
  concat (map lkeys (concat (map leaves cs))) = concat (map node_leaf_keys cs).
Proof. apply (node_leaf_keys_inner []). Qed.

(** The leaves of an inner node around child [i]. *)
Lemma leaves_around cs i (c : btreeNode) :
  cs !! i = Some c ->
  concat (map leaves cs) =
  concat (map leaves (take i cs)) ++ leaves c ++ concat (map leaves (drop (S i) cs)).
Proof.
  intros Hc. rewrite <- (take_drop_middle cs i c Hc) at 1.
  rewrite map_app, concat_app. done.
Qed.

Lemma leaves_put cs i (c c' : btreeNode) :
  cs !! i = Some c ->
  concat (map leaves (<[i:=c']> cs)) =
  concat (map leaves (take i cs)) ++ leaves c' ++ concat (map leaves (drop (S i) cs)).
Proof.
  intros Hc. rewrite (leaves_around _ i c') by (apply list_lookup_insert_eq; by eapply lookup_lt_Some).
  by rewrite take_insert_ge, drop_insert_lt by lia.
Qed.

Lemma lookup_split_nth {A} (l : list A) i (x y : A) z :
  i <= length l ->
  (take i l ++ x :: y :: z) !! i = Some x /\ (take i l ++ x :: y :: z) !! S i = Some y.
Proof.
  intros Hi. assert (length (take i l) = i) by (rewrite length_take; lia).
  split; [apply list_lookup_middle; lia|].
  rewrite lookup_app_r by lia. by replace (S i - length (take i l)) with 1 by lia.
Qed.

Lemma insert_split_nth {A} (l : list A) i (x y w : A) z :
  i <= length l ->
  <[i:=w]> (take i l ++ x :: y :: z) = take i l ++ w :: y :: z /\
  <[S i:=w]> (take i l ++ x :: y :: z) = take i l ++ x :: w :: z.
Proof.
  intros Hi. assert (length (take i l) = i) as E by (rewrite length_take; lia).
  rewrite <- E at 1 4. split.
  - rewrite <- (Nat.add_0_r (length (take i l))) at 1. by rewrite insert_app_r.
  - replace (S (length (take i l))) with (length (take i l) + 1) by lia. by rewrite insert_app_r.
Qed.

(** What one level of [insertNonFull] promises to the level above it. *)
Definition insert_spec (o h : nat) (key : string) (v : gobytes) : Prop :=
  forall lo hi n top,
    wf o h lo hi n -> length (node_keys n) < o - 1 -> in_bounds lo hi key ->
    exists n' top', insertNonFull (S h) n key v o top = Some (n', top') /\
      wf o h lo hi n' /\ tree_step key v top top' (leaves n) (leaves n').

Lemma insertNonFull_inner fuel ks cs key v o top :
  insertNonFull (S fuel) (InnerNode ks cs) key v o top =
  (child ← cs !! findChildIndex ks key;
   if decide (o - 1 <= length (node_keys child)) then
     '(ks', cs', top') ← splitChild ks cs (findChildIndex ks key) o top;
     separator ← ks' !! findChildIndex ks key;
     let idx' := if String.leb separator key then S (findChildIndex ks key)
                 else findChildIndex ks key in
     child' ← cs' !! idx';
     '(child'', top'') ← insertNonFull fuel child' key v o top';
     Some (InnerNode ks' (<[idx':=child'']> cs'), top'')
   else
     '(child', top') ← insertNonFull fuel child key v o top;
     Some (InnerNode ks (<[findChildIndex ks key:=child']> cs), top')).
Proof. done. Qed.

Section insert_child.
Context (o h : nat) (lo hi : option string) (ks : list string) (cs : list btreeNode).
Context (i : nat) (c : btreeNode) (lo_i hi_i : option string) (key : string) (v : gobytes).
Context (Ho : minBTreeOrder <= o) (Hc : cs !! i = Some c) (Hi : i <= length ks).
Context (Hlen : length cs = S (length ks)).
Context (F : focus o h lo ks hi cs i c lo_i hi_i) (Hkey : in_bounds lo_i hi_i key).
Context (IH : insert_spec o h key v).

Lemma left_of_child :
  Forall (fun k => str_lt k key) (concat (map lkeys (concat (map leaves (take i cs))))).
Proof.
  rewrite concat_lkeys_leaves. destruct F. eapply Forall_impl; [exact fo_left0|].
  intros x Hx. apply Hx, Hkey.
Qed.

Lemma right_of_child :
  Forall (fun k => str_lt key k) (concat (map lkeys (concat (map leaves (drop (S i) cs))))).
Proof.
  rewrite concat_lkeys_leaves. destruct F. eapply Forall_impl; [exact fo_right0|].
  intros x Hx. apply Hx, Hkey.
Qed.

(** Inserting into one of the halves of a full child. *)
Lemma insert_split_child top :
  o - 1 <= length (node_keys c) ->
  exists sep c1 c2 top' j c' c'' top'' cs',
    splitChild ks cs i o top =
      Some (take i ks ++ sep :: drop i ks, take i cs ++ c1 :: c2 :: drop (S i) cs, top') /\
    j = (if String.leb sep key then S i else i) /\
    (take i cs ++ c1 :: c2 :: drop (S i) cs) !! j = Some c' /\
    insertNonFull (S h) c' key v o top' = Some (c'', top'') /\
    cs' = <[j:=c'']> (take i cs ++ c1 :: c2 :: drop (S i) cs) /\
    wfs o h lo (take i ks ++ sep :: drop i ks) hi cs' /\
    tree_step key v top top'' (concat (map leaves cs)) (concat (map leaves cs')).
Proof.
  intros Hfull. pose proof left_of_child as HL. pose proof right_of_child as HR.
  destruct F as [Fc _ Fs _ _ _ _ _].
  destruct (splitChild_ok o h lo_i hi_i c top Ho Fc Hfull)
    as (sep & c1 & c2 & top' & [S1 S2 S3 S4 S5 S6 S7] & Hsplit).
  destruct (lookup_split_nth cs i c1 c2 (drop (S i) cs)) as [L1 L2]; [lia|].
  exists sep, c1, c2, top'. rewrite (Hsplit ks cs i Hc Hi), (leaves_around cs i c Hc).
  destruct (String.leb sep key) eqn:Esep.
  - apply str_leb_le in Esep.
    destruct (IH (Some sep) hi_i c2 top' S2 S6) as (c2' & top'' & E & Hw2 & Hst).
    { split; [done|apply Hkey]. }
    eexists _, _, _, _, _. split_and!; eauto.
    + rewrite (proj2 (insert_split_nth cs i c1 c2 c2' _ ltac:(lia))). by apply Fs.
    + rewrite (proj2 (insert_split_nth cs i c1 c2 c2' _ ltac:(lia))).
      rewrite map_app, concat_app; simpl. rewrite (app_assoc (leaves c1)).
      apply tree_step_app; [|done|done]. eapply tree_step_split_right; [done|done|].
      eapply Forall_impl; [by eapply wf_bounds|]. intros x [_ Hx]; simpl in *.
      by eapply str_lt_le_trans.
  - apply str_leb_gt in Esep.
    destruct (IH lo_i (Some sep) c1 top' S1 S5) as (c1' & top'' & E & Hw2 & Hst).
    { split; [apply Hkey|done]. }
    eexists _, _, _, _, _. split_and!; eauto.
    + rewrite (proj1 (insert_split_nth cs i c1 c2 c1' _ ltac:(lia))). by apply Fs.
    + rewrite (proj1 (insert_split_nth cs i c1 c2 c1' _ ltac:(lia))).
      rewrite map_app, concat_app; simpl. rewrite (app_assoc (leaves c1')).
      apply tree_step_app; [|done|done]. eapply tree_step_split_left; [done|done|].
      eapply Forall_impl; [by eapply wf_bounds|]. intros x [Hx _]; simpl in *.
      by eapply str_lt_le_trans.
Qed.

Lemma insert_plain_child top :
  length (node_keys c) < o - 1 ->
  exists c' top', insertNonFull (S h) c key v o top = Some (c', top') /\
    wfs o h lo ks hi (<[i:=c']> cs) /\
    tree_step key v top top' (concat (map leaves cs)) (concat (map leaves (<[i:=c']> cs))).
Proof.
  intros Hc'. pose proof left_of_child as HL. pose proof right_of_child as HR.
  destruct F as [Fc Fp _ _ _ _ _ _].
  destruct (IH lo_i hi_i c top Fc Hc' Hkey) as (c' & top' & E & Hw' & Hst).
  exists c', top'. split_and!; auto.
  rewrite (leaves_around cs i c Hc), (leaves_put cs i c c' Hc). by apply tree_step_app.
Qed.
End insert_child.

Lemma insertNonFull_ok o h key v : minBTreeOrder <= o -> insert_spec o h key v.
Proof.
  intros Ho. induction h as [|h IH]; intros lo hi n top Hw Hlt Hkey.
  { destruct n as [[a ks vs nx]|]; [|inversion Hw].
    destruct (insertNonFull_leaf 0 o lo hi a ks vs nx key v top) as (l' & E & Hw' & Hs); auto.
    exists (LeafNode l'), top. split_and!; auto.
    eapply (TreeStep _ _ _ _ _ _ [] _ [] [l']); auto; constructor. }
  inversion Hw as [|? ? ? ks cs Hcs Hle]; subst. simpl in Hlt.
  pose proof (wfs_length _ _ _ _ _ _ Hcs) as Hlen.
  destruct (wfs_keys_sorted _ _ _ _ _ _ Hcs) as (Hsort & _ & _).
  destruct (findChildIndex_spec ks key Hsort) as (Hi & Hl & Hr).
  rewrite insertNonFull_inner. set (i := findChildIndex ks key) in *.
  destruct (lookup_lt_is_Some_2 cs i) as [c Hc]; [lia|]. rewrite Hc; cbn [mbind option_bind].
  destruct (wfs_focus _ _ _ _ _ _ _ _ Hcs Hc) as (lo_i & hi_i & F).
  pose proof (fo_key _ _ _ _ _ _ _ _ _ _ F key Hkey Hl Hr) as Hkey_i.
  case_decide as Hfull.
  - destruct (insert_split_child o h lo hi ks cs i c lo_i hi_i key v Ho Hc Hi Hlen F Hkey_i IH top Hfull)
      as (sep & c1 & c2 & top' & j & c' & c'' & top'' & cs' & -> & -> & Ej & Ei & -> & Hw' & Hst).
    cbn [mbind option_bind].
    rewrite list_lookup_middle by (rewrite length_take; lia). cbn [mbind option_bind].
    rewrite Ej; cbn [mbind option_bind]. rewrite Ei; cbn [mbind option_bind].
    eexists _, _. split; [done|]. split; [|done]. constructor; [done|].
    rewrite length_app; simpl; rewrite length_take, length_drop; lia.
  - destruct (insert_plain_child o h lo hi ks cs i c lo_i hi_i key v Hc F Hkey_i IH top)
      as (c' & top' & -> & Hw' & Hst); [lia|].
    cbn [mbind option_bind]. eexists _, _. split; [done|]. split; [by constructor|done].
Qed.

(** ** The whole index *)

Lemma chain_step key v top top' ls ls' :
  tree_step key v top top' ls ls' -> chain_ok top ls -> chain_ok top' ls'.
Proof.
  intros [pre l post new -> -> [_ (l' & rest & -> & Hhd) Hlk Hadr Htop] _ _] (Hl & Hn & Hb).
  apply Forall_app in Hb as [Hb1 Hb2]. apply Forall_cons in Hb2 as [Hb Hb2].
  destruct Hadr as [Hnd Hrange]; [done|].
  apply linked_app in Hl as [Hl1 [Hl2 Hl3]]. simpl in Hl1.
  rewrite map_app in Hn. apply NoDup_app in Hn as (Hn1 & Hn2 & Hn3). simpl in Hn3, Hn2.
  apply NoDup_cons in Hn3 as [Hn3 Hn4].
  assert (forall x, In x (l' :: rest) -> laddr x = laddr l \/ top <= laddr x < top') as Hin.
  { intros x Hx. rewrite Forall_forall in Hrange. apply Hrange. by apply list_elem_of_In. }
  split_and!.
  - apply linked_app. split; [simpl; by rewrite Hhd|].
    apply linked_app. split; [|done]. by rewrite Hl2 in Hlk.
  - rewrite !map_app. apply NoDup_app. split_and!; [done| |apply NoDup_app; split_and!; [done| |done]].
    + intros a Ha [Hx|Hx]%elem_of_app.
      * apply list_elem_of_fmap in Hx as (x & -> & Hx%list_elem_of_In). pose proof Ha as Ha'.
        apply list_elem_of_fmap in Ha as (y & Ey & Hy). rewrite Forall_forall in Hb1.
        specialize (Hb1 y Hy). destruct (Hin x Hx) as [E|]; [|lia].
        apply (Hn2 (laddr l)); [congruence|by left].
      * apply (Hn2 a Ha). by right.
    + intros a (x & -> & Hx%list_elem_of_In)%list_elem_of_fmap Hp. pose proof Hp as Hp'.
      apply list_elem_of_fmap in Hp as (y & Ey & Hy). rewrite Forall_forall in Hb2.
      specialize (Hb2 y Hy). destruct (Hin x Hx) as [E|]; [|lia]. congruence.
  - apply Forall_app; split; [eapply Forall_impl; [exact Hb1|simpl; lia]|].
    apply Forall_app; split; [|eapply Forall_impl; [exact Hb2|simpl; lia]].
    eapply Forall_impl; [exact Hrange|]. simpl. intros x [E|?]; lia.
Qed.

Lemma entries_keys_lkeys ls (P : string -> Prop) :
  Forall P (concat (map lkeys ls)) -> Forall (fun e => P e.1) (entries ls).
Proof.
  unfold entries. induction ls as [|l ls IH]; simpl; [constructor|].
  intros [H1 H2]%Forall_app. apply Forall_app. split; [by apply Forall_zip_fst|auto].
Qed.

Lemma entries_step key v top top' ls ls' :
  tree_step key v top top' ls ls' -> entries ls' = alist_put key v (entries ls).
Proof.
  intros [pre l post new -> -> [He _ _ _ _] Hl Hr].
  change (l :: post) with ([l] ++ post). rewrite !entries_app, He, entries_one.
  rewrite alist_put_app_r by (by apply (entries_keys_lkeys _ (fun k => str_lt k key))).
  rewrite alist_put_app_l by (by apply entries_keys_lkeys). done.
Qed.

Lemma split_leaves_entries top top' ls l1 l2 :
  split_leaves top top' ls l1 l2 -> entries (l1 ++ l2) = entries ls.
Proof.
  intros [s1 s2|a ks vs nx m Hlen]; [done|]. unfold entries, leaf_entries; simpl.
  rewrite !app_nil_r. symmetry. by apply zip_take_drop.
Qed.

Lemma split_leaves_chain top top' l1 l2 ls :
  split_leaves top top' ls l1 l2 -> chain_ok top ls -> chain_ok top' (l1 ++ l2).
Proof.
  intros [s1 s2|a ks vs nx m Hlen]; [done|]. intros ([Hl _] & _ & Hb).
  apply Forall_cons in Hb as [Hb _]. simpl in *. split_and!.
  - simpl. auto.
  - simpl. apply NoDup_cons. split; [|apply NoDup_singleton].
    rewrite list_elem_of_singleton. lia.
  - simpl. repeat constructor; simpl; lia.
Qed.

(** Growing the root keeps the index well formed and its entries. *)
Lemma grow_root_ok idx :
  wf_index idx -> exists r top h, grow_root idx = Some (r, top) /\
    wf (btreeOrder idx) h None None r /\ length (node_keys r) < btreeOrder idx - 1 /\
    chain_ok top (leaves r) /\ entries (leaves r) = entries (leaves (root idx)).
Proof.
  intros [Ho [h Hw] Hch]. unfold grow_root. case_decide as Hfull; [|eauto 10 with lia].
  destruct (splitChild_ok _ _ _ _ _ (heapTop idx) Ho Hw Hfull)
    as (sep & c1 & c2 & top' & [S1 S2 S3 S4 S5 S6 S7] & Hsplit).
  rewrite (Hsplit [] [root idx] 0) by (simpl; auto with lia). cbn [mbind option_bind].
  eexists _, _, (S h). split; [done|]. simpl. rewrite app_nil_r. split_and!.
  - constructor; [|simpl; unfold minBTreeOrder in *; lia]. by repeat constructor.
  - unfold minBTreeOrder in *; lia.
  - by eapply split_leaves_chain.
  - by eapply split_leaves_entries.
Qed.

Lemma btree_insert_ok idx key v :
  wf_index idx -> exists idx', btree_insert idx key v = Some idx' /\ wf_index idx' /\
    entries (leaves (root idx')) = alist_put key v (entries (leaves (root idx))) /\
    btreeOrder idx' = btreeOrder idx /\ nextSeq idx' = nextSeq idx.
Proof.
  intros Hwf. destruct (grow_root_ok idx Hwf) as (r & top & h & E & Hw & Hlt & Hch & He).
  destruct Hwf as [Ho _ _]. unfold btree_insert. rewrite E; cbn [mbind option_bind].
  rewrite (wf_depth _ _ _ _ _ Hw).
  destruct (insertNonFull_ok _ h key v Ho None None r top Hw Hlt) as (r' & top' & -> & Hw' & Hst).
  { done. }
  cbn [mbind option_bind]. eexists. split; [done|]. simpl. split_and!; auto.
  - constructor; simpl; eauto using chain_step.
  - rewrite <- He. by eapply entries_step.
Qed.

(** ** Lookup *)

Lemma wf_keys_sorted_mut o :
  (forall h lo hi n, wf o h lo hi n -> StronglySorted str_lt (node_leaf_keys n)) /\
  (forall h lo ks hi cs, wfs o h lo ks hi cs ->
    StronglySorted str_lt (concat (map node_leaf_keys cs))).
Proof.
  apply wf_wfs_ind.
  - intros. unfold node_leaf_keys; simpl. by rewrite app_nil_r.
  - intros. by rewrite node_leaf_keys_inner.
  - intros. simpl. by rewrite app_nil_r.
  - intros h lo hi k ks c cs Hc IH1 Hlo Hhi Hcs IH2. simpl.
    apply StronglySorted_app. split_and!; [|done|done]. intros x y Hx Hy.
    apply wf_bounds in Hc. apply wf_bounds_mut in Hcs. rewrite Forall_forall in Hc, Hcs.
    destruct (Hc x Hx) as [_ H1], (Hcs y Hy) as [H2 _]. simpl in *.
    by eapply str_lt_le_trans.
Qed.

Definition leaf_ok (l : leaf) : Prop :=
  length (lkeys l) = length (lvalues l) /\ StronglySorted str_lt (lkeys l).

Lemma wf_leaves_ok_mut o :
  (forall h lo hi n, wf o h lo hi n -> Forall leaf_ok (leaves n)) /\
  (forall h lo ks hi cs, wfs o h lo ks hi cs -> Forall leaf_ok (concat (map leaves cs))).
Proof.
  apply wf_wfs_ind; intros; simpl; rewrite ?app_nil_r; auto.
  - by repeat constructor.
  - apply Forall_app; auto.
Qed.

Lemma entries_fst ls : Forall leaf_ok ls -> map fst (entries ls) = concat (map lkeys ls).
Proof.
  unfold entries. induction 1 as [|l ls [Hl _] _ IH]; simpl; [done|].
  rewrite map_app, IH. f_equal. unfold leaf_entries. apply (fst_zip (lkeys l)). lia.
Qed.

Lemma wf_index_sorted idx :
  wf_index idx -> StronglySorted str_lt (map fst (entries (leaves (root idx)))).
Proof.
  intros [_ [h Hw] _]. rewrite entries_fst by (by eapply wf_leaves_ok_mut).
  by eapply wf_keys_sorted_mut.
Qed.

(** The leaf reached by the descent separates the keys around [key]. *)
Inductive located (key : string) (ls : list leaf) (l : leaf) : Prop :=
| Located pre post :
    ls = pre ++ l :: post -> leaf_ok l ->
    Forall (fun k => str_lt k key) (concat (map lkeys pre)) ->
    Forall (fun k => str_lt key k) (concat (map lkeys post)) ->
    located key ls l.

Lemma descend_ok o h lo hi n key :
  wf o h lo hi n -> in_bounds lo hi key ->
  exists l, descend (S h) n key = Some l /\ descend_last (S h) n key = Some l /\
    located key (leaves n) l.
Proof.
  revert lo hi n. induction h as [|h IH]; intros lo hi n Hw Hkey.
  { inversion Hw; subst. eexists. split_and!; [done|done|].
    eapply (Located _ _ _ [] []); [done|by split|constructor|constructor]. }
  inversion Hw as [|? ? ? ks cs Hcs Hle]; subst.
  pose proof (wfs_length _ _ _ _ _ _ Hcs) as Hlen.
  destruct (wfs_keys_sorted _ _ _ _ _ _ Hcs) as (Hsort & _ & _).
  destruct (findChildIndex_spec ks key Hsort) as (Hi & Hl & Hr).
  change (descend (S (S h)) (InnerNode ks cs) key) with
    (child ← cs !! findChildIndex ks key; descend (S h) child key).
  change (descend_last (S (S h)) (InnerNode ks cs) key) with
    (match cs !! findChildIndex ks key with
     | Some child => descend_last (S h) child key
     | None => child ← last cs; descend_last (S h) child key
     end).
  set (i := findChildIndex ks key) in *.
  destruct (lookup_lt_is_Some_2 cs i) as [c Hc]; [lia|]. rewrite Hc; cbn [mbind option_bind].
  destruct (wfs_focus _ _ _ _ _ _ _ _ Hcs Hc) as (lo_i & hi_i & F).
  pose proof (fo_key _ _ _ _ _ _ _ _ _ _ F key Hkey Hl Hr) as Hkey_i.
  destruct (IH lo_i hi_i c (fo_child _ _ _ _ _ _ _ _ _ _ F) Hkey_i) as (l & E1 & E2 & [pre post E Hok H1 H2]).
  exists l. split_and!; auto. simpl. rewrite (leaves_around cs i c Hc), E.
  eapply (Located _ _ _ (concat (map leaves (take i cs)) ++ pre)
    (post ++ concat (map leaves (drop (S i) cs)))).
  - by rewrite <- !app_assoc.
  - done.
  - rewrite map_app, concat_app. apply Forall_app; split; [|done]. by eapply left_of_child.
  - rewrite map_app, concat_app. apply Forall_app; split; [done|]. by eapply right_of_child.
Qed.

(** Reading the value of a key inside its leaf, as [Get] does. *)
Definition leaf_get (l : leaf) (key : string) : option gobytes :=
  let i := findKeyIndex (lkeys l) key in
  if decide (lkeys l !! i = Some key) then lvalues l !! i else None.

Lemma entries_lookup_none (es : list (string * gobytes)) key :
  Forall (fun e => e.1 <> key) es -> (list_to_map es : gmap string gobytes) !! key = None.
Proof.
  intros H. apply not_elem_of_list_to_map_1. intros Hin.
  apply list_elem_of_fmap in Hin as (e & -> & He). rewrite Forall_forall in H. by eapply H.
Qed.

Lemma leaf_get_spec l key :
  leaf_ok l -> leaf_get l key = (list_to_map (leaf_entries l) : gmap string gobytes) !! key.
Proof.
  intros [Hlen Hs]. unfold leaf_get, leaf_entries.
  destruct (findKeyIndex_spec (lkeys l) key Hs) as (Hi & Hl & _).
  pose proof (findKeyIndex_fresh (lkeys l) key Hs) as Hfr.
  set (i := findKeyIndex (lkeys l) key) in *. rewrite (zip_take_drop _ _ i) by done.
  rewrite list_to_map_app, lookup_union_r.
  2: { apply entries_lookup_none.
       eapply Forall_impl; [apply (Forall_zip_fst (fun k => str_lt k key)); exact Hl|].
       intros e. apply str_lt_ne. }
  case_decide as Hk.
  - destruct (lookup_lt_is_Some_2 (lvalues l) i) as [w Hw].
    { rewrite <- Hlen. by eapply lookup_lt_Some. }
    rewrite (drop_S _ _ _ Hk), (drop_S _ _ _ Hw), Hw. simpl. by rewrite lookup_insert_eq.
  - symmetry. apply entries_lookup_none.
    eapply Forall_impl; [apply (Forall_zip_fst (fun k => str_lt key k)); by apply Hfr|].
    intros e He. apply not_eq_sym. by apply str_lt_ne.
Qed.

Lemma located_lookup key ls l :
  located key ls l -> leaf_get l key = (list_to_map (entries ls) : gmap string gobytes) !! key.
Proof.
  intros [pre post -> Hok H1 H2]. rewrite leaf_get_spec by done.
  change (l :: post) with ([l] ++ post). rewrite !entries_app, !list_to_map_app, entries_one.
  rewrite lookup_union_r; [rewrite lookup_union_l; [done|]|]; apply entries_lookup_none.
  - eapply Forall_impl; [apply (entries_keys_lkeys _ _ H2)|].
    intros e He. apply not_eq_sym. by apply str_lt_ne.
  - eapply Forall_impl; [apply (entries_keys_lkeys _ (fun k => str_lt k key) H1)|].
    intros e. apply str_lt_ne.
Qed.

(** ** Walking the leaf chain *)

Lemma deref_ok r pre l post :
  leaves r = pre ++ l :: post -> NoDup (map laddr (leaves r)) -> deref r (laddr l) = Some l.
Proof.
  intros E Hn. unfold deref.
  assert (list_find (fun x => laddr x = laddr l) (leaves r) = Some (length pre, l)) as ->; [|done].
  apply list_find_Some. split_and!; [by rewrite E, list_lookup_middle|done|].
  intros j y Hj Hlt Ey. rewrite E in Hn, Hj. rewrite lookup_app_l in Hj by done.
  rewrite map_app in Hn. apply NoDup_app in Hn as (_ & Hd & _).
  eapply (Hd (laddr y)); [|rewrite Ey; by left].
  apply list_elem_of_fmap. exists y. split; [done|]. by eapply list_elem_of_lookup_2.
Qed.

Lemma follow_ok r top pre post fuel :
  chain_ok top (leaves r) -> leaves r = pre ++ post -> length post <= fuel ->
  follow fuel r (head post) = post.
Proof.
  intros (Hl & Hn & _). revert pre fuel. induction post as [|l post IH]; intros pre fuel E Hf.
  { by destruct fuel. }
  destruct fuel as [|fuel]; simpl in *; [lia|]. f_equal.
  rewrite E in Hl. apply linked_app in Hl as [_ [Hnext _]].
  rewrite Hnext. destruct post as [|l2 post].
  { simpl. by destruct fuel. }
  simpl. rewrite (deref_ok r (pre ++ [l]) l2 post) by (auto; by rewrite E, <- app_assoc).
  apply (IH (pre ++ [l])); [by rewrite E, <- app_assoc|simpl in *; lia].
Qed.

Lemma leaves_nonempty_mut o :
  (forall h lo hi n, wf o h lo hi n -> leaves n <> []) /\
  (forall h lo ks hi cs, wfs o h lo ks hi cs -> concat (map leaves cs) <> []).
Proof.
  apply wf_wfs_ind; intros; simpl; rewrite ?app_nil_r; auto.
  by destruct (leaves c).
Qed.

Lemma leftmost_ok o h lo hi n : wf o h lo hi n -> leftmost (S h) n = head (leaves n).
Proof.
  revert lo hi n. induction h as [|h IH]; intros lo hi n Hw; [by inversion Hw|].
  inversion Hw as [|? ? ? ks cs Hcs _]; subst.
  assert (exists lo' hi' c cs', cs = c :: cs' /\ wf o h lo' hi' c) as (lo' & hi' & c & cs' & -> & Hc).
  { inversion Hcs; subst; eauto 10. }
  change (leftmost (S (S h)) (InnerNode ks (c :: cs'))) with (leftmost (S h) c).
  rewrite (IH lo' hi' c Hc). simpl. pose proof (proj1 (leaves_nonempty_mut o) _ _ _ _ Hc).
  by destruct (leaves c).
Qed.

(** The scan loops visit every leaf from the one the descent reaches. *)
Lemma walk_from_left idx :
  wf_index idx ->
  follow (length (leaves (root idx))) (root idx) (leftmost (depth (root idx)) (root idx)) =
  leaves (root idx).
Proof.
  intros [_ [h Hw] Hch]. rewrite (wf_depth _ _ _ _ _ Hw), (leftmost_ok _ _ _ _ _ Hw).
  by apply (follow_ok _ _ [] _ _ Hch).
Qed.

Lemma walk_from_key idx key :
  wf_index idx -> exists l pre post,
    descend (depth (root idx)) (root idx) key = Some l /\
    descend_last (depth (root idx)) (root idx) key = Some l /\
    leaves (root idx) = pre ++ l :: post /\ leaf_ok l /\
    follow (length (leaves (root idx))) (root idx) (Some l) = l :: post /\
    Forall (fun k => str_lt k key) (concat (map lkeys pre)) /\
    Forall (fun k => str_lt key k) (concat (map lkeys post)).
Proof.
  intros [_ [h Hw] Hch]. rewrite (wf_depth _ _ _ _ _ Hw).
  destruct (descend_ok _ _ _ _ _ key Hw) as (l & E1 & E2 & [pre post E Hok H1 H2]); [done|].
  exists l, pre, post. split_and!; auto.
  apply (follow_ok _ _ pre (l :: post) _ Hch E). rewrite E, length_app. lia.
Qed.

(** ** Properties of the index *)

(** An empty index, as [NewEngine] and [compactTree] build it. *)
Definition emptyIndex (order top : nat) : btreeIndex :=
  BTreeIndex (LeafNode (Leaf top [] [] None)) 0 order (S top).

Lemma emptyIndex_wf order top : minBTreeOrder <= order -> wf_index (emptyIndex order top).
Proof.
  intros Ho. constructor; simpl; [done| |].
  - exists 0. constructor; simpl; [done|constructor|constructor|lia].
  - split_and!; simpl; [done|apply NoDup_singleton|repeat constructor; simpl; lia].
Qed.

(** The simulation relation between the tree and the abstract map. *)
Definition btree_rep (idx : btreeIndex) (m : gmap string gobytes) : Prop :=
  wf_index idx /\ contents idx = m.

Theorem btree_insert_refines idx m key v :
  btree_rep idx m ->
  exists idx', btree_insert idx key v = Some idx' /\ btree_rep idx' (<[key:=v]> m).
Proof.
  intros [Hwf <-]. destruct (btree_insert_ok idx key v Hwf) as (idx' & E & Hwf' & He & _ & _).
  exists idx'. split; [done|]. split; [done|]. unfold contents. by rewrite He, alist_put_to_map.
Qed.

Theorem btree_scan_all idx :
  wf_index idx -> scanAllNodes idx = omap live (entries (leaves (root idx))).
Proof. intros Hwf. unfold scanAllNodes. by rewrite walk_from_left. Qed.
