(* ===== verification/Wal.v ===== *)
(** * The write-ahead log

    Models [writeAheadLog], its frames and crash recovery
    (src/internal/storage/engine.go). The log file is its byte sequence; the
    outcome of each system call (a short write, a failed fsync or truncate, a
    failed rename) is an argument of the operation that makes the call, so
    every error branch is reachable. The JSON codec of [encoding/json] is the
    interface [WalCodec]. *)
From stdpp Require Import base gmap strings list sorting.
From Stdlib Require Import ZArith Lia Strings.Byte.
From S2P Require Import Prelude BTree.

(** ** Entries and their encoding *)

Record walEntry := WalEntry {
  Op : string;
  Key : string;
  Value : gobytes;
  Time : Z;
  Crc32 : Z;
}.

Definition maxWALEntryBytes : Z := 1024 * 1024.

(** [json.Marshal] and [json.Unmarshal] at the two types the log uses: an
    entry, and the key/value map of a BATCH entry ([Some None] is JSON
    [null], which decodes to a nil map). *)
Class WalCodec := {
  marshal : walEntry -> bytes;
  unmarshal : bytes -> option walEntry;
  marshal_map : gmap string gobytes -> bytes;
  unmarshal_map : bytes -> option (option (gmap string gobytes));
}.

(** Entries JSON reproduces exactly: ASCII text (other bytes are subject to
    UTF-8 replacement) and integers of the field's width. *)
Definition ascii_text (s : string) : Prop :=
  Forall (fun c => (Ascii.N_of_ascii c < 128)%N) (String.list_ascii_of_string s).

Definition entry_ok (e : walEntry) : Prop :=
  ascii_text (Op e) /\ ascii_text (Key e) /\
  (- 2 ^ 63 <= Time e < 2 ^ 63)%Z /\ (0 <= Crc32 e < 2 ^ 32)%Z.

(** What recovery relies on: entries round trip, the encoding is a JSON
    object that starts with the op field, and control characters are escaped,
    so no byte of it is zero. *)
Class WalCodecOk (C : WalCodec) : Prop := {
  unmarshal_marshal e : entry_ok e -> unmarshal (marshal e) = Some e;
  marshal_head e : exists rest, marshal e = [x7b; x22; x6f; x70] ++ rest;
  marshal_nonzero e : Forall (fun b => b <> x00) (marshal e);
  unmarshal_marshal_map m :
    Forall (fun p => ascii_text p.1) (map_to_list m) ->
    unmarshal_map (marshal_map m) = Some (Some m);
}.

(** [crc32.ChecksumIEEE]: the reflected CRC-32 with polynomial 0xEDB88320. *)
Definition crc32_bit (c : Z) : Z :=
  if Z.testbit c 0 then Z.lxor (Z.shiftr c 1) 0xEDB88320%Z else Z.shiftr c 1.

Definition crc32_byte (c : Z) (b : byte) : Z :=
  Nat.iter 8 crc32_bit (Z.lxor c (byte_to_Z b)).

Definition crc32_ieee (data : bytes) : Z :=
  Z.lxor (foldl crc32_byte 0xFFFFFFFF%Z data) 0xFFFFFFFF%Z.

(** ** System-call outcomes *)

Inductive wal_error :=
| ErrBroken          (* the log refused writes after an earlier failure *)
| ErrEntryTooLarge
| ErrWrite
| ErrSync
| ErrCompactOpen
| ErrCompactSync
| ErrCompactClose
| ErrCarryTail
| ErrShrank
| ErrCloseOld
| ErrRename
| ErrReopen
| ErrSyncDir.

(** [f.Write]: complete, or an error after a number of bytes. *)
Record append_io := AppendIO {
  io_short : option nat;
  io_sync_ok : bool;
  io_trunc_ok : bool;
}.

Record compact_io := CompactIO {
  co_open : bool;
  co_write : nat -> bool; (* the i-th entry *)
  co_sync : bool;
  co_close : bool;
  co_tail : bool;
  co_close_old : bool;
  co_rename : bool;
  co_reopen : bool; (* reopening the log, after a rename or a failed one *)
  co_syncdir : bool;
}.

Record writeAheadLog := WriteAheadLog {
  wal_disk : bytes; (* the file at [path] *)
  wal_open : bool; (* [file] is an open handle of it *)
  wal_size : nat;
  wal_broken : option wal_error;
  wal_gen : Z;
}.

Section wal.
Context {C : WalCodec}.

Definition walChecksum (entry : walEntry) : Z :=
  crc32_ieee (marshal (WalEntry (Op entry) (Key entry) (Value entry) (Time entry) 0)).

Definition seal (entry : walEntry) : walEntry :=
  WalEntry (Op entry) (Key entry) (Value entry) (Time entry) (walChecksum entry).

(** The frame [writeEntryLocked] hands to the file. *)
Definition encodeEntry (entry : walEntry) : option bytes :=
  let data := marshal (seal entry) in
  let len := Z.of_nat (length data) in
  if decide (len > maxWALEntryBytes)%Z then None else Some (be32 len ++ data).

(** The file after the write, the bytes written and the error. *)
Definition writeEntryLocked (f : bytes) (opened : bool) (entry : walEntry) (io : append_io) :
    bytes * nat * option wal_error :=
  match encodeEntry entry with
  | None => (f, 0, Some ErrEntryTooLarge)
  | Some buf =>
      if opened then
        match io_short io with
        | None => (f ++ buf, length buf, None)
        | Some n => (f ++ take n buf, n, Some ErrWrite)
        end
      else (f, 0, Some ErrWrite)
  end.

(** [w.file.Truncate(n)]: fails on a closed handle. *)
Definition truncate_to (f : bytes) (opened ok : bool) (n : nat) : bytes * bool :=
  if opened && ok then (take n f, true) else (f, false).

Definition appendLocked (w : writeAheadLog) (entry : walEntry) (io : append_io) :
    writeAheadLog * option wal_error :=
  match wal_broken w with
  | Some _ => (w, Some ErrBroken)
  | None =>
      match writeEntryLocked (wal_disk w) (wal_open w) entry io with
      | (f, n, None) =>
          if io_sync_ok io then
            (WriteAheadLog f (wal_open w) (wal_size w + n) None (wal_gen w), None)
          else
            let '(f', _) := truncate_to f (wal_open w) (io_trunc_ok io) (wal_size w) in
            (WriteAheadLog f' (wal_open w) (wal_size w) (Some ErrSync) (wal_gen w), Some ErrSync)
      | (f, n, Some err) =>
          let '(f', ok) := truncate_to f (wal_open w) (io_trunc_ok io) (wal_size w) in
          (WriteAheadLog f' (wal_open w) (wal_size w)
             (if ok then None else Some err) (wal_gen w), Some err)
      end
  end.

Definition Append (w : writeAheadLog) (key : string) (value : gobytes) (now : Z) (io : append_io) :
    writeAheadLog * option wal_error :=
  appendLocked w (WalEntry "PUT" key value now 0) io.

Definition AppendDelete (w : writeAheadLog) (key : string) (now : Z) (io : append_io) :
    writeAheadLog * option wal_error :=
  appendLocked w (WalEntry "DELETE" key None now 0) io.

Definition AppendBatch (w : writeAheadLog) (values : gmap string gobytes) (now : Z)
    (io : append_io) : writeAheadLog * option wal_error :=
  appendLocked w (WalEntry "BATCH" "" (Some (marshal_map values)) now 0) io.

Definition health (w : writeAheadLog) : option wal_error :=
  match wal_broken w with Some _ => Some ErrBroken | None => None end.

Definition currentSize (w : writeAheadLog) : nat := wal_size w.

Fixpoint writeCompact_loop (i : nat) (entries : list walEntry) (io : compact_io) (tmp : bytes) :
    wal_error + bytes :=
  match entries with
  | [] => inr tmp
  | e :: rest =>
      match encodeEntry e with
      | None => inl ErrEntryTooLarge
      | Some buf =>
          if co_write io i then writeCompact_loop (S i) rest io (tmp ++ buf)
          else inl ErrWrite
      end
  end.

(** The temp file's content and size ([total]). *)
Definition writeCompact (entries : list walEntry) (io : compact_io) : wal_error + (bytes * nat) :=
  if co_open io then
    match writeCompact_loop 0 entries io [] with
    | inl e => inl e
    | inr tmp =>
        if co_sync io then
          if co_close io then inr (tmp, length tmp) else inl ErrCompactClose
        else inl ErrCompactSync
    end
  else inl ErrCompactOpen.

Definition copyWALTail (disk tmp : bytes) (offset n : nat) : bytes :=
  tmp ++ take n (drop offset disk).

Definition installCompactLocked (w : writeAheadLog) (tmp : bytes) (total offset : nat)
    (io : compact_io) : writeAheadLog * option wal_error :=
  let install tmp total :=
    if wal_open w && co_close_old io then
      if co_rename io then
        if co_reopen io then
          (WriteAheadLog tmp true total (wal_broken w) ((wal_gen w + 1) mod 2 ^ 64)%Z,
           if co_syncdir io then None else Some ErrSyncDir)
        else (WriteAheadLog tmp false (wal_size w) (wal_broken w) (wal_gen w), Some ErrReopen)
      else
        (WriteAheadLog (wal_disk w) (co_reopen io) (wal_size w) (wal_broken w) (wal_gen w),
         Some ErrRename)
    else (* the handle is unusable even when [Close] reports an error *)
      (WriteAheadLog (wal_disk w) false (wal_size w) (wal_broken w) (wal_gen w), Some ErrCloseOld) in
  if decide (offset < wal_size w) then
    if co_tail io then
      install (copyWALTail (wal_disk w) tmp offset (wal_size w - offset))
        (total + (wal_size w - offset))
    else (w, Some ErrCarryTail)
  else if decide (wal_size w < offset) then (w, Some ErrShrank)
  else install tmp total.

Definition rewriteLocked (w : writeAheadLog) (entries : list walEntry) (io : compact_io) :
    writeAheadLog * option wal_error :=
  match writeCompact entries io with
  | inl e => (w, Some e)
  | inr (tmp, total) => installCompactLocked w tmp total (wal_size w) io
  end.

(** ** Recovery *)

(** The entry at [offset] and its encoded size, or why there is none. *)
Definition readWALEntryAt (f : bytes) (offset : nat) : string + (walEntry * nat) :=
  if decide (length f - offset < 4) then inl "length prefix" else
  match drop offset f with
  | b0 :: b1 :: b2 :: b3 :: _ =>
      let len := be32_decode b0 b1 b2 b3 in
      if decide (len <= 0 \/ len > maxWALEntryBytes)%Z then inl "entry length out of range" else
      let n := Z.to_nat len in
      if decide (length f < offset + 4 + n) then inl "entry body" else
      match unmarshal (take n (drop (offset + 4) f)) with
      | None => inl "entry decode"
      | Some entry => inr (entry, 4 + n)
      end
  | _ => inl "length prefix"
  end.

(** The body of the [findNextWALEntry] loop at one offset. *)
Definition candidate (f : bytes) (off : nat) : bool :=
  match drop off f with
  | b0 :: b1 :: b2 :: b3 :: c :: _ =>
      let len := Z.lor (Z.lor (Z.shiftl (byte_to_Z b1) 16) (Z.shiftl (byte_to_Z b2) 8))
                   (byte_to_Z b3) in
      bool_decide (b0 = x00) &&
      negb (bool_decide (len <= 0 \/ len > maxWALEntryBytes \/
        Z.of_nat off + 4 + len > Z.of_nat (length f))%Z) &&
      bool_decide (c = x7b) &&
      match readWALEntryAt f off with
      | inl _ => false
      | inr (entry, _) =>
          negb (bool_decide (Crc32 entry = 0%Z)) &&
          bool_decide (walChecksum entry = Crc32 entry)
      end
  | _ => false
  end.

Fixpoint findNext_loop (fuel : nat) (f : bytes) (off : nat) : option nat :=
  match fuel with
  | 0 => None
  | S fuel =>
      if decide (off + 4 < length f) then
        if candidate f off then Some off else findNext_loop fuel f (S off)
      else None
  end.

Definition findNextWALEntry (f : bytes) (start : nat) : option nat :=
  findNext_loop (length f) f start.

Inductive recover_error :=
| ErrDamaged (offset : nat) (reason : string)
| ErrInvalidBatch
| ErrNullBatch
| ErrPanic
| ErrCheckpoint (e : wal_error).

Record recovery := Recovery {
  rec_data : btreeIndex;
  rec_skipped : bool; (* something was cut out: keep a copy of the file *)
  rec_count : nat; (* walCorruptSkipped *)
}.

Fixpoint insert_all (data : btreeIndex) (kvs : list (string * gobytes)) : option btreeIndex :=
  match kvs with
  | [] => Some data
  | (k, v) :: rest => data' ← btree_insert data k v; insert_all data' rest
  end.

(** The entries of a map in key order ([sort.Strings] over its keys). *)
Definition sorted_pairs (m : gmap string gobytes) : list (string * gobytes) :=
  merge_sort (fun p q : string * gobytes => String.le p.1 q.1) (map_to_list m).

Definition replayEntry (data : btreeIndex) (entry : walEntry) : recover_error + btreeIndex :=
  let run kvs :=
    match insert_all data kvs with Some d => inr d | None => inl ErrPanic end in
  if decide (Op entry = "PUT") then run [(Key entry, Value entry)]
  else if decide (Op entry = "DELETE") then run [(Key entry, None)]
  else if decide (Op entry = "BATCH") then
    match Value entry ≫= unmarshal_map with
    | None => inl ErrInvalidBatch
    | Some None => inl ErrNullBatch
    | Some (Some values) => run (sorted_pairs values)
    end
  else inr data.

Fixpoint recover_loop (fuel : nat) (f : bytes) (allowSkip : bool) (offset : nat) (st : recovery) :
    recover_error + recovery :=
  match fuel with
  | 0 => inl ErrPanic
  | S fuel =>
      if decide (length f <= offset) then inr st else
      match readWALEntryAt f offset with
      | inl reason =>
          match findNextWALEntry f (offset + 1) with
          | None => inr st (* torn tail *)
          | Some next =>
              if allowSkip then
                recover_loop fuel f allowSkip next
                  (Recovery (rec_data st) true (S (rec_count st)))
              else inl (ErrDamaged offset reason)
          end
      | inr (entry, size) =>
          if bool_decide (Crc32 entry = 0%Z) || bool_decide (walChecksum entry = Crc32 entry) then
            match replayEntry (rec_data st) entry with
            | inl e => inl e
            | inr d =>
                recover_loop fuel f allowSkip (offset + size)
                  (Recovery d (rec_skipped st) (rec_count st))
            end
          else
            match findNextWALEntry f (offset + size) with
            | None => inr (Recovery (rec_data st) true (rec_count st)) (* torn tail *)
            | Some _ =>
                if allowSkip then
                  recover_loop fuel f allowSkip (offset + size)
                    (Recovery (rec_data st) true (S (rec_count st)))
                else inl (ErrDamaged offset "checksum mismatch")
            end
      end
  end.

(** The live entries as PUT records, in key order: what a checkpoint and
    the end of recovery write. *)
Definition liveEntries (data : btreeIndex) (now : Z) : list walEntry :=
  map (fun p => WalEntry "PUT" p.1 (Some p.2) now 0) (scanAllNodes data).

Definition recoverFromWAL (w : writeAheadLog) (data : btreeIndex) (allowSkip : bool) (now : Z)
    (io : compact_io) : recover_error + (writeAheadLog * recovery) :=
  match recover_loop (S (length (wal_disk w))) (wal_disk w) allowSkip 0 (Recovery data false 0) with
  | inl e => inl e
  | inr st =>
      match rewriteLocked w (liveEntries (rec_data st) now) io with
      | (_, Some e) => inl (ErrCheckpoint e)
      | (w', None) => inr (w', st)
      end
  end.
End wal.

(** ** Checksums and frames *)

Lemma lxor_range a b n :
  (0 <= n)%Z -> (0 <= a < 2 ^ n)%Z -> (0 <= b < 2 ^ n)%Z -> (0 <= Z.lxor a b < 2 ^ n)%Z.
Proof.
  intros Hn Ha Hb. assert (Z.lxor a b = Z.lxor a b mod 2 ^ n)%Z as ->.
  { apply Z.bits_inj'. intros i Hi. destruct (decide (i < n)%Z).
    - by rewrite Z.mod_pow2_bits_low by lia.
    - rewrite Z.mod_pow2_bits_high by lia. rewrite Z.lxor_spec.
      rewrite <- (Z.mod_small a (2 ^ n)), <- (Z.mod_small b (2 ^ n)) by done.
      by rewrite !Z.mod_pow2_bits_high by lia. }
  apply Z.mod_pos_bound. lia.
Qed.

Lemma crc32_bit_range c : (0 <= c < 2 ^ 32)%Z -> (0 <= crc32_bit c < 2 ^ 32)%Z.
Proof.
  intros Hc. unfold crc32_bit.
  assert (0 <= Z.shiftr c 1 < 2 ^ 32)%Z.
  { rewrite Z.shiftr_div_pow2 by lia. change (2 ^ 1)%Z with 2%Z.
    Z.to_euclidean_division_equations. lia. }
  destruct (Z.testbit c 0); [apply lxor_range; lia|done].
Qed.

Lemma crc32_byte_range c b : (0 <= c < 2 ^ 32)%Z -> (0 <= crc32_byte c b < 2 ^ 32)%Z.
Proof.
  intros Hc. unfold crc32_byte. apply Nat.iter_invariant; [intros; by apply crc32_bit_range|].
  pose proof (byte_to_Z_range b). apply lxor_range; lia.
Qed.

Lemma crc32_ieee_range data : (0 <= crc32_ieee data < 2 ^ 32)%Z.
Proof.
  unfold crc32_ieee. apply lxor_range; [lia| |lia].
  assert (forall c, 0 <= c < 2 ^ 32 -> 0 <= foldl crc32_byte c data < 2 ^ 32)%Z as H.
  { induction data as [|b data IH]; simpl; [done|]. intros c Hc. by apply IH, crc32_byte_range. }
  apply H. lia.
Qed.

Section wal_proofs.
Context {C : WalCodec} {Cok : WalCodecOk C}.

(** An entry the log can hold: representable, without a checksum yet, and
    within the size limit. *)
Definition storable (e : walEntry) : Prop :=
  entry_ok e /\ Crc32 e = 0%Z /\ (Z.of_nat (length (marshal (seal e))) <= maxWALEntryBytes)%Z.

Definition frame (e : walEntry) : bytes :=
  be32 (Z.of_nat (length (marshal (seal e)))) ++ marshal (seal e).

Definition frames (es : list walEntry) : bytes := concat (map frame es).

Lemma frames_app es1 es2 : frames (es1 ++ es2) = frames es1 ++ frames es2.
Proof. unfold frames. by rewrite map_app, concat_app. Qed.

Lemma frames_snoc es e : frames (es ++ [e]) = frames es ++ frame e.
Proof. rewrite frames_app. unfold frames at 2; simpl. by rewrite app_nil_r. Qed.

Lemma encodeEntry_storable e : storable e -> encodeEntry e = Some (frame e).
Proof. intros (_ & _ & H). unfold encodeEntry. by rewrite decide_False by lia. Qed.

Lemma encodeEntry_Some e buf : encodeEntry e = Some buf -> buf = frame e.
Proof. unfold encodeEntry. case_decide; [done|]. by intros [= <-]. Qed.

Lemma seal_ok e : entry_ok e -> entry_ok (seal e).
Proof. intros (H1 & H2 & H3 & _). split_and!; try apply H3; auto; apply crc32_ieee_range. Qed.

Lemma walChecksum_seal e : walChecksum (seal e) = walChecksum e.
Proof. done. Qed.

Lemma length_frame e : length (frame e) = 4 + length (marshal (seal e)).
Proof. done. Qed.

Lemma marshal_nonempty e : 4 <= length (marshal e).
Proof. destruct (marshal_head e) as [rest ->]. rewrite length_app. simpl. lia. Qed.

(** The length prefix of a storable frame. *)
Lemma frame_prefix e :
  storable e -> exists b0 b1 b2 b3,
    frame e = b0 :: b1 :: b2 :: b3 :: marshal (seal e) /\
    be32_decode b0 b1 b2 b3 = Z.of_nat (length (marshal (seal e))).
Proof.
  intros (_ & _ & H). unfold maxWALEntryBytes in H.
  destruct (be32_roundtrip (Z.of_nat (length (marshal (seal e))))) as (b0 & b1 & b2 & b3 & E & D);
    [lia|].
  exists b0, b1, b2, b3. unfold frame. by rewrite E.
Qed.

(** Reading back a complete frame. *)
Lemma readWALEntryAt_frame pre e post :
  storable e ->
  readWALEntryAt (pre ++ frame e ++ post) (length pre) = inr (seal e, length (frame e)).
Proof.
  intros Hs. pose proof (length_frame e) as Hlen. pose proof (marshal_nonempty (seal e)) as Hne.
  destruct (frame_prefix e Hs) as (b0 & b1 & b2 & b3 & E & D). destruct Hs as (Hok & _ & Hmax).
  unfold readWALEntryAt.
  generalize dependent (frame e). intros fr Hlen E. rewrite decide_False by (rewrite !length_app; lia).
  rewrite (drop_app_length pre). subst fr. simpl. rewrite D.
  rewrite decide_False by lia. rewrite Nat2Z.id.
  rewrite decide_False by (rewrite length_app; simpl; rewrite length_app; lia).
  replace (take _ (drop (length pre + 4) _)) with (marshal (seal e)).
  - rewrite unmarshal_marshal by (by apply seal_ok). done.
  - rewrite <- drop_drop, drop_app_length. cbn [drop app]. by rewrite drop_0, take_app_length.
Qed.

(** ** The torn tail *)

(** A crash leaves a proper prefix of the frame being written. *)
Definition torn (t : bytes) : Prop :=
  t = [] \/ exists e rest, storable e /\ frame e = t ++ rest /\ rest <> [].

Lemma readWALEntryAt_torn pre t :
  torn t -> t <> [] -> exists reason, readWALEntryAt (pre ++ t) (length pre) = inl reason.
Proof.
  intros [->|(e & rest & Hs & E & Hr)] Ht; [done|]. unfold readWALEntryAt.
  case_decide as Hlen; [eauto|]. rewrite length_app in Hlen. rewrite drop_app_length.
  destruct (frame_prefix e Hs) as (b0 & b1 & b2 & b3 & Ef & D). rewrite Ef in E.
  destruct t as [|c0 [|c1 [|c2 [|c3 t]]]]; simpl in Hlen; try lia.
  simpl in E. injection E as <- <- <- <- E. rewrite D. case_decide; [eauto|].
  rewrite Nat2Z.id. rewrite decide_True; [eauto|]. rewrite length_app; simpl.
  rewrite E, length_app. destruct rest; [done|]. simpl. lia.
Qed.

Lemma candidate_first f off b0 rest :
  drop off f = b0 :: rest -> b0 <> x00 -> candidate f off = false.
Proof.
  intros E Hb. unfold candidate. rewrite E.
  destruct rest as [|b1 [|b2 [|b3 [|c rest]]]]; try done.
  by rewrite (bool_decide_eq_false_2 (b0 = x00)).
Qed.

Lemma candidate_fifth f off b0 b1 b2 b3 c rest :
  drop off f = b0 :: b1 :: b2 :: b3 :: c :: rest -> c <> x7b -> candidate f off = false.
Proof.
  intros E Hb. unfold candidate. rewrite E. rewrite (bool_decide_eq_false_2 (c = x7b)) by done.
  by rewrite andb_false_r.
Qed.

Lemma candidate_short f off : length (drop off f) < 5 -> candidate f off = false.
Proof.
  intros H. unfold candidate. destruct (drop off f) as [|b0 [|b1 [|b2 [|b3 [|c rest]]]]]; try done.
  simpl in H. lia.
Qed.

Lemma candidate_torn pre t j :
  torn t -> candidate (pre ++ t) (length pre + S j) = false.
Proof.
  intros Ht. assert (drop (length pre + S j) (pre ++ t) = drop (S j) t) as Ed
    by (by rewrite <- drop_drop, drop_app_length).
  destruct (decide (length (drop (S j) t) < 5)) as [Hl|Hl].
  { apply candidate_short. by rewrite Ed. }
  destruct Ht as [->|(e & rest & Hs & E & _)]; [simpl in Hl; lia|].
  destruct (frame_prefix e Hs) as (b0 & b1 & b2 & b3 & Ef & _). rewrite Ef in E.
  destruct (marshal_head (seal e)) as [body Hbody].
  pose proof (marshal_nonzero (seal e)) as Hnz. pose proof E as E0. rewrite Hbody in E.
  destruct j as [|[|[|j]]].
  1-3: destruct t as [|c0 [|c1 [|c2 [|c3 [|c4 [|c5 [|c6 [|c7 t]]]]]]]]; simpl in Hl; try lia;
    simpl in E; simplify_eq;
    (eapply candidate_fifth; [rewrite Ed; reflexivity|done]).
  destruct t as [|c0 [|c1 [|c2 [|c3 t]]]]; simpl in Hl; try lia.
  clear E. cbn [app] in E0. injection E0 as <- <- <- <- E. simpl in Ed.
  destruct (drop j t) as [|b more] eqn:Ej; [simpl in Hl; lia|].
  eapply candidate_first; [by rewrite Ed|].
  rewrite E in Hnz. apply Forall_app in Hnz as [Hnz _]. rewrite Forall_forall in Hnz. apply Hnz.
  eapply (list_elem_of_lookup_2 _ j). rewrite <- (Nat.add_0_r j), <- lookup_drop, Ej. done.
Qed.

Lemma findNext_loop_none fuel f off :
  (forall k, candidate f (off + k) = false) -> findNext_loop fuel f off = None.
Proof.
  revert off. induction fuel as [|fuel IH]; intros off H; simpl; [done|].
  case_decide; [|done]. pose proof (H 0) as Hz. rewrite Nat.add_0_r in Hz. rewrite Hz.
  apply IH. intros k. specialize (H (S k)). by rewrite Nat.add_succ_r in H.
Qed.

Lemma findNext_torn pre t : torn t -> findNextWALEntry (pre ++ t) (length pre + 1) = None.
Proof.
  intros Ht. apply findNext_loop_none. intros k.
  replace (length pre + 1 + k) with (length pre + S k) by lia. by apply candidate_torn.
Qed.

(** ** Replaying a log *)

Fixpoint replay_all (data : btreeIndex) (es : list walEntry) : recover_error + btreeIndex :=
  match es with
  | [] => inr data
  | e :: rest =>
      match replayEntry data e with inl err => inl err | inr d => replay_all d rest end
  end.

(** Recovery of an undamaged log with a torn tail replays every complete
    entry, in order, whatever the skip setting. *)
Lemma recover_loop_frames es fuel pre t allowSkip st :
  Forall storable es -> torn t -> length es < fuel ->
  recover_loop fuel (pre ++ frames es ++ t) allowSkip (length pre) st =
  match replay_all (rec_data st) es with
  | inl e => inl e
  | inr d => inr (Recovery d (rec_skipped st) (rec_count st))
  end.
Proof.
  intros Hes Ht. revert fuel pre st. induction Hes as [|e es He Hes IH]; intros fuel pre st Hf;
    destruct fuel as [|fuel]; simpl in Hf; try lia.
  - simpl. unfold frames; simpl. destruct st as [d sk n]; simpl.
    case_decide as Hl; [done|]. rewrite length_app in Hl.
    destruct (readWALEntryAt_torn pre t Ht) as [reason ->]; [by intros ->; simpl in Hl; lia|].
    by rewrite findNext_torn.
  - assert (pre ++ frames (e :: es) ++ t = pre ++ frame e ++ (frames es ++ t)) as ->.
    { unfold frames; simpl. by rewrite <- app_assoc. }
    cbn [recover_loop]. rewrite decide_False
      by (rewrite !length_app, length_frame; lia).
    rewrite readWALEntryAt_frame by done.
    rewrite (bool_decide_eq_true_2 (walChecksum (seal e) = Crc32 (seal e))) by done.
    rewrite orb_true_r. cbn [replay_all].
    change (replayEntry (rec_data st) (seal e)) with (replayEntry (rec_data st) e).
    destruct (replayEntry (rec_data st) e) as [err|d]; [done|].
    rewrite app_assoc, <- length_app. rewrite IH by lia. done.
Qed.

(** ** Abstract log operations *)

Inductive wal_op :=
| OpPut (key : string) (v : gobytes)
| OpDelete (key : string)
| OpBatch (m : gmap string gobytes).

Definition entry_of (op : wal_op) (now : Z) : walEntry :=
  match op with
  | OpPut k v => WalEntry "PUT" k v now 0
  | OpDelete k => WalEntry "DELETE" k None now 0
  | OpBatch m => WalEntry "BATCH" "" (Some (marshal_map m)) now 0
  end.

Definition apply_op (m : gmap string gobytes) (op : wal_op) : gmap string gobytes :=
  match op with
  | OpPut k v => <[k:=v]> m
  | OpDelete k => <[k:=None]> m
  | OpBatch vs => vs ∪ m
  end.

Definition op_text (op : wal_op) : Prop :=
  match op with
  | OpPut k _ | OpDelete k => ascii_text k
  | OpBatch m => Forall (fun p => ascii_text p.1) (map_to_list m)
  end.

Definition int64 (t : Z) : Prop := (- 2 ^ 63 <= t < 2 ^ 63)%Z.

Lemma entry_of_ok op now : op_text op -> int64 now -> entry_ok (entry_of op now).
Proof.
  intros Ho Hn. unfold entry_ok. destruct op; simpl in *; split_and!; auto; try apply Hn; try lia;
    repeat constructor.
Qed.

Lemma insert_all_refines d m kvs :
  btree_rep d m -> exists d', insert_all d kvs = Some d' /\
    btree_rep d' (foldl (fun m p => <[p.1:=p.2]> m) m kvs).
Proof.
  revert d m. induction kvs as [|[k v] kvs IH]; intros d m H; simpl; [eauto|].
  destruct (btree_insert_refines d m k v H) as (d1 & -> & H1). simpl. by apply IH.
Qed.

Lemma foldl_insert_union (kvs : list (string * gobytes)) (m : gmap string gobytes) :
  NoDup (map fst kvs) ->
  foldl (fun m p => <[p.1:=p.2]> m) m kvs = list_to_map kvs ∪ m.
Proof.
  revert m. induction kvs as [|[k v] kvs IH]; intros m Hn; simpl.
  { by rewrite (left_id_L ∅ (∪)). }
  apply NoDup_cons in Hn as [Hk Hn]. rewrite IH by done.
  rewrite <- insert_union_l. symmetry. apply insert_union_r.
  by apply not_elem_of_list_to_map_1.
Qed.

Lemma sorted_pairs_fold vs m :
  foldl (fun m p => <[p.1:=p.2]> m) m (sorted_pairs vs) = vs ∪ m.
Proof.
  pose proof (merge_sort_Permutation (fun p q : string * gobytes => String.le p.1 q.1)
    (map_to_list vs)) as HP. unfold sorted_pairs.
  assert (NoDup (map fst (merge_sort (fun p q : string * gobytes => String.le p.1 q.1)
    (map_to_list vs)))) as Hnd.
  { change (map fst ?l) with (l.*1). rewrite HP. apply NoDup_fst_map_to_list. }
  rewrite foldl_insert_union by done.
  by rewrite (list_to_map_proper _ _ Hnd HP), list_to_map_to_list.
Qed.

Lemma replayEntry_refines d m op now :
  btree_rep d m -> op_text op ->
  exists d', replayEntry d (entry_of op now) = inr d' /\ btree_rep d' (apply_op m op).
Proof.
  intros H Ho. destruct op as [k v|k|vs]; cbn [entry_of].
  - destruct (insert_all_refines d m [(k, v)] H) as (d' & E & H').
    exists d'. unfold replayEntry; simpl Op. rewrite decide_True by done. simpl in *. by rewrite E.
  - destruct (insert_all_refines d m [(k, None)] H) as (d' & E & H').
    exists d'. unfold replayEntry; simpl Op. rewrite decide_False, decide_True by done.
    simpl in *. by rewrite E.
  - destruct (insert_all_refines d m (sorted_pairs vs) H) as (d' & E & H').
    exists d'. unfold replayEntry; simpl Op. rewrite !decide_False, decide_True by done.
    simpl Value. cbn [mbind option_bind]. rewrite unmarshal_marshal_map by done.
    rewrite E. by rewrite sorted_pairs_fold in H'.
Qed.

Lemma replay_all_refines d m (ops : list (wal_op * Z)) :
  btree_rep d m -> Forall (fun p => op_text p.1) ops ->
  exists d', replay_all d (map (fun p => entry_of p.1 p.2) ops) = inr d' /\
    btree_rep d' (foldl apply_op m (map fst ops)).
Proof.
  intros H Ho. revert d m H. induction Ho as [|[op now] ops Hop Ho IH]; intros d m H; simpl; [eauto|].
  destruct (replayEntry_refines d m op now H Hop) as (d1 & -> & H1). by apply IH.
Qed.

(** ** The log invariant *)

(** Bytes behind the last acknowledged entry: part or all of the frame of an
    operation whose append was tried and not acknowledged. *)
Definition leftover (tried : wal_op -> Prop) (junk : bytes) : Prop :=
  junk = [] \/ exists op now n, tried op /\ op_text op /\ storable (entry_of op now) /\
    junk = take n (frame (entry_of op now)).

(** [wal_holds tried w ops]: the file starts with the frames of [ops];
    unless the log refuses writes there is nothing else in it, otherwise
    what follows is left over from an operation in [tried]; and the size
    counter is the end of the last complete entry. *)
Record wal_holds (tried : wal_op -> Prop) (w : writeAheadLog) (ops : list (wal_op * Z)) : Prop := {
  wh_ops : Forall (fun p => op_text p.1 /\ storable (entry_of p.1 p.2)) ops;
  wh_file : exists junk, wal_disk w = frames (map (fun p => entry_of p.1 p.2) ops) ++ junk /\
    (wal_broken w = None -> junk = []) /\
    leftover tried junk;
  wh_size : wal_open w = true ->
    wal_size w = length (frames (map (fun p => entry_of p.1 p.2) ops));
}.

Abbreviation log_of ops := (map (fun p : wal_op * Z => entry_of p.1 p.2) ops).

Lemma entry_storable op now buf :
  op_text op -> int64 now -> encodeEntry (entry_of op now) = Some buf ->
  storable (entry_of op now) /\ buf = frame (entry_of op now).
Proof.
  intros Ho Hn E. pose proof (encodeEntry_Some _ _ E). unfold encodeEntry in E.
  case_decide; [done|]. split; [|done]. split_and!; [by apply entry_of_ok|by destruct op|lia].
Qed.

Lemma torn_nil : torn [].
Proof. by left. Qed.

Lemma leftover_nil tried : leftover tried [].
Proof. by left. Qed.

Lemma wal_holds_mono (tried tried' : wal_op -> Prop) w ops :
  (forall op, tried op -> tried' op) -> wal_holds tried w ops -> wal_holds tried' w ops.
Proof.
  intros Ht [H1 (junk & H2 & H3 & [->|(op & now & n & Hop & H4)]) H5]; constructor; auto;
    [exists []; auto using leftover_nil|].
  exists junk. split_and!; auto. right. exists op, now, n. auto.
Qed.

Lemma wal_holds_intro tried w ops :
  Forall (fun p => op_text p.1 /\ storable (entry_of p.1 p.2)) ops ->
  wal_disk w = frames (log_of ops) -> wal_size w = length (wal_disk w) -> wal_holds tried w ops.
Proof.
  intros H1 H2 H3. constructor; [done| |congruence]. exists [].
  rewrite app_nil_r. split_and!; auto using leftover_nil.
Qed.

(** Cutting the file back to the size counter removes the partial entry. *)
Lemma truncate_holds tried w ops extra ok err' :
  wal_holds tried w ops -> wal_broken w = None -> leftover tried extra ->
  let '(f', done) := truncate_to (wal_disk w ++ extra) (wal_open w) ok (wal_size w) in
  (wal_open w = false -> extra = []) ->
  forall b, (done = false -> extra <> [] -> b <> None) ->
  wal_holds tried (WriteAheadLog f' (wal_open w) (wal_size w) b err') ops.
Proof.
  intros [Hops (junk & Hd & Hj & _) Hsz] Hb Hex. specialize (Hj Hb). subst junk.
  rewrite app_nil_r in Hd. unfold truncate_to.
  destruct (wal_open w) eqn:Ho; simpl; [|intros Hx b _; rewrite Hx, app_nil_r by done].
  - specialize (Hsz eq_refl). destruct ok; simpl; intros _ b Hbn.
    + constructor; simpl; auto. exists []. rewrite Hd, Hsz, take_app_length, app_nil_r.
      split_and!; auto using leftover_nil.
    + constructor; simpl; auto. exists extra. rewrite Hd. split_and!; auto.
      intros ->. destruct extra; [done|]. exfalso. by apply Hbn.
  - constructor; simpl; auto. exists []. rewrite Hd, app_nil_r.
    split_and!; auto using leftover_nil.
Qed.

Lemma torn_take e n : storable e -> n < length (frame e) -> torn (take n (frame e)).
Proof.
  intros Hs Hn. right. exists e, (drop n (frame e)). rewrite take_drop. split_and!; auto.
  intros E. apply (f_equal length) in E. rewrite length_drop in E. change (length (@nil byte)) with 0 in E. lia.
Qed.

Lemma leftover_take (tried : wal_op -> Prop) op now n :
  tried op -> op_text op -> storable (entry_of op now) ->
  leftover tried (take n (frame (entry_of op now))).
Proof. intros. right. by exists op, now, n. Qed.

(** What recovery can make of the bytes left over. *)
Lemma leftover_cases tried junk :
  leftover tried junk ->
  torn junk \/ exists op now, tried op /\ op_text op /\ storable (entry_of op now) /\
    junk = frame (entry_of op now).
Proof.
  intros [->|(op & now & n & Hop & Ht & Hs & ->)]; [left; apply torn_nil|].
  destruct (decide (n < length (frame (entry_of op now)))).
  - left. by apply torn_take.
  - right. exists op, now. by rewrite take_ge by lia.
Qed.

(** A successful append extends the log by exactly one entry; a failed one
    leaves the entries it held, and if the partial bytes could not be cut
    off the log refuses every later write. *)
Lemma appendLocked_holds (tried : wal_op -> Prop) w ops op now io :
  wal_holds tried w ops -> tried op -> op_text op -> int64 now ->
  let '(w', err) := appendLocked w (entry_of op now) io in
  wal_open w' = wal_open w /\ wal_gen w' = wal_gen w /\
  match err with
  | None => wal_holds (fun _ => False) w' (ops ++ [(op, now)]) /\ wal_broken w' = None
  | Some _ => wal_holds tried w' ops
  end.
Proof.
  intros Hw Htry Ho Hn. unfold appendLocked. destruct (wal_broken w) eqn:Hb; [done|].
  pose proof (fun extra ok => truncate_holds tried w ops extra ok (wal_gen w) Hw Hb) as Ht.
  unfold writeEntryLocked. destruct (encodeEntry (entry_of op now)) as [buf|] eqn:Ee.
  2: { specialize (Ht [] (io_trunc_ok io) (leftover_nil tried)). rewrite app_nil_r in Ht.
       destruct (truncate_to _ _ _ _) as [f' []]; split_and!; auto; apply Ht; auto. }
  destruct (entry_storable op now buf Ho Hn Ee) as [Hs ->]. destruct (wal_open w) eqn:Hopen.
  2: { specialize (Ht [] (io_trunc_ok io) (leftover_nil tried)). rewrite app_nil_r in Ht.
       destruct (truncate_to _ _ _ _) as [f' []]; split_and!; auto; apply Ht; auto. }
  destruct (io_short io) as [n|].
  - specialize (Ht _ (io_trunc_ok io) (leftover_take tried op now n Htry Ho Hs)).
    destruct (truncate_to _ _ _ _) as [f' []]; split_and!; auto; apply Ht; auto; done.
  - destruct (io_sync_ok io).
    + split_and!; auto. destruct Hw as [Hops (junk & Hd & Hj & _) Hsz].
      rewrite (Hj Hb), app_nil_r in Hd. rewrite Hsz by done.
      apply wal_holds_intro; simpl.
      * apply Forall_app; split; [done|]. constructor; [done|constructor].
      * rewrite map_app; cbn [map fst snd]. by rewrite frames_snoc, Hd.
      * by rewrite length_app, Hd.
    + specialize (Ht _ (io_trunc_ok io)
        (leftover_take tried op now (length (frame (entry_of op now))) Htry Ho Hs)).
      rewrite firstn_all in Ht.
      destruct (truncate_to _ _ _ _) as [f' []]; split_and!; auto; apply Ht; auto; done.
Qed.

(** ** Compaction *)

Lemma writeCompact_loop_frames i ops io tmp out :
  Forall (fun p => op_text p.1 /\ int64 p.2) ops ->
  writeCompact_loop i (log_of ops) io tmp = inr out ->
  out = tmp ++ frames (log_of ops) /\
  Forall (fun p => op_text p.1 /\ storable (entry_of p.1 p.2)) ops.
Proof.
  intros Ho. revert i tmp. induction Ho as [|[op now] ops [Hop Hn] Ho IH]; intros i tmp E.
  { simpl in E. injection E as <-. unfold frames; simpl. rewrite app_nil_r. auto. }
  cbn [map writeCompact_loop fst snd] in *.
  destruct (encodeEntry (entry_of op now)) as [buf|] eqn:Ee; [|done].
  destruct (entry_storable op now buf Hop Hn Ee) as [Hs ->].
  destruct (co_write io i); [|done]. apply IH in E as [-> Hf]. split.
  - unfold frames; simpl. by rewrite <- app_assoc.
  - constructor; auto.
Qed.

Lemma writeCompact_frames ops io tmp total :
  Forall (fun p => op_text p.1 /\ int64 p.2) ops ->
  writeCompact (log_of ops) io = inr (tmp, total) ->
  tmp = frames (log_of ops) /\ total = length tmp /\
  Forall (fun p => op_text p.1 /\ storable (entry_of p.1 p.2)) ops.
Proof.
  intros Ho. unfold writeCompact. destruct (co_open io); [|done].
  destruct (writeCompact_loop 0 (log_of ops) io []) as [?|out] eqn:E; [done|].
  destruct (co_sync io), (co_close io); try done. intros [= <- <-].
  by apply writeCompact_loop_frames in E as [-> ?].
Qed.

(** The possible outcomes of an installation. *)
Inductive installed (w : writeAheadLog) (tmp : bytes) (total : nat) :
    writeAheadLog -> option wal_error -> Prop :=
| installed_not err opened :
    (opened = true -> wal_open w = true) ->
    installed w tmp total
      (WriteAheadLog (wal_disk w) opened (wal_size w) (wal_broken w) (wal_gen w)) (Some err)
| installed_reopen_failed :
    installed w tmp total
      (WriteAheadLog tmp false (wal_size w) (wal_broken w) (wal_gen w)) (Some ErrReopen)
| installed_ok err :
    wal_open w = true ->
    installed w tmp total
      (WriteAheadLog tmp true total (wal_broken w) ((wal_gen w + 1) mod 2 ^ 64)%Z) err.

Lemma install_outcome w tmp total offset io :
  let '(w', err) := installCompactLocked w tmp total offset io in
  installed w (copyWALTail (wal_disk w) tmp offset (wal_size w - offset))
    (total + (wal_size w - offset)) w' err.
Proof.
  assert (forall err, installed w (copyWALTail (wal_disk w) tmp offset (wal_size w - offset))
    (total + (wal_size w - offset)) w (Some err)) as Hsame.
  { intros err. destruct w as [d o n b g]. by apply (installed_not (WriteAheadLog d o n b g)). }
  unfold installCompactLocked. case_decide as Hlt.
  - destruct (co_tail io); [|apply Hsame]. destruct (wal_open w) eqn:Ho; cbn [andb]; [|by constructor].
    destruct (co_close_old io); [|by constructor].
    destruct (co_rename io); [|by constructor]. destruct (co_reopen io); by constructor.
  - case_decide; [apply Hsame|]. replace (wal_size w - offset) with 0 in * by lia.
    unfold copyWALTail in *. rewrite take_0, app_nil_r, Nat.add_0_r in *.
    destruct (wal_open w) eqn:Ho; cbn [andb]; [|by constructor]. destruct (co_close_old io); [|by constructor].
    destruct (co_rename io); [|by constructor]. destruct (co_reopen io); by constructor.
Qed.

(** Installing a compacted log [live] taken when the log held [ops1]: the
    entries [ops2] appended meanwhile are carried over. On an error the log
    holds either what it held before or the compacted form. *)
Lemma installCompact_holds tried w ops1 ops2 live offset io :
  wal_holds tried w (ops1 ++ ops2) -> wal_broken w = None -> wal_open w = true ->
  Forall (fun p => op_text p.1 /\ storable (entry_of p.1 p.2)) live ->
  offset = length (frames (log_of ops1)) ->
  let '(w', err) := installCompactLocked w (frames (log_of live))
    (length (frames (log_of live))) offset io in
  wal_broken w' = None /\
  match err with
  | None => wal_holds tried w' (live ++ ops2)
  | Some _ => wal_holds tried w' (ops1 ++ ops2) \/ wal_holds tried w' (live ++ ops2)
  end.
Proof.
  intros [Hops (junk & Hd & Hj & _) Hsz] Hb Ho Hl ->.
  rewrite (Hj Hb), app_nil_r in Hd. specialize (Hsz Ho).
  pose proof (install_outcome w (frames (log_of live)) (length (frames (log_of live)))
    (length (frames (log_of ops1))) io) as Hin.
  assert (copyWALTail (wal_disk w) (frames (log_of live)) (length (frames (log_of ops1)))
    (wal_size w - length (frames (log_of ops1))) = frames (log_of (live ++ ops2))) as Ecopy.
  { unfold copyWALTail. rewrite Hd, Hsz, !map_app, !frames_app, drop_app_length, length_app.
    f_equal. apply take_ge. lia. }
  rewrite Ecopy in Hin.
  assert (length (frames (log_of live)) + (wal_size w - length (frames (log_of ops1))) =
    length (frames (log_of (live ++ ops2)))) as Elen.
  { rewrite Hsz, !map_app, !frames_app, !length_app. lia. }
  rewrite Elen in Hin.
  assert (Forall (fun p => op_text p.1 /\ storable (entry_of p.1 p.2)) (live ++ ops2)) as Hnew.
  { apply Forall_app in Hops as [_ ?]. by apply Forall_app. }
  destruct (installCompactLocked _ _ _ _ _) as [w' err].
  destruct Hin as [err' opened Hop| |err' _]; simpl; (split; [done|]).
  - left. constructor; simpl; auto. exists []. rewrite app_nil_r. auto using leftover_nil.
  - right. constructor; simpl; [done| |done]. exists []. rewrite app_nil_r. auto using leftover_nil.
  - assert (forall g, wal_holds tried (WriteAheadLog (frames (log_of (live ++ ops2))) true
      (length (frames (log_of (live ++ ops2)))) (wal_broken w) g) (live ++ ops2)) as H
      by (intros; by apply wal_holds_intro).
    destruct err'; auto.
Qed.

(** On a closed handle nothing is installed and nothing changes. *)
Lemma installCompact_closed w tmp total offset io :
  wal_open w = false -> exists err, installCompactLocked w tmp total offset io = (w, Some err).
Proof.
  intros Ho. destruct w as [f o n b g]. simpl in Ho. subst o. unfold installCompactLocked. cbn.
  case_decide; [destruct (co_tail io); eauto|case_decide; eauto].
Qed.

(** ** What a reader sees *)

(** Tombstones are invisible. *)
Definition visible (m : gmap string gobytes) : gmap string bytes := omap id m.

Definition replay (ops : list (wal_op * Z)) : gmap string gobytes :=
  foldl apply_op ∅ (map fst ops).

Lemma lookup_visible m k : visible m !! k = m !! k ≫= id.
Proof. unfold visible. by rewrite lookup_omap. Qed.

#[export] Instance apply_op_proper op :
  Proper ((fun m1 m2 => visible m1 = visible m2) ==> (fun m1 m2 => visible m1 = visible m2))
    (fun m => apply_op m op).
Proof.
  intros m1 m2 E. apply map_eq. intros k. rewrite !lookup_visible.
  apply (f_equal (fun m => m !! k)) in E. rewrite !lookup_visible in E.
  destruct op as [j v|j|vs]; simpl.
  - rewrite !lookup_insert. by case_decide.
  - rewrite !lookup_insert. by case_decide.
  - rewrite !lookup_union. destruct (vs !! k) as [x|]; [|by rewrite !(left_id_L None _)].
    by destruct (m1 !! k), (m2 !! k).
Qed.

Lemma visible_apply m1 m2 op :
  visible m1 = visible m2 -> visible (apply_op m1 op) = visible (apply_op m2 op).
Proof. apply apply_op_proper. Qed.

Lemma visible_foldl m1 m2 ops :
  visible m1 = visible m2 -> visible (foldl apply_op m1 ops) = visible (foldl apply_op m2 ops).
Proof.
  revert m1 m2. induction ops as [|op ops IH]; intros m1 m2 E; simpl; [done|].
  by apply IH, visible_apply.
Qed.

Lemma replay_app ops1 ops2 : replay (ops1 ++ ops2) = foldl apply_op (replay ops1) (map fst ops2).
Proof. unfold replay. by rewrite map_app, foldl_app. Qed.

Lemma replay_text ops k :
  Forall (fun p => op_text p.1) ops -> is_Some (replay ops !! k) -> ascii_text k.
Proof.
  unfold replay. intros Ho.
  assert (forall m, (forall k, is_Some (m !! k) -> ascii_text k) ->
    is_Some (foldl apply_op m (map fst ops) !! k) -> ascii_text k) as H.
  { induction Ho as [|[op now] ops Hop Ho IH]; intros m Hm; simpl; [apply Hm|].
    apply IH. intros j [x Hj]. destruct op as [i v|i|vs]; simpl in *.
    - rewrite lookup_insert in Hj. case_decide; [by subst|by eauto].
    - rewrite lookup_insert in Hj. case_decide; [by subst|by eauto].
    - apply lookup_union_Some_raw in Hj as [Hj|[_ Hj]]; [|by eauto].
      rewrite Forall_forall in Hop. apply (Hop (j, x)). by apply elem_of_map_to_list. }
  apply H. intros j [x Hj]. by rewrite lookup_empty in Hj.
Qed.

(** The operations a compacted log holds. *)
Definition live_ops (data : btreeIndex) (now : Z) : list (wal_op * Z) :=
  map (fun p => (OpPut p.1 (Some p.2), now)) (scanAllNodes data).

Lemma liveEntries_ops data now : liveEntries data now = log_of (live_ops data now).
Proof. unfold liveEntries, live_ops. by rewrite map_map. Qed.

Lemma foldl_puts (l : list (string * bytes)) (now : Z) m :
  foldl apply_op m (map fst (map (fun p => (OpPut p.1 (Some p.2), now)) l)) =
  foldl (fun m p => <[p.1:=p.2]> m) m (map (fun p => (p.1, Some p.2)) l).
Proof. revert m. induction l as [|p l IH]; intros m; simpl; [done|]. apply IH. Qed.

Lemma omap_live_cons j v es :
  omap live ((j, v) :: es) = match v with Some w => (j, w) :: omap live es | None => omap live es end.
Proof. by destruct v. Qed.

(** Compaction keeps what a reader sees. *)
Lemma omap_live_lookup (es : list (string * gobytes)) k :
  NoDup (map fst es) ->
  (list_to_map (map (fun p => (p.1, Some p.2)) (omap live es)) : gmap string gobytes) !! k ≫= id =
  (list_to_map es : gmap string gobytes) !! k ≫= id.
Proof.
  induction es as [|[j [v|]] es IH]; intros Hn; [done|..]; apply NoDup_cons in Hn as [Hj Hn];
    rewrite omap_live_cons; cbn [list_to_map map fst snd foldr].
  - rewrite !lookup_insert. case_decide; [done|]. by apply IH.
  - rewrite IH by done. rewrite lookup_insert. case_decide; [subst|done].
    by rewrite (not_elem_of_list_to_map_1 es k).
Qed.

Lemma NoDup_sorted (l : list string) : StronglySorted str_lt l -> NoDup l.
Proof.
  induction 1 as [|x l Hs IH Hall]; constructor; [|done].
  rewrite Forall_forall in Hall. intros Hx. by apply (str_lt_irrefl x), Hall.
Qed.

Lemma NoDup_omap_live (es : list (string * gobytes)) :
  NoDup (map fst es) -> NoDup (map fst (map (fun p => (p.1, Some p.2)) (omap live es))).
Proof.
  induction es as [|[j [v|]] es IH]; intros Hn; [constructor|..]; apply NoDup_cons in Hn as [Hj Hn];
    rewrite omap_live_cons; cbn [map fst snd]; [|by apply IH].
  constructor; [|by apply IH]. intros Hin. apply Hj. rewrite map_map in Hin.
  apply list_elem_of_fmap in Hin as ([k w] & -> & Hin).
  apply list_elem_of_omap in Hin as ([k' [w'|]] & Hin & E); unfold live in E; simplify_eq/=.
  apply list_elem_of_fmap. eexists. split; [|exact Hin]. done.
Qed.

Lemma live_ops_visible data now :
  wf_index data -> visible (replay (live_ops data now)) = visible (contents data).
Proof.
  intros Hw. pose proof (NoDup_sorted _ (wf_index_sorted _ Hw)) as Hn.
  unfold replay, live_ops. rewrite foldl_puts, btree_scan_all by done.
  rewrite foldl_insert_union by (by apply NoDup_omap_live).
  rewrite (right_id_L ∅ (∪)). apply map_eq. intros k. rewrite !lookup_visible.
  by apply omap_live_lookup.
Qed.

Lemma live_ops_text data now ops :
  wf_index data -> int64 now -> Forall (fun p => op_text p.1) ops ->
  visible (contents data) = visible (replay ops) ->
  Forall (fun p => op_text p.1 /\ int64 p.2) (live_ops data now).
Proof.
  intros Hw Hn Ho E. unfold live_ops. rewrite btree_scan_all by done.
  apply Forall_map. apply Forall_forall. intros [k v] Hin. split; [|done]. simpl.
  apply list_elem_of_omap in Hin as ([k' [w|]] & Hin & Ek); unfold live in Ek; simplify_eq/=.
  apply (replay_text ops k Ho). apply (f_equal (fun m => m !! k)) in E.
  rewrite !lookup_visible in E. unfold contents in E.
  rewrite (elem_of_list_to_map_1 _ k (Some v)) in E;
    [|apply NoDup_sorted, (wf_index_sorted _ Hw)|done].
  simpl in E. destruct (replay ops !! k); [by eexists|done].
Qed.
End wal_proofs.
