(* ===== verification/Engine.v ===== *)
(** * The storage engine CobaltDB

    Models the engine of src/internal/storage/engine.go over the B+Tree
    (BTree.v) and the write-ahead log (Wal.v), and the value encryption of
    src/internal/storage/encryption.go. Each operation runs its critical
    section as one function of the engine state; [Checkpoint], which releases
    the write lock while it writes its snapshot, is two functions with other
    operations allowed in between. *)
From stdpp Require Import base gmap strings list sorting.
From Stdlib Require Import ZArith Lia Strings.Byte.
From S2P Require Import Prelude BTree Wal.

(** ** Encryption of stored values *)

Definition encryptionSaltLen : nat := 32.
Definition gcmNonceSize : nat := 12.
Definition gcmTagSize : nat := 16.

(** HKDF (golang.org/x/crypto) and the AES-GCM cipher. *)
Class Crypto := {
  deriveKey : bytes -> bytes -> option bytes; (* master key, salt *)
  gcm_seal : bytes -> bytes -> bytes -> bytes; (* key, nonce, plaintext *)
  gcm_open : bytes -> bytes -> bytes -> option bytes; (* key, nonce, ciphertext *)
}.

(** The documented contract of an AEAD: opening a sealed text under the same
    key and nonce returns it, and sealing adds one tag. *)
Class CryptoOk (K : Crypto) : Prop := {
  gcm_open_seal key nonce p : gcm_open key nonce (gcm_seal key nonce p) = Some p;
  gcm_seal_length key nonce p : length (gcm_seal key nonce p) = length p + gcmTagSize;
}.

Section encryption.
Context {K : Crypto}.

(** [salt] and [nonce] are the bytes read from [crypto/rand]. *)
Definition encrypt (master salt nonce plaintext : bytes) : option bytes :=
  derivedKey ← deriveKey master salt;
  Some (salt ++ nonce ++ gcm_seal derivedKey nonce plaintext).

Definition decrypt (master data : bytes) : option bytes :=
  if decide (length data < encryptionSaltLen + 12 + 16) then None else
  let salt := take encryptionSaltLen data in
  let nonceAndCiphertext := drop encryptionSaltLen data in
  derivedKey ← deriveKey master salt;
  if decide (length nonceAndCiphertext < gcmNonceSize) then None else
  gcm_open derivedKey (take gcmNonceSize nonceAndCiphertext)
    (drop gcmNonceSize nonceAndCiphertext).
End encryption.

(** ** Engine state and errors *)

Inductive db_error :=
| ErrClosed
| ErrNotFound (key : string)
| ErrEncrypt
| ErrDecrypt (key : string)
| ErrWal (e : wal_error)
| ErrWalChanged
| ErrWalUnusable (e : wal_error)
| ErrTreePanic.

Record CobaltDB := MkCobaltDB {
  db_closed : bool;
  db_data : btreeIndex;
  db_wal : writeAheadLog;
  db_encryptor : option bytes; (* the master key, when encryption is on *)
  db_checkpointBaseSz : nat;
}.

(** The inputs an operation takes from its environment: random bytes, the
    clock and the outcomes of its file operations. *)
Record env := Env {
  env_salt : bytes;
  env_nonce : bytes;
  env_now : Z;
  env_io : append_io;
}.

Definition with_wal (db : CobaltDB) (w : writeAheadLog) : CobaltDB :=
  MkCobaltDB (db_closed db) (db_data db) w (db_encryptor db) (db_checkpointBaseSz db).

Definition with_data (db : CobaltDB) (d : btreeIndex) : CobaltDB :=
  MkCobaltDB (db_closed db) d (db_wal db) (db_encryptor db) (db_checkpointBaseSz db).

(** [db.data.nextSeq++] on a uint64. *)
Definition bump_seq (d : btreeIndex) : btreeIndex :=
  BTreeIndex (root d) ((nextSeq d + 1) mod 2 ^ 64) (btreeOrder d) (heapTop d).

(** The order [NewEngine] uses for a configured one. *)
Definition effective_order (configured : Z) : nat :=
  if decide (configured > 0)%Z then
    if decide (configured < Z.of_nat minBTreeOrder)%Z then minBTreeOrder
    else if decide (configured > Z.of_nat maxBTreeOrder)%Z then maxBTreeOrder
    else Z.to_nat configured
  else defaultBTreeOrder.

Section engine.
Context {C : WalCodec} {K : Crypto}.

(** ** Reads *)

Definition decodeStoredValue (db : CobaltDB) (key : string) (value : bytes) :
    db_error + bytes :=
  match db_encryptor db with
  | None => inr value
  | Some master =>
      match decrypt master value with Some p => inr p | None => inl (ErrDecrypt key) end
  end.

Definition Get (db : CobaltDB) (key : string) : db_error + bytes :=
  if db_closed db then inl ErrClosed else
  match descend (depth (root (db_data db))) (root (db_data db)) key with
  | None => inl (ErrNotFound key)
  | Some node =>
      let idx := findKeyIndex (lkeys node) key in
      if decide (lkeys node !! idx = Some key) then
        match lvalues node !! idx with
        | None => inl ErrTreePanic
        | Some None => inl (ErrNotFound key)
        | Some (Some value) => decodeStoredValue db key value
        end
      else inl (ErrNotFound key)
  end.

(** The entries a scan visits: from the leaf the descent reaches, cut at
    [startIdx] in the first leaf. *)
Definition scan_entries (db : CobaltDB) (key : string) (cut : bool) : list (string * gobytes) :=
  let r := root (db_data db) in
  match descend_last (depth r) r key with
  | None => []
  | Some node =>
      match follow (length (leaves r)) r (Some node) with
      | [] => []
      | first :: rest =>
          let startIdx := if cut then findKeyIndex (lkeys first) key else 0 in
          zip (drop startIdx (lkeys first)) (drop startIdx (lvalues first)) ++ entries rest
      end
  end.

Fixpoint list_loop (prefix : string) (es : list (string * gobytes)) : list string :=
  match es with
  | [] => []
  | (key, v) :: rest =>
      if String.prefix prefix key then
        match v with Some _ => key :: list_loop prefix rest | None => list_loop prefix rest end
      else if String.ltb prefix key then []
      else list_loop prefix rest
  end.

Definition List_keys (db : CobaltDB) (prefix : string) : db_error + list string :=
  if db_closed db then inl ErrClosed else inr (list_loop prefix (scan_entries db prefix true)).

Fixpoint prefix_loop (db : CobaltDB) (prefix : string) (es : list (string * gobytes))
    (acc : gmap string bytes) : db_error + gmap string bytes :=
  match es with
  | [] => inr acc
  | (key, v) :: rest =>
      if String.prefix prefix key then
        match v with
        | Some value =>
            match decodeStoredValue db key value with
            | inl e => inl e
            | inr p => prefix_loop db prefix rest (<[key:=p]> acc)
            end
        | None => prefix_loop db prefix rest acc
        end
      else if String.ltb prefix key then inr acc
      else prefix_loop db prefix rest acc
  end.

Definition PrefixScan (db : CobaltDB) (prefix : string) : db_error + gmap string bytes :=
  if db_closed db then inl ErrClosed else prefix_loop db prefix (scan_entries db prefix true) ∅.

Fixpoint range_loop (db : CobaltDB) (start end_ : string) (es : list (string * gobytes))
    (acc : gmap string bytes) : db_error + gmap string bytes :=
  match es with
  | [] => inr acc
  | (key, v) :: rest =>
      if String.leb start key then
        if String.leb end_ key then inr acc else
        match v with
        | Some value =>
            match decodeStoredValue db key value with
            | inl e => inl e
            | inr p => range_loop db start end_ rest (<[key:=p]> acc)
            end
        | None => range_loop db start end_ rest acc
        end
      else range_loop db start end_ rest acc
  end.

Definition RangeScan (db : CobaltDB) (start end_ : string) : db_error + gmap string bytes :=
  if db_closed db then inl ErrClosed else range_loop db start end_ (scan_entries db start false) ∅.

(** ** Writes *)

(** The physical value of a logical one: [bytes.Clone] keeps nil nil,
    encryption always produces a value. *)
Definition storeValue (db : CobaltDB) (e : env) (value : gobytes) : option gobytes :=
  match db_encryptor db with
  | None => Some value
  | Some master =>
      c ← encrypt master (env_salt e) (env_nonce e) (default [] value); Some (Some c)
  end.

Definition Put (db : CobaltDB) (e : env) (key : string) (value : gobytes) :
    CobaltDB * option db_error :=
  if db_closed db then (db, Some ErrClosed) else
  match storeValue db e value with
  | None => (db, Some ErrEncrypt)
  | Some v =>
      match Append (db_wal db) key v (env_now e) (env_io e) with
      | (w, Some err) => (with_wal db w, Some (ErrWal err))
      | (w, None) =>
          match btree_insert (db_data db) key v with
          | None => (with_wal db w, Some ErrTreePanic)
          | Some d => (with_data (with_wal db w) (bump_seq d), None)
          end
      end
  end.

Definition Delete (db : CobaltDB) (e : env) (key : string) : CobaltDB * option db_error :=
  if db_closed db then (db, Some ErrClosed) else
  match AppendDelete (db_wal db) key (env_now e) (env_io e) with
  | (w, Some err) => (with_wal db w, Some (ErrWal err))
  | (w, None) =>
      match btree_insert (db_data db) key None with
      | None => (with_wal db w, Some ErrTreePanic)
      | Some d => (with_data (with_wal db w) d, None)
      end
  end.

Definition apply_batch (db : CobaltDB) (w : writeAheadLog) (err : option wal_error)
    (kvs : list (string * gobytes)) : CobaltDB * option db_error :=
  match err with
  | Some err => (with_wal db w, Some (ErrWal err))
  | None =>
      match insert_all (db_data db) kvs with
      | None => (with_wal db w, Some ErrTreePanic)
      | Some d => (with_data (with_wal db w) (bump_seq d), None)
      end
  end.

(** [rand k] is the environment of the encryption of key [k]. *)
Definition putMany (db : CobaltDB) (rand : string -> env) (e : env)
    (values : gmap string gobytes) : CobaltDB * option db_error :=
  if db_closed db then (db, Some ErrClosed) else
  if decide (values = ∅) then (db, None) else
  let encoded := map_imap (fun k v => Some (storeValue db (rand k) v)) values in
  if decide (map_Forall (fun _ o => is_Some o) encoded) then
    let stored := omap id encoded in
    let '(w, err) := AppendBatch (db_wal db) stored (env_now e) (env_io e) in
    apply_batch db w err (sorted_pairs stored)
  else (db, Some ErrEncrypt).

Definition deleteMany (db : CobaltDB) (e : env) (keys : list string) :
    CobaltDB * option db_error :=
  if db_closed db then (db, Some ErrClosed) else
  if decide (keys = []) then (db, None) else
  let tombstones : gmap string gobytes := list_to_map (map (fun k => (k, None)) keys) in
  let '(w, err) := AppendBatch (db_wal db) tombstones (env_now e) (env_io e) in
  apply_batch db w err (map (fun k => (k, None)) (merge_sort String.le keys)).

Definition Set_ (db : CobaltDB) (e : env) (key : string) (value : gobytes) := Put db e key value.

(** The loop of [DeletePrefix]: one environment per deleted key. *)
Fixpoint delete_keys (db : CobaltDB) (es : string -> env) (keys : list string) :
    CobaltDB * option db_error :=
  match keys with
  | [] => (db, None)
  | key :: rest =>
      match Delete db (es key) key with
      | (db', Some err) => (db', Some err)
      | (db', None) => delete_keys db' es rest
      end
  end.

Definition DeletePrefix (db : CobaltDB) (es : string -> env) (prefix : string) :
    CobaltDB * option db_error :=
  if db_closed db then (db, Some ErrClosed) else
  match List_keys db prefix with
  | inl err => (db, Some err)
  | inr keys => delete_keys db es keys
  end.

(** ** Checkpoints *)

Fixpoint insert_live (d : btreeIndex) (live : list (string * bytes)) : btreeIndex :=
  match live with
  | [] => d
  | (k, v) :: rest => insert_live (default d (btree_insert d k (Some v))) rest
  end.

Definition compactTree (d : btreeIndex) : btreeIndex :=
  let live := scanAllNodes d in
  let d' := insert_live (emptyIndex (btreeOrder d) (heapTop d)) live in
  BTreeIndex (root d') (Z.of_nat (length live) mod 2 ^ 64) (btreeOrder d') (heapTop d').

(** What [Checkpoint] captured under the write lock. *)
Record capture := Capture {
  cap_entries : list walEntry;
  cap_offset : nat;
  cap_gen : Z;
}.

Definition checkpoint_begin (db : CobaltDB) (now : Z) : db_error + capture :=
  if db_closed db then inl ErrClosed else
  match wal_broken (db_wal db) with
  | Some e => inl (ErrWalUnusable e)
  | None => inr (Capture (liveEntries (db_data db) now) (wal_size (db_wal db)) (wal_gen (db_wal db)))
  end.

Definition checkpoint_finish (db : CobaltDB) (c : capture) (io : compact_io) :
    CobaltDB * option db_error :=
  match writeCompact (cap_entries c) io with
  | inl e => (db, Some (ErrWal e))
  | inr (tmp, total) =>
      if decide (wal_gen (db_wal db) <> cap_gen c \/ wal_broken (db_wal db) <> None)
      then (db, Some ErrWalChanged) else
      match installCompactLocked (db_wal db) tmp total (cap_offset c) io with
      | (w, Some e) => (with_wal db w, Some (ErrWal e))
      | (w, None) =>
          (MkCobaltDB (db_closed db) (compactTree (db_data db)) w (db_encryptor db) (currentSize w),
           None)
      end
  end.

Definition minWALCheckpointBytes : Z := 8 * 1024 * 1024.

(** Whether the background loop starts a checkpoint. *)
Definition checkpoint_due (db : CobaltDB) : bool :=
  let size := Z.of_nat (currentSize (db_wal db)) in
  let base := Z.of_nat (db_checkpointBaseSz db) in
  let threshold :=
    if decide (2 * base > minWALCheckpointBytes)%Z then (2 * base)%Z else minWALCheckpointBytes in
  negb (bool_decide (size <= threshold)%Z).

(** ** Opening and closing *)

Definition Close (db : CobaltDB) : CobaltDB :=
  if db_closed db then db else
  let w := db_wal db in
  MkCobaltDB true (db_data db)
    (WriteAheadLog (wal_disk w) false (wal_size w) (wal_broken w) (wal_gen w))
    (db_encryptor db) (db_checkpointBaseSz db).

Definition Ping (db : CobaltDB) : option db_error :=
  if db_closed db then Some ErrClosed else
  match health (db_wal db) with Some e => Some (ErrWal e) | None => None end.

(** [NewEngine] on a data directory whose log file holds [disk]: a fresh
    tree, then recovery. The log's size counter starts at zero and is set
    by the rewrite at the end of recovery. *)
Definition open_engine (disk : bytes) (order : Z) (enc : option bytes) (allowSkip : bool)
    (now : Z) (io : compact_io) : recover_error + CobaltDB :=
  let w := WriteAheadLog disk true 0 None 0 in
  match recoverFromWAL w (emptyIndex (effective_order order) 0) allowSkip now io with
  | inl e => inl e
  | inr (w', st) => inr (MkCobaltDB false (rec_data st) w' enc (currentSize w'))
  end.
End engine.

(** ** Invariant and refinement *)

(** The abstract state of an engine: the key/value pairs a reader can see
    (physical values, before decryption). *)
Definition view (db : CobaltDB) : gmap string bytes := visible (contents (db_data db)).

Lemma bump_seq_wf d : wf_index d -> wf_index (bump_seq d).
Proof. by intros [H1 H2 H3]. Qed.

Lemma effective_order_min configured : minBTreeOrder <= effective_order configured <= maxBTreeOrder.
Proof.
  unfold effective_order, minBTreeOrder, maxBTreeOrder, defaultBTreeOrder.
  repeat case_decide; lia.
Qed.

Section engine_proofs.
Context {C : WalCodec} {Cok : WalCodecOk C} {K : Crypto}.

Record db_inv (tried : wal_op -> Prop) (db : CobaltDB) (ops : list (wal_op * Z)) : Prop := {
  di_tree : wf_index (db_data db);
  di_wal : wal_holds tried (db_wal db) ops;
  di_view : view db = visible (replay ops);
}.

(** One logged operation and its application to the tree. *)
Lemma commit_inv (tried : wal_op -> Prop) db ops op now io d' :
  db_inv tried db ops -> tried op -> op_text op -> int64 now ->
  let '(w, err) := appendLocked (db_wal db) (entry_of op now) io in
  match err with
  | Some _ => db_inv tried (with_wal db w) ops
  | None =>
      btree_rep d' (apply_op (contents (db_data db)) op) ->
      db_inv (fun _ => False) (with_data (with_wal db w) d') (ops ++ [(op, now)])
  end.
Proof.
  intros [Ht Hw Hv] Htr Ho Hn.
  pose proof (appendLocked_holds tried (db_wal db) ops op now io Hw Htr Ho Hn) as H.
  destruct (appendLocked _ _ _) as [w [err|]]; destruct H as (_ & _ & H).
  - by constructor.
  - intros [Hd Ec]. destruct H as [H _]. constructor; [done|done|].
    unfold view. simpl. rewrite Ec, replay_app. simpl. by apply visible_apply.
Qed.

Lemma Put_inv (tried : wal_op -> Prop) db ops e key v :
  db_inv tried db ops -> (forall w, storeValue db e v = Some w -> tried (OpPut key w)) ->
  ascii_text key -> int64 (env_now e) ->
  let '(db', err) := Put db e key v in
  match err with
  | Some _ => db_inv tried db' ops
  | None => exists w, storeValue db e v = Some w /\
      db_inv (fun _ => False) db' (ops ++ [(OpPut key w, env_now e)])
  end.
Proof.
  intros Hi Htr Hk Hn. unfold Put. destruct (db_closed db); [done|].
  destruct (storeValue db e v) as [w|]; [|done]. specialize (Htr w eq_refl).
  destruct (btree_insert_refines (db_data db) (contents (db_data db)) key w) as (d & Ed & Hd).
  { split; [apply Hi|done]. }
  pose proof (commit_inv tried db ops (OpPut key w) (env_now e) (env_io e) (bump_seq d)
    Hi Htr Hk Hn) as H.
  unfold Append. cbn [entry_of] in H.
  destruct (appendLocked _ _ _) as [l [err|]]; [done|]. rewrite Ed.
  exists w. split; [done|]. apply H. destruct Hd as [Hd1 Hd2]. split; [by apply bump_seq_wf|done].
Qed.

Lemma Delete_inv (tried : wal_op -> Prop) db ops e key :
  db_inv tried db ops -> tried (OpDelete key) -> ascii_text key -> int64 (env_now e) ->
  let '(db', err) := Delete db e key in
  match err with
  | Some _ => db_inv tried db' ops
  | None => db_inv (fun _ => False) db' (ops ++ [(OpDelete key, env_now e)])
  end.
Proof.
  intros Hi Htr Hk Hn. unfold Delete. destruct (db_closed db); [done|].
  destruct (btree_insert_refines (db_data db) (contents (db_data db)) key None) as (d & Ed & Hd).
  { split; [apply Hi|done]. }
  pose proof (commit_inv tried db ops (OpDelete key) (env_now e) (env_io e) d Hi Htr Hk Hn) as H.
  unfold AppendDelete. cbn [entry_of] in H.
  destruct (appendLocked _ _ _) as [l [err|]]; [done|]. rewrite Ed. by apply H.
Qed.

Lemma batch_inv (tried : wal_op -> Prop) db ops m kvs now io :
  db_inv tried db ops -> tried (OpBatch m) ->
  Forall (fun p => ascii_text p.1) (map_to_list m) -> int64 now ->
  (forall m0, foldl (fun m p => <[p.1:=p.2]> m) m0 kvs = m ∪ m0) ->
  let '(w, err) := AppendBatch (db_wal db) m now io in
  let '(db', err') := apply_batch db w err kvs in
  match err' with
  | Some _ => db_inv tried db' ops
  | None => db_inv (fun _ => False) db' (ops ++ [(OpBatch m, now)])
  end.
Proof.
  intros Hi Htr Hm Hn Hf.
  destruct (insert_all_refines (db_data db) (contents (db_data db)) kvs) as (d & Ed & Hd).
  { split; [apply Hi|done]. }
  pose proof (commit_inv tried db ops (OpBatch m) now io (bump_seq d) Hi Htr Hm Hn) as H.
  unfold AppendBatch. cbn [entry_of] in H. destruct (appendLocked _ _ _) as [l [err|]]; [done|].
  simpl. rewrite Ed. apply H. destruct Hd as [Hd1 Hd2].
  split; [by apply bump_seq_wf|]. simpl. by rewrite <- Hf.
Qed.

(** The stored form of a batch. *)
Definition stored_batch (db : CobaltDB) (rand : string -> env) (values : gmap string gobytes) :
    gmap string gobytes :=
  omap id (map_imap (fun k v => Some (storeValue db (rand k) v)) values).

Lemma stored_batch_text db rand values :
  (forall k, is_Some (values !! k) -> ascii_text k) ->
  Forall (fun p => ascii_text p.1) (map_to_list (stored_batch db rand values)).
Proof.
  intros Hk. apply Forall_forall. intros [k v] Hin. apply elem_of_map_to_list in Hin. simpl.
  apply Hk. unfold stored_batch in Hin. rewrite lookup_omap, map_lookup_imap in Hin.
  destruct (values !! k); [by eexists|done].
Qed.

Lemma putMany_inv (tried : wal_op -> Prop) db ops rand e values :
  db_inv tried db ops -> tried (OpBatch (stored_batch db rand values)) ->
  (forall k, is_Some (values !! k) -> ascii_text k) -> int64 (env_now e) ->
  let '(db', err) := putMany db rand e values in
  match err with
  | Some _ => db_inv tried db' ops
  | None => (values = ∅ /\ db' = db) \/
      db_inv (fun _ => False) db' (ops ++ [(OpBatch (stored_batch db rand values), env_now e)])
  end.
Proof.
  intros Hi Htr Hk Hn. unfold putMany. destruct (db_closed db); [done|].
  case_decide as Hv; [by left|]. cbv zeta. case_decide as Hs; [|done].
  pose proof (batch_inv tried db ops (stored_batch db rand values)
    (sorted_pairs (stored_batch db rand values)) (env_now e) (env_io e) Hi Htr
    (stored_batch_text db rand values Hk) Hn (sorted_pairs_fold _)) as Hb.
  unfold stored_batch in *. destruct (AppendBatch _ _ _ _) as [w err].
  destruct (apply_batch _ _ _ _) as [db' [err'|]]; auto.
Qed.

(** The map [deleteMany] logs. *)
Definition tombstones (keys : list string) : gmap string gobytes :=
  list_to_map (map (fun k => (k, None)) keys).

Lemma lookup_tombstones keys k :
  tombstones keys !! k = if decide (k ∈ keys) then Some None else None.
Proof.
  unfold tombstones. induction keys as [|j keys IH]; cbn [map list_to_map foldr].
  { by rewrite lookup_empty, decide_False by apply not_elem_of_nil. }
  cbn [fst snd]. rewrite lookup_insert. destruct (decide (j = k)) as [->|Hne].
  - rewrite decide_True; [done|by left].
  - rewrite IH. apply decide_ext. rewrite elem_of_cons. naive_solver.
Qed.

Lemma foldl_tombstones keys (m : gmap string gobytes) :
  foldl (fun m p => <[p.1:=p.2]> m) m (map (fun k => (k, None)) keys) = tombstones keys ∪ m.
Proof.
  revert m. induction keys as [|j keys IH]; intros m; simpl.
  { unfold tombstones; simpl. by rewrite (left_id_L ∅ (∪)). }
  rewrite IH. apply map_eq. intros k. rewrite !lookup_union, !lookup_tombstones, lookup_insert.
  destruct (decide (k ∈ keys)), (decide (j = k)) as [->|Hne].
  - rewrite decide_True by (by left). by destruct (m !! k).
  - rewrite decide_True by (by right). done.
  - rewrite decide_True by (by left). by destruct (m !! k).
  - rewrite decide_False by (rewrite elem_of_cons; naive_solver). done.
Qed.

Lemma tombstones_perm keys keys' : keys ≡ₚ keys' -> tombstones keys = tombstones keys'.
Proof.
  intros HP. apply map_eq. intros k. rewrite !lookup_tombstones. apply decide_ext. by rewrite HP.
Qed.

Lemma deleteMany_inv (tried : wal_op -> Prop) db ops e keys :
  db_inv tried db ops -> tried (OpBatch (tombstones keys)) ->
  Forall ascii_text keys -> int64 (env_now e) ->
  let '(db', err) := deleteMany db e keys in
  match err with
  | Some _ => db_inv tried db' ops
  | None => (keys = [] /\ db' = db) \/ db_inv (fun _ => False) db' (ops ++ [(OpBatch (tombstones keys), env_now e)])
  end.
Proof.
  intros Hi Htr Hk Hn. unfold deleteMany. destruct (db_closed db); [done|].
  case_decide as Hv; [by left|]. cbv zeta. fold (tombstones keys).
  assert (Forall (fun p => ascii_text p.1) (map_to_list (tombstones keys))) as Ht.
  { apply Forall_forall. intros [k v] Hin%elem_of_map_to_list. rewrite lookup_tombstones in Hin.
    rewrite Forall_forall in Hk. case_decide; [by apply Hk|done]. }
  pose proof (batch_inv tried db ops (tombstones keys)
    (map (fun k => (k, None)) (merge_sort String.le keys)) (env_now e) (env_io e) Hi Htr Ht Hn) as Hb.
  destruct (AppendBatch _ _ _ _) as [w err]. destruct (apply_batch _ _ _ _) as [db' err'].
  destruct err'; [|right]; apply Hb; intros m; rewrite foldl_tombstones; f_equal;
    apply tombstones_perm, merge_sort_Permutation.
Qed.

(** ** Reads against the abstract state *)

Lemma view_lookup db k : view db !! k = contents (db_data db) !! k ≫= id.
Proof. apply lookup_visible. Qed.

Lemma Get_view db key :
  wf_index (db_data db) -> db_closed db = false ->
  Get db key = match view db !! key with
               | Some value => decodeStoredValue db key value
               | None => inl (ErrNotFound key)
               end.
Proof.
  intros Hw Hc. unfold Get. rewrite Hc.
  destruct (walk_from_key (db_data db) key Hw) as (l & pre & post & -> & _ & E & Hok & _ & H1 & H2).
  assert (leaf_get l key = contents (db_data db) !! key) as Hl
    by (apply located_lookup; by apply (Located _ _ _ pre post)).
  rewrite view_lookup, <- Hl. unfold leaf_get. case_decide as Hk; [|done].
  destruct Hok as [Hlen _]. destruct (lookup_lt_is_Some_2 (lvalues l) (findKeyIndex (lkeys l) key))
    as [v Hv]; [rewrite <- Hlen; by eapply lookup_lt_Some|].
  rewrite Hv. by destruct v.
Qed.

(** The scans start at the first key not below the bound. *)
Lemma scan_entries_spec db key cut :
  wf_index (db_data db) -> exists front,
    entries (leaves (root (db_data db))) = front ++ scan_entries db key cut /\
    Forall (fun e => str_lt e.1 key) front.
Proof.
  intros Hw. unfold scan_entries.
  destruct (walk_from_key (db_data db) key Hw)
    as (l & pre & post & _ & -> & E & [Hlen Hs] & -> & H1 & _).
  set (i := if cut then findKeyIndex (lkeys l) key else 0).
  assert (Forall (fun k => str_lt k key) (take i (lkeys l))) as Hi.
  { subst i. destruct cut; [by apply findKeyIndex_spec|rewrite take_0; constructor]. }
  exists (entries pre ++ zip (take i (lkeys l)) (take i (lvalues l))). split.
  - rewrite E. change (l :: post) with ([l] ++ post). rewrite !entries_app, entries_one.
    unfold leaf_entries. rewrite (zip_take_drop _ _ i Hlen) at 1. by rewrite <- !app_assoc.
  - apply Forall_app. split; [by apply (entries_keys_lkeys _ (fun k => str_lt k key))|].
    by apply (Forall_zip_fst (fun k => str_lt k key)).
Qed.

Lemma live_keys_in (es : list (string * gobytes)) k v :
  (k, v) ∈ omap live es <-> (k, Some v) ∈ es.
Proof.
  rewrite list_elem_of_omap. split.
  - intros ([k' [w|]] & Hin & E); unfold live in E; by simplify_eq/=.
  - intros Hin. by exists (k, Some v).
Qed.

Lemma filter_none_live (P : string -> bool) (es : list (string * gobytes)) :
  Forall (fun k => P k <> true) (map fst es) ->
  filter (fun e : string * bytes => P e.1 = true) (omap live es) = [].
Proof.
  induction es as [|[k v] es IH]; intros H; [done|]. inversion H; subst.
  rewrite omap_live_cons. destruct v as [w|]; [rewrite filter_cons_False by done|]; auto.
Qed.

Lemma sublist_sorted (l1 l2 : list string) :
  l1 `sublist_of` l2 -> StronglySorted str_lt l2 -> StronglySorted str_lt l1.
Proof.
  induction 1 as [|x l1 l2 Hs IH|x l1 l2 Hs IH]; intros H2; [constructor|..];
    inversion H2 as [|? ? Hs2 Hall]; subst; [|by apply IH].
  constructor; [by apply IH|]. rewrite Forall_forall in *.
  intros y Hy. apply Hall. by eapply sublist_subseteq.
Qed.

Lemma live_sublist (es : list (string * gobytes)) : map fst (omap live es) `sublist_of` map fst es.
Proof.
  induction es as [|[k [v|]] es IH]; [done|..]; rewrite omap_live_cons; simpl; by constructor.
Qed.

Lemma list_loop_spec p es :
  StronglySorted str_lt (map fst es) ->
  list_loop p es = map fst (filter (fun e => String.prefix p e.1 = true) (omap live es)).
Proof.
  induction es as [|[k v] es IH]; intros Hs; [done|]. rewrite omap_live_cons.
  cbn [list_loop]. cbn [map fst] in Hs. inversion Hs as [|? ? Hs' Hall]; subst.
  destruct (String.prefix p k) eqn:Ep.
  - destruct v as [w|]; [|by apply IH]. rewrite filter_cons_True by done. simpl. by rewrite IH.
  - destruct (String.ltb p k) eqn:El.
    + rewrite <- omap_live_cons, (filter_none_live (String.prefix p)); [done|].
      apply str_ltb_lt in El.
      constructor; [simpl; congruence|]. eapply Forall_impl; [exact Hall|]. intros j Hj. simpl.
      rewrite (prefix_interval p k j); auto using str_lt_le.
    + rewrite IH by done. destruct v as [w|]; [|done].
      by rewrite filter_cons_False by (simpl; congruence).
Qed.

(** Decoding a list of stored values into a map, in order. *)
Fixpoint collect (db : CobaltDB) (kvs : list (string * bytes)) (acc : gmap string bytes) :
    db_error + gmap string bytes :=
  match kvs with
  | [] => inr acc
  | (k, v) :: rest =>
      match decodeStoredValue db k v with
      | inl e => inl e
      | inr p => collect db rest (<[k:=p]> acc)
      end
  end.

Lemma prefix_loop_collect db p es acc :
  StronglySorted str_lt (map fst es) ->
  prefix_loop db p es acc =
  collect db (filter (fun e => String.prefix p e.1 = true) (omap live es)) acc.
Proof.
  revert acc. induction es as [|[k v] es IH]; intros acc Hs; [done|].
  cbn [prefix_loop]. cbn [map fst] in Hs. inversion Hs as [|? ? Hs' Hall]; subst.
  destruct (String.prefix p k) eqn:Ep.
  - rewrite omap_live_cons. destruct v as [w|]; [|by apply IH].
    rewrite filter_cons_True by done. cbn [collect].
    destruct (decodeStoredValue db k w); [done|by apply IH].
  - destruct (String.ltb p k) eqn:El.
    + rewrite (filter_none_live (String.prefix p)); [done|]. apply str_ltb_lt in El.
      constructor; [simpl; congruence|]. eapply Forall_impl; [exact Hall|]. intros j Hj. simpl.
      rewrite (prefix_interval p k j); auto using str_lt_le.
    + rewrite IH, omap_live_cons by done. destruct v as [w|]; [|done].
      by rewrite filter_cons_False by (simpl; congruence).
Qed.

Definition in_range (lo hi k : string) : bool := String.leb lo k && negb (String.leb hi k).

Lemma range_loop_collect db lo hi es acc :
  StronglySorted str_lt (map fst es) ->
  range_loop db lo hi es acc =
  collect db (filter (fun e => in_range lo hi e.1 = true) (omap live es)) acc.
Proof.
  revert acc. induction es as [|[k v] es IH]; intros acc Hs; [done|].
  cbn [range_loop]. cbn [map fst] in Hs. inversion Hs as [|? ? Hs' Hall]; subst.
  destruct (String.leb lo k) eqn:Elo; [destruct (String.leb hi k) eqn:Ehi|].
  - rewrite (filter_none_live (in_range lo hi)); [done|]. apply str_leb_le in Ehi.
    constructor; [unfold in_range; simpl; by rewrite (proj2 (str_leb_le hi k)), andb_false_r|].
    eapply Forall_impl; [exact Hall|]. intros j Hj. unfold in_range.
    rewrite (proj2 (str_leb_le hi j)), andb_false_r; [done|].
    apply str_lt_le. by eapply str_le_lt_trans.
  - rewrite omap_live_cons. destruct v as [w|]; [|by apply IH].
    rewrite filter_cons_True by (unfold in_range; simpl; by rewrite Elo, Ehi). cbn [collect].
    destruct (decodeStoredValue db k w); [done|by apply IH].
  - rewrite IH, omap_live_cons by done. destruct v as [w|]; [|done].
    rewrite filter_cons_False; [done|]. unfold in_range. simpl. by rewrite Elo.
Qed.

Lemma collect_spec db kvs acc :
  NoDup (map fst kvs) ->
  match collect db kvs acc with
  | inl e => exists k v, (k, v) ∈ kvs /\ decodeStoredValue db k v = inl e
  | inr m =>
      Forall (fun kv => exists p, decodeStoredValue db kv.1 kv.2 = inr p /\ m !! kv.1 = Some p) kvs /\
      forall k, k ∉ map fst kvs -> m !! k = acc !! k
  end.
Proof.
  revert acc. induction kvs as [|[k v] kvs IH]; intros acc Hn; simpl; [auto|].
  apply NoDup_cons in Hn as [Hk Hn]. destruct (decodeStoredValue db k v) as [e|p] eqn:E.
  { exists k, v. split; [by left|done]. }
  specialize (IH (<[k:=p]> acc) Hn). destruct (collect db kvs _) as [e|m].
  - destruct IH as (k' & v' & Hin & E'). exists k', v'. split; [by right|done].
  - destruct IH as [H1 H2]. split.
    + constructor; [|done]. exists p. split; [done|]. simpl. rewrite H2 by done.
      apply lookup_insert_eq.
    + intros j Hj. rewrite not_elem_of_cons in Hj. destruct Hj as [Hjk Hj].
      rewrite H2 by done. by apply lookup_insert_ne.
Qed.

(** What a scan with predicate [P] must return. *)
Definition scan_result (db : CobaltDB) (P : string -> bool) (r : db_error + gmap string bytes) :
    Prop :=
  match r with
  | inl e => exists k v, P k = true /\ view db !! k = Some v /\ decodeStoredValue db k v = inl e
  | inr m => forall k, match (if P k then view db !! k else None) with
      | Some v => exists p, decodeStoredValue db k v = inr p /\ m !! k = Some p
      | None => m !! k = None
      end
  end.

Lemma live_view db k v :
  wf_index (db_data db) ->
  (k, v) ∈ omap live (entries (leaves (root (db_data db)))) <-> view db !! k = Some v.
Proof.
  intros Hw. rewrite live_keys_in, view_lookup. unfold contents.
  rewrite elem_of_list_to_map by (apply NoDup_sorted, wf_index_sorted, Hw).
  split; [by intros ->|].
  destruct (list_to_map _ !! k) as [[w|]|]; simpl; by intros [= ->].
Qed.

Lemma collect_scan db P :
  wf_index (db_data db) ->
  scan_result db P (collect db
    (filter (fun e => P e.1 = true) (omap live (entries (leaves (root (db_data db)))))) ∅).
Proof.
  intros Hw. set (kvs := filter _ _).
  assert (forall k v, (k, v) ∈ kvs <-> P k = true /\ view db !! k = Some v) as Hin
    by (intros; subst kvs; by rewrite list_elem_of_filter, live_view).
  assert (NoDup (map fst kvs)) as Hn.
  { subst kvs. pose proof (NoDup_sorted _ (wf_index_sorted _ Hw)) as Hn. apply NoDup_omap_live in Hn.
    rewrite map_map in Hn. change (map (fun x => (x.1, Some x.2).1)) with (map (@fst string bytes)) in Hn.
    eapply (sublist_NoDup _ _ Hn), (fmap_sublist fst). apply sublist_filter. }
  pose proof (collect_spec db kvs ∅ Hn) as Hc. destruct (collect db kvs ∅) as [e|m]; simpl.
  - destruct Hc as (k & v & Hkv & E). apply Hin in Hkv as [? ?]. eauto.
  - destruct Hc as [H1 H2]. intros k. rewrite Forall_forall in H1.
    destruct (P k) eqn:EP; [destruct (view db !! k) as [v|] eqn:Ev|].
    + by apply (H1 (k, v)), Hin.
    + rewrite H2; [done|]. intros ([k' v] & -> & Hkv)%list_elem_of_fmap.
      apply Hin in Hkv as [_ Hkv]. simpl in *. congruence.
    + rewrite H2; [done|]. intros ([k' v] & -> & Hkv)%list_elem_of_fmap.
      apply Hin in Hkv as [Hkv _]. simpl in *. congruence.
Qed.

(** Cutting the front off does not change what the filter keeps. *)
Lemma scan_filter db key cut (P : string -> bool) :
  wf_index (db_data db) -> (forall k, P k = true -> ~ str_lt k key) ->
  StronglySorted str_lt (map fst (scan_entries db key cut)) /\
  filter (fun e => P e.1 = true) (omap live (scan_entries db key cut)) =
  filter (fun e => P e.1 = true) (omap live (entries (leaves (root (db_data db))))).
Proof.
  intros Hw HP. destruct (scan_entries_spec db key cut Hw) as (front & E & Hf).
  pose proof (wf_index_sorted _ Hw) as Hs. rewrite E in *. rewrite map_app in Hs.
  split; [by eapply StronglySorted_app_1_r|].
  rewrite omap_app, filter_app, (filter_none_live P front); [done|].
  apply Forall_map. eapply Forall_impl; [exact Hf|]. intros e He Hp. by apply (HP _ Hp).
Qed.

(** ** Compaction of the tree *)

Lemma PrefixScan_result db prefix :
  wf_index (db_data db) -> db_closed db = false ->
  scan_result db (String.prefix prefix) (PrefixScan db prefix).
Proof.
  intros Hw Hc. unfold PrefixScan. rewrite Hc.
  destruct (scan_filter db prefix true (String.prefix prefix) Hw (prefix_ge prefix)) as [Hs Hf].
  rewrite prefix_loop_collect by done. rewrite Hf. by apply collect_scan.
Qed.

Lemma insert_live_refines d m kvs :
  btree_rep d m ->
  btree_rep (insert_live d kvs)
    (foldl (fun m p => <[p.1:=p.2]> m) m (map (fun p => (p.1, Some p.2)) kvs)) /\
  btreeOrder (insert_live d kvs) = btreeOrder d.
Proof.
  revert d m. induction kvs as [|[k v] kvs IH]; intros d m H; simpl; [done|].
  destruct H as [Hw <-].
  destruct (btree_insert_ok d k (Some v) Hw) as (d' & E & Hw' & He & Ho & _). rewrite E. simpl.
  rewrite <- Ho. apply IH. split; [done|]. unfold contents. by rewrite He, alist_put_to_map.
Qed.

(** Rebuilding the tree without its tombstones keeps what a reader sees. *)
Lemma compactTree_ok d :
  wf_index d -> wf_index (compactTree d) /\ visible (contents (compactTree d)) = visible (contents d) /\
    btreeOrder (compactTree d) = btreeOrder d.
Proof.
  intros Hw. pose proof (live_ops_visible d 0 Hw) as Hv. unfold replay, live_ops in Hv.
  rewrite foldl_puts in Hv.
  destruct (insert_live_refines (emptyIndex (btreeOrder d) (heapTop d)) ∅ (scanAllNodes d))
    as [[[H1 H2 H3] Hc] Ho].
  { split; [apply emptyIndex_wf; by destruct Hw|done]. }
  unfold compactTree. split_and!; [by constructor| |by rewrite Ho].
  unfold contents in *. simpl. by rewrite Hc, Hv.
Qed.

(** ** Checkpoints *)

(** A capture still describes a prefix of the log, as long as the log was
    not rewritten since. *)
Definition capture_ok (db : CobaltDB) (ops : list (wal_op * Z)) (c : capture) : Prop :=
  wal_open (db_wal db) = true -> exists ops1 ops2 live,
    ops = ops1 ++ ops2 /\ cap_entries c = map (fun p => entry_of p.1 p.2) live /\
    Forall (fun p => op_text p.1 /\ int64 p.2) live /\
    visible (replay live) = visible (replay ops1) /\
    cap_offset c = length (frames (map (fun p => entry_of p.1 p.2) ops1)).

Lemma checkpoint_begin_ok (tried : wal_op -> Prop) db ops now c :
  db_inv tried db ops -> int64 now -> checkpoint_begin db now = inr c -> capture_ok db ops c.
Proof.
  intros [Ht [Hops _ Hsz] Hv] Hn. unfold checkpoint_begin.
  destruct (db_closed db); [done|]. destruct (wal_broken _); [done|]. intros [= <-] Ho.
  exists ops, [], (live_ops (db_data db) now). simpl. split_and!.
  - by rewrite app_nil_r.
  - apply liveEntries_ops.
  - apply (live_ops_text _ _ ops); [done|done| |done].
    eapply Forall_impl; [exact Hops|]. by intros ? [? _].
  - by rewrite live_ops_visible.
  - by apply Hsz.
Qed.

Lemma capture_ok_snoc db db' ops op c :
  capture_ok db ops c -> wal_open (db_wal db') = wal_open (db_wal db) ->
  capture_ok db' (ops ++ [op]) c.
Proof.
  intros Hc Ho Ho'. rewrite Ho in Ho'. destruct (Hc Ho') as (o1 & o2 & lv & -> & H).
  exists o1, (o2 ++ [op]), lv. by rewrite <- app_assoc.
Qed.

Lemma replay_visible_app ops1 ops1' ops2 :
  visible (replay ops1) = visible (replay ops1') ->
  visible (replay (ops1 ++ ops2)) = visible (replay (ops1' ++ ops2)).
Proof. intros E. rewrite !replay_app. by apply visible_foldl. Qed.

(** Installing a checkpoint never changes what a reader sees, and the log
    it leaves replays to the same state, whichever of its system calls
    fails. *)
Lemma checkpoint_finish_ok (tried : wal_op -> Prop) db ops c io :
  db_inv tried db ops -> capture_ok db ops c ->
  let '(db', err) := checkpoint_finish db c io in
  view db' = view db /\ exists ops', db_inv tried db' ops' /\
    visible (replay ops') = visible (replay ops).
Proof.
  intros Hi Hc. pose proof Hi as [Ht Hw Hv]. unfold checkpoint_finish.
  destruct (writeCompact (cap_entries c) io) as [e|[tmp total]] eqn:Ew; [by eauto|].
  case_decide as Hg; [by eauto|].
  assert (wal_broken (db_wal db) = None) as Hb
    by (destruct (wal_broken (db_wal db)); [exfalso; apply Hg; by right|done]).
  destruct (wal_open (db_wal db)) eqn:Ho.
  2: { destruct (installCompact_closed (db_wal db) tmp total (cap_offset c) io Ho) as [err ->].
       destruct db. by eauto. }
  destruct (Hc Ho) as (o1 & o2 & lv & -> & Ec & Hl & Hlv & Eo). rewrite Ec in Ew.
  apply writeCompact_frames in Ew as (-> & -> & Hst); [|done].
  pose proof (installCompact_holds tried (db_wal db) o1 o2 lv (cap_offset c) io Hw Hb Ho Hst Eo) as Hin.
  pose proof (replay_visible_app lv o1 o2 Hlv) as Hlv2.
  destruct (installCompactLocked _ _ _ _ _) as [w' [err|]]; destruct Hin as [_ Hin].
  - split; [done|]. destruct Hin as [Hin|Hin]; eexists; (split; [by constructor|done]) || idtac.
    split; [|exact Hlv2]. constructor; [done|done|]. by rewrite Hlv2.
  - destruct (compactTree_ok (db_data db) Ht) as (H1 & H2 & _). split; [done|].
    exists (lv ++ o2). split; [|done]. constructor; [done|done|].
    unfold view in *. simpl. by rewrite H2, Hlv2.
Qed.

(** ** Single operations on the abstract state *)

Lemma Put_view db e key v db' :
  wf_index (db_data db) -> Put db e key v = (db', None) ->
  exists w, storeValue db e v = Some w /\ wf_index (db_data db') /\
    contents (db_data db') = <[key:=w]> (contents (db_data db)) /\
    db_closed db = false /\ db_closed db' = false /\ db_encryptor db' = db_encryptor db.
Proof.
  intros Hw. unfold Put. destruct (db_closed db) eqn:Hc; [done|].
  destruct (storeValue db e v) as [w|]; [|done].
  destruct (Append _ _ _ _ _) as [l [err|]]; [done|].
  destruct (btree_insert_refines (db_data db) (contents (db_data db)) key w) as (d & -> & Hd & Ec);
    [by split|].
  intros [= <-]. exists w. simpl. split_and!; auto using bump_seq_wf.
Qed.

Lemma Delete_view db e key db' :
  wf_index (db_data db) -> Delete db e key = (db', None) ->
  wf_index (db_data db') /\ contents (db_data db') = <[key:=None]> (contents (db_data db)) /\
    db_closed db = false /\ db_closed db' = false /\ db_encryptor db' = db_encryptor db.
Proof.
  intros Hw. unfold Delete. destruct (db_closed db) eqn:Hc; [done|].
  destruct (AppendDelete _ _ _ _) as [l [err|]]; [done|].
  destruct (btree_insert_refines (db_data db) (contents (db_data db)) key None) as (d & -> & Hd & Ec);
    [by split|].
  intros [= <-]. simpl. by split_and!.
Qed.

Lemma delete_keys_view db es keys db' :
  wf_index (db_data db) -> delete_keys db es keys = (db', None) ->
  wf_index (db_data db') /\
  forall k, view db' !! k = if decide (k ∈ keys) then None else view db !! k.
Proof.
  revert db. induction keys as [|key keys IH]; intros db Hw E; simpl in E.
  { injection E as <-. split; [done|]. intros k. by rewrite decide_False by apply not_elem_of_nil. }
  destruct (Delete db (es key) key) as [db1 [err|]] eqn:Ed; [done|].
  destruct (Delete_view _ _ _ _ Hw Ed) as (Hw1 & Ec & _).
  destruct (IH db1 Hw1 E) as [Hw' Hv]. split; [done|]. intros k. rewrite Hv.
  destruct (decide (k ∈ keys)); [by rewrite decide_True by (by right)|].
  rewrite !view_lookup, Ec, lookup_insert. destruct (decide (key = k)) as [->|Hne].
  - by rewrite decide_True by (by left).
  - by rewrite decide_False by (rewrite elem_of_cons; intuition congruence).
Qed.

Lemma decrypt_encrypt {Kok : CryptoOk K} master e p c :
  length (env_salt e) = encryptionSaltLen -> length (env_nonce e) = gcmNonceSize ->
  encrypt master (env_salt e) (env_nonce e) p = Some c -> decrypt master c = Some p.
Proof.
  intros Hs Hn. unfold encrypt. destruct (deriveKey master (env_salt e)) as [k|] eqn:Ek; [|done].
  intros [= <-]. unfold decrypt. rewrite decide_False.
  2: { rewrite !length_app, gcm_seal_length, Hs, Hn. unfold gcmNonceSize, gcmTagSize. lia. }
  rewrite take_app_length', drop_app_length' by done. cbn [mbind option_bind].
  rewrite Ek. cbn [mbind option_bind]. rewrite decide_False by (rewrite length_app; lia).
  rewrite take_app_length', drop_app_length' by done. by apply gcm_open_seal.
Qed.

Lemma scanAll_visible d k :
  wf_index d -> k ∈ map fst (scanAllNodes d) <-> is_Some (contents d !! k ≫= id).
Proof.
  intros Hw. rewrite btree_scan_all by done. unfold contents.
  assert (forall v, (k, Some v) ∈ entries (leaves (root d)) <->
    (list_to_map (entries (leaves (root d))) : gmap string gobytes) !! k = Some (Some v)) as H
    by (intros v; apply elem_of_list_to_map, NoDup_sorted, wf_index_sorted, Hw).
  rewrite list_elem_of_fmap. split.
  - intros ([j v] & -> & Hin%live_keys_in). apply H in Hin. rewrite Hin. by eexists.
  - intros [v Hv]. destruct (list_to_map _ !! k) as [[w|]|] eqn:E; simplify_eq/=.
    exists (k, v). split; [done|]. by apply live_keys_in, H.
Qed.

Lemma list_keys_spec db prefix :
  wf_index (db_data db) ->
  let keys := list_loop prefix (scan_entries db prefix true) in
  StronglySorted str_lt keys /\
  forall k, k ∈ keys <-> String.prefix prefix k = true /\ is_Some (view db !! k).
Proof.
  intros Hw keys. subst keys.
  destruct (scan_filter db prefix true (String.prefix prefix) Hw (prefix_ge prefix)) as [Hs Hf].
  rewrite list_loop_spec, Hf by done. split.
  - eapply sublist_sorted; [apply (fmap_sublist fst), sublist_filter|].
    eapply sublist_sorted; [apply live_sublist|]. by apply wf_index_sorted.
  - intros k. rewrite list_elem_of_fmap. split.
    + intros ([j v] & -> & [Hp Hin]%list_elem_of_filter). split; [done|].
      apply live_view in Hin; [|done]. simpl. rewrite Hin. by eexists.
    + intros [Hp [v Hv]]. exists (k, v). split; [done|]. apply list_elem_of_filter.
      split; [done|]. by apply live_view.
Qed.

Lemma compactTree_live d k : wf_index d -> contents (compactTree d) !! k <> Some None.
Proof.
  intros Hw. destruct (insert_live_refines (emptyIndex (btreeOrder d) (heapTop d)) ∅ (scanAllNodes d))
    as [[_ Hc] _]; [split; [apply emptyIndex_wf; by destruct Hw|done]|].
  unfold compactTree, contents in *. simpl. rewrite Hc.
  assert (forall kvs (m : gmap string gobytes), (forall k, m !! k <> Some None) ->
    foldl (fun m p => <[p.1:=p.2]> m) m (map (fun p : string * bytes => (p.1, Some p.2)) kvs) !! k
      <> (Some None : option gobytes)) as H; [|apply H; intros j; by rewrite lookup_empty].
  induction kvs as [|p kvs IH]; intros m Hm; simpl; [apply Hm|]. apply IH.
  intros j. rewrite lookup_insert. by case_decide.
Qed.
End engine_proofs.
