(* ===== verification/Durability.v ===== *)
(** * Durability of the storage engine

    The engine of Engine.v as a system that runs, checkpoints, crashes and
    restarts. A step relation interleaves client calls, the two halves of a
    checkpoint, [Close], and crashes at any byte of an append; the trace it
    produces says which operations were acknowledged. The theorems relate the
    state a reader sees to that trace, and say when recovery succeeds, and
    when it refuses to start. *)
From stdpp Require Import base gmap strings list sorting.
From Stdlib Require Import ZArith Lia Strings.Byte.
From S2P Require Import Prelude BTree Wal Engine.

Section durability.
Context {C : WalCodec} {Cok : WalCodecOk C} {K : Crypto}.

Abbreviation log_of ops := (map (fun p : wal_op * Z => entry_of p.1 p.2) ops).

(** ** Client calls *)

Inductive call :=
| CPut (e : env) (key : string) (v : gobytes)
| CDelete (e : env) (key : string)
| CPutMany (rand : string -> env) (e : env) (values : gmap string gobytes)
| CDeleteMany (e : env) (keys : list string).

Definition exec (db : CobaltDB) (c : call) : CobaltDB * option db_error :=
  match c with
  | CPut e k v => Put db e k v
  | CDelete e k => Delete db e k
  | CPutMany rand e values => putMany db rand e values
  | CDeleteMany e keys => deleteMany db e keys
  end.

(** The operation a call logs; an empty batch logs nothing. *)
Definition op_of (db : CobaltDB) (c : call) : option wal_op :=
  match c with
  | CPut e k v => OpPut k <$> storeValue db e v
  | CDelete e k => Some (OpDelete k)
  | CPutMany rand e values =>
      if decide (values = ∅) then None else Some (OpBatch (stored_batch db rand values))
  | CDeleteMany e keys =>
      if decide (keys = []) then None else Some (OpBatch (tombstones keys))
  end.

(** Keys are ASCII text and the clock is an int64. *)
Definition call_ok (c : call) : Prop :=
  match c with
  | CPut e k _ | CDelete e k => ascii_text k /\ int64 (env_now e)
  | CPutMany _ e values =>
      (forall k, is_Some (values !! k) -> ascii_text k) /\ int64 (env_now e)
  | CDeleteMany e keys => Forall ascii_text keys /\ int64 (env_now e)
  end.

Lemma exec_inv (tried : wal_op -> Prop) db ops c :
  db_inv tried db ops -> call_ok c -> (forall op, op_of db c = Some op -> tried op) ->
  let '(db', err) := exec db c in
  match err with
  | Some _ => db_inv tried db' ops
  | None => match op_of db c with
            | Some op => exists now, db_inv (fun _ => False) db' (ops ++ [(op, now)])
            | None => db' = db
            end
  end.
Proof.
  intros Hi Hc Htr. destruct c as [e k v|e k|rand e values|e keys]; simpl in *;
    destruct Hc as [Hk Hn].
  - pose proof (Put_inv tried db ops e k v Hi) as H.
    destruct (Put db e k v) as [db' [err|]]; [apply H; auto; intros w Ew; apply Htr; by rewrite Ew|].
    destruct H as (w & Ew & H); auto; [intros w Ew; apply Htr; by rewrite Ew|].
    rewrite Ew. simpl. eauto.
  - pose proof (Delete_inv tried db ops e k Hi (Htr _ eq_refl) Hk Hn) as H.
    destruct (Delete db e k) as [db' [err|]]; eauto.
  - case_decide as Hv.
    { subst. unfold putMany. destruct (db_closed db); [done|]. by rewrite decide_True. }
    pose proof (putMany_inv tried db ops rand e values Hi (Htr _ eq_refl) Hk Hn) as H.
    destruct (putMany db rand e values) as [db' [err|]]; [done|]. destruct H as [[? _]|H]; eauto.
    done.
  - case_decide as Hv.
    { subst. unfold deleteMany. by destruct (db_closed db). }
    pose proof (deleteMany_inv tried db ops e keys Hi (Htr _ eq_refl) Hk Hn) as H.
    destruct (deleteMany db e keys) as [db' [err|]]; [done|]. destruct H as [[? _]|H]; eauto.
    done.
Qed.

Lemma appendLocked_open w e io : wal_open (appendLocked w e io).1 = wal_open w.
Proof.
  unfold appendLocked. destruct (wal_broken w); [done|].
  destruct (writeEntryLocked _ _ _ _) as [[f n] [err|]]; [|destruct (io_sync_ok io); [done|]];
    by destruct (truncate_to _ _ _ _).
Qed.

Lemma apply_batch_wal db w err kvs : db_wal (apply_batch db w err kvs).1 = w.
Proof. unfold apply_batch. destruct err; [done|]. by destruct (insert_all _ _). Qed.

(** Client calls never close or reopen the log file. *)
Lemma exec_open db c : wal_open (db_wal (exec db c).1) = wal_open (db_wal db).
Proof.
  destruct c as [e k v|e k|rand e values|e keys]; simpl.
  - unfold Put, Append. destruct (db_closed db), (storeValue db e v) as [g|]; try done.
    pose proof (appendLocked_open (db_wal db) (WalEntry "PUT" k g (env_now e) 0) (env_io e)) as H.
    destruct (appendLocked _ _ _) as [w [err|]]; [done|]. by destruct (btree_insert _ _ _).
  - unfold Delete, AppendDelete. destruct (db_closed db); try done.
    pose proof (appendLocked_open (db_wal db) (WalEntry "DELETE" k None (env_now e) 0) (env_io e)) as H.
    destruct (appendLocked _ _ _) as [w [err|]]; [done|]. by destruct (btree_insert _ _ _).
  - unfold putMany. destruct (db_closed db); [done|]. case_decide; [done|]. cbv zeta.
    case_decide; [|done].
    destruct (AppendBatch _ _ _ _) as [w err] eqn:E. rewrite apply_batch_wal.
    change w with (w, err).1. rewrite <- E. apply appendLocked_open.
  - unfold deleteMany. destruct (db_closed db); [done|]. case_decide; [done|]. cbv zeta.
    destruct (AppendBatch _ _ _ _) as [w err] eqn:E. rewrite apply_batch_wal.
    change w with (w, err).1. rewrite <- E. apply appendLocked_open.
Qed.

(** ** Recovery of a log that crashes left behind *)

Lemma frames_length es : length es <= length (frames es).
Proof.
  induction es as [|e es IH]; [done|]. unfold frames in *. cbn [map concat].
  rewrite length_app, length_frame, length_cons. lia.
Qed.

Lemma replay_log order (ops : list (wal_op * Z)) t allowSkip :
  minBTreeOrder <= order ->
  Forall (fun p => op_text p.1 /\ storable (entry_of p.1 p.2)) ops -> torn t ->
  exists d,
    recover_loop (S (length (frames (log_of ops) ++ t))) (frames (log_of ops) ++ t) allowSkip 0
      (Recovery (emptyIndex order 0) false 0) = inr (Recovery d false 0) /\
    btree_rep d (replay ops).
Proof.
  intros Ho Hops Ht.
  destruct (replay_all_refines (emptyIndex order 0) ∅ ops) as (d & Ed & Hd).
  { split; [by apply emptyIndex_wf|done]. }
  { eapply Forall_impl; [exact Hops|]. by intros ? [? _]. }
  exists d. split; [|done].
  pose proof (recover_loop_frames (log_of ops) (S (length (frames (log_of ops) ++ t))) [] t allowSkip
    (Recovery (emptyIndex order 0) false 0)) as H. simpl app in H.
  change (length []) with 0 in H. rewrite H; [by cbn [rec_data]; rewrite Ed| |done|].
  - apply Forall_map. eapply Forall_impl; [exact Hops|]. by intros ? [_ ?].
  - rewrite length_app. pose proof (frames_length (log_of ops)). lia.
Qed.

(** The operations recovery finds: those of the log, and possibly one that
    was tried and not acknowledged. *)
Lemma replay_leftover tried order ops junk allowSkip :
  minBTreeOrder <= order ->
  Forall (fun p => op_text p.1 /\ storable (entry_of p.1 p.2)) ops -> leftover tried junk ->
  exists d ops',
    recover_loop (S (length (frames (log_of ops) ++ junk))) (frames (log_of ops) ++ junk) allowSkip 0
      (Recovery (emptyIndex order 0) false 0) = inr (Recovery d false 0) /\
    btree_rep d (replay ops') /\
    Forall (fun p => op_text p.1 /\ storable (entry_of p.1 p.2)) ops' /\
    (ops' = ops \/ exists op now, tried op /\ ops' = ops ++ [(op, now)]).
Proof.
  intros Ho Hops [Ht|(op & now & Hop & Ht & Hs & ->)]%leftover_cases.
  - destruct (replay_log order ops junk allowSkip Ho Hops Ht) as (d & E & Hd). eauto 10.
  - assert (Forall (fun p => op_text p.1 /\ storable (entry_of p.1 p.2)) (ops ++ [(op, now)])) as Hops'.
    { apply Forall_app. split; [done|]. by constructor. }
    destruct (replay_log order (ops ++ [(op, now)]) [] allowSkip Ho Hops' torn_nil) as (d & E & Hd).
    rewrite app_nil_r, map_app in E. cbn [map fst snd] in E. rewrite frames_snoc in E.
    exists d, (ops ++ [(op, now)]). split_and!; eauto 10.
Qed.

Lemma rewrite_fresh disk data now io w' :
  Forall (fun p => op_text p.1 /\ int64 p.2) (live_ops data now) ->
  rewriteLocked (WriteAheadLog disk true 0 None 0) (liveEntries data now) io = (w', None) ->
  forall tried, wal_holds tried w' (live_ops data now).
Proof.
  intros Ht. unfold rewriteLocked. rewrite liveEntries_ops.
  destruct (writeCompact _ io) as [e|[tmp total]] eqn:Ew; [done|].
  apply writeCompact_frames in Ew as (-> & -> & Hst); [|done]. intros E tried.
  pose proof (install_outcome (WriteAheadLog disk true 0 None 0) (frames (log_of (live_ops data now)))
    (length (frames (log_of (live_ops data now)))) 0 io) as Hin.
  change (wal_size _) with 0 in E, Hin. rewrite E in Hin. simpl in Hin.
  unfold copyWALTail in Hin. rewrite take_0, app_nil_r, Nat.add_0_r in Hin.
  inversion Hin; subst. by apply wal_holds_intro.
Qed.

Definition io_ok (io : compact_io) : Prop :=
  co_open io = true /\ (forall i, co_write io i = true) /\ co_sync io = true /\
  co_close io = true /\ co_close_old io = true /\ co_rename io = true /\
  co_reopen io = true /\ co_syncdir io = true.

(** Every visible value still fits a log entry stamped [now]. *)
Definition fits (m : gmap string bytes) (now : Z) : Prop :=
  map_Forall (fun k v => is_Some (encodeEntry (entry_of (OpPut k (Some v)) now))) m.

Lemma writeCompact_total es io :
  io_ok io -> Forall (fun e => is_Some (encodeEntry e)) es ->
  exists tmp, writeCompact es io = inr (tmp, length tmp).
Proof.
  intros (H1 & H2 & H3 & H4 & _) Hes. unfold writeCompact. rewrite H1, H3, H4.
  assert (forall i tmp, exists out, writeCompact_loop i es io tmp = inr out) as H.
  { induction Hes as [|e es [buf He] Hes IH]; intros i tmp; simpl; [eauto|].
    rewrite He, H2. apply IH. }
  destruct (H 0 []) as [out ->]. eauto.
Qed.

(** Opening the engine on what a crash left: it never refuses the log, the
    state is that of the recovered operations, and with working file
    operations and values that still fit it succeeds. *)
Lemma open_recovers tried ops junk order enc allowSkip now io :
  Forall (fun p => op_text p.1 /\ storable (entry_of p.1 p.2)) ops -> leftover tried junk ->
  int64 now ->
  exists ops', (ops' = ops \/ exists op t, tried op /\ ops' = ops ++ [(op, t)]) /\
  match open_engine (frames (log_of ops) ++ junk) order enc allowSkip now io with
  | inl e => (exists e', e = ErrCheckpoint e') /\ ~ (io_ok io /\ fits (visible (replay ops')) now)
  | inr db => view db = visible (replay ops') /\ db_closed db = false /\ db_encryptor db = enc /\
      exists ops'', visible (replay ops'') = visible (replay ops') /\
        forall tried', db_inv tried' db ops''
  end.
Proof.
  intros Hops Hj Hn. pose proof (proj1 (effective_order_min order)) as Ho.
  destruct (replay_leftover tried (effective_order order) ops junk allowSkip Ho Hops Hj)
    as (d & ops' & E & [Hd Hc] & Hops' & Hex).
  exists ops'. split; [done|]. unfold open_engine, recoverFromWAL. cbn [wal_disk].
  rewrite E. cbn [rec_data].
  assert (Forall (fun p => op_text p.1 /\ int64 p.2) (live_ops d now)) as Ht.
  { apply (live_ops_text d now ops'); auto; [|by rewrite Hc].
    eapply Forall_impl; [exact Hops'|]. by intros ? [? _]. }
  destruct (rewriteLocked _ (liveEntries d now) io) as [w' [e|]] eqn:Er.
  - split; [eauto|]. intros [Hio Hf]. unfold rewriteLocked in Er. rewrite liveEntries_ops in Er.
    destruct (writeCompact_total (log_of (live_ops d now)) io Hio) as (tmp & Ew).
    { apply Forall_map, Forall_map. apply Forall_forall. intros [k v] Hin. simpl.
      rewrite btree_scan_all in Hin by done. apply Hf.
      apply live_keys_in in Hin. rewrite <- Hc, lookup_visible. unfold contents.
      rewrite (elem_of_list_to_map_1 _ k (Some v)); [done| |done].
      apply NoDup_sorted, (wf_index_sorted _ Hd). }
    rewrite Ew in Er. destruct Hio as (_ & _ & _ & _ & H5 & H6 & H7 & H8).
    unfold installCompactLocked in Er. cbn [wal_size wal_open] in Er.
    rewrite !decide_False in Er by lia. by rewrite H5, H6, H7, H8 in Er.
  - unfold view; simpl. rewrite Hc. split_and!; auto. exists (live_ops d now).
    rewrite live_ops_visible, Hc by done. split; [done|]. intros tried'.
    constructor; simpl; [done| |unfold view; simpl; by rewrite live_ops_visible].
    by eapply rewrite_fresh.
Qed.

(** ** The running system *)

(** What a client can observe, newest first: acknowledged and refused
    operations, and restarts with the operation in flight at the crash. *)
Inductive event :=
| EvOk (op : wal_op)
| EvErr (op : wal_op)
| EvRestart (inflight : option wal_op).

(** The operations refused since the last restart. *)
Fixpoint refused (tr : list event) : list wal_op :=
  match tr with
  | EvOk _ :: tr => refused tr
  | EvErr op :: tr => op :: refused tr
  | EvRestart _ :: _ | [] => []
  end.

(** The operations that may have taken effect: every acknowledged one, and
    at a restart at most one that was in flight or had been refused. *)
Inductive survives : list event -> list wal_op -> Prop :=
| sv_nil : survives [] []
| sv_ok tr h op : survives tr h -> survives (EvOk op :: tr) (h ++ [op])
| sv_err tr h op : survives tr h -> survives (EvErr op :: tr) h
| sv_restart tr h o : survives tr h -> survives (EvRestart o :: tr) h
| sv_restart_extra tr h o op :
    survives tr h -> o = Some op \/ op ∈ refused tr ->
    survives (EvRestart o :: tr) (h ++ [op]).

(** The file a crash of the process leaves: as it is, or with the first bytes
    of the frame of an append that had started. What was written or renamed
    before is there, synced or not: the loss of unsynced data in a power
    failure is not among the crashes. *)
Inductive crash_disk (w : writeAheadLog) : option wal_op -> bytes -> Prop :=
| crash_idle : crash_disk w None (wal_disk w)
| crash_append op now buf n :
    wal_broken w = None -> op_text op -> int64 now ->
    encodeEntry (entry_of op now) = Some buf ->
    crash_disk w (Some op) (wal_disk w ++ take n buf).

Definition observe (ok : bool) (o : option wal_op) (tr : list event) : list event :=
  match o with
  | Some op => (if ok then EvOk op else EvErr op) :: tr
  | None => tr
  end.

(** [reach tr db p]: the engine reaches state [db], with a checkpoint [p]
    between its two critical sections, after the trace [tr]. Restarts are
    opens that succeed: an open that fails, or is itself cut short, after its
    rewrite of the log took the place of the old one is not a step. *)
Inductive reach : list event -> CobaltDB -> option capture -> Prop :=
| reach_start order enc allowSkip now io db :
    int64 now -> open_engine [] order enc allowSkip now io = inr db -> reach [] db None
| reach_call tr db p c db' err :
    reach tr db p -> call_ok c -> exec db c = (db', err) ->
    reach (observe (bool_decide (err = None)) (op_of db c) tr) db' p
| reach_checkpoint_begin tr db now cap :
    reach tr db None -> int64 now -> checkpoint_begin db now = inr cap -> reach tr db (Some cap)
| reach_checkpoint_finish tr db cap io db' err :
    reach tr db (Some cap) -> checkpoint_finish db cap io = (db', err) -> reach tr db' None
| reach_close tr db p : reach tr db p -> reach tr (Close db) p
| reach_restart tr db p o disk order enc allowSkip now io db' :
    reach tr db p -> crash_disk (db_wal db) o disk -> int64 now ->
    open_engine disk order enc allowSkip now io = inr db' ->
    reach (EvRestart o :: tr) db' None.

(** The invariant of the system. *)
Record sys_inv (tr : list event) (db : CobaltDB) (p : option capture)
    (ops : list (wal_op * Z)) (h : list wal_op) : Prop := {
  si_db : db_inv (fun op => op ∈ refused tr) db ops;
  si_sv : survives tr h;
  si_abs : visible (replay ops) = visible (foldl apply_op ∅ h);
  si_cap : forall c, p = Some c -> capture_ok db ops c;
}.

Lemma db_inv_mono (t1 t2 : wal_op -> Prop) db ops :
  (forall op, t1 op -> t2 op) -> db_inv t1 db ops -> db_inv t2 db ops.
Proof. intros Ht [H1 H2 H3]. constructor; [done| |done]. by eapply wal_holds_mono. Qed.

Lemma op_cases o : o = None \/ exists op : wal_op, o = Some op.
Proof. destruct o; eauto. Qed.

Lemma call_step tr db p ops h c db' err :
  sys_inv tr db p ops h -> call_ok c -> exec db c = (db', err) ->
  exists ops' h', sys_inv (observe (bool_decide (err = None)) (op_of db c) tr) db' p ops' h'.
Proof.
  intros [Hi Hs Ha Hc] Hok E. set (tr' := observe _ _ _).
  pose proof (exec_inv (fun op => op ∈ refused tr \/ op_of db c = Some op) db ops c) as H.
  rewrite E in H. pose proof (exec_open db c) as Ho. rewrite E in Ho. cbn [fst] in Ho.
  assert (forall op, capture_ok db ops op -> capture_ok db' ops op) as Hsame
    by (intros cap Hcap; unfold capture_ok; by rewrite Ho).
  destruct err as [err|].
  - exists ops, h. specialize (H (db_inv_mono _ _ _ _ (fun op Hop => or_introl Hop) Hi) Hok
      (fun op Hop => or_intror Hop)).
    subst tr'. rewrite bool_decide_eq_false_2 by done.
    destruct (op_of db c) as [op|]; simpl; constructor; eauto using survives.
    + eapply db_inv_mono; [|exact H]. intros op' [?|[= ->]]; [by right|by left].
    + eapply db_inv_mono; [|exact H]. by intros op' [?|?].
  - specialize (H (db_inv_mono _ _ _ _ (fun op Hop => or_introl Hop) Hi) Hok
      (fun op Hop => or_intror Hop)).
    subst tr'. rewrite bool_decide_eq_true_2 by done.
    destruct (op_of db c) as [op|]; simpl; [|subst db'; by exists ops, h].
    destruct H as [now H]. exists (ops ++ [(op, now)]), (h ++ [op]). constructor.
    + by eapply db_inv_mono; [|exact H].
    + by constructor.
    + rewrite replay_app, foldl_app. simpl. by apply visible_apply.
    + intros cap Ep. eapply capture_ok_snoc; [by apply Hc|done].
Qed.

Lemma crash_leftover tr db ops o disk :
  db_inv (fun op => op ∈ refused tr) db ops -> crash_disk (db_wal db) o disk ->
  exists junk, disk = frames (log_of ops) ++ junk /\
    leftover (fun op => o = Some op \/ op ∈ refused tr) junk.
Proof.
  intros [_ [_ (junk & Hd & Hj & Hl) _] _] [|op now buf n Hb Ho Hn Ee].
  - exists junk. split; [done|]. destruct Hl as [->|(op & now & n & H1 & H2)]; [by left|].
    right. exists op, now, n. auto.
  - rewrite (Hj Hb), app_nil_r in Hd. exists (take n buf). split; [by rewrite Hd|].
    destruct (entry_storable op now buf Ho Hn Ee) as [Hs ->]. apply leftover_take; auto.
Qed.

Lemma inv_ops_ok tried db ops :
  db_inv tried db ops -> Forall (fun p => op_text p.1 /\ storable (entry_of p.1 p.2)) ops.
Proof. by intros [_ [? _ _] _]. Qed.

Lemma restart_step tr db p ops h o disk order enc allowSkip now io db' :
  sys_inv tr db p ops h -> crash_disk (db_wal db) o disk -> int64 now ->
  open_engine disk order enc allowSkip now io = inr db' ->
  exists ops' h', sys_inv (EvRestart o :: tr) db' None ops' h'.
Proof.
  intros [Hi Hs Ha _] Hcr Hn E. destruct (crash_leftover _ _ _ _ _ Hi Hcr) as (junk & -> & Hl).
  destruct (open_recovers _ ops junk order enc allowSkip now io (inv_ops_ok _ _ _ Hi) Hl Hn)
    as (ops' & Hex & H). rewrite E in H. destruct H as (_ & _ & _ & ops'' & Hv & Hi').
  destruct Hex as [->|(op & t & Hop & ->)].
  - exists ops'', h. constructor; [apply Hi'|by constructor|by rewrite Hv|done].
  - exists ops'', (h ++ [op]). constructor; [apply Hi'|by apply sv_restart_extra| |done].
    rewrite Hv, replay_app, foldl_app. simpl. by apply visible_apply.
Qed.

Lemma reach_inv tr db p : reach tr db p -> exists ops h, sys_inv tr db p ops h.
Proof.
  induction 1 as [order enc allowSkip now io db Hn E|tr db p c db' err _ (ops & h & IH) Hc E
    |tr db now cap _ (ops & h & IH) Hn E|tr db cap io db' err _ (ops & h & IH) E
    |tr db p _ (ops & h & IH)|tr db p o disk order enc allowSkip now io db' _ (ops & h & IH) Hcr Hn E].
  - destruct (open_recovers (fun _ => False) [] [] order enc allowSkip now io) as (ops' & Hex & H);
      auto using leftover_nil.
    change (frames (log_of []) ++ []) with (@nil byte) in H. rewrite E in H.
    destruct H as (_ & _ & _ & ops'' & Hv & Hi'). destruct Hex as [->|(? & ? & [] & _)].
    exists ops'', []. constructor; [apply Hi'|constructor|done|done].
  - by eapply call_step.
  - exists ops, h. destruct IH as [Hi Hs Ha _]. constructor; auto. intros c [= <-].
    by eapply checkpoint_begin_ok.
  - destruct IH as [Hi Hs Ha Hc].
    pose proof (checkpoint_finish_ok _ db ops cap io Hi (Hc _ eq_refl)) as H. rewrite E in H.
    destruct H as (_ & ops' & Hi' & Hv). exists ops', h. constructor; auto; [by rewrite Hv|done].
  - exists ops, h. unfold Close. destruct (db_closed db) eqn:Ecl; [done|].
    destruct IH as [[Ht [H1 H2 H3] Hv] Hs Ha Hc].
    constructor; [|done|done|by intros ? ? ?]. constructor; [done| |done]. by constructor.
  - by eapply restart_step.
Qed.

(** ** Damage in the middle of the log *)

Lemma be32_split n b0 b1 b2 b3 :
  (0 <= n <= maxWALEntryBytes)%Z -> be32_decode b0 b1 b2 b3 = n ->
  b0 = x00 /\
  Z.lor (Z.lor (Z.shiftl (byte_to_Z b1) 16) (Z.shiftl (byte_to_Z b2) 8)) (byte_to_Z b3) = n.
Proof.
  unfold maxWALEntryBytes. intros Hn D. rewrite be32_decode_add in D.
  pose proof (byte_to_Z_range b0). pose proof (byte_to_Z_range b1).
  pose proof (byte_to_Z_range b2). pose proof (byte_to_Z_range b3).
  assert (byte_to_Z b0 = 0%Z) as E0 by lia. split.
  - unfold byte_to_Z in E0. destruct b0; simpl in E0; first [done|lia].
  - rewrite <- D, E0. pose proof (be32_decode_add x00 b1 b2 b3) as H4. unfold be32_decode in H4.
    change (byte_to_Z x00) with 0%Z in H4. rewrite Z.shiftl_0_l, Z.lor_0_l in H4. exact H4.
Qed.

(** A complete checksummed frame is found by the search. *)
Lemma candidate_frame pre e post :
  storable e -> walChecksum e <> 0%Z -> candidate (pre ++ frame e ++ post) (length pre) = true.
Proof.
  intros Hs Hcrc. destruct (frame_prefix e Hs) as (b0 & b1 & b2 & b3 & Ef & D).
  pose proof (readWALEntryAt_frame pre e post Hs) as Hr.
  pose proof (marshal_nonempty (seal e)) as Hne. pose proof (length_frame e) as Hlen.
  destruct (marshal_head (seal e)) as [body Hbody]. destruct Hs as (_ & _ & Hmax).
  destruct (be32_split (Z.of_nat (length (marshal (seal e)))) b0 b1 b2 b3) as [-> Hl]; [lia|done|].
  unfold candidate. rewrite Hr, drop_app_length. rewrite Ef at 1. rewrite Hbody at 1.
  cbn [app]. rewrite Hl. rewrite (bool_decide_eq_true_2 (x00 = x00)), (bool_decide_eq_true_2 (x7b = x7b)),
    (bool_decide_eq_true_2 (walChecksum (seal e) = Crc32 (seal e))) by done.
  rewrite (bool_decide_eq_false_2 (Crc32 (seal e) = 0%Z)) by done.
  rewrite bool_decide_eq_false_2; [done|]. rewrite !length_app. lia.
Qed.

Lemma findNext_loop_some fuel f off k :
  candidate f (off + k) = true -> off + k + 4 < length f -> k < fuel ->
  exists n, findNext_loop fuel f off = Some n.
Proof.
  revert off k. induction fuel as [|fuel IH]; intros off k Hc Hl Hk; [lia|]. simpl.
  rewrite decide_True by lia. destruct (candidate f off) eqn:E; [eauto|].
  destruct k as [|k]; [rewrite Nat.add_0_r in Hc; congruence|].
  apply (IH (S off) k); [|lia|lia]. by rewrite Nat.add_succ_r in Hc.
Qed.

Lemma findNext_frame pre e post start :
  storable e -> walChecksum e <> 0%Z -> start <= length pre ->
  exists n, findNextWALEntry (pre ++ frame e ++ post) start = Some n.
Proof.
  intros Hs Hcrc Hst. pose proof (length_frame e). pose proof (marshal_nonempty (seal e)).
  apply (findNext_loop_some _ _ _ (length pre - start)).
  - replace (start + (length pre - start)) with (length pre) by lia. by apply candidate_frame.
  - rewrite !length_app. lia.
  - rewrite !length_app. lia.
Qed.

(** How the entry at [offset] can be bad, and why the log is refused. *)
Definition bad_entry (f : bytes) (offset size : nat) (reason : string) : Prop :=
  readWALEntryAt f offset = inl reason \/
  exists entry, readWALEntryAt f offset = inr (entry, size) /\ Crc32 entry <> 0%Z /\
    walChecksum entry <> Crc32 entry /\ reason = "checksum mismatch".

Lemma recover_loop_prefix es fuel pre rest allowSkip st d :
  Forall storable es -> length es < fuel -> replay_all (rec_data st) es = inr d ->
  exists fuel', fuel' + length es = fuel /\
    recover_loop fuel (pre ++ frames es ++ rest) allowSkip (length pre) st =
    recover_loop fuel' (pre ++ frames es ++ rest) allowSkip (length (pre ++ frames es))
      (Recovery d (rec_skipped st) (rec_count st)).
Proof.
  intros Hes. revert fuel pre st. induction Hes as [|e es He Hes IH]; intros fuel pre st Hf Hd.
  - simpl in Hd. simplify_eq. exists fuel. split; [simpl; lia|]. unfold frames; simpl.
    rewrite app_nil_r. by destruct st.
  - destruct fuel as [|fuel]; simpl in Hf; [lia|].
    assert (pre ++ frames (e :: es) ++ rest = pre ++ frame e ++ (frames es ++ rest)) as E1
      by (unfold frames; cbn [map concat]; by rewrite <- app_assoc).
    assert (pre ++ frames (e :: es) = (pre ++ frame e) ++ frames es) as E2
      by (unfold frames; cbn [map concat]; by rewrite <- app_assoc).
    cbn [replay_all] in Hd. rewrite E2. cbn [recover_loop]. rewrite E1.
    rewrite decide_False by (rewrite !length_app, length_frame; lia).
    rewrite readWALEntryAt_frame by done.
    rewrite (bool_decide_eq_true_2 (walChecksum (seal e) = Crc32 (seal e))) by done.
    rewrite orb_true_r. change (replayEntry (rec_data st) (seal e)) with (replayEntry (rec_data st) e).
    destruct (replayEntry (rec_data st) e) as [err|d']; [done|].
    rewrite (app_assoc pre (frame e)), <- length_app.
    destruct (IH fuel (pre ++ frame e) (Recovery d' (rec_skipped st) (rec_count st)))
      as (fuel' & Hf' & ->); [lia|done|]. exists fuel'. split; [simpl; lia|done].
Qed.

Lemma open_refuses ops bad e post reason order enc now io :
  Forall (fun p => op_text p.1 /\ storable (entry_of p.1 p.2)) ops -> bad <> [] ->
  storable e -> walChecksum e <> 0%Z ->
  let disk := frames (log_of ops) ++ bad ++ frame e ++ post in
  let offset := length (frames (log_of ops)) in
  bad_entry disk offset (length bad) reason ->
  open_engine disk order enc false now io = inl (ErrDamaged offset reason).
Proof.
  intros Hops Hb He Hcrc disk offset Hbad.
  destruct (replay_all_refines (emptyIndex (effective_order order) 0) ∅ ops) as (d & Ed & _).
  { split; [apply emptyIndex_wf, effective_order_min|done]. }
  { eapply Forall_impl; [exact Hops|]. by intros ? [? _]. }
  destruct (recover_loop_prefix (log_of ops) (S (length disk)) [] (bad ++ frame e ++ post) false
    (Recovery (emptyIndex (effective_order order) 0) false 0) d) as (fuel & Hf & E).
  { apply Forall_map. eapply Forall_impl; [exact Hops|]. by intros ? [_ ?]. }
  { subst disk. rewrite length_app. pose proof (frames_length (log_of ops)). lia. }
  { done. }
  unfold open_engine, recoverFromWAL. cbn [wal_disk]. change (length []) with 0 in E.
  change ([] ++ frames (log_of ops) ++ bad ++ frame e ++ post) with disk in E.
  change ([] ++ frames (log_of ops)) with (frames (log_of ops)) in E. rewrite E. clear E. cbn [rec_skipped rec_count].
  assert (length (frames (log_of ops)) < length disk) as Hlt.
  { subst disk. rewrite !length_app. destruct bad; [done|]. simpl. lia. }
  pose proof (frames_length (log_of ops)) as Hfl.
  destruct fuel as [|fuel]; [lia|]. cbn [recover_loop]. fold offset in Hlt |- *.
  rewrite decide_False by lia.
  assert (forall start, start <= length (frames (log_of ops) ++ bad) ->
    exists n, findNextWALEntry disk start = Some n) as Hfind.
  { intros start Hst. subst disk. rewrite (app_assoc _ bad). by apply findNext_frame. }
  destruct Hbad as [Hr|(entry & Hr & Hc0 & Hc & ->)]; rewrite Hr.
  - destruct (Hfind (offset + 1)) as [n ->]; [|done].
    rewrite length_app. fold offset. destruct bad; [done|]. simpl. lia.
  - rewrite !bool_decide_eq_false_2 by done. cbn [orb].
    destruct (Hfind (offset + length bad)) as [n ->]; [|done]. by rewrite length_app.
Qed.
End durability.
