(* ===== verification/Store.v ===== *)
(** * Properties of the storage engine

    The theorems about the engine as a whole, over the lemmas of BTree.v,
    Wal.v, Engine.v and Durability.v, and a concrete codec and cipher that
    satisfy the interfaces, on which the witnesses evaluate. *)
From stdpp Require Import base gmap strings list sorting countable.
From Stdlib Require Import ZArith Lia Strings.Byte.
From S2P Require Import Prelude BTree Wal Engine Durability.

(** ** A concrete codec and cipher *)

#[export] Instance byte_countable : Countable byte.
Proof.
  refine (inj_countable Byte.to_N Byte.of_N _). intros b. apply Byte.of_to_N.
Defined.

Fixpoint digits (p : positive) : bytes :=
  match p with
  | xH => []
  | xO q => x30 :: digits q
  | xI q => x31 :: digits q
  end.

Fixpoint undigits (b : bytes) : option positive :=
  match b with
  | [] => Some xH
  | x30 :: r => xO <$> undigits r
  | x31 :: r => xI <$> undigits r
  | _ => None
  end.

Lemma undigits_digits p : undigits (digits p) = Some p.
Proof. induction p as [p IH|p IH|]; simpl; [by rewrite IH..|done]. Qed.

Lemma digits_nonzero p : Forall (fun b => b <> x00) (digits p).
Proof. induction p; simpl; by repeat constructor. Qed.

Definition entry_tuple (e : walEntry) : string * string * gobytes * Z * Z :=
  (Op e, Key e, Value e, Time e, Crc32 e).

Definition sample_unmarshal (b : bytes) : option walEntry :=
  match b with
  | x7b :: x22 :: x6f :: x70 :: r =>
      p ← undigits r;
      '(op, key, value, time, crc) ← (decode p : option (string * string * gobytes * Z * Z));
      Some (WalEntry op key value time crc)
  | _ => None
  end.

#[export] Instance sample_codec : WalCodec := {
  marshal e := [x7b; x22; x6f; x70] ++ digits (encode (entry_tuple e));
  unmarshal := sample_unmarshal;
  marshal_map m := digits (encode m);
  unmarshal_map b := p ← undigits b; Some <$> (decode p : option (gmap string gobytes));
}.

#[export] Instance sample_codec_ok : WalCodecOk sample_codec.
Proof.
  constructor.
  - intros [op key value time crc] _. simpl. rewrite undigits_digits. simpl.
    rewrite decode_encode. done.
  - intros e. by eexists.
  - intros e. simpl. repeat (constructor; [done|]). apply digits_nonzero.
  - intros m _. simpl. rewrite undigits_digits. simpl. by rewrite decode_encode.
Qed.

(** The tag names the key, so a wrong key is noticed. *)
Definition sample_tag (key : bytes) : bytes := take gcmTagSize (key ++ replicate gcmTagSize x00).

#[export] Instance sample_crypto : Crypto := {
  deriveKey master salt := Some (master ++ salt);
  gcm_seal key nonce p := p ++ sample_tag key;
  gcm_open key nonce c :=
    if decide (drop (length c - gcmTagSize) c = sample_tag key)
    then Some (take (length c - gcmTagSize) c) else None;
}.

Lemma sample_tag_length key : length (sample_tag key) = gcmTagSize.
Proof. unfold sample_tag. rewrite length_take, length_app, length_replicate. lia. Qed.

#[export] Instance sample_crypto_ok : CryptoOk sample_crypto.
Proof.
  constructor.
  - intros k n p. unfold gcm_open, gcm_seal, sample_crypto.
    rewrite length_app, sample_tag_length, Nat.add_sub, drop_app_length, take_app_length. by rewrite decide_True.
  - intros k n p. unfold gcm_seal, sample_crypto. by rewrite length_app, sample_tag_length.
Qed.

Definition sample_io : append_io := AppendIO None true true.
Definition sample_env : env := Env (replicate 32 x01) (replicate 12 x02) 7 sample_io.
Definition sample_cio : compact_io :=
  CompactIO true (fun _ => true) true true true true true true true.

(** A fresh engine, with and without encryption. *)
Definition sample_db (enc : option bytes) : CobaltDB :=
  match open_engine [] 4 enc false 5 sample_cio with
  | inr db => db
  | inl _ => MkCobaltDB true (emptyIndex 4 0) (WriteAheadLog [] false 0 None 0) None 0
  end.

(** ** Durability and recovery *)

Section properties.
Context {C : WalCodec} {Cok : WalCodecOk C} {K : Crypto}.

(** C1: in every run of the engine (client calls with any system-call
    failures, checkpoints whose critical sections interleave with writes,
    Close, and crashes at any byte of an append followed by recovery), what
    readers see is exactly the result of applying, in order, every
    acknowledged operation, plus at most one operation per restart that was
    in flight or had been refused. No acknowledged write is ever lost and
    no batch is ever half applied. *)
Theorem store_durability tr db p :
  reach tr db p ->
  exists h, survives tr h /\ view db = visible (foldl apply_op ∅ h).
Proof.
  intros (ops & h & [[_ _ Hv] Hs Ha _])%reach_inv. exists h. split; [done|]. by rewrite Hv.
Qed.

(** C2: recovery succeeds. Opening the store on the file any crash leaves
    never reports damage; when the file operations of the final rewrite
    work and the values that survive still fit a log entry, the engine
    opens, with the state of the surviving operations. *)
Theorem store_recovers tr db p o disk order enc allowSkip now io :
  reach tr db p -> crash_disk (db_wal db) o disk -> int64 now ->
  exists h, survives (EvRestart o :: tr) h /\
  match open_engine disk order enc allowSkip now io with
  | inr db' => view db' = visible (foldl apply_op ∅ h) /\ db_closed db' = false
  | inl (ErrCheckpoint _) => ~ (io_ok io /\ fits (visible (foldl apply_op ∅ h)) now)
  | inl _ => False
  end.
Proof.
  intros (ops & h & [Hi Hs Ha _])%reach_inv Hcr Hn.
  destruct (crash_leftover _ _ _ _ _ Hi Hcr) as (junk & -> & Hl).
  destruct (open_recovers _ ops junk order enc allowSkip now io (inv_ops_ok _ _ _ Hi) Hl Hn)
    as (ops' & Hex & H).
  assert (exists h', survives (EvRestart o :: tr) h' /\
    visible (replay ops') = visible (foldl apply_op ∅ h')) as (h' & Hs' & E).
  { destruct Hex as [->|(op & t & Hop & ->)].
    - exists h. split; [by constructor|done].
    - exists (h ++ [op]). split; [by apply sv_restart_extra|].
      rewrite replay_app, foldl_app. simpl. by apply visible_apply. }
  exists h'. split; [done|]. rewrite <- E. destruct (open_engine _ _ _ _ _ _) as [e|db'].
  - destruct H as [[e' ->] H]. done.
  - destruct H as (Hv & Hc & _). done.
Qed.

(** C3: a log damaged in the middle is refused. If a complete checksummed
    entry follows an entry that cannot be read or whose checksum does not
    match, opening the store without the skip setting fails with the offset
    and the reason instead of silently dropping the later writes. *)
Theorem store_refuses_damage ops bad e post reason order enc now io :
  Forall (fun p => op_text p.1 /\ storable (entry_of p.1 p.2)) ops -> bad <> [] ->
  storable e -> walChecksum e <> 0%Z ->
  let pre := frames (map (fun p => entry_of p.1 p.2) ops) in
  bad_entry (pre ++ bad ++ frame e ++ post) (length pre) (length bad) reason ->
  open_engine (pre ++ bad ++ frame e ++ post) order enc false now io =
    inl (ErrDamaged (length pre) reason).
Proof. intros. by apply open_refuses. Qed.

(** A failed append either leaves the file exactly as it was, or the
    log refuses every later write until the next restart. *)
Lemma failed_append_contained tried w ops op now io w' err :
  wal_holds tried w ops -> op_text op -> int64 now ->
  appendLocked w (entry_of op now) io = (w', Some err) ->
  wal_disk w' = wal_disk w \/
  (health w' = Some ErrBroken /\
   forall entry io', appendLocked w' entry io' = (w', Some ErrBroken)).
Proof.
  intros Hw Ho Hn E. unfold appendLocked in E. destruct (wal_broken w) eqn:Hb.
  { injection E as <- <-. by left. }
  assert (forall f sz g b, appendLocked (WriteAheadLog f (wal_open w) sz (Some b) g) =
    fun _ _ => (WriteAheadLog f (wal_open w) sz (Some b) g, Some ErrBroken)) as Hbr by done.
  destruct Hw as [_ (junk & Hd & Hj & _) Hsz]. rewrite (Hj Hb), app_nil_r in Hd.
  unfold writeEntryLocked, truncate_to in E.
  destruct (encodeEntry _) as [buf|]; [destruct (wal_open w) eqn:Hopen|]; cbn [andb] in E.
  - assert (forall x, take (wal_size w) (wal_disk w ++ x) = wal_disk w) as Hcut
      by (intros x; rewrite Hsz, <- Hd, take_app_length by done; done).
    destruct (io_short io), (io_sync_ok io), (io_trunc_ok io); simplify_eq/=;
      rewrite ?Hcut; first [by left|right; split; [done|]; intros; done].
  - simplify_eq/=. by left.
  - destruct (wal_open w && io_trunc_ok io) eqn:Eo; simplify_eq/=; left; [|done].
    destruct (wal_open w) eqn:Hopen; [|done]. rewrite Hsz, <- Hd by done. apply firstn_all.
Qed.

(** A checkpoint is invisible to readers. Installing one leaves the
    view unchanged whatever fails, and when it succeeds the tree holds no
    tombstone any more. *)
Lemma checkpoint_transparent tr db cap io db' err :
  reach tr db (Some cap) -> checkpoint_finish db cap io = (db', err) ->
  view db' = view db /\
  (err = None -> forall k, contents (db_data db') !! k <> Some None).
Proof.
  intros (ops & h & [Hi _ _ Hc])%reach_inv E.
  pose proof (checkpoint_finish_ok _ db ops cap io Hi (Hc _ eq_refl)) as H. rewrite E in H.
  split; [apply H|]. intros ->. unfold checkpoint_finish in E.
  destruct (writeCompact _ _) as [?|[tmp total]]; [done|]. case_decide; [done|].
  destruct (installCompactLocked _ _ _ _ _) as [w' [?|]]; [done|]. injection E as <-. simpl.
  intros k. apply compactTree_live. apply Hi.
Qed.

(** ** Reads and writes *)

(** C4: [insert] on a well-formed B+Tree never panics, keeps it well formed
    (sorted separators, bounded nodes, all leaves at one depth, the leaf
    chain intact) and updates exactly one key of the map it represents. *)
Theorem btree_insert_correct idx key v :
  wf_index idx -> exists idx', btree_insert idx key v = Some idx' /\ wf_index idx' /\
    contents idx' = <[key:=v]> (contents idx) /\
    (forall k, In k (map fst (scanAllNodes idx')) <->
      (k = key /\ v <> None) \/ (k <> key /\ In k (map fst (scanAllNodes idx)))).
Proof.
  intros Hw. destruct (btree_insert_refines idx (contents idx) key v) as (idx' & E & Hw' & Ec);
    [by split|]. exists idx'. split_and!; auto. intros k.
  rewrite <- !list_elem_of_In, !scanAll_visible, Ec, lookup_insert by done.
  destruct (decide (key = k)) as [->|Hne]; [|naive_solver].
  destruct v; simpl; split; [naive_solver|naive_solver|intros [? ?]; done|naive_solver].
Qed.

(** A value written by [Put] is what [Get] returns, through encryption
    when it is on (a nil value reads as deleted without encryption, as an
    empty one with it), and no other key is affected. *)
Lemma put_get {Kok : CryptoOk K} db e key v db' :
  wf_index (db_data db) ->
  length (env_salt e) = encryptionSaltLen -> length (env_nonce e) = gcmNonceSize ->
  Put db e key v = (db', None) ->
  Get db' key = match v, db_encryptor db with
                | Some p, _ => inr p
                | None, Some _ => inr []
                | None, None => inl (ErrNotFound key)
                end /\
  forall k, k <> key -> Get db' k = Get db k.
Proof.
  intros Hw Hs Hn E. destruct (Put_view _ _ _ _ _ Hw E) as (w & Es & Hw' & Ec & Hc & Hc' & He).
  split.
  - rewrite Get_view, view_lookup, Ec, lookup_insert_eq by done. unfold storeValue in Es.
    unfold decodeStoredValue. rewrite He. destruct (db_encryptor db) as [master|].
    + destruct (encrypt _ _ _ _) as [c|] eqn:Een; [|done]. simplify_eq/=.
      rewrite (decrypt_encrypt _ _ _ _ Hs Hn Een). by destruct v.
    + simplify_eq/=. by destruct w.
  - intros k Hk. rewrite !Get_view, !view_lookup, Ec by done.
    rewrite lookup_insert_ne by done. unfold decodeStoredValue. by rewrite He.
Qed.

(** The three scans of an open engine are exact. [List] returns the
    visible keys with the prefix, in ascending order; [PrefixScan] returns the
    decoded value of every visible key with the prefix and nothing else, and
    [RangeScan] those of the keys in [[start, end)]; a scan fails only with the
    error of a value in its range that does not decode. *)
Lemma scans_correct db prefix lo hi :
  wf_index (db_data db) -> db_closed db = false ->
  (exists keys, List_keys db prefix = inr keys /\ StronglySorted str_lt keys /\
     forall k, k ∈ keys <-> String.prefix prefix k = true /\ is_Some (view db !! k)) /\
  scan_result db (String.prefix prefix) (PrefixScan db prefix) /\
  scan_result db (in_range lo hi) (RangeScan db lo hi).
Proof.
  intros Hw Hc. split; [unfold List_keys; rewrite Hc; eexists; split; [done|]; by apply list_keys_spec|].
  split; [by apply PrefixScan_result|]. unfold RangeScan. rewrite Hc.
  destruct (scan_filter db lo false (in_range lo hi) Hw) as [Hs Hf].
  { intros k [H _]%andb_true_iff. by apply str_leb_le. }
  rewrite range_loop_collect by done. rewrite Hf. by apply collect_scan.
Qed.

End properties.

(** ** Witnesses *)

Definition sample_call : call := CPut sample_env "soul" (Some [x41; x42]).

(** A run: open, write, begin a checkpoint, write again, finish it. *)
Lemma sample_start : reach [] (sample_db None) None.
Proof. by apply (reach_start 4 None false 5 sample_cio). Qed.

Lemma sample_call_ok : call_ok sample_call.
Proof. split; [by repeat constructor|unfold int64; simpl; lia]. Qed.

Definition sample_db1 : CobaltDB := (exec (sample_db None) sample_call).1.

Lemma sample_reach1 : reach [EvOk (OpPut "soul" (Some [x41; x42]))] sample_db1 None.
Proof.
  change [EvOk (OpPut "soul" (Some [x41; x42]))] with
    (observe true (op_of (sample_db None) sample_call) []).
  apply (reach_call [] (sample_db None) None sample_call sample_db1 None);
    [apply sample_start|apply sample_call_ok|by vm_compute].
Qed.

Lemma store_durability_witness :
  exists h, survives [EvOk (OpPut "soul" (Some [x41; x42]))] h /\
    view sample_db1 = visible (foldl apply_op ∅ h).
Proof. exact (store_durability _ _ None sample_reach1). Defined.

Lemma store_recovers_witness :
  exists h, survives [EvRestart None; EvOk (OpPut "soul" (Some [x41; x42]))] h /\
    match open_engine (wal_disk (db_wal sample_db1)) 4 None false 9 sample_cio with
    | inr db' => view db' = visible (foldl apply_op ∅ h) /\ db_closed db' = false
    | inl (ErrCheckpoint _) => ~ (io_ok sample_cio /\ fits (visible (foldl apply_op ∅ h)) 9)
    | inl _ => False
    end.
Proof.
  apply (store_recovers _ sample_db1 None); [apply sample_reach1|constructor|].
  unfold int64; lia.
Defined.

Definition sample_op : wal_op := OpPut "a" (Some [x41]).

Lemma sample_storable : storable (entry_of sample_op 3).
Proof.
  split; [|split; [done|by vm_compute]].
  split_and!; [by repeat constructor|by repeat constructor|simpl; lia..].
Qed.

Lemma store_refuses_damage_witness :
  open_engine (frames [] ++ [x00; x00] ++ frame (entry_of sample_op 3) ++ []) 4 None false 9
    sample_cio = inl (ErrDamaged (length (frames [])) "entry length out of range").
Proof.
  apply (store_refuses_damage [] [x00; x00] (entry_of sample_op 3) []
    "entry length out of range" 4 None 9 sample_cio);
    [constructor|done|apply sample_storable|by vm_compute|left; by vm_compute].
Defined.

Lemma failed_append_contained_witness :
  let w := db_wal sample_db1 in
  let io := AppendIO (Some 3) true false in
  let w' := (appendLocked w (entry_of sample_op 3) io).1 in
  wal_disk w' = wal_disk w \/
  (health w' = Some ErrBroken /\
   forall entry io', appendLocked w' entry io' = (w', Some ErrBroken)).
Proof.
  intros w io w'.
  destruct (reach_inv _ _ _ sample_reach1) as (ops & h & [[_ Hw _] _ _ _]).
  eapply (failed_append_contained _ w ops sample_op 3 io w' ErrWrite Hw);
    [by repeat constructor|unfold int64; lia|by vm_compute].
Defined.

Definition sample_cap : capture :=
  match checkpoint_begin sample_db1 8 with inr c => c | inl _ => Capture [] 0 0 end.

Lemma checkpoint_transparent_witness :
  let db' := (checkpoint_finish sample_db1 sample_cap sample_cio).1 in
  view db' = view sample_db1 /\
  (None = (None : option db_error) -> forall k, contents (db_data db') !! k <> Some None).
Proof.
  apply (checkpoint_transparent [EvOk (OpPut "soul" (Some [x41; x42]))] sample_db1 sample_cap sample_cio);
    [|by vm_compute].
  eapply reach_checkpoint_begin; [apply sample_reach1| |by vm_compute]. unfold int64; lia.
Defined.

Lemma btree_insert_correct_witness :
  exists idx', btree_insert (emptyIndex 4 0) "a" (Some [x41]) = Some idx' /\ wf_index idx' /\
    contents idx' = <["a":=Some [x41]]> (contents (emptyIndex 4 0)) /\
    (forall k, In k (map fst (scanAllNodes idx')) <->
      (k = "a" /\ Some [x41] <> None) \/ (k <> "a" /\ In k (map fst (scanAllNodes (emptyIndex 4 0))))).
Proof. apply (btree_insert_correct (emptyIndex 4 0)), emptyIndex_wf. unfold minBTreeOrder; lia. Defined.

Lemma sample_wf enc : wf_index (db_data (sample_db enc)).
Proof.
  unfold sample_db. assert (open_engine [] 4 enc false 5 sample_cio =
    inr (MkCobaltDB false (emptyIndex 4 0) (WriteAheadLog [] true 0 None 1) enc 0)) as -> by done.
  apply emptyIndex_wf. unfold minBTreeOrder; lia.
Qed.

Lemma put_get_witness :
  let db := sample_db (Some [x09]) in
  let db' := (Put db sample_env "soul" (Some [x41; x42])).1 in
  Get db' "soul" = inr [x41; x42] /\ forall k, k <> "soul" -> Get db' k = Get db k.
Proof.
  intros db db'. apply (put_get db sample_env "soul" (Some [x41; x42]) db');
    [apply sample_wf|done|done|by vm_compute].
Defined.

Lemma scans_correct_witness :
  (exists keys, List_keys (sample_db None) "s" = inr keys /\ StronglySorted str_lt keys /\
     forall k, k ∈ keys <-> String.prefix "s" k = true /\ is_Some (view (sample_db None) !! k)) /\
  scan_result (sample_db None) (String.prefix "s") (PrefixScan (sample_db None) "s") /\
  scan_result (sample_db None) (in_range "a" "z") (RangeScan (sample_db None) "a" "z").
Proof. apply scans_correct; [apply sample_wf|done]. Defined.
