(* ===== verification/KeyValue.v ===== *)
(** * The key/value interface the other components rely on

    What CobaltDB promises to the code built on it (the Raft log store, the
    stable store, the state machine): point reads, prefix scans, atomic
    multi-key writes and deletes over one logical map. An operation that
    reports an error leaves the map as it was, except for a deletion by prefix,
    which may have deleted some of the keys. The class states the contract; one
    instance proves that the engine of Engine.v honours it, with encryption on
    or off, another is the store in memory of src/internal/raft/fsm.go. *)
From stdpp Require Import base gmap strings list sorting.
From Stdlib Require Import ZArith Lia Strings.Byte.
From S2P Require Import Prelude BTree Wal Engine Store.

(** ** The interface *)

(** The random bytes, clock and system-call outcomes of one call; the random
    bytes are drawn per key. *)
Record call_env := CallEnv {
  ce_rand : string -> env;
  ce_env : env;
}.

Class KeyValue (D : Type) := {
  kv_get : D -> string -> db_error + bytes;
  kv_scan : D -> string -> db_error + gmap string bytes;
  kv_put : D -> call_env -> string -> bytes -> D * option db_error;
  kv_put_many : D -> call_env -> gmap string bytes -> D * option db_error;
  kv_delete_many : D -> call_env -> list string -> D * option db_error;
  kv_list : D -> string -> db_error + list string;
  kv_delete : D -> call_env -> string -> D * option db_error;
  kv_delete_prefix : D -> call_env -> string -> D * option db_error;
  (* the keys of the tree as a walk over its leaves meets them *)
  kv_keys : D -> list string;
}.

(** The map without the keys a predicate selects. *)
Definition without {A} (P : string -> bool) (m : gmap string A) : gmap string A :=
  filter (fun e => P e.1 = false) m.

Lemma lookup_without {A} P (m : gmap string A) k : without P m !! k = if P k then None else m !! k.
Proof.
  unfold without. rewrite (lookup_filter_key (fun j => P j = false)).
  destruct (P k); [by rewrite decide_False|by rewrite decide_True].
Qed.

(** [crypto/rand] delivers as many bytes as asked for. *)
Definition rand_ok (e : env) : Prop :=
  length (env_salt e) = encryptionSaltLen /\ length (env_nonce e) = gcmNonceSize.

Definition call_env_ok (c : call_env) : Prop := rand_ok (ce_env c) /\ forall k, rand_ok (ce_rand c k).

Class KeyValueOk (D : Type) `{KeyValue D} := {
  kv_inv : D -> Prop;
  kv_map : D -> gmap string bytes;
  kv_get_spec d k : kv_inv d ->
    kv_get d k = match kv_map d !! k with Some v => inr v | None => inl (ErrNotFound k) end;
  kv_scan_spec d p : kv_inv d ->
    kv_scan d p = inr (filter (fun e => String.prefix p e.1 = true) (kv_map d));
  kv_put_spec d c k v d' err : kv_inv d -> call_env_ok c -> kv_put d c k v = (d', err) ->
    kv_inv d' /\ kv_map d' = match err with None => <[k:=v]> (kv_map d) | Some _ => kv_map d end;
  kv_put_many_spec d c m d' err : kv_inv d -> call_env_ok c -> kv_put_many d c m = (d', err) ->
    kv_inv d' /\ kv_map d' = match err with None => m ∪ kv_map d | Some _ => kv_map d end;
  kv_delete_many_spec d c ks d' err : kv_inv d -> call_env_ok c -> kv_delete_many d c ks = (d', err) ->
    kv_inv d' /\ kv_map d' =
      match err with None => filter (fun e => e.1 ∉ ks) (kv_map d) | Some _ => kv_map d end;
  kv_list_spec d p : kv_inv d -> exists ks, kv_list d p = inr ks /\ NoDup ks /\
    forall k, k ∈ ks <-> String.prefix p k = true /\ is_Some (kv_map d !! k);
  kv_delete_spec d c k d' err : kv_inv d -> call_env_ok c -> kv_delete d c k = (d', err) ->
    kv_inv d' /\ kv_map d' = match err with None => delete k (kv_map d) | Some _ => kv_map d end;
  (* a deletion by prefix that fails may have deleted some of the keys *)
  kv_delete_prefix_spec d c p d' err : kv_inv d -> call_env_ok c -> kv_delete_prefix d c p = (d', err) ->
    kv_inv d' /\ exists gone, kv_map d' = without gone (kv_map d) /\
      (forall k, gone k = true -> String.prefix p k = true) /\
      (err = None -> forall k, is_Some (kv_map d !! k) -> gone k = String.prefix p k);
  (* the walk meets every key that has a value, and may meet deleted ones *)
  kv_keys_spec d k : kv_inv d -> is_Some (kv_map d !! k) -> k ∈ kv_keys d;
}.

(** ** CobaltDB implements it *)

Section cobalt.
Context {C : WalCodec} {K : Crypto} {Kok : CryptoOk K}.

#[export] Instance cobalt_kv : KeyValue CobaltDB := {|
  kv_get := Get;
  kv_scan := PrefixScan;
  kv_put d c k v := Put d (ce_env c) k (Some v);
  kv_put_many d c m := putMany d (ce_rand c) (ce_env c) (Some <$> m);
  kv_delete_many d c ks := deleteMany d (ce_env c) ks;
  kv_list := List_keys;
  kv_delete d c k := Delete d (ce_env c) k;
  kv_delete_prefix d c p := DeletePrefix d (ce_rand c) p;
  kv_keys d := tree_keys (db_data d);
|}.

(** The decoded value under a key. *)
Definition decoded (db : CobaltDB) (k : string) (v : bytes) : option bytes :=
  match decodeStoredValue db k v with inr p => Some p | inl _ => None end.

Definition logical (db : CobaltDB) : gmap string bytes := map_imap (decoded db) (view db).

(** An open engine over a well-formed tree whose values all decode. *)
Record usable (db : CobaltDB) : Prop := {
  us_tree : wf_index (db_data db);
  us_open : db_closed db = false;
  us_decodes : forall k v, view db !! k = Some v -> is_Some (decoded db k v);
}.

Lemma lookup_logical db k : logical db !! k = view db !! k ≫= decoded db k.
Proof. apply map_lookup_imap. Qed.

Lemma usable_same db db' :
  usable db -> db_data db' = db_data db -> db_closed db' = db_closed db ->
  db_encryptor db' = db_encryptor db -> usable db' /\ logical db' = logical db.
Proof.
  intros [H1 H2 H3] Ed Ec Ee.
  assert (forall k v, decoded db' k v = decoded db k v) as Hd
    by (intros; unfold decoded, decodeStoredValue; by rewrite Ee).
  assert (view db' = view db) as Hv by (unfold view; by rewrite Ed).
  split; [split|].
  - by rewrite Ed.
  - by rewrite Ec.
  - intros k v. rewrite Hv, Hd. apply H3.
  - apply map_eq. intros k. rewrite !lookup_logical, Hv. destruct (view db !! k); simpl; auto.
Qed.

(** The engine after some keys were overwritten with physical values. *)
Lemma usable_update db db' (m : gmap string gobytes) (l : gmap string (option bytes)) :
  usable db -> wf_index (db_data db') -> db_closed db' = false ->
  db_encryptor db' = db_encryptor db -> contents (db_data db') = m ∪ contents (db_data db) ->
  (forall k, match m !! k with
             | Some (Some w) => exists p, l !! k = Some (Some p) /\ decoded db k w = Some p
             | Some None => l !! k = Some None
             | None => l !! k = None
             end) ->
  usable db' /\ forall k, logical db' !! k = default (logical db !! k) (l !! k).
Proof.
  intros [H1 H2 H3] Hw Hc He Em Hl.
  assert (forall k v, decoded db' k v = decoded db k v) as Hd
    by (intros; unfold decoded, decodeStoredValue; by rewrite He).
  assert (forall k, view db' !! k = match m !! k with Some o => o | None => view db !! k end) as Hv.
  { intros k. rewrite !view_lookup, Em, lookup_union.
    destruct (m !! k) as [[?|]|], (contents (db_data db) !! k) as [[?|]|]; reflexivity. }
  split; [split; [done|done|]|].
  - intros k v. rewrite Hv, Hd. specialize (Hl k). destruct (m !! k) as [[w|]|]; [|done|apply H3].
    intros [= <-]. destruct Hl as (p & _ & ->). by eexists.
  - intros k. rewrite !lookup_logical, Hv. specialize (Hl k). destruct (m !! k) as [[w|]|]; simpl.
    + destruct Hl as (p & -> & E). simpl. by rewrite Hd.
    + by rewrite Hl.
    + rewrite Hl. simpl. destruct (view db !! k); simpl; auto.
Qed.

Lemma storeValue_decodes db e k v w :
  rand_ok e -> storeValue db e (Some v) = Some w -> exists b, w = Some b /\ decoded db k b = Some v.
Proof.
  intros [Hs Hn]. unfold storeValue, decoded, decodeStoredValue. destruct (db_encryptor db) as [master|].
  - simpl. destruct (encrypt _ _ _ _) as [c|] eqn:E; [|done]. intros [= <-]. exists c.
    split; [done|]. by rewrite (decrypt_encrypt master e v c Hs Hn E).
  - intros [= <-]. by exists v.
Qed.

Lemma get_logical db k :
  usable db ->
  Get db k = match logical db !! k with Some v => inr v | None => inl (ErrNotFound k) end.
Proof.
  intros [H1 H2 H3]. rewrite Get_view, lookup_logical by done.
  destruct (view db !! k) as [v|] eqn:E; [|done]. simpl. destruct (H3 k v E) as [p Hp].
  unfold decoded in *. destruct (decodeStoredValue db k v); [done|]. by simplify_eq.
Qed.

Lemma scan_logical db p :
  usable db ->
  PrefixScan db p = inr (filter (fun e => String.prefix p e.1 = true) (logical db)).
Proof.
  intros [H1 H2 H3]. pose proof (PrefixScan_result db p H1 H2) as Hr.
  destruct (PrefixScan db p) as [e|m]; simpl in Hr.
  - destruct Hr as (k & v & _ & Hv & He). destruct (H3 k v Hv) as [q Hq].
    unfold decoded in Hq. by rewrite He in Hq.
  - f_equal. apply map_eq. intros k. specialize (Hr k). destruct (String.prefix p k) eqn:Ep.
    + rewrite (lookup_filter_key (fun j => String.prefix p j = true)), decide_True, lookup_logical by done.
      destruct (view db !! k) as [v|]; [|done]. destruct Hr as (q & Hq & ->).
      simpl. unfold decoded. by rewrite Hq.
    + by rewrite (lookup_filter_key (fun j => String.prefix p j = true)), decide_False by congruence.
Qed.

Lemma put_usable db c k v db' err :
  usable db -> call_env_ok c -> Put db (ce_env c) k (Some v) = (db', err) ->
  usable db' /\ logical db' = match err with None => <[k:=v]> (logical db) | Some _ => logical db end.
Proof.
  intros Hu [Hr _] E. destruct err as [err|].
  - apply (usable_same db); [done|..]; unfold Put in E; destruct (db_closed db) eqn:Hc; simplify_eq; try done;
      destruct (storeValue _ _ _); simplify_eq; try done;
      destruct (Append _ _ _ _ _) as [w [e|]]; simplify_eq; try done;
      destruct (btree_insert _ _ _); by simplify_eq.
  - destruct (Put_view _ _ _ _ _ (us_tree _ Hu) E) as (w & Ew & Hw & Em & _ & Hc & He).
    destruct (storeValue_decodes db _ k v w Hr Ew) as (b & -> & Hb).
    destruct (usable_update db db' {[k := Some b]} {[k := Some v]} Hu Hw Hc He) as [H1 H2].
    + by rewrite Em, insert_union_singleton_l.
    + intros j. destruct (decide (j = k)) as [->|Hj]; [rewrite !lookup_singleton_eq; eauto|].
      by rewrite !lookup_singleton_ne.
    + split; [done|]. apply map_eq. intros j. rewrite H2.
      destruct (decide (j = k)) as [->|Hj]; [by rewrite lookup_singleton_eq, lookup_insert_eq|].
      by rewrite lookup_singleton_ne, lookup_insert_ne.
Qed.

(** A batch that was refused, or applied to the tree as a whole. *)
Lemma batch_applied db m kvs now io w err db' err' :
  wf_index (db_data db) -> (forall m0, foldl (fun m p => <[p.1:=p.2]> m) m0 kvs = m ∪ m0) ->
  AppendBatch (db_wal db) m now io = (w, err) -> apply_batch db w err kvs = (db', err') ->
  db_closed db' = db_closed db /\ db_encryptor db' = db_encryptor db /\
  match err' with
  | Some _ => db_data db' = db_data db
  | None => wf_index (db_data db') /\ contents (db_data db') = m ∪ contents (db_data db)
  end.
Proof.
  intros Hw Hf _ E. unfold apply_batch in E. destruct err as [err|]; [by simplify_eq|].
  destruct (insert_all_refines (db_data db) (contents (db_data db)) kvs) as (d & Ed & Hd); [by split|].
  rewrite Ed in E. simplify_eq. simpl. split_and!; [done|done|apply bump_seq_wf, Hd|].
  destruct Hd as [_ Hd]. rewrite <- Hf. done.
Qed.

Lemma stored_batch_lookup db rand (m : gmap string bytes) k :
  stored_batch db rand (Some <$> m) !! k =
    match m !! k with Some v => storeValue db (rand k) (Some v) | None => None end.
Proof.
  unfold stored_batch. rewrite lookup_omap, map_lookup_imap, lookup_fmap. by destruct (m !! k).
Qed.

Lemma put_many_usable db c m db' err :
  usable db -> call_env_ok c -> putMany db (ce_rand c) (ce_env c) (Some <$> m) = (db', err) ->
  usable db' /\ logical db' = match err with None => m ∪ logical db | Some _ => logical db end.
Proof.
  intros Hu [_ Hr] E. unfold putMany in E. rewrite (us_open _ Hu) in E.
  destruct (decide (Some <$> m = ∅)) as [Hm|Hm].
  { apply fmap_empty_inv in Hm as ->. simplify_eq. split; [done|]. by rewrite (left_id_L ∅ (∪)). }
  cbv zeta in E. destruct (decide (map_Forall _ _)) as [Hall|]; [|by simplify_eq].
  fold (stored_batch db (ce_rand c) (Some <$> m)) in E.
  destruct (AppendBatch _ _ _ _) as [w e] eqn:Ea.
  destruct (batch_applied db _ _ _ _ _ _ _ _ (us_tree _ Hu) (sorted_pairs_fold _) Ea E) as (Hc & He & Hd).
  destruct err as [err|]; [by apply usable_same|]. destruct Hd as [Hw Em].
  rewrite (us_open _ Hu) in Hc.
  destruct (usable_update db db' _ (Some <$> m) Hu Hw Hc He Em) as [H1 H2].
  - intros k. rewrite stored_batch_lookup, lookup_fmap. destruct (m !! k) as [v|] eqn:Ek; [|done].
    assert (is_Some (storeValue db (ce_rand c k) (Some v))) as [x Ex].
    { apply (Hall k). rewrite map_lookup_imap, lookup_fmap, Ek. done. }
    rewrite Ex. destruct (storeValue_decodes db _ k v x (Hr k) Ex) as (b & -> & Hb). eauto.
  - split; [done|]. apply map_eq. intros k. rewrite H2, lookup_fmap, lookup_union.
    by destruct (m !! k), (logical db !! k).
Qed.

Lemma delete_many_usable db c ks db' err :
  usable db -> deleteMany db (ce_env c) ks = (db', err) ->
  usable db' /\ logical db' =
    match err with None => filter (fun e => e.1 ∉ ks) (logical db) | Some _ => logical db end.
Proof.
  intros Hu E. unfold deleteMany in E. rewrite (us_open _ Hu) in E.
  destruct (decide (ks = [])) as [->|Hks].
  { simplify_eq. split; [done|]. symmetry. apply map_filter_id. intros k v _. apply not_elem_of_nil. }
  cbv zeta in E. fold (tombstones ks) in E. destruct (AppendBatch _ _ _ _) as [w e] eqn:Ea.
  assert (forall m0, foldl (fun m p => <[p.1:=p.2]> m) m0
    (map (fun k => (k, None)) (merge_sort String.le ks)) = tombstones ks ∪ m0) as Hf.
  { intros m0. rewrite foldl_tombstones. f_equal. apply tombstones_perm, merge_sort_Permutation. }
  destruct (batch_applied db _ _ _ _ _ _ _ _ (us_tree _ Hu) Hf Ea E) as (Hc & He & Hd).
  destruct err as [err|]; [by apply usable_same|]. destruct Hd as [Hw Em].
  rewrite (us_open _ Hu) in Hc.
  destruct (usable_update db db' (tombstones ks) (list_to_map (map (fun k => (k, None)) ks)) Hu Hw Hc He Em)
    as [H1 H2].
  - intros k. fold (tombstones ks). rewrite lookup_tombstones. by case_decide.
  - split; [done|]. apply map_eq. intros k. rewrite H2. fold (tombstones ks). rewrite lookup_tombstones.
    rewrite (lookup_filter_key (fun j => j ∉ ks)).
    destruct (decide (k ∈ ks)); [by rewrite decide_False by tauto|by rewrite decide_True].
Qed.

(** Compound writes are atomic for readers. After [putMany] or
    [deleteMany] on an open engine every key of the batch reads as written or
    deleted when the call succeeded, no key changed when it failed, and in both
    cases the engine stays usable and all other keys read as before. *)
Lemma batches_atomic db c m ks db1 err1 db2 err2 :
  usable db -> call_env_ok c ->
  putMany db (ce_rand c) (ce_env c) (Some <$> m) = (db1, err1) ->
  deleteMany db (ce_env c) ks = (db2, err2) ->
  usable db1 /\ usable db2 /\
  (forall k, Get db1 k = match err1, m !! k with None, Some v => inr v | _, _ => Get db k end) /\
  (forall k, Get db2 k = if decide (err2 = None /\ k ∈ ks) then inl (ErrNotFound k) else Get db k).
Proof.
  intros Hu Hc E1 E2. destruct (put_many_usable _ _ _ _ _ Hu Hc E1) as [H1 L1].
  destruct (delete_many_usable _ _ _ _ _ Hu E2) as [H2 L2]. split_and!; [done|done|..]; intros k.
  - rewrite !get_logical, L1 by done. destruct err1; [done|]. rewrite lookup_union.
    by destruct (m !! k), (logical db !! k).
  - rewrite !get_logical, L2 by done. destruct err2; [by rewrite decide_False by naive_solver|].
    rewrite (lookup_filter_key (fun j => j ∉ ks)).
    destruct (decide (k ∈ ks)); [by rewrite decide_False, decide_True by tauto|].
    by rewrite decide_True, decide_False by tauto.
Qed.

Lemma logical_is_Some db k : usable db -> is_Some (logical db !! k) <-> is_Some (view db !! k).
Proof.
  intros Hu. rewrite lookup_logical. destruct (view db !! k) as [v|] eqn:E; simpl.
  - split; [by eexists|]. intros _. by apply (us_decodes _ Hu).
  - by split; intros [? ?].
Qed.

Lemma list_usable db p :
  usable db -> exists ks, List_keys db p = inr ks /\ NoDup ks /\
    forall k, k ∈ ks <-> String.prefix p k = true /\ is_Some (logical db !! k).
Proof.
  intros Hu. destruct (list_keys_spec db p (us_tree _ Hu)) as [Hs Hin]. unfold List_keys. rewrite (us_open _ Hu).
  eexists. split; [done|]. split; [by apply str_sorted_NoDup|]. intros k. by rewrite Hin, logical_is_Some.
Qed.

Lemma delete_usable db e k db' err :
  usable db -> Delete db e k = (db', err) ->
  usable db' /\ logical db' = match err with None => delete k (logical db) | Some _ => logical db end.
Proof.
  intros Hu E. destruct err as [err|].
  - apply (usable_same db); [done|..]; unfold Delete in E; destruct (db_closed db) eqn:Hc; simplify_eq; try done;
      destruct (AppendDelete _ _ _ _) as [w [x|]]; simplify_eq; try done;
      destruct (btree_insert _ _ _); by simplify_eq.
  - destruct (Delete_view _ _ _ _ (us_tree _ Hu) E) as (Hw & Em & _ & Hc & He).
    destruct (usable_update db db' {[k := None]} {[k := None]} Hu Hw Hc He) as [H1 H2].
    + by rewrite Em, insert_union_singleton_l.
    + intros j. destruct (decide (j = k)) as [->|Hj]; [by rewrite !lookup_singleton_eq|].
      by rewrite !lookup_singleton_ne.
    + split; [done|]. apply map_eq. intros j. rewrite H2.
      destruct (decide (j = k)) as [->|Hj]; [by rewrite lookup_singleton_eq, lookup_delete_eq|].
      by rewrite lookup_singleton_ne, lookup_delete_ne.
Qed.

Lemma delete_keys_usable es : forall keys db db' err,
  usable db -> delete_keys db es keys = (db', err) ->
  usable db' /\ exists gone, logical db' = without gone (logical db) /\
    (forall k, gone k = true -> k ∈ keys) /\ (err = None -> forall k, k ∈ keys -> gone k = true).
Proof.
  induction keys as [|key keys IH]; intros db db' err Hu E; cbn [delete_keys] in E.
  { simplify_eq. split; [done|]. exists (fun _ => false). split; [|split; [done|]].
    - apply map_eq. intros k. by rewrite lookup_without.
    - intros _ k Hk. by apply elem_of_nil in Hk. }
  destruct (Delete db (es key) key) as [db1 [e|]] eqn:Ed; destruct (delete_usable _ _ _ _ _ Hu Ed) as [H1 L1].
  { simplify_eq. split; [done|]. exists (fun _ => false). split; [|split; done].
    rewrite L1. apply map_eq. intros k. by rewrite lookup_without. }
  destruct (IH db1 db' err H1 E) as (Hu' & gone & L2 & Hg1 & Hg2). split; [done|].
  exists (fun k => bool_decide (k = key) || gone k). split; [|split].
  - rewrite L2, L1. apply map_eq. intros k. rewrite !lookup_without.
    destruct (gone k); [by rewrite orb_true_r|]. case_bool_decide as Hk; simpl; [by rewrite Hk, lookup_delete_eq|].
    by rewrite lookup_delete_ne by done.
  - intros k [Hk%bool_decide_eq_true| Hk%Hg1]%orb_true_iff; rewrite elem_of_cons; auto.
  - intros He k [->|Hk]%elem_of_cons; [by rewrite bool_decide_true|].
    by rewrite (Hg2 He k Hk), orb_true_r.
Qed.

Lemma delete_prefix_usable db es p db' err :
  usable db -> DeletePrefix db es p = (db', err) ->
  usable db' /\ exists gone, logical db' = without gone (logical db) /\
    (forall k, gone k = true -> String.prefix p k = true) /\
    (err = None -> forall k, is_Some (logical db !! k) -> gone k = String.prefix p k).
Proof.
  intros Hu E. unfold DeletePrefix in E. rewrite (us_open _ Hu) in E.
  destruct (list_usable db p Hu) as (ks & El & _ & Hin). rewrite El in E.
  destruct (delete_keys_usable es ks db db' err Hu E) as (Hu' & gone & Hg & H1 & H2).
  split; [done|]. exists gone. split_and!; [done|intros k Hk%H1; by apply Hin|].
  intros He k Hk. destruct (String.prefix p k) eqn:Ep.
  - apply (H2 He), Hin. done.
  - destruct (gone k) eqn:Eg; [|done]. apply H1, Hin in Eg. destruct Eg. congruence.
Qed.

Lemma keys_usable db k : usable db -> is_Some (logical db !! k) -> k ∈ tree_keys (db_data db).
Proof.
  intros Hu [v Hv]%logical_is_Some; [|done]. rewrite view_lookup in Hv. unfold tree_keys.
  rewrite walk_from_left by apply Hu. unfold contents in Hv.
  destruct (list_to_map (entries _) !! k) as [w|] eqn:E; [|done].
  apply elem_of_list_to_map_2 in E. apply list_elem_of_fmap. by exists (k, w).
Qed.

#[export] Instance cobalt_kv_ok : KeyValueOk CobaltDB := {|
  kv_inv := usable;
  kv_map := logical;
  kv_get_spec := get_logical;
  kv_scan_spec := scan_logical;
  kv_put_spec := put_usable;
  kv_put_many_spec := put_many_usable;
  kv_delete_many_spec d c ks d' err H _ := delete_many_usable d c ks d' err H;
  kv_list_spec := list_usable;
  kv_delete_spec d c k d' err H _ := delete_usable d (ce_env c) k d' err H;
  kv_delete_prefix_spec d c p d' err H _ := delete_prefix_usable d (ce_rand c) p d' err H;
  kv_keys_spec := keys_usable;
|}.
End cobalt.

Lemma sample_usable enc : usable (sample_db enc).
Proof.
  assert (view (sample_db enc) = ∅) as Hv by (by vm_compute).
  split; [apply sample_wf|done|]. by rewrite Hv.
Qed.

Lemma batches_atomic_witness :
  let r := putMany (sample_db (Some [x09])) (fun _ => sample_env) sample_env (Some <$> {["soul" := [x41]]}) in
  usable r.1 /\ forall k, k <> "soul" -> Get r.1 k = Get (sample_db (Some [x09])) k.
Proof.
  destruct (batches_atomic (sample_db (Some [x09])) (CallEnv (fun _ => sample_env) sample_env)
    {["soul" := [x41]]} []
    (putMany (sample_db (Some [x09])) (fun _ => sample_env) sample_env (Some <$> {["soul" := [x41]]})).1
    (putMany (sample_db (Some [x09])) (fun _ => sample_env) sample_env (Some <$> {["soul" := [x41]]})).2
    (sample_db (Some [x09])) None) as (H1 & _ & H2 & _);
    [apply sample_usable|done|apply surjective_pairing|by vm_compute|].
  split; [exact H1|]. intros k Hk. rewrite (H2 k).
  destruct (putMany _ _ _ _).2; [done|]. by rewrite lookup_singleton_ne.
Defined.

(** ** A store in memory

    [InMemoryStorage] of src/internal/raft/fsm.go, whose calls never fail. *)
#[export] Instance map_kv : KeyValue (gmap string bytes) := {|
  kv_get m k := match m !! k with Some v => inr v | None => inl (ErrNotFound k) end;
  kv_scan m p := inr (filter (fun e => String.prefix p e.1 = true) m);
  kv_put m _ k v := (<[k:=v]> m, None);
  kv_put_many m _ new := (new ∪ m, None);
  kv_delete_many m _ ks := (filter (fun e => e.1 ∉ ks) m, None);
  kv_list m p := inr (map fst (map_to_list (filter (fun e => String.prefix p e.1 = true) m)));
  kv_delete m _ k := (delete k m, None);
  kv_delete_prefix m _ p := (without (String.prefix p) m, None);
  kv_keys m := map fst (map_to_list m);
|}.

Lemma map_list_keys (m : gmap string bytes) p k :
  k ∈ map fst (map_to_list (filter (fun e => String.prefix p e.1 = true) m)) <->
  String.prefix p k = true /\ is_Some (m !! k).
Proof.
  rewrite list_elem_of_fmap. split.
  - intros ([j v] & -> & Hin%elem_of_map_to_list). apply map_lookup_filter_Some in Hin as [Hm Hp]. eauto.
  - intros [Hp [v Hv]]. exists (k, v). split; [done|]. apply elem_of_map_to_list.
    by apply map_lookup_filter_Some.
Qed.

#[export] Instance map_kv_ok : KeyValueOk (gmap string bytes).
Proof.
  refine {| kv_inv _ := True; kv_map m := m |}; try by (intros; simplify_eq/=).
  - intros d p _. eexists. split; [reflexivity|]. split; [apply NoDup_fst_map_to_list|].
    apply map_list_keys.
  - intros d c p d' err _ _ [= <- <-]. split; [done|]. exists (String.prefix p). by split_and!.
  - intros d k _ [v Hv]. cbn. apply list_elem_of_fmap. exists (k, v). split; [done|]. by apply elem_of_map_to_list.
Defined.
