(* ===== verification/KeyCheck.v ===== *)
(** * The encryption key check

    src/internal/storage/keycheck.go, the last step of [NewEngine] before the
    store is used: a small record sealed with the storage key lies beside the
    log, and a store is not opened with a key that cannot open it, nor an
    encrypted store without a key. The JSON codec of the record is a
    parameter; the outcome of each file operation is an argument. *)
From stdpp Require Import base gmap strings list sorting.
From Stdlib Require Import ZArith Lia Strings.Byte.
From Stdlib Require Strings.String.
From S2P Require Import Prelude BTree Wal Engine Store KeyValue.

Record keyCheckRecord := KeyCheckRecord {
  Version : Z;
  Canary : bytes;
}.

Class KeyCheckCodec := {
  marshal_check : keyCheckRecord -> bytes;
  unmarshal_check : bytes -> option keyCheckRecord;
}.

Class KeyCheckCodecOk (Q : KeyCheckCodec) : Prop := {
  unmarshal_marshal_check r : unmarshal_check (marshal_check r) = Some r;
}.

Definition keyCheckVersion : Z := 1.
Definition keyCheckPlaintext : bytes := String.list_byte_of_string "anubiswatch-cobaltdb-key-check-v1".
Definition keyCheckSamples : nat := 32.

(** What [os.ReadFile] finds. *)
Inductive key_file :=
| KeyFileMissing
| KeyFileUnreadable
| KeyFile (raw : bytes).

Inductive key_error :=
| KeyReadError
| KeyRequired       (* the store is encrypted but encryption is off *)
| KeyRecordDamaged
| KeyMismatch
| KeyUnproven       (* no stored record decrypts *)
| KeySealError
| KeyWriteError.

Record key_io := KeyIO {
  kio_create : bool;
  kio_write : bool;
  kio_sync : bool;
  kio_close : bool;
  kio_rename : bool;
  kio_syncdir : bool;
}.

Section keycheck.
Context {C : WalCodec} {K : Crypto} {Q : KeyCheckCodec}.

(** Up to [n] live physical values in key order. *)
Definition sampleStoredValues (db : CobaltDB) (n : nat) : list bytes :=
  take n (map snd (scanAllNodes (db_data db))).

(** The record is written to a temporary file and renamed over the path. *)
Definition writeKeyCheck (master : bytes) (old : key_file) (e : env) (io : key_io) :
    key_file * option key_error :=
  match encrypt master (env_salt e) (env_nonce e) keyCheckPlaintext with
  | None => (old, Some KeySealError)
  | Some canary =>
      let data := marshal_check (KeyCheckRecord keyCheckVersion canary) in
      if kio_create io && kio_write io && kio_sync io && kio_close io && kio_rename io then
        (KeyFile data, if kio_syncdir io then None else Some KeyWriteError)
      else (old, Some KeyWriteError)
  end.

Definition verifyEncryptionKey (db : CobaltDB) (file : key_file) (e : env) (io : key_io) :
    key_file * option key_error :=
  match file with
  | KeyFileUnreadable => (file, Some KeyReadError)
  | _ =>
      match db_encryptor db with
      | None => (file, match file with KeyFile _ => Some KeyRequired | _ => None end)
      | Some master =>
          match file with
          | KeyFile raw =>
              (file, match unmarshal_check raw with
                     | None => Some KeyRecordDamaged
                     | Some rec =>
                         if decide (decrypt master (Canary rec) = Some keyCheckPlaintext)
                         then None else Some KeyMismatch
                     end)
          | _ =>
              let samples := sampleStoredValues db keyCheckSamples in
              if decide (0 < length samples) then
                if existsb (fun v => bool_decide (is_Some (decrypt master v))) samples
                then writeKeyCheck master file e io
                else (file, Some KeyUnproven)
              else writeKeyCheck master file e io
          end
      end
  end.

Inductive open_error := OpenRecovery (e : recover_error) | OpenKey (e : key_error).

(** [NewEngine]: recovery, then the key check. *)
Definition new_engine (disk : bytes) (order : Z) (enc : option bytes) (allowSkip : bool) (now : Z)
    (io : compact_io) (file : key_file) (e : env) (kio : key_io) : key_file * (open_error + CobaltDB) :=
  match open_engine disk order enc allowSkip now io with
  | inl err => (file, inl (OpenRecovery err))
  | inr db =>
      match verifyEncryptionKey db file e kio with
      | (file', Some err) => (file', inl (OpenKey err))
      | (file', None) => (file', inr db)
      end
  end.

(** ** Properties *)

Context {Kok : CryptoOk K} {Qok : KeyCheckCodecOk Q}.

(** A record that the key opens. *)
Definition proves_key (master : bytes) (file : key_file) : Prop :=
  exists raw rec, file = KeyFile raw /\ unmarshal_check raw = Some rec /\
    decrypt master (Canary rec) = Some keyCheckPlaintext.

Lemma writeKeyCheck_file master old e io :
  rand_ok e ->
  let '(file', err) := writeKeyCheck master old e io in
  (file' = old /\ err <> None) \/ proves_key master file'.
Proof.
  intros [Hs Hn]. unfold writeKeyCheck. destruct (encrypt _ _ _ _) as [c|] eqn:Ec; [|by left].
  cbv zeta. destruct (_ && _); [|by left]. right.
  exists (marshal_check (KeyCheckRecord keyCheckVersion c)), (KeyCheckRecord keyCheckVersion c).
  rewrite unmarshal_marshal_check. split_and!; [done..|]. by apply (decrypt_encrypt master e).
Qed.

Lemma verify_existing db file e io master :
  db_encryptor db = Some master -> proves_key master file ->
  verifyEncryptionKey db file e io = (file, None).
Proof.
  intros Hm (raw & rec & -> & Hu & Hd). simpl. rewrite Hm, Hu. by rewrite decide_True.
Qed.

(** The key check. If it passes, then without encryption there is no
    record, and with it the record opens under the key and every later open
    with that key passes; a store with a record is refused without a key and
    with any key that does not open the record, and the record stays as it
    was. Whatever fails, the record afterwards is the old one or one that
    proves the key, and a store from before the check is only adopted when
    one of its records decrypts. *)
Lemma verify_outcome db file e io file' err :
  rand_ok e -> verifyEncryptionKey db file e io = (file', err) ->
  match db_encryptor db with
  | None => file' = file /\ (err = None <-> file = KeyFileMissing)
  | Some master =>
      (file' = file \/ (file = KeyFileMissing /\ proves_key master file')) /\
      (err = None -> proves_key master file' /\
         (forall db2 e2 io2, db_encryptor db2 = Some master ->
            verifyEncryptionKey db2 file' e2 io2 = (file', None)) /\
         (file = KeyFileMissing -> sampleStoredValues db keyCheckSamples <> [] ->
            exists v, v ∈ sampleStoredValues db keyCheckSamples /\ is_Some (decrypt master v))) /\
      (file <> KeyFileMissing -> ~ proves_key master file -> err <> None /\ file' = file) /\
      (file = KeyFileMissing -> sampleStoredValues db keyCheckSamples <> [] ->
         (forall v, v ∈ sampleStoredValues db keyCheckSamples -> decrypt master v = None) ->
         err <> None /\ file' = KeyFileMissing)
  end.
Proof.
  intros Hr E. destruct (db_encryptor db) as [master|] eqn:Hm.
  2: { unfold verifyEncryptionKey in E. rewrite Hm in E. by destruct file; simplify_eq. }
  assert (proves_key master file' -> forall db2 e2 io2, db_encryptor db2 = Some master ->
    verifyEncryptionKey db2 file' e2 io2 = (file', None)) as Hlater by eauto using verify_existing.
  destruct file as [| |raw]; unfold verifyEncryptionKey in E; rewrite ?Hm in E.
  - pose proof (writeKeyCheck_file master KeyFileMissing e io Hr) as Hw. cbv zeta in E.
    destruct (decide (0 < length (sampleStoredValues db keyCheckSamples))) as [Hl|Hl].
    + destruct (existsb _ _) eqn:Ex.
      * rewrite E in Hw. apply existsb_exists in Ex as (v & Hv & Hd%bool_decide_eq_true).
        apply list_elem_of_In in Hv. split_and!; [naive_solver| |done|].
        -- intros ->. naive_solver.
        -- intros _ _ Hall. rewrite (Hall v Hv) in Hd. by destruct Hd.
      * simplify_eq. split_and!; [by left|done|done|done].
    + rewrite E in Hw. destruct (sampleStoredValues db keyCheckSamples); [|simpl in Hl; lia].
      split_and!; [naive_solver| |done|done]. intros ->. naive_solver.
  - simplify_eq. split_and!; [by left|done|done|done].
  - simplify_eq. destruct (unmarshal_check raw) as [rec|] eqn:Hu.
    + case_decide as Hd; split_and!; [by left|intros _|..|by left|done|done|done]; [| |done].
      * assert (proves_key master (KeyFile raw)) by (by exists raw, rec). split_and!; auto. done.
      * intros _ Hn. destruct Hn. by exists raw, rec.
    + split_and!; [by left|done|done|done].
Qed.

(** ** The recovered tree *)

Lemma insert_all_wf d kvs d' : wf_index d -> insert_all d kvs = Some d' -> wf_index d'.
Proof.
  intros Hw E. destruct (insert_all_refines d (contents d) kvs) as (d2 & E2 & [Hw2 _]); [by split|].
  by simplify_eq.
Qed.

Lemma replayEntry_wf d entry d' : wf_index d -> replayEntry d entry = inr d' -> wf_index d'.
Proof.
  intros Hw. unfold replayEntry. cbv zeta.
  repeat case_decide; try destruct (Value entry ≫= unmarshal_map) as [[m|]|]; try done; try (by intros [= <-]);
    match goal with |- context [insert_all d ?kvs] => destruct (insert_all d kvs) as [d2|] eqn:E; [|done] end;
    intros [= <-]; by eapply insert_all_wf.
Qed.

Lemma recover_loop_wf f allowSkip : forall fuel offset st st',
  wf_index (rec_data st) -> recover_loop fuel f allowSkip offset st = inr st' -> wf_index (rec_data st').
Proof.
  induction fuel as [|fuel IH]; intros offset st st' Hw; [done|]. cbn [recover_loop].
  case_decide; [by intros [= <-]|]. destruct (readWALEntryAt f offset) as [reason|[entry size]].
  - destruct (findNextWALEntry _ _); [|by intros [= <-]]. destruct allowSkip; [|done]. by apply IH.
  - destruct (_ || _).
    + destruct (replayEntry (rec_data st) entry) as [?|d] eqn:E; [done|]. apply IH. simpl.
      by eapply replayEntry_wf.
    + destruct (findNextWALEntry _ _); [|by intros [= <-]]. destruct allowSkip; [|done]. by apply IH.
Qed.

Lemma open_engine_wf disk order enc allowSkip now io db :
  open_engine disk order enc allowSkip now io = inr db -> wf_index (db_data db).
Proof.
  unfold open_engine, recoverFromWAL. destruct (recover_loop _ _ _ _ _) as [?|st] eqn:E; [done|].
  destruct (rewriteLocked _ _ _) as [w [?|]]; [done|]. intros [= <-]. simpl.
  eapply recover_loop_wf; [|exact E]. apply emptyIndex_wf, effective_order_min.
Qed.

(** The samples are stored values, and there are some as soon as the store
    holds anything. *)
Lemma samples_stored db n v :
  wf_index (db_data db) -> v ∈ sampleStoredValues db n -> exists k, view db !! k = Some v.
Proof.
  intros Hw Hv. unfold sampleStoredValues in Hv. apply elem_of_take in Hv as (i & Hi & _).
  apply list_elem_of_lookup_2 in Hi. apply list_elem_of_fmap in Hi as ([k v'] & -> & Hin).
  exists k. rewrite btree_scan_all in Hin by done. by apply live_view.
Qed.

Lemma samples_empty db n :
  wf_index (db_data db) -> (0 < n) -> sampleStoredValues db n = [] -> view db = ∅.
Proof.
  intros Hw Hn E. unfold sampleStoredValues in E. rewrite btree_scan_all in E by done.
  apply map_empty. intros k. destruct (view db !! k) as [v|] eqn:Ev; [|done].
  apply live_view in Ev; [|done]. destruct n as [|n]; [lia|].
  destruct (omap live _); [by apply elem_of_nil in Ev|done].
Qed.

(** C10: a store opens only with its key. [NewEngine] returns an engine only
    if recovery succeeded and, with encryption, the key record beside the log
    opens under the given key afterwards. With a record the key does not open,
    or without a key where there is a record, it returns an error. A store
    from before the records (encrypted, no record) is adopted only if it is
    empty or the key decrypts one of its stored values: when the key decrypts
    none of them, an error is returned and no record is written. With the
    right key and a record the check never stands in the way of a store that
    recovers. *)
Theorem engine_opens_only_with_its_key disk order enc allowSkip now io file e kio file' r :
  rand_ok e -> new_engine disk order enc allowSkip now io file e kio = (file', r) ->
  (forall db, r = inr db ->
     open_engine disk order enc allowSkip now io = inr db /\ db_encryptor db = enc /\
     match enc with
     | None => file = KeyFileMissing
     | Some master => proves_key master file' /\
         (file = KeyFileMissing -> view db = ∅ \/
            exists k v, view db !! k = Some v /\ is_Some (decrypt master v))
     end) /\
  (match enc with None => file <> KeyFileMissing
                | Some master => file <> KeyFileMissing /\ ~ proves_key master file end ->
   exists err, r = inl err /\ file' = file) /\
  (forall master db, enc = Some master -> file = KeyFileMissing ->
     open_engine disk order enc allowSkip now io = inr db -> view db <> ∅ ->
     (forall k v, view db !! k = Some v -> decrypt master v = None) ->
     exists err, r = inl err /\ file' = KeyFileMissing) /\
  (forall master db, enc = Some master -> proves_key master file ->
     open_engine disk order enc allowSkip now io = inr db -> file' = file /\ r = inr db).
Proof.
  intros Hr E. unfold new_engine in E.
  destruct (open_engine disk order enc allowSkip now io) as [err|db] eqn:Eo.
  { injection E as <- <-. split_and!; [done|eauto|done|done]. }
  pose proof (open_engine_wf _ _ _ _ _ _ _ Eo) as Hw.
  assert (db_encryptor db = enc) as Ee.
  { unfold open_engine in Eo. destruct (recoverFromWAL _ _ _ _ _) as [?|[w st]]; [done|]. by injection Eo as <-. }
  destruct (verifyEncryptionKey db file e kio) as [file2 err] eqn:Ev.
  pose proof (verify_outcome db file e kio file2 err Hr Ev) as Ho. rewrite Ee in Ho.
  assert (file' = file2 /\ r = match err with Some x => inl (OpenKey x) | None => inr db end) as [-> ->]
    by (by destruct err; injection E as <- <-).
  destruct enc as [master|].
  - destruct Ho as (Hf & Hpass & Hrefuse & Hnone). split_and!.
    + intros db' Hdb. destruct err; [done|]. injection Hdb as <-. destruct (Hpass eq_refl) as (Hp & _ & Hs).
      split_and!; [done|done|done|]. intros Hm.
      destruct (decide (sampleStoredValues db keyCheckSamples = [])) as [En|Hn].
      * left. apply (samples_empty db keyCheckSamples); [done|unfold keyCheckSamples; lia|done].
      * right. destruct (Hs Hm Hn) as (v & Hv & Hd). destruct (samples_stored db _ v Hw Hv) as [k Hk]. eauto.
    + intros [H1 H2]. destruct (Hrefuse H1 H2) as [H3 ->]. destruct err; [eauto|done].
    + intros m db' [= <-] Hm [= <-] Hne Hall.
      destruct (Hnone Hm) as [H1 H2]; [..|destruct err; [eauto|done]].
      * intros En. destruct Hne. by apply (samples_empty db keyCheckSamples); [|unfold keyCheckSamples; lia|].
      * intros v Hv. destruct (samples_stored db _ v Hw Hv) as [k Hk]. by eapply Hall.
    + intros m db' [= <-] Hp [= <-]. rewrite (verify_existing db file e kio master Ee Hp) in Ev.
      by injection Ev as <- <-.
  - destruct Ho as [-> Hiff]. split_and!; [|intros Hne|done|done].
    + intros db' Hdb. destruct err; [done|]. injection Hdb as <-. split_and!; [done|done|]. by apply Hiff.
    + destruct err; [eauto|]. by destruct Hne; apply Hiff.
Qed.
End keycheck.

(** ** A concrete record *)

#[local] Instance sample_check_codec : KeyCheckCodec := {|
  marshal_check r := digits (countable.encode (Version r, Canary r));
  unmarshal_check b := p ← undigits b; '(v, c) ← (countable.decode p : option (Z * bytes));
                       Some (KeyCheckRecord v c);
|}.

#[local] Instance sample_check_codec_ok : KeyCheckCodecOk sample_check_codec.
Proof.
  constructor. intros [v c]. simpl. rewrite undigits_digits. simpl. by rewrite countable.decode_encode.
Qed.

Definition sample_kio : key_io := KeyIO true true true true true true.

(** A new encrypted store is created and opened again with another key. *)
Lemma engine_opens_only_with_its_key_witness :
  let open key file := new_engine [] 4 (Some key) false 1 sample_cio file sample_env sample_kio in
  exists err, (open [x08] (open [x09] KeyFileMissing).1).2 = inl err.
Proof.
  intros open. set (file := (open [x09] KeyFileMissing).1).
  destruct (engine_opens_only_with_its_key [] 4 (Some [x08]) false 1 sample_cio file sample_env sample_kio
    (open [x08] file).1 (open [x08] file).2) as (_ & H & _); [done|apply surjective_pairing|].
  destruct H as (err & H & _); [|by exists err]. split; [by vm_compute|].
  assert (match file with
          | KeyFile raw => match unmarshal_check raw with
                           | Some rec => bool_decide (decrypt [x08] (Canary rec) = Some keyCheckPlaintext)
                           | None => false
                           end
          | _ => false
          end = false) as Hno by (by vm_compute).
  intros (raw & rec & Ef & Hu & Hd). rewrite Ef, Hu, Hd in Hno. by rewrite bool_decide_eq_true_2 in Hno.
Defined.
