(* ===== verification/Index.v ===== *)
(** * The secondary indexes

    CobaltDB finds a soul, channel, incident, ... by its ID alone through maps
    it keeps in memory beside the tree. They are filled from the keys of the
    store, which have the form workspace/type/id: by a scan at start and after
    a restore ([rebuildIndexes], src/internal/storage/engine.go), and key by
    key for replicated writes ([updateIndexForSet] and [updateIndexForDelete],
    src/internal/storage/storage.go). Here: the two ways to parse a key agree
    on every key the system writes, and the indexes stay exact. *)
From stdpp Require Import base gmap strings list sorting countable.
From Stdlib Require Import ZArith Lia Strings.Byte.
From S2P Require Import Prelude Engine KeyValue.

(** ** Keys *)

Definition slash : Ascii.ascii := Ascii.ascii_of_nat 47.

(** [strings.SplitN(s, "/", 2)]: the parts around the first slash. *)
Fixpoint cut (s : string) : option (string * string) :=
  match s with
  | EmptyString => None
  | String a rest =>
      if decide (a = slash) then Some ("", rest)
      else '(x, y) ← cut rest; Some (String a x, y)
  end.

(** [strings.SplitN(s, "/", 3)] with all three parts. *)
Definition cut3 (s : string) : option (string * string * string) :=
  '(a, rest) ← cut s; '(b, c) ← cut rest; Some (a, b, c).

(** ** The indexes *)

Inductive IndexKind :=
| soulIndex | judgmentIndex | channelIndex | ruleIndex | journeyIndex | incidentIndex
| statusPageIndex | dashboardIndex | maintenanceIndex | alertEventIndex.

#[export] Instance IndexKind_eq_dec : EqDecision IndexKind.
Proof. solve_decision. Defined.

Definition kind_code (k : IndexKind) : nat :=
  match k with
  | soulIndex => 0 | judgmentIndex => 1 | channelIndex => 2 | ruleIndex => 3 | journeyIndex => 4
  | incidentIndex => 5 | statusPageIndex => 6 | dashboardIndex => 7 | maintenanceIndex => 8
  | alertEventIndex => 9
  end.

Definition kind_of_code (n : nat) : option IndexKind :=
  [soulIndex; judgmentIndex; channelIndex; ruleIndex; journeyIndex; incidentIndex; statusPageIndex;
   dashboardIndex; maintenanceIndex; alertEventIndex] !! n.

#[export] Instance IndexKind_countable : Countable IndexKind.
Proof. refine (inj_countable kind_code kind_of_code _). by intros []. Defined.

(** All ID maps in one, keyed by which map it is; and the workspaces. *)
Record indexes := Indexes {
  ids : gmap (IndexKind * string) string;
  workspaceIndex : gset string;
  workspaceOrder : list string;
}.

Definition no_indexes : indexes := Indexes ∅ ∅ [].

Definition recordWorkspaceLocked (ws : string) (x : indexes) : indexes :=
  if decide (ws = "") then x else
  if decide (ws ∈ workspaceIndex x) then x else
  Indexes (ids x) ({[ws]} ∪ workspaceIndex x) (workspaceOrder x ++ [ws]).

Definition set_id (e : option (IndexKind * string * string)) (x : indexes) : indexes :=
  match e with
  | Some (kind, id, v) => Indexes (<[(kind, id):=v]> (ids x)) (workspaceIndex x) (workspaceOrder x)
  | None => x
  end.

Definition drop_id (e : option (IndexKind * string * string)) (x : indexes) : indexes :=
  match e with
  | Some (kind, id, _) => Indexes (delete (kind, id) (ids x)) (workspaceIndex x) (workspaceOrder x)
  | None => x
  end.

(** *** Replicated writes *)

Definition indexedResource (resourceType resourceID : string) : string * string :=
  if decide (resourceType <> "alerts") then (resourceType, resourceID) else
  match cut resourceID with
  | None => (resourceType, resourceID)
  | Some (sub, rest) =>
      if decide (sub = "channels" \/ sub = "rules" \/ sub = "incidents") then (sub, rest) else
      if decide (sub = "events") then
        match cut3 rest with
        | Some (_, _, id) => ("events", id)
        | None => (resourceType, resourceID)
        end
      else (resourceType, resourceID)
  end.

(** The map a resource type belongs to. *)
Definition kind_of (resourceType resourceID : string) : option IndexKind :=
  if decide (resourceType = "judgment-idx") then Some judgmentIndex else
  if decide (resourceType = "events") then Some alertEventIndex else
  if decide (resourceType = "souls") then Some soulIndex else
  if decide (resourceType = "channels") then Some channelIndex else
  if decide (resourceType = "rules") then Some ruleIndex else
  if decide (resourceType = "journeys") then Some journeyIndex else
  if decide (resourceType = "incidents") then Some incidentIndex else
  if decide (resourceType = "statuspages") then
    if String.prefix "subscriptions/" resourceID then None else Some statusPageIndex
  else
  if decide (resourceType = "dashboards") then Some dashboardIndex else
  if decide (resourceType = "maintenance") then Some maintenanceIndex else None.

(** The index entry of a key: judgments map to the key, the rest to the
    workspace. *)
Definition entry_of (key : string) : option (IndexKind * string * string) :=
  '(ws, t, id) ← cut3 key;
  let '(t, id) := indexedResource t id in
  kind ← kind_of t id;
  Some (kind, id, if decide (kind = judgmentIndex) then key else ws).

Definition updateIndexForSet (key : string) (x : indexes) : indexes :=
  match cut3 key with
  | None => x
  | Some (ws, _, _) => set_id (entry_of key) (recordWorkspaceLocked ws x)
  end.

Definition updateIndexForDelete (key : string) (x : indexes) : indexes := drop_id (entry_of key) x.

(** *** The scan *)

(** The inner switch of [rebuildIndexes] for a key under alerts. *)
Definition rebuild_alert (ws resourceID : string) : option (IndexKind * string * string) :=
  let '(subType, subID) := default (resourceID, "") (cut resourceID) in
  if decide (subType = "channels") then Some (channelIndex, subID, ws) else
  if decide (subType = "rules") then Some (ruleIndex, subID, ws) else
  if decide (subType = "incidents") then Some (incidentIndex, subID, ws) else
  if decide (subType = "events") then
    if decide (subID <> "") then
      match cut3 subID with Some (_, _, id) => Some (alertEventIndex, id, ws) | None => None end
    else None
  else None.

Definition rebuild_entry (ws resourceType resourceID key : string) : option (IndexKind * string * string) :=
  if decide (resourceType = "souls") then Some (soulIndex, resourceID, ws) else
  if decide (resourceType = "judgment-idx") then Some (judgmentIndex, resourceID, key) else
  if decide (resourceType = "channels") then Some (channelIndex, resourceID, ws) else
  if decide (resourceType = "rules") then Some (ruleIndex, resourceID, ws) else
  if decide (resourceType = "journeys") then Some (journeyIndex, resourceID, ws) else
  if decide (resourceType = "alerts") then rebuild_alert ws resourceID else
  if decide (resourceType = "statuspages") then
    if String.prefix "subscriptions/" resourceID then None else Some (statusPageIndex, resourceID, ws)
  else
  if decide (resourceType = "dashboards") then Some (dashboardIndex, resourceID, ws) else
  if decide (resourceType = "maintenance") then Some (maintenanceIndex, resourceID, ws) else None.

Definition rebuild_key (x : indexes) (key : string) : indexes :=
  match cut key with
  | None => x
  | Some (ws, rest) =>
      let x := recordWorkspaceLocked ws x in
      match cut rest with
      | None => x
      | Some (t, id) => set_id (rebuild_entry ws t id key) x
      end
  end.

(** Over the keys in tree order. *)
Definition rebuildIndexes (keys : list string) : indexes := foldl rebuild_key no_indexes keys.

(** [GetSoulNoCtx] and its siblings up to the JSON: the stored value of the
    resource with an ID. [path] is the part of the key between workspace and
    ID. *)
Definition lookup_by_id {D} `{KeyValue D} (d : D) (x : indexes) (kind : IndexKind) (path id : string) :
    option (db_error + bytes) :=
  match ids x !! (kind, id) with
  | None => None
  | Some ws => Some (kv_get d (ws +:+ path +:+ id))
  end.

(** ** Parsing *)

Fixpoint no_slash (s : string) : Prop :=
  match s with EmptyString => True | String a rest => a <> slash /\ no_slash rest end.

Lemma cut_spec s a b : cut s = Some (a, b) <-> s = a +:+ String slash b /\ no_slash a.
Proof.
  revert a b. induction s as [|c s IH]; intros a b; simpl.
  { split; [done|]. intros [H _]. by destruct a. }
  case_decide as Hc; simpl.
  - subst c. split; [by intros [= <- <-]|]. intros [H Hn]. destruct a as [|c a]; simpl in H; [by injection H as <-|].
    injection H as <- _. by destruct Hn.
  - destruct (cut s) as [[x y]|] eqn:E; simpl.
    + destruct (proj1 (IH x y) eq_refl) as [-> Hx]. split.
      * intros [= <- <-]. simpl. done.
      * intros [H Hn]. destruct a as [|c' a]; simpl in H; [injection H as -> _; done|].
        injection H as <- H. destruct Hn as [_ Hn]. specialize (proj2 (IH a b) (conj H Hn)).
        intros [= <- <-]. done.
    + split; [done|]. intros [H Hn]. destruct a as [|c' a]; simpl in H; [injection H as -> _; done|].
      injection H as <- H. destruct Hn as [_ Hn]. specialize (proj2 (IH a b) (conj H Hn)). done.
Qed.

Lemma slash_inj a b x y :
  a +:+ String slash b = x +:+ String slash y -> no_slash a -> no_slash x -> a = x /\ b = y.
Proof.
  intros H Ha Hx. pose proof (proj2 (cut_spec _ a b) (conj eq_refl Ha)) as H1.
  pose proof (proj2 (cut_spec _ x y) (conj eq_refl Hx)) as H2. rewrite H in H1. split; congruence.
Qed.

Lemma cut3_spec s a b c :
  cut3 s = Some (a, b, c) <-> s = a +:+ String slash (b +:+ String slash c) /\ no_slash a /\ no_slash b.
Proof.
  unfold cut3. split.
  - destruct (cut s) as [[x y]|] eqn:E; [|done]. apply cut_spec in E as [-> Hx]. simpl.
    destruct (cut y) as [[u v]|] eqn:Ey; [|done]. apply cut_spec in Ey as [-> Hu]. by intros [= <- <- <-].
  - intros (-> & Ha & Hb). rewrite (proj2 (cut_spec _ a _) (conj eq_refl Ha)). simpl.
    by rewrite (proj2 (cut_spec _ b c) (conj eq_refl Hb)).
Qed.

(** The keys the system writes: event and incident records only under
    alerts, and no bare collection name there. *)
Definition layout (key : string) : Prop :=
  match cut3 key with
  | Some (_, t, id) => t <> "events" /\ t <> "incidents" /\ (t = "alerts" -> is_Some (cut id))
  | None => True
  end.

(** The scan and the replicated path index such a key alike. *)
Lemma rebuild_entry_agrees key ws t id :
  layout key -> cut3 key = Some (ws, t, id) -> rebuild_entry ws t id key = entry_of key.
Proof.
  unfold layout, entry_of. intros Hl E. rewrite E in *. destruct Hl as (H1 & H2 & H3). cbn [mbind option_bind].
  unfold rebuild_entry, indexedResource. destruct (decide (t = "alerts")) as [->|Ha].
  - destruct (H3 eq_refl) as [[sub rest] Es]. rewrite Es. cbn [default]. unfold rebuild_alert. rewrite Es. cbn.
    repeat case_decide; subst; try tauto; try (destruct (cut3 rest) as [[[? ?] ?]|] eqn:Er; done); try done.
  - rewrite (decide_True (P := t <> "alerts")) by done. unfold kind_of. cbn.
    repeat case_decide; subst; try done; destruct (String.prefix _ id); done.
Qed.

(** ** Exact indexes *)

Lemma ids_recordWorkspace ws x : ids (recordWorkspaceLocked ws x) = ids x.
Proof. unfold recordWorkspaceLocked. by repeat case_decide. Qed.

Lemma ids_set key x :
  ids (updateIndexForSet key x) = match entry_of key with
                                  | Some (kind, id, v) => <[(kind, id):=v]> (ids x)
                                  | None => ids x
                                  end.
Proof.
  unfold updateIndexForSet. destruct (cut3 key) as [[[ws t] id]|] eqn:E.
  - rewrite <- (ids_recordWorkspace ws x). by destruct (entry_of key) as [[[? ?] ?]|].
  - unfold entry_of. by rewrite E.
Qed.

Lemma ids_delete key x :
  ids (updateIndexForDelete key x) = match entry_of key with
                                     | Some (kind, id, v) => delete (kind, id) (ids x)
                                     | None => ids x
                                     end.
Proof. unfold updateIndexForDelete. by destruct (entry_of key) as [[[? ?] ?]|]. Qed.

(** The index entry of [key] is right: present exactly when the key is. *)
Definition indexed {A} (m : gmap string A) (x : indexes) (key : string) : Prop :=
  match entry_of key with
  | Some (kind, id, v) => ids x !! (kind, id) = ((fun _ => v) <$> m !! key)
  | None => True
  end.

(** Keys of different resources: they do not share an index entry. *)
Definition apart (k1 k2 : string) : Prop :=
  forall kind id v1 v2, entry_of k1 = Some (kind, id, v1) -> entry_of k2 = Some (kind, id, v2) -> k1 = k2.

Lemma indexed_set {A} (m : gmap string A) x key a : indexed (<[key:=a]> m) (updateIndexForSet key x) key.
Proof.
  unfold indexed. rewrite ids_set. destruct (entry_of key) as [[[kind id] v]|]; [|done].
  by rewrite !lookup_insert_eq.
Qed.

Lemma indexed_delete {A} (m : gmap string A) x key : indexed (delete key m) (updateIndexForDelete key x) key.
Proof.
  unfold indexed. rewrite ids_delete. destruct (entry_of key) as [[[kind id] v]|]; [|done].
  by rewrite !lookup_delete_eq.
Qed.

(** What happens to one key leaves the others alone. *)
Lemma indexed_other {A} (m m' : gmap string A) x x' key other :
  apart other key -> other <> key -> m' !! other = m !! other ->
  x' = updateIndexForSet key x \/ x' = updateIndexForDelete key x -> indexed m x other -> indexed m' x' other.
Proof.
  unfold indexed. intros Ha Hne Em Hx Hi. rewrite Em. destruct (entry_of other) as [[[kind id] v]|] eqn:Eo; [|done].
  rewrite <- Hi. destruct Hx as [->| ->]; rewrite ?ids_set, ?ids_delete;
    (destruct (entry_of key) as [[[kind' id'] v']|] eqn:Ek; [|done]);
    (assert ((kind', id') <> (kind, id)) by (intros [= -> ->]; by destruct Hne; eapply Ha));
    [by rewrite lookup_insert_ne|by rewrite lookup_delete_ne].
Qed.

(** ** The scan *)

Lemma ids_rebuild_key x key : layout key -> ids (rebuild_key x key) = ids (updateIndexForSet key x).
Proof.
  intros Hl. rewrite ids_set. unfold rebuild_key. destruct (cut3 key) as [[[ws t] id]|] eqn:E.
  - rewrite <- (rebuild_entry_agrees key ws t id Hl E). apply cut3_spec in E as (-> & Hw & Ht).
    rewrite (proj2 (cut_spec _ ws _) (conj eq_refl Hw)), (proj2 (cut_spec _ t id) (conj eq_refl Ht)).
    rewrite <- (ids_recordWorkspace ws x). by destruct (rebuild_entry _ _ _ _) as [[[? ?] ?]|].
  - unfold entry_of. rewrite E. cbn. unfold cut3 in E. destruct (cut key) as [[ws rest]|]; [|done].
    cbn in E. destruct (cut rest) as [[? ?]|]; [done|]. apply ids_recordWorkspace.
Qed.

(** The scan leaves the entries of exactly the keys it saw. *)
Lemma rebuild_ids keys : Forall layout keys -> (forall k1 k2, k1 ∈ keys -> k2 ∈ keys -> apart k1 k2) ->
  forall kind id v, ids (rebuildIndexes keys) !! (kind, id) = Some v <->
    exists key, key ∈ keys /\ entry_of key = Some (kind, id, v).
Proof.
  intros Hl Ha kind id v. unfold rebuildIndexes. induction keys as [|key keys IH] using rev_ind.
  { cbn. split; [done|]. by intros (? & ?%elem_of_nil & _). }
  apply Forall_app in Hl as [Hl Hk]. rewrite Forall_singleton in Hk.
  rewrite foldl_app. cbn [foldl]. rewrite ids_rebuild_key, ids_set by done.
  assert (ids (foldl rebuild_key no_indexes keys) !! (kind, id) = Some v <->
    exists k, k ∈ keys /\ entry_of k = Some (kind, id, v)) as Hi.
  { apply IH; [done|]. intros k1 k2 H1 H2. apply Ha; rewrite elem_of_app; auto. }
  destruct (entry_of key) as [[[kind' id'] v']|] eqn:Ek.
  - destruct (decide ((kind', id') = (kind, id))) as [E|Hne].
    + injection E as -> ->. rewrite lookup_insert_eq. split.
      * intros [= <-]. exists key. split; [|done]. rewrite elem_of_app, list_elem_of_singleton. by right.
      * intros (k & Hk' & E). assert (k = key) as ->; [|congruence].
        apply (Ha k key) with kind id v v'; [done| |done|done]. rewrite elem_of_app, list_elem_of_singleton. by right.
    + rewrite lookup_insert_ne by done. rewrite Hi. setoid_rewrite elem_of_app. setoid_rewrite list_elem_of_singleton.
      split; [naive_solver|]. intros (k & [Hk'| ->] & E); [eauto|congruence].
  - rewrite Hi. setoid_rewrite elem_of_app. setoid_rewrite list_elem_of_singleton.
    split; [naive_solver|]. intros (k & [Hk'| ->] & E); [eauto|congruence].
Qed.

(** ** Lookups by ID *)

(** Where a resource is stored below its workspace. *)
Definition path_of (kind : IndexKind) : option string :=
  match kind with
  | soulIndex => Some "/souls/" | journeyIndex => Some "/journeys/" | incidentIndex => Some "/alerts/incidents/"
  | statusPageIndex => Some "/statuspages/" | dashboardIndex => Some "/dashboards/"
  | maintenanceIndex => Some "/maintenance/"
  | _ => None
  end.

(** The key behind an index entry. *)
Lemma entry_key key kind id ws path :
  layout key -> path_of kind = Some path -> entry_of key = Some (kind, id, ws) -> key = ws +:+ path +:+ id.
Proof.
  unfold layout, entry_of. intros Hl Hp E. destruct (cut3 key) as [[[w t] i]|] eqn:Ec; [|done].
  destruct Hl as (H1 & H2 & _). cbn [mbind option_bind] in E. apply cut3_spec in Ec as (-> & _ & _).
  destruct (indexedResource t i) as [t' i'] eqn:Er. destruct (kind_of t' i') as [k|] eqn:Ek; [|done].
  cbn in E. injection E as <- <- E2.
  assert (w = ws) as -> by (case_decide; [by subst k|done]). clear E2.
  unfold indexedResource in Er. case_decide as Ha.
  - injection Er as <- <-. unfold kind_of in Ek.
    repeat case_decide; subst; simplify_eq/=; try done; destruct (String.prefix _ _); simplify_eq/=; done.
  - assert (t = "alerts") as -> by (destruct (decide (t = "alerts")); [done|by destruct Ha]).
    destruct (cut i) as [[sub rest]|] eqn:Es; [apply cut_spec in Es as [-> _]|injection Er as <- <-; done].
    case_decide as Hs; [injection Er as <- <-; destruct Hs as [->|[->| ->]]; vm_compute in Ek; injection Ek as <-;
      by simplify_eq/=|].
    case_decide as He; [|injection Er as <- <-; done].
    destruct (cut3 rest) as [[[? ?] ?]|]; injection Er as <- <-; vm_compute in Ek; by simplify_eq/=.
Qed.

Lemma prefix_cons a b p s : String.prefix (String a p) (String b s) = bool_decide (a = b) && String.prefix p s.
Proof.
  change (String.prefix (String a p) (String b s)) with
    (if Ascii.ascii_dec a b then String.prefix p s else false).
  destruct (Ascii.ascii_dec a b); [by rewrite bool_decide_true|by rewrite bool_decide_false].
Qed.

Lemma no_slash_prefix p s : no_slash s -> String.prefix (p +:+ String slash "") s = false.
Proof.
  revert s. induction p as [|a p IH]; intros [|b s] Hs; try done; destruct Hs as [Hb Hs].
  - change ("" +:+ String slash "") with (String slash ""). rewrite prefix_cons.
    by rewrite bool_decide_false by congruence.
  - change (String a p +:+ String slash "") with (String a (p +:+ String slash "")). rewrite prefix_cons.
    rewrite IH by done. apply andb_false_r.
Qed.

(** The index entry of a resource's key. *)
Lemma typed_entry ws id kind path :
  no_slash ws -> no_slash id -> path_of kind = Some path ->
  layout (ws +:+ path +:+ id) /\ entry_of (ws +:+ path +:+ id) = Some (kind, id, ws).
Proof.
  intros Hw Hi Hp.
  assert (exists t rest, cut3 (ws +:+ path +:+ id) = Some (ws, t, rest) /\
    (t <> "events" /\ t <> "incidents" /\ (t = "alerts" -> is_Some (cut rest))) /\
    indexedResource t rest = (if decide (kind = incidentIndex) then "incidents" else t, id) /\
    kind_of (if decide (kind = incidentIndex) then "incidents" else t) id = Some kind /\ kind <> judgmentIndex)
    as (t & rest & Ec & Hl & Er & Ek & Hj).
  { destruct kind; try done; injection Hp as <-.
    all: match goal with
         | |- context [incidentIndex = incidentIndex] => exists "alerts", ("incidents" +:+ String slash id)
         | |- context [soulIndex = _] => exists "souls", id
         | |- context [journeyIndex = _] => exists "journeys", id
         | |- context [statusPageIndex = _] => exists "statuspages", id
         | |- context [dashboardIndex = _] => exists "dashboards", id
         | |- context [maintenanceIndex = _] => exists "maintenance", id
         end.
    all: split; [apply cut3_spec; split_and!; [done|done|vm_compute; repeat (split; [done|]); done]|].
    all: try (split_and!; [by vm_compute..| ]; done).
    - split; [split_and!; [done|done|]|by split_and!]. intros _. by eexists.
    - split; [done|]. split; [done|]. split; [|done]. cbn. unfold kind_of. cbn.
      pose proof (no_slash_prefix "subscriptions" id Hi) as Hs. change ("subscriptions" +:+ String slash "") with
        "subscriptions/" in Hs. by rewrite Hs. }
  split; [unfold layout; by rewrite Ec|]. unfold entry_of. rewrite Ec. cbn [mbind option_bind].
  rewrite Er, Ek. cbn. by rewrite decide_False.
Qed.
