(* ===== verification/Membership.v ===== *)
(** * Cluster configurations

    Models the configuration arithmetic of src/internal/raft/membership.go:
    members with their roles, normalisation, the folding of membership
    entries over a configuration, and the voters a quorum is counted over.
    The theorems say that folding always yields a normal form, and that the
    majorities of two configurations one membership change apart intersect,
    which is what makes single-server changes safe. *)
From stdpp Require Import base gmap strings list sorting.
From Stdlib Require Import ZArith Lia.
From S2P Require Import Prelude.

(** ** Members *)

Abbreviation RaftRole := string (only parsing).
Definition RoleVoter : RaftRole := "voter".
Definition RoleNonVoter : RaftRole := "nonvoter".

Record RaftPeer := MkRaftPeer {
  ID : string;
  Address : string;
  Region : string;
  Role : RaftRole;
  NonVoter : bool;
}.

#[export] Instance RaftPeer_eq_dec : EqDecision RaftPeer.
Proof. solve_decision. Defined.

Inductive MembershipChangeType := MembershipAddPeer | MembershipRemovePeer | MembershipReplacePeer.
#[export] Instance MembershipChangeType_eq_dec : EqDecision MembershipChangeType.
Proof. solve_decision. Defined.

(** A [core.MembershipChange] with the [Members] of [membershipEntry]. *)
Record membershipEntry := MembershipEntry {
  m_Type : MembershipChangeType;
  m_Peer : RaftPeer;
  m_OldPeer : option RaftPeer;
  m_OldConfig : list string;
  m_NewConfig : list string;
  m_Phase : string;
  m_Members : list RaftPeer;
}.

Definition membershipPhaseSingle : string := "single".

Fixpoint memberPosition (members : list RaftPeer) (id : string) : option nat :=
  match members with
  | [] => None
  | m :: rest => if decide (ID m = id) then Some 0 else S <$> memberPosition rest id
  end.

Definition configurationIDs (members : list RaftPeer) : list string := map ID members.

(** The loop of [normalizeMembers]: the members kept, in order, and the
    duplicated IDs. *)
Fixpoint normalize_loop (members : list RaftPeer) (seen : gset string)
    (out : list RaftPeer) (dups : list string) : list RaftPeer * list string :=
  match members with
  | [] => (out, dups)
  | m :: rest =>
      if decide (ID m = "") then normalize_loop rest seen out dups
      else if decide (ID m ∈ seen) then normalize_loop rest seen out (dups ++ [ID m])
      else
        let m' := if decide (Role m = "")
                  then MkRaftPeer (ID m) (Address m) (Region m) RoleVoter (NonVoter m) else m in
        normalize_loop rest ({[ID m]} ∪ seen) (out ++ [m']) dups
  end.

Definition id_le (a b : RaftPeer) : Prop := String.le (ID a) (ID b).

#[export] Instance id_le_dec : RelDecision id_le.
Proof. intros a b. unfold id_le. apply _. Defined.

Definition normalizeMembers (members : list RaftPeer) : list RaftPeer * list string :=
  let '(out, dups) := normalize_loop members ∅ [] [] in
  (merge_sort id_le out, dups).

(** [remove]: cut the first member with this ID out. *)
Definition remove_member (out : list RaftPeer) (id : string) : list RaftPeer :=
  match memberPosition out id with
  | Some i => take i out ++ drop (i + 1) out
  | None => out
  end.

Definition foldMembership (cur : list RaftPeer) (e : membershipEntry) : list RaftPeer :=
  if decide (0 < length (m_Members e)) then (normalizeMembers (m_Members e)).1 else
  let out :=
    match m_Type e with
    | MembershipAddPeer => remove_member cur (ID (m_Peer e)) ++ [m_Peer e]
    | MembershipRemovePeer => remove_member cur (ID (m_Peer e))
    | MembershipReplacePeer =>
        let out := match m_OldPeer e with Some old => remove_member cur (ID old) | None => cur end in
        remove_member out (ID (m_Peer e)) ++ [m_Peer e]
    end in
  (normalizeMembers out).1.

Definition firstNonEmptyString (a b : string) : string := if decide (a = "") then b else a.

Definition initialMembers (nodeID advertiseAddr bindAddr region : string)
    (configured : list RaftPeer) : list RaftPeer :=
  let self := MkRaftPeer nodeID (firstNonEmptyString advertiseAddr bindAddr) region RoleVoter false in
  (normalizeMembers (self :: filter (fun p => ID p <> nodeID) configured)).1.

(** The voters of a configuration. *)
Definition is_voter (m : RaftPeer) : bool := negb (bool_decide (Role m = RoleNonVoter)).

Definition voters (c : list RaftPeer) : gset string :=
  list_to_set (map ID (filter (fun m => is_voter m = true) c)).

(** ** Normal form *)

Record normal (c : list RaftPeer) : Prop := {
  nm_sorted : StronglySorted str_lt (map ID c);
  nm_ids : Forall (fun m => ID m <> "" /\ Role m <> "") c;
}.

Lemma elem_of_ids (c : list RaftPeer) id : id ∈ map ID c <-> exists m, m ∈ c /\ ID m = id.
Proof. rewrite list_elem_of_fmap. naive_solver. Qed.

Lemma normalize_loop_spec members seen out dups :
  let r := normalize_loop members seen out dups in
  NoDup (map ID out) -> (forall m, m ∈ out -> ID m ∈ seen) ->
  Forall (fun m => ID m <> "" /\ Role m <> "") out ->
  NoDup (map ID r.1) /\ Forall (fun m => ID m <> "" /\ Role m <> "") r.1 /\
  exists add, r.1 = out ++ add /\
    forall id, id ∈ map ID add <-> id ∈ map ID members /\ id <> "" /\ id ∉ seen.
Proof.
  revert seen out dups. induction members as [|m rest IH]; intros seen out dups r Hn Hs Hf; subst r.
  { simpl. split; [done|]. split; [done|]. exists []. rewrite app_nil_r. split; [done|]. set_solver. }
  cbn [normalize_loop]. case_decide as Hid; [|case_decide as Hin].
  - destruct (IH seen out dups Hn Hs Hf) as (H1 & H2 & add & E & H3). split; [done|]. split; [done|].
    exists add. split; [done|]. intros id. rewrite H3. cbn [map]. rewrite elem_of_cons. naive_solver.
  - destruct (IH seen out (dups ++ [ID m]) Hn Hs Hf) as (H1 & H2 & add & E & H3). split; [done|]. split; [done|].
    exists add. split; [done|]. intros id. rewrite H3. cbn [map]. rewrite elem_of_cons. naive_solver.
  - set (m' := if decide (Role m = "") then _ else m).
    assert (ID m' = ID m /\ Role m' <> "") as [Em Hr] by (subst m'; by case_decide).
    destruct (IH ({[ID m]} ∪ seen) (out ++ [m']) dups) as (H1 & H2 & add & E & H3).
    + rewrite map_app. apply NoDup_app. split_and!; [done| |apply NoDup_singleton].
      intros id (x & Hx & <-)%elem_of_ids. cbn [map]. rewrite list_elem_of_singleton, Em.
      intros Heq. apply Hin. rewrite <- Heq. by apply Hs.
    + intros x [Hx| ->%list_elem_of_singleton]%elem_of_app; [set_solver|]. rewrite Em. set_solver.
    + apply Forall_app. split; [done|]. constructor; [|done]. by rewrite Em.
    + split; [done|]. split; [done|]. exists (m' :: add). split; [by rewrite E, <- app_assoc|].
      intros id. cbn [map]. rewrite !elem_of_cons, Em, H3.
      rewrite not_elem_of_union, not_elem_of_singleton. destruct (decide (id = ID m)); naive_solver.
Qed.

Lemma le_sorted_strict (l : list RaftPeer) :
  Sorted id_le l -> NoDup (map ID l) -> StronglySorted str_lt (map ID l).
Proof.
  intros Hs%Sorted_StronglySorted Hn; [|intros a b c; unfold id_le; apply transitivity].
  induction Hs as [|x l Hs IH Hall]; [constructor|]. cbn [map] in *.
  apply NoDup_cons in Hn as [Hx Hn]. constructor; [by apply IH|].
  apply Forall_map. rewrite Forall_forall in *. intros y Hy.
  destruct (str_lt_trichotomy (ID x) (ID y)) as [H|[H|H]]; [done| |].
  - exfalso. apply Hx, elem_of_ids. by exists y.
  - specialize (Hall y Hy). apply Is_true_true, str_leb_le in Hall. done.
Qed.

Lemma normalizeMembers_spec members :
  normal (normalizeMembers members).1 /\
  forall id, id ∈ map ID (normalizeMembers members).1 <-> id ∈ map ID members /\ id <> "".
Proof.
  unfold normalizeMembers.
  destruct (normalize_loop_spec members ∅ [] []) as (Hn & Hf & add & E & Hadd);
    [constructor|set_solver|constructor|].
  destruct (normalize_loop members ∅ [] []) as [out dups]. simpl in *. subst out.
  pose proof (merge_sort_Permutation id_le add) as HP. split; [constructor|].
  - apply le_sorted_strict; [apply Sorted_merge_sort; intros x y; apply (total String.le)|].
    change (NoDup (ID <$> merge_sort id_le add)). by rewrite HP.
  - by rewrite HP.
  - intros id. change (id ∈ ID <$> merge_sort id_le add <-> id ∈ map ID members /\ id <> "").
    rewrite HP. change (ID <$> add) with (map ID add). rewrite Hadd. set_solver.
Qed.

(** On members that are already distinct and complete, normalising only
    sorts. *)
Lemma normalize_distinct members :
  NoDup (map ID members) -> Forall (fun m => ID m <> "" /\ Role m <> "") members ->
  (normalizeMembers members).1 ≡ₚ members.
Proof.
  intros Hn Hf. unfold normalizeMembers.
  assert (forall seen out, (forall m, m ∈ members -> ID m ∉ seen) ->
    normalize_loop members seen out [] = (out ++ members, [])) as H.
  { induction Hf as [|m rest [Hid Hr] Hf IH]; intros seen out Hs; simpl; [by rewrite app_nil_r|].
    cbn [map] in Hn. apply NoDup_cons in Hn as [Hm Hn].
    rewrite decide_False by done. rewrite decide_False by (apply Hs; by left).
    rewrite decide_False by done. rewrite IH; [by rewrite <- app_assoc|done|].
    intros x Hx. rewrite not_elem_of_union, not_elem_of_singleton. split; [|apply Hs; by right].
    intros E. apply Hm, elem_of_ids. by exists x. }
  rewrite H by set_solver. simpl. apply merge_sort_Permutation.
Qed.

Lemma voters_perm c1 c2 : c1 ≡ₚ c2 -> voters c1 = voters c2.
Proof.
  intros HP. unfold voters. apply leibniz_equiv, list_to_set_perm.
  apply Permutation_map. by rewrite HP.
Qed.

Lemma elem_of_voters c id : id ∈ voters c <-> exists m, m ∈ c /\ is_voter m = true /\ ID m = id.
Proof.
  unfold voters. rewrite elem_of_list_to_set, elem_of_ids.
  setoid_rewrite list_elem_of_filter. naive_solver.
Qed.

Lemma memberPosition_spec members id :
  match memberPosition members id with
  | Some i => exists m, members !! i = Some m /\ ID m = id
  | None => id ∉ map ID members
  end.
Proof.
  induction members as [|m rest IH]; simpl; [set_solver|].
  case_decide as Hm; [by exists m|]. destruct (memberPosition rest id) as [i|]; simpl; [done|].
  rewrite not_elem_of_cons. auto.
Qed.

(** Removing a member of a configuration without duplicates. *)
Lemma elem_of_remove_member cur id m :
  NoDup (map ID cur) -> m ∈ remove_member cur id <-> m ∈ cur /\ ID m <> id.
Proof.
  intros Hn. unfold remove_member. pose proof (memberPosition_spec cur id) as Hp.
  destruct (memberPosition cur id) as [i|].
  - destruct Hp as (x & Hi & Hx). rewrite <- (take_drop_middle cur i x Hi) in Hn |- * at 3.
    rewrite Nat.add_1_r. rewrite map_app in Hn. cbn [map] in Hn.
    apply NoDup_app in Hn as (_ & Hd & [Hni _]%NoDup_cons).
    rewrite !elem_of_app, elem_of_cons. split.
    + intros [H|H]; (split; [by auto|]); intros E.
      * apply (Hd id); [apply elem_of_ids; by exists m|rewrite Hx; by left].
      * apply Hni, elem_of_ids. exists m. by rewrite Hx.
    + intros [[H|[->|H]] Hne]; auto. done.
  - split; [|by intros [? _]]. intros Hm. split; [done|]. intros E. apply Hp, elem_of_ids. by exists m.
Qed.

Lemma remove_member_NoDup cur id : NoDup (map ID cur) -> NoDup (map ID (remove_member cur id)).
Proof.
  intros Hn. unfold remove_member. destruct (memberPosition cur id) as [i|]; [|done].
  eapply (sublist_NoDup _ _ Hn), (fmap_sublist ID). rewrite <- (take_drop i cur) at 3.
  apply sublist_app; [done|]. rewrite <- drop_drop. apply sublist_drop.
Qed.

Lemma normal_NoDup c : normal c -> NoDup (map ID c).
Proof.
  intros [Hs _]. by apply str_sorted_NoDup.
Qed.

(** ** Overlapping majorities *)

Definition majority (q vs : gset string) : Prop := q ⊆ vs /\ size vs < 2 * size q.

Lemma majorities_meet (vs1 vs2 q1 q2 : gset string) x :
  vs1 ⊆ vs2 ∪ {[x]} -> vs2 ⊆ vs1 ∪ {[x]} -> majority q1 vs1 -> majority q2 vs2 ->
  exists id, id ∈ q1 /\ id ∈ q2.
Proof.
  intros H12 H21 [Hq1 Hs1] [Hq2 Hs2].
  destruct (set_choose_or_empty (q1 ∩ q2)) as [[id Hid]|He]; [exists id; set_solver|].
  exfalso. assert (size (q1 ∪ q2) = size q1 + size q2) as Hsz by (apply size_union; set_solver).
  destruct (decide (x ∈ vs1)) as [Hx|Hx].
  - assert (size (q1 ∪ q2) <= size vs1) by (apply subseteq_size; set_solver).
    assert (size vs1 <= size vs2 + 1) as Hle.
    { etransitivity; [apply (subseteq_size _ _ H12)|]. rewrite size_union_alt.
      pose proof (subseteq_size ({[x]} ∖ vs2) {[x]} ltac:(set_solver)) as Hd.
      rewrite size_singleton in Hd. lia. }
    lia.
  - assert (size (q1 ∪ q2) <= size vs2) by (apply subseteq_size; set_solver).
    assert (size vs2 <= size vs1 + 1) as Hle.
    { etransitivity; [apply (subseteq_size _ _ H21)|]. rewrite size_union_alt.
      pose proof (subseteq_size ({[x]} ∖ vs1) {[x]} ltac:(set_solver)) as Hd.
      rewrite size_singleton in Hd. lia. }
    lia.
Qed.

(** A change that [AddPeer] or [RemovePeer] proposes. *)
Definition single_change (e : membershipEntry) : Prop :=
  m_Members e = [] /\
  match m_Type e with
  | MembershipAddPeer => ID (m_Peer e) <> "" /\ Role (m_Peer e) <> ""
  | MembershipRemovePeer => True
  | MembershipReplacePeer => False
  end.

Lemma fold_single cur e :
  normal cur -> single_change e -> exists out,
    foldMembership cur e = (normalizeMembers out).1 /\ (normalizeMembers out).1 ≡ₚ out /\
    forall m, m ∈ out <->
      match m_Type e with
      | MembershipAddPeer => (m ∈ cur /\ ID m <> ID (m_Peer e)) \/ m = m_Peer e
      | _ => m ∈ cur /\ ID m <> ID (m_Peer e)
      end.
Proof.
  intros Hc [Hm Hch]. pose proof (normal_NoDup _ Hc) as Hn.
  unfold foldMembership. rewrite Hm, decide_False by (simpl; lia).
  assert (Forall (fun m => ID m <> "" /\ Role m <> "") (remove_member cur (ID (m_Peer e)))) as Hf.
  { apply Forall_forall. intros m [Hx _]%elem_of_remove_member; [|done].
    destruct Hc as [_ Hids]. rewrite Forall_forall in Hids. by apply Hids. }
  destruct (m_Type e); [| |done]; eexists; (split; [reflexivity|]); split.
  - destruct Hch as [H1 H2]. apply normalize_distinct.
    + rewrite map_app. apply NoDup_app. split_and!;
        [by apply remove_member_NoDup| |apply NoDup_singleton].
      intros id (m & Hx & <-)%elem_of_ids. cbn [map]. rewrite list_elem_of_singleton. intros E.
      apply elem_of_remove_member in Hx as [_ Hx]; done.
    + apply Forall_app. split; [done|]. by constructor.
  - intros m. by rewrite elem_of_app, list_elem_of_singleton, elem_of_remove_member by done.
  - apply normalize_distinct; [by apply remove_member_NoDup|done].
  - intros m. by apply elem_of_remove_member.
Qed.

Lemma voters_single cur e :
  normal cur -> single_change e ->
  voters (foldMembership cur e) ⊆ voters cur ∪ {[ID (m_Peer e)]} /\
  voters cur ⊆ voters (foldMembership cur e) ∪ {[ID (m_Peer e)]}.
Proof.
  intros Hc Hs. destruct (fold_single cur e Hc Hs) as (out & -> & HP & Hin).
  rewrite (voters_perm _ _ HP). destruct Hs as [_ Hch].
  split; intros id; rewrite elem_of_union, elem_of_singleton, !elem_of_voters.
  - intros (m & Hm & Hv & <-). apply Hin in Hm. destruct (m_Type e); [|..|done].
    + destruct Hm as [[Hm _]| ->]; [left; by exists m|by right].
    + left. exists m. naive_solver.
  - intros (m & Hm & Hv & <-). destruct (decide (ID m = ID (m_Peer e))) as [E|E]; [by right|left].
    exists m. split; [|done]. apply Hin. destruct (m_Type e); naive_solver.
Qed.

(** ** Properties *)

(** Whatever membership entry is folded over whatever configuration, the
    result is in normal form: members sorted by ID, no ID twice, none empty,
    every member with a role. So no node is ever counted twice in a quorum. *)
Theorem foldMembership_normal cur e : normal (foldMembership cur e).
Proof. unfold foldMembership. case_decide; apply normalizeMembers_spec. Qed.

(** Single-server changes are safe. After a change that adds or removes
    one member, any majority of the voters of the new configuration shares a
    voter with any majority of the old one, so both cannot elect a leader or
    commit an entry independently. *)
Lemma membership_quorums_overlap cur e q1 q2 :
  normal cur -> single_change e ->
  majority q1 (voters cur) -> majority q2 (voters (foldMembership cur e)) ->
  exists id, id ∈ q1 /\ id ∈ q2.
Proof.
  intros Hc Hs H1 H2. destruct (voters_single cur e Hc Hs) as [Ha Hb].
  by apply (majorities_meet (voters cur) (voters (foldMembership cur e)) q1 q2 (ID (m_Peer e))).
Qed.

Definition sample_peer (id : string) : RaftPeer := MkRaftPeer id "" "" RoleVoter false.

Lemma membership_quorums_overlap_witness :
  let cur := map sample_peer ["a"; "b"; "c"] in
  let e := MembershipEntry MembershipAddPeer (sample_peer "d") None [] [] "" [] in
  exists id, id ∈ ({["a"; "b"]} : gset string) /\ id ∈ ({["b"; "c"; "d"]} : gset string).
Proof.
  intros cur e.
  apply (membership_quorums_overlap cur e).
  - constructor; [|by repeat constructor]. by repeat constructor.
  - split; [done|]. by split.
  - split; [|by vm_compute; lia]. by apply (bool_decide_unpack _).
  - split; [|by vm_compute; lia]. by apply (bool_decide_unpack _).
Defined.
