(* ===== verification/Raft.v ===== *)
(** * A Raft node

    Models [Node] of src/internal/raft/node.go and quorum.go: its log with a
    compaction base, the persisted hard state, and the RPC handlers and leader
    operations as functions of the node state. Every write to the log store or
    the stable store has its outcome as an argument, so each error branch and
    its rollback is a branch of the definition. Times are nanoseconds; log
    messages, statistics counters, the transport's address book and the
    election timer channel are left out. *)
From stdpp Require Import base gmap strings list sorting.
From Stdlib Require Import ZArith Lia Strings.Byte.
From S2P Require Import Prelude Membership.

(** ** Data *)

Inductive RaftState := StateFollower | StateCandidate | StateLeader.
#[export] Instance RaftState_eq_dec : EqDecision RaftState.
Proof. solve_decision. Defined.

Inductive LogEntryType := LogCommand | LogNoOp | LogConfiguration | LogMembershipChange.
#[export] Instance LogEntryType_eq_dec : EqDecision LogEntryType.
Proof. solve_decision. Defined.

Record RaftLogEntry := MkEntry {
  Index : Z;
  Term : Z;
  Type_ : LogEntryType;
  Data : bytes;
}.
#[export] Instance RaftLogEntry_eq_dec : EqDecision RaftLogEntry.
Proof. solve_decision. Defined.

(** The entry at the base of the log, [{Index: i, Term: t}]. *)
Definition base_entry (i t : Z) : RaftLogEntry := MkEntry i t LogCommand [].

Record hardState := HardState {
  hs_CurrentTerm : Z;
  hs_VotedFor : string;
  hs_CommitIndex : Z;
  hs_LastApplied : Z;
  hs_LogBase : Z;
  hs_LogBaseTerm : Z;
}.

Record Peer := MkPeer {
  p_ID : string;
  p_Address : string;
  p_Region : string;
  p_Role : RaftRole;
  p_nextIndex : Z;
  p_matchIndex : Z;
  p_leaving : bool;
  p_ackTerm : Z;
  p_ackSentAt : Z;
}.

Inductive apply_error :=
| ErrNotLeader (leader : string)
| ErrLeadershipLost
| ErrPersistCommand
| ErrApply (retryable : bool).

Record snapshotInstall := SnapshotInstall {
  si_index : Z;
  si_term : Z;
  si_data : bytes;
}.

Record Node := MkNode {
  nodeID : string;
  electionTimeout : Z;
  trailingLogs : Z;
  maxAppendEntries : Z;
  state : RaftState;
  currentTerm : Z;
  votedFor : string;
  log : list RaftLogEntry;
  logBase : Z;
  logBaseTerm : Z;
  commitIndex : Z;
  lastApplied : Z;
  appliedDirty : bool;
  tableScopeFloor : Z;
  restoring : bool;
  nextIndex : gmap string Z;
  matchIndex : gmap string Z;
  peers : gmap string Peer;
  membershipBase : list RaftPeer;
  membershipLatest : list RaftPeer;
  membershipLatestIndex : Z;
  selfNonVoter : bool;
  selfAbsent : bool;
  leaderNoopIndex : Z;
  leaderSince : Z;
  catchUpTarget : Z;
  leaderID : string;
  lastContact : Z;
  lastSnapshotIndex : Z;
  incomingSnapshot : option snapshotInstall;
  applyWaiters : gmap Z Z; (* proposals waiting, index -> term *)
  resolved : list (Z * option apply_error); (* proposals answered, newest last *)
  removed : bool;
  awaitingJoin : bool;
  storage : option (gmap Z RaftLogEntry); (* the log store; [None] is a nil interface *)
  stable : option (option hardState); (* the stable store and the hard state in it *)
}.

(** Assignments to one field. *)
Definition eta_node (n : Node) : Node :=
  MkNode (nodeID n) (electionTimeout n) (trailingLogs n) (maxAppendEntries n) (state n)
    (currentTerm n) (votedFor n) (log n) (logBase n) (logBaseTerm n) (commitIndex n)
    (lastApplied n) (appliedDirty n) (tableScopeFloor n) (restoring n) (nextIndex n)
    (matchIndex n) (peers n) (membershipBase n) (membershipLatest n) (membershipLatestIndex n)
    (selfNonVoter n) (selfAbsent n) (leaderNoopIndex n) (leaderSince n) (catchUpTarget n)
    (leaderID n) (lastContact n) (lastSnapshotIndex n) (incomingSnapshot n) (applyWaiters n)
    (resolved n) (removed n) (awaitingJoin n) (storage n) (stable n).

Ltac update_field f :=
  let T := type of f in
  match T with
  | ?R -> ?A =>
      exact (fun (v : A) (n : R) => ltac:(
        let e := eval cbv beta delta [eta_node] in (eta_node n) in
        match eval pattern (f n) in e with
        | ?g _ => let t := eval cbv beta in (g v) in exact t
        end))
  end.

Definition set_state : RaftState -> Node -> Node := ltac:(update_field state).
Definition set_currentTerm : Z -> Node -> Node := ltac:(update_field currentTerm).
Definition set_votedFor : string -> Node -> Node := ltac:(update_field votedFor).
Definition set_log : list RaftLogEntry -> Node -> Node := ltac:(update_field log).
Definition set_logBase : Z -> Node -> Node := ltac:(update_field logBase).
Definition set_logBaseTerm : Z -> Node -> Node := ltac:(update_field logBaseTerm).
Definition set_commitIndex : Z -> Node -> Node := ltac:(update_field commitIndex).
Definition set_lastApplied : Z -> Node -> Node := ltac:(update_field lastApplied).
Definition set_appliedDirty : bool -> Node -> Node := ltac:(update_field appliedDirty).
Definition set_tableScopeFloor : Z -> Node -> Node := ltac:(update_field tableScopeFloor).
Definition set_restoring : bool -> Node -> Node := ltac:(update_field restoring).
Definition set_nextIndex : gmap string Z -> Node -> Node := ltac:(update_field nextIndex).
Definition set_matchIndex : gmap string Z -> Node -> Node := ltac:(update_field matchIndex).
Definition set_peers : gmap string Peer -> Node -> Node := ltac:(update_field peers).
Definition set_membershipBase : list RaftPeer -> Node -> Node := ltac:(update_field membershipBase).
Definition set_membershipLatest : list RaftPeer -> Node -> Node := ltac:(update_field membershipLatest).
Definition set_membershipLatestIndex : Z -> Node -> Node := ltac:(update_field membershipLatestIndex).
Definition set_selfNonVoter : bool -> Node -> Node := ltac:(update_field selfNonVoter).
Definition set_selfAbsent : bool -> Node -> Node := ltac:(update_field selfAbsent).
Definition set_leaderNoopIndex : Z -> Node -> Node := ltac:(update_field leaderNoopIndex).
Definition set_leaderSince : Z -> Node -> Node := ltac:(update_field leaderSince).
Definition set_catchUpTarget : Z -> Node -> Node := ltac:(update_field catchUpTarget).
Definition set_leaderID : string -> Node -> Node := ltac:(update_field leaderID).
Definition set_lastContact : Z -> Node -> Node := ltac:(update_field lastContact).
Definition set_lastSnapshotIndex : Z -> Node -> Node := ltac:(update_field lastSnapshotIndex).
Definition set_incomingSnapshot : option snapshotInstall -> Node -> Node := ltac:(update_field incomingSnapshot).
Definition set_applyWaiters : gmap Z Z -> Node -> Node := ltac:(update_field applyWaiters).
Definition set_resolved : list (Z * option apply_error) -> Node -> Node := ltac:(update_field resolved).
Definition set_removed : bool -> Node -> Node := ltac:(update_field removed).
Definition set_storage : option (gmap Z RaftLogEntry) -> Node -> Node := ltac:(update_field storage).
Definition set_stable : option (option hardState) -> Node -> Node := ltac:(update_field stable).

(** ** Requests and responses *)

Record AppendEntriesRequest := AppendEntries {
  ae_Term : Z;
  ae_LeaderID : string;
  ae_PrevLogIndex : Z;
  ae_PrevLogTerm : Z;
  ae_Entries : list RaftLogEntry;
  ae_LeaderCommit : Z;
}.

Record AppendEntriesResponse := AppendReply {
  ar_Term : Z;
  ar_Success : bool;
  ar_MatchIndex : Z;
  ar_ConflictIndex : Z;
  ar_ConflictTerm : Z;
}.

(** [RequestVoteRequest] and [PreVoteRequest] carry the same fields. *)
Record RequestVoteRequest := RequestVote {
  rv_Term : Z;
  rv_CandidateID : string;
  rv_LastLogIndex : Z;
  rv_LastLogTerm : Z;
}.

Record RequestVoteResponse := VoteReply {
  vr_Term : Z;
  vr_VoteGranted : bool;
}.

Record HeartbeatRequest := Heartbeat {
  hb_Term : Z;
  hb_LeaderID : string;
}.

Record HeartbeatResponse := HeartbeatReply {
  hr_Term : Z;
  hr_IsLeader : bool;
  hr_LeaderID : string;
}.

Record InstallSnapshotRequest := InstallSnapshot {
  is_Term : Z;
  is_LeaderID : string;
  is_LastIncludedIndex : Z;
  is_LastIncludedTerm : Z;
  is_Offset : Z;
  is_Data : bytes;
  is_Done : bool;
  is_Configuration : list RaftPeer;
}.

Record InstallSnapshotResponse := InstallReply {
  ir_Term : Z;
  ir_Success : bool;
}.

(** ** Outcomes of storage calls *)

(** A hard-state write. A write that reports an error may still be found on
    disk after a restart. *)
Inductive persist_io := PersistOk | PersistFailed (written : bool).

(** A log write: on an error some first entries may have been written. *)
Inductive store_io := StoreOk | StoreFailed (written : nat).

(** A range deletion: on an error the indexes below [k] are gone. *)
Inductive delete_io := DeleteOk | DeleteFailed (k : Z).

(** ** The log *)

Definition lastLogIndexLocked (n : Node) : Z :=
  match last (log n) with None => logBase n | Some e => Index e end.

Definition logPosition (n : Node) (index : Z) : option nat :=
  if decide (index < logBase n)%Z then None else
  let pos := (index - logBase n)%Z in
  if decide (Z.of_nat (length (log n)) <= pos)%Z then None else Some (Z.to_nat pos).

Definition logEntry (n : Node) (index : Z) : option RaftLogEntry :=
  pos ← logPosition n index; log n !! pos.

Definition getLogTerm (n : Node) (index : Z) : Z :=
  if decide (index = logBase n) then logBaseTerm n else
  match logEntry n index with None => 0 | Some e => Term e end.

Definition getEntriesAfter (n : Node) (start maxCount : Z) : list RaftLogEntry :=
  if decide (maxCount <= 0)%Z then [] else
  let start := if decide (start <= logBase n)%Z then u64 (logBase n + 1) else start in
  match logPosition n start with
  | None => []
  | Some pos => take (Z.to_nat maxCount) (drop pos (log n))
  end.

Definition store_entries (st : gmap Z RaftLogEntry) (es : list RaftLogEntry) : gmap Z RaftLogEntry :=
  foldl (fun st e => <[Index e:=e]> st) st es.

Definition StoreLogs (n : Node) (es : list RaftLogEntry) (io : store_io) : Node * bool :=
  match storage n with
  | None => (n, true)
  | Some st =>
      match io with
      | StoreOk => (set_storage (Some (store_entries st es)) n, true)
      | StoreFailed k => (set_storage (Some (store_entries st (take k es))) n, false)
      end
  end.

Definition delete_range (st : gmap Z RaftLogEntry) (lo hi : Z) : gmap Z RaftLogEntry :=
  filter (fun p => ~ (lo <= p.1 <= hi)%Z) st.

Definition DeleteRange (n : Node) (lo hi : Z) (io : delete_io) : Node * bool :=
  match storage n with
  | None => (n, true)
  | Some st =>
      match io with
      | DeleteOk => (set_storage (Some (delete_range st lo hi)) n, true)
      | DeleteFailed k => (set_storage (Some (delete_range st lo (Z.min hi (k - 1)))) n, false)
      end
  end.

Definition appendEntry (n : Node) (entry : RaftLogEntry) (io : store_io) : Node * bool :=
  let entry := MkEntry (u64 (lastLogIndexLocked n + 1)) (Term entry) (Type_ entry) (Data entry) in
  match StoreLogs n [entry] io with
  | (n, false) => (n, false)
  | (n, true) => (set_log (log n ++ [entry]) n, true)
  end.

(** ** Hard state *)

Definition hard_of (n : Node) : hardState :=
  HardState (currentTerm n) (votedFor n) (commitIndex n) (lastApplied n) (logBase n) (logBaseTerm n).

Definition persistHardStateLocked (n : Node) (io : persist_io) : Node * bool :=
  match stable n with
  | None => (n, true)
  | Some _ =>
      match io with
      | PersistOk => (set_stable (Some (Some (hard_of n))) n, true)
      | PersistFailed true => (set_stable (Some (Some (hard_of n))) n, false)
      | PersistFailed false => (n, false)
      end
  end.

Definition restoreHardState (n : Node) : Node :=
  match stable n with
  | Some (Some h) =>
      set_logBaseTerm (hs_LogBaseTerm h) (set_logBase (hs_LogBase h)
        (set_lastApplied (hs_LastApplied h) (set_commitIndex (hs_CommitIndex h)
          (set_votedFor (hs_VotedFor h) (set_currentTerm (hs_CurrentTerm h) n)))))
  | _ => n
  end.

(** ** Proposals *)

(** Fail every proposal waiting at an index from [from] on. *)
Definition failPendingFutures (from : Z) (n : Node) : Node :=
  let failed := filter (fun p => (from <= p.1)%Z) (applyWaiters n) in
  set_resolved (resolved n ++ map (fun p => (p.1, Some ErrLeadershipLost)) (map_to_list failed))
    (set_applyWaiters (filter (fun p => ~ (from <= p.1)%Z) (applyWaiters n)) n).

(** Answer the proposal waiting at [index], if any: it succeeded only if the
    entry applied there is of the term it was proposed in. *)
Definition notifyApply (index term : Z) (err : option apply_error) (n : Node) : Node :=
  match applyWaiters n !! index with
  | None => n
  | Some f_term =>
      let err := if decide (f_term <> 0 /\ f_term <> term)%Z then Some ErrLeadershipLost else err in
      set_resolved (resolved n ++ [(index, err)])
        (set_applyWaiters (delete index (applyWaiters n)) n)
  end.

(** The command arrives serialised: [json.Marshal] of an FSM command, which has
    only strings, numbers and byte slices, does not fail. *)
Definition handleApply (n : Node) (cmdData : bytes) (io : store_io) : Node * option apply_error :=
  if decide (state n <> StateLeader) then (n, Some (ErrNotLeader (leaderID n))) else
  match appendEntry n (MkEntry 0 (currentTerm n) LogCommand cmdData) io with
  | (n, false) => (n, Some ErrPersistCommand)
  | (n, true) =>
      match last (log n) with
      | None => (n, None)
      | Some entry => (set_applyWaiters (<[Index entry:=Term entry]> (applyWaiters n)) n, None)
      end
  end.

(** ** State changes *)

Definition stepDownLocked (n : Node) (now : Z) : Node :=
  if decide (state n = StateLeader) then
    failPendingFutures 0 (set_lastContact now (set_leaderID "" (set_state StateFollower n)))
  else n.

Definition becomeFollower (n : Node) (term : Z) (io : persist_io) (now : Z) : Node * bool :=
  let wasLeader := bool_decide (state n = StateLeader) in
  let oldTerm := currentTerm n in
  let oldVote := votedFor n in
  match persistHardStateLocked (set_votedFor "" (set_currentTerm term n)) io with
  | (n, false) => (set_votedFor oldVote (set_currentTerm oldTerm n), false)
  | (n, true) =>
      let n := set_lastContact now (set_state StateFollower n) in
      let n := if decide (term > oldTerm)%Z then set_leaderID "" n else n in
      (if wasLeader then failPendingFutures 0 n else n, true)
  end.

(** The reaction of [requestVotes] and [requestPreVotes] to a response. *)
Definition handleVoteResponse (n : Node) (term respTerm : Z) (io : persist_io) (now : Z) : Node :=
  if decide (respTerm > term /\ respTerm > currentTerm n)%Z
  then (becomeFollower n respTerm io now).1 else n.

(** ** Membership in effect *)

(** [json.Marshal] and [json.Unmarshal] of membership entries, and
    [dialableAddr], which parses with package net. *)
Class MembershipCodec := {
  encodeMembershipEntry : membershipEntry -> bytes;
  decodeMembershipEntry : bytes -> option membershipEntry;
  dialableAddr : string -> bool;
}.

Section membership.
Context {MC : MembershipCodec}.

(** The members of [union]: those of [latest] and, after them, those only
    in [base], without the node itself. *)
Definition union_members (self : string) (base latest : list RaftPeer) : gmap string RaftPeer :=
  let ins := fun l : list RaftPeer => list_to_map (map (fun m => (ID m, m)) (reverse l)) in
  delete self (ins latest ∪ list_to_map (map (fun m => (ID m, m)) base)).

Definition sync_peer (isLeader : bool) (next : Z) (inLatest : bool) (old : option Peer)
    (m : RaftPeer) : Peer :=
  let p := match old with
           | Some p => p
           | None => MkPeer (ID m) "" "" "" (if isLeader then next else 0) 0 false 0 0
           end in
  MkPeer (p_ID p)
    (if dialableAddr (Address m) || bool_decide (p_Address p = "") then Address m else p_Address p)
    (Region m) (Role m) (p_nextIndex p) (p_matchIndex p) (negb inLatest) (p_ackTerm p) (p_ackSentAt p).

(** Progress maps: members without a peer yet get [v] on a leader, peers
    outside the union lose their entry. *)
Definition sync_progress (isLeader : bool) (v : Z) (old : gmap string Peer)
    (union : gmap string RaftPeer) (m : gmap string Z) : gmap string Z :=
  let added : gmap string Z :=
    if isLeader then (fun _ => v) <$> filter (fun p => old !! p.1 = None) union else ∅ in
  filter (fun p => is_Some (union !! p.1) \/ old !! p.1 = None) (added ∪ m).

Definition syncPeersLocked (base latest : list RaftPeer) (n : Node) : Node :=
  let self := last (filter (fun m => ID m = nodeID n) latest) in
  let selfVoter := match self with Some m => is_voter m | None => false end in
  let union := union_members (nodeID n) base latest in
  let inLatest := fun id => bool_decide (id ∈ map ID latest) in
  let isLeader := bool_decide (state n = StateLeader) in
  let next := u64 (lastLogIndexLocked n + 1) in
  set_peers (map_imap (fun id m =>
      Some (sync_peer isLeader next (inLatest id) (peers n !! id) m)) union)
    (set_matchIndex (sync_progress isLeader 0 (peers n) union (matchIndex n))
      (set_nextIndex (sync_progress isLeader next (peers n) union (nextIndex n))
        (set_selfAbsent (negb (bool_decide (is_Some self)))
          (set_selfNonVoter (negb selfVoter) n)))).

(** The configuration the log defines: the base with every membership entry
    above the log base folded over it. *)
Fixpoint fold_log (base : Z) (es : list RaftLogEntry) (latest : list RaftPeer) (latestIndex : Z) :
    list RaftPeer * Z :=
  match es with
  | [] => (latest, latestIndex)
  | entry :: rest =>
      if decide (Index entry <= base \/ Type_ entry <> LogMembershipChange)%Z
      then fold_log base rest latest latestIndex else
      match decodeMembershipEntry (Data entry) with
      | None => fold_log base rest latest latestIndex
      | Some e => fold_log base rest (foldMembership latest e) (Index entry)
      end
  end.

Definition refreshMembershipLocked (n : Node) : Node :=
  let '(latest, latestIndex) := fold_log (logBase n) (log n) (membershipBase n) 0 in
  syncPeersLocked (membershipBase n) latest
    (set_membershipLatestIndex latestIndex (set_membershipLatest latest n)).

Definition setMembershipBaseLocked (base : list RaftPeer) (n : Node) : Node :=
  refreshMembershipLocked (set_membershipBase base n).

(** ** Quorums *)

Definition peer_votes (p : Peer) : bool :=
  negb (bool_decide (p_Role p = RoleNonVoter)) && negb (p_leaving p).

(** The voters, and those of them that satisfy [ok]. *)
Definition countVoters (n : Node) (selfOK : bool) (ok : Peer -> bool) : nat * nat :=
  let ps := filter (fun p => peer_votes p = true) (map snd (map_to_list (peers n))) in
  let self := if selfNonVoter n then 0 else 1 in
  ((if selfOK then self else 0) + length (filter (fun p => ok p = true) ps), self + length ps).

Definition votingPeers (n : Node) : list string :=
  map fst (filter (fun p => peer_votes p.2 = true) (map_to_list (peers n))).

Definition checkStandardCommit (n : Node) (index : Z) : bool :=
  let '(votes, voters) := countVoters n true
    (fun p => bool_decide (index <= default 0 (matchIndex n !! p_ID p))%Z) in
  bool_decide (0 < voters /\ voters / 2 < votes).

Definition quorumAckedSinceLocked (n : Node) (term since : Z) : bool :=
  let '(votes, voters) := countVoters n true
    (fun p => bool_decide (p_ackTerm p = term /\ since <= p_ackSentAt p)%Z) in
  bool_decide (0 < voters /\ voters / 2 < votes).

Definition markPeerAck (n : Node) (peerID : string) (term sentAt : Z) : Node :=
  match peers n !! peerID with
  | None => n
  | Some p =>
      if decide (p_ackTerm p <> term \/ p_ackSentAt p < sentAt)%Z then
        set_peers (<[peerID:=MkPeer (p_ID p) (p_Address p) (p_Region p) (p_Role p) (p_nextIndex p)
          (p_matchIndex p) (p_leaving p) term sentAt]> (peers n)) n
      else n
  end.

Definition checkQuorum (n : Node) (now : Z) : Node :=
  if decide (state n <> StateLeader) then n else
  let window := electionTimeout n in
  if decide (window <= 0 \/ now - leaderSince n < window)%Z then n else
  if quorumAckedSinceLocked n (currentTerm n) (now - window) then n else
  stepDownLocked n now.

Definition HasQuorumContact (n : Node) (isShutdown : bool) (now : Z) : bool :=
  if removed n || awaitingJoin n || isShutdown || selfAbsent n then false else
  let window := if decide (electionTimeout n <= 0)%Z then 1000000000%Z else electionTimeout n in
  match state n with
  | StateLeader =>
      if decide (lastApplied n < leaderNoopIndex n)%Z then false else
      if decide (now - leaderSince n < window)%Z then true else
      quorumAckedSinceLocked n (currentTerm n) (now - window)
  | _ => bool_decide (leaderID n <> "" /\ leaderID n <> nodeID n /\
           now - lastContact n < 2 * window /\ catchUpTarget n <= lastApplied n)%Z
  end.

(** [for index := last; index > commitIndex; index--] *)
Fixpoint commit_loop (fuel : nat) (n : Node) (index : Z) : option Z :=
  match fuel with
  | 0 => None
  | S fuel =>
      if decide (index <= commitIndex n)%Z then None else
      match logEntry n index with
      | Some entry =>
          if bool_decide (Term entry = currentTerm n) && checkStandardCommit n index
          then Some index else commit_loop fuel n (index - 1)
      | None => commit_loop fuel n (index - 1)
      end
  end.

(** The node, and the index handed to [notifyCommit]. *)
Definition checkCommit (n : Node) (io : persist_io) : Node * option Z :=
  if decide (state n <> StateLeader) then (n, None) else
  let last := lastLogIndexLocked n in
  match commit_loop (Z.to_nat (last - commitIndex n)) n last with
  | None => (n, None)
  | Some index =>
      let old := commitIndex n in
      match persistHardStateLocked (set_commitIndex index n) io with
      | (n, false) => (set_commitIndex old n, None)
      | (n, true) => (n, Some index)
      end
  end.
End membership.

(** ** Elections *)

Section handlers.
Context {MC : MembershipCodec}.

Definition votesNeeded (numPeers : nat) : nat := (numPeers + 1) / 2 + 1.

Definition isLogMoreUpToDate (n : Node) (candidateLastLogTerm candidateLastLogIndex : Z) : bool :=
  let lastLogIndex := lastLogIndexLocked n in
  let lastLogTerm := getLogTerm n lastLogIndex in
  bool_decide (candidateLastLogTerm > lastLogTerm \/
    (candidateLastLogTerm = lastLogTerm /\ candidateLastLogIndex >= lastLogIndex))%Z.

(** Leader state is initialised for every peer, then the no-op appended. *)
Definition reset_progress (next : Z) (p : Peer) : Peer :=
  MkPeer (p_ID p) (p_Address p) (p_Region p) (p_Role p) next 0 (p_leaving p) (p_ackTerm p)
    (p_ackSentAt p).

Definition becomeLeader (n : Node) (expectedTerm : Z) (io : store_io) (now : Z) : Node :=
  if decide (currentTerm n <> expectedTerm \/ state n <> StateCandidate) then n else
  let n := set_leaderID (nodeID n) (set_state StateLeader n) in
  let next := u64 (lastLogIndexLocked n + 1) in
  let n := set_peers (reset_progress next <$> peers n)
    (set_matchIndex (((fun _ => 0%Z) <$> peers n) ∪ matchIndex n)
      (set_nextIndex (((fun _ => next) <$> peers n) ∪ nextIndex n) n)) in
  match appendEntry n (MkEntry 0 (currentTerm n) LogNoOp []) io with
  | (n, false) => set_leaderID "" (set_state StateFollower n)
  | (n, true) => set_leaderSince now (set_leaderNoopIndex (lastLogIndexLocked n) n)
  end.

(** [startElection] up to the first point where it releases the lock. *)
Inductive election :=
| NoElection
| SingleNode (term : Z)
| PreVotes (term lastLogIndex lastLogTerm : Z) (voting : list string).

Definition startElection_begin (n : Node) (io : persist_io) (now : Z) : Node * election :=
  if removed n || awaitingJoin n then (n, NoElection) else
  if restoring n then (n, NoElection) else
  if selfNonVoter n then (n, NoElection) else
  let voting := votingPeers n in
  if decide (length voting = 0) then
    let n := set_votedFor (nodeID n)
      (set_currentTerm (u64 (currentTerm n + 1)) (set_state StateCandidate n)) in
    match persistHardStateLocked n io with
    | (n, false) => (set_state StateFollower n, NoElection)
    | (n, true) => (set_lastContact now (set_leaderID "" n), SingleNode (currentTerm n))
    end
  else if decide (leaderID n <> "" /\ leaderID n <> nodeID n /\
                  now - lastContact n < electionTimeout n)%Z then (n, NoElection)
  else
    let lastLogIndex := lastLogIndexLocked n in
    (set_state StateCandidate n,
     PreVotes (u64 (currentTerm n + 1)) lastLogIndex (getLogTerm n lastLogIndex) voting).

(** From the pre-vote result to the release before the vote requests. *)
Definition startElection_campaign (n : Node) (preVoteTerm : Z) (preVotes : bool)
    (io : persist_io) (now : Z) : Node * option RequestVoteRequest :=
  if decide (currentTerm n <> u64 (preVoteTerm - 1) \/ state n <> StateCandidate) then (n, None) else
  if negb preVotes then (set_state StateFollower n, None) else
  let n := set_votedFor (nodeID n)
    (set_currentTerm (u64 (currentTerm n + 1)) (set_state StateCandidate n)) in
  match persistHardStateLocked n io with
  | (n, false) => (set_state StateFollower n, None)
  | (n, true) =>
      let n := set_lastContact now (set_leaderID "" n) in
      let lastLogIndex := lastLogIndexLocked n in
      (n, Some (RequestVote (currentTerm n) (nodeID n) lastLogIndex (getLogTerm n lastLogIndex)))
  end.

(** The count of the votes: promotion, or back to follower. *)
Definition startElection_finish (n : Node) (term : Z) (numPeers votesGranted : nat)
    (io : store_io) (now : Z) : Node :=
  if decide (votesNeeded numPeers <= votesGranted) then becomeLeader n term io now else
  if decide (currentTerm n = term /\ state n = StateCandidate) then set_state StateFollower n
  else n.

(** ** RPC handlers *)

Definition handleRequestVote (n : Node) (req : RequestVoteRequest) (io_term io_vote : persist_io)
    (now : Z) : Node * RequestVoteResponse :=
  if decide (rv_Term req < currentTerm n)%Z then (n, VoteReply (currentTerm n) false) else
  let '(n, ok) := if decide (rv_Term req > currentTerm n)%Z
                  then becomeFollower n (rv_Term req) io_term now else (n, true) in
  if negb ok then (n, VoteReply (currentTerm n) false) else
  let canVote := bool_decide (votedFor n = "" \/ votedFor n = rv_CandidateID req) in
  let logIsCurrent := isLogMoreUpToDate n (rv_LastLogTerm req) (rv_LastLogIndex req) in
  if canVote && logIsCurrent then
    let oldVote := votedFor n in
    match persistHardStateLocked (set_votedFor (rv_CandidateID req) n) io_vote with
    | (n, false) => (set_votedFor oldVote n, VoteReply (currentTerm n) false)
    | (n, true) => (set_lastContact now n, VoteReply (currentTerm n) true)
    end
  else (n, VoteReply (currentTerm n) false).

(** A pre-vote changes nothing; only the answer is computed. *)
Definition handlePreVote (n : Node) (req : RequestVoteRequest) (now : Z) : RequestVoteResponse :=
  if decide (rv_Term req < currentTerm n)%Z then VoteReply (currentTerm n) false else
  let isLeader := bool_decide (state n = StateLeader) in
  let hasFreshLeader := bool_decide (leaderID n <> "" /\ leaderID n <> rv_CandidateID req /\
    now - lastContact n < electionTimeout n)%Z in
  if isLeader || hasFreshLeader then VoteReply (currentTerm n) false else
  VoteReply (currentTerm n) (isLogMoreUpToDate n (rv_LastLogTerm req) (rv_LastLogIndex req)).

Definition handleHeartbeat (n : Node) (req : HeartbeatRequest) (io : persist_io) (now : Z) :
    Node * HeartbeatResponse :=
  let reply n leader := HeartbeatReply (currentTerm n) leader (leaderID n) in
  if decide (currentTerm n <= hb_Term req)%Z then
    let '(n, ok) := if decide (hb_Term req > currentTerm n)%Z
                    then becomeFollower n (hb_Term req) io now else (n, true) in
    if negb ok then (n, reply n false) else
    let n := set_leaderID (hb_LeaderID req) (set_lastContact now n) in
    let n := if decide (state n = StateLeader)
             then set_leaderID (hb_LeaderID req) (stepDownLocked n now) else n in
    let n := if decide (state n <> StateFollower) then set_state StateFollower n else n in
    (n, reply n (bool_decide (state n = StateLeader)))
  else (n, reply n (bool_decide (state n = StateLeader))).

(** *** AppendEntries *)

Record append_entries_io := AppendEntriesIO {
  aio_term : persist_io;
  aio_delete : delete_io;
  aio_store : store_io;
  aio_commit : persist_io;
}.

Definition refusal (n : Node) : AppendEntriesResponse := AppendReply (currentTerm n) false 0 0 0.

Definition validateTerm (n : Node) (req : AppendEntriesRequest) (io : persist_io) (now : Z) :
    Node * option AppendEntriesResponse :=
  if decide (ae_Term req < currentTerm n)%Z then (n, Some (refusal n)) else
  if decide (ae_Term req > currentTerm n)%Z then
    match becomeFollower n (ae_Term req) io now with
    | (n, false) => (n, Some (refusal n))
    | (n, true) => (n, None)
    end
  else (n, None).

(** [for conflictIndex > n.logBase+1 && getLogTerm(conflictIndex-1) == conflictTerm] *)
Fixpoint conflict_loop (fuel : nat) (n : Node) (conflictTerm conflictIndex : Z) : Z :=
  match fuel with
  | 0 => conflictIndex
  | S fuel =>
      if decide (conflictIndex > u64 (logBase n + 1) /\ getLogTerm n (conflictIndex - 1) = conflictTerm)%Z
      then conflict_loop fuel n conflictTerm (conflictIndex - 1) else conflictIndex
  end.

Definition checkLogConsistency (n : Node) (req : AppendEntriesRequest) :
    option AppendEntriesResponse :=
  let prev := ae_PrevLogIndex req in
  if decide (prev = logBase n) then
    if decide (ae_PrevLogTerm req <> logBaseTerm n)
    then Some (AppendReply (currentTerm n) false 0 (u64 (logBase n + 1)) 0) else None
  else
    match logEntry n prev with
    | None =>
        let last := lastLogIndexLocked n in
        let conflict := if decide (prev > last)%Z then u64 (last + 1) else u64 (logBase n + 1) in
        Some (AppendReply (currentTerm n) false last conflict 0)
    | Some entry =>
        if decide (Term entry <> ae_PrevLogTerm req) then
          Some (AppendReply (currentTerm n) false 0
            (conflict_loop (length (log n)) n (Term entry) prev) (Term entry))
        else None
    end.

(** The first incoming entry whose index holds another term. *)
Fixpoint find_conflict (n : Node) (idx : Z) (es : list RaftLogEntry) : option Z :=
  match es with
  | [] => None
  | incoming :: rest =>
      match logEntry n idx with
      | Some local =>
          if decide (Term local <> Term incoming) then Some idx
          else find_conflict n (u64 (idx + 1)) rest
      | None => find_conflict n (u64 (idx + 1)) rest
      end
  end.

(** The incoming entries past [last], with their index. *)
Fixpoint new_entries (last idx : Z) (es : list RaftLogEntry) : list RaftLogEntry :=
  match es with
  | [] => []
  | incoming :: rest =>
      let tail := new_entries last (u64 (idx + 1)) rest in
      if decide (idx > last)%Z
      then MkEntry idx (Term incoming) (Type_ incoming) (Data incoming) :: tail else tail
  end.

Definition truncate_log (n : Node) (truncateAt : Z) (io : delete_io) : Node * bool :=
  let last := lastLogIndexLocked n in
  let '(n, ok) := if decide (truncateAt <= last)%Z then DeleteRange n truncateAt last io else (n, true) in
  if ok then
    let pos := default 0 (logPosition n truncateAt) in
    (failPendingFutures truncateAt (set_log (take pos (log n)) n), true)
  else (n, false).

Definition reconcileLogEntries (n : Node) (req : AppendEntriesRequest) (io_delete : delete_io)
    (io_store : store_io) : Node * bool :=
  let first := u64 (ae_PrevLogIndex req + 1) in
  let conflict := find_conflict n first (ae_Entries req) in
  let '(n, ok) := match conflict with
                  | Some at_ => truncate_log n at_ io_delete
                  | None => (n, true)
                  end in
  if negb ok then (n, false) else
  let appended := new_entries (lastLogIndexLocked n) first (ae_Entries req) in
  let membershipChanged := bool_decide (is_Some conflict) ||
    existsb (fun e => bool_decide (Type_ e = LogMembershipChange)) appended in
  let '(n, ok) := match appended with [] => (n, true) | _ => StoreLogs n appended io_store end in
  if negb ok then
    (if bool_decide (is_Some conflict) then refreshMembershipLocked n else n, false)
  else
    let n := set_log (log n ++ appended) n in
    (if membershipChanged then refreshMembershipLocked n else n, true).

(** The node, and the index handed to [notifyCommit]. *)
Definition updateCommitIndex (n : Node) (req : AppendEntriesRequest) (io : persist_io) :
    Node * option Z :=
  if decide (ae_LeaderCommit req <= commitIndex n)%Z then (n, None) else
  let lastNewIndex := u64 (ae_PrevLogIndex req + Z.of_nat (length (ae_Entries req))) in
  let newCommit := if decide (ae_LeaderCommit req > lastNewIndex)%Z
                   then lastNewIndex else ae_LeaderCommit req in
  if decide (newCommit <= commitIndex n)%Z then (n, None) else
  let old := commitIndex n in
  match persistHardStateLocked (set_commitIndex newCommit n) io with
  | (n, false) => (set_commitIndex old n, None)
  | (n, true) => (n, Some newCommit)
  end.

Definition handleAppendEntries (n : Node) (req : AppendEntriesRequest) (io : append_entries_io)
    (now : Z) : Node * AppendEntriesResponse :=
  match validateTerm n req (aio_term io) now with
  | (n, Some resp) => (n, resp)
  | (n, None) =>
      let n := if decide (leaderID n <> ae_LeaderID req \/
                          electionTimeout n <= now - lastContact n)%Z
               then set_catchUpTarget (ae_LeaderCommit req) n else n in
      let n := set_leaderID (ae_LeaderID req) (set_lastContact now n) in
      match checkLogConsistency n req with
      | Some resp => (n, resp)
      | None =>
          match reconcileLogEntries n req (aio_delete io) (aio_store io) with
          | (n, false) => (n, refusal n)
          | (n, true) =>
              let '(n, _) := updateCommitIndex n req (aio_commit io) in
              (n, AppendReply (currentTerm n) true
                    (u64 (ae_PrevLogIndex req + Z.of_nat (length (ae_Entries req)))) 0 0)
          end
      end
  end.
End handlers.
