(* ===== verification/RaftOps.v ===== *)
(** * Replication, application, snapshots and restart of a Raft node

    The rest of src/internal/raft/node.go and the stateful part of
    membership.go over the node of Raft.v: what a leader sends and how it
    takes the answers, the application of committed entries to the state
    machine, log compaction, snapshot installation with its three critical
    sections, proposals of membership changes, and the restart from disk. The
    state machine is a parameter. *)
From stdpp Require Import base gmap strings list sorting.
From Stdlib Require Import ZArith Lia Strings.Byte.
From S2P Require Import Prelude Membership Raft.

Section ops.
Context {MC : MembershipCodec}.

(** ** Replication *)

(** The request [sendHeartbeats] builds for one peer, and whether the peer
    needs a snapshot instead. *)
Definition build_append (n : Node) (p : Peer) (commit : Z) : option (bool * AppendEntriesRequest) :=
  if decide (state n <> StateLeader) then None else
  let needsSnapshot := bool_decide (logBase n > 0 /\ p_nextIndex p <= logBase n)%Z in
  let prevLogIndex := if decide (p_nextIndex p > 0)%Z then (p_nextIndex p - 1)%Z else 0%Z in
  Some (needsSnapshot,
    AppendEntries (currentTerm n) (nodeID n) prevLogIndex (getLogTerm n prevLogIndex)
      (getEntriesAfter n (p_nextIndex p) (maxAppendEntries n)) commit).

Definition set_peer_progress (next match_ : option Z) (p : Peer) : Peer :=
  MkPeer (p_ID p) (p_Address p) (p_Region p) (p_Role p) (default (p_nextIndex p) next)
    (default (p_matchIndex p) match_) (p_leaving p) (p_ackTerm p) (p_ackSentAt p).

(** Assign a peer's cursors. [current] says whether the peer object of the
    request is still the one in the peer map. *)
Definition set_progress (id : string) (current : bool) (next match_ : option Z) (n : Node) : Node :=
  let n := match next with Some v => set_nextIndex (<[id:=v]> (nextIndex n)) n | None => n end in
  let n := match match_ with Some v => set_matchIndex (<[id:=v]> (matchIndex n)) n | None => n end in
  if current then set_peers (alter (set_peer_progress (nextIndex n !! id) match_) id (peers n)) n else n.

(** [for i := len(n.log) - 1; i > 0; i--]: where to resume after a
    conflicting term. [es] is the log from its end, without the base. *)
Fixpoint backup_loop (es : list RaftLogEntry) (conflictTerm next : Z) : Z :=
  match es with
  | [] => next
  | e :: rest =>
      if decide (Term e = conflictTerm) then u64 (Index e + 1)
      else if decide (Term e < conflictTerm)%Z then next
      else backup_loop rest conflictTerm next
  end.

Definition backup_next (n : Node) (req : AppendEntriesRequest) (resp : AppendEntriesResponse) : Z :=
  if decide (ar_ConflictTerm resp > 0)%Z then
    backup_loop (reverse (drop 1 (log n))) (ar_ConflictTerm resp) (ar_ConflictIndex resp)
  else if decide (ar_ConflictIndex resp > 0)%Z then ar_ConflictIndex resp
  else ae_PrevLogIndex req.

Definition handleAppendEntriesResponse (n : Node) (peer : string) (current : bool)
    (req : AppendEntriesRequest) (resp : AppendEntriesResponse) (io : persist_io) (now : Z) :
    Node * option Z :=
  if decide (state n <> StateLeader) then (n, None) else
  if decide (ar_Term resp > currentTerm n)%Z then
    ((becomeFollower n (ar_Term resp) io now).1, None) else
  if decide (ae_Term req <> currentTerm n \/ ar_Term resp <> currentTerm n) then (n, None) else
  let currentMatch := default 0%Z (matchIndex n !! peer) in
  let currentNext := default 0%Z (nextIndex n !! peer) in
  if ar_Success resp then
    let matched := u64 (ae_PrevLogIndex req + Z.of_nat (length (ae_Entries req))) in
    if decide (matched <= currentMatch)%Z then (n, None) else
    let next := u64 (matched + 1) in
    checkCommit (set_progress peer current
      (if decide (next > currentNext)%Z then Some next else None) (Some matched) n) io
  else if decide (currentNext = 0 \/ ae_PrevLogIndex req <> currentNext - 1 \/
                  ae_PrevLogIndex req <= currentMatch)%Z then (n, None)
  else
    let next := backup_next n req resp in
    let next := if decide (next < 1)%Z then 1%Z else next in
    let minNext := u64 (currentMatch + 1) in
    let next := if decide (next < minNext)%Z then minNext else next in
    if decide (next >= currentNext)%Z then (n, None)
    else (set_progress peer current (Some next) None n, None).

(** The end of [sendSnapshot], after the last chunk was accepted. *)
Definition sendSnapshot_done (n : Node) (peer : string) (current : bool) (term metaIndex : Z) : Node :=
  if decide (state n = StateLeader /\ term = currentTerm n)
  then set_progress peer current (Some (u64 (metaIndex + 1))) (Some metaIndex) n else n.

(** [readIndex] and [tableReadIndex] once their waits are over. *)
Definition readIndex_ready (n : Node) : option Z :=
  if decide (state n = StateLeader /\ leaderNoopIndex n <= commitIndex n)%Z
  then Some (commitIndex n) else None.

Definition tableReadIndex (n : Node) (readIndex tableIndex : Z) : Z :=
  Z.min (Z.max tableIndex (tableScopeFloor n)) readIndex.

(** ** Membership changes *)

Definition applyMembershipEntry (n : Node) (e : membershipEntry) : Node :=
  let base := foldMembership (membershipBase n) e in
  let n := refreshMembershipLocked (set_membershipBase base n) in
  let selfIn := bool_decide (is_Some (memberPosition base (nodeID n))) in
  if negb selfIn && bool_decide (m_Type e = MembershipRemovePeer /\ ID (m_Peer e) = nodeID n)
  then set_removed true n
  else if selfIn && removed n then set_removed false n
  else n.

Inductive propose_error :=
| ProposeNotLeader
| ProposeWaitNoop (* the loop polls until the no-op commits *)
| ProposePending (index : Z)
| ProposeEmpty
| ProposePersist
| ProposeSelf
| ProposeNoID
| ProposeExists
| ProposeNotFound.

(** One pass of [proposeMembershipChange] under the lock: the change is
    appended, registered and in effect, or refused. *)
Definition proposeMembershipChange (n : Node) (type : MembershipChangeType) (peer : RaftPeer)
    (old : option RaftPeer) (io : store_io) : Node * option propose_error :=
  if decide (state n <> StateLeader) then (n, Some ProposeNotLeader) else
  if decide (commitIndex n < leaderNoopIndex n)%Z then (n, Some ProposeWaitNoop) else
  if decide (membershipLatestIndex n > commitIndex n)%Z
  then (n, Some (ProposePending (membershipLatestIndex n))) else
  let current := membershipLatest n in
  let members := foldMembership current (MembershipEntry type peer old [] [] "" []) in
  let entry := MembershipEntry type peer old (configurationIDs current) (configurationIDs members)
    membershipPhaseSingle members in
  if decide (length members = 0) then (n, Some ProposeEmpty) else
  match appendEntry n (MkEntry 0 (currentTerm n) LogMembershipChange (encodeMembershipEntry entry)) io with
  | (n, false) => (n, Some ProposePersist)
  | (n, true) =>
      let n := match last (log n) with
               | Some a => set_applyWaiters (<[Index a:=Term a]> (applyWaiters n)) n
               | None => n
               end in
      (refreshMembershipLocked n, None)
  end.

(** The guards of [AddPeer] and [RemovePeer]. *)
Definition AddPeer (n : Node) (peer : RaftPeer) (io : store_io) : Node * option propose_error :=
  if decide (state n <> StateLeader) then (n, Some ProposeNotLeader) else
  if decide (ID peer = nodeID n) then (n, Some ProposeSelf) else
  if decide (ID peer = "") then (n, Some ProposeNoID) else
  if decide (is_Some (peers n !! ID peer)) then (n, Some ProposeExists) else
  let peer := if decide (Role peer = "")
              then MkRaftPeer (ID peer) (Address peer) (Region peer) RoleVoter (NonVoter peer)
              else peer in
  proposeMembershipChange n MembershipAddPeer peer None io.

Definition RemovePeer (n : Node) (peerID : string) (io : store_io) : Node * option propose_error :=
  if decide (state n <> StateLeader) then (n, Some ProposeNotLeader) else
  if decide (peerID = nodeID n) then (n, Some ProposeSelf) else
  match peers n !! peerID with
  | None => (n, Some ProposeNotFound)
  | Some p =>
      proposeMembershipChange n MembershipRemovePeer
        (MkRaftPeer (p_ID p) (p_Address p) (p_Region p) (p_Role p) false) None io
  end.

(** ** Application of committed entries *)

Section fsm.
Context {F : Type} (fsm_Apply : F -> RaftLogEntry -> F * option apply_error)
  (isRetryableApplyError : apply_error -> bool)
  (fsm_SetLastApplied : F -> Z -> F).

Definition persistApplied (n : Node) (io : persist_io) : Node * bool :=
  let '(n, ok) := persistHardStateLocked n io in (set_appliedDirty (negb ok) n, ok).

Definition skipCommittedEntry (n : Node) (nextIdx : Z) (io : persist_io) : Node * bool :=
  let old := lastApplied n in
  match persistHardStateLocked (set_lastApplied nextIdx n) io with
  | (n, false) => (set_lastApplied old n, false)
  | (n, true) => (n, true)
  end.

Definition appliedPersistEvery : nat := 256.

(** The entry's effect on the node and the state machine. *)
Definition apply_entry (n : Node) (f : F) (entry : RaftLogEntry) : Node * F * option apply_error :=
  if decide (Type_ entry = LogMembershipChange) then
    match decodeMembershipEntry (Data entry) with
    | None => (n, f, Some (ErrApply false))
    | Some change => (applyMembershipEntry n change, f, None)
    end
  else let '(f, err) := fsm_Apply f entry in (n, f, err).

Inductive apply_end :=
| ApplyDone       (* everything up to the index is applied *)
| ApplyMissing    (* the entry is not in the log *)
| ApplyRetry      (* a retry was scheduled *)
| ApplyFuel.

(** [io k] is the outcome of the [k]-th hard-state write of the pass. *)
Fixpoint processCommitted (fuel : nat) (n : Node) (f : F) (commit : Z) (unpersisted k : nat)
    (io : nat -> persist_io) : Node * F * apply_end :=
  match fuel with
  | 0 => (n, f, ApplyFuel)
  | S fuel =>
      if decide (commit <= lastApplied n)%Z then
        if bool_decide (0 < unpersisted) || appliedDirty n then
          match persistApplied n (io k) with
          | (n, false) => (n, f, ApplyRetry)
          | (n, true) => (n, f, ApplyDone)
          end
        else (n, f, ApplyDone)
      else
        let nextIdx := u64 (lastApplied n + 1) in
        match logEntry n nextIdx with
        | None => (n, f, ApplyMissing)
        | Some entry =>
            match apply_entry n f entry with
            | (n, f, Some err) =>
                if isRetryableApplyError err then
                  (notifyApply (Index entry) (Term entry) (Some err) n, f, ApplyRetry)
                else
                  match skipCommittedEntry n nextIdx (io k) with
                  | (n, false) => (n, f, ApplyRetry)
                  | (n, true) =>
                      processCommitted fuel (notifyApply (Index entry) (Term entry) (Some err) n)
                        (fsm_SetLastApplied f nextIdx) commit unpersisted (S k) io
                  end
            | (n, f, None) =>
                let n := notifyApply (Index entry) (Term entry) None (set_lastApplied nextIdx n) in
                if decide (appliedPersistEvery <= S unpersisted) then
                  match persistApplied n (io k) with
                  | (n, false) => (n, f, ApplyRetry)
                  | (n, true) => processCommitted fuel n f commit 0 (S k) io
                  end
                else processCommitted fuel n f commit (S unpersisted) k io
            end
        end
  end.

(** *** Snapshot installation *)

(** The answer to one chunk: a plain answer, or a complete image. *)
Inductive install_step :=
| InstallAnswer (r : InstallSnapshotResponse)
| InstallImage (index term : Z) (payload : bytes).

(** Up to the publication of the image: the term check, the refusal of
    snapshots the node is already past, and the assembly of the chunks. *)
Definition handleInstallSnapshot_chunk (n : Node) (req : InstallSnapshotRequest)
    (io : persist_io) (now : Z) : Node * install_step :=
  if decide (is_Term req < currentTerm n)%Z
  then (n, InstallAnswer (InstallReply (currentTerm n) false)) else
  let '(n, ok) := if decide (is_Term req > currentTerm n)%Z
                  then becomeFollower n (is_Term req) io now else (n, true) in
  if negb ok then (n, InstallAnswer (InstallReply (currentTerm n) false)) else
  let n := set_leaderID (is_LeaderID req) (set_lastContact now n) in
  let term := currentTerm n in
  let index := is_LastIncludedIndex req in
  if decide (index <= commitIndex n \/ index <= lastApplied n)%Z then
    let boundary := Z.max (commitIndex n) (lastApplied n) in
    let n := match incomingSnapshot n with
             | Some s => if decide (si_index s <= boundary)%Z then set_incomingSnapshot None n else n
             | None => n
             end in
    (n, InstallAnswer (InstallReply term true))
  else
    let n := if decide (is_Offset req = 0)%Z
             then set_incomingSnapshot (Some (SnapshotInstall index (is_LastIncludedTerm req) [])) n
             else n in
    match incomingSnapshot n with
    | None => (n, InstallAnswer (InstallReply term false))
    | Some s =>
        if decide (si_index s <> index \/ si_term s <> is_LastIncludedTerm req \/
                   Z.of_nat (length (si_data s)) <> is_Offset req) then
          (n, InstallAnswer (InstallReply term false))
        else
          let data := si_data s ++ is_Data req in
          let n := set_incomingSnapshot (Some (SnapshotInstall (si_index s) (si_term s) data)) n in
          if is_Done req then (n, InstallImage (si_index s) (si_term s) data)
          else (n, InstallAnswer (InstallReply term true))
    end.

(** The image must decode and be written to the snapshot store before any
    state changes; [term] is the one read with the chunk. *)
Definition handleInstallSnapshot_publish (n : Node) (term : Z) (decoded stored : bool) :
    Node * option InstallSnapshotResponse :=
  if decoded && stored then (n, None)
  else (set_incomingSnapshot None n, Some (InstallReply term false)).

(** The recheck before the restore, once the image is published. *)
Definition handleInstallSnapshot_recheck (n : Node) (req : InstallSnapshotRequest) (index : Z) :
    Node * option InstallSnapshotResponse :=
  if decide (is_Term req <> currentTerm n \/ index <= commitIndex n \/ index <= lastApplied n)%Z then
    (set_incomingSnapshot None n,
     Some (InstallReply (currentTerm n) (bool_decide (is_Term req = currentTerm n))))
  else (set_restoring true n, None).

(** Move the log boundary to the snapshot, keeping the entries above it. *)
Definition install_boundary (n : Node) (config : list RaftPeer) (index term now : Z) : Node :=
  let n := if decide (tableScopeFloor n < index)%Z then set_tableScopeFloor index n else n in
  let kept := filter (fun e => (index < Index e)%Z) (log n) in
  let n := set_logBaseTerm term (set_logBase index (set_log (base_entry index term :: kept) n)) in
  let n := if decide (0 < length config)
           then setMembershipBaseLocked (normalizeMembers config).1 n
           else refreshMembershipLocked n in
  let n := if decide (commitIndex n < index)%Z then set_commitIndex index n else n in
  let n := if decide (lastApplied n < index)%Z then set_lastApplied index n else n in
  set_lastContact now (set_lastSnapshotIndex index n).

(** After the restore. *)
Definition handleInstallSnapshot_finish (n : Node) (req : InstallSnapshotRequest) (index term : Z)
    (restored : bool) (io : persist_io) (io_del : delete_io) (now : Z) :
    Node * InstallSnapshotResponse :=
  let n := set_restoring false n in
  if negb restored then (set_incomingSnapshot None n, InstallReply (currentTerm n) false) else
  let n := install_boundary n (is_Configuration req) index term now in
  match persistHardStateLocked n io with
  | (n, false) => (set_incomingSnapshot None n, InstallReply (currentTerm n) false)
  | (n, true) =>
      let first := default 0%Z (head (merge_sort Z.le (map fst (map_to_list (default ∅ (storage n)))))) in
      let n := if decide (0 < first <= index)%Z then (DeleteRange n first index io_del).1 else n in
      (set_incomingSnapshot None n,
       InstallReply (currentTerm n) (bool_decide (is_Term req = currentTerm n)))
  end.
End fsm.

(** ** Compaction *)

(** The stored range to delete, when the base moved and was persisted. *)
Definition compactLogLocked (n : Node) (snapshotIndex : Z) (io : persist_io) : Node * option (Z * Z) :=
  if decide (snapshotIndex <= logBase n \/ snapshotIndex > lastLogIndexLocked n)%Z then (n, None) else
  let trailing := trailingLogs n in
  let newBase := if decide (trailing > 0)%Z then
                   if decide (snapshotIndex > trailing)%Z then (snapshotIndex - trailing)%Z else 0%Z
                 else snapshotIndex in
  if decide (newBase <= logBase n)%Z then (n, None) else
  let newBaseTerm := getLogTerm n newBase in
  match logPosition n newBase with
  | None => (n, None)
  | Some pos =>
      let retained := base_entry newBase newBaseTerm :: drop (S pos) (log n) in
      let oldBase := logBase n in
      let n := set_log retained (set_logBaseTerm newBaseTerm (set_logBase newBase n)) in
      match persistHardStateLocked n io with
      | (n, false) => (n, None)
      | (n, true) => (n, Some (oldBase, newBase))
      end
  end.

Definition compactLog (n : Node) (snapshotIndex : Z) (io : persist_io) (io_del : delete_io) : Node :=
  match compactLogLocked n snapshotIndex io with
  | (n, None) => n
  | (n, Some (oldBase, newBase)) =>
      if decide (u64 (oldBase + 1) > newBase)%Z then n
      else (DeleteRange n (u64 (oldBase + 1)) newBase io_del).1
  end.

(** Whether [maybeTakeSnapshot] takes one, and at which index and term. *)
Definition snapshot_due (n : Node) (threshold : Z) : option (Z * Z) :=
  let covered := Z.max (logBase n) (lastSnapshotIndex n) in
  let logSize := u64 (lastLogIndexLocked n - covered) in
  let snapIndex := lastApplied n in
  if decide (threshold <= 0 \/ logSize < threshold \/ snapIndex <= covered)%Z then None
  else Some (snapIndex, getLogTerm n snapIndex).

(** ** Construction *)

Record RaftConfig := MkRaftConfig {
  cfg_NodeID : string;
  cfg_AdvertiseAddr : string;
  cfg_BindAddr : string;
  cfg_Region : string;
  cfg_Peers : list RaftPeer;
  cfg_ElectionTimeout : Z;
  cfg_TrailingLogs : Z;
  cfg_MaxAppendEntries : Z;
}.

(** A node over its stores; the configuration passed validation. *)
Definition NewNodeWithStableStore (c : RaftConfig) (st : option (gmap Z RaftLogEntry))
    (sb : option (option hardState)) (now : Z) : Node :=
  let base := initialMembers (cfg_NodeID c) (cfg_AdvertiseAddr c) (cfg_BindAddr c) (cfg_Region c)
    (cfg_Peers c) in
  refreshMembershipLocked
    (MkNode (cfg_NodeID c) (cfg_ElectionTimeout c) (cfg_TrailingLogs c) (cfg_MaxAppendEntries c)
       StateFollower 0 "" [base_entry 0 0] 0 0 0 0 false 0 false ∅ ∅ ∅ base [] 0 false false
       0 0 0 "" now 0 None ∅ [] false false st sb).

(** ** Restart *)

(** [restoreLatestSnapshot] with the newest snapshot [meta]; [durable] is
    the state machine's [StateIsDurable]. *)
Definition restoreLatestSnapshot (n : Node) (durable : bool) (meta : option (Z * Z)) : Node :=
  match meta with
  | None => n
  | Some (index, term) =>
      if decide (index < logBase n)%Z then n else
      if durable && bool_decide (index <= lastApplied n)%Z then set_lastSnapshotIndex index n else
      let n := set_lastSnapshotIndex index (set_logBaseTerm term (set_logBase index n)) in
      let n := if decide (commitIndex n < index)%Z then set_commitIndex index n else n in
      set_log [base_entry index term] (set_lastApplied index n)
  end.

(** [GetLog] for the indexes [i], [i+1], ..., [count] of them. *)
Fixpoint get_logs (st : gmap Z RaftLogEntry) (i : Z) (count : nat) : option (list RaftLogEntry) :=
  match count with
  | 0 => Some []
  | S count =>
      entry ← st !! i;
      if decide (Index entry <> i) then None
      else rest ← get_logs st (u64 (i + 1)) count; Some (entry :: rest)
  end.

Definition sorted_indexes (st : gmap Z RaftLogEntry) : list Z := merge_sort Z.le (map fst (map_to_list st)).

(** [None] is an error that stops the node from starting. *)
Definition restoreLog (n : Node) : option Node :=
  match storage n with
  | None => None
  | Some st =>
      let firstIdx := default 0%Z (head (sorted_indexes st)) in
      let lastIdx := default 0%Z (last (sorted_indexes st)) in
      if decide (lastIdx < firstIdx \/ firstIdx = 0)%Z then Some n else
      if decide (firstIdx > u64 (logBase n + 1))%Z then None else
      let start := if decide (firstIdx <= logBase n)%Z then u64 (logBase n + 1) else firstIdx in
      es ← get_logs st start (Z.to_nat (lastIdx + 1 - start));
      Some (set_log (base_entry (logBase n) (logBaseTerm n) :: es) n)
  end.

(** [restorePeers] with the list found in the stable store: the node's own
    entry only contributes its role. *)
Definition restorePeers (n : Node) (c : RaftConfig) (saved : option (list RaftPeer)) : Node :=
  match stable n, saved with
  | Some _, Some ps =>
      let own := omap (fun p => if decide (ID p = nodeID n /\ Role p <> "") then Some (Role p) else None) ps in
      let self := MkRaftPeer (nodeID n) (firstNonEmptyString (cfg_AdvertiseAddr c) (cfg_BindAddr c))
                    (cfg_Region c) (default RoleVoter (last own)) false in
      let others := filter (fun p => ID p <> nodeID n) ps in
      setMembershipBaseLocked (normalizeMembers (self :: others)).1 n
  | _, _ => n
  end.

Definition restoreRemoved (n : Node) (saved : bool) : Node :=
  if bool_decide (is_Some (stable n)) && saved then set_removed true n else n.

(** What the stable store holds besides the hard state: the membership and
    the removal flag. *)
Record saved_membership := Saved {
  saved_peers : option (list RaftPeer);
  saved_removed : bool;
}.

(** The node after [Start], before committed entries are replayed and its
    loops run; [fresh] is a newly constructed node over the same stores. *)
Definition start_node (fresh : Node) (c : RaftConfig) (saved : saved_membership) (durable : bool)
    (meta : option (Z * Z)) : option Node :=
  let n := restorePeers (restoreHardState fresh) c (saved_peers saved) in
  let n := restoreLatestSnapshot (restoreRemoved n (saved_removed saved)) durable meta in
  n ← restoreLog n;
  let n := if existsb (fun e => bool_decide (logBase n < Index e)%Z &&
                                bool_decide (Type_ e = LogMembershipChange)) (log n)
           then refreshMembershipLocked n else n in
  Some (set_tableScopeFloor (lastApplied n) n).

(** ** Retry of failed applies *)

Definition applyRetryInitialBackoff : Z := 100000000.
Definition applyRetryMaxBackoff : Z := 5000000000.

(** The delay used, and the next backoff. *)
Definition nextApplyRetryDelay (backoff : Z) : Z * Z :=
  let delay := if decide (backoff <= 0)%Z then applyRetryInitialBackoff else backoff in
  let next := (delay * 2)%Z in
  (delay, if decide (next > applyRetryMaxBackoff)%Z then applyRetryMaxBackoff else next).
End ops.
