(* ===== verification/RaftElection.v ===== *)
(** * Election safety

    A cluster of the nodes of Raft.v with a fixed set of voters. Steps
    interleave elections, vote requests that may be delayed, repeated or lost,
    every other handler on arbitrary messages, failing disk writes, and
    crashes with a restart from disk. The theorem is that no term ever has
    two leaders. Terms are assumed not to reach the end of uint64. *)
From stdpp Require Import base gmap strings list sorting.
From Stdlib Require Import ZArith Lia Strings.Byte.
From S2P Require Import Prelude Membership Raft RaftOps.

(** ** What a step may do to term, vote and role *)

(** The hard state on disk is the node's own, with a vote the node has not
    cast yet, or of a later term. *)
Definition disk_ok (n : Node) (h : hardState) : Prop :=
  (hs_CurrentTerm h = currentTerm n /\ (hs_VotedFor h = votedFor n \/ votedFor n = "")) \/
  (currentTerm n < hs_CurrentTerm h)%Z.

(** A step that casts no vote in the current term and wins no election. *)
Record quiet (n n' : Node) : Prop := {
  q_id : nodeID n' = nodeID n;
  q_term : (currentTerm n' = currentTerm n /\ votedFor n' = votedFor n) \/
           (currentTerm n < currentTerm n')%Z;
  q_leader : state n' = StateLeader -> state n = StateLeader /\ currentTerm n' = currentTerm n;
  q_disk : stable n' = stable n \/
           (is_Some (stable n) /\ exists h, stable n' = Some (Some h) /\ disk_ok n h);
}.

(** The fields [quiet] talks about. *)
Definition core_of (n : Node) := (nodeID n, state n, currentTerm n, votedFor n, stable n).

Lemma quiet_refl n : quiet n n.
Proof. constructor; auto. Qed.

Lemma quiet_trans n1 n2 n3 : quiet n1 n2 -> quiet n2 n3 -> quiet n1 n3.
Proof.
  intros [A1 A2 A3 A4] [B1 B2 B3 B4]. constructor.
  - congruence.
  - destruct A2 as [[? ?]|?], B2 as [[? ?]|?]; [left; split; congruence|right; lia..].
  - intros H. destruct (B3 H) as [H2 E2]. destruct (A3 H2) as [H1 E1]. split; [done|congruence].
  - destruct B4 as [->|(Hs & h & -> & Hh)]; [done|].
    assert (is_Some (stable n1)) as Hs1.
    { destruct A4 as [E|[? _]]; [by rewrite <- E|done]. }
    right. split; [done|]. exists h. split; [done|]. unfold disk_ok in *.
    destruct Hh as [[Ht Hv]|Hlt]; destruct A2 as [[? ?]|?]; [|right; lia..].
    left. split; [congruence|]. destruct Hv; [left|right]; congruence.
Qed.

Lemma quiet_core n n1 n2 : quiet n n1 -> core_of n2 = core_of n1 -> quiet n n2.
Proof.
  intros [A1 A2 A3 A4] E. unfold core_of in E. injection E as E1 E2 E3 E4 E5.
  constructor; rewrite ?E1, ?E2, ?E3, ?E4, ?E5; done.
Qed.

Lemma core_quiet n n' : core_of n' = core_of n -> quiet n n'.
Proof. apply quiet_core, quiet_refl. Qed.

#[export] Instance quiet_preorder : PreOrder quiet.
Proof. split; [intros n; apply quiet_refl|intros ? ? ?; apply quiet_trans]. Qed.

Lemma quiet_persist n io : quiet n (persistHardStateLocked n io).1.
Proof.
  unfold persistHardStateLocked. destruct (stable n) as [o|] eqn:Es; [|done].
  destruct io as [|[|]]; [|..|done]; constructor; simpl; auto; right;
    (split; [rewrite Es; by eexists|]); eexists; (split; [done|]); left; auto.
Qed.

(** Stepping down to a node that leads nothing. *)
Lemma quiet_follower n n' :
  quiet n n' -> quiet n (set_state StateFollower n').
Proof. intros [A1 A2 A3 A4]. constructor; auto. done. Qed.

Lemma quiet_candidate n : quiet n (set_state StateCandidate n).
Proof. constructor; simpl; auto. done. Qed.

(** Writing term and vote and giving up on an error, as [becomeFollower] and
    the election do. *)
Lemma persist_shape n io :
  let '(n', ok) := persistHardStateLocked n io in
  nodeID n' = nodeID n /\ state n' = state n /\ currentTerm n' = currentTerm n /\
  votedFor n' = votedFor n /\
  (stable n' = stable n /\ (ok = true -> stable n = None) \/
   (is_Some (stable n) /\ stable n' = Some (Some (hard_of n)))).
Proof.
  unfold persistHardStateLocked. destruct (stable n) as [o|] eqn:Es.
  - destruct io as [|[|]]; simpl; rewrite ?Es; split_and!; auto; try (right; by split; [eexists|]).
    left. by split.
  - simpl. rewrite Es. split_and!; auto.
Qed.

Lemma quiet_becomeFollower n term io now :
  (currentTerm n < term)%Z ->
  quiet n (becomeFollower n term io now).1 /\
  ((becomeFollower n term io now).2 = true ->
   currentTerm (becomeFollower n term io now).1 = term /\
   votedFor (becomeFollower n term io now).1 = "").
Proof.
  intros Ht. unfold becomeFollower.
  pose proof (persist_shape (set_votedFor "" (set_currentTerm term n)) io) as H.
  destruct (persistHardStateLocked _ io) as [n1 [|]]; destruct H as (H1 & H2 & H3 & H4 & H5); simpl in *.
  - set (n2 := set_lastContact now (set_state StateFollower n1)).
    assert (quiet n n2) as Hq.
    { constructor; simpl; [done|right; lia|done|]. destruct H5 as [[E _]|[Hs E]]; [by left|right].
      split; [done|]. eexists. split; [done|]. right. simpl. lia. }
    destruct (decide (term > currentTerm n)%Z); [|lia].
    destruct (bool_decide (state n = StateLeader)); simpl; (split; [|done]);
      (eapply quiet_core; [exact Hq|done]).
  - split; [|done]. constructor; simpl; [done|by left|by rewrite H2|].
    destruct H5 as [[E _]|[Hs E]]; [by left|right]. split; [done|]. eexists. split; [done|].
    right. simpl. lia.
Qed.

(** ** The other handlers are quiet *)

Section cluster.
Context {MC : MembershipCodec}.

Lemma core_refresh n : core_of (refreshMembershipLocked n) = core_of n.
Proof. unfold refreshMembershipLocked. by destruct (fold_log _ _ _ _). Qed.

Lemma core_StoreLogs n es io : core_of (StoreLogs n es io).1 = core_of n.
Proof. unfold StoreLogs. destruct (storage n); [|done]. by destruct io. Qed.

Lemma core_DeleteRange n lo hi io : core_of (DeleteRange n lo hi io).1 = core_of n.
Proof. unfold DeleteRange. destruct (storage n); [|done]. by destruct io. Qed.

Lemma core_appendEntry n e io : core_of (appendEntry n e io).1 = core_of n.
Proof.
  unfold appendEntry. pose proof (core_StoreLogs n
    [MkEntry (u64 (lastLogIndexLocked n + 1)) (Term e) (Type_ e) (Data e)] io) as H.
  by destruct (StoreLogs _ _ _) as [n1 [|]].
Qed.

Lemma core_reconcile n req io1 io2 : core_of (reconcileLogEntries n req io1 io2).1 = core_of n.
Proof.
  unfold reconcileLogEntries.
  assert (forall c, core_of (match c with Some at_ => truncate_log n at_ io1 | None => (n, true) end).1
    = core_of n) as Ht.
  { intros [at_|]; [|done]. unfold truncate_log. destruct (decide (at_ <= lastLogIndexLocked n)%Z); [|done].
    pose proof (core_DeleteRange n at_ (lastLogIndexLocked n) io1) as H.
    destruct (DeleteRange _ _ _ _) as [n1 [|]]; exact H. }
  set (c := find_conflict n (u64 (ae_PrevLogIndex req + 1)) (ae_Entries req)).
  specialize (Ht c).
  destruct (match c with Some at_ => truncate_log n at_ io1 | None => (n, true) end) as [n1 [|]];
    simpl in *; [|done].
  set (app := new_entries _ _ _). set (res := match app with [] => _ | _ => _ end).
  assert (core_of res.1 = core_of n) as Hr.
  { subst res. destruct app; [done|]. by rewrite core_StoreLogs. }
  destruct res as [n2 [|]]; simpl in *.
  - destruct (_ || _); [by rewrite core_refresh|done].
  - destruct (bool_decide _); [by rewrite core_refresh|done].
Qed.

(** Writing the hard state with a field changed, and back on an error. *)
Lemma quiet_rollback (set back : Node -> Node) n io {A} (a : A) (b : Node -> A) :
  (forall n, core_of (set n) = core_of n) -> (forall n, core_of (back n) = core_of n) ->
  quiet n (let '(n', ok) := persistHardStateLocked (set n) io in
           if ok then (n', b n') else (back n', a)).1.
Proof.
  intros Hs Hb. pose proof (quiet_persist (set n) io) as Hp.
  assert (quiet n (set n)) as Hq by (apply core_quiet, Hs).
  destruct (persistHardStateLocked _ io) as [n1 [|]]; simpl in *; [by etrans|].
  eapply quiet_core; [by etrans|apply Hb].
Qed.

Lemma quiet_updateCommit n req io : quiet n (updateCommitIndex n req io).1.
Proof.
  unfold updateCommitIndex. case_decide; [done|]. cbv zeta.
  set (nc := if decide (ae_LeaderCommit req > _)%Z then _ else _).
  case_decide; [done|]. 
  pose proof (quiet_rollback (set_commitIndex nc) (set_commitIndex (commitIndex n)) n io None
    (fun _ => Some nc) (fun _ => eq_refl) (fun _ => eq_refl)) as Hq.
  by destruct (persistHardStateLocked _ io) as [n1 [|]].
Qed.

Lemma quiet_handleAppendEntries n req io now : quiet n (handleAppendEntries n req io now).1.
Proof.
  unfold handleAppendEntries.
  assert (quiet n (validateTerm n req (aio_term io) now).1) as Hv.
  { unfold validateTerm. case_decide; [done|]. case_decide as Hgt; [|done].
    destruct (quiet_becomeFollower n (ae_Term req) (aio_term io) now) as [Hbf _]; [lia|].
    by destruct (becomeFollower _ _ _ _) as [n1 [|]]. }
  destruct (validateTerm _ _ _ _) as [n1 [resp|]]; simpl in *; [done|].
  set (n2 := set_leaderID (ae_LeaderID req) _).
  assert (quiet n n2) as H2 by (subst n2; eapply quiet_core; [exact Hv|by case_decide]).
  destruct (checkLogConsistency n2 req); [done|].
  pose proof (core_reconcile n2 req (aio_delete io) (aio_store io)) as Hr.
  destruct (reconcileLogEntries _ _ _ _) as [n3 [|]]; simpl in *; [|by eapply quiet_core].
  pose proof (quiet_updateCommit n3 req (aio_commit io)) as Hc.
  destruct (updateCommitIndex _ _ _) as [n4 o]; simpl in *.
  etrans; [exact H2|]. etrans; [by apply core_quiet|done].
Qed.

Lemma quiet_stepDown n now : quiet n (stepDownLocked n now).
Proof.
  unfold stepDownLocked. case_decide; [|done]. by constructor; simpl; auto.
Qed.

Lemma quiet_handleHeartbeat n req io now : quiet n (handleHeartbeat n req io now).1.
Proof.
  unfold handleHeartbeat. case_decide as Hle; [|done].
  set (r := if decide (hb_Term req > currentTerm n)%Z then _ else _).
  assert (quiet n r.1) as Hr.
  { subst r. case_decide as Hgt; [|done]. apply quiet_becomeFollower. lia. }
  destruct r as [n1 [|]]; cbn [fst negb] in *; [|done].
  assert (forall m, quiet n m -> quiet n (if decide (state m = StateLeader)
    then set_leaderID (hb_LeaderID req) (stepDownLocked m now) else m)) as H3.
  { intros m Hm. case_decide; [|done].
    eapply quiet_core; [etrans; [exact Hm|apply (quiet_stepDown m now)]|done]. }
  assert (forall m, quiet n m ->
    quiet n (if decide (state m <> StateFollower) then set_state StateFollower m else m)) as H4.
  { intros m Hm. case_decide; [by apply quiet_follower|done]. }
  apply H4, H3. by eapply quiet_core.
Qed.

Lemma quiet_checkQuorum n now : quiet n (checkQuorum n now).
Proof.
  unfold checkQuorum. case_decide; [done|]. cbv zeta. case_decide; [done|].
  destruct (quorumAckedSinceLocked _ _ _); [done|]. apply quiet_stepDown.
Qed.

Lemma quiet_handleVoteResponse n term respTerm io now :
  quiet n (handleVoteResponse n term respTerm io now).
Proof.
  unfold handleVoteResponse. case_decide as H; [|done]. apply quiet_becomeFollower. lia.
Qed.

Lemma quiet_checkCommit n io : quiet n (checkCommit n io).1.
Proof.
  unfold checkCommit. case_decide; [done|]. cbv zeta.
  destruct (commit_loop _ _ _) as [index|]; [|done].
  pose proof (quiet_rollback (set_commitIndex index) (set_commitIndex (commitIndex n)) n io None
    (fun _ => Some index) (fun _ => eq_refl) (fun _ => eq_refl)) as Hq.
  by destruct (persistHardStateLocked _ io) as [n1 [|]].
Qed.

Lemma core_set_progress id current next match_ n : core_of (set_progress id current next match_ n) = core_of n.
Proof. unfold set_progress. by destruct next, match_, current. Qed.

Lemma quiet_handleAppendEntriesResponse n peer current req resp io now :
  quiet n (handleAppendEntriesResponse n peer current req resp io now).1.
Proof.
  unfold handleAppendEntriesResponse. case_decide; [done|]. case_decide as Hgt.
  { apply quiet_becomeFollower. lia. }
  case_decide; [done|]. cbv zeta. destruct (ar_Success resp).
  - case_decide; [done|]. etrans; [apply core_quiet, core_set_progress|apply quiet_checkCommit].
  - case_decide; [done|]. case_decide; [done|]. apply core_quiet, core_set_progress.
Qed.

Lemma quiet_handleApply n data io : quiet n (handleApply n data io).1.
Proof.
  unfold handleApply. case_decide; [done|].
  pose proof (core_appendEntry n (MkEntry 0 (currentTerm n) LogCommand data) io) as Ha.
  destruct (appendEntry _ _ _) as [n1 [|]]; simpl in *; [|by apply core_quiet].
  destruct (last (log n1)); by apply core_quiet.
Qed.

Lemma quiet_propose n type peer old io : quiet n (proposeMembershipChange n type peer old io).1.
Proof.
  unfold proposeMembershipChange. cbv zeta. repeat (case_decide; [done|]).
  match goal with |- context [appendEntry n ?e io] => pose proof (core_appendEntry n e io) as Ha end.
  destruct (appendEntry _ _ _) as [n1 [|]]; simpl in *; [|by apply core_quiet].
  apply core_quiet. rewrite core_refresh. by destruct (last (log n1)).
Qed.

Lemma quiet_install_chunk n req io now : quiet n (handleInstallSnapshot_chunk n req io now).1.
Proof.
  unfold handleInstallSnapshot_chunk. case_decide; [done|].
  set (r := if decide (is_Term req > currentTerm n)%Z then _ else _).
  assert (quiet n r.1) as Hr.
  { subst r. case_decide as Hgt; [|done]. apply quiet_becomeFollower. lia. }
  destruct r as [n1 [|]]; cbn [fst negb] in *; [|done]. eapply quiet_core; [exact Hr|]. clear.
  set (m := set_leaderID (is_LeaderID req) (set_lastContact now n1)).
  change (core_of n1) with (core_of m). clearbody m. case_decide.
  { destruct (incomingSnapshot m) as [s|]; [by case_decide|done]. }
  set (n2 := if decide (is_Offset req = 0%Z) then _ else _).
  assert (core_of n2 = core_of m) as E by (subst n2; by case_decide). rewrite <- E. clearbody n2.
  destruct (incomingSnapshot n2) as [s|]; [|done]. case_decide; [done|]. by destruct (is_Done req).
Qed.

Lemma core_setBase base n : core_of (setMembershipBaseLocked base n) = core_of n.
Proof. unfold setMembershipBaseLocked. by rewrite core_refresh. Qed.

Lemma core_install_boundary n config index term now :
  core_of (install_boundary n config index term now) = core_of n.
Proof.
  unfold install_boundary.
  set (n1 := if decide (tableScopeFloor n < index)%Z then _ else n).
  assert (core_of n1 = core_of n) as <- by (subst n1; by case_decide). clearbody n1.
  set (n2 := set_logBaseTerm _ _). change (core_of n1) with (core_of n2). clearbody n2.
  set (n3 := if decide (0 < length config) then _ else _).
  assert (core_of n3 = core_of n2) as <-
    by (subst n3; case_decide; [apply core_setBase|apply core_refresh]). clearbody n3.
  set (n4 := if decide (commitIndex n3 < index)%Z then _ else n3).
  assert (core_of n4 = core_of n3) as <- by (subst n4; by case_decide). clearbody n4.
  by case_decide.
Qed.

Lemma quiet_install_finish n req index term restored io io_del now :
  quiet n (handleInstallSnapshot_finish n req index term restored io io_del now).1.
Proof.
  unfold handleInstallSnapshot_finish. destruct restored; cbn [negb]; [|by apply core_quiet].
  pose proof (core_install_boundary (set_restoring false n) (is_Configuration req) index term now) as E1.
  set (n1 := install_boundary _ _ _ _ _) in *. clearbody n1.
  pose proof (quiet_persist n1 io) as Hp.
  destruct (persistHardStateLocked n1 io) as [n2 [|]]; cbn [fst] in *;
    (etrans; [by apply (core_quiet n n1)|]); (etrans; [exact Hp|]); apply core_quiet; [|done].
  case_decide; [|done]. apply core_DeleteRange.
Qed.

Lemma quiet_compactLog n snapshotIndex io io_del : quiet n (compactLog n snapshotIndex io io_del).
Proof.
  unfold compactLog.
  assert (quiet n (compactLogLocked n snapshotIndex io).1) as H.
  { unfold compactLogLocked. case_decide; [done|]. cbv zeta. case_decide; [done|].
    destruct (logPosition _ _) as [pos|]; [|done].
    match goal with |- context [persistHardStateLocked ?m io] =>
      pose proof (quiet_persist m io) as Hp; assert (quiet n m) as Hq by (by apply core_quiet) end.
    by destruct (persistHardStateLocked _ io) as [n1 [|]]; etrans. }
  destruct (compactLogLocked _ _ _) as [n1 [[o b]|]]; cbn [fst] in *; [|done].
  case_decide; [done|]. etrans; [exact H|]. apply core_quiet, core_DeleteRange.
Qed.

(** ** Elections *)

(** An answer to a vote request: nothing happened to the vote of the current
    term, or the vote was granted, is in memory and is on disk. *)
Lemma handleRequestVote_cases n req io1 io2 now :
  let '(n', resp) := handleRequestVote n req io1 io2 now in
  (vr_VoteGranted resp = false -> quiet n n') /\
  (vr_VoteGranted resp = true ->
     exists n1, quiet n n1 /\ currentTerm n1 = rv_Term req /\
       (votedFor n1 = "" \/ votedFor n1 = rv_CandidateID req) /\
       nodeID n' = nodeID n1 /\ state n' = state n1 /\
       currentTerm n' = rv_Term req /\ votedFor n' = rv_CandidateID req /\
       (is_Some (stable n1) -> exists h, stable n' = Some (Some h) /\
          hs_CurrentTerm h = rv_Term req /\ hs_VotedFor h = rv_CandidateID req)).
Proof.
  unfold handleRequestVote. case_decide as Hlt; [by split|].
  set (r := if decide (rv_Term req > currentTerm n)%Z then _ else _).
  assert (quiet n r.1 /\ (r.2 = true -> currentTerm r.1 = rv_Term req)) as [Hq Ht].
  { subst r. case_decide as Hgt; [|split; [done|]; simpl; lia].
    destruct (quiet_becomeFollower n (rv_Term req) io1 now) as [H1 H2]; [lia|].
    split; [done|]. intros Hok. by apply H2. }
  destruct r as [n1 [|]]; cbn [fst snd negb] in *; [|by split]. specialize (Ht eq_refl).
  destruct (bool_decide (votedFor n1 = "" \/ votedFor n1 = rv_CandidateID req)) eqn:Ec; [|by split].
  apply bool_decide_eq_true in Ec. cbn [andb].
  destruct (isLogMoreUpToDate _ _ _); [|by split].
  pose proof (persist_shape (set_votedFor (rv_CandidateID req) n1) io2) as H.
  destruct (persistHardStateLocked _ io2) as [n2 [|]]; destruct H as (H1 & H2 & H3 & H4 & H5);
    cbn in H1, H2, H3, H4, H5 |- *; split; try done; intros _.
  - exists n1. split_and!; auto; [congruence|]. intros Hs.
    destruct H5 as [[_ E]|[_ E]]; [destruct Hs as [? Hs]; rewrite (E eq_refl) in Hs; done|].
    eexists. by rewrite E.
  - etrans; [exact Hq|]. constructor; cbn; [done|by left|by rewrite H2, H3|].
    destruct H5 as [[E _]|[Hs E]]; [by left|right]. split; [done|]. eexists. split; [done|].
    left. split; [done|]. cbn. destruct Ec as [->| ->]; auto.
Qed.

Definition no_wrap (n : Node) : Prop := (0 <= currentTerm n < 2 ^ 64 - 1)%Z.

Lemma u64_succ n : no_wrap n -> u64 (currentTerm n + 1) = (currentTerm n + 1)%Z.
Proof. intros H. unfold u64, no_wrap in *. apply Z.mod_small. lia. Qed.

(** The self-vote of a campaign: refused by the disk, or recorded. *)
Definition self_vote (n : Node) : Node :=
  set_votedFor (nodeID n) (set_currentTerm (u64 (currentTerm n + 1)) (set_state StateCandidate n)).

(** [won n n']: the node voted for itself in the next term, on disk too. *)
Record self_voted (n n' : Node) : Prop := {
  sv_id : nodeID n' = nodeID n;
  sv_term : currentTerm n' = (currentTerm n + 1)%Z;
  sv_vote : votedFor n' = nodeID n;
  sv_state : state n' = StateCandidate;
  sv_disk : is_Some (stable n) -> exists h, stable n' = Some (Some h) /\
    hs_CurrentTerm h = (currentTerm n + 1)%Z /\ hs_VotedFor h = nodeID n;
}.

Lemma self_vote_cases n io :
  no_wrap n ->
  let '(n', ok) := persistHardStateLocked (self_vote n) io in
  if ok then forall n'', core_of n'' = core_of n' -> self_voted n n''
  else quiet n (set_state StateFollower n').
Proof.
  intros Hw. pose proof (persist_shape (self_vote n) io) as H. unfold self_vote in *.
  rewrite (u64_succ n Hw) in *.
  destruct (persistHardStateLocked _ io) as [n' [|]]; destruct H as (H1 & H2 & H3 & H4 & H5);
    cbn in H1, H2, H3, H4, H5.
  - intros n'' E. unfold core_of in E. injection E as E1 E2 E3 E4 E5.
    constructor; try congruence. intros Hs.
    destruct H5 as [[_ E]|[_ E]]; [destruct Hs as [? Hs]; rewrite (E eq_refl) in Hs; done|].
    eexists. by rewrite E5, E.
  - constructor; cbn; [done|right; lia|done|]. destruct H5 as [[E _]|[Hs E]]; [by left|right].
    split; [done|]. eexists. split; [done|]. right. cbn. lia.
Qed.

Lemma begin_cases n io now :
  no_wrap n ->
  let '(n', e) := startElection_begin n io now in
  match e with
  | SingleNode term => term = currentTerm n' /\ votingPeers n = [] /\ self_voted n n'
  | _ => quiet n n'
  end.
Proof.
  intros Hw. unfold startElection_begin. destruct (removed n || awaitingJoin n); [done|].
  destruct (restoring n); [done|]. destruct (selfNonVoter n); [done|]. cbv zeta.
  case_decide as Hv.
  - pose proof (self_vote_cases n io Hw) as H. fold (self_vote n).
    destruct (persistHardStateLocked _ io) as [n' [|]]; [|done].
    split_and!; [done|by apply nil_length_inv|by apply H].
  - case_decide; [done|]. apply quiet_candidate.
Qed.

Lemma campaign_cases n preVoteTerm preVotes io now :
  no_wrap n ->
  let '(n', r) := startElection_campaign n preVoteTerm preVotes io now in
  match r with
  | Some req => self_voted n n' /\ rv_Term req = currentTerm n' /\ rv_CandidateID req = nodeID n
  | None => quiet n n'
  end.
Proof.
  intros Hw. pose proof (self_vote_cases n io Hw) as H.
  unfold startElection_campaign. case_decide; [done|].
  destruct preVotes; cbn [negb]; [|by apply quiet_follower]. cbv zeta. fold (self_vote n).
  destruct (persistHardStateLocked _ io) as [n' [|]]; [|done].
  assert (self_voted n (set_lastContact now (set_leaderID "" n'))) as Hs by by apply H.
  split; [done|]. split; [done|]. apply (sv_id _ _ Hs).
Qed.

(** Winning an election takes a candidate of that very term. *)
Lemma finish_cases n term numPeers votes io now :
  let n' := startElection_finish n term numPeers votes io now in
  quiet n n' \/
  (votesNeeded numPeers <= votes /\ currentTerm n = term /\ state n' = StateLeader /\
   nodeID n' = nodeID n /\ currentTerm n' = term /\ votedFor n' = votedFor n /\ stable n' = stable n).
Proof.
  unfold startElection_finish. cbv zeta. case_decide as Hv.
  - unfold becomeLeader. case_decide as Hc; [by left|].
    apply Decidable.not_or in Hc as [Ht _]. apply dec_stable in Ht. cbv zeta.
    match goal with |- context [appendEntry ?m ?e io] => pose proof (core_appendEntry m e io) as Ha end.
    destruct (appendEntry _ _ _) as [n1 [|]]; cbn [fst] in *; unfold core_of in Ha; cbn in Ha;
      injection Ha as H1 H2 H3 H4 H5; [right|left].
    + cbn. split_and!; first [done|congruence].
    + constructor; cbn; [done|by left|done|by left].
  - case_decide; [|by left]. left. by apply quiet_follower.
Qed.

(** ** Every other step of a node *)

Section apply.
Context {F : Type} (fsm_Apply : F -> RaftLogEntry -> F * option apply_error)
  (isRetryable : apply_error -> bool) (fsm_Set : F -> Z -> F).

Lemma core_applyMembership n e : core_of (applyMembershipEntry n e) = core_of n.
Proof.
  unfold applyMembershipEntry. cbv zeta. set (m := refreshMembershipLocked _).
  assert (core_of m = core_of n) as <- by (subst m; by rewrite core_refresh). clearbody m.
  destruct (_ && _); [done|]. by destruct (_ && _).
Qed.

Lemma core_notifyApply i t err n : core_of (notifyApply i t err n) = core_of n.
Proof. unfold notifyApply. by destruct (applyWaiters n !! i). Qed.

Lemma quiet_persistApplied n io : quiet n (persistApplied n io).1.
Proof.
  unfold persistApplied. pose proof (quiet_persist n io) as Hp.
  destruct (persistHardStateLocked n io) as [n1 ok]. by eapply quiet_core.
Qed.

Lemma quiet_skip n i io : quiet n (skipCommittedEntry n i io).1.
Proof.
  unfold skipCommittedEntry.
  pose proof (quiet_rollback (set_lastApplied i) (set_lastApplied (lastApplied n)) n io false
    (fun _ => true) (fun _ => eq_refl) (fun _ => eq_refl)) as Hq.
  by destruct (persistHardStateLocked _ io) as [n1 [|]].
Qed.

Lemma quiet_processCommitted fuel n f commit u k io :
  quiet n (processCommitted fsm_Apply isRetryable fsm_Set fuel n f commit u k io).1.1.
Proof.
  revert n f u k. induction fuel as [|fuel IH]; intros n f u k; [done|]. cbn [processCommitted].
  case_decide.
  { destruct (_ || _); [|done]. pose proof (quiet_persistApplied n (io k)) as Hp.
    by destruct (persistApplied n (io k)) as [n1 [|]]. }
  cbv zeta. destruct (logEntry _ _) as [entry|]; [|done].
  assert (core_of (apply_entry fsm_Apply n f entry).1.1 = core_of n) as Ea.
  { unfold apply_entry. case_decide.
    - destruct (decodeMembershipEntry _); [apply core_applyMembership|done].
    - by destruct (fsm_Apply f entry). }
  destruct (apply_entry fsm_Apply n f entry) as [[n1 f1] [err|]]; cbn [fst] in Ea;
    (etrans; [apply core_quiet, Ea|]).
  - destruct (isRetryable err); [apply core_quiet, core_notifyApply|].
    pose proof (quiet_skip n1 (u64 (lastApplied n + 1)) (io k)) as Hs.
    destruct (skipCommittedEntry _ _ _) as [n2 [|]]; cbn [fst] in *; [|done].
    etrans; [exact Hs|]. etrans; [apply core_quiet, core_notifyApply|apply IH].
  - set (n2 := notifyApply _ _ _ _).
    assert (quiet n1 n2) as H2 by (apply core_quiet; subst n2; by rewrite core_notifyApply).
    clearbody n2. case_decide.
    + pose proof (quiet_persistApplied n2 (io k)) as Hp.
      destruct (persistApplied n2 (io k)) as [n3 [|]]; cbn [fst] in *.
      * etrans; [exact H2|]. etrans; [exact Hp|apply IH].
      * by etrans.
    + etrans; [exact H2|apply IH].
Qed.
End apply.

(** What a node does besides voting, campaigning and winning. Messages are
    arbitrary: nothing is assumed about who sent them. *)
Inductive local_step (n : Node) : Node -> Prop :=
| ls_append req io now : local_step n (handleAppendEntries n req io now).1
| ls_heartbeat req io now : local_step n (handleHeartbeat n req io now).1
| ls_vote_response term respTerm io now : local_step n (handleVoteResponse n term respTerm io now)
| ls_append_response peer current req resp io now :
    local_step n (handleAppendEntriesResponse n peer current req resp io now).1
| ls_snapshot_sent peer current term index : local_step n (sendSnapshot_done n peer current term index)
| ls_ack peer term sentAt : local_step n (markPeerAck n peer term sentAt)
| ls_apply data io : local_step n (handleApply n data io).1
| ls_propose type peer old io : local_step n (proposeMembershipChange n type peer old io).1
| ls_check_commit io : local_step n (checkCommit n io).1
| ls_check_quorum now : local_step n (checkQuorum n now)
| ls_install_chunk req io now : local_step n (handleInstallSnapshot_chunk n req io now).1
| ls_install_publish term decoded stored :
    local_step n (handleInstallSnapshot_publish n term decoded stored).1
| ls_install_recheck req index : local_step n (handleInstallSnapshot_recheck n req index).1
| ls_install_finish req index term restored io io_del now :
    local_step n (handleInstallSnapshot_finish n req index term restored io io_del now).1
| ls_compact index io io_del : local_step n (compactLog n index io io_del)
| ls_process (F : Type) fsm_Apply isRetryable fsm_Set fuel (f : F) commit io :
    local_step n (processCommitted fsm_Apply isRetryable fsm_Set fuel n f commit 0 0 io).1.1
| ls_begin io now n' e :
    no_wrap n -> startElection_begin n io now = (n', e) ->
    (forall term, e <> SingleNode term) -> local_step n n'
| ls_campaign_off term pre io now n' :
    no_wrap n -> startElection_campaign n term pre io now = (n', None) -> local_step n n'.

Lemma local_step_quiet n n' : local_step n n' -> quiet n n'.
Proof.
  intros [].
  - apply quiet_handleAppendEntries.
  - apply quiet_handleHeartbeat.
  - apply quiet_handleVoteResponse.
  - apply quiet_handleAppendEntriesResponse.
  - unfold sendSnapshot_done. case_decide; [apply core_quiet, core_set_progress|done].
  - unfold markPeerAck. destruct (peers n !! peer); [|done]. case_decide; [by apply core_quiet|done].
  - apply quiet_handleApply.
  - apply quiet_propose.
  - apply quiet_checkCommit.
  - apply quiet_checkQuorum.
  - apply quiet_install_chunk.
  - unfold handleInstallSnapshot_publish. destruct (decoded && stored); by apply core_quiet.
  - unfold handleInstallSnapshot_recheck. case_decide; by apply core_quiet.
  - apply quiet_install_finish.
  - apply quiet_compactLog.
  - apply quiet_processCommitted.
  - pose proof (begin_cases n io now H) as Hb. rewrite H0 in Hb.
    destruct e; [done|by destruct (H1 term)|done].
  - pose proof (campaign_cases n term pre io now H) as Hb. by rewrite H0 in Hb.
Qed.

(** ** The cluster *)

Record campaign := Campaign {
  c_cand : string;
  c_term : Z;
  c_voting : list string; (* the voting peers the requests go to *)
  c_votes : list string;  (* those whose vote has been counted *)
}.

Record cluster := Cluster {
  nodes : string -> Node;
  grants : gset (string * string * Z); (* voter, candidate, term *)
  campaigns : list campaign;
  led : gset (string * Z); (* who became leader in which term *)
}.

Context (V : gset string).

Definition upd (f : string -> Node) (i : string) (n : Node) : string -> Node :=
  fun j => if decide (j = i) then n else f j.

(** The voting peers of a member of the configuration [V]. *)
Definition voting_ok (i : string) (voting : list string) : Prop :=
  i ∈ V /\ NoDup voting /\ forall j, j ∈ voting <-> j ∈ V /\ j <> i.

(** A node [NewNode] builds over the stores of [n]. *)
Definition fresh_over (n fresh : Node) : Prop :=
  nodeID fresh = nodeID n /\ state fresh = StateFollower /\ currentTerm fresh = 0%Z /\
  votedFor fresh = "" /\ stable fresh = stable n /\ storage fresh = storage n.

Inductive cstep (cl : cluster) : cluster -> Prop :=
| cs_local i n' :
    local_step (nodes cl i) n' ->
    cstep cl (Cluster (upd (nodes cl) i n') (grants cl) (campaigns cl) (led cl))
| cs_single i io now n' term :
    no_wrap (nodes cl i) -> startElection_begin (nodes cl i) io now = (n', SingleNode term) ->
    voting_ok i [] ->
    cstep cl (Cluster (upd (nodes cl) i n') ({[(i, i, term)]} ∪ grants cl)
      (Campaign i term [] [] :: campaigns cl) (led cl))
| cs_campaign i preTerm pre io now n' req voting :
    no_wrap (nodes cl i) ->
    startElection_campaign (nodes cl i) preTerm pre io now = (n', Some req) ->
    voting_ok i voting ->
    cstep cl (Cluster (upd (nodes cl) i n') ({[(i, i, rv_Term req)]} ∪ grants cl)
      (Campaign i (rv_Term req) voting [] :: campaigns cl) (led cl))
| cs_vote v k req io1 io2 now n' resp :
    k ∈ campaigns cl -> rv_CandidateID req = c_cand k -> rv_Term req = c_term k ->
    handleRequestVote (nodes cl v) req io1 io2 now = (n', resp) ->
    cstep cl (Cluster (upd (nodes cl) v n')
      (if vr_VoteGranted resp then {[(v, rv_CandidateID req, rv_Term req)]} ∪ grants cl
       else grants cl) (campaigns cl) (led cl))
| cs_count k ks1 ks2 v :
    campaigns cl = ks1 ++ k :: ks2 -> v ∈ c_voting k -> v ∉ c_votes k ->
    (v, c_cand k, c_term k) ∈ grants cl ->
    cstep cl (Cluster (nodes cl) (grants cl)
      (ks1 ++ Campaign (c_cand k) (c_term k) (c_voting k) (v :: c_votes k) :: ks2) (led cl))
| cs_finish k io now n' :
    k ∈ campaigns cl ->
    n' = startElection_finish (nodes cl (c_cand k)) (c_term k) (length (c_voting k))
           (S (length (c_votes k))) io now ->
    cstep cl (Cluster (upd (nodes cl) (c_cand k) n') (grants cl) (campaigns cl)
      (if decide (state (nodes cl (c_cand k)) <> StateLeader /\ state n' = StateLeader)
       then {[(c_cand k, currentTerm n')]} ∪ led cl else led cl))
| cs_restart i fresh c saved durable meta n' :
    fresh_over (nodes cl i) fresh -> start_node fresh c saved durable meta = Some n' ->
    cstep cl (Cluster (upd (nodes cl) i n') (grants cl) (campaigns cl) (led cl)).

Definition cinit (cl : cluster) : Prop :=
  (forall i, nodeID (nodes cl i) = i /\ state (nodes cl i) = StateFollower /\
     currentTerm (nodes cl i) = 0%Z /\ votedFor (nodes cl i) = "" /\
     stable (nodes cl i) = Some None) /\
  grants cl = ∅ /\ campaigns cl = [] /\ led cl = ∅.

Inductive creach : cluster -> Prop :=
| creach_init cl : cinit cl -> creach cl
| creach_step cl cl' : creach cl -> cstep cl cl' -> creach cl'.

(** ** The invariant *)

(** A vote [c] given in term [t] binds the node that remembers [t'] and [v]. *)
Definition bound (c : string) (t : Z) (v : string) (t' : Z) : Prop :=
  (t <= t')%Z /\ (t = t' -> v = c).

Definition voter_ok (n : Node) (gs : gset (string * string * Z)) : Prop :=
  is_Some (stable n) /\
  forall c t, (nodeID n, c, t) ∈ gs ->
    c <> "" /\ bound c t (votedFor n) (currentTerm n) /\
    exists h, stable n = Some (Some h) /\ bound c t (hs_VotedFor h) (hs_CurrentTerm h).

Definition campaign_ok (gs : gset (string * string * Z)) (k : campaign) : Prop :=
  voting_ok (c_cand k) (c_voting k) /\ (c_cand k, c_cand k, c_term k) ∈ gs /\
  NoDup (c_votes k) /\
  forall v, v ∈ c_votes k -> v ∈ c_voting k /\ (v, c_cand k, c_term k) ∈ gs.

Record cinv (cl : cluster) : Prop := {
  ci_node : forall i, nodeID (nodes cl i) = i /\ voter_ok (nodes cl i) (grants cl);
  ci_unique : forall v c1 c2 t,
    (v, c1, t) ∈ grants cl -> (v, c2, t) ∈ grants cl -> c1 = c2;
  ci_campaign : Forall (campaign_ok (grants cl)) (campaigns cl);
  ci_led : forall i t, (i, t) ∈ led cl ->
    exists q, majority q V /\ forall v, v ∈ q -> (v, i, t) ∈ grants cl;
}.

Lemma voter_quiet n n' gs : quiet n n' -> voter_ok n gs -> voter_ok n' gs.
Proof.
  intros [Hid Ht _ Hd] [Hs Hg]. split.
  - destruct Hd as [->|[_ (h & -> & _)]]; [done|by eexists].
  - rewrite Hid. intros c t Hin. destruct (Hg c t Hin) as (Hc & [Hle Heq] & h & Eh & Hh).
    split; [done|]. split.
    + unfold bound. destruct Ht as [[-> ->]|Hlt]; [done|]. split; lia.
    + destruct Hd as [->|[_ (h' & -> & Hok)]]; [by exists h|]. exists h'. split; [done|].
      unfold bound. destruct Hok as [[E Hv]|Hlt]; [|split; lia]. rewrite E. split; [done|].
      intros Et. specialize (Heq Et). destruct Hv as [->|Hv]; [done|]. congruence.
Qed.

Lemma voter_grants (n : Node) (gs gs' : gset (string * string * Z)) :
  voter_ok n gs -> (forall c t, (nodeID n, c, t) ∈ gs' -> (nodeID n, c, t) ∈ gs) -> voter_ok n gs'.
Proof. intros [Hs Hg] Hsub. split; [done|]. intros c t Hin. by apply Hg, Hsub. Qed.

Lemma campaign_mono (gs gs' : gset (string * string * Z)) k :
  gs ⊆ gs' -> campaign_ok gs k -> campaign_ok gs' k.
Proof. intros Hsub (H1 & H2 & H3 & H4). split_and!; auto. intros v Hv. destruct (H4 v Hv); auto. Qed.

Lemma upd_eq f i n : upd f i n i = n.
Proof. unfold upd. by rewrite decide_True. Qed.

Lemma upd_ne f i n j : j <> i -> upd f i n j = f j.
Proof. intros H. unfold upd. by rewrite decide_False. Qed.

(** A quiet step keeps the invariant. *)
Lemma inv_quiet cl i n' :
  cinv cl -> quiet (nodes cl i) n' ->
  cinv (Cluster (upd (nodes cl) i n') (grants cl) (campaigns cl) (led cl)).
Proof.
  intros [Hn Hu Hc Hl] Hq. constructor; simpl; auto. intros j. unfold upd.
  case_decide as E; [subst j|apply Hn]. destruct (Hn i) as [Hid Hv]. split.
  - rewrite (q_id _ _ Hq). done.
  - by eapply voter_quiet.
Qed.

(** So does a vote that is consistent with the earlier ones and on disk. *)
Lemma inv_grant cl i n' c t h ks :
  cinv cl -> nodeID n' = i -> currentTerm n' = t -> votedFor n' = c -> c <> "" ->
  stable n' = Some (Some h) -> hs_CurrentTerm h = t -> hs_VotedFor h = c ->
  (forall c' t', (i, c', t') ∈ grants cl -> (t' <= t)%Z /\ (t' = t -> c' = c)) ->
  Forall (campaign_ok ({[(i, c, t)]} ∪ grants cl)) ks ->
  cinv (Cluster (upd (nodes cl) i n') ({[(i, c, t)]} ∪ grants cl) ks (led cl)).
Proof.
  intros [Hn Hu Hc Hl] Hid Ht Hv Hne Hs Hst Hsv Hold Hks. constructor; simpl.
  - intros j. unfold upd. case_decide as E.
    + subst j. split; [done|]. split; [rewrite Hs; by eexists|]. rewrite Hid. intros c' t' Hin.
      assert ((t' <= t)%Z /\ (t' = t -> c' = c) /\ c' <> "") as (H1 & H2 & H3).
      { apply elem_of_union in Hin as [E%elem_of_singleton|Hin]; [by simplify_eq|].
        destruct (Hold c' t' Hin) as [? ?]. destruct (Hn i) as [Hi [_ Hg]].
        split_and!; auto. eapply Hg. by rewrite Hi. }
      split; [done|]. split; [|exists h; split; [done|]]; unfold bound; rewrite ?Ht, ?Hv, ?Hst, ?Hsv;
        (split; [done|]); intros E; symmetry; auto.
    + destruct (Hn j) as [Hj Hvj]. split; [done|]. apply (voter_grants _ _ _ Hvj).
      rewrite Hj. intros c' t' [E'%elem_of_singleton|?]%elem_of_union; [|done]. by simplify_eq.
  - intros v c1 c2 t' H1 H2.
    apply elem_of_union in H1 as [E1%elem_of_singleton|H1];
      apply elem_of_union in H2 as [E2%elem_of_singleton|H2]; simplify_eq; auto.
    + symmetry. by apply (Hold _ _ H2).
    + by apply (Hold _ _ H1).
    + by eapply Hu.
  - done.
  - intros j t' (q & Hq & Hall)%Hl. exists q. split; [done|]. intros v Hv'. set_solver.
Qed.

Lemma self_vote_inv cl i n' voting :
  cinv cl -> self_voted (nodes cl i) n' -> voting_ok i voting -> "" ∉ V ->
  cinv (Cluster (upd (nodes cl) i n') ({[(i, i, currentTerm n')]} ∪ grants cl)
    (Campaign i (currentTerm n') voting [] :: campaigns cl) (led cl)).
Proof.
  intros Hinv [S1 S2 S3 S4 S5] Hvo HV. pose proof Hinv as [Hn Hu Hc Hl].
  destruct (Hn i) as [Hid [Hst Hg]]. destruct (S5 Hst) as (h & Eh & H1 & H2).
  eapply (inv_grant cl i n' i (currentTerm n') h); auto; try congruence.
  - intros ->. by destruct Hvo.
  - intros c' t' Hin. rewrite <- Hid in Hin at 1. destruct (Hg c' t' Hin) as (_ & [Hle _] & _). lia.
  - constructor.
    + split_and!; simpl; [done|set_solver|constructor|]. intros v Hv. by apply elem_of_nil in Hv.
    + eapply Forall_impl; [exact Hc|]. intros k. apply campaign_mono. set_solver.
Qed.

(** The votes of a won campaign are a majority of the voters. *)
Lemma campaign_majority gs k :
  campaign_ok gs k -> votesNeeded (length (c_voting k)) <= S (length (c_votes k)) ->
  exists q, majority q V /\ forall v, v ∈ q -> (v, c_cand k, c_term k) ∈ gs.
Proof.
  intros ((Hi & Hnd & Hin) & Hself & Hvn & Hv) Hneed.
  exists ({[c_cand k]} ∪ list_to_set (c_votes k)). split; [split|].
  - intros v [->%elem_of_singleton|Hx%elem_of_list_to_set]%elem_of_union; [done|].
    destruct (Hv v Hx) as [Hx' _]. by apply Hin.
  - assert (size V = S (length (c_voting k))) as ->.
    { assert (V = {[c_cand k]} ∪ list_to_set (c_voting k)) as E.
      { apply set_eq. intros x. rewrite elem_of_union, elem_of_singleton, elem_of_list_to_set, Hin.
        destruct (decide (x = c_cand k)); [subst; tauto|tauto]. }
      rewrite E, size_union, size_singleton, size_list_to_set by
        (done || (intros x; rewrite elem_of_singleton, elem_of_list_to_set, Hin; intros ->; tauto)).
      done. }
    rewrite size_union, size_singleton, size_list_to_set; [|done|].
    + unfold votesNeeded in Hneed. assert (2 * ((length (c_voting k) + 1) / 2) + 1 >= length (c_voting k) + 1)%nat.
      { pose proof (Nat.div_mod_eq (length (c_voting k) + 1) 2).
        pose proof (Nat.mod_upper_bound (length (c_voting k) + 1) 2). lia. }
      lia.
    + intros x. rewrite elem_of_singleton, elem_of_list_to_set. intros -> Hx.
      destruct (Hv _ Hx) as [Hx' _]. apply Hin in Hx'. tauto.
  - intros v [->%elem_of_singleton|Hx%elem_of_list_to_set]%elem_of_union; [done|]. by apply Hv.
Qed.

Lemma core_restore_membership n c saved :
  core_of (restoreRemoved (restorePeers n c (saved_peers saved)) (saved_removed saved)) = core_of n.
Proof.
  transitivity (core_of (restorePeers n c (saved_peers saved))).
  - unfold restoreRemoved. by destruct (_ && _).
  - unfold restorePeers. destruct (stable n), (saved_peers saved); try done.
    unfold setMembershipBaseLocked. by rewrite core_refresh.
Qed.

Lemma restart_core n fresh c saved durable meta n' :
  fresh_over n fresh -> start_node fresh c saved durable meta = Some n' ->
  nodeID n' = nodeID n /\ state n' = StateFollower /\ stable n' = stable n /\
  match stable n with
  | Some (Some h) => currentTerm n' = hs_CurrentTerm h /\ votedFor n' = hs_VotedFor h
  | _ => currentTerm n' = 0%Z /\ votedFor n' = ""
  end.
Proof.
  intros (E1 & E2 & E3 & E4 & E5 & _). unfold start_node.
  set (n0 := restoreRemoved _ _). set (n1 := restoreLatestSnapshot _ durable meta).
  assert (core_of n0 = core_of (restoreHardState fresh)) as C0 by apply core_restore_membership.
  clearbody n0. assert (core_of n1 = core_of n0) as C1.
  { subst n1. unfold restoreLatestSnapshot. destruct meta as [[idx t]|]; [|done].
    case_decide; [done|]. destruct (durable && _); [done|]. cbv zeta. by case_decide. }
  clearbody n1. destruct (restoreLog n1) as [n2|] eqn:Er; [|done].
  assert (core_of n2 = core_of n1) as C2.
  { unfold restoreLog in Er. destruct (storage n1) as [st|]; [|done]. cbv zeta in Er.
    case_decide; [by simplify_eq|]. case_decide; [done|].
    destruct (get_logs _ _ _) as [es|]; [|done]. simpl in Er. by simplify_eq. }
  cbn [mbind option_bind]. intros [= <-].
  set (n3 := if existsb _ _ then _ else n2).
  assert (core_of n3 = core_of n2) as C3 by (subst n3; destruct (existsb _ _); [apply core_refresh|done]).
  clearbody n3. rewrite C2, C1, C0 in C3. unfold restoreHardState, core_of in C3. rewrite E5 in C3.
  destruct (stable n) as [[h|]|]; cbn in C3; injection C3 as D1 D2 D3 D4 D5; cbn;
    split_and!; congruence.
Qed.

Lemma cstep_inv cl cl' : "" ∉ V -> cinv cl -> cstep cl cl' -> cinv cl'.
Proof.
  intros HV Hinv Hst. pose proof Hinv as [Hn Hu Hc Hl].
  destruct Hst as [i n' Hs|i io now n' term Hw E Hvo|i pt pre io now n' req voting Hw E Hvo
    |v k req io1 io2 now n' resp Hk Ec Et E|k ks1 ks2 v Ek Hv Hnv Hg|k io now n' Hk En
    |i fresh cfg saved durable meta n' Hf E].
  - by apply inv_quiet; [|apply local_step_quiet].
  - pose proof (begin_cases _ io now Hw) as Hb. rewrite E in Hb.
    destruct Hb as (-> & _ & Hb). by apply self_vote_inv.
  - pose proof (campaign_cases _ pt pre io now Hw) as Hb. rewrite E in Hb.
    destruct Hb as (Hb & -> & _). by apply self_vote_inv.
  - pose proof (handleRequestVote_cases (nodes cl v) req io1 io2 now) as Hb. rewrite E in Hb.
    destruct Hb as [Hno Hyes]. destruct (vr_VoteGranted resp); [|by apply inv_quiet; auto].
    destruct (Hyes eq_refl) as (n1 & Hq & T1 & V1 & I1 & _ & T2 & V2 & D). clear Hno Hyes.
    destruct (Hn v) as [Hid Hvok]. pose proof (voter_quiet _ _ _ Hq Hvok) as [Hs1 Hg1].
    rewrite (q_id _ _ Hq), Hid in Hg1. destruct (D Hs1) as (h & Eh & Dt & Dv).
    rewrite Forall_forall in Hc. destruct (Hc k Hk) as ((Hcand & _) & _).
    eapply (inv_grant cl v n' _ _ h); auto.
    + by rewrite I1, (q_id _ _ Hq).
    + rewrite Ec. intros E'. by rewrite E' in Hcand.
    + intros c' t' Hin. destruct (Hg1 c' t' Hin) as (Hne & [Hle Heq] & _). rewrite T1 in *.
      split; [done|]. intros Et'. specialize (Heq Et'). destruct V1 as [V1|V1]; congruence.
    + apply Forall_forall. intros k' Hk'. eapply campaign_mono; [|by apply Hc]. set_solver.
  - constructor; simpl; auto. rewrite Ek in Hc. apply Forall_app in Hc as [Hc1 Hc2].
    apply Forall_cons in Hc2 as [(K1 & K2 & K3 & K4) Hc2]. apply Forall_app. split; [done|].
    constructor; [|done]. split_and!; simpl; auto; [by constructor|].
    intros x [->|Hx]%elem_of_cons; auto.
  - rewrite Forall_forall in Hc. pose proof (Hc k Hk) as Hck.
    destruct (finish_cases (nodes cl (c_cand k)) (c_term k) (length (c_voting k))
      (S (length (c_votes k))) io now) as [Hq|(Hneed & Ht & Hld & Hid & Ht' & Hv' & Hs')];
      rewrite <- En in *.
    + rewrite decide_False; [by apply inv_quiet|]. intros [H1 H2]. by apply H1, (q_leader _ _ Hq).
    + assert (quiet (nodes cl (c_cand k)) (set_state StateFollower n')) as Hq.
      { constructor; simpl; [done|left; split; congruence|done|by left]. }
      pose proof (inv_quiet cl (c_cand k) _ Hinv Hq) as [Hn1 _ _ _].
      constructor; simpl; auto; [|by apply Forall_forall|].
      * intros j. specialize (Hn1 j). unfold upd in *. simpl in *. by case_decide.
      * intros j t Hin. case_decide; [|by apply Hl].
        apply elem_of_union in Hin as [Hin%elem_of_singleton|Hin]; [|by apply Hl].
        simplify_eq. rewrite Ht'. by apply campaign_majority.
  - destruct (restart_core _ _ _ _ _ _ _ Hf E) as (R1 & R2 & R3 & R4).
    constructor; simpl; auto. intros j. unfold upd. case_decide as Ej; [subst j|apply Hn].
    destruct (Hn i) as [Hid [Hst Hg]]. split; [congruence|]. split; [by rewrite R3|].
    rewrite R1, R3. intros c t Hin. destruct (Hg c t Hin) as (Hc' & _ & h & Eh & Hb).
    rewrite Eh in R4. destruct R4 as [-> ->]. split; [done|]. split; [done|]. by exists h.
Qed.

Lemma creach_inv cl : "" ∉ V -> creach cl -> cinv cl.
Proof.
  intros HV. induction 1 as [cl (Hn & Hg & Hk & Hl)|cl cl' _ IH Hs]; [|by eapply cstep_inv].
  constructor.
  - intros i. destruct (Hn i) as (H1 & _ & _ & _ & H5). split; [done|].
    split; [rewrite H5; by eexists|]. rewrite Hg. set_solver.
  - rewrite Hg. set_solver.
  - rewrite Hk. constructor.
  - rewrite Hl. set_solver.
Qed.

(** C8: election safety. In every run of the cluster with the voters [V],
    however messages are delayed, repeated or lost, whichever disk writes
    fail, whatever append, heartbeat and snapshot requests arrive, and
    however often nodes crash and restart, at most one node becomes leader
    in a term. *)
Theorem election_safety cl i j t :
  "" ∉ V -> creach cl -> (i, t) ∈ led cl -> (j, t) ∈ led cl -> i = j.
Proof.
  intros HV Hr Hi Hj. destruct (creach_inv cl HV Hr) as [_ Hu _ Hl].
  destruct (Hl i t Hi) as (q1 & M1 & H1). destruct (Hl j t Hj) as (q2 & M2 & H2).
  destruct (majorities_meet V V q1 q2 "") as (v & Hv1 & Hv2); [set_solver|set_solver|done|done|].
  by apply (Hu v i j t); [apply H1|apply H2].
Qed.
End cluster.
