(* ===== verification/RaftLog.v ===== *)
(** * The log of a Raft node

    The well-formedness of the in-memory log (a base entry, then consecutive
    indexes), its preservation by the operations of Raft.v and RaftOps.v, and
    the functional properties of replication: what an accepted AppendEntries
    does to the log, what compaction and snapshot installation keep, and when
    a leader advances its commit index. *)
From stdpp Require Import base gmap strings list sorting.
From Stdlib Require Import ZArith Lia Strings.Byte.
From S2P Require Import Prelude Membership Raft RaftOps.

Open Scope Z_scope.

(** ** Well-formed logs *)

Definition indexed (base : Z) (es : list RaftLogEntry) : Prop :=
  forall k e, es !! k = Some e -> Index e = base + Z.of_nat k.

Record log_wf (n : Node) : Prop := {
  lw_base : 0 <= logBase n;
  lw_head : exists e0 es, log n = e0 :: es /\ Term e0 = logBaseTerm n;
  lw_index : indexed (logBase n) (log n);
  lw_bound : logBase n + Z.of_nat (length (log n)) < 2 ^ 64;
}.

Lemma u64_small x : 0 <= x < 2 ^ 64 -> u64 x = x.
Proof. intros H. unfold u64. by apply Z.mod_small. Qed.

Lemma indexed_nil base : indexed base [].
Proof. intros k e H. by rewrite lookup_nil in H. Qed.

Lemma indexed_cons base e es :
  indexed base (e :: es) <-> Index e = base /\ indexed (base + 1) es.
Proof.
  split.
  - intros H. split; [rewrite (H 0%nat e) by done; lia|].
    intros k x Hx. rewrite (H (S k) x) by done. lia.
  - intros [H1 H2] [|k] x Hx; simpl in Hx; [simplify_eq; lia|]. rewrite (H2 k x Hx). lia.
Qed.

Lemma indexed_app base es1 es2 :
  indexed base (es1 ++ es2) <-> indexed base es1 /\ indexed (base + Z.of_nat (length es1)) es2.
Proof.
  revert base. induction es1 as [|e es1 IH]; intros base.
  - simpl. rewrite Z.add_0_r. split; [intros H; split; [apply indexed_nil|done]|by intros [_ ?]].
  - cbn [app length]. rewrite !indexed_cons, IH.
    replace (base + 1 + Z.of_nat (length es1)) with (base + Z.of_nat (S (length es1))) by lia. tauto.
Qed.

Lemma log_nonempty n : log_wf n -> (0 < length (log n))%nat.
Proof. intros [_ (e0 & es & -> & _) _ _]. simpl. lia. Qed.

Lemma lastLogIndex_wf n :
  log_wf n -> lastLogIndexLocked n = logBase n + Z.of_nat (length (log n)) - 1.
Proof.
  intros Hw. pose proof (log_nonempty n Hw) as Hlen. unfold lastLogIndexLocked.
  rewrite last_lookup. destruct (lookup_lt_is_Some_2 (log n) (pred (length (log n)))) as [e He]; [lia|].
  rewrite He, (lw_index n Hw _ _ He). lia.
Qed.

Lemma logEntry_lookup n i :
  logBase n <= i -> logEntry n i = log n !! Z.to_nat (i - logBase n).
Proof.
  intros Hi. unfold logEntry, logPosition. rewrite decide_False by lia. case_decide as Hd; [|done].
  simpl. symmetry. apply lookup_ge_None. lia.
Qed.

Lemma logEntry_below n i : i < logBase n -> logEntry n i = None.
Proof. intros Hi. unfold logEntry, logPosition. by rewrite decide_True. Qed.

Lemma logEntry_Index n i e : log_wf n -> logEntry n i = Some e -> Index e = i /\ logBase n <= i.
Proof.
  intros Hw E. destruct (decide (i < logBase n)); [by rewrite logEntry_below in E|].
  rewrite logEntry_lookup in E by lia. pose proof (lw_index n Hw _ _ E). lia.
Qed.

Lemma logEntry_range n i :
  log_wf n -> is_Some (logEntry n i) <-> logBase n <= i <= lastLogIndexLocked n.
Proof.
  intros Hw. rewrite (lastLogIndex_wf n Hw). destruct (decide (i < logBase n)) as [Hlt|Hge].
  - rewrite logEntry_below by done. split; [by intros [? ?]|lia].
  - rewrite logEntry_lookup by lia. rewrite lookup_lt_is_Some. pose proof (log_nonempty n Hw). lia.
Qed.

Lemma getLogTerm_entry n i e : log_wf n -> logEntry n i = Some e -> getLogTerm n i = Term e.
Proof.
  intros Hw E. unfold getLogTerm. case_decide as Hd; [|by rewrite E]. subst i.
  rewrite logEntry_lookup, Z.sub_diag in E by lia. destruct (lw_head n Hw) as (e0 & es & El & Et).
  rewrite El in E. simpl in E. congruence.
Qed.

(** Changing only the log, to one that is indexed from the same base. *)
Lemma log_wf_set n es e0 rest :
  log_wf n -> es = e0 :: rest -> Term e0 = logBaseTerm n -> indexed (logBase n) es ->
  logBase n + Z.of_nat (length es) < 2 ^ 64 -> log_wf (set_log es n).
Proof. intros [H1 _ _ _] -> Ht Hi Hb. constructor; simpl; eauto. Qed.

(** Fields the log functions read. *)
Definition log_view (n : Node) := (log n, logBase n, logBaseTerm n).

Lemma log_wf_view n n' : log_view n' = log_view n -> log_wf n -> log_wf n'.
Proof.
  unfold log_view. intros [= E1 E2 E3] [H1 H2 H3 H4]. constructor; rewrite ?E1, ?E2, ?E3; auto.
Qed.

Lemma logEntry_view n n' i : log_view n' = log_view n -> logEntry n' i = logEntry n i.
Proof. unfold log_view. intros [= E1 E2 E3]. unfold logEntry, logPosition. by rewrite E1, E2. Qed.

Lemma lastLogIndex_view n n' : log_view n' = log_view n -> lastLogIndexLocked n' = lastLogIndexLocked n.
Proof. unfold log_view. intros [= E1 E2 E3]. unfold lastLogIndexLocked. by rewrite E1, E2. Qed.

Lemma view_persist n io : log_view (persistHardStateLocked n io).1 = log_view n.
Proof. unfold persistHardStateLocked. destruct (stable n); [|done]. by destruct io as [|[|]]. Qed.

Lemma view_StoreLogs n es io : log_view (StoreLogs n es io).1 = log_view n.
Proof. unfold StoreLogs. destruct (storage n); [|done]. by destruct io. Qed.

Lemma view_DeleteRange n lo hi io : log_view (DeleteRange n lo hi io).1 = log_view n.
Proof. unfold DeleteRange. destruct (storage n); [|done]. by destruct io. Qed.

Lemma view_becomeFollower n term io now : log_view (becomeFollower n term io now).1 = log_view n.
Proof.
  unfold becomeFollower.
  pose proof (view_persist (set_votedFor "" (set_currentTerm term n)) io) as Hp.
  destruct (persistHardStateLocked _ io) as [n1 [|]]; cbn [fst] in *; [|exact Hp].
  case_decide; destruct (bool_decide _); exact Hp.
Qed.

Lemma view_refresh `{MembershipCodec} n : log_view (refreshMembershipLocked n) = log_view n.
Proof. unfold refreshMembershipLocked. by destruct (fold_log _ _ _ _). Qed.

(** ** Appending *)

Lemma appendEntry_ok n e io n' :
  log_wf n -> lastLogIndexLocked n + 2 < 2 ^ 64 -> appendEntry n e io = (n', true) ->
  log_wf n' /\ logBase n' = logBase n /\
  log n' = log n ++ [MkEntry (lastLogIndexLocked n + 1) (Term e) (Type_ e) (Data e)].
Proof.
  intros Hw Hb E. pose proof (lastLogIndex_wf n Hw) as Hl. pose proof (log_nonempty n Hw) as Hne.
  pose proof (lw_base n Hw). unfold appendEntry in E. rewrite u64_small in E by lia.
  match type of E with context [StoreLogs n ?es io] => pose proof (view_StoreLogs n es io) as Hv end.
  destruct (StoreLogs _ _ _) as [n1 [|]]; [|done]. injection E as <-. cbn [fst] in Hv.
  unfold log_view in Hv. injection Hv as E1 E2 E3. destruct (lw_head n Hw) as (e0 & es & El & Et).
  cbn. rewrite E1, E2. split; [|done].
  apply (log_wf_set n1 _ e0 (es ++ [MkEntry (lastLogIndexLocked n + 1) (Term e) (Type_ e) (Data e)])).
  - apply (log_wf_view n); [|done]. unfold log_view. congruence.
  - by rewrite El.
  - congruence.
  - rewrite E2. apply indexed_app. split; [apply Hw|]. apply indexed_cons.
    split; [simpl; lia|apply indexed_nil].
  - rewrite E2, length_app. simpl. lia.
Qed.

(** ** Reconciling with the leader's entries *)

(** Entries with consecutive indexes from [base]. *)
Fixpoint stamp (base : Z) (es : list RaftLogEntry) : list RaftLogEntry :=
  match es with
  | [] => []
  | e :: rest => MkEntry base (Term e) (Type_ e) (Data e) :: stamp (base + 1) rest
  end.

Lemma stamp_length base es : length (stamp base es) = length es.
Proof. revert base. induction es; intros base; simpl; auto. Qed.

Lemma stamp_indexed base es : indexed base (stamp base es).
Proof.
  revert base. induction es as [|e es IH]; intros base; simpl; [apply indexed_nil|].
  by apply indexed_cons.
Qed.

Lemma stamp_lookup base es k :
  stamp base es !! k =
  (fun e => MkEntry (base + Z.of_nat k) (Term e) (Type_ e) (Data e)) <$> es !! k.
Proof.
  revert base k. induction es as [|e es IH]; intros base [|k]; simpl; try done.
  - by rewrite Z.add_0_r.
  - rewrite IH. destruct (es !! k); simpl; [|done]. do 2 f_equal. lia.
Qed.

Lemma new_entries_after lst idx es :
  lst < idx -> 0 <= idx -> idx + Z.of_nat (length es) < 2 ^ 64 -> new_entries lst idx es = stamp idx es.
Proof.
  revert idx. induction es as [|e es IH]; intros idx Hl H0 Hb; cbn [new_entries stamp length] in *; [done|].
  rewrite decide_True by lia. rewrite u64_small by lia. by rewrite IH by lia.
Qed.

Lemma new_entries_stamp lst idx es :
  idx <= lst + 1 -> 0 <= idx -> idx + Z.of_nat (length es) < 2 ^ 64 ->
  new_entries lst idx es = stamp (lst + 1) (drop (Z.to_nat (lst + 1 - idx)) es).
Proof.
  revert idx. induction es as [|e es IH]; intros idx Hl H0 Hb.
  { by rewrite drop_nil. }
  destruct (decide (idx = lst + 1)) as [E|E].
  { rewrite new_entries_after by lia. by rewrite E, Z.sub_diag, drop_0. }
  cbn [new_entries length] in *. rewrite decide_False by lia. rewrite u64_small by lia.
  rewrite IH by lia. replace (Z.to_nat (lst + 1 - idx)) with (S (Z.to_nat (lst + 1 - (idx + 1)))) by lia.
  done.
Qed.

(** [agree n idx es]: wherever the log has an entry, its term is that of the
    incoming one. *)
Definition agree (n : Node) (idx : Z) (es : list RaftLogEntry) : Prop :=
  forall k e local, es !! k = Some e -> logEntry n (idx + Z.of_nat k) = Some local ->
    Term local = Term e.

Lemma find_conflict_spec n idx es :
  0 <= idx -> idx + Z.of_nat (length es) < 2 ^ 64 ->
  match find_conflict n idx es with
  | None => agree n idx es
  | Some at_ => exists k local, at_ = idx + Z.of_nat k /\ (k < length es)%nat /\
      logEntry n at_ = Some local /\ agree n idx (take k es) /\ ~ agree n idx es
  end.
Proof.
  revert idx. induction es as [|e es IH]; intros idx H0 Hb; cbn [find_conflict length] in *.
  { intros k e local H. by rewrite lookup_nil in H. }
  rewrite u64_small by lia. specialize (IH (idx + 1) ltac:(lia) ltac:(lia)).
  assert (forall es', agree n (idx + 1) es' ->
    (forall local, logEntry n idx = Some local -> Term local = Term e) -> agree n idx (e :: es')) as Hcons.
  { intros es' Ha Hh [|k] x local Hx Hl; simpl in Hx.
    - simplify_eq. apply Hh. by rewrite Z.add_0_r in Hl.
    - apply (Ha k x local Hx). by replace (idx + 1 + Z.of_nat k) with (idx + Z.of_nat (S k)) by lia. }
  assert ((forall local, logEntry n idx = Some local -> Term local = Term e) ->
    match find_conflict n (idx + 1) es with
    | None => agree n idx (e :: es)
    | Some at_ => exists k local, at_ = idx + Z.of_nat k /\ (k < S (length es))%nat /\
        logEntry n at_ = Some local /\ agree n idx (take k (e :: es)) /\ ~ agree n idx (e :: es)
    end) as Hrec.
  { intros Hh. destruct (find_conflict n (idx + 1) es) as [at_|]; [|by apply Hcons].
    destruct IH as (k & local & -> & Hk & Hl & Ha & Hna). exists (S k), local.
    split_and!; [lia|lia|done|simpl; by apply Hcons|]. intros Hall. apply Hna.
    intros j x l Hx Hlx. apply (Hall (S j) x l Hx).
    by replace (idx + Z.of_nat (S j)) with (idx + 1 + Z.of_nat j) by lia. }
  destruct (logEntry n idx) as [local|] eqn:El; [|by apply Hrec].
  case_decide as Ht; [|apply Hrec; intros ? [= <-]; lia].
  exists 0%nat, local. split_and!; [lia|lia|done| |].
  - intros k x l Hk. by rewrite take_0, lookup_nil in Hk.
  - intros Hall. apply Ht, (Hall 0%nat e local); [done|]. by rewrite Z.add_0_r.
Qed.

Section reconcile.
Context {MC : MembershipCodec}.

(** The log after reconciliation: a prefix of the old one that reaches at
    least to [PrevLogIndex] and agrees with the incoming entries, then the
    rest of the incoming entries. *)
Inductive reconciled (n : Node) (first : Z) (es : list RaftLogEntry) (n' : Node) : Prop :=
| Reconciled keep :
    (Z.to_nat (first - logBase n) <= keep <= length (log n))%nat ->
    logBase n' = logBase n -> logBaseTerm n' = logBaseTerm n ->
    log n' = take keep (log n) ++
      stamp (logBase n + Z.of_nat keep) (drop (Z.to_nat (logBase n + Z.of_nat keep - first)) es) ->
    agree n first (take (Z.to_nat (logBase n + Z.of_nat keep - first)) es) ->
    (find_conflict n first es = None -> keep = length (log n)) ->
    reconciled n first es n'.

Lemma truncate_log_ok n at_ io n' :
  log_wf n -> logBase n < at_ <= lastLogIndexLocked n -> truncate_log n at_ io = (n', true) ->
  log_view n' = (take (Z.to_nat (at_ - logBase n)) (log n), logBase n, logBaseTerm n).
Proof.
  intros Hw Hr E. unfold truncate_log in E. rewrite decide_True in E by lia.
  pose proof (view_DeleteRange n at_ (lastLogIndexLocked n) io) as Hv.
  destruct (DeleteRange _ _ _ _) as [n1 [|]]; [|done]. injection E as <-. cbn [fst] in Hv.
  unfold log_view in *. injection Hv as E1 E2 E3. cbn. unfold logPosition. rewrite E1, E2, E3.
  rewrite (lastLogIndex_wf n Hw) in Hr. rewrite !decide_False by lia. done.
Qed.

Lemma reconcile_spec n req io1 io2 n' :
  log_wf n -> logBase n <= ae_PrevLogIndex req <= lastLogIndexLocked n ->
  ae_PrevLogIndex req + Z.of_nat (length (ae_Entries req)) + 1 < 2 ^ 64 ->
  reconcileLogEntries n req io1 io2 = (n', true) ->
  reconciled n (ae_PrevLogIndex req + 1) (ae_Entries req) n'.
Proof.
  intros Hw Hp Hb E. pose proof (lw_base n Hw) as H0. pose proof (lastLogIndex_wf n Hw) as Hl.
  pose proof (log_nonempty n Hw) as Hne. unfold reconcileLogEntries in E. cbv zeta in E.
  rewrite (u64_small (ae_PrevLogIndex req + 1)) in E by lia.
  set (first := ae_PrevLogIndex req + 1) in *. set (es := ae_Entries req) in *.
  pose proof (find_conflict_spec n first es ltac:(lia) ltac:(lia)) as Hf.
  assert (exists n1 keep, log_view n1 = (take keep (log n), logBase n, logBaseTerm n) /\
    (Z.to_nat (first - logBase n) <= keep <= length (log n))%nat /\
    agree n first (take (Z.to_nat (logBase n + Z.of_nat keep - first)) es) /\
    (find_conflict n first es = None -> keep = length (log n)) /\
    match find_conflict n first es with
    | Some at_ => truncate_log n at_ io1
    | None => (n, true)
    end = (n1, true)) as (n1 & keep & Hv & Hk & Ha & Hnone & E1).
  { destruct (find_conflict n first es) as [at_|].
    - destruct (truncate_log n at_ io1) as [n1 [|]] eqn:Et; [|done].
      destruct Hf as (k & local & Eat & Hk & Hlog & Ha & _).
      assert (logBase n < at_ <= lastLogIndexLocked n) as Hr.
      { destruct (proj1 (logEntry_range n at_ Hw)); [by eexists|]. lia. }
      exists n1, (Z.to_nat (at_ - logBase n)). split_and!; [|lia..| |done|done].
      + by apply (truncate_log_ok n at_ io1).
      + replace (Z.to_nat _) with k by lia. done.
    - exists n, (length (log n)). rewrite firstn_all. split_and!; auto; [lia|].
      intros j e local Hj. rewrite lookup_take in Hj. case_decide; [|done]. by apply Hf. }
  rewrite E1 in E. cbn [negb] in E.
  unfold log_view in Hv. injection Hv as V1 V2 V3.
  assert (lastLogIndexLocked n1 = logBase n + Z.of_nat keep - 1) as Hl1.
  { unfold lastLogIndexLocked. rewrite V1, last_lookup, length_take, Nat.min_l by lia.
    rewrite lookup_take_lt by lia.
    destruct (lookup_lt_is_Some_2 (log n) (pred keep)) as [e He]; [lia|].
    rewrite He, (lw_index n Hw _ _ He). lia. }
  rewrite Hl1 in E. rewrite new_entries_stamp in E by lia.
  replace (logBase n + Z.of_nat keep - 1 + 1) with (logBase n + Z.of_nat keep) in E by lia.
  set (app := stamp _ _) in E.
  match type of E with context [match app with [] => ?a | _ :: _ => ?b end] =>
    assert (log_view (match app with [] => a | _ :: _ => b end).1 = log_view n1) as Hv2
      by (destruct app; [done|apply view_StoreLogs]);
    destruct (match app with [] => a | _ :: _ => b end) as [n2 [|]] end; [|done].
  cbn [negb fst] in *. injection E as <-. unfold log_view in Hv2. injection Hv2 as W1 W2 W3.
  apply (Reconciled n first es _ keep); auto.
  all: match goal with |- context [if ?b then refreshMembershipLocked ?m else ?m] =>
    assert (log_view (if b then refreshMembershipLocked m else m) = log_view m) as Hv3
      by (destruct b; [apply view_refresh|done]);
    unfold log_view in Hv3; injection Hv3 as X1 X2 X3; rewrite ?X1, ?X2, ?X3; cbn; subst app; congruence end.
Qed.

Lemma reconciled_wf n first es n' :
  log_wf n -> logBase n < first -> first + Z.of_nat (length es) < 2 ^ 64 ->
  reconciled n first es n' -> log_wf n'.
Proof.
  intros Hw Hf Hb [keep Hk B1 B2 El _ _]. destruct (lw_head n Hw) as (e0 & tl & Eh & Et).
  pose proof (lw_base n Hw). pose proof (lw_bound n Hw).
  constructor; rewrite ?B1, ?B2; auto.
  - rewrite El, Eh. destruct keep; [lia|]. simpl. eauto.
  - rewrite El. apply indexed_app. rewrite length_take, Nat.min_l by lia. split; [|apply stamp_indexed].
    intros j e Hj. rewrite lookup_take in Hj. case_decide; [|done]. by apply (lw_index n Hw).
  - rewrite El, length_app, stamp_length, length_take, length_drop. lia.
Qed.

Lemma reconciled_below n first es n' i :
  log_wf n -> reconciled n first es n' -> i < first -> logEntry n' i = logEntry n i.
Proof.
  intros Hw [keep Hk B1 B2 El _ _] Hi. destruct (decide (i < logBase n)).
  - rewrite !logEntry_below by lia. done.
  - rewrite !logEntry_lookup, B1, El by lia. rewrite lookup_app_l by (rewrite length_take; lia).
    by rewrite lookup_take_lt by lia.
Qed.

Lemma reconciled_entry n first es n' k e :
  log_wf n -> logBase n < first -> reconciled n first es n' -> es !! k = Some e ->
  exists e', logEntry n' (first + Z.of_nat k) = Some e' /\ Term e' = Term e.
Proof.
  intros Hw Hf [keep Hk B1 B2 El Ha _] He. rewrite logEntry_lookup, B1, El by lia.
  destruct (decide (first + Z.of_nat k < logBase n + Z.of_nat keep)) as [Hlt|Hge].
  - rewrite lookup_app_l, lookup_take_lt by (rewrite ?length_take; lia).
    destruct (lookup_lt_is_Some_2 (log n) (Z.to_nat (first + Z.of_nat k - logBase n))) as [x Hx];
      [lia|].
    exists x. split; [done|]. apply (Ha k e x).
    + by rewrite lookup_take_lt by lia.
    + by rewrite logEntry_lookup by lia.
  - rewrite lookup_app_r, length_take, stamp_lookup, lookup_drop by (rewrite length_take; lia).
    replace (Z.to_nat (logBase n + Z.of_nat keep - first) +
      (Z.to_nat (first + Z.of_nat k - logBase n) - keep `min` length (log n)))%nat with k by lia.
    rewrite He. simpl. eauto.
Qed.

Lemma reconciled_last n first es n' :
  log_wf n -> logBase n < first -> reconciled n first es n' -> log_wf n' ->
  first + Z.of_nat (length es) - 1 <= lastLogIndexLocked n'.
Proof.
  intros Hw Hf [keep Hk B1 B2 El _ _] Hw'. rewrite (lastLogIndex_wf n' Hw'), B1, El.
  rewrite length_app, stamp_length, length_take, length_drop. lia.
Qed.

Lemma reconciled_prefix n first es n' :
  log_wf n -> 0 <= first -> first + Z.of_nat (length es) < 2 ^ 64 ->
  reconciled n first es n' -> agree n first es -> log n `prefix_of` log n'.
Proof.
  intros Hw H0 Hb [keep Hk B1 B2 El _ Hnone] Hag.
  pose proof (find_conflict_spec n first es H0 Hb) as Hf.
  destruct (find_conflict n first es) as [at_|].
  - by destruct Hf as (? & ? & _ & _ & _ & _ & []).
  - rewrite El, (Hnone eq_refl), firstn_all. by eexists.
Qed.

(** ** AppendEntries *)

Lemma consistency_ok n req :
  log_wf n -> checkLogConsistency n req = None ->
  logBase n <= ae_PrevLogIndex req <= lastLogIndexLocked n /\
  getLogTerm n (ae_PrevLogIndex req) = ae_PrevLogTerm req.
Proof.
  intros Hw. pose proof (log_nonempty n Hw). unfold checkLogConsistency. case_decide as Hp.
  - case_decide as Ht; [done|]. intros _. rewrite (lastLogIndex_wf n Hw). split; [lia|].
    unfold getLogTerm. rewrite decide_True by done. lia.
  - destruct (logEntry n _) as [e|] eqn:E; [|done]. case_decide as Ht; [done|]. intros _.
    split; [apply logEntry_range; [done|by eexists]|]. rewrite (getLogTerm_entry n _ e Hw E). lia.
Qed.

Lemma updateCommit_spec n req io :
  let n' := (updateCommitIndex n req io).1 in
  0 <= ae_PrevLogIndex req + Z.of_nat (length (ae_Entries req)) < 2 ^ 64 ->
  log_view n' = log_view n /\ currentTerm n' = currentTerm n /\
  commitIndex n <= commitIndex n' <=
    Z.max (commitIndex n)
      (Z.min (ae_LeaderCommit req) (ae_PrevLogIndex req + Z.of_nat (length (ae_Entries req)))).
Proof.
  intros n' Hb. subst n'. unfold updateCommitIndex. case_decide as H1; [simpl; split_and!; auto; lia|].
  cbv zeta. rewrite u64_small by done.
  set (nc := if decide (ae_LeaderCommit req > _) then _ else _).
  assert (nc = Z.min (ae_LeaderCommit req)
    (ae_PrevLogIndex req + Z.of_nat (length (ae_Entries req)))) as Enc
    by (subst nc; case_decide; lia).
  case_decide as H2; [simpl; split_and!; auto; lia|].
  pose proof (view_persist (set_commitIndex nc n) io) as Hv.
  assert (commitIndex (persistHardStateLocked (set_commitIndex nc n) io).1 = nc /\
    currentTerm (persistHardStateLocked (set_commitIndex nc n) io).1 = currentTerm n) as [Hc Ht].
  { unfold persistHardStateLocked. cbn. destruct (stable n); [|done]. by destruct io as [|[|]]. }
  destruct (persistHardStateLocked _ io) as [n1 [|]]; cbn in Hv, Hc, Ht |- *;
    (split; [exact Hv|]); (split; [exact Ht|]); lia.
Qed.

Lemma frame_refresh n :
  commitIndex (refreshMembershipLocked n) = commitIndex n /\
  currentTerm (refreshMembershipLocked n) = currentTerm n.
Proof. unfold refreshMembershipLocked. by destruct (fold_log _ _ _ _). Qed.

(** Reconciliation leaves the commit index and the term alone. *)
Lemma reconcile_frame n req io1 io2 :
  commitIndex (reconcileLogEntries n req io1 io2).1 = commitIndex n /\
  currentTerm (reconcileLogEntries n req io1 io2).1 = currentTerm n.
Proof.
  assert (forall m lo hi io, commitIndex (DeleteRange m lo hi io).1 = commitIndex m /\
    currentTerm (DeleteRange m lo hi io).1 = currentTerm m) as Hd
    by (intros; unfold DeleteRange; destruct (storage m); [|done]; by destruct io).
  assert (forall m es io, commitIndex (StoreLogs m es io).1 = commitIndex m /\
    currentTerm (StoreLogs m es io).1 = currentTerm m) as Hs
    by (intros; unfold StoreLogs; destruct (storage m); [|done]; by destruct io).
  unfold reconcileLogEntries. cbv zeta.
  set (c := find_conflict _ _ _).
  assert (forall r, r = match c with Some at_ => truncate_log n at_ io1 | None => (n, true) end ->
    commitIndex r.1 = commitIndex n /\ currentTerm r.1 = currentTerm n) as Ht.
  { intros r ->. destruct c as [at_|]; [|done]. unfold truncate_log.
    destruct (decide (at_ <= lastLogIndexLocked n)); [|done].
    specialize (Hd n at_ (lastLogIndexLocked n) io1).
    by destruct (DeleteRange _ _ _ _) as [n1 [|]]. }
  specialize (Ht _ eq_refl).
  destruct (match c with Some at_ => truncate_log n at_ io1 | None => (n, true) end) as [n1 [|]];
    cbn [negb fst] in *; [|done].
  set (app := new_entries _ _ _).
  assert (forall r, r = match app with [] => (n1, true) | _ => StoreLogs n1 app io2 end ->
    commitIndex r.1 = commitIndex n /\ currentTerm r.1 = currentTerm n) as Ha.
  { intros r ->. destruct app; [done|]. by destruct (Hs n1 (r :: app) io2) as [-> ->]. }
  specialize (Ha _ eq_refl).
  destruct (match app with [] => (n1, true) | _ => StoreLogs n1 app io2 end) as [n2 [|]];
    cbn [negb fst] in *.
  - destruct (_ || _); [|done]. by destruct (frame_refresh (set_log (log n2 ++ app) n2)) as [-> ->].
  - destruct (bool_decide _); [|done]. by destruct (frame_refresh n2) as [-> ->].
Qed.

Lemma validateTerm_ok n req io now n1 :
  validateTerm n req io now = (n1, None) ->
  log_view n1 = log_view n /\ commitIndex n1 = commitIndex n /\ currentTerm n1 = ae_Term req.
Proof.
  unfold validateTerm. case_decide as H1; [done|]. case_decide as H2.
  - pose proof (view_becomeFollower n (ae_Term req) io now) as Hv.
    assert (forall m b, becomeFollower n (ae_Term req) io now = (m, b) ->
      commitIndex m = commitIndex n /\ (b = true -> currentTerm m = ae_Term req)) as Hb.
    { unfold becomeFollower, persistHardStateLocked. cbn. intros m b.
      destruct (stable n); [destruct io as [|[|]]|]; intros [= <- <-];
        try (case_decide; destruct (bool_decide _)); done. }
    destruct (becomeFollower n _ io now) as [m [|]]; intros [= <-].
    destruct (Hb _ _ eq_refl) as [Hc Ht]. auto.
  - intros [= <-]. split_and!; auto. lia.
Qed.

Lemma validateTerm_refuses n req io now m r :
  validateTerm n req io now = (m, Some r) -> ar_Success r = false.
Proof.
  unfold validateTerm. case_decide; [by intros [= <- <-]|]. case_decide; [|done].
  destruct (becomeFollower _ _ _ _) as [? [|]]; [done|]. by intros [= <- <-].
Qed.

Lemma checkLogConsistency_refuses n req r : checkLogConsistency n req = Some r -> ar_Success r = false.
Proof.
  unfold checkLogConsistency. case_decide.
  - case_decide; [by intros [= <-]|done].
  - destruct (logEntry _ _); [case_decide; [by intros [= <-]|done]|by intros [= <-]].
Qed.

(** The parts of an accepted request. *)
Lemma handleAppendEntries_split n req io now n' resp :
  handleAppendEntries n req io now = (n', resp) -> ar_Success resp = true ->
  exists n1 n2, log_view n1 = log_view n /\ commitIndex n1 = commitIndex n /\
    currentTerm n1 = ae_Term req /\ checkLogConsistency n1 req = None /\
    reconcileLogEntries n1 req (aio_delete io) (aio_store io) = (n2, true) /\
    n' = (updateCommitIndex n2 req (aio_commit io)).1 /\
    ar_MatchIndex resp = u64 (ae_PrevLogIndex req + Z.of_nat (length (ae_Entries req))).
Proof.
  unfold handleAppendEntries. destruct (validateTerm _ _ _ _) as [m [r|]] eqn:Ev.
  { intros [= <- <-]. by rewrite (validateTerm_refuses _ _ _ _ _ _ Ev). }
  destruct (validateTerm_ok _ _ _ _ _ Ev) as (V1 & V2 & V3).
  set (n1 := set_leaderID _ _).
  assert (log_view n1 = log_view m /\ commitIndex n1 = commitIndex m /\
    currentTerm n1 = currentTerm m) as (W1 & W2 & W3) by (subst n1; by case_decide).
  clearbody n1. destruct (checkLogConsistency n1 req) as [r|] eqn:Ec.
  { intros [= <- <-]. by rewrite (checkLogConsistency_refuses _ _ _ Ec). }
  destruct (reconcileLogEntries _ _ _ _) as [n2 [|]] eqn:Er; [|by intros [= <- <-]].
  destruct (updateCommitIndex n2 req (aio_commit io)) as [n3 o] eqn:Eu.
  intros [= <- <-] _. exists n1, n2. rewrite Eu. split_and!; auto; congruence.
Qed.
End reconcile.

(** ** The leader's commit index *)

Section commit.
Context {MC : MembershipCodec}.

Definition committable (n : Node) (index : Z) : Prop :=
  exists e, logEntry n index = Some e /\ Term e = currentTerm n /\ checkStandardCommit n index = true.

Lemma commit_loop_spec fuel n index :
  index - commitIndex n <= Z.of_nat fuel ->
  match commit_loop fuel n index with
  | Some i => commitIndex n < i <= index /\ committable n i /\
      forall j, i < j <= index -> ~ committable n j
  | None => forall j, commitIndex n < j <= index -> ~ committable n j
  end.
Proof.
  revert index. induction fuel as [|fuel IH]; intros index Hf; cbn [commit_loop].
  { intros j Hj. lia. }
  case_decide as Hle; [intros j Hj; lia|].
  assert (~ committable n index ->
    match commit_loop fuel n (index - 1) with
    | Some i => commitIndex n < i <= index /\ committable n i /\
        forall j, i < j <= index -> ~ committable n j
    | None => forall j, commitIndex n < j <= index -> ~ committable n j
    end) as Hrec.
  { intros Hno. specialize (IH (index - 1) ltac:(lia)). destruct (commit_loop _ _ _) as [i|].
    - destruct IH as (H1 & H2 & H3). split_and!; [lia|lia|done|]. intros j Hj.
      destruct (decide (j = index)) as [->|]; [done|]. apply H3. lia.
    - intros j Hj. destruct (decide (j = index)) as [->|]; [done|]. apply IH. lia. }
  destruct (logEntry n index) as [e|] eqn:El.
  - destruct (bool_decide _) eqn:Et; [destruct (checkStandardCommit _ _) eqn:Ec|]; cbn [andb].
    + apply bool_decide_eq_true in Et. split_and!; [lia|lia| |intros; lia]. by exists e.
    + apply Hrec. intros (x & Hx & _ & Hc). congruence.
    + apply bool_decide_eq_false in Et. apply Hrec. intros (x & Hx & Hc & _). congruence.
  - apply Hrec. intros (x & Hx & _). congruence.
Qed.

(** The peer map is keyed by the peers' IDs and does not hold the node. *)
Definition peers_ok (n : Node) : Prop :=
  forall id p, peers n !! id = Some p -> p_ID p = id /\ id <> nodeID n.

Definition counted (n : Node) (ok : Peer -> bool) : list Peer :=
  filter (fun p => ok p = true) (filter (fun p => peer_votes p = true) (map snd (map_to_list (peers n)))).

(** The voters a quorum is counted over, and those that satisfy [ok]. *)
Definition node_voters (n : Node) (ok : Peer -> bool) : gset string :=
  (if selfNonVoter n then ∅ else {[nodeID n]}) ∪ list_to_set (map p_ID (counted n ok)).

Lemma counted_NoDup n ok : peers_ok n -> NoDup (map p_ID (counted n ok)).
Proof.
  intros Hp. assert (NoDup (map p_ID (map snd (map_to_list (peers n))))) as Hn.
  { pose proof (NoDup_fst_map_to_list (peers n)) as Hn. change (NoDup (map fst (map_to_list (peers n)))) in Hn.
    rewrite map_map. erewrite map_ext_in; [exact Hn|]. intros [id p] Hin. simpl.
    apply list_elem_of_In, elem_of_map_to_list in Hin. by apply Hp. }
  eapply (sublist_NoDup _ _ Hn), (fmap_sublist p_ID). unfold counted.
  etrans; apply sublist_filter.
Qed.

Lemma node_voters_size n ok :
  peers_ok n ->
  size (node_voters n ok) = ((if selfNonVoter n then 0 else 1) + length (counted n ok))%nat.
Proof.
  intros Hp. unfold node_voters. rewrite size_union.
  - rewrite size_list_to_set by (by apply counted_NoDup). rewrite length_map.
    by destruct (selfNonVoter n); rewrite ?size_empty, ?size_singleton.
  - intros x Hx Hy. apply elem_of_list_to_set, list_elem_of_fmap in Hy as (p & -> & Hin).
    unfold counted in Hin. apply list_elem_of_filter in Hin as [_ [_ Hin]%list_elem_of_filter].
    apply list_elem_of_fmap in Hin as ([id q] & -> & Hin%elem_of_map_to_list). simpl in *.
    destruct (Hp id q Hin) as [E Hne]. rewrite E in Hx.
    destruct (selfNonVoter n); set_solver.
Qed.

Lemma filter_trivial {A} (l : list A) : filter (fun _ => true = true) l = l.
Proof. induction l as [|x l IH]; [done|]. by rewrite filter_cons_True, IH. Qed.

Lemma countVoters_sets n ok :
  peers_ok n ->
  countVoters n true ok = (size (node_voters n ok), size (node_voters n (fun _ => true))).
Proof.
  intros Hp. rewrite !node_voters_size by done. unfold countVoters, counted. cbv zeta. f_equal. f_equal.
  by rewrite filter_trivial.
Qed.

Lemma node_voters_mono n ok : node_voters n ok ⊆ node_voters n (fun _ => true).
Proof.
  unfold node_voters. apply union_mono; [done|]. intros x. rewrite !elem_of_list_to_set, !list_elem_of_fmap.
  intros (p & -> & Hin). exists p. split; [done|]. unfold counted in *.
  apply list_elem_of_filter in Hin as [_ Hin]. by apply list_elem_of_filter.
Qed.

(** A count above half is a majority of the voters. *)
Lemma quorum_majority n ok :
  peers_ok n ->
  (let '(votes, vs) := countVoters n true ok in bool_decide (0 < vs /\ vs / 2 < votes)%nat) = true <->
  majority (node_voters n ok) (node_voters n (fun _ => true)).
Proof.
  intros Hp. rewrite (countVoters_sets n ok Hp), bool_decide_eq_true. unfold majority.
  pose proof (subseteq_size _ _ (node_voters_mono n ok)).
  pose proof (Nat.div_mod_eq (size (node_voters n (fun _ => true))) 2).
  pose proof (Nat.mod_upper_bound (size (node_voters n (fun _ => true))) 2 ltac:(lia)).
  split; [intros [? ?]; split; [apply node_voters_mono|lia]|]. intros [_ ?]. lia.
Qed.
End commit.
