(* ===== verification/RaftProps.v ===== *)
(** * Properties of a Raft node

    The theorems about single nodes, over RaftLog.v: accepted AppendEntries,
    the leader's commit rule and its progress records, compaction, snapshot
    installation, the application of committed entries, proposals, and the
    restart from disk. *)
From stdpp Require Import base gmap strings list sorting.
From Stdlib Require Import ZArith Lia Strings.Byte.
From S2P Require Import Prelude Membership Raft RaftOps RaftLog.

Open Scope Z_scope.

(** ** Application of committed entries *)

Section apply.
Context {MC : MembershipCodec} {F : Type}
  (fsm_Apply : F -> RaftLogEntry -> F * option apply_error)
  (isRetryable : apply_error -> bool) (fsm_Set : F -> Z -> F).

(** Applying one committed entry to the state machine. *)
Definition try_one (f : F) (e : RaftLogEntry) : F * option apply_error :=
  if decide (Type_ e = LogMembershipChange) then
    (f, match decodeMembershipEntry (Data e) with Some _ => None | None => Some (ErrApply false) end)
  else fsm_Apply f e.

(** Its effect once the entry is done with: applied, or skipped for good. *)
Definition apply_one (f : F) (e : RaftLogEntry) : F :=
  match try_one f e with
  | (f', None) => f'
  | (f', Some _) => fsm_Set f' (Index e)
  end.

(** The entries from the first unapplied one up to [commit]. *)
Definition unapplied (n : Node) (commit : Z) : list RaftLogEntry :=
  take (Z.to_nat (commit - lastApplied n)) (drop (Z.to_nat (lastApplied n + 1 - logBase n)) (log n)).

Definition apply_view (n : Node) := (log_view n, lastApplied n).

Lemma apply_view_split n n' :
  apply_view n' = apply_view n -> log_view n' = log_view n /\ lastApplied n' = lastApplied n.
Proof. intros E. split; [apply (f_equal fst E)|apply (f_equal snd E)]. Qed.

Lemma view_applyMembership n e : apply_view (applyMembershipEntry n e) = apply_view n.
Proof.
  unfold applyMembershipEntry. cbv zeta. set (m := refreshMembershipLocked _).
  assert (apply_view m = apply_view n) as <-.
  { subst m. unfold refreshMembershipLocked. by destruct (fold_log _ _ _ _). }
  clearbody m. destruct (_ && _); [done|]. by destruct (_ && _).
Qed.

Lemma view_notifyApply i t err n : apply_view (notifyApply i t err n) = apply_view n.
Proof. unfold notifyApply. by destruct (applyWaiters n !! i). Qed.

Lemma view_persistApplied n io : apply_view (persistApplied n io).1 = apply_view n.
Proof.
  unfold persistApplied, persistHardStateLocked. destruct (stable n); [|done]. by destruct io as [|[|]].
Qed.

Lemma view_skip n i io n' b :
  skipCommittedEntry n i io = (n', b) ->
  log_view n' = log_view n /\ (b = true -> lastApplied n' = i).
Proof.
  unfold skipCommittedEntry, persistHardStateLocked. cbn.
  destruct (stable n); [destruct io as [|[|]]|]; by intros [= <- <-].
Qed.

Lemma view_apply_entry n f e : apply_view (apply_entry fsm_Apply n f e).1.1 = apply_view n.
Proof.
  unfold apply_entry. case_decide.
  - destruct (decodeMembershipEntry _); [apply view_applyMembership|done].
  - by destruct (fsm_Apply f e).
Qed.

Lemma unapplied_cons n commit e :
  log_wf n -> logBase n <= lastApplied n < commit ->
  logEntry n (lastApplied n + 1) = Some e ->
  unapplied n commit = e :: take (Z.to_nat (commit - (lastApplied n + 1)))
    (drop (Z.to_nat (lastApplied n + 1 + 1 - logBase n)) (log n)).
Proof.
  intros Hw Hr E. rewrite logEntry_lookup in E by lia. unfold unapplied.
  rewrite (drop_S _ _ _ E). replace (Z.to_nat (commit - lastApplied n)) with
    (S (Z.to_nat (commit - (lastApplied n + 1)))) by lia. simpl. do 3 f_equal. lia.
Qed.

Lemma unapplied_view n n' commit :
  log_view n' = log_view n -> lastApplied n' = lastApplied n + 1 ->
  unapplied n' commit = take (Z.to_nat (commit - (lastApplied n + 1)))
    (drop (Z.to_nat (lastApplied n + 1 + 1 - logBase n)) (log n)).
Proof. unfold log_view. intros [= E1 E2 E3] El. unfold unapplied. by rewrite E1, E2, El. Qed.

Lemma unapplied_none n commit : commit <= lastApplied n -> unapplied n commit = [].
Proof.
  intros H. unfold unapplied. replace (Z.to_nat (commit - lastApplied n)) with 0%nat by lia. by rewrite take_0.
Qed.

Lemma apply_entry_try n f e :
  exists n1, apply_entry fsm_Apply n f e = (n1, (try_one f e).1, (try_one f e).2) /\ apply_view n1 = apply_view n.
Proof.
  pose proof (view_apply_entry n f e) as Hv. unfold apply_entry, try_one in *. case_decide.
  - destruct (decodeMembershipEntry _); eauto.
  - destruct (fsm_Apply f e) as [f1 err]. eauto.
Qed.

Lemma persist_failed n io : (persistHardStateLocked n io).2 = false -> io <> PersistOk.
Proof. unfold persistHardStateLocked. destruct (stable n); [|done]. intros E ->. done. Qed.

Lemma skip_failed n i io n' :
  skipCommittedEntry n i io = (n', false) -> apply_view n' = apply_view n /\ io <> PersistOk.
Proof.
  unfold skipCommittedEntry. pose proof (persist_failed (set_lastApplied i n) io) as Hf. intros E.
  split; [|apply Hf; by destruct (persistHardStateLocked _ io) as [? [|]]].
  unfold persistHardStateLocked in E. cbn in E. destruct (stable n); [destruct io as [|[|]]|]; by injection E as <-.
Qed.

Lemma persistApplied_failed n io n' : persistApplied n io = (n', false) -> io <> PersistOk.
Proof.
  unfold persistApplied. pose proof (persist_failed n io) as Hf.
  destruct (persistHardStateLocked n io) as [? [|]]; [done|]. intros _. by apply Hf.
Qed.

(** How a pass ends: everything is applied; or a hard-state write failed; or
    the next entry failed and is tried again. *)
Definition pass_end (n : Node) (f : F) (commit : Z) (io : nat -> persist_io) (n' : Node) (f' : F) (r : apply_end) : Prop :=
  log_view n' = log_view n /\ lastApplied n <= lastApplied n' <= Z.max (lastApplied n) commit /\
  let g := foldl apply_one f (unapplied n (lastApplied n')) in
  match r with
  | ApplyDone => lastApplied n' = Z.max (lastApplied n) commit /\ f' = g
  | ApplyRetry =>
      (f' = g /\ exists j, io j <> PersistOk) \/
      (lastApplied n' < commit /\ exists e err, logEntry n (lastApplied n' + 1) = Some e /\
         try_one g e = (f', Some err) /\ (isRetryable err = true \/ exists j, io j <> PersistOk))
  | _ => False
  end.

(** A pass that consumes the next entry and goes on. *)
Lemma pass_cons n f e n1 commit io n' f' r :
  log_wf n -> logBase n <= lastApplied n < commit -> logEntry n (lastApplied n + 1) = Some e ->
  log_view n1 = log_view n -> lastApplied n1 = lastApplied n + 1 ->
  pass_end n1 (apply_one f e) commit io n' f' r -> pass_end n f commit io n' f' r.
Proof.
  intros Hw Hr Ee V1 L1 (H1 & H2 & H3). unfold pass_end.
  assert (foldl apply_one f (unapplied n (lastApplied n')) =
          foldl apply_one (apply_one f e) (unapplied n1 (lastApplied n'))) as ->.
  { rewrite (unapplied_cons n _ e Hw) by (done || lia). by rewrite (unapplied_view n n1 _ V1 L1). }
  split; [congruence|]. split; [lia|]. cbv zeta in *. destruct r; [|done| |done].
  - split; [lia|tauto].
  - destruct H3 as [H3|(H3 & x & err & Hx & H4)]; [by left|right]. split; [done|]. exists x, err.
    split; [|done]. by rewrite <- (logEntry_view n n1).
Qed.

Lemma processCommitted_pass fuel n f commit u k io :
  log_wf n -> logBase n <= lastApplied n -> commit <= lastLogIndexLocked n ->
  Z.max 0 (commit - lastApplied n) < Z.of_nat fuel ->
  let '(n', f', r) := processCommitted fsm_Apply isRetryable fsm_Set fuel n f commit u k io in
  pass_end n f commit io n' f' r.
Proof.
  revert n f u k. induction fuel as [|fuel IH]; intros n f u k Hw Hb Hc Hf; [lia|].
  cbn [processCommitted]. destruct (decide (commit <= lastApplied n)) as [Hle|Hlt].
  { unfold pass_end. destruct (_ || _).
    - pose proof (view_persistApplied n (io k)) as Hp. pose proof (persistApplied_failed n (io k)) as Hx.
      destruct (persistApplied n (io k)) as [n1 [|]]; cbn [fst] in Hp; apply apply_view_split in Hp as [Hp Hpl];
        rewrite unapplied_none by lia; split_and!; try done; try lia.
      left. split; [done|]. exists k. by apply (Hx n1).
    - rewrite unapplied_none by lia. split_and!; [done|lia|lia|lia|done]. }
  cbv zeta. pose proof (lw_base n Hw). pose proof (lw_bound n Hw).
  pose proof (lastLogIndex_wf n Hw) as Hlast. rewrite u64_small by lia.
  destruct (proj2 (logEntry_range n (lastApplied n + 1) Hw)) as [e Ee]; [lia|]. rewrite Ee.
  destruct (logEntry_Index n _ e Hw Ee) as [Hi _].
  assert (forall n1, log_view n1 = log_view n -> lastApplied n1 = lastApplied n + 1 -> forall u1 k1,
    let '(n', f', r) := processCommitted fsm_Apply isRetryable fsm_Set fuel n1 (apply_one f e) commit u1 k1 io in
    pass_end n f commit io n' f' r) as Hgo.
  { intros n1 V1 L1 u1 k1. pose proof V1 as V1'. unfold log_view in V1'. injection V1' as _ W2 _.
    specialize (IH n1 (apply_one f e) u1 k1).
    destruct (processCommitted _ _ _ fuel _ _ _ _ _ _) as [[n' f'] r].
    apply (pass_cons n f e n1); [done|lia|done..|].
    apply IH; [by eapply log_wf_view|lia|by rewrite (lastLogIndex_view n n1 V1)|lia]. }
  assert (forall n1 f1 err, try_one f e = (f1, Some err) -> apply_view n1 = apply_view n ->
    isRetryable err = true \/ (exists j, io j <> PersistOk) -> pass_end n f commit io n1 f1 ApplyRetry) as Hstop.
  { intros n1 f1 err Et Hv Hwhy. apply apply_view_split in Hv as [V1 L1]. unfold pass_end. rewrite L1.
    rewrite unapplied_none by lia. split_and!; [done|lia|lia|]. right. split; [lia|]. by exists e, err. }
  assert (forall n1 err, try_one f e = (n1, err) -> apply_one f e = match err with None => n1 | Some _ => fsm_Set n1 (Index e) end)
    as Hone by (intros n1 err Et; unfold apply_one; by rewrite Et).
  destruct (apply_entry_try n f e) as (n1 & -> & Hv). destruct (try_one f e) as [f1 [err|]]; cbn [fst snd];
    specialize (Hone _ _ eq_refl).
  - destruct (isRetryable err) eqn:Er.
    { apply (Hstop _ _ err); [done| |by left]. by rewrite view_notifyApply. }
    destruct (skipCommittedEntry n1 (lastApplied n + 1) (io k)) as [n2 [|]] eqn:Es.
    + destruct (view_skip _ _ _ _ _ Es) as [V2 L2]. specialize (L2 eq_refl).
      pose proof (view_notifyApply (Index e) (Term e) (Some err) n2) as Hn.
      apply apply_view_split in Hn as [V3 L3]. apply apply_view_split in Hv as [V1 L1].
      rewrite <- Hi, <- Hone. apply Hgo; congruence.
    + apply skip_failed in Es as [V2 Hio]. apply (Hstop _ _ err); [done|congruence|]. right. by exists k.
  - pose proof (view_notifyApply (Index e) (Term e) None (set_lastApplied (lastApplied n + 1) n1)) as Hn.
    apply apply_view_split in Hn as [V3 L3]. cbn in L3. apply apply_view_split in Hv as [V1 L1].
    set (n2 := notifyApply _ _ _ _) in *.
    assert (log_view n2 = log_view n) as V4 by (etrans; [exact V3|exact V1]). clearbody n2. rewrite <- Hone.
    destruct (decide (appliedPersistEvery <= S u)%nat); [|by apply Hgo].
    pose proof (view_persistApplied n2 (io k)) as Hp. pose proof (persistApplied_failed n2 (io k)) as Hx.
    destruct (persistApplied n2 (io k)) as [n3 [|]]; cbn [fst] in Hp; apply apply_view_split in Hp as [V5 L5].
    + apply Hgo; congruence.
    + apply (pass_cons n f e n3); [done|lia|done|congruence|congruence|]. unfold pass_end.
      rewrite unapplied_none by done. split_and!; [done|lia|lia|]. left. split; [done|]. exists k. by apply (Hx n3).
Qed.
End apply.

(** ** Compaction *)

Lemma compact_spec n snap io n' r :
  log_wf n -> compactLogLocked n snap io = (n', r) ->
  log_wf n' /\ logBase n <= logBase n' <= Z.max (logBase n) snap /\
  lastLogIndexLocked n' = lastLogIndexLocked n /\
  (forall i, logBase n' < i -> logEntry n' i = logEntry n i) /\
  getLogTerm n' (logBase n') = getLogTerm n (logBase n').
Proof.
  intros Hw. assert (log_wf n /\ logBase n <= logBase n <= Z.max (logBase n) snap /\
    lastLogIndexLocked n = lastLogIndexLocked n /\ (forall i, logBase n < i -> logEntry n i = logEntry n i) /\
    getLogTerm n (logBase n) = getLogTerm n (logBase n)) as Hsame by (split_and!; auto; lia).
  unfold compactLogLocked. case_decide as H1; [by intros [= <- <-]|]. cbv zeta.
  set (nb := if decide (trailingLogs n > 0) then _ else _).
  assert (nb <= snap) as Hnb by (pose proof (lw_base n Hw); subst nb; repeat case_decide; lia).
  case_decide as H2; [by intros [= <- <-]|].
  destruct (logPosition n nb) as [pos|] eqn:Ep; [|by intros [= <- <-]].
  unfold logPosition in Ep. rewrite decide_False in Ep by lia. case_decide as Hlt; [done|].
  injection Ep as <-. pose proof (lw_base n Hw). pose proof (lw_bound n Hw).
  pose proof (lastLogIndex_wf n Hw) as Hlast.
  set (n1 := set_log _ _). intros E.
  assert (log_view n' = log_view n1) as Hv.
  { pose proof (view_persist n1 io) as Hp. cbn [fst] in Hp.
    destruct (persistHardStateLocked n1 io) as [n2 [|]]; injection E as <- <-; exact Hp. }
  assert (logBase n' = nb) as Eb by (unfold log_view in Hv; by injection Hv).
  assert (log_wf n1) as Hw1.
  { subst n1. constructor; cbn.
    - lia.
    - eexists _, _. split; [done|]. done.
    - apply indexed_cons. split; [done|]. intros k e Hk. rewrite lookup_drop in Hk.
      rewrite (lw_index n Hw _ _ Hk). lia.
    - rewrite length_drop. lia. }
  split; [by eapply log_wf_view|]. rewrite Eb. split; [lia|].
  assert (lastLogIndexLocked n1 = lastLogIndexLocked n) as Hl1.
  { rewrite (lastLogIndex_wf n1 Hw1), Hlast. subst n1. cbn. rewrite length_drop. lia. }
  split; [by rewrite (lastLogIndex_view n1 n' Hv)|]. split.
  - intros i Hi. rewrite (logEntry_view n1 n' i Hv). subst n1.
    rewrite !logEntry_lookup by (cbn; lia).
    cbn [log logBase set_log set_logBaseTerm set_logBase].
    replace (Z.to_nat (i - nb)) with (S (Z.to_nat (i - nb - 1))) by lia.
    rewrite lookup_cons, lookup_drop. f_equal. lia.
  - unfold getLogTerm at 1. rewrite Eb, decide_True by done.
    unfold log_view in Hv. injection Hv as _ _ ->. subst n1. done.
Qed.

(** ** Snapshot installation *)

Lemma filter_indexed base es index :
  indexed base es -> base <= index + 1 ->
  filter (fun e => index < Index e) es = drop (Z.to_nat (index + 1 - base)) es.
Proof.
  revert base. induction es as [|e es IH]; intros base Hi Hb; [by rewrite drop_nil|].
  apply indexed_cons in Hi as [He Hi]. destruct (decide (base = index + 1)) as [E|E].
  - rewrite E, Z.sub_diag, drop_0, filter_cons_True by lia. f_equal.
    clear -Hi E He. assert (index < base + 1) as Hlt by lia. clear E He. revert base Hi Hlt.
    induction es as [|x es IH]; intros base Hi Hlt; [done|]. apply indexed_cons in Hi as [Hx Hi].
    rewrite filter_cons_True by lia. f_equal. apply (IH (base + 1)); [done|lia].
  - rewrite filter_cons_False by lia. rewrite (IH (base + 1)) by (done || lia).
    replace (Z.to_nat (index + 1 - base)) with (S (Z.to_nat (index + 1 - (base + 1)))) by lia. done.
Qed.

Section install.
Context {MC : MembershipCodec}.

Lemma view_setBase base n : log_view (setMembershipBaseLocked base n) = log_view n.
Proof. unfold setMembershipBaseLocked. by rewrite view_refresh. Qed.

Lemma indexes_setBase (b : bool) base n :
  let m := if b then setMembershipBaseLocked base n else refreshMembershipLocked n in
  commitIndex m = commitIndex n /\ lastApplied m = lastApplied n.
Proof.
  cbv zeta. unfold setMembershipBaseLocked, refreshMembershipLocked.
  destruct b; by destruct (fold_log _ _ _ _).
Qed.

Lemma install_boundary_spec n config index term now :
  log_wf n -> logBase n <= index -> index + 1 < 2 ^ 64 ->
  let n' := install_boundary n config index term now in
  log_wf n' /\ logBase n' = index /\ getLogTerm n' index = term /\
  (forall i, index < i -> logEntry n' i = logEntry n i) /\
  commitIndex n' = Z.max (commitIndex n) index /\ lastApplied n' = Z.max (lastApplied n) index.
Proof.
  intros Hw Hb Hi n'. subst n'. unfold install_boundary.
  set (n1 := if decide (tableScopeFloor n < index) then _ else n).
  assert (log_view n1 = log_view n /\ commitIndex n1 = commitIndex n /\ lastApplied n1 = lastApplied n)
    as (V1 & C1 & L1) by (subst n1; by case_decide).
  clearbody n1. set (n2 := set_logBaseTerm _ _).
  assert (log_view n2 = (base_entry index term :: filter (fun e => index < Index e) (log n), index, term)
    /\ commitIndex n2 = commitIndex n /\ lastApplied n2 = lastApplied n) as (V2 & C2 & L2).
  { subst n2. unfold log_view in *. injection V1 as -> _ _. by cbn. }
  clearbody n2.
  pose proof (indexes_setBase (bool_decide (0 < length config)%nat) (normalizeMembers config).1 n2) as [C3 L3].
  set (n3 := if decide (0 < length config)%nat then _ else _).
  assert (n3 = if bool_decide (0 < length config)%nat
    then setMembershipBaseLocked (normalizeMembers config).1 n2 else refreshMembershipLocked n2) as E3
    by (subst n3; case_decide; [by rewrite bool_decide_eq_true_2|by rewrite bool_decide_eq_false_2]).
  assert (log_view n3 = log_view n2) as V3 by (rewrite E3; destruct (bool_decide _);
    [apply view_setBase|apply view_refresh]).
  rewrite <- E3 in C3, L3. clearbody n3. clear E3.
  match goal with |- log_wf ?m /\ _ => set (n4 := m) end.
  assert (log_view n4 = log_view n3 /\ commitIndex n4 = Z.max (commitIndex n3) index /\
    lastApplied n4 = Z.max (lastApplied n3) index) as (V4 & C4 & L4).
  { subst n4. split; [by repeat case_decide|]. split; repeat case_decide; cbn in *; lia. }
  clearbody n4. rewrite V3, V2 in V4. unfold log_view in V4. injection V4 as E1 E2 E4.
  rewrite (filter_indexed (logBase n) (log n) index (lw_index n Hw)) in E1 by lia.
  pose proof (lw_base n Hw). pose proof (lw_bound n Hw).
  split_and!; [|done| | |lia|lia].
  - constructor; rewrite ?E1, ?E2, ?E4.
    + lia.
    + by eexists _, _.
    + apply indexed_cons. split; [done|]. intros k e Hk. rewrite lookup_drop in Hk.
      rewrite (lw_index n Hw _ _ Hk). lia.
    + cbn [length]. rewrite length_drop. lia.
  - unfold getLogTerm. by rewrite E2, decide_True.
  - intros i Hi'. rewrite !logEntry_lookup by lia. rewrite E1, E2.
    replace (Z.to_nat (i - index)) with (S (Z.to_nat (i - index - 1))) by lia.
    rewrite lookup_cons, lookup_drop. f_equal. lia.
Qed.
End install.

(** ** Properties *)

Section properties.
Context {MC : MembershipCodec}.

(** What an accepted AppendEntries means. The previous entry matched,
    everything up to it is untouched, from there on the log holds the
    leader's entries (term by term), an old or repeated request never
    removes an entry that agrees with it, the commit index only advances
    and stays within what the request confirmed, and the answer's
    [MatchIndex] is really in the log. *)
Lemma append_entries_accepted n req io now n' resp :
  log_wf n ->
  ae_PrevLogIndex req + Z.of_nat (length (ae_Entries req)) + 1 < 2 ^ 64 ->
  handleAppendEntries n req io now = (n', resp) -> ar_Success resp = true ->
  log_wf n' /\ currentTerm n' = ae_Term req /\
  getLogTerm n (ae_PrevLogIndex req) = ae_PrevLogTerm req /\
  (forall i, i <= ae_PrevLogIndex req -> logEntry n' i = logEntry n i) /\
  (forall k e, ae_Entries req !! k = Some e ->
     exists e', logEntry n' (ae_PrevLogIndex req + 1 + Z.of_nat k) = Some e' /\ Term e' = Term e) /\
  (agree n (ae_PrevLogIndex req + 1) (ae_Entries req) -> log n `prefix_of` log n') /\
  commitIndex n <= commitIndex n' <= Z.max (commitIndex n) (Z.min (ae_LeaderCommit req)
    (ae_PrevLogIndex req + Z.of_nat (length (ae_Entries req)))) /\
  ar_MatchIndex resp = ae_PrevLogIndex req + Z.of_nat (length (ae_Entries req)) /\
  ar_MatchIndex resp <= lastLogIndexLocked n'.
Proof.
  intros Hw Hb E Hs.
  destruct (handleAppendEntries_split n req io now n' resp E Hs)
    as (n1 & n2 & V1 & C1 & T1 & Ec & Er & -> & Hm).
  pose proof (log_wf_view n n1 V1 Hw) as Hw1. pose proof (lw_base n1 Hw1) as H0.
  destruct (consistency_ok n1 req Hw1 Ec) as [Hp Ht].
  pose proof (reconcile_spec n1 req _ _ n2 Hw1 Hp Hb Er) as Hr.
  assert (log_wf n2) as Hw2 by (eapply reconciled_wf; [exact Hw1| | |exact Hr]; lia).
  destruct (updateCommit_spec n2 req (aio_commit io)) as (V3 & T3 & C3); [lia|].
  destruct (reconcile_frame n1 req (aio_delete io) (aio_store io)) as [C2 T2]. rewrite Er in C2, T2.
  cbn [fst] in C2, T2. rewrite u64_small in Hm by lia.
  assert (getLogTerm n (ae_PrevLogIndex req) = getLogTerm n1 (ae_PrevLogIndex req)) as Hgt.
  { unfold getLogTerm. rewrite <- (logEntry_view n n1 _ V1). unfold log_view in V1.
    injection V1 as _ -> ->. done. }
  assert (logBase n1 < ae_PrevLogIndex req + 1) as Hlt by lia.
  split_and!.
  - by eapply log_wf_view.
  - congruence.
  - congruence.
  - intros i Hi. rewrite (logEntry_view n2 _ i V3), (reconciled_below n1 _ _ n2 i Hw1 Hr) by lia.
    by apply logEntry_view.
  - intros k e Hk. rewrite (logEntry_view n2 _ _ V3).
    apply (reconciled_entry n1 _ _ n2 k e Hw1 Hlt Hr Hk).
  - intros Ha. assert (agree n1 (ae_PrevLogIndex req + 1) (ae_Entries req)) as Ha1.
    { intros k e local Hk Hl. apply (Ha k e local Hk). by rewrite <- (logEntry_view n n1 _ V1). }
    unfold log_view in V1, V3. injection V1 as <- _ _. injection V3 as -> _ _.
    eapply (reconciled_prefix n1 _ _ n2 Hw1); [| |exact Hr|exact Ha1]; lia.
  - lia.
  - lia.
  - done.
  - rewrite Hm, (lastLogIndex_view n2 _ V3).
    pose proof (reconciled_last n1 _ _ n2 Hw1 Hlt Hr Hw2). lia.
Qed.

(** A leader commits an index only if it is of its own term and stored
    on a majority of the voters of its configuration; it takes the largest
    such index, and when it reports none (and the disk works) there is none
    above its commit index. *)
Lemma leader_commit_rule n io n' r :
  log_wf n -> peers_ok n -> checkCommit n io = (n', r) ->
  match r with
  | Some i => state n = StateLeader /\ commitIndex n < i <= lastLogIndexLocked n /\
      commitIndex n' = i /\
      (exists e, logEntry n i = Some e /\ Term e = currentTerm n) /\
      majority
        (node_voters n (fun p => bool_decide (i <= default 0 (matchIndex n !! p_ID p))))
        (node_voters n (fun _ => true)) /\
      forall j, i < j <= lastLogIndexLocked n -> ~ committable n j
  | None => commitIndex n' = commitIndex n /\
      (io = PersistOk -> state n = StateLeader ->
       forall j, commitIndex n < j <= lastLogIndexLocked n -> ~ committable n j)
  end.
Proof.
  intros Hw Hp E. unfold checkCommit in E. case_decide as Hs; [simplify_eq; by split|]. cbv zeta in E.
  pose proof (commit_loop_spec (Z.to_nat (lastLogIndexLocked n - commitIndex n)) n
    (lastLogIndexLocked n) ltac:(lia)) as Hc.
  destruct (commit_loop _ _ _) as [i|]; [|simplify_eq; by split].
  destruct Hc as (Hr & (e & He & Ht & Hq) & Hmax).
  assert (forall io m b, persistHardStateLocked (set_commitIndex i n) io = (m, b) ->
    commitIndex m = i /\ (io = PersistOk -> b = true)) as Hpers.
  { intros io0 m b. unfold persistHardStateLocked. cbn.
    destruct (stable n); [destruct io0 as [|[|]]|]; intros [= <- <-]; done. }
  destruct (persistHardStateLocked _ io) as [n1 b] eqn:Ep. destruct (Hpers _ _ _ Ep) as [C1 B1].
  destruct b; simplify_eq.
  - split; [destruct (state n); [by destruct Hs|by destruct Hs|done]|]. split; [lia|].
    split; [done|]. split; [by exists e|]. split; [|done]. apply (quorum_majority n _ Hp). exact Hq.
  - split; [done|]. intros Hio. by specialize (B1 Hio).
Qed.

(** Progress records: the next index to send is above the matched one. *)
Definition progress_ok (n : Node) : Prop :=
  forall id, is_Some (nextIndex n !! id) ->
    default 0 (matchIndex n !! id) < default 0 (nextIndex n !! id).

Lemma set_progress_maps id current next match_ n :
  nextIndex (set_progress id current next match_ n) =
    match next with Some v => <[id:=v]> (nextIndex n) | None => nextIndex n end /\
  matchIndex (set_progress id current next match_ n) =
    match match_ with Some v => <[id:=v]> (matchIndex n) | None => matchIndex n end.
Proof. unfold set_progress. by destruct next, match_, current. Qed.

Lemma progress_becomeFollower n term io now :
  let n' := (becomeFollower n term io now).1 in
  nextIndex n' = nextIndex n /\ matchIndex n' = matchIndex n.
Proof.
  unfold becomeFollower, persistHardStateLocked. cbn.
  destruct (stable n); [destruct io as [|[|]]|]; cbn; try done;
    case_decide; by destruct (bool_decide _).
Qed.

Lemma progress_checkCommit n io :
  let n' := (checkCommit n io).1 in nextIndex n' = nextIndex n /\ matchIndex n' = matchIndex n.
Proof.
  unfold checkCommit. case_decide; [done|]. cbv zeta. destruct (commit_loop _ _ _); [|done].
  unfold persistHardStateLocked. cbn. destruct (stable n); [|done]. by destruct io as [|[|]].
Qed.

Lemma progress_update n n' id next match_ :
  progress_ok n ->
  nextIndex n' = (match next with Some v => <[id:=v]> (nextIndex n) | None => nextIndex n end) ->
  matchIndex n' = (match match_ with Some v => <[id:=v]> (matchIndex n) | None => matchIndex n end) ->
  default (default 0 (matchIndex n !! id)) match_ < default (default 0 (nextIndex n !! id)) next ->
  progress_ok n'.
Proof.
  intros Hp En Em Hlt j Hj. rewrite En, Em in *. destruct (decide (j = id)) as [->|Hne].
  - destruct next, match_; rewrite ?lookup_insert_eq; exact Hlt.
  - destruct next, match_; rewrite ?lookup_insert_ne in * by done; by apply Hp.
Qed.

(** Replication progress is monotone. Whatever answer arrives, early,
    late or repeated, no peer's [matchIndex] decreases, [nextIndex] stays
    above [matchIndex] for every peer, and a rejection that is taken moves
    [nextIndex] strictly back. *)
Lemma replication_progress n peer current req resp io now n' r :
  progress_ok n ->
  0 <= ae_PrevLogIndex req -> ae_PrevLogIndex req + Z.of_nat (length (ae_Entries req)) + 1 < 2 ^ 64 ->
  (forall id, 0 <= default 0 (matchIndex n !! id) < 2 ^ 64 - 1) ->
  handleAppendEntriesResponse n peer current req resp io now = (n', r) ->
  progress_ok n' /\
  (forall id, default 0 (matchIndex n !! id) <= default 0 (matchIndex n' !! id)) /\
  (ar_Success resp = false ->
   nextIndex n' = nextIndex n \/
   default 0 (nextIndex n' !! peer) < default 0 (nextIndex n !! peer)).
Proof.
  intros Hp H0 Hb Hm E.
  assert (forall m, nextIndex m = nextIndex n -> matchIndex m = matchIndex n ->
    progress_ok m /\
    (forall id, default 0 (matchIndex n !! id) <= default 0 (matchIndex m !! id)) /\
    (ar_Success resp = false -> nextIndex m = nextIndex n \/
     default 0 (nextIndex m !! peer) < default 0 (nextIndex n !! peer))) as Hsame.
  { intros m E1 E2. unfold progress_ok. rewrite E1, E2. split_and!; [done|intros; lia|by left]. }
  unfold handleAppendEntriesResponse in E.
  case_decide; [injection E as <- <-; by apply Hsame|]. case_decide.
  { destruct (progress_becomeFollower n (ar_Term resp) io now) as [E1 E2]. injection E as <- <-.
    by apply Hsame. }
  case_decide; [injection E as <- <-; by apply Hsame|]. cbv zeta in E. destruct (ar_Success resp).
  - rewrite u64_small in E by lia. case_decide as Hle; [injection E as <- <-; by apply Hsame|].
    rewrite u64_small in E by lia. set (matched := ae_PrevLogIndex req + _) in *.
    set (nx := if decide (_ > default 0 (nextIndex n !! peer)) then _ else _) in E.
    destruct (set_progress_maps peer current nx (Some matched) n) as [E1 E2].
    destruct (progress_checkCommit (set_progress peer current nx (Some matched) n) io) as [E3 E4].
    rewrite E in E3, E4. cbn [fst] in E3, E4. split_and!; [| |done].
    + apply (progress_update n n' peer nx (Some matched) Hp); [congruence|congruence|].
      subst nx. case_decide; simpl; lia.
    + intros id. rewrite E4, E2. destruct (decide (id = peer)) as [->|Hne];
        [rewrite lookup_insert_eq; simpl; lia|by rewrite lookup_insert_ne].
  - case_decide as Hcur; [injection E as <- <-; by apply Hsame|]. rewrite u64_small in E by (specialize (Hm peer); lia).
    set (bn := backup_next n req resp) in E.
    set (nx := if decide (_ < default 0 (matchIndex n !! peer) + 1) then _ else _) in E.
    assert (default 0 (matchIndex n !! peer) < nx) as Hnx by (subst nx; repeat case_decide; lia).
    case_decide as Hge; [injection E as <- <-; by apply Hsame|].
    destruct (set_progress_maps peer current (Some nx) None n) as [E1 E2]. simplify_eq.
    split_and!.
    + apply (progress_update n _ peer (Some nx) None Hp); [done|done|]. simpl. lia.
    + intros id. by rewrite E2.
    + intros _. right. rewrite E1, lookup_insert_eq. simpl. lia.
Qed.

(** Compaction loses nothing above the new base. The log stays well
    formed, its last index does not change, the base only moves forward and
    never past the snapshot, entries above the base are the same, and the
    term recorded for the base is the one the log had there, also when the
    new base could not be written to disk. *)
Lemma compaction_keeps_entries n snap io n' r :
  log_wf n -> compactLogLocked n snap io = (n', r) ->
  log_wf n' /\ logBase n <= logBase n' <= Z.max (logBase n) snap /\
  lastLogIndexLocked n' = lastLogIndexLocked n /\
  (forall i, logBase n' < i -> logEntry n' i = logEntry n i) /\
  getLogTerm n' (logBase n') = getLogTerm n (logBase n').
Proof. apply compact_spec. Qed.

(** C9: an apply pass, whatever fails in it. It leaves the log alone and
    never runs past the commit index. Entries are consumed in log order from
    the first unapplied one, each once, without a gap: the state machine has
    seen exactly those up to the new applied index (an entry that can never be
    applied is skipped, with the state machine told so). The pass ends with
    the applied index at the commit index; or a write of the hard state failed;
    or it stopped right before the first entry whose failure is retryable (or
    whose skip could not be written), which the next pass tries again. Without
    such failures it reaches the commit index. *)
Theorem committed_applied_in_order {F : Type}
    (fsm_Apply : F -> RaftLogEntry -> F * option apply_error)
    (isRetryable : apply_error -> bool) (fsm_Set : F -> Z -> F) fuel n f commit io n' f' r :
  log_wf n -> logBase n <= lastApplied n -> commit <= lastLogIndexLocked n ->
  Z.max 0 (commit - lastApplied n) < Z.of_nat fuel ->
  processCommitted fsm_Apply isRetryable fsm_Set fuel n f commit 0 0 io = (n', f', r) ->
  log n' = log n /\ lastApplied n <= lastApplied n' <= Z.max (lastApplied n) commit /\
  (let g := foldl (apply_one fsm_Apply fsm_Set) f (unapplied n (lastApplied n')) in
   (r = ApplyDone /\ lastApplied n' = Z.max (lastApplied n) commit /\ f' = g) \/
   (r = ApplyRetry /\ f' = g /\ exists j, io j <> PersistOk) \/
   (r = ApplyRetry /\ lastApplied n' < commit /\ exists e err, logEntry n (lastApplied n' + 1) = Some e /\
      try_one fsm_Apply g e = (f', Some err) /\ (isRetryable err = true \/ exists j, io j <> PersistOk))) /\
  ((forall j, io j = PersistOk) -> (forall g e err, (try_one fsm_Apply g e).2 = Some err -> isRetryable err = false) ->
   r = ApplyDone).
Proof.
  intros Hw Hb Hc Hf E. pose proof (processCommitted_pass fsm_Apply isRetryable fsm_Set fuel n f commit 0 0 io Hw Hb Hc Hf) as H.
  rewrite E in H. destruct H as (V & L & H). split; [unfold log_view in V; by injection V|]. split; [done|]. split.
  - cbv zeta. destruct r; [left|done|right|done]; [by destruct H|]. destruct H as [[? ?]|[? ?]]; [by left|by right].
  - intros Hio Hno. destruct r; [done|done| |done]. exfalso.
    destruct H as [(_ & j & Hj)|(_ & e & err & _ & Ht & [Hr|[j Hj]])]; [by apply Hj| |by apply Hj].
    apply (f_equal snd) in Ht. by rewrite (Hno _ _ _ Ht) in Hr.
Qed.

(** A proposal is reported successful only if the entry applied at its
    index was proposed in the same term; whoever was waiting there is
    answered exactly once and no longer waits. *)
Lemma proposal_outcome n index term err t0 :
  applyWaiters n !! index = Some t0 -> t0 <> 0 ->
  exists outcome, resolved (notifyApply index term err n) = resolved n ++ [(index, outcome)] /\
    (outcome = None -> t0 = term /\ err = None) /\
    applyWaiters (notifyApply index term err n) = delete index (applyWaiters n).
Proof.
  intros Ew H0. unfold notifyApply. rewrite Ew. eexists. cbn. split; [done|]. split; [|done].
  case_decide as Hd; [done|]. intros ->. split; [|done]. lia.
Qed.

(** Check-quorum. After the periodic check a node is still leader only
    if it is in its first election timeout or a majority of its voters
    acknowledged its term within the last one; otherwise it is a follower
    and every waiting proposal has been failed. *)
Lemma check_quorum_leader n now :
  peers_ok n -> state n = StateLeader -> 0 < electionTimeout n ->
  let n' := checkQuorum n now in
  if decide (state n' = StateLeader) then
    now - leaderSince n < electionTimeout n \/
    majority (node_voters n (fun p => bool_decide (p_ackTerm p = currentTerm n /\
                now - electionTimeout n <= p_ackSentAt p)))
      (node_voters n (fun _ => true))
  else state n' = StateFollower /\ currentTerm n' = currentTerm n /\
    forall i, 0 <= i -> applyWaiters n' !! i = None.
Proof.
  intros Hp Hs Hw n'. subst n'. unfold checkQuorum.
  destruct (decide (state n <> StateLeader)) as [?|_]; [done|]. cbv zeta.
  destruct (decide (electionTimeout n <= 0 \/ now - leaderSince n < electionTimeout n)) as [Hwin|Hwin].
  { rewrite decide_True by done. left. lia. }
  destruct (quorumAckedSinceLocked n (currentTerm n) (now - electionTimeout n)) eqn:Eq.
  - rewrite decide_True by done. right. apply (quorum_majority n _ Hp). exact Eq.
  - unfold stepDownLocked. rewrite (decide_True (P := state n = StateLeader)) by done. cbn.
    split_and!; [done|done|]. intros i Hi. apply map_lookup_filter_None. right. cbn. intros t _. lia.
Qed.

(** Installing a snapshot keeps the log above it and never moves an
    index backwards: the log is well formed with its base at the snapshot,
    entries above the snapshot are unchanged, and commit and applied index
    are at least the snapshot's. *)
Lemma snapshot_install_keeps_suffix n config index term now :
  log_wf n -> logBase n <= index -> index + 1 < 2 ^ 64 ->
  let n' := install_boundary n config index term now in
  log_wf n' /\ logBase n' = index /\ getLogTerm n' index = term /\
  (forall i, index < i -> logEntry n' i = logEntry n i) /\
  commitIndex n' = Z.max (commitIndex n) index /\ lastApplied n' = Z.max (lastApplied n) index.
Proof. apply install_boundary_spec. Qed.

Lemma sorted_indexes_empty : sorted_indexes ∅ = [].
Proof. unfold sorted_indexes. by rewrite map_to_list_empty. Qed.

Lemma restoreLog_empty n : storage n = Some ∅ -> restoreLog n = Some n.
Proof.
  intros E. unfold restoreLog. rewrite E, sorted_indexes_empty. cbv zeta. cbn [head last default].
  destruct (decide _) as [_|Hn]; [done|]. destruct Hn. by right.
Qed.

(** The fields that the position in the log depends on. *)
Definition position_of (n : Node) := (logBase n, lastApplied n, log n, storage n).

Lemma position_refresh n : position_of (refreshMembershipLocked n) = position_of n.
Proof. unfold refreshMembershipLocked. by destruct (fold_log _ _ _ _). Qed.

Lemma position_membership n c saved :
  position_of (restoreRemoved (restorePeers n c (saved_peers saved)) (saved_removed saved)) =
  position_of n.
Proof.
  transitivity (position_of (restorePeers n c (saved_peers saved))).
  - unfold restoreRemoved. by destruct (_ && _).
  - unfold restorePeers. destruct (stable n), (saved_peers saved); try done.
    unfold setMembershipBaseLocked. by rewrite position_refresh.
Qed.

Lemma position_hard_state n h :
  stable n = Some (Some h) ->
  position_of (restoreHardState n) = (hs_LogBase h, hs_LastApplied h, log n, storage n).
Proof. intros E. unfold restoreHardState. by rewrite E. Qed.

Lemma restore_known_snapshot n i t :
  logBase n = i -> lastApplied n = i ->
  restoreLatestSnapshot n true (Some (i, t)) = set_lastSnapshotIndex i n.
Proof.
  intros Hb Ha. unfold restoreLatestSnapshot. rewrite Hb, Ha.
  destruct (decide (i < i)) as [?|_]; [lia|]. by rewrite bool_decide_eq_true_2 by lia.
Qed.

Lemma no_membership_entry n :
  0 <= logBase n -> log n = [base_entry 0 0] ->
  existsb (fun e => bool_decide (logBase n < Index e) &&
                    bool_decide (Type_ e = LogMembershipChange)) (log n) = false.
Proof. intros Hb ->. cbn. by rewrite bool_decide_eq_false_2 by lia. Qed.

(** A node whose log is a new node's although its base is not. *)
Lemma forgotten_position n base :
  0 < base -> logBase n = base -> log n = [base_entry 0 0] ->
  logBase n = base /\ lastLogIndexLocked n = 0 /\ ~ log_wf n /\
  forall t i, 0 <= t -> 0 <= i -> isLogMoreUpToDate n t i = true.
Proof.
  intros Hb Eb El.
  assert (Hlast : lastLogIndexLocked n = 0) by (unfold lastLogIndexLocked; by rewrite El).
  split_and!; [done|done| |].
  - intros [_ _ Hi _]. specialize (Hi 0%nat (base_entry 0 0)). rewrite El, Eb in Hi.
    specialize (Hi eq_refl). cbn in Hi. lia.
  - intros t i Ht Hi. unfold isLogMoreUpToDate. rewrite Hlast.
    replace (getLogTerm n 0) with 0; [apply bool_decide_eq_true; lia|].
    unfold getLogTerm, logEntry, logPosition. rewrite Eb.
    destruct (decide (0 < base)) as [_|?]; [|lia]. cbn. by destruct (decide (0 = base)); [lia|].
Qed.

(** A restart right after a snapshot was installed forgets the log
    position. With a durable state machine, the snapshot's index and term in
    the hard state and no entry stored above it, the node starts with its
    base at the snapshot but the in-memory log still that of a new node:
    its last index is 0 instead of the snapshot's index, so the log is not
    well formed and every candidate's log looks current to it. *)
Lemma restart_forgets_log_position fresh c saved h meta :
  log fresh = [base_entry 0 0] -> stable fresh = Some (Some h) -> storage fresh = Some ∅ ->
  0 < hs_LogBase h -> meta = (hs_LogBase h, hs_LogBaseTerm h) -> hs_LastApplied h = hs_LogBase h ->
  exists n, start_node fresh c saved true (Some meta) = Some n /\
    logBase n = hs_LogBase h /\ lastLogIndexLocked n = 0 /\ ~ log_wf n /\
    forall t i, 0 <= t -> 0 <= i -> isLogMoreUpToDate n t i = true.
Proof.
  intros El Es Est Hlb -> Hla. unfold start_node.
  pose proof (position_membership (restoreHardState fresh) c saved) as Hp.
  rewrite (position_hard_state fresh h Es), Hla, El, Est in Hp. set (m := restoreRemoved _ _) in *.
  clearbody m. unfold position_of in Hp. injection Hp as Hb Ha Hl Hs.
  rewrite restore_known_snapshot by done.
  set (m' := set_lastSnapshotIndex (hs_LogBase h) m).
  change (logBase m' = hs_LogBase h) in Hb. change (log m' = [base_entry 0 0]) in Hl.
  change (storage m' = Some ∅) in Hs. clearbody m'.
  rewrite restoreLog_empty by done. cbn [mbind option_bind].
  rewrite no_membership_entry by (lia || done).
  eexists. split; [reflexivity|]. apply forgotten_position; done.
Qed.
End properties.

(** ** Pre-votes *)

Lemma becomeFollower_fresh n term now :
  let '(n', ok) := becomeFollower n term PersistOk now in
  ok = true /\ votedFor n' = "" /\ log_view n' = log_view n.
Proof.
  unfold becomeFollower, persistHardStateLocked. cbn.
  destruct (stable n); cbn; case_decide; by destruct (bool_decide _).
Qed.

(** The pre-vote is a faithful rehearsal. For a candidate of a later
    term, a node grants a pre-vote exactly when it is not a leader, has not
    heard from another leader within the election timeout, and would, with a
    working disk, grant the vote itself. So a granted pre-vote is a vote the
    candidate can get, and a node that was cut off for a while gets none from
    nodes that still hear from a leader. *)
Lemma prevote_predicts_vote n req now :
  rv_Term req > currentTerm n ->
  vr_VoteGranted (handlePreVote n req now) = true <->
  state n <> StateLeader /\
  ~ (leaderID n <> "" /\ leaderID n <> rv_CandidateID req /\ now - lastContact n < electionTimeout n) /\
  vr_VoteGranted (handleRequestVote n req PersistOk PersistOk now).2 = true.
Proof.
  intros Ht.
  assert (vr_VoteGranted (handleRequestVote n req PersistOk PersistOk now).2 =
    isLogMoreUpToDate n (rv_LastLogTerm req) (rv_LastLogIndex req)) as ->.
  { unfold handleRequestVote. rewrite decide_False, decide_True by lia.
    pose proof (becomeFollower_fresh n (rv_Term req) now) as Hf.
    destruct (becomeFollower n (rv_Term req) PersistOk now) as [n1 ok]. destruct Hf as (-> & Hv & V). cbn [negb].
    rewrite bool_decide_eq_true_2 by (by left). cbn [andb].
    assert (isLogMoreUpToDate n1 (rv_LastLogTerm req) (rv_LastLogIndex req) =
      isLogMoreUpToDate n (rv_LastLogTerm req) (rv_LastLogIndex req)) as ->.
    { unfold isLogMoreUpToDate, getLogTerm. rewrite (lastLogIndex_view n n1 V), !(logEntry_view n n1 _ V).
      unfold log_view in V. by injection V as _ -> ->. }
    destruct (isLogMoreUpToDate n _ _); [|done].
    unfold persistHardStateLocked. cbn. by destruct (stable n1). }
  unfold handlePreVote. rewrite decide_False by lia. cbv zeta.
  destruct (bool_decide (state n = StateLeader)) eqn:El.
  { apply bool_decide_eq_true in El. cbn. split; [done|]. by intros [? _]. }
  apply bool_decide_eq_false in El. cbn [orb].
  destruct (bool_decide (leaderID n <> "" /\ _)) eqn:Eh.
  { apply bool_decide_eq_true in Eh. cbn. split; [done|]. by intros (_ & ? & _). }
  apply bool_decide_eq_false in Eh. cbn. naive_solver.
Qed.
