(* ===== verification/RaftConfig.v ===== *)
(** * Quorums and the configuration in effect

    A node counts votes over its peer map, which it keeps in step with the
    membership configuration (src/internal/raft/membership.go). Here: in every
    step of a node, from its construction on, the peers whose votes count are
    exactly the voters of the effective configuration. This discharges the
    assumptions about the peer map in RaftProps.v. *)
From stdpp Require Import base gmap strings list sorting.
From Stdlib Require Import ZArith Lia Strings.Byte.
From S2P Require Import Prelude Membership Raft RaftOps RaftElection RaftLog.

(** The operations that leave the configuration alone. *)
Create HintDb raft_conf.

Section config.
Context {MC : MembershipCodec}.

(** What quorums depend on. *)
Definition shape (p : Peer) : string * RaftRole * bool := (p_ID p, p_Role p, p_leaving p).

Definition conf_of (n : Node) :=
  (nodeID n, selfNonVoter n, membershipBase n, membershipLatest n, shape <$> peers n).

Record config_ok (n : Node) : Prop := {
  co_base : normal (membershipBase n);
  co_latest : normal (membershipLatest n);
  co_peers : peers_ok n;
  co_voters : node_voters n (fun _ => true) = voters (membershipLatest n);
}.

Lemma elem_of_node_voters n id :
  id ∈ node_voters n (fun _ => true) <->
  (selfNonVoter n = false /\ id = nodeID n) \/
  (exists k p, peers n !! k = Some p /\ peer_votes p = true /\ p_ID p = id).
Proof.
  unfold node_voters, counted. rewrite filter_trivial, elem_of_union, elem_of_list_to_set, list_elem_of_fmap.
  setoid_rewrite list_elem_of_filter. setoid_rewrite list_elem_of_fmap. split.
  - intros [H|(p & -> & Hp & [k p'] & -> & Hin%elem_of_map_to_list)].
    + destruct (selfNonVoter n); [set_solver|left; set_solver].
    + right. eauto.
  - intros [[-> ->]|(k & p & Hk & Hp & <-)]; [left; set_solver|right].
    exists p. split; [done|]. split; [done|]. exists (k, p). by rewrite elem_of_map_to_list.
Qed.

Lemma shape_lookup n n' :
  shape <$> peers n' = shape <$> peers n ->
  forall k p, peers n' !! k = Some p -> exists q, peers n !! k = Some q /\ shape q = shape p.
Proof.
  intros E k p Hp. assert ((shape <$> peers n) !! k = Some (shape p)) as H
    by (rewrite <- E, lookup_fmap, Hp; done).
  rewrite lookup_fmap in H. destruct (peers n !! k) as [q|]; [|done]. simpl in H. injection H as H.
  exists q. split; [done|]. unfold shape. congruence.
Qed.

Lemma peer_votes_shape p q : shape p = shape q -> peer_votes p = peer_votes q.
Proof. unfold shape, peer_votes. intros [= _ -> ->]. done. Qed.

Lemma voters_conf n n' :
  conf_of n' = conf_of n ->
  (peers_ok n -> peers_ok n') /\ node_voters n' (fun _ => true) = node_voters n (fun _ => true).
Proof.
  intros E.
  assert (nodeID n' = nodeID n /\ selfNonVoter n' = selfNonVoter n /\ shape <$> peers n' = shape <$> peers n)
    as (E1 & E2 & E5) by (unfold conf_of in E; split_and!; congruence).
  split.
  - intros Hp id p Hip. destruct (shape_lookup n n' E5 id p Hip) as (q & Hq & Hs).
    rewrite E1. destruct (Hp id q Hq) as [H1 H2]. split; [|done]. unfold shape in Hs. congruence.
  - apply set_eq. intros id. rewrite !elem_of_node_voters, E1, E2.
    enough (forall n1 n2, shape <$> peers n1 = shape <$> peers n2 ->
      (exists k p, peers n1 !! k = Some p /\ peer_votes p = true /\ p_ID p = id) ->
      (exists k p, peers n2 !! k = Some p /\ peer_votes p = true /\ p_ID p = id)) as Hx.
    { split; (intros [?|?]; [by left|right]); [by apply (Hx n' n)|by apply (Hx n n')]. }
    intros n1 n2 E' (k & p & Hk & Hvp & Hid). destruct (shape_lookup n2 n1 E' k p Hk) as (q & Hq & Hs).
    exists k, q. rewrite (peer_votes_shape q p Hs). split_and!; [done|done|]. unfold shape in Hs. congruence.
Qed.

Lemma config_ok_conf n n' : conf_of n' = conf_of n -> config_ok n -> config_ok n'.
Proof.
  intros E [Hb Hl Hp Hv]. destruct (voters_conf n n' E) as [Hp' Hv'].
  assert (membershipBase n' = membershipBase n /\ membershipLatest n' = membershipLatest n) as [E3 E4]
    by (unfold conf_of in E; split; congruence).
  constructor; [by rewrite E3|by rewrite E4|by apply Hp'|]. by rewrite E4, Hv'.
Qed.

(** ** After a refresh *)

Lemma lookup_members (l : list RaftPeer) id m :
  NoDup (map ID l) ->
  (list_to_map (map (fun m => (ID m, m)) l) : gmap string RaftPeer) !! id = Some m <-> m ∈ l /\ ID m = id.
Proof.
  intros Hn. rewrite <- elem_of_list_to_map.
  - rewrite list_elem_of_fmap. naive_solver.
  - by rewrite <- list_fmap_compose.
Qed.

Lemma fold_log_normal base es latest idx :
  normal latest -> normal (fold_log base es latest idx).1.
Proof.
  revert latest idx. induction es as [|e es IH]; intros latest idx Hl; simpl; [done|].
  case_decide; [by apply IH|]. destruct (decodeMembershipEntry (Data e)); [|by apply IH].
  apply IH. unfold foldMembership. case_decide; apply normalizeMembers_spec.
Qed.

Lemma union_lookup self base latest id :
  NoDup (map ID base) -> NoDup (map ID latest) ->
  match union_members self base latest !! id with
  | Some m => id <> self /\ ID m = id /\ (m ∈ latest \/ (m ∈ base /\ id ∉ map ID latest))
  | None => id = self \/ (id ∉ map ID latest /\ id ∉ map ID base)
  end.
Proof.
  intros Hb Hl. unfold union_members. destruct (decide (id = self)) as [->|Hne].
  { rewrite lookup_delete_eq. by left. }
  rewrite lookup_delete_ne by done.
  assert (NoDup (map ID (reverse latest))) as Hr by (by rewrite reverse_Permutation).
  pose proof (fun m => lookup_members (reverse latest) id m Hr) as H1.
  pose proof (fun m => lookup_members base id m Hb) as H2. setoid_rewrite elem_of_reverse in H1.
  rewrite lookup_union.
  destruct (list_to_map (map (fun m => (ID m, m)) (reverse latest)) !! id) as [m|] eqn:E1.
  - destruct (proj1 (H1 m) eq_refl) as [Hm HI].
    destruct (list_to_map (map (fun m => (ID m, m)) base) !! id); simpl; auto.
  - assert (id ∉ map ID latest) as Hni.
    { intros (m & -> & Hm)%list_elem_of_fmap. by specialize (proj2 (H1 m) (conj Hm eq_refl)). }
    destruct (list_to_map (map (fun m => (ID m, m)) base) !! id) as [m|] eqn:E2; simpl.
    + destruct (proj1 (H2 m) eq_refl) as [Hm HI]. auto.
    + right. split; [done|]. intros (m & -> & Hm)%list_elem_of_fmap.
      by specialize (proj2 (H2 m) (conj Hm eq_refl)).
Qed.

Lemma NoDup_ids_eq (l : list RaftPeer) m1 m2 :
  NoDup (map ID l) -> m1 ∈ l -> m2 ∈ l -> ID m1 = ID m2 -> m1 = m2.
Proof.
  intros Hn H1 H2 E. pose proof (proj2 (lookup_members l (ID m2) m1 Hn) (conj H1 E)).
  pose proof (proj2 (lookup_members l (ID m2) m2 Hn) (conj H2 eq_refl)). congruence.
Qed.

(** The node's own entry. *)
Lemma self_member (l : list RaftPeer) self :
  NoDup (map ID l) ->
  match last (filter (fun m => ID m = self) l) with
  | Some m => m ∈ l /\ ID m = self
  | None => self ∉ map ID l
  end.
Proof.
  intros Hn. destruct (last (filter (fun m => ID m = self) l)) as [m|] eqn:E.
  - apply last_Some_elem_of in E. apply list_elem_of_filter in E. tauto.
  - apply last_None in E. intros (m & -> & Hm)%list_elem_of_fmap.
    assert (m ∈ filter (fun x => ID x = ID m) l) as Hin by (by apply list_elem_of_filter).
    rewrite E in Hin. by apply elem_of_nil in Hin.
Qed.

(** The peers after a refresh: their identity, role and whether they leave. *)
Lemma sync_peers_lookup base latest n :
  normal base -> normal latest -> (forall id p, peers n !! id = Some p -> p_ID p = id) ->
  forall id p, peers (syncPeersLocked base latest n) !! id = Some p ->
  exists m, union_members (nodeID n) base latest !! id = Some m /\
    p_ID p = id /\ p_Role p = Role m /\ p_leaving p = negb (bool_decide (id ∈ map ID latest)).
Proof.
  intros Hb Hl Hids id p. cbn [syncPeersLocked peers set_peers]. rewrite map_lookup_imap.
  pose proof (union_lookup (nodeID n) base latest id (normal_NoDup _ Hb) (normal_NoDup _ Hl)) as Hu.
  destruct (union_members (nodeID n) base latest !! id) as [m|] eqn:Em; [|done]. intros [= <-].
  exists m. split; [done|]. split; [|done]. simpl. destruct (peers n !! id) as [q|] eqn:Eq; [by eapply Hids|].
  simpl. tauto.
Qed.

Lemma config_sync base latest n :
  normal base -> normal latest -> (forall id p, peers n !! id = Some p -> p_ID p = id) ->
  membershipBase n = base -> membershipLatest n = latest ->
  config_ok (syncPeersLocked base latest n).
Proof.
  intros Hb Hl Hids Eb El. pose proof (normal_NoDup _ Hb) as Nb. pose proof (normal_NoDup _ Hl) as Nl.
  pose proof (sync_peers_lookup base latest n Hb Hl Hids) as Hpeer.
  split; [by rewrite <- Eb in Hb|by rewrite <- El in Hl|..].
  - intros id p Hp. destruct (Hpeer id p Hp) as (m & Hm & HI & _). split; [done|].
    pose proof (union_lookup (nodeID n) base latest id Nb Nl) as Hu. rewrite Hm in Hu. tauto.
  - change (membershipLatest (syncPeersLocked base latest n)) with (membershipLatest n). rewrite El.
    apply set_eq. intros id. rewrite elem_of_node_voters, elem_of_voters.
    pose proof (self_member latest (nodeID n) Nl) as Hself. split.
    + intros [[Hs ->]|(k & p & Hp & Hv & <-)].
      * cbn [syncPeersLocked selfNonVoter set_peers set_matchIndex set_nextIndex set_selfAbsent set_selfNonVoter] in Hs.
        change (nodeID (syncPeersLocked base latest n)) with (nodeID n).
        destruct (last _) as [m|]; [|done]. exists m. apply negb_false_iff in Hs. tauto.
      * destruct (Hpeer k p Hp) as (m & Hm & -> & HR & HL).
        pose proof (union_lookup (nodeID n) base latest k Nb Nl) as Hu. rewrite Hm in Hu.
        unfold peer_votes in Hv. rewrite HR, HL, negb_involutive in Hv.
        apply andb_true_iff in Hv as [Hv1 Hv2%bool_decide_eq_true]. exists m. unfold is_voter.
        destruct Hu as (_ & HI & [Hu|[_ Hu]]); [by split_and!|done].
    + intros (m & Hm & Hv & <-). destruct (decide (ID m = nodeID n)) as [Es|Hne].
      * left. split; [|done].
        cbn [syncPeersLocked selfNonVoter set_peers set_matchIndex set_nextIndex set_selfAbsent set_selfNonVoter].
        destruct (last _) as [m'|].
        -- destruct Hself as [Hm' HI']. rewrite (NoDup_ids_eq latest m' m Nl Hm' Hm) by congruence.
           by rewrite Hv.
        -- destruct Hself. apply list_elem_of_fmap. by exists m.
      * right. pose proof (union_lookup (nodeID n) base latest (ID m) Nb Nl) as Hu.
        assert (ID m ∈ map ID latest) as Hin by (apply list_elem_of_fmap; by exists m).
        destruct (union_members (nodeID n) base latest !! ID m) as [m'|] eqn:Em; [|tauto].
        destruct Hu as (_ & HI & [Hu|[_ Hu]]); [|tauto].
        assert (m' = m) as -> by (by apply (NoDup_ids_eq latest)).
        destruct (peers (syncPeersLocked base latest n) !! ID m) as [p|] eqn:Ep.
        -- destruct (Hpeer _ _ Ep) as (m'' & Hm'' & HI'' & HR & HL). exists (ID m), p. split; [done|].
           split; [|done]. unfold peer_votes. rewrite HR, HL, negb_involutive. rewrite Em in Hm''.
           injection Hm'' as <-. rewrite (bool_decide_eq_true_2 (ID m ∈ map ID latest) Hin).
           unfold is_voter in Hv. by rewrite Hv.
        -- exfalso. revert Ep. cbn [syncPeersLocked peers set_peers]. by rewrite map_lookup_imap, Em.
Qed.

Lemma config_refresh n :
  normal (membershipBase n) -> (forall id p, peers n !! id = Some p -> p_ID p = id) ->
  config_ok (refreshMembershipLocked n).
Proof.
  intros Hb Hids. unfold refreshMembershipLocked.
  pose proof (fold_log_normal (logBase n) (log n) (membershipBase n) 0 Hb) as Hl.
  destruct (fold_log _ _ _ _) as [latest idx]. by apply config_sync.
Qed.

Lemma config_refresh_ok n : config_ok n -> config_ok (refreshMembershipLocked n).
Proof. intros [Hb _ Hp _]. apply config_refresh; [done|]. intros id p Hip. by apply Hp. Qed.

Lemma config_setBase base n : config_ok n -> normal base -> config_ok (setMembershipBaseLocked base n).
Proof. intros [_ _ Hp _] Hb. apply config_refresh; [done|]. intros id p Hip. by apply (Hp id p). Qed.

(** ** Every other operation leaves it alone *)

Lemma conf_persist n io : conf_of (persistHardStateLocked n io).1 = conf_of n.
Proof. unfold persistHardStateLocked. destruct (stable n); [|done]. by destruct io as [|[]]. Qed.

Lemma conf_StoreLogs n es io : conf_of (StoreLogs n es io).1 = conf_of n.
Proof. unfold StoreLogs. destruct (storage n); [|done]. by destruct io. Qed.

Lemma conf_DeleteRange n lo hi io : conf_of (DeleteRange n lo hi io).1 = conf_of n.
Proof. unfold DeleteRange. destruct (storage n); [|done]. by destruct io. Qed.

Lemma conf_appendEntry n e io : conf_of (appendEntry n e io).1 = conf_of n.
Proof.
  unfold appendEntry. pose proof (conf_StoreLogs n
    [MkEntry (u64 (lastLogIndexLocked n + 1)) (Term e) (Type_ e) (Data e)] io) as Hq.
  by destruct (StoreLogs _ _ _) as [n1 [|]].
Qed.

Lemma conf_becomeFollower n term io now : conf_of (becomeFollower n term io now).1 = conf_of n.
Proof.
  unfold becomeFollower. pose proof (conf_persist (set_votedFor "" (set_currentTerm term n)) io) as Hq.
  destruct (persistHardStateLocked _ io) as [n1 [|]]; [|exact Hq]. cbn [fst] in *.
  case_decide; by destruct (bool_decide _).
Qed.

Lemma conf_set_progress id current next match_ n : conf_of (set_progress id current next match_ n) = conf_of n.
Proof.
  unfold set_progress. set (n1 := match match_ with Some v => _ | None => _ end).
  assert (conf_of n1 = conf_of n) as E1 by (subst n1; by destruct next, match_).
  destruct current; [|exact E1]. rewrite <- E1. unfold conf_of. cbn [nodeID selfNonVoter membershipBase
    membershipLatest peers set_peers]. f_equal. apply map_eq. intros j. rewrite !lookup_fmap.
  destruct (decide (id = j)) as [<-|Hne]; [rewrite lookup_alter_eq|by rewrite lookup_alter_ne].
  by destruct (peers n1 !! id).
Qed.

Lemma conf_checkCommit n io : conf_of (checkCommit n io).1 = conf_of n.
Proof.
  unfold checkCommit. case_decide; [done|]. cbv zeta. destruct (commit_loop _ _ _) as [index|]; [|done].
  pose proof (conf_persist (set_commitIndex index n) io) as Hq.
  by destruct (persistHardStateLocked _ io) as [n1 [|]].
Qed.

Lemma conf_updateCommit n req io : conf_of (updateCommitIndex n req io).1 = conf_of n.
Proof.
  unfold updateCommitIndex. case_decide; [done|]. cbv zeta.
  set (nc := if decide (ae_LeaderCommit req > _)%Z then _ else _). case_decide; [done|].
  pose proof (conf_persist (set_commitIndex nc n) io) as Hq.
  by destruct (persistHardStateLocked _ io) as [n1 [|]].
Qed.

Lemma conf_truncate n at_ io : conf_of (truncate_log n at_ io).1 = conf_of n.
Proof.
  unfold truncate_log. destruct (decide (at_ <= lastLogIndexLocked n)%Z); [|done].
  pose proof (conf_DeleteRange n at_ (lastLogIndexLocked n) io) as Hq.
  by destruct (DeleteRange _ _ _ _) as [n1 [|]].
Qed.

Lemma config_reconcile n req io1 io2 : config_ok n -> config_ok (reconcileLogEntries n req io1 io2).1.
Proof.
  intros Hok. unfold reconcileLogEntries.
  set (c := find_conflict n (u64 (ae_PrevLogIndex req + 1)) (ae_Entries req)).
  set (r1 := match c with Some at_ => truncate_log n at_ io1 | None => (n, true) end).
  assert (config_ok r1.1) as H1.
  { apply (config_ok_conf n); [|done]. subst r1. destruct c; [apply conf_truncate|done]. }
  destruct r1 as [n1 [|]]; cbn [fst negb] in *; [|done].
  set (app := new_entries _ _ _). set (res := match app with [] => _ | _ => _ end).
  assert (config_ok res.1) as H2.
  { apply (config_ok_conf n1); [|done]. subst res. destruct app; [done|]. apply conf_StoreLogs. }
  destruct res as [n2 [|]]; cbn [fst negb] in *.
  - assert (config_ok (set_log (log n2 ++ app) n2)) as H3 by (by apply (config_ok_conf n2)).
    destruct (_ || _); [by apply config_refresh_ok|done].
  - destruct (bool_decide _); [by apply config_refresh_ok|done].
Qed.

Lemma config_handleAppendEntries n req io now :
  config_ok n -> config_ok (handleAppendEntries n req io now).1.
Proof.
  intros Hok. unfold handleAppendEntries.
  assert (config_ok (validateTerm n req (aio_term io) now).1) as Hv.
  { apply (config_ok_conf n); [|done]. unfold validateTerm. case_decide; [done|]. case_decide; [|done].
    pose proof (conf_becomeFollower n (ae_Term req) (aio_term io) now) as Hq.
    by destruct (becomeFollower _ _ _ _) as [n1 [|]]. }
  destruct (validateTerm _ _ _ _) as [n1 [resp|]]; cbn [fst] in *; [done|].
  set (n2 := set_leaderID (ae_LeaderID req) _).
  assert (config_ok n2) as H2 by (apply (config_ok_conf n1); [subst n2; by case_decide|done]).
  destruct (checkLogConsistency n2 req); [done|].
  pose proof (config_reconcile n2 req (aio_delete io) (aio_store io) H2) as Hr.
  destruct (reconcileLogEntries _ _ _ _) as [n3 [|]]; cbn [fst] in *; [|done].
  pose proof (conf_updateCommit n3 req (aio_commit io)) as Hc.
  destruct (updateCommitIndex _ _ _) as [n4 o]. by apply (config_ok_conf n3).
Qed.

Lemma conf_stepDown n now : conf_of (stepDownLocked n now) = conf_of n.
Proof. unfold stepDownLocked. by case_decide. Qed.

Lemma conf_handleHeartbeat n req io now : conf_of (handleHeartbeat n req io now).1 = conf_of n.
Proof.
  unfold handleHeartbeat. case_decide; [|done].
  set (r := if decide (hb_Term req > currentTerm n)%Z then _ else _).
  assert (conf_of r.1 = conf_of n) as Hr by (subst r; case_decide; [apply conf_becomeFollower|done]).
  destruct r as [n1 [|]]; cbn [fst negb] in *; [|done]. rewrite <- Hr.
  set (m := set_leaderID (hb_LeaderID req) (set_lastContact now n1)).
  change (conf_of n1) with (conf_of m). clearbody m.
  set (m2 := if decide (state m = StateLeader) then _ else m).
  assert (conf_of m2 = conf_of m) as <-.
  { subst m2. destruct (decide (state m = StateLeader)); [|done]. exact (conf_stepDown m now). }
  clearbody m2. by destruct (decide (state m2 <> StateFollower)).
Qed.

Lemma conf_checkQuorum n now : conf_of (checkQuorum n now) = conf_of n.
Proof.
  unfold checkQuorum. case_decide; [done|]. cbv zeta. case_decide; [done|].
  destruct (quorumAckedSinceLocked _ _ _); [done|]. apply conf_stepDown.
Qed.

Lemma conf_handleAppendEntriesResponse n peer current req resp io now :
  conf_of (handleAppendEntriesResponse n peer current req resp io now).1 = conf_of n.
Proof.
  unfold handleAppendEntriesResponse. case_decide; [done|]. case_decide; [apply conf_becomeFollower|].
  case_decide; [done|]. cbv zeta. destruct (ar_Success resp).
  - case_decide; [done|]. by rewrite conf_checkCommit, conf_set_progress.
  - case_decide; [done|]. case_decide; [done|]. apply conf_set_progress.
Qed.

Lemma conf_markPeerAck n peer term sentAt : conf_of (markPeerAck n peer term sentAt) = conf_of n.
Proof.
  unfold markPeerAck. destruct (peers n !! peer) as [p|] eqn:E; [|done]. case_decide; [|done].
  unfold conf_of. cbn [nodeID selfNonVoter membershipBase membershipLatest peers set_peers]. f_equal.
  rewrite fmap_insert. apply insert_id. by rewrite lookup_fmap, E.
Qed.

Lemma conf_handleApply n data io : conf_of (handleApply n data io).1 = conf_of n.
Proof.
  unfold handleApply. case_decide; [done|].
  pose proof (conf_appendEntry n (MkEntry 0 (currentTerm n) LogCommand data) io) as Ha.
  destruct (appendEntry _ _ _) as [n1 [|]]; cbn [fst] in *; [|done]. by destruct (last (log n1)).
Qed.

Lemma config_propose n type peer old io :
  config_ok n -> config_ok (proposeMembershipChange n type peer old io).1.
Proof.
  intros Hok. unfold proposeMembershipChange. cbv zeta. repeat (case_decide; [done|]).
  match goal with |- context [appendEntry n ?e io] => pose proof (conf_appendEntry n e io) as Ha end.
  destruct (appendEntry _ _ _) as [n1 [|]]; cbn [fst] in *; [|by apply (config_ok_conf n)].
  apply config_refresh_ok, (config_ok_conf n); [|done]. rewrite <- Ha. by destruct (last (log n1)).
Qed.

Lemma conf_install_chunk n req io now : conf_of (handleInstallSnapshot_chunk n req io now).1 = conf_of n.
Proof.
  unfold handleInstallSnapshot_chunk. case_decide; [done|].
  set (r := if decide (is_Term req > currentTerm n)%Z then _ else _).
  assert (conf_of r.1 = conf_of n) as Hr by (subst r; case_decide; [apply conf_becomeFollower|done]).
  destruct r as [n1 [|]]; cbn [fst negb] in *; [|done]. rewrite <- Hr. clear Hr.
  set (m := set_leaderID (is_LeaderID req) (set_lastContact now n1)).
  change (conf_of n1) with (conf_of m). clearbody m. case_decide.
  { destruct (incomingSnapshot m) as [s|]; [by case_decide|done]. }
  set (n2 := if decide (is_Offset req = 0%Z) then _ else _).
  assert (conf_of n2 = conf_of m) as <- by (subst n2; by case_decide). clearbody n2.
  destruct (incomingSnapshot n2) as [s|]; [|done]. case_decide; [done|]. by destruct (is_Done req).
Qed.

Lemma config_install_boundary n config index term now :
  config_ok n -> config_ok (install_boundary n config index term now).
Proof.
  intros Hok. unfold install_boundary.
  set (n1 := if decide (tableScopeFloor n < index)%Z then _ else n).
  assert (config_ok n1) as H1 by (apply (config_ok_conf n); [subst n1; by case_decide|done]). clearbody n1.
  set (n2 := set_logBaseTerm _ _). assert (config_ok n2) as H2 by (by apply (config_ok_conf n1)). clearbody n2.
  set (n3 := if decide (0 < length config)%nat then _ else _).
  assert (config_ok n3) as H3.
  { subst n3. case_decide; [apply config_setBase; [done|apply normalizeMembers_spec]|by apply config_refresh_ok]. }
  clearbody n3. apply (config_ok_conf n3); [|done].
  set (n4 := if decide (commitIndex n3 < index)%Z then _ else n3).
  assert (conf_of n4 = conf_of n3) as <- by (subst n4; by case_decide). by case_decide.
Qed.

Lemma config_install_finish n req index term restored io io_del now :
  config_ok n -> config_ok (handleInstallSnapshot_finish n req index term restored io io_del now).1.
Proof.
  intros Hok. unfold handleInstallSnapshot_finish. destruct restored; cbn [negb]; [|by apply (config_ok_conf n)].
  assert (config_ok (install_boundary (set_restoring false n) (is_Configuration req) index term now)) as H1
    by (by apply config_install_boundary, (config_ok_conf n)).
  set (n1 := install_boundary _ _ _ _ _) in *. clearbody n1. pose proof (conf_persist n1 io) as Hp.
  destruct (persistHardStateLocked n1 io) as [n2 [|]]; cbn [fst] in *; [|by apply (config_ok_conf n1)].
  apply (config_ok_conf n1); [|done]. rewrite <- Hp. case_decide; [|done].
  match goal with |- context [DeleteRange n2 ?a ?b ?c] => pose proof (conf_DeleteRange n2 a b c) as Hd end.
  by destruct (DeleteRange _ _ _ _).
Qed.

Lemma conf_compactLog n snap io io_del : conf_of (compactLog n snap io io_del) = conf_of n.
Proof.
  unfold compactLog. assert (conf_of (compactLogLocked n snap io).1 = conf_of n) as Hq.
  { unfold compactLogLocked. case_decide; [done|]. cbv zeta. case_decide; [done|].
    destruct (logPosition _ _) as [pos|]; [|done].
    match goal with |- context [persistHardStateLocked ?m io] => pose proof (conf_persist m io) as Hp end.
    by destruct (persistHardStateLocked _ io) as [n1 [|]]. }
  destruct (compactLogLocked _ _ _) as [n1 [[o b]|]]; cbn [fst] in *; [|done].
  case_decide; [done|]. by rewrite conf_DeleteRange.
Qed.

Lemma config_applyMembership n e : config_ok n -> config_ok (applyMembershipEntry n e).
Proof.
  intros Hok. unfold applyMembershipEntry. cbv zeta.
  set (n1 := refreshMembershipLocked _).
  assert (config_ok n1) as H1.
  { apply (config_setBase (foldMembership (membershipBase n) e) n Hok).
    unfold foldMembership. case_decide; apply normalizeMembers_spec. }
  clearbody n1. destruct (_ && _); [by apply (config_ok_conf n1)|].
  destruct (_ && _); by apply (config_ok_conf n1).
Qed.

Lemma conf_notifyApply index term err n : conf_of (notifyApply index term err n) = conf_of n.
Proof. unfold notifyApply. by destruct (applyWaiters n !! index). Qed.

Lemma config_processCommitted {F} (fsm_Apply : F -> RaftLogEntry -> F * option apply_error) isRetryable
    fsm_Set fuel : forall n f commit unp k io,
  config_ok n -> config_ok (processCommitted fsm_Apply isRetryable fsm_Set fuel n f commit unp k io).1.1.
Proof.
  assert (forall n io, config_ok n -> config_ok (persistApplied n io).1) as Hpa.
  { intros n io Hok. unfold persistApplied. pose proof (conf_persist n io) as Hq.
    destruct (persistHardStateLocked n io). by apply (config_ok_conf n). }
  induction fuel as [|fuel IH]; intros n f commit unp k io Hok; cbn [processCommitted]; [done|].
  case_decide.
  { destruct (_ || _); [|done]. specialize (Hpa n (io k) Hok). by destruct (persistApplied n (io k)) as [n1 [|]]. }
  cbv zeta. destruct (logEntry _ _) as [entry|]; [|done].
  assert (config_ok (apply_entry fsm_Apply n f entry).1.1) as He.
  { unfold apply_entry. case_decide; [|by destruct (fsm_Apply f entry)].
    destruct (decodeMembershipEntry _); [by apply config_applyMembership|done]. }
  destruct (apply_entry fsm_Apply n f entry) as [[n1 f1] [err|]]; cbn [fst] in *.
  - destruct (isRetryable err); [apply (config_ok_conf n1); [apply conf_notifyApply|done]|].
    assert (config_ok (skipCommittedEntry n1 (u64 (lastApplied n + 1)) (io k)).1) as Hs.
    { unfold skipCommittedEntry. pose proof (conf_persist (set_lastApplied (u64 (lastApplied n + 1)) n1) (io k)) as Hq.
      apply (config_ok_conf n1); [|done]. by destruct (persistHardStateLocked _ (io k)) as [n2 [|]]. }
    destruct (skipCommittedEntry _ _ _) as [n2 [|]]; cbn [fst] in *; [|done].
    apply IH, (config_ok_conf n2); [apply conf_notifyApply|done].
  - assert (config_ok (notifyApply (Index entry) (Term entry) None (set_lastApplied (u64 (lastApplied n + 1)) n1))) as Hn.
    { apply (config_ok_conf n1); [|done]. by rewrite conf_notifyApply. }
    case_decide; [|by apply IH]. specialize (Hpa _ (io k) Hn).
    destruct (persistApplied _ (io k)) as [n2 [|]]; cbn [fst] in *; [by apply IH|done].
Qed.

Lemma conf_handleVoteResponse n term respTerm io now :
  conf_of (handleVoteResponse n term respTerm io now) = conf_of n.
Proof. unfold handleVoteResponse. case_decide; [apply conf_becomeFollower|done]. Qed.

Lemma conf_handleRequestVote n req io1 io2 now :
  conf_of (handleRequestVote n req io1 io2 now).1 = conf_of n.
Proof.
  unfold handleRequestVote. case_decide; [done|].
  set (r := if decide (rv_Term req > currentTerm n)%Z then _ else _).
  assert (conf_of r.1 = conf_of n) as Hr by (subst r; case_decide; [apply conf_becomeFollower|done]).
  destruct r as [n1 [|]]; cbn [fst negb] in *; [|done]. rewrite <- Hr. destruct (_ && _); [|done].
  pose proof (conf_persist (set_votedFor (rv_CandidateID req) n1) io2) as Hq.
  by destruct (persistHardStateLocked _ io2) as [n2 [|]].
Qed.

Lemma conf_begin n io now : conf_of (startElection_begin n io now).1 = conf_of n.
Proof.
  unfold startElection_begin. destruct (_ || _); [done|]. destruct (restoring n); [done|].
  destruct (selfNonVoter n) eqn:Es; [done|]. cbv zeta. case_decide.
  - match goal with |- context [persistHardStateLocked ?m io] => pose proof (conf_persist m io) as Hq end.
    by destruct (persistHardStateLocked _ io) as [n1 [|]].
  - by case_decide.
Qed.

Lemma conf_campaign n term pre io now : conf_of (startElection_campaign n term pre io now).1 = conf_of n.
Proof.
  unfold startElection_campaign. case_decide; [done|]. destruct (negb pre); [done|]. cbv zeta.
  match goal with |- context [persistHardStateLocked ?m io] => pose proof (conf_persist m io) as Hq end.
  by destruct (persistHardStateLocked _ io) as [n1 [|]].
Qed.

Lemma conf_finish n term numPeers votes io now :
  conf_of (startElection_finish n term numPeers votes io now) = conf_of n.
Proof.
  unfold startElection_finish. case_decide; [|by case_decide]. unfold becomeLeader. case_decide; [done|]. cbv zeta.
  match goal with |- context [appendEntry ?m ?e io] =>
    pose proof (conf_appendEntry m e io) as Ha; assert (conf_of m = conf_of n) as Hm end.
  { unfold conf_of. cbn [nodeID selfNonVoter membershipBase membershipLatest peers set_peers set_matchIndex
      set_nextIndex set_leaderID set_state]. f_equal. rewrite <- map_fmap_compose. by apply map_fmap_ext. }
  rewrite Hm in Ha. by destruct (appendEntry _ _ _) as [n1 [|]].
Qed.

(** ** Start *)

Lemma config_new c st sb now : config_ok (NewNodeWithStableStore c st sb now).
Proof.
  unfold NewNodeWithStableStore. cbv zeta. apply config_refresh; [apply normalizeMembers_spec|].
  intros id p Hp. cbn [peers] in Hp. by rewrite lookup_empty in Hp.
Qed.

Lemma config_start fresh c saved durable meta n :
  config_ok fresh -> start_node fresh c saved durable meta = Some n -> config_ok n.
Proof.
  intros Hf. unfold start_node. set (n1 := restorePeers _ _ _).
  assert (config_ok n1) as H1.
  { assert (config_ok (restoreHardState fresh)) as Hh.
    { apply (config_ok_conf fresh); [|done]. unfold restoreHardState. by destruct (stable fresh) as [[h|]|]. }
    subst n1. set (m := restoreHardState fresh) in *. clearbody m. unfold restorePeers.
    destruct (stable m), (saved_peers saved); try done.
    apply config_setBase; [done|apply normalizeMembers_spec]. }
  clearbody n1. set (n2 := restoreLatestSnapshot _ _ _).
  assert (conf_of n2 = conf_of n1) as E2.
  { subst n2. set (m := restoreRemoved _ _). assert (conf_of m = conf_of n1) as <-
      by (subst m; unfold restoreRemoved; by destruct (_ && _)).
    clearbody m. unfold restoreLatestSnapshot. destruct meta as [[index term]|]; [|done].
    case_decide; [done|]. destruct (_ && _); [done|]. cbv zeta. by case_decide. }
  clearbody n2. destruct (restoreLog n2) as [n3|] eqn:E3; [|done]. cbn. intros [= <-].
  assert (config_ok n3) as H3.
  { apply (config_ok_conf n1); [|done]. rewrite <- E2. unfold restoreLog in E3.
    destruct (storage n2); [|done]. cbv zeta in E3. case_decide; [by injection E3 as <-|]. case_decide; [done|].
    destruct (get_logs _ _ _); [|done]. by injection E3 as <-. }
  destruct (existsb _ _); [|by apply (config_ok_conf n3)].
  by apply (config_ok_conf (refreshMembershipLocked n3)), config_refresh_ok.
Qed.

#[local] Hint Resolve conf_handleHeartbeat conf_handleVoteResponse conf_handleAppendEntriesResponse
  conf_markPeerAck conf_handleApply conf_checkCommit conf_checkQuorum conf_install_chunk conf_compactLog
  conf_handleRequestVote conf_begin conf_campaign conf_finish conf_set_progress : raft_conf.
#[local] Hint Resolve config_handleAppendEntries config_propose config_install_finish
  config_processCommitted config_new : raft_conf.

Ltac keep_conf := eauto using config_ok_conf with raft_conf.

Lemma config_local_step n n' : local_step n n' -> config_ok n -> config_ok n'.
Proof.
  intros Hstep Hok. destruct Hstep as [| | | | | | | | | | | | | | | |? ? ? ? ? E|? ? ? ? ? ? E];
    try by keep_conf.
  - unfold sendSnapshot_done. case_decide; keep_conf.
  - apply (config_ok_conf n), Hok. unfold handleInstallSnapshot_publish. by destruct (_ && _).
  - apply (config_ok_conf n), Hok. unfold handleInstallSnapshot_recheck. by case_decide.
  - apply (config_ok_conf n), Hok. pose proof (conf_begin n io now) as Hq. by rewrite E in Hq.
  - apply (config_ok_conf n), Hok. pose proof (conf_campaign n term pre io now) as Hq. by rewrite E in Hq.
Qed.

(** ** Runs of one node *)

(** Every state a node goes through, from its construction: all its handlers
    and loops in any order with any messages, and restarts over any contents
    of its stores. *)
Inductive node_run (c : RaftConfig) : Node -> Prop :=
| nr_new st sb now : node_run c (NewNodeWithStableStore c st sb now)
| nr_local n n' : node_run c n -> local_step n n' -> node_run c n'
| nr_vote n req io1 io2 now : node_run c n -> node_run c (handleRequestVote n req io1 io2 now).1
| nr_begin n io now : node_run c n -> node_run c (startElection_begin n io now).1
| nr_campaign n term pre io now : node_run c n -> node_run c (startElection_campaign n term pre io now).1
| nr_finish n term numPeers votes io now :
    node_run c n -> node_run c (startElection_finish n term numPeers votes io now)
| nr_start st sb now saved durable meta n :
    start_node (NewNodeWithStableStore c st sb now) c saved durable meta = Some n -> node_run c n.

Lemma node_run_config c n : node_run c n -> config_ok n.
Proof.
  induction 1 as [|n n' _ IH Hs|n ? ? ? ? _ IH|n ? ? _ IH|n ? ? ? ? _ IH|n ? ? ? ? ? _ IH|? ? ? ? ? ? ? Hs].
  all: try by keep_conf.
  - by apply (config_local_step n).
  - by apply (config_start _ _ _ _ _ _ (config_new _ _ _ _) Hs).
Qed.

Lemma votingPeers_spec n id :
  peers_ok n -> id ∈ votingPeers n <-> id <> nodeID n /\ id ∈ node_voters n (fun _ => true).
Proof.
  intros Hp. rewrite elem_of_node_voters. unfold votingPeers. rewrite list_elem_of_fmap. split.
  - intros ([k p] & -> & [Hv Hin%elem_of_map_to_list]%list_elem_of_filter). simpl in *.
    destruct (Hp k p Hin) as [HI Hne]. split; [done|]. right. eauto.
  - intros [Hne [[_ ?]|(k & p & Hk & Hv & <-)]]; [done|]. destruct (Hp k p Hk) as [-> _].
    exists (k, p). split; [done|]. apply list_elem_of_filter. by rewrite elem_of_map_to_list.
Qed.

End config.

(** ** Proposals *)

(** Strings that JSON writes and reads back unchanged whatever they contain
    otherwise. *)
Definition ascii_text (s : string) : Prop :=
  Forall (fun a => (Ascii.N_of_ascii a < 128)%N) (String.list_ascii_of_string s).

Definition peer_text (p : RaftPeer) : Prop :=
  ascii_text (ID p) /\ ascii_text (Address p) /\ ascii_text (Region p) /\ ascii_text (Role p).

Class MembershipCodecOk (MC : MembershipCodec) : Prop := {
  membership_roundtrip e :
    peer_text (m_Peer e) -> (forall old, m_OldPeer e = Some old -> peer_text old) ->
    Forall ascii_text (m_OldConfig e) -> Forall ascii_text (m_NewConfig e) -> ascii_text (m_Phase e) ->
    Forall peer_text (m_Members e) -> decodeMembershipEntry (encodeMembershipEntry e) = Some e;
}.

Section changes.
Context {MC : MembershipCodec} {MCok : MembershipCodecOk MC}.

Lemma fold_log_snoc base es e latest idx c :
  base < Index e -> Type_ e = LogMembershipChange -> decodeMembershipEntry (Data e) = Some c ->
  fold_log base (es ++ [e]) latest idx = (foldMembership (fold_log base es latest idx).1 c, Index e).
Proof.
  intros Hb Ht Hd. revert latest idx. induction es as [|x es IH]; intros latest idx; simpl.
  - rewrite decide_False by (intros [?|?]; [lia|done]). by rewrite Hd.
  - case_decide; [apply IH|]. destruct (decodeMembershipEntry (Data x)); apply IH.
Qed.

Lemma refresh_latest n :
  let n' := refreshMembershipLocked n in
  membershipLatest n' = (fold_log (logBase n) (log n) (membershipBase n) 0).1 /\
  membershipLatestIndex n' = (fold_log (logBase n) (log n) (membershipBase n) 0).2 /\
  state n' = state n /\ commitIndex n' = commitIndex n /\ leaderNoopIndex n' = leaderNoopIndex n.
Proof. unfold refreshMembershipLocked. by destruct (fold_log _ _ _ _). Qed.

Lemma fold_text cur e :
  normal cur -> single_change e -> Forall peer_text cur -> peer_text (m_Peer e) ->
  Forall peer_text (foldMembership cur e).
Proof.
  intros Hc Hs Ht Hp. destruct (fold_single cur e Hc Hs) as (out & -> & HP & Hin).
  rewrite HP. apply Forall_forall. intros m Hm%Hin. rewrite Forall_forall in Ht.
  destruct (m_Type e); naive_solver.
Qed.

Lemma config_ids_text (members : list RaftPeer) :
  Forall peer_text members -> Forall ascii_text (configurationIDs members).
Proof. intros Ht. apply Forall_map. eapply Forall_impl; [exact Ht|]. by intros m [? _]. Qed.

(** ** While a change is pending *)

(** What a leader does until its term ends: it takes commands and proposals,
    works through answers, applies what is committed, takes snapshots and
    compacts its log up to an applied index, answers vote requests and
    heartbeats, and may step down. *)
Inductive leading_step (n : Node) : Node -> Prop :=
| ld_apply data io : leading_step n (handleApply n data io).1
| ld_propose type peer old io : leading_step n (proposeMembershipChange n type peer old io).1
| ld_append_response peer current req resp io now :
    leading_step n (handleAppendEntriesResponse n peer current req resp io now).1
| ld_snapshot_sent peer current term index : leading_step n (sendSnapshot_done n peer current term index)
| ld_ack peer term sentAt : leading_step n (markPeerAck n peer term sentAt)
| ld_check_commit io : leading_step n (checkCommit n io).1
| ld_check_quorum now : leading_step n (checkQuorum n now)
| ld_heartbeat req io now : leading_step n (handleHeartbeat n req io now).1
| ld_vote req io1 io2 now : leading_step n (handleRequestVote n req io1 io2 now).1
| ld_vote_response term respTerm io now : leading_step n (handleVoteResponse n term respTerm io now)
| ld_compact index io io_del : index <= commitIndex n -> leading_step n (compactLog n index io io_del)
| ld_process (F : Type) fsm_Apply isRetryable fsm_Set fuel (f : F) commit io :
    leading_step n (processCommitted fsm_Apply isRetryable fsm_Set fuel n f commit 0 0 io).1.1.

(** Later states of the node in which the entry at [index] is still not
    committed. *)
Inductive still_pending (index : Z) (n : Node) : Node -> Prop :=
| sp_here : commitIndex n < index -> still_pending index n n
| sp_step n1 n2 : still_pending index n n1 -> leading_step n1 n2 -> commitIndex n2 < index ->
    still_pending index n n2.

(** The last membership entry of the log is the one at [index] with the
    configuration [members], and it is in effect. *)
Record pending (index : Z) (members : list RaftPeer) (n : Node) : Prop := {
  pd_log : exists pre e post c, log n = pre ++ e :: post /\ Z.of_nat (length pre) = index - logBase n /\
    Index e = index /\ Type_ e = LogMembershipChange /\ decodeMembershipEntry (Data e) = Some c /\
    m_Members c = members /\ Forall (fun x => Type_ x <> LogMembershipChange) post;
  pd_base : 0 <= logBase n < index;
  pd_members : members <> [];
  pd_latest : membershipLatest n = (normalizeMembers members).1;
  pd_index : membershipLatestIndex n = index;
}.

Definition pend_view (n : Node) := (log n, logBase n, membershipLatest n, membershipLatestIndex n).

Lemma pending_view index members n n' : pend_view n' = pend_view n -> pending index members n -> pending index members n'.
Proof.
  unfold pend_view. intros [= E1 E2 E3 E4] [H1 H2 H3 H4 H5].
  constructor; rewrite ?E1, ?E2, ?E3, ?E4; done.
Qed.

Lemma fold_log_app base es1 es2 latest idx :
  fold_log base (es1 ++ es2) latest idx =
  fold_log base es2 (fold_log base es1 latest idx).1 (fold_log base es1 latest idx).2.
Proof.
  revert latest idx. induction es1 as [|x es1 IH]; intros latest idx; simpl; [done|].
  case_decide; [apply IH|]. destruct (decodeMembershipEntry (Data x)); apply IH.
Qed.

Lemma fold_log_other base es latest idx :
  Forall (fun x => Type_ x <> LogMembershipChange) es -> fold_log base es latest idx = (latest, idx).
Proof.
  induction 1 as [|x es Hx _ IH]; simpl; [done|]. by rewrite decide_True by (by right).
Qed.

Lemma pending_refresh index members n base :
  pending index members n -> pending index members (refreshMembershipLocked (set_membershipBase base n)).
Proof.
  intros [(pre & e & post & c & El & Hp & Hi & Ht & Hd & Hm & Hpost) H2 H3 H4 H5].
  assert (fold_log (logBase n) (log n) base 0 = ((normalizeMembers members).1, index)) as Hf.
  { rewrite El, fold_log_app. simpl. rewrite decide_False by (intros [?|?]; [lia|done]). rewrite Hd.
    rewrite fold_log_other by done. rewrite Hi. f_equal. unfold foldMembership. rewrite Hm.
    rewrite decide_True; [done|]. destruct members; [done|simpl; lia]. }
  unfold refreshMembershipLocked. cbn [logBase log membershipBase set_membershipBase]. rewrite Hf.
  constructor; cbn; [|done..]. by exists pre, e, post, c.
Qed.

Lemma pending_append index members n e io n' b :
  Type_ e <> LogMembershipChange -> appendEntry n e io = (n', b) ->
  pending index members n -> pending index members n'.
Proof.
  intros Ht E Hp. unfold appendEntry in E.
  assert (forall es, pend_view (StoreLogs n es io).1 = pend_view n) as Hv.
  { intros es. unfold StoreLogs. destruct (storage n); [|done]. by destruct io. }
  match type of E with context [StoreLogs n ?es io] => specialize (Hv es); destruct (StoreLogs n es io) as [n1 [|]] end;
    cbn [fst] in Hv; injection E as <- <-; [|by apply (pending_view _ _ n)].
  apply (pending_view _ _ n n1 Hv) in Hp as [(pre & x & post & c & El & Hl & Hi & Hty & Hd & Hm & Hpost) H2 H3 H4 H5].
  constructor; cbn; [|done..]. eexists pre, x, (post ++ [_]), c.
  rewrite El, <- app_assoc. split_and!; [reflexivity|done..|]. apply Forall_app. split; [done|]. by repeat constructor.
Qed.

(** Steps that touch neither the log nor the configuration. *)

Lemma pv_persist n io : pend_view (persistHardStateLocked n io).1 = pend_view n.
Proof. unfold persistHardStateLocked. destruct (stable n); [|done]. by destruct io as [|[]]. Qed.

Lemma pv_becomeFollower n term io now : pend_view (becomeFollower n term io now).1 = pend_view n.
Proof.
  unfold becomeFollower. pose proof (pv_persist (set_votedFor "" (set_currentTerm term n)) io) as Hq.
  destruct (persistHardStateLocked _ io) as [n1 [|]]; [|exact Hq]. cbn [fst] in *.
  case_decide; by destruct (bool_decide _).
Qed.

Lemma pv_set_progress id current next match_ n : pend_view (set_progress id current next match_ n) = pend_view n.
Proof. unfold set_progress. by destruct next, match_, current. Qed.

Lemma pv_checkCommit n io : pend_view (checkCommit n io).1 = pend_view n.
Proof.
  unfold checkCommit. case_decide; [done|]. cbv zeta. destruct (commit_loop _ _ _) as [index|]; [|done].
  pose proof (pv_persist (set_commitIndex index n) io) as Hq.
  by destruct (persistHardStateLocked _ io) as [n1 [|]].
Qed.

Lemma pv_stepDown n now : pend_view (stepDownLocked n now) = pend_view n.
Proof. unfold stepDownLocked. by case_decide. Qed.

Lemma pv_handleHeartbeat n req io now : pend_view (handleHeartbeat n req io now).1 = pend_view n.
Proof.
  unfold handleHeartbeat. case_decide; [|done].
  set (r := if decide (hb_Term req > currentTerm n)%Z then _ else _).
  assert (pend_view r.1 = pend_view n) as Hr by (subst r; case_decide; [apply pv_becomeFollower|done]).
  destruct r as [n1 [|]]; cbn [fst negb] in *; [|done]. rewrite <- Hr.
  set (m := set_leaderID (hb_LeaderID req) (set_lastContact now n1)).
  change (pend_view n1) with (pend_view m). clearbody m.
  set (m2 := if decide (state m = StateLeader) then _ else m).
  assert (pend_view m2 = pend_view m) as <-.
  { subst m2. destruct (decide (state m = StateLeader)); [|done]. exact (pv_stepDown m now). }
  clearbody m2. by destruct (decide (state m2 <> StateFollower)).
Qed.

Lemma pv_checkQuorum n now : pend_view (checkQuorum n now) = pend_view n.
Proof.
  unfold checkQuorum. case_decide; [done|]. cbv zeta. case_decide; [done|].
  destruct (quorumAckedSinceLocked _ _ _); [done|]. apply pv_stepDown.
Qed.

Lemma pv_handleAppendEntriesResponse n peer current req resp io now :
  pend_view (handleAppendEntriesResponse n peer current req resp io now).1 = pend_view n.
Proof.
  unfold handleAppendEntriesResponse. case_decide; [done|]. case_decide; [apply pv_becomeFollower|].
  case_decide; [done|]. cbv zeta. destruct (ar_Success resp).
  - case_decide; [done|]. by rewrite pv_checkCommit, pv_set_progress.
  - case_decide; [done|]. case_decide; [done|]. apply pv_set_progress.
Qed.

Lemma pv_handleRequestVote n req io1 io2 now : pend_view (handleRequestVote n req io1 io2 now).1 = pend_view n.
Proof.
  unfold handleRequestVote. case_decide; [done|].
  set (r := if decide (rv_Term req > currentTerm n)%Z then _ else _).
  assert (pend_view r.1 = pend_view n) as Hr by (subst r; case_decide; [apply pv_becomeFollower|done]).
  destruct r as [n1 [|]]; cbn [fst negb] in *; [|done]. rewrite <- Hr. destruct (_ && _); [|done].
  pose proof (pv_persist (set_votedFor (rv_CandidateID req) n1) io2) as Hq.
  by destruct (persistHardStateLocked _ io2) as [n2 [|]].
Qed.

Lemma pv_notifyApply index term err n : pend_view (notifyApply index term err n) = pend_view n.
Proof. unfold notifyApply. by destruct (applyWaiters n !! index). Qed.

Lemma pv_persistApplied n io : pend_view (persistApplied n io).1 = pend_view n.
Proof. unfold persistApplied. pose proof (pv_persist n io) as Hq. by destruct (persistHardStateLocked n io). Qed.

Lemma pv_skip n i io : pend_view (skipCommittedEntry n i io).1 = pend_view n.
Proof.
  unfold skipCommittedEntry. pose proof (pv_persist (set_lastApplied i n) io) as Hq.
  by destruct (persistHardStateLocked _ io) as [n2 [|]].
Qed.

(** Compaction stops below the entry. *)
Lemma pending_compact index members n snap io io_del :
  snap < index -> pending index members n -> pending index members (compactLog n snap io io_del).
Proof.
  intros Hs Hp. unfold compactLog.
  assert (pending index members (compactLogLocked n snap io).1) as H1.
  { unfold compactLogLocked. case_decide as Hg; [done|]. cbv zeta.
    set (nb := if decide (trailingLogs n > 0) then _ else _).
    case_decide as Hnb; [done|]. assert (nb < index) as Hlt.
    { subst nb. destruct (decide (trailingLogs n > 0)); [|done]. destruct Hp as [_ Hb _ _ _].
      destruct (decide (snap > trailingLogs n)); lia. }
    destruct (logPosition n nb) as [pos|] eqn:Ep; [|done].
    match goal with |- context [persistHardStateLocked ?m io] => set (n1 := m) in *; pose proof (pv_persist n1 io) as Hq end.
    assert (pending index members n1) as Hn1.
    { clear Hq. destruct Hp as [(pre & e & post & c & El & Hl & Hi & Ht & Hd & Hm & Hpost) H2 H3 H4 H5].
      unfold logPosition in Ep. case_decide; [done|]. case_decide; [done|]. injection Ep as <-.
      constructor; cbn; [|lia|done..].
      exists (base_entry nb (getLogTerm n nb) :: drop (S (Z.to_nat (nb - logBase n))) pre), e, post, c.
      rewrite El, drop_app_le by lia. split_and!; [done| |done..].
      cbn [length]. rewrite length_drop. lia. }
    clearbody n1. destruct (persistHardStateLocked n1 io) as [n2 [|]]; cbn [fst] in *;
      by apply (pending_view _ _ n1). }
  destruct (compactLogLocked n snap io) as [n1 [[o b]|]]; cbn [fst] in *; [|done].
  case_decide; [done|]. apply (pending_view _ _ n1); [|done].
  unfold DeleteRange. destruct (storage n1); [|done]. by destruct io_del.
Qed.

(** Applying older entries recomputes the configuration from the log, whose
    last membership entry carries the whole of it. *)
Lemma pending_apply index members n e : pending index members n -> pending index members (applyMembershipEntry n e).
Proof.
  intros Hp. unfold applyMembershipEntry. cbv zeta.
  set (n1 := refreshMembershipLocked _). assert (pending index members n1) as H1 by (by apply pending_refresh).
  clearbody n1. destruct (_ && _); [by apply (pending_view _ _ n1)|]. destruct (_ && _); by apply (pending_view _ _ n1).
Qed.

Lemma pending_process {F} (fsm_Apply : F -> RaftLogEntry -> F * option apply_error) isRetryable fsm_Set index members
    fuel : forall n f commit unp k io,
  pending index members n ->
  pending index members (processCommitted fsm_Apply isRetryable fsm_Set fuel n f commit unp k io).1.1.
Proof.
  induction fuel as [|fuel IH]; intros n f commit unp k io Hp; cbn [processCommitted]; [done|].
  case_decide.
  { destruct (_ || _); [|done]. pose proof (pv_persistApplied n (io k)) as Hv.
    destruct (persistApplied n (io k)) as [n1 [|]]; by apply (pending_view _ _ n). }
  cbv zeta. destruct (logEntry _ _) as [entry|]; [|done].
  assert (pending index members (apply_entry fsm_Apply n f entry).1.1) as He.
  { unfold apply_entry. case_decide; [|by destruct (fsm_Apply f entry)].
    destruct (decodeMembershipEntry _); [by apply pending_apply|done]. }
  destruct (apply_entry fsm_Apply n f entry) as [[n1 f1] [err|]]; cbn [fst] in *.
  - destruct (isRetryable err); [apply (pending_view _ _ n1); [apply pv_notifyApply|done]|].
    pose proof (pv_skip n1 (u64 (lastApplied n + 1)) (io k)) as Hs.
    destruct (skipCommittedEntry _ _ _) as [n2 [|]]; cbn [fst] in *; [|by apply (pending_view _ _ n1)].
    apply IH, (pending_view _ _ n1); [by rewrite pv_notifyApply|done].
  - assert (pending index members (notifyApply (Index entry) (Term entry) None (set_lastApplied (u64 (lastApplied n + 1)) n1))) as Hn
      by (apply (pending_view _ _ n1); [by rewrite pv_notifyApply|done]).
    case_decide; [|by apply IH]. set (m := notifyApply _ _ _ _) in *. clearbody m.
    pose proof (pv_persistApplied m (io k)) as Hv.
    destruct (persistApplied m (io k)) as [n2 [|]]; cbn [fst] in *; [apply IH|]; by apply (pending_view _ _ m).
Qed.

(** A pending change blocks the next one. *)
Lemma propose_refused n type peer old io :
  commitIndex n < membershipLatestIndex n ->
  exists err, proposeMembershipChange n type peer old io = (n, Some err).
Proof.
  intros H. unfold proposeMembershipChange. case_decide; [eauto|]. case_decide; [eauto|].
  rewrite decide_True by lia. eauto.
Qed.

Lemma pending_step index members n n' :
  leading_step n n' -> commitIndex n < index -> pending index members n -> pending index members n'.
Proof.
  intros Hs Hc Hp. destruct Hs.
  - unfold handleApply. case_decide; [done|].
    destruct (appendEntry n (MkEntry 0 (currentTerm n) LogCommand data) io) as [n1 [|]] eqn:Ea;
      eapply pending_append in Ea; eauto; cbn; [|done..].
    destruct (last (log n1)); [|done]. by apply (pending_view _ _ n1).
  - destruct (propose_refused n type peer old io) as [err ->]; [|done]. by rewrite (pd_index _ _ _ Hp).
  - apply (pending_view _ _ n), Hp. apply pv_handleAppendEntriesResponse.
  - unfold sendSnapshot_done. case_decide; [|done]. apply (pending_view _ _ n), Hp. apply pv_set_progress.
  - apply (pending_view _ _ n), Hp. unfold markPeerAck. destruct (peers n !! peer); [|done]. by case_decide.
  - apply (pending_view _ _ n), Hp. apply pv_checkCommit.
  - apply (pending_view _ _ n), Hp. apply pv_checkQuorum.
  - apply (pending_view _ _ n), Hp. apply pv_handleHeartbeat.
  - apply (pending_view _ _ n), Hp. apply pv_handleRequestVote.
  - apply (pending_view _ _ n), Hp. unfold handleVoteResponse. case_decide; [apply pv_becomeFollower|done].
  - apply pending_compact; [lia|done].
  - by apply pending_process.
Qed.

Lemma pending_later index members n n2 :
  still_pending index n n2 -> pending index members n -> pending index members n2 /\ commitIndex n2 < index.
Proof.
  induction 1 as [|n1 n2 _ IH Hs Hc]; intros Hp; [done|]. destruct (IH Hp) as [H1 H2].
  split; [|done]. by apply (pending_step index members n1).
Qed.

(** What a proposal that is taken does. *)
Lemma propose_taken n type peer io n' :
  log_wf n -> lastLogIndexLocked n + 2 < 2 ^ 64 -> normal (membershipLatest n) ->
  Forall peer_text (membershipLatest n) -> peer_text peer ->
  let e := MembershipEntry type peer None [] [] "" [] in
  single_change e -> proposeMembershipChange n type peer None io = (n', None) ->
  membershipLatestIndex n <= commitIndex n /\ commitIndex n' = commitIndex n /\
  pending (lastLogIndexLocked n + 1) (foldMembership (membershipLatest n) e) n' /\
  membershipLatest n' ≡ₚ foldMembership (membershipLatest n) e.
Proof.
  intros Hw Hb Hnorm Ht Hp e Hs E. unfold proposeMembershipChange in E. cbv zeta in E. fold e in E.
  case_decide as Hst; [done|]. case_decide as Hno; [done|]. case_decide as Hpe; [done|]. case_decide as Hem; [done|].
  set (members := foldMembership (membershipLatest n) e) in *.
  match type of E with context [appendEntry n ?x io] => set (x0 := x) in * end.
  assert (Forall peer_text members) as Hmt by (by apply fold_text).
  assert (normal members) as Hmn by apply foldMembership_normal.
  assert (decodeMembershipEntry (Data x0) = Some (MembershipEntry type peer None (configurationIDs (membershipLatest n))
    (configurationIDs members) membershipPhaseSingle members)) as Hd.
  { apply membership_roundtrip; [done|done|by apply config_ids_text|by apply config_ids_text| |done].
    by repeat constructor. }
  destruct (appendEntry n x0 io) as [n1 [|]] eqn:Ea; [|done]. injection E as <-.
  destruct (appendEntry_ok n x0 io n1 Hw Hb Ea) as (Hw1 & Eb1 & El1).
  assert (commitIndex n1 = commitIndex n) as S2.
  { unfold appendEntry, StoreLogs in Ea. destruct (storage n); [destruct io|]; injection Ea as <-; done. }
  set (n2 := match last (log n1) with Some _ => _ | None => _ end).
  assert (commitIndex n2 = commitIndex n1 /\ log n2 = log n1 /\ logBase n2 = logBase n1) as (S5 & S7 & S8)
    by (subst n2; by destruct (last (log n1))).
  clearbody n2. destruct (refresh_latest n2) as (R1 & R2 & _ & R4 & _).
  pose proof (view_refresh n2) as V. unfold log_view in V. injection V as V1 V2 _.
  pose proof (lastLogIndex_wf n Hw) as Ll. pose proof (log_nonempty n Hw) as Nn. destruct Hw as [Hb0 _ _ _].
  assert (fold_log (logBase n2) (log n2) (membershipBase n2) 0 = ((normalizeMembers members).1, lastLogIndexLocked n + 1)) as Hf.
  { rewrite S7, S8, El1, Eb1. erewrite fold_log_snoc; [|cbn [Index]; lia|done|exact Hd]. cbn [fst snd Index].
    f_equal. unfold foldMembership. cbn [m_Members]. by rewrite decide_True by lia. }
  rewrite Hf in R1, R2. cbn [fst snd] in R1, R2. split_and!; [lia|congruence| |].
  - constructor; [|lia| |done|done].
    + rewrite V1, V2, S7, S8, El1, Eb1. eexists (log n), _, [], _. split_and!; [reflexivity|lia|done|done|exact Hd|done|].
      constructor.
    + intros En. by rewrite En in Hem.
  - rewrite R1. apply normalize_distinct; [by apply normal_NoDup|apply Hmn].
Qed.

(** [AddPeer] and [RemovePeer] are refused whenever their proposal is. *)
Lemma changes_refused n peer id io :
  commitIndex n < membershipLatestIndex n ->
  (exists err, AddPeer n peer io = (n, Some err)) /\ (exists err, RemovePeer n id io = (n, Some err)).
Proof.
  intros H. unfold AddPeer, RemovePeer. split.
  - do 4 (case_decide; [eauto|]). by apply propose_refused.
  - do 2 (case_decide; [eauto|]). destruct (peers n !! id); [by apply propose_refused|eauto].
Qed.

(** C16: one change at a time. A leader takes an [AddPeer] or a [RemovePeer]
    only when the previous change is committed. The new configuration, in
    effect at once, is the old one with exactly that peer added (in place of a
    member with its ID, as a voter if no role is given) or removed; its entry
    is not yet committed, and every majority of the new voters meets every
    majority of the old ones. Until that entry commits - whatever commands,
    proposals, answers, votes and heartbeats the node works through as leader,
    whatever it applies or compacts meanwhile - the configuration stays and
    every further change is refused without effect. *)
Theorem one_change_at_a_time c n peer id io n' :
  node_run c n -> log_wf n -> lastLogIndexLocked n + 2 < 2 ^ 64 -> commitIndex n <= lastLogIndexLocked n ->
  Forall peer_text (membershipLatest n) -> peer_text peer ->
  (forall p, peers n !! id = Some p -> ascii_text (p_ID p) /\ ascii_text (p_Address p) /\
     ascii_text (p_Region p) /\ ascii_text (p_Role p)) ->
  AddPeer n peer io = (n', None) \/ RemovePeer n id io = (n', None) ->
  (AddPeer n peer io = (n', None) -> forall m, m ∈ membershipLatest n' <->
     (m ∈ membershipLatest n /\ ID m <> ID peer) \/
     m = MkRaftPeer (ID peer) (Address peer) (Region peer)
           (if decide (Role peer = "") then RoleVoter else Role peer) (NonVoter peer)) /\
  (RemovePeer n id io = (n', None) -> forall m, m ∈ membershipLatest n' <-> m ∈ membershipLatest n /\ ID m <> id) /\
  membershipLatestIndex n <= commitIndex n /\ commitIndex n' < membershipLatestIndex n' /\
  (forall q1 q2, majority q1 (voters (membershipLatest n)) -> majority q2 (voters (membershipLatest n')) ->
     exists v, v ∈ q1 /\ v ∈ q2) /\
  (forall n2, still_pending (membershipLatestIndex n') n' n2 ->
     membershipLatest n2 = membershipLatest n' /\
     forall peer2 id2 io2,
       (exists err, AddPeer n2 peer2 io2 = (n2, Some err)) /\ (exists err, RemovePeer n2 id2 io2 = (n2, Some err))).
Proof.
  intros Hrun Hw Hb Hc Ht Hp Hpeers HE. apply node_run_config in Hrun as [_ Hnorm Hpo _].
  set (added := MkRaftPeer (ID peer) (Address peer) (Region peer)
    (if decide (Role peer = "") then RoleVoter else Role peer) (NonVoter peer)).
  assert (AddPeer n peer io = (n', None) -> single_change (MembershipEntry MembershipAddPeer added None [] [] "" []) /\
    peer_text added /\ proposeMembershipChange n MembershipAddPeer added None io = (n', None)) as Hadd.
  { intros E. unfold AddPeer in E. do 4 (case_decide; [done|]). subst added. split; [|split].
    - split; [done|]. cbn. split; [done|]. by case_decide.
    - destruct Hp as (? & ? & ? & ?). split_and!; try done. cbn. case_decide; [by repeat constructor|done].
    - rewrite <- E. f_equal. destruct peer as [i a r ro v]. cbn [ID Address Region Role NonVoter].
      by destruct (decide (ro = "")). }
  assert (RemovePeer n id io = (n', None) -> exists p, ID p = id /\ peer_text p /\
    proposeMembershipChange n MembershipRemovePeer p None io = (n', None)) as Hrem.
  { intros E. unfold RemovePeer in E. repeat (case_decide; [done|]). destruct (peers n !! id) as [q|] eqn:Eq; [|done].
    eexists. split_and!; [| |exact E]; [|by apply Hpeers]. by destruct (Hpo id q Eq). }
  assert (exists type p, single_change (MembershipEntry type p None [] [] "" []) /\ peer_text p /\
    proposeMembershipChange n type p None io = (n', None)) as (type & p & Hs & Hpt & E).
  { destruct HE as [E|E]; [destruct (Hadd E) as (? & ? & ?); eauto|].
    destruct (Hrem E) as (p & _ & ? & ?). exists MembershipRemovePeer, p. done. }
  destruct (propose_taken n type p io n' Hw Hb Hnorm Ht Hpt Hs E) as (H1 & H2 & H3 & H4).
  pose proof (pd_index _ _ _ H3) as H5. split_and!; [..|done|lia| |].
  - intros EA m. destruct (Hadd EA) as (Hs' & Hpt' & E').
    destruct (propose_taken n _ _ io n' Hw Hb Hnorm Ht Hpt' Hs' E') as (_ & _ & _ & ->).
    destruct (fold_single _ _ Hnorm Hs') as (out & -> & -> & Hin). apply Hin.
  - intros ER m. destruct (Hrem ER) as (q & <- & Hpt' & E').
    assert (single_change (MembershipEntry MembershipRemovePeer q None [] [] "" [])) as Hs' by done.
    destruct (propose_taken n _ _ io n' Hw Hb Hnorm Ht Hpt' Hs' E') as (_ & _ & _ & ->).
    destruct (fold_single _ _ Hnorm Hs') as (out & -> & -> & Hin). apply Hin.
  - intros q1 q2 Hq1 Hq2. rewrite (voters_perm _ _ H4) in Hq2. destruct (voters_single _ _ Hnorm Hs) as [Ha1 Ha2].
    by apply (majorities_meet _ _ q1 q2 (ID p) Ha2 Ha1).
  - intros n2 Hlater. rewrite H5 in Hlater. destruct (pending_later _ _ _ _ Hlater H3) as [H6 H7].
    split; [by rewrite (pd_latest _ _ _ H6), (pd_latest _ _ _ H3)|]. intros peer2 id2 io2.
    apply changes_refused. by rewrite (pd_index _ _ _ H6).
Qed.
End changes.
