(* ===== verification/RaftReplication.v ===== *)
(** * Replication from a leader to a follower

    What [sendHeartbeats] builds on one node and [handleAppendEntries] takes
    on another (src/internal/raft/node.go), put together: the log matching
    property holds for the pair again after an accepted request, the follower
    then holds the leader's entries up to the acknowledged index, and a
    request whose previous entry agrees is accepted. *)
From stdpp Require Import base gmap strings list sorting.
From Stdlib Require Import ZArith Lia Strings.Byte.
From S2P Require Import Prelude Membership Raft RaftOps RaftLog RaftProps.

Open Scope Z_scope.

Section replication.
Context {MC : MembershipCodec}.

(** Indexes both logs may still hold lie above both compaction bases. *)
Definition floor_of (l f : Node) : Z := Z.max (logBase l) (logBase f).

(** The same entries above the bases, up to [i]. *)
Definition same_upto (l f : Node) (i : Z) : Prop :=
  forall j, floor_of l f < j <= i -> logEntry f j = logEntry l j.

(** Log matching: where the terms agree, so do all entries before. *)
Definition matching (l f : Node) : Prop :=
  forall i a b, floor_of l f < i -> logEntry l i = Some a -> logEntry f i = Some b ->
    Term a = Term b -> same_upto l f i.

(** [es] is the part of the leader's log from [first] on. *)
Definition sent (l : Node) (first : Z) (es : list RaftLogEntry) : Prop :=
  forall k e, es !! k = Some e -> logEntry l (first + Z.of_nat k) = Some e.

Lemma matching_prev l f prev :
  log_wf l -> log_wf f -> matching l f -> logBase l <= prev <= lastLogIndexLocked l ->
  logBase f <= prev <= lastLogIndexLocked f -> getLogTerm f prev = getLogTerm l prev ->
  same_upto l f prev.
Proof.
  intros Hl Hf Hm Rl Rf Ht j Hj. unfold floor_of in Hj.
  destruct (proj2 (logEntry_range l prev Hl) Rl) as [a Ha].
  destruct (proj2 (logEntry_range f prev Hf) Rf) as [b Hb].
  rewrite (getLogTerm_entry f prev b Hf Hb), (getLogTerm_entry l prev a Hl Ha) in Ht.
  eapply (Hm prev a b); eauto; unfold floor_of; lia.
Qed.

Lemma same_upto_view l f f' i : log_view f' = log_view f -> same_upto l f i -> same_upto l f' i.
Proof.
  intros V Hs j. unfold floor_of. rewrite (logEntry_view f f' j V). unfold log_view in V.
  injection V as _ -> _. apply Hs.
Qed.

Lemma matching_view l f f' : log_view f' = log_view f -> matching l f -> matching l f'.
Proof.
  intros V Hm i a b Hi Ha Hb Et. apply (same_upto_view l f _ _ V). rewrite (logEntry_view f f' i V) in Hb.
  apply (Hm i a b); [|done..]. unfold floor_of in *. unfold log_view in V. by injection V as _ <- _.
Qed.

Lemma matching_view_l l l' f : log_view l' = log_view l -> matching l f -> matching l' f.
Proof.
  intros V Hm i a b Hi Ha Hb Et j Hj. rewrite (logEntry_view l l' j V). rewrite (logEntry_view l l' i V) in Ha.
  unfold floor_of, log_view in *. injection V as _ Eb _. rewrite Eb in *. by apply (Hm i a b).
Qed.

Lemma same_upto_view_l l l' f i : log_view l' = log_view l -> same_upto l f i -> same_upto l' f i.
Proof.
  intros V Hs j Hj. rewrite (logEntry_view l l' j V). apply Hs. unfold floor_of, log_view in *.
  injection V as _ Eb _. by rewrite Eb in Hj.
Qed.

(** An entry of the request, in the follower's log afterwards. *)
Lemma reconciled_sent l f f' first es k e :
  log_wf l -> log_wf f -> matching l f -> floor_of l f < first -> sent l first es ->
  reconciled f first es f' -> es !! k = Some e -> logEntry f' (first + Z.of_nat k) = Some e.
Proof.
  intros Hl Hf Hm Hfl Hs [keep Hk B1 B2 El Ha _] He. pose proof (Hs k e He) as HL. unfold floor_of in Hfl.
  rewrite logEntry_lookup, B1, El by lia.
  destruct (decide (first + Z.of_nat k < logBase f + Z.of_nat keep)) as [Hlt|Hge].
  - rewrite lookup_app_l, lookup_take_lt by (rewrite ?length_take; lia). rewrite <- logEntry_lookup by lia.
    destruct (proj2 (logEntry_range f (first + Z.of_nat k) Hf)) as [x Hx].
    { rewrite (lastLogIndex_wf f Hf). lia. }
    rewrite <- HL. refine (Hm _ e x _ HL Hx _ _ _); unfold floor_of; [lia| |lia].
    symmetry. apply (Ha k e x); [by rewrite lookup_take_lt by lia|done].
  - rewrite lookup_app_r, length_take, stamp_lookup, lookup_drop by (rewrite length_take; lia).
    replace (Z.to_nat (logBase f + Z.of_nat keep - first) +
      (Z.to_nat (first + Z.of_nat k - logBase f) - keep `min` length (log f)))%nat with k by lia.
    rewrite He. simpl. f_equal. destruct (logEntry_Index l _ e Hl HL) as [HI _].
    destruct e as [ix tm ty dt]. cbn [Index] in *. f_equal. lia.
Qed.

(** What lies beyond the request was there before. *)
Lemma reconciled_beyond f f' first es i j :
  log_wf f -> logBase f < first -> reconciled f first es f' ->
  first + Z.of_nat (length es) <= i -> is_Some (logEntry f' i) -> j <= i -> logEntry f' j = logEntry f j.
Proof.
  intros Hf Hlt [keep Hk B1 B2 El _ _] Hi [b Hb] Hj.
  destruct (decide (j < logBase f)) as [Hjb|Hjb]; [by rewrite !logEntry_below by lia|].
  rewrite logEntry_lookup, B1, El in Hb by lia. apply lookup_lt_Some in Hb.
  rewrite length_app, stamp_length, length_take, length_drop in Hb.
  rewrite !logEntry_lookup, B1, El by lia.
  by rewrite lookup_app_l, lookup_take_lt by (rewrite ?length_take; lia).
Qed.

Lemma reconciled_matching l f f' first es :
  log_wf l -> log_wf f -> matching l f -> floor_of l f < first -> sent l first es ->
  same_upto l f (first - 1) -> reconciled f first es f' ->
  same_upto l f' (first + Z.of_nat (length es) - 1) /\ matching l f'.
Proof.
  intros Hl Hf Hm Hfl Hs Hprev Hr. assert (logBase f' = logBase f) as Eb by (by destruct Hr).
  assert (same_upto l f' (first + Z.of_nat (length es) - 1)) as Hsame.
  { intros j Hj. unfold floor_of in Hj. rewrite Eb in Hj. destruct (decide (j < first)) as [Hlt|Hge].
    - rewrite (reconciled_below f _ _ f' j Hf Hr Hlt). apply Hprev. unfold floor_of. lia.
    - destruct (lookup_lt_is_Some_2 es (Z.to_nat (j - first))) as [e He]; [lia|].
      pose proof (reconciled_sent l f f' first es _ e Hl Hf Hm Hfl Hs Hr He) as H1.
      pose proof (Hs _ e He) as H2. replace (first + Z.of_nat (Z.to_nat (j - first))) with j in * by lia.
      congruence. }
  split; [done|]. intros i a b Hi Ha Hb Et j Hj. unfold floor_of in *. rewrite Eb in *.
  destruct (decide (i < first + Z.of_nat (length es))) as [Hlt|Hge].
  - apply Hsame. unfold floor_of. rewrite Eb. lia.
  - rewrite (reconciled_beyond f f' first es i j) by (eauto || lia).
    rewrite (reconciled_beyond f f' first es i i) in Hb by (eauto || lia).
    refine (Hm i a b _ Ha Hb Et j _); unfold floor_of; lia.
Qed.

(** ** What a leader sends *)

Lemma getEntriesAfter_sent l start count :
  log_wf l -> logBase l < start <= lastLogIndexLocked l + 1 ->
  sent l start (getEntriesAfter l start count) /\
  start + Z.of_nat (length (getEntriesAfter l start count)) - 1 =
    Z.min (lastLogIndexLocked l) (start - 1 + Z.max 0 count).
Proof.
  intros Hl Hs. rewrite (lastLogIndex_wf l Hl) in *. unfold getEntriesAfter. case_decide as Hc.
  { split; [intros k e He; by rewrite lookup_nil in He|simpl; lia]. }
  rewrite decide_False by lia. unfold logPosition. rewrite decide_False by lia. case_decide as Hd.
  { split; [intros k e He; by rewrite lookup_nil in He|simpl; lia]. }
  split.
  - intros k e He. rewrite lookup_take in He. case_decide; [|done]. rewrite lookup_drop in He.
    rewrite logEntry_lookup by lia. by replace (Z.to_nat _) with (Z.to_nat (start - logBase l) + k)%nat by lia.
  - rewrite length_take, length_drop. lia.
Qed.

Lemma build_append_spec l p commit req :
  log_wf l -> 0 < p_nextIndex p <= lastLogIndexLocked l + 1 -> build_append l p commit = Some (false, req) ->
  ae_Term req = currentTerm l /\ ae_PrevLogIndex req = p_nextIndex p - 1 /\
  ae_PrevLogTerm req = getLogTerm l (p_nextIndex p - 1) /\ logBase l < p_nextIndex p /\
  sent l (p_nextIndex p) (ae_Entries req) /\
  ae_PrevLogIndex req + Z.of_nat (length (ae_Entries req)) =
    Z.min (lastLogIndexLocked l) (p_nextIndex p - 1 + Z.max 0 (maxAppendEntries l)).
Proof.
  intros Hl Hn. unfold build_append. case_decide; [done|]. cbv zeta. rewrite decide_True by lia.
  intros [= Hsnap%bool_decide_eq_false <-]. cbn [ae_Term ae_PrevLogIndex ae_PrevLogTerm ae_Entries].
  pose proof (lw_base l Hl). assert (logBase l < p_nextIndex p) as Hb by lia.
  destruct (getEntriesAfter_sent l (p_nextIndex p) (maxAppendEntries l) Hl ltac:(lia)) as [H1 H2].
  split_and!; try done. lia.
Qed.

Lemma accepted_step l f p commit req io now f' resp :
  log_wf l -> log_wf f -> matching l f -> 0 < p_nextIndex p <= lastLogIndexLocked l + 1 ->
  build_append l p commit = Some (false, req) -> handleAppendEntries f req io now = (f', resp) ->
  ar_Success resp = true ->
  (log_wf f' /\ logBase f' = logBase f /\ logBaseTerm f' = logBaseTerm f /\
   ar_MatchIndex resp <= lastLogIndexLocked f') /\
  same_upto l f' (ar_MatchIndex resp) /\ matching l f' /\
  ar_MatchIndex resp = Z.min (lastLogIndexLocked l) (p_nextIndex p - 1 + Z.max 0 (maxAppendEntries l)).
Proof.
  intros Hl Hf Hm Hn Eb E Hs. destruct (build_append_spec l p commit req Hl Hn Eb)
    as (_ & Ep & Et & Hbase & Hsent & Hlen).
  pose proof (lw_bound l Hl) as Bl. pose proof (lastLogIndex_wf l Hl) as Ll. pose proof (lw_base l Hl) as B0.
  destruct (handleAppendEntries_split f req io now f' resp E Hs)
    as (f1 & f2 & V1 & _ & _ & Ec & Er & -> & HM).
  pose proof (log_wf_view f f1 V1 Hf) as Hf1. destruct (consistency_ok f1 req Hf1 Ec) as [Hp Ht].
  pose proof (reconcile_spec f1 req _ _ f2 Hf1 Hp ltac:(lia) Er) as Hr.
  destruct (updateCommit_spec f2 req (aio_commit io)) as (V3 & _ & _); [lia|].
  rewrite Ep, Et in *. replace (p_nextIndex p - 1 + 1) with (p_nextIndex p) in Hr by lia.
  pose proof (matching_view l f f1 V1 Hm) as Hm1.
  destruct (reconciled_matching l f1 f2 (p_nextIndex p) (ae_Entries req) Hl Hf1 Hm1) as [H1 H2];
    [unfold floor_of; lia|done|apply matching_prev; (done || lia)|done|].
  assert (log_wf f2) as Hf2 by (eapply (reconciled_wf f1); [exact Hf1| | |exact Hr]; lia).
  assert (logBase f1 < p_nextIndex p) as Hfn by lia.
  pose proof (reconciled_last f1 _ _ f2 Hf1 Hfn Hr Hf2) as Hlast.
  rewrite HM, u64_small, Hlen by lia. split_and!; [by apply (log_wf_view f2)|..| |by apply (matching_view l f2)|done].
  1-3: rewrite ?(lastLogIndex_view f2 _ V3); unfold log_view in V1, V3; destruct Hr; first [lia | congruence].
  apply (same_upto_view l f2 _ _ V3). replace (Z.min _ _) with (p_nextIndex p + Z.of_nat (length (ae_Entries req)) - 1) by lia.
  done.
Qed.

(** A replication step. When a follower accepts what a leader built for
    it from its progress record, its log holds the leader's entries from the
    compaction bases up to the acknowledged index, which is as far as the
    request could go, and log matching between the two, if it held before,
    holds again. *)
Lemma replication_step l f p commit req io now f' resp :
  log_wf l -> log_wf f -> matching l f -> 0 < p_nextIndex p <= lastLogIndexLocked l + 1 ->
  build_append l p commit = Some (false, req) -> handleAppendEntries f req io now = (f', resp) ->
  ar_Success resp = true ->
  log_wf f' /\ same_upto l f' (ar_MatchIndex resp) /\ matching l f' /\
  ar_MatchIndex resp = Z.min (lastLogIndexLocked l) (p_nextIndex p - 1 + Z.max 0 (maxAppendEntries l)).
Proof.
  intros Hl Hf Hm Hn Eb E Hs.
  destruct (accepted_step l f p commit req io now f' resp Hl Hf Hm Hn Eb E Hs) as ((Hf' & _) & H1 & H2 & H3).
  by split_and!.
Qed.

(** ** Working disks *)

Definition io_ok : append_entries_io := AppendEntriesIO PersistOk DeleteOk StoreOk PersistOk.

Lemma becomeFollower_persists n term now : (becomeFollower n term PersistOk now).2 = true.
Proof. unfold becomeFollower, persistHardStateLocked. cbn. by destruct (stable n). Qed.

Lemma validateTerm_passes n req now :
  currentTerm n <= ae_Term req -> exists n1, validateTerm n req PersistOk now = (n1, None).
Proof.
  intros Ht. unfold validateTerm. rewrite decide_False by lia. case_decide; [|eauto].
  pose proof (becomeFollower_persists n (ae_Term req) now) as Hp.
  destruct (becomeFollower _ _ _ _) as [n1 b]. simpl in Hp. subst b. eauto.
Qed.

Lemma reconcile_succeeds n req : (reconcileLogEntries n req DeleteOk StoreOk).2 = true.
Proof.
  assert (forall m at_, (truncate_log m at_ DeleteOk).2 = true) as Ht.
  { intros m at_. unfold truncate_log, DeleteRange. case_decide; [|done]. by destruct (storage m). }
  unfold reconcileLogEntries. cbv zeta. set (c := find_conflict _ _ _). set (r := match c with Some _ => _ | None => _ end).
  assert (r.2 = true) as Er by (subst r; destruct c; [apply Ht|done]).
  destruct r as [m b]. simpl in Er. subst b. cbn [negb]. set (app := new_entries _ _ _).
  set (s := match app with [] => _ | _ => _ end).
  assert (s.2 = true) as Es.
  { subst s. destruct app; [done|]. unfold StoreLogs. by destruct (storage m). }
  destruct s as [m2 b]. simpl in Es. by subst b.
Qed.

(** The two outcomes of a request of the current term or a later one. *)
Lemma append_outcome f req now f' resp :
  currentTerm f <= ae_Term req -> handleAppendEntries f req io_ok now = (f', resp) ->
  exists f1, log_view f1 = log_view f /\ currentTerm f1 = ae_Term req /\
    match checkLogConsistency f1 req with
    | Some r => f' = f1 /\ resp = r
    | None => ar_Success resp = true /\ currentTerm f' = ae_Term req /\ ar_Term resp = ae_Term req
    end.
Proof.
  intros Ht E. destruct (validateTerm_passes f req now Ht) as [m Em].
  destruct (validateTerm_ok _ _ _ _ _ Em) as (V1 & _ & V3). unfold handleAppendEntries in E.
  change (aio_term io_ok) with PersistOk in E. rewrite Em in E.
  set (f1 := set_leaderID _ _) in E. assert (log_view f1 = log_view m /\ currentTerm f1 = currentTerm m)
    as (W1 & W2) by (subst f1; by case_decide).
  clearbody f1. exists f1. split; [congruence|]. split; [congruence|].
  destruct (checkLogConsistency f1 req); [by injection E as <- <-|].
  pose proof (reconcile_succeeds f1 req) as Hr. destruct (reconcile_frame f1 req DeleteOk StoreOk) as [_ Tr].
  change (aio_delete io_ok) with DeleteOk in E. change (aio_store io_ok) with StoreOk in E.
  destruct (reconcileLogEntries f1 req DeleteOk StoreOk) as [f2 b]. simpl in Hr. subst b. cbn [fst] in Tr.
  assert (currentTerm (updateCommitIndex f2 req (aio_commit io_ok)).1 = currentTerm f2) as Tu.
  { unfold updateCommitIndex. case_decide; [done|]. cbv zeta. case_decide; [done|].
    unfold persistHardStateLocked. cbn. by destruct (stable f2). }
  destruct (updateCommitIndex _ _ _) as [f3 o]. cbn [fst] in Tu. injection E as <- <-.
  cbn [ar_Success ar_Term]. split_and!; congruence.
Qed.

(** ** The leader's record of a follower *)

Definition progress (l : Node) (id : string) (nx mt : Z) : Prop :=
  (exists p, peers l !! id = Some p /\ p_nextIndex p = nx) /\ nextIndex l !! id = Some nx /\
  default 0 (matchIndex l !! id) = mt.

(** What a leader keeps while it takes answers. *)
Definition leader_view (l : Node) := (log_view l, state l, currentTerm l, maxAppendEntries l).

Lemma progress_set l id nx mt next match_ :
  progress l id nx mt ->
  progress (set_progress id true next match_ l) id (default nx next) (default mt match_) /\
  leader_view (set_progress id true next match_ l) = leader_view l.
Proof.
  intros ((p & Hp & Hnx) & Hn & Hm). split; [|by destruct next, match_]. split_and!.
  - exists (set_peer_progress (Some (default nx next)) match_ p). split; [|done].
    unfold set_progress. destruct next, match_; cbn [peers set_peers set_matchIndex set_nextIndex nextIndex default Datatypes.id];
      by rewrite lookup_alter_eq, Hp, ?lookup_insert_eq, ?Hn.
  - destruct (set_progress_maps id true next match_ l) as [-> _]. destruct next; [apply lookup_insert_eq|done].
  - destruct (set_progress_maps id true next match_ l) as [_ ->]. destruct match_; [by rewrite lookup_insert_eq|done].
Qed.

Lemma checkCommit_keeps l id nx mt :
  progress l id nx mt ->
  progress (checkCommit l PersistOk).1 id nx mt /\ leader_view (checkCommit l PersistOk).1 = leader_view l.
Proof.
  intros Hp. unfold checkCommit. case_decide; [done|]. cbv zeta. destruct (commit_loop _ _ _); [|done].
  unfold persistHardStateLocked. cbn. by destruct (stable l).
Qed.

Lemma response_accepted l id req resp now nx mt :
  state l = StateLeader -> ae_Term req = currentTerm l -> ar_Term resp = currentTerm l ->
  ar_Success resp = true -> progress l id nx mt -> ae_PrevLogIndex req = nx - 1 -> 0 <= mt < nx ->
  nx + Z.of_nat (length (ae_Entries req)) < 2 ^ 64 ->
  let l' := (handleAppendEntriesResponse l id true req resp PersistOk now).1 in
  progress l' id (nx + Z.of_nat (length (ae_Entries req))) (nx - 1 + Z.of_nat (length (ae_Entries req))) /\
  leader_view l' = leader_view l.
Proof.
  intros Hs Ht Hr Hok Hp Hprev Hmt Hb. cbv zeta. unfold handleAppendEntriesResponse.
  rewrite decide_False by (by intros []). rewrite decide_False by lia. rewrite decide_False by lia.
  destruct Hp as (Hp1 & Hn & Hm). rewrite Hok, Hn, Hm, Hprev. cbn [default Datatypes.id]. rewrite !u64_small by lia.
  case_decide as Hle.
  { replace (nx + _) with nx by lia. replace (nx - 1 + _) with mt by lia. by split. }
  set (next := if decide _ then _ else _).
  destruct (progress_set l id nx mt next (Some (nx - 1 + Z.of_nat (length (ae_Entries req))))) as [H1 H2]; [done|].
  destruct (checkCommit_keeps _ _ _ _ H1) as [H3 H4]. cbn [default Datatypes.id] in H3. split; [|by rewrite H4].
  replace (default nx next) with (nx + Z.of_nat (length (ae_Entries req))) in H3; [done|].
  subst next. case_decide; cbn [default Datatypes.id]; lia.
Qed.

(** The index a refused leader goes back to. *)
Definition backup (l : Node) (req : AppendEntriesRequest) (resp : AppendEntriesResponse) (mt : Z) : Z :=
  Z.max (mt + 1) (Z.max 1 (backup_next l req resp)).

Lemma response_refused l id req resp now nx mt :
  state l = StateLeader -> ae_Term req = currentTerm l -> ar_Term resp = currentTerm l ->
  ar_Success resp = false -> progress l id nx mt -> ae_PrevLogIndex req = nx - 1 -> 0 <= mt < nx - 1 ->
  nx < 2 ^ 64 ->
  let l' := (handleAppendEntriesResponse l id true req resp PersistOk now).1 in
  progress l' id (Z.min nx (backup l req resp mt)) mt /\ leader_view l' = leader_view l.
Proof.
  intros Hs Ht Hr Hok Hp Hprev Hmt Hb. cbv zeta. unfold handleAppendEntriesResponse, backup.
  rewrite decide_False by (by intros []). rewrite decide_False by lia. rewrite decide_False by lia.
  pose proof Hp as (Hp1 & Hn & Hm). rewrite Hok, Hn, Hm. cbn [default Datatypes.id]. rewrite decide_False by lia.
  rewrite u64_small by lia. set (b := backup_next l req resp).
  set (nb := if decide (b < 1) then 1 else b).
  assert (nb = Z.max 1 b) as -> by (subst nb; case_decide; lia). clearbody b.
  set (nc := if decide (Z.max 1 b < mt + 1) then _ else _).
  assert (nc = Z.max (mt + 1) (Z.max 1 b)) as -> by (subst nc; case_decide; lia).
  case_decide.
  - rewrite Z.min_l by lia. by split.
  - rewrite Z.min_r by lia. apply (progress_set l id nx mt (Some _) None Hp).
Qed.

(** ** Rounds *)

(** One request to a follower and its answer, as the goroutine of
    [sendHeartbeats] runs it when both disks and the network work. *)
Definition replicate_round (id : string) (now : Z) (lf : Node * Node) : Node * Node :=
  let '(l, f) := lf in
  match peers l !! id with
  | None => (l, f)
  | Some p =>
      match build_append l p (commitIndex l) with
      | Some (false, req) =>
          let '(f, resp) := handleAppendEntries f req io_ok now in
          let l := if decide (ar_Term resp = ae_Term req) then markPeerAck l id (ae_Term req) now else l in
          ((handleAppendEntriesResponse l id true req resp PersistOk now).1, f)
      | _ => (l, f)
      end
  end.

Lemma markPeerAck_keeps l id term now nx mt :
  progress l id nx mt ->
  progress (markPeerAck l id term now) id nx mt /\ leader_view (markPeerAck l id term now) = leader_view l.
Proof.
  intros ((p & Hp & Hnx) & Hn & Hm). unfold markPeerAck. rewrite Hp. case_decide; [|split; [split; eauto|done]].
  split; [|done]. split; [|done]. eexists. split; [apply lookup_insert_eq|done].
Qed.

(** A leader that is catching a follower up: the follower's base is a
    prefix of the leader's log, everything acknowledged is stored, and the
    next probe is not below the follower's base. *)
Record catchup (id : string) (l f : Node) (nx mt : Z) : Prop := {
  cu_leader : state l = StateLeader;
  cu_l : log_wf l;
  cu_f : log_wf f;
  cu_matching : matching l f;
  cu_term : currentTerm f <= currentTerm l;
  cu_progress : progress l id nx mt;
  cu_max : 0 < maxAppendEntries l;
  cu_next : logBase f < nx <= lastLogIndexLocked l + 1;
  cu_match : 0 <= mt < nx;
  cu_base : logBase l <= logBase f /\ getLogTerm l (logBase f) = logBaseTerm f;
  cu_acked : same_upto l f mt /\ mt <= lastLogIndexLocked f;
}.

(** The probe at [nx] finds the same entry on both sides. *)
Definition agreed (l f : Node) (nx : Z) : Prop :=
  nx - 1 <= lastLogIndexLocked f /\ getLogTerm f (nx - 1) = getLogTerm l (nx - 1).

Lemma consistency_agreed f req :
  log_wf f -> logBase f <= ae_PrevLogIndex req <= lastLogIndexLocked f ->
  getLogTerm f (ae_PrevLogIndex req) = ae_PrevLogTerm req -> checkLogConsistency f req = None.
Proof.
  intros Hf Hr Ht. unfold checkLogConsistency, getLogTerm in *. case_decide; [by rewrite decide_False by lia|].
  destruct (proj2 (logEntry_range f _ Hf) Hr) as [e He]. rewrite He in *. by rewrite decide_False by lia.
Qed.

Lemma acked_agreed id l f mt : catchup id l f (mt + 1) mt -> agreed l f (mt + 1).
Proof.
  intros C. destruct (cu_next _ _ _ _ _ C), (cu_acked _ _ _ _ _ C) as [Hs Hlast], (cu_base _ _ _ _ _ C) as [Hb Ht].
  unfold agreed. replace (mt + 1 - 1) with mt by lia. split; [done|].
  destruct (decide (mt = logBase f)) as [->|Hne].
  { rewrite Ht. unfold getLogTerm. by rewrite decide_True. }
  assert (logEntry f mt = logEntry l mt) as E by (apply Hs; unfold floor_of; lia).
  destruct (proj2 (logEntry_range f mt (cu_f _ _ _ _ _ C))) as [e He]; [lia|].
  rewrite (getLogTerm_entry f mt e (cu_f _ _ _ _ _ C) He). rewrite E in He.
  by rewrite (getLogTerm_entry l mt e (cu_l _ _ _ _ _ C) He).
Qed.

Lemma leader_view_inv l l' :
  leader_view l' = leader_view l ->
  log_view l' = log_view l /\ state l' = state l /\ currentTerm l' = currentTerm l /\
  maxAppendEntries l' = maxAppendEntries l.
Proof. intros E. unfold leader_view in E. split_and!; congruence. Qed.

Lemma build_append_ready l p commit :
  state l = StateLeader -> logBase l < p_nextIndex p -> exists req, build_append l p commit = Some (false, req).
Proof.
  intros Hs Hb. unfold build_append. rewrite decide_False by (by intros []). cbv zeta.
  rewrite bool_decide_eq_false_2 by lia. eauto.
Qed.

(** The invariant with another state of the leader and the follower. *)
Lemma catchup_move id l f nx mt l' f' nx' mt' :
  catchup id l f nx mt -> leader_view l' = leader_view l -> progress l' id nx' mt' ->
  log_wf f' -> matching l f' -> currentTerm f' <= currentTerm l -> logBase f' = logBase f ->
  logBaseTerm f' = logBaseTerm f -> logBase f < nx' <= lastLogIndexLocked l + 1 -> 0 <= mt' < nx' ->
  same_upto l f' mt' -> mt' <= lastLogIndexLocked f' -> catchup id l' f' nx' mt'.
Proof.
  intros C (V & Es & Et & Em)%leader_view_inv Hp Hf Hm Ht Eb Ebt Hn Hmt Hs Hl.
  pose proof (lastLogIndex_view l l' V) as El. destruct C as [c1 c2 _ _ _ _ c7 _ _ [c10 c10'] _].
  assert (getLogTerm l' (logBase f) = getLogTerm l (logBase f)) as Eg.
  { unfold getLogTerm. rewrite (logEntry_view l l' _ V). unfold log_view in V. by injection V as _ -> ->. }
  assert (logBase l' = logBase l) as Ebl by (unfold log_view in V; congruence).
  constructor; rewrite ?Es, ?Et, ?Em, ?Eb, ?Ebt, ?El; try done.
  - by apply (log_wf_view l).
  - by apply (matching_view_l l).
  - split; [lia|congruence].
  - split; [by apply (same_upto_view_l l)|done].
Qed.

(** A probe where both sides agree is accepted, and the follower then has
    all the leader sent. *)
Lemma round_accepts id now l f nx mt l' f' :
  catchup id l f nx mt -> agreed l f nx -> replicate_round id now (l, f) = (l', f') ->
  let mt' := Z.min (lastLogIndexLocked l) (nx - 1 + maxAppendEntries l) in
  catchup id l' f' (mt' + 1) mt' /\ leader_view l' = leader_view l /\ logBase f' = logBase f.
Proof.
  intros C [Ha1 Ha2] E. cbv zeta. pose proof C as [c1 c2 c3 c4 c5 c6 c7 c8 c9 [c10 c10'] c11].
  pose proof (lw_bound l c2) as Bl. pose proof (lastLogIndex_wf l c2) as Ll. pose proof (lw_base l c2) as B0.
  pose proof c6 as ((p & Hp & Hnx) & _). destruct (build_append_ready l p (commitIndex l) c1 ltac:(lia)) as [req Eb].
  unfold replicate_round in E. rewrite Hp, Eb in E.
  destruct (build_append_spec l p (commitIndex l) req c2 ltac:(lia) Eb) as (Et & Ep & Ept & _ & _ & Elen).
  destruct (handleAppendEntries f req io_ok now) as [f2 resp] eqn:Eh.
  destruct (append_outcome f req now f2 resp ltac:(lia) Eh) as (f1 & V1 & T1 & Hout).
  rewrite (consistency_agreed f1 req) in Hout.
  2: by apply (log_wf_view f).
  2: { rewrite (lastLogIndex_view f f1 V1). unfold log_view in V1. injection V1 as _ -> _. lia. }
  2: { unfold getLogTerm in *. rewrite (logEntry_view f f1 _ V1). unfold log_view in V1. injection V1 as _ -> ->.
       rewrite Ep, Ept, Hnx. unfold getLogTerm. exact Ha2. }
  destruct Hout as (Hok & Tf & Tr). rewrite decide_True in E by congruence. injection E as <- <-.
  destruct (accepted_step l f p (commitIndex l) req io_ok now f2 resp c2 c3 c4 ltac:(lia) Eb Eh Hok)
    as ((Hf2 & Eb2 & Ebt2 & Hl2) & Hs2 & Hm2 & EM).
  destruct (markPeerAck_keeps l id (ae_Term req) now nx mt c6) as [P1 W1].
  set (l1 := markPeerAck l id (ae_Term req) now) in *. clearbody l1.
  destruct (leader_view_inv _ _ W1) as (V & Es1 & Et1 & Em1).
  destruct (response_accepted l1 id req resp now nx mt) as [P2 W2]; [congruence..|done|done|lia|lia|lia|].
  rewrite W1 in W2. rewrite Hnx in EM, Elen. rewrite Z.max_r in EM, Elen by lia.
  rewrite EM in Hs2, Hl2. split; [|by split]. eapply catchup_move; eauto; try lia.
  by replace (Z.min _ _ + 1) with (nx + Z.of_nat (length (ae_Entries req))) by lia;
     replace (Z.min _ _) with (nx - 1 + Z.of_nat (length (ae_Entries req))) by lia.
Qed.

(** ** Refusals *)

(** What single leadership of a term means for two logs: terms do not
    decrease along a log, and a term begins at the same index everywhere. *)
Record origin (l f : Node) : Prop := {
  og_mono : forall i j a b, logEntry f i = Some a -> logEntry f j = Some b -> i <= j -> Term a <= Term b;
  og_start : forall i j a b, logEntry l i = Some a -> logEntry f j = Some b -> Term a = Term b ->
    floor_of l f < j <= i -> exists c, logEntry l j = Some c /\ Term c = Term b;
}.

Lemma backup_loop_spec es ct next :
  backup_loop es ct next = next \/
  exists pre e post, es = pre ++ e :: post /\ Term e = ct /\ Forall (fun x => ct < Term x) pre /\
    backup_loop es ct next = u64 (Index e + 1).
Proof.
  induction es as [|x es IH]; simpl; [by left|]. case_decide as H1.
  { right. exists [], x, es. by split_and!. }
  case_decide as H2; [by left|]. destruct IH as [IH|(pre & e & post & -> & He & Hp & IH)]; [by left|].
  right. exists (x :: pre), e, post. split_and!; [done|done|constructor; [lia|done]|done].
Qed.

(** In terms of the leader's log: the hint, or the successor of its last
    entry of the conflicting term. *)
Lemma backup_log_spec l ct next :
  log_wf l ->
  let b := backup_loop (reverse (drop 1 (log l))) ct next in
  b = next \/ exists i e, logEntry l i = Some e /\ Term e = ct /\ b = i + 1 /\
    forall j x, i < j -> logEntry l j = Some x -> ct < Term x.
Proof.
  intros Hl b. subst b. destruct (backup_loop_spec (reverse (drop 1 (log l))) ct next)
    as [H|(pre & e & post & E & He & Hp & H)]; [by left|right]. rewrite H.
  apply (f_equal reverse) in E. rewrite reverse_involutive, reverse_app, reverse_cons, <- app_assoc in E.
  destruct (lw_head l Hl) as (e0 & tl & Elog & _). rewrite Elog in E. simpl in E. rewrite drop_0 in E.
  pose proof (lw_bound l Hl) as Bl. pose proof (lw_base l Hl) as B0.
  assert (log l !! S (length post) = Some e) as Hk.
  { rewrite Elog, E. simpl. rewrite lookup_app_r by (rewrite length_reverse; lia).
    by rewrite length_reverse, Nat.sub_diag. }
  pose proof (lw_index l Hl _ _ Hk) as HI. pose proof (lookup_lt_Some _ _ _ Hk) as Hlt.
  exists (logBase l + Z.of_nat (S (length post))), e. split_and!.
  - rewrite logEntry_lookup by lia. by replace (Z.to_nat _) with (S (length post)) by lia.
  - done.
  - rewrite HI, u64_small by lia. lia.
  - intros j x Hj Hx. rewrite logEntry_lookup in Hx by lia.
    replace (Z.to_nat (j - logBase l)) with (S (length post + S (Z.to_nat (j - logBase l) - length post - 2)))
      in Hx by lia.
    rewrite Elog, E in Hx. simpl in Hx. rewrite lookup_app_r in Hx by (rewrite length_reverse; lia).
    rewrite length_reverse in Hx. replace (length post + _ - length post)%nat with
      (S (Z.to_nat (j - logBase l) - length post - 2)) in Hx by lia. simpl in Hx.
    apply Forall_reverse in Hp. exact (Forall_lookup_1 _ _ _ _ Hp Hx).
Qed.

Lemma conflict_loop_range fuel n ct i :
  0 <= logBase n < 2 ^ 64 - 1 -> logBase n < i -> logBase n < conflict_loop fuel n ct i <= i.
Proof.
  intros Hb. revert i. induction fuel as [|fuel IH]; intros i Hi; simpl; [lia|].
  rewrite u64_small by lia. case_decide as Hd; [|lia]. specialize (IH (i - 1)). lia.
Qed.

(** The hint of a refusal is above the follower's base and below the probe. *)
Lemma refusal_hint l f req r :
  log_wf l -> log_wf f -> origin l f -> logBase l <= logBase f ->
  getLogTerm l (logBase f) = logBaseTerm f -> logBase f <= ae_PrevLogIndex req <= lastLogIndexLocked l ->
  ae_PrevLogTerm req = getLogTerm l (ae_PrevLogIndex req) -> checkLogConsistency f req = Some r ->
  ar_Success r = false /\ ar_Term r = currentTerm f /\
  logBase f < backup_next l req r <= ae_PrevLogIndex req.
Proof.
  intros Hl Hf [Hmono Hstart] Hb Hbt Hp Ept E. set (prev := ae_PrevLogIndex req) in *.
  pose proof (lw_bound l Hl) as Bl. pose proof (lw_bound f Hf) as Bf. pose proof (lw_base f Hf) as B0.
  pose proof (lastLogIndex_wf f Hf) as Lf. pose proof (lastLogIndex_wf l Hl) as Ll. pose proof (log_nonempty f Hf) as Nf.
  unfold checkLogConsistency in E. fold prev in E. case_decide as Hd.
  { case_decide as Ht; [|done]. destruct Ht. rewrite Ept, Hd. exact Hbt. }
  destruct (logEntry f prev) as [b|] eqn:Ef.
  - case_decide as Ht; [|done]. injection E as <-. split; [done|]. split; [done|].
    pose proof (conflict_loop_range (length (log f)) f (Term b) prev ltac:(lia) ltac:(lia)) as Hc.
    unfold backup_next. cbn [ar_ConflictTerm ar_ConflictIndex]. case_decide as Hct; [|by rewrite decide_True by lia].
    destruct (backup_log_spec l (Term b) (conflict_loop (length (log f)) f (Term b) prev) Hl)
      as [->|(i & e & He & Et & -> & Habove)]; [done|].
    destruct (proj2 (logEntry_range l (logBase f) Hl)) as [x Hx]; [lia|].
    destruct (lw_head f Hf) as (e0 & tl & Elog & Et0).
    assert (logEntry f (logBase f) = Some e0) as H0 by (rewrite logEntry_lookup, Z.sub_diag, Elog by lia; done).
    pose proof (Hmono _ _ _ _ H0 Ef ltac:(lia)) as Hle. rewrite (getLogTerm_entry l _ x Hl Hx) in Hbt.
    split.
    + destruct (decide (i < logBase f)) as [Hlt|]; [|lia]. specialize (Habove _ _ Hlt Hx). lia.
    + destruct (decide (prev <= i)) as [Hge|]; [|lia]. exfalso. apply Ht.
      destruct (Hstart i prev e b He Ef Et) as (c & Hc1 & Hc2); [unfold floor_of; lia|].
      rewrite Ept, (getLogTerm_entry l prev c Hl Hc1). by symmetry.
  - assert (~ (prev <= lastLogIndexLocked f)) as Hgt.
    { intros Hle. destruct (proj2 (logEntry_range f prev Hf)) as [? ?]; [lia|congruence]. }
    rewrite decide_True in E by lia. injection E as <-. rewrite u64_small by lia. unfold backup_next.
    cbn [ar_Success ar_Term ar_ConflictTerm ar_ConflictIndex]. rewrite decide_False, decide_True by lia.
    split_and!; [done|done|lia|lia].
Qed.

Lemma round_backs_up id now l f nx mt l' f' :
  catchup id l f nx mt -> origin l f -> ~ agreed l f nx -> replicate_round id now (l, f) = (l', f') ->
  exists nx', nx' < nx /\ catchup id l' f' nx' mt /\ leader_view l' = leader_view l /\ log_view f' = log_view f.
Proof.
  intros C Ho Hna E. pose proof C as [c1 c2 c3 c4 c5 c6 c7 c8 c9 [c10 c10'] [c11 c11']].
  pose proof (lw_bound l c2) as Bl. pose proof (lastLogIndex_wf l c2) as Ll. pose proof (lw_base f c3) as B0.
  assert (mt < nx - 1) as Hmt.
  { destruct (decide (mt + 1 = nx)) as [<-|]; [|lia]. by destruct Hna; apply (acked_agreed id). }
  pose proof c6 as ((p & Hp & Hnx) & _). destruct (build_append_ready l p (commitIndex l) c1 ltac:(lia)) as [req Eb].
  unfold replicate_round in E. rewrite Hp, Eb in E.
  destruct (build_append_spec l p (commitIndex l) req c2 ltac:(lia) Eb) as (Et & Ep & Ept & _ & _ & _).
  destruct (handleAppendEntries f req io_ok now) as [f2 resp] eqn:Eh. rewrite Hnx in *.
  destruct (append_outcome f req now f2 resp ltac:(lia) Eh) as (f1 & V1 & T1 & Hout).
  pose proof (log_wf_view f f1 V1 c3) as Hf1. pose proof (lastLogIndex_view f f1 V1) as Lf.
  assert (logBase f1 = logBase f /\ logBaseTerm f1 = logBaseTerm f) as [Eb1 Ebt1] by (unfold log_view in V1; split; congruence).
  destruct (checkLogConsistency f1 req) as [r|] eqn:Ec.
  2: { destruct Hna. destruct (consistency_ok f1 req Hf1 Ec) as [Hr1 Hr2]. rewrite Ep, Ept in *. split; [lia|].
       rewrite <- Hr2. unfold getLogTerm. by rewrite (logEntry_view f f1 _ V1), Eb1, Ebt1. }
  destruct Hout as [-> ->]. destruct (refusal_hint l f1 req r c2 Hf1) as (Hok & Tr & Hh);
    [|lia|congruence|lia|congruence|done|].
  { destruct Ho as [Ho1 Ho2]. constructor; unfold floor_of; intros i j a b; rewrite ?Eb1.
    - rewrite !(logEntry_view f f1 _ V1). apply Ho1.
    - rewrite (logEntry_view f f1 _ V1). apply Ho2. }
  rewrite decide_True in E by congruence. injection E as <- <-.
  destruct (markPeerAck_keeps l id (ae_Term req) now nx mt c6) as [P1 W1].
  assert (backup_next (markPeerAck l id (ae_Term req) now) req r = backup_next l req r) as Ebn.
  { unfold backup_next. unfold leader_view, log_view in W1. by injection W1 as -> _ _ _ _ _. }
  set (l1 := markPeerAck l id (ae_Term req) now) in *. clearbody l1.
  destruct (leader_view_inv _ _ W1) as (V & Es1 & Et1 & Em1).
  destruct (response_refused l1 id req r now nx mt) as [P2 W2]; [congruence..|done|done|lia|lia|lia|].
  rewrite W1 in W2. unfold backup in P2. rewrite Ebn in P2.
  eexists. split; [|split; [eapply catchup_move; try exact P2; eauto; try lia|done]]; [lia|..].
  - by apply (matching_view l f).
  - by apply (same_upto_view l f).
Qed.

Definition rounds (id : string) (times : list Z) (lf : Node * Node) : Node * Node :=
  foldl (fun lf now => replicate_round id now lf) lf times.

(** From the first accepted probe on every round is accepted. *)
Lemma rounds_send id times : forall l f mt l' f',
  catchup id l f (mt + 1) mt -> rounds id times (l, f) = (l', f') ->
  exists mt', catchup id l' f' (mt' + 1) mt' /\ leader_view l' = leader_view l /\ logBase f' = logBase f /\
    Z.min (lastLogIndexLocked l) (mt + Z.of_nat (length times)) <= mt'.
Proof.
  induction times as [|now times IH]; intros l f mt l' f' C E; cbn [rounds foldl] in E.
  { injection E as <- <-. exists mt. split_and!; [done..|]. simpl. lia. }
  destruct (replicate_round id now (l, f)) as [l1 f1] eqn:E1. fold (rounds id times (l1, f1)) in E.
  destruct (round_accepts id now l f _ mt l1 f1 C (acked_agreed id l f mt C) E1) as (C1 & W1 & B1).
  destruct (IH l1 f1 _ l' f' C1 E) as (mt' & C' & W' & B' & Hm). exists mt'.
  destruct (leader_view_inv _ _ W1) as (V & _). rewrite (lastLogIndex_view l l1 V) in Hm.
  pose proof (cu_max _ _ _ _ _ C). split_and!; [done|congruence|congruence|]. simpl length. lia.
Qed.

Lemma rounds_catch_up id times : forall l f nx mt l' f',
  catchup id l f nx mt -> origin l f -> rounds id times (l, f) = (l', f') ->
  nx + lastLogIndexLocked l - 2 * logBase f <= Z.of_nat (length times) ->
  exists mt', catchup id l' f' (mt' + 1) mt' /\ leader_view l' = leader_view l /\ logBase f' = logBase f /\
    lastLogIndexLocked l <= mt'.
Proof.
  induction times as [|now times IH]; intros l f nx mt l' f' C Ho E Hlen; cbn [rounds foldl length] in E, Hlen;
    pose proof (cu_next _ _ _ _ _ C) as Hn; [lia|].
  destruct (replicate_round id now (l, f)) as [l1 f1] eqn:E1. fold (rounds id times (l1, f1)) in E.
  assert (Decision (agreed l f nx)) as [Ha|Hna] by (unfold agreed; apply _).
  - destruct (round_accepts id now l f nx mt l1 f1 C Ha E1) as (C1 & W1 & B1).
    destruct (rounds_send id times l1 f1 _ l' f' C1 E) as (mt' & C' & W' & B' & Hm). exists mt'.
    destruct (leader_view_inv _ _ W1) as (V & _). rewrite (lastLogIndex_view l l1 V) in Hm.
    pose proof (cu_max _ _ _ _ _ C). split_and!; [done|congruence|congruence|lia].
  - destruct (round_backs_up id now l f nx mt l1 f1 C Ho Hna E1) as (nx' & Hlt & C1 & W1 & V1).
    destruct (leader_view_inv _ _ W1) as (V & _). pose proof (lastLogIndex_view l l1 V) as El.
    assert (logBase f1 = logBase f /\ logBase l1 = logBase l) as [Eb1 Eb2] by (unfold log_view in *; split; congruence).
    destruct (IH l1 f1 nx' mt l' f' C1) as (mt' & C' & W' & B' & Hm); [|done|lia|].
    { destruct Ho as [Ho1 Ho2]. constructor; unfold floor_of in *; intros i j a b; rewrite ?Eb1, ?Eb2.
      - rewrite !(logEntry_view f f1 _ V1). apply Ho1.
      - rewrite (logEntry_view f f1 _ V1), !(logEntry_view l l1 _ V). apply Ho2. }
    exists mt'. split_and!; [done|congruence|congruence|lia].
Qed.

(** C14: replication converges. Take a leader and a follower that needs no
    snapshot (its base is not below the leader's, and the leader's next index
    for it is above that base), whose logs obey log matching and have entries
    of a term only from that term's leader, whatever the follower's log looks
    like otherwise: entries missing, or left over from other leaders. Disks
    and network work. Backing up along the conflict hints and then sending
    batches, the leader needs at most as many rounds as lie between the
    follower's base and the next index, plus as many as lie between that base
    and the leader's last index. Then the follower holds all of the leader's
    log, the leader has recorded that, and the leader's log did not change. *)
Theorem replication_converges id times l f nx mt l' f' :
  catchup id l f nx mt -> origin l f ->
  nx + lastLogIndexLocked l - 2 * logBase f <= Z.of_nat (length times) ->
  rounds id times (l, f) = (l', f') ->
  same_upto l f' (lastLogIndexLocked l) /\ default 0 (matchIndex l' !! id) = lastLogIndexLocked l /\
  log l' = log l /\ state l' = StateLeader.
Proof.
  intros C Ho Hlen E. destruct (rounds_catch_up id times l f nx mt l' f' C Ho E Hlen) as (mt' & C' & W & Eb & Hm).
  destruct (leader_view_inv _ _ W) as (V & Es & _). pose proof (lastLogIndex_view l l' V) as El.
  pose proof (cu_next _ _ _ _ _ C') as Hn. assert (mt' = lastLogIndexLocked l) as -> by lia.
  destruct (cu_acked _ _ _ _ _ C') as [Hs _], (cu_progress _ _ _ _ _ C') as (_ & _ & Hp).
  split_and!; [by apply (same_upto_view_l l' l)|done|unfold log_view in V; congruence|].
  rewrite Es. apply (cu_leader _ _ _ _ _ C).
Qed.

(** ** A probe below the follower's base *)

Lemma round_stalls id now l f nx mt l' f' :
  state l = StateLeader -> log_wf l -> log_wf f -> currentTerm f <= currentTerm l -> progress l id nx mt ->
  logBase l < nx <= lastLogIndexLocked l + 1 -> 0 <= mt < nx -> nx - 1 < logBase f ->
  replicate_round id now (l, f) = (l', f') ->
  progress l' id nx mt /\ leader_view l' = leader_view l /\ log_view f' = log_view f /\
  currentTerm f' = currentTerm l.
Proof.
  intros Hs Hl Hf Ht Hpr Hn Hmt Hbelow E. pose proof (lw_bound f Hf) as Bf. pose proof (lastLogIndex_wf f Hf) as Lf.
  pose proof (lw_base l Hl) as Bl. pose proof (log_nonempty f Hf) as Nf. pose proof (lw_bound l Hl) as Bl'.
  pose proof (lastLogIndex_wf l Hl) as Ll.
  pose proof Hpr as ((p & Hp & Hnx) & _). destruct (build_append_ready l p (commitIndex l) Hs ltac:(lia)) as [req Eb].
  unfold replicate_round in E. rewrite Hp, Eb in E.
  destruct (build_append_spec l p (commitIndex l) req Hl ltac:(lia) Eb) as (Et & Ep & _).
  destruct (handleAppendEntries f req io_ok now) as [f2 resp] eqn:Eh. rewrite Hnx in *.
  destruct (append_outcome f req now f2 resp ltac:(lia) Eh) as (f1 & V1 & T1 & Hout).
  assert (checkLogConsistency f1 req = Some (AppendReply (currentTerm f1) false (lastLogIndexLocked f) (logBase f + 1) 0)) as Ec.
  { unfold checkLogConsistency. rewrite (logEntry_view f f1 _ V1), (lastLogIndex_view f f1 V1), Ep.
    assert (logBase f1 = logBase f) as -> by (unfold log_view in V1; congruence).
    rewrite decide_False by lia. rewrite logEntry_below by lia. rewrite decide_False by lia. by rewrite u64_small by lia. }
  rewrite Ec in Hout. destruct Hout as [-> ->]. cbn [ar_Term] in E. rewrite decide_True in E by congruence.
  injection E as <- <-. destruct (markPeerAck_keeps l id (ae_Term req) now nx mt Hpr) as [P1 W1].
  set (l1 := markPeerAck l id (ae_Term req) now) in *. clearbody l1.
  destruct (leader_view_inv _ _ W1) as (V & Es1 & Et1 & Em1).
  match goal with |- context [handleAppendEntriesResponse l1 id true req ?r PersistOk now] => set (resp := r) end.
  assert ((handleAppendEntriesResponse l1 id true req resp PersistOk now).1 = l1) as El.
  { unfold handleAppendEntriesResponse. rewrite decide_False by (intros []; congruence). subst resp.
    cbn [ar_Term ar_Success]. rewrite decide_False, decide_False by lia. destruct P1 as (_ & -> & ->).
    cbn [default Datatypes.id]. case_decide; [done|]. unfold backup_next. cbn [ar_ConflictTerm ar_ConflictIndex].
    rewrite (decide_False (P := 0 > 0)), (decide_True (P := logBase f + 1 > 0)) by lia.
    rewrite (decide_False (P := logBase f + 1 < 1)) by lia. rewrite u64_small by lia.
    rewrite (decide_False (P := logBase f + 1 < mt + 1)) by lia. by rewrite decide_True by lia. }
  rewrite El. split_and!; [done|done|done|congruence].
Qed.

(** C15: the one way replication can get stuck. A follower that is probed
    below the base of its own compacted log asks the leader to resume right
    after that base. The leader takes hints only backwards and ignores it, so
    every later round repeats the same probe: the leader's record of the
    follower and the follower's log never change again in that term. *)
Theorem probe_below_base_stalls id times l f nx mt l' f' :
  state l = StateLeader -> log_wf l -> log_wf f -> currentTerm f <= currentTerm l -> progress l id nx mt ->
  logBase l < nx <= lastLogIndexLocked l + 1 -> 0 <= mt < nx -> nx - 1 < logBase f ->
  rounds id times (l, f) = (l', f') ->
  progress l' id nx mt /\ log f' = log f /\ log l' = log l /\ state l' = StateLeader.
Proof.
  revert l f. induction times as [|now times IH]; intros l f Hs Hl Hf Ht Hp Hn Hmt Hb E; cbn [rounds foldl] in E.
  { by injection E as <- <-. }
  destruct (replicate_round id now (l, f)) as [l1 f1] eqn:E1. fold (rounds id times (l1, f1)) in E.
  destruct (round_stalls id now l f nx mt l1 f1 Hs Hl Hf Ht Hp Hn Hmt Hb E1) as (P1 & W1 & V1 & T1).
  destruct (leader_view_inv _ _ W1) as (V & Es1 & Et1 & Em1). pose proof (lastLogIndex_view l l1 V) as El.
  pose proof V as V'. pose proof V1 as V1'. unfold log_view in V', V1'. injection V' as L1 L2 L3.
  injection V1' as F1 F2 F3.
  destruct (IH l1 f1) as (HA & HB & HC & HD); [congruence|by apply (log_wf_view l)|by apply (log_wf_view f)|lia|done|lia|lia|lia|done|].
  split_and!; [done|congruence|congruence|done].
Qed.
End replication.
