(* ===== verification/RaftSpec.v ===== *)
(** * The log replication protocol, abstractly

    What a cluster of Raft nodes promises about its logs, without handlers,
    messages and disks: nodes have a term and a log, a reign is the log of the
    leader of a term, and votes, acknowledgements and committed lengths are
    kept as history. The theorems of this file are the safety of that
    protocol: logs match the reigns, a chosen entry is in every later reign,
    and committed prefixes agree. RaftSafety.v shows that the nodes of
    src/internal/raft/node.go implement it. *)
From stdpp Require Import base gmap strings list.
From Stdlib Require Import ZArith Lia.
From S2P Require Import Prelude Membership Raft.

Open Scope Z_scope.

(** ** Logs *)

(** Entry [p] of the log is of term [t]. *)
Definition has (l : list RaftLogEntry) (p : nat) (t : Z) : Prop := Term <$> l !! p = Some t.

#[export] Instance has_dec l p t : Decision (has l p t).
Proof. unfold has. apply _. Defined.

Definition last_term (l : list RaftLogEntry) : Z :=
  match last l with None => 0 | Some e => Term e end.

(** The candidate's log [c] is at least as up to date as [l]. *)
Definition up_to_date (c l : list RaftLogEntry) : Prop :=
  last_term l < last_term c \/ (last_term c = last_term l /\ (length l <= length c)%nat).

(** [L] brought towards the leader's log [l]: a part of one of them that
    keeps every prefix they share. *)
Definition merged (L l L' : list RaftLogEntry) : Prop :=
  ((exists j, L' = take j L) \/ (exists j, L' = take j l)) /\
  forall k, (k <= length L)%nat -> take k L = take k l -> take k L' = take k L.

Lemma has_prefix l l' p t : l `prefix_of` l' -> has l p t -> has l' p t.
Proof.
  intros [k ->] H. unfold has in *. destruct (l !! p) as [e|] eqn:E; [|done].
  by rewrite (lookup_app_l_Some _ _ _ _ E).
Qed.

Lemma has_take l l' p t : take (S p) l = take (S p) l' -> has l p t -> has l' p t.
Proof.
  intros E H. unfold has in *. rewrite <- (lookup_take_lt l' (S p)) by lia.
  by rewrite <- E, lookup_take_lt by lia.
Qed.

Lemma has_lt l p t : has l p t -> (p < length l)%nat.
Proof. unfold has. intros H. destruct (l !! p) eqn:E; [|done]. by apply lookup_lt_Some in E. Qed.

Lemma has_entry l p t : has l p t <-> exists e, l !! p = Some e /\ Term e = t.
Proof.
  unfold has. destruct (l !! p) as [e|]; simpl; [|split; [done|by intros (? & ? & ?)]].
  split; [intros [= <-]; eauto|]. intros (e' & [= <-] & <-). done.
Qed.

Lemma has_fun l p t t' : has l p t -> has l p t' -> t = t'.
Proof. unfold has. congruence. Qed.

Lemma last_has l : l <> [] -> has l (pred (length l)) (last_term l).
Proof.
  intros Hne. unfold has, last_term. rewrite last_lookup.
  destruct (lookup_lt_is_Some_2 l (pred (length l))) as [e ->]; [|done]. destruct l; [done|simpl; lia].
Qed.

Lemma take_le {A} (l l' : list A) k j : (j <= k)%nat -> take k l = take k l' -> take j l = take j l'.
Proof. intros Hj E. rewrite <- (Nat.min_l j k Hj), <- !take_take. by rewrite E. Qed.

Lemma take_eq_length {A} (l l' : list A) k :
  take k l = take k l' -> (k <= length l')%nat -> (k <= length l)%nat.
Proof. intros E H. apply (f_equal length) in E. rewrite !length_take in E. lia. Qed.

(** ** State *)

Record reign := Reign {
  r_owner : string;
  r_start : list RaftLogEntry; (* the log the owner was elected with *)
  r_log : list RaftLogEntry;
}.

Record spec := Spec {
  sp_term : string -> Z;
  sp_log : string -> list RaftLogEntry;
  sp_reign : Z -> option reign;
  sp_cand : string * Z -> option (list RaftLogEntry); (* logs of campaigns *)
  sp_vote : string -> string -> Z -> Prop;            (* voter, candidate, term *)
  sp_ack : string -> Z -> nat -> Prop;                (* node, term, stored length *)
  sp_known : string -> nat -> Prop;                   (* lengths known to be committed *)
  sp_said : Z -> nat -> Prop;                         (* commit lengths sent in a term *)
}.

Definition fset {A B} `{EqDecision A} (f : A -> B) (x : A) (y : B) : A -> B :=
  fun z => if decide (z = x) then y else f z.

Definition acked (s : spec) (v : string) (t : Z) (p : nat) : Prop :=
  exists m, sp_ack s v t m /\ (p < m)%nat.

Section protocol.
Context (V : gset string).

(** Entry [p], created in term [t], is stored by a majority in that term. *)
Definition chosen (s : spec) (t : Z) (p : nat) : Prop :=
  exists q r, majority q V /\ sp_reign s t = Some r /\ has (r_log r) p t /\
    forall v, v ∈ q -> acked s v t p.

(** ** Steps *)

Inductive sp_step (s : spec) : spec -> Prop :=
| st_observe v u :
    sp_term s v <= u ->
    sp_step s (Spec (fset (sp_term s) v u) (sp_log s) (sp_reign s) (sp_cand s) (sp_vote s) (sp_ack s)
      (sp_known s) (sp_said s))
| st_campaign c u :
    sp_term s c < u ->
    sp_step s (Spec (fset (sp_term s) c u) (sp_log s) (sp_reign s)
      (fset (sp_cand s) (c, u) (Some (sp_log s c)))
      (fun v c' t => (v = c /\ c' = c /\ t = u) \/ sp_vote s v c' t) (sp_ack s) (sp_known s) (sp_said s))
| st_grant v c u C :
    sp_cand s (c, u) = Some C -> sp_term s v <= u -> (forall c', sp_vote s v c' u -> c' = c) ->
    up_to_date C (sp_log s v) ->
    sp_step s (Spec (fset (sp_term s) v u) (sp_log s) (sp_reign s) (sp_cand s)
      (fun v' c' t => (v' = v /\ c' = c /\ t = u) \/ sp_vote s v' c' t) (sp_ack s) (sp_known s) (sp_said s))
| st_elect c u C q e :
    sp_cand s (c, u) = Some C -> sp_term s c = u -> sp_reign s u = None -> majority q V ->
    (forall v, v ∈ q -> sp_vote s v c u) -> Term e = u ->
    sp_step s (Spec (sp_term s) (fset (sp_log s) c (C ++ [e]))
      (fset (sp_reign s) u (Some (Reign c C (C ++ [e])))) (sp_cand s) (sp_vote s)
      (fun v t m => (v = c /\ t = u /\ m = S (length C)) \/ sp_ack s v t m) (sp_known s) (sp_said s))
| st_append c u r e :
    sp_reign s u = Some r -> r_owner r = c -> sp_term s c = u -> Term e = u ->
    sp_step s (Spec (sp_term s) (fset (sp_log s) c (sp_log s c ++ [e]))
      (fset (sp_reign s) u (Some (Reign c (r_start r) (r_log r ++ [e])))) (sp_cand s) (sp_vote s)
      (fun v t m => (v = c /\ t = u /\ m = S (length (sp_log s c))) \/ sp_ack s v t m) (sp_known s) (sp_said s))
| st_merge v u r L' :
    sp_reign s u = Some r -> sp_term s v = u -> merged (sp_log s v) (r_log r) L' ->
    sp_step s (Spec (sp_term s) (fset (sp_log s) v L') (sp_reign s) (sp_cand s) (sp_vote s) (sp_ack s)
      (sp_known s) (sp_said s))
| st_ack v u r m :
    sp_reign s u = Some r -> sp_term s v = u -> (m <= length (r_log r))%nat ->
    take m (sp_log s v) = take m (r_log r) ->
    sp_step s (Spec (sp_term s) (sp_log s) (sp_reign s) (sp_cand s) (sp_vote s)
      (fun v' t m' => (v' = v /\ t = u /\ m' = m) \/ sp_ack s v' t m') (sp_known s) (sp_said s))
| st_commit c u r p :
    sp_reign s u = Some r -> r_owner r = c -> sp_term s c = u -> chosen s u p ->
    sp_step s (Spec (sp_term s) (sp_log s) (sp_reign s) (sp_cand s) (sp_vote s) (sp_ack s)
      (fun v n => (v = c /\ n = S p) \/ sp_known s v n) (sp_said s))
| st_say u r n :
    sp_reign s u = Some r -> sp_term s (r_owner r) = u -> sp_known s (r_owner r) n ->
    sp_step s (Spec (sp_term s) (sp_log s) (sp_reign s) (sp_cand s) (sp_vote s) (sp_ack s)
      (sp_known s) (fun t m => (t = u /\ m = n) \/ sp_said s t m))
| st_learn v u r m n c :
    sp_reign s u = Some r -> sp_term s v = u -> (m <= length (r_log r))%nat ->
    take m (sp_log s v) = take m (r_log r) -> sp_said s u n -> (c <= n)%nat -> (c <= m)%nat ->
    sp_step s (Spec (sp_term s) (sp_log s) (sp_reign s) (sp_cand s) (sp_vote s) (sp_ack s)
      (fun v' c' => (v' = v /\ c' = c) \/ sp_known s v' c') (sp_said s)).

Definition sp_init (s : spec) : Prop :=
  (forall v, sp_term s v = 0 /\ sp_log s v = []) /\ (forall u, sp_reign s u = None) /\
  (forall k, sp_cand s k = None) /\ (forall v c u, ~ sp_vote s v c u) /\
  (forall v t m, ~ sp_ack s v t m) /\ (forall v n, ~ sp_known s v n) /\ (forall u n, ~ sp_said s u n).

(** ** Invariant *)

(** The log up to an entry is the log of the reign that created the entry. *)
Definition reigned (s : spec) (l : list RaftLogEntry) : Prop :=
  forall p t, has l p t -> exists r, sp_reign s t = Some r /\ take (S p) l = take (S p) (r_log r).

(** A later reign that began without the entry. *)
Definition without (s : spec) (t : Z) (p : nat) (u : Z) : Prop :=
  exists t' r', t < t' < u /\ sp_reign s t' = Some r' /\ ~ has (r_start r') p t.

(** The log [l], taken in term [u], holds every entry of an earlier reign
    that [v] has acknowledged, unless an intermediate reign lost it. *)
Definition covers (s : spec) (v : string) (l : list RaftLogEntry) (u : Z) : Prop :=
  forall t p r, t < u -> acked s v t p -> sp_reign s t = Some r -> has (r_log r) p t ->
    has l p t \/ without s t p u.

Definition committed (s : spec) (u : Z) (l : list RaftLogEntry) (c : nat) : Prop :=
  exists t p r, t <= u /\ chosen s t p /\ (c <= S p)%nat /\ sp_reign s t = Some r /\
    take c l = take c (r_log r).

Record sp_inv (s : spec) : Prop := {
  si_match : forall v, reigned s (sp_log s v);
  si_bound : forall v p t, has (sp_log s v) p t -> t <= sp_term s v;
  si_term : forall v, 0 <= sp_term s v;
  si_reign : forall u r, sp_reign s u = Some r -> 0 < u /\ reigned s (r_log r) /\
    exists tail, r_log r = r_start r ++ tail /\ Forall (fun e => Term e = u) tail /\
      forall p t, has (r_start r) p t -> t < u;
  si_owner : forall u r, sp_reign s u = Some r ->
    u <= sp_term s (r_owner r) /\ (sp_term s (r_owner r) = u -> sp_log s (r_owner r) = r_log r) /\
    sp_cand s (r_owner r, u) = Some (r_start r);
  si_cand : forall c u C, sp_cand s (c, u) = Some C -> reigned s C /\ (forall p t, has C p t -> t < u) /\
    0 < u <= sp_term s c /\ (sp_term s c = u -> sp_reign s u = None -> sp_log s c = C);
  si_vote : forall v c u, sp_vote s v c u -> u <= sp_term s v;
  si_unique : forall v c c' u, sp_vote s v c u -> sp_vote s v c' u -> c = c';
  si_pre : forall v c u, sp_vote s v c u -> exists C, sp_cand s (c, u) = Some C /\
    (sp_reign s u = None -> covers s v C u);
  si_quorum : forall u r, sp_reign s u = Some r -> exists q, majority q V /\
    forall v, v ∈ q -> sp_vote s v (r_owner r) u /\ covers s v (r_start r) u;
  si_ack : forall v t m, sp_ack s v t m -> t <= sp_term s v /\
    exists r, sp_reign s t = Some r /\ (m <= length (r_log r))%nat;
  si_kept : forall v, covers s v (sp_log s v) (sp_term s v + 1);
  si_known : forall v c, sp_known s v c -> committed s (sp_term s v) (sp_log s v) c;
  si_said : forall u n, sp_said s u n -> exists t p, t <= u /\ chosen s t p /\ (n <= S p)%nat;
}.

(** ** Facts of the invariant *)

Lemma reign_bound s u r p t :
  sp_inv s -> sp_reign s u = Some r -> has (r_log r) p t -> t <= u.
Proof.
  intros Hi Hr H. destruct (si_reign s Hi u r Hr) as (_ & _ & tail & E & Ht & Hs).
  rewrite E in H. apply has_entry in H as (e & He & <-).
  apply lookup_app_Some in He as [He|[_ He]].
  - apply Z.lt_le_incl, (Hs p). apply has_entry. eauto.
  - rewrite Forall_forall in Ht. rewrite (Ht e); [lia|]. by eapply list_elem_of_lookup_2.
Qed.

Lemma start_log s u r p t :
  sp_inv s -> sp_reign s u = Some r -> has (r_start r) p t -> has (r_log r) p t.
Proof.
  intros Hi Hr. destruct (si_reign s Hi u r Hr) as (_ & _ & tail & E & _).
  apply has_prefix. rewrite E. by eexists.
Qed.

(** An entry of an earlier term in a reign's log was there at its start. *)
Lemma log_start s u r p t :
  sp_inv s -> sp_reign s u = Some r -> has (r_log r) p t -> t < u -> has (r_start r) p t.
Proof.
  intros Hi Hr H Hlt. destruct (si_reign s Hi u r Hr) as (_ & _ & tail & E & Ht & _).
  rewrite E in H. apply has_entry in H as (e & He & <-). apply has_entry. exists e. split; [|done].
  apply lookup_app_Some in He as [He|[_ He]]; [done|]. rewrite Forall_forall in Ht.
  rewrite (Ht e) in Hlt; [lia|]. by eapply list_elem_of_lookup_2.
Qed.

Lemma matches_sorted s l p t p' t' :
  sp_inv s -> reigned s l -> has l p t -> has l p' t' -> (p <= p')%nat -> t <= t'.
Proof.
  intros Hi Hm H H' Hp. destruct (Hm p' t' H') as (r & Hr & E).
  apply (reign_bound s t' r p t Hi Hr). eapply has_take; [|exact H]. eapply take_le; [|exact E]. lia.
Qed.

(** Two matching logs that share the term of an entry share all before. *)
Lemma matches_agree s l l' p t :
  reigned s l -> reigned s l' -> has l p t -> has l' p t -> take (S p) l = take (S p) l'.
Proof.
  intros Hm Hm' H H'. destruct (Hm p t H) as (r & Hr & ->). destruct (Hm' p t H') as (r' & Hr' & ->).
  congruence.
Qed.

(** A log that is at least as up to date as one holding an entry holds it
    too, or an intermediate reign lost it. *)
Lemma up_to_date_covers s C L u t p :
  sp_inv s -> reigned s C -> reigned s L -> (forall p t, has C p t -> t < u) -> up_to_date C L ->
  has L p t -> has C p t \/ without s t p u.
Proof.
  intros Hi HC HL Hb Hup H. pose proof (has_lt _ _ _ H) as Hp.
  pose proof (last_has L ltac:(by destruct L; [simpl in Hp; lia|])) as HlL.
  pose proof (matches_sorted s L p t _ _ Hi HL H HlL ltac:(lia)) as Hle.
  destruct (HL p t H) as (rt & Hrt & Et). destruct (si_reign s Hi t rt Hrt) as (Ht0 & Hmt & _).
  assert (C <> []) as HCne.
  { intros ->. unfold up_to_date in Hup. cbn in Hup. destruct Hup as [?|[_ ?]]; lia. }
  pose proof (last_has C HCne) as HlC.
  destruct (HC _ _ HlC) as (rs & Hrs & Es).
  assert (0 < length C)%nat as Hlen by (destruct C; [done|simpl; lia]).
  replace (S (pred (length C))) with (length C) in Es by lia. rewrite firstn_all in Es.
  destruct (decide (last_term C = t)) as [E|Hne].
  - left. rewrite E, Hrt in Hrs. simplify_eq. destruct Hup as [?|[_ Hll]]; [lia|].
    eapply has_take; [|exact H]. rewrite Et. rewrite Es, take_take, Nat.min_l by lia. done.
  - assert (t < last_term C) as Hlt by (unfold up_to_date in Hup; lia).
    destruct (decide (has (r_start rs) p t)) as [Hs|Hno].
    + left. pose proof (start_log s _ _ _ _ Hi Hrs Hs) as Hs'.
      destruct (si_reign s Hi _ rs Hrs) as (_ & Hms & _).
      assert (has (r_log rs) (pred (length C)) (last_term C)) as Hs2.
      { eapply has_take; [|exact HlC]. replace (S (pred (length C))) with (length C) by lia.
        by rewrite firstn_all. }
      assert (p < pred (length C))%nat as Hpp.
      { destruct (decide (p < pred (length C))%nat); [done|].
        pose proof (matches_sorted s _ _ _ _ _ Hi Hms Hs2 Hs' ltac:(lia)). lia. }
      eapply has_take; [|exact Hs']. rewrite Es, take_take, Nat.min_l by lia. done.
    + right. exists (last_term C), rs. split_and!; [done|by eapply Hb|done|done].
Qed.

(** Leader completeness: a chosen entry is in every later reign. *)
Lemma chosen_in_start s t p u r :
  sp_inv s -> chosen s t p -> t < u -> sp_reign s u = Some r -> has (r_start r) p t.
Proof.
  intros Hi (q & rt & Hq & Hrt & Ht & Hall). revert r.
  induction u as [u IH] using (well_founded_ind (Z.lt_wf t)). intros r Hlt Hr.
  destruct (si_quorum s Hi u r Hr) as (q' & Hq' & Hv).
  destruct (majorities_meet V V q q' "") as (v & Hin & Hin'); [set_solver|set_solver|done|done|].
  destruct (Hv v Hin') as [_ Hcov].
  destruct (Hcov t p rt Hlt (Hall v Hin) Hrt Ht) as [?|(t' & r' & Ht' & Hr' & Hno)]; [done|].
  exfalso. apply Hno. apply (IH t'); [lia|lia|done].
Qed.

Lemma chosen_in_reign s t p u r :
  sp_inv s -> chosen s t p -> t <= u -> sp_reign s u = Some r -> has (r_log r) p t.
Proof.
  intros Hi Hc Hle Hr. destruct (decide (t = u)) as [->|].
  - destruct Hc as (? & r' & _ & Hr' & H & _). rewrite Hr in Hr'. by simplify_eq.
  - apply (start_log s u r p t Hi Hr). eapply chosen_in_start; eauto. lia.
Qed.

Lemma committed_length s u l c : committed s u l c -> (c <= length l)%nat.
Proof.
  intros (t & p & r & _ & (q & r' & _ & Hr' & H & _) & Hc & Hr & E). rewrite Hr in Hr'. simplify_eq.
  apply has_lt in H. apply (take_eq_length _ _ _ E). lia.
Qed.

(** A committed prefix is the prefix of every reign from its term on. *)
Lemma committed_in_reign s u l c u' r :
  sp_inv s -> committed s u l c -> u <= u' -> sp_reign s u' = Some r -> take c l = take c (r_log r).
Proof.
  intros Hi (t & p & rt & Hle & Hc & Hcp & Hrt & E) Hu Hr. rewrite E.
  pose proof (chosen_in_reign s t p u' r Hi Hc ltac:(lia) Hr) as H.
  pose proof (chosen_in_reign s t p t rt Hi Hc ltac:(lia) Hrt) as H'.
  apply (take_le _ _ (S p) c Hcp). eapply matches_agree; [| |exact H'|exact H]; by eapply si_reign.
Qed.

(** Committed prefixes agree. *)
Lemma committed_agree s u1 l1 c1 u2 l2 c2 :
  sp_inv s -> committed s u1 l1 c1 -> committed s u2 l2 c2 -> (c1 <= c2)%nat -> take c1 l1 = take c1 l2.
Proof.
  intros Hi (t1 & p1 & r1 & _ & H1 & P1 & R1 & E1) (t2 & p2 & r2 & _ & H2 & P2 & R2 & E2) Hc.
  rewrite E1. rewrite (take_le _ _ _ _ Hc E2).
  destruct (Z.le_ge_cases t1 t2) as [Ht|Ht].
  - apply (take_le _ _ (S p1) c1 P1). eapply matches_agree; [by eapply si_reign..| |].
    + by eapply (chosen_in_reign s t1 p1 t1); [| |lia|].
    + by eapply (chosen_in_reign s t1 p1 t2).
  - apply (take_le _ _ (S p2) c1); [lia|]. eapply matches_agree; [by eapply si_reign..| |].
    + by eapply (chosen_in_reign s t2 p2 t1).
    + by eapply (chosen_in_reign s t2 p2 t2); [| |lia|].
Qed.

(** ** Growth *)

(** Reigns only grow at their end, and history is only added to. *)
Record grows (s s' : spec) : Prop := {
  gr_reign : forall u r, sp_reign s u = Some r -> exists r', sp_reign s' u = Some r' /\
    r_owner r' = r_owner r /\ r_start r' = r_start r /\ r_log r `prefix_of` r_log r';
  gr_ack : forall v t m, sp_ack s v t m -> sp_ack s' v t m;
}.

Lemma take_prefix {A} (l l' : list A) k : l `prefix_of` l' -> (k <= length l)%nat -> take k l' = take k l.
Proof. intros [x ->] Hk. by rewrite take_app_le. Qed.

Lemma reigned_grows s s' l : grows s s' -> reigned s l -> reigned s' l.
Proof.
  intros Hg Hm p t H. destruct (Hm p t H) as (r & Hr & E).
  destruct (gr_reign _ _ Hg _ _ Hr) as (r' & Hr' & _ & _ & Hp). exists r'. split; [done|].
  rewrite E. symmetry. apply take_prefix; [done|]. symmetry in E. apply (take_eq_length _ _ _ E).
  by apply has_lt in H.
Qed.

Lemma without_grows s s' t p u : grows s s' -> without s t p u -> without s' t p u.
Proof.
  intros Hg (t' & r' & Ht & Hr & Hno). destruct (gr_reign _ _ Hg _ _ Hr) as (r'' & Hr' & _ & Es & _).
  exists t', r''. by rewrite Es.
Qed.

Lemma without_later s t p u u' : u <= u' -> without s t p u -> without s t p u'.
Proof. intros Hu (t' & r' & Ht & H). exists t', r'. split; [lia|done]. Qed.

Lemma acked_grows s s' v t p : grows s s' -> acked s v t p -> acked s' v t p.
Proof. intros Hg (m & Hm & Hp). exists m. split; [by apply Hg|done]. Qed.

Lemma chosen_grows s s' t p : grows s s' -> chosen s t p -> chosen s' t p.
Proof.
  intros Hg (q & r & Hq & Hr & H & Hall). destruct (gr_reign _ _ Hg _ _ Hr) as (r' & Hr' & _ & _ & Hp).
  exists q, r'. split_and!; [done|done|by eapply has_prefix|]. intros v Hv. eapply acked_grows; eauto.
Qed.

Lemma committed_grows s s' u u' l c :
  grows s s' -> u <= u' -> committed s u l c -> committed s' u' l c.
Proof.
  intros Hg Hu (t & p & r & Hle & Hc & Hcp & Hr & E).
  destruct (gr_reign _ _ Hg _ _ Hr) as (r' & Hr' & _ & _ & Hp). exists t, p, r'.
  split_and!; [lia|by eapply chosen_grows|done|done|]. rewrite E. symmetry. apply take_prefix; [done|].
  destruct Hc as (? & r0 & _ & Hr0 & H & _). rewrite Hr in Hr0. simplify_eq. apply has_lt in H. lia.
Qed.

(** Coverage survives while the node acknowledges nothing before [u]. *)
Lemma covers_grows s s' v l u :
  sp_inv s -> grows s s' -> (forall t m, t < u -> sp_ack s' v t m -> sp_ack s v t m) ->
  covers s v l u -> covers s' v l u.
Proof.
  intros Hi Hg Ha Hc t p r' Ht (m & Hm & Hp) Hr' H. specialize (Ha t m Ht Hm).
  destruct (si_ack s Hi v t m Ha) as (_ & r & Hr & Hlen).
  destruct (gr_reign _ _ Hg _ _ Hr) as (r'' & Hr'' & _ & _ & Hpre). rewrite Hr' in Hr''. simplify_eq.
  destruct (Hc t p r Ht) as [?|Hw]; [by exists m|done| |by left|right; by eapply without_grows].
  eapply has_take; [|exact H]. apply take_prefix; [done|lia].
Qed.

Lemma covers_sooner s v l u u' : u' <= u -> (forall t' r, u' <= t' < u -> sp_reign s t' = Some r -> False) ->
  covers s v l u -> covers s v l u'.
Proof.
  intros Hu Hno Hc t p r Ht Ha Hr H. destruct (Hc t p r) as [?|(t' & r' & Ht' & Hr' & Hn)]; auto; [lia|].
  right. exists t', r'. split; [|done]. destruct (decide (t' < u')); [lia|].
  exfalso. eapply (Hno t'); [lia|done].
Qed.

Lemma covers_later s v l u u' :
  (forall t m, u <= t < u' -> ~ sp_ack s v t m) -> covers s v l u -> u <= u' -> covers s v l u'.
Proof.
  intros Hno Hc Hu t p r Ht Ha Hr H. destruct (decide (t < u)) as [Hlt|Hge].
  - destruct (Hc t p r Hlt Ha Hr H) as [?|Hw]; [by left|right; by eapply without_later].
  - destruct Ha as (m & Hm & _). destruct (Hno t m); [lia|done].
Qed.

(** A step that leaves reigns and acknowledgements alone. *)
Lemma grows_same s s' : sp_reign s' = sp_reign s -> (forall v t m, sp_ack s v t m -> sp_ack s' v t m) ->
  grows s s'.
Proof.
  intros E Ha. constructor; [|done]. intros u r Hr. exists r. rewrite E. by split_and!.
Qed.

Lemma fset_eq {A B} `{EqDecision A} (f : A -> B) x y : fset f x y x = y.
Proof. unfold fset. by rewrite decide_True. Qed.

Lemma fset_ne {A B} `{EqDecision A} (f : A -> B) x y z : z <> x -> fset f x y z = f z.
Proof. intros H. unfold fset. by rewrite decide_False. Qed.

(** Raising a term: what the invariant says about the node still holds. *)
Lemma kept_later s v u :
  sp_inv s -> sp_term s v <= u -> covers s v (sp_log s v) (u + 1).
Proof.
  intros Hi Hle. apply (covers_later s v _ (sp_term s v + 1)); [|by apply si_kept|lia].
  intros t m Ht Ha. destruct (si_ack s Hi v t m Ha). lia.
Qed.

(** ** Preservation *)

(** Steps that raise a term and record campaigns and votes. *)
Lemma inv_raise s v u cand' vote' :
  sp_inv s -> sp_term s v <= u ->
  (forall k C, sp_cand s k = Some C -> cand' k = Some C) ->
  (forall c w C, cand' (c, w) = Some C -> sp_cand s (c, w) = Some C \/
     (c = v /\ w = u /\ C = sp_log s v /\ sp_term s v < u)) ->
  (forall v' c w, sp_vote s v' c w -> vote' v' c w) ->
  (forall v' c w, vote' v' c w -> sp_vote s v' c w \/
     (v' = v /\ w = u /\ (forall c', vote' v c' u -> c' = c) /\
      exists C, cand' (c, u) = Some C /\ (sp_reign s u = None -> covers s v C u))) ->
  sp_inv (Spec (fset (sp_term s) v u) (sp_log s) (sp_reign s) cand' vote' (sp_ack s) (sp_known s) (sp_said s)).
Proof.
  intros Hi Hu Hcm Hcn Hvm Hvn. set (s' := Spec _ _ _ _ _ _ _ _).
  assert (grows s s') as Hg by by apply grows_same.
  assert (forall x, sp_term s x <= sp_term s' x) as Hmono.
  { intros x. subst s'. unfold fset. simpl. case_decide; [subst; lia|lia]. }
  assert (forall w l x, covers s x l w -> covers s' x l w) as Hcov.
  { intros w l x. by apply covers_grows. }
  constructor; simpl.
  - intros x. eapply (reigned_grows s); [done|by apply si_match].
  - intros x p t H. specialize (Hmono x). apply (si_bound s Hi) in H. simpl in Hmono. lia.
  - intros x. specialize (Hmono x). pose proof (si_term s Hi x). simpl in Hmono. lia.
  - intros w r Hr. destruct (si_reign s Hi w r Hr) as (H1 & H2 & H3).
    split_and!; [done|by eapply (reigned_grows s)|done].
  - intros w r Hr. destruct (si_owner s Hi w r Hr) as (H1 & H2 & H3).
    pose proof (Hmono (r_owner r)) as Hm. simpl in Hm. split_and!; [lia| |by apply Hcm].
    intros E. apply H2. lia.
  - intros c w C HC. destruct (Hcn c w C HC) as [HC'|(-> & -> & -> & Hlt)].
    + destruct (si_cand s Hi c w C HC') as (H1 & H2 & H3 & H4).
      pose proof (Hmono c) as Hm. simpl in Hm.
      split_and!; [by eapply (reigned_grows s)|done|lia|lia|]. intros E. apply H4. lia.
    + pose proof (si_term s Hi v) as H0.
      split_and!; [eapply (reigned_grows s); [done|by apply si_match]| |lia|rewrite fset_eq; lia|done].
      intros p t H. apply (si_bound s Hi) in H. lia.
  - intros x c w H. pose proof (Hmono x) as Hm. simpl in Hm.
    destruct (Hvn x c w H) as [H'|(-> & -> & _)]; [apply (si_vote s Hi) in H'; lia|rewrite fset_eq; lia].
  - intros x c c' w H H'.
    destruct (Hvn x c w H) as [H1|(-> & -> & Hun & _)]; [|symmetry; by apply Hun].
    destruct (Hvn x c' w H') as [H2|(-> & -> & Hun & _)]; [|by apply Hun]. by eapply (si_unique s Hi).
  - intros x c w H. destruct (Hvn x c w H) as [H1|(-> & -> & _ & C & HC & Hc)].
    + destruct (si_pre s Hi x c w H1) as (C & HC & Hc). exists C. split; [by apply Hcm|]. intros. by apply Hcov, Hc.
    + exists C. split; [done|]. intros. by apply Hcov, Hc.
  - intros w r Hr. destruct (si_quorum s Hi w r Hr) as (q & Hq & Hv). exists q. split; [done|].
    intros x Hx. destruct (Hv x Hx). split; [by apply Hvm|by apply Hcov].
  - intros x t m H. destruct (si_ack s Hi x t m H) as (H1 & H2). pose proof (Hmono x) as Hm. simpl in Hm.
    split; [lia|done].
  - intros x. apply Hcov. unfold fset. case_decide as E; [subst x; by apply kept_later|by apply si_kept].
  - intros x c H. eapply (committed_grows s); [done|apply (Hmono x)|by apply si_known].
  - intros w n H. destruct (si_said s Hi w n H) as (t & p & H1 & H2 & H3). exists t, p.
    split_and!; [done|by eapply chosen_grows|done].
Qed.

Lemma inv_observe s v u :
  sp_inv s -> sp_term s v <= u ->
  sp_inv (Spec (fset (sp_term s) v u) (sp_log s) (sp_reign s) (sp_cand s) (sp_vote s) (sp_ack s)
    (sp_known s) (sp_said s)).
Proof. intros Hi Hu. apply inv_raise; auto. Qed.

Lemma inv_campaign s c u :
  sp_inv s -> sp_term s c < u ->
  sp_inv (Spec (fset (sp_term s) c u) (sp_log s) (sp_reign s) (fset (sp_cand s) (c, u) (Some (sp_log s c)))
    (fun v c' t => (v = c /\ c' = c /\ t = u) \/ sp_vote s v c' t) (sp_ack s) (sp_known s) (sp_said s)).
Proof.
  intros Hi Hu. apply inv_raise; auto.
  - lia.
  - intros [c' w] C HC. unfold fset. case_decide as E; [|done]. simplify_eq.
    destruct (si_cand s Hi _ _ _ HC) as (_ & _ & ? & _). lia.
  - intros c' w C. unfold fset. case_decide as E; [|auto]. simplify_eq. intros [= <-]. right. by split_and!.
  - intros v' c' w [(-> & -> & ->)|H]; [right|by left]. split_and!; auto.
    + intros c'' [(_ & -> & _)|H]; [done|]. apply (si_vote s Hi) in H. lia.
    + exists (sp_log s c). rewrite fset_eq. split; [done|]. intros _.
      pose proof (kept_later s c (u - 1) Hi ltac:(lia)) as Hk. by replace (u - 1 + 1) with u in Hk by lia.
Qed.

Lemma inv_grant_vote s v c u C :
  sp_inv s -> sp_cand s (c, u) = Some C -> sp_term s v <= u -> (forall c', sp_vote s v c' u -> c' = c) ->
  up_to_date C (sp_log s v) ->
  sp_inv (Spec (fset (sp_term s) v u) (sp_log s) (sp_reign s) (sp_cand s)
    (fun v' c' t => (v' = v /\ c' = c /\ t = u) \/ sp_vote s v' c' t) (sp_ack s) (sp_known s) (sp_said s)).
Proof.
  intros Hi HC Hu Hun Hup. apply inv_raise; auto.
  intros v' c' w [(-> & -> & ->)|H]; [right|by left]. split_and!; auto.
  { intros c'' [(_ & -> & _)|H]; auto. }
  exists C. split; [done|]. intros Hno t p r Ht Ha Hr H.
  destruct (si_cand s Hi c u C HC) as (HmC & HbC & _).
  destruct (kept_later s v u Hi Hu t p r ltac:(lia) Ha Hr H) as [HL|(t' & r' & Ht' & Hr' & Hn)].
  - apply (up_to_date_covers s C (sp_log s v)); auto. by apply si_match.
  - right. exists t', r'. split_and!; try done; [lia|]. destruct (decide (t' = u)); [congruence|lia].
Qed.

Lemma reigned_snoc s s' l e r :
  grows s s' -> reigned s l -> sp_reign s' (Term e) = Some r -> r_log r = l ++ [e] -> reigned s' (l ++ [e]).
Proof.
  intros Hg Hm Hr El p t H. pose proof (has_lt _ _ _ H) as Hp. rewrite length_app in Hp. simpl in Hp.
  destruct (decide (p < length l)%nat) as [Hlt|Hge].
  - destruct (reigned_grows s s' l Hg Hm p t) as (r' & Hr' & E).
    { eapply has_take; [|exact H]. by rewrite take_app_le by lia. }
    exists r'. split; [done|]. by rewrite take_app_le by lia.
  - assert (p = length l) as -> by lia. apply has_entry in H as (e' & He & <-).
    rewrite lookup_app_r, Nat.sub_diag in He by lia. simpl in He. simplify_eq. exists r.
    by rewrite El.
Qed.

(** The leader of a term appends an entry: at the start of its reign or
    during it. *)
Lemma inv_lead s c u start l e :
  sp_inv s -> sp_term s c = u -> sp_log s c = l -> Term e = u -> 0 < u ->
  (forall r, sp_reign s u = Some r -> r_owner r = c /\ r_start r = start /\ r_log r = l) ->
  (exists tail, l = start ++ tail /\ Forall (fun e => Term e = u) tail) ->
  sp_cand s (c, u) = Some start ->
  (exists q, majority q V /\ forall v, v ∈ q -> sp_vote s v c u /\ covers s v start u) ->
  sp_inv (Spec (sp_term s) (fset (sp_log s) c (l ++ [e])) (fset (sp_reign s) u (Some (Reign c start (l ++ [e]))))
    (sp_cand s) (sp_vote s) (fun v t m => (v = c /\ t = u /\ m = S (length l)) \/ sp_ack s v t m)
    (sp_known s) (sp_said s)).
Proof.
  intros Hi Et El Ee Hu Hold (tail & Etl & Htl) Hcand Hq. set (s' := Spec _ _ _ _ _ _ _ _).
  assert (grows s s') as Hg.
  { constructor; simpl; [|auto]. intros w r Hr. unfold fset. case_decide as E; [|exists r; by split_and!].
    subst w. destruct (Hold r Hr) as (-> & -> & ->). eexists. split_and!; try done. by eexists. }
  assert (sp_reign s' u = Some (Reign c start (l ++ [e]))) as Hr' by (simpl; by rewrite fset_eq).
  destruct (si_cand s Hi c u start Hcand) as (Hms & Hbs & _).
  assert (reigned s l) as Hml by (rewrite <- El; by apply si_match).
  assert (reigned s' (l ++ [e])) as Hme by (eapply reigned_snoc; [done|done|rewrite Ee; exact Hr'|done]).
  assert (forall w x k, covers s x k w -> (x = c -> w <= u) -> covers s' x k w) as Hcov.
  { intros w x k Hc Hx. apply (covers_grows s); auto. intros t m Ht [(-> & -> & _)|H]; [|done].
    specialize (Hx eq_refl). lia. }
  constructor; simpl.
  - intros x. unfold fset. case_decide; [done|]. eapply (reigned_grows s); [done|by apply si_match].
  - intros x p t H. unfold fset in H. case_decide as E; [|by apply (si_bound s Hi) in H]. subst x.
    apply has_entry in H as (e' & He & <-). apply lookup_app_Some in He as [He|[_ He]].
    + apply (si_bound s Hi c p). rewrite El. apply has_entry. eauto.
    + apply list_lookup_singleton_Some in He as [_ <-]. lia.
  - apply (si_term s Hi).
  - intros w r. unfold fset. case_decide as E.
    + subst w. intros [= <-]. simpl. split_and!; [done|done|]. exists (tail ++ [e]).
      rewrite Etl, <- app_assoc. split_and!; [done| |done]. apply Forall_app. by split; [|constructor].
    + intros Hr. destruct (si_reign s Hi w r Hr) as (H1 & H2 & H3). split_and!; [done| |done].
      by eapply (reigned_grows s).
  - intros w r. unfold fset. case_decide as E.
    + subst w. intros [= <-]. simpl. rewrite decide_True by done. split_and!; [lia|done|done].
    + intros Hr. destruct (si_owner s Hi w r Hr) as (H1 & H2 & H3). split_and!; [done| |done].
      intros E2. case_decide as E3; [|by apply H2]. congruence.
  - intros c' w C HC. destruct (si_cand s Hi c' w C HC) as (H1 & H2 & H3 & H4).
    split_and!; [by eapply (reigned_grows s)|done|lia|lia|]. intros E1 Hno. unfold fset in *.
    destruct (decide (w = u)) as [->|Hw]; [done|]. case_decide as E3; [congruence|by apply H4].
  - apply (si_vote s Hi).
  - apply (si_unique s Hi).
  - intros x c' w H. destruct (si_pre s Hi x c' w H) as (C & HC & Hc). exists C. split; [done|].
    intros Hno. unfold fset in Hno. case_decide as E; [done|]. apply Hcov; [by apply Hc|].
    intros ->. apply (si_vote s Hi) in H. lia.
  - intros w r. unfold fset. case_decide as E.
    + subst w. intros [= <-]. destruct Hq as (q & Hq & Hv). exists q. split; [done|]. simpl.
      intros x Hx. destruct (Hv x Hx). split; [done|]. by apply Hcov.
    + intros Hr. destruct (si_quorum s Hi w r Hr) as (q & Hq' & Hv). exists q. split; [done|].
      intros x Hx. destruct (Hv x Hx) as [H1 H2]. split; [done|]. apply Hcov; [done|].
      intros ->. apply (si_vote s Hi) in H1. lia.
  - intros x t m [(-> & -> & ->)|H].
    + split; [lia|]. exists (Reign c start (l ++ [e])). rewrite fset_eq. split; [done|]. simpl.
      rewrite length_app. simpl. lia.
    + destruct (si_ack s Hi x t m H) as (H1 & r & H2 & H3). split; [done|].
      destruct (gr_reign _ _ Hg _ _ H2) as (r' & H4 & _ & _ & Hp). exists r'. split; [done|].
      apply prefix_length in Hp. lia.
  - intros x. unfold fset. case_decide as E; [subst x|by apply Hcov; [apply si_kept|]].
    intros t p r Ht Ha Hr H. destruct (decide (t = u)) as [->|Hne].
    { left. rewrite Hr' in Hr. by simplify_eq. }
    destruct Ha as (m & [(_ & ? & _)|Hm] & Hp); [lia|]. simpl in Hr. rewrite fset_ne in Hr by done.
    destruct (si_kept s Hi c t p r) as [H1|Hw]; [lia|by exists m|done|done|left|right].
    + rewrite El in H1. eapply has_prefix; [|exact H1]. by exists [e].
    + eapply (without_grows s); [done|]. exact Hw.
  - intros x n H. eapply (committed_grows s); [done|done|]. pose proof (si_known s Hi x n H) as Hk.
    unfold fset. case_decide as E; [|done]. subst x. pose proof (committed_length _ _ _ _ Hk) as Hle.
    destruct Hk as (t & p & r & H1 & H2 & H3 & H4 & H5). exists t, p, r. split_and!; auto.
    rewrite El in *. by rewrite take_app_le by lia.
  - intros w n H. destruct (si_said s Hi w n H) as (t & p & H1 & H2 & H3). exists t, p.
    split_and!; [done|by eapply chosen_grows|done].
Qed.

(** Steps that only add to the history. *)
Lemma inv_history s ack' known' said' :
  sp_inv s ->
  (forall v t m, sp_ack s v t m -> ack' v t m) ->
  (forall v t m, ack' v t m -> sp_ack s v t m \/ (sp_term s v = t /\
     exists r, sp_reign s t = Some r /\ (m <= length (r_log r))%nat /\ take m (sp_log s v) = take m (r_log r))) ->
  (forall v c, known' v c -> sp_known s v c \/ committed s (sp_term s v) (sp_log s v) c) ->
  (forall u n, said' u n -> sp_said s u n \/ exists t p, t <= u /\ chosen s t p /\ (n <= S p)%nat) ->
  sp_inv (Spec (sp_term s) (sp_log s) (sp_reign s) (sp_cand s) (sp_vote s) ack' known' said').
Proof.
  intros Hi Ham Han Hk Hs. set (s' := Spec _ _ _ _ _ _ _ _).
  assert (grows s s') as Hg by by apply grows_same.
  assert (forall w x l, covers s x l w -> w <= sp_term s x -> covers s' x l w) as Hcov.
  { intros w x l Hc Hw. apply (covers_grows s); auto. intros t m Ht H.
    destruct (Han x t m H) as [?|[? _]]; [done|lia]. }
  constructor; simpl; try apply Hi.
  - intros x c w H. destruct (si_pre s Hi x c w H) as (C & HC & Hc). exists C. split; [done|].
    intros Hno. apply Hcov; [by apply Hc|]. by apply (si_vote s Hi x c).
  - intros w r Hr. destruct (si_quorum s Hi w r Hr) as (q & Hq & Hv). exists q. split; [done|].
    intros x Hx. destruct (Hv x Hx) as [H1 H2]. split; [done|]. apply Hcov; [done|].
    by apply (si_vote s Hi x (r_owner r)).
  - intros x t m H. destruct (Han x t m H) as [H'|(<- & r & Hr & Hm & _)]; [by apply (si_ack s Hi)|].
    split; [lia|]. by exists r.
  - intros x t p r Ht (m & Ha & Hp) Hr H.
    destruct (Han x t m Ha) as [Ha'|(<- & r' & Hr' & Hm & E)].
    + destruct (si_kept s Hi x t p r Ht) as [?|Hw]; [by exists m|done|done|by left|right].
      eapply (without_grows s); [done|exact Hw].
    + left. simpl in Hr. rewrite Hr in Hr'. simplify_eq. eapply has_take; [|exact H].
      symmetry. eapply take_le; [|exact E]. lia.
  - intros x c H. eapply (committed_grows s); [done|done|]. destruct (Hk x c H); [by apply si_known|done].
  - intros w n H. assert (exists t p, t <= w /\ chosen s t p /\ (n <= S p)%nat) as (t & p & H1 & H2 & H3).
    { destruct (Hs w n H); [by apply (si_said s Hi)|done]. }
    exists t, p. split_and!; [done|by eapply chosen_grows|done].
Qed.

(** An entry the node's log shares with the reign's survives the merge. *)
Lemma merged_has s L l L' p t :
  reigned s L -> reigned s l -> merged L l L' -> has L p t -> has l p t -> has L' p t.
Proof.
  intros HL Hl [_ Hk] H H'. pose proof (matches_agree s L l p t HL Hl H H') as E.
  eapply has_take; [|exact H]. symmetry. apply Hk; [by apply has_lt in H|done].
Qed.

Lemma reigned_take s l j : reigned s l -> reigned s (take j l).
Proof.
  intros Hm p t H. pose proof (has_lt _ _ _ H) as Hp. rewrite length_take in Hp.
  assert (take (S p) (take j l) = take (S p) l) as E by (rewrite take_take, Nat.min_l by lia; done).
  rewrite E. apply Hm. by eapply has_take.
Qed.

(** A node takes over (a part of) the log of the leader of its term. *)
Lemma inv_merge s v u r L' :
  sp_inv s -> sp_reign s u = Some r -> sp_term s v = u -> merged (sp_log s v) (r_log r) L' ->
  sp_inv (Spec (sp_term s) (fset (sp_log s) v L') (sp_reign s) (sp_cand s) (sp_vote s) (sp_ack s)
    (sp_known s) (sp_said s)).
Proof.
  intros Hi Hr Ht Hmg. pose proof Hmg as [Hpart Hkeep].
  pose proof (si_match s Hi v) as HL. destruct (si_reign s Hi u r Hr) as (_ & Hl & _).
  assert (reigned s L') as HL' by (destruct Hpart as [[j ->]|[j ->]]; by apply reigned_take).
  constructor; simpl; try apply Hi.
  - intros x. unfold fset. case_decide; [done|exact (si_match s Hi x)].
  - intros x p t H. unfold fset in H. case_decide as E; [|by eapply (si_bound s Hi)]. subst x.
    destruct Hpart as [[j ->]|[j ->]];
      (assert (forall l, has (take j l) p t -> has l p t) as Hx
        by (intros l Hx; eapply has_prefix; [apply prefix_take|exact Hx])); apply Hx in H.
    + by eapply (si_bound s Hi).
    + rewrite Ht. by eapply (reign_bound s).
  - intros w r' Hr'. destruct (si_owner s Hi w r' Hr') as (H1 & H2 & H3). split_and!; [done| |done].
    intros E. unfold fset. case_decide as E'; [|by apply H2]. specialize (H2 E). rewrite E' in *.
    assert (r' = r) as -> by congruence. rewrite H2 in *.
    specialize (Hkeep (length (r_log r)) ltac:(lia) eq_refl). rewrite firstn_all in Hkeep.
    assert (length L' <= length (r_log r))%nat by (destruct Hpart as [[j ->]|[j ->]]; rewrite length_take; lia).
    by rewrite take_ge in Hkeep by lia.
  - intros c w C HC. destruct (si_cand s Hi c w C HC) as (H1 & H2 & H3 & H4).
    split_and!; [done|done|lia|lia|].
    intros E Hno. unfold fset. case_decide; [congruence|by apply H4].
  - intros x. unfold fset. case_decide as E; [subst x|exact (si_kept s Hi x)].
    intros t p rt Hlt Ha Hrt H. destruct (si_kept s Hi v t p rt Hlt Ha Hrt H) as [HLp|Hw]; [|by right].
    destruct (decide (has (r_log r) p t)) as [Hlp|Hno]; [left; exact (merged_has s _ _ L' p t HL Hl Hmg HLp Hlp)|].
    right. exists u, r. split_and!; [|lia|done|].
    + destruct (decide (t = u)) as [->|]; [|lia]. simpl in Hrt. rewrite Hr in Hrt. by simplify_eq.
    + intros Hs. by apply Hno, (start_log s u).
  - intros x c H. pose proof (si_known s Hi x c H) as Hc. unfold fset. case_decide as E; [subst x|done].
    pose proof (committed_in_reign s _ _ c u r Hi Hc ltac:(lia) Hr) as Ec.
    pose proof (committed_length _ _ _ _ Hc) as Hlen. pose proof (Hkeep c Hlen Ec) as Ek.
    destruct Hc as (t & p & rt & H1 & H2 & H3 & H4 & H5). exists t, p, rt. split_and!; auto. congruence.
Qed.

Lemma sp_step_inv s s' : sp_inv s -> sp_step s s' -> sp_inv s'.
Proof.
  intros Hi Hst. destruct Hst as [v u Hu|c u Hu|v c u C HC Hu Hun Hup|c u C q e HC Ht Hno Hq Hv He
    |c u r e Hr Ho Ht He|v u r L' Hr Ht Hm|v u r m Hr Ht Hm E|c u r p Hr Ho Ht Hc|u r n Hr Ht Hk
    |v u r m n c Hr Ht Hm E Hs Hn Hc].
  - by apply inv_observe.
  - by apply inv_campaign.
  - by eapply inv_grant_vote.
  - destruct (si_cand s Hi c u C HC) as (_ & _ & Hu & Hlog).
    eapply inv_lead; [done|done|by apply Hlog|done|lia|by rewrite Hno| |done|].
    + exists []. by rewrite app_nil_r.
    + exists q. split; [done|]. intros v Hin. split; [by apply Hv|].
      destruct (si_pre s Hi v c u (Hv v Hin)) as (C' & HC' & Hcov). rewrite HC in HC'. simplify_eq. by apply Hcov.
  - subst c. destruct (si_reign s Hi u r Hr) as (Hu & _ & tail & E1 & E2 & _).
    destruct (si_owner s Hi u r Hr) as (_ & E3 & E4). rewrite (E3 Ht).
    eapply inv_lead; eauto.
    + intros r' Hr'. rewrite Hr in Hr'. by simplify_eq.
    + destruct (si_quorum s Hi u r Hr) as (q & Hq & Hv). by exists q.
  - by eapply inv_merge.
  - apply inv_history; auto. intros v' t m' [(-> & -> & ->)|H]; [right|by left]. split; [done|]. by exists r.
  - apply inv_history; auto. intros v n [[-> ->]|H]; [right|by left].
    exists u, p, r. subst c. destruct (si_owner s Hi u r Hr) as (_ & E & _). rewrite (E Ht).
    split_and!; auto; lia.
  - apply inv_history; auto. intros t m [[-> ->]|H]; [right|by left].
    destruct (si_known s Hi _ _ Hk) as (t & p & r' & H1 & H2 & H3 & _). exists t, p. split_and!; [lia|done|done].
  - apply inv_history; auto. intros v' c' [[-> ->]|H]; [right|by left].
    destruct (si_said s Hi u n Hs) as (t & p & H1 & H2 & H3).
    assert (exists rt, sp_reign s t = Some rt) as [rt Hrt] by (destruct H2 as (? & rt & _ & ? & _); eauto).
    exists t, p, rt. split_and!; [lia|done|lia|done|]. rewrite (take_le _ _ _ _ Hc E).
    apply (take_le _ _ (S p)); [lia|].
    eapply matches_agree; [by eapply si_reign..| |].
    + by apply (chosen_in_reign s t p u).
    + by apply (chosen_in_reign s t p t); [| |lia|].
Qed.

Inductive sp_reach : spec -> Prop :=
| sp_reach_init s : sp_init s -> sp_reach s
| sp_reach_step s s' : sp_reach s -> sp_step s s' -> sp_reach s'.

Lemma sp_reach_inv s : sp_reach s -> sp_inv s.
Proof.
  induction 1 as [s (Hn & Hr & Hc & Hv & Ha & Hk & Hs)|s s' _ IH Hst]; [|by eapply sp_step_inv].
  assert (forall v p t, ~ has (sp_log s v) p t) as Hh.
  { intros v p t H. destruct (Hn v) as [_ E]. rewrite E in H. by apply has_lt in H; simpl in H; lia. }
  assert (forall u r, sp_reign s u <> Some r) as Hr' by (intros u r; by rewrite Hr).
  assert (forall k C, sp_cand s k <> Some C) as Hc' by (intros k C; by rewrite Hc).
  constructor.
  - intros v p t H. by destruct (Hh v p t).
  - intros v p t H. by destruct (Hh v p t).
  - intros v. destruct (Hn v) as [-> _]. lia.
  - intros u r H. by destruct (Hr' u r).
  - intros u r H. by destruct (Hr' u r).
  - intros c u C H. by destruct (Hc' (c, u) C).
  - intros v c u H. by destruct (Hv v c u).
  - intros v c c' u H. by destruct (Hv v c u).
  - intros v c u H. by destruct (Hv v c u).
  - intros u r H. by destruct (Hr' u r).
  - intros v t m H. by destruct (Ha v t m).
  - intros v t p r _ (m & Hm & _). by destruct (Ha v t m).
  - intros v n H. by destruct (Hk v n).
  - intros u n H. by destruct (Hs u n).
Qed.
End protocol.
