(* ===== verification/RaftRepr.v ===== *)
(** * The log a Raft node represents

    [repr K L n]: the memory of the node and its log store hold the log [L],
    and the commit indexes in memory and on disk satisfy [K]. Every handler of
    Raft.v and RaftOps.v that touches log, commit index or hard state is
    described by its effect on [L]; the others are [calm]. The restart from
    disk gives back the same log. *)
From stdpp Require Import base gmap strings list sorting.
From Stdlib Require Import ZArith Lia Strings.Byte.
From S2P Require Import Prelude Membership Raft RaftOps RaftElection RaftLog RaftProps RaftReplication RaftSpec.

Open Scope Z_scope.

(** ** What a node represents *)

(** The hard state on disk is at least as recent as the term in memory, and
    its commit index satisfies [K]. *)
Definition disk_inv (K : Z -> Prop) (n : Node) : Prop :=
  match stable n with
  | None => False
  | Some None => currentTerm n = 0
  | Some (Some h) => currentTerm n <= hs_CurrentTerm h /\ hs_LogBase h = 0 /\ hs_LogBaseTerm h = 0 /\
      K (hs_CommitIndex h)
  end.

(** Memory and log store hold the log [L], commit indexes satisfy [K]. *)
Record repr (K : Z -> Prop) (L : list RaftLogEntry) (n : Node) : Prop := {
  rp_log : log_view n = (base_entry 0 0 :: L, 0, 0);
  rp_index : indexed 1 L;
  rp_len : Z.of_nat (length L) + 2 < 2 ^ 64;
  rp_store : exists st, storage n = Some st /\
    forall j, st !! j = if decide (1 <= j) then L !! Z.to_nat (j - 1) else None;
  rp_commit : K (commitIndex n);
  rp_disk : disk_inv K n;
}.

(** The fields [repr] reads. *)
Definition rview (n : Node) := (log_view n, storage n, commitIndex n, stable n, currentTerm n).

Lemma repr_view K L n n' : rview n' = rview n -> repr K L n -> repr K L n'.
Proof.
  unfold rview. intros E [H1 H2 H3 H4 H5 H6]. injection E as E1 E2 E3 E4 E5 E6 E7.
  constructor; unfold disk_inv, log_view in *; rewrite ?E1, ?E2, ?E3, ?E4, ?E5, ?E6, ?E7; auto.
Qed.

Lemma repr_mono (K K' : Z -> Prop) L n : (forall c, K c -> K' c) -> repr K L n -> repr K' L n.
Proof.
  intros HK [H1 H2 H3 H4 H5 H6]. constructor; auto. unfold disk_inv in *.
  destruct (stable n) as [[h|]|]; auto. destruct H6 as (? & ? & ? & ?). auto.
Qed.

Section repr.
Context (K : Z -> Prop) (L : list RaftLogEntry) (n : Node) (Hn : repr K L n).

Lemma repr_wf : log_wf n.
Proof.
  destruct Hn as [E Hi Hl _ _ _]. unfold log_view in E. injection E as E1 E2 E3.
  constructor; rewrite ?E1, ?E2, ?E3; [lia|by eexists _, _| |cbn [length]; lia].
  by apply indexed_cons.
Qed.

Lemma repr_last : lastLogIndexLocked n = Z.of_nat (length L).
Proof.
  rewrite (lastLogIndex_wf n repr_wf). destruct Hn as [E _ _ _ _ _]. unfold log_view in E.
  injection E as E1 E2 E3. rewrite E1, E2. cbn [length]. lia.
Qed.

Lemma repr_entry i : 1 <= i -> logEntry n i = L !! Z.to_nat (i - 1).
Proof.
  intros Hi. destruct Hn as [E _ _ _ _ _]. unfold log_view in E. injection E as E1 E2 E3.
  rewrite logEntry_lookup, E1, E2 by lia. by replace (Z.to_nat (i - 0)) with (S (Z.to_nat (i - 1))) by lia.
Qed.

Lemma repr_base : logBase n = 0 /\ logBaseTerm n = 0.
Proof. destruct Hn as [E _ _ _ _ _]. unfold log_view in E. by injection E as E1 E2 E3. Qed.

Lemma repr_term i : 1 <= i -> getLogTerm n i = match L !! Z.to_nat (i - 1) with Some e => Term e | None => 0 end.
Proof.
  intros Hi. destruct repr_base as [Eb _]. unfold getLogTerm. rewrite decide_False by lia.
  by rewrite repr_entry.
Qed.

Lemma repr_last_term : getLogTerm n (lastLogIndexLocked n) = last_term L.
Proof.
  rewrite repr_last. unfold last_term. rewrite last_lookup. destruct (decide (length L = 0%nat)) as [E|E].
  - rewrite E. unfold getLogTerm. destruct repr_base as [Eb Et]. rewrite decide_True by (simpl; lia).
    apply nil_length_inv in E. by rewrite E.
  - rewrite repr_term by lia. by replace (Z.to_nat (Z.of_nat (length L) - 1)) with (pred (length L)) by lia.
Qed.
End repr.

(** ** Writes *)

Lemma persist_rest n io :
  let n' := (persistHardStateLocked n io).1 in
  (log_view n', storage n', commitIndex n', currentTerm n', state n', peers n', matchIndex n') =
  (log_view n, storage n, commitIndex n, currentTerm n, state n, peers n, matchIndex n) /\
  (stable n' = stable n /\ ((persistHardStateLocked n io).2 = true -> stable n = None) \/
   stable n' = Some (Some (hard_of n))).
Proof.
  unfold persistHardStateLocked. destruct (stable n) eqn:E; cbn zeta.
  - destruct io as [|[|]]; simpl; rewrite ?E; (split; [done|]); auto. left. by split.
  - simpl. rewrite E. split; [done|]. by left.
Qed.

(** A successful write leaves the disk up to date. *)
Lemma persist_written n io n' :
  persistHardStateLocked n io = (n', true) -> is_Some (stable n) -> stable n' = Some (Some (hard_of n)).
Proof.
  intros E [o Ho]. destruct (persist_rest n io) as [_ [[H1 H2]|H]]; rewrite E in *; simpl in *; [|done].
  specialize (H2 eq_refl). congruence.
Qed.

(** Writing the hard state keeps what the node represents. *)
Lemma repr_persist K L n io : repr K L n -> repr K L (persistHardStateLocked n io).1.
Proof.
  intros Hn. pose proof (persist_rest n io) as [E Hs]. cbn zeta in *.
  set (n' := (persistHardStateLocked n io).1) in *. clearbody n'. injection E as E1 E2 E3 E4 E5 E6 E7 E8 E9.
  destruct Hn as [H1 H2 H3 H4 H5 H6]. constructor; unfold log_view in *.
  - congruence.
  - done.
  - done.
  - rewrite E4. done.
  - by rewrite E5.
  - unfold disk_inv in *. rewrite E6. destruct Hs as [[-> _]| ->]; [done|]. simpl.
    injection H1 as B1 B2 B3. split_and!; [lia|done|done|done].
Qed.

(** ** Steps that change no log *)

(** The match indexes a leader keeps are the old ones, or zero. *)
Definition prog (n n' : Node) : Prop :=
  state n' = StateLeader -> state n = StateLeader /\ currentTerm n' = currentTerm n /\
  forall id, is_Some (peers n' !! id) -> default 0 (matchIndex n' !! id) = 0 \/
    (is_Some (peers n !! id) /\ matchIndex n' !! id = matchIndex n !! id).

(** No vote, no log entry and no commit index changes. *)
Record calm (n n' : Node) : Prop := {
  cm_quiet : quiet n n';
  cm_repr : forall K L, repr K L n -> repr K L n';
  cm_prog : prog n n';
}.

Lemma prog_trans n1 n2 n3 : prog n1 n2 -> prog n2 n3 -> prog n1 n3.
Proof.
  intros A B H. destruct (B H) as (H2 & T2 & M2). destruct (A H2) as (H1 & T1 & M1).
  split_and!; [done|congruence|]. intros id Hid. destruct (M2 id Hid) as [?|[Hid2 E2]]; [by left|].
  destruct (M1 id Hid2) as [E|[? ?]]; [left; by rewrite E2|right; split; [done|congruence]].
Qed.

#[export] Instance calm_preorder : PreOrder calm.
Proof.
  split.
  - intros n. constructor; [done|auto|]. intros H. split_and!; auto.
  - intros n1 n2 n3 [A1 A2 A3] [B1 B2 B3]. constructor; [by etrans|auto|by eapply prog_trans].
Qed.

(** All the fields [calm] reads. *)
Definition cview (n : Node) := (rview n, core_of n, peers n, matchIndex n).

Lemma calm_view n n' : cview n' = cview n -> calm n n'.
Proof.
  unfold cview. intros E. injection E as E1 E2 E3 E4 E5 E6 E7 E8 E9 E10 E11 E12 E13 E14.
  constructor.
  - apply core_quiet. unfold core_of. congruence.
  - intros K L. apply repr_view. unfold rview, log_view. congruence.
  - intros H. split_and!; [congruence|done|]. intros id. rewrite E13, E14. auto.
Qed.

Lemma calm_persist n io : calm n (persistHardStateLocked n io).1.
Proof.
  constructor; [apply quiet_persist|intros K L; apply repr_persist|].
  destruct (persist_rest n io) as [E _]. cbn zeta in E. injection E as E1 E2 E3 E4 E5 E6 E7 E8 E9.
  intros H. split_and!; [congruence|done|]. intros id. rewrite E8, E9. auto.
Qed.

Lemma calm_follower n n' : calm n n' -> calm n (set_state StateFollower n').
Proof.
  intros [A B C]. constructor; [by apply quiet_follower|intros K L Hr|done].
  eapply repr_view; [|by apply B]. done.
Qed.

(** Taking a higher term from a message. *)
Lemma calm_becomeFollower n term io now : currentTerm n < term -> calm n (becomeFollower n term io now).1.
Proof.
  intros Ht. constructor; [by apply quiet_becomeFollower| |].
  - intros K L Hn. unfold becomeFollower.
    pose proof (persist_rest (set_votedFor "" (set_currentTerm term n)) io) as [E Hs]. cbn zeta in *.
    assert (is_Some (stable n)) as Hst.
    { pose proof (rp_disk _ _ _ Hn) as Hd. unfold disk_inv in Hd. destruct (stable n); [by eexists|done]. }
    destruct Hn as [R1 R2 R3 R4 R5 R6].
    destruct (persistHardStateLocked _ io) as [n1 [|]] eqn:Ep; cbn [fst snd] in *;
      injection E as E1 E2 E3 E4 E5 E6 E7 E8 E9; cbn in E1, E2, E3, E4, E5, E6.
    + assert (stable n1 = Some (Some (HardState term "" (commitIndex n) (lastApplied n) (logBase n) (logBaseTerm n)))) as Es.
      { destruct Hs as [[_ Hs]|Hs]; [|done]. specialize (Hs eq_refl). simpl in Hs.
        destruct Hst as [? Hst]. congruence. }
      eapply (repr_view _ _ n1).
      { destruct (decide _), (bool_decide _); done. }
      unfold log_view in R1. injection R1 as B1 B2 B3.
      constructor; unfold log_view; rewrite ?E1, ?E2, ?E3, ?E4, ?E5; auto; [congruence|].
      unfold disk_inv. rewrite Es, E6. simpl. split_and!; [lia|done|done|done].
    + unfold log_view in R1. injection R1 as B1 B2 B3.
      constructor; unfold log_view; cbn; rewrite ?E1, ?E2, ?E3, ?E4, ?E5; auto; [congruence|].
      unfold disk_inv in *. cbn. destruct Hs as [[Hs _]|Hs]; rewrite Hs; [exact R6|]. simpl.
      split_and!; [lia|done|done|done].
  - unfold becomeFollower.
    pose proof (persist_rest (set_votedFor "" (set_currentTerm term n)) io) as [E _]. cbn zeta in *.
    destruct (persistHardStateLocked _ io) as [n1 [|]]; cbn [fst] in *;
      injection E as E1 E2 E3 E4 E5 E6 E7 E8 E9; cbn in E6, E7, E8, E9.
    + intros H. exfalso. revert H. destruct (decide _), (bool_decide _); done.
    + intros H. cbn in H. split_and!; [congruence|done|]. cbn. intros id. rewrite E8, E9. auto.
Qed.

Section calm.
Context {MC : MembershipCodec}.

Lemma sync_progress_lookup v old union (m : gmap string Z) id :
  is_Some (union !! id) ->
  sync_progress true v old union m !! id = if decide (old !! id = None) then Some v else m !! id.
Proof.
  intros [x Hx]. unfold sync_progress. rewrite map_lookup_filter. case_decide as E.
  - rewrite (lookup_union_Some_l _ _ _ v); [simpl; by rewrite option_guard_True by (left; by eexists)|].
    rewrite lookup_fmap, map_lookup_filter, Hx. simpl. by rewrite option_guard_True.
  - rewrite lookup_union_r.
    + destruct (m !! id); simpl; [|done]. rewrite option_guard_True; [done|]. left. by eexists.
    + rewrite lookup_fmap, map_lookup_filter, Hx. simpl. by rewrite option_guard_False.
Qed.

(** Re-reading the configuration: new peers start at zero. *)
Lemma calm_refresh n : calm n (refreshMembershipLocked n).
Proof.
  constructor; [apply core_quiet, core_refresh| |].
  - intros K L. apply repr_view. unfold refreshMembershipLocked. by destruct (fold_log _ _ _ _).
  - unfold refreshMembershipLocked. destruct (fold_log _ _ _ _) as [latest idx].
    set (n1 := set_membershipLatestIndex _ _).
    intros H. assert (state n1 = StateLeader) as Hs by done. split_and!; [done|done|].
    intros id. unfold syncPeersLocked. rewrite Hs. cbn [peers matchIndex set_peers set_matchIndex
      set_nextIndex set_selfAbsent set_selfNonVoter].
    rewrite bool_decide_eq_true_2 by done. rewrite map_lookup_imap.
    destruct (union_members _ _ latest !! id) as [m|] eqn:Eu; [|intros [? ?]; done].
    intros _. rewrite sync_progress_lookup by (rewrite Eu; by eexists).
    change (peers n1) with (peers n). change (matchIndex n1) with (matchIndex n).
    case_decide as E; [by left|]. right. split; [|done]. destruct (peers n !! id); [by eexists|done].
Qed.

Lemma calm_stepDown n now : calm n (stepDownLocked n now).
Proof.
  unfold stepDownLocked. case_decide; [|done].
  etrans; [by apply (calm_follower n n)|by apply calm_view].
Qed.

Lemma calm_handleHeartbeat n req io now : calm n (handleHeartbeat n req io now).1.
Proof.
  unfold handleHeartbeat. case_decide as Hle; [|done].
  set (r := if decide (hb_Term req > currentTerm n) then _ else _).
  assert (calm n r.1) as Hr.
  { subst r. case_decide as Hgt; [|done]. apply calm_becomeFollower. lia. }
  destruct r as [n1 [|]]; cbn [fst negb] in *; [|done].
  set (n2 := set_leaderID _ _). assert (calm n n2) as H2 by (etrans; [exact Hr|by apply calm_view]).
  clearbody n2. set (n3 := if decide (state n2 = StateLeader) then _ else n2).
  assert (calm n n3) as H3.
  { etrans; [exact H2|]. subst n3. case_decide; [|done].
    etrans; [apply (calm_stepDown n2 now)|by apply calm_view]. }
  clearbody n3. case_decide; [by apply calm_follower|done].
Qed.

Lemma calm_handleVoteResponse n term respTerm io now : calm n (handleVoteResponse n term respTerm io now).
Proof. unfold handleVoteResponse. case_decide; [|done]. apply calm_becomeFollower. lia. Qed.

Lemma calm_checkQuorum n now : calm n (checkQuorum n now).
Proof.
  unfold checkQuorum. case_decide; [done|]. cbv zeta. case_decide; [done|].
  destruct (quorumAckedSinceLocked _ _ _); [done|apply calm_stepDown].
Qed.

Lemma calm_markPeerAck n peer term sentAt : calm n (markPeerAck n peer term sentAt).
Proof.
  unfold markPeerAck. destruct (peers n !! peer) as [p|] eqn:E; [|done]. case_decide; [|done].
  constructor; [by apply core_quiet|intros K L; by apply repr_view|].
  intros Hs. split_and!; auto. cbn. intros id Hid. right. split; [|done].
  destruct (decide (id = peer)) as [->|Hne]; [by eexists|by rewrite lookup_insert_ne in Hid].
Qed.

Section apply.
Context {F : Type} (fsm_Apply : F -> RaftLogEntry -> F * option apply_error)
  (isRetryable : apply_error -> bool) (fsm_Set : F -> Z -> F).

Lemma calm_notifyApply i t err n : calm n (notifyApply i t err n).
Proof. unfold notifyApply. destruct (applyWaiters n !! i); [by apply calm_view|done]. Qed.

Lemma calm_applyMembership n e : calm n (applyMembershipEntry n e).
Proof.
  unfold applyMembershipEntry. cbv zeta.
  set (m := refreshMembershipLocked _).
  assert (calm n m) as Hm by (subst m; etrans; [|apply calm_refresh]; by apply calm_view).
  etrans; [exact Hm|]. clearbody m. destruct (_ && _); [by apply calm_view|].
  destruct (_ && _); [by apply calm_view|done].
Qed.

Lemma calm_apply_entry n f e : calm n (apply_entry fsm_Apply n f e).1.1.
Proof.
  unfold apply_entry. case_decide.
  - destruct (decodeMembershipEntry _); [apply calm_applyMembership|done].
  - by destruct (fsm_Apply f e).
Qed.

Lemma calm_persistApplied n io : calm n (persistApplied n io).1.
Proof.
  unfold persistApplied. pose proof (calm_persist n io) as Hp.
  destruct (persistHardStateLocked n io) as [n1 ok]. etrans; [exact Hp|by apply calm_view].
Qed.

Lemma calm_skip n i io : calm n (skipCommittedEntry n i io).1.
Proof.
  unfold skipCommittedEntry. pose proof (calm_persist (set_lastApplied i n) io) as Hp.
  assert (calm n (set_lastApplied i n)) as H0 by by apply calm_view.
  destruct (persistHardStateLocked _ io) as [n1 [|]]; cbn [fst] in *; [by etrans|].
  etrans; [exact H0|]. etrans; [exact Hp|by apply calm_view].
Qed.

Lemma calm_processCommitted fuel n f commit u k io :
  calm n (processCommitted fsm_Apply isRetryable fsm_Set fuel n f commit u k io).1.1.
Proof.
  revert n f u k. induction fuel as [|fuel IH]; intros n f u k; [done|]. cbn [processCommitted].
  case_decide.
  { destruct (_ || _); [|done]. pose proof (calm_persistApplied n (io k)) as Hp.
    by destruct (persistApplied n (io k)) as [n1 [|]]. }
  cbv zeta. destruct (logEntry _ _) as [entry|]; [|done].
  pose proof (calm_apply_entry n f entry) as Ea.
  destruct (apply_entry fsm_Apply n f entry) as [[n1 f1] [err|]]; cbn [fst] in Ea; (etrans; [exact Ea|]).
  - destruct (isRetryable err); [apply calm_notifyApply|].
    pose proof (calm_skip n1 (u64 (lastApplied n + 1)) (io k)) as Hs.
    destruct (skipCommittedEntry _ _ _) as [n2 [|]]; cbn [fst] in *; [|done].
    etrans; [exact Hs|]. etrans; [apply calm_notifyApply|apply IH].
  - set (n2 := notifyApply _ _ _ _).
    assert (calm n1 n2) as H2 by (subst n2; etrans; [|apply calm_notifyApply]; by apply calm_view).
    clearbody n2. etrans; [exact H2|]. case_decide; [|apply IH].
    pose proof (calm_persistApplied n2 (io k)) as Hp.
    destruct (persistApplied n2 (io k)) as [n3 [|]]; cbn [fst] in *; [|done]. by etrans.
Qed.
End apply.
End calm.

(** ** Writes to the log *)

(** A write to the log store happens or does not. *)
Definition store_atomic (io : store_io) : Prop := io = StoreOk \/ io = StoreFailed 0.
Definition delete_atomic (io : delete_io) : Prop := io = DeleteOk \/ io = DeleteFailed 0.

Lemma store_entries_lookup st es base j :
  indexed base es ->
  store_entries st es !! j =
  if decide (base <= j < base + Z.of_nat (length es)) then es !! Z.to_nat (j - base) else st !! j.
Proof.
  revert st base. induction es as [|e es IH]; intros st base Hi.
  { simpl. by rewrite decide_False by lia. }
  apply indexed_cons in Hi as [He Hi]. unfold store_entries. cbn [foldl]. fold (store_entries (<[Index e:=e]> st) es).
  rewrite (IH _ _ Hi), He. cbn [length]. destruct (decide (j = base)) as [->|Hne].
  - rewrite decide_False, decide_True, Z.sub_diag by lia. by rewrite lookup_insert_eq.
  - rewrite lookup_insert_ne by done.
    destruct (decide (base + 1 <= j < base + 1 + Z.of_nat (length es))).
    + rewrite decide_True by lia. by replace (Z.to_nat (j - base)) with (S (Z.to_nat (j - (base + 1)))) by lia.
    + by rewrite decide_False by lia.
Qed.

(** Role, votes and progress. *)
Definition mview (n : Node) := (core_of n, peers n, matchIndex n).

Lemma mview_StoreLogs n es io : mview (StoreLogs n es io).1 = mview n.
Proof. unfold StoreLogs. destruct (storage n); [|done]. by destruct io. Qed.

Lemma prog_view n n' : mview n' = mview n -> prog n n'.
Proof.
  unfold mview. intros E. injection E as E1 E2 E3 E4 E5 E6 E7. intros H.
  split_and!; [congruence|done|]. intros id. rewrite E6, E7. auto.
Qed.

Lemma repr_store K L n app io :
  repr K L n -> indexed (1 + Z.of_nat (length L)) app -> Z.of_nat (length (L ++ app)) + 2 < 2 ^ 64 ->
  store_atomic io ->
  match StoreLogs n app io with
  | (n', true) => repr K (L ++ app) (set_log (log n' ++ app) n')
  | (n', false) => cview n' = cview n
  end.
Proof.
  intros [R1 R2 R3 (st & Es & R4) R5 R6] Hi Hb Hio. unfold StoreLogs. rewrite Es.
  destruct Hio as [->| ->].
  - unfold log_view in R1. injection R1 as B1 B2 B3. constructor; cbn; auto.
    + unfold log_view. cbn. by rewrite B1, B2, B3.
    + by apply indexed_app.
    + eexists. split; [done|]. intros j. rewrite (store_entries_lookup _ _ _ _ Hi), R4.
      destruct (decide (1 + Z.of_nat (length L) <= j < _)) as [Hj|Hj].
      * rewrite decide_True, lookup_app_r by lia. f_equal. lia.
      * destruct (decide (1 <= j)); [|done]. rewrite length_app in Hb.
        destruct (decide (j <= Z.of_nat (length L))) as [Hle|Hgt].
        -- by rewrite lookup_app_l by lia.
        -- rewrite (lookup_ge_None_2 L), (lookup_ge_None_2 (L ++ app)); rewrite ?length_app; [done|lia..].
  - unfold cview, rview, log_view, core_of. cbn. by rewrite Es.
Qed.

Lemma repr_append K L n e io :
  repr K L n -> Z.of_nat (length L) + 3 < 2 ^ 64 -> store_atomic io ->
  match appendEntry n e io with
  | (n', true) => repr K (L ++ [MkEntry (Z.of_nat (length L) + 1) (Term e) (Type_ e) (Data e)]) n' /\
      mview n' = mview n
  | (n', false) => cview n' = cview n
  end.
Proof.
  intros Hn Hb Hio. unfold appendEntry. rewrite (repr_last K L n Hn), u64_small by lia.
  set (x := MkEntry _ _ _ _). pose proof (mview_StoreLogs n [x] io) as Hm.
  assert (indexed (1 + Z.of_nat (length L)) [x]) as Hi
    by (apply indexed_cons; split; [simpl; lia|apply indexed_nil]).
  pose proof (repr_store K L n [x] io Hn Hi ltac:(rewrite length_app; simpl; lia) Hio) as H.
  by destruct (StoreLogs n [x] io) as [n1 [|]].
Qed.

(** ** Reconciliation *)

Lemma repr_truncate K L n at_ io :
  repr K L n -> 1 <= at_ <= Z.of_nat (length L) -> delete_atomic io ->
  match truncate_log n at_ io with
  | (n', true) => repr K (take (Z.to_nat (at_ - 1)) L) n'
  | (n', false) => cview n' = cview n
  end /\ mview (truncate_log n at_ io).1 = mview n.
Proof.
  intros Hn Hat Hio. pose proof (repr_last K L n Hn) as Hl. pose proof (repr_base K L n Hn) as [Hb _].
  pose proof Hn as [R1 R2 R3 (st & Es & R4) R5 R6].
  unfold truncate_log. rewrite decide_True by lia. unfold DeleteRange. rewrite Es.
  unfold log_view in R1. injection R1 as B1 B2 B3.
  destruct Hio as [->| ->]; (split; [|done]).
  - unfold failPendingFutures, logPosition. cbn. rewrite B1, B2. cbn [length].
    rewrite !decide_False by lia. cbn [from_option id]. constructor; cbn; auto.
    + unfold log_view. cbn. rewrite B2, B3. replace (Z.to_nat (at_ - 0)) with (S (Z.to_nat (at_ - 1))) by lia. done.
    + intros k e Hk. rewrite lookup_take in Hk. case_decide; [|done]. by apply R2.
    + rewrite length_take. lia.
    + eexists. split; [done|]. intros j. unfold delete_range. rewrite map_lookup_filter, R4, Hl.
      case_decide as Hj; [|done]. rewrite lookup_take.
      destruct (decide (Z.to_nat (j - 1) < Z.to_nat (at_ - 1))%nat) as [Hlt|Hge].
      * destruct (L !! Z.to_nat (j - 1)); simpl; [|done]. rewrite option_guard_True; [done|]. simpl. lia.
      * destruct (L !! Z.to_nat (j - 1)) eqn:Ej; simpl; [|done]. apply lookup_lt_Some in Ej.
        rewrite option_guard_False; [done|]. simpl. intros Hx. apply Hx. lia.
  - unfold cview, rview, log_view, core_of. cbn. rewrite Es. repeat f_equal.
    apply map_filter_id. intros j e Hj. simpl. rewrite R4 in Hj. case_decide; [lia|done].
Qed.

Section reconcile.
Context {MC : MembershipCodec} (K : Z -> Prop).

(** The log after reconciling [L] with entries that follow index [prev]. *)
Definition joined (L : list RaftLogEntry) (keep prev : nat) (es : list RaftLogEntry) : list RaftLogEntry :=
  take keep L ++ stamp (1 + Z.of_nat keep) (drop (keep - prev) es).

Definition conflict_pos (n : Node) (req : AppendEntriesRequest) : option nat :=
  (fun i => Z.to_nat (i - 1)) <$> find_conflict n (ae_PrevLogIndex req + 1) (ae_Entries req).

Lemma repr_reconcile L n req io1 io2 prev :
  repr K L n -> ae_PrevLogIndex req = Z.of_nat prev -> (prev <= length L)%nat ->
  Z.of_nat (prev + length (ae_Entries req)) + 2 < 2 ^ 64 -> delete_atomic io1 -> store_atomic io2 ->
  let '(n', ok) := reconcileLogEntries n req io1 io2 in
  let keep := default (length L) (conflict_pos n req) in
  prog n n' /\
  if ok then repr K (joined L keep prev (ae_Entries req)) n'
  else repr K L n' \/ (is_Some (conflict_pos n req) /\ repr K (take keep L) n').
Proof.
  intros Hn Ep Hp Hb Hd Hs. unfold conflict_pos. pose proof (rp_len _ _ _ Hn) as Hlen.
  pose proof (find_conflict_spec n (ae_PrevLogIndex req + 1) (ae_Entries req) ltac:(lia) ltac:(lia)) as Hf.
  unfold reconcileLogEntries. cbv zeta. rewrite u64_small by lia.
  set (c := find_conflict n (ae_PrevLogIndex req + 1) (ae_Entries req)) in *.
  set (keep := default (length L) ((fun i => Z.to_nat (i - 1)) <$> c)).
  assert (exists n1 ok, match c with Some at_ => truncate_log n at_ io1 | None => (n, true) end = (n1, ok) /\
    prog n n1 /\ (prev <= keep <= length L)%nat /\
    if ok then repr K (take keep L) n1 else repr K L n1) as (n1 & ok & E1 & Hpr & Hk & H1).
  { subst keep. destruct c as [at_|]; cbn [from_option id fmap option_fmap option_map].
    - destruct Hf as (k & local & Eat & Hk & Hloc & _).
      destruct (proj1 (logEntry_range n at_ (repr_wf K L n Hn))) as [Ha1 Ha2]; [by eexists|].
      rewrite (repr_last K L n Hn) in Ha2.
      destruct (repr_truncate K L n at_ io1 Hn ltac:(lia) Hd) as [Ht Hm].
      destruct (truncate_log n at_ io1) as [n1 ok]. exists n1, ok. split_and!; [done|by apply prog_view|lia|lia|].
      destruct ok; [done|]. eapply repr_view; [|exact Hn]. unfold cview in Ht.
      by apply (f_equal (fun x => x.1.1.1)) in Ht.
    - exists n, true. split_and!; [done|by intros ?; split_and!; auto|lia|lia|]. by rewrite firstn_all. }
  rewrite E1. destruct ok; cbn [negb]; [|split; [done|by left]].
  assert (length (take keep L) = keep) as Hkl by (rewrite length_take; lia).
  rewrite (repr_last K _ n1 H1), Hkl, new_entries_stamp by lia.
  replace (Z.to_nat (Z.of_nat keep + 1 - (ae_PrevLogIndex req + 1))) with (keep - prev)%nat by lia.
  rewrite (Z.add_comm (Z.of_nat keep) 1). set (app := stamp _ _).
  assert (indexed (1 + Z.of_nat (length (take keep L))) app) as Hi by (rewrite Hkl; apply stamp_indexed).
  pose proof (repr_store K _ n1 app io2 H1 Hi) as Hst.
  assert (Z.of_nat (length (take keep L ++ app)) + 2 < 2 ^ 64) as Hbb.
  { rewrite length_app, Hkl. unfold app. rewrite stamp_length, length_drop. lia. }
  specialize (Hst Hbb Hs).
  assert (exists n2 ok2, match app with [] => (n1, true) | _ => StoreLogs n1 app io2 end = (n2, ok2) /\
    prog n n2 /\ if ok2 then repr K (take keep L ++ app) (set_log (log n2 ++ app) n2)
                 else repr K (take keep L) n2) as (n2 & ok2 & E2 & Hp2 & H2).
  { destruct app as [|e app'].
    - exists n1, true. split_and!; [done|done|]. rewrite !app_nil_r. eapply repr_view; [|exact H1]. done.
    - pose proof (mview_StoreLogs n1 (e :: app') io2) as Hm. destruct (StoreLogs n1 _ io2) as [n2 ok2].
      exists n2, ok2. split_and!; [done|eapply prog_trans; [exact Hpr|by apply prog_view]|].
      destruct ok2; [done|]. eapply repr_view; [|exact H1]. by apply (f_equal (fun x => x.1.1.1)) in Hst. }
  rewrite E2. destruct ok2; cbn [negb].
  - set (n3 := set_log _ n2) in *. assert (prog n n3) as Hp3 by exact Hp2.
    clearbody n3. destruct (_ || _); [|done]. split; [|by apply calm_refresh].
    eapply prog_trans; [exact Hp3|apply calm_refresh].
  - subst keep. destruct c as [at_|]; cbn [from_option id fmap option_fmap option_map] in *.
    + rewrite bool_decide_eq_true_2 by by eexists.
      split; [eapply prog_trans; [exact Hp2|apply calm_refresh]|]. right. split; [by eexists|]. by apply calm_refresh.
    + rewrite bool_decide_eq_false_2 by by intros [? ?]. split; [done|]. left. by rewrite firstn_all in H2.
Qed.
End reconcile.

(** ** Reconciling with the log of a reign *)

Lemma stamp_indexed_id base es : indexed base es -> stamp base es = es.
Proof.
  revert base. induction es as [|e es IH]; intros base H; [done|]. apply indexed_cons in H as [E H].
  simpl. rewrite (IH _ H). by destruct e; simpl in *; subst.
Qed.

Lemma indexed_drop base l k : indexed base l -> indexed (base + Z.of_nat k) (drop k l).
Proof. intros H j e He. rewrite lookup_drop in He. rewrite (H _ _ He). lia. Qed.

Lemma indexed_take base l k : indexed base l -> indexed base (take k l).
Proof. intros H j e He. rewrite lookup_take in He. case_decide; [|done]. by apply H. Qed.

(** Entries [prev+1], [prev+2], ... of [l]. *)
Definition slice (l : list RaftLogEntry) (prev : nat) (es : list RaftLogEntry) : Prop :=
  es = take (length es) (drop prev l).

Lemma slice_joined L l prev keep es :
  indexed 1 l -> slice l prev es -> take keep L = take keep l -> (prev <= keep)%nat ->
  (keep <= length L)%nat -> (prev + length es <= length l)%nat ->
  joined L keep prev es = if decide (keep <= prev + length es)%nat then take (prev + length es) l else take keep L.
Proof.
  intros Hi Hs E Hk HkL Hl. unfold joined.
  assert (drop (keep - prev) es = take (length es - (keep - prev)) (drop keep l)) as Ed.
  { rewrite Hs at 1. rewrite skipn_firstn_comm, drop_drop. do 2 f_equal. lia. }
  rewrite Ed. rewrite stamp_indexed_id by (apply indexed_take, (indexed_drop 1), Hi).
  case_decide as Hd.
  - rewrite E. replace (prev + length es)%nat with (keep + (length es - (keep - prev)))%nat by lia.
    by rewrite take_take_drop.
  - replace (length es - (keep - prev))%nat with 0%nat by lia. by rewrite take_0, app_nil_r.
Qed.

(** The terms differ where [find_conflict] stops. *)
Lemma find_conflict_term n idx es at_ :
  0 <= idx -> idx + Z.of_nat (length es) < 2 ^ 64 -> find_conflict n idx es = Some at_ ->
  exists k e local, at_ = idx + Z.of_nat k /\ es !! k = Some e /\ logEntry n at_ = Some local /\
    Term local <> Term e.
Proof.
  revert idx. induction es as [|e es IH]; intros idx H0 Hw; cbn [find_conflict length] in *; [done|].
  rewrite u64_small by lia.
  assert (find_conflict n (idx + 1) es = Some at_ ->
    exists k e' local, at_ = idx + Z.of_nat k /\ (e :: es) !! k = Some e' /\ logEntry n at_ = Some local /\
      Term local <> Term e') as Hrec.
  { intros Hf. destruct (IH (idx + 1) ltac:(lia) ltac:(lia) Hf) as (k & e' & x & E1 & E2 & E3 & E4).
    exists (S k), e', x. split_and!; [lia|done..]. }
  destruct (logEntry n idx) as [x|] eqn:Ex; [|done]. case_decide as Hne; [|done].
  intros [= <-]. exists 0%nat, e, x. split_and!; [lia|done..].
Qed.

Section join.
Context {MC : MembershipCodec} (s : spec) (K : Z -> Prop) (L l : list RaftLogEntry) (n : Node)
  (req : AppendEntriesRequest) (prev : nat).
Context (Hn : repr K L n) (HL : reigned s L) (Hl : reigned s l) (Hil : indexed 1 l)
  (Ep : ae_PrevLogIndex req = Z.of_nat prev) (Hprev : (prev <= length L)%nat)
  (Hsh : take prev L = take prev l) (Hsl : slice l prev (ae_Entries req))
  (Hlen : (prev + length (ae_Entries req) <= length l)%nat)
  (Hb : Z.of_nat (length l) + 2 < 2 ^ 64).

(** Positions of the request before which the terms agree are shared. *)
Lemma agree_shared j :
  (prev <= j <= length L)%nat -> (j <= prev + length (ae_Entries req))%nat ->
  agree n (ae_PrevLogIndex req + 1) (take (j - prev) (ae_Entries req)) -> take j L = take j l.
Proof using Hn HL Hl Ep Hprev Hsh Hsl Hlen.
  intros Hj Hj2 Ha. destruct (decide (j = prev)) as [->|Hne]; [done|].
  destruct (lookup_lt_is_Some_2 L (pred j)) as [x Hx]; [lia|].
  destruct (lookup_lt_is_Some_2 (ae_Entries req) (pred j - prev)) as [y Hy]; [lia|].
  assert (l !! pred j = Some y) as Hy'.
  { rewrite Hsl, lookup_take_lt, lookup_drop in Hy by lia.
    by replace (prev + (pred j - prev))%nat with (pred j) in Hy by lia. }
  assert (Term x = Term y) as Et.
  { apply (Ha (pred j - prev)%nat y x).
    - by rewrite lookup_take_lt by lia.
    - rewrite Ep, (repr_entry K L n Hn) by lia.
      by replace (Z.to_nat _) with (pred j) by lia. }
  replace j with (S (pred j)) by lia.
  apply (matches_agree s L l (pred j) (Term x)); [done|done| |]; apply has_entry; eauto.
Qed.

Lemma conflict_facts :
  match conflict_pos n req with
  | Some keep => (prev <= keep < length L)%nat /\ (keep < prev + length (ae_Entries req))%nat /\
      take keep L = take keep l /\ take (S keep) L <> take (S keep) l
  | None => take (min (length L) (prev + length (ae_Entries req))) L =
            take (min (length L) (prev + length (ae_Entries req))) l
  end.
Proof using Hn HL Hl Ep Hprev Hsh Hsl Hlen Hb.
  pose proof (rp_len _ _ _ Hn) as HlenL. unfold conflict_pos.
  assert (ae_PrevLogIndex req + 1 + Z.of_nat (length (ae_Entries req)) < 2 ^ 64) as Hbb by lia.
  pose proof (find_conflict_spec n (ae_PrevLogIndex req + 1) (ae_Entries req) ltac:(lia) Hbb) as Hf.
  destruct (find_conflict _ _ _) as [at_|] eqn:Ec; cbn [fmap option_fmap option_map].
  - apply find_conflict_term in Ec as (k & e & local & Eat & He & Hloc & Hne); [|lia|done].
    destruct Hf as (k' & _ & Eat' & _ & _ & Ha & _). assert (k' = k) as -> by lia.
    assert (1 <= at_) as Hat by lia. rewrite (repr_entry K L n Hn at_ Hat) in Hloc.
    pose proof (lookup_lt_Some _ _ _ Hloc) as HltL. pose proof (lookup_lt_Some _ _ _ He) as HltE.
    assert (Z.to_nat (at_ - 1) = (prev + k)%nat) as Ek by lia. rewrite Ek in *.
    assert (take (prev + k) L = take (prev + k) l) as Esh.
    { apply agree_shared; [lia|lia|]. by replace (prev + k - prev)%nat with k by lia. }
    split_and!; [lia|lia|lia|done|]. intros Ebad. apply Hne.
    assert (l !! (prev + k)%nat = Some e) as He'.
    { by rewrite Hsl, lookup_take_lt, lookup_drop in He by lia. }
    rewrite <- (lookup_take_lt L (S (prev + k))) in Hloc by lia. rewrite Ebad, lookup_take_lt in Hloc by lia.
    congruence.
  - apply agree_shared; [lia|lia|]. intros j e x He Hx. rewrite lookup_take in He. case_decide; [|done].
    by apply (Hf j e x).
Qed.
Lemma truncated_merged keep : conflict_pos n req = Some keep -> merged L l (take keep L).
Proof using Hn HL Hl Ep Hprev Hsh Hsl Hlen Hb.
  intros E. pose proof conflict_facts as H. rewrite E in H. destruct H as (H1 & H2 & H3 & H4).
  split; [left; by exists keep|]. intros k Hk Ek. destruct (decide (k <= keep)%nat).
  - by rewrite take_take, Nat.min_l by lia.
  - destruct H4. apply (take_le _ _ k); [lia|done].
Qed.

Lemma joined_merged keep :
  keep = default (length L) (conflict_pos n req) ->
  merged L l (joined L keep prev (ae_Entries req)) /\
  take (prev + length (ae_Entries req)) (joined L keep prev (ae_Entries req)) =
    take (prev + length (ae_Entries req)) l.
Proof using Hn HL Hl Hil Ep Hprev Hsh Hsl Hlen Hb.
  intros ->. pose proof conflict_facts as H. destruct (conflict_pos n req) as [keep|]; cbn [from_option id].
  - destruct H as (H1 & H2 & H3 & H4). rewrite (slice_joined L l) by (done || lia). rewrite decide_True by lia.
    split; [|by rewrite take_take, Nat.min_id]. split; [right; by eexists|]. intros k Hk Ek.
    assert (k <= keep)%nat.
    { destruct (decide (k <= keep)%nat); [done|]. destruct H4. apply (take_le _ _ k); [lia|done]. }
    by rewrite take_take, Nat.min_l by lia.
  - destruct (decide (length L <= prev + length (ae_Entries req))%nat) as [Hle|Hgt].
    + rewrite Nat.min_l in H by done. rewrite (slice_joined L l) by (done || lia).
      rewrite decide_True by done. split; [|by rewrite take_take, Nat.min_id].
      split; [right; by eexists|]. intros k Hk Ek. by rewrite take_take, Nat.min_l by lia.
    + rewrite Nat.min_r in H by lia.
      assert (joined L (length L) prev (ae_Entries req) = L) as ->.
      { unfold joined. rewrite firstn_all, drop_ge by lia. apply app_nil_r. }
      split; [|done]. split; [left; exists (length L); by rewrite firstn_all|done].
Qed.
End join.

(** ** Elections *)

(** The write of a campaign's hard state: done, or found on disk although it
    reported an error. *)
Definition durable (io : persist_io) : Prop := io <> PersistFailed false.

Section elections.
Context {MC : MembershipCodec} (K : Z -> Prop) (L : list RaftLogEntry).

Lemma repr_stable n : repr K L n -> is_Some (stable n).
Proof. intros Hn. pose proof (rp_disk _ _ _ Hn) as Hd. unfold disk_inv in Hd. by destruct (stable n). Qed.

Lemma repr_self_vote n io : durable io -> repr K L n -> repr K L (persistHardStateLocked (self_vote n) io).1.
Proof.
  intros Hio Hn. destruct (repr_stable n Hn) as [o Ho]. destruct Hn as [R1 R2 R3 R4 R5 R6].
  assert (exists n1, (persistHardStateLocked (self_vote n) io).1 = n1 /\
    n1 = set_stable (Some (Some (hard_of (self_vote n)))) (self_vote n)) as (n1 & -> & ->).
  { eexists. split; [done|]. unfold persistHardStateLocked. cbn. rewrite Ho.
    by destruct io as [|[|]]; [..|destruct Hio]. }
  unfold log_view in R1. injection R1 as B1 B2 B3. constructor; auto.
  - unfold log_view. cbn. by rewrite B1, B2, B3.
  - unfold disk_inv. cbn. split_and!; [lia|done|done|done].
Qed.

(** A campaign, or the attempt, leaves no leader behind. *)
Lemma begin_prog n io now n' e : startElection_begin n io now = (n', e) -> prog n n'.
Proof.
  intros E. unfold startElection_begin in E. fold (self_vote n) in E.
  assert (prog n n) as H0 by (by intros ?; split_and!; auto).
  destruct (removed n || awaitingJoin n); [by injection E as <- <-|].
  destruct (restoring n); [by injection E as <- <-|].
  destruct (selfNonVoter n); [by injection E as <- <-|]. cbv zeta in E. case_decide as Hv.
  - pose proof (persist_rest (self_vote n) io) as [Ep _]. cbn zeta in Ep.
    destruct (persistHardStateLocked _ io) as [n1 [|]]; injection E as <- <-; [|done].
    injection Ep as E1 E2 E3 E4 E5 E6 E7 E8 E9. intros H. cbn in H, E7. congruence.
  - by case_decide; injection E as <- <-.
Qed.

Lemma begin_repr n io now n' e :
  durable io -> startElection_begin n io now = (n', e) -> repr K L n -> repr K L n'.
Proof.
  intros Hio E Hn. unfold startElection_begin in E. fold (self_vote n) in E.
  destruct (removed n || awaitingJoin n); [by injection E as <- <-|].
  destruct (restoring n); [by injection E as <- <-|].
  destruct (selfNonVoter n); [by injection E as <- <-|]. cbv zeta in E. case_decide as Hv.
  - pose proof (repr_self_vote n io Hio Hn) as Hr.
    destruct (persistHardStateLocked _ io) as [n1 [|]]; injection E as <- <-; (eapply repr_view; [|exact Hr]); done.
  - case_decide; injection E as <- <-; [done|]. eapply repr_view; [|exact Hn]. done.
Qed.

Lemma campaign_prog n term pre io now n' r : startElection_campaign n term pre io now = (n', r) -> prog n n'.
Proof.
  intros E. unfold startElection_campaign in E. fold (self_vote n) in E.
  case_decide; [injection E as <- <-; by intros ?; split_and!; auto|].
  destruct pre; cbn [negb] in E; [|by injection E as <- <-].
  pose proof (persist_rest (self_vote n) io) as [Ep _]. cbn zeta in Ep, E.
  destruct (persistHardStateLocked _ io) as [n1 [|]]; injection E as <- <-; [|done].
  injection Ep as E1 E2 E3 E4 E5 E6 E7 E8 E9. intros Hs. cbn in Hs, E7. congruence.
Qed.

Lemma campaign_repr n term pre io now n' r :
  durable io -> startElection_campaign n term pre io now = (n', r) -> repr K L n ->
  repr K L n' /\
  (forall req, r = Some req -> rv_LastLogIndex req = Z.of_nat (length L) /\ rv_LastLogTerm req = last_term L).
Proof.
  intros Hio E Hn. unfold startElection_campaign in E. fold (self_vote n) in E.
  case_decide; [by injection E as <- <-|].
  destruct pre; cbn [negb] in E; [|injection E as <- <-; split; [eapply repr_view; [|exact Hn]; done|done]].
  pose proof (repr_self_vote n io Hio Hn) as Hr. cbn zeta in E.
  destruct (persistHardStateLocked _ io) as [n1 [|]]; injection E as <- <-; cbn [fst] in *.
  - set (n2 := set_lastContact now _). assert (repr K L n2) as H2 by (eapply repr_view; [|exact Hr]; done).
    split; [done|]. intros req [= <-]. cbn [rv_LastLogIndex rv_LastLogTerm].
    split; [by apply (repr_last K L n2)|by apply (repr_last_term K L n2)].
  - split; [eapply repr_view; [|exact Hr]; done|done].
Qed.

(** A vote keeps the log, and is granted to up-to-date logs only. *)
Lemma vote_repr n req io1 io2 now n' resp :
  handleRequestVote n req io1 io2 now = (n', resp) -> repr K L n ->
  repr K L n' /\ prog n n' /\
  (vr_VoteGranted resp = true -> currentTerm n <= rv_Term req /\
     (last_term L < rv_LastLogTerm req \/
      (rv_LastLogTerm req = last_term L /\ Z.of_nat (length L) <= rv_LastLogIndex req))).
Proof.
  intros E Hn. unfold handleRequestVote in E.
  assert (prog n n) as Hp0 by by intros ?; split_and!; auto.
  case_decide as Hlt; [by injection E as <- <-|].
  set (r := if decide (rv_Term req > currentTerm n) then _ else _) in E.
  assert (calm n r.1) as Hr.
  { subst r. case_decide as Hgt; [apply calm_becomeFollower; lia|done]. }
  destruct r as [n1 [|]]; cbn [fst negb] in *; [|injection E as <- <-; split_and!; [by apply Hr|apply Hr|done]].
  assert (repr K L n1) as Hn1 by by apply Hr.
  destruct (bool_decide (votedFor n1 = "" \/ _)); [|injection E as <- <-; split_and!; [done|apply Hr|done]].
  destruct (isLogMoreUpToDate n1 _ _) eqn:Eu; cbn [andb] in E; [|injection E as <- <-; split_and!; [done|apply Hr|done]].
  assert (repr K L (set_votedFor (rv_CandidateID req) n1)) as Hn2 by (eapply repr_view; [|exact Hn1]; done).
  pose proof (repr_persist K L _ io2 Hn2) as Hn3.
  pose proof (persist_rest (set_votedFor (rv_CandidateID req) n1) io2) as [Ep _]. cbn zeta in Ep.
  assert (forall m, mview m = mview (persistHardStateLocked (set_votedFor (rv_CandidateID req) n1) io2).1 \/
    (state m, currentTerm m, peers m, matchIndex m) = (state n1, currentTerm n1, peers n1, matchIndex n1) ->
    prog n m) as Hpr.
  { intros m Hm. eapply prog_trans; [apply Hr|].
    assert ((state m, currentTerm m, peers m, matchIndex m) = (state n1, currentTerm n1, peers n1, matchIndex n1)) as Em.
    { destruct Hm as [Hm|Hm]; [|done]. unfold mview, core_of in Hm. injection Hm as M1 M2 M3 M4 M5 M6 M7.
      injection Ep as E1 E2 E3 E4 E5 E6 E7 E8 E9. cbn in E6, E7, E8, E9. congruence. }
    injection Em as F1 F2 F3 F4. intros Hs. split_and!; [congruence|done|]. intros id. rewrite F3, F4. auto. }
  destruct (persistHardStateLocked _ io2) as [n2 [|]]; injection E as <- <-; cbn [fst] in *.
  - split_and!; [eapply repr_view; [|exact Hn3]; done|apply Hpr; by left|]. intros _. split; [lia|].
    unfold isLogMoreUpToDate in Eu. apply bool_decide_eq_true in Eu.
    rewrite (repr_last_term K L n1 Hn1), (repr_last K L n1 Hn1) in Eu. lia.
  - split_and!; [eapply repr_view; [|exact Hn3]; done| |done]. apply Hpr. right.
    injection Ep as E1 E2 E3 E4 E5 E6 E7 E8 E9. cbn in E6, E7, E8, E9 |- *. congruence.
Qed.
End elections.

Section leading.
Context {MC : MembershipCodec}.

Definition noop_of (L : list RaftLogEntry) (term : Z) : RaftLogEntry :=
  MkEntry (Z.of_nat (length L) + 1) term LogNoOp [].

(** A promotion appends the no-op and resets the match indexes. *)
Record promoted (K : Z -> Prop) (L : list RaftLogEntry) (n n' : Node) (term : Z) : Prop := {
  pm_term : currentTerm n = term;
  pm_term' : currentTerm n' = term;
  pm_state : state n' = StateLeader;
  pm_repr : repr K (L ++ [noop_of L term]) n';
  pm_match : forall id, is_Some (peers n' !! id) -> default 0 (matchIndex n' !! id) = 0;
}.

Lemma finish_repr K L n term numPeers votes io now :
  repr K L n -> Z.of_nat (length L) + 3 < 2 ^ 64 -> store_atomic io ->
  let n' := startElection_finish n term numPeers votes io now in
  calm n n' \/ ((votesNeeded numPeers <= votes)%nat /\ promoted K L n n' term).
Proof.
  intros Hn Hb Hio. cbv zeta. unfold startElection_finish. case_decide as Hv.
  2: { left. case_decide; [by apply calm_follower|done]. }
  unfold becomeLeader. case_decide as Hc; [by left|].
  apply Decidable.not_or in Hc as [Ht Hs]. apply dec_stable in Ht. apply dec_stable in Hs. cbv zeta.
  set (n2 := set_peers _ _).
  assert (repr K L n2) as H2 by (eapply repr_view; [|exact Hn]; done).
  assert (forall id, is_Some (peers n2 !! id) -> default 0 (matchIndex n2 !! id) = 0) as Hm2.
  { intros id. subst n2. cbn. rewrite lookup_fmap. intros Hid.
    destruct (peers n !! id) as [p|] eqn:Ep; [|by destruct Hid].
    rewrite (lookup_union_Some_l _ _ _ 0); [done|]. by rewrite lookup_fmap, Ep. }
  pose proof (repr_append K L n2 (MkEntry 0 (currentTerm n2) LogNoOp []) io H2 Hb Hio) as Ha.
  assert (state n2 = StateLeader /\ currentTerm n2 = term /\ votedFor n2 = votedFor n /\ nodeID n2 = nodeID n /\
    stable n2 = stable n) as (F1 & F2 & F3 & F4 & F5) by done.
  assert (forall K L, repr K L n -> repr K L n2) as Hr2 by (intros ? ?; by apply repr_view).
  destruct (appendEntry n2 _ io) as [n3 [|]].
  - right. split; [done|]. destruct Ha as [Hr Hm]. unfold mview, core_of in Hm.
    injection Hm as M1 M2 M3 M4 M5 M6 M7. constructor; cbn; [done|congruence|congruence| |].
    + rewrite <- Ht. eapply (repr_view _ _ n3); [done|exact Hr].
    + rewrite M6, M7. done.
  - left. constructor; [|intros K' L' Hr|done].
    + unfold cview, core_of in Ha. injection Ha as A1 A2 A3 A4 A5 A6 A7 A8 A9 A10 A11 A12 A13 A14.
      constructor; cbn; [congruence|left; split; congruence|done|left; congruence].
    + eapply (repr_view _ _ n3); [done|]. eapply (repr_view _ _ n2); [|by apply Hr2].
      by apply (f_equal (fun x => x.1.1.1)) in Ha.
Qed.

(** A leader appends a command or a membership change. *)
Record led_append (K : Z -> Prop) (L : list RaftLogEntry) (n n' : Node) : Prop := {
  la_state : state n = StateLeader;
  la_entry : exists e, Term e = currentTerm n /\ Index e = Z.of_nat (length L) + 1 /\ repr K (L ++ [e]) n';
  la_core : core_of n' = core_of n;
  la_prog : prog n n';
}.

Lemma apply_repr K L n data io :
  repr K L n -> Z.of_nat (length L) + 3 < 2 ^ 64 -> store_atomic io ->
  calm n (handleApply n data io).1 \/ led_append K L n (handleApply n data io).1.
Proof.
  intros Hn Hb Hio. unfold handleApply. case_decide as Hs; [by left|].
  pose proof (repr_append K L n (MkEntry 0 (currentTerm n) LogCommand data) io Hn Hb Hio) as Ha.
  destruct (appendEntry n _ io) as [n1 [|]]; [|left; by apply calm_view]. destruct Ha as [Hr Hm]. right.
  set (r := match last (log n1) with None => _ | Some _ => _ end).
  assert (rview r.1 = rview n1 /\ mview r.1 = mview n1) as [V1 V2] by (subst r; by destruct (last (log n1))).
  constructor; [done| | |].
  - eexists. split_and!; [| |eapply repr_view; [exact V1|exact Hr]]; done.
  - rewrite Hm in V2. unfold mview in V2. unfold core_of in *. congruence.
  - apply prog_view. congruence.
Qed.

Lemma propose_repr K L n type peer old io :
  repr K L n -> Z.of_nat (length L) + 3 < 2 ^ 64 -> store_atomic io ->
  calm n (proposeMembershipChange n type peer old io).1 \/
  led_append K L n (proposeMembershipChange n type peer old io).1.
Proof.
  intros Hn Hb Hio. unfold proposeMembershipChange. cbv zeta. case_decide as Hs; [by left|].
  repeat (case_decide; [by left|]).
  set (e := MkEntry 0 _ _ _). pose proof (repr_append K L n e io Hn Hb Hio) as Ha.
  destruct (appendEntry n e io) as [n1 [|]]; [|left; by apply calm_view]. destruct Ha as [Hr Hm]. right.
  set (n2 := match last (log n1) with None => _ | Some _ => _ end).
  assert (rview n2 = rview n1 /\ mview n2 = mview n1) as [V1 V2] by (subst n2; by destruct (last (log n1))).
  constructor; cbn [fst]; [done| | |].
  - eexists. split_and!; [| |apply calm_refresh; eapply repr_view; [exact V1|exact Hr]]; done.
  - rewrite core_refresh. rewrite Hm in V2. unfold mview in V2. unfold core_of in *. congruence.
  - eapply prog_trans; [apply prog_view; rewrite V2; exact Hm|apply calm_refresh].
Qed.
End leading.

(** ** Commit indexes *)

Section commits.
Context {MC : MembershipCodec}.

(** A new commit index, written to disk or rolled back. *)
Lemma repr_set_commit K L n c io :
  repr K L n -> K c ->
  let '(n1, ok) := persistHardStateLocked (set_commitIndex c n) io in
  let n' := if ok then n1 else set_commitIndex (commitIndex n) n1 in
  repr K L n' /\ prog n n' /\ (core_of n').1 = (core_of n).1.
Proof.
  intros Hn Hc. assert (repr K L (set_commitIndex c n)) as H1.
  { destruct Hn as [R1 R2 R3 R4 R5 R6]. constructor; auto. }
  pose proof (repr_persist K L _ io H1) as H2. pose proof (persist_rest (set_commitIndex c n) io) as [E _].
  pose proof (persist_shape (set_commitIndex c n) io) as Hsh.
  cbn zeta in E. destruct (persistHardStateLocked _ io) as [n1 ok]. cbn [fst] in *.
  destruct Hsh as (S1 & S2 & S3 & S4 & _). injection E as E1 E2 E3 E4 E5 E6 E7 E8 E9.
  cbn in S1, S2, S3, S4, E5, E6, E7, E8, E9.
  assert (forall m, (state m, currentTerm m, peers m, matchIndex m) = (state n1, currentTerm n1, peers n1, matchIndex n1) ->
    prog n m) as Hp.
  { intros m Em. injection Em as F1 F2 F3 F4. intros Hs. split_and!; [congruence|congruence|].
    intros id. rewrite F3, F4, E8, E9. auto. }
  cbv zeta. destruct ok; (split_and!; [|by apply Hp|unfold core_of; cbn; congruence]); [done|].
  destruct H2 as [R1 R2 R3 R4 R5 R6]. constructor; auto. apply Hn.
Qed.

Lemma updateCommit_repr K L n req io :
  repr K L n -> 0 <= ae_PrevLogIndex req + Z.of_nat (length (ae_Entries req)) < 2 ^ 64 ->
  (commitIndex n < ae_LeaderCommit req ->
   K (Z.min (ae_LeaderCommit req) (ae_PrevLogIndex req + Z.of_nat (length (ae_Entries req))))) ->
  let n' := (updateCommitIndex n req io).1 in
  repr K L n' /\ prog n n' /\ (core_of n').1 = (core_of n).1.
Proof.
  intros Hn Hb HK. cbv zeta. assert (repr K L n /\ prog n n /\ (core_of n).1 = (core_of n).1) as H0.
  { split_and!; [done|by intros ?; split_and!; auto|done]. }
  unfold updateCommitIndex. case_decide as H1; [exact H0|]. cbv zeta. rewrite u64_small by done.
  set (nc := if decide (ae_LeaderCommit req > _) then _ else _).
  assert (K nc) as Hnc.
  { specialize (HK ltac:(lia)). subst nc. case_decide; [rewrite Z.min_r in HK by lia|rewrite Z.min_l in HK by lia]; done. }
  clearbody nc. case_decide; [exact H0|]. pose proof (repr_set_commit K L n nc io Hn Hnc) as Hr.
  by destruct (persistHardStateLocked _ io) as [n1 [|]].
Qed.

(** The index [checkCommit] finds. *)
Definition commit_found (n : Node) : option Z :=
  commit_loop (Z.to_nat (lastLogIndexLocked n - commitIndex n)) n (lastLogIndexLocked n).

Lemma checkCommit_repr K L n io :
  repr K L n -> (forall i, state n = StateLeader -> commit_found n = Some i -> K i) ->
  let n' := (checkCommit n io).1 in
  repr K L n' /\ prog n n' /\ (core_of n').1 = (core_of n).1.
Proof.
  intros Hn HK. cbv zeta. assert (repr K L n /\ prog n n /\ (core_of n).1 = (core_of n).1) as H0.
  { split_and!; [done|by intros ?; split_and!; auto|done]. }
  unfold checkCommit. case_decide as H1; [exact H0|]. cbv zeta. fold (commit_found n).
  destruct (commit_found n) as [i|]; [|exact H0].
  pose proof (repr_set_commit K L n i io Hn (HK i H1 eq_refl)) as Hr.
  by destruct (persistHardStateLocked _ io) as [n1 [|]].
Qed.

(** The parts of [handleAppendEntries]. *)
Inductive append_case (n : Node) (req : AppendEntriesRequest) (io : append_entries_io) (n' : Node)
    (resp : AppendEntriesResponse) : Prop :=
| ac_refused : calm n n' -> ar_Success resp = false -> append_case n req io n' resp
| ac_failed n1 : calm n n1 -> currentTerm n1 = ae_Term req -> checkLogConsistency n1 req = None ->
    reconcileLogEntries n1 req (aio_delete io) (aio_store io) = (n', false) -> ar_Success resp = false ->
    append_case n req io n' resp
| ac_accepted n1 n2 : calm n n1 -> currentTerm n1 = ae_Term req -> checkLogConsistency n1 req = None ->
    reconcileLogEntries n1 req (aio_delete io) (aio_store io) = (n2, true) ->
    n' = (updateCommitIndex n2 req (aio_commit io)).1 -> ar_Success resp = true ->
    append_case n req io n' resp.

Lemma append_cases n req io now n' resp :
  handleAppendEntries n req io now = (n', resp) -> append_case n req io n' resp.
Proof.
  unfold handleAppendEntries.
  assert (calm n (validateTerm n req (aio_term io) now).1) as Hv.
  { unfold validateTerm. case_decide; [done|]. case_decide as Hgt; [|done].
    pose proof (calm_becomeFollower n (ae_Term req) (aio_term io) now ltac:(lia)) as Hc.
    by destruct (becomeFollower _ _ _ _) as [n1 [|]]. }
  destruct (validateTerm _ _ _ _) as [m [r|]] eqn:Ev; cbn [fst] in Hv.
  { intros [= <- <-]. apply ac_refused; [done|]. by eapply validateTerm_refuses. }
  destruct (validateTerm_ok _ _ _ _ _ Ev) as (_ & _ & Ht).
  set (n1 := set_leaderID _ _).
  assert (calm n n1 /\ currentTerm n1 = ae_Term req) as [H1 T1].
  { subst n1. split; [etrans; [exact Hv|apply calm_view; by case_decide]|]. by case_decide. }
  clearbody n1. destruct (checkLogConsistency n1 req) as [r|] eqn:Ec.
  { intros [= <- <-]. apply ac_refused; [done|]. by eapply checkLogConsistency_refuses. }
  destruct (reconcileLogEntries _ _ _ _) as [n2 [|]] eqn:Er; [|intros [= <- <-]; by eapply ac_failed].
  destruct (updateCommitIndex n2 req (aio_commit io)) as [n3 o] eqn:Eu.
  intros [= <- <-]. eapply (ac_accepted n req io _ _ n1 n2); auto. by rewrite Eu.
Qed.
End commits.

(** ** Restart *)

Section restart.
Context {MC : MembershipCodec}.

Lemma rview_refresh n : rview (refreshMembershipLocked n) = rview n.
Proof. unfold refreshMembershipLocked. by destruct (fold_log _ _ _ _). Qed.

Lemma rview_restorePeers n c saved : rview (restorePeers n c saved) = rview n.
Proof.
  unfold restorePeers. destruct (stable n), saved; try done. unfold setMembershipBaseLocked. by rewrite rview_refresh.
Qed.

(** The keys of a log store that holds the entries 1 to [k]. *)
Lemma seqZ_sorted i k : Sorted Z.le (seqZ i (Z.of_nat k)).
Proof.
  revert i. induction k as [|k IH]; intros i; [constructor|].
  rewrite seqZ_cons by lia. replace (Z.pred (Z.of_nat (S k))) with (Z.of_nat k) by lia.
  constructor; [apply IH|]. destruct k; [constructor|].
  rewrite seqZ_cons by lia. constructor. lia.
Qed.

Lemma sorted_indexes_full (st : gmap Z RaftLogEntry) L :
  (forall j, st !! j = if decide (1 <= j) then L !! Z.to_nat (j - 1) else None) ->
  sorted_indexes st = seqZ 1 (Z.of_nat (length L)).
Proof.
  intros Hst. unfold sorted_indexes. apply (Sorted_unique Z.le).
  - apply Sorted_merge_sort. intros x y. lia.
  - apply seqZ_sorted.
  - rewrite merge_sort_Permutation. apply NoDup_Permutation.
    + apply NoDup_fst_map_to_list.
    + apply NoDup_seqZ.
    + intros j. rewrite elem_of_seqZ. split.
      * intros ([j' e] & -> & Hin)%list_elem_of_fmap. apply elem_of_map_to_list in Hin. simpl.
        rewrite Hst in Hin. case_decide; [|done]. apply lookup_lt_Some in Hin. lia.
      * intros Hj. destruct (lookup_lt_is_Some_2 L (Z.to_nat (j - 1))) as [e He]; [lia|].
        apply list_elem_of_fmap. exists (j, e). split; [done|]. apply elem_of_map_to_list.
        rewrite Hst, decide_True by lia. done.
Qed.

Lemma get_logs_full (st : gmap Z RaftLogEntry) k L :
  0 <= k -> indexed k L -> k + Z.of_nat (length L) < 2 ^ 64 ->
  (forall j e, L !! j = Some e -> st !! (k + Z.of_nat j) = Some e) ->
  get_logs st k (length L) = Some L.
Proof.
  revert k. induction L as [|e L IH]; intros k Hk Hi Hb Hst; [done|]. cbn [length get_logs] in *.
  apply indexed_cons in Hi as [He Hi]. pose proof (Hst 0%nat e eq_refl) as H0.
  rewrite Z.add_0_r in H0. rewrite H0. cbn [mbind option_bind]. rewrite decide_False by auto.
  rewrite u64_small, (IH (k + 1)) by (lia || done || intros j x Hx;
    specialize (Hst (S j) x Hx); by replace (k + 1 + Z.of_nat j) with (k + Z.of_nat (S j)) by lia).
  done.
Qed.

(** The log read back is the log that was stored. *)
Lemma restoreLog_full n st L :
  log_view n = ([base_entry 0 0], 0, 0) -> storage n = Some st -> indexed 1 L ->
  Z.of_nat (length L) + 2 < 2 ^ 64 ->
  (forall j, st !! j = if decide (1 <= j) then L !! Z.to_nat (j - 1) else None) ->
  exists n', restoreLog n = Some n' /\ rview n' = rview (set_log (base_entry 0 0 :: L) n).
Proof.
  unfold log_view. intros E S1 Hi Hb R4. injection E as B1 B2 B3.
  unfold restoreLog. rewrite S1, (sorted_indexes_full st L R4). cbv zeta. destruct L as [|e L].
  - exists n. split; [done|]. unfold rview, log_view. cbn. by rewrite B1.
  - set (k := Z.of_nat (length (e :: L))) in *. assert (0 < k) as Hk by (subst k; cbn [length]; lia).
    assert (head (seqZ 1 k) = Some 1) as Hh by (by rewrite seqZ_cons).
    assert (last (seqZ 1 k) = Some k) as Hl.
    { rewrite last_lookup, length_seqZ. apply lookup_seqZ. lia. }
    rewrite Hh, Hl. cbn [from_option id]. rewrite decide_False by lia.
    rewrite B2, u64_small, decide_False, decide_False by lia.
    replace (Z.to_nat (k + 1 - 1)) with (length (e :: L)) by lia.
    rewrite (get_logs_full st 1 (e :: L)); [|lia|done|lia|].
    + cbn [mbind option_bind]. rewrite B3. by eexists.
    + intros j x Hx. rewrite R4, decide_True by lia. by replace (Z.to_nat (1 + Z.of_nat j - 1)) with j by lia.
Qed.

Lemma rview_restoreRemoved n b : rview (restoreRemoved n b) = rview n.
Proof. unfold restoreRemoved. by destruct (_ && _). Qed.

Lemma rview_new c st sb now :
  rview (NewNodeWithStableStore c st sb now) = ([base_entry 0 0], 0, 0, st, 0, sb, 0).
Proof. unfold NewNodeWithStableStore. by rewrite rview_refresh. Qed.

(** A node rebuilt over the stores, before it reads its log. *)
Lemma restored_hard K n c saved now st :
  storage n = Some st -> disk_inv K n -> K 0 ->
  let n1 := restoreRemoved (restorePeers (restoreHardState
    (NewNodeWithStableStore c (storage n) (stable n) now)) c (saved_peers saved)) (saved_removed saved) in
  log_view n1 = ([base_entry 0 0], 0, 0) /\ storage n1 = Some st /\ K (commitIndex n1) /\ disk_inv K n1.
Proof.
  intros Es R6 K0. cbv zeta. pose proof (rview_new c (storage n) (stable n) now) as Vf. generalize dependent (NewNodeWithStableStore c (storage n) (stable n) now). intros fresh Vf.
  pose proof (rview_restoreRemoved (restorePeers (restoreHardState fresh) c (saved_peers saved)) (saved_removed saved)) as V1.
  rewrite rview_restorePeers in V1.
  generalize dependent (restoreRemoved (restorePeers (restoreHardState fresh) c (saved_peers saved)) (saved_removed saved)).
  intros n1 V1.
  unfold disk_inv in *. unfold rview, log_view in Vf. injection Vf as F1 F2 F3 F4 F5 F6 F7.
  unfold restoreHardState in V1. unfold rview, log_view in *.
  rewrite F6 in V1. destruct (stable n) as [[h|]|]; [| |done]; cbn in V1;
    injection V1 as V1 V2 V3 V4 V5 V6 V7; rewrite V1, V2, V3, V4, V5, V6, V7, ?F1, ?F2, ?F3, ?F4, ?F5, ?F6, ?F7.
  - destruct R6 as (T1 & T2 & T3 & T4). rewrite T2, T3. split_and!; auto; lia.
  - split_and!; auto.
Qed.

Definition started (n : Node) : Node :=
  let n' := if existsb (fun e => bool_decide (logBase n < Index e)%Z &&
                                 bool_decide (Type_ e = LogMembershipChange)) (log n)
            then refreshMembershipLocked n else n in
  set_tableScopeFloor (lastApplied n') n'.

Lemma rview_started n : rview (started n) = rview n.
Proof.
  unfold started. cbv zeta. set (m := if existsb _ _ then _ else _). transitivity (rview m); [done|].
  subst m. destruct (existsb _ _); [apply rview_refresh|done].
Qed.

Lemma start_node_started fresh c saved durable n' :
  start_node fresh c saved durable None = Some n' ->
  exists n2, restoreLog (restoreRemoved (restorePeers (restoreHardState fresh) c (saved_peers saved))
    (saved_removed saved)) = Some n2 /\ n' = started n2.
Proof.
  unfold start_node. cbn [restoreLatestSnapshot].
  destruct (restoreLog _) as [n2|]; [|done]. cbn [mbind option_bind]. intros [= <-]. by exists n2.
Qed.

Lemma restart_repr K L n c saved durable now n' :
  repr K L n -> K 0 ->
  start_node (NewNodeWithStableStore c (storage n) (stable n) now) c saved durable None = Some n' ->
  repr K L n'.
Proof.
  intros [R1 R2 R3 (st & Es & R4) R5 R6] K0 (n2 & E & ->)%start_node_started.
  destruct (restored_hard K n c saved now st Es R6 K0) as (L1 & S1 & C1 & D1). revert E L1 S1 C1 D1.
  generalize (restoreRemoved (restorePeers (restoreHardState
    (NewNodeWithStableStore c (storage n) (stable n) now)) c (saved_peers saved)) (saved_removed saved)).
  intros n1 E L1 S1 C1 D1. destruct (restoreLog_full n1 st L L1 S1 R2 R3 R4) as (n2' & E2 & V2).
  rewrite E2 in E. injection E as ->. unfold log_view in L1. injection L1 as B1 B2 B3.
  apply (repr_view K L (set_log (base_entry 0 0 :: L) n1)); [by rewrite rview_started|].
  constructor; auto; [unfold log_view; cbn; by rewrite B2, B3|]. exists st. by split.
Qed.
End restart.
