(* ===== verification/RaftSafety.v ===== *)
(** * Safety of a cluster of Raft nodes

    The nodes of Raft.v with their network: vote and append requests that are
    sent, delayed, repeated or lost, their answers, and crashes with a restart
    from disk. Every run implements the protocol of RaftSpec.v, so logs match,
    leaders hold what is committed, and committed prefixes agree.

    The voters are fixed, logs are not compacted, and a write to the log
    store happens entirely or not at all. A campaign whose hard state cannot
    be written keeps its new term in memory (src/internal/raft/node.go,
    startElection); the runs considered are those in which that write is on
    disk or succeeded. *)
From stdpp Require Import base gmap strings list sorting.
From Stdlib Require Import ZArith Lia Strings.Byte.
From S2P Require Import Prelude Membership Raft RaftOps RaftElection RaftLog RaftProps RaftConfig RaftReplication RaftSpec RaftRepr.

Open Scope Z_scope.

(** ** The network *)

Record net := Net {
  nt_cluster : cluster;
  nt_votes : list RequestVoteRequest;
  nt_appends : list AppendEntriesRequest;
  nt_replies : list (string * AppendEntriesRequest * AppendEntriesResponse);
  nt_reads : list (string * Z); (* commit indexes handed to [sendHeartbeats] *)
}.

Section network.
Context {MC : MembershipCodec} (V : gset string).

Definition nd (x : net) (i : string) : Node := nodes (nt_cluster x) i.

(** The voters of the configuration in effect are [V]. *)
Definition fixed_config (n : Node) : Prop := voters (membershipLatest n) = V.

(** Indexes stay clear of the end of uint64. *)
Definition room (n : Node) : Prop := lastLogIndexLocked n + 3 < 2 ^ 64.

Definition append_atomic (io : append_entries_io) : Prop :=
  delete_atomic (aio_delete io) /\ store_atomic (aio_store io).

(** What a node does without changing its log or its commit index. *)
Inductive calm_step (n : Node) : Node -> Prop :=
| ks_heartbeat req io now : calm_step n (handleHeartbeat n req io now).1
| ks_vote_response term respTerm io now : calm_step n (handleVoteResponse n term respTerm io now)
| ks_ack peer term sentAt : calm_step n (markPeerAck n peer term sentAt)
| ks_check_quorum now : calm_step n (checkQuorum n now)
| ks_process (F : Type) fsm_Apply isRetryable fsm_Set fuel (f : F) commit io :
    calm_step n (processCommitted fsm_Apply isRetryable fsm_Set fuel n f commit 0 0 io).1.1
| ks_begin io now n' e :
    no_wrap n -> durable io -> startElection_begin n io now = (n', e) ->
    (forall term, e <> SingleNode term) -> calm_step n n'
| ks_campaign_off term pre io now n' :
    no_wrap n -> durable io -> startElection_campaign n term pre io now = (n', None) -> calm_step n n'.

Definition with_node (x : net) (i : string) (n : Node) : cluster :=
  Cluster (upd (nodes (nt_cluster x)) i n) (grants (nt_cluster x)) (campaigns (nt_cluster x))
    (led (nt_cluster x)).

Inductive nstep (x : net) : net -> Prop :=
| ns_local i n' :
    calm_step (nd x i) n' ->
    nstep x (Net (with_node x i n') (nt_votes x) (nt_appends x) (nt_replies x) (nt_reads x))
| ns_single i io now n' term :
    no_wrap (nd x i) -> durable io -> startElection_begin (nd x i) io now = (n', SingleNode term) ->
    voting_ok V i [] ->
    nstep x (Net (Cluster (upd (nodes (nt_cluster x)) i n') ({[(i, i, term)]} ∪ grants (nt_cluster x))
      (Campaign i term [] [] :: campaigns (nt_cluster x)) (led (nt_cluster x)))
      (nt_votes x) (nt_appends x) (nt_replies x) (nt_reads x))
| ns_campaign i preTerm pre io now n' req voting :
    no_wrap (nd x i) -> durable io ->
    startElection_campaign (nd x i) preTerm pre io now = (n', Some req) -> voting_ok V i voting ->
    nstep x (Net (Cluster (upd (nodes (nt_cluster x)) i n') ({[(i, i, rv_Term req)]} ∪ grants (nt_cluster x))
      (Campaign i (rv_Term req) voting [] :: campaigns (nt_cluster x)) (led (nt_cluster x)))
      (req :: nt_votes x) (nt_appends x) (nt_replies x) (nt_reads x))
| ns_vote v req io1 io2 now n' resp :
    req ∈ nt_votes x -> handleRequestVote (nd x v) req io1 io2 now = (n', resp) ->
    nstep x (Net (Cluster (upd (nodes (nt_cluster x)) v n')
      (if vr_VoteGranted resp then {[(v, rv_CandidateID req, rv_Term req)]} ∪ grants (nt_cluster x)
       else grants (nt_cluster x)) (campaigns (nt_cluster x)) (led (nt_cluster x)))
      (nt_votes x) (nt_appends x) (nt_replies x) (nt_reads x))
| ns_count k ks1 ks2 v :
    campaigns (nt_cluster x) = ks1 ++ k :: ks2 -> v ∈ c_voting k -> v ∉ c_votes k ->
    (v, c_cand k, c_term k) ∈ grants (nt_cluster x) ->
    nstep x (Net (Cluster (nodes (nt_cluster x)) (grants (nt_cluster x))
      (ks1 ++ Campaign (c_cand k) (c_term k) (c_voting k) (v :: c_votes k) :: ks2) (led (nt_cluster x)))
      (nt_votes x) (nt_appends x) (nt_replies x) (nt_reads x))
| ns_finish k io now n' :
    k ∈ campaigns (nt_cluster x) -> store_atomic io -> room (nd x (c_cand k)) ->
    n' = startElection_finish (nd x (c_cand k)) (c_term k) (length (c_voting k))
           (S (length (c_votes k))) io now ->
    nstep x (Net (Cluster (upd (nodes (nt_cluster x)) (c_cand k) n') (grants (nt_cluster x))
      (campaigns (nt_cluster x))
      (if decide (state (nd x (c_cand k)) <> StateLeader /\ state n' = StateLeader)
       then {[(c_cand k, currentTerm n')]} ∪ led (nt_cluster x) else led (nt_cluster x)))
      (nt_votes x) (nt_appends x) (nt_replies x) (nt_reads x))
| ns_read i :
    nstep x (Net (nt_cluster x) (nt_votes x) (nt_appends x) (nt_replies x)
      ((i, commitIndex (nd x i)) :: nt_reads x))
| ns_send i p commit req :
    (i, commit) ∈ nt_reads x -> build_append (nd x i) p commit = Some (false, req) ->
    nstep x (Net (nt_cluster x) (nt_votes x) (req :: nt_appends x) (nt_replies x) (nt_reads x))
| ns_append v req io now n' resp :
    req ∈ nt_appends x -> append_atomic io -> handleAppendEntries (nd x v) req io now = (n', resp) ->
    nstep x (Net (with_node x v n') (nt_votes x) (nt_appends x) ((v, req, resp) :: nt_replies x) (nt_reads x))
| ns_response v current req resp io now :
    (v, req, resp) ∈ nt_replies x -> fixed_config (nd x (ae_LeaderID req)) ->
    nstep x (Net (with_node x (ae_LeaderID req)
        (handleAppendEntriesResponse (nd x (ae_LeaderID req)) v current req resp io now).1)
      (nt_votes x) (nt_appends x) (nt_replies x) (nt_reads x))
| ns_command i data io :
    store_atomic io -> room (nd x i) ->
    nstep x (Net (with_node x i (handleApply (nd x i) data io).1)
      (nt_votes x) (nt_appends x) (nt_replies x) (nt_reads x))
| ns_propose i type peer old io :
    store_atomic io -> room (nd x i) ->
    nstep x (Net (with_node x i (proposeMembershipChange (nd x i) type peer old io).1)
      (nt_votes x) (nt_appends x) (nt_replies x) (nt_reads x))
| ns_check_commit i io :
    fixed_config (nd x i) ->
    nstep x (Net (with_node x i (checkCommit (nd x i) io).1)
      (nt_votes x) (nt_appends x) (nt_replies x) (nt_reads x))
| ns_restart i c saved durable_fsm now n' :
    cfg_NodeID c = nodeID (nd x i) ->
    start_node (NewNodeWithStableStore c (storage (nd x i)) (stable (nd x i)) now) c saved durable_fsm None
      = Some n' ->
    nstep x (Net (with_node x i n') (nt_votes x) (nt_appends x) (nt_replies x) (nt_reads x)).

(** New nodes over empty stores. *)
Definition ninit (x : net) : Prop :=
  cinit (nt_cluster x) /\
  (forall i, log_view (nd x i) = ([base_entry 0 0], 0, 0) /\ storage (nd x i) = Some ∅ /\
     commitIndex (nd x i) = 0 /\ config_ok (nd x i)) /\
  nt_votes x = [] /\ nt_appends x = [] /\ nt_replies x = [] /\ nt_reads x = [].

Definition nreach (x : net) : Prop := exists x0, ninit x0 /\ rtc nstep x0 x.

(** ** The simulation *)

Definition commit_ok (s : spec) (i : string) (c : Z) : Prop :=
  c = 0 \/ (0 < c /\ sp_known s i (Z.to_nat c)).

Record sim_node (s : spec) (i : string) (n : Node) : Prop := {
  sn_repr : repr (commit_ok s i) (sp_log s i) n;
  sn_term : currentTerm n = sp_term s i;
  sn_match : state n = StateLeader -> forall id, is_Some (peers n !! id) ->
    default 0 (matchIndex n !! id) = 0 \/
    exists k, sp_ack s id (currentTerm n) k /\ default 0 (matchIndex n !! id) <= Z.of_nat k;
  sn_lead : state n = StateLeader -> exists r, sp_reign s (currentTerm n) = Some r /\ r_owner r = i;
}.

Definition vreq_ok (s : spec) (req : RequestVoteRequest) : Prop :=
  exists C, sp_cand s (rv_CandidateID req, rv_Term req) = Some C /\
    rv_LastLogIndex req = Z.of_nat (length C) /\ rv_LastLogTerm req = last_term C.

Definition append_ok (s : spec) (req : AppendEntriesRequest) : Prop :=
  exists r, sp_reign s (ae_Term req) = Some r /\ r_owner r = ae_LeaderID req /\
    ((0 < ae_PrevLogIndex req /\ ae_PrevLogTerm req = 0 /\ ae_Entries req = []) \/
     exists prev, ae_PrevLogIndex req = Z.of_nat prev /\ slice (r_log r) prev (ae_Entries req) /\
       (prev + length (ae_Entries req) <= length (r_log r))%nat /\
       (prev = 0%nat \/ has (r_log r) (pred prev) (ae_PrevLogTerm req))) /\
    (ae_LeaderCommit req = 0 \/
     (0 < ae_LeaderCommit req /\ sp_said s (ae_Term req) (Z.to_nat (ae_LeaderCommit req)))).

Definition reply_ok (s : spec) (rep : string * AppendEntriesRequest * AppendEntriesResponse) : Prop :=
  let '(v, req, resp) := rep in
  ar_Success resp = true ->
  exists m, sp_ack s v (ae_Term req) m /\
    ae_PrevLogIndex req + Z.of_nat (length (ae_Entries req)) = Z.of_nat m /\ Z.of_nat m + 2 < 2 ^ 64.

Definition reigns_ok (s : spec) : Prop :=
  forall u r, sp_reign s u = Some r -> indexed 1 (r_log r) /\ Z.of_nat (length (r_log r)) + 2 < 2 ^ 64.

Record sim (x : net) (s : spec) : Prop := {
  sm_node : forall i, sim_node s i (nd x i);
  sm_vote : forall v c t, (v, c, t) ∈ grants (nt_cluster x) <-> sp_vote s v c t;
  sm_campaign : Forall (fun k => is_Some (sp_cand s (c_cand k, c_term k))) (campaigns (nt_cluster x));
  sm_sent : Forall (fun req => exists k, k ∈ campaigns (nt_cluster x) /\
    rv_CandidateID req = c_cand k /\ rv_Term req = c_term k) (nt_votes x);
  sm_votes : Forall (vreq_ok s) (nt_votes x);
  sm_appends : Forall (append_ok s) (nt_appends x);
  sm_replies : Forall (reply_ok s) (nt_replies x);
  sm_reads : Forall (fun p => commit_ok s p.1 p.2) (nt_reads x);
  sm_reigns : reigns_ok s;
}.

(** *** What a protocol step at node [i] keeps *)

Record ext (i : string) (s s' : spec) : Prop := {
  ex_grows : grows s s';
  ex_other : forall j, j <> i -> sp_term s' j = sp_term s j /\ sp_log s' j = sp_log s j;
  ex_cand : forall k C, sp_cand s k = Some C -> sp_cand s' k = Some C;
  ex_known : forall v c, sp_known s v c -> sp_known s' v c;
  ex_said : forall u c, sp_said s u c -> sp_said s' u c;
}.

Lemma grows_refl s : grows s s.
Proof. by apply grows_same. Qed.

Lemma grows_trans s1 s2 s3 : grows s1 s2 -> grows s2 s3 -> grows s1 s3.
Proof.
  intros [A1 A2] [B1 B2]. constructor; [|auto]. intros u r Hr.
  destruct (A1 u r Hr) as (r1 & Hr1 & E1 & E2 & E3). destruct (B1 u r1 Hr1) as (r2 & Hr2 & F1 & F2 & F3).
  exists r2. split_and!; [done|congruence|congruence|by etrans].
Qed.

#[local] Instance ext_preorder i : PreOrder (ext i).
Proof.
  split.
  - intros s. constructor; auto. apply grows_refl.
  - intros s1 s2 s3 [A1 A2 A3 A4 A5] [B1 B2 B3 B4 B5]. constructor; auto; [by eapply grows_trans|].
    intros j Hj. destruct (A2 j Hj), (B2 j Hj). split; congruence.
Qed.

Lemma commit_ok_mono s s' i j c : ext i s s' -> commit_ok s j c -> commit_ok s' j c.
Proof. intros He [->|[? ?]]; [by left|right]. split; [done|by apply He]. Qed.

Lemma sim_node_other s s' i j n : ext i s s' -> j <> i -> sim_node s j n -> sim_node s' j n.
Proof.
  intros He Hj [H1 H2 H3 H4]. destruct (ex_other _ _ _ He j Hj) as [Et El]. constructor.
  - rewrite El. eapply repr_mono; [|exact H1]. intros c. by apply (commit_ok_mono s s' i).
  - by rewrite Et.
  - intros Hs id Hid. destruct (H3 Hs id Hid) as [?|(k & Hk & Hle)]; [by left|right].
    exists k. split; [by apply (gr_ack _ _ (ex_grows _ _ _ He))|done].
  - intros Hs. destruct (H4 Hs) as (r & Hr & Ho).
    destruct (gr_reign _ _ (ex_grows _ _ _ He) _ _ Hr) as (r' & Hr' & E & _). exists r'. split; [done|congruence].
Qed.

Lemma slice_prefix l l' prev es :
  l `prefix_of` l' -> (prev + length es <= length l)%nat -> slice l prev es -> slice l' prev es.
Proof.
  intros [k ->] Hl Hs. unfold slice in *. rewrite Hs at 1. rewrite drop_app_le by lia.
  rewrite take_app_le; [done|]. rewrite length_drop. lia.
Qed.

Lemma append_ok_mono i s s' req : ext i s s' -> append_ok s req -> append_ok s' req.
Proof.
  intros He (r & Hr & Ho & Hc & Hs). destruct (gr_reign _ _ (ex_grows _ _ _ He) _ _ Hr) as (r' & Hr' & Eo & _ & Hp).
  exists r'. split_and!; [done|congruence| |].
  - destruct Hc as [?|(prev & E1 & E2 & E3 & E4)]; [by left|right]. exists prev.
    pose proof (prefix_length _ _ Hp). split_and!; [done|by eapply slice_prefix|lia|].
    destruct E4; [by left|right; by eapply has_prefix].
  - destruct Hs as [?|[? ?]]; [by left|right]. split; [done|by apply He].
Qed.

Lemma reply_ok_mono i s s' rep : ext i s s' -> reply_ok s rep -> reply_ok s' rep.
Proof.
  destruct rep as [[v req] resp]. intros He H Hs. destruct (H Hs) as (m & H1 & H2 & H3). exists m.
  split_and!; [by apply (gr_ack _ _ (ex_grows _ _ _ He))|done|done].
Qed.

Lemma vreq_ok_mono i s s' req : ext i s s' -> vreq_ok s req -> vreq_ok s' req.
Proof. intros He (C & H1 & H2). exists C. split; [by apply He|done]. Qed.

(** Assembling the simulation after a step of node [i]. *)
Lemma sim_after x s s' i n' gs ks ld vs aps rps :
  sim x s -> ext i s s' -> sim_node s' i n' -> reigns_ok s' ->
  (forall v c t, (v, c, t) ∈ gs <-> sp_vote s' v c t) ->
  (forall k, k ∈ ks -> is_Some (sp_cand s' (c_cand k, c_term k))) ->
  (forall k, k ∈ campaigns (nt_cluster x) -> exists k', k' ∈ ks /\ c_cand k' = c_cand k /\ c_term k' = c_term k) ->
  (forall req, req ∈ vs -> req ∈ nt_votes x \/
     (vreq_ok s' req /\ exists k, k ∈ ks /\ rv_CandidateID req = c_cand k /\ rv_Term req = c_term k)) ->
  (forall rep, rep ∈ rps -> rep ∈ nt_replies x \/ reply_ok s' rep) ->
  (forall req, req ∈ aps -> req ∈ nt_appends x \/ append_ok s' req) ->
  sim (Net (Cluster (upd (nodes (nt_cluster x)) i n') gs ks ld) vs aps rps (nt_reads x)) s'.
Proof.
  intros [S1 S2 S3 S4 S5 S6 S7 S8 S9] He Hn Hr Hv Hk Hkk Hvs Hrp Hap. rewrite !Forall_forall in *.
  constructor; simpl; rewrite ?Forall_forall; auto.
  - intros j. unfold nd. simpl. unfold upd. case_decide as E; [by subst|]. by eapply sim_node_other; [|done|apply S1].
  - intros req Hreq. destruct (Hvs req Hreq) as [Hold|[_ H]]; [|done].
    destruct (S4 req Hold) as (k & Hin & E1 & E2). destruct (Hkk k Hin) as (k' & Hin' & E3 & E4).
    exists k'. split_and!; [done|congruence|congruence].
  - intros req Hreq. destruct (Hvs req Hreq) as [Hold|[H _]]; [|done]. by eapply vreq_ok_mono, S5.
  - intros req Hreq. destruct (Hap req Hreq) as [Hold|H]; [|done]. by eapply append_ok_mono, S6.
  - intros rep Hrep. destruct (Hrp rep Hrep) as [Hold|H]; [|done]. by eapply reply_ok_mono, S7.
  - intros p Hp. eapply commit_ok_mono; [done|by apply S8].
Qed.

(** The same for steps that only change the node and the protocol's history. *)
Lemma sim_after_node x s s' i n' aps rps ld :
  sim x s -> ext i s s' -> sim_node s' i n' -> reigns_ok s' -> sp_vote s' = sp_vote s ->
  (forall rep, rep ∈ rps -> rep ∈ nt_replies x \/ reply_ok s' rep) ->
  (forall req, req ∈ aps -> req ∈ nt_appends x \/ append_ok s' req) ->
  sim (Net (Cluster (upd (nodes (nt_cluster x)) i n') (grants (nt_cluster x)) (campaigns (nt_cluster x)) ld)
    (nt_votes x) aps rps (nt_reads x)) s'.
Proof.
  intros Hs He Hn Hr Ev Hrp Hap. eapply sim_after; eauto.
  - rewrite Ev. apply Hs.
  - intros k Hk. pose proof (sm_campaign x s Hs) as Hc. rewrite Forall_forall in Hc.
    destruct (Hc k Hk) as [C HC]. exists C. by apply He.
Qed.

(** *** Quiet steps *)

Definition raise (s : spec) (i : string) (u : Z) : spec :=
  Spec (fset (sp_term s) i u) (sp_log s) (sp_reign s) (sp_cand s) (sp_vote s) (sp_ack s) (sp_known s) (sp_said s).

Lemma ext_raise s i u : ext i s (raise s i u).
Proof.
  constructor; auto; [by apply grows_same|]. intros j Hj. simpl. by rewrite fset_ne.
Qed.

Lemma sim_node_step s s' i n n' :
  sim_node s i n -> ext i s s' -> repr (commit_ok s' i) (sp_log s' i) n' -> currentTerm n' = sp_term s' i ->
  prog n n' -> sim_node s' i n'.
Proof.
  intros [H1 H2 H3 H4] He Hr Ht Hp. constructor; [done|done| |].
  - intros Hs id Hid. destruct (Hp Hs) as (Hs0 & Et & Hm). destruct (Hm id Hid) as [?|[Hid0 E]]; [by left|].
    rewrite E, Et. destruct (H3 Hs0 id Hid0) as [?|(k & Hk & Hle)]; [by left|right].
    exists k. split; [by apply (gr_ack _ _ (ex_grows _ _ _ He))|done].
  - intros Hs. destruct (Hp Hs) as (Hs0 & Et & _). rewrite Et. destruct (H4 Hs0) as (r & Hr0 & Ho).
    destruct (gr_reign _ _ (ex_grows _ _ _ He) _ _ Hr0) as (r' & Hr' & E & _). exists r'. split; [done|congruence].
Qed.

Lemma quiet_term n n' : quiet n n' -> currentTerm n <= currentTerm n'.
Proof. intros Hq. destruct (q_term _ _ Hq) as [[-> _]|]; lia. Qed.

Lemma calm_sim_node s i n n' :
  sim_node s i n -> calm n n' ->
  sp_step V s (raise s i (currentTerm n')) /\ sim_node (raise s i (currentTerm n')) i n'.
Proof.
  intros Hn [Hq Hr Hp]. pose proof (quiet_term _ _ Hq) as Hle. rewrite (sn_term _ _ _ Hn) in Hle.
  split; [by apply st_observe|]. eapply sim_node_step; [exact Hn|apply ext_raise| | |done].
  - simpl. apply Hr. eapply repr_mono; [|apply Hn]. intros c. by apply (commit_ok_mono s _ i), ext_raise.
  - simpl. by rewrite fset_eq.
Qed.

Lemma calm_step_calm n n' : calm_step n n' -> calm n n'.
Proof.
  intros [req io now|term rt io now|peer term sentAt|now|F fa ir fs fuel f commit io
    |io now m e Hw Hd E He|term pre io now m Hw Hd E].
  - apply calm_handleHeartbeat.
  - apply calm_handleVoteResponse.
  - apply calm_markPeerAck.
  - apply calm_checkQuorum.
  - apply calm_processCommitted.
  - constructor.
    + pose proof (begin_cases n io now Hw) as Hb. rewrite E in Hb. destruct e; [done|by destruct (He term)|done].
    + intros K L. by eapply begin_repr.
    + by eapply begin_prog.
  - constructor.
    + pose proof (campaign_cases n term pre io now Hw) as Hb. by rewrite E in Hb.
    + intros K L Hn. by eapply campaign_repr.
    + by eapply campaign_prog.
Qed.

(** *** Elections *)

Definition campaigned (s : spec) (c : string) (u : Z) : spec :=
  Spec (fset (sp_term s) c u) (sp_log s) (sp_reign s) (fset (sp_cand s) (c, u) (Some (sp_log s c)))
    (fun v c' t => (v = c /\ c' = c /\ t = u) \/ sp_vote s v c' t) (sp_ack s) (sp_known s) (sp_said s).

Lemma ext_campaigned s c u : sp_inv V s -> sp_term s c < u -> ext c s (campaigned s c u).
Proof.
  intros Hi Hu. constructor; auto; [by apply grows_same| |].
  - intros j Hj. simpl. by rewrite fset_ne.
  - intros [c' w] C HC. simpl. unfold fset. case_decide as E; [|done]. simplify_eq.
    destruct (si_cand V s Hi _ _ _ HC) as (_ & _ & ? & _). lia.
Qed.

Lemma sim_campaign x s i n' voting vs ld :
  sim x s -> sp_inv V s -> self_voted (nd x i) n' ->
  (repr (commit_ok s i) (sp_log s i) (nd x i) -> repr (commit_ok s i) (sp_log s i) n') ->
  (forall req, req ∈ vs -> req ∈ nt_votes x \/
     (rv_CandidateID req = i /\ rv_Term req = currentTerm n' /\
      rv_LastLogIndex req = Z.of_nat (length (sp_log s i)) /\ rv_LastLogTerm req = last_term (sp_log s i))) ->
  exists s', rtc (sp_step V) s s' /\
    sim (Net (Cluster (upd (nodes (nt_cluster x)) i n') ({[(i, i, currentTerm n')]} ∪ grants (nt_cluster x))
      (Campaign i (currentTerm n') voting [] :: campaigns (nt_cluster x)) ld)
      vs (nt_appends x) (nt_replies x) (nt_reads x)) s'.
Proof.
  intros Hs Hi Hsv Hr Hvs. pose proof (sm_node x s Hs i) as Hn.
  assert (sp_term s i < currentTerm n') as Hlt by (rewrite (sv_term _ _ Hsv), <- (sn_term _ _ _ Hn); lia).
  exists (campaigned s i (currentTerm n')). pose proof (ext_campaigned s i _ Hi Hlt) as He.
  split; [by apply rtc_once, st_campaign|]. eapply sim_after; [exact Hs|exact He| | | | | | | |]; auto.
  - eapply sim_node_step; [exact Hn|exact He| | |].
    + simpl. eapply repr_mono; [|apply Hr, Hn]. intros c. by apply (commit_ok_mono s _ i).
    + simpl. by rewrite fset_eq.
    + intros Hst. rewrite (sv_state _ _ Hsv) in Hst. done.
  - apply (sm_reigns x s Hs).
  - intros v c t. simpl. rewrite elem_of_union, elem_of_singleton, (sm_vote x s Hs). intuition congruence.
  - intros k [->|Hk]%elem_of_cons; simpl; [rewrite fset_eq; by eexists|].
    pose proof (sm_campaign x s Hs) as Hc. rewrite Forall_forall in Hc. destruct (Hc k Hk) as [C HC].
    exists C. by apply (ex_cand _ _ _ He).
  - intros k Hk. exists k. split_and!; [by right|done..].
  - intros req Hreq. destruct (Hvs req Hreq) as [?|(E1 & E2 & E3 & E4)]; [by left|right]. split.
    + exists (sp_log s i). rewrite E1, E2. simpl. by rewrite fset_eq.
    + eexists. split; [by left|]. by simpl.
Qed.

Definition granted (s : spec) (v c : string) (u : Z) : spec :=
  Spec (fset (sp_term s) v u) (sp_log s) (sp_reign s) (sp_cand s)
    (fun v' c' t => (v' = v /\ c' = c /\ t = u) \/ sp_vote s v' c' t) (sp_ack s) (sp_known s) (sp_said s).

Lemma ext_granted s v c u : ext v s (granted s v c u).
Proof. constructor; auto; [by apply grows_same|]. intros j Hj. simpl. by rewrite fset_ne. Qed.

Lemma sim_vote x s v req io1 io2 now n' resp :
  sim x s -> req ∈ nt_votes x -> handleRequestVote (nd x v) req io1 io2 now = (n', resp) ->
  (vr_VoteGranted resp = true -> forall c', (v, c', rv_Term req) ∈ grants (nt_cluster x) -> c' = rv_CandidateID req) ->
  exists s', rtc (sp_step V) s s' /\
    sim (Net (Cluster (upd (nodes (nt_cluster x)) v n')
      (if vr_VoteGranted resp then {[(v, rv_CandidateID req, rv_Term req)]} ∪ grants (nt_cluster x)
       else grants (nt_cluster x)) (campaigns (nt_cluster x)) (led (nt_cluster x)))
      (nt_votes x) (nt_appends x) (nt_replies x) (nt_reads x)) s'.
Proof.
  intros Hs Hreq E Hun. pose proof (sm_node x s Hs v) as Hn. pose proof (handleRequestVote_cases (nd x v) req io1 io2 now) as Hc.
  rewrite E in Hc. destruct Hc as [Hno Hyes].
  destruct (vote_repr _ _ _ _ _ _ _ _ _ E (sn_repr _ _ _ Hn)) as (Hr & Hp & Hup).
  destruct (vr_VoteGranted resp).
  - destruct (Hyes eq_refl) as (n1 & _ & _ & _ & _ & _ & Ht & _). destruct (Hup eq_refl) as [Hle Hlog].
    pose proof (sm_votes x s Hs) as Hvs. rewrite Forall_forall in Hvs. destruct (Hvs req Hreq) as (C & HC & E1 & E2).
    rewrite (sn_term _ _ _ Hn) in Hle. exists (granted s v (rv_CandidateID req) (rv_Term req)). split.
    + apply rtc_once. eapply st_grant; [exact HC|exact Hle| |].
      * intros c' Hv. apply (sm_vote x s Hs) in Hv. by apply Hun.
      * unfold up_to_date. rewrite E1, E2 in Hlog. destruct Hlog as [?|[? ?]]; [by left|right]. split; [done|lia].
    + pose proof (ext_granted s v (rv_CandidateID req) (rv_Term req)) as He.
      eapply sim_after; [exact Hs|exact He| | | | | | | |]; auto.
      * eapply sim_node_step; [exact Hn|exact He| | |done].
        -- simpl. eapply repr_mono; [|exact Hr]. intros c. by apply (commit_ok_mono s _ v).
        -- simpl. by rewrite fset_eq.
      * apply (sm_reigns x s Hs).
      * intros v' c t. simpl. rewrite elem_of_union, elem_of_singleton, (sm_vote x s Hs). intuition congruence.
      * pose proof (sm_campaign x s Hs) as Hk. by rewrite Forall_forall in Hk.
      * intros k Hk. by exists k.
  - specialize (Hno eq_refl). pose proof (quiet_term _ _ Hno) as Hle. rewrite (sn_term _ _ _ Hn) in Hle.
    exists (raise s v (currentTerm n')). split; [by apply rtc_once, st_observe|].
    pose proof (ext_raise s v (currentTerm n')) as He.
    apply (sim_after_node x s); auto; [|apply (sm_reigns x s Hs)].
    eapply sim_node_step; [exact Hn|exact He| | |done].
    + simpl. eapply repr_mono; [|exact Hr]. intros c. by apply (commit_ok_mono s _ v).
    + simpl. by rewrite fset_eq.
Qed.

(** *** Entries of a leader *)

Definition elected (s : spec) (c : string) (u : Z) (C : list RaftLogEntry) (e : RaftLogEntry) : spec :=
  Spec (sp_term s) (fset (sp_log s) c (C ++ [e])) (fset (sp_reign s) u (Some (Reign c C (C ++ [e]))))
    (sp_cand s) (sp_vote s) (fun v t m => (v = c /\ t = u /\ m = S (length C)) \/ sp_ack s v t m)
    (sp_known s) (sp_said s).

Definition appended (s : spec) (c : string) (u : Z) (r : reign) (e : RaftLogEntry) : spec :=
  Spec (sp_term s) (fset (sp_log s) c (sp_log s c ++ [e]))
    (fset (sp_reign s) u (Some (Reign c (r_start r) (r_log r ++ [e])))) (sp_cand s) (sp_vote s)
    (fun v t m => (v = c /\ t = u /\ m = S (length (sp_log s c))) \/ sp_ack s v t m) (sp_known s) (sp_said s).

Lemma ext_elected s c u C e : sp_reign s u = None -> ext c s (elected s c u C e).
Proof.
  intros Hno. constructor; auto.
  - constructor; simpl; [|auto]. intros w r Hr. unfold fset. case_decide; [congruence|].
    exists r. by split_and!.
  - intros j Hj. simpl. by rewrite fset_ne.
Qed.

Lemma ext_appended s c u r e : sp_reign s u = Some r -> r_owner r = c -> ext c s (appended s c u r e).
Proof.
  intros Hr Ho. constructor; auto.
  - constructor; simpl; [|auto]. intros w r' Hr'. unfold fset. case_decide as E; [|exists r'; by split_and!].
    subst w. rewrite Hr in Hr'. simplify_eq. eexists. split_and!; try done. by eexists.
  - intros j Hj. simpl. by rewrite fset_ne.
Qed.

Lemma reigns_ok_set s s' u r L n K :
  reigns_ok s -> (forall w, w <> u -> sp_reign s' w = sp_reign s w) -> sp_reign s' u = Some r ->
  r_log r = L -> repr K L n -> reigns_ok s'.
Proof.
  intros Hok Hne Hu El Hr w r' Hr'. destruct (decide (w = u)) as [->|Hw].
  - rewrite Hu in Hr'. simplify_eq. split; [apply Hr|apply Hr].
  - rewrite Hne in Hr' by done. by apply Hok in Hr'.
Qed.

(** A promotion starts a reign, or the owner of a reign is promoted again. *)
Lemma sim_finish x s k n' ld :
  sim x s -> sp_inv V s -> Forall (campaign_ok V (grants (nt_cluster x))) (campaigns (nt_cluster x)) ->
  k ∈ campaigns (nt_cluster x) -> (votesNeeded (length (c_voting k)) <= S (length (c_votes k)))%nat ->
  promoted (commit_ok s (c_cand k)) (sp_log s (c_cand k)) (nd x (c_cand k)) n' (c_term k) ->
  exists s', rtc (sp_step V) s s' /\
    sim (Net (Cluster (upd (nodes (nt_cluster x)) (c_cand k) n') (grants (nt_cluster x))
      (campaigns (nt_cluster x)) ld) (nt_votes x) (nt_appends x) (nt_replies x) (nt_reads x)) s'.
Proof.
  intros Hs Hi Hck Hk Hvn [P1 P2 P3 P4 P5]. set (c := c_cand k) in *. set (u := c_term k) in *.
  pose proof (sm_node x s Hs c) as Hn. rewrite (sn_term _ _ _ Hn) in P1.
  rewrite Forall_forall in Hck. destruct (campaign_majority V _ k (Hck k Hk) Hvn) as (q & Hq & Hqv).
  assert (forall v, v ∈ q -> sp_vote s v c u) as Hv by (intros v Hin; by apply (sm_vote x s Hs), Hqv).
  pose proof (sm_campaign x s Hs) as Hc. rewrite Forall_forall in Hc. destruct (Hc k Hk) as [C HC]. fold c u in HC.
  assert (exists s' r, rtc (sp_step V) s s' /\ ext c s s' /\ sp_term s' = sp_term s /\ sp_vote s' = sp_vote s /\
    sp_log s' c = sp_log s c ++ [noop_of (sp_log s c) u] /\ sp_reign s' u = Some r /\ r_owner r = c /\
    r_log r = sp_log s c ++ [noop_of (sp_log s c) u] /\ (forall w, w <> u -> sp_reign s' w = sp_reign s w))
    as (s' & r & Hst & He & Et & Ev & El & Hr & Ho & Erl & Hoth).
  { destruct (sp_reign s u) as [r|] eqn:Eu.
    - assert (r_owner r = c) as Ho.
      { destruct (si_quorum V s Hi u r Eu) as (q' & Hq' & Hv').
        destruct (majorities_meet V V q q' "") as (v & H1 & H2); [set_solver|set_solver|done|done|].
        destruct (Hv' v H2) as [H3 _]. by apply (si_unique V s Hi v _ _ u H3), Hv. }
      destruct (si_owner V s Hi u r Eu) as (_ & E2 & _). rewrite Ho in E2.
      exists (appended s c u r (noop_of (sp_log s c) u)), (Reign c (r_start r) (r_log r ++ [noop_of (sp_log s c) u])).
      split; [by apply rtc_once, st_append|]. simpl. rewrite !fset_eq, (E2 P1).
      split_and!; auto; [by apply ext_appended|]. intros w Hw. by rewrite fset_ne.
    - destruct (si_cand V s Hi c u C HC) as (_ & _ & _ & Ec). rewrite (Ec P1 Eu) in *.
      exists (elected s c u C (noop_of C u)), (Reign c C (C ++ [noop_of C u])).
      split; [by eapply rtc_once, st_elect|]. simpl. rewrite !fset_eq.
      split_and!; auto; [by apply ext_elected|]. intros w Hw. by rewrite fset_ne. }
  exists s'. split; [done|].
  assert (repr (commit_ok s' c) (sp_log s' c) n') as Hr'.
  { rewrite El. eapply repr_mono; [|exact P4]. intros z. by apply (commit_ok_mono s s' c). }
  apply (sim_after_node x s); auto.
  - constructor; [done|by rewrite P2, Et|intros _ id Hid; left; by apply P5|]. intros _. exists r. by rewrite P2.
  - eapply (reigns_ok_set s s' u r); [apply (sm_reigns x s Hs)|done|done|exact Erl|]. by rewrite El in Hr'.
Qed.

Lemma sim_led_append x s i n' :
  sim x s -> sp_inv V s -> led_append (commit_ok s i) (sp_log s i) (nd x i) n' ->
  exists s', rtc (sp_step V) s s' /\
    sim (Net (with_node x i n') (nt_votes x) (nt_appends x) (nt_replies x) (nt_reads x)) s'.
Proof.
  intros Hs Hi [A1 (e & Ee & _ & Hr) A3 A4]. pose proof (sm_node x s Hs i) as Hn.
  destruct (sn_lead _ _ _ Hn A1) as (r & Hre & Ho). rewrite (sn_term _ _ _ Hn) in *.
  destruct (si_owner V s Hi _ _ Hre) as (_ & El & _). rewrite Ho in El. specialize (El eq_refl).
  pose proof (ext_appended s i _ r e Hre Ho) as He.
  exists (appended s i (sp_term s i) r e). split; [by apply rtc_once, st_append|].
  assert (repr (commit_ok (appended s i (sp_term s i) r e) i) (sp_log s i ++ [e]) n') as Hr'.
  { eapply repr_mono; [|exact Hr]. intros z. by apply (commit_ok_mono s _ i). }
  apply (sim_after_node x s); auto.
  - eapply sim_node_step; [exact Hn|exact He| | |done].
    + simpl. by rewrite fset_eq.
    + unfold core_of in A3. injection A3 as _ _ E _ _. simpl. by rewrite E, (sn_term _ _ _ Hn).
  - eapply (reigns_ok_set s _ (sp_term s i)); [apply (sm_reigns x s Hs)| | | |exact Hr'].
    + intros w Hw. simpl. by rewrite fset_ne.
    + simpl. by rewrite fset_eq.
    + simpl. by rewrite El.
Qed.

(** *** Requests *)

Lemma repr_entries K L n start count :
  repr K L n -> 1 <= start ->
  getEntriesAfter n start count = take (Z.to_nat count) (drop (Z.to_nat (start - 1)) L).
Proof.
  intros Hn Hst. destruct (repr_base K L n Hn) as [Eb _]. pose proof (rp_log _ _ _ Hn) as El.
  unfold log_view in El. injection El as El _ _. unfold getEntriesAfter. case_decide as Hc.
  { by replace (Z.to_nat count) with 0%nat by lia. }
  rewrite Eb, decide_False by lia. unfold logPosition. rewrite Eb, El, decide_False by lia. cbn [length].
  case_decide as Hd.
  - rewrite drop_ge by lia. by rewrite take_nil.
  - by replace (Z.to_nat (start - 0)) with (S (Z.to_nat (start - 1))) by lia.
Qed.

Lemma slice_take l prev k : slice l prev (take k (drop prev l)).
Proof. unfold slice. rewrite length_take. symmetry. rewrite <- take_take. by rewrite firstn_all. Qed.

(** The request is a part of the sender's log. *)
Lemma build_append_ok K L n p commit req :
  repr K L n -> build_append n p commit = Some (false, req) ->
  state n = StateLeader /\ ae_Term req = currentTerm n /\ ae_LeaderID req = nodeID n /\ ae_LeaderCommit req = commit /\
  ((0 < ae_PrevLogIndex req /\ ae_PrevLogTerm req = 0 /\ ae_Entries req = []) \/
   exists prev, ae_PrevLogIndex req = Z.of_nat prev /\ slice L prev (ae_Entries req) /\
     (prev + length (ae_Entries req) <= length L)%nat /\
     (prev = 0%nat \/ has L (pred prev) (ae_PrevLogTerm req))).
Proof.
  intros Hn. unfold build_append. case_decide as Hs; [done|]. cbv zeta. intros [= _ <-]. cbn.
  split_and!; auto. set (nx := p_nextIndex p).
  assert (getEntriesAfter n nx (maxAppendEntries n) =
    take (Z.to_nat (maxAppendEntries n)) (drop (Z.to_nat ((if decide (nx > 0) then nx - 1 else 0))) L)) as ->.
  { case_decide as Hx; [by rewrite (repr_entries K L n) by (done || lia)|].
    destruct (repr_base K L n Hn) as [Eb _].
    transitivity (getEntriesAfter n 1 (maxAppendEntries n)).
    - unfold getEntriesAfter. rewrite Eb. rewrite (decide_True (P := nx <= 0)), (decide_False (P := 1 <= 0)) by lia.
      by rewrite u64_small by lia.
    - by rewrite (repr_entries K L n) by (done || lia). }
  set (prev := if decide (nx > 0) then nx - 1 else 0).
  assert (0 <= prev) as Hp by (subst prev; case_decide; lia). clearbody prev.
  destruct (decide (prev <= Z.of_nat (length L))) as [Hle|Hgt].
  - right. exists (Z.to_nat prev). split_and!; [lia|apply slice_take|rewrite length_take, length_drop; lia|].
    destruct (decide (prev = 0)) as [->|Hne]; [by left|right]. rewrite (repr_term K L n Hn) by lia.
    destruct (lookup_lt_is_Some_2 L (Z.to_nat (prev - 1))) as [e He]; [lia|]. rewrite He.
    apply has_entry. exists e. by replace (pred (Z.to_nat prev)) with (Z.to_nat (prev - 1)) by lia.
  - left. split_and!; [lia| |rewrite drop_ge by lia; apply take_nil].
    rewrite (repr_term K L n Hn) by lia. by rewrite lookup_ge_None_2 by lia.
Qed.

Definition said (s : spec) (u : Z) (n : nat) : spec :=
  Spec (sp_term s) (sp_log s) (sp_reign s) (sp_cand s) (sp_vote s) (sp_ack s) (sp_known s)
    (fun t m => (t = u /\ m = n) \/ sp_said s t m).

Lemma ext_said i s u n : ext i s (said s u n).
Proof. constructor; auto; [by apply grows_same|]. simpl. auto. Qed.

(** A step that changes no node. *)
Lemma sim_messages x s s' aps rds :
  sim x s -> (forall i, ext i s s') -> sp_term s' = sp_term s -> sp_log s' = sp_log s ->
  sp_vote s' = sp_vote s -> sp_reign s' = sp_reign s ->
  (forall req, req ∈ aps -> req ∈ nt_appends x \/ append_ok s' req) ->
  (forall p, p ∈ rds -> p ∈ nt_reads x \/ commit_ok s' p.1 p.2) ->
  sim (Net (nt_cluster x) (nt_votes x) aps (nt_replies x) rds) s'.
Proof.
  intros [S1 S2 S3 S4 S5 S6 S7 S8 S9] He Et El Ev Er Ha Hrd. rewrite !Forall_forall in *.
  constructor; simpl; rewrite ?Forall_forall; auto.
  - intros i. specialize (S1 i). eapply sim_node_step; [exact S1|apply He| | |].
    + rewrite El. eapply repr_mono; [|apply S1]. intros c. by apply (commit_ok_mono s s' i).
    + rewrite Et. apply S1.
    + intros ?. split_and!; auto.
  - by rewrite Ev.
  - intros k Hk. destruct (S3 k Hk) as [C HC]. exists C. by apply (ex_cand _ _ _ (He "")).
  - intros req Hreq. eapply (vreq_ok_mono ""); [apply He|by apply S5].
  - intros req Hreq. destruct (Ha req Hreq) as [?|?]; [|done]. eapply (append_ok_mono ""); [apply He|by apply S6].
  - intros rep Hrep. eapply (reply_ok_mono ""); [apply He|by apply S7].
  - intros p Hp. destruct (Hrd p Hp) as [?|?]; [|done]. eapply (commit_ok_mono s s' ""); [apply He|by apply S8].
  - intros u r. rewrite Er. apply S9.
Qed.

Lemma sim_send x s i p commit req :
  sim x s -> sp_inv V s -> nodeID (nd x i) = i -> (i, commit) ∈ nt_reads x ->
  build_append (nd x i) p commit = Some (false, req) ->
  exists s', rtc (sp_step V) s s' /\
    sim (Net (nt_cluster x) (nt_votes x) (req :: nt_appends x) (nt_replies x) (nt_reads x)) s'.
Proof.
  intros Hs Hi Hid Hrd E. pose proof (sm_node x s Hs i) as Hn.
  destruct (build_append_ok _ _ _ _ _ _ (sn_repr _ _ _ Hn) E) as (Hst & Et & El & Ec & Hshape).
  destruct (sn_lead _ _ _ Hn Hst) as (r & Hr & Ho). rewrite (sn_term _ _ _ Hn) in *.
  destruct (si_owner V s Hi _ _ Hr) as (_ & Elog & _). rewrite Ho in Elog. specialize (Elog eq_refl).
  pose proof (sm_reads x s Hs) as Hreads. rewrite Forall_forall in Hreads. pose proof (Hreads _ Hrd) as Hc.
  simpl in Hc. destruct Hc as [Hz|[Hpos Hk]].
  - exists s. split; [done|]. apply (sim_messages x s); auto; [intros j; done|].
    intros q [->|Hq]%elem_of_cons; [right|by left]. exists r. rewrite Et, El, Ec, <- Elog. split_and!; auto. congruence.
  - exists (said s (sp_term s i) (Z.to_nat commit)). split.
    { apply rtc_once, (st_say V s (sp_term s i) r); [done|by rewrite Ho|by rewrite Ho]. }
    apply (sim_messages x s); auto; [intros j; apply ext_said|].
    intros q [->|Hq]%elem_of_cons; [right|by left]. exists r. rewrite Et, El, Ec, <- Elog. simpl.
    split_and!; auto. congruence.
Qed.

(** *** Replication *)

(** The consistency check passes only where the logs agree. *)
Lemma consistent_prefix s v n req r prev :
  sim_node s v n -> sp_inv V s -> sp_reign s (ae_Term req) = Some r ->
  ae_PrevLogIndex req = Z.of_nat prev -> (prev = 0%nat \/ has (r_log r) (pred prev) (ae_PrevLogTerm req)) ->
  checkLogConsistency n req = None ->
  (prev <= length (sp_log s v))%nat /\ take prev (sp_log s v) = take prev (r_log r).
Proof.
  intros Hn Hi Hr Ep Hprev Hc. pose proof (sn_repr _ _ _ Hn) as Hre.
  destruct (consistency_ok n req (repr_wf _ _ _ Hre) Hc) as [Hrange Hterm].
  rewrite (repr_last _ _ _ Hre), Ep in Hrange. split; [lia|].
  destruct (decide (prev = 0%nat)) as [->|Hne]; [done|]. destruct Hprev as [?|Hprev]; [done|].
  rewrite Ep, (repr_term _ _ _ Hre) in Hterm by lia.
  replace (Z.to_nat (Z.of_nat prev - 1)) with (pred prev) in Hterm by lia.
  destruct (lookup_lt_is_Some_2 (sp_log s v) (pred prev)) as [e He]; [lia|]. rewrite He in Hterm.
  replace prev with (S (pred prev)) by lia. eapply (matches_agree s); [by apply (si_match V s Hi)| | |exact Hprev].
  - by eapply (si_reign V s Hi).
  - apply has_entry. eauto.
Qed.

(** Entry terms are positive, so a request past the sender's log is refused. *)
Lemma beyond_refused s v n req :
  sim_node s v n -> sp_inv V s -> 0 < ae_PrevLogIndex req -> ae_PrevLogTerm req = 0 ->
  checkLogConsistency n req = None -> False.
Proof.
  intros Hn Hi Hp Ht Hc. pose proof (sn_repr _ _ _ Hn) as Hre.
  destruct (consistency_ok n req (repr_wf _ _ _ Hre) Hc) as [Hrange Hterm].
  rewrite (repr_last _ _ _ Hre) in Hrange. rewrite Ht, (repr_term _ _ _ Hre) in Hterm by lia.
  destruct (lookup_lt_is_Some_2 (sp_log s v) (Z.to_nat (ae_PrevLogIndex req - 1))) as [e He]; [lia|].
  rewrite He in Hterm. destruct (si_match V s Hi v (Z.to_nat (ae_PrevLogIndex req - 1)) 0) as (r & Hr & _).
  { apply has_entry. eauto. }
  destruct (si_reign V s Hi 0 r Hr). lia.
Qed.

Lemma reconcile_sim s v n req io1 io2 n2 ok :
  sim_node s v n -> sp_inv V s -> reigns_ok s -> append_ok s req -> checkLogConsistency n req = None ->
  delete_atomic io1 -> store_atomic io2 -> reconcileLogEntries n req io1 io2 = (n2, ok) ->
  exists r L' prev, sp_reign s (ae_Term req) = Some r /\ merged (sp_log s v) (r_log r) L' /\
    repr (commit_ok s v) L' n2 /\ prog n n2 /\ currentTerm n2 = currentTerm n /\
    ae_PrevLogIndex req = Z.of_nat prev /\ (prev + length (ae_Entries req) <= length (r_log r))%nat /\
    (ok = true -> take (prev + length (ae_Entries req)) L' = take (prev + length (ae_Entries req)) (r_log r)).
Proof.
  intros Hn Hi Hrok (r & Hr & Ho & Hc & _) Hcc Hd Hst E. pose proof (sn_repr _ _ _ Hn) as Hre.
  destruct Hc as [(H1 & H2 & _)|(prev & Ep & Hsl & Hlen & Hpt)]; [by destruct (beyond_refused s v n req)|].
  destruct (consistent_prefix s v n req r prev Hn Hi Hr Ep Hpt Hcc) as [Hpl Hsh].
  destruct (Hrok _ _ Hr) as [Hil Hb].
  pose proof (repr_reconcile _ _ n req io1 io2 prev Hre Ep Hpl ltac:(lia) Hd Hst) as Hrec. rewrite E in Hrec.
  destruct Hrec as [Hp Hrec]. pose proof (core_reconcile n req io1 io2) as Hcore. rewrite E in Hcore.
  assert (currentTerm n2 = currentTerm n) as Et by (unfold core_of in Hcore; simpl in Hcore; congruence).
  pose proof (si_match V s Hi v) as HmL. destruct (si_reign V s Hi _ _ Hr) as (_ & Hml & _).
  destruct ok.
  - destruct (joined_merged s _ _ (r_log r) n req prev Hre HmL Hml Hil Ep Hpl Hsh Hsl Hlen Hb _ eq_refl) as [Hm Htk].
    by eexists r, _, prev.
  - destruct Hrec as [Hrec|[[keep Hk] Hrec]].
    + exists r, (sp_log s v), prev. split_and!; try done. split; [left; exists (length (sp_log s v)); by rewrite firstn_all|done].
    + exists r, (take keep (sp_log s v)), prev. rewrite Hk in Hrec. split_and!; try done.
      by apply (truncated_merged s _ _ _ n req prev Hre HmL Hml Ep Hpl Hsh Hsl Hlen Hb).
Qed.

Definition merge_log (s : spec) (v : string) (L' : list RaftLogEntry) : spec :=
  Spec (sp_term s) (fset (sp_log s) v L') (sp_reign s) (sp_cand s) (sp_vote s) (sp_ack s) (sp_known s) (sp_said s).

Definition acknowledged (s : spec) (v : string) (u : Z) (m : nat) : spec :=
  Spec (sp_term s) (sp_log s) (sp_reign s) (sp_cand s) (sp_vote s)
    (fun v' t m' => (v' = v /\ t = u /\ m' = m) \/ sp_ack s v' t m') (sp_known s) (sp_said s).

Definition learned (s : spec) (v : string) (c : nat) : spec :=
  Spec (sp_term s) (sp_log s) (sp_reign s) (sp_cand s) (sp_vote s) (sp_ack s)
    (fun v' c' => (v' = v /\ c' = c) \/ sp_known s v' c') (sp_said s).

Lemma ext_merge_log s v L' : ext v s (merge_log s v L').
Proof. constructor; auto; [by apply grows_same|]. intros j Hj. simpl. by rewrite fset_ne. Qed.

Lemma ext_acknowledged i s v u m : ext i s (acknowledged s v u m).
Proof. constructor; auto. apply grows_same; simpl; auto. Qed.

Lemma ext_learned i s v c : ext i s (learned s v c).
Proof. constructor; auto; [by apply grows_same|]. simpl. auto. Qed.

(** A follower learns of commits from the leader of its term. *)
Lemma learn_step s v n req r m :
  sp_reign s (ae_Term req) = Some r -> sp_term s v = ae_Term req -> (m <= length (r_log r))%nat ->
  take m (sp_log s v) = take m (r_log r) ->
  ae_PrevLogIndex req + Z.of_nat (length (ae_Entries req)) = Z.of_nat m ->
  (ae_LeaderCommit req = 0 \/ (0 < ae_LeaderCommit req /\ sp_said s (ae_Term req) (Z.to_nat (ae_LeaderCommit req)))) ->
  repr (commit_ok s v) (sp_log s v) n ->
  exists s', rtc (sp_step V) s s' /\ ext v s s' /\ sp_term s' = sp_term s /\ sp_log s' = sp_log s /\
    sp_vote s' = sp_vote s /\ sp_reign s' = sp_reign s /\ sp_ack s' = sp_ack s /\
    (commitIndex n < ae_LeaderCommit req ->
     commit_ok s' v (Z.min (ae_LeaderCommit req) (ae_PrevLogIndex req + Z.of_nat (length (ae_Entries req))))).
Proof.
  intros Hr Ht Hm Htk Em Hc Hre. destruct Hc as [Hz|[Hpos Hsaid]].
  - exists s. split_and!; try done. intros Hlt. pose proof (rp_commit _ _ _ Hre) as [?|[? _]]; lia.
  - set (c := Z.min (ae_LeaderCommit req) _). exists (learned s v (Z.to_nat c)).
    split; [|split_and!; try done; [apply ext_learned|]].
    + apply rtc_once, (st_learn V s v (ae_Term req) r m (Z.to_nat (ae_LeaderCommit req))); auto; lia.
    + intros _. destruct (decide (c = 0)); [by left|right]. split; [lia|]. simpl. auto.
Qed.

Lemma sim_append x s v req io now n' resp :
  sim x s -> sp_inv V s -> req ∈ nt_appends x -> append_atomic io ->
  handleAppendEntries (nd x v) req io now = (n', resp) ->
  exists s', rtc (sp_step V) s s' /\
    sim (Net (with_node x v n') (nt_votes x) (nt_appends x) ((v, req, resp) :: nt_replies x) (nt_reads x)) s'.
Proof.
  intros Hs Hi Hreq [Hd Hst] E. pose proof (sm_node x s Hs v) as Hn.
  pose proof (sm_appends x s Hs) as Hap. rewrite Forall_forall in Hap. pose proof (Hap req Hreq) as Hok.
  destruct (append_cases _ _ _ _ _ _ E) as [Hcalm Hf|n1 Hcalm Ht Hcc Er Hf|n1 n2 Hcalm Ht Hcc Er -> Hsucc].
  - destruct (calm_sim_node s v _ n' Hn Hcalm) as [Hstep Hn']. exists (raise s v (currentTerm n')).
    split; [by apply rtc_once|]. apply (sim_after_node x s); auto; [apply ext_raise|apply (sm_reigns x s Hs)|].
    intros rep [->|?]%elem_of_cons; [right|by left]. simpl. congruence.
  - destruct (calm_sim_node s v _ n1 Hn Hcalm) as [Hstep Hn1]. set (s1 := raise s v (currentTerm n1)) in *.
    pose proof (sp_step_inv V s s1 Hi Hstep) as Hi1. pose proof (ext_raise s v (currentTerm n1)) as He1.
    destruct (reconcile_sim s1 v n1 req _ _ n' false Hn1 Hi1 (sm_reigns x s Hs)
      (append_ok_mono v s s1 req He1 Hok) Hcc Hd Hst Er) as (r & L' & prev & Hr & Hm & Hre & Hp & Ect & _ & _ & _).
    exists (merge_log s1 v L'). pose proof (ext_merge_log s1 v L') as He2.
    split. { eapply rtc_l; [exact Hstep|]. eapply rtc_once, st_merge; [exact Hr| |exact Hm]. simpl. by rewrite fset_eq. }
    apply (sim_after_node x s); auto; [by etrans| |apply (sm_reigns x s Hs)|].
    + eapply sim_node_step; [exact Hn1|exact He2| | |done].
      * simpl. rewrite fset_eq. eapply repr_mono; [|exact Hre]. intros c. by apply (commit_ok_mono s1 _ v).
      * simpl. by rewrite fset_eq.
    + intros rep [->|?]%elem_of_cons; [right|by left]. simpl. congruence.
  - destruct (calm_sim_node s v _ n1 Hn Hcalm) as [Hstep Hn1]. set (s1 := raise s v (currentTerm n1)) in *.
    pose proof (sp_step_inv V s s1 Hi Hstep) as Hi1. pose proof (ext_raise s v (currentTerm n1)) as He1.
    pose proof (append_ok_mono v s s1 req He1 Hok) as Hok1.
    destruct (reconcile_sim s1 v n1 req _ _ n2 true Hn1 Hi1 (sm_reigns x s Hs) Hok1 Hcc Hd Hst Er)
      as (r & L' & prev & Hr & Hm & Hre & Hp & Ect & Ep & Hlen & Htk). specialize (Htk eq_refl).
    set (m := (prev + length (ae_Entries req))%nat) in *.
    set (s2 := merge_log s1 v L'). set (s3 := acknowledged s2 v (ae_Term req) m).
    assert (sp_term s1 v = ae_Term req) as Ets by (simpl; by rewrite fset_eq).
    assert (ext v s1 s3) as He3 by (etrans; [apply (ext_merge_log s1 v L')|apply ext_acknowledged]).
    assert (sp_log s3 v = L') as El3 by (simpl; by rewrite fset_eq).
    assert (repr (commit_ok s3 v) (sp_log s3 v) n2) as Hre3.
    { rewrite El3. eapply repr_mono; [|exact Hre]. intros c. by apply (commit_ok_mono s1 _ v). }
    assert (rtc (sp_step V) s s3) as Hrtc3.
    { eapply rtc_l; [exact Hstep|]. eapply rtc_l; [eapply st_merge; [exact Hr|exact Ets|exact Hm]|].
      apply rtc_once, (st_ack V s2 v (ae_Term req) r m); auto. simpl. by rewrite fset_eq. }
    destruct Hok1 as (_ & _ & _ & _ & Hsaid).
    destruct (learn_step s3 v n2 req r m) as (s4 & Hrtc4 & He4 & Et4 & El4 & Ev4 & Er4 & Ea4 & Hc4); auto.
    { rewrite El3. exact Htk. }
    { rewrite Ep. subst m. lia. }
    assert (ext v s1 s4) as He14 by by etrans.
    destruct (sm_reigns x s Hs (ae_Term req) r Hr) as [_ Hb].
    destruct (updateCommit_repr (commit_ok s4 v) (sp_log s4 v) n2 req (aio_commit io)) as (Hre' & Hp' & Ec').
    { rewrite El4. eapply repr_mono; [|exact Hre3]. intros c. by apply (commit_ok_mono s3 _ v). }
    { rewrite Ep. subst m. lia. }
    { exact Hc4. }
    exists s4. split; [by etrans|]. apply (sim_after_node x s); auto; [by etrans| |by intros u r0; rewrite Er4; apply (sm_reigns x s Hs)|].
    + eapply sim_node_step; [exact Hn1|exact He14|exact Hre'| |by eapply prog_trans].
      unfold core_of in Ec'. simpl in Ec'. rewrite Et4. simpl. rewrite fset_eq. congruence.
    + intros rep [->|?]%elem_of_cons; [right|by left]. intros _. exists m. rewrite Ea4, Ep. split_and!; [|lia|subst m; lia].
      simpl. auto.
Qed.

(** *** Commits *)

(** Everyone a leader counts for an index has acknowledged it. *)
Lemma counted_acked s i n r p :
  sim_node s i n -> nodeID n = i -> config_ok n -> fixed_config n -> sp_reign s (currentTerm n) = Some r ->
  state n = StateLeader -> has (r_log r) p (currentTerm n) ->
  checkStandardCommit n (Z.of_nat (S p)) = true -> acked s i (currentTerm n) p ->
  chosen V s (currentTerm n) p.
Proof.
  intros Hn Hid Hco Hfix Hr Hs Hh Hc Hself.
  set (ok := fun q : Peer => bool_decide (Z.of_nat (S p) <= default 0 (matchIndex n !! p_ID q))).
  assert (majority (node_voters n ok) V) as Hq.
  { rewrite <- Hfix, <- (co_voters _ Hco). by apply (quorum_majority n ok (co_peers _ Hco)). }
  exists (node_voters n ok), r. split_and!; [done|done|done|].
  intros v Hin. unfold node_voters in Hin. apply elem_of_union in Hin as [Hv|Hv].
  - destruct (selfNonVoter n); [by apply elem_of_empty in Hv|]. apply elem_of_singleton in Hv. by rewrite Hv, Hid.
  - apply elem_of_list_to_set, list_elem_of_fmap in Hv as (q & -> & Hin). unfold counted in Hin.
    apply list_elem_of_filter in Hin as [Hok [_ Hin]%list_elem_of_filter].
    apply list_elem_of_fmap in Hin as ([k q'] & -> & Hin%elem_of_map_to_list). simpl in *.
    destruct (co_peers _ Hco k q' Hin) as [Ek _]. unfold ok in Hok. apply bool_decide_eq_true in Hok.
    rewrite Ek in *. destruct (sn_match _ _ _ Hn Hs k) as [E|(m & Hm & Hle)]; [by eexists|lia|].
    exists m. split; [done|lia].
Qed.

Lemma commit_sim s i n io :
  sim_node s i n -> sp_inv V s -> nodeID n = i -> config_ok n -> fixed_config n ->
  exists s', rtc (sp_step V) s s' /\ ext i s s' /\ sim_node s' i (checkCommit n io).1 /\
    sp_vote s' = sp_vote s /\ sp_reign s' = sp_reign s.
Proof.
  intros Hn Hi Hid Hco Hfix. pose proof (sn_repr _ _ _ Hn) as Hre.
  assert (exists s', rtc (sp_step V) s s' /\ ext i s s' /\ sp_term s' = sp_term s /\ sp_log s' = sp_log s /\
    sp_vote s' = sp_vote s /\ sp_reign s' = sp_reign s /\
    forall z, state n = StateLeader -> commit_found n = Some z -> commit_ok s' i z)
    as (s' & Hrtc & He & Et & El & Ev & Er & HK).
  { destruct (decide (state n = StateLeader)) as [Hs|Hs]; [|by exists s; split_and!].
    destruct (commit_found n) as [z|] eqn:Ez; [|by exists s; split_and!].
    pose proof (commit_loop_spec (Z.to_nat (lastLogIndexLocked n - commitIndex n)) n (lastLogIndexLocked n) ltac:(lia)) as Hl.
    fold (commit_found n) in Hl. rewrite Ez in Hl. destruct Hl as (Hz & (e & He & Hte & Hc) & _).
    assert (0 <= commitIndex n) as Hpos by (pose proof (rp_commit _ _ _ Hre) as [?|[? _]]; lia).
    rewrite (repr_entry _ _ _ Hre z) in He by lia.
    destruct (sn_lead _ _ _ Hn Hs) as (r & Hr & Ho). rewrite (sn_term _ _ _ Hn) in Hr.
    destruct (si_owner V s Hi _ _ Hr) as (_ & Elog & _). rewrite Ho in Elog. specialize (Elog eq_refl).
    set (p := Z.to_nat (z - 1)) in *.
    set (s1 := acknowledged s i (sp_term s i) (length (r_log r))).
    assert (sp_step V s s1) as Hst1 by (apply (st_ack V s i (sp_term s i) r); [done|done|done|by rewrite Elog]).
    assert (sim_node s1 i n) as Hn1.
    { eapply (sim_node_step s s1 i n n); [exact Hn|apply ext_acknowledged| |apply Hn|by intros ?; split_and!; auto].
      eapply repr_mono; [|exact Hre]. intros c. by apply (commit_ok_mono s s1 i), ext_acknowledged. }
    assert (has (r_log r) p (currentTerm n)) as Hh by (apply has_entry; rewrite <- Elog; eauto).
    assert (chosen V s1 (currentTerm n) p) as Hch.
    { apply (counted_acked s1 i n r p); auto.
      - by rewrite (sn_term _ _ _ Hn).
      - by replace (Z.of_nat (S p)) with z by lia.
      - exists (length (r_log r)). rewrite (sn_term _ _ _ Hn). split; [simpl; auto|]. by apply has_lt in Hh. }
    rewrite (sn_term _ _ _ Hn) in Hch.
    exists (learned s1 i (S p)). split_and!; try done.
    - eapply rtc_l; [exact Hst1|]. eapply rtc_once, st_commit; [exact Hr|done|done|exact Hch].
    - etrans; [apply ext_acknowledged|apply ext_learned].
    - intros z' _ [= <-]. right. split; [lia|]. simpl. left. split; [done|lia]. }
  exists s'. split_and!; try done.
  destruct (checkCommit_repr (commit_ok s' i) (sp_log s' i) n io) as (H1 & H2 & H3); [|exact HK|].
  { rewrite El. eapply repr_mono; [|exact Hre]. intros c. by apply (commit_ok_mono s s' i). }
  eapply sim_node_step; [exact Hn|exact He|exact H1| |exact H2].
  unfold core_of in H3. simpl in H3. rewrite Et, <- (sn_term _ _ _ Hn). congruence.
Qed.

Lemma rview_set_progress id current next match_ n : rview (set_progress id current next match_ n) = rview n.
Proof. unfold set_progress. by destruct next, match_, current. Qed.

Lemma peers_set_progress id current next match_ n j :
  is_Some (peers (set_progress id current next match_ n) !! j) -> is_Some (peers n !! j).
Proof.
  unfold set_progress. destruct next, match_, current; cbn; try done;
    (destruct (decide (id = j)) as [->|Hne]; [rewrite lookup_alter_eq, fmap_is_Some|rewrite lookup_alter_ne]; done).
Qed.

(** A leader records a match index that was acknowledged in its term. *)
Lemma sim_progress s i n v current next match_ :
  sim_node s i n ->
  (forall m, match_ = Some m -> exists k, sp_ack s v (currentTerm n) k /\ m <= Z.of_nat k) ->
  sim_node s i (set_progress v current next match_ n).
Proof.
  intros Hn Hm. pose proof (rview_set_progress v current next match_ n) as Vr.
  pose proof (core_set_progress v current next match_ n) as Vc.
  destruct (set_progress_maps v current next match_ n) as [_ Emt].
  pose proof (peers_set_progress v current next match_ n) as Hps.
  set (n' := set_progress _ _ _ _ _) in *. clearbody n'.
  assert (state n' = state n /\ currentTerm n' = currentTerm n) as [Es Et] by (unfold core_of in Vc; split; congruence).
  constructor.
  - eapply repr_view; [exact Vr|apply Hn].
  - rewrite Et. apply Hn.
  - rewrite Es, Et, Emt. intros Hs id Hid. destruct match_ as [m|]; [|apply (sn_match _ _ _ Hn Hs id), Hps, Hid].
    destruct (decide (id = v)) as [->|Hne].
    + rewrite lookup_insert_eq. simpl. right. by apply Hm.
    + rewrite lookup_insert_ne by done. apply (sn_match _ _ _ Hn Hs id), Hps, Hid.
  - rewrite Es, Et. apply Hn.
Qed.

Lemma sim_response x s v current req resp io now :
  sim x s -> sp_inv V s -> (v, req, resp) ∈ nt_replies x ->
  let i := ae_LeaderID req in
  nodeID (nd x i) = i -> config_ok (nd x i) -> fixed_config (nd x i) ->
  exists s', rtc (sp_step V) s s' /\
    sim (Net (with_node x i (handleAppendEntriesResponse (nd x i) v current req resp io now).1)
      (nt_votes x) (nt_appends x) (nt_replies x) (nt_reads x)) s'.
Proof.
  intros Hs Hi Hrep i Hid Hco Hfix. pose proof (sm_node x s Hs i) as Hn. set (n := nd x i) in *.
  assert (forall s' n', rtc (sp_step V) s s' -> ext i s s' -> sim_node s' i n' -> sp_vote s' = sp_vote s ->
    sp_reign s' = sp_reign s -> exists s', rtc (sp_step V) s s' /\
    sim (Net (with_node x i n') (nt_votes x) (nt_appends x) (nt_replies x) (nt_reads x)) s') as Hdone.
  { intros s' n' H1 H2 H3 H4 H5. exists s'. split; [done|]. apply (sim_after_node x s); auto.
    intros u r. rewrite H5. apply (sm_reigns x s Hs). }
  assert (forall n', sim_node s i n' -> exists s', rtc (sp_step V) s s' /\
    sim (Net (with_node x i n') (nt_votes x) (nt_appends x) (nt_replies x) (nt_reads x)) s') as Hsame
    by (intros n' Hn'; by apply (Hdone s)).
  unfold handleAppendEntriesResponse. case_decide as Hl; [by apply Hsame|]. case_decide as Hgt.
  { destruct (calm_sim_node s i n _ Hn (calm_becomeFollower n (ar_Term resp) io now ltac:(lia))) as [H1 H2].
    eapply Hdone; [by apply rtc_once|apply ext_raise|exact H2|done|done]. }
  case_decide as Hst; [by apply Hsame|]. cbv zeta. apply Decidable.not_or in Hst as [Ht _]. apply dec_stable in Ht.
  destruct (ar_Success resp) eqn:Hok.
  - case_decide as Hmt; [by apply Hsame|].
    pose proof (sm_replies x s Hs) as Hrp. rewrite Forall_forall in Hrp. destruct (Hrp _ Hrep Hok) as (m & Ha & Em & Hb).
    rewrite Em, (u64_small (Z.of_nat m)) by lia.
    match goal with |- context [set_progress v current ?nx (Some (Z.of_nat m)) n] => set (next := nx) end.
    assert (sim_node s i (set_progress v current next (Some (Z.of_nat m)) n)) as Hn1.
    { apply sim_progress; [done|]. intros ? [= <-]. exists m. split; [by rewrite <- Ht|lia]. }
    pose proof (conf_set_progress v current next (Some (Z.of_nat m)) n) as Hcf.
    destruct (commit_sim s i _ io Hn1 Hi) as (s' & H1 & H2 & H3 & H4 & H5).
    + unfold conf_of in Hcf. congruence.
    + by eapply config_ok_conf.
    + unfold fixed_config in *. unfold conf_of in Hcf. congruence.
    + by eapply Hdone.
  - case_decide; [by apply Hsame|]. case_decide; [by apply Hsame|]. cbn [fst]. apply Hsame.
    by apply sim_progress.
Qed.

Lemma fresh_new n c now :
  cfg_NodeID c = nodeID n -> fresh_over n (NewNodeWithStableStore c (storage n) (stable n) now).
Proof.
  intros E. unfold fresh_over, NewNodeWithStableStore. cbv zeta. set (m := MkNode _ _ _ _ _ _ _ _ _ _ _ _ _ _ _ _ _ _ _ _ _ _ _ _ _ _ _ _ _ _ _ _ _ _ _ _).
  assert (nodeID m = nodeID n /\ state m = StateFollower /\ currentTerm m = 0 /\ votedFor m = "" /\
    stable m = stable n /\ storage m = storage n) as Hm by by split_and!.
  clearbody m. pose proof (core_refresh m) as Hc. pose proof (rview_refresh m) as Hv. unfold core_of in Hc.
  unfold rview in Hv. injection Hc as C1 C2 C3 C4 C5. injection Hv as _ _ _ V4 _ _ _.
  by rewrite C1, C2, C3, C4, C5, V4.
Qed.

Lemma sim_restart x s i c saved durable_fsm now n' :
  sim x s -> cinv V (nt_cluster x) -> cfg_NodeID c = nodeID (nd x i) ->
  start_node (NewNodeWithStableStore c (storage (nd x i)) (stable (nd x i)) now) c saved durable_fsm None = Some n' ->
  exists s', rtc (sp_step V) s s' /\
    sim (Net (with_node x i n') (nt_votes x) (nt_appends x) (nt_replies x) (nt_reads x)) s'.
Proof.
  intros Hs Hc Hid E. pose proof (sm_node x s Hs i) as Hn. pose proof (sn_repr _ _ _ Hn) as Hre.
  pose proof (restart_repr _ _ _ _ _ _ _ _ Hre (or_introl eq_refl) E) as Hre'.
  destruct (restart_core (nd x i) _ _ _ _ _ _ (fresh_new (nd x i) c now Hid) E) as (_ & R2 & _ & R4).
  assert (sp_term s i <= currentTerm n') as Hle.
  { rewrite <- (sn_term _ _ _ Hn). pose proof (rp_disk _ _ _ Hre) as Hd. unfold disk_inv in Hd.
    destruct (stable (nd x i)) as [[h|]|]; [|lia|done]. destruct R4 as [-> _]. lia. }
  exists (raise s i (currentTerm n')). split; [by apply rtc_once, st_observe|].
  pose proof (ext_raise s i (currentTerm n')) as He.
  apply (sim_after_node x s); auto; [|apply (sm_reigns x s Hs)].
  eapply sim_node_step; [exact Hn|exact He| | |].
  - simpl. eapply repr_mono; [|exact Hre']. intros z. by apply (commit_ok_mono s _ i).
  - simpl. by rewrite fset_eq.
  - intros Hst. congruence.
Qed.

(** *** All steps *)

Record net_inv (x : net) (s : spec) : Prop := {
  ni_spec : sp_inv V s;
  ni_sim : sim x s;
  ni_cluster : cinv V (nt_cluster x);
  ni_config : forall i, config_ok (nd x i);
}.

Lemma calm_local n n' : calm_step n n' -> local_step n n'.
Proof.
  intros [req io now|term rt io now|peer term sentAt|now|F fa ir fs fuel f commit io
    |io now m e Hw Hd E He|term pre io now m Hw Hd E].
  - apply ls_heartbeat.
  - apply ls_vote_response.
  - apply ls_ack.
  - apply ls_check_quorum.
  - apply ls_process.
  - by eapply ls_begin.
  - by eapply ls_campaign_off.
Qed.

(** Each step is a step of the cluster of RaftElection.v, or none. *)
Lemma nstep_cluster x x' s :
  sim x s -> nstep x x' -> nt_cluster x' = nt_cluster x \/ cstep V (nt_cluster x) (nt_cluster x').
Proof.
  intros Hs [i n' H|i io now n' term Hw Hd E Hv|i pt pre io now n' req voting Hw Hd E Hv
    |v req io1 io2 now n' resp Hreq E|k ks1 ks2 v Ek Hv Hnv Hg|k io now n' Hk Hio Hr E|i
    |i p commit req Hrd E|v req io now n' resp Hreq Hio E|v current req resp io now Hrep Hf
    |i data io Hio Hr|i type peer old io Hio Hr|i io Hf|i c saved df now n' Hid E]; cbn [nt_cluster].
  - right. by apply cs_local, calm_local.
  - right. by eapply cs_single.
  - right. by eapply cs_campaign.
  - right. pose proof (sm_sent x s Hs) as Hsent. rewrite Forall_forall in Hsent.
    destruct (Hsent req Hreq) as (k & Hk & E1 & E2). by eapply cs_vote.
  - right. by eapply cs_count.
  - right. by eapply cs_finish.
  - by left.
  - by left.
  - right. apply cs_local. assert (n' = (handleAppendEntries (nd x v) req io now).1) as -> by by rewrite E.
    apply ls_append.
  - right. apply cs_local, ls_append_response.
  - right. apply cs_local, ls_apply.
  - right. apply cs_local, ls_propose.
  - right. apply cs_local, ls_check_commit.
  - right. eapply cs_restart; [by apply fresh_new|exact E].
Qed.

Lemma config_nstep x x' : nstep x x' -> (forall i, config_ok (nd x i)) -> forall i, config_ok (nd x' i).
Proof.
  intros Hst Hc. assert (forall i n' f, (forall j, j <> i -> f j = nd x j) -> f i = n' -> config_ok n' ->
    forall j, config_ok (f j)) as Hupd.
  { intros i n' f Ho E Hn j. destruct (decide (j = i)) as [->|Hne]; [by rewrite E|by rewrite Ho]. }
  assert (forall i n', config_ok n' -> forall j, config_ok (upd (nodes (nt_cluster x)) i n' j)) as Hu.
  { intros i n' Hn. apply (Hupd i n'); [intros j Hj; by apply upd_ne|apply upd_eq|done]. }
  destruct Hst as [i n' H|i io now n' term Hw Hd E Hv|i pt pre io now n' req voting Hw Hd E Hv
    |v req io1 io2 now n' resp Hreq E|k ks1 ks2 v Ek Hv Hnv Hg|k io now n' Hk Hio Hr E|i
    |i p commit req Hrd E|v req io now n' resp Hreq Hio E|v current req resp io now Hrep Hf
    |i data io Hio Hr|i type peer old io Hio Hr|i io Hf|i c saved df now n' Hid E].
  1-4: apply Hu.
  6: apply Hu.
  9-14: apply Hu.
  - by apply (config_local_step (nd x i)); [apply calm_local|].
  - apply (config_ok_conf (nd x i)); [|done]. pose proof (conf_begin (nd x i) io now) as Hq. by rewrite E in Hq.
  - apply (config_ok_conf (nd x i)); [|done]. pose proof (conf_campaign (nd x i) pt pre io now) as Hq. by rewrite E in Hq.
  - apply (config_ok_conf (nd x v)); [|done]. pose proof (conf_handleRequestVote (nd x v) req io1 io2 now) as Hq.
    by rewrite E in Hq.
  - exact Hc.
  - rewrite E. apply (config_ok_conf (nd x (c_cand k))); [apply conf_finish|done].
  - exact Hc.
  - exact Hc.
  - assert (n' = (handleAppendEntries (nd x v) req io now).1) as -> by by rewrite E.
    apply (config_local_step (nd x v)); [apply ls_append|done].
  - apply (config_local_step (nd x (ae_LeaderID req))); [apply ls_append_response|done].
  - apply (config_local_step (nd x i)); [apply ls_apply|done].
  - apply (config_local_step (nd x i)); [apply ls_propose|done].
  - apply (config_local_step (nd x i)); [apply ls_check_commit|done].
  - eapply config_start; [|exact E]. apply config_new.
Qed.

Lemma sim_step x x' s :
  "" ∉ V -> net_inv x s -> nstep x x' -> exists s', rtc (sp_step V) s s' /\ sim x' s'.
Proof.
  intros HV [Hi Hs Hc Hco] Hst.
  assert (forall cl, cstep V (nt_cluster x) cl -> cinv V cl) as Hci by (intros cl; by apply cstep_inv).
  assert (forall i, nodeID (nd x i) = i) as Hid by (intros i; apply Hc).
  assert (forall i n', calm (nd x i) n' -> exists s', rtc (sp_step V) s s' /\
    sim (Net (with_node x i n') (nt_votes x) (nt_appends x) (nt_replies x) (nt_reads x)) s') as Hcalm.
  { intros i n' H. destruct (calm_sim_node s i _ n' (sm_node x s Hs i) H) as [H1 H2].
    eexists. split; [by apply rtc_once|]. apply (sim_after_node x s); auto; [apply ext_raise|apply (sm_reigns x s Hs)]. }
  assert (forall i, room (nd x i) -> Z.of_nat (length (sp_log s i)) + 3 < 2 ^ 64) as Hroom.
  { intros i. unfold room. by rewrite (repr_last _ _ _ (sn_repr _ _ _ (sm_node x s Hs i))). }
  pose proof (nstep_cluster x x' s Hs Hst) as Hcst.
  destruct Hst as [i n' H|i io now n' term Hw Hd E Hv|i pt pre io now n' req voting Hw Hd E Hv
    |v req io1 io2 now n' resp Hreq E|k ks1 ks2 v Ek Hv Hnv Hg|k io now n' Hk Hio Hr E|i
    |i p commit req Hrd E|v req io now n' resp Hreq Hio E|v current req resp io now Hrep Hf
    |i data io Hio Hr|i type peer old io Hio Hr|i io Hf|i c saved df now n' Hid' E].
  - by apply Hcalm, calm_step_calm.
  - pose proof (begin_cases _ io now Hw) as Hb. rewrite E in Hb. destruct Hb as (-> & _ & Hb).
    apply sim_campaign; auto. intros Hr. by eapply begin_repr.
  - pose proof (campaign_cases _ pt pre io now Hw) as Hb. rewrite E in Hb. destruct Hb as (Hb & Et & Ec).
    destruct (campaign_repr _ _ _ _ _ _ _ _ _ Hd E (sn_repr _ _ _ (sm_node x s Hs i))) as [Hr Hl].
    destruct (Hl req eq_refl) as [L1 L2]. rewrite Et. apply sim_campaign; auto.
    intros q [->|Hq]%elem_of_cons; [right|by left]. rewrite Ec, Hid. by split_and!.
  - eapply sim_vote; eauto. intros Hgr c' Hin. destruct Hcst as [Ecl|Hcst].
    + simpl in Ecl. rewrite Hgr in Ecl. apply (f_equal grants) in Ecl. simpl in Ecl.
      apply (ci_unique V _ Hc v _ _ (rv_Term req)); [done|]. rewrite <- Ecl. set_solver.
    + pose proof (Hci _ Hcst) as Hc'. simpl in Hc'. rewrite Hgr in Hc'.
      apply (ci_unique V _ Hc' v _ _ (rv_Term req)); simpl; set_solver.
  - exists s. split; [done|]. destruct Hs as [S1 S2 S3 S4 S5 S6 S7 S8 S9]. constructor; simpl; auto.
    + rewrite Ek in S3. apply Forall_app in S3 as [A B]. apply Forall_cons in B as [B C]. apply Forall_app.
      split; [done|]. by constructor.
    + eapply Forall_impl; [exact S4|]. intros req (k' & Hin & E1 & E2). rewrite Ek in Hin.
      apply elem_of_app in Hin as [Hin|[->|Hin]%elem_of_cons].
      * exists k'. split; [apply elem_of_app; by left|done].
      * eexists. split; [apply elem_of_app; right; by left|done].
      * exists k'. split; [apply elem_of_app; right; by right|done].
  - pose proof (finish_repr _ _ (nd x (c_cand k)) (c_term k) (length (c_voting k)) (S (length (c_votes k))) io now
      (sn_repr _ _ _ (sm_node x s Hs (c_cand k))) (Hroom _ Hr) Hio) as Hfin. cbv zeta in Hfin. rewrite <- E in Hfin.
    destruct Hfin as [H|[Hvn Hpm]].
    + destruct (calm_sim_node s (c_cand k) _ n' (sm_node x s Hs _) H) as [H1 H2].
      eexists. split; [by apply rtc_once|]. apply (sim_after_node x s); auto; [apply ext_raise|apply (sm_reigns x s Hs)].
    + apply sim_finish; auto. apply Hc.
  - exists s. split; [done|]. apply (sim_messages x s); auto; [intros j; done|].
    intros p [->|Hp]%elem_of_cons; [right|by left]. simpl. apply (rp_commit _ _ _ (sn_repr _ _ _ (sm_node x s Hs i))).
  - by eapply sim_send.
  - by eapply sim_append.
  - by apply sim_response.
  - destruct (apply_repr _ _ _ data io (sn_repr _ _ _ (sm_node x s Hs i)) (Hroom i Hr) Hio) as [H|H];
      [by apply Hcalm|by apply sim_led_append].
  - destruct (propose_repr _ _ _ type peer old io (sn_repr _ _ _ (sm_node x s Hs i)) (Hroom i Hr) Hio) as [H|H];
      [by apply Hcalm|by apply sim_led_append].
  - destruct (commit_sim s i (nd x i) io (sm_node x s Hs i) Hi (Hid i) (Hco i) Hf) as (s' & H1 & H2 & H3 & H4 & H5).
    exists s'. split; [done|]. apply (sim_after_node x s); auto. intros u r. rewrite H5. apply (sm_reigns x s Hs).
  - by eapply sim_restart.
Qed.

(** ** Runs *)

Lemma sp_steps_inv s s' : sp_inv V s -> rtc (sp_step V) s s' -> sp_inv V s'.
Proof. intros Hi. induction 1 as [|s s1 s2 Hst _ IH]; [done|]. by eapply IH, sp_step_inv. Qed.

Lemma sp_steps_history s s' :
  rtc (sp_step V) s s' -> grows s s' /\ forall v c, sp_known s v c -> sp_known s' v c.
Proof.
  induction 1 as [s|s s1 s2 Hst _ [IH1 IH2]]; [split; [apply grows_refl|done]|].
  assert (grows s s1 /\ forall v c, sp_known s v c -> sp_known s1 v c) as [H1 H2].
  { destruct Hst as [v u Hu|c u Hu|v c u C HC Hu Hun Hup|c u C q e HC Ht Hno Hq Hv He|c u r e Hr Ho Ht He
      |v u r L' Hr Ht Hm|v u r m Hr Ht Hm E|c u r p Hr Ho Ht Hc|u r n Hr Ht Hk|v u r m n c Hr Ht Hm E Hs Hn Hc];
      (split; [|simpl; auto]); try (apply grows_same; simpl; auto; fail).
    - apply (ext_elected s c u C e Hno).
    - apply (ext_appended s c u r e Hr Ho). }
  split; [by eapply grows_trans|auto].
Qed.

Lemma net_step x x' s :
  "" ∉ V -> net_inv x s -> nstep x x' -> exists s', rtc (sp_step V) s s' /\ net_inv x' s'.
Proof.
  intros HV Hinv Hst. destruct (sim_step x x' s HV Hinv Hst) as (s' & Hrtc & Hs').
  destruct Hinv as [Hi Hs Hc Hco]. exists s'. split; [done|]. constructor; [by eapply sp_steps_inv|done| |].
  - destruct (nstep_cluster x x' s Hs Hst) as [->|Hcst]; [done|by eapply cstep_inv].
  - by eapply config_nstep.
Qed.

Lemma net_steps x x' s :
  "" ∉ V -> net_inv x s -> rtc nstep x x' -> exists s', rtc (sp_step V) s s' /\ net_inv x' s'.
Proof.
  intros HV Hinv Hst. revert s Hinv. induction Hst as [x|x x1 x2 Hst _ IH]; intros s Hinv; [by exists s|].
  destruct (net_step x x1 s HV Hinv Hst) as (s1 & H1 & Hinv1). destruct (IH s1 Hinv1) as (s2 & H2 & Hinv2).
  exists s2. split; [by etrans|done].
Qed.

Definition spec0 : spec :=
  Spec (fun _ => 0) (fun _ => []) (fun _ => None) (fun _ => None) (fun _ _ _ => False) (fun _ _ _ => False)
    (fun _ _ => False) (fun _ _ => False).

Lemma spec0_init : sp_init spec0.
Proof. unfold sp_init. simpl. split_and!; auto. Qed.

Lemma net_init x : "" ∉ V -> ninit x -> net_inv x spec0.
Proof.
  intros HV (Hc & Hn & E1 & E2 & E3 & E4). pose proof Hc as (Hcn & Hg & Hk & Hl). constructor.
  - apply sp_reach_inv, sp_reach_init, spec0_init.
  - constructor; rewrite ?E1, ?E2, ?E3, ?E4; auto.
    + intros i. destruct (Hn i) as (L1 & L2 & L3 & _). destruct (Hcn i) as (_ & L4 & L5 & _ & L6). fold (nd x i) in *.
      constructor; [|done|by rewrite L4|by rewrite L4]. constructor; simpl; auto.
      * apply indexed_nil.
      * lia.
      * exists ∅. split; [done|]. intros j. rewrite lookup_empty. by case_decide.
      * rewrite L3. by left.
      * unfold disk_inv. by rewrite L6.
    + intros v c t. rewrite Hg. simpl. split; [set_solver|done].
    + by rewrite Hk.
    + by intros u r Hr.
  - by apply creach_inv, creach_init.
  - intros i. apply Hn.
Qed.

Lemma nreach_inv x :
  "" ∉ V -> nreach x -> exists s, sp_reach V s /\ net_inv x s.
Proof.
  intros HV (x0 & H0 & Hrtc). destruct (net_steps x0 x spec0 HV (net_init x0 HV H0) Hrtc) as (s & Hst & Hinv).
  exists s. split; [|done]. clear -Hst.
  assert (forall s, rtc (sp_step V) spec0 s -> sp_reach V s) as H; [|by apply H].
  intros s'. apply (rtc_ind_r (fun s => sp_reach V s)); [apply sp_reach_init, spec0_init|].
  intros s1 s2 _ H1 H2. by eapply sp_reach_step.
Qed.

(** Committed prefixes, as the node and the protocol see them. *)
Lemma node_committed s i n :
  sim_node s i n -> sp_inv V s -> 0 < commitIndex n ->
  committed V s (sp_term s i) (sp_log s i) (Z.to_nat (commitIndex n)).
Proof.
  intros Hn Hi Hc. destruct (rp_commit _ _ _ (sn_repr _ _ _ Hn)) as [?|[_ Hk]]; [lia|]. by apply (si_known V s Hi).
Qed.

Lemma take_entry K L n L' K' n' c k :
  repr K L n -> repr K' L' n' -> take c L = take c L' -> 1 <= k <= Z.of_nat c -> logEntry n k = logEntry n' k.
Proof.
  intros H H' E Hk. rewrite (repr_entry _ _ _ H), (repr_entry _ _ _ H') by lia.
  rewrite <- (lookup_take_lt L c), <- (lookup_take_lt L' c) by lia. by rewrite E.
Qed.

Lemma committed_le s u l c c' : (c' <= c)%nat -> committed V s u l c -> committed V s u l c'.
Proof.
  intros Hc (t & p & r & H1 & H2 & H3 & H4 & H5). exists t, p, r. split_and!; auto; [lia|by eapply take_le].
Qed.

(** An entry committed at a node, seen from a later state of the run. *)
Lemma committed_later x x' i k :
  "" ∉ V -> nreach x -> rtc nstep x x' -> 1 <= k <= commitIndex (nd x i) ->
  exists l s', net_inv x' s' /\ committed V s' (currentTerm (nd x i)) l (Z.to_nat k) /\
    is_Some (logEntry (nd x i) k) /\
    (forall K L n, repr K L n -> take (Z.to_nat k) l = take (Z.to_nat k) L -> logEntry n k = logEntry (nd x i) k).
Proof.
  intros HV Hr Hst Hk. destruct (nreach_inv x HV Hr) as (s & _ & Hinv).
  destruct (net_steps x x' s HV Hinv Hst) as (s' & Hrtc & Hinv'). destruct Hinv as [Hi Hs _ _].
  pose proof (sm_node x s Hs i) as Hn. pose proof (node_committed s i (nd x i) Hn Hi ltac:(lia)) as Hc.
  pose proof (committed_length V _ _ _ _ Hc) as Hlen. pose proof (sn_repr _ _ _ Hn) as Hre.
  exists (sp_log s i), s'. split_and!; [done| | |].
  - rewrite (sn_term _ _ _ Hn). apply (committed_grows V s s' (sp_term s i)); [by apply sp_steps_history|lia|].
    eapply committed_le; [|exact Hc]. lia.
  - rewrite (repr_entry _ _ _ Hre) by lia. apply lookup_lt_is_Some_2. lia.
  - intros K L n Hn' E. symmetry. eapply (take_entry _ _ _ _ _ _ _ _ Hre Hn' E). lia.
Qed.

(** C7: the nodes implement the abstract protocol. Whatever a cluster of these
    nodes does - elections, lost, delayed and repeated messages, failing disk
    writes, crashes and restarts, configuration entries - some run of the
    protocol of RaftSpec.v represents it: every node's log in memory and on
    disk, its term and its commit index are those of the protocol state. *)
Theorem cluster_refines x :
  "" ∉ V -> nreach x -> exists s, sp_reach V s /\ sim x s.
Proof. intros HV Hr. destruct (nreach_inv x HV Hr) as (s & Hsr & Hinv). exists s. split; [done|apply Hinv]. Qed.

(** Log matching. If two nodes hold an entry of the same term at an
    index, their logs are identical up to that index, in every reachable state
    of the cluster. *)
Lemma logs_match x i j k a b :
  "" ∉ V -> nreach x -> 1 <= k -> logEntry (nd x i) k = Some a -> logEntry (nd x j) k = Some b ->
  Term a = Term b -> forall k', 1 <= k' <= k -> logEntry (nd x i) k' = logEntry (nd x j) k'.
Proof.
  intros HV Hr Hk Ha Hb Et k' Hk'. destruct (nreach_inv x HV Hr) as (s & _ & [Hi Hs _ _]).
  pose proof (sn_repr _ _ _ (sm_node x s Hs i)) as Ri. pose proof (sn_repr _ _ _ (sm_node x s Hs j)) as Rj.
  rewrite (repr_entry _ _ _ Ri) in Ha by done. rewrite (repr_entry _ _ _ Rj) in Hb by done.
  apply (take_entry _ _ _ _ _ _ (S (Z.to_nat (k - 1))) k' Ri Rj); [|lia].
  apply (matches_agree s _ _ _ (Term a)); [by apply (si_match V s Hi)..| |]; apply has_entry; eauto.
Qed.

(** C6: leader completeness. An entry within the commit index of some node is
    in the log of every leader, at that moment or later in the run, whose term
    is not below that node's. *)
Theorem leader_holds_committed x x' i j k :
  "" ∉ V -> nreach x -> rtc nstep x x' -> 1 <= k <= commitIndex (nd x i) ->
  state (nd x' j) = StateLeader -> currentTerm (nd x i) <= currentTerm (nd x' j) ->
  is_Some (logEntry (nd x i) k) /\ logEntry (nd x' j) k = logEntry (nd x i) k.
Proof.
  intros HV Hr Hst Hk Hl Ht.
  destruct (committed_later x x' i k HV Hr Hst Hk) as (l & s' & [Hi Hs _ _] & Hc & Hsome & Hentry).
  split; [done|]. pose proof (sm_node x' s' Hs j) as Hn. destruct (sn_lead _ _ _ Hn Hl) as (r & Hre & Ho).
  pose proof (committed_in_reign V s' _ l _ _ r Hi Hc Ht Hre) as E.
  rewrite (sn_term _ _ _ Hn) in Hre. destruct (si_owner V s' Hi _ r Hre) as (_ & El & _). rewrite Ho in El.
  eapply Hentry; [apply Hn|]. by rewrite El.
Qed.

End network.
