(* ===== verification/RaftExamples.v ===== *)
(** * Concrete runs of the Raft model

    A membership codec, a node of a three-member cluster and a one-member
    cluster, on which the hypotheses of the Raft theorems are shown to hold
    and their conclusions are instantiated. *)
From stdpp Require Import base gmap strings list sorting.
From Stdlib Require Import ZArith Lia Strings.Byte.
From S2P Require Import Prelude Store Membership Raft RaftOps RaftElection RaftLog RaftProps RaftConfig RaftReplication.

Open Scope Z_scope.

(** A codec that knows no membership entry; every address can be dialled. *)
Definition sample_membership : MembershipCodec := {|
  encodeMembershipEntry := fun _ => [];
  decodeMembershipEntry := fun _ => None;
  dialableAddr := fun _ => true;
|}.

#[local] Existing Instance sample_membership.

Definition sample_config (id : string) (ps : list string) : RaftConfig :=
  MkRaftConfig id "" "10.0.0.1:7946" "default" (map sample_peer ps) 1000 1 64.

Definition sample_new (id : string) (ps : list string) : Node :=
  NewNodeWithStableStore (sample_config id ps) (Some ∅) (Some None) 0.

Definition sample_entry (i t : Z) : RaftLogEntry := MkEntry i t LogCommand [].

(** A leader of term 2 whose two entries are stored on itself and [b]. *)
Definition sample_leader : Node :=
  set_state StateLeader (set_currentTerm 2
    (set_log [base_entry 0 0; sample_entry 1 1; sample_entry 2 2]
      (set_matchIndex {["b" := 2; "c" := 0]} (set_nextIndex {["b" := 3; "c" := 1]}
        (sample_new "a" ["b"; "c"]))))).

Lemma sample_leader_wf : log_wf sample_leader.
Proof.
  constructor.
  - by vm_compute.
  - by exists (base_entry 0 0), [sample_entry 1 1; sample_entry 2 2].
  - intros k e He. change (log sample_leader) with [base_entry 0 0; sample_entry 1 1; sample_entry 2 2] in He.
    change (logBase sample_leader) with 0. destruct k as [|[|[|k]]]; cbn in He; by simplify_eq.
  - by vm_compute.
Qed.

Lemma sample_leader_peers : peers_ok sample_leader.
Proof.
  intros id p Hp. apply elem_of_map_to_list in Hp.
  assert (E : map_to_list (peers sample_leader) =
    [("c", MkPeer "c" "" "" RoleVoter 0 0 false 0 0); ("b", MkPeer "b" "" "" RoleVoter 0 0 false 0 0)])
    by (vm_compute; reflexivity).
  rewrite E in Hp. apply elem_of_cons in Hp as [Hp|Hp]; [by simplify_eq|].
  apply elem_of_cons in Hp as [Hp|Hp]; [by simplify_eq|]. by apply elem_of_nil in Hp.
Qed.

(** ** One-member cluster: the node elects itself. *)

Definition sample_cluster0 : cluster := Cluster (fun i => sample_new i []) ∅ [] ∅.

Definition sample_candidate : Node := (startElection_begin (sample_new "a" []) PersistOk 5).1.

Definition sample_cluster1 : cluster :=
  Cluster (upd (nodes sample_cluster0) "a" sample_candidate) {[("a", "a", 1)]} [Campaign "a" 1 [] []] ∅.

Definition sample_elected : Node := startElection_finish sample_candidate 1 0 1 StoreOk 6.

Definition sample_cluster2 : cluster :=
  Cluster (upd (nodes sample_cluster1) "a" sample_elected) {[("a", "a", 1)]} [Campaign "a" 1 [] []]
    {[("a", 1)]}.

Lemma sample_cluster1_reach : creach {["a"]} sample_cluster1.
Proof.
  apply (creach_step _ sample_cluster0).
  - apply creach_init. by split_and!.
  - replace sample_cluster1 with
      (Cluster (upd (nodes sample_cluster0) "a" sample_candidate) ({[("a", "a", 1)]} ∪ grants sample_cluster0)
        (Campaign "a" 1 [] [] :: campaigns sample_cluster0) (led sample_cluster0)).
    + apply (cs_single {["a"]} sample_cluster0 "a" PersistOk 5 sample_candidate 1).
      * by vm_compute.
      * by vm_compute.
      * split_and!; [set_solver|constructor|set_solver].
    + unfold sample_cluster1. cbn. by rewrite (right_id_L ∅ (∪)).
Qed.

Lemma sample_cluster1_node : nodes sample_cluster1 "a" = sample_candidate.
Proof. apply upd_eq. Qed.

Lemma sample_cluster2_reach : creach {["a"]} sample_cluster2.
Proof.
  apply (creach_step _ sample_cluster1); [apply sample_cluster1_reach|].
  replace sample_cluster2 with
    (Cluster (upd (nodes sample_cluster1) "a" sample_elected) (grants sample_cluster1)
      (campaigns sample_cluster1)
      (if decide (state (nodes sample_cluster1 "a") <> StateLeader /\ state sample_elected = StateLeader)
       then {[("a", currentTerm sample_elected)]} ∪ led sample_cluster1 else led sample_cluster1)).
  - refine (cs_finish {["a"]} sample_cluster1 (Campaign "a" 1 [] []) StoreOk 6 sample_elected _ _).
    + apply list_elem_of_singleton. reflexivity.
    + cbn [c_cand c_term c_voting c_votes length]. rewrite sample_cluster1_node. reflexivity.
  - rewrite sample_cluster1_node, decide_True by (split; by vm_compute). unfold sample_cluster2. cbn [led sample_cluster1].
    by rewrite (right_id_L ∅ (∪)).
Qed.

(** The node elected in term 1 of the one-member cluster is the only one. *)
Lemma election_safety_witness : ("a", 1) ∈ led sample_cluster2 /\ ("b", 1) ∉ led sample_cluster2.
Proof.
  split; [set_solver|]. intros Hb.
  pose proof (election_safety {["a"]} sample_cluster2 "a" "b" 1 ltac:(set_solver) sample_cluster2_reach
    ltac:(set_solver) Hb) as E.
  discriminate E.
Defined.

(** ** A three-member cluster *)

Definition sample_append : AppendEntriesRequest :=
  AppendEntries 3 "b" 1 1 [sample_entry 2 3; sample_entry 3 3] 2.

Definition sample_io : append_entries_io := AppendEntriesIO PersistOk DeleteOk StoreOk PersistOk.

(** The old leader accepts entries of term 3 that replace its entry 2. *)
Lemma append_entries_accepted_witness :
  let r := handleAppendEntries sample_leader sample_append sample_io 7 in
  log_wf r.1 /\ currentTerm r.1 = 3 /\
  exists e, logEntry r.1 3 = Some e /\ Term e = 3.
Proof.
  destruct (append_entries_accepted sample_leader sample_append sample_io 7
    (handleAppendEntries sample_leader sample_append sample_io 7).1
    (handleAppendEntries sample_leader sample_append sample_io 7).2) as (H1 & H2 & _ & _ & H3 & _);
    [exact sample_leader_wf|by vm_compute|apply surjective_pairing|by vm_compute|].
  split; [exact H1|]. split; [exact H2|]. apply (H3 1%nat (sample_entry 3 3)). reflexivity.
Defined.

(** Entry 2 of term 2, on [a] and [b], commits. *)
Lemma leader_commit_rule_witness :
  (checkCommit sample_leader PersistOk).2 = Some 2 /\
  majority (node_voters sample_leader (fun p => bool_decide (2 <= default 0 (matchIndex sample_leader !! p_ID p))))
    (node_voters sample_leader (fun _ => true)).
Proof.
  assert (E : checkCommit sample_leader PersistOk = ((checkCommit sample_leader PersistOk).1, Some 2))
    by (vm_compute; reflexivity).
  split; [by rewrite E|].
  exact (proj1 (proj2 (proj2 (proj2 (proj2
    (leader_commit_rule sample_leader PersistOk _ (Some 2) sample_leader_wf sample_leader_peers E)))))).
Defined.

Definition sample_resp : AppendEntriesResponse := AppendReply 2 true 2 0 0.

(** [c] confirms both entries. *)
Lemma replication_progress_witness :
  let n' := (handleAppendEntriesResponse sample_leader "c" true
    (AppendEntries 2 "a" 0 0 [sample_entry 1 1; sample_entry 2 2] 0) sample_resp PersistOk 7).1 in
  progress_ok n' /\ matchIndex n' !! "c" = Some 2.
Proof.
  split; [|by vm_compute].
  apply (replication_progress sample_leader "c" true
    (AppendEntries 2 "a" 0 0 [sample_entry 1 1; sample_entry 2 2] 0) sample_resp PersistOk 7 _
    (handleAppendEntriesResponse sample_leader "c" true
      (AppendEntries 2 "a" 0 0 [sample_entry 1 1; sample_entry 2 2] 0) sample_resp PersistOk 7).2).
  - intros id [v Hv]. change (nextIndex sample_leader) with ({["b" := 3; "c" := 1]} : gmap string Z) in *.
    change (matchIndex sample_leader) with ({["b" := 2; "c" := 0]} : gmap string Z).
    apply lookup_insert_Some in Hv as [[<- _]|[_ Hv]]; [by vm_compute|].
    apply lookup_singleton_Some in Hv as [<- _]. by vm_compute.
  - by vm_compute.
  - by vm_compute.
  - intros id. change (matchIndex sample_leader) with ({["b" := 2; "c" := 0]} : gmap string Z).
    destruct (decide (id = "b")) as [->|Hb]; [by vm_compute|].
    destruct (decide (id = "c")) as [->|Hc]; [by vm_compute|].
    rewrite lookup_insert_ne, lookup_singleton_ne by done. by vm_compute.
  - apply surjective_pairing.
Defined.

(** Compaction at the second entry keeps one trailing entry. *)
Lemma compaction_keeps_entries_witness :
  let n' := (compactLogLocked sample_leader 2 PersistOk).1 in
  log_wf n' /\ logBase n' = 1 /\ lastLogIndexLocked n' = 2.
Proof.
  destruct (compaction_keeps_entries sample_leader 2 PersistOk
    (compactLogLocked sample_leader 2 PersistOk).1 (compactLogLocked sample_leader 2 PersistOk).2)
    as (H & _ & _ & _); [exact sample_leader_wf|apply surjective_pairing|].
  split; [exact H|]. by vm_compute.
Defined.

(** A state machine that records the indexes it applied, and one that cannot
    store entry 2 for now. *)
Definition sample_apply (f : list Z) (e : RaftLogEntry) : list Z * option apply_error :=
  (f ++ [Index e], None).

Definition sample_apply_busy (f : list Z) (e : RaftLogEntry) : list Z * option apply_error :=
  if decide (Index e = 2) then (f, Some (ErrApply true)) else (f ++ [Index e], None).

(** One pass reaches the commit index, the other stops before entry 2. *)
Lemma committed_applied_in_order_witness :
  (exists n', processCommitted sample_apply (fun _ => false) (fun f _ => f) 4 sample_leader [] 2 0 0
     (fun _ => PersistOk) = (n', [1; 2], ApplyDone) /\ lastApplied n' = 2) /\
  (exists n', processCommitted sample_apply_busy (fun _ => true) (fun f _ => f) 4 sample_leader [] 2 0 0
     (fun _ => PersistOk) = (n', [1], ApplyRetry) /\ log n' = log sample_leader /\ lastApplied n' <= 2).
Proof.
  split.
  - destruct (processCommitted sample_apply (fun _ => false) (fun f _ => f) 4 sample_leader [] 2 0 0
      (fun _ => PersistOk)) as [[n' f'] r] eqn:E.
    destruct (committed_applied_in_order sample_apply (fun _ => false) (fun f _ => f) 4 sample_leader [] 2
      (fun _ => PersistOk) n' f' r sample_leader_wf ltac:(by vm_compute) ltac:(by vm_compute) ltac:(by vm_compute) E)
      as (_ & _ & [(-> & Hl & Hf)|[(_ & _ & j & Hj)|(_ & _ & x & err & _ & _ & [H|[j H]])]] & _); [|done..].
    exists n'. split; [|exact Hl]. rewrite Hf, Hl. f_equal.
  - destruct (processCommitted sample_apply_busy (fun _ => true) (fun f _ => f) 4 sample_leader [] 2 0 0
      (fun _ => PersistOk)) as [[n' f'] r] eqn:E.
    destruct (committed_applied_in_order sample_apply_busy (fun _ => true) (fun f _ => f) 4 sample_leader [] 2
      (fun _ => PersistOk) n' f' r sample_leader_wf ltac:(by vm_compute) ltac:(by vm_compute) ltac:(by vm_compute) E)
      as (Hlog & [_ Hl] & _).
    exists n'. split; [|split; [exact Hlog|exact Hl]].
    assert (f' = [1] /\ r = ApplyRetry) as [-> ->]; [|done].
    pose proof (f_equal (fun p => (p.1.2, p.2)) E) as E2. cbn [fst snd] in E2.
    assert (([1], ApplyRetry) = (f', r)) as E3 by (rewrite <- E2; by vm_compute). by injection E3 as <- <-.
Defined.

Definition sample_waiting : Node := set_applyWaiters {[2 := 2]} sample_leader.

Lemma peers_ok_waiting n w : peers_ok n -> peers_ok (set_applyWaiters w n).
Proof. done. Qed.

(** The leader heard from nobody for an election timeout. *)
Lemma check_quorum_leader_witness :
  state (checkQuorum sample_waiting 5000) = StateFollower /\
  applyWaiters (checkQuorum sample_waiting 5000) !! 2 = None.
Proof.
  pose proof (check_quorum_leader sample_waiting 5000 (peers_ok_waiting _ _ sample_leader_peers)) as H.
  specialize (H ltac:(by vm_compute) ltac:(by vm_compute)).
  cbv zeta in H. destruct (decide (state (checkQuorum sample_waiting 5000) = StateLeader)) as [E|_].
  - exfalso. revert E. by vm_compute.
  - split; [apply H|]. by apply H.
Defined.

(** A snapshot through entry 1 arrives. *)
Lemma snapshot_install_keeps_suffix_witness :
  let n' := install_boundary sample_leader [] 1 1 7 in
  log_wf n' /\ logBase n' = 1 /\ logEntry n' 2 = Some (sample_entry 2 2).
Proof.
  destruct (snapshot_install_keeps_suffix sample_leader [] 1 1 7) as (H & Hb & _ & Hs & _);
    [exact sample_leader_wf|by vm_compute|by vm_compute|].
  split; [exact H|]. split; [exact Hb|].
  etransitivity; [exact (Hs 2 eq_refl)|by vm_compute].
Defined.

Definition sample_hard : hardState := HardState 3 "" 10 10 10 2.

(** A node restarts with a snapshot at index 10. *)
Lemma restart_forgets_log_position_witness :
  exists n, start_node (NewNodeWithStableStore (sample_config "a" ["b"; "c"]) (Some ∅) (Some (Some sample_hard)) 0)
      (sample_config "a" ["b"; "c"]) (Saved None false) true (Some (10, 2)) = Some n /\
    logBase n = 10 /\ lastLogIndexLocked n = 0.
Proof.
  destruct (restart_forgets_log_position
    (NewNodeWithStableStore (sample_config "a" ["b"; "c"]) (Some ∅) (Some (Some sample_hard)) 0)
    (sample_config "a" ["b"; "c"]) (Saved None false) sample_hard (10, 2)) as (n & E & Hb & Hl & _);
    [by vm_compute|by vm_compute|by vm_compute|by vm_compute|done|done|].
  exists n. split; [exact E|]. split; [exact Hb|exact Hl].
Defined.

(** A codec whose entries all remove [c]. *)
Definition removal_membership : MembershipCodec := {|
  encodeMembershipEntry := fun _ => [];
  decodeMembershipEntry := fun _ =>
    Some (MembershipEntry MembershipRemovePeer (sample_peer "c") None [] [] membershipPhaseSingle []);
  dialableAddr := fun _ => true;
|}.

(** A follower of three learns that [c] is being removed. *)
Definition sample_removal : Node :=
  (@handleAppendEntries removal_membership
    (@NewNodeWithStableStore removal_membership (sample_config "a" ["b"; "c"]) (Some ∅) (Some None) 0)
    (AppendEntries 1 "b" 0 0 [MkEntry 1 1 LogMembershipChange []] 0)
    (AppendEntriesIO PersistOk DeleteOk StoreOk PersistOk) 5).1.


(** ** Replication *)

(** [b] has a leftover entry of term 1 where the leader has one of term 2. *)
Definition sample_follower : Node :=
  set_currentTerm 1 (set_log [base_entry 0 0; sample_entry 1 1; sample_entry 2 1] (sample_new "b" ["a"; "c"])).

Definition sample_sender : Node := set_progress "b" true (Some 3) (Some 0) sample_leader.

Lemma sample_sender_wf : log_wf sample_sender.
Proof. apply (log_wf_view sample_leader); [by vm_compute|exact sample_leader_wf]. Qed.

Lemma sample_follower_wf : log_wf sample_follower.
Proof.
  constructor.
  - by vm_compute.
  - by exists (base_entry 0 0), [sample_entry 1 1; sample_entry 2 1].
  - intros k e He. change (log sample_follower) with [base_entry 0 0; sample_entry 1 1; sample_entry 2 1] in He.
    change (logBase sample_follower) with 0. destruct k as [|[|[|k]]]; cbn in He; by simplify_eq.
  - by vm_compute.
Qed.

(** Indexes of the sample logs. *)
Lemma sample_range n i e : log_wf n -> logBase n = 0 -> lastLogIndexLocked n = 2 -> logEntry n i = Some e ->
  i = 0 \/ i = 1 \/ i = 2.
Proof. intros Hw Eb El He. destruct (proj1 (logEntry_range n i Hw)); [by eexists|]. lia. Qed.

Ltac sample_index H wf :=
  let Hr := fresh in
  pose proof (sample_range _ _ _ wf ltac:(by vm_compute) ltac:(by vm_compute) H) as Hr;
  destruct Hr as [->|[->| ->]]; vm_compute in H; injection H as <-.

Lemma sample_matching : matching sample_sender sample_follower.
Proof.
  intros i a b Hi Ha Hb Et j Hj. change (floor_of sample_sender sample_follower) with 0 in *.
  sample_index Ha sample_sender_wf; vm_compute in Hb; injection Hb as <-; [lia| |done].
  by replace j with 1 by lia; vm_compute.
Qed.

Lemma sample_progress : progress sample_sender "b" 3 0.
Proof. split_and!; [|by vm_compute|by vm_compute]. eexists. split; [by vm_compute|done]. Qed.

Lemma sample_catchup : catchup "b" sample_sender sample_follower 3 0.
Proof.
  constructor; try by vm_compute.
  - apply sample_sender_wf.
  - apply sample_follower_wf.
  - apply sample_matching.
  - apply sample_progress.
  - split; [|by vm_compute]. intros j Hj. change (floor_of sample_sender sample_follower) with 0 in Hj. lia.
Qed.

Lemma sample_origin : origin sample_sender sample_follower.
Proof.
  constructor.
  - intros i j a b Ha Hb Hij. sample_index Ha sample_follower_wf; sample_index Hb sample_follower_wf; cbn; lia.
  - intros i j a b Ha Hb Et Hj. change (floor_of sample_sender sample_follower) with 0 in Hj.
    sample_index Ha sample_sender_wf; sample_index Hb sample_follower_wf; try lia; try done.
    eexists. split; [by vm_compute|done].
Qed.

(** The leader goes back to index 2 and then replaces [b]'s entry there. *)
Lemma replication_converges_witness :
  let '(l, f) := rounds "b" [1; 2; 3; 4; 5] (sample_sender, sample_follower) in
  logEntry f 2 = Some (sample_entry 2 2) /\ default 0 (matchIndex l !! "b") = 2.
Proof.
  destruct (rounds "b" [1; 2; 3; 4; 5] (sample_sender, sample_follower)) as [l f] eqn:E.
  assert (3 + lastLogIndexLocked sample_sender - 2 * logBase sample_follower <= Z.of_nat (length [1; 2; 3; 4; 5])) as Hn
    by (by vm_compute).
  destruct (replication_converges "b" [1; 2; 3; 4; 5] sample_sender sample_follower 3 0 l f sample_catchup
    sample_origin Hn E) as (Hs & Hm & _).
  assert (logBase f = 0) as Eb.
  { pose proof (f_equal (fun x => logBase x.2) E) as Eb. cbn [snd] in Eb. rewrite <- Eb. by vm_compute. }
  split; [|rewrite Hm; by vm_compute]. rewrite (Hs 2); [by vm_compute|]. unfold floor_of. rewrite Eb.
  split; by vm_compute.
Defined.

(** The probe at index 2 is accepted. *)
Lemma replication_step_witness :
  let p := MkPeer "b" "" "" RoleVoter 2 0 false 0 0 in
  exists req f resp, build_append sample_sender p 0 = Some (false, req) /\
    handleAppendEntries sample_follower req io_ok 5 = (f, resp) /\
    logEntry f 2 = Some (sample_entry 2 2).
Proof.
  intros p. destruct (build_append sample_sender p 0) as [[sn req]|] eqn:Eb; [|by vm_compute in Eb].
  assert (sn = false) as -> by (vm_compute in Eb; by injection Eb as <- _).
  destruct (handleAppendEntries sample_follower req io_ok 5) as [f resp] eqn:E.
  exists req, f, resp. split; [done|]. split; [done|].
  assert (req = AppendEntries 2 "a" 1 1 [sample_entry 2 2] 0) as Er
    by (vm_compute in Eb; injection Eb as <-; by vm_compute).
  assert (ar_Success resp = true /\ ar_MatchIndex resp = 2 /\ logBase f = 0) as (Hok & HM & Hb).
  { set (g := fun x : Node * AppendEntriesResponse => (ar_Success x.2, ar_MatchIndex x.2, logBase x.1)).
    assert (g (handleAppendEntries sample_follower (AppendEntries 2 "a" 1 1 [sample_entry 2 2] 0) io_ok 5) =
      (true, 2, 0)) as Ex by (by vm_compute).
    rewrite <- Er, E in Ex. subst g. cbn [fst snd] in Ex. by injection Ex as -> -> ->. }
  assert (0 < p_nextIndex p <= lastLogIndexLocked sample_sender + 1) as Hn by (split; by vm_compute).
  destruct (replication_step sample_sender sample_follower p 0 req io_ok 5 f resp sample_sender_wf
    sample_follower_wf sample_matching Hn Eb E Hok) as (_ & Hs & _).
  rewrite (Hs 2); [by vm_compute|]. rewrite HM. unfold floor_of. rewrite Hb. split; by vm_compute.
Defined.

(** [b] has compacted its log up to index 2; a leader whose disk errors on
    [b] have driven back to index 1 cannot reach it any more. *)
Definition sample_compacted : Node :=
  set_logBaseTerm 2 (set_logBase 2 (set_log [base_entry 2 2] (sample_new "b" ["a"; "c"]))).

Definition sample_driven_back : Node :=
  let fail l :=
    match peers l !! "b" with
    | Some p =>
        match build_append l p 0 with
        | Some (_, req) =>
            let '(_, resp) := handleAppendEntries sample_compacted req
                (AppendEntriesIO PersistOk DeleteOk (StoreFailed 0) PersistOk) 5 in
            (handleAppendEntriesResponse l "b" true req resp PersistOk 5).1
        | None => l
        end
    | None => l
    end in
  fail (set_log [base_entry 0 0; sample_entry 1 1; sample_entry 2 2; sample_entry 3 2]
    (set_progress "b" true (Some 3) (Some 0) sample_leader)).

Lemma sample_driven_back_wf : log_wf sample_driven_back.
Proof.
  assert (log sample_driven_back = [base_entry 0 0; sample_entry 1 1; sample_entry 2 2; sample_entry 3 2])
    as El by (by vm_compute).
  assert (logBase sample_driven_back = 0) as Eb by (by vm_compute).
  assert (logBaseTerm sample_driven_back = 0) as Et by (by vm_compute).
  constructor; rewrite ?El, ?Eb, ?Et; clear; [done| | |done].
  - by exists (base_entry 0 0), [sample_entry 1 1; sample_entry 2 2; sample_entry 3 2].
  - intros k e He. destruct k as [|[|[|[|k]]]]; cbn in He; by simplify_eq.
Qed.

Lemma sample_compacted_wf : log_wf sample_compacted.
Proof.
  constructor; [by vm_compute|by exists (base_entry 2 2), []| |by vm_compute].
  change (log sample_compacted) with [base_entry 2 2]. change (logBase sample_compacted) with 2.
  intros k e He. destruct k as [|k]; cbn in He; by simplify_eq.
Qed.

Lemma sample_driven_back_progress : progress sample_driven_back "b" 2 0.
Proof. split_and!; [|by vm_compute|by vm_compute]. eexists. split; [by vm_compute|done]. Qed.

Lemma probe_below_base_stalls_witness :
  let '(l, f) := rounds "b" (replicate 1000 7) (sample_driven_back, sample_compacted) in
  progress l "b" 2 0 /\ lastLogIndexLocked f = 2.
Proof.
  generalize (replicate 1000 7). intros times.
  destruct (rounds "b" times (sample_driven_back, sample_compacted)) as [l f] eqn:E.
  destruct (probe_below_base_stalls "b" times sample_driven_back sample_compacted 2 0 l f)
    as (H1 & H2 & _ & _);
    [by vm_compute|exact sample_driven_back_wf|exact sample_compacted_wf|by vm_compute
    |exact sample_driven_back_progress|split; by vm_compute|split; by vm_compute|by vm_compute|exact E|].
  split; [exact H1|]. unfold lastLogIndexLocked. rewrite H2. by vm_compute.
Defined.

(** ** Membership changes *)

(** A codec of membership entries. *)
Definition change_code (t : MembershipChangeType) : nat :=
  match t with MembershipAddPeer => 0 | MembershipRemovePeer => 1 | MembershipReplacePeer => 2 end.

Definition change_of_code (n : nat) : MembershipChangeType :=
  match n with 0%nat => MembershipAddPeer | 1%nat => MembershipRemovePeer | _ => MembershipReplacePeer end.

Definition peer_code (p : RaftPeer) : string * string * string * string * bool :=
  (ID p, Address p, Region p, Role p, NonVoter p).

Definition peer_of_code (c : string * string * string * string * bool) : RaftPeer :=
  let '(i, a, r, ro, nv) := c in MkRaftPeer i a r ro nv.

Definition change_membership : MembershipCodec := {|
  encodeMembershipEntry e := digits (encode (change_code (m_Type e), peer_code (m_Peer e),
    peer_code <$> m_OldPeer e, m_OldConfig e, m_NewConfig e, m_Phase e, peer_code <$> m_Members e));
  decodeMembershipEntry b :=
    p ← undigits b;
    '(t, peer, old, oc, nc, ph, ms) ← (decode p : option (nat * _ * option _ * list string * list string * string * list _));
    Some (MembershipEntry (change_of_code t) (peer_of_code peer) (peer_of_code <$> old) oc nc ph (peer_of_code <$> ms));
  dialableAddr := fun _ => true;
|}.

#[local] Instance change_membership_ok : MembershipCodecOk change_membership.
Proof.
  constructor. intros [t p old oc nc ph ms] _ _ _ _ _ _. cbn [encodeMembershipEntry decodeMembershipEntry change_membership].
  rewrite undigits_digits. cbn [mbind option_bind]. rewrite countable.decode_encode. cbn.
  f_equal. f_equal.
  - by destruct t.
  - by destruct p.
  - by destruct old as [[]|].
  - induction ms as [|[] ms IH]; [done|]. cbn. f_equal. exact IH.
Qed.

(** The only member elects itself and commits its no-op. *)
Definition sample_new_lone : Node :=
  @NewNodeWithStableStore change_membership (sample_config "a" []) (Some ∅) (Some None) 0.

Definition sample_elected_lone : Node :=
  startElection_finish (startElection_begin sample_new_lone PersistOk 5).1 1 0 1 StoreOk 6.

Definition sample_lone : Node := (checkCommit sample_elected_lone PersistOk).1.

Lemma sample_lone_run : @node_run change_membership (sample_config "a" []) sample_lone.
Proof.
  apply (nr_local _ sample_elected_lone); [|apply ls_check_commit]. apply nr_finish, nr_begin, nr_new.
Qed.

Lemma sample_lone_wf : log_wf sample_lone.
Proof.
  assert (log sample_lone = [base_entry 0 0; MkEntry 1 1 LogNoOp []]) as El by (by vm_compute).
  assert (logBase sample_lone = 0) as Eb by (by vm_compute).
  assert (logBaseTerm sample_lone = 0) as Et by (by vm_compute).
  constructor; rewrite ?El, ?Eb, ?Et; clear; [done| | |done].
  - by exists (base_entry 0 0), [MkEntry 1 1 LogNoOp []].
  - intros k e He. destruct k as [|[|k]]; cbn in He; by simplify_eq.
Qed.

(** It adds [b]; after a command is taken the next proposal still has to
    wait. *)
Lemma one_change_at_a_time_witness :
  exists n, @AddPeer change_membership sample_lone (sample_peer "b") StoreOk = (n, None) /\
    map ID (membershipLatest n) = ["a"; "b"] /\ sample_peer "b" ∈ membershipLatest n /\
    commitIndex n < membershipLatestIndex n /\
    exists err, (@AddPeer change_membership (handleApply n [x01] StoreOk).1 (sample_peer "c") StoreOk).2 = Some err.
Proof.
  destruct (@AddPeer change_membership sample_lone (sample_peer "b") StoreOk) as [n r] eqn:E.
  assert (r = None) as ->.
  { pose proof (f_equal snd E) as Er. cbn [snd] in Er. rewrite <- Er. by vm_compute. }
  assert (n = (@AddPeer change_membership sample_lone (sample_peer "b") StoreOk).1) as En by (by rewrite E).
  destruct (@one_change_at_a_time change_membership change_membership_ok (sample_config "a" []) sample_lone
    (sample_peer "b") "b" StoreOk n sample_lone_run sample_lone_wf) as (H1 & _ & _ & H2 & _ & H3);
    [by vm_compute|by vm_compute| | | |by left|].
  - assert (membershipLatest sample_lone = [MkRaftPeer "a" "10.0.0.1:7946" "default" RoleVoter false]) as ->
      by (by vm_compute). by repeat constructor.
  - by repeat constructor.
  - intros p Hp. exfalso. assert (peers sample_lone !! "b" = None) as Hno by (by vm_compute). congruence.
  - exists n. split; [done|]. split; [rewrite En; by vm_compute|]. split; [|split; [exact H2|]].
    + apply (H1 E). by right.
    + destruct (H3 (handleApply n [x01] StoreOk).1) as (_ & H4).
      { eapply sp_step; [apply sp_here; exact H2|apply ld_apply|]. rewrite En. by vm_compute. }
      destruct (H4 (sample_peer "c") "c" StoreOk) as [[err He] _]. exists err. by rewrite He.
Defined.

(** A follower that hears from no leader supports a candidate. *)
Lemma prevote_predicts_vote_witness :
  vr_VoteGranted (handleRequestVote (sample_new "b" ["a"; "c"]) (RequestVote 1 "a" 0 0) PersistOk PersistOk 5).2 = true.
Proof.
  destruct (prevote_predicts_vote (sample_new "b" ["a"; "c"]) (RequestVote 1 "a" 0 0) 5) as [Hg _]; [by vm_compute|].
  assert (vr_VoteGranted (handlePreVote (sample_new "b" ["a"; "c"]) (RequestVote 1 "a" 0 0) 5) = true) as Hp
    by (by vm_compute).
  destruct (Hg Hp) as (_ & _ & Hv). exact Hv.
Defined.
