(* ===== verification/RaftRun.v ===== *)
(** * A run of a two-member cluster

    Node [a] is elected with the vote of [b], replicates and commits its
    no-op, and [b] learns of the commit and is restarted from its disk. The
    run satisfies the hypotheses of the cluster theorems of RaftSafety.v. *)
From stdpp Require Import base gmap strings list sorting.
From Stdlib Require Import ZArith Lia Strings.Byte.
From S2P Require Import Prelude Store Membership Raft RaftOps RaftElection RaftLog RaftProps RaftConfig RaftReplication RaftSpec RaftRepr RaftSafety RaftExamples.

Open Scope Z_scope.

#[local] Existing Instance sample_membership.

Definition two : gset string := {["a"; "b"]}.

Definition run_io : append_entries_io := AppendEntriesIO PersistOk DeleteOk StoreOk PersistOk.

Definition put (x : net) (i : string) (n : Node) : net :=
  Net (with_node x i n) (nt_votes x) (nt_appends x) (nt_replies x) (nt_reads x).

Definition run0 : net :=
  Net (Cluster (fun i => sample_new i (if decide (i = "a") then ["b"] else if decide (i = "b") then ["a"] else []))
    ∅ [] ∅) [] [] [] [].

(** [a] passes the pre-vote and campaigns in term 1. *)
Definition run1 : net := put run0 "a" (startElection_begin (nd run0 "a") PersistOk 5).1.

Definition run_campaign := startElection_campaign (nd run1 "a") 1 true PersistOk 5.
Definition run_vreq : RequestVoteRequest := RequestVote 1 "a" 0 0.

Definition run2 : net :=
  Net (Cluster (upd (nodes (nt_cluster run1)) "a" run_campaign.1)
    ({[("a", "a", rv_Term run_vreq)]} ∪ grants (nt_cluster run1))
    (Campaign "a" (rv_Term run_vreq) ["b"] [] :: campaigns (nt_cluster run1)) (led (nt_cluster run1)))
    (run_vreq :: nt_votes run1) (nt_appends run1) (nt_replies run1) (nt_reads run1).

(** [b] votes for it. *)
Definition run_vote := handleRequestVote (nd run2 "b") run_vreq PersistOk PersistOk 6.

Definition run3 : net :=
  Net (Cluster (upd (nodes (nt_cluster run2)) "b" run_vote.1)
    (if vr_VoteGranted run_vote.2 then {[("b", rv_CandidateID run_vreq, rv_Term run_vreq)]} ∪ grants (nt_cluster run2)
     else grants (nt_cluster run2)) (campaigns (nt_cluster run2)) (led (nt_cluster run2)))
    (nt_votes run2) (nt_appends run2) (nt_replies run2) (nt_reads run2).

Definition run_won : campaign := Campaign "a" 1 ["b"] ["b"].

Definition run4 : net :=
  Net (Cluster (nodes (nt_cluster run3)) (grants (nt_cluster run3)) ([] ++ run_won :: [])
    (led (nt_cluster run3))) (nt_votes run3) (nt_appends run3) (nt_replies run3) (nt_reads run3).

Definition run_elected : Node :=
  startElection_finish (nd run4 (c_cand run_won)) (c_term run_won) (length (c_voting run_won))
    (S (length (c_votes run_won))) StoreOk 7.

Definition run5 : net :=
  Net (Cluster (upd (nodes (nt_cluster run4)) (c_cand run_won) run_elected) (grants (nt_cluster run4))
    (campaigns (nt_cluster run4))
    (if decide (state (nd run4 (c_cand run_won)) <> StateLeader /\ state run_elected = StateLeader)
     then {[(c_cand run_won, currentTerm run_elected)]} ∪ led (nt_cluster run4) else led (nt_cluster run4)))
    (nt_votes run4) (nt_appends run4) (nt_replies run4) (nt_reads run4).

(** The no-op goes to [b] and is committed by [a]. *)
Definition read_commit (x : net) (i : string) : net :=
  Net (nt_cluster x) (nt_votes x) (nt_appends x) (nt_replies x) ((i, commitIndex (nd x i)) :: nt_reads x).

Definition send (x : net) (req : AppendEntriesRequest) : net :=
  Net (nt_cluster x) (nt_votes x) (req :: nt_appends x) (nt_replies x) (nt_reads x).

Definition deliver (x : net) (v : string) (req : AppendEntriesRequest) : net :=
  let r := handleAppendEntries (nd x v) req run_io 8 in
  Net (with_node x v r.1) (nt_votes x) (nt_appends x) ((v, req, r.2) :: nt_replies x) (nt_reads x).

Definition run_req1 : AppendEntriesRequest := AppendEntries 1 "a" 0 0 [MkEntry 1 1 LogNoOp []] 0.
Definition run_peer1 : Peer := MkPeer "b" "" "" RoleVoter 1 0 false 0 0.

Definition run6 : net := read_commit run5 "a".
Definition run7 : net := send run6 run_req1.
Definition run8 : net := deliver run7 "b" run_req1.

Definition run_resp1 : AppendEntriesResponse := AppendReply 1 true 1 0 0.

Definition run9 : net :=
  put run8 (ae_LeaderID run_req1)
    (handleAppendEntriesResponse (nd run8 (ae_LeaderID run_req1)) "b" true run_req1 run_resp1 PersistOk 9).1.

(** [b] learns of the commit and restarts. *)
Definition run_req2 : AppendEntriesRequest := AppendEntries 1 "a" 1 1 [] 1.
Definition run_peer2 : Peer := MkPeer "b" "" "" RoleVoter 2 1 false 0 0.

Definition run10 : net := read_commit run9 "a".
Definition run11 : net := send run10 run_req2.
Definition run12 : net := deliver run11 "b" run_req2.

Definition run_restart : option Node :=
  start_node (NewNodeWithStableStore (sample_config "b" ["a"]) (storage (nd run12 "b")) (stable (nd run12 "b")) 10)
    (sample_config "b" ["a"]) (Saved None false) true None.

Definition run13 : net := put run12 "b" (default (nd run12 "b") run_restart).

(** ** Its steps *)

Lemma run_step1 : nstep two run0 run1.
Proof.
  refine (ns_local two run0 "a" (startElection_begin (nd run0 "a") PersistOk 5).1 _).
  refine (ks_begin (nd run0 "a") PersistOk 5 _ (startElection_begin (nd run0 "a") PersistOk 5).2 _ _ _ _).
  - by vm_compute.
  - done.
  - apply surjective_pairing.
  - intros term. by vm_compute.
Qed.

Lemma run_campaign_req :
  startElection_campaign (nd run1 "a") 1 true PersistOk 5 = (run_campaign.1, Some run_vreq).
Proof. by vm_compute. Qed.

Lemma run_step2 : nstep two run1 run2.
Proof.
  refine (ns_campaign two run1 "a" 1 true PersistOk 5 run_campaign.1 run_vreq ["b"] _ _ _ _).
  - by vm_compute.
  - done.
  - exact run_campaign_req.
  - split_and!; [set_solver|repeat constructor; set_solver|]. intros j. unfold two. set_solver.
Qed.

Lemma run_step3 : nstep two run2 run3.
Proof.
  refine (ns_vote two run2 "b" run_vreq PersistOk PersistOk 6 run_vote.1 run_vote.2 _ _).
  - by left.
  - unfold run_vote. apply surjective_pairing.
Qed.

Lemma run_granted : vr_VoteGranted run_vote.2 = true.
Proof. by vm_compute. Qed.

Lemma run_step4 : nstep two run3 run4.
Proof.
  refine (ns_count two run3 (Campaign "a" 1 ["b"] []) [] [] "b" _ _ _ _); [done|set_solver|set_solver|].
  unfold run3. cbn [nt_cluster grants c_cand c_term]. rewrite run_granted. unfold run_vreq.
  cbn [rv_CandidateID rv_Term]. set_solver.
Qed.

Lemma run_room : room (nd run4 "a").
Proof. unfold room. by vm_compute. Qed.

Lemma run_step5 : nstep two run4 run5.
Proof. refine (ns_finish two run4 run_won StoreOk 7 run_elected _ _ run_room _); [by left|by left|done]. Qed.

Lemma run_step6 : nstep two run5 run6.
Proof. exact (ns_read two run5 "a"). Qed.

Lemma run_commit5 : commitIndex (nd run5 "a") = 0.
Proof. by vm_compute. Qed.

Lemma run_built1 : build_append (nd run6 "a") run_peer1 0 = Some (false, run_req1).
Proof. by vm_compute. Qed.

Lemma run_step7 : nstep two run6 run7.
Proof.
  refine (ns_send two run6 "a" run_peer1 0 run_req1 _ run_built1).
  unfold run6, read_commit. cbn [nt_reads]. rewrite run_commit5. by left.
Qed.

Lemma run_deliver x req v : req ∈ nt_appends x -> nstep two x (deliver x v req).
Proof.
  intros H. refine (ns_append two x v req run_io 8 _ _ H _ _); [by split; left|apply surjective_pairing].
Qed.

Lemma run_step8 : nstep two run7 run8.
Proof. apply run_deliver. by left. Qed.

Lemma run_resp1_sent : (handleAppendEntries (nd run7 "b") run_req1 run_io 8).2 = run_resp1.
Proof. by vm_compute. Qed.

Lemma run_config8 : voters (membershipLatest (nd run8 "a")) = two.
Proof.
  assert (map ID (filter (fun m => is_voter m = true) (membershipLatest (nd run8 "a"))) = ["a"; "b"]) as E
    by by vm_compute.
  unfold voters. rewrite E. unfold two. set_solver.
Qed.

Lemma run_step9 : nstep two run8 run9.
Proof.
  refine (ns_response two run8 "b" true run_req1 run_resp1 PersistOk 9 _ run_config8).
  unfold run8, deliver. cbn [nt_replies]. rewrite run_resp1_sent. by left.
Qed.

Lemma run_step10 : nstep two run9 run10.
Proof. exact (ns_read two run9 "a"). Qed.

Lemma run_commit9 : commitIndex (nd run9 "a") = 1.
Proof. by vm_compute. Qed.

Lemma run_built2 : build_append (nd run10 "a") run_peer2 1 = Some (false, run_req2).
Proof. by vm_compute. Qed.

Lemma run_step11 : nstep two run10 run11.
Proof.
  refine (ns_send two run10 "a" run_peer2 1 run_req2 _ run_built2).
  unfold run10, read_commit. cbn [nt_reads]. rewrite run_commit9. by left.
Qed.

Lemma run_step12 : nstep two run11 run12.
Proof. apply run_deliver. by left. Qed.

Lemma run_restarted :
  start_node (NewNodeWithStableStore (sample_config "b" ["a"]) (storage (nd run12 "b")) (stable (nd run12 "b")) 10)
    (sample_config "b" ["a"]) (Saved None false) true None = Some (default (nd run12 "b") run_restart).
Proof. by vm_compute. Qed.

Lemma run_name12 : cfg_NodeID (sample_config "b" ["a"]) = nodeID (nd run12 "b").
Proof. by vm_compute. Qed.

Lemma run_step13 : nstep two run12 run13.
Proof.
  exact (ns_restart two run12 "b" (sample_config "b" ["a"]) (Saved None false) true 10 _ run_name12 run_restarted).
Qed.

Lemma run_init : ninit run0.
Proof.
  split; [|split_and!; try done].
  - split_and!; try done.
  - intros i. unfold nd, run0. cbn [nt_cluster nodes]. unfold sample_new.
    split_and!; [done..|apply config_new].
Qed.

Lemma run_upto9 : nreach two run9.
Proof.
  exists run0. split; [exact run_init|].
  eapply rtc_l; [exact run_step1|]. eapply rtc_l; [exact run_step2|]. eapply rtc_l; [exact run_step3|].
  eapply rtc_l; [exact run_step4|]. eapply rtc_l; [exact run_step5|]. eapply rtc_l; [exact run_step6|].
  eapply rtc_l; [exact run_step7|]. eapply rtc_l; [exact run_step8|]. eapply rtc_once; exact run_step9.
Qed.

Lemma run_from9 : rtc (nstep two) run9 run13.
Proof.
  eapply rtc_l; [exact run_step10|]. eapply rtc_l; [exact run_step11|]. eapply rtc_l; [exact run_step12|].
  eapply rtc_once; exact run_step13.
Qed.

Lemma run_upto13 : nreach two run13.
Proof.
  destruct run_upto9 as (x0 & Hi & Hr). exists x0. split; [exact Hi|]. etrans; [exact Hr|exact run_from9].
Qed.

Lemma two_named : "" ∉ two.
Proof. unfold two. set_solver. Qed.

(** ** What the theorems say about it *)

Definition run_noop : RaftLogEntry := MkEntry 1 1 LogNoOp [].

Lemma run_entry9 : logEntry (nd run9 "a") 1 = Some run_noop.
Proof. by vm_compute. Qed.

Lemma run_entry13 : logEntry (nd run13 "a") 1 = Some run_noop /\ logEntry (nd run13 "b") 1 = Some run_noop.
Proof. split; by vm_compute. Qed.

Lemma run_commit13 : commitIndex (nd run13 "b") = 1 /\ commitIndex (nd run9 "a") = 1.
Proof. split; by vm_compute. Qed.

Lemma run_lead13 : state (nd run13 "a") = StateLeader /\ currentTerm (nd run9 "a") <= currentTerm (nd run13 "a").
Proof. split; [by vm_compute|]. by vm_compute. Qed.

(** Some protocol state represents the run. *)
Lemma cluster_refines_witness : exists s, sp_reach two s /\ sim run13 s.
Proof. exact (cluster_refines two run13 two_named run_upto13). Defined.

(** The logs of both nodes agree. *)
Lemma logs_match_witness : logEntry (nd run13 "a") 1 = logEntry (nd run13 "b") 1.
Proof.
  destruct run_entry13 as [Ha Hb].
  refine (logs_match two run13 "a" "b" 1 _ _ two_named run_upto13 _ Ha Hb eq_refl 1 _); lia.
Defined.

(** The leader still holds what it had committed. *)
Lemma leader_holds_committed_witness : logEntry (nd run13 "a") 1 = logEntry (nd run9 "a") 1.
Proof.
  destruct run_commit13 as [_ Hc]. destruct run_lead13 as [Hl Ht].
  apply (leader_holds_committed two run9 run13 "a" "a" 1 two_named run_upto9 run_from9); [rewrite Hc; lia|done|done].
Defined.

