(* ===== verification/RaftFaults.v ===== *)
(** * Two disk faults the cluster theorems exclude

    RaftSafety.v assumes that a campaign whose hard state cannot be written
    does not keep the new term in memory, and that a write to the log store
    happens entirely or not at all. src/internal/raft/node.go provides
    neither: [startElection] leaves [currentTerm] raised when the write fails,
    and [CobaltDBLogStore.StoreLogs] writes several frames. Here both faults
    are followed to the point where a node loses, or no longer protects, an
    entry it has acknowledged. *)
From stdpp Require Import base gmap strings list sorting.
From Stdlib Require Import ZArith Lia Strings.Byte.
From S2P Require Import Prelude Store Membership Raft RaftOps RaftElection RaftExamples.

Open Scope Z_scope.

#[local] Existing Instance sample_membership.

Definition all_ok : append_entries_io := AppendEntriesIO PersistOk DeleteOk StoreOk PersistOk.

(** A member of a cluster of five that holds one entry of term 1. *)
Definition member : Node :=
  (handleAppendEntries (sample_new "c" ["a"; "b"; "d"; "e"])
    (AppendEntries 1 "a" 0 0 [sample_entry 1 1] 0) all_ok 0).1.

(** The node [Start] builds over the stores of [n]. *)
Definition reboot (n : Node) : option Node :=
  start_node (NewNodeWithStableStore (sample_config "c" ["a"; "b"; "d"; "e"]) (storage n) (stable n) 0)
    (sample_config "c" ["a"; "b"; "d"; "e"]) (Saved None false) true None.

(** ** A campaign whose hard state is not written *)

(** The member times out and passes the pre-vote; the write of the self-vote
    fails and nothing reaches the disk. *)
Definition campaign_failed : Node :=
  (startElection_campaign (startElection_begin member PersistOk 5000).1 2 true (PersistFailed false) 5000).1.

(** A leader of term 2 replicates entry 2 to it; the delayed request of the
    leader of term 1 for the same index arrives after a restart. *)
Definition request_of_2 (d : bytes) : AppendEntriesRequest :=
  AppendEntries 2 "b" 1 1 [MkEntry 2 2 LogCommand d] 0.
Definition request_of_1 (d : bytes) : AppendEntriesRequest :=
  AppendEntries 1 "a" 1 1 [MkEntry 2 1 LogCommand d] 0.

Definition acked_in_2 (d : bytes) : Node * AppendEntriesResponse :=
  handleAppendEntries campaign_failed (request_of_2 d) all_ok 5001.

(** After a campaign whose hard state could not be written, the node works
    in a term that is not on disk. It acknowledges entry 2 to the leader of
    term 2; after a restart it is back in term 1, where a delayed request of
    the old leader makes it delete that entry. *)
Lemma failed_campaign_loses_acknowledged d d' :
  currentTerm campaign_failed = 2 /\
  (acked_in_2 d).2 = AppendReply 2 true 2 0 0 /\
  exists n, reboot (acked_in_2 d).1 = Some n /\ currentTerm n = 1 /\
    logEntry n 2 = Some (MkEntry 2 2 LogCommand d) /\
    let '(n', resp) := handleAppendEntries n (request_of_1 d') all_ok 9000 in
    ar_Success resp = true /\ logEntry n' 2 = Some (MkEntry 2 1 LogCommand d').
Proof.
  split; [by vm_compute|]. split; [by vm_compute|]. eexists. split; [vm_compute; reflexivity|].
  split; [done|]. split; [done|]. by vm_compute.
Qed.

(** ** A log write that happens in part *)

(** Three entries of term 3 of which the store takes two before it fails. *)
Definition torn : Node * AppendEntriesResponse :=
  handleAppendEntries member
    (AppendEntries 3 "a" 1 1 [sample_entry 2 3; sample_entry 3 3; sample_entry 4 3] 0)
    (AppendEntriesIO PersistOk DeleteOk (StoreFailed 2) PersistOk) 100.

(** Then a leader of term 4 replaces index 2. *)
Definition replaced : Node * AppendEntriesResponse :=
  handleAppendEntries torn.1 (AppendEntries 4 "b" 1 1 [sample_entry 2 4] 0) all_ok 200.

(** Entries of a log write that failed half-way come back. The member
    refuses the request of term 3 but part of it stays in the store; it then
    acknowledges entry 2 of term 4, and after a restart an entry of term 3
    follows it. Its last term has gone back to 3, so it grants its vote to a
    candidate that does not have the entry it acknowledged. *)
Lemma partial_store_resurrects_entries :
  ar_Success torn.2 = false /\ replaced.2 = AppendReply 4 true 2 0 0 /\
  map (fun e => (Index e, Term e)) (log replaced.1) = [(0, 0); (1, 1); (2, 4)] /\
  exists n, reboot replaced.1 = Some n /\
    map (fun e => (Index e, Term e)) (log n) = [(0, 0); (1, 1); (2, 4); (3, 3)] /\
    (handleRequestVote replaced.1 (RequestVote 5 "a" 4 3) PersistOk PersistOk 300).2 = VoteReply 5 false /\
    (handleRequestVote n (RequestVote 5 "a" 4 3) PersistOk PersistOk 300).2 = VoteReply 5 true.
Proof.
  split; [by vm_compute|]. split; [by vm_compute|]. split; [by vm_compute|].
  eexists. split; [vm_compute; reflexivity|]. split; [done|]. split; by vm_compute.
Qed.
