(* ===== verification/Transport.v ===== *)
(** * Authenticated frames of the Raft transport

    src/internal/raft/transport_auth.go and the framing in transport.go: with a
    cluster secret every frame carries the sender, a sequence number, a time
    and an HMAC, and receivers keep a sliding window per sender incarnation so
    that a frame is accepted once. Connections are strings of bytes; HMAC is a
    parameter, the time and the random epoch are arguments. *)
From stdpp Require Import base gmap strings list sets.
From Stdlib Require Import ZArith Lia Strings.Ascii.
From Stdlib Require Strings.String.
From S2P Require Import Prelude GoStrings.

Open Scope Z_scope.

(** HMAC-SHA256 in hexadecimal. That distinct messages have distinct codes
    under a key is the idealisation of its collision resistance. *)
Class Mac := {
  hmac : string -> string -> string;
  hmac_plain k m : plain (hmac k m);
  hmac_inj k m m' : hmac k m = hmac k m' -> m = m';
}.

Definition nanosecond_per_second : Z := 1000000000.
Definition transportAuthPrefix : string := "AUTH ".
Definition transportMACDomain : string := "anubis-raft-rpc-v1".
Definition transportRespDomain : string := "anubis-raft-resp-v1".
Definition transportMaxSkew : Z := 60 * nanosecond_per_second.
Definition replayWindowBits : Z := 4096.
Definition maxEpochsPerOrigin : nat := 8.
Definition maxReplayOrigins : nat := 1024.
Definition maxTransportPayload : Z := 16 * 2 ^ 20.

(** ** The sliding window *)

Record replayWindow := MkWindow {
  highest : Z;
  bits : list Z;
  w_lastSeen : Z;
}.

Definition window_words : nat := 64.
Definition no_bits : list Z := replicate window_words 0.
Definition word (l : list Z) (i : nat) : Z := default 0 (l !! i).

(** A loop over the words from the highest index down that assigns in
    place. *)
Definition down_loop (f : list Z -> nat -> Z) (idxs : list nat) (l : list Z) : list Z :=
  foldl (fun l i => <[i := f l i]> l) l idxs.

Definition shift_words (words : nat) (l : list Z) : list Z :=
  down_loop (fun l i => if decide (words <= i)%nat then word l (i - words) else 0) (rev (seq 0 window_words)) l.

Definition shift_bits (bitsN : Z) (l : list Z) : list Z :=
  let l := down_loop (fun l i => Z.lor (u64 (Z.shiftl (word l i) bitsN)) (Z.shiftr (word l (i - 1)) (64 - bitsN)))
             (rev (seq 1 (window_words - 1))) l in
  <[O := u64 (Z.shiftl (word l 0) bitsN)]> l.

Definition shift (l : list Z) (n : Z) : list Z :=
  if decide (n >= replayWindowBits) then no_bits else
  let words := Z.to_nat (n / 64) in
  let bitsN := n mod 64 in
  let l := if decide (0 < words)%nat then shift_words words l else l in
  if decide (bitsN > 0) then shift_bits bitsN l else l.

Definition accept (w : replayWindow) (seq : Z) : replayWindow * bool :=
  if decide (seq > highest w) then
    let l := shift (bits w) (seq - highest w) in
    (MkWindow seq (<[O := Z.lor (word l 0) 1]> l) (w_lastSeen w), true)
  else
    let d := highest w - seq in
    if decide (d >= replayWindowBits) then (w, false) else
    let wd := Z.to_nat (d / 64) in
    let bit := d mod 64 in
    if decide (Z.land (word (bits w) wd) (Z.shiftl 1 bit) <> 0) then (w, false) else
    (MkWindow (highest w) (<[wd := Z.lor (word (bits w) wd) (Z.shiftl 1 bit)]> (bits w)) (w_lastSeen w), true).

(** ** Frames *)

Record frameAuth := MkFrame {
  origin : string;
  epoch : Z;
  seqno : Z;
  ts : Z;
  mac : string;
}.

Inductive transport_error :=
| ErrUnsigned | ErrMalformed | ErrNoOrigin | ErrSignature | ErrSkew | ErrNotMember | ErrReplay
| ErrRead | ErrLength | ErrUnexpectedAuth.

Record originReplay := MkOrigin { epochs : gmap Z replayWindow; o_lastSeen : Z }.

(** The node's own identity and numbering, and what it remembers of others. *)
Record transportAuth := MkTransport {
  secret : string;
  nodeID : string;
  t_epoch : Z;
  t_seq : Z;
  replay : gmap string originReplay;
}.

Definition newline : ascii := "010"%char.
Definition nl : string := String.String newline "".

(** [writeMACFields] and the payload behind them. *)
Definition mac_fields (fields : list string) (payload : string) : string :=
  foldr (fun f rest => f +:+ nl +:+ rest) payload fields.

Section auth.
Context `{!Mac} (isMember : option (string -> string -> bool)).

Definition requestMAC (sec method : string) (f : frameAuth) (payload : string) : string :=
  hmac sec (mac_fields [transportMACDomain; method; origin f; sprintf_d (epoch f); sprintf_d (seqno f); FormatInt (ts f)] payload).

Definition responseMAC (sec : string) (f : frameAuth) (payload : string) : string :=
  hmac sec (mac_fields [transportRespDomain; origin f; sprintf_d (epoch f); sprintf_d (seqno f)] payload).

Definition auth_line (f : frameAuth) : string :=
  transportAuthPrefix +:+ origin f +:+ " " +:+ sprintf_d (epoch f) +:+ " " +:+ sprintf_d (seqno f) +:+ " " +:+
    FormatInt (ts f) +:+ " " +:+ mac f +:+ nl.

Definition sign (a : transportAuth) (method payload : string) (now : Z) : transportAuth * (string * frameAuth) :=
  let sq := u64 (t_seq a + 1) in
  let f := MkFrame (nodeID a) (t_epoch a) sq now "" in
  let f := MkFrame (nodeID a) (t_epoch a) sq now (requestMAC (secret a) method f payload) in
  (MkTransport (secret a) (nodeID a) (t_epoch a) sq (replay a), (auth_line f, f)).

Definition parseAuthLine (line : string) : transport_error + frameAuth :=
  if negb (HasPrefix line transportAuthPrefix) then inl ErrUnsigned else
  match Fields (TrimPrefix line transportAuthPrefix) with
  | [o; e; s; t; m] =>
      match ParseUint e 10 64 with
      | None => inl ErrMalformed
      | Some e =>
          match ParseUint s 10 64 with
          | None => inl ErrMalformed
          | Some s =>
              if decide (s = 0) then inl ErrMalformed else
              match ParseInt t 10 64 with
              | None => inl ErrMalformed
              | Some t => inr (MkFrame o e s t m)
              end
          end
      end
  | _ => inl ErrMalformed
  end.

Definition skewed (f : frameAuth) (now : Z) : bool :=
  bool_decide (now - ts f > transportMaxSkew \/ now - ts f < - transportMaxSkew).

Definition admitted (f : frameAuth) (method : string) : bool :=
  match isMember with None => true | Some m => m (origin f) method end.

Definition precheck (method : string) (f : frameAuth) (now : Z) : option transport_error :=
  if decide (origin f = "") then Some ErrNoOrigin else
  if skewed f now then Some ErrSkew else
  if negb (admitted f method) then Some ErrNotMember else None.

(** *** Remembering frames *)

(** One step of the search for the least recently seen entry; the zero time
    marks that none was found yet. *)
Definition older {K} (acc : K * Z) (k : K) (seen : Z) : K * Z :=
  if decide (acc.2 = zero_time \/ seen < acc.2) then (k, seen) else acc.

Definition pruneEpochs (o : originReplay) (now : Z) : originReplay :=
  let live := filter (fun kv => ~ now - w_lastSeen kv.2 > 2 * transportMaxSkew) (epochs o) in
  let oldest := foldl (fun acc kv => older acc kv.1 (w_lastSeen kv.2)) (0, zero_time) (map_to_list live) in
  MkOrigin (if decide (maxEpochsPerOrigin <= size live)%nat then delete oldest.1 live else live) (o_lastSeen o).

Definition pruneOriginsLocked (m : gmap string originReplay) (now : Z) : gmap string originReplay :=
  let live := filter (fun kv => ~ now - o_lastSeen kv.2 > 2 * transportMaxSkew) m in
  let oldest := foldl (fun acc kv => older acc kv.1 (o_lastSeen kv.2)) ("", zero_time) (map_to_list live) in
  if decide (maxReplayOrigins <= size live)%nat then delete oldest.1 live else live.

Definition claim (m : gmap string originReplay) (org : string) (ep sq now : Z) : gmap string originReplay * bool :=
  let '(m, o) :=
    match m !! org with
    | Some o => (m, o)
    | None => (if decide (maxReplayOrigins <= size m)%nat then pruneOriginsLocked m now else m, MkOrigin ∅ zero_time)
    end in
  let o := MkOrigin (epochs o) now in
  let '(o, w) :=
    match epochs o !! ep with
    | Some w => (o, w)
    | None => (if decide (maxEpochsPerOrigin <= size (epochs o))%nat then pruneEpochs o now else o, MkWindow 0 no_bits zero_time)
    end in
  let '(w, fresh) := accept (MkWindow (highest w) (bits w) now) sq in
  (<[org := MkOrigin (<[ep := w]> (epochs o)) (o_lastSeen o)]> m, fresh).

Definition verify (a : transportAuth) (method : string) (f : frameAuth) (payload : string) (now : Z)
    : transportAuth * option transport_error :=
  if decide (origin f = "") then (a, Some ErrNoOrigin) else
  if decide (requestMAC (secret a) method f payload <> mac f) then (a, Some ErrSignature) else
  if skewed f now then (a, Some ErrSkew) else
  if negb (admitted f method) then (a, Some ErrNotMember) else
  let '(m, fresh) := claim (replay a) (origin f) (epoch f) (seqno f) now in
  let a := MkTransport (secret a) (nodeID a) (t_epoch a) (t_seq a) m in
  if fresh then (a, None) else (a, Some ErrReplay).

(** ** Framing *)

(** [reader.ReadString('\n')]: the line with what follows it. *)
Definition read_line (s : string) : option (string * string) := cut_at newline s.

(** [fmt.Sscanf(s, "%d", &length)] on what [strings.TrimSpace] left. *)
Definition scan_length (s : string) : option Z :=
  let '(neg, rest) :=
    match s with
    | String.String c rest => if decide (c = "-"%char) then (true, rest) else if decide (c = "+"%char) then (false, rest) else (false, s)
    | EmptyString => (false, s)
    end in
  match digit_prefix rest with
  | EmptyString => None
  | d => match ParseUint d 10 64 with
         | Some v => if neg : bool then if decide (v <= 2 ^ 63) then Some (- v) else None
                     else if decide (v < 2 ^ 63) then Some v else None
         | None => None
         end
  end.

(** [io.ReadFull] of [n] bytes. *)
Definition read_full (n : Z) (s : string) : option (string * string) :=
  if decide (n <= Z.of_nat (String.length s))
  then Some (String.substring 0 (Z.to_nat n) s, String.substring (Z.to_nat n) (String.length s - Z.to_nat n) s)
  else None.

Definition read_length (s : string) : transport_error + Z * string :=
  match read_line s with
  | None => inl ErrRead
  | Some (line, s) =>
      match scan_length (TrimSpace line) with
      | None => inl ErrLength
      | Some n => if decide (n <= 0 \/ n > maxTransportPayload) then inl ErrLength else inr (n, s)
      end
  end.

(** The request [sendRPCOn] writes. *)
Definition write_request (auth : option transportAuth) (method payload : string) (now : Z)
    : option transportAuth * option frameAuth * string :=
  let tail := sprintf_d (Z.of_nat (String.length payload)) +:+ nl +:+ payload in
  match auth with
  | None => (None, None, method +:+ nl +:+ tail)
  | Some a =>
      let '(a, (line, f)) := sign a method payload now in
      (Some a, Some f, method +:+ nl +:+ line +:+ tail)
  end.

(** One round of [handleConnection] up to the handler: the method and the
    payload of an accepted frame with the rest of the stream. Blank lines
    between frames are skipped; an error closes the connection. *)
Fixpoint read_request (fuel : nat) (auth : option transportAuth) (s : string) (now : Z)
    : option transportAuth * (transport_error + (string * option frameAuth * string) * string) :=
  match fuel with
  | O => (auth, inl ErrRead)
  | S fuel =>
      match read_line s with
      | None => (auth, inl ErrRead)
      | Some (line, s) =>
          let method := TrimSpace line in
          if decide (method = "") then read_request fuel auth s now else
          match auth with
          | Some a =>
              match read_line s with
              | None => (auth, inl ErrRead)
              | Some (line, s) =>
                  match parseAuthLine (TrimSpace line) with
                  | inl err => (auth, inl err)
                  | inr f =>
                      match precheck method f now with
                      | Some err => (auth, inl err)
                      | None =>
                          match read_length s with
                          | inl err => (auth, inl err)
                          | inr (n, s) =>
                              match read_full n s with
                              | None => (auth, inl ErrRead)
                              | Some (payload, s) =>
                                  match verify a method f payload now with
                                  | (a, Some err) => (Some a, inl err)
                                  | (a, None) => (Some a, inr ((method, Some f, payload), s))
                                  end
                              end
                          end
                      end
                  end
              end
          | None =>
              match read_line s with
              | None => (auth, inl ErrRead)
              | Some (line, _) =>
                  if HasPrefix line transportAuthPrefix then (auth, inl ErrUnexpectedAuth) else
                  match read_length s with
                  | inl err => (auth, inl err)
                  | inr (n, s) =>
                      match read_full n s with
                      | None => (auth, inl ErrRead)
                      | Some (payload, s) => (auth, inr ((method, None, payload), s))
                      end
                  end
              end
          end
      end
  end.

(** The response [handleConnection] writes and [sendRPCOn] reads. *)
Definition write_response (auth : option transportAuth) (frame : option frameAuth) (payload : string) : string :=
  sprintf_d (Z.of_nat (String.length payload)) +:+ nl +:+
  match auth, frame with
  | Some a, Some f => responseMAC (secret a) f payload +:+ nl +:+ payload
  | _, _ => payload
  end.

Definition read_response (auth : option transportAuth) (frame : option frameAuth) (s : string) : transport_error + string * string :=
  match read_length s with
  | inl err => inl err
  | inr (n, s) =>
      match auth, frame with
      | Some a, Some f =>
          match read_line s with
          | None => inl ErrRead
          | Some (line, s) =>
              match read_full n s with
              | None => inl ErrRead
              | Some (payload, s) =>
                  if decide (responseMAC (secret a) f payload <> TrimSpace line) then inl ErrSignature else inr (payload, s)
              end
          end
      | _, _ => match read_full n s with Some r => inr r | None => inl ErrRead end
      end
  end.
End auth.
