(* ===== verification/TransportProps.v ===== *)
(** * What the authenticated transport guarantees

    The theorems about Transport.v: the sliding window answers like a perfect
    memory, no frame is accepted twice, what is delivered is what was signed,
    and exchanges go through. *)
From stdpp Require Import base gmap strings list sets.
From Stdlib Require Import ZArith Lia Strings.Ascii.
From Stdlib Require Strings.String.
From S2P Require Import Prelude GoStrings Transport.

Open Scope Z_scope.

(** ** Words of the window *)

Definition word_ok (l : list Z) : Prop := length l = window_words /\ Forall (fun x => 0 <= x < 2 ^ 64) l.

(** Bit [d] of the window. *)
Definition seen (l : list Z) (d : Z) : bool := Z.testbit (word l (Z.to_nat (d / 64))) (d mod 64).

Lemma down_loop_seq f lo n l :
  (lo + n <= length l)%nat ->
  (forall l l' i, (forall j, (j <= i)%nat -> l !! j = l' !! j) -> f l i = f l' i) ->
  length (down_loop f (rev (seq lo n)) l) = length l /\
  forall j, down_loop f (rev (seq lo n)) l !! j = if decide (lo <= j < lo + n)%nat then Some (f l j) else l !! j.
Proof.
  intros Hlen Hf. revert l Hlen. induction n as [|n IH]; intros l Hlen.
  - split; [done|]. intros j. rewrite decide_False by lia. done.
  - rewrite seq_S, rev_app_distr. cbn [rev app]. unfold down_loop. cbn [foldl].
    fold (down_loop f (rev (seq lo n)) (<[(lo + n)%nat := f l (lo + n)%nat]> l)).
    destruct (IH (<[(lo + n)%nat := f l (lo + n)%nat]> l)) as [Hl Hj]; [rewrite length_insert; lia|].
    split; [by rewrite Hl, length_insert|]. intros j. rewrite Hj.
    destruct (decide (lo <= j < lo + n)%nat) as [Hin|Hout].
    + rewrite decide_True by lia. f_equal. apply Hf. intros i Hi. rewrite list_lookup_insert_ne by lia. done.
    + destruct (decide (j = lo + n)%nat) as [->|Hne].
      * rewrite list_lookup_insert_eq by lia. by rewrite decide_True by lia.
      * rewrite list_lookup_insert_ne by lia. by rewrite decide_False by lia.
Qed.

Lemma word_lookup l j x : l !! j = Some x -> word l j = x.
Proof. unfold word. by intros ->. Qed.

Lemma word_bound l j : word_ok l -> 0 <= word l j < 2 ^ 64.
Proof.
  intros [_ Hf]. unfold word. destruct (l !! j) eqn:E; simpl; [|lia]. exact (Forall_lookup_1 _ _ _ _ Hf E).
Qed.

Lemma word_ok_words l : length l = window_words -> (forall j, (j < window_words)%nat -> 0 <= word l j < 2 ^ 64) -> word_ok l.
Proof.
  intros Hl Hw. split; [done|]. apply Forall_lookup. intros i x Hi. pose proof (lookup_lt_Some _ _ _ Hi) as Hlt.
  rewrite <- (word_lookup _ _ _ Hi). apply Hw. lia.
Qed.

Lemma shift_words_word k l j :
  length l = window_words -> (j < window_words)%nat ->
  length (shift_words k l) = window_words /\
  word (shift_words k l) j = if decide (k <= j)%nat then word l (j - k) else 0.
Proof.
  intros Hl Hj. unfold shift_words.
  edestruct (down_loop_seq (fun l i => if decide (k <= i)%nat then word l (i - k) else 0) 0 window_words l) as [Hlen Hget].
  - lia.
  - intros l1 l2 i He. case_decide; [|done]. unfold word. by rewrite He by lia.
  - split; [by rewrite Hlen|]. apply word_lookup. rewrite Hget, decide_True by lia. done.
Qed.

Lemma shift_bits_word b l j :
  length l = window_words -> (j < window_words)%nat ->
  length (shift_bits b l) = window_words /\
  word (shift_bits b l) j =
    if decide (j = 0)%nat then u64 (Z.shiftl (word l 0) b)
    else Z.lor (u64 (Z.shiftl (word l j) b)) (Z.shiftr (word l (j - 1)) (64 - b)).
Proof.
  intros Hl Hj. unfold shift_bits. set (f := fun (l : list Z) i => Z.lor _ _).
  destruct (down_loop_seq f 1 (window_words - 1) l) as [Hlen Hget].
  - unfold window_words in *. lia.
  - intros l1 l2 i He. unfold f, word. by rewrite !He by lia.
  - rewrite length_insert, Hlen. split; [done|]. apply word_lookup. destruct (decide (j = 0)%nat) as [->|Hne].
    + rewrite list_lookup_insert_eq by (unfold window_words in *; lia). do 3 f_equal. unfold word at 1.
      rewrite Hget, decide_False by lia. done.
    + rewrite list_lookup_insert_ne by lia. rewrite Hget, decide_True by (unfold window_words in *; lia). done.
Qed.

(** *** Bits *)

Lemma u64_shiftl_bit x b i : 0 <= b -> 0 <= i < 64 -> Z.testbit (u64 (Z.shiftl x b)) i = (b <=? i) && Z.testbit x (i - b).
Proof.
  intros Hb Hi. unfold u64. rewrite Z.mod_pow2_bits_low by lia. rewrite Z.shiftl_spec by lia.
  destruct (Z.leb_spec b i); [done|]. simpl. by rewrite Z.testbit_neg_r by lia.
Qed.

Lemma bit_above x i : 0 <= x < 2 ^ 64 -> 64 <= i -> Z.testbit x i = false.
Proof. intros Hx Hi. rewrite <- (Z.mod_small x (2 ^ 64)) by done. by rewrite Z.mod_pow2_bits_high by lia. Qed.

Lemma u64_bound x : 0 <= u64 x < 2 ^ 64.
Proof. unfold u64. apply Z.mod_pos_bound. lia. Qed.

Lemma lor_bound x y : 0 <= x < 2 ^ 64 -> 0 <= y < 2 ^ 64 -> 0 <= Z.lor x y < 2 ^ 64.
Proof.
  intros Hx Hy. assert (Z.lor x y = u64 (Z.lor x y)) as ->; [|apply u64_bound].
  unfold u64. rewrite <- Z.land_ones by lia. apply Z.bits_inj'. intros n Hn. rewrite Z.land_spec, Z.lor_spec.
  destruct (Z.lt_ge_cases n 64) as [Hlt|Hge].
  - rewrite Z.ones_spec_low by lia. by rewrite andb_true_r.
  - rewrite !bit_above by done. done.
Qed.

Lemma shiftr_bound x n : 0 <= x < 2 ^ 64 -> 0 <= n -> 0 <= Z.shiftr x n < 2 ^ 64.
Proof.
  intros Hx Hn. rewrite Z.shiftr_div_pow2 by done. pose proof (Z.pow_pos_nonneg 2 n ltac:(lia) Hn).
  split; [apply Z.div_pos; lia|]. apply Z.le_lt_trans with x; [|lia]. apply Z.div_le_upper_bound; [lia|]. nia.
Qed.

Lemma word_shift_bit l q b r :
  word_ok l -> 0 < b < 64 -> (q < window_words)%nat -> 0 <= r < 64 ->
  Z.testbit (word (shift_bits b l) q) r =
    if b <=? r then Z.testbit (word l q) (r - b)
    else match q with O => false | S p => Z.testbit (word l p) (r + 64 - b) end.
Proof.
  intros Hok Hb Hq Hr. destruct (shift_bits_word b l q (proj1 Hok) Hq) as [_ ->].
  destruct q as [|p].
  - rewrite decide_True by done. rewrite u64_shiftl_bit by lia. by destruct (b <=? r).
  - rewrite decide_False by lia. rewrite Z.lor_spec, u64_shiftl_bit by lia. rewrite Z.shiftr_spec by lia.
    replace (S p - 1)%nat with p by lia. destruct (Z.leb_spec b r).
    + rewrite (bit_above (word l p)); [by rewrite orb_false_r|by apply word_bound|lia].
    + simpl. f_equal. lia.
Qed.

Lemma shift_bits_seen b l d :
  word_ok l -> 0 < b < 64 -> 0 <= d < replayWindowBits -> seen (shift_bits b l) d = (b <=? d) && seen l (d - b).
Proof.
  intros Hok Hb Hd. unfold seen, replayWindowBits in *.
  assert (0 <= d mod 64 < 64) as Hr by (apply Z.mod_pos_bound; lia). pose proof (Z.div_mod d 64 ltac:(lia)) as Edm.
  assert (0 <= d / 64 < 64) as Hq by (split; [apply Z.div_pos; lia|apply Z.div_lt_upper_bound; lia]).
  rewrite word_shift_bit by (unfold window_words; try done; lia). set (q := d / 64) in *. set (r := d mod 64) in *.
  destruct (Z.leb_spec b r) as [Hbr|Hbr].
  - replace (b <=? d) with true by (symmetry; apply Z.leb_le; lia). simpl.
    assert ((d - b) / 64 = q) as -> by (symmetry; apply (Z.div_unique _ _ _ (r - b)); lia).
    assert ((d - b) mod 64 = r - b) as -> by (symmetry; apply (Z.mod_unique _ _ q); lia). done.
  - destruct (Z.to_nat q) as [|p] eqn:Ep.
    + replace (b <=? d) with false by (symmetry; apply Z.leb_gt; lia). done.
    + replace (b <=? d) with true by (symmetry; apply Z.leb_le; lia). simpl.
      assert ((d - b) / 64 = q - 1) as -> by (symmetry; apply (Z.div_unique _ _ _ (r + 64 - b)); lia).
      assert ((d - b) mod 64 = r + 64 - b) as -> by (symmetry; apply (Z.mod_unique _ _ (q - 1)); lia).
      replace (Z.to_nat (q - 1)) with p by lia. done.
Qed.

Lemma shift_words_seen k l d :
  length l = window_words -> 0 <= d < replayWindowBits ->
  seen (shift_words k l) d = (64 * Z.of_nat k <=? d) && seen l (d - 64 * Z.of_nat k).
Proof.
  intros Hl Hd. unfold seen, replayWindowBits in *.
  assert (0 <= d mod 64 < 64) as Hr by (apply Z.mod_pos_bound; lia). pose proof (Z.div_mod d 64 ltac:(lia)) as Edm.
  assert (0 <= d / 64 < 64) as Hq by (split; [apply Z.div_pos; lia|apply Z.div_lt_upper_bound; lia]).
  destruct (shift_words_word k l (Z.to_nat (d / 64)) Hl) as [_ ->]; [unfold window_words; lia|].
  replace (d - 64 * Z.of_nat k) with (d + (- Z.of_nat k) * 64) by lia. rewrite Z.div_add, Z.mod_add by lia.
  case_decide as Hk.
  - replace (64 * Z.of_nat k <=? d) with true by (symmetry; apply Z.leb_le; lia). simpl. do 2 f_equal. lia.
  - replace (64 * Z.of_nat k <=? d) with false by (symmetry; apply Z.leb_gt; lia). by rewrite Z.bits_0.
Qed.

Lemma shift_words_ok k l : word_ok l -> word_ok (shift_words k l).
Proof.
  intros Hok. destruct (shift_words_word k l 0 (proj1 Hok) ltac:(unfold window_words; lia)) as [Hl _].
  apply word_ok_words; [done|]. intros j Hj. destruct (shift_words_word k l j (proj1 Hok) Hj) as [_ ->].
  case_decide; [by apply word_bound|lia].
Qed.

Lemma shift_bits_ok b l : word_ok l -> 0 < b < 64 -> word_ok (shift_bits b l).
Proof.
  intros Hok Hb. destruct (shift_bits_word b l 0 (proj1 Hok) ltac:(unfold window_words; lia)) as [Hl _].
  apply word_ok_words; [done|]. intros j Hj. destruct (shift_bits_word b l j (proj1 Hok) Hj) as [_ ->].
  case_decide; [apply u64_bound|]. apply lor_bound; [apply u64_bound|]. apply shiftr_bound; [by apply word_bound|lia].
Qed.

Lemma no_bits_ok : word_ok no_bits.
Proof. split; [done|]. apply Forall_replicate. lia. Qed.

Lemma seen_no_bits d : seen no_bits d = false.
Proof.
  unfold seen, word, no_bits. destruct (replicate _ _ !! _) as [x|] eqn:E; simpl; [|apply Z.bits_0].
  apply lookup_replicate in E as [-> _]. apply Z.bits_0.
Qed.

(** Shifting the array moves every bit up, across the words. *)
Lemma shift_seen l n d :
  word_ok l -> 0 <= n -> 0 <= d < replayWindowBits ->
  word_ok (shift l n) /\ seen (shift l n) d = (n <=? d) && seen l (d - n).
Proof.
  intros Hok Hn Hd. unfold shift. case_decide as Hbig.
  { split; [apply no_bits_ok|]. rewrite seen_no_bits. replace (n <=? d) with false by (symmetry; apply Z.leb_gt; lia). done. }
  pose proof (Z.div_mod n 64 ltac:(lia)) as Edm. assert (0 <= n mod 64 < 64) as Hr by (apply Z.mod_pos_bound; lia).
  assert (0 <= n / 64) as Hq by (apply Z.div_pos; lia).
  set (l1 := if decide (0 < Z.to_nat (n / 64))%nat then _ else l). 
  assert (word_ok l1 /\ forall e, 0 <= e < replayWindowBits ->
    seen l1 e = (64 * (n / 64) <=? e) && seen l (e - 64 * (n / 64))) as [Hok1 H1].
  { unfold l1. case_decide as Hk.
    - split; [by apply shift_words_ok|]. intros e He. rewrite shift_words_seen by (done || apply Hok).
      by rewrite Z2Nat.id by lia.
    - split; [done|]. intros e He. replace (n / 64) with 0 by lia.
      replace (64 * 0 <=? e) with true by (symmetry; apply Z.leb_le; lia). by rewrite Z.mul_0_r, Z.sub_0_r. }
  clearbody l1. case_decide as Hb.
  - split; [by apply shift_bits_ok; [|lia]|]. rewrite shift_bits_seen by (done || lia).
    destruct (Z.leb_spec (n mod 64) d) as [Hle|Hgt]; simpl.
    + rewrite H1 by lia. replace (d - n mod 64 - 64 * (n / 64)) with (d - n) by lia. f_equal.
      destruct (Z.leb_spec n d); [apply Z.leb_le|apply Z.leb_gt]; lia.
    + replace (n <=? d) with false by (symmetry; apply Z.leb_gt; lia). done.
  - split; [done|]. rewrite H1 by lia. replace (64 * (n / 64)) with n by lia. done.
Qed.

Lemma bit_of_pow b n : 0 <= b -> Z.testbit (Z.shiftl 1 b) n = bool_decide (n = b).
Proof.
  intros Hb. rewrite Z.shiftl_1_l. destruct (decide (n = b)) as [->|Hne].
  - rewrite bool_decide_true by done. by rewrite Z.pow2_bits_true by lia.
  - rewrite bool_decide_false by done. rewrite Z.pow2_bits_false by congruence. done.
Qed.

Lemma land_bit x b : 0 <= b -> Z.land x (Z.shiftl 1 b) <> 0 <-> Z.testbit x b = true.
Proof.
  intros Hb. split.
  - intros Hne. destruct (Z.testbit x b) eqn:E; [done|]. exfalso. apply Hne, Z.bits_inj'. intros n Hn.
    rewrite Z.land_spec, bit_of_pow, Z.bits_0 by done. case_bool_decide; [subst; by rewrite E|by rewrite andb_false_r].
  - intros Ht E. assert (Z.testbit (Z.land x (Z.shiftl 1 b)) b = false) as H0 by (rewrite E; apply Z.bits_0).
    rewrite Z.land_spec, Ht, bit_of_pow, bool_decide_true in H0 by done. done.
Qed.

Lemma set_seen l d e :
  word_ok l -> 0 <= d < replayWindowBits -> 0 <= e < replayWindowBits ->
  let l' := <[Z.to_nat (d / 64) := Z.lor (word l (Z.to_nat (d / 64))) (Z.shiftl 1 (d mod 64))]> l in
  word_ok l' /\ seen l' e = seen l e || bool_decide (e = d).
Proof.
  intros Hok Hd He l'. unfold replayWindowBits in *.
  assert (0 <= d mod 64 < 64 /\ 0 <= e mod 64 < 64) as [Hr Hr'] by (split; apply Z.mod_pos_bound; lia).
  pose proof (Z.div_mod d 64 ltac:(lia)) as Ed. pose proof (Z.div_mod e 64 ltac:(lia)) as Ee.
  assert (0 <= d / 64 < 64) as Hq by (split; [apply Z.div_pos; lia|apply Z.div_lt_upper_bound; lia]).
  assert (0 <= e / 64 < 64) as Hq' by (split; [apply Z.div_pos; lia|apply Z.div_lt_upper_bound; lia]).
  assert (forall j, (j < window_words)%nat -> word l' j =
    if decide (j = Z.to_nat (d / 64)) then Z.lor (word l j) (Z.shiftl 1 (d mod 64)) else word l j) as Hw.
  { intros j Hj. unfold l', word. destruct (decide (j = Z.to_nat (d / 64))) as [->|Hne].
    - rewrite list_lookup_insert_eq; [done|]. destruct Hok as [-> _]. done.
    - by rewrite list_lookup_insert_ne. }
  split.
  - apply word_ok_words; [unfold l'; rewrite length_insert; apply Hok|]. intros j Hj. rewrite Hw by done.
    case_decide; [|by apply word_bound]. apply lor_bound; [by apply word_bound|].
    rewrite Z.shiftl_1_l. split; [lia|]. apply Z.pow_lt_mono_r; lia.
  - unfold seen. rewrite Hw by (unfold window_words; lia). case_decide as Hc.
    + rewrite Z.lor_spec, bit_of_pow by lia. f_equal. apply bool_decide_ext. lia.
    + rewrite bool_decide_false by (intros ->; lia). by rewrite orb_false_r.
Qed.

(** ** The window against a perfect memory *)

(** A receiver that remembers every number it accepted. *)
Record memory := MkMemory { top : Z; taken : gset Z }.
Definition blank : memory := MkMemory 0 ∅.

Definition remember (m : memory) (seq : Z) : memory * bool :=
  if decide (seq > top m) then (MkMemory seq ({[seq]} ∪ taken m), true) else
  if decide (top m - seq >= replayWindowBits \/ seq ∈ taken m) then (m, false)
  else (MkMemory (top m) ({[seq]} ∪ taken m), true).

Record recalls (w : replayWindow) (m : memory) : Prop := {
  rc_words : word_ok (bits w);
  rc_top : highest w = top m;
  rc_nonneg : 0 <= top m;
  rc_taken : forall s, s ∈ taken m -> 1 <= s <= top m;
  rc_seen : forall d, 0 <= d < replayWindowBits -> seen (bits w) d = bool_decide (top m - d ∈ taken m);
}.

Lemma recalls_blank t : recalls (MkWindow 0 no_bits t) blank.
Proof.
  split; simpl; [apply no_bits_ok|done|lia|set_solver|]. intros d _. rewrite seen_no_bits.
  by rewrite bool_decide_false by set_solver.
Qed.

Lemma accept_remember w m seq w' b :
  recalls w m -> 1 <= seq -> accept w seq = (w', b) -> recalls w' (remember m seq).1 /\ (remember m seq).2 = b.
Proof.
  intros [Hok Htop H0 Htk Hseen] Hs. unfold accept, remember. rewrite Htop. case_decide as Hgt.
  - intros [= <- <-]. split; [|done]. set (l := shift (bits w) (seq - top m)).
    assert (forall d, 0 <= d < replayWindowBits -> word_ok l /\ seen l d = (seq - top m <=? d) && seen (bits w) (d - (seq - top m))) as Hl.
    { intros d Hd. apply shift_seen; [done|lia|done]. }
    assert (forall d, 0 <= d < replayWindowBits -> let l' := <[O := Z.lor (word l 0) 1]> l in
      word_ok l' /\ seen l' d = seen l d || bool_decide (d = 0)) as Hl'.
    { intros d Hd. exact (set_seen l 0 d (proj1 (Hl 0 ltac:(unfold replayWindowBits; lia))) ltac:(unfold replayWindowBits; lia) Hd). }
    split; simpl.
    + exact (proj1 (Hl' 0 ltac:(unfold replayWindowBits; lia))).
    + done.
    + lia.
    + intros s [->%elem_of_singleton|Hin%Htk]%elem_of_union; lia.
    + intros d Hd. destruct (Hl' d Hd) as [_ ->]. destruct (Hl d Hd) as [_ ->].
      destruct (decide (d = 0)) as [->|Hne].
      { rewrite (bool_decide_true (0 = 0)) by done. rewrite orb_true_r, bool_decide_true by (rewrite Z.sub_0_r; set_solver). done. }
      rewrite (bool_decide_false (d = 0)) by done. rewrite orb_false_r. destruct (Z.leb_spec (seq - top m) d) as [Hle|Hlt]; simpl.
      * rewrite Hseen by lia. apply bool_decide_ext. replace (top m - (d - (seq - top m))) with (seq - d) by lia.
        rewrite elem_of_union, elem_of_singleton. split; [auto|]. intros [?|?]; [lia|done].
      * rewrite bool_decide_false; [done|]. intros [Hx%elem_of_singleton|Hx%Htk]%elem_of_union; lia.
  - case_decide as Hfar.
    { intros [= <- <-]. rewrite decide_True by by left. by split. }
    assert (0 <= top m - seq < replayWindowBits) as Hd by lia.
    assert (Z.land (word (bits w) (Z.to_nat ((top m - seq) / 64))) (Z.shiftl 1 ((top m - seq) mod 64)) <> 0 <-> seq ∈ taken m) as Hbit.
    { rewrite land_bit by (apply Z.mod_pos_bound; lia). fold (seen (bits w) (top m - seq)). rewrite Hseen by done.
      rewrite bool_decide_eq_true. by replace (top m - (top m - seq)) with seq by lia. }
    case_decide as Hz.
    { intros [= <- <-]. rewrite decide_True by (right; by apply Hbit). by split. }
    intros [= <- <-]. rewrite decide_False by (intros [?|?%Hbit]; done || lia). split; [|done].
    split; simpl; [|done|done| |].
    + exact (proj1 (set_seen (bits w) (top m - seq) 0 Hok Hd ltac:(unfold replayWindowBits; lia))).
    + intros s [->%elem_of_singleton|Hin%Htk]%elem_of_union; lia.
    + intros d He. destruct (set_seen (bits w) (top m - seq) d Hok Hd He) as [_ ->]. rewrite Hseen by done.
      destruct (decide (d = top m - seq)) as [->|Hne].
      * rewrite (bool_decide_true (top m - seq = _)) by done. rewrite orb_true_r, bool_decide_true; [done|].
        replace (top m - (top m - seq)) with seq by lia. set_solver.
      * rewrite (bool_decide_false (d = _)) by done. rewrite orb_false_r. apply bool_decide_ext.
        rewrite elem_of_union, elem_of_singleton. split; [auto|]. intros [?|?]; [lia|done].
Qed.

(** The answers to a sequence of numbers. *)
Fixpoint answers {S} (f : S -> Z -> S * bool) (s : S) (seqs : list Z) : list bool :=
  match seqs with [] => [] | q :: seqs => (f s q).2 :: answers f (f s q).1 seqs end.

(** C34: the window of 64 words, shifted in place, gives the same answers as a
    receiver that remembers every number it accepted and refuses repeated ones
    and those 4096 or more below the highest, whatever the order in which
    numbers arrive. *)
Theorem replay_window_exact seqs t :
  Forall (fun q => 1 <= q) seqs -> answers accept (MkWindow 0 no_bits t) seqs = answers remember blank seqs.
Proof.
  intros Hq. pose proof (recalls_blank t) as Hr. revert Hr. generalize (MkWindow 0 no_bits t) blank.
  induction Hq as [|q seqs Hq _ IH]; intros w m Hr; [done|]. simpl. destruct (accept w q) as [w' b] eqn:Ea.
  destruct (accept_remember _ _ _ _ _ Hr Hq Ea) as [Hr' Hb]. f_equal; [by rewrite Hb|]. by apply IH.
Qed.

Lemma replay_window_exact_witness :
  answers accept (MkWindow 0 no_bits 5) [3; 200; 3; 150; 4300; 150; 204; 203; 200; 4300; 300; 2 ^ 63; 2 ^ 63] =
    answers remember blank [3; 200; 3; 150; 4300; 150; 204; 203; 200; 4300; 300; 2 ^ 63; 2 ^ 63].
Proof. apply replay_window_exact. repeat constructor; lia. Defined.

(** ** A frame is accepted once *)

Section replays.
Context `{!Mac} (isMember : option (string -> string -> bool)).

Definition windows_ok (m : gmap string originReplay) : Prop :=
  map_Forall (fun _ o => map_Forall (fun _ w => exists mem, recalls w mem) (epochs o)) m.

(** A claim that would have to forget a sender, or an incarnation of one, that
    was heard of within the last two minutes. *)
Definition forced (m : gmap string originReplay) (f : frameAuth) (now : Z) : Prop :=
  match m !! origin f with
  | None => (maxReplayOrigins <= size (filter (fun kv => ~ (now - o_lastSeen kv.2 > 2 * transportMaxSkew)%Z) m))%nat
  | Some o => epochs o !! epoch f = None /\
      (maxEpochsPerOrigin <= size (filter (fun kv => ~ (now - w_lastSeen kv.2 > 2 * transportMaxSkew)%Z) (epochs o)))%nat
  end.
#[export] Instance forced_dec m f now : Decision (forced m f now).
Proof. unfold forced. destruct (m !! _); apply _. Defined.

(** The frame is too old to pass, or its number is remembered. *)
Definition noted (f : frameAuth) (t : Z) (m : gmap string originReplay) : Prop :=
  t > ts f + transportMaxSkew \/ ts f - transportMaxSkew <= t /\
  exists o w mem, m !! origin f = Some o /\ epochs o !! epoch f = Some w /\ recalls w mem /\ seqno f ∈ taken mem /\
    ts f - transportMaxSkew <= o_lastSeen o /\ ts f - transportMaxSkew <= w_lastSeen w.

Lemma remember_keeps mem q : taken mem ⊆ taken (remember mem q).1.
Proof. unfold remember. repeat case_decide; simpl; set_solver. Qed.

Lemma remember_refuses mem q : q ∈ taken mem -> (forall s, s ∈ taken mem -> s <= top mem) -> (remember mem q).2 = false.
Proof.
  intros Hq Ht. unfold remember. specialize (Ht _ Hq). rewrite decide_False by lia. by rewrite decide_True by by right.
Qed.

Lemma remember_takes mem q : (remember mem q).2 = true -> q ∈ taken (remember mem q).1.
Proof. unfold remember. repeat case_decide; simpl; [set_solver|done|set_solver]. Qed.

(** The window [claim] consults, and the rest of the table it leaves. *)
Definition consulted (m : gmap string originReplay) (org : string) (ep now : Z) : replayWindow :=
  match m !! org with
  | Some o => match epochs o !! ep with Some w => MkWindow (highest w) (bits w) now | None => MkWindow 0 no_bits now end
  | None => MkWindow 0 no_bits now
  end.

Lemma claim_result m org ep sq now :
  exists m0 es, claim m org ep sq now =
    (<[org := MkOrigin (<[ep := (accept (consulted m org ep now) sq).1]> es) now]> m0, (accept (consulted m org ep now) sq).2) /\
  match m !! org with
  | Some o => m0 = m /\ es = match epochs o !! ep with
      | Some _ => epochs o
      | None => if decide (maxEpochsPerOrigin <= size (epochs o))%nat then epochs (pruneEpochs (MkOrigin (epochs o) now) now) else epochs o
      end
  | None => es = ∅ /\ m0 = if decide (maxReplayOrigins <= size m)%nat then pruneOriginsLocked m now else m
  end.
Proof.
  unfold claim, consulted. destruct (m !! org) as [o|].
  - simpl. destruct (epochs o !! ep) as [w|].
    + destruct (accept _ sq). eauto.
    + case_decide; simpl; destruct (accept _ sq); eauto.
  - simpl. rewrite lookup_empty. rewrite decide_False by (rewrite map_size_empty; unfold maxEpochsPerOrigin; lia).
    destruct (accept _ sq). eauto.
Qed.

Lemma consulted_ok m org ep now : windows_ok m -> exists mem, recalls (consulted m org ep now) mem.
Proof.
  intros Hok. unfold consulted. destruct (m !! org) as [o|] eqn:Eo; [|eexists; apply recalls_blank].
  destruct (epochs o !! ep) as [w|] eqn:Ew; [|eexists; apply recalls_blank].
  destruct (Hok _ _ Eo _ _ Ew) as [mem Hm]. exists mem. by destruct Hm; split.
Qed.

Lemma prune_epochs_sub o now : epochs (pruneEpochs o now) ⊆ epochs o.
Proof.
  unfold pruneEpochs. simpl. case_decide; [etransitivity; [apply delete_subseteq|]|]; apply map_filter_subseteq.
Qed.

Lemma prune_origins_sub m now : pruneOriginsLocked m now ⊆ m.
Proof.
  unfold pruneOriginsLocked. case_decide; [etransitivity; [apply delete_subseteq|]|]; apply map_filter_subseteq.
Qed.

Lemma accept_recalls w mem sq : recalls w mem -> 1 <= sq -> recalls (accept w sq).1 (remember mem sq).1 /\ (remember mem sq).2 = (accept w sq).2.
Proof. intros Hr Hs. destruct (accept w sq) as [w' b] eqn:E. by apply (accept_remember w mem sq w' b). Qed.

Lemma accept_lastSeen w sq : w_lastSeen (accept w sq).1 = w_lastSeen w.
Proof. unfold accept. repeat case_decide; done. Qed.

Lemma consulted_lastSeen m org ep now : w_lastSeen (consulted m org ep now) = now.
Proof. unfold consulted. destruct (m !! org) as [o|]; [|done]. by destruct (epochs o !! ep). Qed.

Lemma claim_ok m org ep sq now : windows_ok m -> 1 <= sq -> windows_ok (claim m org ep sq now).1.
Proof.
  intros Hok Hs. destruct (claim_result m org ep sq now) as (m0 & es & -> & Hcase). simpl.
  destruct (consulted_ok m org ep now Hok) as [mem Hmem]. destruct (accept_recalls _ _ sq Hmem Hs) as [Hr _].
  assert (m0 ⊆ m /\ map_Forall (fun _ w => exists mem, recalls w mem) es) as [Hsub Hes].
  { destruct (m !! org) as [o|] eqn:Eo.
    - destruct Hcase as [-> ->]. split; [done|]. pose proof (Hok _ _ Eo) as Ho. destruct (epochs o !! ep); [done|].
      case_decide; [|done]. intros i w Hi. eapply Ho, lookup_weaken; [exact Hi|]. exact (prune_epochs_sub (MkOrigin (epochs o) now) now).
    - destruct Hcase as [-> ->]. split; [case_decide; [apply prune_origins_sub|done]|apply map_Forall_empty]. }
  intros i o Hi. destruct (decide (i = org)) as [->|Hne].
  - rewrite lookup_insert_eq in Hi. injection Hi as <-. simpl. apply map_Forall_insert_2; [eauto|done].
  - rewrite lookup_insert_ne in Hi by done. eapply Hok. eapply lookup_weaken; [exact Hi|done].
Qed.

Lemma epochs_kept o now ep w :
  epochs o !! ep = Some w -> ~ (now - w_lastSeen w > 2 * transportMaxSkew) ->
  (size (filter (fun kv => ~ (now - w_lastSeen kv.2 > 2 * transportMaxSkew)%Z) (epochs o)) < maxEpochsPerOrigin)%nat ->
  epochs (pruneEpochs o now) !! ep = Some w.
Proof.
  intros He Hl Hs. unfold pruneEpochs. simpl. rewrite decide_False by lia. by apply map_lookup_filter_Some.
Qed.

Lemma origins_kept m now org o :
  m !! org = Some o -> ~ (now - o_lastSeen o > 2 * transportMaxSkew) ->
  (size (filter (fun kv => ~ (now - o_lastSeen kv.2 > 2 * transportMaxSkew)%Z) m) < maxReplayOrigins)%nat ->
  pruneOriginsLocked m now !! org = Some o.
Proof.
  intros He Hl Hs. unfold pruneOriginsLocked. rewrite decide_False by lia. by apply map_lookup_filter_Some.
Qed.

Lemma claim_noted m f g t now :
  windows_ok m -> noted f t m -> t <= now -> 1 <= seqno g -> ~ forced m g now ->
  noted f now (claim m (origin g) (epoch g) (seqno g) now).1.
Proof.
  intros Hok [Hold|(Hfrom & o & w & mem & Ho & Hw & Hr & Hin & Hlo & Hlw)] Ht Hs Hnf; [left; lia|].
  destruct (decide (now > ts f + transportMaxSkew)) as [Hgt|Hle]; [by left|right; split; [lia|]].
  destruct (claim_result m (origin g) (epoch g) (seqno g) now) as (m0 & es & -> & Hcase). simpl.
  unfold forced in Hnf. destruct (decide (origin f = origin g)) as [Eo|Hno].
  - rewrite <- Eo in *. rewrite Ho in Hcase, Hnf. destruct Hcase as [-> Hes]. rewrite lookup_insert_eq.
    destruct (decide (epoch f = epoch g)) as [Ee|Hne].
    + rewrite <- Ee in *. rewrite Hw in Hes. subst es.
      assert (recalls (consulted m (origin f) (epoch f) now) mem) as Hc.
      { unfold consulted. rewrite Ho, Hw. by destruct Hr; split. }
      destruct (accept_recalls _ _ (seqno g) Hc Hs) as [Hr' _]. do 3 eexists. split; [reflexivity|]. cbn [epochs o_lastSeen].
      rewrite lookup_insert_eq. split; [reflexivity|]. split; [exact Hr'|].
      split; [by apply remember_keeps|]. rewrite accept_lastSeen, consulted_lastSeen. split; lia.
    + eexists _, w, mem. split; [reflexivity|]. cbn [epochs o_lastSeen]. rewrite lookup_insert_ne by done.
      split; [|split; [done|split; [done|split; [lia|done]]]].
      rewrite Hes. destruct (epochs o !! epoch g) eqn:Eg; [done|]. case_decide; [|done].
      apply epochs_kept; [done|lia|]. apply Nat.nle_gt. intros Hfull. apply Hnf. by split.
  - rewrite lookup_insert_ne by done. exists o, w, mem. split; [|done].
    destruct (m !! origin g) eqn:Eg.
    + destruct Hcase as [-> _]. done.
    + destruct Hcase as [_ ->]. case_decide; [|done]. apply origins_kept; [done|lia|]. by apply Nat.nle_gt.
Qed.

(** Frames as they arrive. *)
Definition arrival : Type := string * frameAuth * string * Z.
Definition arrive (a : transportAuth) (x : arrival) : transportAuth :=
  let '(method, f, payload, now) := x in (verify isMember a method f payload now).1.

Fixpoint calm_run (a : transportAuth) (t : Z) (xs : list arrival) : Prop :=
  match xs with
  | [] => True
  | ((method, f, payload, now) as x) :: xs =>
      t <= now /\ 1 <= seqno f /\ ~ forced (replay a) f now /\ calm_run (arrive a x) now xs
  end.

Definition last_time (t : Z) (xs : list arrival) : Z := default t ((fun x : arrival => x.2) <$> last xs).

Lemma last_time_cons t x xs : last_time t (x :: xs) = last_time x.2 xs.
Proof. unfold last_time. destruct xs as [|y xs]; [done|]. rewrite last_cons_cons. by destruct (last (y :: xs)) eqn:E; [|apply last_None in E]. Qed.

Lemma verify_replay a method f payload now :
  replay (verify isMember a method f payload now).1 =
    if decide (origin f <> "" /\ requestMAC (secret a) method f payload = mac f /\ skewed f now = false /\ admitted isMember f method = true)
    then (claim (replay a) (origin f) (epoch f) (seqno f) now).1 else replay a.
Proof.
  unfold verify. case_decide as Ho; [by rewrite decide_False by naive_solver|].
  case_decide as Hm; [by rewrite decide_False by naive_solver|].
  destruct (skewed f now) eqn:Es; [by rewrite decide_False by naive_solver|].
  destruct (admitted isMember f method) eqn:Ea; simpl; [|by rewrite decide_False by naive_solver].
  rewrite decide_True; [|split_and!; try done; by destruct (decide (requestMAC (secret a) method f payload = mac f))].
  destruct (claim _ _ _ _ _) as [m []]; done.
Qed.

Lemma arrive_noted a f t x xs :
  windows_ok (replay a) -> noted f t (replay a) -> calm_run a t (x :: xs) ->
  windows_ok (replay (arrive a x)) /\ noted f x.2 (replay (arrive a x)) /\ calm_run (arrive a x) x.2 xs.
Proof.
  destruct x as [[[method g] payload] now]. intros Hok Hn (Ht & Hs & Hnf & Hrun). unfold arrive in *. rewrite verify_replay.
  case_decide.
  - split; [by apply claim_ok|]. split; [by eapply claim_noted|done].
  - split; [done|]. split; [|done]. destruct Hn as [?|[? ?]]; [left; simpl; lia|right; simpl; split; [lia|done]].
Qed.

Lemma run_noted a f t xs :
  windows_ok (replay a) -> noted f t (replay a) -> calm_run a t xs ->
  windows_ok (replay (foldl arrive a xs)) /\ noted f (last_time t xs) (replay (foldl arrive a xs)).
Proof.
  revert a t. induction xs as [|x xs IH]; intros a t Hok Hn Hrun; [done|]. rewrite last_time_cons. simpl foldl.
  destruct (arrive_noted _ _ _ _ _ Hok Hn Hrun) as (Hok' & Hn' & Hrun'). by apply IH.
Qed.

(** C33: a frame that was accepted is never accepted again: not after any
    number of other frames, in any order, and not after the receiver has
    forgotten the sender's window, since by then the frame is out of date; as
    long as the receiver is not made to forget senders or incarnations it
    heard of within the last two minutes (1024 and 8 of them). *)
Theorem replayed_frame_refused a method f payload t a1 xs method' payload' now :
  windows_ok (replay a) -> 1 <= seqno f -> verify isMember a method f payload t = (a1, None) ->
  calm_run a1 t xs -> last_time t xs <= now ->
  exists err, (verify isMember (foldl arrive a1 xs) method' f payload' now).2 = Some err.
Proof.
  intros Hok Hs Hv Hrun Hnow.
  assert (windows_ok (replay a1) /\ noted f t (replay a1)) as [Hok1 Hn1].
  { pose proof Hv as Hv0. unfold verify in Hv. case_decide as Ho; [done|]. case_decide as Hm; [done|]. destruct (skewed f t) eqn:Es; [done|].
    destruct (admitted isMember f method) eqn:Ea; [|done]. simpl in Hv.
    pose proof (verify_replay a method f payload t) as Hrep. rewrite Hv0 in Hrep. simpl in Hrep.
    rewrite decide_True in Hrep by (split_and!; try done; by destruct (decide (requestMAC (secret a) method f payload = mac f))).
    unfold skewed in Es. apply bool_decide_eq_false in Es.
    rewrite Hrep. split; [by apply claim_ok|]. right. split; [lia|]. pose proof (consulted_ok (replay a) (origin f) (epoch f) t Hok) as [mem Hmem].
    destruct (accept_recalls _ _ (seqno f) Hmem Hs) as [Hr Hb].
    destruct (claim_result (replay a) (origin f) (epoch f) (seqno f) t) as (m0 & es & Ec & _). rewrite Ec in Hv |- *. simpl.
    destruct (accept _ (seqno f)).2 eqn:Eb; [|done]. rewrite lookup_insert_eq.
    do 3 eexists. split; [reflexivity|]. cbn [epochs o_lastSeen]. rewrite lookup_insert_eq. split; [reflexivity|].
    split; [exact Hr|]. split; [by apply remember_takes; rewrite Hb|].
    rewrite accept_lastSeen, consulted_lastSeen. lia. }
  destruct (run_noted a1 f t xs Hok1 Hn1 Hrun) as [Hok2 Hn2]. set (a2 := foldl arrive a1 xs) in *. clearbody a2.
  unfold verify. case_decide; [eauto|]. case_decide; [eauto|]. destruct (skewed f now) eqn:Es; [eauto|].
  destruct (negb _); [eauto|]. unfold skewed in Es. apply bool_decide_eq_false in Es.
  destruct Hn2 as [?|(_ & o & w & mem & Ho & Hw & Hr & Hin & _)]; [lia|].
  destruct (claim_result (replay a2) (origin f) (epoch f) (seqno f) now) as (m0 & es & -> & _).
  assert (recalls (consulted (replay a2) (origin f) (epoch f) now) mem) as Hc.
  { unfold consulted. rewrite Ho, Hw. by destruct Hr; split. }
  destruct (accept_recalls _ _ (seqno f) Hc Hs) as [_ Hb]. rewrite <- Hb.
  rewrite remember_refuses; [simpl; eauto|exact Hin|]. intros s Hx. apply (rc_taken _ _ Hc) in Hx. lia.
Qed.
End replays.

(** ** What is delivered is what was signed *)

Definition no_nl (s : string) : Prop := newline ∉ String.list_ascii_of_string s.

Lemma plain_no_nl s : plain s -> no_nl s.
Proof. intros [_ Hf] Hin. rewrite Forall_forall in Hf. apply Hf in Hin. unfold visible_char in Hin. by vm_compute in Hin; destruct Hin. Qed.

Lemma cut_nl a rest : no_nl a -> cut_at newline (a +:+ nl +:+ rest) = Some (a, rest).
Proof.
  unfold no_nl. induction a as [|c a IH]; intros Hn; [done|]. cbn in Hn. apply not_elem_of_cons in Hn as [Hc Hn].
  change (String.String c a +:+ nl +:+ rest) with (String.String c (a +:+ nl +:+ rest)). cbn [cut_at].
  rewrite decide_False by done. by rewrite IH.
Qed.

Lemma cut_no_nl s a rest : cut_at newline s = Some (a, rest) -> no_nl a.
Proof.
  revert a rest. induction s as [|c s IH]; intros a rest; simpl; [done|]. case_decide as Hc.
  - intros [= <- <-]. unfold no_nl. simpl. set_solver.
  - destruct (cut_at newline s) as [[x y]|]; [|done]. intros [= <- <-]. specialize (IH x y eq_refl). unfold no_nl in *.
    cbn. by apply not_elem_of_cons.
Qed.

Lemma mac_fields_inj fs gs p q :
  length fs = length gs -> Forall no_nl fs -> Forall no_nl gs -> mac_fields fs p = mac_fields gs q -> fs = gs /\ p = q.
Proof.
  intros Hl Hf. revert gs Hl. induction Hf as [|f fs Hf _ IH]; intros [|g gs] Hl Hg He; try done.
  apply Forall_cons in Hg as [Hg Hgs]. simpl in He. apply (f_equal (cut_at newline)) in He. rewrite !cut_nl in He by done.
  injection He as -> He. destruct (IH gs) as [-> ->]; [by injection Hl|done|done|done].
Qed.

Definition frame_ok (f : frameAuth) : Prop :=
  no_nl (origin f) /\ 0 <= epoch f < 2 ^ 64 /\ 1 <= seqno f < 2 ^ 64 /\ - 2 ^ 63 <= ts f < 2 ^ 63.

Lemma sprintf_inj i j : 0 <= i < 2 ^ 64 -> 0 <= j < 2 ^ 64 -> sprintf_d i = sprintf_d j -> i = j.
Proof. intros Hi Hj E. apply (f_equal (fun s => ParseUint s 10 64)) in E. rewrite !ParseUint_sprintf in E by done. by injection E. Qed.

Lemma format_inj i j : - 2 ^ 63 <= i < 2 ^ 63 -> - 2 ^ 63 <= j < 2 ^ 63 -> FormatInt i = FormatInt j -> i = j.
Proof.
  intros Hi Hj E. apply (f_equal (fun s => ParseInt s 10 64)) in E. rewrite !ParseInt_format in E by (done || lia). by injection E.
Qed.

Section delivery.
Context `{!Mac} (isMember : option (string -> string -> bool)).

Lemma request_mac_inj sec m m' f f' p p' :
  no_nl m -> no_nl m' -> frame_ok f -> frame_ok f' -> requestMAC sec m f p = requestMAC sec m' f' p' ->
  m = m' /\ p = p' /\ origin f = origin f' /\ epoch f = epoch f' /\ seqno f = seqno f' /\ ts f = ts f'.
Proof.
  intros Hm Hm' (Ho & He & Hs & Ht) (Ho' & He' & Hs' & Ht') E. apply hmac_inj in E.
  apply mac_fields_inj in E as [E ->]; [|done|..].
  - injection E as -> -> Ee Es Et. apply sprintf_inj in Ee; [|done..]. apply sprintf_inj in Es; [|lia..]. apply format_inj in Et; [|done..].
    done.
  - repeat constructor; auto using plain_no_nl, sprintf_plain, format_plain. by apply plain_no_nl, (bool_decide_unpack _).
  - repeat constructor; auto using plain_no_nl, sprintf_plain, format_plain. by apply plain_no_nl, (bool_decide_unpack _).
Qed.

Lemma response_mac_inj sec f f' p p' :
  frame_ok f -> frame_ok f' -> responseMAC sec f p = responseMAC sec f' p' ->
  p = p' /\ origin f = origin f' /\ epoch f = epoch f' /\ seqno f = seqno f'.
Proof.
  intros (Ho & He & Hs & _) (Ho' & He' & Hs' & _) E. apply hmac_inj in E. apply mac_fields_inj in E as [E ->]; [|done|..].
  - injection E as -> Ee Es. apply sprintf_inj in Ee; [|done..]. apply sprintf_inj in Es; [|lia..]. done.
  - repeat constructor; auto using plain_no_nl, sprintf_plain. by apply plain_no_nl, (bool_decide_unpack _).
  - repeat constructor; auto using plain_no_nl, sprintf_plain. by apply plain_no_nl, (bool_decide_unpack _).
Qed.

(** Words keep to the characters of the text. *)
Lemma fields_chars (P : ascii -> Prop) word l :
  Forall P word -> Forall P l -> Forall (fun w => Forall P (String.list_ascii_of_string w)) (fields_from word l).
Proof.
  assert (forall w, Forall P w -> Forall (fun w => Forall P (String.list_ascii_of_string w)) (flush_word w)) as Hflush.
  { intros [|c w] Hw; simpl; [constructor|]. constructor; [|constructor]. rewrite String.list_ascii_of_string_of_list_ascii.
    exact (Forall_rev Hw). }
  revert word. induction l as [l IH] using (well_founded_induction (well_founded_ltof _ (@length ascii))). intros word Hw Hl.
  destruct l as [|a l1]; [by apply Hflush|]. apply Forall_cons in Hl as [Ha Hl1]. simpl. destruct (space1 a).
  { apply Forall_app. split; [by apply Hflush|]. apply IH; [unfold ltof; simpl; lia|constructor|done]. }
  destruct l1 as [|b l2]; [apply (Hflush (a :: word)); by constructor|]. pose proof Hl1 as Hl2. apply Forall_cons in Hl2 as [Hb Hl2].
  destruct (space2 a b).
  { apply Forall_app. split; [by apply Hflush|]. apply IH; [unfold ltof; simpl; lia|constructor|done]. }
  assert (Forall (fun w => Forall P (String.list_ascii_of_string w)) (fields_from (a :: word) (b :: l2))) as Hgo.
  { apply IH; [unfold ltof; simpl; lia|by constructor|done]. }
  destruct l2 as [|c l3]; [done|]. apply Forall_cons in Hl2 as [_ Hl3]. destruct (space3 a b c); [|done].
  apply Forall_app. split; [by apply Hflush|]. apply IH; [unfold ltof; simpl; lia|constructor|done].
Qed.

Lemma substring_chars (P : ascii -> Prop) n k s :
  Forall P (String.list_ascii_of_string s) -> Forall P (String.list_ascii_of_string (String.substring n k s)).
Proof.
  revert n k. induction s as [|c s IH]; intros n k; [by destruct n, k; simpl|]. cbn. intros [Hc Hs]%Forall_cons.
  destruct n; [destruct k|]; simpl; [constructor|constructor; [done|by apply IH]|by apply IH].
Qed.

Lemma ParseUint_range s base b v : ParseUint s base b = Some v -> 0 <= base -> 0 <= v < 2 ^ b.
Proof.
  unfold ParseUint. case_decide; [done|]. destruct (parse_digits base 0 s) as [x|] eqn:E; [|done]. case_decide; [|done].
  intros [= <-] Hb. split; [|done]. by eapply parse_digits_nonneg in E.
Qed.

Lemma ParseInt_range s v : ParseInt s 10 64 = Some v -> - 2 ^ 63 <= v < 2 ^ 63.
Proof.
  unfold ParseInt. destruct (match s with "" => _ | String.String _ _ => _ end) as [neg rest].
  destruct (ParseUint rest 10 64) as [x|] eqn:E; [|done]. apply ParseUint_range in E; [|lia].
  destruct neg; case_decide; intros [= <-]; simpl in *; lia.
Qed.

Lemma parsed_frame_ok line f : no_nl line -> parseAuthLine line = inr f -> frame_ok f.
Proof.
  intros Hn. unfold parseAuthLine. destruct (negb _); [done|].
  assert (Forall (fun w => Forall (fun c => c <> newline) (String.list_ascii_of_string w)) (Fields (TrimPrefix line transportAuthPrefix))) as Hw.
  { apply fields_chars; [constructor|]. assert (Forall (fun c => c <> newline) (String.list_ascii_of_string line)) as Hl.
    { apply Forall_forall. intros c Hc ->. done. }
    unfold TrimPrefix. destruct (HasPrefix _ _); [by apply substring_chars|done]. }
  destruct (Fields _) as [|o [|e [|s [|t [|m [|]]]]]]; try done.
  destruct (ParseUint e 10 64) eqn:Ee; [|done]. destruct (ParseUint s 10 64) eqn:Es; [|done]. case_decide; [done|].
  destruct (ParseInt t 10 64) eqn:Et; [|done]. intros [= <-]. apply Forall_cons in Hw as [Ho _].
  apply ParseUint_range in Ee; [|lia]. apply ParseUint_range in Es; [|lia]. apply ParseInt_range in Et.
  unfold frame_ok, no_nl. simpl. split; [|lia]. intros Hin. rewrite Forall_forall in Ho. by apply (Ho _ Hin).
Qed.

Lemma trim_no_nl s : no_nl s -> no_nl (TrimSpace s).
Proof.
  unfold no_nl, TrimSpace. rewrite String.list_ascii_of_string_of_list_ascii. intros Hn Hin. apply Hn. unfold trim_bytes in Hin.
  rewrite list_elem_of_In, <- in_rev, <- list_elem_of_In in Hin.
  destruct (trim_front_spec space2 space3 (String.list_ascii_of_string s)) as (p & Hp & _). rewrite Hp. apply elem_of_app. right.
  set (m := trim_front space2 space3 _) in *. clearbody m.
  destruct (trim_front_spec (fun b a => space2 a b) (fun c b a => space3 a b c) (rev m)) as (q & Hq & _).
  rewrite list_elem_of_In, in_rev, <- list_elem_of_In, Hq. apply elem_of_app. by right.
Qed.

(** What a handler of a node with a secret is given passed the check under the
    very fields and payload it is given. *)
Lemma read_request_verified fuel a s now a' method fr payload rest :
  read_request isMember fuel (Some a) s now = (a', inr ((method, fr, payload), rest)) ->
  exists f, fr = Some f /\ no_nl method /\ frame_ok f /\ requestMAC (secret a) method f payload = mac f /\ skewed f now = false /\
    admitted isMember f method = true /\ a' = Some (verify isMember a method f payload now).1 /\
    (claim (replay a) (origin f) (epoch f) (seqno f) now).2 = true.
Proof.
  revert s. induction fuel as [|fuel IH]; intros s; simpl; [done|]. destruct (read_line s) as [[line s1]|] eqn:E1; [|done].
  case_decide; [by apply IH|]. destruct (read_line s1) as [[line2 s2]|] eqn:E2; [|done].
  destruct (parseAuthLine _) as [|f] eqn:Ep; [done|]. destruct (precheck _ _ _ _); [done|].
  destruct (read_length s2) as [|[n s3]]; [done|]. destruct (read_full n s3) as [[pl s4]|]; [|done].
  destruct (verify _ a _ _ _ _) as [a1 [err|]] eqn:Ev; [done|]. intros [= <- <- <- <- <-]. exists f. split; [done|].
  split; [by eapply trim_no_nl, cut_no_nl|]. split; [eapply parsed_frame_ok; [|exact Ep]; by eapply trim_no_nl, cut_no_nl|].
  unfold verify in Ev. case_decide; [done|]. case_decide as Hmac; [done|]. destruct (skewed f now) eqn:Es; [done|].
  destruct (admitted isMember f _) eqn:Ea; [|done]. simpl in Ev. destruct (claim _ _ _ _ _) as [m []] eqn:Ec; [|done].
  injection Ev as <-. split; [exact Hmac|]. split; [done|]. split; [done|].
  split; [|done]. unfold verify. rewrite decide_False by done. rewrite decide_False by tauto. rewrite Es, Ea. simpl. by rewrite Ec.
Qed.

Lemma cut_split s a rest : cut_at newline s = Some (a, rest) -> s = a +:+ nl +:+ rest.
Proof.
  revert a rest. induction s as [|c s IH]; intros a rest; simpl; [done|]. case_decide as Hc.
  - intros [= <- <-]. by subst c.
  - destruct (cut_at newline s) as [[x y]|]; [|done]. intros [= <- <-]. by rewrite (IH x y eq_refl).
Qed.

(** The answer to a signed request is taken only if its second line is the
    MAC of the payload for that request. *)
Lemma read_response_verified a f s payload rest :
  read_response (Some a) (Some f) s = inr (payload, rest) ->
  exists n line s', s = n +:+ nl +:+ line +:+ nl +:+ s' /\ no_nl n /\ no_nl line /\
    TrimSpace line = responseMAC (secret a) f payload.
Proof.
  unfold read_response, read_length, read_line. destruct (cut_at newline s) as [[n s1]|] eqn:E1; [|done].
  destruct (scan_length _) as [len|]; [|done]. case_decide; [done|].
  destruct (cut_at newline s1) as [[line s2]|] eqn:E2; [|done].
  destruct (read_full len s2) as [[pl s3]|]; [|done].
  destruct (decide (responseMAC (secret a) f pl <> TrimSpace line)) as [|He]; [done|]. intros [= <- <-].
  exists n, line, s2. split_and!; [|by eapply cut_no_nl|by eapply cut_no_nl|symmetry; by apply dec_stable].
  by rewrite <- (cut_split _ _ _ E2), <- (cut_split _ _ _ E1).
Qed.

Lemma mac_domains sec m f p f' p' : requestMAC sec m f p <> responseMAC sec f' p'.
Proof. unfold requestMAC, responseMAC. intros E%hmac_inj. discriminate E. Qed.

(** C35: on a node with a cluster secret, a handler runs only with a frame
    whose MAC is the keyed hash of the method, the sender, the incarnation, the
    number, the time and the payload it is given, so nothing else carries that
    MAC; and the caller takes an answer only if its MAC line is the keyed hash
    of the payload for this very request. No MAC of a request is one of an
    answer. *)
Theorem frames_authentic a :
  (forall fuel s now a' method fr payload rest,
     read_request isMember fuel (Some a) s now = (a', inr ((method, fr, payload), rest)) ->
     exists f, fr = Some f /\ mac f = requestMAC (secret a) method f payload /\
       forall method' f' payload', no_nl method' -> frame_ok f' -> mac f = requestMAC (secret a) method' f' payload' ->
         method = method' /\ payload = payload' /\
         origin f = origin f' /\ epoch f = epoch f' /\ seqno f = seqno f' /\ ts f = ts f') /\
  (forall f s payload rest,
     frame_ok f -> read_response (Some a) (Some f) s = inr (payload, rest) ->
     exists n line s', s = n +:+ nl +:+ line +:+ nl +:+ s' /\ no_nl n /\ no_nl line /\
       TrimSpace line = responseMAC (secret a) f payload /\
       forall f' payload', frame_ok f' -> TrimSpace line = responseMAC (secret a) f' payload' ->
         payload = payload' /\ origin f = origin f' /\ epoch f = epoch f' /\ seqno f = seqno f') /\
  (forall method f payload f' payload', requestMAC (secret a) method f payload <> responseMAC (secret a) f' payload').
Proof.
  split; [|split].
  - intros fuel s now a' method fr payload rest Hread.
    destruct (read_request_verified _ _ _ _ _ _ _ _ _ Hread) as (f & -> & Hm & Hf & Hreq & _).
    exists f. split_and!; [done..|]. intros method' f' payload' Hm' Hf' Hmac. rewrite <- Hreq in Hmac.
    by apply (request_mac_inj (secret a) _ _ _ _ _ _ Hm Hm' Hf Hf').
  - intros f s payload rest Hf Hread. destruct (read_response_verified _ _ _ _ _ Hread) as (n & line & s' & ? & ? & ? & Hmac).
    exists n, line, s'. split_and!; [done..|]. intros f' payload' Hf' E. rewrite Hmac in E. by apply response_mac_inj in E.
  - intros. apply mac_domains.
Qed.
End delivery.

(** ** Exchanges *)

Lemma TrimSpace_plain s : plain s -> TrimSpace s = s.
Proof.
  intros [Hne Hf]. destruct (String.list_ascii_of_string s) as [|a l] eqn:E; [by destruct s|].
  destruct (exists_last (l := a :: l)) as (m & b & Eb); [done|].
  apply (TrimSpace_plain_ends s a b l m); [done|by rewrite E|by apply Forall_cons in Hf as [? _]|].
  rewrite Eb in Hf. apply Forall_app in Hf as [_ Hf]. by apply Forall_cons in Hf as [? _].
Qed.

Lemma substring_front s rest : String.substring 0 (String.length s) (s +:+ rest) = s.
Proof. induction s as [|c s IH]; [by destruct rest|]. exact (f_equal (String.String c) IH). Qed.

Lemma read_full_payload p rest : read_full (Z.of_nat (String.length p)) (p +:+ rest) = Some (p, rest).
Proof.
  unfold read_full. rewrite decide_True by (rewrite length_string_app; lia). rewrite Nat2Z.id, substring_front. 
  by rewrite substring_suffix.
Qed.

Lemma read_length_printed n rest :
  0 < n <= maxTransportPayload -> read_length (sprintf_d n +:+ nl +:+ rest) = inr (n, rest).
Proof.
  intros Hn. unfold maxTransportPayload in *. unfold read_length, read_line. rewrite cut_nl by apply plain_no_nl, sprintf_plain.
  rewrite TrimSpace_plain by apply sprintf_plain. unfold scan_length. destruct (sprintf_sign n) as (c & s & Es & Hm & Hp).
  rewrite Es, !decide_False by done. rewrite <- Es, digit_prefix_sprintf. rewrite Es. rewrite <- Es, ParseUint_sprintf by lia.
  rewrite decide_True by lia. by rewrite decide_False by (unfold maxTransportPayload; lia).
Qed.

Section exchange.
Context `{!Mac} (isMember : option (string -> string -> bool)).

Definition auth_body (f : frameAuth) : string :=
  transportAuthPrefix +:+ origin f +:+ " " +:+ sprintf_d (epoch f) +:+ " " +:+ sprintf_d (seqno f) +:+ " " +:+
    FormatInt (ts f) +:+ " " +:+ mac f.

Lemma auth_line_body f rest : auth_line f +:+ rest = auth_body f +:+ nl +:+ rest.
Proof. unfold auth_line, auth_body. by rewrite !string_app_assoc. Qed.

Lemma plain_app_no_nl a b : no_nl a -> no_nl b -> no_nl (a +:+ b).
Proof. unfold no_nl. rewrite list_ascii_app. intros Ha Hb [?|?]%elem_of_app; done. Qed.

Lemma auth_body_no_nl f : plain (origin f) -> plain (mac f) -> no_nl (auth_body f).
Proof.
  intros Ho Hm. unfold auth_body. repeat (apply plain_app_no_nl; [auto using plain_no_nl, sprintf_plain, format_plain|]).
  all: try (by apply plain_no_nl). all: unfold no_nl; vm_compute; set_solver.
Qed.

Lemma auth_body_trim f : plain (mac f) -> TrimSpace (auth_body f) = auth_body f.
Proof.
  intros [Hne Hf]. destruct (exists_last (l := String.list_ascii_of_string (mac f))) as (m & b & Eb); [by destruct (mac f)|].
  assert (visible_char b) as Hb. { rewrite Eb in Hf. apply Forall_app in Hf as [_ Hf]. by apply Forall_cons in Hf as [? _]. }
  eapply (TrimSpace_plain_ends _ "A"%char b).
  - unfold auth_body. cbn. reflexivity.
  - unfold auth_body. rewrite !list_ascii_app, Eb, !(assoc_L (++)). reflexivity.
  - by vm_compute.
  - done.
Qed.

Lemma parse_printed f : frame_ok f -> plain (origin f) -> plain (mac f) -> parseAuthLine (auth_body f) = inr f.
Proof.
  intros (_ & He & Hs & Ht) Ho Hm. unfold parseAuthLine, auth_body, HasPrefix, TrimPrefix. unfold HasPrefix.
  rewrite prefix_append. cbn [negb]. rewrite substring_suffix.
  rewrite (Fields_cons (origin f)) by done. rewrite (Fields_cons (sprintf_d (epoch f))) by apply sprintf_plain.
  rewrite (Fields_cons (sprintf_d (seqno f))) by apply sprintf_plain. rewrite (Fields_cons (FormatInt (ts f))) by apply format_plain.
  rewrite (Fields_one (mac f)) by done. rewrite !ParseUint_sprintf by lia. rewrite decide_False by lia.
  rewrite ParseInt_format by lia. by destruct f.
Qed.

Definition signed (a : transportAuth) (method payload : string) (now : Z) : frameAuth := ((sign a method payload now).2).2.

(** A node that can sign. *)
Definition sender_ok (a : transportAuth) : Prop := plain (nodeID a) /\ 0 <= t_epoch a < 2 ^ 64 /\ 0 <= t_seq a < 2 ^ 64 - 1.

Lemma signed_ok a method payload now :
  sender_ok a -> - 2 ^ 63 <= now < 2 ^ 63 -> frame_ok (signed a method payload now).
Proof.
  intros (Hid & He & Hs) Hn. unfold signed, sign, frame_ok, u64. simpl. rewrite Z.mod_small by lia.
  split; [by apply plain_no_nl|]. lia.
Qed.

End exchange.

(** ** An exchange *)

Definition bit_char (b : bool) : ascii := if b then "1"%char else "0"%char.
Definition byte_text (c : ascii) (rest : string) : string :=
  let 'Ascii b0 b1 b2 b3 b4 b5 b6 b7 := c in
  foldr (fun b s => String.String (bit_char b) s) rest [b0; b1; b2; b3; b4; b5; b6; b7].
Fixpoint bits_text (s : string) : string := match s with EmptyString => "." | String.String c s => byte_text c (bits_text s) end.

Lemma byte_text_inj c d s t : byte_text c s = byte_text d t -> c = d /\ s = t.
Proof.
  destruct c as [c0 c1 c2 c3 c4 c5 c6 c7], d as [d0 d1 d2 d3 d4 d5 d6 d7]. simpl. intros E. injection E as E0 E1 E2 E3 E4 E5 E6 E7 ->.
  split; [|done]. f_equal; match goal with |- ?x = ?y => by destruct x, y end.
Qed.

Lemma bits_text_inj s t : bits_text s = bits_text t -> s = t.
Proof.
  revert t. induction s as [|c s IH]; intros [|d t]; cbn [bits_text]; [done|by destruct d as [[]]|by destruct c as [[]]|].
  by intros [-> ->%IH]%byte_text_inj.
Qed.

Lemma bits_text_plain s : plain (bits_text s).
Proof.
  induction s as [|[b0 b1 b2 b3 b4 b5 b6 b7] s [_ IH]]; [by apply (bool_decide_unpack _)|]. split; [done|]. simpl.
  repeat (constructor; [by match goal with |- visible_char (bit_char ?x) => destruct x end|]). exact IH.
Qed.

#[export] Instance sample_mac : Mac.
Proof.
  refine {| hmac k m := bits_text m |}.
  - intros k m. apply bits_text_plain.
  - intros k m m'. apply bits_text_inj.
Defined.

Definition seconds (n : Z) : Z := n * nanosecond_per_second.
Definition ours : transportAuth := MkTransport "s3cret" "n1" 77 0 ∅.
Definition theirs : transportAuth := MkTransport "s3cret" "n2" 78 0 ∅.
Definition members (o method : string) : bool := bool_decide (o = "n1" \/ o = "n3").

Definition vote : frameAuth := signed ours "RequestVote" "{}" (seconds 1000).
Definition ours1 : transportAuth := (sign ours "RequestVote" "{}" (seconds 1000)).1.
Definition theirs1 : transportAuth := (verify (Some members) theirs "RequestVote" vote "{}" (seconds 1001)).1.


(** More frames of the same and of other senders, one of them after the first
    window has expired. *)
Definition heartbeat : frameAuth := signed ours1 "Heartbeat" "{1}" (seconds 1002).
Definition third : transportAuth := MkTransport "s3cret" "n3" 5 0 ∅.
Definition later_frames : list arrival :=
  [("Heartbeat", heartbeat, "{1}", seconds 1002); ("RequestVote", vote, "{}", seconds 1003);
   ("Heartbeat", signed third "Heartbeat" "{2}" (seconds 1200), "{2}", seconds 1200)].

Lemma replayed_frame_refused_witness :
  exists err, (verify (Some members) (foldl (arrive (Some members)) theirs1 later_frames) "RequestVote" vote "{}" (seconds 1201)).2 =
    Some err.
Proof.
  apply (replayed_frame_refused (Some members) theirs "RequestVote" vote "{}" (seconds 1001) theirs1 later_frames).
  - apply map_Forall_empty.
  - vm_compute. discriminate.
  - vm_compute. reflexivity.
  - unfold later_frames. cbn [calm_run].
    repeat (split; [vm_compute; discriminate|]; split; [vm_compute; discriminate|];
      split; [apply (bool_decide_unpack _); vm_compute; reflexivity|]). exact I.
  - vm_compute. discriminate.
Defined.

(** Nine incarnations of one sender within two minutes push the first one
    out, and its frame passes once more. *)
Definition incarnation (e : Z) : arrival :=
  let a := MkTransport "s3cret" "n1" e 0 ∅ in ("Heartbeat", signed a "Heartbeat" "{}" (seconds 1001), "{}", seconds (1001 + e - 100)).
Definition restarts : list arrival := incarnation <$> [101; 102; 103; 104; 105; 106; 107; 108].

Lemma evicted_incarnation_replayed :
  (verify (Some members) (foldl (arrive (Some members)) theirs1 restarts) "RequestVote" vote "{}" (seconds 1020)).2 = None.
Proof. vm_compute. reflexivity. Qed.

Definition wire : string := (write_request (Some ours) "RequestVote" "{}" (seconds 1000)).2.

(** The request that was signed is the one handed on, and no other method or
    payload has its MAC. *)
Lemma frames_authentic_witness :
  mac vote = requestMAC "s3cret" "RequestVote" vote "{}" /\ mac vote <> requestMAC "s3cret" "Heartbeat" vote "{}".
Proof.
  destruct (proj1 (frames_authentic (Some members) theirs) 1%nat wire (seconds 1001) (Some theirs1) "RequestVote" (Some vote) "{}" "")
    as (f & E & Hmac & Honly); [vm_compute; reflexivity|]. injection E as <-. split; [exact Hmac|]. intros Hother.
  destruct (Honly "Heartbeat" vote "{}") as [Hm _]; [| |exact Hother|discriminate Hm].
  - apply plain_no_nl. by apply (bool_decide_unpack _).
  - apply signed_ok; [|unfold seconds, nanosecond_per_second; lia]. split; [by apply (bool_decide_unpack _)|]. split_and!; vm_compute; first [reflexivity|discriminate].
Defined.
