(* ===== verification/LogStore.v ===== *)
(** * The Raft log store

    [CobaltDBLogStore] (src/internal/storage/raft_log.go): log entries under
    the keys raft/log/<index> of a key/value store. Everything here is proved
    against the interface [KeyValue], so it holds for any store that honours
    it, CobaltDB in particular. The theorems refine the operations to the map
    from index to entry that the Raft node works with (Raft.v): also when a
    multi-frame write or deletion stops half-way, what is left is one of the
    outcomes [store_io] and [delete_io] describe. *)
From stdpp Require Import base gmap strings list sorting.
From Stdlib Require Import ZArith Lia Strings.Byte DecimalString DecimalN.
From S2P Require Import Prelude GoStrings BTree Wal Engine Store KeyValue Membership Raft RaftOps.

(** ** Keys *)

Definition log_prefix : string := "raft/log/".

Definition log_key (index : Z) : string := log_prefix +:+ sprintf_d index.

(** ** The JSON form of an entry *)

Class LogCodec := {
  encodeLog : RaftLogEntry -> bytes;
  decodeLog : bytes -> option (Z * LogEntryType * bytes);
}.

(** Entries with uint64 numbers round trip; the index is in the key. *)
Definition log_entry_ok (e : RaftLogEntry) : Prop :=
  (0 <= Index e < 2 ^ 64)%Z /\ (0 <= Term e < 2 ^ 64)%Z.

Class LogCodecOk (L : LogCodec) : Prop := {
  decode_encode e : log_entry_ok e -> decodeLog (encodeLog e) = Some (Term e, Type_ e, Data e);
}.

Section store.
Context {D : Type} `{KV : KeyValue D} {L : LogCodec}.

(** ** Operations *)

(** The indexes of the stored entries, as the scan's keys give them. *)
Definition scanned_indexes (results : gmap string bytes) : list Z :=
  map (fun e => sscanf_d (String.substring (String.length log_prefix)
                            (String.length e.1 - String.length log_prefix) e.1)) (map_to_list results).

Definition FirstIndex (d : D) : db_error + Z :=
  match kv_scan d log_prefix with
  | inl err => inl err
  | inr results => inr (default 0%Z (head (merge_sort Z.le (scanned_indexes results))))
  end.

Definition LastIndex (d : D) : db_error + Z :=
  match kv_scan d log_prefix with
  | inl err => inl err
  | inr results => inr (default 0%Z (head (merge_sort Z.ge (scanned_indexes results))))
  end.

Inductive log_error :=
| LogStoreError (e : db_error)
| LogDecodeError.

Definition GetLog (d : D) (index : Z) : log_error + RaftLogEntry :=
  match kv_get d (log_key index) with
  | inl err => inl (LogStoreError err)
  | inr data =>
      match decodeLog data with
      | None => inl LogDecodeError
      | Some (term, type, payload) => inr (MkEntry index term type payload)
      end
  end.

Definition encodeLogEntry (e : RaftLogEntry) : string * bytes := (log_key (Index e), encodeLog e).

Definition StoreLog (d : D) (c : call_env) (e : RaftLogEntry) : D * option db_error :=
  let '(key, value) := encodeLogEntry e in kv_put d c key value.

Definition walBatchBudget : Z := 256 * 1024.

Definition walBatchCost (key : string) (value : bytes) : Z :=
  Z.of_nat (String.length key) + Z.of_nat (length value) + 96.

Definition flush (d : D) (c : call_env) (batch : gmap string bytes) : D * option db_error :=
  if decide (batch = ∅) then (d, None) else kv_put_many d c batch.

(** The loop of [StoreLogs]; [cs k] is the environment of the [k]-th frame. *)
Fixpoint store_logs_loop (d : D) (cs : nat -> call_env) (k : nat) (batch : gmap string bytes)
    (size : Z) (logs : list RaftLogEntry) : D * option db_error :=
  match logs with
  | [] => flush d (cs k) batch
  | e :: rest =>
      let '(key, value) := encodeLogEntry e in
      let cost := walBatchCost key value in
      if decide (size > 0 /\ size + cost > walBatchBudget)%Z then
        match flush d (cs k) batch with
        | (d', Some err) => (d', Some err)
        | (d', None) => store_logs_loop d' cs (S k) {[key := value]} cost rest
        end
      else store_logs_loop d cs k (<[key:=value]> batch) (size + cost) rest
  end.

Definition store_logs (d : D) (cs : nat -> call_env) (logs : list RaftLogEntry) :
    D * option db_error := store_logs_loop d cs 0 ∅ 0 logs.

Definition perFrame : nat := 2048.

(** [for i := minIdx; ; i++]; the fuel is the length of the range. *)
Fixpoint delete_loop (fuel : nat) (d : D) (cs : nat -> call_env) (k : nat) (i maxIdx : Z)
    (keys : list string) : D * option db_error :=
  match fuel with
  | 0 => (d, None)
  | S fuel =>
      let keys := keys ++ [log_key i] in
      if decide (length keys = perFrame \/ i = maxIdx) then
        match kv_delete_many d (cs k) keys with
        | (d', Some err) => (d', Some err)
        | (d', None) =>
            if decide (i = maxIdx) then (d', None) else delete_loop fuel d' cs (S k) (i + 1) maxIdx []
        end
      else delete_loop fuel d cs k (i + 1) maxIdx keys
  end.

Definition delete_log_range (d : D) (cs : nat -> call_env) (minIdx maxIdx : Z) : D * option db_error :=
  if decide (minIdx > maxIdx)%Z then (d, None)
  else delete_loop (Z.to_nat (maxIdx - minIdx + 1)) d cs 0 minIdx maxIdx [].
End store.

(** ** Keys and indexes *)

(** [key[len(prefix):]] of a log key. *)
Lemma log_key_index i :
  (0 <= i < 2 ^ 64)%Z ->
  sscanf_d (String.substring (String.length log_prefix)
    (String.length (log_key i) - String.length log_prefix) (log_key i)) = i.
Proof.
  intros Hi. unfold log_key. set (s := sprintf_d i).
  change (String.length log_prefix) with 9%nat.
  change (String.length (log_prefix +:+ s)) with (9 + String.length s)%nat.
  replace (9 + String.length s - 9)%nat with (String.length s) by lia.
  simpl. rewrite substring_whole. subst s. by apply sscanf_sprintf.
Qed.

Lemma log_key_inj i j : (0 <= i < 2 ^ 64)%Z -> (0 <= j < 2 ^ 64)%Z -> log_key i = log_key j -> i = j.
Proof. intros Hi Hj E. by rewrite <- (log_key_index i), <- (log_key_index j), E by done. Qed.

Lemma log_key_prefix i : String.prefix log_prefix (log_key i) = true.
Proof. apply prefix_append. Qed.

(** ** Refinement *)

Section refinement.
Context {D : Type} `{KVok : KeyValueOk D} {L : LogCodec} {Lok : LogCodecOk L}.

(** The store [d] holds the log [st]. *)
Record log_rep (d : D) (st : gmap Z RaftLogEntry) : Prop := {
  lr_inv : kv_inv d;
  lr_ok : forall i e, st !! i = Some e -> Index e = i /\ log_entry_ok e;
  lr_key : forall i, (0 <= i < 2 ^ 64)%Z -> kv_map d !! log_key i = encodeLog <$> st !! i;
  lr_only : forall k, String.prefix log_prefix k = true -> is_Some (kv_map d !! k) ->
    exists i, (0 <= i < 2 ^ 64)%Z /\ k = log_key i;
}.

Lemma get_log_rep d st index :
  log_rep d st -> (0 <= index < 2 ^ 64)%Z ->
  GetLog d index = match st !! index with
                   | Some e => inr e
                   | None => inl (LogStoreError (ErrNotFound (log_key index)))
                   end.
Proof.
  intros [Hi Ho Hk _] Hr. unfold GetLog. rewrite (kv_get_spec d (log_key index) Hi), Hk by done.
  destruct (st !! index) as [e|] eqn:E; [|done]. simpl. destruct (Ho index e E) as [HI Hok].
  rewrite (decode_encode e Hok), <- HI. by destruct e.
Qed.

(** *** Writes *)

Definition batch_of (logs : list RaftLogEntry) : gmap string bytes :=
  foldl (fun b e => <[log_key (Index e):=encodeLog e]> b) ∅ logs.

Lemma batch_of_snoc logs e : batch_of (logs ++ [e]) = <[log_key (Index e):=encodeLog e]> (batch_of logs).
Proof. unfold batch_of. by rewrite foldl_app. Qed.

Lemma store_entries_snoc st logs e :
  store_entries st (logs ++ [e]) = <[Index e:=e]> (store_entries st logs).
Proof. unfold store_entries. by rewrite foldl_app. Qed.

Lemma store_entries_union st logs : store_entries st logs = store_entries ∅ logs ∪ st.
Proof.
  induction logs as [|e logs IH] using rev_ind; [unfold store_entries; simpl; by rewrite (left_id_L ∅ (∪))|].
  by rewrite !store_entries_snoc, IH, insert_union_l.
Qed.

Lemma store_entries_app st l1 l2 : store_entries st (l1 ++ l2) = store_entries (store_entries st l1) l2.
Proof. apply foldl_app. Qed.

Lemma store_entries_Index logs i e :
  Forall log_entry_ok logs -> store_entries ∅ logs !! i = Some e -> Index e = i /\ log_entry_ok e.
Proof.
  induction logs as [|x logs IH] using rev_ind; [done|]. rewrite store_entries_snoc, Forall_app, Forall_singleton.
  intros [Hl Hx] [[<- <-]|[_ Hq]]%lookup_insert_Some; auto.
Qed.

Lemma batch_lookup logs i :
  Forall log_entry_ok logs -> (0 <= i < 2 ^ 64)%Z ->
  batch_of logs !! log_key i = encodeLog <$> store_entries ∅ logs !! i.
Proof.
  intros Hl Hi. induction logs as [|x logs IH] using rev_ind; [done|].
  rewrite batch_of_snoc, store_entries_snoc. apply Forall_app in Hl as [Hl Hx].
  apply Forall_singleton in Hx as [Hx _]. destruct (decide (Index x = i)) as [<-|Hne].
  - by rewrite !lookup_insert_eq.
  - rewrite !lookup_insert_ne; [auto|done|]. intros E. by apply log_key_inj in E.
Qed.

Lemma batch_only logs k :
  Forall log_entry_ok logs -> is_Some (batch_of logs !! k) ->
  exists i, (0 <= i < 2 ^ 64)%Z /\ k = log_key i.
Proof.
  intros Hl. induction logs as [|x logs IH] using rev_ind; [by intros [? ?]|].
  apply Forall_app in Hl as [Hl Hx]. apply Forall_singleton in Hx as [Hx _].
  rewrite batch_of_snoc. intros [v [[<- _]|[_ Hq]]%lookup_insert_Some]; eauto.
Qed.

Lemma log_rep_put d d' st logs :
  log_rep d st -> kv_inv d' -> Forall log_entry_ok logs ->
  kv_map d' = batch_of logs ∪ kv_map d -> log_rep d' (store_entries st logs).
Proof.
  intros [Hi Ho Hk Hn] Hi' Hl Em. rewrite store_entries_union. split; [done|..].
  - intros i e [He|[_ He]]%lookup_union_Some_raw; [by apply (store_entries_Index logs)|auto].
  - intros i Hr. rewrite Em, !lookup_union, batch_lookup, Hk by done.
    by destruct (store_entries ∅ logs !! i), (st !! i).
  - intros k Hp. rewrite Em. intros [v [Hv|[_ Hv]]%lookup_union_Some_raw]; [|eauto].
    apply (batch_only logs); [done|by eexists].
Qed.

Lemma flush_rep d c st logs d' err :
  log_rep d st -> call_env_ok c -> Forall log_entry_ok logs -> flush d c (batch_of logs) = (d', err) ->
  log_rep d' match err with None => store_entries st logs | Some _ => st end.
Proof.
  intros Hr Hc Hl E. unfold flush in E. destruct (decide (batch_of logs = ∅)) as [Hb|Hb].
  - simplify_eq. apply (log_rep_put d' d'); auto; [apply Hr|]. by rewrite Hb, (left_id_L ∅ (∪)).
  - destruct (kv_put_many_spec d c _ d' err (lr_inv _ _ Hr) Hc E) as [Hi Em].
    destruct err; [|by apply (log_rep_put d d')]. destruct Hr as [_ Ho Hk Hn].
    split; [done|done|by rewrite Em|by rewrite Em].
Qed.

(** What the loop leaves: all of the entries, or the frames before the one
    that failed. *)
Definition stored_upto (d : D) (st : gmap Z RaftLogEntry) (logs : list RaftLogEntry)
    (err : option db_error) : Prop :=
  match err with
  | None => log_rep d (store_entries st logs)
  | Some _ => exists j, log_rep d (store_entries st (take j logs))
  end.

Lemma stored_upto_app d st done_ logs err :
  stored_upto d (store_entries st done_) logs err -> stored_upto d st (done_ ++ logs) err.
Proof.
  destruct err as [e|]; simpl.
  - intros [j Hj]. exists (length done_ + j). by rewrite take_app_add, store_entries_app.
  - by rewrite store_entries_app.
Qed.

Lemma store_logs_loop_rep cs logs : forall d k st pending size d' err,
  log_rep d st -> (forall k, call_env_ok (cs k)) -> Forall log_entry_ok pending ->
  Forall log_entry_ok logs ->
  store_logs_loop d cs k (batch_of pending) size logs = (d', err) ->
  stored_upto d' st (pending ++ logs) err.
Proof.
  induction logs as [|e logs IH]; intros d k st pending size d' err Hr Hc Hp Hl E; simpl in E.
  - rewrite app_nil_r. pose proof (flush_rep _ _ _ _ _ _ Hr (Hc k) Hp E) as Hf.
    destruct err; [by exists 0%nat|done].
  - apply Forall_cons in Hl as [He Hl]. case_decide.
    + destruct (flush d (cs k) (batch_of pending)) as [d1 err1] eqn:Ef.
      pose proof (flush_rep _ _ _ _ _ _ Hr (Hc k) Hp Ef) as Hf.
      destruct err1 as [err1|]; [simplify_eq; by exists 0%nat|].
      apply stored_upto_app. eapply (IH d1 (S k) _ [e]); [exact Hf|exact Hc|by constructor|done|exact E].
    + replace (pending ++ e :: logs) with ((pending ++ [e]) ++ logs) by (by rewrite <- app_assoc).
      eapply (IH d k st (pending ++ [e])); [done|done|by apply Forall_app_2; [|constructor]|done|].
      rewrite batch_of_snoc. exact E.
Qed.

(** *** Deletions *)

Lemma log_rep_delete d d' st lo n :
  log_rep d st -> kv_inv d' -> (0 <= lo)%Z -> (0 <= n)%Z -> (lo + n <= 2 ^ 64)%Z ->
  kv_map d' = filter (fun e => e.1 ∉ map log_key (seqZ lo n)) (kv_map d) ->
  log_rep d' (delete_range st lo (lo + n - 1)).
Proof.
  intros [Hi Ho Hk Hn] Hi' Hlo H0 Hb Em.
  assert (forall i, delete_range st lo (lo + n - 1) !! i =
    if decide (~ (lo <= i <= lo + n - 1)%Z) then st !! i else None) as Hd
    by (intros i; unfold delete_range; by rewrite (lookup_filter_key (fun i => ~ (lo <= i <= lo + n - 1)%Z))).
  assert (forall k, kv_map d' !! k =
    if decide (k ∉ map log_key (seqZ lo n)) then kv_map d !! k else None) as Hm
    by (intros k; rewrite Em; by rewrite (lookup_filter_key (fun k => k ∉ map log_key (seqZ lo n)))).
  split; [done|..].
  - intros i e. rewrite Hd. case_decide; [apply Ho|done].
  - intros i Hr. rewrite Hm, Hd.
    assert (log_key i ∈ map log_key (seqZ lo n) <-> (lo <= i <= lo + n - 1)%Z) as Hin.
    { rewrite list_elem_of_fmap. split.
      - intros (j & E & Hj%elem_of_seqZ). apply log_key_inj in E; lia.
      - intros Hr'. exists i. split; [done|]. apply elem_of_seqZ. lia. }
    destruct (decide (lo <= i <= lo + n - 1)%Z).
    + by rewrite !decide_False by tauto.
    + rewrite !decide_True by tauto. by apply Hk.
  - intros k Hp. rewrite Hm. case_decide; [by apply Hn|by intros [? ?]].
Qed.

Lemma delete_range_compose st a b c :
  (a <= b + 1)%Z -> (b <= c)%Z -> delete_range (delete_range st a b) (b + 1) c = delete_range st a c.
Proof.
  intros Hab Hbc. apply map_eq. intros i. unfold delete_range.
  rewrite !(lookup_filter_key (fun i => ~ (b + 1 <= i <= c)%Z)), (lookup_filter_key (fun i => ~ (a <= i <= b)%Z)),
    (lookup_filter_key (fun i => ~ (a <= i <= c)%Z)).
  repeat case_decide; try done; lia.
Qed.

Lemma delete_range_empty st a b : (b < a)%Z -> delete_range st a b = st.
Proof. intros Hb. apply map_filter_id. intros i e _. simpl. lia. Qed.

(** The entries from [lo] to [maxIdx] are gone, or those of the frames before
    the one that failed. *)
Definition deleted_upto (d : D) (st : gmap Z RaftLogEntry) (lo maxIdx : Z) (err : option db_error) : Prop :=
  match err with
  | None => log_rep d (delete_range st lo maxIdx)
  | Some _ => exists k, (lo <= k <= maxIdx)%Z /\ log_rep d (delete_range st lo (k - 1))
  end.

Lemma delete_loop_rep cs maxIdx : forall fuel d k st lo i d' err,
  log_rep d st -> (forall k, call_env_ok (cs k)) -> (0 <= lo <= i)%Z -> (i <= maxIdx)%Z ->
  (maxIdx < 2 ^ 64)%Z -> Z.of_nat fuel = (maxIdx - i + 1)%Z ->
  delete_loop fuel d cs k i maxIdx (map log_key (seqZ lo (i - lo))) = (d', err) ->
  deleted_upto d' st lo maxIdx err.
Proof.
  induction fuel as [|fuel IH]; intros d k st lo i d' err Hr Hc Hlo Him Hmax Hfuel; [lia|].
  assert (map log_key (seqZ lo (i - lo)) ++ [log_key i] = map log_key (seqZ lo (i + 1 - lo))) as Hks.
  { replace (i + 1 - lo)%Z with ((i - lo) + 1)%Z by lia. rewrite seqZ_app, map_app by lia.
    do 2 f_equal. rewrite seqZ_cons by lia. simpl. f_equal. f_equal. lia. }
  simpl. rewrite Hks. case_decide as Hf.
  - destruct (kv_delete_many d (cs k) _) as [d1 err1] eqn:Ed.
    destruct (kv_delete_many_spec d (cs k) _ d1 err1 (lr_inv _ _ Hr) (Hc k) Ed) as [Hi1 Em].
    destruct err1 as [err1|].
    + intros E. simplify_eq. exists lo. split; [lia|]. rewrite delete_range_empty by lia.
      destruct Hr as [_ Ho Hk Hn]. split; [done|done|by rewrite Em|by rewrite Em].
    + pose proof (log_rep_delete d d1 st lo (i + 1 - lo) Hr Hi1 ltac:(lia) ltac:(lia) ltac:(lia) Em) as Hr1.
      replace (lo + (i + 1 - lo) - 1)%Z with i in Hr1 by lia.
      case_decide as Hi; [intros E; simplify_eq; done|]. intros E.
      assert (deleted_upto d' (delete_range st lo i) (i + 1) maxIdx err) as Hd.
      { apply (IH d1 (S k) _ (i + 1)%Z (i + 1)%Z); [done|done|lia|lia|done|lia|].
        by rewrite Z.sub_diag. }
      destruct err as [err|]; simpl in *.
      * destruct Hd as (j & Hj & Hd). exists j. split; [lia|]. rewrite delete_range_compose in Hd; [done|lia|lia].
      * by rewrite delete_range_compose in Hd by lia.
  - intros E. apply (IH d k st lo (i + 1)%Z); [done|done|lia|lia|done|lia|exact E].
Qed.

Lemma delete_log_range_rep d cs st lo hi d' err :
  log_rep d st -> (forall k, call_env_ok (cs k)) -> (0 <= lo)%Z -> (hi < 2 ^ 64)%Z ->
  delete_log_range d cs lo hi = (d', err) -> deleted_upto d' st lo hi err.
Proof.
  intros Hr Hc Hlo Hhi. unfold delete_log_range. case_decide.
  - intros E. simplify_eq. simpl. by rewrite delete_range_empty by lia.
  - intros E. apply (delete_loop_rep cs hi (Z.to_nat (hi - lo + 1)) d 0 st lo lo); [done|done|lia|lia|done|lia|].
    by rewrite Z.sub_diag.
Qed.

(** *** The bounds of the log *)

Lemma scanned_perm d st :
  log_rep d st ->
  scanned_indexes (filter (fun e => String.prefix log_prefix e.1 = true) (kv_map d))
  ≡ₚ map fst (map_to_list st).
Proof.
  intros [Hi Ho Hk Hn]. set (m := filter _ (kv_map d)).
  assert (forall k v, (k, v) ∈ map_to_list m <->
    exists i e, (0 <= i < 2 ^ 64)%Z /\ k = log_key i /\ v = encodeLog e /\ st !! i = Some e) as Hm.
  { intros k v. rewrite elem_of_map_to_list. subst m.
    rewrite (lookup_filter_key (fun j => String.prefix log_prefix j = true)). split.
    - case_decide as Hp; [|done]. intros Hv. destruct (Hn k Hp) as (i & Hr & ->); [by eexists|].
      rewrite (Hk i Hr) in Hv. destruct (st !! i) as [e|] eqn:E; [|done].
      injection Hv as <-. by exists i, e.
    - intros (i & e & Hr & -> & -> & E). rewrite decide_True by apply log_key_prefix.
      by rewrite (Hk i Hr), E. }
  apply NoDup_Permutation.
  - apply NoDup_fmap_2_strong; [|apply NoDup_map_to_list].
    intros [k v] [k' v'] (i & e & Hr & -> & -> & E)%Hm (i' & e' & Hr' & -> & -> & E')%Hm. cbn [fst].
    rewrite !log_key_index by done. intros ->. by simplify_eq.
  - apply NoDup_fst_map_to_list.
  - intros x. unfold scanned_indexes. rewrite !list_elem_of_fmap. split.
    + intros ([k v] & -> & (i & e & Hr & -> & -> & E)%Hm). exists (i, e). cbn [fst].
      rewrite log_key_index by done. by rewrite elem_of_map_to_list.
    + intros ([i e] & -> & E%elem_of_map_to_list). destruct (Ho i e E) as [HI [Hr _]]. rewrite HI in Hr.
      exists (log_key i, encodeLog e). cbn [fst]. rewrite log_key_index by done. split; [done|].
      apply Hm. eauto 10.
Qed.

Lemma sorted_reverse (l : list Z) : StronglySorted Z.le l -> StronglySorted Z.ge (reverse l).
Proof.
  induction 1 as [|x l Hs IH Hx]; [constructor|]. rewrite reverse_cons. apply StronglySorted_app_2.
  - intros y z Hy Hz. apply list_elem_of_singleton in Hz as ->. rewrite Forall_forall in Hx.
    rewrite elem_of_reverse in Hy. specialize (Hx y Hy). lia.
  - done.
  - repeat constructor.
Qed.

#[local] Instance Z_ge_trans : Transitive Z.ge.
Proof. intros x y z. lia. Qed.
#[local] Instance Z_ge_total : Total Z.ge.
Proof. intros x y. lia. Qed.
#[local] Instance Z_ge_antisymm : AntiSymm eq Z.ge.
Proof. intros x y. lia. Qed.

Lemma merge_sort_unique (l1 l2 : list Z) : l1 ≡ₚ l2 -> merge_sort Z.le l1 = merge_sort Z.le l2.
Proof.
  intros HP. apply (StronglySorted_unique Z.le); try apply (StronglySorted_merge_sort Z.le).
  by rewrite !merge_sort_Permutation.
Qed.

Lemma merge_sort_ge (l1 l2 : list Z) : l1 ≡ₚ l2 -> merge_sort Z.ge l1 = reverse (merge_sort Z.le l2).
Proof.
  intros HP. apply (StronglySorted_unique Z.ge); [apply (StronglySorted_merge_sort Z.ge)|..].
  - apply sorted_reverse, (StronglySorted_merge_sort Z.le).
  - by rewrite reverse_Permutation, !merge_sort_Permutation.
Qed.

Lemma bounds_rep d st :
  log_rep d st ->
  FirstIndex d = inr (default 0%Z (head (sorted_indexes st))) /\
  LastIndex d = inr (default 0%Z (last (sorted_indexes st))).
Proof.
  intros Hr. pose proof (scanned_perm d st Hr) as HP. unfold FirstIndex, LastIndex, sorted_indexes.
  rewrite (kv_scan_spec d log_prefix (lr_inv _ _ Hr)).
  rewrite (merge_sort_unique _ _ HP), (merge_sort_ge _ _ HP), head_reverse. done.
Qed.

(** C11: the log store implements the store the Raft node is modelled over.
    Whatever fails during a multi-frame write or deletion, the outcome is one
    the node's model allows: the node's view of its storage after the call and
    the success it is told are those of [StoreLogs] and [DeleteRange] for some
    outcome of the call, and the key/value store still represents that view. *)
Theorem log_store_refines d st n cs logs lo hi :
  log_rep d st -> storage n = Some st -> (forall k, call_env_ok (cs k)) -> Forall log_entry_ok logs ->
  (0 <= lo)%Z -> (hi < 2 ^ 64)%Z ->
  (let '(d', err) := store_logs d cs logs in
   exists io st', storage (StoreLogs n logs io).1 = Some st' /\ log_rep d' st' /\
     (StoreLogs n logs io).2 = bool_decide (err = None)) /\
  (let '(d', err) := delete_log_range d cs lo hi in
   exists io st', storage (DeleteRange n lo hi io).1 = Some st' /\ log_rep d' st' /\
     (DeleteRange n lo hi io).2 = bool_decide (err = None)).
Proof.
  intros Hr Hst Hc Hl Hlo Hhi. unfold StoreLogs, DeleteRange. rewrite Hst. split.
  - destruct (store_logs d cs logs) as [d' err] eqn:E. unfold store_logs in E.
    change ∅ with (batch_of []) in E.
    pose proof (store_logs_loop_rep cs logs d 0 st [] 0 d' err Hr Hc (Forall_nil_2 _) Hl E) as Hs.
    destruct err as [err|]; simpl in Hs.
    + destruct Hs as [j Hs]. by exists (StoreFailed j), (store_entries st (take j logs)).
    + by exists StoreOk, (store_entries st logs).
  - destruct (delete_log_range d cs lo hi) as [d' err] eqn:E.
    pose proof (delete_log_range_rep d cs st lo hi d' err Hr Hc Hlo Hhi E) as Hd.
    destruct err as [err|]; simpl in Hd.
    + destruct Hd as (k & Hk & Hd). exists (DeleteFailed k), (delete_range st lo (Z.min hi (k - 1))).
      by rewrite Z.min_r by lia.
    + by exists DeleteOk, (delete_range st lo hi).
Qed.

(** Reads agree with the represented log: [GetLog] returns the entry
    stored at an index, and [FirstIndex] and [LastIndex] its bounds, although
    the keys sort as strings and not as numbers. *)
Lemma log_store_reads d st index :
  log_rep d st -> (0 <= index < 2 ^ 64)%Z ->
  GetLog d index = match st !! index with
                   | Some e => inr e
                   | None => inl (LogStoreError (ErrNotFound (log_key index)))
                   end /\
  FirstIndex d = inr (default 0%Z (head (sorted_indexes st))) /\
  LastIndex d = inr (default 0%Z (last (sorted_indexes st))).
Proof. intros Hr Hi. split; [by apply get_log_rep|by apply bounds_rep]. Qed.
End refinement.

(** ** A concrete store *)

Definition type_code (t : LogEntryType) : nat :=
  match t with LogCommand => 0 | LogNoOp => 1 | LogConfiguration => 2 | LogMembershipChange => 3 end.

Definition type_of_code (n : nat) : LogEntryType :=
  match n with 0 => LogCommand | 1 => LogNoOp | 2 => LogConfiguration | _ => LogMembershipChange end.

#[local] Instance sample_log_codec : LogCodec := {|
  encodeLog e := digits (encode (Term e, type_code (Type_ e), Data e));
  decodeLog b := p ← undigits b; '(t, ty, dt) ← (decode p : option (Z * nat * bytes));
                 Some (t, type_of_code ty, dt);
|}.

#[local] Instance sample_log_codec_ok : LogCodecOk sample_log_codec.
Proof.
  constructor. intros [i t ty dt] _. simpl. rewrite undigits_digits. simpl.
  rewrite countable.decode_encode. simpl. by destruct ty.
Qed.

(** Two entries whose keys sort the other way round as strings. *)
Definition sample_logs : list RaftLogEntry := [MkEntry 9 1 LogNoOp []; MkEntry 10 2 LogCommand [x41]].

Definition sample_calls : nat -> call_env := fun _ => CallEnv (fun _ => sample_env) sample_env.

Lemma sample_calls_ok k : call_env_ok (sample_calls k).
Proof. split; [done|]. intros ?. done. Qed.

Lemma sample_logs_ok : Forall log_entry_ok sample_logs.
Proof. repeat constructor; by vm_compute. Qed.

Lemma sample_log_empty : log_rep (sample_db (Some [x09])) ∅.
Proof.
  assert (logical (sample_db (Some [x09])) = ∅) as Hl by (by vm_compute).
  split.
  - apply sample_usable.
  - done.
  - intros i _. cbn [kv_map cobalt_kv_ok]. by rewrite Hl.
  - cbn [kv_map cobalt_kv_ok]. rewrite Hl. by intros k _ [? ?].
Qed.

Definition sample_store_node : Node :=
  NewNodeWithStableStore (MC := Build_MembershipCodec (fun _ => []) (fun _ => None) (fun _ => true))
    (MkRaftConfig "a" "" "" "" [] 1 1 1) (Some ∅) None 0.

(** Writing to and deleting from CobaltDB, with encryption on. *)
Lemma log_store_refines_witness :
  (let '(d', err) := store_logs (sample_db (Some [x09])) sample_calls sample_logs in
   exists io st', storage (StoreLogs sample_store_node sample_logs io).1 = Some st' /\ log_rep d' st' /\
     (StoreLogs sample_store_node sample_logs io).2 = bool_decide (err = None)) /\
  (let '(d', err) := delete_log_range (sample_db (Some [x09])) sample_calls 1 5000 in
   exists io st', storage (DeleteRange sample_store_node 1 5000 io).1 = Some st' /\ log_rep d' st' /\
     (DeleteRange sample_store_node 1 5000 io).2 = bool_decide (err = None)).
Proof.
  apply (log_store_refines (sample_db (Some [x09])) ∅ sample_store_node sample_calls sample_logs 1 5000);
    [exact sample_log_empty|reflexivity|exact sample_calls_ok|exact sample_logs_ok|lia|lia].
Defined.

(** Over the store in memory. *)
Definition sample_log_map : gmap string bytes := (store_logs ∅ sample_calls sample_logs).1.

Lemma sample_log_rep : log_rep sample_log_map (store_entries ∅ sample_logs).
Proof.
  apply (store_logs_loop_rep sample_calls sample_logs (∅ : gmap string bytes) 0 ∅ [] 0
    sample_log_map None).
  - by split; [..|intros k _ [? ?]].
  - exact sample_calls_ok.
  - constructor.
  - exact sample_logs_ok.
  - by vm_compute.
Qed.

Lemma log_store_reads_witness :
  GetLog sample_log_map 10 = inr (MkEntry 10 2 LogCommand [x41]) /\
  FirstIndex sample_log_map = inr 9%Z /\ LastIndex sample_log_map = inr 10%Z.
Proof.
  destruct (log_store_reads sample_log_map (store_entries ∅ sample_logs) 10 sample_log_rep ltac:(lia))
    as (H1 & H2 & H3).
  split; [exact H1|]. split; [exact H2|exact H3].
Defined.
