(* ===== verification/Fsm.v ===== *)
(** * The replicated state machine

    [StorageFSM] (src/internal/raft/fsm.go) over a key/value store with its
    secondary indexes, and the store's side of it: [ApplyFSMCommand],
    [ApplyFSMSets] and [ReplaceApplicationState]
    (src/internal/storage/storage.go). Commands come from committed log
    entries, single or in batches; a storage failure may stop a batch anywhere,
    and the entry is then applied again; FsmProps.v has the theorems. The store
    is the interface [KeyValue], and implements the optional interfaces of the
    state machine, as CobaltDB does. JSON is a parameter, and so are the table
    handlers, which belong to other components. A command whose value is null
    is not represented. *)
From stdpp Require Import base gmap strings list sorting pretty.
From Stdlib Require Import ZArith Lia Strings.Byte.
From S2P Require Import Prelude GoStrings Engine KeyValue Index Membership Raft LogStore.

(** ** Commands *)

Inductive FSMOp := FSMSet | FSMDelete | FSMDeletePrefix | FSMBatch | FSMOther (n : nat).

#[export] Instance FSMOp_eq_dec : EqDecision FSMOp.
Proof. solve_decision. Defined.

Record FSMCommand := MkCommand {
  Op : FSMOp;
  Table : string;
  Key : string;
  Value : bytes;
  Origin : string;
}.

(** [json.Unmarshal] of a command, of the batch in a command's value, and of
    a snapshot image, with [json.Marshal] of the image. *)
Class FSMCodec := {
  decodeCommand : bytes -> option FSMCommand;
  decodeBatch : bytes -> option (list FSMCommand);
  encodeImage : gmap string bytes -> bytes;
  decodeImage : bytes -> option (gmap string bytes);
}.

(** JSON keeps binary values (base64) and keys that are text. *)
Class FSMCodecOk (J : FSMCodec) : Prop := {
  image_roundtrip m : (forall k, is_Some (m !! k) -> Forall (fun a => (Ascii.N_of_ascii a < 128)%N)
    (String.list_ascii_of_string k)) -> decodeImage (encodeImage m) = Some m;
}.

Section fsm.
Context {D : Type} `{KeyValue D} {J : FSMCodec}.

(** A store: the keys and values, and the indexes beside them. *)
Definition store : Type := D * indexes.

(** *** The store's side *)

Definition ApplyFSMCommand (s : store) (c : call_env) (cmd : FSMCommand) : store * option db_error :=
  let '(d, x) := s in
  match Op cmd with
  | FSMSet =>
      match kv_put d c (Key cmd) (Value cmd) with
      | (d, Some err) => ((d, x), Some err)
      | (d, None) => ((d, updateIndexForSet (Key cmd) x), None)
      end
  | FSMDelete =>
      let x := updateIndexForDelete (Key cmd) x in
      let '(d, err) := kv_delete d c (Key cmd) in ((d, x), err)
  | FSMDeletePrefix =>
      match kv_scan d (Key cmd) with
      | inl err => ((d, x), Some err)
      | inr results =>
          let x := foldl (fun x k => updateIndexForDelete k x) x (map fst (map_to_list results)) in
          let '(d, err) := kv_delete_prefix d c (Key cmd) in ((d, x), err)
      end
  | _ => ((d, x), None)
  end.

(** Pairs written in frames that stay below the budget. *)
Fixpoint put_frames (d : D) (cs : nat -> call_env) (k : nat) (values : gmap string bytes) (size : Z)
    (kvs : list (string * bytes)) : D * option db_error :=
  match kvs with
  | [] => flush d (cs k) values
  | (key, value) :: rest =>
      let cost := walBatchCost key value in
      if decide (size > 0 /\ size + cost > walBatchBudget)%Z then
        match flush d (cs k) values with
        | (d', Some err) => (d', Some err)
        | (d', None) => put_frames d' cs (S k) {[key := value]} cost rest
        end
      else put_frames d cs k (<[key:=value]> values) (size + cost) rest
  end.

Definition ApplyFSMSets (s : store) (cs : nat -> call_env) (cmds : list FSMCommand) :
    store * option db_error :=
  let '(d, x) := s in
  match put_frames d cs 0 ∅ 0 (map (fun c => (Key c, Value c)) cmds) with
  | (d, Some err) => ((d, x), Some err)
  | (d, None) => ((d, foldl (fun x c => updateIndexForSet (Key c) x) x cmds), None)
  end.

(** [for len(stale) > 0]; the fuel is the number of stale keys. *)
Fixpoint delete_frames (fuel : nat) (d : D) (cs : nat -> call_env) (k : nat) (stale : list string) :
    D * option db_error :=
  match fuel, stale with
  | _, [] => (d, None)
  | O, _ => (d, None)
  | S fuel, _ =>
      match kv_delete_many d (cs k) (take perFrame stale) with
      | (d', Some err) => (d', Some err)
      | (d', None) => delete_frames fuel d' cs (S k) (drop perFrame stale)
      end
  end.

(** Raft's own records share the store. *)
Definition raft_key (key : string) : bool := String.prefix "raft/" key.

Definition ReplaceApplicationState (d : D) (cs1 cs2 : nat -> call_env) (data : gmap string bytes) :
    D * option db_error :=
  match kv_list d "" with
  | inl err => (d, Some err)
  | inr keys =>
      let stale := filter (fun key => raft_key key = false /\ data !! key = None) keys in
      match delete_frames (length stale) d cs1 0 stale with
      | (d, Some err) => (d, Some err)
      | (d, None) =>
          put_frames d cs2 0 ∅ 0 (filter (fun e => raft_key e.1 = false) (map_to_list data))
      end
  end.

(** *** The state machine *)

(** What the application registers for tables that need more than a keyed
    write. *)
Record table_handlers := Handlers {
  handlers : string -> option (store -> (nat -> call_env) -> FSMCommand -> store * option apply_error);
  batchHandlers : string ->
    option (store -> (nat -> call_env) -> list FSMCommand -> store * list FSMCommand * bool);
}.

Context (T : table_handlers).

Record StorageFSM := MkFSM {
  f_store : store;
  f_index : Z;
  f_tableIndex : gmap string Z;
  f_observed : list FSMCommand; (* the observer's calls *)
}.

Definition noteTable (table : string) (index : Z) (ti : gmap string Z) : gmap string Z :=
  if decide (table = "") then ti else
  if decide (index > default 0 (ti !! table))%Z then <[table:=index]> ti else ti.

Definition TableIndex (f : StorageFSM) (table : string) : Z := default 0%Z (f_tableIndex f !! table).

Definition SetLastApplied (f : StorageFSM) (index : Z) : StorageFSM :=
  MkFSM (f_store f) index (f_tableIndex f) (f_observed f).

Definition applyOne (s : store) (cs : nat -> call_env) (cmd : FSMCommand) : store * option apply_error :=
  match (if decide (Table cmd = "") then None else handlers T (Table cmd)) with
  | Some handler => handler s cs cmd
  | None =>
      let '(s, err) := ApplyFSMCommand s (cs 0) cmd in
      (s, match err with Some _ => Some (ErrApply true) | None => None end)
  end.

Definition plainSet (cmd : FSMCommand) : bool :=
  bool_decide (Op cmd = FSMSet) &&
  (bool_decide (Table cmd = "") || bool_decide (handlers T (Table cmd) = None)).

Fixpoint run_length (ok : FSMCommand -> bool) (batch : list FSMCommand) : nat :=
  match batch with
  | c :: rest => if ok c then S (run_length ok rest) else 0
  | [] => 0
  end.

Inductive batch_runner := RunSingle | RunTable (table : string) | RunSets.

(** The run at the head of [cmd :: rest] and how it is applied. *)
Definition batchRun (cmd : FSMCommand) (rest : list FSMCommand) : nat * batch_runner :=
  if decide (Op cmd = FSMBatch) then (1, RunSingle) else
  if decide (Table cmd <> "") then
    match batchHandlers T (Table cmd) with
    | None => (1, RunSingle)
    | Some _ =>
        (S (run_length (fun c => bool_decide (Table c = Table cmd) && negb (bool_decide (Op c = FSMBatch))) rest),
         RunTable (Table cmd))
    end
  else if plainSet cmd then (S (run_length plainSet rest), RunSets) else (1, RunSingle).

(** [isRetryableApplyError] of the errors this side produces. *)
Definition isRetryableApplyError (err : apply_error) : bool :=
  match err with ErrApply r => r | _ => false end.

(** How a run of several commands is applied: the commands that took effect,
    and whether the run failed (always for a reason that may pass). *)
Definition run_batch (run : batch_runner) (s : store) (cs : nat -> call_env) (cmds : list FSMCommand) :
    store * list FSMCommand * bool :=
  match run with
  | RunTable table =>
      match batchHandlers T table with
      | Some h => h s cs cmds
      | None => (s, [], false)
      end
  | RunSets =>
      match ApplyFSMSets s cs cmds with
      | (s, Some _) => (s, [], true)
      | (s, None) => (s, cmds, false)
      end
  | RunSingle => (s, [], false)
  end.

(** [for i := 0; i < len(batch);]; [css i] are the environments of the run
    that starts at [i], and the fuel is the length of the batch. *)
Fixpoint batch_loop (fuel : nat) (s : store) (css : nat -> nat -> call_env) (i : nat)
    (batch : list FSMCommand) : store * list FSMCommand * option apply_error :=
  match fuel, batch with
  | _, [] => (s, [], None)
  | O, _ => (s, [], None)
  | S fuel, cmd :: rest =>
      let '(n, run) := batchRun cmd rest in
      if decide (1 < n) then
        match run_batch run s (css i) (take n batch) with
        | (s, done, true) => (s, done, Some (ErrApply true))
        | (s, done, false) =>
            let '(s, applied, err) := batch_loop fuel s css (i + n) (drop n batch) in
            (s, done ++ applied, err)
        end
      else
        let '(s, subErr) := if decide (Op cmd = FSMBatch) then (s, Some (ErrApply false))
                            else applyOne s (css i) cmd in
        match subErr with
        | Some err =>
            if isRetryableApplyError err then (s, [], Some err)
            else batch_loop fuel s css (S i) rest
        | None =>
            let '(s, applied, err) := batch_loop fuel s css (S i) rest in (s, cmd :: applied, err)
        end
  end.

Definition inherit_origin (origin : string) (c : FSMCommand) : FSMCommand :=
  if decide (Origin c = "") then MkCommand (Op c) (Table c) (Key c) (Value c) origin else c.

Definition set_state (s : store) (index : Z) (ti : gmap string Z) (f : StorageFSM) : StorageFSM :=
  MkFSM s index ti (f_observed f).

Definition applyCommand (f : StorageFSM) (css : nat -> nat -> call_env) (e : RaftLogEntry) :
    StorageFSM * list FSMCommand * option apply_error :=
  match decodeCommand (Data e) with
  | None => (f, [], Some (ErrApply false))
  | Some cmd =>
      if decide (Op cmd <> FSMBatch) then
        let ti := noteTable (Table cmd) (Index e) (f_tableIndex f) in
        match applyOne (f_store f) (css 0) cmd with
        | (s, Some err) => (set_state s (f_index f) ti f, [], Some err)
        | (s, None) => (set_state s (Index e) ti f, [cmd], None)
        end
      else
        match decodeBatch (Value cmd) with
        | None => (f, [], Some (ErrApply false))
        | Some batch =>
            let batch := map (inherit_origin (Origin cmd)) batch in
            let ti := foldl (fun ti c => noteTable (Table c) (Index e) ti) (f_tableIndex f) batch in
            match batch_loop (length batch) (f_store f) css 0 batch with
            | (s, applied, Some err) => (set_state s (f_index f) ti f, applied, Some err)
            | (s, applied, None) => (set_state s (Index e) ti f, applied, None)
            end
        end
  end.

Definition config_key (index : Z) : string := "raft/config/" +:+ pretty (Z.to_N index).

Definition applyConfiguration (f : StorageFSM) (c : call_env) (e : RaftLogEntry) :
    StorageFSM * option apply_error :=
  let '(d, x) := f_store f in
  match kv_put d c (config_key (Index e)) (Data e) with
  | (d, Some _) => (set_state (d, x) (f_index f) (f_tableIndex f) f, Some (ErrApply true))
  | (d, None) => (set_state (d, x) (Index e) (f_tableIndex f) f, None)
  end.

Definition apply (f : StorageFSM) (css : nat -> nat -> call_env) (e : RaftLogEntry) :
    StorageFSM * list FSMCommand * option apply_error :=
  if decide (Index e <= f_index f)%Z then (f, [], None) else
  match Type_ e with
  | LogCommand => applyCommand f css e
  | LogConfiguration => let '(f, err) := applyConfiguration f (css 0 0) e in (f, [], err)
  | LogNoOp => (SetLastApplied f (Index e), [], None)
  | LogMembershipChange => (f, [], Some (ErrApply false))
  end.

(** The observer is told what an entry applied once the entry is consumed. *)
Definition Apply (f : StorageFSM) (css : nat -> nat -> call_env) (e : RaftLogEntry) :
    StorageFSM * option apply_error :=
  match apply f css e with
  | (f, applied, None) =>
      (MkFSM (f_store f) (f_index f) (f_tableIndex f) (f_observed f ++ applied), None)
  | (f, _, Some err) => (f, Some err)
  end.

(** *** Snapshots *)

Fixpoint read_keys (d : D) (keys : list string) (snapshot : gmap string bytes) :
    db_error + gmap string bytes :=
  match keys with
  | [] => inr snapshot
  | key :: rest =>
      if raft_key key then read_keys d rest snapshot else
      match kv_get d key with
      | inl err => inl err
      | inr value => read_keys d rest (<[key:=value]> snapshot)
      end
  end.

Definition Snapshot (f : StorageFSM) : db_error + FSMCommand :=
  match kv_list (f_store f).1 "" with
  | inl err => inl err
  | inr keys =>
      match read_keys (f_store f).1 keys ∅ with
      | inl err => inl err
      | inr snapshot => inr (MkCommand FSMSet "" "snapshot" (encodeImage snapshot) "")
      end
  end.

Inductive restore_error := RestoreDecode | RestoreStore (err : db_error).

Definition Restore (f : StorageFSM) (cs1 cs2 : nat -> call_env) (snapshot : bytes) :
    StorageFSM * option restore_error :=
  match decodeImage snapshot with
  | None => (f, Some RestoreDecode)
  | Some data =>
      let '(d, x) := f_store f in
      match ReplaceApplicationState d cs1 cs2 data with
      | (d, Some err) => (set_state (d, x) (f_index f) (f_tableIndex f) f, Some (RestoreStore err))
      | (d, None) =>
          (set_state (d, rebuildIndexes (kv_keys d)) (f_index f) (f_tableIndex f) f, None)
      end
  end.
End fsm.
