(* ===== verification/FsmProps.v ===== *)
(** * The replicated state machine takes each command's effect once

    Specification and theorems for Fsm.v: the effect of a command on the map
    of keys and values, the relation that feeds a log to the state machine
    with any number of failed attempts per entry, and the proof that the
    result is the one of applying every command once and in order. *)
From stdpp Require Import base gmap strings list sorting pretty.
From Stdlib Require Import ZArith Lia Strings.Byte.
From S2P Require Import Prelude GoStrings Engine Store KeyValue Index Membership Raft LogStore Fsm.

(** ** Effects *)

Definition cmd_effect (m : gmap string bytes) (c : FSMCommand) : gmap string bytes :=
  match Op c with
  | FSMSet => <[Key c:=Value c]> m
  | FSMDelete => delete (Key c) m
  | FSMDeletePrefix => without (String.prefix (Key c)) m
  | _ => m
  end.

(** The keys a command decides. *)
Definition touches (c : FSMCommand) (k : string) : bool :=
  match Op c with
  | FSMSet | FSMDelete => bool_decide (k = Key c)
  | FSMDeletePrefix => String.prefix (Key c) k
  | _ => false
  end.

Definition touched (cs : list FSMCommand) (k : string) : bool := existsb (fun c => touches c k) cs.
Arguments touched : simpl never.

Lemma touched_cons c cs k : touched (c :: cs) k = touches c k || touched cs k.
Proof. done. Qed.

Lemma touched_app l1 l2 k : touched (l1 ++ l2) k = touched l1 k || touched l2 k.
Proof. apply existsb_app. Qed.

(** What a command leaves under a key it touches does not depend on what was
    there. *)
Definition outcome (c : FSMCommand) : option bytes :=
  match Op c with FSMSet => Some (Value c) | _ => None end.

Lemma lookup_effect m c k : cmd_effect m c !! k = if touches c k then outcome c else m !! k.
Proof.
  unfold cmd_effect, touches, outcome. destruct (Op c); try done.
  - case_bool_decide as Hk; [by rewrite Hk, lookup_insert_eq|by rewrite lookup_insert_ne].
  - case_bool_decide as Hk; [by rewrite Hk, lookup_delete_eq|by rewrite lookup_delete_ne].
  - apply lookup_without.
Qed.

Lemma effects_untouched cs : forall m k, touched cs k = false -> foldl cmd_effect m cs !! k = m !! k.
Proof.
  induction cs as [|c cs IH]; intros m k Ht; [done|]. rewrite touched_cons in Ht. apply orb_false_iff in Ht as [H1 H2].
  cbn [foldl]. rewrite IH, lookup_effect, H1 by done. done.
Qed.

Lemma effects_touched cs : forall m m' k, touched cs k = true ->
  foldl cmd_effect m cs !! k = foldl cmd_effect m' cs !! k.
Proof.
  induction cs as [|c cs IH]; intros m m' k Ht; [done|]. rewrite touched_cons in Ht. cbn [foldl].
  destruct (touched cs k) eqn:E; [by apply IH|]. rewrite orb_false_r in Ht.
  rewrite !effects_untouched, !lookup_effect, Ht by done. done.
Qed.

(** Replaying commands over a state that only they changed. *)
Lemma effects_replay cs m m' :
  (forall k, touched cs k = false -> m' !! k = m !! k) -> foldl cmd_effect m' cs = foldl cmd_effect m cs.
Proof.
  intros Hm. apply map_eq. intros k. destruct (touched cs k) eqn:E.
  - by apply effects_touched.
  - rewrite !effects_untouched by done. auto.
Qed.

(** ** Index slots *)

(** The entry an index holds for a key, and the one it should hold. *)
Definition slot (x : indexes) (k : string) : option string :=
  '(kind, id, _) ← entry_of k; ids x !! (kind, id).

Definition value_of (k : string) : option string := '(_, _, v) ← entry_of k; Some v.

Lemma indexed_slot {A} (m : gmap string A) x k :
  indexed m x k <-> slot x k = (m !! k ≫= fun _ => value_of k).
Proof.
  unfold indexed, slot, value_of. destruct (entry_of k) as [[[kind id] v]|]; cbn.
  - by destruct (m !! k).
  - by destruct (m !! k).
Qed.

Lemma slot_set x k : slot (updateIndexForSet k x) k = value_of k.
Proof.
  unfold slot, value_of. destruct (entry_of k) as [[[kind id] v]|] eqn:E; cbn; [|done].
  by rewrite ids_set, E, lookup_insert_eq.
Qed.

Lemma slot_delete x k : slot (updateIndexForDelete k x) k = None.
Proof.
  unfold slot. destruct (entry_of k) as [[[kind id] v]|] eqn:E; cbn; [|done].
  by rewrite ids_delete, E, lookup_delete_eq.
Qed.

Lemma slot_other x k k' : apart k k' -> k <> k' ->
  slot (updateIndexForSet k' x) k = slot x k /\ slot (updateIndexForDelete k' x) k = slot x k.
Proof.
  intros Ha Hne. unfold slot. destruct (entry_of k) as [[[kind id] v]|] eqn:E; cbn; [|done].
  rewrite ids_set, ids_delete. destruct (entry_of k') as [[[kind' id'] v']|] eqn:E'; [|done].
  assert ((kind', id') <> (kind, id)) by (intros [= -> ->]; by destruct Hne; eapply Ha).
  by rewrite lookup_insert_ne, lookup_delete_ne.
Qed.

(** ** Stores *)

Section stores.
Context {D : Type} `{KeyValueOk D}.
(** The keys the system uses, of which no two compete for an index entry. *)
Context (U : string -> Prop).

Record key_space : Prop := {
  ks_apart : forall k1 k2, U k1 -> U k2 -> apart k1 k2;
  ks_unindexed : forall k, entry_of k = None -> U k;
}.

Definition store_map (s : D * indexes) : gmap string bytes := kv_map s.1.

Definition exact (s : D * indexes) (k : string) : Prop := indexed (store_map s) s.2 k.

(** An index entry of [k], if there is one, is right. *)
Definition sound (s : D * indexes) (k : string) : Prop :=
  slot s.2 k = None \/ slot s.2 k = value_of k /\ is_Some (store_map s !! k).

Record store_ok (s : D * indexes) : Prop := {
  so_inv : kv_inv s.1;
  so_keys : forall k, is_Some (store_map s !! k) -> U k;
  so_sound : forall k, U k -> sound s k;
}.

(** A step that changed at most what commands [cs] touch. *)
Record partial (cs : list FSMCommand) (s s' : D * indexes) : Prop := {
  pa_ok : store_ok s';
  pa_map : forall k, touched cs k = false -> store_map s' !! k = store_map s !! k;
  pa_exact : forall k, U k -> touched cs k = false -> exact s k -> exact s' k;
}.

(** A step that took the full effect of [cs]. *)
Record full (cs : list FSMCommand) (s s' : D * indexes) : Prop := {
  fu_partial : partial cs s s';
  fu_map : store_map s' = foldl cmd_effect (store_map s) cs;
  fu_exact : forall k, U k -> touched cs k = true -> exact s' k;
}.

Lemma exact_sound s k : exact s k -> sound s k.
Proof.
  unfold exact, sound. rewrite indexed_slot. intros ->. destruct (store_map s !! k) eqn:E; cbn; [|by left].
  right. by split; [|eexists].
Qed.

Lemma partial_intro cs s s' :
  store_ok s -> kv_inv s'.1 -> (forall k, is_Some (store_map s' !! k) -> U k) ->
  (forall k, touched cs k = false -> store_map s' !! k = store_map s !! k) ->
  (forall k, U k -> touched cs k = false -> slot s'.2 k = slot s.2 k) ->
  (forall k, U k -> touched cs k = true -> sound s' k) -> partial cs s s'.
Proof.
  intros Hs Hi Hk Hm Hx Ht. split; [split; [done|done|]|done|].
  - intros k HU. destruct (touched cs k) eqn:E; [auto|]. pose proof (so_sound s Hs k HU) as Hso.
    unfold sound in *. by rewrite Hx, Hm.
  - intros k HU E. unfold exact. rewrite !indexed_slot. by rewrite Hx, Hm.
Qed.

Lemma full_intro cs s s' :
  store_ok s -> kv_inv s'.1 -> (forall k, is_Some (store_map s' !! k) -> U k) ->
  store_map s' = foldl cmd_effect (store_map s) cs ->
  (forall k, U k -> touched cs k = false -> slot s'.2 k = slot s.2 k) ->
  (forall k, U k -> touched cs k = true -> exact s' k) -> full cs s s'.
Proof.
  intros Hs Hi Hk Hm Hx Ht. split; [|done|done]. apply partial_intro; auto using exact_sound.
  intros k E. rewrite Hm. by apply effects_untouched.
Qed.

Lemma partial_refl cs s : store_ok s -> partial cs s s.
Proof. by split. Qed.

Lemma partial_weaken cs1 cs2 s s' : partial cs1 s s' -> partial (cs1 ++ cs2) s s'.
Proof.
  intros [H1 H2 H3]. split; [done|..]; intros k; [|intros HU]; rewrite touched_app; intros [E _]%orb_false_iff; auto.
Qed.

Lemma partial_trans cs1 cs2 s s1 s2 : partial cs1 s s1 -> partial cs2 s1 s2 -> partial (cs1 ++ cs2) s s2.
Proof.
  intros [H1 H2 H3] [H4 H5 H6].
  split; [done|..]; intros k; [|intros HU]; rewrite touched_app; intros [E1 E2]%orb_false_iff; [|auto].
  by rewrite H5, H2.
Qed.

Lemma full_refl s : store_ok s -> full [] s s.
Proof. intros Hs. split; [by apply partial_refl|done|done]. Qed.

Lemma full_trans cs1 cs2 s s1 s2 : full cs1 s s1 -> full cs2 s1 s2 -> full (cs1 ++ cs2) s s2.
Proof.
  intros [H1 H2 H3] [H4 H5 H6]. split.
  - by eapply partial_trans.
  - by rewrite foldl_app, H5, H2.
  - intros k HU. rewrite touched_app. destruct (touched cs2 k) eqn:E2; [auto|].
    rewrite orb_false_r. intros E1. apply (pa_exact _ _ _ H4); auto.
Qed.

(** An attempt that failed leaves no trace in the final result. *)
Lemma full_retry cs s s1 s2 : partial cs s s1 -> full cs s1 s2 -> full cs s s2.
Proof.
  intros [H1 H2 H3] [[P1 P2 P3] H5 H6]. split; [split; [done|..]|..]; auto.
  - intros k Ht. by rewrite P2, H2.
  - rewrite H5. by apply effects_replay.
Qed.

(** The keys a command may write or remove by name belong to the system. *)
Definition cmd_keys_ok (c : FSMCommand) : Prop := Op c = FSMSet \/ Op c = FSMDelete -> U (Key c).

(** An outcome of commands: full effect, or a failure that changed at most
    what they touch. *)
Definition step_ok (cs : list FSMCommand) (s s' : D * indexes) (failed : bool) : Prop :=
  if failed then partial cs s s' else full cs s s'.

Context (KS : key_space).

Lemma slot_deletes ks : Forall U ks -> forall x k, U k ->
  slot (foldl (fun x k => updateIndexForDelete k x) x ks) k = if decide (k ∈ ks) then None else slot x k.
Proof.
  intros HU. induction ks as [|j ks IH] using rev_ind; intros x k Hk.
  { by rewrite decide_False by apply not_elem_of_nil. }
  apply Forall_app in HU as [HU Hj]. rewrite Forall_singleton in Hj. rewrite foldl_app. cbn [foldl].
  destruct (decide (k = j)) as [->|Hne].
  - rewrite slot_delete, decide_True; [done|]. rewrite elem_of_app, list_elem_of_singleton. by right.
  - rewrite (proj2 (slot_other _ k j (ks_apart KS k j Hk Hj) Hne)), IH by done.
    apply decide_ext. rewrite elem_of_app, list_elem_of_singleton. naive_solver.
Qed.

Lemma slot_sets cs : Forall (fun c => U (Key c)) cs -> forall x k, U k ->
  slot (foldl (fun x c => updateIndexForSet (Key c) x) x cs) k =
    if decide (k ∈ map Key cs) then value_of k else slot x k.
Proof.
  intros HU. induction cs as [|c cs IH] using rev_ind; intros x k Hk.
  { by rewrite decide_False by apply not_elem_of_nil. }
  apply Forall_app in HU as [HU Hj]. rewrite Forall_singleton in Hj. rewrite foldl_app, map_app. cbn [foldl map].
  destruct (decide (k = Key c)) as [->|Hne].
  - rewrite slot_set, decide_True; [done|]. rewrite elem_of_app, list_elem_of_singleton. by right.
  - rewrite (proj1 (slot_other _ k (Key c) (ks_apart KS k _ Hk Hj) Hne)), IH by done.
    apply decide_ext. rewrite elem_of_app, list_elem_of_singleton. naive_solver.
Qed.

Lemma keys_effect m c : cmd_keys_ok c -> (forall k, is_Some (m !! k) -> U k) ->
  forall k, is_Some (cmd_effect m c !! k) -> U k.
Proof.
  intros Hc Hm k. rewrite lookup_effect. destruct (touches c k) eqn:Et; [|apply Hm].
  unfold outcome, touches in *. destruct (Op c) eqn:Eo; try by intros [? ?].
  apply bool_decide_eq_true in Et as ->. intros _. apply Hc. by left.
Qed.

Lemma touched_one c k : touched [c] k = touches c k.
Proof. apply orb_false_r. Qed.

Lemma set_step s e c s' err :
  store_ok s -> call_env_ok e -> Op c = FSMSet -> U (Key c) -> ApplyFSMCommand s e c = (s', err) ->
  step_ok [c] s s' (bool_decide (err <> None)).
Proof.
  intros Hs He Ho HU E. destruct s as [d x]. unfold ApplyFSMCommand in E. rewrite Ho in E.
  destruct (kv_put d e (Key c) (Value c)) as [d1 err1] eqn:Ep.
  destruct (kv_put_spec d e _ _ d1 err1 (so_inv _ Hs) He Ep) as [Hi Em].
  assert (cmd_effect (kv_map d) c = <[Key c:=Value c]> (kv_map d)) as Ee by (unfold cmd_effect; by rewrite Ho).
  assert (forall k, touches c k = bool_decide (k = Key c)) as Et by (intros k; unfold touches; by rewrite Ho).
  destruct err1; simplify_eq; cbn.
  - apply partial_intro; unfold store_map, sound; cbn; rewrite ?Em; auto; [apply Hs|].
    intros k Hk _. specialize (so_sound _ Hs k Hk) as Hso. unfold sound, store_map in *. cbn in *. by rewrite Em.
  - apply full_intro; unfold store_map, exact; cbn; rewrite ?Em; auto.
    + rewrite <- Ee. apply keys_effect; [by intros _|]. apply Hs.
    + intros k Hk Ht. rewrite touched_one, Et in Ht. apply bool_decide_eq_false in Ht.
      by apply slot_other; [apply KS|].
    + intros k Hk Ht. rewrite touched_one, Et in Ht. apply bool_decide_eq_true in Ht as ->.
      unfold store_map. cbn. rewrite Em. apply indexed_set.
Qed.

Lemma delete_step s e c s' err :
  store_ok s -> call_env_ok e -> Op c = FSMDelete -> U (Key c) -> ApplyFSMCommand s e c = (s', err) ->
  step_ok [c] s s' (bool_decide (err <> None)).
Proof.
  intros Hs He Ho HU E. destruct s as [d x]. unfold ApplyFSMCommand in E. rewrite Ho in E.
  destruct (kv_delete d e (Key c)) as [d1 err1] eqn:Ep.
  destruct (kv_delete_spec d e _ d1 err1 (so_inv _ Hs) He Ep) as [Hi Em].
  assert (cmd_effect (kv_map d) c = delete (Key c) (kv_map d)) as Ee by (unfold cmd_effect; by rewrite Ho).
  assert (forall k, touches c k = bool_decide (k = Key c)) as Et by (intros k; unfold touches; by rewrite Ho).
  assert (forall k, U k -> touched [c] k = false -> slot (updateIndexForDelete (Key c) x) k = slot x k) as Hx.
  { intros k Hk Ht. rewrite touched_one, Et in Ht. apply bool_decide_eq_false in Ht.
    by apply slot_other; [apply KS|]. }
  destruct err1; simplify_eq; cbn.
  - apply partial_intro; unfold store_map, sound; cbn; rewrite ?Em; auto; [apply Hs|].
    intros k Hk Ht. rewrite touched_one, Et in Ht. apply bool_decide_eq_true in Ht as ->. left. apply slot_delete.
  - apply full_intro; unfold store_map, exact; cbn; rewrite ?Em; auto.
    + rewrite <- Ee. apply keys_effect; [by intros _|]. apply Hs.
    + intros k Hk Ht. rewrite touched_one, Et in Ht. apply bool_decide_eq_true in Ht as ->.
      unfold store_map. cbn. rewrite Em. apply indexed_delete.
Qed.

(** The keys [PrefixScan] found. *)
Lemma scanned_keys (m : gmap string bytes) p k :
  k ∈ map fst (map_to_list (filter (fun e => String.prefix p e.1 = true) m)) <->
  String.prefix p k = true /\ is_Some (m !! k).
Proof. apply map_list_keys. Qed.

Lemma delete_prefix_step s e c s' err :
  store_ok s -> call_env_ok e -> Op c = FSMDeletePrefix -> ApplyFSMCommand s e c = (s', err) ->
  step_ok [c] s s' (bool_decide (err <> None)).
Proof.
  intros Hs He Ho E. destruct s as [d x]. unfold ApplyFSMCommand in E. rewrite Ho in E.
  rewrite (kv_scan_spec d _ (so_inv _ Hs)) in E.
  assert (forall k, touches c k = String.prefix (Key c) k) as Et by (intros k; unfold touches; by rewrite Ho).
  destruct (kv_delete_prefix d e (Key c)) as [d1 err1] eqn:Ep.
  destruct (kv_delete_prefix_spec d e _ d1 err1 (so_inv _ Hs) He Ep) as (Hi & gone & Em & Hg & Hall).
  assert (forall k, is_Some (kv_map d1 !! k) -> is_Some (kv_map d !! k)) as Hsub.
  { intros k. rewrite Em, lookup_without. destruct (gone k); [by intros [? ?]|done]. }
  set (ks := map fst _) in E. assert (Forall U ks) as HU.
  { apply Forall_forall. intros k [_ Hk]%scanned_keys. by apply (so_keys _ Hs). }
  set (x1 := foldl _ x ks) in E. simplify_eq.
  assert (forall k, U k -> touched [c] k = false -> slot x1 k = slot x k) as Hx.
  { intros k Hk Ht. rewrite touched_one, Et in Ht. subst x1. rewrite slot_deletes, decide_False; try done.
    intros [Hp _]%scanned_keys. congruence. }
  assert (forall k, U k -> touched [c] k = true -> slot x1 k = None) as Hx'.
  { intros k Hk Ht. rewrite touched_one, Et in Ht. subst x1. rewrite slot_deletes by done. case_decide as Hn; [done|].
    destruct (so_sound _ Hs k Hk) as [Hso|[_ Hso]]; [done|]. destruct Hn. by apply scanned_keys. }
  destruct err as [err|]; cbn.
  - apply partial_intro; unfold store_map, sound; cbn; auto.
    + intros k Hk. by apply (so_keys _ Hs), Hsub.
    + intros k Ht. rewrite touched_one, Et in Ht. rewrite Em, lookup_without.
      destruct (gone k) eqn:Eg; [|done]. apply Hg in Eg. congruence.
  - apply full_intro; unfold store_map, exact; cbn; auto.
    + intros k Hk. by apply (so_keys _ Hs), Hsub.
    + rewrite Em. apply map_eq. intros k. rewrite lookup_without, lookup_effect, Et.
      unfold outcome. rewrite Ho. destruct (kv_map d !! k) eqn:Ek.
      * rewrite (Hall eq_refl k) by (by rewrite Ek). done.
      * by destruct (gone k), (String.prefix _ _).
    + intros k Hk Ht. rewrite indexed_slot. unfold store_map. cbn. rewrite Hx', Em, lookup_without by done.
      rewrite touched_one, Et in Ht. destruct (kv_map d !! k) eqn:Ek.
      * rewrite (Hall eq_refl k), Ht by (by rewrite Ek). done.
      * by destruct (gone k).
Qed.

Lemma command_step s e c s' err :
  store_ok s -> call_env_ok e -> cmd_keys_ok c -> ApplyFSMCommand s e c = (s', err) ->
  step_ok [c] s s' (bool_decide (err <> None)).
Proof.
  intros Hs He Hk E. destruct (Op c) eqn:Ho;
    [eapply set_step; eauto|eapply delete_step; eauto|eapply delete_prefix_step; eauto| |].
  all: destruct s as [d x]; unfold ApplyFSMCommand in E; rewrite Ho in E; simplify_eq; cbn.
  all: apply full_intro; auto; [apply Hs..| |].
  all: try (unfold cmd_effect; cbn; by rewrite Ho).
  all: intros k _; rewrite touched_one; unfold touches; by rewrite Ho.
Qed.

(** *** Framed writes *)

Definition put_pair (m : gmap string bytes) (e : string * bytes) : gmap string bytes := <[e.1:=e.2]> m.

Lemma put_pairs_union (m : gmap string bytes) kvs : foldl put_pair ∅ kvs ∪ m = foldl put_pair m kvs.
Proof.
  induction kvs as [|e kvs IH] using rev_ind; cbn; [by rewrite (left_id_L ∅ (∪))|].
  rewrite !foldl_app. cbn. unfold put_pair at 1 3. by rewrite <- insert_union_l, IH.
Qed.

Lemma flush_spec d c values d' err :
  kv_inv d -> call_env_ok c -> flush d c values = (d', err) ->
  kv_inv d' /\ kv_map d' = match err with None => values ∪ kv_map d | Some _ => kv_map d end.
Proof.
  intros Hi Hc. unfold flush. case_decide as Hv.
  - intros [= <- <-]. split; [done|]. by rewrite Hv, (left_id_L ∅ (∪)).
  - by apply kv_put_many_spec.
Qed.

(** All pairs are written in order, or the frames before one that failed. *)
Lemma put_frames_spec cs : (forall k, call_env_ok (cs k)) -> forall kvs d k pending size d' err,
  kv_inv d -> put_frames d cs k (foldl put_pair ∅ pending) size kvs = (d', err) ->
  kv_inv d' /\ match err with
               | None => kv_map d' = foldl put_pair (kv_map d) (pending ++ kvs)
               | Some _ => exists j, kv_map d' = foldl put_pair (kv_map d) (take j (pending ++ kvs))
               end.
Proof.
  intros Hc. induction kvs as [|[key value] kvs IH]; intros d k pending size d' err Hi E; cbn [put_frames] in E.
  - destruct (flush_spec _ _ _ _ _ Hi (Hc k) E) as [Hi' Em]. split; [done|]. rewrite app_nil_r.
    destruct err; [by exists 0|]. by rewrite Em, put_pairs_union.
  - cbv zeta in E. case_decide.
    + destruct (flush _ _ _) as [d1 [err1|]] eqn:Ef; destruct (flush_spec _ _ _ _ _ Hi (Hc k) Ef) as [Hi1 Em].
      { simplify_eq. split; [done|]. by exists 0. }
      destruct (IH d1 (S k) [(key, value)] _ d' err Hi1 E) as [Hi' Hr]. split; [done|]. rewrite put_pairs_union in Em.
      destruct err as [err|]; [|by rewrite Hr, Em, <- foldl_app].
      destruct Hr as [j Hj]. exists (length pending + j). by rewrite take_app_add, Hj, Em, <- foldl_app.
    + replace (<[key:=value]> (foldl put_pair ∅ pending)) with (foldl put_pair ∅ (pending ++ [(key, value)])) in E
        by (by rewrite foldl_app).
      destruct (IH d k _ _ d' err Hi E) as [Hi' Hr]. by rewrite <- app_assoc in Hr.
Qed.

Definition kv_of (c : FSMCommand) : string * bytes := (Key c, Value c).

Lemma put_pairs_effects cs m : Forall (fun c => Op c = FSMSet) cs ->
  foldl put_pair m (map kv_of cs) = foldl cmd_effect m cs.
Proof.
  revert m. induction cs as [|c cs IH]; intros m Hs; [done|]. apply Forall_cons in Hs as [Ho Hs]. cbn.
  rewrite IH by done. unfold cmd_effect at 3. by rewrite Ho.
Qed.

Lemma ApplyFSMSets_spec s cs cmds s' err :
  kv_inv s.1 -> (forall k, call_env_ok (cs k)) -> Forall (fun c => Op c = FSMSet) cmds ->
  ApplyFSMSets s cs cmds = (s', err) ->
  kv_inv s'.1 /\
  match err with
  | None => store_map s' = foldl cmd_effect (store_map s) cmds /\
            s'.2 = foldl (fun x c => updateIndexForSet (Key c) x) s.2 cmds
  | Some _ => (exists j, store_map s' = foldl cmd_effect (store_map s) (take j cmds)) /\ s'.2 = s.2
  end.
Proof.
  intros Hi Hc Hs E. destruct s as [d x]. unfold ApplyFSMSets in E. fold kv_of in E.
  change (map (fun c => (Key c, Value c)) cmds) with (map kv_of cmds) in E.
  destruct (put_frames _ _ _ _ _ _) as [d1 err1] eqn:Ep.
  destruct (put_frames_spec cs Hc _ d 0 [] 0%Z d1 err1 Hi Ep) as [Hi' Hr].
  unfold store_map. destruct err1; simplify_eq; cbn in *; split; auto.
  - split; [|done]. destruct Hr as [j Hj]. exists j. rewrite <- fmap_take in Hj. rewrite Hj.
    apply put_pairs_effects. by apply Forall_take.
  - split; [|done]. rewrite Hr. by apply put_pairs_effects.
Qed.

Lemma touched_sets cmds k : Forall (fun c => Op c = FSMSet) cmds -> touched cmds k = true <-> k ∈ map Key cmds.
Proof.
  intros Hs. unfold touched. rewrite existsb_exists, list_elem_of_fmap.
  split; intros (c & H1 & H2).
  - apply list_elem_of_In in H1. exists c. split; [|done]. rewrite Forall_forall in Hs.
    unfold touches in H2. rewrite (Hs c H1) in H2. by apply bool_decide_eq_true in H2.
  - exists c. split; [by apply list_elem_of_In|]. rewrite Forall_forall in Hs. unfold touches.
    rewrite (Hs c H2). by apply bool_decide_eq_true.
Qed.

Lemma touched_take cmds j k : touched cmds k = false -> touched (take j cmds) k = false.
Proof. rewrite <- (take_drop j cmds) at 1. rewrite touched_app. by intros [? _]%orb_false_iff. Qed.

Lemma keys_effects cmds : forall m, Forall cmd_keys_ok cmds -> (forall k, is_Some (m !! k) -> U k) ->
  forall k, is_Some (foldl cmd_effect m cmds !! k) -> U k.
Proof.
  induction cmds as [|c cmds IH]; intros m Hc Hm; [done|]. apply Forall_cons in Hc as [H1 H2].
  apply IH; [done|]. by apply keys_effect.
Qed.

Lemma sets_present cmds k : Forall (fun c => Op c = FSMSet) cmds ->
  forall m, touched cmds k = true \/ is_Some (m !! k) -> is_Some (foldl cmd_effect m cmds !! k).
Proof.
  induction 1 as [|c cmds Ho Hs IH]; intros m Hm; [by destruct Hm|]. cbn [foldl]. apply IH.
  rewrite lookup_effect. unfold outcome. rewrite Ho. rewrite touched_cons in Hm.
  destruct (touches c k); [right; by eexists|done].
Qed.

Lemma sets_step s cs cmds s' err :
  store_ok s -> (forall k, call_env_ok (cs k)) -> Forall (fun c => Op c = FSMSet) cmds ->
  Forall cmd_keys_ok cmds -> ApplyFSMSets s cs cmds = (s', err) ->
  step_ok cmds s s' (bool_decide (err <> None)).
Proof.
  intros Hs Hc Ho Hk E. destruct (ApplyFSMSets_spec s cs cmds s' err (so_inv _ Hs) Hc Ho E) as [Hi Hr].
  assert (Forall (fun c => U (Key c)) cmds) as HU.
  { apply Forall_forall. intros c Hin. rewrite Forall_forall in Hk, Ho. apply (Hk c Hin). left. by apply Ho. }
  destruct err; cbn.
  - destruct Hr as [[j Hj] Hx]. apply partial_intro; auto.
    + rewrite Hj. apply keys_effects; [by apply Forall_take|apply Hs].
    + intros k Ht. rewrite Hj. by apply effects_untouched, touched_take.
    + intros k _ _. by rewrite Hx.
    + intros k Hk' Ht. destruct (so_sound _ Hs k Hk') as [Hso|[Hso Hm]]; [left; by rewrite Hx|].
      right. rewrite Hx, Hj. split; [done|]. apply sets_present; [by apply Forall_take|by right].
  - destruct Hr as [Hm Hx]. apply full_intro; auto.
    + rewrite Hm. apply keys_effects; [done|apply Hs].
    + intros k Hk' Ht. rewrite Hx, slot_sets, decide_False; try done. intros Hin.
      apply touched_sets in Hin; [congruence|done].
    + intros k Hk' Ht. unfold exact. rewrite indexed_slot, Hx, slot_sets by done.
      rewrite decide_True by (by apply touched_sets). rewrite Hm.
      by destruct (sets_present cmds k Ho (store_map s)) as [? ->]; [left|].
Qed.
End stores.

(** ** Entries *)

Section entries.
Context {D : Type} `{KeyValueOk D} {J : FSMCodec} (T : table_handlers (D := D)).
Context (U : string -> Prop) (KS : key_space U).

(** A command of no table with handlers of its own. *)
Definition plain (c : FSMCommand) : Prop :=
  Table c = "" \/ handlers T (Table c) = None /\ batchHandlers T (Table c) = None.

Definition cmd_ok (c : FSMCommand) : Prop := plain c /\ cmd_keys_ok U c.

Definition envs_ok (css : nat -> nat -> call_env) : Prop := forall i k, call_env_ok (css i k).

(** Batches inside batches are skipped. *)
Definition unnested (batch : list FSMCommand) : list FSMCommand := filter (fun c => Op c <> FSMBatch) batch.

Lemma run_length_ok ok l : Forall (fun c => ok c = true) (take (run_length ok l) l).
Proof. induction l as [|c l IH]; cbn; [done|]. destruct (ok c) eqn:E; cbn; [by constructor|done]. Qed.

Lemma plainSet_op c : plainSet T c = true -> Op c = FSMSet.
Proof. unfold plainSet. intros [Hs _]%andb_true_iff. by apply bool_decide_eq_true in Hs. Qed.

(** Runs of plain commands are runs of sets. *)
Lemma batchRun_plain c rest n run :
  plain c -> batchRun T c rest = (n, run) -> 1 <= n /\
  (1 < n -> run = RunSets /\ Forall (fun c => Op c = FSMSet) (take n (c :: rest))).
Proof.
  intros Hp. unfold batchRun. case_decide; [intros [= <- <-]; split; [done|lia]|]. case_decide as Ht.
  - destruct Hp as [Hp|[_ ->]]; [done|]. intros [= <- <-]; split; [done|lia].
  - destruct (plainSet T c) eqn:Es; [|intros [= <- <-]; split; [done|lia]].
    intros [= <- <-]. split; [lia|]. intros _. split; [done|]. cbn [take].
    constructor; [by apply plainSet_op|]. eapply Forall_impl; [apply run_length_ok|]. apply plainSet_op.
Qed.

Lemma applyOne_step s cs c s' err :
  store_ok U s -> (forall k, call_env_ok (cs k)) -> cmd_ok c -> applyOne T s cs c = (s', err) ->
  match err with None => full U [c] s s' | Some e => e = ErrApply true /\ partial U [c] s s' end.
Proof.
  intros Hs Hc [Hp Hk] E. unfold applyOne in E.
  assert ((if decide (Table c = "") then None else handlers T (Table c)) = None) as Eh.
  { destruct Hp as [->|[-> _]]; [done|]. by case_decide. }
  rewrite Eh in E. destruct (ApplyFSMCommand s (cs 0) c) as [s1 err1] eqn:Ea.
  pose proof (command_step U KS s (cs 0) c s1 err1 Hs (Hc 0) Hk Ea) as Hst.
  destruct err1; by simplify_eq.
Qed.

Lemma unnested_sets l : Forall (fun c => Op c = FSMSet) l -> unnested l = l.
Proof.
  induction 1 as [|c l Ho Hl IH]; [done|]. unfold unnested in *. rewrite filter_cons_True by congruence.
  by rewrite IH.
Qed.

Lemma partial_cons c l s s' : partial U [c] s s' -> partial U (c :: l) s s'.
Proof. apply (partial_weaken U [c] l). Qed.

Lemma batch_loop_spec : forall fuel batch s css i s' applied err,
  length batch <= fuel -> store_ok U s -> envs_ok css -> Forall cmd_ok batch ->
  batch_loop T fuel s css i batch = (s', applied, err) ->
  match err with
  | None => applied = unnested batch /\ full U (unnested batch) s s'
  | Some e => e = ErrApply true /\ partial U (unnested batch) s s'
  end.
Proof.
  induction fuel as [|fuel IH]; intros [|c rest] s css i s' applied err Hl Hs Hc Hok E;
    [| |cbn in E|]; try (cbn in E; simplify_eq; by split; [|apply full_refl]).
  { cbn in Hl. lia. }
  pose proof Hok as [[Hp Hk] Hrest]%Forall_cons. cbn [batch_loop] in E.
  destruct (batchRun T c rest) as [n run] eqn:Er. destruct (batchRun_plain c rest n run Hp Er) as [H1 Hn].
  case_decide as Hlt.
  - destruct (Hn Hlt) as [-> Hsets]. cbn [run_batch] in E.
    rewrite <- (take_drop n (c :: rest)) in Hok. apply Forall_app in Hok as [Hk1 Hk2].
    destruct (ApplyFSMSets s (css i) (take n (c :: rest))) as [s1 err1] eqn:Ea.
    assert (step_ok U (take n (c :: rest)) s s1 (bool_decide (err1 <> None))) as Hst.
    { eapply (sets_step U KS); eauto. eapply Forall_impl; [exact Hk1|]. by intros ? [_ ?]. }
    rewrite <- (take_drop n (c :: rest)). unfold unnested. rewrite filter_app.
    fold (unnested (take n (c :: rest))) (unnested (drop n (c :: rest))). rewrite (unnested_sets _ Hsets).
    destruct err1 as [err1|]; cbn in Hst.
    + simplify_eq. split; [done|]. by apply partial_weaken.
    + destruct (batch_loop T fuel s1 css (i + n) (drop n (c :: rest))) as [[s2 app2] err2] eqn:E2. simplify_eq.
      assert (store_ok U s1) as Hs1 by apply Hst.
      assert (length (drop n (c :: rest)) <= fuel) as Hd by (rewrite length_drop; cbn [length] in *; lia).
      specialize (IH _ _ _ _ _ _ _ Hd Hs1 Hc Hk2 E2).
      destruct err as [err|]; destruct IH as [-> Hr]; (split; [done|]).
      * eapply partial_trans; [apply Hst|done].
      * by eapply full_trans.
  - clear Hn. unfold unnested. cbn in Hl. destruct (decide (Op c = FSMBatch)) as [Ho|Ho].
    + rewrite filter_cons_False by tauto. cbn in E. eapply IH; [|done..|exact E]. lia.
    + rewrite filter_cons_True by tauto. fold (unnested rest).
      destruct (applyOne T s (css i) c) as [s1 err1] eqn:Ea.
      pose proof (applyOne_step s (css i) c s1 err1 Hs (Hc i) (conj Hp Hk) Ea) as Hst.
      destruct err1 as [err1|].
      { destruct Hst as [-> Hst]. cbn in E. simplify_eq. split; [done|]. by apply partial_cons. }
      destruct (batch_loop T fuel s1 css (S i) rest) as [[s2 app2] err2] eqn:E2. simplify_eq.
      assert (store_ok U s1) as Hs1 by apply Hst.
      specialize (IH _ _ _ _ _ _ _ (le_S_n _ _ Hl) Hs1 Hc Hrest E2).
      destruct err as [err|]; destruct IH as [-> Hr]; (split; [done|]).
      * eapply (partial_trans U [c]); [apply Hst|done].
      * by eapply (full_trans U [c]).
Qed.

(** The commands of an entry, those that a state machine carries out, and the
    writes they amount to. *)
Definition entry_listed (e : RaftLogEntry) : list FSMCommand :=
  match Type_ e, decodeCommand (Data e) with
  | LogCommand, Some c =>
      if decide (Op c <> FSMBatch) then [c]
      else map (inherit_origin (Origin c)) (default [] (decodeBatch (Value c)))
  | _, _ => []
  end.

Definition entry_commands (e : RaftLogEntry) : list FSMCommand := unnested (entry_listed e).

Definition entry_writes (e : RaftLogEntry) : list FSMCommand :=
  match Type_ e with
  | LogConfiguration => [MkCommand FSMSet "" (config_key (Index e)) (Data e) ""]
  | _ => entry_commands e
  end.

Lemma config_unindexed i : entry_of (config_key i) = None.
Proof.
  unfold entry_of. rewrite (proj2 (cut3_spec _ "raft" "config" (pretty (Z.to_N i)))); [done|].
  split; [done|]. cbn. repeat (split; [done|]). done.
Qed.

Lemma config_step d x c e d' err :
  store_ok U (d, x) -> call_env_ok c -> Type_ e = LogConfiguration ->
  kv_put d c (config_key (Index e)) (Data e) = (d', err) ->
  step_ok U (entry_writes e) (d, x) (d', x) (bool_decide (err <> None)).
Proof.
  intros Hs Hc He E. pose proof (kv_put_spec d c _ _ d' err (so_inv _ _ Hs) Hc E) as [Hi Em].
  unfold entry_writes. rewrite He. pose proof (config_unindexed (Index e)) as Hn.
  assert (U (config_key (Index e))) as HU by (by apply (ks_unindexed _ KS)).
  destruct err as [err|]; cbn.
  - apply partial_intro; auto; unfold store_map; cbn; rewrite ?Em; auto; [apply Hs|].
    intros k Hk _. specialize (so_sound _ _ Hs k Hk). unfold sound, store_map. cbn. by rewrite Em.
  - apply full_intro; auto; unfold store_map; cbn; rewrite ?Em; auto.
    + apply (keys_effect U _ (MkCommand FSMSet "" (config_key (Index e)) (Data e) "")); [by intros _|apply Hs].
    + intros k _ Ht. rewrite touched_one in Ht. apply bool_decide_eq_true in Ht as ->.
      unfold exact, indexed. cbn [Key]. by rewrite Hn.
Qed.

(** One attempt at an entry. *)
Lemma Apply_spec f css e f' err :
  (f_index f < Index e)%Z -> store_ok U (f_store f) -> envs_ok css -> Forall cmd_ok (entry_listed e) ->
  Apply T f css e = (f', err) ->
  match err with
  | None => full U (entry_writes e) (f_store f) (f_store f') /\ f_index f' = Index e /\
            f_observed f' = f_observed f ++ entry_commands e
  | Some er => f_index f' = f_index f /\ f_observed f' = f_observed f /\
      if isRetryableApplyError er then partial U (entry_writes e) (f_store f) (f_store f')
      else entry_writes e = [] /\ entry_commands e = [] /\ f_store f' = f_store f
  end.
Proof.
  intros Hidx Hs Hc Hok E. unfold Apply, apply in E. rewrite decide_False in E by lia.
  destruct (Type_ e) eqn:Ety.
  - unfold applyCommand, entry_writes, entry_commands, entry_listed in *. rewrite Ety in *.
    destruct (decodeCommand (Data e)) as [c|]; [|by simplify_eq].
    destruct (decide (Op c <> FSMBatch)) as [Ho|Ho].
    + rewrite Forall_singleton in Hok. destruct (applyOne T (f_store f) (css 0) c) as [s1 err1] eqn:Ea.
      pose proof (applyOne_step _ _ _ _ _ Hs (Hc 0) Hok Ea) as Hst.
      unfold unnested. rewrite filter_cons_True by done.
      destruct err1; simplify_eq; cbn; [destruct Hst as [-> Hst]|]; by cbn.
    + destruct (decodeBatch (Value c)) as [batch|]; [|by simplify_eq]. cbn [default Datatypes.id] in *.
      set (l := map (inherit_origin (Origin c)) batch) in *.
      destruct (batch_loop T (length l) (f_store f) css 0 l) as [[s1 app1] err1] eqn:Eb.
      pose proof (batch_loop_spec _ _ _ _ _ _ _ _ (le_n _) Hs Hc Hok Eb) as Hst.
      destruct err1; destruct Hst as [-> Hst]; simplify_eq; by cbn.
  - unfold entry_writes, entry_commands, entry_listed. rewrite Ety. simplify_eq. cbn.
    rewrite app_nil_r. split; [by apply full_refl|done].
  - destruct (applyConfiguration f (css 0 0) e) as [f1 err1] eqn:Ea. unfold applyConfiguration in Ea.
    destruct (f_store f) as [d x] eqn:Ef. destruct (kv_put d _ _ _) as [d1 err2] eqn:Ep.
    pose proof (config_step d x _ e d1 err2 Hs (Hc 0 0) Ety Ep) as Hst. unfold entry_commands, entry_listed. rewrite Ety.
    destruct err2; simplify_eq; cbn; rewrite ?app_nil_r; by cbn in Hst.
  - unfold entry_writes, entry_commands, entry_listed. rewrite Ety. by simplify_eq.
Qed.

(** A log fed to the state machine: a transient failure has the entry tried
    again, an entry that can never be applied is skipped, and the applied
    index then moved past it ([skipCommittedEntry] of the node). *)
Inductive feeds : StorageFSM (D := D) -> list RaftLogEntry -> StorageFSM (D := D) -> Prop :=
| feeds_nil f : feeds f [] f
| feeds_retry f css e es f1 er f' :
    envs_ok css -> Apply T f css e = (f1, Some er) -> isRetryableApplyError er = true ->
    feeds f1 (e :: es) f' -> feeds f (e :: es) f'
| feeds_skip f css e es f1 er f' :
    envs_ok css -> Apply T f css e = (f1, Some er) -> isRetryableApplyError er = false ->
    feeds (SetLastApplied f1 (Index e)) es f' -> feeds f (e :: es) f'
| feeds_next f css e es f1 f' :
    envs_ok css -> Apply T f css e = (f1, None) -> feeds f1 es f' -> feeds f (e :: es) f'.

Definition log_ok (f : StorageFSM (D := D)) (es : list RaftLogEntry) : Prop :=
  StronglySorted Z.lt (f_index f :: map Index es) /\ Forall (fun e => Forall cmd_ok (entry_listed e)) es.

Lemma log_ok_next f f1 e es : log_ok f (e :: es) -> f_index f1 = Index e -> log_ok f1 es.
Proof.
  intros [Hs Hl] E. apply Forall_cons in Hl as [_ Hl]. split; [|done].
  apply StronglySorted_inv in Hs as [Hs _]. cbn in Hs. by rewrite E.
Qed.

Lemma log_ok_head f e es : log_ok f (e :: es) -> (f_index f < Index e)%Z /\ Forall cmd_ok (entry_listed e).
Proof.
  intros [Hs Hl]. apply Forall_cons in Hl as [Hl _]. apply StronglySorted_inv in Hs as [_ Hs].
  by apply Forall_cons in Hs as [Hs _].
Qed.

Lemma feeds_spec f es f' :
  feeds f es f' -> store_ok U (f_store f) -> log_ok f es ->
  full U (concat (map entry_writes es)) (f_store f) (f_store f') /\
  f_observed f' = f_observed f ++ concat (map entry_commands es) /\
  f_index f' = default (f_index f) (last (map Index es)).
Proof.
  induction 1 as [f|f css e es f1 er f' Hc E Hr _ IH|f css e es f1 er f' Hc E Hr _ IH|f css e es f1 f' Hc E _ IH];
    intros Hs Hl; [cbn; rewrite app_nil_r; split; [by apply full_refl|done]|..];
    pose proof (log_ok_head _ _ _ Hl) as [Hi Hk];
    pose proof (Apply_spec f css e f1 _ Hi Hs Hc Hk E) as Ha; cbn in Ha.
  - rewrite Hr in Ha. destruct Ha as (Ei & Eo & Hp).
    destruct IH as (Hf & Ho & Hx); [apply Hp|destruct Hl; split; by rewrite ?Ei|].
    rewrite Eo in Ho. rewrite Ei in Hx. split_and!; [|done|done]. eapply full_retry; [|exact Hf].
    cbn. by apply partial_weaken.
  - rewrite Hr in Ha. destruct Ha as (Ei & Eo & Ew & Ec & Es).
    destruct IH as (Hf & Ho & Hx); [cbn; by rewrite Es|by eapply log_ok_next|].
    cbn in *. rewrite Es in Hf. rewrite Eo in Ho. rewrite Ew, Ec. split_and!; [done|done|].
    rewrite Hx, last_cons. by destruct (last _).
  - destruct Ha as (Hf1 & Ei & Eo). assert (store_ok U (f_store f1)) as Hs1 by apply Hf1.
    destruct (IH Hs1) as (Hf & Ho & Hx); [by eapply log_ok_next|]. split_and!.
    + by eapply full_trans.
    + cbn. by rewrite Ho, Eo, app_assoc.
    + rewrite Hx, Ei. cbn [map]. rewrite last_cons. by destruct (last _).
Qed.

(** All of a store's index entries are right. *)
Definition indexes_exact (s : D * indexes) : Prop := forall k, U k -> exact s k.

Lemma full_indexes cs s s' : full U cs s s' -> indexes_exact s -> indexes_exact s'.
Proof.
  intros [[_ _ Hp] _ Hf] Hx k HU. destruct (touched cs k) eqn:E; auto.
Qed.

Lemma exact_lookup s kind path ws id :
  kv_inv s.1 -> no_slash ws -> no_slash id -> path_of kind = Some path -> exact s (ws +:+ path +:+ id) ->
  lookup_by_id s.1 s.2 kind path id = inr <$> store_map s !! (ws +:+ path +:+ id).
Proof.
  intros Hi Hw Hn Hp Hx. destruct (typed_entry ws id kind path Hw Hn Hp) as [_ Ee].
  unfold exact, indexed in Hx. rewrite Ee in Hx. unfold lookup_by_id. rewrite Hx. unfold store_map in *.
  destruct (kv_map s.1 !! _) as [v|] eqn:Ev; cbn; [|done]. by rewrite kv_get_spec, Ev by done.
Qed.
End entries.

(** ** Snapshots *)

Section snapshots.
Context {D : Type} `{KeyValueOk D} {J : FSMCodec} {Jok : FSMCodecOk J}.

Lemma read_keys_spec d : kv_inv d -> forall keys snapshot,
  (forall k, k ∈ keys -> is_Some (kv_map d !! k)) ->
  exists image, read_keys d keys snapshot = inr image /\
    forall k, image !! k = if decide (k ∈ keys /\ raft_key k = false) then kv_map d !! k else snapshot !! k.
Proof.
  intros Hi. induction keys as [|key keys IH]; intros snapshot Hk.
  { exists snapshot. split; [done|]. intros k. rewrite decide_False; [done|]. by intros [?%elem_of_nil _]. }
  assert (forall k, k ∈ keys -> is_Some (kv_map d !! k)) as Hk' by (intros k ?; apply Hk; by right).
  cbn [read_keys]. destruct (raft_key key) eqn:Er.
  - destruct (IH snapshot Hk') as (image & E & Hl). exists image. split; [done|]. intros k. rewrite Hl.
    apply decide_ext. rewrite elem_of_cons. naive_solver congruence.
  - destruct (Hk key) as [v Hv]; [by left|]. rewrite kv_get_spec, Hv by done.
    destruct (IH (<[key:=v]> snapshot) Hk') as (image & E & Hl). exists image. split; [done|]. intros k. rewrite Hl.
    destruct (decide (k = key)) as [->|Hne].
    + rewrite lookup_insert_eq, (decide_True (P := key ∈ key :: keys /\ _)) by (split; [by left|done]).
      by case_decide.
    + rewrite lookup_insert_ne by done. apply decide_ext. rewrite elem_of_cons. naive_solver.
Qed.

(** The image of a store: its keys outside Raft's own. *)
Lemma Snapshot_spec f : kv_inv (f_store f).1 ->
  exists image, Snapshot f = inr (MkCommand FSMSet "" "snapshot" (encodeImage image) "") /\
    forall k, image !! k = if raft_key k then None else store_map (f_store f) !! k.
Proof.
  intros Hi. unfold Snapshot. destruct (kv_list_spec (f_store f).1 "" Hi) as (keys & -> & _ & Hk).
  destruct (read_keys_spec (f_store f).1 Hi keys ∅) as (image & -> & Hl); [intros k Hin; by apply Hk|].
  exists image. split; [done|]. intros k. rewrite Hl, lookup_empty. unfold store_map.
  destruct (raft_key k); [by rewrite decide_False by naive_solver|]. case_decide as Hn; [done|].
  destruct (kv_map (f_store f).1 !! k) eqn:Ev; [|done]. destruct Hn. split; [|done]. apply Hk.
  split; [by destruct k|]. rewrite Ev. by eexists.
Qed.

(** The loop deletes everything, or some of it when it fails. *)
Lemma delete_frames_spec cs : (forall k, call_env_ok (cs k)) -> forall fuel stale d k d' err,
  length stale <= fuel -> kv_inv d -> delete_frames fuel d cs k stale = (d', err) ->
  kv_inv d' /\ (forall j, j ∉ stale -> kv_map d' !! j = kv_map d !! j) /\
  (err = None -> forall j, j ∈ stale -> kv_map d' !! j = None).
Proof.
  intros Hc. induction fuel as [|fuel IH]; intros stale d k d' err Hl Hi E; destruct stale as [|key stale];
    try (cbn in E; simplify_eq; split_and!; [done|done|intros _ j Hj; by apply elem_of_nil in Hj]);
    [cbn in Hl; lia|].
  cbn [delete_frames] in E. set (all := key :: stale) in *.
  destruct (kv_delete_many d (cs k) (take perFrame all)) as [d1 err1] eqn:Ed.
  destruct (kv_delete_many_spec d (cs k) _ d1 err1 Hi (Hc k) Ed) as [Hi1 Em].
  assert (forall j, j ∉ all -> j ∉ take perFrame all) as Htake.
  { intros j Hn Hin. apply Hn. rewrite <- (take_drop perFrame all). apply elem_of_app. by left. }
  destruct err1 as [err1|]; [simplify_eq; split_and!; [done|intros; by rewrite Em|done]|].
  assert (length (drop perFrame all) <= fuel) as Hl'.
  { rewrite length_drop. unfold perFrame. subst all. cbn [length] in *. lia. }
  destruct (IH _ d1 (S k) d' err Hl' Hi1 E) as (Hi' & Hn & Hg). split_and!; [done|..].
  - intros j Hj. rewrite Hn, Em, (lookup_filter_key (fun j => j ∉ take perFrame all)), decide_True; auto.
    intros Hin. apply Hj. rewrite <- (take_drop perFrame all). apply elem_of_app. by right.
  - intros He j. rewrite <- (take_drop perFrame all) at 1. rewrite elem_of_app.
    destruct (decide (j ∈ drop perFrame all)); [intros _; by apply Hg|]. intros [Hin|?]; [|done].
    rewrite Hn, Em, (lookup_filter_key (fun j => j ∉ take perFrame all)), decide_False by tauto. done.
Qed.

Lemma put_pairs_lookup kvs : forall m k, NoDup (map fst kvs) ->
  foldl put_pair m kvs !! k = match (list_to_map kvs : gmap string bytes) !! k with Some v => Some v | None => m !! k end.
Proof.
  induction kvs as [|[a b] kvs IH]; intros m k Hd; [done|]. cbn in Hd. apply NoDup_cons in Hd as [Ha Hd].
  cbn [foldl]. rewrite list_to_map_cons, IH by done. destruct (decide (a = k)) as [->|Hne].
  - rewrite lookup_insert_eq, not_elem_of_list_to_map_1 by done. apply lookup_insert_eq.
  - unfold put_pair. cbn. rewrite !lookup_insert_ne by done. done.
Qed.

Lemma put_pairs_absent kvs : forall m k, k ∉ map fst kvs -> foldl put_pair m kvs !! k = m !! k.
Proof.
  induction kvs as [|[a b] kvs IH]; intros m k Hn; [done|]. cbn in Hn. apply not_elem_of_cons in Hn as [Ha Hn].
  cbn [foldl]. rewrite IH by done. by apply lookup_insert_ne.
Qed.

(** Without Raft's keys. *)
Definition app_pairs (data : gmap string bytes) : list (string * bytes) :=
  filter (fun e => raft_key e.1 = false) (map_to_list data).

Lemma app_pairs_spec data k : (list_to_map (app_pairs data) : gmap string bytes) !! k = if raft_key k then None else data !! k.
Proof.
  unfold app_pairs. assert (NoDup (map fst (filter (fun e => raft_key e.1 = false) (map_to_list data)))) as Hd.
  { eapply sublist_NoDup; [apply (NoDup_fst_map_to_list data)|]. apply fmap_sublist, sublist_filter. }
  destruct (raft_key k) eqn:Er.
  - apply not_elem_of_list_to_map_1. intros ([j v] & -> & [Hj _]%list_elem_of_filter)%list_elem_of_fmap.
    cbn in *. congruence.
  - destruct (data !! k) as [v|] eqn:Ev.
    + apply elem_of_list_to_map_1; [done|]. apply list_elem_of_filter. split; [done|]. by apply elem_of_map_to_list.
    + apply not_elem_of_list_to_map_1. intros ([j v] & -> & [_ Hj]%list_elem_of_filter)%list_elem_of_fmap.
      apply elem_of_map_to_list in Hj. cbn in *. congruence.
Qed.

Lemma app_pairs_nodup data : NoDup (map fst (app_pairs data)).
Proof.
  eapply sublist_NoDup; [apply (NoDup_fst_map_to_list data)|]. apply fmap_sublist, sublist_filter.
Qed.

Lemma app_pairs_not_raft data j k : raft_key k = true -> k ∉ map fst (take j (app_pairs data)).
Proof.
  intros Hr ([i v] & -> & Hin)%list_elem_of_fmap.
  assert ((i, v) ∈ app_pairs data) as [Hi _]%list_elem_of_filter.
  { rewrite <- (take_drop j (app_pairs data)). apply elem_of_app. by left. }
  cbn in *. congruence.
Qed.

(** The image replaces the application's keys; Raft's keys are never
    touched. *)
Lemma Replace_spec d cs1 cs2 data d' err :
  kv_inv d -> (forall k, call_env_ok (cs1 k)) -> (forall k, call_env_ok (cs2 k)) ->
  ReplaceApplicationState d cs1 cs2 data = (d', err) ->
  kv_inv d' /\ (forall k, raft_key k = true -> kv_map d' !! k = kv_map d !! k) /\
  (err = None -> forall k, raft_key k = false -> kv_map d' !! k = data !! k).
Proof.
  intros Hi H1 H2 E. unfold ReplaceApplicationState in E.
  destruct (kv_list_spec d "" Hi) as (keys & El & _ & Hk). rewrite El in E.
  set (stale := filter _ keys) in E. fold (app_pairs data) in E.
  destruct (delete_frames _ _ _ _ _) as [d1 err1] eqn:Ed.
  destruct (delete_frames_spec cs1 H1 _ stale d 0 d1 err1 (le_n _) Hi Ed) as (Hi1 & Hkeep & Hgone).
  assert (forall k, raft_key k = true -> kv_map d1 !! k = kv_map d !! k) as Hr1.
  { intros k Hr. apply Hkeep. intros [[Hn _] _]%list_elem_of_filter. congruence. }
  destruct err1 as [err1|]; [by simplify_eq|].
  destruct (put_frames_spec cs2 H2 _ d1 0 [] 0%Z d' err Hi1 E) as [Hi' Hr]. cbn [app] in Hr.
  split; [done|]. split.
  - intros k Hrk. rewrite <- Hr1 by done. destruct err as [err|].
    + destruct Hr as [j ->]. by apply put_pairs_absent, app_pairs_not_raft.
    + rewrite Hr, put_pairs_lookup, app_pairs_spec, Hrk by apply app_pairs_nodup. done.
  - intros -> k Hrk. rewrite Hr, put_pairs_lookup, app_pairs_spec, Hrk by apply app_pairs_nodup.
    destruct (data !! k) as [v|] eqn:Ev; [done|]. destruct (kv_map d !! k) as [v|] eqn:Ek.
    + apply Hgone; [done|]. apply list_elem_of_filter. split; [done|]. apply Hk. split; [by destruct k|].
      rewrite Ek. by eexists.
    + destruct (decide (k ∈ stale)); [by apply Hgone|]. by rewrite Hkeep.
Qed.

(** The scan after a restore finds the entry of every key with a value. *)
Lemma rebuilt_entries d k kind id v :
  kv_inv d -> Forall layout (kv_keys d) -> (forall k1 k2, k1 ∈ kv_keys d -> k2 ∈ kv_keys d -> apart k1 k2) ->
  is_Some (kv_map d !! k) -> entry_of k = Some (kind, id, v) ->
  ids (rebuildIndexes (kv_keys d)) !! (kind, id) = Some v.
Proof.
  intros Hi Hl Ha Hk Ee. apply rebuild_ids; [done|done|]. exists k. split; [by apply kv_keys_spec|done].
Qed.

Definition text_key (k : string) : Prop :=
  Forall (fun a => (Ascii.N_of_ascii a < 128)%N) (String.list_ascii_of_string k).

(** C19: a snapshot moves the whole application state to another node. The
    snapshot of a store always succeeds; restored elsewhere it leaves, under
    every key outside raft/, exactly what the source holds there, Raft's own
    records of the target stay as they were (even when the restore fails
    half-way), and every restored resource with an index entry is found by its
    ID, provided no two keys of the tree compete for one entry. *)
Theorem snapshot_restores_state f g cs1 cs2 g' err :
  kv_inv (f_store f).1 -> kv_inv (f_store g).1 ->
  (forall k, call_env_ok (cs1 k)) -> (forall k, call_env_ok (cs2 k)) ->
  (forall k, is_Some (store_map (f_store f) !! k) -> raft_key k = false -> text_key k) ->
  exists c, Snapshot f = inr c /\ (Restore g cs1 cs2 (Value c) = (g', err) ->
    (forall k, raft_key k = true -> store_map (f_store g') !! k = store_map (f_store g) !! k) /\
    (err = None ->
      (forall k, raft_key k = false -> store_map (f_store g') !! k = store_map (f_store f) !! k) /\
      (Forall layout (kv_keys (f_store g').1) ->
       (forall k1 k2, k1 ∈ kv_keys (f_store g').1 -> k2 ∈ kv_keys (f_store g').1 -> apart k1 k2) ->
       forall ws kind path id v, no_slash ws -> no_slash id -> path_of kind = Some path ->
         raft_key (ws +:+ path +:+ id) = false ->
         store_map (f_store f) !! (ws +:+ path +:+ id) = Some v ->
         lookup_by_id (f_store g').1 (f_store g').2 kind path id = Some (inr v)))).
Proof.
  intros Hf Hg H1 H2 Htext. destruct (Snapshot_spec f Hf) as (image & Es & Hl). eexists. split; [exact Es|].
  cbn [Value]. unfold Restore. rewrite image_roundtrip; cycle 1.
  { intros k [v Hv]. rewrite Hl in Hv. destruct (raft_key k) eqn:Er; [done|]. apply Htext; [by eexists|done]. }
  destruct (f_store g) as [d x] eqn:Eg. unfold store_map at 1 2. cbn [fst].
  destruct (ReplaceApplicationState d cs1 cs2 image) as [d1 err1] eqn:Er.
  destruct (Replace_spec d cs1 cs2 image d1 err1 Hg H1 H2 Er) as (Hi & Hraft & Happ).
  destruct err1 as [err1|]; intros [= <- <-]; cbn; [done|]. split; [done|]. intros _.
  assert (forall k, raft_key k = false -> kv_map d1 !! k = store_map (f_store f) !! k) as Ha
    by (intros k Hr; rewrite Happ, Hl, Hr by done; done).
  split; [done|]. intros Hlay Hap ws kind path id v Hw Hn Hp Hrk Hv.
  destruct (typed_entry ws id kind path Hw Hn Hp) as [_ Ee]. rewrite <- Ha in Hv by done.
  unfold lookup_by_id. rewrite (rebuilt_entries d1 _ kind id ws Hi Hlay Hap (mk_is_Some _ _ Hv) Ee).
  by rewrite kv_get_spec, Hv.
Qed.
End snapshots.

(** ** The state machine implements its log *)

Section log.
Context {D : Type} `{KeyValueOk D} {J : FSMCodec}.

(** C18: the state machine refines the map its log describes. Take a log with
    increasing indexes whose commands write to tables without a handler of
    their own (judgments and the shared sign-in directory have one) and use
    keys no two of which compete for an entry of a secondary index. Feed it to
    the state machine with any failures on the way: after every transient
    failure the entry is tried again, and entries that can never be applied
    are skipped. Then the store holds exactly the result of carrying out each command once, in
    order; every secondary index entry is right; the observer was told of
    each command once, in order; and the applied index is the last entry's. *)
Theorem log_takes_effect_once (T : table_handlers (D := D)) (U : string -> Prop) f es f' :
  key_space U -> store_ok U (f_store f) -> indexes_exact U (f_store f) -> log_ok T U f es ->
  feeds T f es f' ->
  store_map (f_store f') = foldl cmd_effect (store_map (f_store f)) (concat (map entry_writes es)) /\
  indexes_exact U (f_store f') /\
  f_observed f' = f_observed f ++ concat (map entry_commands es) /\
  f_index f' = default (f_index f) (last (map Index es)).
Proof.
  intros KS Hs Hx Hl Hf. destruct (feeds_spec T U KS f es f' Hf Hs Hl) as (Hfull & Ho & Hi).
  split_and!; [apply Hfull|by eapply full_indexes|done|done].
Qed.

(** A lookup by ID alone follows the log. On a node that has applied a log
    of plain commands, whatever failed on the way, [GetSoulNoCtx] and its
    siblings for journeys, incidents, status pages, dashboards and
    maintenance windows read for an ID exactly what the commands left under
    the resource's key, and report it missing exactly when they left nothing. *)
Lemma lookups_follow_log (T : table_handlers (D := D)) (U : string -> Prop) f es f' kind path ws id :
  key_space U -> store_ok U (f_store f) -> indexes_exact U (f_store f) -> log_ok T U f es ->
  feeds T f es f' -> no_slash ws -> no_slash id -> path_of kind = Some path -> U (ws +:+ path +:+ id) ->
  lookup_by_id (f_store f').1 (f_store f').2 kind path id =
    inr <$> foldl cmd_effect (store_map (f_store f)) (concat (map entry_writes es)) !! (ws +:+ path +:+ id).
Proof.
  intros KS Hs Hx Hl Hf Hw Hn Hp HU. destruct (feeds_spec T U KS f es f' Hf Hs Hl) as (Hfull & _ & _).
  rewrite <- (fu_map _ _ _ _ Hfull). apply exact_lookup; auto; [apply Hfull|].
  by apply (full_indexes U _ _ _ Hfull Hx).
Qed.

(** One command after the other. *)
Fixpoint apply_in_order (s : D * indexes) (es : nat -> call_env) (i : nat) (cmds : list FSMCommand) :
    (D * indexes) * option db_error :=
  match cmds with
  | [] => (s, None)
  | c :: rest =>
      match ApplyFSMCommand s (es i) c with
      | (s, Some err) => (s, Some err)
      | (s, None) => apply_in_order s es (S i) rest
      end
  end.

Lemma apply_in_order_sets es : (forall i, call_env_ok (es i)) -> forall cmds s i s' err,
  kv_inv s.1 -> Forall (fun c => Op c = FSMSet) cmds -> apply_in_order s es i cmds = (s', err) ->
  match err with
  | None => store_map s' = foldl cmd_effect (store_map s) cmds /\
            s'.2 = foldl (fun x c => updateIndexForSet (Key c) x) s.2 cmds
  | Some _ => True
  end.
Proof.
  intros He. induction cmds as [|c cmds IH]; intros s i s' err Hi Ho E; [cbn in E; by simplify_eq|].
  apply Forall_cons in Ho as [Hc Ho]. cbn [apply_in_order] in E. destruct s as [d x].
  unfold ApplyFSMCommand in E. rewrite Hc in E.
  destruct (kv_put d (es i) (Key c) (Value c)) as [d1 [err1|]] eqn:Ep; [by simplify_eq|].
  destruct (kv_put_spec _ _ _ _ _ _ Hi (He i) Ep) as [Hi1 Em].
  specialize (IH _ _ _ _ (Hi1 : kv_inv (d1, updateIndexForSet (Key c) x).1) Ho E).
  destruct err; [done|]. destruct IH as [-> ->]. cbn. split; [|done]. f_equal.
  unfold store_map, cmd_effect. cbn. by rewrite Em, Hc.
Qed.

(** Writing a run of sets in few large frames is equivalent to applying
    them one by one. When both succeed the contents and all indexes are the
    same, a later set of a key winning; when the framed write fails, what it
    has written is the effect of the first commands, and the indexes are
    untouched. *)
Lemma framed_sets_equivalent s cs es cmds s1 err1 s2 err2 :
  kv_inv s.1 -> (forall k, call_env_ok (cs k)) -> (forall k, call_env_ok (es k)) ->
  Forall (fun c => Op c = FSMSet) cmds ->
  ApplyFSMSets s cs cmds = (s1, err1) -> apply_in_order s es 0 cmds = (s2, err2) ->
  kv_inv s1.1 /\
  (err1 = None -> err2 = None -> store_map s1 = store_map s2 /\ s1.2 = s2.2) /\
  (err1 <> None -> exists j, store_map s1 = foldl cmd_effect (store_map s) (take j cmds) /\ s1.2 = s.2).
Proof.
  intros Hi Hc He Ho E1 E2. destruct (ApplyFSMSets_spec s cs cmds s1 err1 Hi Hc Ho E1) as [Hi1 H1].
  pose proof (apply_in_order_sets es He cmds s 0 s2 err2 Hi Ho E2) as H2. split; [done|]. split.
  - intros -> ->. destruct H1 as [-> ->], H2 as [-> ->]. done.
  - destruct err1; [|done]. intros _. destruct H1 as [[j Hj] Hx]. by exists j.
Qed.
End log.

(** ** Examples *)

(** A toy codec: S, key, value sets a soul of workspace w; D, key deletes it;
    B makes a batch of such sets. Images are the bits of a number. *)
Definition soul_key (b : byte) : string := "w/souls/" +:+ String (Ascii.ascii_of_byte b) "".

Definition sample_command (b : bytes) : option FSMCommand :=
  match b with
  | [x53; k; v] => Some (MkCommand FSMSet "" (soul_key k) [v] "n1")
  | [x44; k] => Some (MkCommand FSMDelete "" (soul_key k) [] "n1")
  | x42 :: rest => Some (MkCommand FSMBatch "" "" rest "n1")
  | _ => None
  end.

Fixpoint sample_batch (b : bytes) : option (list FSMCommand) :=
  match b with
  | [] => Some []
  | k :: v :: rest => l ← sample_batch rest; Some (MkCommand FSMSet "" (soul_key k) [v] "" :: l)
  | _ => None
  end.

Fixpoint pos_bytes (p : positive) : bytes :=
  match p with xH => [] | xO p => x00 :: pos_bytes p | xI p => x01 :: pos_bytes p end.

Fixpoint bytes_pos (b : bytes) : positive :=
  match b with [] => xH | x00 :: b => xO (bytes_pos b) | _ :: b => xI (bytes_pos b) end.

Lemma bytes_pos_bytes p : bytes_pos (pos_bytes p) = p.
Proof. induction p; cbn; by rewrite ?IHp. Qed.

Definition byte_code (b : byte) : N := Byte.to_N b.

#[export] Instance byte_countable : Countable byte.
Proof. refine (inj_countable byte_code Byte.of_N _). by intros []. Defined.

#[export] Instance sample_fsm_codec : FSMCodec := {|
  decodeCommand := sample_command;
  decodeBatch := sample_batch;
  encodeImage m := pos_bytes (encode m);
  decodeImage b := decode (bytes_pos b);
|}.

#[export] Instance sample_fsm_codec_ok : FSMCodecOk sample_fsm_codec.
Proof. split. intros m _. cbn. by rewrite bytes_pos_bytes, countable.decode_encode. Qed.

Definition no_handlers : table_handlers (D := gmap string bytes) := Handlers (fun _ => None) (fun _ => None).

Definition sample_call : call_env := CallEnv (fun _ => sample_env) sample_env.

Definition fresh_fsm : StorageFSM (D := gmap string bytes) := MkFSM (∅, no_indexes) 0 ∅ [].

(** One soul, set at index 1, and set twice by a batch at index 2. *)
Definition sample_es : list RaftLogEntry :=
  [MkEntry 1 1 LogCommand [x53; x61; x31]; MkEntry 2 1 LogCommand [x42; x61; x32; x61; x33]].

Definition sample_keys (k : string) : Prop := entry_of k = None \/ k = "w/souls/a".

Lemma sample_key_space : key_space sample_keys.
Proof.
  split; [|by left]. intros k1 k2 [H1|H1] [H2|H2] kind id v1 v2 E1 E2; congruence.
Qed.

Lemma sample_store_ok : store_ok sample_keys (f_store fresh_fsm) /\ indexes_exact sample_keys (f_store fresh_fsm).
Proof.
  split; [split|].
  - done.
  - intros k [x Hk]. by destruct (lookup_empty_Some (M := gmap string) k x Hk).
  - intros k _. left. unfold slot. by destruct (entry_of k) as [[[? ?] ?]|].
  - intros k _. unfold exact. rewrite indexed_slot. unfold slot. by destruct (entry_of k) as [[[? ?] ?]|].
Qed.

Lemma sample_log_ok : log_ok no_handlers sample_keys fresh_fsm sample_es.
Proof.
  split; [by repeat constructor|]. repeat constructor; cbn; try (by left); by right.
Qed.

Lemma sample_feeds : exists f', feeds no_handlers fresh_fsm sample_es f'.
Proof.
  eexists. eapply (feeds_next _ _ (fun _ _ => sample_call)); [done|by vm_compute|].
  eapply (feeds_next _ _ (fun _ _ => sample_call)); [done|by vm_compute|]. apply feeds_nil.
Qed.

Lemma log_takes_effect_once_witness :
  exists f', feeds no_handlers fresh_fsm sample_es f' /\ store_map (f_store f') = {["w/souls/a" := [x33]]} /\
    f_index f' = 2%Z /\ length (f_observed f') = 3.
Proof.
  destruct sample_feeds as [f' Hf]. exists f'. split; [done|].
  destruct (log_takes_effect_once no_handlers sample_keys fresh_fsm sample_es f' sample_key_space
    (proj1 sample_store_ok) (proj2 sample_store_ok) sample_log_ok Hf) as (-> & _ & -> & ->).
  split_and!; by vm_compute.
Defined.

Lemma lookups_follow_log_witness :
  exists f', feeds no_handlers fresh_fsm sample_es f' /\
    lookup_by_id (f_store f').1 (f_store f').2 soulIndex "/souls/" "a" = Some (inr [x33]).
Proof.
  destruct sample_feeds as [f' Hf]. exists f'. split; [done|].
  rewrite (lookups_follow_log no_handlers sample_keys fresh_fsm sample_es f' soulIndex "/souls/" "w" "a"
    sample_key_space (proj1 sample_store_ok) (proj2 sample_store_ok) sample_log_ok Hf);
    [by vm_compute|by repeat split..|by right].
Defined.

Definition two_sets : list FSMCommand :=
  [MkCommand FSMSet "" "w/souls/a" [x31] ""; MkCommand FSMSet "" "w/souls/a" [x32] ""].

Definition set_framed := ApplyFSMSets ((∅ : gmap string bytes), no_indexes) (fun _ => sample_call) two_sets.
Definition set_in_order := apply_in_order ((∅ : gmap string bytes), no_indexes) (fun _ => sample_call) 0 two_sets.

Lemma framed_sets_equivalent_witness :
  set_framed.2 = None /\ set_in_order.2 = None /\ store_map set_framed.1 = store_map set_in_order.1.
Proof.
  destruct (framed_sets_equivalent ((∅ : gmap string bytes), no_indexes) (fun _ => sample_call)
    (fun _ => sample_call) two_sets set_framed.1 set_framed.2 set_in_order.1 set_in_order.2) as (_ & Hs & _);
    [done|done|done|by repeat constructor|apply surjective_pairing|apply surjective_pairing|].
  split_and!; [by vm_compute..|]. apply Hs; by vm_compute.
Defined.

Definition source_fsm : StorageFSM (D := gmap string bytes) :=
  MkFSM ({["w/souls/a" := [x31]]}, no_indexes) 0 ∅ [].

Definition target_fsm : StorageFSM (D := gmap string bytes) :=
  MkFSM (<["raft/log/1":=[x01]]> {["w/souls/b" := [x32]]}, no_indexes) 0 ∅ [].

Definition source_image : FSMCommand :=
  match Snapshot source_fsm with inr c => c | inl _ => MkCommand FSMSet "" "" [] "" end.

Definition restored : StorageFSM (D := gmap string bytes) * option restore_error :=
  Restore target_fsm (fun _ => sample_call) (fun _ => sample_call) (Value source_image).

Lemma restored_ok : restored.2 = None.
Proof. by vm_compute. Qed.

Lemma restored_keys : kv_keys (f_store restored.1).1 ≡ₚ ["raft/log/1"; "w/souls/a"].
Proof. vm_compute. first [reflexivity|constructor]. Qed.

Lemma restored_sample k : k ∈ ["raft/log/1"; "w/souls/a"] -> sample_keys k.
Proof. intros [->|[->|?%elem_of_nil]%elem_of_cons]%elem_of_cons; [by left; vm_compute|by right|done]. Qed.

Lemma snapshot_restores_state_witness :
  store_map (f_store restored.1) !! "raft/log/1" = Some [x01] /\
  store_map (f_store restored.1) !! "w/souls/b" = None /\
  lookup_by_id (f_store restored.1).1 (f_store restored.1).2 soulIndex "/souls/" "a" = Some (inr [x31]).
Proof.
  destruct (snapshot_restores_state source_fsm target_fsm (fun _ => sample_call) (fun _ => sample_call)
    restored.1 restored.2) as (c & Ec & Hr); [done..| |].
  { intros k [v Hv] _. destruct (proj1 (lookup_singleton_Some (M := gmap string) _ k _ v) Hv) as [<- _]. by repeat constructor. }
  assert (c = source_image) as -> by (unfold source_image; by rewrite Ec).
  destruct (Hr (surjective_pairing _)) as [H1 H2]. destruct (H2 restored_ok) as [H3 H4].
  split_and!; [by rewrite H1|by rewrite H3|]. apply H4 with "w";
    [| |by repeat split|by repeat split|reflexivity|by vm_compute|by vm_compute].
  - rewrite restored_keys. repeat constructor; by vm_compute.
  - intros k1 k2. rewrite !restored_keys. intros H5%restored_sample H6%restored_sample.
    by apply (ks_apart _ sample_key_space).
Defined.
