(* ===== verification/Flap.v ===== *)
(** * Confirmation retries and flap detection

    src/internal/core/flap.go and src/internal/probe/retry_flap.go, with the
    retry loop of [judgeSoul] (src/internal/probe/engine.go): how often a
    failed check is repeated before it is recorded, and when a soul whose
    status keeps changing is muted. Times and durations are nanoseconds. *)
From stdpp Require Import base strings list sorting.
From Stdlib Require Import ZArith Lia.
From S2P Require Import Prelude.

Open Scope Z_scope.

Definition SoulStatus := string.
Definition SoulAlive : SoulStatus := "alive".
Definition SoulDead : SoulStatus := "dead".
Definition SoulUnknown : SoulStatus := "unknown".

(** ** Settings *)

Definition MaxSoulRetries : Z := 5.
Definition DefaultRetryInterval : Z := 5000000000.
Definition MinRetryInterval : Z := 100000000.
Definition defaultCheckInterval : Z := 60000000000.
Definition MinSoulInterval : Z := 1000000000.

Record soul_retry := SoulRetry {
  sr_heartbeat : bool;
  sr_Retries : Z;
  sr_RetryInterval : Z;
  sr_Weight : Z;
}.

Definition EffectiveRetryInterval (s : soul_retry) : Z :=
  if decide (sr_RetryInterval s > 0) then sr_RetryInterval s else DefaultRetryInterval.

Definition EffectiveRetries (s : soul_retry) : Z :=
  if sr_heartbeat s || bool_decide (sr_Retries s <= 0) then 0 else
  if decide (sr_Retries s > MaxSoulRetries) then MaxSoulRetries else sr_Retries s.

Definition validateRetries (s : soul_retry) : bool :=
  if decide (sr_Retries s < 0 \/ sr_Retries s > MaxSoulRetries) then false else
  let ri := sr_RetryInterval s in
  if decide (ri < 0) then false else
  if decide (ri = 0) then true else
  if decide (ri < MinRetryInterval) then false else
  let interval := if decide (sr_Weight s < MinSoulInterval) then defaultCheckInterval else sr_Weight s in
  negb (bool_decide (ri >= interval)).

Definition DefaultFlapThreshold : Z := 5.
Definition DefaultFlapWindow : Z := 600000000000.
Definition MinFlapThreshold : Z := 2.

Record FlapDetectionConfig := MkFlapConfig {
  fc_Enabled : bool;
  fc_Threshold : Z;
  fc_Window : Z;
}.

Record FlapSettings := MkFlapSettings {
  Enabled : bool;
  Threshold : Z;
  Window : Z;
}.

Definition ResolveFlapSettings (soul : option FlapDetectionConfig) (global : FlapDetectionConfig) :
    FlapSettings :=
  let thr := if decide (fc_Threshold global > 0) then fc_Threshold global else DefaultFlapThreshold in
  let win := if decide (fc_Window global > 0) then fc_Window global else DefaultFlapWindow in
  let '(en, thr, win) :=
    match soul with
    | None => (fc_Enabled global, thr, win)
    | Some s => (fc_Enabled s, if decide (fc_Threshold s > 0) then fc_Threshold s else thr,
                 if decide (fc_Window s > 0) then fc_Window s else win)
    end in
  MkFlapSettings en (if decide (thr < MinFlapThreshold) then MinFlapThreshold else thr) win.

Definition StopBelow (f : FlapSettings) : Z := (Threshold f + 1) / 2.

(** ** The retry loop of [judgeSoul] *)

(** The outcome of one attempt. *)
Inductive attempt := AttemptStatus (s : SoulStatus) | AttemptError | AttemptNone.

Definition attemptFailed (a : attempt) : bool :=
  match a with
  | AttemptStatus s => bool_decide (s = SoulDead)
  | AttemptError => true
  | AttemptNone => false
  end.

(** What the loop meets: the outcome of each attempt, the clock after it,
    whether the context has ended after it, and during the wait that follows. *)
Record probe_env := ProbeEnv {
  pe_outcome : nat -> attempt;
  pe_now : nat -> Z;
  pe_ended : nat -> bool;
  pe_wait_ended : nat -> bool;
}.

(** [attempts] are done already. [None]: the check was cancelled in a wait. *)
Fixpoint attempt_loop (fuel : nat) (s : soul_retry) (deadline : Z) (p : probe_env) (attempts : nat) :
    option (nat * attempt) :=
  match fuel with
  | O => None
  | S fuel =>
      let attempts := S attempts in
      let a := pe_outcome p attempts in
      if decide (Z.of_nat attempts > EffectiveRetries s) then Some (attempts, a) else
      if negb (attemptFailed a) || pe_ended p attempts then Some (attempts, a) else
      if decide (deadline <= pe_now p attempts + EffectiveRetryInterval s) then Some (attempts, a) else
      if pe_wait_ended p attempts then None else
      attempt_loop fuel s deadline p attempts
  end.

Definition run_attempts (s : soul_retry) (start interval : Z) (p : probe_env) : option (nat * attempt) :=
  attempt_loop (S (Z.to_nat MaxSoulRetries)) s (start + interval) p 0.

(** ** Flap detection *)

Record soulRunner := SoulRunner {
  lastStatus : SoulStatus;
  flapTransitions : list Z;
  flapping : bool;
  flapBaseline : SoulStatus;
  flapSteady : Z;
}.

Inductive flap_change := NoChange | FlapStarted | FlapStopped.

Definition flap_stop (r : soulRunner) : soulRunner * (bool * flap_change * SoulStatus) :=
  (SoulRunner (lastStatus r) [] false "" 0, (false, FlapStopped, flapBaseline r)).

(** The leading transitions at or before the cutoff. *)
Fixpoint expired (cutoff : Z) (ts : list Z) : nat :=
  match ts with
  | t :: rest => if decide (t <= cutoff) then S (expired cutoff rest) else O
  | [] => O
  end.

Definition observeFlap (r : soulRunner) (status : SoulStatus) (now : Z) (cfg : FlapSettings) :
    soulRunner * (bool * flap_change * SoulStatus) :=
  if negb (Enabled cfg) then
    if flapping r then flap_stop r
    else (SoulRunner (lastStatus r) [] (flapping r) (flapBaseline r) (flapSteady r), (false, NoChange, ""))
  else
  let prev := lastStatus r in
  let '(ts, steady) :=
    if decide (prev <> "" /\ prev <> SoulUnknown /\ prev <> status)
    then (flapTransitions r ++ [now], 0) else (flapTransitions r, flapSteady r + 1) in
  let cutoff := now - Window cfg in
  let drop_ := expired cutoff ts in
  let keep := (length ts - drop_)%nat in
  let drop_ := if decide (Z.of_nat keep > Threshold cfg)
               then (length ts - Z.to_nat (Threshold cfg))%nat else drop_ in
  let ts := drop drop_ ts in
  let n := Z.of_nat (length ts) in
  let r := SoulRunner prev ts (flapping r) (flapBaseline r) steady in
  if negb (flapping r) && bool_decide (Threshold cfg <= n) then
    (SoulRunner prev ts true prev steady, (true, FlapStarted, prev))
  else if flapping r && bool_decide (n < StopBelow cfg \/ Threshold cfg <= steady) then flap_stop r
  else if flapping r then (r, (true, NoChange, flapBaseline r))
  else (r, (false, NoChange, "")).

Definition swapStatus (r : soulRunner) (s : SoulStatus) : soulRunner * SoulStatus :=
  (SoulRunner s (flapTransitions r) (flapping r) (flapBaseline r) (flapSteady r), lastStatus r).

(** The latest stored judgment of a soul. *)
Record stored_judgment := StoredJudgment {
  sj_Status : SoulStatus;
  sj_Timestamp : Z;
  sj_Flapping : bool;
  sj_FlapBaseline : SoulStatus;
}.

Definition restoreFlap (r : soulRunner) (latest : option stored_judgment) (cfg : FlapSettings) : soulRunner :=
  match latest with
  | None => r
  | Some j =>
      if negb (sj_Flapping j) then r else
      if bool_decide (lastStatus r <> "") || flapping r then r else
      let seed := if decide (StopBelow cfg < 1) then 1 else StopBelow cfg in
      SoulRunner (sj_Status j) (replicate (Z.to_nat seed) (sj_Timestamp j)) true (sj_FlapBaseline j)
        (flapSteady r)
  end.

Definition fresh_runner : soulRunner := SoulRunner "" [] false "" 0.

(** ** Runs *)

(** One judgment: the detector sees the status, then it becomes the last. *)
Definition judge (cfg : FlapSettings) (r : soulRunner) (status : SoulStatus) (now : Z) :
    soulRunner * (bool * flap_change * SoulStatus) :=
  let '(r, out) := observeFlap r status now cfg in ((swapStatus r status).1, out).

Fixpoint run (cfg : FlapSettings) (r : soulRunner) (obs : list (SoulStatus * Z)) :
    soulRunner * list (bool * flap_change * SoulStatus) :=
  match obs with
  | [] => (r, [])
  | (s, now) :: rest =>
      let '(r, out) := judge cfg r s now in
      let '(r, outs) := run cfg r rest in (r, out :: outs)
  end.

(** ** A reference detector *)

(** It keeps every status change since flapping last ended and counts those
    inside the window. *)
Record reference := Reference {
  rf_last : SoulStatus;
  rf_changes : list Z;
  rf_flapping : bool;
  rf_baseline : SoulStatus;
  rf_steady : Z;
}.

Definition in_window (cutoff : Z) (ts : list Z) : list Z := filter (fun t => cutoff < t) ts.

Definition ref_judge (cfg : FlapSettings) (r : reference) (status : SoulStatus) (now : Z) :
    reference * (bool * flap_change * SoulStatus) :=
  let prev := rf_last r in
  let changed := bool_decide (prev <> "" /\ prev <> SoulUnknown /\ prev <> status) in
  let changes := if changed then rf_changes r ++ [now] else rf_changes r in
  let steady := if changed then 0 else rf_steady r + 1 in
  let n := Z.of_nat (length (in_window (now - Window cfg) changes)) in
  if rf_flapping r then
    if decide (n < StopBelow cfg \/ Threshold cfg <= steady)
    then (Reference status [] false "" 0, (false, FlapStopped, rf_baseline r))
    else (Reference status changes true (rf_baseline r) steady, (true, NoChange, rf_baseline r))
  else
    if decide (Threshold cfg <= n)
    then (Reference status changes true prev steady, (true, FlapStarted, prev))
    else (Reference status changes false (rf_baseline r) steady, (false, NoChange, "")).

Fixpoint ref_run (cfg : FlapSettings) (r : reference) (obs : list (SoulStatus * Z)) :
    list (bool * flap_change * SoulStatus) :=
  match obs with
  | [] => []
  | (s, now) :: rest => let '(r, out) := ref_judge cfg r s now in out :: ref_run cfg r rest
  end.

(** ** The trimmed list *)

Definition lastn (n : nat) (l : list Z) : list Z := drop (length l - n) l.

Lemma lastn_all n l : (length l <= n)%nat -> lastn n l = l.
Proof. intros H. unfold lastn. by replace (length l - n)%nat with 0%nat by lia. Qed.

Lemma lastn_app n l1 l2 : (n <= length l2)%nat -> lastn n (l1 ++ l2) = lastn n l2.
Proof.
  intros H. unfold lastn. rewrite length_app.
  replace (length l1 + length l2 - n)%nat with (length l1 + (length l2 - n))%nat by lia.
  by rewrite <- drop_drop, drop_app_length.
Qed.

Lemma length_lastn n l : length (lastn n l) = Nat.min n (length l).
Proof. unfold lastn. rewrite length_drop. lia. Qed.

Lemma lastn_split n l : exists p, l = p ++ lastn n l.
Proof. exists (take (length l - n) l). unfold lastn. by rewrite take_drop. Qed.

(** Trimming a sorted list at the cutoff is filtering it. *)
Lemma expired_spec cutoff ts :
  StronglySorted Z.le ts -> drop (expired cutoff ts) ts = in_window cutoff ts /\
    Forall (fun t => t <= cutoff) (take (expired cutoff ts) ts).
Proof.
  induction 1 as [|t ts Hs [IH1 IH2] Ht]; [by split|]. unfold in_window in *. simpl.
  rewrite filter_cons. destruct (decide (t <= cutoff)) as [Hc|Hc].
  - rewrite decide_False by lia. simpl. split; [done|by constructor].
  - rewrite decide_True by lia. simpl. split; [|constructor]. f_equal. symmetry. apply filter_all.
    eapply Forall_impl; [exact Ht|]. simpl. lia.
Qed.

Lemma trim_spec cutoff T ts :
  StronglySorted Z.le ts ->
  let drop_ := expired cutoff ts in
  drop (if decide (Z.of_nat (length ts - drop_) > Z.of_nat T) then (length ts - T)%nat else drop_) ts
  = lastn T (in_window cutoff ts).
Proof.
  intros Hs drop_. destruct (expired_spec cutoff ts Hs) as [Hw _]. fold drop_ in Hw.
  assert (length (in_window cutoff ts) = (length ts - drop_)%nat) as Hl by (by rewrite <- Hw, length_drop).
  case_decide.
  - rewrite <- Hw. unfold lastn. rewrite length_drop, drop_drop. f_equal. lia.
  - rewrite lastn_all by lia. done.
Qed.

(** Forgetting changes that are out of the window, or beyond the last [T],
    never matters later. *)
Lemma window_suffix c T p s :
  StronglySorted Z.le (p ++ s) -> Forall (fun x => x <= c \/ (T <= length s)%nat) p ->
  lastn T (in_window c (p ++ s)) = lastn T (in_window c s).
Proof.
  intros Hs Hp. unfold in_window. rewrite filter_app.
  destruct (filter (fun t => c < t) p) as [|x q] eqn:E; [done|].
  assert (x ∈ p /\ c < x) as [Hx Hc].
  { assert (x ∈ filter (fun t => c < t) p) as H by (rewrite E; by left).
    apply list_elem_of_filter in H. tauto. }
  rewrite Forall_forall in Hp. destruct (Hp x Hx) as [?|HT]; [lia|].
  rewrite (filter_all _ s).
  - by apply lastn_app.
  - apply Forall_forall. intros y Hy. pose proof (StronglySorted_app_1_elem_of _ _ _ x y Hs Hx Hy). lia.
Qed.

(** What is missing from the trimmed list is out of the window, or the list
    is full. *)
Lemma trimmed_rest c T h :
  StronglySorted Z.le h ->
  exists p, h = p ++ lastn T (in_window c h) /\
    Forall (fun x => x <= c \/ (T <= length (lastn T (in_window c h)))%nat) p.
Proof.
  intros Hs. destruct (expired_spec c h Hs) as [Hw He].
  destruct (lastn_split T (in_window c h)) as [q Hq].
  exists (take (expired c h) h ++ q). split.
  - rewrite <- app_assoc, <- Hq, <- Hw. by rewrite take_drop.
  - apply Forall_app. split; [eapply Forall_impl; [exact He|]; simpl; lia|].
    destruct q as [|x q]; [constructor|]. apply Forall_forall. intros y _. right.
    rewrite length_lastn. apply (f_equal length) in Hq. rewrite length_app, length_lastn in Hq.
    simpl in Hq. lia.
Qed.

Lemma window_step c c' T h now :
  StronglySorted Z.le (h ++ now) -> c <= c' ->
  lastn T (in_window c' (lastn T (in_window c h) ++ now)) = lastn T (in_window c' (h ++ now)).
Proof.
  intros Hs Hc. assert (StronglySorted Z.le h) as Hh by (by eapply StronglySorted_app_1_l).
  destruct (trimmed_rest c T h Hh) as (p & Ep & Hp). symmetry.
  rewrite Ep at 1. rewrite <- app_assoc. apply window_suffix.
  - rewrite app_assoc, <- Ep. done.
  - eapply Forall_impl; [exact Hp|]. simpl. intros x [?|?]; [left; lia|right]. rewrite length_app. lia.
Qed.

(** ** Equivalence *)

(** The runner against the reference, [c] being the last cutoff and [t] a
    bound on the times seen. *)
Record flap_sim (T : nat) (c t : Z) (r : soulRunner) (f : reference) : Prop := {
  fs_last : lastStatus r = rf_last f;
  fs_flapping : flapping r = rf_flapping f;
  fs_baseline : flapBaseline r = rf_baseline f;
  fs_steady : flapSteady r = rf_steady f;
  fs_sorted : StronglySorted Z.le (rf_changes f);
  fs_bound : Forall (fun x => x <= t) (rf_changes f);
  fs_list : flapTransitions r = lastn T (in_window c (rf_changes f));
}.

Lemma count_min T c l (n := Z.of_nat (length (lastn T (in_window c l)))) x :
  x <= Z.of_nat T -> (n < x <-> Z.of_nat (length (in_window c l)) < x).
Proof. intros Hx. subst n. rewrite length_lastn. lia. Qed.

Lemma sorted_snoc l x : StronglySorted Z.le l -> Forall (fun y => y <= x) l -> StronglySorted Z.le (l ++ [x]).
Proof.
  intros Hs Hb. apply StronglySorted_app_2; [|done|repeat constructor].
  intros y z Hy Hz%list_elem_of_singleton. subst z. rewrite Forall_forall in Hb. by apply Hb.
Qed.

Lemma judge_sim cfg r f c t s now :
  Enabled cfg = true -> 0 < Threshold cfg -> t <= now -> c <= now - Window cfg ->
  flap_sim (Z.to_nat (Threshold cfg)) c t r f ->
  (judge cfg r s now).2 = (ref_judge cfg f s now).2 /\
  flap_sim (Z.to_nat (Threshold cfg)) (now - Window cfg) now (judge cfg r s now).1 (ref_judge cfg f s now).1.
Proof.
  intros He HT Ht Hc [H1 H2 H3 H4 H5 H6 H7]. unfold judge, observeFlap, ref_judge. rewrite He. cbn [negb].
  rewrite H1. set (T := Z.to_nat (Threshold cfg)) in *. set (c' := now - Window cfg) in *.
  set (P := rf_last f <> "" /\ _). rewrite bool_decide_decide.
  set (h := if (if decide P then true else false) then rf_changes f ++ [now] else rf_changes f).
  assert (StronglySorted Z.le h /\ Forall (fun x => x <= now) h) as [Hh Hb].
  { assert (Forall (fun x => x <= now) (rf_changes f)) by (eapply Forall_impl; [exact H6|]; simpl; lia).
    subst h. destruct (decide P); [|done]. split; [by apply sorted_snoc|].
    apply Forall_app_2; [done|by constructor]. }
  set (ts := if decide P then flapTransitions r ++ [now] else flapTransitions r).
  assert (lastn T (in_window c' ts) = lastn T (in_window c' h) /\ StronglySorted Z.le ts) as [Hts Hs].
  { assert (ts = lastn T (in_window c (rf_changes f)) ++ (if decide P then [now] else [])) as ->
      by (subst ts; rewrite H7; destruct (decide P); by rewrite ?app_nil_r).
    assert (h = rf_changes f ++ (if decide P then [now] else [])) as Eh
      by (subst h; destruct (decide P); by rewrite ?app_nil_r).
    rewrite Eh in *. split; [by apply window_step|].
    destruct (trimmed_rest c T _ H5) as (p & Ep & _). rewrite Ep, <- app_assoc in Hh.
    by eapply StronglySorted_app_1_r. }
  assert ((if decide P then (flapTransitions r ++ [now], 0) else (flapTransitions r, flapSteady r + 1))
    = (ts, if (if decide P then true else false) then 0 else rf_steady f + 1)) as ->
    by (subst ts; rewrite H4; by destruct (decide P)).
  cbv zeta. set (steady := if (if decide P then true else false) then 0 else _).
  pose proof (trim_spec c' T ts Hs) as Htr. cbv zeta in Htr.
  replace (Z.of_nat T) with (Threshold cfg) in Htr by lia. rewrite Htr, Hts.
  cbn [flapping]. rewrite H2, H3.
  assert (StopBelow cfg <= Z.of_nat T) as Hsb
    by (unfold StopBelow; subst T; rewrite Z2Nat.id by lia; apply Z.lt_succ_r, Z.div_lt_upper_bound; lia).
  pose proof (count_min T c' h (StopBelow cfg) Hsb) as Hn1.
  pose proof (count_min T c' h (Threshold cfg) ltac:(lia)) as Hn2. cbv zeta in Hn1, Hn2.
  destruct (rf_flapping f); cbn [negb andb].
  - rewrite bool_decide_decide.
    destruct (decide (Z.of_nat (length (lastn T (in_window c' h))) < StopBelow cfg \/ Threshold cfg <= steady)) as [Hd|Hd].
    + rewrite decide_True by tauto. split; [done|].
      constructor; try done; by (constructor || (unfold lastn; rewrite drop_nil)).
    + rewrite decide_False by tauto. split; [done|]. by constructor.
  - rewrite bool_decide_decide.
    destruct (decide (Threshold cfg <= Z.of_nat (length (lastn T (in_window c' h))))) as [Hd|Hd].
    + rewrite decide_True by lia. split; [done|]. by constructor.
    + rewrite decide_False by lia. split; [done|]. by constructor.
Qed.

Lemma run_sim cfg obs : forall c t r f,
  Enabled cfg = true -> 0 < Threshold cfg -> StronglySorted Z.le (map snd obs) ->
  Forall (fun o => t <= o.2 /\ c <= o.2 - Window cfg) obs ->
  flap_sim (Z.to_nat (Threshold cfg)) c t r f -> (run cfg r obs).2 = ref_run cfg f obs.
Proof.
  induction obs as [|[s now] obs IH]; intros c t r f He HT Hs Hall Hsim; [done|]. simpl in *.
  apply Forall_cons in Hall as [[Ht Hc] Hall]. apply StronglySorted_inv in Hs as [Hs Hle].
  destruct (judge_sim cfg r f c t s now He HT Ht Hc Hsim) as [Eo Hsim'].
  destruct (judge cfg r s now) as [r' o], (ref_judge cfg f s now) as [f' o']. cbn [fst snd] in *. subst o'.
  specialize (IH (now - Window cfg) now r' f' He HT Hs). destruct (run cfg r' obs) as [r2 outs]. cbn [snd] in *.
  f_equal. apply IH; [|exact Hsim']. rewrite Forall_map in Hle.
  eapply Forall_impl; [exact Hle|]. intros [s' t']. simpl. lia.
Qed.

(** C12: the flap detector keeps only the newest changes inside the window,
    but decides as if it kept all of them. For any settings and any sequence of
    judgments with non-decreasing times, it reports the same flags, changes and
    baselines as the reference that counts every status change since flapping
    last ended. *)
Theorem flap_matches_reference cfg obs :
  Enabled cfg = true -> 0 < Threshold cfg -> StronglySorted Z.le (map snd obs) ->
  (run cfg fresh_runner obs).2 = ref_run cfg (Reference "" [] false "" 0) obs.
Proof.
  intros He HT Hs. destruct obs as [|[s0 t0] obs]; [done|].
  apply (run_sim cfg _ (t0 - Window cfg) t0); [done|done|done| |].
  - simpl in Hs. apply StronglySorted_inv in Hs as [_ Hle]. rewrite Forall_map in Hle.
    constructor; [simpl; lia|]. eapply Forall_impl; [exact Hle|]. intros [s t]. simpl. lia.
  - constructor; try done; by (constructor || (unfold lastn; rewrite drop_nil)).
Qed.

(** ** Notifications *)

(** What can happen to a runner: judgments of two checks may interleave. *)
Inductive runner_step :=
| StepObserve (status : SoulStatus) (now : Z) (cfg : FlapSettings)
| StepSwap (status : SoulStatus).

(** The changes reported by a sequence of steps, and whether it ends flapping. *)
Fixpoint changes (r : soulRunner) (steps : list runner_step) : list flap_change * bool :=
  match steps with
  | [] => ([], flapping r)
  | StepObserve s now cfg :: rest =>
      let '(r', (_, change, _)) := observeFlap r s now cfg in
      let '(cs, fl) := changes r' rest in
      (match change with NoChange => cs | _ => change :: cs end, fl)
  | StepSwap s :: rest => changes (swapStatus r s).1 rest
  end.

(** Started and stopped in turn, from state [on] to state [off]. *)
Fixpoint alternates (on : bool) (cs : list flap_change) : option bool :=
  match cs with
  | [] => Some on
  | FlapStarted :: rest => if on then None else alternates true rest
  | FlapStopped :: rest => if on then alternates false rest else None
  | NoChange :: _ => None
  end.

Lemma observe_change r s now cfg :
  let '(r', (fl, change, _)) := observeFlap r s now cfg in
  flapping r' = fl /\
  match change with
  | NoChange => flapping r' = flapping r
  | FlapStarted => flapping r = false /\ flapping r' = true
  | FlapStopped => flapping r = true /\ flapping r' = false
  end.
Proof.
  unfold observeFlap, flap_stop. destruct (Enabled cfg); cbn [negb].
  - cbv zeta. destruct (if decide _ then _ else _) as [ts steady]. cbn [flapping].
    destruct (flapping r); cbn [negb andb]; destruct (bool_decide _); by split_and!.
  - destruct (flapping r) eqn:E; cbn; by rewrite ?E.
Qed.

(** Notifications come in pairs. However the checks of a soul
    interleave and whatever its settings become, "started" and "stopped" are
    reported strictly in turn, and the last one reported says whether the soul
    is flapping now. For a runner restored while the soul was flapping the
    first one is the owed "stopped". *)
Lemma flap_notifications_alternate latest cfg steps :
  let r := restoreFlap fresh_runner latest cfg in
  let '(cs, fl) := changes r steps in alternates (flapping r) cs = Some fl.
Proof.
  cbv zeta. generalize (restoreFlap fresh_runner latest cfg). intros r. revert r.
  induction steps as [|[s now c|s] steps IH]; intros r; simpl.
  - done.
  - pose proof (observe_change r s now c) as Ho.
    destruct (observeFlap r s now c) as [r' [[fl change] b]]. destruct Ho as [_ Ho].
    specialize (IH r'). destruct (changes r' steps) as [cs fl'].
    destruct change; simpl; [by rewrite <- Ho|..]; destruct Ho as [Ho1 Ho2]; rewrite Ho1;
      by rewrite Ho2 in IH.
  - apply (IH (swapStatus r s).1).
Qed.

(** ** A soul that settles *)

Lemma judge_steady cfg r s now :
  Enabled cfg = true -> lastStatus r = s -> 0 < Threshold cfg ->
  lastStatus (judge cfg r s now).1 = s /\
  (flapping r = true -> flapping (judge cfg r s now).1 = true ->
     flapSteady (judge cfg r s now).1 = flapSteady r + 1 /\ flapSteady r + 1 < Threshold cfg) /\
  (flapTransitions r = [] -> flapping r = false ->
     flapTransitions (judge cfg r s now).1 = [] /\ flapping (judge cfg r s now).1 = false).
Proof.
  intros He Hl HT. unfold judge, observeFlap. rewrite He, Hl. cbn [negb].
  rewrite decide_False by tauto. cbv zeta. cbn [flapping]. split_and!.
  - destruct (flapping r); cbn [negb andb]; destruct (bool_decide _); done.
  - intros ->. cbn [negb andb]. destruct (bool_decide _) eqn:Eb; [done|].
    apply bool_decide_eq_false in Eb. simpl. intros _. split; [done|]. lia.
  - intros -> ->. rewrite drop_nil. cbn [negb andb length]. rewrite bool_decide_eq_false_2 by (simpl; lia). done.
Qed.

Lemma observe_stopped cfg r s now :
  flapping r = true -> flapping (judge cfg r s now).1 = false ->
  flapTransitions (judge cfg r s now).1 = [].
Proof.
  intros Hf. unfold judge, observeFlap. rewrite Hf. destruct (Enabled cfg); cbn [negb]; [|done].
  cbv zeta. destruct (if decide _ then _ else _) as [ts steady]. cbn [flapping].
  cbn [negb andb]. by destruct (bool_decide _).
Qed.

Lemma settled_stays cfg s obs : forall r,
  Enabled cfg = true -> 0 < Threshold cfg -> lastStatus r = s ->
  flapTransitions r = [] -> flapping r = false -> Forall (fun o => o.1 = s) obs ->
  flapping (run cfg r obs).1 = false.
Proof.
  induction obs as [|[s' now] obs IH]; intros r He HT Hl Ht Hf Hall; [done|]. simpl.
  apply Forall_cons in Hall as [Es Hall]. simpl in Es. subst s'.
  destruct (judge_steady cfg r s now He Hl HT) as (H1 & _ & H3). destruct (H3 Ht Hf) as [H4 H5].
  destruct (judge cfg r s now) as [r' o]. specialize (IH r' He HT H1 H4 H5 Hall).
  by destruct (run cfg r' obs).
Qed.

Lemma settles_within cfg s obs : forall r,
  Enabled cfg = true -> 0 < Threshold cfg -> lastStatus r = s -> flapping r = true ->
  Threshold cfg <= flapSteady r + Z.of_nat (length obs) -> flapSteady r < Threshold cfg ->
  Forall (fun o => o.1 = s) obs -> flapping (run cfg r obs).1 = false.
Proof.
  induction obs as [|[s' now] obs IH]; intros r He HT Hl Hf Hlen Hst Hall; simpl in *; [lia|].
  apply Forall_cons in Hall as [Es Hall]. simpl in Es. subst s'.
  destruct (judge_steady cfg r s now He Hl HT) as (H1 & H2 & _).
  pose proof (observe_stopped cfg r s now Hf) as H3.
  destruct (judge cfg r s now) as [r' o]. cbn [fst] in *.
  assert (flapping (run cfg r' obs).1 = false) as Hr; [|by destruct (run cfg r' obs)].
  destruct (flapping r') eqn:Ef.
  - destruct (H2 Hf eq_refl) as [E Hlt]. apply IH; [done..|lia|lia|done].
  - apply (settled_stays cfg s); auto.
Qed.

(** A soul that goes down for good is not muted for a whole window: from
    any flapping state, once [Threshold] judgments in a row agree with the last
    status, the soul is no longer flapping. *)
Lemma flap_settles cfg r obs :
  Enabled cfg = true -> flapping r = true -> 0 <= flapSteady r < Threshold cfg ->
  Threshold cfg <= Z.of_nat (length obs) -> Forall (fun o => o.1 = lastStatus r) obs ->
  flapping (run cfg r obs).1 = false.
Proof. intros He Hf Hst Hlen Hall. apply (settles_within cfg (lastStatus r)); auto; lia. Qed.

(** ** Confirmation retries *)

(** Attempt [j] is followed by a wait and, once the wait is over, a retry. *)
Definition waits (s : soul_retry) (deadline : Z) (p : probe_env) (j : nat) : Prop :=
  Z.of_nat j <= EffectiveRetries s /\ attemptFailed (pe_outcome p j) = true /\ pe_ended p j = false /\
  pe_now p j + EffectiveRetryInterval s < deadline.

Lemma attempt_loop_spec s deadline p : forall fuel attempts,
  EffectiveRetries s < Z.of_nat (attempts + fuel) -> Z.of_nat attempts <= EffectiveRetries s ->
  match attempt_loop fuel s deadline p attempts with
  | None => exists k, (attempts < k)%nat /\ waits s deadline p k /\ pe_wait_ended p k = true /\
      (forall j, (attempts < j < k)%nat -> waits s deadline p j /\ pe_wait_ended p j = false)
  | Some (k, a) => (attempts < k)%nat /\ Z.of_nat k <= EffectiveRetries s + 1 /\ a = pe_outcome p k /\
      (forall j, (attempts < j < k)%nat -> waits s deadline p j /\ pe_wait_ended p j = false) /\
      ~ waits s deadline p k
  end.
Proof.
  induction fuel as [|fuel IH]; intros attempts Hf Ha; [lia|]. cbn [attempt_loop]. cbv zeta.
  destruct (decide (Z.of_nat (S attempts) > EffectiveRetries s)).
  { split_and!; [lia|lia|done|lia|]. unfold waits. lia. }
  destruct (attemptFailed (pe_outcome p (S attempts))) eqn:Ef; cbn [negb orb].
  2: { split_and!; [lia|lia|done|lia|]. unfold waits. intros (_ & ? & _). congruence. }
  destruct (pe_ended p (S attempts)) eqn:Ee.
  { split_and!; [lia|lia|done|lia|]. unfold waits. intros (_ & _ & ? & _). congruence. }
  destruct (decide (deadline <= _)).
  { split_and!; [lia|lia|done|lia|]. unfold waits. lia. }
  assert (waits s deadline p (S attempts)) as Hw by (unfold waits; split_and!; [lia|done|done|lia]).
  destruct (pe_wait_ended p (S attempts)) eqn:Ew; [exists (S attempts); split_and!; [lia|done|done|lia]|].
  specialize (IH (S attempts) ltac:(lia) ltac:(lia)).
  destruct (attempt_loop fuel s deadline p (S attempts)) as [[k a]|].
  - destruct IH as (H1 & H2 & H3 & H4 & H5). split_and!; [lia|done|done| |done].
    intros j Hj. destruct (decide (j = S attempts)) as [->|]; [done|]. apply H4. lia.
  - destruct IH as (k & H1 & H2 & H3 & H4). exists k. split_and!; [lia|done|done|].
    intros j Hj. destruct (decide (j = S attempts)) as [->|]; [done|]. apply H4. lia.
Qed.

Lemma EffectiveRetries_range s : 0 <= EffectiveRetries s <= MaxSoulRetries.
Proof.
  unfold EffectiveRetries, MaxSoulRetries. destruct (sr_heartbeat s); simpl; [lia|].
  case_bool_decide; [lia|]. case_decide; lia.
Qed.

(** C13: confirmation retries. A scheduled check makes between one and
    [EffectiveRetries + 1] attempts, at most six, and always ends; it is judged
    by its last attempt. A retry is made exactly after a failed attempt that
    was not cancelled and only if, one retry interval after that attempt, the
    next scheduled check is still ahead: this holds of every attempt before
    the last, and of the last one it fails or the attempts are used up. The
    check is dropped without a judgment only when it is cancelled in the wait
    before such a retry. *)
Theorem retries_bounded s start interval p :
  match run_attempts s start interval p with
  | Some (k, a) =>
      1 <= Z.of_nat k <= EffectiveRetries s + 1 /\ EffectiveRetries s + 1 <= 6 /\ a = pe_outcome p k /\
      (forall j, (0 < j < k)%nat ->
         attemptFailed (pe_outcome p j) = true /\ pe_ended p j = false /\ pe_wait_ended p j = false /\
         pe_now p j + EffectiveRetryInterval s < start + interval) /\
      (attemptFailed a = true -> Z.of_nat k = EffectiveRetries s + 1 \/ pe_ended p k = true \/
         start + interval <= pe_now p k + EffectiveRetryInterval s)
  | None => exists k, 1 <= Z.of_nat k <= EffectiveRetries s /\
      attemptFailed (pe_outcome p k) = true /\ pe_ended p k = false /\ pe_wait_ended p k = true /\
      pe_now p k + EffectiveRetryInterval s < start + interval
  end.
Proof.
  pose proof (EffectiveRetries_range s) as Hr. unfold MaxSoulRetries in Hr.
  pose proof (attempt_loop_spec s (start + interval) p (S (Z.to_nat MaxSoulRetries)) 0) as H.
  unfold run_attempts. specialize (H ltac:(unfold MaxSoulRetries; lia) ltac:(lia)).
  destruct (attempt_loop _ _ _ _ _) as [[k a]|].
  - destruct H as (H1 & H2 & H3 & H4 & H5). split_and!; [lia|lia|lia|done| |].
    + intros j Hj. destruct (H4 j Hj) as [(_ & ? & ? & ?) ?]. done.
    + intros Ha. subst a. destruct (pe_ended p k) eqn:Ee; [tauto|].
      destruct (decide (Z.of_nat k = EffectiveRetries s + 1)); [tauto|]. right. right.
      apply Z.nlt_ge. intros Hlt. apply H5. unfold waits. split_and!; [lia|done|done|done].
  - destruct H as (k & H1 & (H2 & H3 & H4 & H5) & H6 & _). exists k. split_and!; [lia|lia|done..].
Qed.

(** ** Concrete runs *)

Definition sample_flap : FlapSettings := MkFlapSettings true 3 100.

Definition sample_obs : list (SoulStatus * Z) :=
  [(SoulAlive, 0); (SoulDead, 10); (SoulAlive, 20); (SoulDead, 30); (SoulDead, 40); (SoulDead, 140)].

(** Three changes within the window start flapping; two steady judgments and
    an expired window end it. *)
Lemma flap_matches_reference_witness :
  (run sample_flap fresh_runner sample_obs).2 =
  [(false, NoChange, ""); (false, NoChange, ""); (false, NoChange, ""); (true, FlapStarted, SoulAlive);
   (true, NoChange, SoulAlive); (false, FlapStopped, SoulAlive)].
Proof.
  rewrite (flap_matches_reference sample_flap sample_obs); [by vm_compute|done|done|].
  simpl. repeat (constructor; [|repeat (constructor; [lia|]); constructor]). constructor.
Defined.

Lemma flap_settles_witness :
  flapping (run sample_flap (SoulRunner SoulDead [1; 2; 3] true SoulAlive 0)
    [(SoulDead, 4); (SoulDead, 5); (SoulDead, 6)]).1 = false.
Proof. apply flap_settles; [done|done|simpl; lia|simpl; lia|by repeat constructor]. Defined.
