(* ===== verification/Sla.v ===== *)
(** * Service-level figures

    src/internal/sla: the intervals of a period (what maintenance leaves of
    it, cut at UTC hours), the tally of checks and the latency histogram, and
    the report built from them. Times and durations are nanoseconds, as in
    package time. The theorems read interval lists as sets of instants. *)
From stdpp Require Import base strings list sorting.
From Stdlib Require Import ZArith Lia Floats.SpecFloat.
From S2P Require Import Prelude GoFloat Flap.

Open Scope Z_scope.

Definition Second : Z := 1000000000.
Definition Hour : Z := 3600 * Second.
Definition Day : Z := 24 * Hour.

(** [t.Truncate(d)] for a [d] that divides a day: the zero time is midnight. *)
Definition Truncate (t d : Z) : Z := t - t mod d.

(** [d.Seconds()]. *)
Definition Seconds (d : Z) : float64 := (float_of (Z.quot d Second) + float_of (Z.rem d Second) / float_of Second)%f64.

Definition SoulEmbalmed : SoulStatus := "embalmed".

(** The fields of a judgment the stored figures depend on. *)
Record Judgment := MkCheck {
  jd_ID : string;
  jd_SoulID : string;
  jd_WorkspaceID : string;
  jd_Timestamp : Z;
  jd_Duration : Z;
  jd_Status : SoulStatus;
  jd_PacketLoss : float64;
}.

Record TimeRange := MkRange { Start : Z; End : Z }.

(** ** Intervals *)

Definition clip (from to : Z) (r : TimeRange) : TimeRange :=
  MkRange (if decide (Start r < from) then from else Start r) (if decide (to < End r) then to else End r).

Definition start_less (a b : TimeRange) : bool := bool_decide (Start a < Start b).

(** The last range written is in front. *)
Fixpoint join (out : list TimeRange) (l : list TimeRange) : list TimeRange :=
  match l with
  | [] => rev out
  | r :: l =>
      match out with
      | last :: rest =>
          if decide (Start r <= End last) then
            join ((if decide (End last < End r) then MkRange (Start last) (End r) else last) :: rest) l
          else join (r :: out) l
      | [] => join [r] l
      end
  end.

Definition Merge (ranges : list TimeRange) (from to : Z) : list TimeRange :=
  let clipped := filter (fun r => Start r < End r) (clip from to <$> ranges) in
  join [] (sort_by start_less clipped).

Definition Total (merged : list TimeRange) : Z := foldl (fun d r => d + (End r - Start r)) 0 merged.

(** The first range that ends after an instant. *)
Definition search_end (merged : list TimeRange) (a : Z) : nat :=
  sort_Search (length merged) (fun i => match merged !! i with Some r => bool_decide (a < End r) | None => false end).

Definition Overlaps (merged : list TimeRange) (a b : Z) : bool :=
  match merged !! search_end merged a with Some r => bool_decide (Start r < b) | None => false end.

Fixpoint subtract_loop (b : Z) (l : list TimeRange) (cursor : Z) (out : list TimeRange) : list TimeRange :=
  let finish := if decide (cursor < b) then out ++ [MkRange cursor b] else out in
  match l with
  | [] => finish
  | r :: l =>
      if decide (Start r < b) then
        let out := if decide (cursor < Start r) then out ++ [MkRange cursor (Start r)] else out in
        let cursor := if decide (cursor < End r) then End r else cursor in
        subtract_loop b l cursor out
      else finish
  end.

Definition Subtract (a b : Z) (merged : list TimeRange) : list TimeRange :=
  subtract_loop b (drop (search_end merged a) merged) a [].

(** The pieces of a range: at most one per hour it touches, so [fuel] hours
    are enough for a range of fewer. *)
Fixpoint hour_pieces (fuel : nat) (s e : Z) : list TimeRange :=
  match fuel with
  | O => []
  | S fuel =>
      if decide (s < e) then
        let next := Truncate s Hour + Hour in
        let next := if decide (e < next) then e else next in
        MkRange s next :: hour_pieces fuel next e
      else []
  end.

Definition hours_between (s e : Z) : nat := S (Z.to_nat ((e - s) / Hour + 1)).

Definition RawPieces (a b : Z) (merged : list TimeRange) : list TimeRange :=
  concat ((fun r => hour_pieces (hours_between (Start r) (End r)) (Start r) (End r)) <$> Subtract a b merged).

(** ** The latency histogram *)

Definition histBuckets : nat := 1000.
Definition histMinMs : float64 := const 1 100.
Definition histGamma : float64 := const 102 100.

Record histogram := MkHist { counts : list Z; total : Z }.

Definition empty_hist : histogram := MkHist [] 0.

Section histogram.
Context (math_Log : float64 -> float64) (math_Pow : float64 -> float64 -> float64).

Definition histLogGamma : float64 := math_Log histGamma.

Definition histIndex (valueMs : float64) : Z :=
  if negb (fle histMinMs valueMs) then 0 else
  let i := floor_int (math_Log (valueMs / histMinMs)%f64 / histLogGamma)%f64 + 1 in
  if decide (Z.of_nat histBuckets <= i) then Z.of_nat histBuckets - 1 else i.

Definition histValue (i : nat) : float64 :=
  match i with O => float_of 0 | _ => (histMinMs * math_Pow histGamma (float_of (Z.of_nat i) - const 1 2))%f64 end.

Definition allocated (h : histogram) : list Z := match counts h with [] => replicate histBuckets 0 | c => c end.

(** [math.Log] is not negative from 1 on, so the index is in range (it would
    panic otherwise; here nothing is counted then). *)
Definition hist_add (h : histogram) (valueMs : float64) (count : Z) : histogram :=
  if decide (count <= 0) then h else
  MkHist (alter (fun c => c + count) (Z.to_nat (histIndex valueMs)) (allocated h)) (total h + count).

Definition hist_merge (h o : histogram) : histogram :=
  if decide (total o = 0) then h else MkHist (zip_with Z.add (allocated h) (counts o)) (total h + total o).

Fixpoint first_bucket (rank : Z) (i : nat) (cumulative : Z) (cs : list Z) : option nat :=
  match cs with
  | [] => None
  | c :: cs => if decide (rank <= cumulative + c) then Some i else first_bucket rank (S i) (cumulative + c) cs
  end.

Definition quantiles (h : histogram) (ps : list float64) : option (list float64) :=
  if decide (total h = 0) then None else
  Some ((fun p => let rank := Z.max 1 (ceil_int (p * float_of (total h))%f64) in
                  match first_bucket rank 0 0 (counts h) with Some i => histValue i | None => float_of 0 end) <$> ps).

(** ** The tally *)

Record Sources := MkSources { src_Raw : Z; src_Hour : Z; src_Day : Z }.

Record Tally := MkTally {
  Checks : Z;
  Up : Z;
  LatencySumMs : float64;
  DowntimeSeconds : float64;
  CoveredSeconds : float64;
  tl_Sources : Sources;
  latencies : histogram;
  approximate : bool;
}.

Definition zero_tally : Tally :=
  MkTally 0 0 (float_of 0) (float_of 0) (float_of 0) (MkSources 0 0 0) empty_hist false.

Definition SourceRaw : string := "raw".
Definition SourceHour : string := "1hour".
Definition SourceDay : string := "1day".

Definition count_source (source : string) (s : Sources) : Sources :=
  if decide (source = SourceRaw) then MkSources (src_Raw s + 1) (src_Hour s) (src_Day s) else
  if decide (source = SourceHour) then MkSources (src_Raw s) (src_Hour s + 1) (src_Day s) else
  if decide (source = SourceDay) then MkSources (src_Raw s) (src_Hour s) (src_Day s + 1) else s.

Definition AddBucket (span checks up : Z) (latencySumMs : float64) (source : string) (t : Tally) : Tally :=
  if decide (checks <= 0) then t else
  let up := if decide (checks < up) then checks else up in
  let up := if decide (up < 0) then 0 else up in
  let seconds := Seconds span in
  MkTally (Checks t + checks) (Up t + up) (LatencySumMs t + latencySumMs)%f64
    (DowntimeSeconds t + seconds * float_of (checks - up) / float_of checks)%f64
    (CoveredSeconds t + seconds)%f64 (count_source source (tl_Sources t)) (latencies t) (approximate t).

Definition AddLatency (valueMs : float64) (count : Z) (exact : bool) (t : Tally) : Tally :=
  if decide (count <= 0) then t else
  MkTally (Checks t) (Up t) (LatencySumMs t) (DowntimeSeconds t) (CoveredSeconds t) (tl_Sources t)
    (hist_add (latencies t) valueMs count) (approximate t || negb exact).

Definition tally_Merge (o t : Tally) : Tally :=
  MkTally (Checks t + Checks o) (Up t + Up o) (LatencySumMs t + LatencySumMs o)%f64
    (DowntimeSeconds t + DowntimeSeconds o)%f64 (CoveredSeconds t + CoveredSeconds o)%f64
    (MkSources (src_Raw (tl_Sources t) + src_Raw (tl_Sources o)) (src_Hour (tl_Sources t) + src_Hour (tl_Sources o))
       (src_Day (tl_Sources t) + src_Day (tl_Sources o)))
    (hist_merge (latencies t) (latencies o)) (approximate t || approximate o).

(** The checks, those alive and the summed latency of one piece. *)
Record acc := MkAcc { a_checks : Z; a_up : Z; a_latSum : float64 }.

Definition duration_ms (d : Z) : float64 := (float_of d / float_of 1000000)%f64.

Definition count_one (pieces : list TimeRange) (j : Judgment) (st : list acc * Tally) : list acc * Tally :=
  let '(accs, t) := st in
  if decide (jd_Status j = SoulEmbalmed) then st else
  let i := search_end pieces (jd_Timestamp j) in
  match pieces !! i with
  | None => st
  | Some p =>
      if decide (jd_Timestamp j < Start p) then st else
      let ms := duration_ms (jd_Duration j) in
      (alter (fun a => MkAcc (a_checks a + 1) (if decide (jd_Status j = SoulAlive) then a_up a + 1 else a_up a) (a_latSum a + ms)%f64) i accs,
       AddLatency ms 1 true t)
  end.

Definition CountJudgments (pieces : list TimeRange) (judgments : list Judgment) (t : Tally) : Tally :=
  let '(accs, t) := foldl (fun st j => count_one pieces j st) (replicate (length pieces) (MkAcc 0 0 (float_of 0)), t) judgments in
  foldl (fun t pa => AddBucket (End pa.1 - Start pa.1) (a_checks pa.2) (a_up pa.2) (a_latSum pa.2) SourceRaw t) t (zip pieces accs).

(** ** The report *)

(** [math.Round]: half away from zero. *)
Definition math_Round (x : float64) : float64 :=
  match x with
  | S754_finite s m e =>
      if decide (0 <= e) then x else
      let r := Z.shiftr (Zpos m + Z.shiftl 1 (- e - 1)) (- e) in
      if decide (r = 0) then S754_zero s else float_of (cond_Zopp s r)
  | _ => x
  end.

Definition round (v : float64) (places : Z) : float64 :=
  let p := math_Pow (float_of 10) (float_of places) in (math_Round (v * p) / p)%f64.

Record Latency := MkLatency { AvgMs : float64; P50Ms : float64; P95Ms : float64; P99Ms : float64; Exact : bool }.

Record ErrorBudget := MkBudget {
  TargetPercent : float64;
  AllowedDowntimeSeconds : float64;
  ConsumedDowntimeSeconds : float64;
  RemainingDowntimeSeconds : float64;
  RemainingPercent : option float64;
  Met : bool;
}.

Record Report := MkReport {
  PeriodSeconds : float64;
  ExcludedSeconds : float64;
  MonitoredSeconds : float64;
  NoDataSeconds : float64;
  r_Checks : Z;
  Failed : Z;
  AvailabilityPercent : option float64;
  r_DowntimeSeconds : float64;
  Incidents : Z;
  MTTRSeconds : option float64;
  r_Latency : option Latency;
  r_ErrorBudget : option ErrorBudget;
  r_Sources : Sources;
}.

Definition budget (target monitoredSeconds downtimeSeconds : float64) : ErrorBudget :=
  let allowed := (monitoredSeconds * (float_of 100 - target) / float_of 100)%f64 in
  MkBudget target (round allowed 3) (round downtimeSeconds 3) (round (allowed - downtimeSeconds)%f64 3)
    (if flt (float_of 0) allowed then Some (round ((allowed - downtimeSeconds) / allowed * float_of 100)%f64 2) else None)
    (fle downtimeSeconds allowed).

Definition Build (t : Tally) (periodSeconds excludedSeconds : float64) (target : option float64) : Report :=
  let monitored := math_Max (periodSeconds - excludedSeconds)%f64 (float_of 0) in
  MkReport (round periodSeconds 3) (round excludedSeconds 3) (round monitored 3)
    (round (math_Max (monitored - CoveredSeconds t)%f64 (float_of 0)) 3)
    (Checks t) (Checks t - Up t)
    (if decide (0 < Checks t) then Some (round (float_of (Up t) / float_of (Checks t) * float_of 100)%f64 4) else None)
    (round (DowntimeSeconds t) 3) 0 None
    (match quantiles (latencies t) [const 50 100; const 95 100; const 99 100] with
     | Some [p50; p95; p99] =>
         let avg := if decide (0 < Checks t) then (LatencySumMs t / float_of (Checks t))%f64 else float_of 0 in
         Some (MkLatency (round avg 2) (round p50 2) (round p95 2) (round p99 2) (negb (approximate t)))
     | _ => None
     end)
    (match target with Some x => Some (budget x monitored (DowntimeSeconds t)) | None => None end)
    (tl_Sources t).

Definition ApplyBudget (r : Report) (target : option float64) : Report :=
  MkReport (PeriodSeconds r) (ExcludedSeconds r) (MonitoredSeconds r) (NoDataSeconds r) (r_Checks r) (Failed r)
    (AvailabilityPercent r) (r_DowntimeSeconds r) (Incidents r) (MTTRSeconds r) (r_Latency r)
    (match target with Some x => Some (budget x (MonitoredSeconds r) (r_DowntimeSeconds r)) | None => None end) (r_Sources r).

(** Incidents by their start and, once resolved, their end. *)
Definition IncidentStats {I} (StartedAt : I -> Z) (ResolvedAt : I -> option Z) (incidents : list I) (from to : Z) (include : I -> bool) :
    Z * option float64 :=
  let counted := filter (fun i => from <= StartedAt i < to /\ include i = true) incidents in
  let resolved := omap (fun i => match ResolvedAt i with
                                 | Some r => if decide (r < StartedAt i) then None else Some (r - StartedAt i)
                                 | None => None
                                 end) counted in
  (Z.of_nat (length counted),
   match resolved with
   | [] => None
   | _ => Some (round (Seconds (foldl Z.add 0 resolved) / float_of (Z.of_nat (length resolved)))%f64 3)
   end).

Definition SetIncidents (count : Z) (mttrSeconds : option float64) (r : Report) : Report :=
  MkReport (PeriodSeconds r) (ExcludedSeconds r) (MonitoredSeconds r) (NoDataSeconds r) (r_Checks r) (Failed r)
    (AvailabilityPercent r) (r_DowntimeSeconds r) count mttrSeconds (r_Latency r) (r_ErrorBudget r) (r_Sources r).
End histogram.

(** ** Interval lists as sets of instants *)

Definition inside (t : Z) (r : TimeRange) : Prop := Start r <= t < End r.
Definition covered (rs : list TimeRange) (t : Z) : Prop := Exists (inside t) rs.

Definition nonempty (r : TimeRange) : Prop := Start r < End r.

(** In order, without overlap; [separated] also rules out touching. *)
Definition ordered (rs : list TimeRange) : Prop :=
  Forall nonempty rs /\ StronglySorted (fun a b => End a <= Start b) rs.
Definition separated (rs : list TimeRange) : Prop :=
  Forall nonempty rs /\ StronglySorted (fun a b => End a < Start b) rs.

#[export] Instance inside_dec t r : Decision (inside t r).
Proof. unfold inside. apply _. Defined.
#[export] Instance covered_dec rs t : Decision (covered rs t).
Proof. unfold covered. apply _. Defined.

Lemma covered_cons r rs t : covered (r :: rs) t <-> inside t r \/ covered rs t.
Proof. apply Exists_cons. Qed.
Lemma covered_nil t : covered [] t <-> False.
Proof. apply Exists_nil. Qed.
Lemma covered_app l k t : covered (l ++ k) t <-> covered l t \/ covered k t.
Proof. apply Exists_app. Qed.

Lemma ordered_cons r rs : ordered (r :: rs) <-> nonempty r /\ Forall (fun x => End r <= Start x) rs /\ ordered rs.
Proof.
  unfold ordered. rewrite Forall_cons. split.
  - intros [[Hn Hf] Hs]. inversion Hs; subst. done.
  - intros (Hn & Hr & Hf & Hs). split; [done | by constructor].
Qed.

Lemma separated_ordered rs : separated rs -> ordered rs.
Proof.
  intros [Hn Hs]. split; [done |]. clear Hn. induction Hs as [|r rs Hs IH Hr]; [constructor |]. constructor; [done |].
  eapply Forall_impl; [exact Hr |]. cbn. lia.
Qed.

Lemma ordered_after r rs t : ordered (r :: rs) -> covered rs t -> End r <= t.
Proof.
  intros (_ & Hr & _)%ordered_cons Hc. apply Exists_exists in Hc as (x & Hx & Hi). rewrite Forall_forall in Hr.
  specialize (Hr x Hx). unfold inside in Hi. lia.
Qed.

Lemma ordered_app l k : ordered l -> ordered k -> (forall x y, x ∈ l -> y ∈ k -> End x <= Start y) -> ordered (l ++ k).
Proof.
  intros Hl Hk H. induction l as [|r l IH]; [done |]. apply ordered_cons in Hl as (Hn & Hr & Hl). cbn. apply ordered_cons.
  split; [done |]. split; [| apply IH; [done |]; intros; apply H; [by right | done]].
  apply Forall_app. split; [done |]. apply Forall_forall. intros y Hy. apply H; [left | done].
Qed.

(** *** Merge *)

Lemma sort_insert_starts x l : StronglySorted (fun a b => Start a <= Start b) l ->
  StronglySorted (fun a b => Start a <= Start b) (sort_insert start_less x l).
Proof.
  induction 1 as [|y l Hs IH Hy]; cbn; [repeat constructor |]. unfold start_less at 1. case_bool_decide.
  - constructor; [done |]. rewrite sort_insert_perm. constructor; [lia | done].
  - constructor; [by constructor |]. constructor; [lia |]. eapply Forall_impl; [exact Hy |]. cbn. lia.
Qed.

Lemma sort_starts l : StronglySorted (fun a b => Start a <= Start b) (sort_by start_less l).
Proof. induction l; [constructor | by apply sort_insert_starts]. Qed.

(** What [join] has written so far, latest first. *)
Definition written (out : list TimeRange) : Prop :=
  Forall nonempty out /\ StronglySorted (fun a b => End b < Start a) out.

Lemma join_spec l : forall out, written out -> Forall nonempty l -> StronglySorted (fun a b => Start a <= Start b) l ->
  (forall r last, r ∈ l -> head out = Some last -> Start last <= Start r) ->
  separated (join out l) /\ (forall t, covered (join out l) t <-> covered out t \/ covered l t).
Proof.
  induction l as [|r l IH]; intros out [Wn Ws] Hn Hs Hlast; cbn [join].
  { split.
    - split; [by apply List.Forall_rev |]. clear -Ws. induction Ws as [|r out Ws IH Hr]; cbn; [constructor |].
      apply StronglySorted_app_2; [| done |]. 2: repeat constructor. intros x y Hx Hy.
      apply list_elem_of_In, in_rev, list_elem_of_In in Hx. apply list_elem_of_singleton in Hy as ->. rewrite Forall_forall in Hr. by apply Hr.
    - intros t. rewrite covered_nil. unfold covered. rewrite !Exists_exists. setoid_rewrite list_elem_of_In.
      setoid_rewrite <- in_rev. tauto. }
  apply Forall_cons in Hn as [Hr Hn]. inversion Hs as [|? ? Hs' Hle]; subst. rewrite Forall_forall in Hle.
  destruct out as [|last out].
  - destruct (IH [r]) as [IS IC]; [split; repeat constructor; done | done | done | intros ? ? ? [= <-]; by apply Hle |].
    split; [done |]. intros t. rewrite IC, !covered_cons, covered_nil. tauto.
  - pose proof (Hlast r last ltac:(left) eq_refl) as Hrl. apply Forall_cons in Wn as [Wl Wn]. inversion Ws as [|? ? Ws' Wlt]; subst.
    unfold nonempty in Hr, Wl. case_decide as Hj.
    + set (last' := if decide (End last < End r) then MkRange (Start last) (End r) else last).
      assert (Start last' = Start last /\ forall t, inside t last' <-> inside t last \/ inside t r) as [Es Ei].
      { subst last'. unfold inside. case_decide; cbn; [| split; [done |]]; [split; [done |] |]; intros t; lia. }
      assert (nonempty last') by (unfold nonempty, last'; case_decide; cbn; lia).
      destruct (IH (last' :: out)) as [IS IC]; [split; [by constructor |]; constructor; [done | by rewrite Es] | done | done | |].
      { intros x ? Hx [= <-]. rewrite Es. transitivity (Start r); [done | by apply Hle]. }
      split; [done |]. intros t. rewrite IC, !covered_cons, Ei. tauto.
    + destruct (IH (r :: last :: out)) as [IS IC]; [| done | done | intros ? ? ? [= <-]; by apply Hle |].
      { split; [by repeat constructor |]. constructor; [done |]. constructor; [lia |].
        eapply Forall_impl; [exact Wlt |]. cbn. lia. }
      split; [done |]. intros t. rewrite IC, !covered_cons. tauto.
Qed.

Lemma covered_perm l k t : l ≡ₚ k -> covered l t <-> covered k t.
Proof. intros H. unfold covered. rewrite !Exists_exists. by setoid_rewrite H. Qed.

Lemma covered_clip ranges from to t :
  covered (filter (fun r => Start r < End r) (clip from to <$> ranges)) t <-> from <= t < to /\ covered ranges t.
Proof.
  unfold covered. induction ranges as [|r ranges IH]; [cbn; rewrite !Exists_nil; tauto |].
  cbn [fmap list_fmap]. rewrite filter_cons, Exists_cons.
  assert (inside t (clip from to r) <-> from <= t < to /\ inside t r) as Hc.
  { unfold inside, clip; cbn. repeat case_decide; lia. }
  case_decide as Hd; rewrite ?Exists_cons, IH, ?Hc; [tauto |]. split; [tauto |]. intros [Ht [Hi|?]]; [| tauto]. exfalso. apply Hd.
  pose proof (proj2 Hc (conj Ht Hi)) as Hi'. unfold inside in Hi'. lia.
Qed.

Lemma Merge_spec ranges from to :
  separated (Merge ranges from to) /\ forall t, covered (Merge ranges from to) t <-> from <= t < to /\ covered ranges t.
Proof.
  unfold Merge. set (clipped := filter _ _). assert (Forall nonempty clipped) as Hn.
  { apply Forall_forall. by intros r [Hr _]%list_elem_of_filter. }
  destruct (join_spec (sort_by start_less clipped) []) as [HS HC];
    [repeat constructor | by rewrite sort_by_perm | apply sort_starts | done |].
  split; [done |]. intros t. rewrite HC, covered_nil, (covered_perm _ clipped) by apply sort_by_perm.
  subst clipped. rewrite covered_clip. tauto.
Qed.

(** *** Search *)

Lemma ordered_ends l i j r s : ordered l -> (i <= j)%nat -> l !! i = Some r -> l !! j = Some s -> End r <= End s.
Proof.
  revert i j. induction l as [|x l IH]; intros i j Ho Hij Hi Hj; [done |]. apply ordered_cons in Ho as (Hx & Hl & Ho).
  destruct i as [|i], j as [|j]; cbn in Hi, Hj; simplify_eq; try lia; [| by eapply IH; [| | exact Hi | exact Hj]; [| lia]].
  destruct Ho as [Hn _]. rewrite Forall_lookup in Hl, Hn. specialize (Hl j s Hj). specialize (Hn j s Hj). unfold nonempty in Hn. lia.
Qed.

Lemma search_end_spec l a : ordered l ->
  let i := search_end l a in
  (forall k r, (k < i)%nat -> l !! k = Some r -> End r <= a) /\ (forall k r, (i <= k)%nat -> l !! k = Some r -> a < End r).
Proof.
  intros Ho. cbv zeta. unfold search_end.
  destruct (sort_Search_spec (length l) (fun i => match l !! i with Some r => bool_decide (a < End r) | None => false end)) as (Hr & Hlo & Hhi).
  { intros i j [Hij Hj]. destruct (lookup_lt_is_Some_2 l i ltac:(lia)) as [r Hi]. destruct (lookup_lt_is_Some_2 l j Hj) as [s Hs].
    rewrite Hi, Hs, !bool_decide_eq_true. pose proof (ordered_ends _ _ _ _ _ Ho Hij Hi Hs). lia. }
  set (f := sort_Search _ _) in *. split; intros k r Hk Hl.
  - specialize (Hlo k Hk). rewrite Hl in Hlo. apply bool_decide_eq_false in Hlo. lia.
  - assert (k < length l)%nat by by eapply lookup_lt_Some. specialize (Hhi k ltac:(lia)). rewrite Hl in Hhi. by apply bool_decide_eq_true in Hhi.
Qed.

Lemma ordered_drop l i : ordered l -> ordered (drop i l).
Proof.
  revert i. induction l as [|r l IH]; intros [|i] Ho; cbn; [done.. |]. apply IH. by apply ordered_cons in Ho as (_ & _ & ?).
Qed.

(** Nothing before the range found can cover a later instant. *)
Lemma search_end_covered l a t : ordered l -> a <= t -> covered l t <-> covered (drop (search_end l a) l) t.
Proof.
  intros Ho Ht. rewrite <- (take_drop (search_end l a) l) at 1. rewrite covered_app.
  split; [| tauto]. intros [H|?]; [| done]. exfalso. apply Exists_exists in H as (r & Hr & Hi).
  apply list_elem_of_lookup in Hr as (k & Hk). apply lookup_take_Some in Hk as [Hk Hlt].
  pose proof (proj1 (search_end_spec l a Ho) k r Hlt Hk). unfold inside in Hi. lia.
Qed.

Lemma Overlaps_spec l a b : ordered l -> a < b ->
  Overlaps l a b = true <-> exists t, a <= t < b /\ covered l t.
Proof.
  intros Ho Hab. unfold Overlaps. destruct (search_end_spec l a Ho) as [_ Hhi]. pose proof (search_end_covered l a) as Hc.
  set (i := search_end l a) in *. destruct (l !! i) as [r|] eqn:Hr.
  - specialize (Hhi i r (Nat.le_refl i) Hr). rewrite bool_decide_eq_true. rewrite (drop_S _ _ _ Hr) in Hc. split.
    + intros Hs. exists (Z.max a (Start r)). assert (nonempty r) as Hn.
      { destruct Ho as [Hn _]. rewrite Forall_lookup in Hn. by eapply Hn. }
      unfold nonempty in Hn. split; [lia |]. apply Hc; [done | lia |]. apply covered_cons. left. unfold inside. lia.
    + intros (t & Ht & Hct). apply Hc in Hct; [| done | lia]. apply covered_cons in Hct as [Hi|Hct]; [unfold inside in Hi; lia |].
      pose proof (ordered_drop _ i Ho) as Hd. rewrite (drop_S _ _ _ Hr) in Hd. pose proof (ordered_after _ _ _ Hd Hct).
      destruct Ho as [Hn _]. rewrite Forall_lookup in Hn. specialize (Hn i r Hr). unfold nonempty in Hn. lia.
  - split; [done |]. intros (t & Ht & Hct). apply Hc in Hct; [| done | lia]. rewrite drop_ge in Hct by by apply lookup_ge_None.
    by apply covered_nil in Hct.
Qed.

(** *** Subtract *)

Lemma ordered_snoc out r : ordered out -> nonempty r -> Forall (fun x => End x <= Start r) out -> ordered (out ++ [r]).
Proof.
  intros Ho Hr Hf. apply ordered_app; [done | by repeat constructor |]. intros x y Hx ->%list_elem_of_singleton.
  rewrite Forall_forall in Hf. by apply Hf.
Qed.

Lemma subtract_loop_spec b l : forall cursor out, ordered l -> ordered out -> Forall (fun x => End x <= cursor) out ->
  ordered (subtract_loop b l cursor out) /\
  forall t, covered (subtract_loop b l cursor out) t <-> covered out t \/ (cursor <= t < b /\ ~ covered l t).
Proof.
  assert (forall cursor out, ordered out -> Forall (fun x => End x <= cursor) out ->
    let res := if decide (cursor < b) then out ++ [MkRange cursor b] else out in
    ordered res /\ forall t, covered res t <-> covered out t \/ cursor <= t < b) as Hfin.
  { intros cursor out Ho Hf. cbv zeta. case_decide; [| split; [done |]; intros t; intuition lia].
    split; [by apply ordered_snoc |]. intros t. rewrite covered_app, covered_cons, covered_nil. unfold inside; cbn. tauto. }
  induction l as [|r l IH]; intros cursor out Hl Ho Hf; cbn [subtract_loop].
  { destruct (Hfin cursor out Ho Hf) as [HO HC]. split; [done |]. intros t. rewrite HC, covered_nil. tauto. }
  apply ordered_cons in Hl as (Hr & Hrl & Hl). pose proof Hr as Hr'. unfold nonempty in Hr'. case_decide as Hb.
  - set (out' := if decide (cursor < Start r) then _ else out). set (cursor' := if decide (cursor < End r) then _ else cursor).
    assert (ordered out' /\ Forall (fun x => End x <= cursor') out' /\
            forall t, covered out' t <-> covered out t \/ cursor <= t < Start r) as (Ho' & Hf' & Hc').
    { assert (Forall (fun x => End x <= cursor') out) as Hf1
        by (eapply Forall_impl; [exact Hf |]; intros x; subst cursor'; cbn; case_decide; lia).
      subst out'. case_decide; [| split; [done |]; split; [done |]; intros t; intuition lia].
      split; [by apply ordered_snoc |]. split.
      - apply Forall_app. split; [done |]. repeat constructor. subst cursor'. cbn. case_decide; lia.
      - intros t. rewrite covered_app, covered_cons, covered_nil. unfold inside; cbn. tauto. }
    destruct (IH cursor' out' Hl Ho' Hf') as [HO HC]. split; [done |]. intros t. rewrite HC, Hc', covered_cons.
    assert (covered l t -> End r <= t) by (apply ordered_after; by apply ordered_cons). unfold inside.
    assert (cursor' = Z.max cursor (End r)) as -> by (subst cursor'; case_decide; lia).
    split.
    + intros [[?|?]|[? ?]]; [by left | right | right]; (split; [lia |]); intros [?|Hc]; try lia; [specialize (H Hc); lia | done].
    + intros [?|[? Hn]]; [tauto |]. assert (~ (Start r <= t < End r)) by tauto.
      destruct (decide (t < Start r)); [left; right; lia | right; split; [lia | tauto]].
  - destruct (Hfin cursor out Ho Hf) as [HO HC]. split; [done |]. intros t. rewrite HC, covered_cons.
    assert (covered l t -> End r <= t) by (apply ordered_after; by apply ordered_cons). unfold inside.
    split; [intros [?|?]; [by left | right] | tauto]. split; [lia |]. intros [?|Hc]; [| specialize (H Hc)]; lia.
Qed.

Lemma Subtract_spec a b merged : ordered merged ->
  ordered (Subtract a b merged) /\ forall t, covered (Subtract a b merged) t <-> a <= t < b /\ ~ covered merged t.
Proof.
  intros Ho. destruct (subtract_loop_spec b (drop (search_end merged a) merged) a []) as [HO HC];
    [by apply ordered_drop | repeat constructor | done |].
  split; [done |]. intros t. unfold Subtract. rewrite HC, covered_nil.
  destruct (decide (a <= t < b)) as [Ht|]; [| tauto]. rewrite (search_end_covered merged a t) by (done || lia). tauto.
Qed.

(** *** Pieces *)

(** The range lies in one UTC hour. *)
Definition within_hour (r : TimeRange) : Prop := End r <= Truncate (Start r) Hour + Hour.

Lemma truncate_bound t d : 0 < d -> Truncate t d <= t < Truncate t d + d.
Proof. intros Hd. unfold Truncate. pose proof (Z.mod_pos_bound t d Hd). lia. Qed.

Lemma truncate_idem t d : 0 < d -> Truncate (Truncate t d) d = Truncate t d.
Proof.
  intros Hd. unfold Truncate. replace ((t - t mod d) mod d) with 0; [lia |]. symmetry. rewrite (Z.div_mod t d) at 1 by lia.
  replace (d * (t / d) + t mod d - t mod d) with (t / d * d) by lia. apply Z.mod_mul. lia.
Qed.

Lemma truncate_next t d : 0 < d -> Truncate (Truncate t d + d) d = Truncate t d + d.
Proof.
  intros Hd. unfold Truncate at 1. replace (Truncate t d + d) with ((t / d + 1) * d).
  - rewrite Z.mod_mul by lia. lia.
  - unfold Truncate. pose proof (Z.div_mod t d ltac:(lia)). lia.
Qed.

Lemma hour_pieces_spec e fuel : forall s, e <= s \/ e - Truncate s Hour <= Z.of_nat fuel * Hour ->
  ordered (hour_pieces fuel s e) /\ Forall (fun x => s <= Start x /\ End x <= e) (hour_pieces fuel s e) /\
  Forall within_hour (hour_pieces fuel s e) /\ forall t, covered (hour_pieces fuel s e) t <-> s <= t < e.
Proof.
  assert (0 < Hour) as Hh by done.
  induction fuel as [|fuel IH]; intros s Hf; cbn [hour_pieces]; pose proof (truncate_bound s Hour Hh).
  { split; [repeat constructor |]. split; [done |]. split; [done |]. intros t. rewrite covered_nil. lia. }
  case_decide; [| split; [repeat constructor |]; split; [done |]; split; [done |]; intros t; rewrite covered_nil; lia].
  set (next := if decide (e < Truncate s Hour + Hour) then e else _).
  assert (s < next <= e) by (subst next; case_decide; lia).
  assert (e <= next \/ e - Truncate next Hour <= Z.of_nat fuel * Hour) as Hn.
  { subst next. case_decide as He.
    - left. lia.
    - right. rewrite truncate_next by done. lia. }
  destruct (IH next Hn) as (IO & IB & IW & IC). split.
  { apply ordered_cons. split; [unfold nonempty; cbn; lia |]. split; [| done]. eapply Forall_impl; [exact IB |]. cbn. lia. }
  split; [constructor; [cbn; lia | eapply Forall_impl; [exact IB |]; cbn; lia] |].
  split; [constructor; [unfold within_hour, next; cbn; case_decide; lia | done] |].
  intros t. rewrite covered_cons, IC. unfold inside; cbn. lia.
Qed.

Lemma hours_between_enough s e : e <= s \/ e - Truncate s Hour <= Z.of_nat (hours_between s e) * Hour.
Proof.
  destruct (decide (e <= s)) as [|Hlt]; [by left | right]. unfold hours_between.
  assert (0 < Hour) as Hh by done. pose proof (truncate_bound s Hour Hh). pose proof (Z.div_mod (e - s) Hour ltac:(lia)).
  pose proof (Z.mod_pos_bound (e - s) Hour Hh). assert (0 <= (e - s) / Hour) by (apply Z.div_pos; lia). lia.
Qed.

Lemma RawPieces_spec a b merged : ordered merged ->
  ordered (RawPieces a b merged) /\ Forall within_hour (RawPieces a b merged) /\
  forall t, covered (RawPieces a b merged) t <-> a <= t < b /\ ~ covered merged t.
Proof.
  intros Ho. destruct (Subtract_spec a b merged Ho) as [HO HC]. setoid_rewrite <- HC. clear HC. unfold RawPieces.
  induction (Subtract a b merged) as [|r l IH]; [split; [repeat constructor | split; [constructor | done]] |].
  cbn [fmap list_fmap concat]. apply ordered_cons in HO as (Hr & Hrl & HO). destruct (IH HO) as (IO & IW & IC).
  destruct (hour_pieces_spec (End r) _ (Start r) (hours_between_enough (Start r) (End r))) as (PO & PB & PW & PC).
  split; [| split; [by apply Forall_app |]].
  - apply ordered_app; [done | done |]. intros x y Hx Hy. rewrite Forall_forall in PB. apply PB in Hx as [_ Hx].
    assert (covered (concat ((fun r => hour_pieces (hours_between (Start r) (End r)) (Start r) (End r)) <$> l)) (Start y)) as Hy'.
    { apply Exists_exists. exists y. split; [done |]. destruct IO as [IN _]. rewrite Forall_forall in IN.
      specialize (IN y Hy). unfold nonempty in IN. unfold inside. lia. }
    apply IC in Hy'. assert (End r <= Start y); [| lia]. eapply ordered_after; [by apply ordered_cons | done].
  - intros t. by rewrite covered_app, covered_cons, PC, IC.
Qed.

(** ** What is counted *)

Definition count {A} (P : A -> Prop) `{!forall x, Decision (P x)} (l : list A) : Z := Z.of_nat (length (filter P l)).

(** A check that counts, and one that counts as up. *)
Definition checked (rs : list TimeRange) (j : Judgment) : Prop := jd_Status j <> SoulEmbalmed /\ covered rs (jd_Timestamp j).
Definition up (rs : list TimeRange) (j : Judgment) : Prop := jd_Status j = SoulAlive /\ covered rs (jd_Timestamp j).

#[export] Instance checked_dec rs j : Decision (checked rs j).
Proof. unfold checked. apply _. Defined.
#[export] Instance up_dec rs j : Decision (up rs j).
Proof. unfold up. apply _. Defined.

Lemma count_cons {A} (P : A -> Prop) `{!forall x, Decision (P x)} x l :
  count P (x :: l) = (if decide (P x) then 1 else 0) + count P l.
Proof. unfold count. rewrite filter_cons. case_decide; cbn [length]; lia. Qed.

Lemma count_app {A} (P : A -> Prop) `{!forall x, Decision (P x)} l k : count P (l ++ k) = count P l + count P k.
Proof. unfold count. rewrite filter_app, length_app. lia. Qed.

Lemma count_ext {A} (P Q : A -> Prop) `{!forall x, Decision (P x)} `{!forall x, Decision (Q x)} l :
  (forall x, x ∈ l -> P x <-> Q x) -> count P l = count Q l.
Proof.
  intros Hext. unfold count. f_equal. induction l as [|x l IH]; [done |]. rewrite !filter_cons.
  destruct (decide (P x)) as [HP|HP]; destruct (decide (Q x)) as [HQ|HQ]; cbn [length];
    rewrite ?IH by (intros; apply Hext; by right); try done; exfalso; apply HP || apply HQ; by apply Hext; [left |].
Qed.

Lemma count_perm {A} (P : A -> Prop) `{!forall x, Decision (P x)} l k : l ≡ₚ k -> count P l = count P k.
Proof. intros Hp. unfold count. f_equal. apply Permutation_length. by rewrite Hp. Qed.

(** What two disjoint conditions select adds up. *)
Lemma count_or {A} (P Q R : A -> Prop) `{!forall x, Decision (P x)} `{!forall x, Decision (Q x)} `{!forall x, Decision (R x)} l :
  (forall x, x ∈ l -> P x <-> Q x \/ R x) -> (forall x, x ∈ l -> Q x -> R x -> False) -> count P l = count Q l + count R l.
Proof.
  induction l as [|x l IH]; intros Ho Hd; [done |]. rewrite !count_cons, IH; [| intros; apply Ho; by right | intros y ?; apply Hd; by right].
  specialize (Ho x ltac:(left)). specialize (Hd x ltac:(left)). repeat case_decide; try lia; tauto.
Qed.

Lemma count_nonneg {A} (P : A -> Prop) `{!forall x, Decision (P x)} l : 0 <= count P l.
Proof. unfold count. lia. Qed.

Definition sum_by {A} (f : A -> Z) (l : list A) : Z := foldr (fun a z => f a + z) 0 l.

Lemma sum_alter {A} (f : A -> Z) (g : A -> A) l i a : l !! i = Some a -> sum_by f (alter g i l) = sum_by f l + (f (g a) - f a).
Proof. unfold sum_by. revert i. induction l as [|x l IH]; intros [|i] H; cbn in *; simplify_eq; [lia |]. rewrite IH by done. lia. Qed.

Lemma sum_replicate {A} (f : A -> Z) n a : f a = 0 -> sum_by f (replicate n a) = 0.
Proof. intros Hf. unfold sum_by. induction n as [|n IH]; cbn; [done | by rewrite Hf, IH]. Qed.

Lemma search_end_inside pieces t : ordered pieces ->
  covered pieces t <-> exists p, pieces !! search_end pieces t = Some p /\ Start p <= t.
Proof.
  intros Ho. rewrite (search_end_covered pieces t t Ho) by lia. pose proof (search_end_spec pieces t Ho) as [_ Hhi].
  set (i := search_end pieces t) in *. destruct (pieces !! i) as [p|] eqn:Hp.
  - specialize (Hhi i p (Nat.le_refl i) Hp). rewrite (drop_S _ _ _ Hp), covered_cons. split.
    + intros [Hi|Hc]; [unfold inside in Hi; exists p; split; [done | lia] |].
      pose proof (ordered_drop _ i Ho) as Hd. rewrite (drop_S _ _ _ Hp) in Hd. pose proof (ordered_after _ _ _ Hd Hc). lia.
    + intros (? & [= <-] & Hs). left. unfold inside. lia.
  - rewrite drop_ge by by apply lookup_ge_None. rewrite covered_nil. naive_solver.
Qed.

Definition acc_ok (a : acc) : Prop := 0 <= a_up a <= a_checks a.

Section counting.
Context (math_Log : float64 -> float64).

Lemma AddLatency_counts v c e t : Checks (AddLatency math_Log v c e t) = Checks t /\ Up (AddLatency math_Log v c e t) = Up t.
Proof. unfold AddLatency. by case_decide. Qed.

Lemma AddBucket_counts span c u lat src t : 0 <= u <= c ->
  Checks (AddBucket span c u lat src t) = Checks t + c /\ Up (AddBucket span c u lat src t) = Up t + u.
Proof. intros Hu. unfold AddBucket. repeat case_decide; cbn; lia. Qed.

Lemma count_one_spec pieces j accs t accs' t' : ordered pieces -> length accs = length pieces -> Forall acc_ok accs ->
  count_one math_Log pieces j (accs, t) = (accs', t') ->
  length accs' = length pieces /\ Forall acc_ok accs' /\ Checks t' = Checks t /\ Up t' = Up t /\
  sum_by a_checks accs' = sum_by a_checks accs + (if decide (checked pieces j) then 1 else 0) /\
  sum_by a_up accs' = sum_by a_up accs + (if decide (up pieces j) then 1 else 0).
Proof.
  intros Ho Hlen Hok. unfold count_one. pose proof (search_end_inside pieces (jd_Timestamp j) Ho) as Hin.
  assert (SoulAlive <> SoulEmbalmed) as Hne by done.
  case_decide as He.
  { intros [= <- <-]. rewrite (decide_False (P := checked _ _)) by (unfold checked; tauto).
    rewrite (decide_False (P := up _ _)) by (unfold up; intros [E _]; congruence). split_and!; try done; lia. }
  destruct (pieces !! search_end pieces (jd_Timestamp j)) as [p|] eqn:Hp.
  2:{ intros [= <- <-]. rewrite (decide_False (P := checked _ _)) by (unfold checked; rewrite Hin; naive_solver).
      rewrite (decide_False (P := up _ _)) by (unfold up; rewrite Hin; naive_solver). split_and!; try done; lia. }
  case_decide as Hs.
  { assert (~ covered pieces (jd_Timestamp j)) by (rewrite Hin; intros (? & [= <-] & ?); lia).
    intros [= <- <-]. rewrite (decide_False (P := checked _ _)) by (unfold checked; tauto).
    rewrite (decide_False (P := up _ _)) by (unfold up; tauto). split_and!; try done; lia. }
  intros [= <- <-]. destruct (AddLatency_counts (duration_ms (jd_Duration j)) 1 true t) as [-> ->].
  assert (covered pieces (jd_Timestamp j)) by (apply Hin; exists p; split; [done | lia]).
  destruct (lookup_lt_is_Some_2 accs (search_end pieces (jd_Timestamp j))) as [a Ha]; [rewrite Hlen; by eapply lookup_lt_Some |].
  rewrite !(sum_alter _ _ _ _ _ Ha). rewrite (decide_True (P := checked _ _)) by done. cbn [a_checks a_up]. split_and!.
  - by rewrite length_alter.
  - apply Forall_lookup. intros k x Hk. rewrite Forall_lookup in Hok. destruct (decide (k = search_end pieces (jd_Timestamp j))) as [->|].
    + rewrite list_lookup_alter, decide_True, Ha in Hk by done. apply (inj Some) in Hk as <-. specialize (Hok _ _ Ha). unfold acc_ok in *. cbn. case_decide; lia.
    + rewrite list_lookup_alter_ne in Hk by done. by eapply Hok.
  - done.
  - done.
  - lia.
  - destruct (decide (jd_Status j = SoulAlive)); [rewrite decide_True by done | rewrite decide_False by (unfold up; tauto)]; lia.
Qed.

Lemma count_all pieces js : forall accs t accs' t', ordered pieces -> length accs = length pieces -> Forall acc_ok accs ->
  foldl (fun st j => count_one math_Log pieces j st) (accs, t) js = (accs', t') ->
  length accs' = length pieces /\ Forall acc_ok accs' /\ Checks t' = Checks t /\ Up t' = Up t /\
  sum_by a_checks accs' = sum_by a_checks accs + count (checked pieces) js /\
  sum_by a_up accs' = sum_by a_up accs + count (up pieces) js.
Proof.
  induction js as [|j js IH]; intros accs t accs' t' Ho Hl Hok; cbn [foldl].
  - intros [= <- <-]. unfold count; cbn. split_and!; try done; lia.
  - destruct (count_one math_Log pieces j (accs, t)) as [accs1 t1] eqn:E1.
    destruct (count_one_spec _ _ _ _ _ _ Ho Hl Hok E1) as (Hl1 & Hok1 & Hc1 & Hu1 & Sc1 & Su1).
    intros E2. destruct (IH _ _ _ _ Ho Hl1 Hok1 E2) as (Hl2 & Hok2 & Hc2 & Hu2 & Sc2 & Su2).
    rewrite !count_cons. split_and!; try done; lia.
Qed.

Lemma add_buckets (pieces : list TimeRange) accs : forall t, length accs = length pieces -> Forall acc_ok accs ->
  let t' := foldl (fun t pa => AddBucket (End pa.1 - Start pa.1) (a_checks pa.2) (a_up pa.2) (a_latSum pa.2) SourceRaw t) t (zip pieces accs) in
  Checks t' = Checks t + sum_by a_checks accs /\ Up t' = Up t + sum_by a_up accs.
Proof.
  revert accs. induction pieces as [|p pieces IH]; intros [|a accs] t Hl Hok; try discriminate; cbn [zip zip_with foldl sum_by foldr fst snd]; [lia |].
  apply Forall_cons in Hok as [Ha Hok]. injection Hl as Hl.
  destruct (IH accs (AddBucket (End p - Start p) (a_checks a) (a_up a) (a_latSum a) SourceRaw t) Hl Hok) as [Hc Hu].
  destruct (AddBucket_counts (End p - Start p) (a_checks a) (a_up a) (a_latSum a) SourceRaw t Ha) as [Ec Eu].
  cbv zeta in Hc, Hu. unfold zip in *. unfold sum_by in *. lia.
Qed.

(** Each judgment is counted once, in the piece that holds it. *)
Lemma CountJudgments_counts pieces js t : ordered pieces ->
  Checks (CountJudgments math_Log pieces js t) = Checks t + count (checked pieces) js /\
  Up (CountJudgments math_Log pieces js t) = Up t + count (up pieces) js.
Proof.
  intros Ho. unfold CountJudgments. set (accs0 := replicate _ _).
  destruct (foldl (fun st j => count_one math_Log pieces j st) (accs0, t) js) as [accs t'] eqn:E.
  assert (Forall acc_ok accs0) by (apply Forall_replicate; unfold acc_ok; cbn; lia).
  destruct (count_all pieces js accs0 t accs t' Ho) as (Hl & Hok & Hc & Hu & Sc & Su); [apply length_replicate | done | done |].
  destruct (add_buckets pieces accs t' Hl Hok) as [Ec Eu]. subst accs0.
  rewrite Ec, Eu, Sc, Su, !sum_replicate by done. lia.
Qed.
End counting.
