(* ===== verification/TimeSeries.v ===== *)
(** * Stored checks and their summaries

    src/internal/storage/judgments.go, timeseries.go and the purges of
    retention.go: a judgment is stored under its soul and time, together, in
    one write, with the minute, hour and day summaries it changes; compaction
    builds coarser summaries and retention deletes old data. The store is any
    implementation of the key/value interface; [RangeScan] is given beside it.
    JSON and the format of times are a codec, the clock and generated IDs
    arguments. *)
From stdpp Require Import base gmap strings list sorting.
From Stdlib Require Import ZArith Lia Strings.Ascii Strings.Byte Floats.SpecFloat.
From S2P Require Import Prelude GoStrings GoFloat Engine KeyValue Index LogStore Fsm Flap Sla.

Open Scope Z_scope.

(** ** Data *)

Inductive TimeResolution := ResolutionRaw | Resolution1Min | Resolution5Min | Resolution1Hour | Resolution1Day.

#[export] Instance TimeResolution_eq_dec : EqDecision TimeResolution.
Proof. solve_decision. Defined.

Definition res_name (r : TimeResolution) : string :=
  match r with
  | ResolutionRaw => "raw" | Resolution1Min => "1min" | Resolution5Min => "5min"
  | Resolution1Hour => "1hour" | Resolution1Day => "1day"
  end.

(** Days are UTC days: midnight is a multiple of a day. *)
Definition truncateToResolution (t : Z) (r : TimeResolution) : Z :=
  match r with
  | Resolution1Min => Truncate t (60 * Second)
  | Resolution5Min => Truncate t (300 * Second)
  | Resolution1Hour => Truncate t Hour
  | Resolution1Day => Truncate t Day
  | ResolutionRaw => t
  end.

Definition resolutionSpan (r : TimeResolution) : Z :=
  match r with
  | Resolution1Min => 60 * Second | Resolution5Min => 300 * Second | Resolution1Hour => Hour
  | Resolution1Day => Day | ResolutionRaw => 0
  end.

(** [t.Unix()]. *)
Definition Unix (t : Z) : Z := t / Second.

Record SourceSnapshot := MkSnapshot {
  sn_Count : Z; sn_SuccessCount : Z; sn_MinLatency : float64; sn_MaxLatency : float64; sn_AvgLatency : float64;
}.

#[export] Instance SourceSnapshot_eq_dec : EqDecision SourceSnapshot.
Proof. solve_decision. Defined.

Record JudgmentSummary := MkSummary {
  sm_SoulID : string;
  sm_WorkspaceID : string;
  sm_Resolution : string;
  BucketTime : Z;
  Count : Z;
  SuccessCount : Z;
  FailureCount : Z;
  MinLatency : float64;
  MaxLatency : float64;
  AvgLatency : float64;
  P50Latency : float64;
  P95Latency : float64;
  P99Latency : float64;
  UptimePercent : float64;
  PacketLossAvg : float64;
  sm_Sources : option (gmap string SourceSnapshot);
}.

Definition zero_summary : JudgmentSummary :=
  let z := float_of 0 in MkSummary "" "" "" zero_time 0 0 0 z z z z z z z z None.

Definition snapshotOf (s : JudgmentSummary) : SourceSnapshot :=
  MkSnapshot (Count s) (SuccessCount s) (MinLatency s) (MaxLatency s) (AvgLatency s).

(** A judgment as it reads back: a negative zero is left out like any zero. *)
Definition read_back (j : Judgment) : Judgment :=
  MkCheck (jd_ID j) (jd_SoulID j) (jd_WorkspaceID j) (jd_Timestamp j) (jd_Duration j) (jd_Status j)
    (match jd_PacketLoss j with S754_zero _ => S754_zero false | x => x end).

(** encoding/json refuses infinities and NaN, leaves out an empty map, and
    keeps counts. *)
Class TSCodec := {
  marshal_judgment : Judgment -> option bytes;
  unmarshal_judgment : bytes -> option Judgment;
  marshal_summary : JudgmentSummary -> option bytes;
  unmarshal_summary : bytes -> option JudgmentSummary;
  format_time : Z -> bytes;
  parse_time : bytes -> option Z;
  judgment_roundtrip j b : marshal_judgment j = Some b -> unmarshal_judgment b = Some (read_back j);
  summary_roundtrip s b : marshal_summary s = Some b -> exists s', unmarshal_summary b = Some s' /\
    Count s' = Count s /\ SuccessCount s' = SuccessCount s /\ BucketTime s' = BucketTime s /\
    sm_Sources s' = match sm_Sources s with Some m => if decide (m = ∅) then None else Some m | None => None end;
  time_roundtrip t : parse_time (format_time t) = Some t;
}.

Inductive ts_error := TSStore (e : db_error) | TSInvalidID | TSMarshal | TSUnmarshal.

(** ** Keys *)

Definition raw_prefix (ws soul : string) : string := ws +:+ "/judgments/" +:+ soul +:+ "/".
Definition legacy_key (ws soul : string) (ts : Z) : string := raw_prefix ws soul +:+ FormatInt ts.
Definition index_key (ws id : string) : string := ws +:+ "/judgment-idx/" +:+ id.
Definition summary_prefix (ws soul : string) (r : TimeResolution) : string := ws +:+ "/ts/" +:+ soul +:+ "/" +:+ res_name r +:+ "/".
Definition summary_key (ws soul : string) (r : TimeResolution) (unix : Z) : string := summary_prefix ws soul r +:+ FormatInt unix.
Definition liveSinceKey (ws soul : string) : string := ws +:+ "/ts/" +:+ soul +:+ "/live-since".

Definition defaultWorkspace (ws : string) : string := if decide (ws = "") then "default" else ws.

Definition validateResourceID (id : string) : bool := bool_decide (slash ∉ String.list_ascii_of_string id).

Definition is_missing (e : db_error) : bool := match e with ErrNotFound _ => true | _ => false end.

(** ** Judgments *)

Section store.
Context {D : Type} `{KeyValue D} {J : TSCodec}.
Context (kv_range : D -> string -> string -> db_error + gmap string bytes).

(** The judgment with its ID and workspace, the pairs to write and the index
    key. [gen] is the generated ID and [ctx] the workspace of the context. *)
Definition prepareJudgment (d : D) (gen ctx : string) (j : Judgment) : ts_error + (Judgment * gmap string bytes * string) :=
  let id := if decide (jd_ID j = "") then gen else jd_ID j in
  if negb (validateResourceID id) then inl TSInvalidID else
  let ws := if decide (jd_WorkspaceID j = "") then ctx else jd_WorkspaceID j in
  let j := MkCheck id (jd_SoulID j) ws (jd_Timestamp j) (jd_Duration j) (jd_Status j) (jd_PacketLoss j) in
  let legacyKey := legacy_key ws (jd_SoulID j) (jd_Timestamp j) in
  let key := legacyKey +:+ "/" +:+ id in
  let finish key :=
    match marshal_judgment j with
    | None => inl TSMarshal
    | Some data => let idxKey := index_key ws id in inr (j, <[idxKey := String.list_byte_of_string key]> {[key := data]}, idxKey)
    end in
  match kv_get d legacyKey with
  | inr raw =>
      match unmarshal_judgment raw with
      | Some previous => if decide (jd_ID previous = id) then finish legacyKey else finish key
      | None => finish key
      end
  | inl e => if is_missing e then finish key else inl (TSStore e)
  end.

Definition recordJudgmentIndex (j : Judgment) (idxKey : string) (x : indexes) : indexes :=
  recordWorkspaceLocked (jd_WorkspaceID j) (set_id (Some (judgmentIndex, jd_ID j, idxKey)) x).

(** [db.SaveJudgment], without summaries. *)
Definition db_SaveJudgment (s : store (D := D)) (c : call_env) (gen ctx : string) (j : Judgment) : store (D := D) * option ts_error :=
  let '(d, x) := s in
  match prepareJudgment d gen ctx j with
  | inl e => (s, Some e)
  | inr (j, values, idxKey) =>
      match kv_put_many d c values with
      | (d, Some e) => ((d, x), Some (TSStore e))
      | (d, None) => ((d, recordJudgmentIndex j idxKey x), None)
      end
  end.

Definition GetJudgmentByID (d : D) (ws id : string) : option Judgment :=
  let ws := defaultWorkspace ws in
  match kv_get d (index_key ws id) with
  | inl _ => None
  | inr primary =>
      match kv_get d (String.string_of_list_byte primary) with
      | inl _ => None
      | inr data =>
          match unmarshal_judgment data with
          | None => None
          | Some j => if decide (jd_ID j <> id \/ defaultWorkspace (jd_WorkspaceID j) <> ws) then None else Some j
          end
      end
  end.

(** Newest first, the greater ID first among equals. *)
Definition newer (a b : Judgment) : bool :=
  if decide (jd_Timestamp a = jd_Timestamp b) then String.ltb (jd_ID b) (jd_ID a) else bool_decide (jd_Timestamp b < jd_Timestamp a).

Definition QueryJudgments (d : D) (ws soul : string) (start end_ : Z) (limit : nat) : db_error + list Judgment :=
  let prefix := raw_prefix (defaultWorkspace ws) soul in
  let startKey := prefix +:+ FormatInt start in
  let endKey := prefix +:+ FormatInt end_ in
  let results :=
    if decide (start < 0 \/ end_ < 0 \/ String.length startKey <> String.length endKey) then kv_scan d prefix
    else kv_range d startKey endKey in
  match results with
  | inl e => inl e
  | inr results =>
      let judgments := filter (fun j => ~ (jd_Timestamp j < start \/ end_ <= jd_Timestamp j))
                         (omap (fun kv => unmarshal_judgment kv.2) (map_to_list results)) in
      let judgments := sort_by newer judgments in
      inr (if decide (0 < limit < length judgments)%nat then take limit judgments else judgments)
  end.

(** By time alone, for old callers: of several records of one instant the one
    with the greatest key. *)
Definition greatest (l : list (string * bytes)) : option (string * bytes) :=
  foldl (fun best kv => match best with
                        | Some b => if String.ltb b.1 kv.1 then Some kv else best
                        | None => if String.ltb "" kv.1 then Some kv else None
                        end) None l.

Definition GetJudgment (d : D) (ws soul : string) (timestamp : Z) : ts_error + Judgment :=
  let key := legacy_key (defaultWorkspace ws) soul timestamp in
  let decode data := match unmarshal_judgment data with Some j => inr j | None => inl TSUnmarshal end in
  match kv_get d key with
  | inr data => decode data
  | inl e =>
      if negb (is_missing e) then inl (TSStore e) else
      match kv_scan d (key +:+ "/") with
      | inl e => inl (TSStore e)
      | inr matches => match greatest (map_to_list matches) with Some (_, data) => decode data | None => inl (TSStore e) end
      end
  end.

Definition GetLatestJudgment (d : D) (ws soul : string) : db_error + Judgment :=
  match kv_scan d (raw_prefix (defaultWorkspace ws) soul) with
  | inl e => inl e
  | inr results =>
      match foldl (fun latest j => match latest with
                                   | Some l => if newer j l then Some j else latest
                                   | None => Some j
                                   end) None (omap (fun kv => unmarshal_judgment kv.2) (map_to_list results)) with
      | Some j => inr j
      | None => inl (ErrNotFound soul)
      end
  end.

(** [now] is the end of the window. *)
Definition GetSoulPurity (d : D) (ws soul : string) (window now : Z) : db_error + float64 :=
  match QueryJudgments d ws soul (now - window) now 0 with
  | inl e => inl e
  | inr [] => inr (float_of 0)
  | inr judgments =>
      let aliveCount := foldl (fun n j => if decide (jd_Status j = SoulAlive) then n + 1 else n) 0 judgments in
      inr (float_of aliveCount / float_of (Z.of_nat (length judgments)) * float_of 100)%f64
  end.

(** *** Export *)

Definition exportChunk : Z := Hour.

Definition older_first (a b : Judgment) : bool :=
  if decide (jd_Timestamp a = jd_Timestamp b) then String.ltb (jd_ID a) (jd_ID b) else bool_decide (jd_Timestamp a < jd_Timestamp b).

(** One chunk passed on: what was sent so far, and with it whether the limit
    or the callback ended the export. *)
Fixpoint deliver {E} (limit : nat) (fn : Judgment -> option E) (js sent : list Judgment) : (list Judgment * bool * option E) + list Judgment :=
  match js with
  | [] => inr sent
  | j :: js =>
      if decide (0 < limit <= length sent)%nat then inl (sent, true, None) else
      match fn j with Some e => inl (sent, false, Some e) | None => deliver limit fn js (sent ++ [j]) end
  end.

(** The judgments passed on, whether the limit was met, and the error of the
    store or of the callback. The context is not cancelled; every step but
    the last ends at an hour, so the hours of the period are enough. *)
Fixpoint stream_loop {E} (fuel : nat) (d : D) (ws soul : string) (limit : nat) (fn : Judgment -> option E) (a end_ : Z) (sent : list Judgment) :
    list Judgment * bool * option (db_error + E) :=
  match fuel with
  | O => (sent, false, None)
  | S fuel =>
      if decide (a < end_) then
        let b := Truncate a exportChunk + exportChunk in
        let b := if decide (end_ < b) then end_ else b in
        match QueryJudgments d ws soul a b 0 with
        | inl e => (sent, false, Some (inl e))
        | inr judgments =>
            match deliver limit fn (sort_by older_first judgments) sent with
            | inl (sent, full, e) => (sent, full, inr <$> e)
            | inr sent => stream_loop fuel d ws soul limit fn b end_ sent
            end
        end
      else (sent, false, None)
  end.

Definition StreamJudgments {E} (d : D) (ws soul : string) (start end_ : Z) (limit : nat) (fn : Judgment -> option E) :
    list Judgment * bool * option (db_error + E) :=
  stream_loop (hours_between start end_) d (defaultWorkspace ws) soul limit fn start end_ [].

(** ** Summaries *)

(** The running figures after one more judgment. *)
Definition add_to_summary (summary : JudgmentSummary) (j : Judgment) (ws : string) (r : TimeResolution) (bucketTime : Z) : JudgmentSummary :=
  let latencyMs := duration_ms (jd_Duration j) in
  let n := Count summary + 1 in
  let alive := bool_decide (jd_Status j = SoulAlive) in
  let success := if alive then SuccessCount summary + 1 else SuccessCount summary in
  let failure := if alive then FailureCount summary else FailureCount summary + 1 in
  let first := bool_decide (n = 1) in
  MkSummary (jd_SoulID j) ws (res_name r) bucketTime n success failure
    (if first then latencyMs else math_Min (MinLatency summary) latencyMs)
    (if first then latencyMs else math_Max (MaxLatency summary) latencyMs)
    (if first then latencyMs else ((AvgLatency summary * float_of (n - 1) + latencyMs) / float_of n)%f64)
    (P50Latency summary) (P95Latency summary) (P99Latency summary)
    (float_of success / float_of n * float_of 100)%f64
    ((PacketLossAvg summary * float_of (n - 1) + jd_PacketLoss j) / float_of n)%f64
    (sm_Sources summary).

Definition prepareSummaryFrom (get : string -> db_error + bytes) (ctx : string) (j : Judgment) (r : TimeResolution) :
    ts_error + (string * bytes) :=
  let ws := if decide (jd_WorkspaceID j = "") then ctx else jd_WorkspaceID j in
  let bucketTime := truncateToResolution (jd_Timestamp j) r in
  let key := summary_key ws (jd_SoulID j) r (Unix bucketTime) in
  let finish summary :=
    match marshal_summary (add_to_summary summary j ws r bucketTime) with
    | None => inl TSMarshal
    | Some data => inr (key, data)
    end in
  match get key with
  | inr data => match unmarshal_summary data with Some summary => finish summary | None => inl TSUnmarshal end
  | inl e => if is_missing e then finish zero_summary else inl (TSStore e)
  end.

Definition live_resolutions : list TimeResolution := [Resolution1Min; Resolution1Hour; Resolution1Day].

Fixpoint add_summaries (get : string -> db_error + bytes) (ctx : string) (j : Judgment) (rs : list TimeResolution)
    (values : gmap string bytes) : ts_error + gmap string bytes :=
  match rs with
  | [] => inr values
  | r :: rs =>
      match prepareSummaryFrom get ctx j r with
      | inl e => inl e
      | inr (key, data) => add_summaries get ctx j rs (<[key := data]> values)
      end
  end.

(** The marker of a soul that is not known to have one. *)
Definition add_marker (get : string -> db_error + bytes) (liveMarked : gset string) (now : Z) (j : Judgment)
    (values : gmap string bytes) : ts_error + gmap string bytes :=
  let marker := liveSinceKey (jd_WorkspaceID j) (jd_SoulID j) in
  if decide (marker ∈ liveMarked) then inr values else
  match get marker with
  | inr _ => inr values
  | inl e => if is_missing e then inr (<[marker := format_time now]> values) else inl (TSStore e)
  end.

(** The store and the souls known to have a marker. *)
Record TimeSeriesStore := MkTS { ts_db : D; ts_idx : indexes; liveMarked : gset string }.

(** Everything one judgment writes. *)
Definition prepare_all (d : D) (get : string -> db_error + bytes) (marked : gset string) (gen ctx : string) (now : Z) (j : Judgment) :
    ts_error + (Judgment * gmap string bytes * string) :=
  match prepareJudgment d gen ctx j with
  | inl e => inl e
  | inr (j, values, idxKey) =>
      match add_summaries get ctx j live_resolutions values with
      | inl e => inl e
      | inr values =>
          match add_marker get marked now j values with
          | inl e => inl e
          | inr values => inr (j, values, idxKey)
          end
      end
  end.

Definition SaveJudgment (ts : TimeSeriesStore) (c : call_env) (gen ctx : string) (now : Z) (j : Judgment) :
    TimeSeriesStore * option ts_error :=
  match prepare_all (ts_db ts) (kv_get (ts_db ts)) (liveMarked ts) gen ctx now j with
  | inl e => (ts, Some e)
  | inr (j, values, idxKey) =>
      match kv_put_many (ts_db ts) c values with
      | (d, Some e) => (MkTS d (ts_idx ts) (liveMarked ts), Some (TSStore e))
      | (d, None) =>
          (MkTS d (recordJudgmentIndex j idxKey (ts_idx ts))
             ({[liveSinceKey (jd_WorkspaceID j) (jd_SoulID j)]} ∪ liveMarked ts), None)
      end
  end.

(** *** A batch *)

Record batch := MkBatch {
  b_values : gmap string bytes;
  b_size : Z;
  b_pending : list (Judgment * string);
  b_markers : list string;
}.

Definition empty_batch : batch := MkBatch ∅ 0 [] [].

Definition batch_get (d : D) (values : gmap string bytes) (key : string) : db_error + bytes :=
  match values !! key with Some v => inr v | None => kv_get d key end.

Definition batch_flush (ts : TimeSeriesStore) (c : call_env) (b : batch) : TimeSeriesStore * batch * option ts_error :=
  if decide (b_values b = ∅) then (ts, b, None) else
  match kv_put_many (ts_db ts) c (b_values b) with
  | (d, Some e) => (MkTS d (ts_idx ts) (liveMarked ts), b, Some (TSStore e))
  | (d, None) =>
      (MkTS d (foldl (fun x p => recordJudgmentIndex p.1 p.2 x) (ts_idx ts) (b_pending b))
         (list_to_set (b_markers b) ∪ liveMarked ts), empty_batch, None)
  end.

Definition group_cost (group : gmap string bytes) : Z :=
  foldr (fun kv z => walBatchCost kv.1 kv.2 + z) 0 (map_to_list group).

(** Whether the judgment is stored or was met before; and what was met. *)
Definition already (d : D) (seen : gset string) (j : Judgment) : bool * gset string :=
  if decide (jd_ID j = "") then (false, seen) else
  let ws := defaultWorkspace (jd_WorkspaceID j) in
  let mark := ws +:+ "/" +:+ jd_ID j in
  if decide (mark ∈ seen) then (true, seen) else
  (match GetJudgmentByID d ws (jd_ID j) with Some _ => true | None => false end, {[mark]} ∪ seen).

(** [gens] and [nows] are the generated ID and the time of each judgment,
    [cs] the environments of the writes. *)
Fixpoint save_loop (ts : TimeSeriesStore) (cs : nat -> call_env) (k : nat) (ctx : string) (b : batch) (seen : gset string)
    (js : list (Judgment * string * Z)) : TimeSeriesStore * option ts_error :=
  match js with
  | [] => let '(ts, _, e) := batch_flush ts (cs k) b in (ts, e)
  | (j, gen, now) :: js =>
      let '(skip, seen) := already (ts_db ts) seen j in
      if skip then save_loop ts cs k ctx b seen js else
      match prepare_all (ts_db ts) (batch_get (ts_db ts) (b_values b)) (liveMarked ts) gen ctx now j with
      | inl e => (ts, Some e)
      | inr (j, group, idxKey) =>
          let marker := liveSinceKey (jd_WorkspaceID j) (jd_SoulID j) in
          let markers := if decide (marker ∈ liveMarked ts) then [] else [marker] in
          let groupSize := group_cost group in
          let add b markers := MkBatch (group ∪ b_values b) (b_size b + groupSize) (b_pending b ++ [(j, idxKey)]) markers in
          if decide (b_size b > 0 /\ b_size b + groupSize > walBatchBudget) then
            match batch_flush ts (cs k) (MkBatch (b_values b) (b_size b) (b_pending b) (b_markers b ++ markers)) with
            | (ts, _, Some e) => (ts, Some e)
            | (ts, b, None) => save_loop ts cs (S k) ctx (add b (b_markers b)) seen js
            end
          else save_loop ts cs k ctx (add b (b_markers b ++ markers)) seen js
      end
  end.

Definition SaveJudgments (ts : TimeSeriesStore) (cs : nat -> call_env) (ctx : string) (js : list (Judgment * string * Z)) :
    TimeSeriesStore * option ts_error := save_loop ts cs 0 ctx empty_batch ∅ js.

(** *** Reading *)

Definition QuerySummaries (d : D) (ws soul : string) (r : TimeResolution) (start end_ : Z) : db_error + list JudgmentSummary :=
  let ws := defaultWorkspace ws in
  match kv_range d (summary_key ws soul r (Unix (truncateToResolution start r)))
          (summary_key ws soul r (Unix (truncateToResolution end_ r) + 1)) with
  | inl e => inl e
  | inr results => inr (omap (fun kv => unmarshal_summary kv.2) (map_to_list results))
  end.

Definition GetPurityFromSummaries (d : D) (ws soul : string) (window now : Z) : db_error + float64 :=
  match QuerySummaries d ws soul Resolution1Min (now - window) now with
  | inl e => inl e
  | inr summaries =>
      let totalCount := foldl (fun z s => z + Count s) 0 summaries in
      let successCount := foldl (fun z s => z + SuccessCount s) 0 summaries in
      inr (if decide (totalCount = 0) then float_of 0 else (float_of successCount / float_of totalCount * float_of 100)%f64)
  end.

(** [strconv.ParseInt] of what follows the last slash. *)
Definition after_last_slash (key : string) : string :=
  match last_index slash key with Some i => String.substring (S i) (String.length key - S i) key | None => key end.

Definition summariesByBucket (d : D) (ws soul : string) (r : TimeResolution) (from to : Z) : db_error + gmap Z JudgmentSummary :=
  let prefix := summary_prefix ws soul r in
  let startKey := prefix +:+ FormatInt (Unix (truncateToResolution from r)) in
  let endKey := prefix +:+ FormatInt (Unix to) in
  match (if decide (String.length startKey = String.length endKey) then kv_range d startKey endKey else kv_scan d prefix) with
  | inl e => inl e
  | inr results =>
      inr (list_to_map (omap (fun kv =>
             match ParseInt (after_last_slash kv.1) 10 64 with
             | None => None
             | Some unix =>
                 if decide (unix < Unix from \/ Unix to <= unix) then None else
                 s ← unmarshal_summary kv.2; Some (unix, s)
             end) (map_to_list results)))
  end.

(** ** Compaction *)

Definition rollupSources (d : D) (key : string) (current : gmap string JudgmentSummary) : list JudgmentSummary * bool :=
  let all := (map_to_list current).*2 in
  match kv_get d key with
  | inl _ => (all, true)
  | inr data =>
      match unmarshal_summary data with
      | None => (all, true)
      | Some existing =>
          match sm_Sources existing with
          | None => (all, bool_decide (Count existing < foldr (fun s z => Count s + z) 0 all))
          | Some recorded =>
              let changed := existsb (fun us => match recorded !! us.1 with
                                                | None => true
                                                | Some snap => bool_decide (snap <> snapshotOf us.2)
                                                end) (map_to_list current) in
              if negb changed then ([], false) else
              let carried := omap (fun us =>
                if decide (is_Some (current !! us.1)) then None else
                sec ← ParseInt us.1 10 64;
                Some (MkSummary "" "" "" (sec * Second) (sn_Count us.2) (sn_SuccessCount us.2) 0 (sn_MinLatency us.2)
                        (sn_MaxLatency us.2) (sn_AvgLatency us.2) (float_of 0) (float_of 0) (float_of 0) (float_of 0) (float_of 0) None))
                (map_to_list recorded) in
              (all ++ carried, true)
          end
      end
  end.

Definition weight_less (a b : float64 * Z) : bool := flt a.1 b.1.

Fixpoint weighted_at (targetRank : float64) (cumulative : Z) (l : list (float64 * Z)) (last : float64) : float64 :=
  match l with
  | [] => last
  | (v, c) :: l => let cumulative := cumulative + c in if fle targetRank (float_of cumulative) then v else weighted_at targetRank cumulative l v
  end.

Definition weightedPercentile (weighted : list (float64 * Z)) (percentile : float64) (totalCount : Z) : float64 :=
  weighted_at (float_of totalCount * percentile)%f64 0 weighted (float_of 0).

(** The rollup built from its sources, over what the target had. *)
Definition aggregate (ws soul : string) (r : TimeResolution) (bucketTime : Z) (sources : list JudgmentSummary) (target : JudgmentSummary) :
    JudgmentSummary :=
  let totalCount := foldl (fun z s => z + Count s) 0 sources in
  let successCount := foldl (fun z s => z + SuccessCount s) 0 sources in
  let latencySum := foldl (fun z s => (z + AvgLatency s * float_of (Count s))%f64) (float_of 0) sources in
  let counted := filter (fun s => 0 < Count s) sources in
  let weighted := sort_by weight_less ((fun s => (AvgLatency s, Count s)) <$> counted) in
  let globalMin := foldl (fun m s => if flt (MinLatency s) m then MinLatency s else m) (Inf false) counted in
  let globalMax := foldl (fun m s => if flt m (MaxLatency s) then MaxLatency s else m) (Inf true) counted in
  let some := bool_decide (0 < length weighted)%nat in
  let ranked := some && bool_decide (2 <= totalCount) in
  MkSummary soul ws (res_name r) bucketTime totalCount successCount (totalCount - successCount)
    (if some then globalMin else MinLatency target)
    (if some then globalMax else MaxLatency target)
    (if some then (latencySum / float_of totalCount)%f64 else AvgLatency target)
    (if ranked then weightedPercentile weighted (const 50 100) totalCount else P50Latency target)
    (if ranked then weightedPercentile weighted (const 95 100) totalCount else P95Latency target)
    (if ranked then weightedPercentile weighted (const 99 100) totalCount else P99Latency target)
    (float_of successCount / float_of totalCount * float_of 100)%f64
    (PacketLossAvg target)
    (Some (list_to_map (reverse ((fun s => (FormatInt (Unix (BucketTime s)), snapshotOf s)) <$> sources)))).

Definition aggregateAndSave (d : D) (c : call_env) (ws soul : string) (r : TimeResolution) (bucketTime : Z) (sources : list JudgmentSummary) :
    D * option ts_error :=
  let key := summary_key ws soul r (Unix bucketTime) in
  let target := match kv_get d key with inr data => default zero_summary (unmarshal_summary data) | inl _ => zero_summary end in
  match marshal_summary (aggregate ws soul r bucketTime sources target) with
  | None => (d, Some TSMarshal)
  | Some data => match kv_put d c key data with (d, Some e) => (d, Some (TSStore e)) | (d, None) => (d, None) end
  end.

(** The target bucket a source key belongs to, when it is to be compacted. *)
Definition source_target (srcRes tgtRes : TimeResolution) (cutoff : Z) (key : string) : option (string * string * Z * string * Z) :=
  match split_at slash key with
  | [ws; t; soul; res; unix] =>
      if decide (t <> "ts" \/ res <> res_name srcRes) then None else
      sec ← ParseInt unix 10 64;
      let bucketTime := sec * Second in
      if decide (truncateToResolution cutoff srcRes < bucketTime) then None else
      let target := truncateToResolution bucketTime tgtRes in
      if decide (cutoff < target + resolutionSpan tgtRes) then None else Some (ws, soul, target, unix, bucketTime)
  | _ => None
  end.

Abbreviation aggregations := (gmap (string * string * Z) (gmap string JudgmentSummary)).

Definition collect_source (srcRes tgtRes : TimeResolution) (cutoff : Z) (aggs : aggregations) (kv : string * bytes) : aggregations :=
  match source_target srcRes tgtRes cutoff kv.1 with
  | None => aggs
  | Some (ws, soul, target, unix, bucketTime) =>
      match unmarshal_summary kv.2 with
      | None => aggs
      | Some s =>
          let s := MkSummary (sm_SoulID s) (sm_WorkspaceID s) (sm_Resolution s) bucketTime (Count s) (SuccessCount s) (FailureCount s)
                     (MinLatency s) (MaxLatency s) (AvgLatency s) (P50Latency s) (P95Latency s) (P99Latency s) (UptimePercent s)
                     (PacketLossAvg s) (sm_Sources s) in
          <[(ws, soul, target) := <[unix := s]> (default ∅ (aggs !! (ws, soul, target)))]> aggs
      end
  end.

Fixpoint collect_workspaces (d : D) (srcRes tgtRes : TimeResolution) (cutoff : Z) (wss : list string) (aggs : aggregations) :
    db_error + aggregations :=
  match wss with
  | [] => inr aggs
  | ws :: wss =>
      match kv_scan d (ws +:+ "/ts/") with
      | inl e => inl e
      | inr results => collect_workspaces d srcRes tgtRes cutoff wss (foldl (collect_source srcRes tgtRes cutoff) aggs (map_to_list results))
      end
  end.

Definition known_workspaces (x : indexes) : list string := match workspaceOrder x with [] => ["default"] | l => l end.

(** One target after another; a failed one is skipped. *)
Fixpoint roll_targets (d : D) (cs : nat -> call_env) (k : nat) (tgtRes : TimeResolution)
    (targets : list (string * string * Z * gmap string JudgmentSummary)) : D :=
  match targets with
  | [] => d
  | (ws, soul, bucket, current) :: targets =>
      let '(sources, changed) := rollupSources d (summary_key ws soul tgtRes (Unix bucket)) current in
      if negb changed then roll_targets d cs k tgtRes targets else
      roll_targets (aggregateAndSave d (cs k) ws soul tgtRes bucket sources).1 cs (S k) tgtRes targets
  end.

Definition compactToResolution (s : store (D := D)) (cs : nat -> call_env) (srcRes tgtRes : TimeResolution) (threshold now : Z) :
    store (D := D) * option db_error :=
  if decide (threshold <= 0) then (s, None) else
  let cutoff := now - threshold in
  match collect_workspaces s.1 srcRes tgtRes cutoff (known_workspaces s.2) ∅ with
  | inl e => (s, Some e)
  | inr aggs => ((roll_targets s.1 cs 0 tgtRes ((fun kv => (kv.1.1.1, kv.1.1.2, kv.1.2, kv.2)) <$> map_to_list aggs), s.2), None)
  end.

Record CompactionConfig := MkCompaction { RawToMinute : Z; MinuteToFive : Z; FiveToHour : Z; HourToDay : Z }.

(** [css] are the environments of the four passes and [nows] their times;
    errors are logged. *)
Definition runCompaction (s : store (D := D)) (css : nat -> nat -> call_env) (config : CompactionConfig) (nows : nat -> Z) : store (D := D) :=
  let s := (compactToResolution s (css 0%nat) ResolutionRaw Resolution1Min (RawToMinute config) (nows 0%nat)).1 in
  let s := (compactToResolution s (css 1%nat) Resolution1Min Resolution5Min (MinuteToFive config) (nows 1%nat)).1 in
  let s := (compactToResolution s (css 2%nat) Resolution5Min Resolution1Hour (FiveToHour config) (nows 2%nat)).1 in
  (compactToResolution s (css 3%nat) Resolution1Hour Resolution1Day (HourToDay config) (nows 3%nat)).1.

(** ** Retention *)

(** A summary of the resolution whose bucket starts before the cutoff. *)
Definition expired_summary (resolution : string) (cutoff : Z) (key : string) : bool :=
  match split_at slash key with
  | [_; _; _; res; ts] =>
      if decide (res <> resolution) then false else
      match ParseInt ts 10 64 with Some sec => bool_decide (sec * Second < cutoff) | None => false end
  | _ => false
  end.

(** Failed deletions are logged and skipped; [k] counts the calls. *)
Fixpoint purge_keys (d : D) (cs : nat -> call_env) (k : nat) (keys : list string) : D * nat :=
  match keys with
  | [] => (d, k)
  | key :: keys => purge_keys (kv_delete d (cs k) key).1 cs (S k) keys
  end.

Fixpoint purge_workspaces (d : D) (cs : nat -> call_env) (k : nat) (resolution : string) (cutoff : Z) (wss : list string) :
    D * option db_error :=
  match wss with
  | [] => (d, None)
  | ws :: wss =>
      match kv_scan d (ws +:+ "/ts/") with
      | inl e => (d, Some e)
      | inr results =>
          let '(d, k) := purge_keys d cs k (filter (fun key => expired_summary resolution cutoff key = true) (map_to_list results).*1) in
          purge_workspaces d cs k resolution cutoff wss
      end
  end.

Definition purgeSummaries (s : store (D := D)) (cs : nat -> call_env) (resolution : string) (cutoff : Z) : store (D := D) * option db_error :=
  let '(d, e) := purge_workspaces s.1 cs 0 resolution cutoff (known_workspaces s.2) in ((d, s.2), e).

(** The time in the key of a judgment, [parts[3]]. *)
Definition raw_time (key : string) : option Z :=
  match split_at slash key with _ :: _ :: _ :: ts :: _ => ParseInt ts 10 64 | _ => None end.

Definition old_raw (cutoff : Z) (key : string) : bool :=
  match raw_time key with Some ts => bool_decide (ts < cutoff) | None => false end.

(** One old judgment: the record, then its index key and the entry in memory.
    Only a failure to delete the index key stops the purge. *)
Definition purge_raw_key (s : store (D := D)) (c c' : call_env) (ws key : string) : store (D := D) * option db_error :=
  let '(d, x) := s in
  match kv_get d key with
  | inl _ => (s, None)
  | inr data =>
      match unmarshal_judgment data with
      | None => (s, None)
      | Some j =>
          match kv_delete d c key with
          | (d, Some _) => ((d, x), None)
          | (d, None) =>
              if decide (jd_ID j = "") then ((d, x), None) else
              match kv_delete d c' (index_key ws (jd_ID j)) with
              | (d, Some e) => ((d, x), Some e)
              | (d, None) => ((d, drop_id (Some (judgmentIndex, jd_ID j, "")) x), None)
              end
          end
      end
  end.

Fixpoint purge_raw_keys (s : store (D := D)) (cs : nat -> call_env) (k : nat) (ws : string) (keys : list string) :
    store (D := D) * nat * option db_error :=
  match keys with
  | [] => (s, k, None)
  | key :: keys =>
      match purge_raw_key s (cs k) (cs (S k)) ws key with
      | (s, Some e) => (s, S (S k), Some e)
      | (s, None) => purge_raw_keys s cs (S (S k)) ws keys
      end
  end.

Fixpoint purge_raw_workspaces (s : store (D := D)) (cs : nat -> call_env) (k : nat) (cutoff : Z) (wss : list string) :
    store (D := D) * option db_error :=
  match wss with
  | [] => (s, None)
  | ws :: wss =>
      match kv_scan s.1 (ws +:+ "/judgments/") with
      | inl e => (s, Some e)
      | inr results =>
          let old := filter (fun key => old_raw cutoff key = true) (map_to_list results).*1 in
          match purge_raw_keys s cs k ws old with
          | (s, _, Some e) => (s, Some e)
          | (s, k, None) => purge_raw_workspaces s cs k cutoff wss
          end
      end
  end.

Definition purgeRawData (s : store (D := D)) (cs : nat -> call_env) (cutoff : Z) : store (D := D) * option db_error :=
  purge_raw_workspaces s cs 0 cutoff (known_workspaces s.2).

(** The configured periods; the last one is parsed and may be missing. *)
Record RetentionConfig := MkRetention { rt_Raw : Z; rt_Minute : Z; rt_FiveMin : Z; rt_Hour : Z; rt_Day : option Z }.

Definition purge_if (period now : Z) (purge : Z -> store (D := D) -> store (D := D)) (s : store (D := D)) : store (D := D) :=
  if decide (0 < period) then purge (now - period) s else s.

(** [css] are the environments of the five purges; errors are logged. *)
Definition runCleanup (s : store (D := D)) (css : nat -> nat -> call_env) (config : RetentionConfig) (now : Z) : store (D := D) :=
  let s := purge_if (rt_Raw config) now (fun cutoff s => (purgeRawData s (css 0%nat) cutoff).1) s in
  let s := purge_if (rt_Minute config) now (fun cutoff s => (purgeSummaries s (css 1%nat) "1min" cutoff).1) s in
  let s := purge_if (rt_FiveMin config) now (fun cutoff s => (purgeSummaries s (css 2%nat) "5min" cutoff).1) s in
  let s := purge_if (rt_Hour config) now (fun cutoff s => (purgeSummaries s (css 3%nat) "1hour" cutoff).1) s in
  purge_if (default 0 (rt_Day config)) now (fun cutoff s => (purgeSummaries s (css 4%nat) "1day" cutoff).1) s.

(** ** Service-level collection *)

Definition ceilTo (t : Z) (r : TimeResolution) : Z :=
  if decide (t = zero_time) then t else
  let b := truncateToResolution t r in if decide (b < t) then b + resolutionSpan r else b.

Definition maxTime (ts : list Z) : Z := foldl (fun m t => if decide (m < t) then t else m) zero_time ts.

(** Hours from [from], as long as they start before [dayEnd]. *)
Fixpoint hours_from (fuel : nat) (h dayEnd : Z) : list Z :=
  match fuel with
  | O => []
  | S fuel => if decide (h < dayEnd) then h :: hours_from fuel (h + Hour) dayEnd else []
  end.

(** At most a day is left, so twenty-four hours are enough. *)
Definition dailyRemainder (day : option JudgmentSummary) (hourly : gmap Z JudgmentSummary) (from dayEnd : Z) : option JudgmentSummary :=
  match day with
  | None => None
  | Some day =>
      let found := omap (fun h => hourly !! Unix h) (hours_from 25 from dayEnd) in
      let n := foldl (fun z s => z - Count s) (Count day) found in
      let ok := foldl (fun z s => z - SuccessCount s) (SuccessCount day) found in
      let latencySum := foldl (fun z s => (z - AvgLatency s * float_of (Count s))%f64) (AvgLatency day * float_of (Count day))%f64 found in
      if decide (n <= 0) then None else
      Some (MkSummary "" "" "" zero_time n (if decide (ok < 0) then 0 else ok) 0 (float_of 0) (float_of 0)
              (math_Max (latencySum / float_of n)%f64 (float_of 0)) (float_of 0) (float_of 0) (float_of 0) (float_of 0) (float_of 0) None)
  end.

Record SLAHorizons := MkHorizons { RawSince : Z; HourSince : Z }.

Section collect.
Context (math_Log : float64 -> float64).

Definition addSummary (s : option JudgmentSummary) (span : Z) (source : string) (t : Tally) : Tally :=
  match s with
  | None => t
  | Some s =>
      if decide (Count s = 0) then t else
      AddLatency math_Log (AvgLatency s) (Count s) false
        (AddBucket span (Count s) (SuccessCount s) (AvgLatency s * float_of (Count s))%f64 source t)
  end.

(** The raw stretches still to read, the last one in front. *)
Definition addRaw (a b : Z) (rawRanges : list TimeRange) : list TimeRange :=
  match rawRanges with
  | r :: rest => if decide (End r = a) then MkRange (Start r) b :: rest else MkRange a b :: rawRanges
  | [] => [MkRange a b]
  end.

(** What the walk over the period knows: the first live hour and day, where
    hourly summaries start, and the summaries read. *)
Record walk := MkWalk {
  w_end : Z;
  w_excluded : list TimeRange;
  liveHour : Z;
  liveDay : Z;
  hourSince : Z;
  hourly : gmap Z JudgmentSummary;
  daily : gmap Z JudgmentSummary;
}.

Definition is_live (w : walk) : bool := bool_decide (liveHour w <> zero_time).

(** A whole day with a complete summary of its own. *)
Definition whole_day (w : walk) (cursor : Z) : bool :=
  let day := truncateToResolution cursor Resolution1Day in
  bool_decide (day = cursor) && bool_decide (liveDay w <= day) && bool_decide (day + Day <= w_end w) &&
  negb (Overlaps (w_excluded w) day (day + Day)).

Definition whole_hour (w : walk) (cursor : Z) : bool :=
  let hour := Truncate cursor Hour in
  bool_decide (hour = cursor) && bool_decide (liveHour w <= hour) && bool_decide (hourSince w <= hour) &&
  bool_decide (hour + Hour <= w_end w) && negb (Overlaps (w_excluded w) hour (hour + Hour)).

(** One step: the tally, the raw stretches and the cursor after it. *)
Definition walk_step (w : walk) (cursor : Z) (t : Tally) (raw : list TimeRange) : Tally * list TimeRange * Z :=
  let dayEnd := cursor + Day in
  if is_live w && whole_day w cursor && bool_decide (dayEnd <= hourSince w) then
    (addSummary (daily w !! Unix cursor) Day SourceDay t, raw, dayEnd)
  else if is_live w && whole_day w cursor && bool_decide (cursor < hourSince w) then
    (addSummary (dailyRemainder (daily w !! Unix cursor) (hourly w) (hourSince w) dayEnd) (hourSince w - cursor) SourceDay t, raw, hourSince w)
  else if is_live w && whole_hour w cursor then
    (addSummary (hourly w !! Unix cursor) Hour SourceHour t, raw, cursor + Hour)
  else
    let next := Truncate cursor Hour + Hour in
    let next := if decide (w_end w < next) then w_end w else next in
    (t, addRaw cursor next raw, next).

Fixpoint walk_loop (fuel : nat) (w : walk) (cursor : Z) (t : Tally) (raw : list TimeRange) : Tally * list TimeRange :=
  match fuel with
  | O => (t, raw)
  | S fuel =>
      if decide (cursor < w_end w) then
        let '(t, raw, cursor) := walk_step w cursor t raw in walk_loop fuel w cursor t raw
      else (t, raw)
  end.

Definition rawBatch : Z := Day.

(** One raw stretch, a day at a time. *)
Fixpoint raw_loop (fuel : nat) (d : D) (ws soul : string) (excluded : list TimeRange) (a e : Z) (t : Tally) : db_error + Tally :=
  match fuel with
  | O => inr t
  | S fuel =>
      if decide (a < e) then
        let b := if decide (e < a + rawBatch) then e else a + rawBatch in
        match RawPieces a b excluded with
        | [] => raw_loop fuel d ws soul excluded b e t
        | pieces =>
            match QueryJudgments d ws soul a b 0 with
            | inl err => inl err
            | inr judgments => raw_loop fuel d ws soul excluded b e (CountJudgments math_Log pieces judgments t)
            end
        end
      else inr t
  end.

Fixpoint raw_ranges (d : D) (ws soul : string) (excluded : list TimeRange) (rawSince : Z) (rs : list TimeRange) (t : Tally) : db_error + Tally :=
  match rs with
  | [] => inr t
  | r :: rs =>
      let a := if decide (rawSince <> zero_time /\ Start r < rawSince) then rawSince else Start r in
      match raw_loop (hours_between a (End r)) d ws soul excluded a (End r) t with
      | inl err => inl err
      | inr t => raw_ranges d ws soul excluded rawSince rs t
      end
  end.

(** Where complete summaries start, by the marker; the zero time without. *)
Definition live_from (d : D) (ws soul : string) (r : TimeResolution) : Z :=
  match kv_get d (liveSinceKey ws soul) with
  | inr raw => match parse_time raw with Some t => ceilTo t r | None => zero_time end
  | inl _ => zero_time
  end.

(** Every step of the walk moves to the next hour at least. The context is
    not cancelled. *)
Definition CollectSLA (d : D) (workspaceID soul : string) (start end_ : Z) (excluded : list TimeRange) (horizons : SLAHorizons) :
    db_error + Tally :=
  let ws := defaultWorkspace workspaceID in
  if negb (bool_decide (start < end_)) then inr zero_tally else
  let excluded := Merge excluded start end_ in
  let liveHour := live_from d ws soul Resolution1Hour in
  let liveDay := live_from d ws soul Resolution1Day in
  let hourSince := ceilTo (HourSince horizons) Resolution1Hour in
  let from := maxTime [start; liveHour; hourSince] in
  let dayFrom := maxTime [start; liveDay] in
  match (if decide (liveHour <> zero_time /\ from < end_) then summariesByBucket d ws soul Resolution1Hour from end_ else inr ∅) with
  | inl err => inl err
  | inr hourly =>
      match (if decide (liveHour <> zero_time /\ HourSince horizons <> zero_time /\ dayFrom < hourSince)
             then summariesByBucket d ws soul Resolution1Day dayFrom hourSince else inr ∅) with
      | inl err => inl err
      | inr daily =>
          let w := MkWalk end_ excluded liveHour liveDay hourSince hourly daily in
          let '(t, raw) := walk_loop (hours_between start end_) w start zero_tally [] in
          raw_ranges d ws soul excluded (RawSince horizons) (rev raw) t
      end
  end.
End collect.
End store.
