(* ===== verification/TimeSeriesProps.v ===== *)
(** * Stored checks are found again

    Decimal keys of one width sort like their numbers, so the range scans of
    TimeSeries.v see what they are after; what a soul's history is and that
    saving, batching, purging and compacting keep it. *)
From stdpp Require Import base gmap strings list sorting.
From Stdlib Require Import ZArith Lia Strings.Ascii Strings.Byte DecimalString DecimalN DecimalFacts.
From S2P Require Import Prelude GoStrings GoFloat BTree Wal Engine Store KeyValue Index LogStore Fsm Flap Sla TimeSeries.

Open Scope Z_scope.

(** ** Decimal keys *)

Lemma digit_value_10 c v : digit_value 10 c = Some v -> 0 <= v < 10 /\ Z.of_N (code c) = v + 48.
Proof. unfold digit_value. repeat case_decide; intros [= <-]; lia. Qed.

Lemma parse_bounds s : forall acc v, parse_digits 10 acc s = Some v ->
  acc * 10 ^ Z.of_nat (String.length s) <= v < (acc + 1) * 10 ^ Z.of_nat (String.length s).
Proof.
  induction s as [|c s IH]; intros acc v; cbn [parse_digits String.length]; [intros [= <-]; cbn; lia |].
  destruct (digit_value 10 c) as [d|] eqn:E; [| done]. apply digit_value_10 in E as [Hd _]. intros Hv%IH.
  rewrite Nat2Z.inj_succ, Z.pow_succ_r by lia. nia.
Qed.

(** The first byte in which two strings differ decides. *)
Definition first_less (x y : string) : Prop :=
  exists p c d u v, x = p +:+ String.String c u /\ y = p +:+ String.String d v /\ (code c < code d)%N.

Lemma first_less_cons c x y : first_less x y -> first_less (String.String c x) (String.String c y).
Proof. intros (p & a & b & u & v & -> & -> & Hl). by exists (String.String c p), a, b, u, v. Qed.

Lemma digits_order s : forall t acc v w, String.length s = String.length t ->
  parse_digits 10 acc s = Some v -> parse_digits 10 acc t = Some w -> v < w -> first_less s t.
Proof.
  induction s as [|c s IH]; intros [|d t] acc v w Hl; try discriminate Hl; cbn [parse_digits].
  { intros [= <-] [= <-]. lia. }
  destruct (digit_value 10 c) as [x|] eqn:Ec; [| done]. destruct (digit_value 10 d) as [y|] eqn:Ed; [| done].
  apply digit_value_10 in Ec as [Hx Ex]. apply digit_value_10 in Ed as [Hy Ey]. injection Hl as Hl. intros Hv Hw Hlt.
  destruct (Z.lt_trichotomy x y) as [H|[->|H]].
  - exists "", c, d, s, t. split; [done |]. split; [done |]. lia.
  - assert (c = d) as ->. { rewrite <- (ascii_N_embedding c), <- (ascii_N_embedding d). unfold code in *. f_equal. lia. }
    apply first_less_cons. by eapply IH.
  - exfalso. apply parse_bounds in Hv, Hw. rewrite Hl in Hv.
    pose proof (Z.pow_pos_nonneg 10 (Z.of_nat (String.length t)) ltac:(lia) ltac:(lia)). nia.
Qed.

Lemma to_uint_head n : n <> 0%N -> forall d, N.to_uint n <> Decimal.D0 d.
Proof.
  intros Hn d E. pose proof (Unsigned.to_of (N.to_uint n)) as U. rewrite Unsigned.of_to in U.
  assert (Decimal.nzhead (N.to_uint n) <> Decimal.Nil) as Hz.
  { intros Hz%unorm_0. rewrite Hz in U. apply Hn. by rewrite <- (Unsigned.of_to n), U. }
  rewrite (unorm_nzhead _ Hz) in U. rewrite E in U at 1. symmetry in U. by apply nzhead_nonzero in U.
Qed.

(** A number other than zero has no leading zero. *)
Lemma sprintf_lower i : 0 < i -> 10 ^ (Z.of_nat (String.length (sprintf_d i)) - 1) <= i.
Proof.
  intros Hi. pose proof (parse_sprintf i ltac:(lia)) as P. destruct (sprintf_sign i) as (c & s & E & _). rewrite E in *.
  cbn [parse_digits] in P. destruct (digit_value 10 c) as [d|] eqn:Ed; [| done]. apply digit_value_10 in Ed as [Hd Ec].
  assert (d <> 0) as Hd0.
  { intros ->. assert (c = "0"%char) as ->.
    { rewrite <- (ascii_N_embedding c). change "0"%char with (ascii_of_N 48). f_equal. unfold code in Ec. lia. }
    unfold sprintf_d in E. pose proof (to_uint_head (Z.to_N i) ltac:(lia)) as H.
    pose proof (to_uint_not_nil (Z.to_N i)). destruct (N.to_uint (Z.to_N i)) as [|u|u|u|u|u|u|u|u|u|u]; try discriminate E; [done |]. by apply (H u). }
  apply parse_bounds in P. cbn [String.length]. rewrite Nat2Z.inj_succ. replace (Z.succ _ - 1) with (Z.of_nat (String.length s)) by lia.
  pose proof (Z.pow_pos_nonneg 10 (Z.of_nat (String.length s)) ltac:(lia) ltac:(lia)). nia.
Qed.

Lemma sprintf_upper i : 0 <= i -> i < 10 ^ Z.of_nat (String.length (sprintf_d i)).
Proof. intros Hi. pose proof (parse_bounds _ _ _ (parse_sprintf i Hi)). lia. Qed.

Lemma sprintf_width a b : 0 <= a <= b -> (String.length (sprintf_d a) <= String.length (sprintf_d b))%nat.
Proof.
  intros H. destruct (decide (a = 0)) as [->|Ha].
  - destruct (sprintf_sign b) as (? & ? & -> & _). cbn. lia.
  - pose proof (sprintf_lower a ltac:(lia)). pose proof (sprintf_upper b ltac:(lia)).
    assert (10 ^ (Z.of_nat (String.length (sprintf_d a)) - 1) < 10 ^ Z.of_nat (String.length (sprintf_d b))) as Hp by lia.
    apply Z.pow_lt_mono_r_iff in Hp; lia.
Qed.

Lemma format_nonneg i : 0 <= i -> FormatInt i = sprintf_d i.
Proof. intros. unfold FormatInt. by rewrite decide_False by lia. Qed.

Lemma str_app_nil s : s +:+ "" = s.
Proof. induction s as [|c s IH]; [done | exact (f_equal (String.String c) IH)]. Qed.

(** What follows does not matter once the numbers differ. *)
Lemma str_lt_app_l p x y : str_lt (p +:+ x) (p +:+ y) <-> str_lt x y.
Proof.
  induction p as [|c p IH]; [done |]. change (str_lt (String.String c (p +:+ x)) (String.String c (p +:+ y)) <-> str_lt x y).
  rewrite str_lt_cons, <- IH. rewrite ascii_compare_refl. intuition discriminate.
Qed.

Lemma first_less_lt x y s t : first_less x y -> str_lt (x +:+ s) (y +:+ t).
Proof.
  intros (p & c & d & u & v & -> & -> & Hl). rewrite !string_app_assoc. apply str_lt_app_l.
  change (str_lt (String.String c (u +:+ s)) (String.String d (v +:+ t))). apply str_lt_cons. left. by apply N.compare_lt_iff.
Qed.

Lemma prefix_not_lt x s : ~ str_lt (x +:+ s) x.
Proof. apply prefix_ge, prefix_append. Qed.

(** Keys that continue a number are in the range of two numbers of one width
    when their number is. *)
Lemma decimal_in_range p a i b s : 0 <= a -> a <= i < b ->
  String.length (p +:+ FormatInt a) = String.length (p +:+ FormatInt b) ->
  in_range (p +:+ FormatInt a) (p +:+ FormatInt b) (p +:+ FormatInt i +:+ s) = true.
Proof.
  intros Ha Hi Hl. rewrite !length_string_app in Hl. rewrite !format_nonneg in * by lia.
  assert (String.length (sprintf_d a) = String.length (sprintf_d i) /\ String.length (sprintf_d i) = String.length (sprintf_d b)) as [L1 L2].
  { pose proof (sprintf_width a i ltac:(lia)). pose proof (sprintf_width i b ltac:(lia)). lia. }
  unfold in_range. apply andb_true_intro. split; [apply str_leb_le | apply negb_true_iff, str_leb_gt]; rewrite ?str_lt_app_l.
  - destruct (decide (a = i)) as [->|]; [apply prefix_not_lt |]. intros Hlt.
    assert (str_lt (sprintf_d a +:+ "") (sprintf_d i +:+ s)) as Hlt'.
    { apply first_less_lt. eapply digits_order; [exact L1 | by apply parse_sprintf; lia.. | lia]. }
    eapply str_lt_irrefl, str_lt_trans; [exact Hlt |]. by rewrite (str_app_nil (sprintf_d a)) in Hlt'.
  - rewrite <- (str_app_nil (sprintf_d b)). apply first_less_lt.
    eapply digits_order; [exact L2 | by apply parse_sprintf; lia.. | lia].
Qed.

Lemma range_prefix p a b k : in_range (p +:+ a) (p +:+ b) k = true -> String.prefix p k = true.
Proof.
  intros [Hlo Hhi]%andb_true_iff. apply str_leb_le in Hlo. apply negb_true_iff, str_leb_gt in Hhi.
  destruct (String.prefix p k) eqn:E; [done |]. exfalso.
  assert (String.prefix p (p +:+ b) = false) as H; [| by rewrite prefix_append in H].
  eapply prefix_interval; [| exact E | exact Hhi]. intros Hk. apply Hlo.
  eapply str_lt_le_trans; [exact Hk | apply prefix_not_lt].
Qed.

(** *** The number at the end of a key *)

Definition int64_range (i : Z) : Prop := - 2 ^ 63 <= i < 2 ^ 63.

Lemma format_no_slash i : no_slash (FormatInt i).
Proof.
  assert (forall d, no_slash (NilEmpty.string_of_uint d)) as Hd.
  { intros d. induction d as [|d IH|d IH|d IH|d IH|d IH|d IH|d IH|d IH|d IH|d IH]; cbn; [done |..]; done. }
  assert (forall i, no_slash (sprintf_d i)) as Hs.
  { intros n. unfold sprintf_d, NilZero.string_of_uint. destruct (N.to_uint (Z.to_N n)); [done |..]; apply Hd. }
  unfold FormatInt. case_decide; [split; [done | apply Hs] | apply Hs].
Qed.

Lemma last_index_none x : no_slash x -> last_index slash x = None.
Proof. induction x as [|a x IH]; [done |]. intros [Ha Hx]. cbn. by rewrite IH, decide_False. Qed.

Lemma last_index_app q x : no_slash x -> last_index slash (q +:+ String.String slash x) = Some (String.length q).
Proof.
  intros Hx. induction q as [|c q IH].
  - change (last_index slash (String.String slash x) = Some O). cbn [last_index]. by rewrite last_index_none, decide_True.
  - change (last_index slash (String.String c (q +:+ String.String slash x)) = Some (S (String.length q))). cbn [last_index]. by rewrite IH.
Qed.

Lemma after_last_slash_key q x : no_slash x -> after_last_slash (q +:+ String.String slash x) = x.
Proof.
  intros Hx. unfold after_last_slash. rewrite last_index_app by done.
  replace (q +:+ String.String slash x) with ((q +:+ "/") +:+ x) by apply string_app_assoc.
  replace (S (String.length q)) with (String.length (q +:+ "/")) by (rewrite length_string_app; cbn; lia).
  apply substring_suffix.
Qed.

Lemma summary_key_number ws soul r unix : int64_range unix -> ParseInt (after_last_slash (summary_key ws soul r unix)) 10 64 = Some unix.
Proof.
  intros Hu. unfold summary_key, summary_prefix.
  replace ((ws +:+ "/ts/" +:+ soul +:+ "/" +:+ res_name r +:+ "/") +:+ FormatInt unix)
    with ((ws +:+ "/ts/" +:+ soul +:+ "/" +:+ res_name r) +:+ String.String slash (FormatInt unix)) by by rewrite !string_app_assoc.
  rewrite after_last_slash_key by apply format_no_slash. apply ParseInt_format; [exact Hu | lia].
Qed.

Lemma summary_key_prefix ws soul r unix : String.prefix (summary_prefix ws soul r) (summary_key ws soul r unix) = true.
Proof. apply prefix_append. Qed.

Lemma summary_key_inj ws soul r u v : int64_range u -> int64_range v -> summary_key ws soul r u = summary_key ws soul r v -> u = v.
Proof.
  intros Hu Hv E. pose proof (summary_key_number ws soul r u Hu) as Eu. rewrite E, summary_key_number in Eu by done. congruence.
Qed.

(** *** Keys as paths *)

Fixpoint path (l : list string) : string :=
  match l with
  | [] => ""
  | [a] => a
  | a :: rest => a +:+ String.String slash (path rest)
  end.

(** Everything under a path. *)
Fixpoint below (l : list string) (s : string) : string :=
  match l with [] => s | a :: rest => a +:+ String.String slash (below rest s) end.

Definition slash_free (l : list string) : Prop := Forall no_slash l.

Lemma split_first a s : no_slash a -> split_at slash (a +:+ String.String slash s) = a :: split_at slash s.
Proof.
  induction a as [|c a IH].
  - intros _. change (split_at slash (String.String slash s) = "" :: split_at slash s). cbn [split_at]. by rewrite decide_True.
  - intros [Hc Ha]. change (split_at slash (String.String c (a +:+ String.String slash s)) = String.String c a :: split_at slash s).
    cbn [split_at]. by rewrite decide_False, IH.
Qed.

Lemma split_one a : no_slash a -> split_at slash a = [a].
Proof. induction a as [|c a IH]; [done |]. intros [Hc Ha]. cbn [split_at]. by rewrite decide_False, IH. Qed.

Lemma split_path l : slash_free l -> l <> [] -> split_at slash (path l) = l.
Proof.
  induction l as [|a [|b l] IH]; intros Hf Hn; [done | |]; apply Forall_cons in Hf as [Ha Hf].
  - by apply split_one.
  - change (path (a :: b :: l)) with (a +:+ String.String slash (path (b :: l))). rewrite split_first by done. by rewrite IH.
Qed.

Lemma split_below l s : slash_free l -> split_at slash (below l s) = l ++ split_at slash s.
Proof. induction l as [|a l IH]; intros Hf; [done |]. apply Forall_cons in Hf as [Ha Hf]. cbn [below]. by rewrite split_first, IH. Qed.

Lemma path_inj l k : slash_free l -> slash_free k -> l <> [] -> k <> [] -> path l = path k -> l = k.
Proof. intros Hl Hk Nl Nk E. by rewrite <- (split_path l), E, split_path. Qed.

Lemma below_app l s t : below l s +:+ t = below l (s +:+ t).
Proof.
  induction l as [|a l IH]; [done |]. cbn [below]. rewrite string_app_assoc.
  change (a +:+ String.String slash (below l s +:+ t) = a +:+ String.String slash (below l (s +:+ t))). by rewrite IH.
Qed.

Lemma prefix_split p s : String.prefix p s = true -> exists t, s = p +:+ t.
Proof.
  revert s. induction p as [|c p IH]; intros s; [by exists s |]. destruct s as [|d s]; [done |]. cbn.
  destruct (Ascii.ascii_dec c d) as [->|]; [| done]. intros [t ->]%IH. by exists t.
Qed.

Lemma split_nonempty c s : split_at c s <> [].
Proof. destruct s as [|a s]; cbn; [done |]. case_decide; [done |]. by destruct (split_at c s). Qed.

(** A path is under another when it extends it by a segment at least. *)
Lemma prefix_below l k : slash_free l -> slash_free k -> k <> [] ->
  String.prefix (below l "") (path k) = true -> exists rest, k = l ++ rest /\ rest <> [].
Proof.
  intros Hl Hk Nk [t E]%prefix_split. rewrite below_app in E. apply (f_equal (split_at slash)) in E.
  rewrite split_path, split_below in E by done. exists (split_at slash ("" +:+ t)). split; [done | apply split_nonempty].
Qed.

Lemma raw_prefix_path ws soul : raw_prefix ws soul = below [ws; "judgments"; soul] "".
Proof. done. Qed.
Lemma legacy_key_path ws soul ts : legacy_key ws soul ts = path [ws; "judgments"; soul; FormatInt ts].
Proof. unfold legacy_key. rewrite raw_prefix_path, below_app. done. Qed.
Lemma raw_key_path ws soul ts id : legacy_key ws soul ts +:+ "/" +:+ id = path [ws; "judgments"; soul; FormatInt ts; id].
Proof.
  unfold legacy_key. rewrite raw_prefix_path, below_app, below_app. cbn [below path].
  replace (("" +:+ FormatInt ts) +:+ "/" +:+ id) with (FormatInt ts +:+ String.String slash id); [done |].
  by rewrite string_app_assoc.
Qed.
Lemma index_key_path ws id : index_key ws id = path [ws; "judgment-idx"; id].
Proof. done. Qed.
Lemma summary_prefix_path ws soul r : summary_prefix ws soul r = below [ws; "ts"; soul; res_name r] "".
Proof. done. Qed.
Lemma summary_key_path ws soul r u : summary_key ws soul r u = path [ws; "ts"; soul; res_name r; FormatInt u].
Proof. unfold summary_key. rewrite summary_prefix_path, below_app. done. Qed.
Lemma live_key_path ws soul : liveSinceKey ws soul = path [ws; "ts"; soul; "live-since"].
Proof. done. Qed.

Lemma res_no_slash r : no_slash (res_name r).
Proof. by destruct r. Qed.

(** ** Scans as lists *)

Ltac slash_free_tac := unfold slash_free; repeat (apply Forall_cons; split); try apply Forall_nil; eauto using format_no_slash, res_no_slash; try done.

Lemma map_to_list_filter_perm {K} `{Countable K} {A} (P : K * A -> Prop) `{!forall x, Decision (P x)} (m : gmap K A) :
  map_to_list (filter P m) ≡ₚ filter P (map_to_list m).
Proof.
  rewrite map_filter_alt. apply map_to_list_to_map. eapply sublist_NoDup; [apply (NoDup_fst_map_to_list m) |].
  apply fmap_sublist, sublist_filter.
Qed.

Lemma omap_perm {A B} (f : A -> option B) (l k : list A) : l ≡ₚ k -> omap f l ≡ₚ omap f k.
Proof.
  induction 1 as [| x l k Hp IH | x y l | l k r _ IH1 _ IH2]; cbn.
  - done.
  - destruct (f x); [by rewrite IH | done].
  - destruct (f x), (f y); try done. apply Permutation_swap.
  - by rewrite IH1.
Qed.

(** Entries that would be dropped anyway need not be read. *)
Lemma filter_omap_filter {A B} (f : A -> option B) (P : B -> Prop) (Q : A -> Prop)
    `{!forall x, Decision (P x)} `{!forall x, Decision (Q x)} (l : list A) :
  (forall x y, x ∈ l -> f x = Some y -> P y -> Q x) -> filter P (omap f (filter Q l)) = filter P (omap f l).
Proof.
  induction l as [|x l IH]; intros Hq; [done |]. rewrite filter_cons. cbn [omap list_omap].
  assert (filter P (omap f (filter Q l)) = filter P (omap f l)) as IH' by (apply IH; intros ? ? ?; apply Hq; by right).
  destruct (decide (Q x)) as [HQ|HQ]; cbn [omap list_omap]; destruct (f x) as [y|] eqn:E; rewrite ?filter_cons, ?IH'; try done.
  destruct (decide (P y)) as [HP|]; [| done]. exfalso. by eapply HQ, Hq; [left | |].
Qed.

(** ** What is stored for a soul *)

(** The store, with its range scan. *)
Class KeyRange (D : Type) `{KeyValue D} := kv_range : D -> string -> string -> db_error + gmap string bytes.
Class KeyRangeOk (D : Type) `{KeyRange D} `{!KeyValueOk D} : Prop :=
  kv_range_spec d lo hi : kv_inv d -> kv_range d lo hi = inr (filter (fun e => in_range lo hi e.1 = true) (kv_map d)).

Section history.
Context {D : Type} {KV : KeyValue D} {KVO : KeyValueOk D} {KR : KeyRange D} {KRO : KeyRangeOk D} {J : TSCodec}.
Implicit Types (d : D) (m : gmap string bytes).

(** The judgments of a soul in the store, in no particular order. *)
Definition raw_judgments m (ws soul : string) : list Judgment :=
  omap (fun kv => unmarshal_judgment kv.2) (map_to_list (filter (fun kv => String.prefix (raw_prefix ws soul) kv.1 = true) m)).

(** Every record decodes and is under its own time, with or without its ID:
    a range scan finds it. *)
Definition keyed m (ws soul : string) : Prop :=
  forall k b, String.prefix (raw_prefix ws soul) k = true -> m !! k = Some b ->
    exists j, unmarshal_judgment b = Some j /\ no_slash (jd_ID j) /\ int64_range (jd_Timestamp j) /\
      (k = legacy_key ws soul (jd_Timestamp j) \/ k = legacy_key ws soul (jd_Timestamp j) +:+ "/" +:+ jd_ID j).

Definition during (a b : Z) (j : Judgment) : Prop := a <= jd_Timestamp j < b.
#[export] Instance during_dec a b j : Decision (during a b j).
Proof. unfold during. apply _. Defined.

Lemma filter_eq_iff {A} (P Q : A -> Prop) `{!forall x, Decision (P x)} `{!forall x, Decision (Q x)} (l : list A) :
  (forall x, P x <-> Q x) -> filter P l = filter Q l.
Proof. intros HPQ. apply list_filter_iff. exact HPQ. Qed.

Lemma query_exact d ws soul a b : kv_inv d -> keyed (kv_map d) ws soul -> ws <> "" ->
  exists l, QueryJudgments kv_range d ws soul a b 0 = inr l /\ l ≡ₚ filter (during a b) (raw_judgments (kv_map d) ws soul).
Proof.
  intros Hi Hk Hws. unfold QueryJudgments, defaultWorkspace. rewrite (decide_False (P := ws = "")) by done.
  set (p := raw_prefix ws soul). set (far := decide (a < 0 \/ _)).
  assert (exists R : gmap string bytes,
    (if far then kv_scan d p else kv_range d (p +:+ FormatInt a) (p +:+ FormatInt b)) = inr R /\
    filter (during a b) (omap (fun kv => unmarshal_judgment kv.2) (map_to_list R)) ≡ₚ
    filter (during a b) (raw_judgments (kv_map d) ws soul)) as (R & -> & HR).
  { destruct far as [Hfar|Hnear].
    - rewrite kv_scan_spec by done. by eexists.
    - rewrite kv_range_spec by done. eexists. split; [done |].
      assert (0 <= a /\ 0 <= b /\ String.length (p +:+ FormatInt a) = String.length (p +:+ FormatInt b)) as (Ha & Hb & Hl)
        by (split; [lia |]; split; [lia |]; by destruct (decide (String.length (p +:+ FormatInt a) = String.length (p +:+ FormatInt b))); [| tauto]).
      assert (filter (fun e => in_range (p +:+ FormatInt a) (p +:+ FormatInt b) e.1 = true) (kv_map d) =
              filter (fun e => in_range (p +:+ FormatInt a) (p +:+ FormatInt b) e.1 = true)
                (filter (fun kv => String.prefix p kv.1 = true) (kv_map d))) as ->.
      { rewrite map_filter_filter. apply map_filter_ext. intros k v _. cbn. split; [| tauto]. intros Hr. split; [done | by eapply range_prefix]. }
      rewrite map_to_list_filter_perm. rewrite filter_omap_filter; [done |].
      intros [k v] j Hin Hj Hd. cbn in *. apply elem_of_map_to_list, map_lookup_filter_Some in Hin as [Hm Hp].
      destruct (Hk k v Hp Hm) as (j' & Hj' & _ & _ & Ek). simplify_eq. unfold legacy_key in Ek. rewrite string_app_assoc in Ek.
      destruct Ek as [->| ->]; [rewrite <- (str_app_nil (FormatInt (jd_Timestamp j))) |]; by apply decimal_in_range. }
  eexists. split; [reflexivity |]. rewrite decide_False by lia. rewrite sort_by_perm, <- HR. apply Permutation_refl'.
  apply filter_eq_iff. intros j. unfold during. lia.
Qed.

(** *** Summaries *)

(** The keys of a soul's summaries of one resolution spell their number. *)
Definition spelled m (ws soul : string) (r : TimeResolution) : Prop :=
  forall k b, String.prefix (summary_prefix ws soul r) k = true -> m !! k = Some b ->
    exists unix, int64_range unix /\ k = summary_key ws soul r unix.


Lemma truncate_resolution_le t r : truncateToResolution t r <= t.
Proof. destruct r; cbn [truncateToResolution]; [lia |..]; by apply truncate_bound. Qed.

Lemma truncate_resolution_nonneg t r : 0 <= t -> 0 <= truncateToResolution t r.
Proof.
  intros Ht. destruct r; cbn [truncateToResolution]; [done |..]; unfold Truncate;
    match goal with |- 0 <= t - t mod ?d => pose proof (Z.mod_le t d Ht ltac:(done)) end; lia.
Qed.

Lemma Unix_mono a b : a <= b -> Unix a <= Unix b.
Proof. intros. apply Z.div_le_mono; [done | lia]. Qed.

(** The entry a scanned pair gives. *)
Lemma summaries_exact d ws soul r from to : kv_inv d -> spelled (kv_map d) ws soul r -> 0 <= from ->
  exists M, summariesByBucket kv_range d ws soul r from to = inr M /\
    forall unix, int64_range unix -> Unix from <= unix < Unix to ->
      M !! unix = kv_map d !! summary_key ws soul r unix ≫= unmarshal_summary.
Proof.
  intros Hi Hs Hf. unfold summariesByBucket. set (p := summary_prefix ws soul r).
  set (a := Unix (truncateToResolution from r)). set (same := decide (String.length _ = _)).
  assert (exists R, (if same then kv_range d (p +:+ FormatInt a) (p +:+ FormatInt (Unix to)) else kv_scan d p) = inr R /\
    R ⊆ filter (fun kv => String.prefix p kv.1 = true) (kv_map d) /\
    forall unix b, Unix from <= unix < Unix to -> kv_map d !! summary_key ws soul r unix = Some b ->
      R !! summary_key ws soul r unix = Some b) as (R & -> & HRp & HRin).
  { assert (0 <= a <= Unix from).
    { split; [apply Z.div_pos; [by apply truncate_resolution_nonneg | done] | apply Unix_mono, truncate_resolution_le]. }
    destruct same as [Hl|Hl].
    - rewrite kv_range_spec by done. eexists. split; [done |]. split.
      + apply map_subseteq_spec. intros k v [Hv Hk]%map_lookup_filter_Some. apply map_lookup_filter_Some. split; [done |].
        by eapply range_prefix.
      + intros unix b Hu Hb. apply map_lookup_filter_Some. split; [done |]. cbn. unfold summary_key.
        rewrite <- (str_app_nil (FormatInt unix)). apply decimal_in_range; [lia | lia | done].
    - rewrite kv_scan_spec by done. eexists. split; [done |]. split; [done |]. intros unix b _ Hb. apply map_lookup_filter_Some.
      split; [done | apply summary_key_prefix]. }
  eexists. split; [reflexivity |]. intros unix Hu Hr. set (g := fun kv : string * bytes => _). set (l := omap g (map_to_list R)).
  assert (forall s, (unix, s) ∈ l -> kv_map d !! summary_key ws soul r unix ≫= unmarshal_summary = Some s) as Hin.
  { intros s Hl. apply list_elem_of_omap in Hl as ([k v] & Hk%elem_of_map_to_list & Hg). unfold g in Hg. cbn in Hg.
    eapply lookup_weaken in Hk; [| exact HRp]. apply map_lookup_filter_Some in Hk as [Hm Hp].
    destruct (Hs k v Hp Hm) as (u & Hu' & ->). rewrite summary_key_number in Hg by done.
    case_decide; [done |]. apply bind_Some in Hg as (s' & Hs' & [= -> ->]). by rewrite Hm. }
  destruct (kv_map d !! summary_key ws soul r unix ≫= unmarshal_summary) as [s|] eqn:E.
  - apply elem_of_list_to_map_1'; [intros s' Hs'; apply Hin in Hs'; congruence |].
    apply bind_Some in E as (v & Hv & Hs'). apply list_elem_of_omap. exists (summary_key ws soul r unix, v).
    split; [by apply elem_of_map_to_list, HRin |]. unfold g. cbn. rewrite summary_key_number, decide_False by (done || lia). by rewrite Hs'.
  - apply not_elem_of_list_to_map_1. intros ([? s] & E' & Hs')%list_elem_of_fmap. cbn in E'. subst. apply Hin in Hs'. done.
Qed.

(** ** The history of a soul

    [kept] relates the store to the judgments [H] saved for a soul: the
    records of those since [raw] are there, and no others that recent; every
    hour from [hour] on, and every day from [day] on, that starts no earlier
    than [live] has a summary that counts it exactly. *)

Definition in_bucket (r : TimeResolution) (b : Z) (j : Judgment) : Prop := truncateToResolution (jd_Timestamp j) r = b.
Definition up_in_bucket (r : TimeResolution) (b : Z) (j : Judgment) : Prop := in_bucket r b j /\ jd_Status j = SoulAlive.
Definition since (t : Z) (j : Judgment) : Prop := t <= jd_Timestamp j.

#[export] Instance in_bucket_dec r b j : Decision (in_bucket r b j).
Proof. unfold in_bucket. apply _. Defined.
#[export] Instance up_in_bucket_dec r b j : Decision (up_in_bucket r b j).
Proof. unfold up_in_bucket. apply _. Defined.
#[export] Instance since_dec t j : Decision (since t j).
Proof. unfold since. apply _. Defined.

(** A summary with these counts, or none at all for zero. *)
Definition tallied m (key : string) (n u : Z) : Prop :=
  match m !! key with
  | None => n = 0 /\ u = 0
  | Some data => exists s, unmarshal_summary data = Some s /\ Count s = n /\ SuccessCount s = u
  end.

Definition counted_since m (ws soul : string) (H : list Judgment) (r : TimeResolution) (from : Z) : Prop :=
  forall b, truncateToResolution b r = b -> int64_range b -> from <= b ->
    tallied m (summary_key ws soul r (Unix b)) (count (in_bucket r b) H) (count (up_in_bucket r b) H).

Record horizon := MkHorizon { h_live : Z; h_raw : Z; h_hour : Z; h_day : Z }.

Record kept m (ws soul : string) (H : list Judgment) (hz : horizon) : Prop := {
  kept_keyed : keyed m ws soul;
  kept_raw : filter (since (h_raw hz)) (raw_judgments m ws soul) ≡ₚ filter (since (h_raw hz)) H;
  kept_spelled r : spelled m ws soul r;
  kept_hour : counted_since m ws soul H Resolution1Hour (Z.max (h_live hz) (h_hour hz));
  kept_day : counted_since m ws soul H Resolution1Day (Z.max (h_live hz) (h_day hz));
  kept_live data t : m !! liveSinceKey ws soul = Some data -> parse_time data = Some t -> h_live hz <= t;
}.

(** ** What one judgment writes *)

Definition filled (gen ctx : string) (j : Judgment) : Judgment :=
  MkCheck (if decide (jd_ID j = "") then gen else jd_ID j) (jd_SoulID j) (if decide (jd_WorkspaceID j = "") then ctx else jd_WorkspaceID j)
    (jd_Timestamp j) (jd_Duration j) (jd_Status j) (jd_PacketLoss j).

Definition reads (get : string -> db_error + bytes) (g : gmap string bytes) : Prop :=
  forall k, get k = match g !! k with Some v => inr v | None => inl (ErrNotFound k) end.

Definition bucket_key (r : TimeResolution) (j : Judgment) : string :=
  summary_key (jd_WorkspaceID j) (jd_SoulID j) r (Unix (truncateToResolution (jd_Timestamp j) r)).

(** A summary that counts one judgment more than the stored one, and keeps
    what it was built from. *)
Definition bumped (g : gmap string bytes) (key : string) (j : Judgment) (s : JudgmentSummary) : Prop :=
  let up := if decide (jd_Status j = SoulAlive) then 1 else 0 in
  match g !! key with
  | None => Count s = 1 /\ SuccessCount s = up /\ sm_Sources s = None
  | Some data => exists old, unmarshal_summary data = Some old /\ Count s = Count old + 1 /\ SuccessCount s = SuccessCount old + up /\
      (sm_Sources s = None \/ sm_Sources s = sm_Sources old)
  end.

Lemma bumped_tallied g key j s n u : bumped g key j s -> tallied g key n u ->
  Count s = n + 1 /\ SuccessCount s = u + (if decide (jd_Status j = SoulAlive) then 1 else 0).
Proof.
  unfold bumped, tallied. destruct (g !! key) as [data|].
  - intros (old & Ho & -> & -> & _) (s' & Hs' & <- & <-). by assert (old = s') as -> by congruence.
  - by intros (-> & -> & _) [-> ->].
Qed.

Lemma summary_bumped get g ctx j r key data : reads get g -> jd_WorkspaceID j <> "" ->
  prepareSummaryFrom get ctx j r = inr (key, data) ->
  key = bucket_key r j /\ exists s, unmarshal_summary data = Some s /\ bumped g (bucket_key r j) j s.
Proof.
  intros Hg Hws. unfold prepareSummaryFrom, bumped, bucket_key. rewrite (decide_False (P := jd_WorkspaceID j = "")) by done.
  set (k := summary_key _ _ _ _). rewrite Hg. set (add old := add_to_summary old j (jd_WorkspaceID j) r (truncateToResolution (jd_Timestamp j) r)).
  assert (forall old s, sm_Sources s = match sm_Sources (add old) with Some m => if decide (m = ∅) then None else Some m | None => None end ->
    sm_Sources s = None \/ sm_Sources s = sm_Sources old) as Hsrc.
  { intros old s ->. cbn. destruct (sm_Sources old); [case_decide |]; tauto. }
  assert (forall old, SuccessCount (add old) = SuccessCount old + (if decide (jd_Status j = SoulAlive) then 1 else 0)) as Hup.
  { intros old. cbn. case_decide; [rewrite bool_decide_true by done | rewrite bool_decide_false by done]; lia. }
  destruct (g !! k) as [v|]; cbn [is_missing].
  - destruct (unmarshal_summary v) as [old|] eqn:Eo; [| done]. destruct (marshal_summary _) as [b|] eqn:Em; [| done]. change (marshal_summary (add old) = Some b) in Em.
    intros [= <- <-]. split; [done |]. apply summary_roundtrip in Em as (s & Hs & Hc & Hsc & _ & Hso). exists s. split; [done |].
    exists old. split; [done |]. split; [done |]. split; [by rewrite Hsc, Hup | by apply Hsrc].
  - destruct (marshal_summary _) as [b|] eqn:Em; [| done]. change (marshal_summary (add zero_summary) = Some b) in Em.
    intros [= <- <-]. split; [done |]. apply summary_roundtrip in Em as (s & Hs & Hc & Hsc & _ & Hso). exists s. split; [done |].
    split; [done |]. split; [by rewrite Hsc, Hup | exact Hso].
Qed.

Lemma summary_keyed get g ctx j r key data : reads get g -> jd_WorkspaceID j <> "" ->
  prepareSummaryFrom get ctx j r = inr (key, data) -> key = bucket_key r j.
Proof.
  intros Hg Hws. unfold prepareSummaryFrom, bucket_key. rewrite (decide_False (P := jd_WorkspaceID j = "")) by done.
  repeat case_match; intros; by simplify_eq.
Qed.

(** The pairs of one judgment: record, index, the three summaries and perhaps
    the marker. *)
Record writes (g : gmap string bytes) (now : Z) (j : Judgment) (key : string) (values : gmap string bytes) : Prop := {
  wr_record : exists b, values !! key = Some b /\ marshal_judgment j = Some b;
  wr_only k : is_Some (values !! k) -> k = key \/ k = index_key (jd_WorkspaceID j) (jd_ID j) \/
    (exists r, r ∈ live_resolutions /\ k = bucket_key r j) \/ k = liveSinceKey (jd_WorkspaceID j) (jd_SoulID j);
  wr_summary r : r ∈ live_resolutions ->
    exists data s, values !! bucket_key r j = Some data /\ unmarshal_summary data = Some s /\ bumped g (bucket_key r j) j s;
  wr_marker data : values !! liveSinceKey (jd_WorkspaceID j) (jd_SoulID j) = Some data -> data = format_time now;
}.

Lemma validate_no_slash id : validateResourceID id = true -> no_slash id.
Proof.
  unfold validateResourceID. intros Hv%bool_decide_eq_true. induction id as [|c id IH]; [done |]. cbn in Hv.
  split; [intros ->; apply Hv; left | apply IH; intros ?; apply Hv; by right].
Qed.

(** Where the record of a judgment goes. *)
Definition record_key m (j : Judgment) (key : string) : Prop :=
  (key = legacy_key (jd_WorkspaceID j) (jd_SoulID j) (jd_Timestamp j) /\
   exists b p, m !! key = Some b /\ unmarshal_judgment b = Some p /\ jd_ID p = jd_ID j) \/
  key = legacy_key (jd_WorkspaceID j) (jd_SoulID j) (jd_Timestamp j) +:+ "/" +:+ jd_ID j.

Lemma prepareJudgment_writes d gen ctx j j' values idxKey : kv_inv d -> prepareJudgment d gen ctx j = inr (j', values, idxKey) ->
  j' = filled gen ctx j /\ no_slash (jd_ID j') /\ idxKey = index_key (jd_WorkspaceID j') (jd_ID j') /\
  exists key data, values = <[idxKey := String.list_byte_of_string key]> {[key := data]} /\ marshal_judgment j' = Some data /\
    record_key (kv_map d) j' key.
Proof.
  intros Hi. unfold prepareJudgment. fold (filled gen ctx j). set (f := filled gen ctx j).
  change (if decide (jd_ID j = "") then gen else jd_ID j) with (jd_ID f).
  change (if decide (jd_WorkspaceID j = "") then ctx else jd_WorkspaceID j) with (jd_WorkspaceID f).
  change (jd_SoulID j) with (jd_SoulID f). change (jd_Timestamp j) with (jd_Timestamp f).
  destruct (validateResourceID (jd_ID f)) eqn:Hv; cbn [negb]; [| done]. apply validate_no_slash in Hv.
  set (lk := legacy_key _ _ _). rewrite kv_get_spec by done.
  destruct (kv_map d !! lk) as [raw|] eqn:El; [destruct (unmarshal_judgment raw) as [p|] eqn:Ep; [case_decide |] |]; cbn [is_missing];
    (destruct (marshal_judgment _) as [data|] eqn:Em; [| done]); intros [= <- <- <-];
    (split; [done |]; split; [done |]; split; [done |]; eexists _, data; split; [done |]; split; [done |]); [| by right..].
  left. split; [done |]. by exists raw, p.
Qed.

(** Different kinds of keys. *)
Ltac keys_differ :=
  unfold bucket_key; rewrite ?raw_key_path, ?legacy_key_path, ?index_key_path, ?summary_key_path, ?live_key_path;
  let E := fresh in intros E; apply path_inj in E; [simplify_eq | slash_free_tac..].

Lemma record_key_path m j key : record_key m j key ->
  key = path [jd_WorkspaceID j; "judgments"; jd_SoulID j; FormatInt (jd_Timestamp j)] \/
  key = path [jd_WorkspaceID j; "judgments"; jd_SoulID j; FormatInt (jd_Timestamp j); jd_ID j].
Proof. intros [[-> _]| ->]; [left; apply legacy_key_path | right; apply raw_key_path]. Qed.

Lemma record_key_ne m j key k : slash_free [jd_WorkspaceID j; jd_SoulID j; jd_ID j] -> record_key m j key -> slash_free k -> k <> [] ->
  k !! 1%nat <> Some "judgments" -> key <> path k.
Proof.
  intros Hs Hr Hk Hn H1 ->. unfold slash_free in Hs. rewrite !Forall_cons in Hs. destruct Hs as (? & ? & ? & _).
  apply record_key_path in Hr as [E|E]; apply path_inj in E; try (by subst); try done; slash_free_tac.
Qed.

Lemma prepare_all_writes d get g marked gen ctx now j j' values idxKey :
  kv_inv d -> reads get g -> jd_WorkspaceID (filled gen ctx j) <> "" ->
  slash_free [jd_WorkspaceID (filled gen ctx j); jd_SoulID j] ->
  prepare_all d get marked gen ctx now j = inr (j', values, idxKey) ->
  j' = filled gen ctx j /\ no_slash (jd_ID j') /\ idxKey = index_key (jd_WorkspaceID j') (jd_ID j') /\
  exists key, writes g now j' key values /\ record_key (kv_map d) j' key.
Proof.
  intros Hi Hg Hws Hsf. unfold prepare_all.
  destruct (prepareJudgment d gen ctx j) as [e|[[f v0] ix]] eqn:Ep; [done |].
  apply prepareJudgment_writes in Ep as (-> & Hid & -> & key & data & -> & Em & Hk); [| done]. set (f := filled gen ctx j) in *.
  change (jd_SoulID j) with (jd_SoulID f) in Hsf. unfold slash_free in Hsf. rewrite !Forall_cons in Hsf. destruct Hsf as (Hfw & Hfs & _).
  unfold live_resolutions, add_summaries.
  destruct (prepareSummaryFrom get ctx f Resolution1Min) as [e|[k1 b1]] eqn:E1; [done |].
  destruct (prepareSummaryFrom get ctx f Resolution1Hour) as [e|[k2 b2]] eqn:E2; [done |].
  destruct (prepareSummaryFrom get ctx f Resolution1Day) as [e|[k3 b3]] eqn:E3; [done |].
  pose proof (summary_keyed _ _ _ _ _ _ _ Hg Hws E1) as ->. pose proof (summary_keyed _ _ _ _ _ _ _ Hg Hws E2) as ->.
  pose proof (summary_keyed _ _ _ _ _ _ _ Hg Hws E3) as ->.
  set (v3 := <[bucket_key Resolution1Day f := b3]> _).
  assert (forall k, slash_free k -> k <> [] -> k !! 1%nat <> Some "judgments" -> key <> path k) as Hne
    by (intros; eapply record_key_ne; [| exact Hk | done..]; slash_free_tac).
  assert (forall r, key <> bucket_key r f) as Hne1.
  { intros r. unfold bucket_key. rewrite summary_key_path. apply Hne; [slash_free_tac | done | done]. }
  assert (key <> index_key (jd_WorkspaceID f) (jd_ID f)) as Hne2 by (rewrite index_key_path; apply Hne; [slash_free_tac | done | done]).
  assert (key <> liveSinceKey (jd_WorkspaceID f) (jd_SoulID f)) as Hne3 by (rewrite live_key_path; apply Hne; [slash_free_tac | done | done]).
  assert (forall r s, bucket_key r f = bucket_key s f -> res_name r = res_name s) as Hrs by (intros r s; by keys_differ).
  assert (forall r, liveSinceKey (jd_WorkspaceID f) (jd_SoulID f) <> bucket_key r f) as Hl1 by (intros r; by keys_differ).
  assert (liveSinceKey (jd_WorkspaceID f) (jd_SoulID f) <> index_key (jd_WorkspaceID f) (jd_ID f)) as Hl2 by by keys_differ.
  assert (writes g now f key v3) as W3.
  { split.
    - exists data. split; [| done]. unfold v3. rewrite !lookup_insert_ne by (symmetry; done). by rewrite lookup_singleton_eq.
    - intros k. unfold v3. rewrite !lookup_insert_is_Some. intros Hs.
      assert (bucket_key Resolution1Day f = k \/ bucket_key Resolution1Hour f = k \/ bucket_key Resolution1Min f = k \/
              index_key (jd_WorkspaceID f) (jd_ID f) = k \/ key = k) as Hc.
      { destruct Hs as [?|[_ [?|[_ [?|[_ [?|[_ Hx]]]]]]]]; try tauto. apply lookup_singleton_is_Some in Hx as <-. tauto. }
      destruct Hc as [<-|[<-|[<-|[<-|<-]]]]; [right; right; left.. | tauto | tauto];
        eexists; (split; [| reflexivity]); unfold live_resolutions; set_solver.
    - intros r Hr. unfold live_resolutions in Hr. unfold v3.
      rewrite !elem_of_cons in Hr. destruct Hr as [->|[->|[->|Hr]]]; [| | | by apply not_elem_of_nil in Hr].
      + destruct (summary_bumped _ _ _ _ _ _ _ Hg Hws E1) as (_ & s & Hs). exists b1, s.
        by rewrite !lookup_insert_ne, lookup_insert_eq by (intros E; by apply Hrs in E).
      + destruct (summary_bumped _ _ _ _ _ _ _ Hg Hws E2) as (_ & s & Hs). exists b2, s.
        by rewrite lookup_insert_ne, lookup_insert_eq by (intros E; by apply Hrs in E).
      + destruct (summary_bumped _ _ _ _ _ _ _ Hg Hws E3) as (_ & s & Hs). exists b3, s. by rewrite lookup_insert_eq.
    - intros x. unfold v3. rewrite !lookup_insert_ne by (symmetry; done). rewrite lookup_singleton_ne by done. done. }
  unfold add_marker. rewrite Hg. intros Hm.
  assert (j' = f /\ idxKey = index_key (jd_WorkspaceID f) (jd_ID f) /\
    (values = v3 \/ values = <[liveSinceKey (jd_WorkspaceID f) (jd_SoulID f) := format_time now]> v3)) as (-> & -> & Hv).
  { case_decide; [by simplify_eq; eauto |]. destruct (g !! _); cbn [is_missing] in Hm; simplify_eq; eauto. }
  split; [done |]. split; [done |]. split; [done |]. exists key. split; [| done]. destruct Hv as [->| ->]; [done |].
  destruct W3 as [Wr Wo Ws Wm]. split.
  - destruct Wr as (b & Hb & Hmj). exists b. by rewrite lookup_insert_ne.
  - intros k. rewrite lookup_insert_is_Some. intros [<-|[_ Hs]]; [tauto | by apply Wo].
  - intros r Hr. rewrite lookup_insert_ne by done. by apply Ws.
  - intros x. rewrite lookup_insert_eq. by intros [= <-].
Qed.

(** ** Saving keeps the history *)

Definition own_key (ws soul k : string) : Prop :=
  String.prefix (raw_prefix ws soul) k = true \/ (exists r, String.prefix (summary_prefix ws soul r) k = true) \/ k = liveSinceKey ws soul.

Lemma tallied_same m m' key n u : m' !! key = m !! key -> tallied m key n u -> tallied m' key n u.
Proof. unfold tallied. by intros ->. Qed.

Lemma raw_judgments_same m m' ws soul : (forall k, own_key ws soul k -> m' !! k = m !! k) -> raw_judgments m' ws soul = raw_judgments m ws soul.
Proof.
  intros Hs. unfold raw_judgments. f_equal. f_equal. apply map_eq. intros k.
  destruct (String.prefix (raw_prefix ws soul) k) eqn:E.
  - apply option_eq. intros v. rewrite !map_lookup_filter_Some, Hs by by left. done.
  - transitivity (@None bytes); [| symmetry]; apply map_lookup_filter_None; right; cbn; intros; congruence.
Qed.

(** A store that differs elsewhere keeps the same history. *)
Lemma kept_same m m' ws soul H hz : (forall k, own_key ws soul k -> m' !! k = m !! k) -> kept m ws soul H hz -> kept m' ws soul H hz.
Proof.
  intros Hs [K1 K2 K3 K4 K5 K6]. split.
  - intros k b Hp. rewrite Hs by by left. by apply K1.
  - by rewrite (raw_judgments_same m m').
  - intros r k b Hp. rewrite Hs by (right; left; eauto). by apply K3.
  - intros b Ha Hr Hb. eapply tallied_same; [| by apply K4]. apply Hs. right. left. exists Resolution1Hour. apply summary_key_prefix.
  - intros b Ha Hr Hb. eapply tallied_same; [| by apply K5]. apply Hs. right. left. exists Resolution1Day. apply summary_key_prefix.
  - intros data t. rewrite Hs by (right; by right). apply K6.
Qed.

Lemma own_raw ws soul k : slash_free [ws; soul] -> slash_free k -> k <> [] -> String.prefix (raw_prefix ws soul) (path k) = true ->
  exists rest, k = ws :: "judgments" :: soul :: rest /\ rest <> [].
Proof.
  intros Hf Hk Hn Hp. unfold slash_free in Hf. rewrite !Forall_cons in Hf. destruct Hf as (? & ? & _).
  rewrite raw_prefix_path in Hp. apply prefix_below in Hp; [| slash_free_tac | done | done]. exact Hp.
Qed.

Lemma own_summary ws soul r k : slash_free [ws; soul] -> slash_free k -> k <> [] -> String.prefix (summary_prefix ws soul r) (path k) = true ->
  exists rest, k = ws :: "ts" :: soul :: res_name r :: rest /\ rest <> [].
Proof.
  intros Hf Hk Hn Hp. unfold slash_free in Hf. rewrite !Forall_cons in Hf. destruct Hf as (? & ? & _).
  rewrite summary_prefix_path in Hp. apply prefix_below in Hp; [| slash_free_tac | done | done]. exact Hp.
Qed.

(** Every key written is a path, of the soul or an index key. *)
Lemma writes_paths m g now j key values k : slash_free [jd_WorkspaceID j; jd_SoulID j; jd_ID j] -> record_key m j key ->
  writes g now j key values -> is_Some (values !! k) ->
  exists l, k = path l /\ slash_free l /\ l <> [] /\
    (l = [jd_WorkspaceID j; "judgment-idx"; jd_ID j] \/
     (key = k /\ exists rest, l = jd_WorkspaceID j :: "judgments" :: jd_SoulID j :: rest) \/
     (exists r, r ∈ live_resolutions /\ k = bucket_key r j /\
        l = [jd_WorkspaceID j; "ts"; jd_SoulID j; res_name r; FormatInt (Unix (truncateToResolution (jd_Timestamp j) r))]) \/
     l = [jd_WorkspaceID j; "ts"; jd_SoulID j; "live-since"]).
Proof.
  intros Hf Hr W Hk. unfold slash_free in Hf. rewrite !Forall_cons in Hf. destruct Hf as (? & ? & ? & _).
  destruct (wr_only _ _ _ _ _ W k Hk) as [->|[->|[(r & Hrr & ->)| ->]]].
  - destruct (record_key_path _ _ _ Hr) as [->| ->]; eexists; (split; [reflexivity |]); (split; [slash_free_tac |]); (split; [done |]);
      right; left; eauto.
  - eexists. split; [apply index_key_path |]. split; [slash_free_tac |]. split; [done |]. by left.
  - eexists. split; [apply summary_key_path |]. split; [slash_free_tac |]. split; [done |]. right. right. left. by exists r.
  - eexists. split; [apply live_key_path |]. split; [slash_free_tac |]. split; [done |]. tauto.
Qed.

(** Another soul is not touched. *)
Lemma writes_other m g now j key values ws soul : slash_free [jd_WorkspaceID j; jd_SoulID j; jd_ID j] -> slash_free [ws; soul] ->
  record_key m j key -> writes g now j key values -> (ws, soul) <> (jd_WorkspaceID j, jd_SoulID j) ->
  forall k, own_key ws soul k -> (values ∪ m) !! k = m !! k.
Proof.
  intros Hf Hf' Hr W Hne k Hk. apply lookup_union_r. apply eq_None_not_Some. intros Hs. apply Hne.
  pose proof Hf' as Hf''. unfold slash_free in Hf''. rewrite !Forall_cons in Hf''. destruct Hf'' as (? & ? & _).
  destruct (writes_paths _ _ _ _ _ _ _ Hf Hr W Hs) as (l & -> & Hl & Hn & Hc).
  destruct Hk as [Hk|[[r Hk]|Hk]].
  - apply own_raw in Hk as (rest & -> & _); [| done..]. destruct Hc as [?|[(_ & ? & ?)|[(? & _ & _ & ?)|?]]]; by simplify_eq.
  - apply own_summary in Hk as (rest & -> & _); [| done..]. destruct Hc as [?|[(_ & ? & ?)|[(? & _ & _ & ?)|?]]]; by simplify_eq.
  - rewrite live_key_path in Hk. apply path_inj in Hk as ->; [| slash_free_tac..].
    destruct Hc as [?|[(_ & ? & ?)|[(? & _ & _ & ?)|?]]]; by simplify_eq.
Qed.

Lemma int64_Unix t : int64_range t -> int64_range (Unix t).
Proof.
  unfold int64_range, Unix. intros Ht. split; [apply Z.div_le_lower_bound | apply Z.div_lt_upper_bound]; unfold Second; lia.
Qed.

Lemma int64_truncate t r : int64_range t -> - 2 ^ 63 + Day <= t -> int64_range (truncateToResolution t r).
Proof.
  intros Ht Hl. pose proof (truncate_resolution_le t r). split; [| unfold int64_range in *; lia].
  enough (t - Day <= truncateToResolution t r) by lia. destruct r; cbn [truncateToResolution]; [unfold Day, Hour, Second; lia |..];
    match goal with |- _ <= Truncate t ?x => pose proof (truncate_bound t x ltac:(done)); assert (x <= Day) by done end; lia.
Qed.

(** A judgment that has not been stored has no record of its own yet. *)
Definition fresh m (j : Judgment) : Prop :=
  forall p, p ∈ raw_judgments m (jd_WorkspaceID j) (jd_SoulID j) -> jd_ID p <> jd_ID j.

Lemma stored_raw m ws soul k b p : String.prefix (raw_prefix ws soul) k = true -> m !! k = Some b -> unmarshal_judgment b = Some p ->
  p ∈ raw_judgments m ws soul.
Proof.
  intros Hp Hm Hu. unfold raw_judgments. apply list_elem_of_omap. exists (k, b). split; [| done].
  apply elem_of_map_to_list, map_lookup_filter_Some. done.
Qed.

Lemma legacy_prefix ws soul ts s : String.prefix (raw_prefix ws soul) (legacy_key ws soul ts +:+ s) = true.
Proof. unfold legacy_key. rewrite string_app_assoc. apply prefix_append. Qed.

Lemma fresh_key m j key : slash_free [jd_WorkspaceID j; jd_SoulID j; jd_ID j] -> keyed m (jd_WorkspaceID j) (jd_SoulID j) -> fresh m j ->
  record_key m j key -> key = legacy_key (jd_WorkspaceID j) (jd_SoulID j) (jd_Timestamp j) +:+ "/" +:+ jd_ID j /\ m !! key = None.
Proof.
  intros Hf Hk Hfr [[-> (b & p & Hb & Hu & Hid)]| ->].
  { exfalso. eapply (Hfr p); [| done]. eapply stored_raw; [| exact Hb | done].
    pose proof (legacy_prefix (jd_WorkspaceID j) (jd_SoulID j) (jd_Timestamp j) "") as Hp. by rewrite str_app_nil in Hp. }
  split; [done |]. apply eq_None_not_Some. intros [b Hb]. pose proof (legacy_prefix (jd_WorkspaceID j) (jd_SoulID j) (jd_Timestamp j) ("/" +:+ jd_ID j)) as Hp.
  destruct (Hk _ _ Hp Hb) as (p & Hu & Hnp & _ & Ek). pose proof (stored_raw _ _ _ _ _ _ Hp Hb Hu) as Hin.
  unfold slash_free in Hf. rewrite !Forall_cons in Hf. destruct Hf as (? & ? & ? & _).
  rewrite !raw_key_path, legacy_key_path in Ek.
  destruct Ek as [E|E]; apply path_inj in E; try (simplify_eq; by eapply Hfr); slash_free_tac.
Qed.

Lemma raw_judgments_add m m' ws soul key b j : String.prefix (raw_prefix ws soul) key = true -> m !! key = None ->
  m' !! key = Some b -> unmarshal_judgment b = Some j ->
  (forall k, k <> key -> String.prefix (raw_prefix ws soul) k = true -> m' !! k = m !! k) ->
  raw_judgments m' ws soul ≡ₚ j :: raw_judgments m ws soul.
Proof.
  intros Hp Hm Hm' Hu Hs. unfold raw_judgments.
  assert (filter (fun kv => String.prefix (raw_prefix ws soul) kv.1 = true) m' =
          <[key := b]> (filter (fun kv => String.prefix (raw_prefix ws soul) kv.1 = true) m)) as ->.
  { apply map_eq. intros k. destruct (decide (k = key)) as [->|Hne].
    - rewrite lookup_insert_eq. by apply map_lookup_filter_Some.
    - rewrite lookup_insert_ne by done. apply option_eq. intros v. rewrite !map_lookup_filter_Some. cbn.
      split; intros [Hv Hk]; (split; [| done]); [rewrite <- (Hs k Hne Hk) | rewrite (Hs k Hne Hk)]; done. }
  rewrite map_to_list_insert by (apply map_lookup_filter_None; by left). cbn. by rewrite Hu.
Qed.

Lemma count_snoc_bucket (P : Judgment -> Prop) `{!forall x, Decision (P x)} l j : count P (l ++ [j]) = count P l + (if decide (P j) then 1 else 0).
Proof. rewrite count_app. f_equal. unfold count. rewrite filter_cons, filter_nil. by case_decide. Qed.

(** Buckets start on whole seconds. *)
Lemma truncate_multiple t k : 0 < k -> exists q, Truncate t (k * Second) = q * Second.
Proof.
  intros Hk. exists (k * (t / (k * Second))). unfold Truncate. pose proof (Z.div_mod t (k * Second) ltac:(unfold Second; lia)). lia.
Qed.

Lemma bucket_second t r : r <> ResolutionRaw -> truncateToResolution t r mod Second = 0.
Proof.
  intros Hr. assert (exists q, truncateToResolution t r = q * Second) as [q ->]; [| by apply Z.mod_mul].
  destruct r; [done |..]; [apply (truncate_multiple t 60) | apply (truncate_multiple t 300) | apply (truncate_multiple t 3600) |
    change (truncateToResolution t Resolution1Day) with (Truncate t (24 * 3600 * Second)); apply (truncate_multiple t (24 * 3600))]; lia.
Qed.

(** A bucket counts one more when it is the judgment's own. *)
Lemma counted_add m values now j key H r from : slash_free [jd_WorkspaceID j; jd_SoulID j; jd_ID j] -> record_key m j key ->
  writes m now j key values -> r ∈ live_resolutions -> int64_range (jd_Timestamp j) -> - 2 ^ 63 + Day <= jd_Timestamp j ->
  counted_since m (jd_WorkspaceID j) (jd_SoulID j) H r from ->
  counted_since (values ∪ m) (jd_WorkspaceID j) (jd_SoulID j) (H ++ [read_back j]) r from.
Proof.
  intros Hf Hr W Hlr Hi Hlow Hc b Hb Hb64 Hfrom. specialize (Hc b Hb Hb64 Hfrom). rewrite !count_snoc_bucket.
  unfold up_in_bucket, in_bucket. cbn [read_back jd_Timestamp jd_Status].
  destruct (decide (truncateToResolution (jd_Timestamp j) r = b)) as [Eb|Nb].
  - subst b. fold (bucket_key r j) in *.
    destruct (wr_summary _ _ _ _ _ W r Hlr) as (data & s & Hv & Hu & Hb'). destruct (bumped_tallied _ _ _ _ _ _ Hb' Hc) as [Hn Hs].
    unfold tallied. rewrite (lookup_union_Some_l _ _ _ _ Hv). exists s. split; [done |]. split; [done |]. rewrite Hs. f_equal.
    destruct (decide (jd_Status j = SoulAlive)); [by rewrite decide_True | rewrite decide_False; naive_solver].
  - rewrite (decide_False (P := _ /\ _)) by naive_solver. rewrite !Z.add_0_r. eapply tallied_same; [| exact Hc].
    apply lookup_union_r, eq_None_not_Some. intros Hs.
    destruct (writes_paths _ _ _ _ _ _ _ Hf Hr W Hs) as (l & E & Hl & Hn & Hcase).
    unfold slash_free in Hf. rewrite !Forall_cons in Hf. destruct Hf as (? & ? & ? & _).
    pose proof E as E'. rewrite summary_key_path in E'. apply path_inj in E' as <-; [| slash_free_tac..].
    destruct Hcase as [?|[(_ & ? & ?)|[(r' & _ & Ek & El)|?]]]; try (by simplify_eq).
    injection El as Er _. assert (r = r') as -> by (revert Er; by destruct r, r').
    unfold bucket_key in Ek. apply summary_key_inj in Ek; [| by apply int64_Unix | by apply int64_Unix, int64_truncate].
    apply Nb. rewrite <- Hb. unfold Unix in Ek.
    assert (r' <> ResolutionRaw) as Hraw by (intros ->; unfold live_resolutions in Hlr; set_solver).
    rewrite <- Hb in Ek. pose proof (bucket_second b r' Hraw). pose proof (bucket_second (jd_Timestamp j) r' Hraw).
    pose proof (Z.div_mod (truncateToResolution b r') Second ltac:(done)). pose proof (Z.div_mod (truncateToResolution (jd_Timestamp j) r') Second ltac:(done)).
    lia.
Qed.

Lemma writes_kept m values now j key H hz : slash_free [jd_WorkspaceID j; jd_SoulID j; jd_ID j] -> record_key m j key ->
  writes m now j key values -> int64_range (jd_Timestamp j) -> - 2 ^ 63 + Day <= jd_Timestamp j -> h_live hz <= now -> fresh m j ->
  kept m (jd_WorkspaceID j) (jd_SoulID j) H hz -> kept (values ∪ m) (jd_WorkspaceID j) (jd_SoulID j) (H ++ [read_back j]) hz.
Proof.
  intros Hf Hr W Hi Hlow Hnow Hfr K. pose proof Hf as Hf'. unfold slash_free in Hf'. rewrite !Forall_cons in Hf'. destruct Hf' as (Hfw & Hfs & Hfi & _).
  destruct (fresh_key m j key Hf (kept_keyed _ _ _ _ _ K) Hfr Hr) as [Ekey Hnone]. destruct (wr_record _ _ _ _ _ W) as (b & Hb & Hmb).
  apply judgment_roundtrip in Hmb. pose proof (lookup_union_Some_l _ m _ _ Hb) as Hb'.
  assert (String.prefix (raw_prefix (jd_WorkspaceID j) (jd_SoulID j)) key = true) as Hp by (rewrite Ekey; apply legacy_prefix).
  assert (forall k, k <> key -> String.prefix (raw_prefix (jd_WorkspaceID j) (jd_SoulID j)) k = true -> (values ∪ m) !! k = m !! k) as Hraw.
  { intros k Hk Hpk. apply lookup_union_r, eq_None_not_Some. intros Hs.
    destruct (writes_paths _ _ _ _ _ _ _ Hf Hr W Hs) as (l & -> & Hl & Hn & Hc).
    apply own_raw in Hpk as (rest & -> & _); [| slash_free_tac | done | done].
    destruct Hc as [?|[(? & _)|[(? & _ & _ & ?)|?]]]; by simplify_eq. }
  split.
  - intros k v Hpk Hv. destruct (decide (k = key)) as [->|Hne].
    + exists (read_back j). assert (v = b) as -> by congruence. split; [done |]. split; [done |]. split; [done |]. right. exact Ekey.
    + rewrite Hraw in Hv by done. by apply (kept_keyed _ _ _ _ _ K).
  - rewrite (raw_judgments_add m (values ∪ m) _ _ key b (read_back j)), filter_app by done.
    rewrite !filter_cons, filter_nil. case_decide; rewrite (kept_raw _ _ _ _ _ K); [apply Permutation_cons_append | by rewrite List.app_nil_r].
  - intros r k v Hpk Hv. destruct (values !! k) as [x|] eqn:Ex.
    + assert (is_Some (values !! k)) as Hs by eauto.
      destruct (writes_paths _ _ _ _ _ _ _ Hf Hr W Hs) as (l & -> & Hl & Hn & Hc).
      apply own_summary in Hpk as (rest & -> & Hrest); [| slash_free_tac | done | done].
      destruct Hc as [?|[(_ & ? & ?)|[(r' & _ & Ek & El)|El]]]; try (by simplify_eq).
      exists (Unix (truncateToResolution (jd_Timestamp j) r)). split; [by apply int64_Unix, int64_truncate |].
      injection El as Er ->. assert (r = r') as -> by (revert Er; by destruct r, r'). by rewrite summary_key_path.
    + rewrite lookup_union_r in Hv by done. by apply (kept_spelled _ _ _ _ _ K r k v).
  - eapply counted_add; try done; [unfold live_resolutions; set_solver | apply K].
  - eapply counted_add; try done; [unfold live_resolutions; set_solver | apply K].
  - intros data t. destruct (values !! liveSinceKey (jd_WorkspaceID j) (jd_SoulID j)) as [x|] eqn:Ex.
    + rewrite (lookup_union_Some_l _ _ _ _ Ex). intros [= <-]. apply (wr_marker _ _ _ _ _ W) in Ex as ->. rewrite time_roundtrip. by intros [= <-].
    + rewrite lookup_union_r by done. apply (kept_live _ _ _ _ _ K).
Qed.

(** The pairs of a save that reports success are in the store. *)
Lemma save_written ts c gen ctx now j ts' : let f := filled gen ctx j in
  kv_inv (ts_db ts) -> call_env_ok c -> SaveJudgment ts c gen ctx now j = (ts', None) ->
  jd_WorkspaceID f <> "" -> slash_free [jd_WorkspaceID f; jd_SoulID f] ->
  kv_inv (ts_db ts') /\ no_slash (jd_ID f) /\ exists key values, record_key (kv_map (ts_db ts)) f key /\
    writes (kv_map (ts_db ts)) now f key values /\ kv_map (ts_db ts') = values ∪ kv_map (ts_db ts).
Proof.
  cbv zeta. set (f := filled gen ctx j). intros Hi Hc Hs Hws Hf. unfold SaveJudgment in Hs.
  destruct (prepare_all _ _ _ _ _ _ _) as [e|[[j' values] ix]] eqn:Ep; [done |].
  apply (prepare_all_writes _ _ (kv_map (ts_db ts))) in Ep as (-> & Hid & -> & key & W & Hr);
    [| done | intros k; by apply kv_get_spec | done | done]. fold f in Hs, Hid, W, Hr.
  destruct (kv_put_many (ts_db ts) c values) as [d' [e|]] eqn:Eput; [done |]. injection Hs as <-.
  destruct (kv_put_many_spec _ _ _ _ _ Hi Hc Eput) as [Hi' Hm]. split; [done |]. split; [done |]. by exists key, values.
Qed.

Lemma save_own ts c gen ctx now j ts' H hz : let f := filled gen ctx j in
  kv_inv (ts_db ts) -> call_env_ok c -> SaveJudgment ts c gen ctx now j = (ts', None) ->
  jd_WorkspaceID f <> "" -> slash_free [jd_WorkspaceID f; jd_SoulID f] ->
  int64_range (jd_Timestamp j) -> - 2 ^ 63 + Day <= jd_Timestamp j -> h_live hz <= now -> fresh (kv_map (ts_db ts)) f ->
  kept (kv_map (ts_db ts)) (jd_WorkspaceID f) (jd_SoulID f) H hz ->
  kept (kv_map (ts_db ts')) (jd_WorkspaceID f) (jd_SoulID f) (H ++ [read_back f]) hz.
Proof.
  cbv zeta. set (f := filled gen ctx j). intros Hi Hc Hs Hws Hf Ht Hlow Hnow Hfr K.
  destruct (save_written _ _ _ _ _ _ _ Hi Hc Hs Hws Hf) as (_ & Hid & key & values & Hr & W & ->). fold f in Hid, Hr, W.
  unfold slash_free in Hf. rewrite !Forall_cons in Hf. destruct Hf as (? & ? & _). eapply writes_kept; try done. slash_free_tac.
Qed.

(** C37: saving a judgment whose ID is not stored yet for its soul adds it to
    the history of that soul and changes no other: its record can be read back
    and its hour and its day count it, in one write; a save that reports an
    error leaves the store as it was. *)
Theorem save_extends_history ts c gen ctx now j ts' err ws soul H hz :
  let f := filled gen ctx j in
  kv_inv (ts_db ts) -> call_env_ok c -> SaveJudgment ts c gen ctx now j = (ts', err) ->
  jd_WorkspaceID f <> "" -> slash_free [jd_WorkspaceID f; jd_SoulID f] -> slash_free [ws; soul] ->
  int64_range (jd_Timestamp j) -> - 2 ^ 63 + Day <= jd_Timestamp j ->
  kept (kv_map (ts_db ts)) ws soul H hz -> h_live hz <= now -> fresh (kv_map (ts_db ts)) f ->
  kv_inv (ts_db ts') /\
  match err with
  | Some _ => kv_map (ts_db ts') = kv_map (ts_db ts)
  | None => kept (kv_map (ts_db ts')) ws soul (if decide ((ws, soul) = (jd_WorkspaceID f, jd_SoulID f)) then H ++ [read_back f] else H) hz
  end.
Proof.
  cbv zeta. set (f := filled gen ctx j). intros Hi Hc Hs Hws Hf Hf' Ht Hlow K Hnow Hfr. destruct err as [e|].
  - unfold SaveJudgment in Hs. destruct (prepare_all _ _ _ _ _ _ _) as [e'|[[j' values] ix]]; [by injection Hs as <- <- |].
    destruct (kv_put_many (ts_db ts) c values) as [d' [e'|]] eqn:Eput; [| done]. injection Hs as <- <-.
    exact (kv_put_many_spec _ _ _ _ _ Hi Hc Eput).
  - destruct (save_written _ _ _ _ _ _ _ Hi Hc Hs Hws Hf) as (Hi' & Hid & key & values & Hr & W & Hm). fold f in Hid, Hr, W. split; [done |].
    case_decide as Hd.
    + assert (ws = jd_WorkspaceID f) as -> by congruence. assert (soul = jd_SoulID f) as -> by congruence. exact (save_own ts c gen ctx now j ts' H hz Hi Hc Hs Hws Hf Ht Hlow Hnow Hfr K).
    + rewrite Hm. eapply kept_same; [| exact K]. unfold slash_free in Hf. rewrite !Forall_cons in Hf. destruct Hf as (? & ? & _).
      eapply writes_other; try done. slash_free_tac.
Qed.

(** ** Retention moves the horizon *)

Lemma raw_judgments_subset m m' ws soul cutoff : m' ⊆ m ->
  (forall k b, String.prefix (raw_prefix ws soul) k = true -> m !! k = Some b -> m' !! k = None ->
     exists j, unmarshal_judgment b = Some j /\ jd_Timestamp j < cutoff) ->
  filter (since cutoff) (raw_judgments m ws soul) ≡ₚ filter (since cutoff) (raw_judgments m' ws soul).
Proof.
  intros Hsub Hgone. unfold raw_judgments. set (P := fun kv : string * bytes => String.prefix (raw_prefix ws soul) kv.1 = true).
  assert (filter P m' = filter (fun kv => is_Some (m' !! kv.1)) (filter P m)) as ->.
  { apply map_eq. intros k. apply option_eq. intros v. rewrite !map_lookup_filter_Some. cbn. split.
    - intros [Hv Hp]. split; [| eauto]. split; [| done]. by eapply lookup_weaken.
    - intros [[Hv Hp] [v' Hv']]. split; [| done]. pose proof (lookup_weaken _ _ _ _ Hv' Hsub). congruence. }
  rewrite (map_to_list_filter_perm (fun kv => is_Some (m' !! kv.1))), filter_omap_filter; [done |].
  intros [k b] j Hin Hj Hs. cbn in *. apply elem_of_map_to_list, map_lookup_filter_Some in Hin as [Hm Hp].
  destruct (m' !! k) eqn:E; [eauto |]. destruct (Hgone k b Hp Hm E) as (j' & Hj' & Hlt). simplify_eq. unfold since in Hs. lia.
Qed.

Definition later (hz : horizon) (raw hour day : Z) : horizon :=
  MkHorizon (h_live hz) (Z.max (h_raw hz) raw) (Z.max (h_hour hz) hour) (Z.max (h_day hz) day).

(** Deleting what is older than the new horizon keeps the rest of the
    history. *)
Lemma kept_purged m m' ws soul H hz raw hour day : m' ⊆ m ->
  (forall k b, String.prefix (raw_prefix ws soul) k = true -> m !! k = Some b -> m' !! k = None ->
     exists j, unmarshal_judgment b = Some j /\ jd_Timestamp j < raw) ->
  (forall b, truncateToResolution b Resolution1Hour = b -> int64_range b -> hour <= b -> m' !! summary_key ws soul Resolution1Hour (Unix b) = m !! summary_key ws soul Resolution1Hour (Unix b)) ->
  (forall b, truncateToResolution b Resolution1Day = b -> int64_range b -> day <= b -> m' !! summary_key ws soul Resolution1Day (Unix b) = m !! summary_key ws soul Resolution1Day (Unix b)) ->
  kept m ws soul H hz -> kept m' ws soul H (later hz raw hour day).
Proof.
  intros Hsub Hraw Hhour Hday [K1 K2 K3 K4 K5 K6]. split; cbn [later h_live h_raw h_hour h_day].
  - intros k b Hp Hb. apply K1; [done | by eapply lookup_weaken].
  - assert (forall l l' : list Judgment, filter (since (h_raw hz)) l ≡ₚ filter (since (h_raw hz)) l' ->
      filter (since (Z.max (h_raw hz) raw)) l ≡ₚ filter (since (Z.max (h_raw hz) raw)) l') as Hmono.
    { intros l l' E. assert (forall x : list Judgment, filter (since (Z.max (h_raw hz) raw)) x = filter (since (Z.max (h_raw hz) raw)) (filter (since (h_raw hz)) x)) as Hx.
      { intros x. rewrite list_filter_filter. apply list_filter_iff. intros j. unfold since. lia. }
      by rewrite (Hx l), (Hx l'), E. }
    rewrite <- (Hmono _ _ K2). symmetry. apply raw_judgments_subset; [done |]. intros k b Hp Hb Hn.
    destruct (Hraw k b Hp Hb Hn) as (j & Hj & Hlt). exists j. split; [done | lia].
  - intros r k b Hp Hb. by eapply K3; [| eapply lookup_weaken].
  - intros b Ha Hi Hb. eapply tallied_same; [apply Hhour; [done | done | lia] | apply K4; [done | done | lia]].
  - intros b Ha Hi Hb. eapply tallied_same; [apply Hday; [done | done | lia] | apply K5; [done | done | lia]].
  - intros data t Hd. apply K6. by eapply lookup_weaken.
Qed.

(** *** What the purges delete *)

Lemma purge_keys_spec cs keys : (forall k, call_env_ok (cs k)) -> forall d n, kv_inv d ->
  let d' := (purge_keys d cs n keys).1 in
  kv_inv d' /\ kv_map d' ⊆ kv_map d /\ forall k, k ∉ keys -> kv_map d' !! k = kv_map d !! k.
Proof.
  intros Hcs. induction keys as [|key keys IH]; intros d n Hi; cbn [purge_keys fst]; [done |].
  destruct (kv_delete d (cs n) key) as [d1 err] eqn:E. destruct (kv_delete_spec _ _ _ _ _ Hi (Hcs n) E) as [Hi1 Hm1]. cbn [fst].
  destruct (IH d1 (S n) Hi1) as (Hi' & Hs' & Ho'). assert (kv_map d1 ⊆ kv_map d) as Hs1 by (rewrite Hm1; destruct err; [done | apply delete_subseteq]).
  split; [done |]. split; [by etrans |]. intros k [Hk Hks]%not_elem_of_cons. rewrite Ho', Hm1 by done. destruct err; [done |].
  by rewrite lookup_delete_ne.
Qed.

Lemma purge_workspaces_spec cs res cutoff wss : (forall k, call_env_ok (cs k)) -> forall d n, kv_inv d ->
  let d' := (purge_workspaces d cs n res cutoff wss).1 in
  kv_inv d' /\ kv_map d' ⊆ kv_map d /\ forall k, expired_summary res cutoff k = false -> kv_map d' !! k = kv_map d !! k.
Proof.
  intros Hcs. induction wss as [|ws wss IH]; intros d n Hi; cbn [purge_workspaces]; [done |].
  rewrite kv_scan_spec by done. set (keys := filter _ _). destruct (purge_keys d cs n keys) as [d1 n1] eqn:E.
  destruct (purge_keys_spec cs keys Hcs d n Hi) as (Hi1 & Hs1 & Ho1). rewrite E in Hi1, Hs1, Ho1. cbn [fst] in *.
  destruct (IH d1 n1 Hi1) as (Hi' & Hs' & Ho'). split; [done |]. split; [by etrans |]. intros k Hk. rewrite Ho' by done. apply Ho1.
  intros [Hx _]%list_elem_of_filter. congruence.
Qed.

(** What a purge of records may delete: old records and index keys. *)
Definition purged_raw (wss : list string) (cutoff : Z) (k : string) : Prop :=
  exists ws, ws ∈ wss /\ ((String.prefix (ws +:+ "/judgments/") k = true /\ old_raw cutoff k = true) \/ exists id, k = index_key ws id).

Lemma purge_raw_key_spec s c c' ws key s' err : kv_inv s.1 -> call_env_ok c -> call_env_ok c' -> purge_raw_key s c c' ws key = (s', err) ->
  kv_inv s'.1 /\ kv_map s'.1 ⊆ kv_map s.1 /\ (forall k, k <> key -> (forall id, k <> index_key ws id) -> kv_map s'.1 !! k = kv_map s.1 !! k).
Proof.
  intros Hi Hc Hc'. unfold purge_raw_key. destruct s as [d x]. cbn [fst] in *. rewrite kv_get_spec by done.
  destruct (kv_map d !! key) as [data|]; [| by intros [= <- <-]]. destruct (unmarshal_judgment data) as [j|]; [| by intros [= <- <-]].
  destruct (kv_delete d c key) as [d1 e1] eqn:E1. destruct (kv_delete_spec _ _ _ _ _ Hi Hc E1) as [Hi1 Hm1].
  destruct e1; [intros [= <- <-]; cbn; by rewrite Hm1 |]. case_decide.
  { intros [= <- <-]. cbn. rewrite Hm1. split; [done |]. split; [apply delete_subseteq |]. intros k Hk _. by rewrite lookup_delete_ne. }
  destruct (kv_delete d1 c' (index_key ws (jd_ID j))) as [d2 e2] eqn:E2. destruct (kv_delete_spec _ _ _ _ _ Hi1 Hc' E2) as [Hi2 Hm2].
  assert (kv_map d2 ⊆ kv_map d /\ forall k, k <> key -> (forall id, k <> index_key ws id) -> kv_map d2 !! k = kv_map d !! k) as [Hs Ho].
  { rewrite Hm2, Hm1. destruct e2.
    - split; [apply delete_subseteq |]. intros k Hk _. by rewrite lookup_delete_ne.
    - split; [etrans; apply delete_subseteq |]. intros k Hk Hx. by rewrite !lookup_delete_ne. }
  destruct e2; by intros [= <- <-].
Qed.

Lemma purge_raw_keys_spec cs ws keys : (forall k, call_env_ok (cs k)) -> forall s n s' n' err, kv_inv s.1 -> purge_raw_keys s cs n ws keys = (s', n', err) ->
  kv_inv s'.1 /\ kv_map s'.1 ⊆ kv_map s.1 /\ (forall k, k ∉ keys -> (forall id, k <> index_key ws id) -> kv_map s'.1 !! k = kv_map s.1 !! k).
Proof.
  intros Hcs. induction keys as [|key keys IH]; intros s n s' n' err Hi; cbn [purge_raw_keys]; [by intros [= <- <- <-] |].
  destruct (purge_raw_key s (cs n) (cs (S n)) ws key) as [s1 e1] eqn:E1.
  destruct (purge_raw_key_spec _ _ _ _ _ _ _ Hi (Hcs _) (Hcs _) E1) as (Hi1 & Hs1 & Ho1).
  destruct e1.
  - intros [= <- <- <-]. split; [done |]. split; [done |]. intros k [? ?]%not_elem_of_cons. by apply Ho1.
  - intros (Hi2 & Hs2 & Ho2)%IH; [| done]. split; [done |]. split; [by etrans |]. intros k [? ?]%not_elem_of_cons Hx. rewrite Ho2 by done. by apply Ho1.
Qed.

Lemma purge_raw_workspaces_spec cs cutoff wss : (forall k, call_env_ok (cs k)) -> forall s n, kv_inv s.1 ->
  let s' := (purge_raw_workspaces s cs n cutoff wss).1 in
  kv_inv s'.1 /\ kv_map s'.1 ⊆ kv_map s.1 /\ forall k, ~ purged_raw wss cutoff k -> kv_map s'.1 !! k = kv_map s.1 !! k.
Proof.
  intros Hcs. induction wss as [|ws wss IH]; intros s n Hi; cbn [purge_raw_workspaces]; [done |].
  rewrite kv_scan_spec by done. set (keys := filter _ _). destruct (purge_raw_keys s cs n ws keys) as [[s1 n1] e1] eqn:E1.
  destruct (purge_raw_keys_spec cs ws keys Hcs _ _ _ _ _ Hi E1) as (Hi1 & Hs1 & Ho1).
  assert (forall k, ~ purged_raw (ws :: wss) cutoff k -> kv_map s1.1 !! k = kv_map s.1 !! k) as Hk1.
  { intros k Hk. apply Ho1.
    - intros [Ho Hin]%list_elem_of_filter. apply Hk. exists ws. split; [left |]. left. split; [| done].
      apply list_elem_of_fmap in Hin as ([k' v] & -> & Hin%elem_of_map_to_list). by apply map_lookup_filter_Some in Hin as [_ Hp].
    - intros id ->. apply Hk. exists ws. split; [left |]. right. by exists id. }
  destruct e1; [done |]. destruct (IH s1 n1 Hi1) as (Hi2 & Hs2 & Ho2). split; [done |]. split; [by etrans |]. intros k Hk.
  rewrite Ho2; [by apply Hk1 |]. intros (w & Hw & Hp). apply Hk. exists w. split; [by right | done].
Qed.

Lemma prefix_segments l k : slash_free l -> String.prefix (below l "") k = true -> exists rest, split_at slash k = l ++ rest.
Proof.
  intros Hf [t ->]%prefix_split. rewrite below_app, split_below by done. by eexists.
Qed.

(** The second segment tells records, indexes and summaries apart. *)
Lemma purged_segment wss cutoff k : slash_free wss -> purged_raw wss cutoff k ->
  exists ws rest, split_at slash k = ws :: "judgments" :: rest /\ old_raw cutoff k = true \/ split_at slash k = ws :: "judgment-idx" :: rest.
Proof.
  intros Hf (ws & Hws & [[Hp Ho]|[id ->]]); unfold slash_free in Hf; rewrite Forall_forall in Hf; specialize (Hf ws Hws).
  - change (ws +:+ "/judgments/") with (below [ws; "judgments"] "") in Hp. apply prefix_segments in Hp as [rest E]; [| slash_free_tac].
    exists ws, rest. left. by rewrite E.
  - exists ws, (split_at slash id). right. change (index_key ws id) with (below [ws; "judgment-idx"] id). apply split_below. slash_free_tac.
Qed.

Lemma keyed_old m ws soul k b cutoff : slash_free [ws; soul] -> keyed m ws soul -> String.prefix (raw_prefix ws soul) k = true -> m !! k = Some b ->
  old_raw cutoff k = true -> exists j, unmarshal_judgment b = Some j /\ jd_Timestamp j < cutoff.
Proof.
  intros Hf Hk Hp Hb Ho. destruct (Hk k b Hp Hb) as (j & Hj & Hid & Hi & Ek). exists j. split; [done |].
  unfold slash_free in Hf. rewrite !Forall_cons in Hf. destruct Hf as (? & ? & _).
  assert (raw_time k = Some (jd_Timestamp j)) as Et.
  { unfold raw_time. rewrite raw_key_path, legacy_key_path in Ek.
    destruct Ek as [->| ->]; rewrite split_path by (slash_free_tac || done); apply ParseInt_format; (exact Hi || lia). }
  unfold old_raw in Ho. rewrite Et in Ho. by apply bool_decide_eq_true in Ho.
Qed.

Lemma raw_purge_kept s cs cutoff ws soul H hz : (forall k, call_env_ok (cs k)) -> kv_inv s.1 -> slash_free (known_workspaces s.2) ->
  slash_free [ws; soul] -> kept (kv_map s.1) ws soul H hz ->
  kv_inv (purgeRawData s cs cutoff).1.1 /\
  kept (kv_map (purgeRawData s cs cutoff).1.1) ws soul H (later hz cutoff (h_hour hz) (h_day hz)).
Proof.
  intros Hcs Hi Hw Hf K. unfold purgeRawData.
  destruct (purge_raw_workspaces_spec cs cutoff (known_workspaces s.2) Hcs s 0%nat Hi) as (Hi' & Hsub & Ho). split; [done |].
  pose proof Hf as Hf'. unfold slash_free in Hf'. rewrite !Forall_cons in Hf'. destruct Hf' as (Hfw & Hfs & _).
  assert (forall r u, ~ purged_raw (known_workspaces s.2) cutoff (summary_key ws soul r u)) as Hsum.
  { intros r u Hp. apply purged_segment in Hp as (w & rest & Hc); [| done]. rewrite summary_key_path, split_path in Hc by (slash_free_tac || done).
    by destruct Hc as [[[= ] _]|[= ]]. }
  eapply kept_purged; [exact Hsub | | intros; by apply Ho | intros; by apply Ho | exact K].
  intros k b Hp Hb Hn. destruct (old_raw cutoff k) eqn:Eo; [by eapply keyed_old; [| apply K | ..] |]. exfalso.
  rewrite Ho in Hn; [congruence |]. intros (w & rest & [[_ ?]|E])%purged_segment; [congruence | | done].
  rewrite raw_prefix_path in Hp. apply prefix_segments in Hp as [r' E']; [| slash_free_tac]. rewrite E in E'. done.
Qed.

Lemma summary_purge_kept s cs r cutoff ws soul H hz : (forall k, call_env_ok (cs k)) -> kv_inv s.1 ->
  slash_free [ws; soul] -> kept (kv_map s.1) ws soul H hz ->
  kv_inv (purgeSummaries s cs (res_name r) cutoff).1.1 /\
  kept (kv_map (purgeSummaries s cs (res_name r) cutoff).1.1) ws soul H
    (later hz (h_raw hz) (if decide (r = Resolution1Hour) then cutoff else h_hour hz) (if decide (r = Resolution1Day) then cutoff else h_day hz)).
Proof.
  intros Hcs Hi Hf K. unfold purgeSummaries.
  destruct (purge_workspaces_spec cs (res_name r) cutoff (known_workspaces s.2) Hcs s.1 0%nat Hi) as (Hi' & Hsub & Ho).
  destruct (purge_workspaces s.1 cs 0 (res_name r) cutoff (known_workspaces s.2)) as [d' e]. cbn [fst] in *. split; [done |].
  pose proof Hf as Hf'. unfold slash_free in Hf'. rewrite !Forall_cons in Hf'. destruct Hf' as (Hfw & Hfs & _).
  assert (forall r' b, r' <> ResolutionRaw -> truncateToResolution b r' = b -> int64_range b -> (r' = r -> cutoff <= b) ->
    expired_summary (res_name r) cutoff (summary_key ws soul r' (Unix b)) = false) as Hexp.
  { intros r' b Hraw Ha Hb Hc. unfold expired_summary. rewrite summary_key_path, split_path by (slash_free_tac || done).
    case_decide as Hr; [done |]. assert (r' = r) as -> by (revert Hr; by destruct r', r).
    rewrite ParseInt_format by (by apply int64_Unix || lia). apply bool_decide_eq_false. specialize (Hc eq_refl).
    pose proof (bucket_second b r Hraw) as Hm. rewrite Ha in Hm. unfold Unix. pose proof (Z.div_mod b Second ltac:(done)). lia. }
  eapply kept_purged; [exact Hsub | | | | exact K].
  - intros k b Hp Hb Hn. exfalso. rewrite Ho in Hn; [congruence |]. rewrite raw_prefix_path in Hp.
    destruct (kept_keyed _ _ _ _ _ K k b Hp Hb) as (j & _ & Hid & Hi64 & Ek). unfold expired_summary. rewrite raw_key_path, legacy_key_path in Ek.
    destruct Ek as [->| ->]; rewrite split_path by (slash_free_tac || done); [done |]. rewrite decide_True; [done |]. intros E.
    pose proof (ParseInt_format (jd_Timestamp j) 64 Hi64 ltac:(lia)) as Ep. rewrite E in Ep. by destruct r.
  - intros b Ha Hb Hc. apply Ho, Hexp; try done. intros <-. by rewrite decide_True in Hc.
  - intros b Ha Hb Hc. apply Ho, Hexp; try done. intros <-. by rewrite decide_True in Hc.
Qed.

(** *** A whole cleanup *)

Definition expiry (period now old : Z) : Z := if decide (0 < period) then Z.max old (now - period) else old.

Lemma stage_kept ws soul H period now purge (s : store (D := D)) hz (f : Z -> horizon) :
  (forall cutoff, kv_inv (purge cutoff s).1 /\ kept (kv_map (purge cutoff s).1) ws soul H (f cutoff)) ->
  kv_inv s.1 -> kept (kv_map s.1) ws soul H hz ->
  kv_inv (purge_if period now purge s).1 /\
  kept (kv_map (purge_if period now purge s).1) ws soul H (if decide (0 < period) then f (now - period) else hz).
Proof. intros Hp Hi K. unfold purge_if. case_decide; [apply Hp | done]. Qed.

(** A cleanup deletes only what is older than the configured periods: of
    every soul, the records, hours and days within them stay, and still count
    exactly what was saved. *)
Lemma cleanup_keeps_recent s css config now ws soul H hz :
  (forall i k, call_env_ok (css i k)) -> kv_inv s.1 -> slash_free (known_workspaces s.2) -> slash_free [ws; soul] ->
  kept (kv_map s.1) ws soul H hz ->
  kv_inv (runCleanup s css config now).1 /\
  kept (kv_map (runCleanup s css config now).1) ws soul H
    (MkHorizon (h_live hz) (expiry (rt_Raw config) now (h_raw hz)) (expiry (rt_Hour config) now (h_hour hz))
       (expiry (default 0 (rt_Day config)) now (h_day hz))).
Proof.
  intros Hcs Hi Hw Hf K. unfold runCleanup.
  assert (forall r, forall css0, (forall k, call_env_ok (css0 k)) -> forall period s0 hz0, kv_inv s0.1 -> kept (kv_map s0.1) ws soul H hz0 ->
    let s1 := purge_if period now (fun cutoff s => (purgeSummaries s css0 (res_name r) cutoff).1) s0 in
    kv_inv s1.1 /\ kept (kv_map s1.1) ws soul H (MkHorizon (h_live hz0) (h_raw hz0)
      (if decide (r = Resolution1Hour) then expiry period now (h_hour hz0) else h_hour hz0)
      (if decide (r = Resolution1Day) then expiry period now (h_day hz0) else h_day hz0))) as Hstage.
  { intros r css0 Hc0 period s0 hz0 Hi0 K0. cbv zeta.
    destruct (stage_kept ws soul H period now (fun cutoff s => (purgeSummaries s css0 (res_name r) cutoff).1) s0 hz0
      (fun cutoff => later hz0 (h_raw hz0) (if decide (r = Resolution1Hour) then cutoff else h_hour hz0) (if decide (r = Resolution1Day) then cutoff else h_day hz0)))
      as [Hi1 K1]; [intros cutoff; by apply summary_purge_kept | done | done |].
    split; [done |]. unfold expiry. revert K1. unfold later. destruct hz0 as [l0 r0 h0 d0]. cbn [h_live h_raw h_hour h_day].
    repeat case_decide; subst; rewrite ?Z.max_id; done. }
  destruct (stage_kept ws soul H (rt_Raw config) now (fun cutoff s => (purgeRawData s (css 0%nat) cutoff).1) s hz
    (fun cutoff => later hz cutoff (h_hour hz) (h_day hz))) as [Hi1 K1]; [intros; by apply raw_purge_kept | done | done |].
  destruct (Hstage Resolution1Min (css 1%nat) ltac:(auto) (rt_Minute config) _ _ Hi1 K1) as [Hi2 K2].
  destruct (Hstage Resolution5Min (css 2%nat) ltac:(auto) (rt_FiveMin config) _ _ Hi2 K2) as [Hi3 K3].
  destruct (Hstage Resolution1Hour (css 3%nat) ltac:(auto) (rt_Hour config) _ _ Hi3 K3) as [Hi4 K4].
  destruct (Hstage Resolution1Day (css 4%nat) ltac:(auto) (default 0 (rt_Day config)) _ _ Hi4 K4) as [Hi5 K5].
  split; [exact Hi5 |].
  rewrite !(decide_False (P := Resolution1Min = _)) in K5 by done. rewrite !(decide_False (P := Resolution5Min = _)) in K5 by done.
  rewrite (decide_False (P := Resolution1Hour = Resolution1Day)), (decide_False (P := Resolution1Day = Resolution1Hour)),
    (decide_True (P := Resolution1Hour = Resolution1Hour)), (decide_True (P := Resolution1Day = Resolution1Day)) in K5 by done.
  cbn [h_live h_raw h_hour h_day] in K5. unfold expiry at 1. destruct (decide (0 < rt_Raw config)); cbn [later h_live h_raw h_hour h_day] in K5;
    rewrite ?Z.max_id in K5; exact K5.
Qed.

(** ** Rollups *)

(** The checks a set of source snapshots stands for. *)
Definition snapshot_total (f : SourceSnapshot -> Z) (m : gmap string SourceSnapshot) : Z := sum_by (fun us => f us.2) (map_to_list m).

Lemma sum_by_perm {A} (f : A -> Z) l k : l ≡ₚ k -> sum_by f l = sum_by f k.
Proof. unfold sum_by. induction 1; cbn; lia. Qed.

Lemma sum_by_map {A B} (f : B -> Z) (g : A -> B) l : sum_by f (g <$> l) = sum_by (fun a => f (g a)) l.
Proof. unfold sum_by. induction l as [|a l IH]; [done |]. cbn. by rewrite IH. Qed.

Lemma foldl_sum {A} (f : A -> Z) l : forall z, foldl (fun z a => z + f a) z l = z + sum_by f l.
Proof. unfold sum_by. induction l as [|a l IH]; intros z; cbn; [lia |]. rewrite IH. lia. Qed.

Definition source_entry (s : JudgmentSummary) : string * SourceSnapshot := (FormatInt (Unix (BucketTime s)), snapshotOf s).

(** A rollup built from sources with distinct times records each and counts
    them all. *)
Lemma aggregate_sources ws soul r b sources target : NoDup ((source_entry <$> sources).*1) ->
  sm_Sources (aggregate ws soul r b sources target) = Some (list_to_map (source_entry <$> sources)) /\
  Count (aggregate ws soul r b sources target) = snapshot_total sn_Count (list_to_map (source_entry <$> sources)) /\
  SuccessCount (aggregate ws soul r b sources target) = snapshot_total sn_SuccessCount (list_to_map (source_entry <$> sources)).
Proof.
  intros Hn. unfold aggregate. cbn [sm_Sources Count SuccessCount]. split; [| split].
  - f_equal. apply list_to_map_proper; [| by rewrite reverse_Permutation]. by rewrite reverse_Permutation.
  - rewrite (foldl_sum Count), Z.add_0_l. unfold snapshot_total. rewrite (sum_by_perm _ _ _ (map_to_list_to_map _ Hn)), sum_by_map. done.
  - rewrite (foldl_sum SuccessCount), Z.add_0_l. unfold snapshot_total. rewrite (sum_by_perm _ _ _ (map_to_list_to_map _ Hn)), sum_by_map. done.
Qed.

Lemma current_entries current : map_Forall (fun u s => u = FormatInt (Unix (BucketTime s))) current ->
  source_entry <$> (map_to_list current).*2 = map_to_list (snapshotOf <$> current).
Proof.
  intros Hcur. rewrite map_to_list_fmap, <- list_fmap_compose. apply list_fmap_ext. intros i [u s] Hin. cbn. unfold source_entry.
  apply list_elem_of_lookup_2, elem_of_map_to_list in Hin. by rewrite <- (Hcur u s Hin).
Qed.

(** Rebuilding a rollup because of late data keeps what it had counted:
    it is built from the current sources, and from the recorded snapshot of
    every source that retention has deleted since. *)
Lemma rollup_carries_deleted d key current data existing recorded sources ws soul r b target :
  kv_inv d -> kv_map d !! key = Some data -> unmarshal_summary data = Some existing -> sm_Sources existing = Some recorded ->
  map_Forall (fun u s => u = FormatInt (Unix (BucketTime s))) current ->
  map_Forall (fun u _ => exists v, int64_range v /\ u = FormatInt v) recorded ->
  rollupSources d key current = (sources, true) ->
  sm_Sources (aggregate ws soul r b sources target) = Some ((snapshotOf <$> current) ∪ recorded) /\
  Count (aggregate ws soul r b sources target) = snapshot_total sn_Count ((snapshotOf <$> current) ∪ recorded) /\
  SuccessCount (aggregate ws soul r b sources target) = snapshot_total sn_SuccessCount ((snapshotOf <$> current) ∪ recorded).
Proof.
  intros Hi Hd Hu Hs Hcur Hrec. unfold rollupSources. rewrite kv_get_spec, Hd, Hu, Hs by done. cbv zeta.
  destruct (existsb _ _); cbn [negb]; [| done]. intros [= <-].
  set (carried := omap _ _).
  pose proof (current_entries current Hcur) as Ec.
  assert (source_entry <$> carried = filter (fun us => ~ is_Some (current !! us.1)) (map_to_list recorded)) as Er.
  { subst carried. assert (forall l, l ⊆ map_to_list recorded -> source_entry <$> omap (fun us : string * SourceSnapshot =>
        if decide (is_Some (current !! us.1)) then None else sec ← ParseInt us.1 10 64; Some (MkSummary "" "" "" (sec * Second) (sn_Count us.2) (sn_SuccessCount us.2) 0
          (sn_MinLatency us.2) (sn_MaxLatency us.2) (sn_AvgLatency us.2) (float_of 0) (float_of 0) (float_of 0) (float_of 0) (float_of 0) None)) l =
        filter (fun us => ~ is_Some (current !! us.1)) l) as Hl; [| by apply Hl].
    induction l as [|[u sn] l IH]; intros Hsub; [done |]. cbn [omap list_omap fst snd]. rewrite filter_cons. cbn [fst].
    assert ((u, sn) ∈ map_to_list recorded) as Hin by (apply Hsub; left). apply elem_of_map_to_list in Hin.
    destruct (decide (is_Some (current !! u))) as [Hsome|Hnone].
    - rewrite decide_False by (intros Hx; by apply Hx). apply IH. set_solver.
    - rewrite decide_True by done. destruct (Hrec u sn Hin) as (v & Hv & ->). rewrite ParseInt_format by (exact Hv || lia). cbn [mbind option_bind fmap list_fmap].
      rewrite IH by set_solver. f_equal. unfold source_entry, snapshotOf. cbn. unfold Unix. rewrite Z.div_mul by done. by destruct sn. }
  assert (NoDup ((source_entry <$> ((map_to_list current).*2 ++ carried)).*1)) as Hnd.
  { rewrite fmap_app, Ec, Er, fmap_app. apply NoDup_app. split; [apply NoDup_fst_map_to_list |]. split.
    - intros u Hu1 Hu2. apply list_elem_of_fmap in Hu1 as ([u1 x1] & -> & H1%elem_of_map_to_list). cbn in Hu2.
      apply list_elem_of_fmap in Hu2 as ([u2 x2] & -> & [Hn _]%list_elem_of_filter). apply Hn. cbn in *.
      rewrite lookup_fmap in H1. apply fmap_Some in H1 as (s & Hs' & _). eauto.
    - eapply sublist_NoDup; [apply (NoDup_fst_map_to_list recorded) |]. apply fmap_sublist, sublist_filter. }
  assert (list_to_map (source_entry <$> ((map_to_list current).*2 ++ carried)) = (snapshotOf <$> current) ∪ recorded) as <-; [| by apply aggregate_sources].
  rewrite fmap_app, Ec, Er, list_to_map_app, list_to_map_to_list, <- map_filter_alt. apply map_eq. intros u.
  rewrite !lookup_union, lookup_fmap. destruct (current !! u) eqn:E; cbn; [by rewrite !union_Some_l |]. rewrite !(left_id_L None _).
  destruct (recorded !! u) eqn:E'; [apply map_lookup_filter_Some; split; [done |]; cbn; rewrite E; by intros [? ?] | apply map_lookup_filter_None; by left].
Qed.
End history.

(** ** Stores with range scans *)

#[export] Instance cobalt_range {C : WalCodec} {K : Crypto} : KeyRange CobaltDB := RangeScan.

Lemma range_logical {C : WalCodec} {K : Crypto} db lo hi :
  usable db -> RangeScan db lo hi = inr (filter (fun e => in_range lo hi e.1 = true) (logical db)).
Proof.
  intros [H1 H2 H3]. destruct (scans_correct db "" lo hi H1 H2) as (_ & _ & Hr).
  destruct (RangeScan db lo hi) as [e|m]; simpl in Hr.
  - destruct Hr as (k & v & _ & Hv & He). destruct (H3 k v Hv) as [q Hq]. unfold decoded in Hq. by rewrite He in Hq.
  - f_equal. apply map_eq. intros k. specialize (Hr k). destruct (in_range lo hi k) eqn:Ep.
    + rewrite (lookup_filter_key (fun j => in_range lo hi j = true)), decide_True, lookup_logical by done.
      destruct (view db !! k) as [v|]; [| done]. destruct Hr as (q & Hq & ->). simpl. unfold decoded. by rewrite Hq.
    + by rewrite (lookup_filter_key (fun j => in_range lo hi j = true)), decide_False by congruence.
Qed.

#[export] Instance cobalt_range_ok {C : WalCodec} {K : Crypto} {Kok : CryptoOk K} : KeyRangeOk CobaltDB.
Proof. intros d lo hi Hi. by apply range_logical. Qed.

#[export] Instance map_range : KeyRange (gmap string bytes) := fun m lo hi => inr (filter (fun e => in_range lo hi e.1 = true) m).
#[export] Instance map_range_ok : KeyRangeOk (gmap string bytes).
Proof. by intros m lo hi _. Qed.
