(* ===== verification/Compaction.v ===== *)
(** * Compaction and the whole life of a history

    Compaction builds coarser summaries from finer ones, and writes to the
    same keys as the live summaries of hours and days. [rolled] bounds every
    stored summary by what its bucket really holds; with it compaction leaves
    the live summaries of the history alone, and a run of saves, purges and
    compactions in any order keeps the history of TimeSeriesProps.v. *)
From stdpp Require Import base gmap strings list sorting.
From Stdlib Require Import ZArith Lia Strings.Byte.
From S2P Require Import Prelude GoStrings GoFloat BTree Wal Engine Store KeyValue Index LogStore Fsm Flap Sla TimeSeries TimeSeriesProps.

Open Scope Z_scope.

(** ** Buckets nest *)

(** The resolution a summary of a resolution is built from. *)
Definition source_of (r : TimeResolution) : TimeResolution :=
  match r with
  | Resolution1Day => Resolution1Hour | Resolution1Hour => Resolution5Min | Resolution5Min => Resolution1Min
  | _ => ResolutionRaw
  end.

Lemma truncate_nested t d k : 0 < d -> 0 < k -> Truncate (Truncate t d) (k * d) = Truncate t (k * d).
Proof.
  intros Hd Hk. unfold Truncate. rewrite (Z.mul_comm k d). assert (0 < d * k) by nia.
  assert (t - t mod d = d * (t / d)) as -> by (pose proof (Z.div_mod t d ltac:(lia)); lia).
  rewrite (Z.mul_mod_distr_l (t / d) k d) by lia. rewrite Z.rem_mul_r by lia.
  pose proof (Z.div_mod t d ltac:(lia)). lia.
Qed.

Lemma truncate_mono a b d : 0 < d -> a <= b -> Truncate a d <= Truncate b d.
Proof.
  intros Hd Hab. unfold Truncate. pose proof (Z.div_mod a d ltac:(lia)). pose proof (Z.div_mod b d ltac:(lia)).
  pose proof (Z.div_le_mono a b d Hd Hab). nia.
Qed.

Lemma bucket_nested t r : truncateToResolution (truncateToResolution t (source_of r)) r = truncateToResolution t r.
Proof.
  destruct r; cbn [source_of truncateToResolution]; [done | done |..].
  - apply (truncate_nested t (60 * Second) 5); done.
  - apply (truncate_nested t (300 * Second) 12); done.
  - apply (truncate_nested t Hour 24); done.
Qed.

Lemma truncate_idem_resolution t r : truncateToResolution (truncateToResolution t r) r = truncateToResolution t r.
Proof. destruct r; cbn [truncateToResolution]; [done |..]; by apply truncate_idem. Qed.

(** Buckets below one bucket hold no more than it does. *)
Lemma buckets_bound r b (vs : list Z) (H : list Judgment) : NoDup vs -> Forall (fun v => truncateToResolution v r = b) vs ->
  sum_by (fun v => count (in_bucket (source_of r) v) H) vs <= count (in_bucket r b) H.
Proof.
  intros Hn Hv. induction H as [|j H IH].
  - enough (sum_by (fun v => count (in_bucket (source_of r) v) []) vs = 0) as -> by done. clear. by induction vs.
  - rewrite count_cons. set (own := if decide (in_bucket r b j) then 1 else 0).
    enough (sum_by (fun v => count (in_bucket (source_of r) v) (j :: H)) vs <=
            own + sum_by (fun v => count (in_bucket (source_of r) v) H) vs) by lia.
    clear IH. assert (0 <= own) by (subst own; case_decide; lia). induction Hn as [|v vs Hin Hn IH]; cbn [sum_by foldr]; [lia |].
    apply Forall_cons in Hv as [Hv Hvs]. rewrite count_cons. fold (sum_by (fun v => count (in_bucket (source_of r) v) (j :: H)) vs).
    fold (sum_by (fun v => count (in_bucket (source_of r) v) H) vs). destruct (decide (in_bucket (source_of r) v j)) as [Hj|Hj]; [| specialize (IH Hvs); lia].
    assert (own = 1) as -> by (subst own; apply decide_True; unfold in_bucket in *; by rewrite <- Hv, <- Hj, bucket_nested).
    enough (sum_by (fun v => count (in_bucket (source_of r) v) (j :: H)) vs = sum_by (fun v => count (in_bucket (source_of r) v) H) vs) by lia.
    clear -Hin Hj. induction vs as [|w vs IH]; [done |]. apply not_elem_of_cons in Hin as [Hne Hin]. cbn. rewrite count_cons.
    fold (sum_by (fun v => count (in_bucket (source_of r) v) (j :: H)) vs). rewrite (IH Hin), decide_False; [done |].
    unfold in_bucket in *. congruence.
Qed.

(** ** What stored summaries may hold *)

(** A midnight before every time that is stored, in seconds. *)
Definition lowest : Z := - (2 ^ 40 * 86400).

(** The bucket from which on the history promises exact summaries. *)
Definition counted_from (hz : horizon) (r : TimeResolution) : option Z :=
  match r with
  | Resolution1Hour => Some (Z.max (h_live hz) (h_hour hz)) | Resolution1Day => Some (Z.max (h_live hz) (h_day hz)) | _ => None
  end.

Section compaction.
Context {D : Type} {KV : KeyValue D} {KVO : KeyValueOk D} {KR : KeyRange D} {KRO : KeyRangeOk D} {J : TSCodec}.
Implicit Types (d : D) (m : gmap string bytes).

(** A source of the bucket [b]: a bucket inside it, with no more judgments
    than it holds. *)
Definition source_ok (H : list Judgment) (r : TimeResolution) (b : Z) (u : string) (n : Z) : Prop :=
  exists v, u = FormatInt v /\ int64_range v /\ truncateToResolution (v * Second) r = b /\
    1 <= n <= count (in_bucket (source_of r) (v * Second)) H.

Definition summary_ok (H : list Judgment) (r : TimeResolution) (b : Z) (s : JudgmentSummary) : Prop :=
  truncateToResolution b r = b /\ 1 <= Count s <= count (in_bucket r b) H /\
  match sm_Sources s with Some rec => map_Forall (fun u snap => source_ok H r b u (sn_Count snap)) rec | None => True end.

Record rolled m (ws soul : string) (H : list Judgment) (hz : horizon) : Prop := {
  rolled_times : Forall (fun j => int64_range (jd_Timestamp j) /\ - 2 ^ 63 + Day <= jd_Timestamp j) H;
  rolled_raw k : String.prefix (summary_prefix ws soul ResolutionRaw) k = true -> m !! k = None;
  rolled_low r unix data : int64_range unix -> m !! summary_key ws soul r unix = Some data -> lowest <= unix;
  rolled_ok r unix data : int64_range unix -> h_live hz <= unix * Second -> m !! summary_key ws soul r unix = Some data ->
    exists s, unmarshal_summary data = Some s /\ summary_ok H r (unix * Second) s;
  rolled_live r from unix data s : counted_from hz r = Some from -> int64_range unix -> from <= unix * Second ->
    m !! summary_key ws soul r unix = Some data -> unmarshal_summary data = Some s -> sm_Sources s = None;
}.

(** The sources of a bucket count no more than it holds, and something. *)
Lemma sources_total H r b rec : map_Forall (fun u snap => source_ok H r b u (sn_Count snap)) rec ->
  snapshot_total sn_Count rec <= count (in_bucket r b) H /\ (rec <> ∅ -> 1 <= snapshot_total sn_Count rec).
Proof.
  intros Hok. unfold snapshot_total.
  assert (Forall (fun us => source_ok H r b us.1 (sn_Count us.2)) (map_to_list rec)) as Hl.
  { apply Forall_forall. intros [u snap] Hin%elem_of_map_to_list. by apply (Hok u snap). }
  assert (exists vs, (map_to_list rec).*1 = FormatInt <$> vs /\ Forall (fun v => truncateToResolution (v * Second) r = b) vs /\
    sum_by (fun us => sn_Count us.2) (map_to_list rec) <= sum_by (fun v => count (in_bucket (source_of r) v) H) ((fun v => v * Second) <$> vs)) as (vs & Evs & Hvs & Hsum).
  { clear Hok. induction Hl as [|[u snap] l (v & Hu & _ & Hv & Hn) _ (vs & E & Hvs & Hs)]; [by exists [] |]. exists (v :: vs).
    split; [cbn [fmap list_fmap fst] in *; by rewrite E, Hu |]. split; [by constructor |]. unfold sum_by in *. cbn [foldr fmap list_fmap fst snd] in *. lia. }
  split.
  - etrans; [exact Hsum |]. apply buckets_bound.
    + apply NoDup_fmap_2; [intros x y; unfold Second; lia |]. apply (NoDup_fmap_1 FormatInt). rewrite <- Evs. apply NoDup_fst_map_to_list.
    + apply Forall_fmap. exact Hvs.
  - intros Hne. destruct (map_to_list rec) as [|[u snap] l] eqn:El; [by apply map_to_list_empty_iff in El |].
    apply Forall_cons in Hl as [(v & _ & _ & _ & Hn) Hl]. cbn [fst snd] in *.
    enough (0 <= sum_by (fun us : string * SourceSnapshot => sn_Count us.2) l) by (unfold sum_by in *; cbn [foldr snd]; lia). clear -Hl.
    induction Hl as [|[u s] l (v & _ & _ & _ & Hn) _ IH]; [done |]. unfold sum_by in *. cbn [foldr fst snd] in *. lia.
Qed.

(** Current sources: each has the time its key says. *)
Definition current_ok (H : list Judgment) (r : TimeResolution) (b : Z) (current : gmap string JudgmentSummary) : Prop :=
  map_Forall (fun u s => u = FormatInt (Unix (BucketTime s)) /\ source_ok H r b u (Count s)) current.

Lemma current_snapshots H r b current : current_ok H r b current ->
  map_Forall (fun u snap => source_ok H r b u (sn_Count snap)) (snapshotOf <$> current).
Proof. intros Hc u snap. rewrite lookup_fmap_Some. intros (s & <- & Hs). exact (proj2 (Hc u s Hs)). Qed.

Lemma fmap_nonempty (current : gmap string JudgmentSummary) : current <> ∅ -> snapshotOf <$> current <> ∅.
Proof. intros Hne E. by apply fmap_empty_inv in E. Qed.

Lemma rebuilt_ok d key current sources H r b ws soul target : kv_inv d -> current_ok H r b current -> current <> ∅ ->
  (forall data s rec, kv_map d !! key = Some data -> unmarshal_summary data = Some s -> sm_Sources s = Some rec ->
     map_Forall (fun u snap => source_ok H r b u (sn_Count snap)) rec) ->
  rollupSources d key current = (sources, true) ->
  exists rec, sm_Sources (aggregate ws soul r b sources target) = Some rec /\ rec <> ∅ /\
    Count (aggregate ws soul r b sources target) = snapshot_total sn_Count rec /\
    map_Forall (fun u snap => source_ok H r b u (sn_Count snap)) rec.
Proof.
  intros Hi Hc Hne Hrec Hs. assert (map_Forall (fun u s => u = FormatInt (Unix (BucketTime s))) current) as Hu by (intros u s Hus; exact (proj1 (Hc u s Hus))).
  assert (sources = (map_to_list current).*2 \/ exists data s rec, kv_map d !! key = Some data /\ unmarshal_summary data = Some s /\ sm_Sources s = Some rec) as [->|Hs'].
  { unfold rollupSources in Hs. cbv zeta in Hs. rewrite kv_get_spec in Hs by done. destruct (kv_map d !! key) as [data|]; [| left; congruence].
    destruct (unmarshal_summary data) as [s|] eqn:Eu; [| left; congruence]. destruct (sm_Sources s) as [rec|] eqn:Er; [| left; congruence].
    right. by exists data, s, rec. }
  - exists (snapshotOf <$> current). pose proof (current_entries current Hu) as Ec.
    destruct (aggregate_sources ws soul r b (map_to_list current).*2 target) as (E1 & E2 & _); rewrite Ec in *; [apply NoDup_fst_map_to_list |].
    rewrite list_to_map_to_list in E1, E2. split; [done |]. split; [by apply fmap_nonempty |]. split; [done | by apply current_snapshots].
  - destruct Hs' as (data & s & rec & Hd & Hsu & Hr). specialize (Hrec data s rec Hd Hsu Hr). exists ((snapshotOf <$> current) ∪ rec).
    destruct (rollup_carries_deleted d key current data s rec sources ws soul r b target) as (E1 & E2 & _); try done.
    { intros u snap Hus. destruct (Hrec u snap Hus) as (v & -> & Hv & _). by exists v. }
    split; [done |]. split; [| split; [done |]].
    + intros E%map_positive_l. by eapply fmap_nonempty.
    + apply map_Forall_union_2; [by apply current_snapshots | done].
Qed.

(** ** One more summary *)

Lemma summary_key_other ws soul ws' soul' r unix k : slash_free [ws; soul] -> no_slash ws' -> no_slash soul' -> (ws', soul') <> (ws, soul) ->
  own_key ws soul k -> summary_key ws' soul' r unix <> k.
Proof.
  intros Hf Hw Hs Hne Hk <-. pose proof Hf as Hf'. unfold slash_free in Hf'. rewrite !Forall_cons in Hf'. destruct Hf' as (? & ? & _).
  apply Hne. rewrite summary_key_path in Hk. destruct Hk as [Hk|[[r' Hk]|Hk]].
  - apply own_raw in Hk as (rest & E & _); [by simplify_eq | done | slash_free_tac | done].
  - apply own_summary in Hk as (rest & E & _); [by simplify_eq | done | slash_free_tac | done].
  - rewrite live_key_path in Hk. apply path_inj in Hk; [by simplify_eq | slash_free_tac..].
Qed.

Lemma rolled_same m m' ws soul H hz : (forall k, own_key ws soul k -> m' !! k = m !! k) -> rolled m ws soul H hz -> rolled m' ws soul H hz.
Proof.
  intros Hs [R0 R1 R2 R3 R4]. assert (forall r unix, m' !! summary_key ws soul r unix = m !! summary_key ws soul r unix) as Hk.
  { intros r unix. apply Hs. right. left. exists r. apply summary_key_prefix. }
  split; [done |..].
  - intros k Hp. rewrite Hs by (right; left; eauto). by apply R1.
  - intros r unix data Hu. rewrite Hk. by apply R2.
  - intros r unix data Hu Hl. rewrite Hk. by apply R3.
  - intros r from unix data s Hc Hu Hl. rewrite Hk. by eapply R4.
Qed.

Lemma summary_key_res ws soul r r' u v : slash_free [ws; soul] -> int64_range u -> int64_range v ->
  summary_key ws soul r u = summary_key ws soul r' v -> r = r' /\ u = v.
Proof.
  intros Hf Hu Hv E. pose proof E as E'. unfold slash_free in Hf. rewrite !Forall_cons in Hf. destruct Hf as (? & ? & _).
  rewrite !summary_key_path in E'. apply path_inj in E'; [| slash_free_tac..]. injection E' as Er _.
  assert (r = r') as -> by (revert Er; by destruct r, r'). split; [done |]. by eapply summary_key_inj.
Qed.

(** A summary of a bucket the history promises nothing about. *)
Lemma kept_insert m ws soul H hz r unix data : slash_free [ws; soul] -> int64_range unix ->
  (forall from, counted_from hz r = Some from -> unix * Second < from) ->
  kept m ws soul H hz -> kept (<[summary_key ws soul r unix := data]> m) ws soul H hz.
Proof.
  intros Hf Hu Hlow [K1 K2 K3 K4 K5 K6]. set (key := summary_key ws soul r unix).
  pose proof Hf as Hf'. unfold slash_free in Hf'. rewrite !Forall_cons in Hf'. destruct Hf' as (? & ? & _).
  assert (forall k, String.prefix (raw_prefix ws soul) k = true -> <[key := data]> m !! k = m !! k) as Hraw.
  { intros k Hk. apply lookup_insert_ne. intros <-. unfold key in Hk. rewrite summary_key_path in Hk.
    apply own_raw in Hk as (rest & E & _); [by simplify_eq | done | slash_free_tac | done]. }
  assert (forall r' from b, counted_from hz r' = Some from -> r' <> ResolutionRaw -> truncateToResolution b r' = b -> int64_range b -> from <= b ->
    <[key := data]> m !! summary_key ws soul r' (Unix b) = m !! summary_key ws soul r' (Unix b)) as Hsum.
  { intros r' from b Hc Hr' Hb Hb64 Hfrom. apply lookup_insert_ne. intros E. unfold key in E.
    apply summary_key_res in E as [-> ->]; [| done | done | by apply int64_Unix]. specialize (Hlow _ Hc).
    pose proof (bucket_second b r' Hr') as Hm. rewrite Hb in Hm. unfold Unix in Hlow. pose proof (Z.div_mod b Second ltac:(done)). lia. }
  split.
  - intros k b Hp. rewrite Hraw by done. by apply K1.
  - replace (raw_judgments (<[key := data]> m) ws soul) with (raw_judgments m ws soul); [done |]. unfold raw_judgments. f_equal. f_equal.
    apply map_eq. intros k. apply option_eq. intros v. rewrite !map_lookup_filter_Some. cbn. split; intros [Hv Hk]; (split; [| done]);
      [rewrite Hraw by done | rewrite <- Hraw by done]; done.
  - intros r' k b Hp. destruct (decide (k = key)) as [->|Hne].
    + intros _. exists unix. split; [done |]. unfold key in *. rewrite summary_key_path in Hp.
      apply own_summary in Hp as (rest & E & _); [| done | slash_free_tac | done]. injection E as Er _.
      assert (r = r') as -> by (revert Er; by destruct r, r'). done.
    + rewrite lookup_insert_ne by done. by apply K3.
  - intros b Hb Hb64 Hfrom. eapply tallied_same; [| by apply K4]. by eapply Hsum.
  - intros b Hb Hb64 Hfrom. eapply tallied_same; [| by apply K5]. by eapply Hsum.
  - intros x t. rewrite lookup_insert_ne; [apply K6 |]. unfold key. rewrite summary_key_path, live_key_path. intros E.
    apply path_inj in E; [by simplify_eq | slash_free_tac..].
Qed.

Lemma rolled_insert m ws soul H hz r unix data : slash_free [ws; soul] -> int64_range unix -> lowest <= unix -> r <> ResolutionRaw ->
  (forall from, counted_from hz r = Some from -> unix * Second < from) ->
  (h_live hz <= unix * Second -> exists s, unmarshal_summary data = Some s /\ summary_ok H r (unix * Second) s) ->
  rolled m ws soul H hz -> rolled (<[summary_key ws soul r unix := data]> m) ws soul H hz.
Proof.
  intros Hf Hu Hl Hraw Hlow Hok [R0 R1 R2 R3 R4]. set (key := summary_key ws soul r unix). split; [done |..].
  - intros k Hp. rewrite lookup_insert_ne; [by apply R1 |]. intros <-. unfold key in Hp. rewrite summary_key_path in Hp.
    pose proof Hf as Hf'. unfold slash_free in Hf'. rewrite !Forall_cons in Hf'. destruct Hf' as (? & ? & _).
    apply own_summary in Hp as (rest & E & _); [| done | slash_free_tac | done]. injection E as Er _. apply Hraw. revert Er. by destruct r.
  - intros r' v x Hv. destruct (decide (summary_key ws soul r' v = key)) as [E|Hne].
    + intros _. unfold key in E. by apply summary_key_res in E as [-> ->].
    + rewrite lookup_insert_ne by done. by apply R2.
  - intros r' v x Hv Hlive. destruct (decide (summary_key ws soul r' v = key)) as [E|Hne].
    + rewrite E, lookup_insert_eq. intros [= <-]. unfold key in E. apply summary_key_res in E as [-> ->]; [| done..]. by apply Hok.
    + rewrite lookup_insert_ne by done. by apply R3.
  - intros r' from v x s Hc Hv Hfrom. destruct (decide (summary_key ws soul r' v = key)) as [E|Hne].
    + exfalso. unfold key in E. apply summary_key_res in E as [-> ->]; [| done..]. specialize (Hlow _ Hc). lia.
    + rewrite lookup_insert_ne by done. by eapply R4.
Qed.

(** ** One target *)

(** What is saved, if it is. *)
Lemma aggregate_saved d c ws soul r b sources : kv_inv d -> call_env_ok c ->
  let d' := (aggregateAndSave d c ws soul r b sources).1 in kv_inv d' /\
  (kv_map d' = kv_map d \/ exists target data, marshal_summary (aggregate ws soul r b sources target) = Some data /\
     kv_map d' = <[summary_key ws soul r (Unix b) := data]> (kv_map d)).
Proof.
  intros Hi Hc. cbv zeta. unfold aggregateAndSave. set (target := match kv_get d _ with inr _ => _ | inl _ => _ end).
  destruct (marshal_summary _) as [data|] eqn:Em; [| by auto]. destruct (kv_put d c _ data) as [d' err] eqn:E.
  destruct (kv_put_spec _ _ _ _ _ _ Hi Hc E) as [Hi' Hm]. destruct err; cbn [fst]; (split; [done |]); [by left | right].
  by exists target, data.
Qed.

(** A target of a pass: whose it is, its bucket and its current sources. *)
Definition target_ok (ws soul : string) (H : list Judgment) (hz : horizon) (r : TimeResolution)
    (t : string * string * Z * gmap string JudgmentSummary) : Prop :=
  let '(ws', soul', b, current) := t in
  no_slash ws' /\ no_slash soul' /\
  ((ws', soul') = (ws, soul) -> r <> ResolutionRaw /\ truncateToResolution b r = b /\ int64_range (Unix b) /\ lowest <= Unix b /\
     current <> ∅ /\ (h_live hz <= b -> current_ok H r b current)).

(** A bucket the history counts exactly is not rebuilt. *)
Lemma live_not_rebuilt d ws soul H hz r b from current : kv_inv d -> kept (kv_map d) ws soul H hz -> rolled (kv_map d) ws soul H hz ->
  truncateToResolution b r = b -> int64_range (Unix b) -> counted_from hz r = Some from -> from <= b ->
  current <> ∅ -> current_ok H r b current -> rollupSources d (summary_key ws soul r (Unix b)) current = ((map_to_list current).*2, false).
Proof.
  intros Hi K R Hb Hub Hfrom Hle Hne Hcur. pose proof (current_snapshots _ _ _ _ Hcur) as Hsnap.
  destruct (sources_total _ _ _ _ Hsnap) as [Hmax Hmin]. specialize (Hmin (fmap_nonempty _ Hne)).
  assert (r <> ResolutionRaw) as Hr by (intros ->; done).
  assert (Unix b * Second = b) as Eb. { pose proof (bucket_second b r Hr) as Hm. rewrite Hb in Hm. unfold Unix. pose proof (Z.div_mod b Second ltac:(done)). lia. }
  assert (int64_range b) as Hb64.
  { destruct (filter (in_bucket r b) H) as [|j l] eqn:E; [unfold count in *; rewrite E in Hmax; cbn in Hmax; lia |].
    assert (j ∈ filter (in_bucket r b) H) as [Hj Hin]%list_elem_of_filter by (rewrite E; left). unfold in_bucket in Hj. subst b.
    pose proof (rolled_times _ _ _ _ _ R) as Ht. rewrite Forall_forall in Ht. destruct (Ht j Hin). by apply int64_truncate. }
  assert (tallied (kv_map d) (summary_key ws soul r (Unix b)) (count (in_bucket r b) H) (count (up_in_bucket r b) H)) as Ht.
  { destruct r; try done; injection Hfrom as <-; [by apply (kept_hour _ _ _ _ _ K) | by apply (kept_day _ _ _ _ _ K)]. }
  unfold rollupSources. rewrite kv_get_spec by done. unfold tallied in Ht. destruct (kv_map d !! _) as [data|] eqn:Ed; [| lia].
  destruct Ht as (s & Hs & Hc & _). rewrite Hs, (rolled_live _ _ _ _ _ R r from (Unix b) data s) by (done || lia). f_equal. apply bool_decide_false.
  assert (foldr (fun s z => Count s + z) 0 (map_to_list current).*2 = snapshot_total sn_Count (snapshotOf <$> current)) as ->; [| lia].
  unfold snapshot_total. rewrite map_to_list_fmap, sum_by_map. unfold sum_by. generalize (map_to_list current). clear.
  induction l as [|[u s] l IH]; [done |]. cbn [foldr fmap list_fmap snd]. by rewrite IH.
Qed.

Lemma bucket_unix b r : r <> ResolutionRaw -> truncateToResolution b r = b -> Unix b * Second = b.
Proof. intros Hr Hb. pose proof (bucket_second b r Hr) as Hm. rewrite Hb in Hm. unfold Unix. pose proof (Z.div_mod b Second ltac:(done)). lia. Qed.

Lemma own_step d c ws soul H hz r b current sources : kv_inv d -> call_env_ok c -> slash_free [ws; soul] ->
  kept (kv_map d) ws soul H hz -> rolled (kv_map d) ws soul H hz ->
  target_ok ws soul H hz r (ws, soul, b, current) -> rollupSources d (summary_key ws soul r (Unix b)) current = (sources, true) ->
  let d' := (aggregateAndSave d c ws soul r b sources).1 in
  kv_inv d' /\ kept (kv_map d') ws soul H hz /\ rolled (kv_map d') ws soul H hz.
Proof.
  intros Hi Hc Hf K R (_ & _ & Hok) Hs. cbv zeta. destruct (Hok eq_refl) as (Hr & Hb & Hub & Hlow & Hne & Hcur). clear Hok.
  pose proof (bucket_unix b r Hr Hb) as Eb. destruct (aggregate_saved d c ws soul r b sources Hi Hc) as [Hi' Hm]. split; [done |].
  destruct Hm as [->|(target & data & Hdata & ->)]; [done |].
  assert (forall from, counted_from hz r = Some from -> Unix b * Second < from) as Hbelow.
  { intros from Hfrom. rewrite Eb. destruct (Z.lt_ge_cases b from) as [|Hge]; [done | exfalso].
    rewrite (live_not_rebuilt d ws soul H hz r b from current) in Hs; try done. apply Hcur. destruct r; try done; injection Hfrom as <-; lia. }
  split; [by apply kept_insert |]. apply rolled_insert; try done. rewrite Eb. intros Hlive.
  destruct (rebuilt_ok d (summary_key ws soul r (Unix b)) current sources H r b ws soul target) as (rec & Hso & Hrne & Hcount & Hrec); auto.
  { intros x s rec Hx Hsx Hrec. destruct (rolled_ok _ _ _ _ _ R r (Unix b) x) as (s' & Hs' & _ & _ & Hsrc); [done | lia | done |].
    assert (s = s') as -> by congruence. by rewrite Hrec, Eb in Hsrc. }
  destruct (summary_roundtrip _ _ Hdata) as (s & Hsu & Hsc & _ & _ & Hss). exists s. split; [done |].
  destruct (sources_total H r b rec Hrec) as [Hmax Hmin]. specialize (Hmin Hrne). split; [done |]. split; [lia |].
  rewrite Hss, Hso, decide_False by done. done.
Qed.

Lemma roll_targets_keep ws soul H hz r cs targets : (forall k, call_env_ok (cs k)) -> slash_free [ws; soul] ->
  Forall (target_ok ws soul H hz r) targets -> forall d k, kv_inv d -> kept (kv_map d) ws soul H hz -> rolled (kv_map d) ws soul H hz ->
  let d' := roll_targets d cs k r targets in kv_inv d' /\ kept (kv_map d') ws soul H hz /\ rolled (kv_map d') ws soul H hz.
Proof.
  intros Hcs Hf. induction 1 as [|[[[ws' soul'] b] current] targets Ht _ IH]; intros d k Hi K R; [done |]. cbn [roll_targets].
  destruct (rollupSources _ _ _) as [sources changed] eqn:Es. destruct changed; cbn [negb]; [| by apply IH].
  assert (let d' := (aggregateAndSave d (cs k) ws' soul' r b sources).1 in
    kv_inv d' /\ kept (kv_map d') ws soul H hz /\ rolled (kv_map d') ws soul H hz) as (Hi' & K' & R').
  { destruct (decide ((ws', soul') = (ws, soul))) as [[= -> ->]|Hne]; [by eapply own_step |]. cbv zeta.
    destruct (aggregate_saved d (cs k) ws' soul' r b sources Hi (Hcs k)) as [Hi' Hm]. split; [done |].
    assert (forall k', own_key ws soul k' -> kv_map (aggregateAndSave d (cs k) ws' soul' r b sources).1 !! k' = kv_map d !! k') as Hsame.
    { intros k' Hk'. destruct Hm as [->|(target & data & _ & ->)]; [done |]. apply lookup_insert_ne. destruct Ht as (? & ? & _). by eapply summary_key_other. }
    split; [by eapply kept_same | by eapply rolled_same]. }
  by apply IH.
Qed.

(** ** The sources of a pass *)

Lemma path_cons a l : l <> [] -> path (a :: l) = a +:+ String.String slash (path l).
Proof. by destruct l. Qed.

Lemma split_parts s : path (split_at slash s) = s /\ slash_free (split_at slash s).
Proof.
  induction s as [|c s [IHp IHf]]; [split; [done | by repeat constructor] |]. cbn [split_at]. pose proof (split_nonempty slash s) as Hn. case_decide as Hc.
  - subst c. rewrite path_cons, IHp by done. split; [done |]. by constructor.
  - destruct (split_at slash s) as [|w l]; [done |]. apply Forall_cons in IHf as [Hw Hl]. split; [| by repeat constructor].
    destruct l as [|x l]; [by rewrite <- IHp |]. rewrite path_cons in IHp |- * by done.
    change (String.String c (w +:+ String.String slash (path (x :: l))) = String.String c s). by rewrite IHp.
Qed.

Lemma source_target_spec src tgt cutoff key ws soul target u bt : source_target src tgt cutoff key = Some (ws, soul, target, u, bt) ->
  key = path [ws; "ts"; soul; res_name src; u] /\ slash_free [ws; "ts"; soul; res_name src; u] /\
  exists sec, ParseInt u 10 64 = Some sec /\ bt = sec * Second /\ target = truncateToResolution bt tgt.
Proof.
  unfold source_target. destruct (split_parts key) as [Hp Hf]. destruct (split_at slash key) as [|a [|t [|b [|res [|v [|? ?]]]]]]; try done.
  case_decide as Hd; [done |]. destruct (ParseInt v 10 64) as [sec|] eqn:Ev; cbn [mbind option_bind]; [| done].
  repeat case_decide; try done. intros [= <- <- <- <- <-]. assert (t = "ts" /\ res = res_name src) as [-> ->] by (split; apply dec_stable; tauto).
  split; [done |]. split; [done |]. by exists sec.
Qed.

Lemma bucket_range v r : int64_range v -> lowest <= v ->
  int64_range (Unix (truncateToResolution (v * Second) r)) /\ lowest <= Unix (truncateToResolution (v * Second) r).
Proof.
  intros Hv Hl. set (b := truncateToResolution (v * Second) r).
  assert (b <= v * Second) as Hb by apply truncate_resolution_le.
  assert (lowest * Second <= b) as Hb'.
  { assert (truncateToResolution (lowest * Second) r = lowest * Second) as <- by by destruct r.
    assert (lowest * Second <= v * Second) as Hlv by (unfold Second; lia).
    subst b. destruct r; cbn [truncateToResolution]; [done |..]; by apply truncate_mono. }
  apply Unix_mono in Hb, Hb'. unfold Unix in Hb, Hb'. rewrite Z.div_mul in Hb, Hb' by done. fold (Unix b) in Hb, Hb'.
  split; [| done]. assert (- 2 ^ 63 <= lowest) by done. unfold int64_range in *. lia.
Qed.

Section pass.
Context (ws soul : string) (H : list Judgment) (hz : horizon) (m : gmap string bytes) (tgt : TimeResolution) (cutoff : Z).
Hypothesis plain : slash_free [ws; soul].
Hypothesis history : kept m ws soul H hz.
Hypothesis bounded : rolled m ws soul H hz.
Hypothesis coarser : tgt <> ResolutionRaw.

Definition aggs_ok (aggs : gmap (string * string * Z) (gmap string JudgmentSummary)) : Prop := map_Forall (fun k current => target_ok ws soul H hz tgt (k.1.1, k.1.2, k.2, current)) aggs.

(** A source of the soul itself. *)
Lemma own_source key data target u bt s : m !! key = Some data -> source_target (source_of tgt) tgt cutoff key = Some (ws, soul, target, u, bt) ->
  unmarshal_summary data = Some s ->
  truncateToResolution target tgt = target /\ int64_range (Unix target) /\ lowest <= Unix target /\
  (h_live hz <= target -> u = FormatInt (Unix bt) /\ source_ok H tgt target u (Count s)).
Proof.
  intros Hm (Hkey & Hparts & sec & Hsec & -> & ->)%source_target_spec Hs.
  assert (key = summary_prefix ws soul (source_of tgt) +:+ u) as Epre by by rewrite Hkey, summary_prefix_path, below_app.
  assert (String.prefix (summary_prefix ws soul (source_of tgt)) key = true) as Hpre by (rewrite Epre; apply prefix_append).
  assert (source_of tgt <> ResolutionRaw) as Hsrc.
  { intros E. rewrite E in Hpre. rewrite (rolled_raw _ _ _ _ _ bounded key Hpre) in Hm. done. }
  destruct (kept_spelled _ _ _ _ _ history _ key data Hpre Hm) as (v & Hv & Ev). rewrite Hkey, summary_key_path in Ev.
  apply path_inj in Ev; [| done | unfold slash_free in plain; rewrite !Forall_cons in plain; destruct plain as (? & ? & _); slash_free_tac | done | done].
  injection Ev as ->. rewrite ParseInt_format in Hsec by (exact Hv || lia). injection Hsec as <-.
  assert (m !! summary_key ws soul (source_of tgt) v = Some data) as Hm' by (rewrite summary_key_path; by rewrite <- Hkey).
  pose proof (rolled_low _ _ _ _ _ bounded _ _ _ Hv Hm') as Hlow. destruct (bucket_range v tgt Hv Hlow).
  split; [apply truncate_idem_resolution |]. split; [done |]. split; [done |]. intros Hlive.
  pose proof (truncate_resolution_le (v * Second) tgt).
  destruct (rolled_ok _ _ _ _ _ bounded _ v data Hv ltac:(lia) Hm') as (s' & Hs' & Ha & Hc & _). assert (s = s') as -> by congruence.
  split; [unfold Unix; by rewrite Z.div_mul |]. by exists v.
Qed.

Lemma collect_source_ok aggs key data : m !! key = Some data -> aggs_ok aggs -> aggs_ok (collect_source (source_of tgt) tgt cutoff aggs (key, data)).
Proof.
  intros Hm Ha. unfold collect_source. cbn [fst snd].
  destruct (source_target (source_of tgt) tgt cutoff key) as [[[[[ws' soul'] target] u] bt]|] eqn:Et; [| done].
  destruct (unmarshal_summary data) as [s|] eqn:Es; [| done]. apply map_Forall_insert_2; [| done]. cbn [fst snd].
  pose proof (source_target_spec _ _ _ _ _ _ _ _ _ Et) as (_ & Hparts & _). unfold slash_free in Hparts. rewrite !Forall_cons in Hparts.
  split; [tauto |]. split; [tauto |]. intros [= -> ->]. destruct (own_source _ _ _ _ _ _ Hm Et Es) as (Hb & Hub & Hlow & Hok).
  split; [done |]. split; [done |]. split; [done |]. split; [done |]. split; [apply insert_non_empty |]. intros Hlive.
  destruct (Hok Hlive) as [Hu Hsrc]. apply map_Forall_insert_2; [done |]. destruct (aggs !! (ws, soul, target)) as [old|] eqn:Eo; [| done].
  destruct (Ha _ _ Eo) as (_ & _ & Hold). destruct (Hold eq_refl) as (_ & _ & _ & _ & _ & Hcur). by apply Hcur.
Qed.

Lemma collect_ok d wss : kv_inv d -> kv_map d = m -> forall aggs result, aggs_ok aggs ->
  collect_workspaces d (source_of tgt) tgt cutoff wss aggs = inr result -> aggs_ok result.
Proof.
  intros Hi Hd. induction wss as [|w wss IH]; intros aggs result Ha; cbn [collect_workspaces]; [by intros [= <-] |].
  rewrite kv_scan_spec by done. apply IH.
  assert (forall l : list (string * bytes), l ⊆ map_to_list (filter (fun e => String.prefix (w +:+ "/ts/") e.1 = true) (kv_map d)) ->
    forall aggs, aggs_ok aggs -> aggs_ok (foldl (collect_source (source_of tgt) tgt cutoff) aggs l)) as Hl; [| by apply Hl].
  induction l as [|[key data] l IHl]; intros Hsub aggs' Ha'; [done |]. cbn [foldl]. apply IHl; [set_solver |].
  apply collect_source_ok; [| done]. assert ((key, data) ∈ map_to_list (filter (fun e => String.prefix (w +:+ "/ts/") e.1 = true) (kv_map d))) as Hin by (apply Hsub; left).
  apply elem_of_map_to_list, map_lookup_filter_Some in Hin as [Hin _]. by rewrite <- Hd.
Qed.
End pass.

(** A pass keeps the history. *)
Lemma compact_keeps s cs tgt threshold now ws soul H hz : (forall k, call_env_ok (cs k)) -> kv_inv s.1 -> slash_free [ws; soul] -> tgt <> ResolutionRaw ->
  kept (kv_map s.1) ws soul H hz -> rolled (kv_map s.1) ws soul H hz ->
  let s' := (compactToResolution s cs (source_of tgt) tgt threshold now).1 in
  kv_inv s'.1 /\ kept (kv_map s'.1) ws soul H hz /\ rolled (kv_map s'.1) ws soul H hz /\ s'.2 = s.2.
Proof.
  intros Hcs Hi Hf Ht K R. cbv zeta. unfold compactToResolution. case_decide; [done |].
  destruct (collect_workspaces _ _ _ _ _ _) as [e|aggs] eqn:Ec; [done |]. cbn [fst snd].
  assert (aggs_ok ws soul H hz tgt aggs) as Ha by (eapply (collect_ok ws soul H hz (kv_map s.1)); try done; apply map_Forall_empty).
  destruct (roll_targets_keep ws soul H hz tgt cs ((fun kv => (kv.1.1.1, kv.1.1.2, kv.1.2, kv.2)) <$> map_to_list aggs) Hcs Hf) with (d := s.1) (k := 0%nat)
    as (Hi' & K' & R'); try done.
  apply Forall_fmap, Forall_forall. intros [[[ws' soul'] b] current] Hin%elem_of_map_to_list. exact (Ha _ _ Hin).
Qed.

Lemma compaction_keeps_history s css config nows ws soul H hz : (forall i k, call_env_ok (css i k)) -> kv_inv s.1 -> slash_free [ws; soul] ->
  kept (kv_map s.1) ws soul H hz -> rolled (kv_map s.1) ws soul H hz ->
  let s' := runCompaction s css config nows in
  kv_inv s'.1 /\ kept (kv_map s'.1) ws soul H hz /\ rolled (kv_map s'.1) ws soul H hz /\ s'.2 = s.2.
Proof.
  intros Hcs Hi Hf K R. unfold runCompaction.
  destruct (compact_keeps s (css 0%nat) Resolution1Min (RawToMinute config) (nows 0%nat) ws soul H hz) as (Hi1 & K1 & R1 & E1); [auto | done.. |].
  destruct (compact_keeps _ (css 1%nat) Resolution5Min (MinuteToFive config) (nows 1%nat) ws soul H hz ltac:(auto) Hi1 Hf ltac:(done) K1 R1) as (Hi2 & K2 & R2 & E2).
  destruct (compact_keeps _ (css 2%nat) Resolution1Hour (FiveToHour config) (nows 2%nat) ws soul H hz ltac:(auto) Hi2 Hf ltac:(done) K2 R2) as (Hi3 & K3 & R3 & E3).
  destruct (compact_keeps _ (css 3%nat) Resolution1Day (HourToDay config) (nows 3%nat) ws soul H hz ltac:(auto) Hi3 Hf ltac:(done) K3 R3) as (Hi4 & K4 & R4 & E4).
  cbv zeta. split; [exact Hi4 |]. split; [exact K4 |]. split; [exact R4 |]. etrans; [exact E4 |]. etrans; [exact E3 |]. etrans; [exact E2 |]. exact E1.
Qed.

(** ** Saves and purges keep the bounds *)

Lemma count_more (P : Judgment -> Prop) `{!forall x, Decision (P x)} l j : count P l <= count P (l ++ [j]).
Proof. rewrite count_snoc_bucket. case_decide; lia. Qed.

Lemma summary_ok_more H r b s j : summary_ok H r b s -> summary_ok (H ++ [j]) r b s.
Proof.
  intros (Hb & Hc & Hs). split; [done |]. pose proof (count_more (in_bucket r b) H j). split; [lia |]. destruct (sm_Sources s); [| done].
  intros u snap Hu. destruct (Hs u snap Hu) as (v & E & Hv & Ht & Hn). exists v. pose proof (count_more (in_bucket (source_of r) (v * Second)) H j).
  split; [done |]. split; [done |]. split; [done | lia].
Qed.

(** Which summary a written key is. *)
Lemma written_summary m now j key values ws soul r unix : slash_free [jd_WorkspaceID j; jd_SoulID j; jd_ID j] -> record_key m j key -> writes m now j key values ->
  ws = jd_WorkspaceID j -> soul = jd_SoulID j -> int64_range unix -> int64_range (jd_Timestamp j) -> - 2 ^ 63 + Day <= jd_Timestamp j ->
  is_Some (values !! summary_key ws soul r unix) -> r ∈ live_resolutions /\ unix = Unix (truncateToResolution (jd_Timestamp j) r).
Proof.
  intros Hf Hr W -> -> Hu Ht Hlow Hs. destruct (writes_paths _ _ _ _ _ _ _ Hf Hr W Hs) as (l & E & Hl & Hn & Hc).
  unfold slash_free in Hf. rewrite !Forall_cons in Hf. destruct Hf as (? & ? & ? & _).
  pose proof E as E'. rewrite summary_key_path in E'. apply path_inj in E' as <-; [| slash_free_tac..].
  destruct Hc as [?|[(_ & ? & ?)|[(r' & Hr' & Ek & El)|?]]]; try (by simplify_eq). unfold bucket_key in Ek.
  apply summary_key_res in Ek as [-> ->]; [done | slash_free_tac | done | by apply int64_Unix, int64_truncate].
Qed.

Lemma writes_rolled m values now j key H hz : slash_free [jd_WorkspaceID j; jd_SoulID j; jd_ID j] -> record_key m j key ->
  writes m now j key values -> int64_range (jd_Timestamp j) -> - 2 ^ 63 + Day <= jd_Timestamp j ->
  rolled m (jd_WorkspaceID j) (jd_SoulID j) H hz -> rolled (values ∪ m) (jd_WorkspaceID j) (jd_SoulID j) (H ++ [read_back j]) hz.
Proof.
  intros Hf Hr W Ht Hlow R. pose proof (fun r unix => written_summary m now j key values _ _ r unix Hf Hr W eq_refl eq_refl) as Hwr. split.
  - apply Forall_app. split; [apply R |]. by constructor.
  - intros k Hp. rewrite lookup_union_r; [by apply (rolled_raw _ _ _ _ _ R) |]. apply eq_None_not_Some. intros Hs.
    destruct (writes_paths _ _ _ _ _ _ _ Hf Hr W Hs) as (l & -> & Hl & Hn & Hc).
    unfold slash_free in Hf. rewrite !Forall_cons in Hf. destruct Hf as (? & ? & ? & _).
    apply own_summary in Hp as (rest & -> & Hrest); [| slash_free_tac | done | done].
    destruct Hc as [?|[(_ & ? & ?)|[(r' & Hr' & _ & El)|El]]]; try (by simplify_eq). injection El as Er _.
    unfold live_resolutions in Hr'. revert Er. destruct r'; try done. set_solver.
  - intros r unix data Hu. destruct (values !! summary_key (jd_WorkspaceID j) (jd_SoulID j) r unix) as [x|] eqn:Ex; [| rewrite lookup_union_r by done; by apply (rolled_low _ _ _ _ _ R)].
    intros _. destruct (Hwr r unix) as [_ ->]; [done.. | by rewrite Ex |]. pose proof (int64_truncate _ r Ht Hlow) as [Hlo _].
    apply Unix_mono in Hlo. assert (lowest <= Unix (- 2 ^ 63)) by done. lia.
  - intros r unix data Hu Hl. destruct (values !! summary_key (jd_WorkspaceID j) (jd_SoulID j) r unix) as [x|] eqn:Ex.
    + destruct (Hwr r unix) as [Hrl ->]; [done.. | by rewrite Ex |]. rewrite (lookup_union_Some_l _ _ _ _ Ex). intros [= <-].
      assert (r <> ResolutionRaw) as Hraw by (intros ->; unfold live_resolutions in Hrl; set_solver).
      assert (Unix (truncateToResolution (jd_Timestamp j) r) * Second = truncateToResolution (jd_Timestamp j) r) as Eb
        by (apply (bucket_unix _ r Hraw), truncate_idem_resolution).
      destruct (wr_summary _ _ _ _ _ W r Hrl) as (data & s & Hv & Hs & Hb). assert (x = data) as -> by (unfold bucket_key in Hv; congruence).
      exists s. split; [done |]. rewrite Eb in *. unfold bumped, bucket_key in Hb.
      assert (count (in_bucket r (truncateToResolution (jd_Timestamp j) r)) (H ++ [read_back j]) =
              count (in_bucket r (truncateToResolution (jd_Timestamp j) r)) H + 1) as Hone by (rewrite count_snoc_bucket, decide_True; done).
      destruct (m !! summary_key _ _ r _) as [old|] eqn:Eo.
      * destruct Hb as (so & Hso & Hc & _ & Hsrc). destruct (rolled_ok _ _ _ _ _ R r _ _ Hu ltac:(lia) Eo) as (so' & Hso' & Hok).
        assert (so' = so) as -> by congruence. rewrite Eb in Hok. apply (summary_ok_more _ _ _ _ (read_back j)) in Hok as Hmore. destruct Hok as (_ & Hcount & _).
        destruct Hmore as (Hal & _ & Hsources). split; [done |]. split; [lia |]. destruct Hsrc as [-> | ->]; done.
      * destruct Hb as (Hc & _ & Hsrc). split; [apply truncate_idem_resolution |]. split; [| by rewrite Hsrc].
        pose proof (count_nonneg (in_bucket r (truncateToResolution (jd_Timestamp j) r)) H). lia.
    + rewrite lookup_union_r by done. intros Hd. destruct (rolled_ok _ _ _ _ _ R r unix data Hu Hl Hd) as (s & Hs & Hok). exists s.
      split; [done | by apply summary_ok_more].
  - intros r from unix data s Hfrom Hu Hle. destruct (values !! summary_key (jd_WorkspaceID j) (jd_SoulID j) r unix) as [x|] eqn:Ex.
    + destruct (Hwr r unix) as [Hrl ->]; [done.. | by rewrite Ex |]. rewrite (lookup_union_Some_l _ _ _ _ Ex). intros [= <-] Hs.
      destruct (wr_summary _ _ _ _ _ W r Hrl) as (data & s' & Hv & Hs' & Hb). assert (x = data) as -> by (unfold bucket_key in Hv; congruence).
      assert (s' = s) as -> by congruence. unfold bumped, bucket_key in Hb. destruct (m !! summary_key _ _ r _) as [old|] eqn:Eo; [| by destruct Hb as (_ & _ & ->)].
      destruct Hb as (so & Hso & _ & _ & [->| ->]); [done |]. by eapply (rolled_live _ _ _ _ _ R).
    + rewrite lookup_union_r by done. by eapply (rolled_live _ _ _ _ _ R).
Qed.

Lemma rolled_purged m m' ws soul H hz hz' : m' ⊆ m -> h_live hz = h_live hz' -> h_hour hz <= h_hour hz' -> h_day hz <= h_day hz' ->
  rolled m ws soul H hz -> rolled m' ws soul H hz'.
Proof.
  intros Hsub Hlive Hhour Hday [R0 R1 R2 R3 R4]. split; [done |..].
  - intros k Hp. eapply lookup_weaken_None; [by apply R1 | done].
  - intros r unix data Hu Hd. eapply R2; [done |]. by eapply lookup_weaken.
  - intros r unix data Hu Hl Hd. eapply R3; [done | lia |]. by eapply lookup_weaken.
  - intros r from unix data s Hfrom Hu Hle Hd. assert (exists from', counted_from hz r = Some from' /\ from' <= from) as (from' & Hfrom' & Hle').
    { destruct r; try done; injection Hfrom as <-; eexists; (split; [reflexivity |]); rewrite Hlive; lia. }
    eapply R4; [exact Hfrom' | done | lia |]. by eapply lookup_weaken.
Qed.

(** ** The life of a history *)

Lemma purge_raw_order s cs k ws keys : workspaceOrder (purge_raw_keys s cs k ws keys).1.1.2 = workspaceOrder s.2.
Proof.
  revert s k. induction keys as [|key keys IH]; intros s k; [done |]. cbn [purge_raw_keys].
  destruct (purge_raw_key s (cs k) (cs (S k)) ws key) as [s1 e1] eqn:E1. assert (workspaceOrder s1.2 = workspaceOrder s.2) as Eo.
  { destruct s as [d x]. unfold purge_raw_key in E1. repeat case_match; by simplify_eq. }
  destruct e1; [done |]. by rewrite IH.
Qed.

Lemma purgeRawData_order s cs cutoff : workspaceOrder (purgeRawData s cs cutoff).1.2 = workspaceOrder s.2.
Proof.
  unfold purgeRawData. generalize (known_workspaces s.2) as wss. intros wss. generalize 0%nat as k. revert s.
  induction wss as [|ws wss IH]; intros s k; [done |]. cbn [purge_raw_workspaces]. destruct (kv_scan _ _); [done |].
  pose proof (purge_raw_order s cs k ws (filter (fun key => old_raw cutoff key = true) (map_to_list g).*1)) as Eo.
  destruct (purge_raw_keys _ _ _ _ _) as [[s1 k1] [e|]]; [done |]. by rewrite IH.
Qed.

(** A cleanup only deletes, and the workspaces stay known. *)
Lemma cleanup_deletes s css config now : (forall i k, call_env_ok (css i k)) -> kv_inv s.1 ->
  kv_map (runCleanup s css config now).1 ⊆ kv_map s.1 /\ workspaceOrder (runCleanup s css config now).2 = workspaceOrder s.2.
Proof.
  intros Hcs Hi. unfold runCleanup.
  assert (forall period purge, (forall cutoff s, kv_inv s.1 -> kv_inv (purge cutoff s).1 /\ kv_map (purge cutoff s).1 ⊆ kv_map s.1 /\
      workspaceOrder (purge cutoff s).2 = workspaceOrder s.2) ->
    forall s0 : store (D := D), kv_inv s0.1 -> kv_map s0.1 ⊆ kv_map s.1 /\ workspaceOrder s0.2 = workspaceOrder s.2 ->
    kv_inv (purge_if period now purge s0).1 /\ kv_map (purge_if period now purge s0).1 ⊆ kv_map s.1 /\
    workspaceOrder (purge_if period now purge s0).2 = workspaceOrder s.2) as Hif.
  { intros period purge Hp s0 Hi0 [Hs0 Ho0]. unfold purge_if. case_decide; [| done].
    destruct (Hp (now - period) s0 Hi0) as (Hi1 & Hs1 & Ho1). split; [done |]. split; [by etrans | by rewrite Ho1]. }
  assert (forall i res cutoff s, kv_inv s.1 -> kv_inv (purgeSummaries s (css i) res cutoff).1.1 /\
    kv_map (purgeSummaries s (css i) res cutoff).1.1 ⊆ kv_map s.1 /\ workspaceOrder (purgeSummaries s (css i) res cutoff).1.2 = workspaceOrder s.2) as Hsum.
  { intros i res cutoff s0 Hi0. unfold purgeSummaries. destruct (purge_workspaces_spec (css i) res cutoff (known_workspaces s0.2) (Hcs i) s0.1 0%nat Hi0) as (H1 & H2 & _).
    by destruct (purge_workspaces _ _ _ _ _ _) as [d' e']. }
  destruct (Hif (rt_Raw config) (fun cutoff s => (purgeRawData s (css 0%nat) cutoff).1)) with (s0 := s) as (H1 & H2); [| done | done |].
  { intros cutoff s0 Hi0. destruct (purge_raw_workspaces_spec (css 0%nat) cutoff (known_workspaces s0.2) (Hcs 0%nat) s0 0%nat Hi0) as (? & ? & _).
    split; [done |]. split; [done |]. apply purgeRawData_order. }
  destruct (Hif (rt_Minute config) (fun cutoff s => (purgeSummaries s (css 1%nat) "1min" cutoff).1) ltac:(intros; by apply Hsum) _ H1 H2) as (H3 & H4).
  destruct (Hif (rt_FiveMin config) (fun cutoff s => (purgeSummaries s (css 2%nat) "5min" cutoff).1) ltac:(intros; by apply Hsum) _ H3 H4) as (H5 & H6).
  destruct (Hif (rt_Hour config) (fun cutoff s => (purgeSummaries s (css 3%nat) "1hour" cutoff).1) ltac:(intros; by apply Hsum) _ H5 H6) as (H7 & H8).
  exact (proj2 (Hif (default 0 (rt_Day config)) (fun cutoff s => (purgeSummaries s (css 4%nat) "1day" cutoff).1) ltac:(intros; by apply Hsum) _ H7 H8)).
Qed.

(** How a store came to be, as one soul sees it: with the judgments saved for
    the soul so far and the horizon of what retention has kept. Saves may be
    of any soul and may fail, and are of one judgment with a new ID each
    (batches are not among them); purges and compactions take the configured
    steps, whose writes may fail; a restart rebuilds the indexes. *)
Inductive life (ws soul : string) : TimeSeriesStore (D := D) -> list Judgment -> horizon -> Prop :=
| life_new d hz : kv_inv d -> kv_map d = ∅ -> life ws soul (MkTS d no_indexes ∅) [] hz
| life_save ts H hz c gen ctx now j ts' err : life ws soul ts H hz ->
    call_env_ok c -> SaveJudgment ts c gen ctx now j = (ts', err) ->
    jd_WorkspaceID (filled gen ctx j) <> "" -> slash_free [jd_WorkspaceID (filled gen ctx j); jd_SoulID j] ->
    int64_range (jd_Timestamp j) -> - 2 ^ 63 + Day <= jd_Timestamp j -> h_live hz <= now -> fresh (kv_map (ts_db ts)) (filled gen ctx j) ->
    life ws soul ts' (if decide (err = None /\ (ws, soul) = (jd_WorkspaceID (filled gen ctx j), jd_SoulID j)) then H ++ [read_back (filled gen ctx j)] else H) hz
| life_cleanup ts H hz css config now s' : life ws soul ts H hz -> (forall i k, call_env_ok (css i k)) ->
    runCleanup (ts_db ts, ts_idx ts) css config now = s' ->
    life ws soul (MkTS s'.1 s'.2 (liveMarked ts)) H
      (MkHorizon (h_live hz) (expiry (rt_Raw config) now (h_raw hz)) (expiry (rt_Hour config) now (h_hour hz)) (expiry (default 0 (rt_Day config)) now (h_day hz)))
| life_compaction ts H hz css config nows s' : life ws soul ts H hz -> (forall i k, call_env_ok (css i k)) ->
    runCompaction (ts_db ts, ts_idx ts) css config nows = s' -> life ws soul (MkTS s'.1 s'.2 (liveMarked ts)) H hz
| life_restart ts H hz x : life ws soul ts H hz -> slash_free (known_workspaces x) -> life ws soul (MkTS (ts_db ts) x ∅) H hz.

Lemma recorded_workspaces j idx x : no_slash (jd_WorkspaceID j) -> slash_free (known_workspaces x) -> slash_free (known_workspaces (recordJudgmentIndex j idx x)).
Proof.
  intros Hw Hx. unfold recordJudgmentIndex, recordWorkspaceLocked. repeat case_decide; try done. unfold known_workspaces in *. cbn [workspaceOrder set_id].
  destruct (workspaceOrder x) as [|a l]; [by repeat constructor |]. cbn [app].
  change (a :: l ++ [jd_WorkspaceID j]) with ((a :: l) ++ [jd_WorkspaceID j]). apply Forall_app. split; [done | by repeat constructor].
Qed.

Lemma saved_workspaces ts c gen ctx now j ts' err : SaveJudgment ts c gen ctx now j = (ts', err) -> kv_inv (ts_db ts) ->
  no_slash (jd_WorkspaceID (filled gen ctx j)) -> slash_free (known_workspaces (ts_idx ts)) -> slash_free (known_workspaces (ts_idx ts')).
Proof.
  intros Hs Hi Hw Hx. unfold SaveJudgment, prepare_all in Hs. destruct (prepareJudgment _ _ _ _) as [e|[[f v] ix]] eqn:Ep; [by simplify_eq |].
  apply prepareJudgment_writes in Ep as (-> & _); [| done]. repeat case_match; simplify_eq; cbn [ts_idx]; try done. by apply recorded_workspaces.
Qed.

(** A store in which the history of a soul holds, with what compaction and
    retention rely on. *)
Definition sound (ws soul : string) (ts : TimeSeriesStore (D := D)) (H : list Judgment) (hz : horizon) : Prop :=
  kv_inv (ts_db ts) /\ slash_free (known_workspaces (ts_idx ts)) /\ kept (kv_map (ts_db ts)) ws soul H hz /\ rolled (kv_map (ts_db ts)) ws soul H hz.

Lemma new_sound ws soul d hz : kv_inv d -> kv_map d = ∅ -> sound ws soul (MkTS d no_indexes ∅) [] hz.
Proof.
  intros Hi He. split; [done |]. split; [change (slash_free ["default"]); slash_free_tac |]. cbn [ts_db]. rewrite He.
  split; split; try (intros *; rewrite lookup_empty; done); try done; intros b _ _ _; unfold tallied; by rewrite lookup_empty.
Qed.

Lemma save_sound ws soul ts H hz c gen ctx now j ts' err : slash_free [ws; soul] -> sound ws soul ts H hz ->
  call_env_ok c -> SaveJudgment ts c gen ctx now j = (ts', err) ->
  jd_WorkspaceID (filled gen ctx j) <> "" -> slash_free [jd_WorkspaceID (filled gen ctx j); jd_SoulID j] ->
  int64_range (jd_Timestamp j) -> - 2 ^ 63 + Day <= jd_Timestamp j -> h_live hz <= now -> fresh (kv_map (ts_db ts)) (filled gen ctx j) ->
  sound ws soul ts' (if decide (err = None /\ (ws, soul) = (jd_WorkspaceID (filled gen ctx j), jd_SoulID j)) then H ++ [read_back (filled gen ctx j)] else H) hz.
Proof.
  intros Hf (Hi & Hx & K & R) Hc Hs Hws Hsf Ht Hlow Hnow Hfr. set (f := filled gen ctx j) in *.
  pose proof Hsf as Hsf'. unfold slash_free in Hsf'. rewrite !Forall_cons in Hsf'. destruct Hsf' as (Hfw & Hfs & _).
  pose proof (saved_workspaces _ _ _ _ _ _ _ _ Hs Hi Hfw Hx) as Hx'. destruct err as [e|].
  { rewrite decide_False by naive_solver. unfold SaveJudgment in Hs. destruct (prepare_all _ _ _ _ _ _ _) as [e'|[[j' values] ix]]; [by simplify_eq |].
    destruct (kv_put_many (ts_db ts) c values) as [d' [e'|]] eqn:Eput; [| done]. injection Hs as <- <-.
    destruct (kv_put_many_spec _ _ _ _ _ Hi Hc Eput) as [Hi' Hm]. unfold sound. cbn [ts_db]. by rewrite Hm. }
  destruct (save_written _ _ _ _ _ _ _ Hi Hc Hs Hws Hsf) as (Hi' & Hid & key & values & Hr & W & Hm). fold f in Hid, Hr, W.
  assert (slash_free [jd_WorkspaceID f; jd_SoulID f; jd_ID f]) as Hff by slash_free_tac.
  split; [done |]. split; [done |]. rewrite Hm. case_decide as Hd.
  - destruct Hd as [_ Hd]. assert (ws = jd_WorkspaceID f) as -> by congruence. assert (soul = jd_SoulID f) as -> by by injection Hd. split; [by eapply writes_kept | by eapply writes_rolled].
  - assert (forall k, own_key ws soul k -> (values ∪ kv_map (ts_db ts)) !! k = kv_map (ts_db ts) !! k) as Hsame by (eapply writes_other; try done; naive_solver).
    split; [by eapply kept_same | by eapply rolled_same].
Qed.

Lemma cleanup_sound ws soul ts H hz css config now : slash_free [ws; soul] -> sound ws soul ts H hz -> (forall i k, call_env_ok (css i k)) ->
  let s' := runCleanup (ts_db ts, ts_idx ts) css config now in
  sound ws soul (MkTS s'.1 s'.2 (liveMarked ts)) H
    (MkHorizon (h_live hz) (expiry (rt_Raw config) now (h_raw hz)) (expiry (rt_Hour config) now (h_hour hz)) (expiry (default 0 (rt_Day config)) now (h_day hz))).
Proof.
  intros Hf (Hi & Hx & K & R) Hcs. cbv zeta.
  destruct (cleanup_keeps_recent (ts_db ts, ts_idx ts) css config now ws soul H hz Hcs Hi Hx Hf K) as [Hi' K'].
  destruct (cleanup_deletes (ts_db ts, ts_idx ts) css config now Hcs Hi) as [Hsub Ho]. split; [done |]. cbn [fst snd] in Hsub, Ho. cbn [ts_idx ts_db].
  split; [unfold known_workspaces; rewrite Ho; exact Hx |]. split; [done |]. apply (rolled_purged (kv_map (ts_db ts)) _ ws soul H hz); [exact Hsub | done | | | exact R];
    cbn [h_hour h_day]; unfold expiry; case_decide; lia.
Qed.

Lemma life_sound ws soul ts H hz : slash_free [ws; soul] -> life ws soul ts H hz -> sound ws soul ts H hz.
Proof.
  intros Hf. induction 1 as [d hz Hi He | ts H hz c gen ctx now j ts' err _ IH | ts H hz css config now s' _ IH Hcs <- | ts H hz css config nows s' _ IH Hcs <- | ts H hz x _ IH Hx].
  - by apply new_sound.
  - by eapply save_sound.
  - by apply cleanup_sound.
  - destruct IH as (Hi & Hx & K & R).
    destruct (compaction_keeps_history (ts_db ts, ts_idx ts) css config nows ws soul H hz Hcs Hi Hf K R) as (Hi' & K' & R' & E).
    split; [done |]. split; [cbn [ts_idx]; by rewrite E | done].
  - destruct IH as (Hi & _ & K & R). done.
Qed.

(** C39: In every life of a store, whatever is saved for whichever soul, and
    through failing writes, purges, compactions and restarts in any order,
    the history of a soul holds: the records retention has not expired are
    those of the judgments saved, and the live hour and day summaries that it
    has not expired count them exactly. *)
Theorem history_survives ws soul ts H hz : slash_free [ws; soul] -> life ws soul ts H hz ->
  kv_inv (ts_db ts) /\ kept (kv_map (ts_db ts)) ws soul H hz.
Proof. intros Hf Hlife. by destruct (life_sound ws soul ts H hz Hf Hlife) as (Hi & _ & K & _). Qed.
End compaction.
