(* ===== verification/History.v ===== *)
(** * Reading a soul's history

    What the readers of stored judgments return, against the history of
    TimeSeriesProps.v: the newest judgment, and an export read hour by hour
    as if it were read at once. *)
From stdpp Require Import base gmap strings list sorting.
From Stdlib Require Import ZArith Lia Strings.Byte.
From S2P Require Import Prelude GoStrings GoFloat Engine KeyValue Index LogStore Fsm Flap Sla TimeSeries TimeSeriesProps.

Open Scope Z_scope.

(** ** Oldest first *)

(** The order of an export: [a] does not come after [b]. *)
Definition not_after (a b : Judgment) : Prop := older_first b a = false.

Lemma older_first_spec a b : older_first a b = true <->
  jd_Timestamp a < jd_Timestamp b \/ (jd_Timestamp a = jd_Timestamp b /\ str_lt (jd_ID a) (jd_ID b)).
Proof.
  unfold older_first. case_decide as Ht; [rewrite str_ltb_lt; intuition lia |]. rewrite bool_decide_eq_true. intuition lia.
Qed.

Lemma not_after_spec a b : not_after a b <->
  jd_Timestamp a < jd_Timestamp b \/ (jd_Timestamp a = jd_Timestamp b /\ ~ str_lt (jd_ID b) (jd_ID a)).
Proof.
  unfold not_after. rewrite <- not_true_iff_false, older_first_spec.
  destruct (Z.lt_trichotomy (jd_Timestamp a) (jd_Timestamp b)) as [?|[?|?]]; naive_solver lia.
Qed.

Lemma not_after_trans a b c : not_after a b -> not_after b c -> not_after a c.
Proof.
  rewrite !not_after_spec. intros [?|[? Hab]] [?|[? Hbc]]; [left; lia | left; lia | left; lia | right]. split; [lia |].
  intros Hca. destruct (str_lt_trichotomy (jd_ID a) (jd_ID b)) as [Hl|[He|Hl]]; [| by rewrite He in Hca | done].
  apply Hbc. by eapply str_lt_trans.
Qed.

Lemma older_first_not_after a b : older_first a b = true -> not_after a b.
Proof.
  rewrite older_first_spec, not_after_spec. intros [?|[? Hl]]; [by left | right]. split; [done |].
  intros Hg. by apply (str_lt_irrefl (jd_ID a)), (str_lt_trans _ (jd_ID b)).
Qed.

Lemma insert_chronological x l : StronglySorted not_after l -> StronglySorted not_after (sort_insert older_first x l).
Proof.
  induction 1 as [|y l Hs IH Hy]; cbn; [repeat constructor |]. destruct (older_first y x) eqn:E.
  - constructor; [done |]. rewrite sort_insert_perm. constructor; [by apply older_first_not_after | done].
  - constructor; [by constructor |]. constructor; [exact E |]. eapply Forall_impl; [exact Hy |]. intros z Hz. by eapply not_after_trans.
Qed.

Lemma sort_chronological l : StronglySorted not_after (sort_by older_first l).
Proof. induction l; [constructor | by apply insert_chronological]. Qed.

Lemma chronological_app l k : StronglySorted not_after l -> StronglySorted not_after k ->
  (forall x y, x ∈ l -> y ∈ k -> jd_Timestamp x < jd_Timestamp y) -> StronglySorted not_after (l ++ k).
Proof.
  intros Hl Hk Hlk. apply StronglySorted_app_2; [| done | done]. intros x y Hx Hy. apply not_after_spec. left. by apply Hlk.
Qed.

(** ** Delivery *)

Lemma deliver_app {E} limit (fn : Judgment -> option E) l k sent :
  deliver limit fn (l ++ k) sent = match deliver limit fn l sent with inl r => inl r | inr sent => deliver limit fn k sent end.
Proof.
  revert sent. induction l as [|j l IH]; intros sent; cbn [deliver app]; [done |]. case_decide; [done |]. by destruct (fn j).
Qed.

Lemma during_parts a b c l : a <= b <= c -> filter (during a c) l ≡ₚ filter (during a b) l ++ filter (during b c) l.
Proof.
  intros Hab. induction l as [|j l IH]; [done |]. rewrite !filter_cons.
  destruct (decide (during a c j)) as [H1|H1], (decide (during a b j)) as [H2|H2], (decide (during b c j)) as [H3|H3];
    unfold during in H1, H2, H3; try lia; rewrite IH; [done | by rewrite Permutation_middle | done].
Qed.

Lemma during_empty a b l : b <= a -> filter (during a b) l = [].
Proof. intros Hab. induction l as [|j l IH]; [done |]. rewrite filter_cons, decide_False; [done | unfold during; lia]. Qed.

Section history.
Context {D : Type} {KV : KeyValue D} {KVO : KeyValueOk D} {KR : KeyRange D} {KRO : KeyRangeOk D} {J : TSCodec}.
Context (d : D) (ws soul : string).
Hypothesis inv : kv_inv d.
Hypothesis records : keyed (kv_map d) ws soul.
Hypothesis named : ws <> "".

(** How an export ends: when the judgments run out, at the limit, or with the
    error of the callback. *)
Definition exported {E} (r : (list Judgment * bool * option E) + list Judgment) : list Judgment * bool * option (db_error + E) :=
  match r with inl (sent, full, e) => (sent, full, inr <$> e) | inr sent => (sent, false, None) end.

Lemma stream_loop_spec {E} limit (fn : Judgment -> option E) end_ fuel : forall a sent,
  end_ <= a \/ end_ - Truncate a Hour <= Z.of_nat fuel * Hour ->
  exists l, l ≡ₚ filter (during a end_) (raw_judgments (kv_map d) ws soul) /\ StronglySorted not_after l /\
    stream_loop kv_range fuel d ws soul limit fn a end_ sent = exported (deliver limit fn l sent).
Proof.
  assert (0 < Hour) as Hh by done.
  induction fuel as [|fuel IH]; intros a sent Hf; cbn [stream_loop]; pose proof (truncate_bound a Hour Hh).
  - exists []. split; [| by split; [constructor |]]. by rewrite during_empty by lia.
  - case_decide as Ha; cycle 1.
    { exists []. split; [| by split; [constructor |]]. by rewrite during_empty by lia. }
    unfold exportChunk. set (b := if decide (end_ < Truncate a Hour + Hour) then end_ else _).
    assert (a < b <= end_) by (subst b; case_decide; lia).
    assert (end_ <= b \/ end_ - Truncate b Hour <= Z.of_nat fuel * Hour) as Hb.
    { subst b. case_decide; [left; lia | right]. rewrite truncate_next by done. lia. }
    destruct (query_exact d ws soul a b inv records named) as (q & -> & Hq).
    assert (sort_by older_first q ≡ₚ filter (during a b) (raw_judgments (kv_map d) ws soul)) as Hs by by rewrite sort_by_perm.
    destruct (deliver limit fn (sort_by older_first q) sent) as [[[sent' full] e]|sent'] eqn:Ed.
    + destruct (IH b sent Hb) as (l & Hl & Hsorted & _). exists (sort_by older_first q ++ l).
      split; [by rewrite during_parts with (b := b), Hs, Hl by lia |]. split; [| by rewrite deliver_app, Ed].
      apply chronological_app; [apply sort_chronological | done |]. intros x y. rewrite Hs, Hl, !list_elem_of_filter. unfold during. lia.
    + destruct (IH b sent' Hb) as (l & Hl & Hsorted & ->). exists (sort_by older_first q ++ l).
      split; [by rewrite during_parts with (b := b), Hs, Hl by lia |]. split; [| by rewrite deliver_app, Ed].
      apply chronological_app; [apply sort_chronological | done |]. intros x y. rewrite Hs, Hl, !list_elem_of_filter. unfold during. lia.
Qed.

(** An export that reads a period hour by hour passes on exactly what one
    read of the whole period would: every judgment stored for the soul in it,
    oldest first, until they run out, the limit is met or the callback
    fails. *)
Lemma stream_exact {E} start end_ limit (fn : Judgment -> option E) :
  exists l, l ≡ₚ filter (during start end_) (raw_judgments (kv_map d) ws soul) /\ StronglySorted not_after l /\
    StreamJudgments kv_range d ws soul start end_ limit fn = exported (deliver limit fn l []).
Proof.
  unfold StreamJudgments, defaultWorkspace. rewrite decide_False by done. apply stream_loop_spec, hours_between_enough.
Qed.

(** ** The newest judgment *)

Lemma newer_spec a b : newer a b = older_first b a.
Proof. unfold newer, older_first. repeat case_decide; try congruence; done. Qed.

(** The last judgment met that is newer than those before it. *)
Lemma latest_spec l : forall best,
  match foldl (fun latest j => match latest with Some x => if newer j x then Some j else latest | None => Some j end) best l with
  | Some j => (Some j = best \/ j ∈ l) /\ (forall x, best = Some x \/ x ∈ l -> not_after x j)
  | None => best = None /\ l = []
  end.
Proof.
  assert (forall x, not_after x x) as Hrefl.
  { intros x. apply not_after_spec. right. split; [done | apply str_lt_irrefl]. }
  induction l as [|j l IH]; intros best; cbn [foldl].
  - destruct best as [b|]; [| done]. split; [by left |]. intros x [[= ->]|Hx%elem_of_nil]; [apply Hrefl | done].
  - set (best' := match best with Some x => if newer j x then Some j else best | None => Some j end).
    assert (best' = Some j \/ best' = best /\ exists b, best = Some b /\ not_after j b) as Hb.
    { subst best'. destruct best as [b|]; [| by left]. destruct (newer j b) eqn:E; [by left | right]. split; [done |].
      exists b. split; [done |]. by rewrite newer_spec in E. }
    assert (forall x, best = Some x -> exists y, best' = Some y /\ not_after x y) as Hbest.
    { intros x ->. subst best'. cbn. destruct (newer j x) eqn:E; [| by exists x]. exists j. split; [done |].
      apply older_first_not_after. by rewrite <- newer_spec. }
    assert (exists y, best' = Some y /\ not_after j y) as Hj.
    { destruct Hb as [->|[-> (b & -> & Hjb)]]; [by exists j | by exists b]. }
    specialize (IH best'). destruct (foldl _ best' l) as [r|]; [| destruct Hj as (y & Hy & _); destruct IH; congruence].
    destruct IH as [Hin Hall]. split.
    + destruct Hin as [Hr|Hr]; [| right; by right]. destruct Hb as [Hb|[Hb _]]; rewrite Hb in Hr; [| by left].
      injection Hr as ->. right. left.
    + intros x [Hx|[->|Hx]%elem_of_cons]; [| | apply Hall; by right].
      * destruct (Hbest x Hx) as (y & Hy & Hxy). eapply not_after_trans; [exact Hxy | apply Hall; by left].
      * destruct Hj as (y & Hy & Hjy). eapply not_after_trans; [exact Hjy | apply Hall; by left].
Qed.

(** The latest judgment is one that is stored and none is newer; there is none
    exactly when nothing is stored for the soul. *)
Lemma latest_is_newest :
  match GetLatestJudgment d ws soul with
  | inr j => j ∈ raw_judgments (kv_map d) ws soul /\ forall x, x ∈ raw_judgments (kv_map d) ws soul -> not_after x j
  | inl _ => raw_judgments (kv_map d) ws soul = []
  end.
Proof.
  unfold GetLatestJudgment, defaultWorkspace. rewrite decide_False, kv_scan_spec by done.
  change (omap _ _) with (raw_judgments (kv_map d) ws soul).
  pose proof (latest_spec (raw_judgments (kv_map d) ws soul) None) as Hl. destruct (foldl _ None _) as [j|].
  - destruct Hl as [[?|Hj] Hall]; [done |]. split; [done |]. intros x Hx. apply Hall. by right.
  - by destruct Hl.
Qed.
End history.
