(* ===== verification/SlaExact.v ===== *)
(** * The figures of a period are exact

    [CollectSLA] (src/internal/storage/sla.go) reads most of a long period
    from hour and day summaries. Here: what it counts is what counting the
    judgments of the period one by one would give. *)
From stdpp Require Import base gmap strings list sorting.
From Stdlib Require Import ZArith Lia.
From S2P Require Import Prelude GoStrings GoFloat Engine KeyValue Index Fsm Flap Sla TimeSeries TimeSeriesProps Compaction.

Open Scope Z_scope.

(** ** Counting by time *)

Definition up_during (a b : Z) (j : Judgment) : Prop := during a b j /\ jd_Status j = SoulAlive.
#[export] Instance up_during_dec a b j : Decision (up_during a b j).
Proof. unfold up_during. apply _. Defined.

Lemma during_split a b c H : a <= b <= c -> count (during a c) H = count (during a b) H + count (during b c) H.
Proof. intros. apply count_or; unfold during; intros; lia. Qed.
Lemma up_during_split a b c H : a <= b <= c -> count (up_during a c) H = count (up_during a b) H + count (up_during b c) H.
Proof.
  intros. apply count_or; unfold up_during, during; intros x _; [| lia]. split.
  - intros [Hd Hs]. destruct (decide (jd_Timestamp x < b)); [left | right]; (split; [lia | done]).
  - intros [[Hd Hs]|[Hd Hs]]; (split; [lia | done]).
Qed.

Lemma count_none {A} (P : A -> Prop) `{!forall x, Decision (P x)} l : (forall x, x ∈ l -> ~ P x) -> count P l = 0.
Proof.
  intros Hn. unfold count. induction l as [|x l IH]; [done |]. rewrite filter_cons_False by (apply Hn; left). apply IH. intros; apply Hn; by right.
Qed.
Lemma during_none a b H : b <= a -> count (during a b) H = 0.
Proof. intros. apply count_none. unfold during. lia. Qed.
Lemma up_during_none a b H : b <= a -> count (up_during a b) H = 0.
Proof. intros. apply count_none. unfold up_during, during. lia. Qed.

Lemma truncate_fix t d b : 0 < d -> Truncate b d = b -> (Truncate t d = b <-> b <= t < b + d).
Proof.
  intros Hd Hb. unfold Truncate in *. assert (b mod d = 0) as Hm by lia. pose proof (Z.mod_pos_bound t d Hd). split; [lia |].
  intros Ht. pose proof (Z.div_mod t d ltac:(lia)). pose proof (Z.div_mod b d ltac:(lia)).
  assert (t / d = b / d) by (symmetry; apply (Z.div_unique_pos t d (b / d) (t - b)); lia). lia.
Qed.

Lemma bucket_count r b H : r <> ResolutionRaw -> truncateToResolution b r = b ->
  count (in_bucket r b) H = count (during b (b + resolutionSpan r)) H /\
  count (up_in_bucket r b) H = count (up_during b (b + resolutionSpan r)) H.
Proof.
  intros Hr Hb. assert (forall j, in_bucket r b j <-> during b (b + resolutionSpan r) j) as Hd.
  { intros j. unfold in_bucket, during. destruct r; [done |..]; cbn [truncateToResolution resolutionSpan] in *; by apply truncate_fix. }
  split; apply count_ext; intros j _; [apply Hd |]. unfold up_in_bucket, up_during. by rewrite Hd.
Qed.

Lemma up_le a b H : 0 <= count (up_during a b) H <= count (during a b) H.
Proof.
  split; [apply count_nonneg |]. unfold count, up_during. apply inj_le. induction H as [|j H IH]; [done |].
  rewrite !filter_cons. repeat case_decide; cbn [length]; try lia; tauto.
Qed.

(** A summary, or its absence, that stands for these counts. *)
Definition counts_of (o : option JudgmentSummary) (n u : Z) : Prop :=
  match o with None => n = 0 /\ u = 0 | Some s => Count s = n /\ SuccessCount s = u end.

Section collect.
Context {D : Type} {KV : KeyValue D} {KVO : KeyValueOk D} {KR : KeyRange D} {KRO : KeyRangeOk D} {J : TSCodec}.
Context (math_Log : float64 -> float64).

Lemma tallied_counts m key n u : tallied m key n u -> counts_of (m !! key ≫= unmarshal_summary) n u.
Proof. unfold tallied, counts_of. destruct (m !! key); cbn; [intros (s & -> & ? & ?); done | done]. Qed.

Lemma addSummary_counts o n u span src t : counts_of o n u -> 0 <= u <= n ->
  Checks (addSummary math_Log o span src t) = Checks t + n /\ Up (addSummary math_Log o span src t) = Up t + u.
Proof.
  unfold addSummary, counts_of. destruct o as [s|]; [intros [Hn Hu] Hle | intros [-> ->] _; lia]. case_decide; [lia |].
  match goal with |- context [AddLatency math_Log ?v ?c ?e ?x] => destruct (AddLatency_counts math_Log v c e x) as [-> ->] end.
  subst n u. by apply AddBucket_counts.
Qed.

(** ** The day that hourly retention cuts through *)

Definition hours_exact (hourly : gmap Z JudgmentSummary) (H : list Judgment) (from to : Z) : Prop :=
  forall h, Truncate h Hour = h -> from <= h -> h + Hour <= to ->
    counts_of (hourly !! Unix h) (count (during h (h + Hour)) H) (count (up_during h (h + Hour)) H).

Lemma aligned_next h k : Truncate h Hour = h -> Truncate (h + k * Hour) Hour = h + k * Hour.
Proof. unfold Truncate. intros Hh. rewrite Z.mod_add by done. lia. Qed.

Lemma aligned_gap a b : Truncate a Hour = a -> Truncate b Hour = b -> a < b -> a + Hour <= b.
Proof.
  intros Ha Hb Hab. unfold Truncate in *. pose proof (Z.div_mod a Hour ltac:(done)). pose proof (Z.div_mod b Hour ltac:(done)).
  set (p := a / Hour) in *. set (q := b / Hour) in *. set (x := a mod Hour) in *. set (y := b mod Hour) in *.
  unfold Hour, Second in *. lia.
Qed.

Lemma hours_subtracted hourly H dayEnd fuel : Truncate dayEnd Hour = dayEnd -> forall h n u,
  Truncate h Hour = h -> h <= dayEnd -> dayEnd - h <= Z.of_nat fuel * Hour -> hours_exact hourly H h dayEnd ->
  let found := omap (fun h => hourly !! Unix h) (hours_from fuel h dayEnd) in
  foldl (fun z s => z - Count s) n found = n - count (during h dayEnd) H /\
  foldl (fun z s => z - SuccessCount s) u found = u - count (up_during h dayEnd) H.
Proof.
  intros He. induction fuel as [|fuel IH]; intros h n u Hh Hle Hf Hx; cbn [hours_from].
  { assert (h = dayEnd) as -> by lia. rewrite during_none, up_during_none by lia. cbn. lia. }
  case_decide as Hlt.
  - pose proof (aligned_gap _ _ Hh He Hlt) as Hgap. pose proof (Hx h Hh (Z.le_refl h) Hgap) as Hc.
    pose proof (aligned_next h 1 Hh) as Hn. rewrite Z.mul_1_l in Hn.
    rewrite (during_split h (h + Hour) dayEnd), (up_during_split h (h + Hour) dayEnd) by (unfold Hour, Second in *; lia).
    cbn [omap list_omap]. unfold counts_of in Hc. destruct (hourly !! Unix h) as [s|]; cbn [foldl].
    + destruct (IH (h + Hour) (n - Count s) (u - SuccessCount s) Hn Hgap ltac:(lia)) as [-> ->]; [| lia].
      intros x ? ? ?. apply Hx; [done | unfold Hour, Second in *; lia | done].
    + destruct (IH (h + Hour) n u Hn Hgap ltac:(lia)) as [-> ->]; [| lia].
      intros x ? ? ?. apply Hx; [done | unfold Hour, Second in *; lia | done].
  - assert (h = dayEnd) as -> by lia. rewrite during_none, up_during_none by lia. cbn. lia.
Qed.

Lemma remainder_counts day hourly H c from : Truncate c Hour = c -> Truncate from Hour = from -> c <= from <= c + Day ->
  counts_of day (count (during c (c + Day)) H) (count (up_during c (c + Day)) H) -> hours_exact hourly H from (c + Day) ->
  counts_of (dailyRemainder day hourly from (c + Day)) (count (during c from) H) (count (up_during c from) H).
Proof.
  intros Hc Hf Hle Hd Hx. rewrite (during_split c from (c + Day)), (up_during_split c from (c + Day)) in Hd by lia.
  pose proof (up_le c from H) as Hu1. pose proof (up_le from (c + Day) H) as Hu2. unfold dailyRemainder.
  destruct day as [day|]; unfold counts_of in Hd |- *; [| lia]. destruct Hd as [Hn Hu].
  assert (Truncate (c + Day) Hour = c + Day) as Hday by (change Day with (24 * Hour); by apply aligned_next).
  destruct (hours_subtracted hourly H (c + Day) 25 Hday from (Count day) (SuccessCount day) Hf ltac:(lia)) as [En Eu];
    [unfold Day, Hour, Second in *; lia | done |]. cbv zeta in En, Eu. rewrite En, Eu, Hn, Hu.
  case_decide; [lia |]. cbn [Count SuccessCount]. case_decide; lia.
Qed.

(** ** The walk over a period *)

Lemma day_aligned day : Truncate day Day = day -> Truncate day Hour = day.
Proof.
  unfold Truncate. intros Hd. assert (day mod Day = 0) as Hm by lia. apply Z.mod_divide in Hm as [q ->]; [| done].
  replace (q * Day) with (q * 24 * Hour) by (unfold Day; lia). rewrite Z.mod_mul by done. lia.
Qed.

Section walk.
Context (w : walk) (start : Z) (H : list Judgment).

(** The instant is in a whole day, or a whole hour, that the walk reads from
    summaries. *)
Definition day_roll (t : Z) : bool :=
  let day := Truncate t Day in bool_decide (start <= day) && whole_day w day && bool_decide (t < hourSince w).
Definition hour_roll (t : Z) : bool :=
  let hour := Truncate t Hour in bool_decide (start <= hour) && whole_hour w hour.
Definition rolled (t : Z) : bool := is_live w && (day_roll t || hour_roll t).

Hypothesis since_aligned : Truncate (hourSince w) Hour = hourSince w.
Hypothesis live_order : liveHour w <= liveDay w.
Hypothesis hourly_exact : is_live w = true -> hours_exact (hourly w) H (Z.max start (Z.max (liveHour w) (hourSince w))) (w_end w).
Hypothesis daily_exact : is_live w = true -> forall day, Truncate day Day = day -> start <= day -> liveDay w <= day ->
  day + Day <= w_end w -> day < hourSince w ->
  counts_of (daily w !! Unix day) (count (during day (day + Day)) H) (count (up_during day (day + Day)) H).

(** Days read from summaries are behind the cursor as a whole. *)
Definition day_done (c : Z) : Prop :=
  is_live w = true -> forall day, Truncate day Day = day -> start <= day -> whole_day w day = true -> day < hourSince w -> day < c ->
    Z.min (day + Day) (hourSince w) <= c.

Definition at_hour (c : Z) : Prop := c = start \/ Truncate c Hour = c.

Lemma whole_day_elim c : whole_day w c = true -> Truncate c Day = c /\ liveDay w <= c /\ c + Day <= w_end w.
Proof.
  unfold whole_day. cbn [truncateToResolution]. rewrite !andb_true_iff, !bool_decide_eq_true. intros [[[E ?] ?] _]. by rewrite E in *.
Qed.

Lemma whole_hour_elim c : whole_hour w c = true -> Truncate c Hour = c /\ liveHour w <= c /\ hourSince w <= c /\ c + Hour <= w_end w.
Proof. unfold whole_hour. rewrite !andb_true_iff, !bool_decide_eq_true. intros [[[[E ?] ?] ?] _]. by rewrite E in *. Qed.

(** Only the cursor itself can start a day within its hour. *)
Lemma day_in_hour c day x : at_hour c -> start <= c -> Truncate day Day = day -> start <= day -> c <= day -> day <= x -> x < Truncate c Hour + Hour -> day = c.
Proof.
  intros Hc Hs Hd Hsd Hcd Hdx Hx. pose proof (day_aligned _ Hd) as Ha. pose proof (truncate_bound c Hour ltac:(done)).
  destruct (decide (day = c)) as [|Hne]; [done |]. exfalso.
  pose proof (truncate_idem c Hour ltac:(done)) as Ht.
  assert (Truncate c Hour < day) as Hlt by lia. pose proof (aligned_gap _ _ Ht Ha Hlt). lia.
Qed.

Lemma same_hour c x : c <= x -> x < Truncate c Hour + Hour -> Truncate x Hour = Truncate c Hour.
Proof.
  intros Hcx Hx. pose proof (truncate_bound c Hour ltac:(done)). apply truncate_fix; [done | by apply truncate_idem | lia].
Qed.

Lemma day_done_hour c c' : start <= c -> at_hour c -> day_done c -> c < c' <= Truncate c Hour + Hour ->
  (is_live w = true -> whole_day w c = true -> c < hourSince w -> False) -> day_done c'.
Proof.
  intros Hs Hc Hd Hc' Hno Hl day Ha Hsd Hw Hh Hlt. destruct (decide (day < c)) as [Hb|Hb].
  - pose proof (Hd Hl day Ha Hsd Hw Hh Hb). lia.
  - exfalso. assert (day = c) as -> by (eapply (day_in_hour c day day); eauto; lia). by apply Hno.
Qed.

Lemma day_done_day c c' : Truncate c Day = c -> start <= c -> day_done c -> c < c' -> Z.min (c + Day) (hourSince w) <= c' -> c' <= c + Day -> day_done c'.
Proof.
  intros Hc Hs Hd Hlt Hmin Hle Hl day Ha Hsd Hw Hh Hday. destruct (decide (day < c)) as [Hb|Hb].
  - pose proof (Hd Hl day Ha Hsd Hw Hh Hb). lia.
  - assert (Truncate day Day = c) as E by (apply truncate_fix; [done | done | lia]). rewrite Ha in E. subst. done.
Qed.

(** One step goes to the next hour at least; it counts what it passes from
    summaries, or leaves it to be read raw. *)
Lemma walk_step_spec c t raw t' raw' c' : start <= c < w_end w -> at_hour c -> day_done c -> walk_step math_Log w c t raw = (t', raw', c') ->
  c < c' <= w_end w /\ (Truncate c' Hour = c' \/ c' = w_end w) /\ (Truncate c Hour + Hour <= c' \/ c' = w_end w) /\ day_done c' /\
  (((forall x, c <= x < c' -> rolled x = true) /\ raw' = raw /\
    Checks t' = Checks t + count (during c c') H /\ Up t' = Up t + count (up_during c c') H) \/
   ((forall x, c <= x < c' -> rolled x = false) /\ raw' = addRaw c c' raw /\ t' = t)).
Proof.
  intros Hc Hat Hdd. unfold walk_step. pose proof (truncate_bound c Hour ltac:(done)) as Hb. assert (0 < Hour < Day) by done.
  destruct (is_live w && whole_day w c && bool_decide (c + Day <= hourSince w)) eqn:C1.
  { rewrite !andb_true_iff, bool_decide_eq_true in C1. destruct C1 as [[Hl Hw] Hh]. destruct (whole_day_elim c Hw) as (Ha & Hlv & He).
    intros [= <- <- <-]. pose proof (day_aligned _ Ha) as Hah.
    split; [unfold Day, Hour, Second in *; lia |]. split; [left; exact (aligned_next c 24 Hah) |]. split; [left; rewrite Hah; unfold Day, Hour, Second in *; lia |].
    split; [apply (day_done_day c); try done; unfold Day, Hour, Second in *; lia |]. left. split; [| split; [done |]].
    - intros x Hx. unfold rolled, day_roll. assert (Truncate x Day = c) as -> by by apply truncate_fix.
      rewrite Hl, Hw, !bool_decide_true by lia. done.
    - apply addSummary_counts; [| apply up_le]. apply daily_exact; try done; unfold Day, Hour, Second in *; lia. }
  destruct (is_live w && whole_day w c && bool_decide (c < hourSince w)) eqn:C2.
  { rewrite !andb_true_iff, bool_decide_eq_true in C2. destruct C2 as [[Hl Hw] Hh]. destruct (whole_day_elim c Hw) as (Ha & Hlv & He).
    rewrite Hl, Hw in C1. cbn [andb] in C1. apply bool_decide_eq_false in C1. intros [= <- <- <-]. pose proof (day_aligned _ Ha) as Hah.
    split; [lia |]. split; [by left |]. split; [left; rewrite Hah; by apply aligned_gap |].
    split; [apply (day_done_day c); try done; lia |]. left. split; [| split; [done |]].
    - intros x Hx. unfold rolled, day_roll. assert (Truncate x Day = c) as -> by (apply truncate_fix; [done | done | lia]).
      rewrite Hl, Hw, !bool_decide_true by lia. done.
    - apply addSummary_counts; [| apply up_le]. apply remainder_counts; try done; [lia | by apply daily_exact; try done; lia |].
      intros h Hh1 Hh2 Hh3. apply hourly_exact; try done; lia. }
  assert (is_live w = true -> whole_day w c = true -> c < hourSince w -> False) as Hno.
  { intros Hl Hw Hh. rewrite Hl, Hw in C2. cbn [andb] in C2. apply bool_decide_eq_false in C2. lia. }
  destruct (is_live w && whole_hour w c) eqn:C3.
  { rewrite andb_true_iff in C3. destruct C3 as [Hl Hw]. destruct (whole_hour_elim c Hw) as (Ha & Hlv & Hsn & He).
    intros [= <- <- <-]. pose proof (aligned_next c 1 Ha) as Hn. rewrite Z.mul_1_l in Hn. rewrite Ha in Hb.
    split; [lia |]. split; [by left |]. split; [left; lia |].
    split; [apply (day_done_hour c); try done; lia |]. left. split; [| split; [done |]].
    - intros x Hx. unfold rolled, hour_roll. assert (Truncate x Hour = c) as -> by by apply truncate_fix.
      rewrite Hl, Hw, (bool_decide_true (start <= c)) by lia. cbn [andb]. by rewrite orb_true_r.
    - apply addSummary_counts; [| apply up_le]. apply hourly_exact; try done; lia. }
  set (next := if decide _ then _ else _). intros [= <- <- <-].
  assert (c < next <= w_end w /\ next <= Truncate c Hour + Hour /\ (next = Truncate c Hour + Hour \/ next = w_end w)) as (Hn1 & Hn2 & Hn3)
    by (subst next; destruct (decide (w_end w < Truncate c Hour + Hour)); lia).
  split; [done |]. split.
  { destruct Hn3 as [->|]; [left | by right]. pose proof (aligned_next _ 1 (truncate_idem c Hour ltac:(done))) as E. by rewrite Z.mul_1_l in E. }
  split; [lia |].
  split; [apply (day_done_hour c); try done; lia |]. right. split; [| done].
  intros x Hx. unfold rolled. destruct (is_live w) eqn:Hl; [| done]. cbn [andb]. apply orb_false_iff. split.
  - apply not_true_iff_false. unfold day_roll. rewrite !andb_true_iff, !bool_decide_eq_true. intros [[Hs Hw] Hxs].
    destruct (whole_day_elim _ Hw) as (Ha & _). pose proof (truncate_bound x Day ltac:(done)) as Hxd.
    destruct (decide (Truncate x Day < c)) as [Hlt|Hge].
    + pose proof (Hdd Hl _ Ha Hs Hw ltac:(lia) Hlt). lia.
    + assert (Truncate x Day = c) as E by (eapply (day_in_hour c _ x); eauto; lia). rewrite E in *. apply Hno; try done. lia.
  - apply not_true_iff_false. unfold hour_roll. rewrite (same_hour c x) by lia. rewrite andb_true_iff, bool_decide_eq_true. intros [Hs Hw].
    assert (Truncate c Hour = c) as E by (destruct Hat as [->|E]; [lia | exact E]). rewrite E in Hw. by rewrite Hw in C3.
Qed.

Definition roll_during (a b : Z) (j : Judgment) : Prop := during a b j /\ rolled (jd_Timestamp j) = true.
Definition up_roll_during (a b : Z) (j : Judgment) : Prop := roll_during a b j /\ jd_Status j = SoulAlive.
#[local] Instance roll_during_dec a b j : Decision (roll_during a b j).
Proof. unfold roll_during. apply _. Defined.
#[local] Instance up_roll_during_dec a b j : Decision (up_roll_during a b j).
Proof. unfold up_roll_during. apply _. Defined.

Lemma roll_split a b c : a <= b <= c ->
  count (roll_during a c) H = count (roll_during a b) H + count (roll_during b c) H /\
  count (up_roll_during a c) H = count (up_roll_during a b) H + count (up_roll_during b c) H.
Proof.
  intros. split; (apply count_or; unfold up_roll_during, roll_during, during; intros x _; [| lia]); split.
  1,3: intros; destruct_and!; destruct (decide (jd_Timestamp x < b)); [left | right]; split_and!; (lia || done).
  all: intros [?|?]; destruct_and!; split_and!; (lia || done).
Qed.

Lemma roll_all a b : (forall x, a <= x < b -> rolled x = true) ->
  count (roll_during a b) H = count (during a b) H /\ count (up_roll_during a b) H = count (up_during a b) H.
Proof.
  intros Hr. split; apply count_ext; intros j _; unfold up_roll_during, roll_during, up_during.
  - split; [tauto |]. intros Hd. split; [done | by apply Hr].
  - split; [tauto |]. intros [Hd Hs]. split; [split; [done | by apply Hr] | done].
Qed.

Lemma roll_none a b : (forall x, a <= x < b -> rolled x = false) -> count (roll_during a b) H = 0 /\ count (up_roll_during a b) H = 0.
Proof.
  intros Hr. split; apply count_none; intros j _; unfold up_roll_during, roll_during; intros Hj; destruct_and!;
    match goal with Hd : during a b j |- _ => specialize (Hr _ Hd); congruence end.
Qed.

(** The stretches left to read raw are what is behind the cursor and not
    counted. *)
Definition raw_ok (c : Z) (raw : list TimeRange) : Prop :=
  ordered (rev raw) /\ Forall (fun r => End r <= c) raw /\ forall t, covered raw t <-> start <= t < c /\ rolled t = false.

Lemma raw_ok_rolled c c' raw : start <= c < c' -> (forall x, c <= x < c' -> rolled x = true) -> raw_ok c raw -> raw_ok c' raw.
Proof.
  intros Hc Hr (Ho & He & Hcov). split; [done |]. split; [eapply Forall_impl; [exact He |]; cbn; lia |]. intros t. rewrite Hcov.
  split; [intros [? ?]; split; [lia | done] |]. intros [Ht Hf]. split; [| done]. destruct (decide (t < c)); [lia |].
  rewrite Hr in Hf by lia. done.
Qed.

Lemma raw_ok_add c c' raw : start <= c < c' -> (forall x, c <= x < c' -> rolled x = false) -> raw_ok c raw -> raw_ok c' (addRaw c c' raw).
Proof.
  intros Hc Hr (Ho & He & Hcov).
  assert (forall t, start <= t < c' /\ rolled t = false <-> (start <= t < c /\ rolled t = false) \/ c <= t < c') as Hsplit.
  { intros t. split; [intros [Ht Hf]; destruct (decide (t < c)); [left | right]; (split || idtac); (lia || done) |].
    intros [[? ?]|Ht]; [split; [lia | done] | split; [lia | by apply Hr]]. }
  assert (forall l, ordered (rev l) -> Forall (fun r => End r <= c) l -> ordered (rev (MkRange c c' :: l))) as Hnew.
  { intros l Hl Hf. cbn [rev]. apply ordered_snoc; [done | unfold nonempty; cbn; lia | by apply List.Forall_rev]. }
  destruct raw as [|r raw]; cbn [addRaw].
  - split; [by apply (Hnew []) |]. split; [repeat constructor; cbn; lia |]. intros t. rewrite covered_cons, Hsplit, <- Hcov, covered_nil. unfold inside; cbn. tauto.
  - case_decide as Hj.
    + subst c. apply Forall_cons in He as [_ He]. split; [| split].
      * cbn [rev] in *. destruct Ho as [Hn Hs]. apply Forall_app in Hn as [Hn Hr']. apply Forall_cons in Hr' as [Hr' _].
        apply StronglySorted_app in Hs as (Hcr & Hs & _). unfold nonempty in Hr'.
        apply ordered_snoc; [done | unfold nonempty; cbn; lia |]. apply Forall_forall. intros x Hx. cbn. apply (Hcr x r Hx). left.
      * constructor; [cbn; lia |]. eapply Forall_impl; [exact He |]. cbn. lia.
      * intros t. rewrite Hsplit, <- Hcov, !covered_cons. unfold inside; cbn.
        assert (Start r < End r) as Hne. { destruct Ho as [Hn _]. cbn [rev] in Hn. apply Forall_app in Hn as [_ Hn]. by apply Forall_cons in Hn as [Hn _]. }
        split; [intros [?|?]; [destruct (decide (t < End r)); [left; left; lia | right; lia] | tauto] | intros [[?|?]|?]; [left; lia | tauto | left; lia]].
    + split; [by apply Hnew |]. split; [constructor; [cbn; lia |]; eapply Forall_impl; [exact He |]; cbn; lia |].
      intros t. rewrite covered_cons, Hsplit, <- Hcov. unfold inside; cbn. tauto.
Qed.

Lemma walk_loop_spec fuel : forall c t raw t' raw', start <= c <= w_end w -> at_hour c \/ c = w_end w -> day_done c -> raw_ok c raw ->
  (w_end w <= c \/ w_end w - Truncate c Hour <= Z.of_nat fuel * Hour) -> walk_loop math_Log fuel w c t raw = (t', raw') ->
  raw_ok (w_end w) raw' /\ Checks t' = Checks t + count (roll_during c (w_end w)) H /\
  Up t' = Up t + count (up_roll_during c (w_end w)) H.
Proof.
  assert (forall c t raw t' raw', w_end w <= c -> start <= c <= w_end w -> raw_ok c raw -> (t, raw) = (t', raw') ->
    raw_ok (w_end w) raw' /\ Checks t' = Checks t + count (roll_during c (w_end w)) H /\
    Up t' = Up t + count (up_roll_during c (w_end w)) H) as Hend.
  { intros c t raw t' raw' Hge Hc Hraw [= <- <-]. assert (c = w_end w) as -> by lia.
    destruct (roll_none (w_end w) (w_end w)) as [-> ->]; [lia |]. split; [done | lia]. }
  induction fuel as [|fuel IH]; intros c t raw t' raw' Hc Hat Hdd Hraw Hfuel; cbn [walk_loop].
  { apply Hend; try done. pose proof (truncate_bound c Hour ltac:(done)). lia. }
  case_decide as Hlt; [| apply Hend; (done || lia)]. destruct Hat as [Hat|]; [| lia].
  destruct (walk_step math_Log w c t raw) as [[t1 raw1] c1] eqn:Es.
  destruct (walk_step_spec c t raw t1 raw1 c1 ltac:(lia) Hat Hdd Es) as (Hc1 & Hal & Hprog & Hdd1 & Hcase). intros Hl.
  assert (raw_ok c1 raw1) as Hraw1.
  { destruct Hcase as [(Hr & -> & _)|(Hr & -> & _)]; [eapply raw_ok_rolled | eapply raw_ok_add]; try done; lia. }
  destruct (IH c1 t1 raw1 t' raw') as (Hro & Hck & Hup); try done; [lia | | |].
  { destruct Hal as [Hal|Hal]; [left; by right | by right]. }
  { pose proof (truncate_bound c1 Hour ltac:(done)). destruct Hprog as [Hp|Hp]; [| lia]. destruct Hal as [Hal|Hal]; [| lia]. rewrite Hal. lia. }
  split; [done |]. rewrite Hck, Hup. destruct (roll_split c c1 (w_end w) ltac:(lia)) as [-> ->].
  destruct Hcase as [(Hr & _ & -> & ->)|(Hr & _ & ->)]; [destruct (roll_all c c1 Hr) as [-> ->] | destruct (roll_none c c1 Hr) as [-> ->]]; lia.
Qed.
End walk.

(** ** The raw part *)

Section raw.
Context (d : D) (ws soul : string) (H : list Judgment) (hz : horizon) (ex : list TimeRange).
Hypothesis inv : kv_inv d.
Hypothesis history : kept (kv_map d) ws soul H hz.
Hypothesis workspace : ws <> "".
Hypothesis excluded_ordered : ordered ex.

(** The checks of a stretch outside the exclusions. *)
Definition open_during (a b : Z) (j : Judgment) : Prop :=
  during a b j /\ ~ covered ex (jd_Timestamp j) /\ jd_Status j <> SoulEmbalmed.
Definition up_open_during (a b : Z) (j : Judgment) : Prop := open_during a b j /\ jd_Status j = SoulAlive.
#[local] Instance open_during_dec a b j : Decision (open_during a b j).
Proof. unfold open_during. apply _. Defined.
#[local] Instance up_open_during_dec a b j : Decision (up_open_during a b j).
Proof. unfold up_open_during. apply _. Defined.

Lemma open_split a b c : a <= b <= c ->
  count (open_during a c) H = count (open_during a b) H + count (open_during b c) H /\
  count (up_open_during a c) H = count (up_open_during a b) H + count (up_open_during b c) H.
Proof.
  intros. split; (apply count_or; unfold up_open_during, open_during, during; intros x _; [| lia]); split.
  1,3: intros; destruct_and!; destruct (decide (jd_Timestamp x < b)); [left | right]; split_and!; (lia || done).
  all: intros [?|?]; destruct_and!; split_and!; (lia || done).
Qed.

(** What is counted among recent records is what the history has. *)
Lemma count_recent (P : Judgment -> Prop) `{!forall x, Decision (P x)} : (forall j, P j -> since (h_raw hz) j) ->
  count P (raw_judgments (kv_map d) ws soul) = count P H.
Proof.
  intros HP. assert (forall l, count P l = count P (filter (since (h_raw hz)) l)) as Hf.
  { intros l. unfold count. f_equal. f_equal. symmetry. rewrite list_filter_filter. apply list_filter_iff. intros j. split; [tauto |]. auto. }
  rewrite Hf, (Hf H). apply count_perm. apply (kept_raw _ _ _ _ _ history).
Qed.

Lemma count_filter (P Q : Judgment -> Prop) `{!forall x, Decision (P x)} `{!forall x, Decision (Q x)} l :
  (forall j, P j -> Q j) -> count P (filter Q l) = count P l.
Proof.
  intros HPQ. unfold count. f_equal. f_equal. rewrite list_filter_filter. apply list_filter_iff. intros j. split; [tauto | auto].
Qed.

Lemma count_pieces a b l : h_raw hz <= a -> l ≡ₚ filter (during a b) (raw_judgments (kv_map d) ws soul) ->
  count (checked (RawPieces a b ex)) l = count (open_during a b) H /\ count (up (RawPieces a b ex)) l = count (up_open_during a b) H.
Proof.
  intros Ha Hl. destruct (RawPieces_spec a b ex excluded_ordered) as (_ & _ & Hcov).
  rewrite !(count_perm _ _ _ Hl). rewrite !count_filter by (intros j; unfold checked, up; rewrite Hcov; unfold during; tauto).
  rewrite !count_recent by (intros j; unfold checked, up, since; rewrite Hcov; lia).
  assert (SoulAlive <> SoulEmbalmed) by done.
  split; apply count_ext; intros j Hj; unfold checked, up, up_open_during, open_during, during; rewrite Hcov; [tauto |].
  split; [intros [? ?]; split_and!; (tauto || congruence) | tauto].
Qed.

Lemma raw_loop_spec e fuel : forall a t, h_raw hz <= a -> (e <= a \/ e - a <= Z.of_nat fuel * Day) ->
  exists t', raw_loop kv_range math_Log fuel d ws soul ex a e t = inr t' /\
    Checks t' = Checks t + count (open_during a e) H /\ Up t' = Up t + count (up_open_during a e) H.
Proof.
  assert (forall a t, e <= a -> Checks t = Checks t + count (open_during a e) H /\ Up t = Up t + count (up_open_during a e) H) as Hend.
  { intros a t Hle. rewrite !count_none by (unfold up_open_during, open_during, during; lia). lia. }
  induction fuel as [|fuel IH]; intros a t Ha Hf; cbn [raw_loop].
  { exists t. split; [done |]. apply Hend. lia. }
  case_decide as Hlt; [| exists t; split; [done |]; apply Hend; lia].
  set (b := if decide (e < a + rawBatch) then e else a + rawBatch).
  assert (a < b <= e /\ (e <= b \/ e - b <= Z.of_nat fuel * Day)) as [Hb Hf'].
  { subst b. unfold rawBatch. destruct (decide (e < a + Day)); assert (0 < Day) by done; lia. }
  destruct (open_split a b e ltac:(lia)) as [-> ->].
  destruct (RawPieces_spec a b ex excluded_ordered) as (HO & _ & Hcov).
  destruct (query_exact d ws soul a b inv (kept_keyed _ _ _ _ _ history) workspace) as (l & Hq & Hl).
  destruct (count_pieces a b l Ha Hl) as [Hc Hu].
  destruct (RawPieces a b ex) as [|p ps] eqn:Ep.
  - destruct (IH b t ltac:(lia) Hf') as (t' & Et & Ec & Eu). exists t'. split; [done |].
    assert (forall j, ~ open_during a b j) as Hnone.
    { intros j (Hj & Hx & _). apply (covered_nil (jd_Timestamp j)), Hcov. done. }
    rewrite (count_none (open_during a b)), (count_none (up_open_during a b)); [lia | intros j _ [Hj _]; by apply (Hnone j) | auto].
  - rewrite Hq. destruct (IH b (CountJudgments math_Log (p :: ps) l t) ltac:(lia) Hf') as (t' & Et & Ec & Eu). exists t'. split; [done |].
    destruct (CountJudgments_counts math_Log (p :: ps) l t HO) as [Hc' Hu']. lia.
Qed.

Definition read_raw (rs : list TimeRange) (rawSince : Z) (j : Judgment) : Prop :=
  covered rs (jd_Timestamp j) /\ ~ covered ex (jd_Timestamp j) /\ rawSince <= jd_Timestamp j /\ jd_Status j <> SoulEmbalmed.
Definition up_read_raw (rs : list TimeRange) (rawSince : Z) (j : Judgment) : Prop := read_raw rs rawSince j /\ jd_Status j = SoulAlive.
#[local] Instance read_raw_dec rs rawSince j : Decision (read_raw rs rawSince j).
Proof. unfold read_raw. apply _. Defined.
#[local] Instance up_read_raw_dec rs rawSince j : Decision (up_read_raw rs rawSince j).
Proof. unfold up_read_raw. apply _. Defined.

Lemma raw_ranges_spec rawSince rs : forall t, ordered rs -> Forall (fun r => 0 <= Start r /\ h_raw hz <= Z.max (Start r) rawSince) rs ->
  exists t', raw_ranges kv_range math_Log d ws soul ex rawSince rs t = inr t' /\
    Checks t' = Checks t + count (read_raw rs rawSince) H /\ Up t' = Up t + count (up_read_raw rs rawSince) H.
Proof.
  induction rs as [|r rs IH]; intros t Ho Hs; cbn [raw_ranges].
  { exists t. split; [done |]. rewrite !count_none by (intros j _; unfold up_read_raw, read_raw; rewrite covered_nil; tauto). lia. }
  apply Forall_cons in Hs as [[H0 Hr] Hs]. set (a := if decide _ then _ else _).
  assert (a = Z.max (Start r) rawSince) as -> by (subst a; assert (zero_time < 0) by done; case_decide; lia).
  destruct (raw_loop_spec (End r) (hours_between (Z.max (Start r) rawSince) (End r)) (Z.max (Start r) rawSince) t Hr) as (t1 & E1 & Ec1 & Eu1).
  { unfold hours_between. set (x := Z.max (Start r) rawSince). destruct (decide (End r <= x)); [by left | right].
    pose proof (Z.div_mod (End r - x) Hour ltac:(done)). pose proof (Z.mod_pos_bound (End r - x) Hour ltac:(done)).
    assert (0 <= (End r - x) / Hour) by (apply Z.div_pos; [lia | done]). unfold Day. assert (0 < Hour) by done. nia. }
  rewrite E1. pose proof Ho as Ho'. apply ordered_cons in Ho' as (Hn & Hrl & Ho').
  destruct (IH t1 Ho' Hs) as (t' & E' & Ec' & Eu'). exists t'. split; [done |]. rewrite Ec', Eu', Ec1, Eu1.
  rewrite (count_or (read_raw (r :: rs) rawSince) (open_during (Z.max (Start r) rawSince) (End r)) (read_raw rs rawSince)).
  1: rewrite (count_or (up_read_raw (r :: rs) rawSince) (up_open_during (Z.max (Start r) rawSince) (End r)) (up_read_raw rs rawSince)); [lia |..].
  all: intros j _; unfold up_read_raw, up_open_during, read_raw, open_during, during; rewrite ?covered_cons; unfold inside.
  all: try (rewrite Z.max_lub_iff; tauto).
  all: intros; destruct_and!; match goal with Hc : covered _ _ |- _ => pose proof (ordered_after _ _ _ Ho Hc) end; lia.
Qed.
End raw.

(** ** The whole collection *)

Lemma ceil_spec t r : r = Resolution1Hour \/ r = Resolution1Day -> truncateToResolution (ceilTo t r) r = ceilTo t r /\ t <= ceilTo t r.
Proof.
  intros Hr. unfold ceilTo. case_decide as Hz; [subst t; split; [by destruct Hr as [->| ->] | lia] |].
  pose proof (truncate_resolution_le t r) as Hle.
  assert (truncateToResolution (truncateToResolution t r) r = truncateToResolution t r) as Hi
    by (destruct Hr as [->| ->]; cbn [truncateToResolution]; by apply truncate_idem).
  assert (t <= truncateToResolution t r + resolutionSpan r) as Hup.
  { destruct Hr as [->| ->]; cbn [truncateToResolution resolutionSpan];
      [pose proof (truncate_bound t Hour ltac:(done)) | pose proof (truncate_bound t Day ltac:(done))]; lia. }
  case_decide; [| split; [done | lia]]. split; [| lia].
  destruct Hr as [->| ->]; cbn [truncateToResolution resolutionSpan] in *; unfold Truncate in *.
  - replace (t - t mod Hour + Hour) with (t - t mod Hour + 1 * Hour) by lia. rewrite Z.mod_add by done. lia.
  - replace (t - t mod Day + Day) with (t - t mod Day + 1 * Day) by lia. rewrite Z.mod_add by done. lia.
Qed.

Lemma ceil_order t : ceilTo t Resolution1Hour <= ceilTo t Resolution1Day.
Proof.
  destruct (ceil_spec t Resolution1Day) as [Ha Hge]; [by right |]. cbn [truncateToResolution] in Ha. apply day_aligned in Ha.
  unfold ceilTo at 1. cbn [truncateToResolution resolutionSpan]. case_decide as Hz; [lia |].
  pose proof (truncate_bound t Hour ltac:(done)). case_decide; [| lia].
  apply aligned_gap; [by apply truncate_idem | done | lia].
Qed.

Lemma maxTime_three a b c : zero_time <= a -> maxTime [a; b; c] = Z.max a (Z.max b c) /\ maxTime [a; b] = Z.max a b.
Proof. intros Ha. unfold maxTime. cbn [foldl]. split; repeat case_decide; lia. Qed.

Lemma rolled_open w start t : ordered (w_excluded w) -> rolled w start t = true -> ~ covered (w_excluded w) t.
Proof.
  intros Ho. unfold rolled. rewrite andb_true_iff, orb_true_iff. unfold day_roll, hour_roll, whole_day, whole_hour.
  cbn [truncateToResolution]. rewrite !truncate_idem by done. rewrite !andb_true_iff, !negb_true_iff.
  intros [_ Hr] Hc. pose proof (truncate_bound t Day ltac:(done)). pose proof (truncate_bound t Hour ltac:(done)).
  assert (forall a b, a <= t < b -> Overlaps (w_excluded w) a b = true) as Hov.
  { intros a b Hab. apply Overlaps_spec; [done | lia |]. by exists t. }
  destruct Hr as [Hr|Hr]; destruct_and!; rewrite Hov in * by done; done.
Qed.

(** What the walk looks at, without the summaries it has read. *)
Definition period (d : D) (ws soul : string) (start end_ : Z) (excluded : list TimeRange) (hs : SLAHorizons) : walk :=
  MkWalk end_ (Merge excluded start end_) (live_from d ws soul Resolution1Hour) (live_from d ws soul Resolution1Day)
    (ceilTo (HourSince hs) Resolution1Hour) ∅ ∅.

(** An instant of the period read from the summary of its hour or day. *)
Definition from_summaries (d : D) (ws soul : string) (start end_ : Z) (excluded : list TimeRange) (hs : SLAHorizons) : Z -> bool :=
  rolled (period d ws soul start end_ excluded hs) start.

(** ** What a report has to count *)

(** No exclusion has a part in [a, b). *)
Definition clear (excluded : list TimeRange) (a b : Z) : Prop :=
  Forall (fun r => End r <= Start r \/ End r <= a \/ b <= Start r) excluded.

(** A whole hour or day of the period, free of exclusions, that began after
    the soul was first counted live. *)
Definition whole (counted_from start end_ : Z) (excluded : list TimeRange) (unit b : Z) : Prop :=
  counted_from <= b /\ start <= b /\ b + unit <= end_ /\ clear excluded b (b + unit).

(** The instant is in such an hour whose summary retention has kept, or else
    in such a day. *)
Definition summarised (counted_from : option Z) (start end_ : Z) (excluded : list TimeRange) (hourSince t : Z) : Prop :=
  match counted_from with
  | None => False
  | Some from =>
      let hour := t - t mod Hour in
      let day := t - t mod Day in
      (hourSince <= hour /\ whole from start end_ excluded Hour hour) \/
      (hour < hourSince /\ whole from start end_ excluded Day day)
  end.

(** A judgment of the period outside the exclusions counts if a summary stands
    for its instant, or if its record is kept and it is not embalmed. *)
Definition accounted (counted_from : option Z) (start end_ : Z) (excluded : list TimeRange) (hs : SLAHorizons) (j : Judgment) : Prop :=
  start <= jd_Timestamp j < end_ /\ ~ covered excluded (jd_Timestamp j) /\
  (summarised counted_from start end_ excluded (HourSince hs) (jd_Timestamp j) \/
   (RawSince hs <= jd_Timestamp j /\ jd_Status j <> SoulEmbalmed)).
Definition up_accounted (counted_from : option Z) (start end_ : Z) (excluded : list TimeRange) (hs : SLAHorizons) (j : Judgment) : Prop :=
  accounted counted_from start end_ excluded hs j /\ jd_Status j = SoulAlive.
#[export] Instance summarised_dec counted_from start end_ excluded hourSince t : Decision (summarised counted_from start end_ excluded hourSince t).
Proof. unfold summarised, whole, clear. destruct counted_from; apply _. Defined.
#[export] Instance accounted_dec counted_from start end_ excluded hs j : Decision (accounted counted_from start end_ excluded hs j).
Proof. unfold accounted. apply _. Defined.
#[export] Instance up_accounted_dec counted_from start end_ excluded hs j : Decision (up_accounted counted_from start end_ excluded hs j).
Proof. unfold up_accounted. apply _. Defined.

(** The time stored with the soul when it was first counted live. *)
Definition live_mark (d : D) (ws soul : string) : option Z := kv_map d !! liveSinceKey ws soul ≫= parse_time.

Lemma ceil_le m b r : r = Resolution1Hour \/ r = Resolution1Day -> truncateToResolution b r = b -> ceilTo m r <= b <-> m <= b.
Proof.
  intros Hr Hb. destruct (ceil_spec m r Hr) as [_ Hge]. split; [lia |]. intros Hm. unfold ceilTo.
  case_decide; [done |]. cbv zeta. destruct Hr as [->| ->]; cbn [truncateToResolution resolutionSpan] in *.
  - pose proof (truncate_bound m Hour ltac:(done)). case_decide; [| lia].
    apply aligned_gap; [by apply truncate_idem | done | lia].
  - pose proof (truncate_bound m Day ltac:(done)). case_decide; [| lia]. unfold Truncate in *.
    pose proof (Z.div_mod m Day ltac:(done)). pose proof (Z.div_mod b Day ltac:(done)).
    set (p := m / Day) in *. set (q := b / Day) in *. set (x := m mod Day) in *. set (y := b mod Day) in *. unfold Day, Hour, Second in *. lia.
Qed.

Lemma clear_overlaps excluded start end_ a b : start <= a < b -> b <= end_ ->
  Overlaps (Merge excluded start end_) a b = false <-> clear excluded a b.
Proof.
  intros Ha Hb. destruct (Merge_spec excluded start end_) as [Hsep Hcov]. apply separated_ordered in Hsep.
  rewrite <- not_true_iff_false, Overlaps_spec by (done || lia). unfold clear. rewrite Forall_forall. split.
  - intros Hn r Hr. destruct (decide (Start r < End r)); [| lia]. destruct (decide (End r <= a)); [lia |].
    destruct (decide (b <= Start r)); [lia |]. destruct Hn. exists (Z.max a (Start r)). split; [lia |]. apply Hcov.
    split; [lia |]. apply Exists_exists. exists r. split; [done |]. unfold inside. lia.
  - intros Hall (t & Ht & [_ Hc]%Hcov). apply Exists_exists in Hc as (r & Hr & Hin). specialize (Hall r Hr). unfold inside in Hin. lia.
Qed.

Lemma from_summaries_spec d ws soul start end_ excluded hs t : kv_inv d ->
  (forall m, live_mark d ws soul = Some m -> zero_time < m) -> start <= t ->
  from_summaries d ws soul start end_ excluded hs t = true <->
  summarised (live_mark d ws soul) start end_ excluded (HourSince hs) t.
Proof.
  intros Hi Hz Ht. unfold from_summaries, rolled, period, is_live, day_roll, hour_roll, whole_day, whole_hour, live_from, summarised, live_mark in *.
  cbn [liveHour liveDay hourSince w_end w_excluded truncateToResolution]. rewrite !kv_get_spec by done.
  destruct (kv_map d !! liveSinceKey ws soul) as [data|]; cbn [mbind option_bind] in *; [| by rewrite bool_decide_false by (intros []; done)].
  destruct (parse_time data) as [m|]; [| by rewrite bool_decide_false by (intros []; done)]. specialize (Hz m eq_refl).
  destruct (ceil_spec m Resolution1Hour) as [_ Hm]; [by left |].
  rewrite (bool_decide_true (ceilTo m Resolution1Hour <> zero_time)) by lia. cbn [andb].
  rewrite !truncate_idem by done. fold (Truncate t Hour) (Truncate t Day).
  pose proof (truncate_idem t Hour ltac:(done)) as Ah. pose proof (truncate_idem t Day ltac:(done)) as Ad.
  pose proof (ceil_le m (Truncate t Hour) Resolution1Hour ltac:(by left) Ah) as C1.
  pose proof (ceil_le m (Truncate t Day) Resolution1Day ltac:(by right) Ad) as C2.
  pose proof (ceil_le (HourSince hs) (Truncate t Hour) Resolution1Hour ltac:(by left) Ah) as C3.
  pose proof (truncate_bound t Hour ltac:(done)) as Bh.
  assert (t < ceilTo (HourSince hs) Resolution1Hour <-> Truncate t Hour < HourSince hs) as C4.
  { destruct (ceil_spec (HourSince hs) Resolution1Hour) as [As _]; [by left |]. cbn [truncateToResolution] in As.
    split; [intros; lia |]. intros Hlt. assert (Truncate t Hour < ceilTo (HourSince hs) Resolution1Hour) as Hlt' by lia.
    pose proof (aligned_gap _ _ Ah As Hlt'). lia. }
  unfold whole. rewrite orb_true_iff, !andb_true_iff, !negb_true_iff, !bool_decide_eq_true, C1, C2, C3, C4.
  assert (0 < Hour < Day) by done. pose proof (clear_overlaps excluded start end_ (Truncate t Day) (Truncate t Day + Day)) as K1.
  pose proof (clear_overlaps excluded start end_ (Truncate t Hour) (Truncate t Hour + Hour)) as K2. split.
  - intros [X|X]; destruct_and!; [right | left]; (split_and!; try done); [apply K1 | apply K2]; (lia || done).
  - intros [X|X]; destruct_and!; [right | left]; (split_and!; try done); [apply K2 | apply K1]; (lia || done).
Qed.

Section whole.
Context (d : D) (ws soul : string) (start end_ : Z) (excluded : list TimeRange) (hs : SLAHorizons) (H : list Judgment) (hz : horizon).
Hypothesis inv : kv_inv d.
Hypothesis history : kept (kv_map d) ws soul H hz.
Hypothesis bounds : 0 <= start < end_.
Hypothesis end_int64 : int64_range end_.
Hypothesis hour_kept : h_hour hz <= Z.max start (ceilTo (HourSince hs) Resolution1Hour).
Hypothesis day_kept : h_day hz <= start.

Lemma live_marker r : r = Resolution1Hour \/ r = Resolution1Day -> live_from d ws soul r <> zero_time -> h_live hz <= live_from d ws soul r.
Proof.
  intros Hr. unfold live_from. rewrite kv_get_spec by done. destruct (kv_map d !! liveSinceKey ws soul) as [data|] eqn:E; [| done].
  destruct (parse_time data) as [t|] eqn:Ep; [| done]. intros _. pose proof (kept_live _ _ _ _ _ history data t E Ep).
  destruct (ceil_spec t r Hr). lia.
Qed.

Lemma live_from_order : live_from d ws soul Resolution1Hour <= live_from d ws soul Resolution1Day.
Proof. unfold live_from. destruct (kv_get _ _); [done |]. destruct (parse_time _); [apply ceil_order | done]. Qed.

Lemma Unix_lt a b : a + Second <= b -> Unix a < Unix b.
Proof.
  intros Hab. unfold Unix. apply Z.lt_le_trans with ((a + 1 * Second) / Second); [rewrite Z.div_add by done; lia |].
  apply Z.div_le_mono; [done | lia].
Qed.

(** A summary read by the scan stands for its bucket. *)
Lemma scanned_bucket r from to (M : gmap Z JudgmentSummary) b : r = Resolution1Hour \/ r = Resolution1Day ->
  (forall unix, int64_range unix -> Unix from <= unix < Unix to -> M !! unix = kv_map d !! summary_key ws soul r unix ≫= unmarshal_summary) ->
  counted_since (kv_map d) ws soul H r (Z.max (h_live hz) (if decide (r = Resolution1Hour) then h_hour hz else h_day hz)) ->
  truncateToResolution b r = b -> 0 <= b < end_ -> from <= b -> b + Second <= to -> h_live hz <= b ->
  (if decide (r = Resolution1Hour) then h_hour hz else h_day hz) <= b ->
  counts_of (M !! Unix b) (count (during b (b + resolutionSpan r)) H) (count (up_during b (b + resolutionSpan r)) H).
Proof.
  intros Hr HM Hc Hb Hb0 Hf Ht Hl Hh. assert (int64_range b) as Hi by (unfold int64_range in *; lia).
  rewrite HM; [| by apply int64_Unix | split; [by apply Unix_mono | by apply Unix_lt]].
  destruct (bucket_count r b H ltac:(by destruct Hr as [->| ->]) Hb) as [<- <-]. apply tallied_counts, Hc; [done | done | lia].
Qed.

Abbreviation lh := (live_from d ws soul Resolution1Hour).
Abbreviation ld := (live_from d ws soul Resolution1Day).
Abbreviation since := (ceilTo (HourSince hs) Resolution1Hour).

Lemma since_hour : Truncate since Hour = since.
Proof. exact (proj1 (ceil_spec (HourSince hs) Resolution1Hour ltac:(by left))). Qed.

Lemma hourly_scanned : let from := Z.max start (Z.max lh since) in exists hourly,
  (if decide (lh <> zero_time /\ from < end_) then summariesByBucket kv_range d ws soul Resolution1Hour from end_ else inr ∅) = inr hourly /\
  (lh <> zero_time -> hours_exact hourly H from end_).
Proof.
  cbv zeta. set (from := Z.max start (Z.max lh since)). case_decide as Hd.
  - destruct (summaries_exact d ws soul Resolution1Hour from end_ inv (kept_spelled _ _ _ _ _ history _)) as (M & E & HM); [lia |].
    exists M. split; [done |]. intros Hlh h Ha Hf He. pose proof (live_marker Resolution1Hour ltac:(by left) Hlh).
    assert (Second < Hour) by done. assert (0 < Second) by done.
    apply (scanned_bucket Resolution1Hour from end_ M h ltac:(by left) HM (kept_hour _ _ _ _ _ history)); try done; try lia.
    rewrite decide_True by done. lia.
  - exists ∅. split; [done |]. intros Hlh h Ha Hf He. exfalso. apply Hd. split; [done |]. assert (0 < Hour) by done. lia.
Qed.

Lemma daily_scanned : let from := Z.max start ld in exists daily,
  (if decide (lh <> zero_time /\ HourSince hs <> zero_time /\ from < since) then summariesByBucket kv_range d ws soul Resolution1Day from since else inr ∅) = inr daily /\
  (lh <> zero_time -> forall day, Truncate day Day = day -> start <= day -> ld <= day -> day + Day <= end_ -> day < since ->
     counts_of (daily !! Unix day) (count (during day (day + Day)) H) (count (up_during day (day + Day)) H)).
Proof.
  cbv zeta. set (from := Z.max start ld). pose proof live_from_order as Hord. case_decide as Hd.
  - destruct (summaries_exact d ws soul Resolution1Day from since inv (kept_spelled _ _ _ _ _ history _)) as (M & E & HM); [lia |].
    exists M. split; [done |]. intros Hlh day Ha Hs Hl He Hsn. pose proof (live_marker Resolution1Hour ltac:(by left) Hlh) as Hlm.
    pose proof (aligned_gap _ _ (day_aligned _ Ha) since_hour Hsn).
    assert (Second < Hour < Day) by done. assert (0 < Second) by done.
    apply (scanned_bucket Resolution1Day from since M day ltac:(by right) HM (kept_day _ _ _ _ _ history)); try done; try lia.
    rewrite decide_False by done. lia.
  - exists ∅. split; [done |]. intros Hlh day Ha Hs Hl He Hsn. exfalso. apply Hd. split; [done |]. split; [| lia].
    intros Hz. rewrite Hz in Hsn. unfold ceilTo in Hsn. rewrite decide_True in Hsn by done. unfold zero_time in Hsn. lia.
Qed.

(** The tally of a store that keeps the history. *)
Lemma collect_exact : ws <> "" -> 0 <= h_live hz -> h_raw hz <= Z.max start (RawSince hs) ->
  exists t, CollectSLA kv_range math_Log d ws soul start end_ excluded hs = inr t /\
    Checks t = count (accounted (live_mark d ws soul) start end_ excluded hs) H /\
    Up t = count (up_accounted (live_mark d ws soul) start end_ excluded hs) H.
Proof.
  intros Hws Hlz Hrk. assert (forall m, live_mark d ws soul = Some m -> zero_time < m) as Hmark.
  { intros m (data & Hd & Hm)%bind_Some. pose proof (kept_live _ _ _ _ _ history data m Hd Hm). assert (zero_time < 0) by done. lia. } unfold CollectSLA, defaultWorkspace. rewrite (decide_False (P := ws = "")) by done.
  rewrite bool_decide_true by lia. cbn [negb]. set (ex := Merge excluded start end_).
  destruct (maxTime_three start lh since) as [-> _]; [unfold zero_time; lia |]. destruct (maxTime_three start ld ld) as [_ ->]; [unfold zero_time; lia |].
  destruct (Merge_spec excluded start end_) as [Hsep Hcov]. apply separated_ordered in Hsep. fold ex in Hsep, Hcov.
  destruct hourly_scanned as (hourly & -> & Hhourly). destruct daily_scanned as (daily & -> & Hdaily).
  set (w := MkWalk end_ ex lh ld since hourly daily).
  destruct (walk_loop math_Log (hours_between start end_) w start zero_tally []) as [t raw] eqn:Ew.
  assert (is_live w = true -> lh <> zero_time) as Hlive by (unfold is_live; by intros ?%bool_decide_eq_true).
  destruct (walk_loop_spec w start H since_hour live_from_order) with (fuel := hours_between start end_) (c := start) (t := zero_tally)
    (raw := @nil TimeRange) (t' := t) (raw' := raw) as ((Ho & _ & Hrc) & Hck & Hup); try done.
  { intros Hl. by apply Hhourly, Hlive. }
  { intros Hl. by apply Hdaily, Hlive. }
  { cbn. lia. }
  { left. by left. }
  { intros _ day _ Hs _ _ Hlt. lia. }
  { split; [repeat constructor |]. split; [constructor |]. intros x. rewrite covered_nil. lia. }
  { apply hours_between_enough. }
  assert (forall x, covered (rev raw) x <-> start <= x < end_ /\ rolled w start x = false) as Hrc'.
  { intros x. rewrite (covered_perm (rev raw) raw); [apply Hrc | symmetry; apply Permutation_rev]. }
  destruct (raw_ranges_spec d ws soul H hz ex inv history Hws Hsep (RawSince hs) (rev raw) t Ho) as (t' & -> & Hck' & Hup').
  { apply Forall_forall. intros r Hr. destruct Ho as [Hnon _]. rewrite Forall_forall in Hnon. specialize (Hnon r Hr). unfold nonempty in Hnon.
    assert (covered (rev raw) (Start r)) as Hc by (apply Exists_exists; exists r; split; [done |]; unfold inside; lia).
    apply Hrc' in Hc as [Hc _]. lia. }
  exists t'. split; [done |]. rewrite Hck', Hup', Hck, Hup. cbn [zero_tally Checks Up w_end w]. rewrite !Z.add_0_l.
  assert (forall x, start <= x -> rolled w start x = true <-> summarised (live_mark d ws soul) start end_ excluded (HourSince hs) x) as Hsame
    by (intros x Hx; by apply (from_summaries_spec d ws soul start end_ excluded hs x)).
  pose proof (fun x => rolled_open w start x Hsep) as Hopen. cbn [w_excluded w] in Hopen.
  split; symmetry; apply count_or; intros j _; unfold up_accounted, accounted, up_roll_during, roll_during, up_read_raw, read_raw, during;
    rewrite ?Hrc'; specialize (Hopen (jd_Timestamp j)); specialize (Hcov (jd_Timestamp j)); specialize (Hsame (jd_Timestamp j)); clear -Hopen Hcov Hsame;
    (destruct (rolled w start (jd_Timestamp j)); [specialize (Hopen eq_refl) |]; intuition congruence).
Qed.
End whole.

End collect.
