(* ===== verification/SlaExamples.v ===== *)
(** * The history of a soul on a run

    Checks saved, purged and reported with a concrete codec: the theorems of
    TimeSeriesProps.v, Compaction.v, History.v and SlaExact.v applied. *)
From stdpp Require Import base gmap strings list sorting countable.
From Stdlib Require Import ZArith Lia Strings.Byte Floats.SpecFloat.
From S2P Require Import Prelude GoStrings GoFloat BTree Wal Engine Store KeyValue Index LogStore Fsm Flap Sla TimeSeries TimeSeriesProps Compaction History SlaExact.

Open Scope Z_scope.

(** ** A concrete codec: records as numbers

    Fields become a list of numbers, so that the sizes add up. *)

Definition float_code (x : float64) : list positive :=
  match x with
  | S754_zero s => [encode 0; encode s] | S754_infinity s => [encode 1; encode s] | S754_nan => [encode 2]
  | S754_finite s m e => [encode 3; encode s; m; encode e]
  end.
Definition float_decode (c : list positive) : option float64 :=
  match c with
  | [k; s] => k ← decode k; s ← decode s; Some (if decide (k = 0) then S754_zero s else S754_infinity s)
  | [_] => Some S754_nan
  | [_; s; m; e] => s ← decode s; e ← decode e; Some (S754_finite s m e)
  | _ => None
  end.
#[export] Instance float64_countable : Countable float64.
Proof. refine (inj_countable float_code float_decode _). intros []; cbn [float_code float_decode]; rewrite ?countable.decode_encode; done. Defined.

#[export] Instance SourceSnapshot_countable : Countable SourceSnapshot.
Proof.
  refine (inj_countable (fun s => [encode (sn_Count s); encode (sn_SuccessCount s); encode (sn_MinLatency s); encode (sn_MaxLatency s); encode (sn_AvgLatency s)])
    (fun l => match l with
              | [a; b; c; d; e] => a ← decode a; b ← decode b; c ← decode c; d ← decode d; e ← decode e; Some (MkSnapshot a b c d e)
              | _ => None
              end) _). intros []. by rewrite !countable.decode_encode.
Defined.

#[export] Instance Check_eq_dec : EqDecision Judgment.
Proof. solve_decision. Defined.
#[export] Instance Check_countable : Countable Judgment.
Proof.
  refine (inj_countable (fun j => [encode (jd_ID j); encode (jd_SoulID j); encode (jd_WorkspaceID j); encode (jd_Timestamp j); encode (jd_Duration j);
      encode (jd_Status j : string); encode (jd_PacketLoss j)])
    (fun l => match l with
              | [a; b; c; d; e; f; g] => a ← decode a; b ← decode b; c ← decode c; d ← decode d; e ← decode e; f ← decode f; g ← decode g; Some (MkCheck a b c d e f g)
              | _ => None
              end) _). intros []. by rewrite !countable.decode_encode.
Defined.

#[export] Instance Summary_eq_dec : EqDecision JudgmentSummary.
Proof. solve_decision. Defined.
#[export] Instance Summary_countable : Countable JudgmentSummary.
Proof.
  refine (inj_countable (fun s => [encode (sm_SoulID s); encode (sm_WorkspaceID s); encode (sm_Resolution s); encode (BucketTime s); encode (Count s);
      encode (SuccessCount s); encode (FailureCount s); encode (MinLatency s); encode (MaxLatency s); encode (AvgLatency s); encode (P50Latency s);
      encode (P95Latency s); encode (P99Latency s); encode (UptimePercent s); encode (PacketLossAvg s); encode (sm_Sources s)])
    (fun l => match l with
              | [a; b; c; d; e; f; g; h; i; j; k; l; m; n; o; p] =>
                  a ← decode a; b ← decode b; c ← decode c; d ← decode d; e ← decode e; f ← decode f; g ← decode g; h ← decode h; i ← decode i;
                  j ← decode j; k ← decode k; l ← decode l; m ← decode m; n ← decode n; o ← decode o; p ← decode p;
                  Some (MkSummary a b c d e f g h i j k l m n o p)
              | _ => None
              end) _). intros []. by rewrite !countable.decode_encode.
Defined.

Definition number {A} `{Countable A} (x : A) : bytes := digits (encode x).
Definition unnumber {A} `{Countable A} (b : bytes) : option A := p ← undigits b; decode p.

Lemma unnumber_number {A} `{Countable A} (x : A) : unnumber (number x) = Some x.
Proof. unfold unnumber, number. rewrite undigits_digits. cbn [mbind option_bind]. apply countable.decode_encode. Qed.

Definition drop_empty (s : JudgmentSummary) : JudgmentSummary :=
  MkSummary (sm_SoulID s) (sm_WorkspaceID s) (sm_Resolution s) (BucketTime s) (Count s) (SuccessCount s) (FailureCount s) (MinLatency s)
    (MaxLatency s) (AvgLatency s) (P50Latency s) (P95Latency s) (P99Latency s) (UptimePercent s) (PacketLossAvg s)
    (match sm_Sources s with Some m => if decide (m = ∅) then None else Some m | None => None end).

#[export] Instance number_codec : TSCodec.
Proof.
  refine {| marshal_judgment j := Some (number (read_back j)); unmarshal_judgment := unnumber;
            marshal_summary s := Some (number (drop_empty s)); unmarshal_summary := unnumber;
            format_time := number; parse_time := unnumber |}.
  - intros j b [= <-]. apply unnumber_number.
  - intros s b [= <-]. exists (drop_empty s). split; [apply unnumber_number | done].
  - intros t. apply unnumber_number.
Defined.

(** ** Saving *)

Definition ok_call : call_env := CallEnv (fun _ => sample_env) sample_env.
Lemma ok_call_ok : call_env_ok ok_call.
Proof. by repeat split. Qed.

Definition noon : Z := 1700000000 * Second.
Definition check (id : string) (t : Z) (status : string) : Judgment := MkCheck id "web" "acme" t (5 * 1000000) status (float_of 0).

Abbreviation TS := (TimeSeriesStore (D := gmap string bytes)).
Definition empty_ts : TS := MkTS ∅ no_indexes ∅.
Definition save (ts : TS) (now : Z) (j : Judgment) : TS := (SaveJudgment ts ok_call "" "default" now j).1.

Definition c1 : Judgment := check "j1" noon "alive".
Definition c2 : Judgment := check "j2" (noon + 60 * Second) "dead".
Definition c3 : Judgment := check "j3" (noon + 2 * Hour) "alive".
Definition ts1 : TS := save empty_ts noon c1.
Definition ts2 : TS := save ts1 noon c2.
Definition ts3 : TS := save ts2 noon c3.

Definition fresh_store : horizon := MkHorizon 0 0 0 0.

Ltac plain_segments := unfold slash_free; repeat first [apply List.Forall_nil | apply List.Forall_cons]; vm_compute; intuition discriminate.
Ltac small := unfold int64_range; vm_compute; split; (reflexivity || discriminate).

Lemma fresh_computed m j :
  forallb (fun p => negb (String.eqb (jd_ID p) (jd_ID j))) (raw_judgments m (jd_WorkspaceID j) (jd_SoulID j)) = true -> fresh m j.
Proof.
  rewrite forallb_forall. intros Hall p Hp%list_elem_of_In Heq. specialize (Hall p Hp). rewrite Heq, String.eqb_refl in Hall. done.
Qed.

Lemma saved ts now j : (SaveJudgment ts ok_call "" "default" now j).2 = None -> SaveJudgment ts ok_call "" "default" now j = (save ts now j, None).
Proof. intros Hs. unfold save. rewrite <- Hs. apply surjective_pairing. Qed.

(** One more check of the soul, with an ID not used yet. *)
Ltac lived ts before :=
  match goal with
  | |- life _ _ ?ts' (?H ++ [read_back ?j]) _ =>
      let X := fresh in pose proof (life_save "acme" "web" ts H fresh_store ok_call "" "default" noon j ts' None before ok_call_ok) as X;
      rewrite decide_True in X by done; apply X;
      [apply saved; vm_compute; reflexivity | done | plain_segments | small | vm_compute; discriminate | vm_compute; discriminate |
       apply fresh_computed; vm_compute; reflexivity]
  end.

Definition h1 : list Judgment := [] ++ [read_back c1].
Definition h2 : list Judgment := h1 ++ [read_back c2].
Definition h3 : list Judgment := h2 ++ [read_back c3].

Lemma life1 : life "acme" "web" ts1 h1 fresh_store.
Proof. unfold h1. lived empty_ts (life_new "acme" "web" (∅ : gmap string bytes) fresh_store I eq_refl). Qed.
Lemma life2 : life "acme" "web" ts2 h2 fresh_store.
Proof. unfold h2. lived ts1 life1. Qed.
Lemma life3 : life "acme" "web" ts3 h3 fresh_store.
Proof. unfold h3. lived ts2 life2. Qed.

(** Three days later the minutes and hours are compacted and old data purged:
    records after an hour, hours after a day. *)
Definition later_on : Z := noon + 3 * Day.
Definition ts4 : TS :=
  let s := runCompaction (ts_db ts3, ts_idx ts3) (fun _ _ => ok_call) (MkCompaction Hour Hour Hour Hour) (fun _ => later_on) in MkTS s.1 s.2 (liveMarked ts3).
Definition ts5 : TS :=
  let s := runCleanup (ts_db ts4, ts_idx ts4) (fun _ _ => ok_call) (MkRetention Hour Day Day Day None) later_on in MkTS s.1 s.2 (liveMarked ts4).
Definition purged : horizon := MkHorizon 0 (later_on - Hour) (later_on - Day) 0.

Lemma life5 : life "acme" "web" ts5 h3 purged.
Proof.
  pose proof (life_compaction "acme" "web" ts3 h3 fresh_store (fun _ _ => ok_call) (MkCompaction Hour Hour Hour Hour) (fun _ => later_on) _ life3
    (fun _ _ => ok_call_ok) eq_refl) as Hc.
  exact (life_cleanup "acme" "web" ts4 h3 fresh_store (fun _ _ => ok_call) (MkRetention Hour Day Day Day None) later_on _ Hc (fun _ _ => ok_call_ok) eq_refl).
Qed.

Lemma plain_soul : slash_free ["acme"; "web"].
Proof. plain_segments. Qed.

Lemma kept_of ts H hz : life "acme" "web" ts H hz -> kept (ts_db ts) "acme" "web" H hz.
Proof. intros Hl. by destruct (life_sound _ _ _ _ _ plain_soul Hl) as (_ & _ & K & _). Qed.

(** ** The theorems on this history *)

Lemma save_extends_history_witness :
  kv_inv (ts_db ts2) /\ kept (ts_db ts2) "acme" "web" h2 fresh_store.
Proof.
  pose proof (save_extends_history ts1 ok_call "" "default" noon c2 ts2 None "acme" "web" h1 fresh_store) as X. cbv zeta in X.
  rewrite decide_True in X by done. apply X; clear X.
  - exact I.
  - exact ok_call_ok.
  - apply saved. vm_compute. reflexivity.
  - done.
  - plain_segments.
  - plain_segments.
  - small.
  - vm_compute. discriminate.
  - exact (kept_of _ _ _ life1).
  - vm_compute. discriminate.
  - apply fresh_computed. vm_compute. reflexivity.
Defined.

Lemma history_survives_witness : kv_inv (ts_db ts5) /\ kept (ts_db ts5) "acme" "web" h3 purged.
Proof. exact (history_survives "acme" "web" ts5 h3 purged plain_soul life5). Defined.

(** Before anything is purged a report has all three checks. After the purge
    the report of those days reads the third check from a day summary; the
    first two are from before the first whole hour and day that were counted
    live, and their records are gone. *)
Definition midnight : Z := Truncate noon Day + Day.


(** The first two of three judgments, which are in two different hours. *)
Lemma stream_exact_witness :
  let export := StreamJudgments (E := unit) kv_range (ts_db ts3) "acme" "web" (noon - Hour) (noon + 5 * Hour) 2 (fun _ => None) in
  (exists l, l ≡ₚ filter (during (noon - Hour) (noon + 5 * Hour)) (raw_judgments (ts_db ts3) "acme" "web") /\
     StronglySorted not_after l /\ export = exported (deliver 2 (fun _ => None) l [])) /\
  export = (h2, true, None).
Proof.
  split.
  - refine (stream_exact (ts_db ts3) "acme" "web" I (kept_keyed _ _ _ _ _ (kept_of _ _ _ life3)) _ (noon - Hour) (noon + 5 * Hour) 2 (fun _ => None)). discriminate.
  - vm_compute. reflexivity.
Defined.

(** ** Where the sources and the summaries differ *)

Definition checks_of (r : db_error + Tally) : option Z := match r with inr t => Some (Checks t) | inl _ => None end.
Definition ts_embalmed : TS := save empty_ts noon (check "e1" (noon + 2 * Hour) "embalmed").

(** An embalmed judgment is one check of a whole hour, read from its summary,
    and none of the same hour less its last nanosecond, read from records. *)
Lemma embalmed_counted_by_summary :
  let h := Truncate (noon + 2 * Hour) Hour in
  let report end_ := checks_of (CollectSLA kv_range (fun x => x) (ts_db ts_embalmed) "acme" "web" h end_ [] (MkHorizons zero_time zero_time)) in
  report (h + Hour) = Some 1 /\ report (h + Hour - 1) = Some 0.
Proof. vm_compute. split; reflexivity. Qed.

(** A summary of a minute whose first one retention has deleted replaces
    what the rollup had counted for that minute, however much that was. *)
Definition minute (n : Z) : JudgmentSummary :=
  MkSummary "web" "acme" "1min" noon n n 0 (float_of 5) (float_of 5) (float_of 5) (float_of 0) (float_of 0) (float_of 0) (float_of 100) (float_of 0) None.
Definition five_key : string := summary_key "acme" "web" Resolution5Min (Unix noon).
Definition roll (m : gmap string bytes) (n : Z) : gmap string bytes :=
  let '(sources, changed) := rollupSources m five_key {[FormatInt (Unix noon) := minute n]} in
  if changed then (aggregateAndSave m ok_call "acme" "web" Resolution5Min noon sources).1 else m.

Lemma late_check_shrinks_rollup :
  let counted m := match m !! five_key with Some data => Count <$> unmarshal_summary data | None => None end in
  counted (roll ∅ 10) = Some 10 /\ counted (roll (roll ∅ 10) 1) = Some 1.
Proof. vm_compute. split; reflexivity. Qed.
