(* ===== verification/Alert.v ===== *)
(** * Alerting

    The alert manager's state and decisions (src/internal/alert/manager.go,
    replication.go): failure streaks, the clock of a status, deduplication of
    notifications with a cooldown, incidents and their escalation, rate limits,
    and the reconstruction of this state when a node takes over a soul. Each
    critical section is a function of the manager; the clock, generated IDs
    and storage outcomes are arguments. The conditions that compute with
    floating-point numbers (failure_rate, percentage, anomaly, threshold) are
    an argument too. Statistics, hooks, logging and delivery are left out. *)
From stdpp Require Import base gmap strings list sorting.
From Stdlib Require Import ZArith Lia.
From S2P Require Import Prelude Flap.

Open Scope Z_scope.

(** ** Data *)

Definition SoulDegraded : SoulStatus := "degraded".

Definition second : Z := 1000000000.
Definition minute : Z := 60 * second.

Inductive AlertCondition := Condition {
  c_Type : string;
  c_Threshold : Z;
  c_From : string;
  c_To : string;
  c_Status : string;
  c_Duration : Z;
  c_SubConditions : list AlertCondition;
  c_Logic : string;
}.

Record RuleScope := Scope {
  sc_Type : string;
  sc_Tags : list string;
  sc_SoulTypes : list string;
  sc_SoulIDs : list string;
}.

Record EscalationStage := Stage {
  st_Wait : Z;
  st_Channels : list string;
  st_Condition : string;
}.

Record AlertRule := Rule {
  r_ID : string;
  r_Enabled : bool;
  r_WorkspaceID : string;
  r_Scope : RuleScope;
  r_Conditions : list AlertCondition;
  r_Severity : string;
  r_Cooldown : Z;
  r_AutoResolve : bool;
  r_Escalation : option (list EscalationStage);
}.

(** The soul a judgment is about. *)
Record AlertSoul := MkAlertSoul {
  as_ID : string;
  as_WorkspaceID : string;
  as_Tags : list string;
  as_Type : string;
}.

Record Judgment := MkJudgment {
  j_SoulID : string;
  j_Status : SoulStatus;
  j_Timestamp : Z;
  j_Flapping : bool;
  j_FlapChange : flap_change;
  j_FlapBaseline : SoulStatus;
}.

Record AlertEvent := Event {
  e_ID : string;
  e_RuleID : string;
  e_Kind : string;
  e_SoulID : string;
  e_WorkspaceID : string;
  e_Status : SoulStatus;
  e_PrevStatus : SoulStatus;
  e_Severity : string;
  e_Timestamp : Z;
}.

Record AlertHistoryEntry := HistoryEntry {
  h_Key : string;
  h_ChannelID : string;
  h_Count : Z;
  h_FirstSent : Z;
  h_LastSent : Z;
  h_SoulStatus : SoulStatus;
}.

Inductive IncidentStatus := IncidentOpen | IncidentAcked | IncidentResolved.

#[export] Instance IncidentStatus_eq_dec : EqDecision IncidentStatus.
Proof. solve_decision. Defined.

Record Incident := MkIncident {
  i_ID : string;
  i_RuleID : string;
  i_SoulID : string;
  i_WorkspaceID : string;
  i_Status : IncidentStatus;
  i_Severity : string;
  i_StartedAt : Z;
  i_AckedAt : option Z;
  i_ResolvedAt : option Z;
  i_AckedBy : string;
  i_ResolvedBy : string;
  i_Events : list AlertEvent;
  i_EscalationLevel : nat;
  i_LastEscalatedAt : option Z;
}.

Record statusHold := Hold { hold_Status : SoulStatus; hold_Since : Z }.

Record Manager := MkManager {
  rules : gmap string AlertRule;
  failureStreak : gmap string Z;
  statusSince : gmap string statusHold;
  flapBaselines : gmap string SoulStatus;
  history : gmap string AlertHistoryEntry;
  dedupClaims : gmap string string;
  incidents : gmap string Incident;
  queue : list AlertEvent;
}.

Definition set_failureStreak f (m : Manager) : Manager :=
  MkManager (rules m) f (statusSince m) (flapBaselines m) (history m) (dedupClaims m) (incidents m) (queue m).
Definition set_statusSince f (m : Manager) : Manager :=
  MkManager (rules m) (failureStreak m) f (flapBaselines m) (history m) (dedupClaims m) (incidents m) (queue m).
Definition set_flapBaselines f (m : Manager) : Manager :=
  MkManager (rules m) (failureStreak m) (statusSince m) f (history m) (dedupClaims m) (incidents m) (queue m).
Definition set_dedup h c (m : Manager) : Manager :=
  MkManager (rules m) (failureStreak m) (statusSince m) (flapBaselines m) h c (incidents m) (queue m).
Definition set_incidents f (m : Manager) : Manager :=
  MkManager (rules m) (failureStreak m) (statusSince m) (flapBaselines m) (history m) (dedupClaims m) f (queue m).
Definition set_queue f (m : Manager) : Manager :=
  MkManager (rules m) (failureStreak m) (statusSince m) (flapBaselines m) (history m) (dedupClaims m) (incidents m) f.

Definition queue_capacity : nat := 1000.

Definition workspaceOrDefault (workspace : string) : string :=
  if decide (workspace = "") then "default" else workspace.

(** ** Rules and conditions *)

Definition ruleApplies (rule : AlertRule) (soul : AlertSoul) : bool :=
  if decide (workspaceOrDefault (r_WorkspaceID rule) <> workspaceOrDefault (as_WorkspaceID soul)) then false else
  let scope := r_Scope rule in
  let scopeType :=
    if decide (sc_Type scope <> "") then sc_Type scope else
    match sc_SoulIDs scope, sc_Tags scope, sc_SoulTypes scope with
    | _ :: _, _, _ => "specific"
    | [], _ :: _, _ => "tag"
    | [], [], _ :: _ => "type"
    | [], [], [] => "all"
    end in
  if decide (scopeType = "all") then true else
  if decide (scopeType = "specific") then bool_decide (as_ID soul ∈ sc_SoulIDs scope) else
  if decide (scopeType = "tag") then existsb (fun tag => bool_decide (tag ∈ as_Tags soul)) (sc_Tags scope) else
  if decide (scopeType = "type") then bool_decide (as_Type soul ∈ sc_SoulTypes scope) else false.

Definition streak_key (ruleID soulID : string) : string := ruleID +:+ ":" +:+ soulID.

Definition maxStreak : Z := 1000000.

Definition streak (m : Manager) (key : string) : Z := default 0 (failureStreak m !! key).

Definition updateFailureStreak (ruleID soulID : string) (status : SoulStatus) (m : Manager) : Manager :=
  let key := streak_key ruleID soulID in
  if decide (status = SoulDead) then
    if decide (streak m key < maxStreak) then set_failureStreak (<[key:=streak m key + 1]> (failureStreak m)) m else m
  else set_failureStreak (delete key (failureStreak m)) m.

Definition failureStreakCount (m : Manager) (ruleID soulID : string) : Z := streak m (streak_key ruleID soulID).

Definition noteStatus (soulID : string) (status : SoulStatus) (now : Z) (m : Manager) : Manager :=
  match statusSince m !! soulID with
  | Some hold =>
      if decide (hold_Status hold = status) then m
      else set_statusSince (<[soulID:=Hold status now]> (statusSince m)) m
  | None => set_statusSince (<[soulID:=Hold status now]> (statusSince m)) m
  end.

Definition statusHeldFor (m : Manager) (soulID : string) (status : SoulStatus) (dwell now : Z) : bool :=
  if decide (dwell <= 0) then true else
  match statusSince m !! soulID with
  | Some hold => if decide (hold_Status hold <> status) then false else bool_decide (now - hold_Since hold >= dwell)
  | None => false
  end.

Definition statusForCondition (m : Manager) (cond : AlertCondition) (j : Judgment) (now : Z) : bool :=
  if decide (j_Status j <> c_Status cond) then false
  else statusHeldFor m (j_SoulID j) (j_Status j) (c_Duration cond) now.

Section conditions.
(** The conditions that compare measured numbers. *)
Context (numeric : AlertCondition -> Judgment -> bool).

Definition is_numeric (type : string) : bool :=
  bool_decide (type ∈ ["failure_rate"; "percentage"; "anomaly"; "threshold"]).

Definition compound_result (cond : AlertCondition) (matchedCount total : nat) : bool :=
  if decide (c_Logic cond = "or") then bool_decide (0 < matchedCount)%nat else
  if decide (c_Logic cond = "majority") then bool_decide (total / 2 < matchedCount)%nat else
  if decide (c_Logic cond = "at_least") then
    bool_decide (Z.of_nat matchedCount >= if decide (c_Threshold cond <= 0) then 1 else c_Threshold cond)
  else bool_decide (matchedCount = total).

(** [evaluateCondition] with [checkCompound]. *)
Fixpoint evaluateCondition (m : Manager) (cond : AlertCondition) (prev : SoulStatus) (j : Judgment) (now : Z) : bool :=
  let type := c_Type cond in
  if decide (type = "compound") then
    let subs := c_SubConditions cond in
    let matched := length (filter (fun b : bool => b = true) (map (fun c => evaluateCondition m c prev j now) subs)) in
    match subs with [] => false | _ => compound_result cond matched (length subs) end
  else
  if decide (type = "status_change") then bool_decide (prev = c_From cond /\ j_Status j = c_To cond) else
  if decide (type = "status_for") then statusForCondition m cond j now else
  if decide (type = "degraded") then bool_decide (j_Status j = SoulDegraded) else
  if decide (type = "recovery") then bool_decide (prev = SoulDead /\ j_Status j = SoulAlive) else
  if is_numeric type then numeric cond j else false.

Definition checkCondition (m : Manager) (ruleID : string) (prev : SoulStatus) (j : Judgment) (now : Z)
    (cond : AlertCondition) : bool :=
  if decide (c_Type cond = "consecutive_failures")
  then bool_decide (failureStreakCount m ruleID (j_SoulID j) >= c_Threshold cond)
  else evaluateCondition m cond prev j now.

(** Any one condition triggers the rule. *)
Definition checkConditions (m : Manager) (rule : AlertRule) (prev : SoulStatus) (j : Judgment) (now : Z) : bool :=
  existsb (checkCondition m (r_ID rule) prev j now) (r_Conditions rule).
End conditions.

(** ** Deduplication *)

Definition dedupStatus (e : AlertEvent) : SoulStatus :=
  if decide (e_Kind e <> "") then e_Kind e else e_Status e.

Definition dedupKey (ruleID soulID : string) (status : SoulStatus) : string :=
  "dedup:" +:+ ruleID +:+ ":" +:+ soulID +:+ ":" +:+ status.

Definition dedup_window (rule : AlertRule) : Z :=
  if decide (r_Cooldown rule = 0) then 5 * minute else r_Cooldown rule.

Definition isDuplicate (rule : AlertRule) (e : AlertEvent) (now : Z) (m : Manager) : Manager * bool :=
  let status := dedupStatus e in
  let key := dedupKey (r_ID rule) (e_SoulID e) status in
  let claim h := set_dedup h (<[key:=e_ID e]> (dedupClaims m)) m in
  match history m !! key with
  | None => (claim (<[key:=HistoryEntry key (r_ID rule) 1 now now status]> (history m)), false)
  | Some entry =>
      if decide (now - h_LastSent entry >= dedup_window rule) then
        (claim (<[key:=HistoryEntry (h_Key entry) (h_ChannelID entry) 1 now now (h_SoulStatus entry)]> (history m)), false)
      else if decide (h_SoulStatus entry <> status) then
        (claim (<[key:=HistoryEntry (h_Key entry) (h_ChannelID entry) 1 now now status]> (history m)), false)
      else (m, true)
  end.

Definition releaseDedupLocked (e : AlertEvent) (m : Manager) : Manager :=
  if decide (e_RuleID e = "") then m else
  let key := dedupKey (e_RuleID e) (e_SoulID e) (dedupStatus e) in
  if decide (dedupClaims m !! key = Some (e_ID e))
  then set_dedup (delete key (history m)) (delete key (dedupClaims m)) m else m.

Definition enqueueAlert (rule : AlertRule) (e : AlertEvent) (now : Z) (m : Manager) : Manager :=
  match isDuplicate rule e now m with
  | (m, true) => m
  | (m, false) =>
      if decide (length (queue m) < queue_capacity)%nat then set_queue (queue m ++ [e]) m
      else releaseDedupLocked e m
  end.

(** A record shared by another node. *)
Definition sharedHistoryKey (key : string) : bool := String.prefix "dedup:" key || String.prefix "ratelimit:" key.

Definition LoadDedupState (entry : AlertHistoryEntry) (m : Manager) : Manager :=
  let key := h_Key entry in
  if negb (sharedHistoryKey key) then m else
  match history m !! key with
  | Some existing =>
      if decide (h_LastSent existing > h_LastSent entry) then m else
      set_dedup (<[key:=entry]> (history m))
        (if decide (h_LastSent existing < h_LastSent entry) then delete key (dedupClaims m) else dedupClaims m) m
  | None => set_dedup (<[key:=entry]> (history m)) (dedupClaims m) m
  end.

Definition UnloadDedupState (key : string) (m : Manager) : Manager :=
  set_dedup (delete key (history m)) (delete key (dedupClaims m)) m.

(** ** Rate limits *)

Record RateLimitConfig := RateLimit {
  rl_MaxAlerts : Z;
  rl_Window : Z;
}.

Definition rateLimitStep (key channelID : string) (cfg : RateLimitConfig) (status : SoulStatus) (now : Z)
    (m : Manager) : Manager * bool :=
  match history m !! key with
  | None =>
      (set_dedup (<[key:=HistoryEntry key channelID 1 now now status]> (history m)) (dedupClaims m) m, false)
  | Some entry =>
      let put count first :=
        set_dedup (<[key:=HistoryEntry (h_Key entry) (h_ChannelID entry) count first now (h_SoulStatus entry)]>
                     (history m)) (dedupClaims m) m in
      if decide (now - h_FirstSent entry > rl_Window cfg) then (put 1 now, false) else
      if decide (h_Count entry >= rl_MaxAlerts cfg) then (put (h_Count entry) (h_FirstSent entry), true)
      else (put (h_Count entry + 1) (h_FirstSent entry), false)
  end.

(** ** Incidents *)

Definition unresolved (i : Incident) : bool := negb (bool_decide (i_Status i = IncidentResolved)).

Definition matches (ruleID soulID : string) (i : Incident) : bool :=
  bool_decide (i_RuleID i = ruleID) && bool_decide (i_SoulID i = soulID) && unresolved i.

(** The first match of the loop over the map. *)
Definition open_incident (ruleID soulID : string) (m : Manager) : option Incident :=
  List.find (matches ruleID soulID) (map snd (map_to_list (incidents m))).

Definition put_incident (i : Incident) (m : Manager) : Manager := set_incidents (<[i_ID i:=i]> (incidents m)) m.

Definition with_events (events : list AlertEvent) (i : Incident) : Incident :=
  MkIncident (i_ID i) (i_RuleID i) (i_SoulID i) (i_WorkspaceID i) (i_Status i) (i_Severity i) (i_StartedAt i)
    (i_AckedAt i) (i_ResolvedAt i) (i_AckedBy i) (i_ResolvedBy i) events (i_EscalationLevel i) (i_LastEscalatedAt i).

Definition resolved_by (who : string) (now : Z) (i : Incident) : Incident :=
  MkIncident (i_ID i) (i_RuleID i) (i_SoulID i) (i_WorkspaceID i) IncidentResolved (i_Severity i) (i_StartedAt i)
    (i_AckedAt i) (Some now) (i_AckedBy i) who (i_Events i) (i_EscalationLevel i) (i_LastEscalatedAt i).

Definition acked_by (who : string) (now : Z) (i : Incident) : Incident :=
  MkIncident (i_ID i) (i_RuleID i) (i_SoulID i) (i_WorkspaceID i) IncidentAcked (i_Severity i) (i_StartedAt i)
    (Some now) (i_ResolvedAt i) who (i_ResolvedBy i) (i_Events i) (i_EscalationLevel i) (i_LastEscalatedAt i).

Definition escalated (now : Z) (i : Incident) : Incident :=
  MkIncident (i_ID i) (i_RuleID i) (i_SoulID i) (i_WorkspaceID i) (i_Status i) (i_Severity i) (i_StartedAt i)
    (i_AckedAt i) (i_ResolvedAt i) (i_AckedBy i) (i_ResolvedBy i) (i_Events i) (S (i_EscalationLevel i)) (Some now).

(** [newID] is what [generateIncidentID] returns. *)
Definition recordIncident (rule : AlertRule) (soul : AlertSoul) (e : AlertEvent) (newID : string) (m : Manager) : Manager :=
  match open_incident (r_ID rule) (as_ID soul) m with
  | Some inc => put_incident (with_events (i_Events inc ++ [e]) inc) m
  | None =>
      put_incident (MkIncident newID (r_ID rule) (as_ID soul) (as_WorkspaceID soul) IncidentOpen (e_Severity e)
                      (e_Timestamp e) None None "" "" [e] 0 None) m
  end.

Definition autoResolveOpenIncident (ruleID : string) (soul : AlertSoul) (now : Z) (m : Manager) : Manager :=
  match open_incident ruleID (as_ID soul) m with
  | Some inc => put_incident (resolved_by "auto-resolved" now inc) m
  | None => m
  end.

(** [updateIncident] releases the lock for the write to storage: the copy
    taken before it, and what a successful write makes of the incident that
    is there by then. *)
Definition updateIncident_copy (m : Manager) (incidentID workspace : string) (mutate : Incident -> Incident) :
    option Incident :=
  inc ← incidents m !! incidentID;
  if decide (workspaceOrDefault (i_WorkspaceID inc) <> workspaceOrDefault workspace) then None
  else Some (mutate inc).

Definition updateIncident_apply (incidentID : string) (updated : Incident) (m : Manager) : Manager :=
  match incidents m !! incidentID with
  | None => set_incidents (<[incidentID:=updated]> (incidents m)) m
  | Some current => set_incidents (<[incidentID:=with_events (i_Events current) updated]> (incidents m)) m
  end.

Definition AcknowledgeIncident_copy (m : Manager) (incidentID userID workspace : string) (now : Z) : option Incident :=
  updateIncident_copy m incidentID workspace (acked_by userID now).

Definition ResolveIncident_copy (m : Manager) (incidentID userID workspace : string) (now : Z) : option Incident :=
  updateIncident_copy m incidentID workspace (resolved_by userID now).

Definition shouldEscalate (i : Incident) (rule : AlertRule) (now : Z) : bool :=
  match r_Escalation rule with
  | None | Some [] => false
  | Some stages =>
      match stages !! i_EscalationLevel i with
      | None => false
      | Some stage =>
          if decide (is_Some (i_AckedAt i) /\ st_Condition stage <> "not_resolved") then false else
          let since := now - default (i_StartedAt i) (i_LastEscalatedAt i) in
          let wait := if decide (st_Wait stage = 0) then 15 * minute else st_Wait stage in
          bool_decide (since >= wait)
      end
  end.

(** The incidents [checkEscalations] decides to escalate, under one lock. *)
Definition checkEscalations (m : Manager) (now : Z) : list (string * AlertRule) :=
  omap (fun '(id, inc) =>
          if decide (i_Status inc = IncidentResolved) then None else
          rule ← rules m !! i_RuleID inc;
          if shouldEscalate inc rule now then Some (id, rule) else None)
       (map_to_list (incidents m)).

(** The last critical section of [escalateIncident], after the sends; [now]
    is the time of the event. *)
Definition escalateIncident_finish (incidentID : string) (now : Z) (m : Manager) : Manager :=
  match incidents m !! incidentID with
  | None => m
  | Some inc => set_incidents (<[incidentID:=escalated now inc]> (incidents m)) m
  end.

(** ** Judgments *)

Definition flapRulePrev (soulID : string) (prev : SoulStatus) (change : flap_change) (baseline : SoulStatus)
    (m : Manager) : Manager * SoulStatus :=
  match change with
  | FlapStarted =>
      (set_flapBaselines (<[soulID:=if decide (baseline = "") then prev else baseline]> (flapBaselines m)) m, prev)
  | FlapStopped =>
      let baseline := if decide (baseline = "") then default "" (flapBaselines m !! soulID) else baseline in
      (set_flapBaselines (delete soulID (flapBaselines m)) m, if decide (baseline <> "") then baseline else prev)
  | _ => (m, prev)
  end.

(** Generated IDs for the notice, the event and the incident of a rule. *)
Record id_source := Ids { notice_id : string -> string; event_id : string -> string; incident_id : string -> string }.

Definition enqueueFlapNotice (ids : id_source) (rule : AlertRule) (soul : AlertSoul) (prev : SoulStatus) (j : Judgment)
    (stopped : bool) (now : Z) (m : Manager) : Manager :=
  enqueueAlert rule
    (Event (notice_id ids (r_ID rule)) (r_ID rule) (if stopped then "flapping_stopped" else "flapping_started")
       (as_ID soul) (as_WorkspaceID soul) (j_Status j) prev (if stopped then "info" else "warning") now) now m.

Definition calculateSeverity (j : Judgment) : string :=
  if decide (j_Status j = SoulDead) then "critical" else
  if decide (j_Status j = SoulDegraded) then "warning" else "info".

Section judgments.
Context (numeric : AlertCondition -> Judgment -> bool).

(** The body of the loop over the rules. *)
Definition process_rule (ids : id_source) (soul : AlertSoul) (prev rulePrev : SoulStatus) (j : Judgment) (now : Z)
    (m : Manager) (rule : AlertRule) : Manager :=
  if negb (r_Enabled rule) then m else
  if negb (ruleApplies rule soul) then m else
  let m := updateFailureStreak (r_ID rule) (as_ID soul) (j_Status j) m in
  let m := noteStatus (as_ID soul) (j_Status j) now m in
  let m := match j_FlapChange j with
           | NoChange => m
           | FlapStarted => enqueueFlapNotice ids rule soul prev j false now m
           | FlapStopped => enqueueFlapNotice ids rule soul prev j true now m
           end in
  if j_Flapping j then m else
  if negb (checkConditions numeric m rule rulePrev j now) then
    if bool_decide (j_Status j = SoulAlive) && r_AutoResolve rule
    then autoResolveOpenIncident (r_ID rule) soul now m else m
  else
    let severity := if decide (r_Severity rule = "") then calculateSeverity j else r_Severity rule in
    let e := Event (event_id ids (r_ID rule)) (r_ID rule) "" (as_ID soul) (as_WorkspaceID soul) (j_Status j) rulePrev
               severity now in
    enqueueAlert rule e now (recordIncident rule soul e (incident_id ids (r_ID rule)) m).

(** [suppressed] is the answer of [isSuppressedByMaintenance]. *)
Definition ProcessJudgment (ids : id_source) (soul : AlertSoul) (prev : SoulStatus) (j : Judgment) (suppressed : bool)
    (now : Z) (m : Manager) : Manager :=
  let j := MkJudgment (as_ID soul) (j_Status j) (j_Timestamp j) (j_Flapping j) (j_FlapChange j) (j_FlapBaseline j) in
  let all := map snd (map_to_list (rules m)) in
  if suppressed then
    if decide (j_Status j <> SoulDead) then
      foldl (fun m rule =>
               if r_Enabled rule && ruleApplies rule soul
               then set_failureStreak (delete (streak_key (r_ID rule) (as_ID soul)) (failureStreak m)) m else m) m all
    else m
  else
    let '(m, rulePrev) := flapRulePrev (as_ID soul) prev (j_FlapChange j) (j_FlapBaseline j) m in
    foldl (process_rule ids soul prev rulePrev j now) m all.
End judgments.

(** ** Taking over a soul *)

Definition time_less (a b : Judgment) : bool := bool_decide (j_Timestamp a < j_Timestamp b).

(** The scan back from the latest judgment over those with its status: the
    number of dead ones and the time of the earliest. *)
Fixpoint scan_back (latest : SoulStatus) (rev : list Judgment) (n since : Z) : Z * Z :=
  match rev with
  | [] => (n, since)
  | j :: rest =>
      if decide (j_Status j = latest)
      then scan_back latest rest (if decide (latest = SoulDead) then n + 1 else n) (j_Timestamp j)
      else (n, since)
  end.

(** [None] is a nil pointer; 0 is the zero time. *)
Definition seedFromJudgments (soulID : string) (judgments : list (option Judgment)) (replace_ : bool) (m : Manager) : Manager :=
  if decide (soulID = "") then m else
  let ordered := sort_by time_less (omap id judgments) in
  let ids := map fst (map_to_list (rules m)) in
  let m := if replace_ then
             set_failureStreak (foldl (fun f id => delete (streak_key id soulID) f) (failureStreak m) ids)
               (set_statusSince (delete soulID (statusSince m)) m)
           else m in
  match reverse ordered with
  | [] => m
  | latest :: older =>
      let '(n, since) := scan_back (j_Status latest) (latest :: older) 0 (j_Timestamp latest) in
      let n := if decide (n > maxStreak) then maxStreak else n in
      let m := if decide (statusSince m !! soulID = None /\ since <> 0)
               then set_statusSince (<[soulID:=Hold (j_Status latest) since]> (statusSince m)) m else m in
      if decide (n = 0) then m else
      set_failureStreak
        (foldl (fun f id => let key := streak_key id soulID in
                            if decide (f !! key = None) then <[key:=n]> f else f) (failureStreak m) ids) m
  end.

Definition SeedFromJudgments (soulID : string) (judgments : list (option Judgment)) : Manager -> Manager :=
  seedFromJudgments soulID judgments false.

Definition SeedOwnedSoul (soulID : string) (judgments : list (option Judgment)) : Manager -> Manager :=
  seedFromJudgments soulID judgments true.

(** ** Cooldowns *)

Definition event_key (e : AlertEvent) : string := dedupKey (e_RuleID e) (e_SoulID e) (dedupStatus e).

(** What else happens to the shared records. *)
Inductive action :=
| DoAlert (rule : AlertRule) (e : AlertEvent) (now : Z)
| DoFailed (e : AlertEvent) (* no channel could be reached *)
| DoDrain (* a worker takes an event from the queue *)
| DoLoad (entry : AlertHistoryEntry) (* a record of this or another node arrives *)
| DoUnload (key : string) (* another node released its record *)
| DoRateLimit (key channelID : string) (cfg : RateLimitConfig) (status : SoulStatus) (now : Z).

Definition act (m : Manager) (a : action) : Manager :=
  match a with
  | DoAlert rule e now => enqueueAlert rule e now m
  | DoFailed e => releaseDedupLocked e m
  | DoDrain => set_queue (tail (queue m)) m
  | DoLoad entry => LoadDedupState entry m
  | DoUnload key => UnloadDedupState key m
  | DoRateLimit key channelID cfg status now => (rateLimitStep key channelID cfg status now m).1
  end.

(** Actions that neither withdraw the alert [e1] of time [t1], nor repeat it
    after its cooldown, nor replace its record by a later one: a record that
    arrives for its key is older, or the alert's own. *)
Definition harmless (e1 : AlertEvent) (t1 : Z) (a : action) : Prop :=
  match a with
  | DoAlert rule e now => e_RuleID e = r_ID rule /\ (event_key e = event_key e1 ->
      dedupStatus e = dedupStatus e1 /\ now - t1 < dedup_window rule)
  | DoFailed e => event_key e = event_key e1 -> e_ID e <> e_ID e1
  | DoDrain => True
  | DoLoad entry => h_Key entry = event_key e1 ->
      h_LastSent entry < t1 \/ (h_LastSent entry = t1 /\ h_SoulStatus entry = dedupStatus e1)
  | DoUnload key => key <> event_key e1
  | DoRateLimit key _ _ _ _ => key <> event_key e1
  end.

(** The record of the alert stands. *)
Definition claimed (e1 : AlertEvent) (t1 : Z) (m : Manager) : Prop :=
  dedupClaims m !! event_key e1 = Some (e_ID e1) /\
  exists entry, history m !! event_key e1 = Some entry /\ h_LastSent entry = t1 /\
    h_SoulStatus entry = dedupStatus e1.

Lemma isDuplicate_other rule e now m k : dedupKey (r_ID rule) (e_SoulID e) (dedupStatus e) <> k ->
  history (isDuplicate rule e now m).1 !! k = history m !! k /\
  dedupClaims (isDuplicate rule e now m).1 !! k = dedupClaims m !! k.
Proof.
  intros Hk. unfold isDuplicate. destruct (history m !! _) as [entry|]; [repeat case_decide|]; cbn;
    rewrite ?lookup_insert_ne by done; done.
Qed.

Lemma release_other e m k : event_key e <> k ->
  history (releaseDedupLocked e m) !! k = history m !! k /\
  dedupClaims (releaseDedupLocked e m) !! k = dedupClaims m !! k.
Proof.
  intros Hk. unfold releaseDedupLocked. repeat case_decide; cbn; [done| |done].
  rewrite !lookup_delete_ne by done. done.
Qed.

Lemma isDuplicate_claimed e1 t1 rule e now m :
  claimed e1 t1 m -> dedupKey (r_ID rule) (e_SoulID e) (dedupStatus e) = event_key e1 ->
  dedupStatus e = dedupStatus e1 ->
  if decide (now - t1 < dedup_window rule) then isDuplicate rule e now m = (m, true)
  else (isDuplicate rule e now m).2 = false.
Proof.
  intros (_ & entry & Eh & El & Es) Ek Est. unfold isDuplicate. rewrite Ek, Eh, El, Es, Est.
  case_decide; [rewrite decide_False by lia|rewrite decide_True by lia; done].
  by rewrite decide_False by tauto.
Qed.

Lemma claimed_act e1 t1 m a : claimed e1 t1 m -> harmless e1 t1 a -> claimed e1 t1 (act m a).
Proof.
  intros Hc Hh. destruct a as [rule e now|e| |entry|key|key ch cfg st now]; cbn [act harmless] in *.
  - destruct Hh as [Er Hh]. unfold enqueueAlert.
    assert (dedupKey (r_ID rule) (e_SoulID e) (dedupStatus e) = event_key e) as Ek by (unfold event_key; by rewrite Er).
    destruct (decide (event_key e = event_key e1)) as [E|E].
    + destruct (Hh E) as [Es Hw]. pose proof (isDuplicate_claimed e1 t1 rule e now m Hc) as Hd.
      rewrite Ek, decide_True in Hd by done. by rewrite Hd.
    + destruct (isDuplicate_other rule e now m (event_key e1)) as [H1 H2]; [by rewrite Ek|].
      destruct (isDuplicate rule e now m) as [m1 dup]. cbn in H1, H2. unfold claimed in *.
      destruct dup; [by rewrite H1, H2|]. case_decide; cbn; [by rewrite H1, H2|].
      destruct (release_other e m1 (event_key e1) E) as [H3 H4]. by rewrite H3, H4, H1, H2.
  - destruct (decide (event_key e = event_key e1)) as [E|E].
    + unfold releaseDedupLocked. case_decide; [done|]. fold (event_key e). rewrite E.
      rewrite decide_False; [done|]. destruct Hc as [-> _]. intros [= H1]. by destruct (Hh E).
    + unfold claimed. by destruct (release_other e m (event_key e1) E) as [-> ->].
  - done.
  - unfold LoadDedupState. destruct (negb _); [done|]. destruct Hc as (H1 & en & H2 & H3 & H4).
    destruct (decide (h_Key entry = event_key e1)) as [E|E].
    + rewrite E, H2. destruct (Hh E) as [Hlt|[He Hst]]; [rewrite decide_True by lia; unfold claimed; eauto|].
      rewrite !decide_False by lia. unfold claimed. cbn. rewrite lookup_insert_eq. eauto.
    + unfold claimed. destruct (history m !! h_Key entry); [repeat case_decide|]; cbn;
        rewrite ?lookup_insert_ne, ?lookup_delete_ne by done; eauto.
  - unfold UnloadDedupState, claimed in *. cbn. by rewrite !lookup_delete_ne.
  - unfold rateLimitStep, claimed in *. destruct (history m !! key); [repeat case_decide|]; cbn;
      rewrite ?lookup_insert_ne by done; done.
Qed.

Lemma claimed_enqueue rule e now m :
  e_RuleID e = r_ID rule ->
  (forall entry, history m !! event_key e = Some entry -> h_SoulStatus entry = dedupStatus e) ->
  (isDuplicate rule e now m).2 = false -> (length (queue m) < queue_capacity)%nat ->
  claimed e now (enqueueAlert rule e now m) /\ queue (enqueueAlert rule e now m) = queue m ++ [e].
Proof.
  intros Er Hs Hd Hq. unfold enqueueAlert, claimed. unfold isDuplicate, event_key in *. rewrite Er in *.
  destruct (history m !! _) as [entry|]; [repeat case_decide|]; cbn in *; try done;
    rewrite ?decide_True by done; cbn; rewrite !lookup_insert_eq; split_and!; eauto.
  eexists. split_and!; [done|done|]. cbn. by rewrite (Hs entry eq_refl).
Qed.

(** C22: the cooldown of notifications. An alert that is no duplicate is
    queued at [t1] if the queue has room (a record already under its key has its
    status, as every record the manager writes). From then on another alert for the
    same rule, soul and status is dropped without a trace until the cooldown of
    its rule (five minutes by default) has passed, and queued, given room, from
    then on. In between there may be any alerts and failed deliveries, worker
    steps, rate limits of channels, and records of other nodes and releases of
    them, as long as the first alert is not withdrawn because no channel could
    be reached, its record is not released by another node, no other node
    has sent an alert for the same key at [t1] or later, and none was let
    through here because its rule had a shorter cooldown then. *)
Theorem cooldown_respected rule1 e1 t1 m actions rule2 e2 t2 :
  let m2 := foldl act (enqueueAlert rule1 e1 t1 m) actions in
  e_RuleID e1 = r_ID rule1 -> e_RuleID e2 = r_ID rule2 ->
  (forall entry, history m !! event_key e1 = Some entry -> h_SoulStatus entry = dedupStatus e1) ->
  (isDuplicate rule1 e1 t1 m).2 = false -> (length (queue m) < queue_capacity)%nat ->
  Forall (harmless e1 t1) actions ->
  event_key e2 = event_key e1 -> dedupStatus e2 = dedupStatus e1 ->
  queue (enqueueAlert rule1 e1 t1 m) = queue m ++ [e1] /\
  (t2 - t1 < dedup_window rule2 -> enqueueAlert rule2 e2 t2 m2 = m2) /\
  (dedup_window rule2 <= t2 - t1 -> (length (queue m2) < queue_capacity)%nat ->
     queue (enqueueAlert rule2 e2 t2 m2) = queue m2 ++ [e2]).
Proof.
  intros m2 R1 R2 Hs Hd Hq Ha Ek Est. destruct (claimed_enqueue rule1 e1 t1 m R1 Hs Hd Hq) as [Hc Hqueue].
  split; [done|]. assert (claimed e1 t1 m2) as Hc2.
  { subst m2. clear -Hc Ha. revert Hc. generalize (enqueueAlert rule1 e1 t1 m) as m1.
    induction Ha as [|a l Hh _ IH]; intros m1 Hc; [done|]. cbn. by apply IH, claimed_act. }
  clearbody m2. pose proof (isDuplicate_claimed e1 t1 rule2 e2 t2 m2 Hc2) as Hdup.
  unfold event_key in Ek at 1. rewrite R2 in Ek. specialize (Hdup Ek Est). split.
  - intros Hw. rewrite decide_True in Hdup by done. unfold enqueueAlert. by rewrite Hdup.
  - intros Hw Hq2. rewrite decide_False in Hdup by lia. apply claimed_enqueue; [done| |done|done].
    destruct Hc2 as (_ & en & H1 & _ & H2). intros entry. unfold event_key. rewrite R2, Ek, H1. intros [= <-].
    by rewrite Est.
Qed.

(** ** One open incident per rule and soul *)

(** Incidents are filed under their IDs, and no two unresolved ones are about
    the same rule and soul. *)
Record incidents_ok (incs : gmap string Incident) : Prop := {
  io_id : forall k i, incs !! k = Some i -> i_ID i = k;
  io_unique : forall k1 k2 i1 i2, incs !! k1 = Some i1 -> incs !! k2 = Some i2 ->
    unresolved i1 = true -> unresolved i2 = true -> i_RuleID i1 = i_RuleID i2 -> i_SoulID i1 = i_SoulID i2 -> k1 = k2;
}.

(** Both are about the same thing. *)
Definition same_incident (i i' : Incident) : Prop :=
  i_ID i' = i_ID i /\ i_RuleID i' = i_RuleID i /\ i_SoulID i' = i_SoulID i.

Lemma incidents_ok_replace incs k i i' :
  incidents_ok incs -> incs !! k = Some i -> same_incident i i' -> (unresolved i' = true -> unresolved i = true) ->
  incidents_ok (<[k:=i']> incs).
Proof.
  intros [H1 H2] Hk (Ei & Er & Es) Hu. split.
  - intros k' j [[-> ->]|[_ Hj]]%lookup_insert_Some; [|by apply H1]. rewrite Ei. by apply H1.
  - intros k1 k2 j1 j2 [[<- <-]|[Hn1 Hj1]]%lookup_insert_Some [[<- <-]|[Hn2 Hj2]]%lookup_insert_Some U1 U2 ER ES;
      [done| | |by eapply H2].
    + eapply (H2 k k2 i j2); eauto; congruence.
    + eapply (H2 k1 k j1 i); eauto; congruence.
Qed.

Lemma incidents_ok_new incs k i :
  incidents_ok incs -> i_ID i = k ->
  (forall k' j, incs !! k' = Some j -> matches (i_RuleID i) (i_SoulID i) j = false) ->
  incidents_ok (<[k:=i]> incs).
Proof.
  intros [H1 H2] Hk Hm.
  assert (forall k' j, incs !! k' = Some j -> unresolved j = true -> i_RuleID j = i_RuleID i ->
    i_SoulID j = i_SoulID i -> False) as Hno.
  { intros k' j Hj Hu Hr Hs. specialize (Hm k' j Hj). unfold matches in Hm.
    by rewrite Hr, Hs, Hu, !bool_decide_true in Hm. }
  split.
  - intros k' j [[<- <-]|[_ Hj]]%lookup_insert_Some; [done|by apply H1].
  - intros k1 k2 j1 j2 [[<- <-]|[Hn1 Hj1]]%lookup_insert_Some [[<- <-]|[Hn2 Hj2]]%lookup_insert_Some U1 U2 ER ES;
      [done|exfalso; by eapply Hno|exfalso; by eapply Hno|by eapply H2].
Qed.

Lemma open_incident_spec ruleID soulID m :
  match open_incident ruleID soulID m with
  | Some i => (exists k, incidents m !! k = Some i) /\ matches ruleID soulID i = true
  | None => forall k i, incidents m !! k = Some i -> matches ruleID soulID i = false
  end.
Proof.
  unfold open_incident. destruct (List.find _ _) as [i|] eqn:E.
  - apply find_some in E as [Hin Hm]. split; [|done]. apply list_elem_of_In, list_elem_of_fmap in Hin as ([k j] & -> & Hin).
    exists k. by apply elem_of_map_to_list in Hin.
  - intros k i Hi. eapply find_none in E; [exact E|]. apply list_elem_of_In, list_elem_of_fmap.
    exists (k, i). split; [done|]. by apply elem_of_map_to_list.
Qed.

Lemma record_ok rule soul e newID m :
  incidents_ok (incidents m) -> incidents_ok (incidents (recordIncident rule soul e newID m)).
Proof.
  intros Hi. unfold recordIncident. pose proof (open_incident_spec (r_ID rule) (as_ID soul) m) as Ho.
  destruct (open_incident _ _ m) as [i|]; cbn; [|by apply incidents_ok_new].
  destruct Ho as [[k Hk] Hm]. assert (i_ID i = k) as <- by (by apply Hi).
  eapply incidents_ok_replace; [done|exact Hk|done|done].
Qed.

Lemma autoResolve_ok ruleID soul now m :
  incidents_ok (incidents m) -> incidents_ok (incidents (autoResolveOpenIncident ruleID soul now m)).
Proof.
  intros Hi. unfold autoResolveOpenIncident. pose proof (open_incident_spec ruleID (as_ID soul) m) as Ho.
  destruct (open_incident _ _ m) as [i|]; [|done]. destruct Ho as [[k Hk] Hm]. cbn.
  assert (i_ID i = k) as <- by (by apply Hi). eapply incidents_ok_replace; [done|exact Hk|done|done].
Qed.

Lemma incidents_enqueue rule e now m : incidents (enqueueAlert rule e now m) = incidents m.
Proof.
  unfold enqueueAlert. assert (incidents (isDuplicate rule e now m).1 = incidents m) as E.
  { unfold isDuplicate. destruct (history m !! _); repeat case_decide; done. }
  destruct (isDuplicate rule e now m) as [m1 []]; [done|]. case_decide; [done|].
  unfold releaseDedupLocked. by repeat case_decide.
Qed.

Section incident_steps.
Context (numeric : AlertCondition -> Judgment -> bool).

Lemma process_rule_ok ids soul prev rulePrev j now m rule :
  incidents_ok (incidents m) -> incidents_ok (incidents (process_rule numeric ids soul prev rulePrev j now m rule)).
Proof.
  intros Hi. unfold process_rule. cbv zeta. destruct (negb _); [done|]. destruct (negb _); [done|].
  set (m1 := noteStatus _ _ _ _).
  assert (incidents m1 = incidents m) as E1.
  { subst m1. unfold noteStatus, updateFailureStreak. destruct (statusSince _ !! _); repeat case_decide; done. }
  clearbody m1. set (m2 := match j_FlapChange j with NoChange => m1 | _ => _ end).
  assert (incidents m2 = incidents m) as E2.
  { subst m2. unfold enqueueFlapNotice. destruct (j_FlapChange j); rewrite ?incidents_enqueue; done. }
  clearbody m2. rewrite <- E2 in Hi. destruct (j_Flapping j); [done|]. destruct (negb _).
  - destruct (_ && _); [|done]. by apply autoResolve_ok.
  - rewrite incidents_enqueue. by apply record_ok.
Qed.

Lemma ProcessJudgment_ok ids soul prev j suppressed now m :
  incidents_ok (incidents m) -> incidents_ok (incidents (ProcessJudgment numeric ids soul prev j suppressed now m)).
Proof.
  intros Hi. unfold ProcessJudgment. cbv zeta. generalize (map snd (map_to_list (rules m))) as l. intros l.
  destruct suppressed.
  - case_decide; [|done]. revert m Hi. induction l as [|r l IH]; intros m Hi; [done|]. cbn. apply IH.
    by destruct (_ && _).
  - destruct (flapRulePrev _ _ _ _ m) as [m1 rp] eqn:Ef.
    assert (incidents m1 = incidents m) as E.
    { unfold flapRulePrev in Ef. destruct (j_FlapChange _); by simplify_eq. }
    rewrite <- E in Hi. clear Ef E m. revert m1 Hi. induction l as [|r l IH]; intros m Hi; [done|].
    cbn [foldl]. by apply IH, process_rule_ok.
Qed.

(** What happens to incidents. Operators' changes are written back from a copy
    that may be stale by then, of the same incident. Incidents loaded from
    other nodes or from storage are not among the steps. *)
Inductive incident_step : Manager -> Manager -> Prop :=
| step_judgment ids soul prev j suppressed now m :
    incident_step m (ProcessJudgment numeric ids soul prev j suppressed now m)
| step_resolve before id user workspace now updated current m :
    ResolveIncident_copy before id user workspace now = Some updated ->
    incidents m !! id = Some current -> same_incident current updated ->
    incident_step m (updateIncident_apply id updated m)
| step_acknowledge before id user workspace now updated current m :
    AcknowledgeIncident_copy before id user workspace now = Some updated ->
    incidents m !! id = Some current -> same_incident current updated -> unresolved current = true ->
    incident_step m (updateIncident_apply id updated m)
| step_escalate id now m : incident_step m (escalateIncident_finish id now m)
| step_alert a m : incident_step m (act m a).

Lemma copy_resolved before id user workspace now updated :
  ResolveIncident_copy before id user workspace now = Some updated -> unresolved updated = false.
Proof.
  unfold ResolveIncident_copy, updateIncident_copy. destruct (incidents before !! id); [|done]. cbn.
  case_decide; [done|]. by intros [= <-].
Qed.

Lemma incident_step_ok m m' : incident_step m m' -> incidents_ok (incidents m) -> incidents_ok (incidents m').
Proof.
  destruct 1 as [| before id user ws now upd cur m Hu Hc Hsame|before id user ws now upd cur m Hu Hc Hsame Hun|id now m|a m];
    intros Hi.
  - by apply ProcessJudgment_ok.
  - unfold updateIncident_apply. rewrite Hc. apply (incidents_ok_replace _ _ cur); [done|done|done|].
    apply copy_resolved in Hu. cbn. unfold unresolved in *. cbn. by rewrite Hu.
  - unfold updateIncident_apply. rewrite Hc. by apply (incidents_ok_replace _ _ cur).
  - unfold escalateIncident_finish. destruct (incidents m !! id) as [i|] eqn:E; [|done].
    by apply (incidents_ok_replace _ _ i).
  - assert (incidents (act m a) = incidents m) as ->; [|done].
    destruct a; cbn; [apply incidents_enqueue|unfold releaseDedupLocked|done|unfold LoadDedupState|done|unfold rateLimitStep];
      [by repeat case_decide|destruct (negb _); [done|]|]; by destruct (history m !! _); repeat case_decide.
Qed.

(** C23: at most one unresolved incident per rule and soul. In any run of
    judgments, maintenance, escalations, resolutions by operators and
    acknowledgements of incidents that are not resolved, all on one node
    (incidents that arrive from other nodes are not among the steps), no two
    unresolved incidents are about the same rule and soul, so a failing soul fills one
    incident instead of opening new ones. *)
Theorem one_incident_per_problem m m' :
  incidents_ok (incidents m) -> rtc incident_step m m' ->
  incidents_ok (incidents m') /\
  forall rule soul e newID i, open_incident (r_ID rule) (as_ID soul) m' = Some i ->
    incidents (recordIncident rule soul e newID m') = <[i_ID i:=with_events (i_Events i ++ [e]) i]> (incidents m') /\
    forall k j, incidents m' !! k = Some j -> matches (r_ID rule) (as_ID soul) j = true -> j = i.
Proof.
  intros Hi Hr. assert (incidents_ok (incidents m')) as Hi'.
  { revert Hi. induction Hr as [|m1 m2 m3 Hs _ IH]; [done|]. intros Hi. by eapply IH, incident_step_ok. }
  split; [done|]. intros rule soul e newID i Ho. split; [unfold recordIncident; by rewrite Ho|].
  intros k j Hj Hm. pose proof (open_incident_spec (r_ID rule) (as_ID soul) m') as Hs. rewrite Ho in Hs.
  destruct Hs as [[k' Hk'] Hmi]. unfold matches in Hm, Hmi.
  apply andb_true_iff in Hm as [[Hm1 Hm2]%andb_true_iff Hm3], Hmi as [[Hi1 Hi2]%andb_true_iff Hi3].
  apply bool_decide_eq_true in Hm1, Hm2, Hi1, Hi2.
  assert (k = k') as ->; [|congruence]. eapply (io_unique _ Hi' k k' j i); congruence.
Qed.
End incident_steps.

(** ** Taking over a soul *)

(** What processing a judgment when it is made does to the state of one rule. *)
Definition observe (ruleID soulID : string) (m : Manager) (j : Judgment) : Manager :=
  noteStatus soulID (j_Status j) (j_Timestamp j) (updateFailureStreak ruleID soulID (j_Status j) m).

(** On a history listed backwards: the dead judgments at its end, and the
    time the last status began. *)
Fixpoint dead_run (rev : list Judgment) : Z :=
  match rev with
  | j :: rest => if decide (j_Status j = SoulDead) then 1 + dead_run rest else 0
  | [] => 0
  end.

Fixpoint run_start (status : SoulStatus) (rev : list Judgment) (since : Z) : Z :=
  match rev with
  | j :: rest => if decide (j_Status j = status) then run_start status rest (j_Timestamp j) else since
  | [] => since
  end.

Lemma scan_back_spec status rev : forall n since,
  scan_back status rev n since = (if decide (status = SoulDead) then n + dead_run rev else n, run_start status rev since).
Proof.
  induction rev as [|j rest IH]; intros n since; cbn; [case_decide; f_equal; lia|].
  destruct (decide (j_Status j = status)) as [E|E].
  - rewrite IH. subst status. repeat case_decide; f_equal; lia.
  - repeat case_decide; try congruence; f_equal; lia.
Qed.

Lemma dead_run_nonneg rev : 0 <= dead_run rev.
Proof. induction rev as [|j rest IH]; cbn; [lia|]. case_decide; lia. Qed.

(** A history lived through. *)
Lemma observe_history ruleID soulID m js :
  failureStreak m !! streak_key ruleID soulID = None -> statusSince m !! soulID = None ->
  let lived := foldl (observe ruleID soulID) m js in
  failureStreakCount lived ruleID soulID = Z.min maxStreak (dead_run (reverse js)) /\
  statusSince lived !! soulID =
    match reverse js with
    | [] => None
    | j :: rest => Some (Hold (j_Status j) (run_start (j_Status j) rest (j_Timestamp j)))
    end.
Proof.
  intros Hf Hs. induction js as [|j js IH] using rev_ind; cbn.
  { unfold failureStreakCount, streak. rewrite Hf. by split. }
  rewrite foldl_snoc, reverse_snoc. cbn [dead_run]. cbv zeta in IH. set (m1 := foldl _ m js) in *. clearbody m1.
  destruct IH as [I1 I2]. unfold observe, failureStreakCount in *. set (key := streak_key ruleID soulID) in *.
  pose proof (dead_run_nonneg (reverse js)) as H0. unfold maxStreak in *. split.
  - transitivity (streak (updateFailureStreak ruleID soulID (j_Status j) m1) key).
    { unfold noteStatus. by repeat case_match. }
    unfold updateFailureStreak. fold key. case_decide.
    + unfold maxStreak. case_decide; [|lia]. unfold streak at 1. cbn. rewrite lookup_insert_eq. cbn. lia.
    + unfold streak. cbn. rewrite lookup_delete_eq. cbn. lia.
  - unfold noteStatus. assert (statusSince (updateFailureStreak ruleID soulID (j_Status j) m1) = statusSince m1) as ->.
    { unfold updateFailureStreak. by repeat case_decide. }
    rewrite I2. destruct (reverse js) as [|j' rest]; cbn; [by rewrite lookup_insert_eq|].
    destruct (decide (j_Status j' = j_Status j)) as [E|E].
    + unfold updateFailureStreak. repeat case_decide; cbn; by rewrite I2, E.
    + cbn. by rewrite lookup_insert_eq.
Qed.

Lemma delete_keys_lookup soulID ruleID : forall l (f : gmap string Z),
  ruleID ∈ l -> foldl (fun f id => delete (streak_key id soulID) f) f l !! streak_key ruleID soulID = None.
Proof.
  intros l f Hin. induction l as [|id l IH] using rev_ind; [by apply elem_of_nil in Hin|].
  rewrite foldl_snoc. destruct (decide (streak_key id soulID = streak_key ruleID soulID)) as [->|E];
    [by rewrite lookup_delete_eq|]. rewrite lookup_delete_ne by done. apply IH.
  apply elem_of_app in Hin as [Hin|Hin]; [done|]. apply list_elem_of_singleton in Hin as ->. done.
Qed.

Lemma seed_keys_lookup soulID ruleID n : forall l (f : gmap string Z),
  ruleID ∈ l -> f !! streak_key ruleID soulID = None ->
  foldl (fun f id => let key := streak_key id soulID in
                     if decide (f !! key = None) then <[key:=n]> f else f) f l !! streak_key ruleID soulID = Some n.
Proof.
  intros l f Hin Hf.
  assert (forall l (f : gmap string Z), f !! streak_key ruleID soulID = Some n -> foldl (fun f id => let key := streak_key id soulID in
    if decide (f !! key = None) then <[key:=n]> f else f) f l !! streak_key ruleID soulID = Some n) as Hkeep.
  { clear. induction l as [|id l IH]; intros f Hf; [done|]. cbn. apply IH. case_decide as Hd; [|done].
    rewrite lookup_insert_ne; [done|]. intros E. rewrite E in Hd. congruence. }
  revert f Hf. induction l as [|id l IH]; intros f Hf; [by apply elem_of_nil in Hin|]. cbn.
  destruct (decide (streak_key id soulID = streak_key ruleID soulID)) as [E|E].
  - apply Hkeep. rewrite E, decide_True by done. by rewrite lookup_insert_eq.
  - apply elem_of_cons in Hin as [->|Hin]; [done|]. apply IH; [done|].
    case_decide; [by rewrite lookup_insert_ne|done].
Qed.

(** C24: taking over a soul reconstructs the state its rules depend on. A node
    that is given a soul's judgments, in any order, ends up with the same
    failure streak, for each of its rules, and the same status clock as a node
    that evaluated every judgment when it was made; what it remembered of the
    soul from before does not matter. *)
Theorem takeover_equivalent m fresh soulID ruleID js judgments :
  soulID <> "" -> is_Some (rules m !! ruleID) ->
  StronglySorted (fun a b => j_Timestamp a < j_Timestamp b) js -> Forall (fun j => 0 < j_Timestamp j) js ->
  omap id judgments ≡ₚ js ->
  failureStreak fresh !! streak_key ruleID soulID = None -> statusSince fresh !! soulID = None ->
  let seeded := SeedOwnedSoul soulID judgments m in
  let lived := foldl (observe ruleID soulID) fresh js in
  failureStreakCount seeded ruleID soulID = failureStreakCount lived ruleID soulID /\
  statusSince seeded !! soulID = statusSince lived !! soulID.
Proof.
  intros Hid [rule Hr] Hs Hpos Hp Hf Hc seeded lived. subst seeded lived.
  destruct (observe_history ruleID soulID fresh js Hf Hc) as [-> ->].
  unfold SeedOwnedSoul, seedFromJudgments. rewrite decide_False by done.
  assert (sort_by time_less (omap id judgments) = js) as ->.
  { symmetry. apply (sort_by_unique time_less j_Timestamp); [..|done|].
    - intros a. apply bool_decide_false. lia.
    - unfold time_less. intros a b c. rewrite !bool_decide_eq_true. lia.
    - unfold time_less. intros a b. rewrite !bool_decide_eq_true. lia.
    - rewrite Hp. clear -Hs. induction Hs as [|j js _ IH Hj]; [constructor|]. cbn. constructor; [|done].
      intros (j' & E & Hin)%list_elem_of_fmap. rewrite Forall_forall in Hj. specialize (Hj j' Hin). lia.
    - clear -Hs. induction Hs as [|j js _ IH Hj]; constructor; [done|]. eapply Forall_impl; [exact Hj|].
      intros a Hab. by apply bool_decide_true. }
  assert (ruleID ∈ map fst (map_to_list (rules m))) as Hin.
  { apply list_elem_of_fmap. exists (ruleID, rule). split; [done|]. by apply elem_of_map_to_list. }
  cbv zeta. set (ids := map fst _) in *. clearbody ids.
  set (m1 := set_failureStreak _ _).
  assert (failureStreak m1 !! streak_key ruleID soulID = None) as H1 by (by apply delete_keys_lookup).
  assert (statusSince m1 !! soulID = None) as H2 by (subst m1; cbn; by rewrite lookup_delete_eq). clearbody m1.
  unfold failureStreakCount, streak. destruct (reverse js) as [|latest older] eqn:Er.
  { cbn. by rewrite H1, H2. }
  assert (Forall (fun j => 0 < j_Timestamp j) (latest :: older)) as Hpos'.
  { rewrite <- Er. by rewrite reverse_Permutation. }
  rewrite scan_back_spec. cbn [run_start dead_run]. rewrite (decide_True (P := j_Status latest = j_Status latest)) by done.
  assert (forall l since, Forall (fun j => 0 < j_Timestamp j) l -> 0 < since -> 0 < run_start (j_Status latest) l since) as Hst.
  { induction l as [|j l IH]; intros since Hl H0; cbn; [done|]. apply Forall_cons in Hl as [? ?]. case_decide; auto. }
  apply Forall_cons in Hpos' as [Hl Ho]. pose proof (Hst older _ Ho Hl) as Hsince.
  rewrite (decide_True (P := statusSince m1 !! soulID = None /\ _)) by (split; [done|lia]).
  pose proof (dead_run_nonneg older) as Hd. unfold maxStreak.
  destruct (decide (j_Status latest = SoulDead)) as [Ed|Ed].
  - rewrite decide_False by (case_decide; lia). cbn. rewrite lookup_insert_eq.
    rewrite seed_keys_lookup by done. cbn. split; [case_decide; lia|done].
  - rewrite decide_True by (case_decide; lia). cbn. rewrite lookup_insert_eq, H1. done.
Qed.

(** ** Examples *)

Definition no_numeric (_ : AlertCondition) (_ : Judgment) : bool := false.

(** Page on the first failure, resolve on recovery. *)
Definition sample_rule : AlertRule :=
  Rule "r1" true "" (Scope "" [] [] []) [Condition "consecutive_failures" 1 "" "" "" 0 [] ""] "" 0 true None.

Definition sample_soul : AlertSoul := MkAlertSoul "s1" "" [] "http".

Definition sample_manager : Manager := MkManager {["r1" := sample_rule]} ∅ ∅ ∅ ∅ ∅ ∅ [].

Definition verdict (status : SoulStatus) (t : Z) : Judgment := MkJudgment "s1" status t false NoChange "".

Definition ids_at (tag : string) : id_source :=
  Ids (fun r => "n" +:+ tag +:+ r) (fun r => "e" +:+ tag +:+ r) (fun r => "i" +:+ tag +:+ r).

Definition judge (tag : string) (prev status : SoulStatus) (t : Z) (m : Manager) : Manager :=
  ProcessJudgment no_numeric (ids_at tag) sample_soul prev (verdict status t) false t m.

Definition sample_event (id : string) (t : Z) : AlertEvent := Event id "r1" "" "s1" "" SoulDead SoulAlive "critical" t.

Lemma cooldown_respected_witness :
  let m1 := enqueueAlert sample_rule (sample_event "a" 0) 0 sample_manager in
  let m2 := releaseDedupLocked (sample_event "b" 5) m1 in
  enqueueAlert sample_rule (sample_event "c" minute) minute m2 = m2 /\
  queue (enqueueAlert sample_rule (sample_event "c" (5 * minute)) (5 * minute) m2) =
    [sample_event "a" 0; sample_event "c" (5 * minute)].
Proof.
  intros m1 m2. split.
  - eapply (cooldown_respected sample_rule (sample_event "a" 0) 0 sample_manager [DoFailed (sample_event "b" 5)]
      sample_rule (sample_event "c" minute) minute);
      [done|done|done|by vm_compute|by apply Nat.ltb_lt|by repeat constructor|done|done|by vm_compute].
  - transitivity (queue m2 ++ [sample_event "c" (5 * minute)]); [|by vm_compute].
    eapply (cooldown_respected sample_rule (sample_event "a" 0) 0 sample_manager [DoFailed (sample_event "b" 5)]
      sample_rule (sample_event "c" (5 * minute)) (5 * minute));
      [done|done|done|by vm_compute|by apply Nat.ltb_lt|by repeat constructor|done|done|by vm_compute|by apply Nat.ltb_lt].
Defined.

Lemma one_incident_per_problem_witness :
  let m := judge "2" SoulDead SoulDead 20 (judge "1" SoulAlive SoulDead 10 sample_manager) in
  incidents_ok (incidents m) /\ size (incidents m) = 1%nat.
Proof.
  intros m. split; [|by vm_compute].
  apply (one_incident_per_problem no_numeric sample_manager m).
  - split; intros *; cbn; by rewrite lookup_empty.
  - eapply rtc_l; [apply (step_judgment no_numeric (ids_at "1") sample_soul SoulAlive (verdict SoulDead 10) false 10)|].
    eapply rtc_l; [apply (step_judgment no_numeric (ids_at "2") sample_soul SoulDead (verdict SoulDead 20) false 20)|].
    apply rtc_refl.
Defined.

Lemma takeover_equivalent_witness :
  let js := [verdict SoulAlive 5; verdict SoulDead 10; verdict SoulDead 20] in
  failureStreakCount (SeedOwnedSoul "s1" (map Some (reverse js)) sample_manager) "r1" "s1" = 2 /\
  statusSince (SeedOwnedSoul "s1" (map Some (reverse js)) sample_manager) !! "s1" = Some (Hold SoulDead 10).
Proof.
  intros js. destruct (takeover_equivalent sample_manager sample_manager "s1" "r1" js (map Some (reverse js))) as [E1 E2].
  - done.
  - by eexists.
  - subst js. repeat constructor; cbn; lia.
  - subst js. repeat constructor; cbn; lia.
  - subst js. vm_compute. apply Permutation_rev.
  - done.
  - done.
  - rewrite E1, E2. by vm_compute.
Defined.

(** An acknowledgement that was being stored while the soul recovered and
    failed again revives the resolved incident next to the new one. *)
Definition acknowledged_late : Manager :=
  let m1 := judge "1" SoulAlive SoulDead 10 sample_manager in
  let copy := AcknowledgeIncident_copy m1 "i1r1" "ada" "" 15 in
  let m3 := judge "3" SoulAlive SoulDead 30 (judge "2" SoulDead SoulAlive 20 m1) in
  match copy with Some updated => updateIncident_apply "i1r1" updated m3 | None => m3 end.

Lemma acknowledgement_revives :
  length (filter (fun i => matches "r1" "s1" i = true) (map snd (map_to_list (incidents acknowledged_late)))) = 2%nat.
Proof. by vm_compute. Qed.
