(* ===== verification/Distribution.v ===== *)
(** * Distribution of checks over the cluster

    The planner of src/internal/cluster/distribution.go: every node computes
    from the replicated souls and members which members probe each soul, under
    one of four strategies and with optional redundancy. The nodes never talk
    to each other about it, so the plan has to depend on nothing but its
    inputs as sets. A member is here the part of [NodeLoad] the planner reads
    and the soul count it writes; a soul its ID and regions. The hash is the
    standard library's 64-bit FNV-1a. *)
From stdpp Require Import base gmap strings list sorting.
From Stdlib Require Import ZArith Lia.
From S2P Require Import Prelude.

(** ** Data *)

Inductive DistributionStrategy :=
| StrategyRoundRobin | StrategyRegionAware | StrategyLoadBased | StrategyHashBased.

#[export] Instance DistributionStrategy_eq_dec : EqDecision DistributionStrategy.
Proof. solve_decision. Defined.

Record NodeLoad := MkNode {
  NodeID : string;
  n_Region : string;
  SoulCount : Z;
}.

Record Soul := MkSoul {
  ID : string;
  s_Region : string;
  Regions : list string;
}.

Definition str_less (a b : string) : bool := bool_decide (String.compare a b = Lt).

(** ** Rendezvous hashing *)

Definition fnvOffset : Z := 14695981039346656037.
Definition fnvPrime : Z := 1099511628211.

Definition fnv_byte (h : Z) (a : Ascii.ascii) : Z :=
  (Z.lxor h (Z.of_N (Ascii.N_of_ascii a)) * fnvPrime) mod 2 ^ 64.

Fixpoint fnv_write (h : Z) (s : string) : Z :=
  match s with EmptyString => h | String a rest => fnv_write (fnv_byte h a) rest end.

Definition rendezvousScore (key nodeID : string) : Z :=
  fnv_write (fnv_byte (fnv_write fnvOffset key) Ascii.zero) nodeID.

(** The body of the loop of [rendezvousOwner]. *)
Definition owner_step (key : string) (acc : string * Z) (node : NodeLoad) : string * Z :=
  let '(best, bestScore) := acc in
  let score := rendezvousScore key (NodeID node) in
  if decide (best = "" \/ score > bestScore \/ score = bestScore /\ str_lt (NodeID node) best)%Z
  then (NodeID node, score) else (best, bestScore).

Definition rendezvousOwner (candidates : list NodeLoad) (key : string) : string :=
  (foldl (owner_step key) ("", 0%Z) candidates).1.

(** The comparison of [rendezvousRank]. *)
Definition rank_less (key : string) (a b : NodeLoad) : bool :=
  let si := rendezvousScore key (NodeID a) in
  let sj := rendezvousScore key (NodeID b) in
  if decide (si <> sj) then bool_decide (si > sj)%Z else str_less (NodeID a) (NodeID b).

Definition rendezvousRank (candidates : list NodeLoad) (key : string) : list NodeLoad :=
  sort_by (rank_less key) candidates.

(** ** The planner *)

(** [counts[id]] of a Go map. *)
Definition count (counts : gmap string Z) (id : string) : Z := default 0%Z (counts !! id).

Definition incr (id : string) (counts : gmap string Z) : gmap string Z := <[id:=(count counts id + 1)%Z]> counts.

Definition leastLoaded (counts : gmap string Z) (candidates : list NodeLoad) : string :=
  foldl (fun best node =>
           if decide (best = "" \/ count counts (NodeID node) < count counts best)%Z
           then NodeID node else best) "" candidates.

Definition sameRegion (strategy : DistributionStrategy) (soul : Soul) (n : NodeLoad) : bool :=
  bool_decide (strategy = StrategyRegionAware) && negb (bool_decide (s_Region soul = "")) &&
  bool_decide (n_Region n = s_Region soul).

Definition secondary_less (strategy : DistributionStrategy) (soul : Soul) (counts : gmap string Z)
    (a b : NodeLoad) : bool :=
  let si := sameRegion strategy soul a in
  let sj := sameRegion strategy soul b in
  if decide (si <> sj) then si
  else bool_decide (count counts (NodeID a) < count counts (NodeID b))%Z.

Definition pickSecondaries (strategy : DistributionStrategy) (soul : Soul) (rest : list NodeLoad)
    (counts : gmap string Z) (want : nat) : list string :=
  let ranked := if decide (strategy = StrategyHashBased) then rendezvousRank rest (ID soul)
                else sort_by (secondary_less strategy soul counts) rest in
  map NodeID (take want ranked).

(** Members with an ID, the first of each. *)
Fixpoint distinct_members (seen : gset string) (members : list NodeLoad) : list NodeLoad :=
  match members with
  | [] => []
  | m :: rest =>
      if decide (NodeID m = "" \/ NodeID m ∈ seen) then distinct_members seen rest
      else m :: distinct_members ({[NodeID m]} ∪ seen) rest
  end.

Definition planner_nodes (members : list NodeLoad) : list NodeLoad :=
  sort_by (fun a b => str_less (NodeID a) (NodeID b)) (distinct_members ∅ members).

(** [None] is a nil pointer. *)
Definition planner_souls (souls : list (option Soul)) : list Soul :=
  sort_by (fun a b => str_less (ID a) (ID b)) (filter (fun s => ID s <> "") (omap id souls)).

Definition eligible (nodes : list NodeLoad) (soul : Soul) : list NodeLoad :=
  if decide (0 < length (Regions soul))
  then filter (fun n => n_Region n ∈ Regions soul) nodes else nodes.

(** The members [leastLoaded] chooses from under region-aware. *)
Definition preferred (candidates : list NodeLoad) (soul : Soul) : list NodeLoad :=
  if decide (s_Region soul <> "") then
    let same := filter (fun n => n_Region n = s_Region soul) candidates in
    if decide (0 < length same) then same else candidates
  else candidates.

Definition primary (strategy : DistributionStrategy) (counts : gmap string Z) (candidates : list NodeLoad)
    (soul : Soul) : string :=
  match strategy with
  | StrategyHashBased => rendezvousOwner candidates (ID soul)
  | StrategyRegionAware => leastLoaded counts (preferred candidates soul)
  | _ => leastLoaded counts candidates
  end.

Record plan_state := PlanState {
  ps_counts : gmap string Z;
  ps_secondaryCounts : gmap string Z;
  ps_plan : gmap string (list string);
}.

Definition plan_soul (strategy : DistributionStrategy) (nodes : list NodeLoad) (redundancy : Z)
    (st : plan_state) (soul : Soul) : plan_state :=
  let candidates := eligible nodes soul in
  if decide (length candidates = 0) then st else
  let owner := primary strategy (ps_counts st) candidates soul in
  let counts := incr owner (ps_counts st) in
  let secondaries :=
    if decide ((1 < redundancy)%Z /\ 1 < length candidates) then
      pickSecondaries strategy soul (filter (fun n => NodeID n <> owner) candidates)
        (ps_secondaryCounts st) (Z.to_nat (redundancy - 1))
    else [] in
  PlanState counts (foldl (fun c n => incr n c) (ps_secondaryCounts st) secondaries)
    (<[ID soul:=owner :: secondaries]> (ps_plan st)).

Definition PlanOwnerSets (strategy : DistributionStrategy) (souls : list (option Soul))
    (members : list NodeLoad) (redundancy : Z) : gmap string (list string) :=
  ps_plan (foldl (plan_soul strategy (planner_nodes members) redundancy) (PlanState ∅ ∅ ∅)
             (planner_souls souls)).

(** [owners[0]]; the sets are never empty. *)
Definition first_owner (owners : list string) : string := default "" (head owners).

Definition PlanOwnership (strategy : DistributionStrategy) (souls : list (option Soul))
    (members : list NodeLoad) : gmap string string :=
  first_owner <$> PlanOwnerSets strategy souls members 1%Z.

(** The distributor's tables that [Rebuild] replaces. *)
Record Distributor := MkDistributor {
  strategy : DistributionStrategy;
  nodeLoads : gmap string NodeLoad;
  soulMap : gmap string string;
}.

Definition count_plan (plan : gmap string string) : gmap string Z :=
  foldl (fun c e => incr e.2 c) ∅ (map_to_list plan).

Definition Rebuild (d : Distributor) (souls : list (option Soul)) (members : list NodeLoad) :
    Distributor * gmap string string :=
  let plan := PlanOwnership (strategy d) souls members in
  let counts := count_plan plan in
  (MkDistributor (strategy d)
     (map_imap (fun nodeID n => Some (MkNode (NodeID n) (n_Region n) (count counts nodeID))) (nodeLoads d)) plan,
   plan).

Definition GetNodeForSoul (d : Distributor) (soulID : string) : option string := soulMap d !! soulID.

Definition GetSoulsForNode (d : Distributor) (nodeID : string) : list string :=
  map fst (filter (fun e => e.2 = nodeID) (map_to_list (soulMap d))).

(** ** The orders used *)

Lemma str_less_true a b : str_less a b = true <-> str_lt a b.
Proof. unfold str_less. apply bool_decide_eq_true. Qed.

Lemma str_less_irrefl a : str_less a a = false.
Proof. apply not_true_iff_false. rewrite str_less_true. apply irreflexivity, _. Qed.

Lemma str_less_trans a b c : str_less a b = true -> str_less b c = true -> str_less a c = true.
Proof. rewrite !str_less_true. apply transitivity. Qed.

Lemma str_less_total a b : a <> b -> str_less a b = true \/ str_less b a = true.
Proof. rewrite !str_less_true. destruct (str_lt_trichotomy a b) as [|[|]]; tauto. Qed.

Lemma rank_less_true key a b :
  rank_less key a b = true <->
  (rendezvousScore key (NodeID b) < rendezvousScore key (NodeID a))%Z \/
  rendezvousScore key (NodeID a) = rendezvousScore key (NodeID b) /\ str_lt (NodeID a) (NodeID b).
Proof.
  unfold rank_less. case_decide; [rewrite bool_decide_eq_true; lia|]. rewrite str_less_true. intuition lia.
Qed.

Lemma rank_irrefl key a : rank_less key a a = false.
Proof.
  apply not_true_iff_false. rewrite rank_less_true. intros [?|[_ H]]; [lia|]. revert H. apply irreflexivity, _.
Qed.

Lemma rank_trans key a b c : rank_less key a b = true -> rank_less key b c = true -> rank_less key a c = true.
Proof.
  rewrite !rank_less_true. intros [H1|[H1 H1']] [H2|[H2 H2']]; [left; lia..|].
  right. split; [congruence|]. by etransitivity.
Qed.

Lemma rank_total key a b : NodeID a <> NodeID b -> rank_less key a b = true \/ rank_less key b a = true.
Proof.
  intros Hne. rewrite !rank_less_true. destruct (str_lt_trichotomy (NodeID a) (NodeID b)) as [H|[H|H]];
    [|done|]; destruct (Z.lt_trichotomy (rendezvousScore key (NodeID a)) (rendezvousScore key (NodeID b)))
    as [E|[E|E]]; auto.
Qed.

(** ** Members and souls in the planner *)

Lemma distinct_members_spec : forall members seen,
  NoDup (map NodeID (distinct_members seen members)) /\
  Forall (fun n => n ∈ members /\ NodeID n <> "" /\ NodeID n ∉ seen) (distinct_members seen members).
Proof.
  induction members as [|m members IH]; intros seen; cbn; [by split; constructor|].
  case_decide as Hm.
  - destruct (IH seen) as [H1 H2]. split; [done|]. eapply Forall_impl; [exact H2|]. cbn.
    intros n (? & ? & ?). split_and!; [by right|done..].
  - apply Decidable.not_or in Hm as [Hm1 Hm2]. destruct (IH ({[NodeID m]} ∪ seen)) as [H1 H2]. rewrite Forall_forall in H2.
    split.
    + cbn. constructor; [|done]. intros (n & E & (_ & _ & Hn)%H2)%list_elem_of_fmap. set_solver.
    + constructor; [split_and!; [by left|done..]|]. apply Forall_forall. intros n (? & ? & ?)%H2.
      split_and!; [by right|done|set_solver].
Qed.

Lemma distinct_members_nodup : forall members seen, NoDup (map NodeID members) ->
  distinct_members seen members = filter (fun n => NodeID n <> "" /\ NodeID n ∉ seen) members.
Proof.
  induction members as [|m members IH]; intros seen Hd; [done|]. cbn in Hd. apply NoDup_cons in Hd as [Hm Hd].
  cbn [distinct_members]. rewrite filter_cons. case_decide as H1; case_decide as H2; [tauto|by apply IH| |tauto].
  f_equal. rewrite IH by done. apply filter_ext_in. intros n Hn. split; [set_solver|].
  intros [? ?]. split; [done|]. apply not_elem_of_union. split; [|done]. intros E%elem_of_singleton.
  destruct Hm. rewrite <- E. by apply list_elem_of_fmap_2.
Qed.

(** Removing a member from the input removes it from the planner's list. *)
Lemma distinct_members_without x : forall members seen,
  distinct_members seen (filter (fun n => NodeID n <> x) members) =
  filter (fun n => NodeID n <> x) (distinct_members seen members).
Proof.
  assert (forall members seen, distinct_members ({[x]} ∪ seen) (filter (fun n => NodeID n <> x) members) =
    distinct_members seen (filter (fun n => NodeID n <> x) members)) as Hx.
  { induction members as [|m members IH]; intros seen; [done|]. rewrite filter_cons. case_decide as Hm; [|apply IH].
    cbn. destruct (decide (NodeID m = "" \/ NodeID m ∈ {[x]} ∪ seen)), (decide (NodeID m = "" \/ NodeID m ∈ seen));
      [apply IH|set_solver|set_solver|]. f_equal. rewrite <- (IH ({[NodeID m]} ∪ seen)).
    by replace ({[NodeID m]} ∪ ({[x]} ∪ seen)) with ({[x]} ∪ ({[NodeID m]} ∪ seen)) by set_solver. }
  induction members as [|m members IH]; intros seen; [done|]. rewrite filter_cons. cbn [distinct_members].
  destruct (decide (NodeID m <> x)) as [Hm|Hm]; cbn [distinct_members].
  - case_decide; [apply IH|]. rewrite filter_cons_True by done. by rewrite IH.
  - apply dec_stable in Hm. case_decide as Hs; [apply IH|]. rewrite filter_cons_False by tauto.
    rewrite Hm, <- IH. symmetry. apply Hx.
Qed.

Lemma planner_nodes_spec members :
  NoDup (map NodeID (planner_nodes members)) /\
  Forall (fun n => n ∈ members /\ NodeID n <> "") (planner_nodes members).
Proof.
  unfold planner_nodes. destruct (distinct_members_spec members ∅) as [H1 H2].
  rewrite sort_by_perm. split; [done|]. eapply Forall_impl; [exact H2|]. by intros ? (? & ? & ?).
Qed.

(** The planner reads the first entry of each ID. *)
Lemma elem_of_distinct_members : forall members seen n,
  n ∈ distinct_members seen members <->
  NodeID n <> "" /\ NodeID n ∉ seen /\ head (filter (fun m => NodeID m = NodeID n) members) = Some n.
Proof.
  induction members as [|m members IH]; intros seen n; cbn [distinct_members].
  { rewrite elem_of_nil. naive_solver. }
  rewrite filter_cons. case_decide as Hm.
  - rewrite IH. destruct (decide (NodeID m = NodeID n)) as [E|E]; [|done].
    rewrite E in Hm. cbn. naive_solver.
  - rewrite elem_of_cons, IH. destruct (decide (NodeID m = NodeID n)) as [E|E].
    + cbn. rewrite <- E. split; [|naive_solver]. intros [->|(_ & Hn & _)]; [tauto|set_solver].
    + split; [intros [->|H]; [done|]; set_solver|]. intros (H1 & H2 & H3). right. set_solver.
Qed.

Lemma planner_nodes_perm members members' :
  NoDup (map NodeID members) -> members' ≡ₚ members -> planner_nodes members' = planner_nodes members.
Proof.
  intros Hd Hp. unfold planner_nodes.
  apply (sort_by_canonical _ NodeID); [by intros; apply str_less_irrefl|by intros *; apply str_less_trans|
    by intros *; apply str_less_total|apply distinct_members_spec|].
  rewrite !distinct_members_nodup by (by rewrite ?Hp). by rewrite Hp.
Qed.

Lemma planner_nodes_without x members :
  planner_nodes (filter (fun n => NodeID n <> x) members) =
  filter (fun n => NodeID n <> x) (planner_nodes members).
Proof.
  unfold planner_nodes. rewrite distinct_members_without.
  apply (sort_by_filter _ NodeID); [by intros; apply str_less_irrefl|by intros *; apply str_less_trans|
    by intros *; apply str_less_total|apply distinct_members_spec].
Qed.

(** The souls with an ID, all different. *)
Definition souls_ok (souls : list (option Soul)) : Prop := NoDup (map ID (omap id souls)).

Lemma planner_souls_spec souls : souls_ok souls ->
  NoDup (map ID (planner_souls souls)) /\
  forall s, s ∈ planner_souls souls <-> Some s ∈ souls /\ ID s <> "".
Proof.
  intros Hd. unfold planner_souls. rewrite sort_by_perm. split.
  - eapply sublist_NoDup; [exact Hd|]. apply fmap_sublist, sublist_filter.
  - intros s. rewrite sort_by_perm, list_elem_of_filter, list_elem_of_omap. cbn. naive_solver.
Qed.

Lemma planner_souls_perm souls souls' :
  souls_ok souls -> souls' ≡ₚ souls -> planner_souls souls' = planner_souls souls.
Proof.
  intros Hd Hp. unfold planner_souls.
  apply (sort_by_canonical _ ID); [by intros; apply str_less_irrefl|by intros *; apply str_less_trans|
    by intros *; apply str_less_total| |by rewrite Hp].
  eapply sublist_NoDup; [exact Hd|]. apply fmap_sublist, sublist_filter.
Qed.

(** ** Choosing an owner *)

Definition named (nodes : list NodeLoad) : Prop := Forall (fun n => NodeID n <> "") nodes.

Lemma leastLoaded_fold counts : forall candidates best, named candidates ->
  let r := foldl (fun best node => if decide (best = "" \/ count counts (NodeID node) < count counts best)%Z
                                   then NodeID node else best) best candidates in
  (r = best \/ r ∈ map NodeID candidates) /\ (best <> "" \/ candidates <> [] -> r <> "") /\
  (best <> "" -> (count counts r <= count counts best)%Z) /\
  Forall (fun n => (count counts r <= count counts (NodeID n))%Z) candidates.
Proof.
  induction candidates as [|n candidates IH]; intros best Hn; cbn.
  { split_and!; [by left|tauto|lia|done]. }
  apply Forall_cons in Hn as [Hn Hr]. case_decide as Hd.
  - destruct (IH (NodeID n) Hr) as (H1 & H2 & H3 & H4). specialize (H3 Hn). split_and!.
    + right. destruct H1 as [-> | H1]; [by left|by right].
    + intros _. apply H2. by left.
    + intros Hb. destruct Hd as [Hd|Hd]; [done|]. lia.
    + by constructor.
  - apply Decidable.not_or in Hd as [Hb Hd]. destruct (IH best Hr) as (H1 & H2 & H3 & H4). specialize (H3 Hb).
    split_and!; [destruct H1; [by left|by right; right]|intros _; apply H2; by left|done|].
    constructor; [lia|done].
Qed.

Lemma leastLoaded_spec counts candidates : named candidates -> candidates <> [] ->
  leastLoaded counts candidates ∈ map NodeID candidates /\
  Forall (fun n => (count counts (leastLoaded counts candidates) <= count counts (NodeID n))%Z) candidates.
Proof.
  intros Hn Hne. destruct (leastLoaded_fold counts candidates "" Hn) as (H1 & H2 & _ & H4). split; [|done].
  destruct H1 as [H1|H1]; [|done]. by destruct (H2 (or_intror Hne)).
Qed.

(** [a] wins against [b] for a key. *)
Definition beats (key a b : string) : Prop :=
  (rendezvousScore key b < rendezvousScore key a)%Z \/
  rendezvousScore key a = rendezvousScore key b /\ str_lt a b.

Lemma beats_trans key a b c : beats key a b -> beats key b c -> beats key a c.
Proof.
  intros [H1|[H1 H1']] [H2|[H2 H2']]; [left; lia..|]. right. split; [congruence|]. by etransitivity.
Qed.

Lemma rendezvous_fold key : forall candidates best bestScore, named candidates ->
  (best <> "" -> bestScore = rendezvousScore key best) ->
  let r := (foldl (owner_step key) (best, bestScore) candidates).1 in
  (r = best \/ r ∈ map NodeID candidates) /\ (best <> "" \/ candidates <> [] -> r <> "") /\
  (best <> "" -> r = best \/ beats key r best) /\
  Forall (fun n => r = NodeID n \/ beats key r (NodeID n)) candidates.
Proof.
  induction candidates as [|n candidates IH]; intros best bestScore Hn Hs.
  { cbn. split_and!; [by left|tauto|by left|done]. }
  apply Forall_cons in Hn as [Hn Hr]. cbn [foldl owner_step]. cbv zeta. case_decide as Hd.
  - destruct (IH (NodeID n) (rendezvousScore key (NodeID n)) Hr (fun _ => eq_refl)) as (H1 & H2 & H3 & H4).
    specialize (H3 Hn). split_and!.
    + right. destruct H1 as [-> | H1]; [by left|by right].
    + intros _. apply H2. by left.
    + intros Hb. rewrite (Hs Hb) in Hd.
      assert (beats key (NodeID n) best) as Hbe
        by (unfold beats; destruct Hd as [Hd|[Hd|Hd]]; [done|left; lia|by right]).
      right. destruct H3 as [-> | H3]; [done|by eapply beats_trans].
    + by constructor.
  - apply Decidable.not_or in Hd as [Hb Hd]. destruct (IH best bestScore Hr Hs) as (H1 & H2 & H3 & H4).
    specialize (H3 Hb). rewrite (Hs Hb) in Hd.
    split_and!; [destruct H1; [by left|by right; right]|intros _; apply H2; by left|done|].
    constructor; [|done].
    assert (best = NodeID n \/ beats key best (NodeID n)) as Hbe.
    { unfold beats. apply Decidable.not_or in Hd as [Hd1 Hd2].
      destruct (str_lt_trichotomy best (NodeID n)) as [?|[?|?]]; [right|by left|right];
        destruct (decide (rendezvousScore key (NodeID n) = rendezvousScore key best)); [by right|left; lia|tauto|left; lia]. }
    destruct H3 as [-> | H3], Hbe as [<- | Hbe]; auto. right. by eapply beats_trans.
Qed.

(** ** The owners of one soul *)

Lemma rendezvousOwner_spec key candidates : named candidates -> candidates <> [] ->
  rendezvousOwner candidates key ∈ map NodeID candidates /\
  Forall (fun n => rendezvousOwner candidates key = NodeID n \/
                   beats key (rendezvousOwner candidates key) (NodeID n)) candidates.
Proof.
  intros Hn Hne. destruct (rendezvous_fold key candidates "" 0 Hn) as (H1 & H2 & _ & H4); [done|].
  split; [|done]. destruct H1 as [H1|H1]; [|done]. by destruct (H2 (or_intror Hne)).
Qed.

Lemma perm_first (l : list NodeLoad) n : NoDup (map NodeID l) -> n ∈ l ->
  l ≡ₚ n :: filter (fun m => NodeID m <> NodeID n) l.
Proof.
  induction l as [|m l IH]; [by intros _ ?%elem_of_nil|]. intros [Hm Hd]%NoDup_cons [->|Hn]%elem_of_cons.
  - rewrite filter_cons_False by tauto. constructor. symmetry. erewrite filter_all; [done|].
    apply Forall_forall. intros x Hx E. apply Hm. rewrite <- E. by apply list_elem_of_fmap_2.
  - rewrite filter_cons_True; [|intros E; apply Hm; rewrite E; by apply list_elem_of_fmap_2].
    rewrite (IH Hd Hn) at 1. constructor.
Qed.

(** The planner's list of candidates. *)
Definition pool (l : list NodeLoad) : Prop := named l /\ NoDup (map NodeID l).

Lemma pool_filter (P : NodeLoad -> Prop) `{forall n, Decision (P n)} l : pool l -> pool (filter P l).
Proof.
  intros [H1 H2]. split; [unfold named in *; rewrite Forall_forall in *; by intros n [_ Hn%H1]%list_elem_of_filter|]. eapply sublist_NoDup; [exact H2|].
  apply fmap_sublist, sublist_filter.
Qed.

Lemma pool_nodes members : pool (planner_nodes members).
Proof.
  destruct (planner_nodes_spec members) as [H1 H2]. split; [|done]. eapply Forall_impl; [exact H2|]. by intros ? [? ?].
Qed.

Lemma pool_eligible nodes soul : pool nodes -> pool (eligible nodes soul).
Proof. intros Hp. unfold eligible. case_decide; [by apply pool_filter|done]. Qed.

(** The first of the ranking is the owner, the others are ranked behind. *)
Lemma rank_owner candidates key : pool candidates -> candidates <> [] ->
  exists n, n ∈ candidates /\ NodeID n = rendezvousOwner candidates key /\
    rendezvousRank candidates key =
      n :: rendezvousRank (filter (fun m => NodeID m <> NodeID n) candidates) key.
Proof.
  intros [Hn Hd] Hne. destruct (rendezvousOwner_spec key candidates Hn Hne) as [Ho Hb].
  apply list_elem_of_fmap in Ho as (n & En & Hin). exists n. split; [done|]. split; [done|]. symmetry.
  assert (pool (filter (fun m => NodeID m <> NodeID n) candidates)) as [_ Hd'] by (by apply pool_filter).
  apply (sort_by_unique _ NodeID); [apply rank_irrefl|apply rank_trans|apply rank_total|done|..].
  - unfold rendezvousRank. rewrite sort_by_perm. symmetry. by apply perm_first.
  - constructor; [apply (sort_by_sorted _ NodeID); [apply rank_trans|apply rank_total|done]|].
    unfold rendezvousRank. rewrite sort_by_perm. apply Forall_forall. intros m [Hm Hin']%list_elem_of_filter.
    rewrite Forall_forall in Hb. apply rank_less_true. rewrite En in Hb. destruct (Hb m Hin') as [E|E]; [congruence|done].
Qed.

(** The owners [plan_soul] records. *)
Definition soul_owners (strategy : DistributionStrategy) (candidates : list NodeLoad) (redundancy : Z)
    (st : plan_state) (soul : Soul) : list string :=
  let owner := primary strategy (ps_counts st) candidates soul in
  owner :: if decide ((1 < redundancy)%Z /\ 1 < length candidates) then
             pickSecondaries strategy soul (filter (fun n => NodeID n <> owner) candidates)
               (ps_secondaryCounts st) (Z.to_nat (redundancy - 1))
           else [].

Lemma preferred_sub candidates soul : pool candidates -> candidates <> [] ->
  pool (preferred candidates soul) /\ preferred candidates soul <> [] /\
  forall n, n ∈ preferred candidates soul -> n ∈ candidates.
Proof.
  intros Hp Hne. unfold preferred. case_decide; [|done]. case_decide as Hl; [|done].
  split_and!; [by apply pool_filter|by intros E; rewrite E in Hl; cbn in Hl; lia|].
  by intros n [_ Hn]%list_elem_of_filter.
Qed.

Lemma primary_in strategy counts candidates soul : pool candidates -> candidates <> [] ->
  primary strategy counts candidates soul ∈ map NodeID candidates.
Proof.
  intros Hp Hne. destruct strategy; cbn; try (by apply leastLoaded_spec; [apply Hp|]).
  - destruct (preferred_sub candidates soul Hp Hne) as (Hp' & Hne' & Hs).
    destruct (leastLoaded_spec counts _ (proj1 Hp') Hne') as [Hin _].
    apply list_elem_of_fmap in Hin as (n & -> & Hn). by apply list_elem_of_fmap_2, Hs.
  - by apply rendezvousOwner_spec; [apply Hp|].
Qed.

(** Redundancy as the number of owners wanted. *)
Definition wanted (redundancy : Z) : nat := Nat.max 1 (Z.to_nat redundancy).

Lemma ranked_perm strategy soul counts rest :
  (if decide (strategy = StrategyHashBased) then rendezvousRank rest (ID soul)
   else sort_by (secondary_less strategy soul counts) rest) ≡ₚ rest.
Proof. case_decide; apply sort_by_perm. Qed.

Lemma soul_owners_valid strategy candidates redundancy st soul : pool candidates -> candidates <> [] ->
  NoDup (soul_owners strategy candidates redundancy st soul) /\
  (forall o, o ∈ soul_owners strategy candidates redundancy st soul -> o ∈ map NodeID candidates) /\
  length (soul_owners strategy candidates redundancy st soul) = Nat.min (wanted redundancy) (length candidates).
Proof.
  intros Hp Hne. pose proof (primary_in strategy (ps_counts st) candidates soul Hp Hne) as Ho.
  unfold soul_owners. set (owner := primary _ _ _ _) in *. unfold wanted.
  assert (length candidates <> 0) as Hl by (by destruct candidates).
  case_decide as Hr.
  - unfold pickSecondaries. pose proof (ranked_perm strategy soul (ps_secondaryCounts st)
      (filter (fun n => NodeID n <> owner) candidates)) as Hperm. cbv zeta. set (ranked := if decide _ then _ else _) in *.
    clearbody ranked. set (want := Z.to_nat (redundancy - 1)).
    apply list_elem_of_fmap in Ho as (n & En & Hin). rewrite En in *.
    assert (pool (filter (fun m => NodeID m <> NodeID n) candidates)) as [_ Hd] by (by apply pool_filter).
    assert (forall o, o ∈ map NodeID (take want ranked) -> o <> NodeID n /\ o ∈ map NodeID candidates) as Hs.
    { intros o (m & -> & Hm)%list_elem_of_fmap.
      assert (m ∈ ranked) as Hm' by (rewrite <- (take_drop want ranked); apply elem_of_app; by left).
      rewrite Hperm in Hm'. apply list_elem_of_filter in Hm' as [? ?]. split; [done|by apply list_elem_of_fmap_2]. }
    split_and!.
    + constructor; [by intros [? _]%Hs|]. rewrite <- Hperm in Hd. rewrite <- (take_drop want ranked), map_app in Hd.
      by apply NoDup_app in Hd as [Hd _].
    + intros o [->|Ho]%elem_of_cons; [by apply list_elem_of_fmap_2|by apply Hs].
    + cbn [length]. rewrite length_map, length_take, Hperm.
      pose proof (Permutation_length (perm_first candidates n (proj2 Hp) Hin)) as E. cbn in E. lia.
  - split_and!.
    + apply NoDup_singleton.
    + by intros o ->%list_elem_of_singleton.
    + cbn. lia.
Qed.

(** For hash-based plans: the best of the ranking. *)
Lemma soul_owners_hash candidates redundancy st soul : pool candidates -> candidates <> [] ->
  soul_owners StrategyHashBased candidates redundancy st soul =
  map NodeID (take (wanted redundancy) (rendezvousRank candidates (ID soul))).
Proof.
  intros Hp Hne. destruct (rank_owner candidates (ID soul) Hp Hne) as (n & Hin & En & Er).
  unfold soul_owners, primary. rewrite <- En, Er. unfold wanted.
  replace (Nat.max 1 (Z.to_nat redundancy)) with (S (Z.to_nat (redundancy - 1))) by lia. cbn [take map]. f_equal.
  case_decide as Hr; [done|]. symmetry.
  assert (length (map NodeID (take (Z.to_nat (redundancy - 1))
    (rendezvousRank (filter (fun m => NodeID m <> NodeID n) candidates) (ID soul)))) = 0) as Hl;
    [|by destruct (map NodeID _)].
  rewrite length_map, length_take. unfold rendezvousRank. rewrite sort_by_perm.
  pose proof (Permutation_length (perm_first candidates n (proj2 Hp) Hin)) as E. cbn in E. lia.
Qed.

(** ** Whole plans *)

Section plans.
Context (strategy : DistributionStrategy) (nodes : list NodeLoad) (redundancy : Z).

Lemma plan_soul_eq st soul :
  ps_plan (plan_soul strategy nodes redundancy st soul) =
    (if decide (eligible nodes soul = []) then ps_plan st
     else <[ID soul:=soul_owners strategy (eligible nodes soul) redundancy st soul]> (ps_plan st)) /\
  ps_counts (plan_soul strategy nodes redundancy st soul) =
    (if decide (eligible nodes soul = []) then ps_counts st
     else incr (primary strategy (ps_counts st) (eligible nodes soul) soul) (ps_counts st)).
Proof.
  unfold plan_soul. destruct (eligible nodes soul) as [|n l] eqn:E; [done|].
  by rewrite decide_False.
Qed.

(** Every soul is planned once, whatever the state it is planned in. *)
Lemma plan_fold (V : Soul -> list string -> Prop) :
  (forall st s, eligible nodes s <> [] -> V s (soul_owners strategy (eligible nodes s) redundancy st s)) ->
  forall souls st, NoDup (map ID souls) ->
  let plan := ps_plan (foldl (plan_soul strategy nodes redundancy) st souls) in
  (forall k, k ∉ map ID souls -> plan !! k = ps_plan st !! k) /\
  (forall s, s ∈ souls -> ps_plan st !! ID s = None ->
    match plan !! ID s with Some o => eligible nodes s <> [] /\ V s o | None => eligible nodes s = [] end).
Proof.
  intros HV. induction souls as [|s souls IH]; intros st Hd; cbn; [by split; [|intros ? ?%elem_of_nil]|].
  cbn in Hd. apply NoDup_cons in Hd as [Hs Hd]. destruct (IH (plan_soul strategy nodes redundancy st s) Hd) as [H1 H2].
  pose proof (proj1 (plan_soul_eq st s)) as Ep. split.
  - intros k Hk. apply not_elem_of_cons in Hk as [Hks Hk]. rewrite H1, Ep by done.
    case_decide; [done|]. by rewrite lookup_insert_ne.
  - intros s' [->|Hin]%elem_of_cons Hfresh.
    + rewrite H1, Ep by done. case_decide as He; [by rewrite Hfresh|]. rewrite lookup_insert_eq. auto.
    + apply H2; [done|]. rewrite Ep. case_decide; [done|]. rewrite lookup_insert_ne; [done|].
      intros E. apply Hs. rewrite E. by apply list_elem_of_fmap_2.
Qed.

(** More redundancy leaves the primaries alone. *)
Lemma plan_fold_primary r2 : forall souls st st2,
  ps_counts st = ps_counts st2 -> first_owner <$> ps_plan st = first_owner <$> ps_plan st2 ->
  first_owner <$> ps_plan (foldl (plan_soul strategy nodes redundancy) st souls) =
  first_owner <$> ps_plan (foldl (plan_soul strategy nodes r2) st2 souls).
Proof.
  induction souls as [|s souls IH]; intros st st2 Ec Ep; [done|]. cbn [foldl]. apply IH.
  - unfold plan_soul. case_decide; [done|]. cbn. by rewrite Ec.
  - unfold plan_soul. case_decide; [done|]. cbn. rewrite !fmap_insert. unfold first_owner at 1 3. cbn.
    by rewrite Ec, Ep.
Qed.
End plans.

Lemma PlanOwnerSets_spec (V : Soul -> list string -> Prop) strategy souls members redundancy :
  let nodes := planner_nodes members in
  souls_ok souls ->
  (forall st s, eligible nodes s <> [] -> V s (soul_owners strategy (eligible nodes s) redundancy st s)) ->
  forall s, Some s ∈ souls -> ID s <> "" ->
  match PlanOwnerSets strategy souls members redundancy !! ID s with
  | Some o => eligible nodes s <> [] /\ V s o
  | None => eligible nodes s = []
  end.
Proof.
  intros nodes Hd HV s Hs Hid. destruct (planner_souls_spec souls Hd) as [Hn Hin].
  destruct (plan_fold strategy nodes redundancy V HV (planner_souls souls) (PlanState ∅ ∅ ∅) Hn) as [_ H2].
  apply H2; [by apply Hin|done].
Qed.

Lemma eligible_in nodes soul n :
  n ∈ eligible nodes soul <-> n ∈ nodes /\ (Regions soul = [] \/ n_Region n ∈ Regions soul).
Proof.
  unfold eligible. destruct (Regions soul) as [|r rs]; cbn [length].
  - rewrite decide_False by lia. naive_solver.
  - rewrite decide_True by lia. rewrite list_elem_of_filter. naive_solver.
Qed.

(** ** Plans depend only on their inputs as sets *)

(** Every node computes the same plan. The plan is the same for any order
    in which the souls and the members are listed, for every strategy and
    redundancy; the IDs of souls, and of members, are distinct. *)
Lemma plan_deterministic strategy souls souls' members members' redundancy :
  souls_ok souls -> NoDup (map NodeID members) -> souls' ≡ₚ souls -> members' ≡ₚ members ->
  PlanOwnerSets strategy souls' members' redundancy = PlanOwnerSets strategy souls members redundancy /\
  PlanOwnership strategy souls' members' = PlanOwnership strategy souls members.
Proof.
  intros Hs Hm Ps Pm. unfold PlanOwnership, PlanOwnerSets.
  by rewrite (planner_nodes_perm members members' Hm Pm), (planner_souls_perm souls souls' Hs Ps).
Qed.

(** A member that may probe a soul: it has an ID, and the region of its entry
    (the first one listed for the ID) is among the soul's, unless the soul
    names none. *)
Definition may_probe (members : list NodeLoad) (s : Soul) (id : string) : Prop :=
  id <> "" /\ exists n, head (filter (fun m => NodeID m = id) members) = Some n /\
    (Regions s = [] \/ exists i, Regions s !! i = Some (n_Region n)).

Lemma eligible_may_probe members s id :
  id ∈ map NodeID (eligible (planner_nodes members) s) <-> may_probe members s id.
Proof.
  rewrite list_elem_of_fmap. unfold may_probe, planner_nodes. setoid_rewrite eligible_in.
  setoid_rewrite sort_by_perm. setoid_rewrite elem_of_distinct_members.
  setoid_rewrite list_elem_of_lookup. split.
  - intros (n & -> & (H1 & _ & H2) & H3). split; [done|]. by exists n.
  - intros (H1 & n & H2 & H3). assert (NodeID n = id) as E.
    { assert (n ∈ filter (fun m => NodeID m = id) members) as Hin.
      { destruct (filter _ _) as [|x l]; [done|]. injection H2 as ->. by left. }
      by apply list_elem_of_filter in Hin as [? _]. }
    exists n. rewrite E. split; [done|]. split; [|done]. split_and!; [done|set_solver|done].
Qed.

(** C20: every plan is valid and as redundant as it can be. The owners of a
    soul are distinct and may probe it: each has an entry in one of the soul's
    regions (in any region when the soul names none). There are as many as
    asked for, or all members that may probe the soul when there are fewer; a
    soul is left out exactly when no member may probe it; and asking for more
    owners never moves the primary. *)
Theorem plan_valid strategy souls members redundancy :
  souls_ok souls ->
  (forall s, Some s ∈ souls -> ID s <> "" ->
    exists able : gset string, (forall id, id ∈ able <-> may_probe members s id) /\
    match PlanOwnerSets strategy souls members redundancy !! ID s with
    | Some owners =>
        able <> ∅ /\ NoDup owners /\ (forall o, o ∈ owners -> may_probe members s o) /\
        Z.of_nat (length owners) = Z.min (Z.max 1 redundancy) (Z.of_nat (size able))
    | None => able = ∅
    end) /\
  PlanOwnership strategy souls members =
    first_owner <$> PlanOwnerSets strategy souls members redundancy.
Proof.
  intros Hd. split; [|by apply plan_fold_primary].
  intros s Hs Hid. set (nodes := planner_nodes members).
  exists (list_to_set (map NodeID (eligible nodes s))). split.
  { intros id. rewrite elem_of_list_to_set. apply eligible_may_probe. }
  pose proof (pool_eligible nodes s (pool_nodes members)) as Hpool.
  pose proof (PlanOwnerSets_spec (fun s o => NoDup o /\
    (forall x, x ∈ o -> x ∈ map NodeID (eligible nodes s)) /\
    length o = Nat.min (wanted redundancy) (length (eligible nodes s))) strategy souls members redundancy Hd) as Hsp.
  cbv zeta in Hsp. fold nodes in Hsp. specialize (Hsp (fun st s He => soul_owners_valid strategy _ redundancy st s
    (pool_eligible nodes s (pool_nodes members)) He) s Hs Hid).
  destruct (PlanOwnerSets _ _ _ _ !! ID s) as [o|]; [|by rewrite Hsp]. destruct Hsp as (Hne & Hn & Hin & Hl).
  split_and!; [|done| |].
  - destruct (eligible nodes s) as [|n l]; [done|]. cbn. set_solver.
  - intros x Hx%Hin. by apply eligible_may_probe.
  - rewrite size_list_to_set by apply Hpool. rewrite Hl, length_map. unfold wanted. lia.
Qed.

(** *** Hash-based plans under membership changes *)

Lemma take_filter_prefix {A} (P : A -> Prop) `{forall x, Decision (P x)} l : forall k,
  filter P (take k l) `prefix_of` take k (filter P l).
Proof.
  induction l as [|x l IH]; intros k; [by destruct k|]. destruct k as [|k]; [done|]. cbn [take].
  rewrite !filter_cons. case_decide; [by apply prefix_cons|]. etransitivity; [apply IH|].
  exists (take 1 (drop k (filter P l))). rewrite take_take_drop. f_equal. lia.
Qed.

Lemma take_filter_all {A} (P : A -> Prop) `{forall x, Decision (P x)} l : forall k,
  Forall P (take k l) -> take k (filter P l) = take k l.
Proof.
  induction l as [|x l IH]; intros k Hk; [by destruct k|]. destruct k as [|k]; [done|]. cbn [take] in *.
  apply Forall_cons in Hk as [Hx Hk]. rewrite filter_cons_True by done. cbn. by rewrite IH.
Qed.

Lemma eligible_without x nodes soul :
  eligible (filter (fun n => NodeID n <> x) nodes) soul = filter (fun n => NodeID n <> x) (eligible nodes soul).
Proof.
  unfold eligible. case_decide; [|done]. rewrite !list_filter_filter. apply list_filter_iff. naive_solver.
Qed.

Lemma hash_plan souls members redundancy s :
  souls_ok souls -> Some s ∈ souls -> ID s <> "" ->
  match PlanOwnerSets StrategyHashBased souls members redundancy !! ID s with
  | Some o => eligible (planner_nodes members) s <> [] /\
      o = map NodeID (take (wanted redundancy) (rendezvousRank (eligible (planner_nodes members) s) (ID s)))
  | None => eligible (planner_nodes members) s = []
  end.
Proof.
  intros Hd Hs Hid.
  apply (PlanOwnerSets_spec (fun s o => o = map NodeID (take (wanted redundancy)
    (rendezvousRank (eligible (planner_nodes members) s) (ID s))))); [done| |done|done].
  intros st s' He. apply soul_owners_hash; [apply pool_eligible, pool_nodes|done].
Qed.

(** C21: a hash-based plan moves only what it has to. When member [x] leaves,
    the owners of every soul [x] did not probe stay as they are, in the same
    order; a soul [x] did probe keeps its other owners in order and gets new
    ones at the end, and loses its place in the plan only if [x] was its only
    owner. Read backwards, the same holds when [x] joins. *)
Theorem hash_plan_stable souls members redundancy x s owners :
  souls_ok souls -> Some s ∈ souls -> ID s <> "" ->
  PlanOwnerSets StrategyHashBased souls members redundancy !! ID s = Some owners ->
  match PlanOwnerSets StrategyHashBased souls (filter (fun n => NodeID n <> x) members) redundancy !! ID s with
  | Some owners' =>
      filter (fun o => o <> x) owners `prefix_of` owners' /\ (x ∉ owners -> owners' = owners) /\ x ∉ owners'
  | None => owners = [x]
  end.
Proof.
  intros Hd Hs Hid Eo. pose proof (hash_plan souls members redundancy s Hd Hs Hid) as H1. rewrite Eo in H1.
  pose proof (hash_plan souls (filter (fun n => NodeID n <> x) members) redundancy s Hd Hs Hid) as H2.
  rewrite planner_nodes_without, eligible_without in H2.
  destruct (pool_eligible _ s (pool_nodes members)) as [Hn Hk].
  set (cands := eligible (planner_nodes members) s) in *. clearbody cands. destruct H1 as [Hne ->].
  assert (rendezvousRank (filter (fun n => NodeID n <> x) cands) (ID s) =
    filter (fun n => NodeID n <> x) (rendezvousRank cands (ID s))) as Er.
  { apply (sort_by_filter _ NodeID); [apply rank_irrefl|apply rank_trans|apply rank_total|done]. }
  assert (forall l, filter (fun o => o <> x) (map NodeID l) = map NodeID (filter (fun n => NodeID n <> x) l)) as Hfm.
  { induction l as [|n l IH]; [done|]. cbn [map]. rewrite !filter_cons. case_decide; cbn [map]; by rewrite IH. }
  clear Eo. destruct (PlanOwnerSets _ _ _ _ !! ID s) as [o|].
  - destruct H2 as [_ ->]. rewrite Er, Hfm. split_and!.
    + destruct (take_filter_prefix (fun n => NodeID n <> x) (rendezvousRank cands (ID s)) (wanted redundancy)) as [l ->].
      rewrite map_app. by eexists.
    + intros Hx. f_equal. apply take_filter_all. apply Forall_forall. intros n Hin E. apply Hx. rewrite <- E.
      by apply list_elem_of_fmap_2.
    + intros (n & -> & Hin)%list_elem_of_fmap.
      assert (n ∈ filter (fun m => NodeID m <> NodeID n) (rendezvousRank cands (ID s))) as [Hf _]%list_elem_of_filter;
        [|done]. rewrite <- (take_drop (wanted redundancy) (filter _ _)). apply elem_of_app. by left.
  - assert (forall n, n ∈ cands -> NodeID n = x) as Hx.
    { intros n Hin. destruct (decide (NodeID n = x)); [done|]. exfalso. apply (not_elem_of_nil n). rewrite <- H2.
      by apply list_elem_of_filter. }
    destruct cands as [|n [|m l]]; [done| |].
    + rewrite <- (Hx n) by (by left). unfold rendezvousRank. cbn. unfold wanted.
      replace (Nat.max 1 (Z.to_nat redundancy)) with (S (Z.to_nat redundancy - 1)) by lia. cbn. by rewrite take_nil.
    + exfalso. cbn in Hk. apply NoDup_cons in Hk as [Hk _]. apply Hk.
      rewrite (Hx n), <- (Hx m) by set_solver. by left.
Qed.

(** ** Balance *)

Definition owned (plan : list (string * string)) (n : string) : Z :=
  Z.of_nat (length (filter (fun e => e.2 = n) plan)).

Lemma owned_cons e plan n : owned (e :: plan) n = (owned plan n + if decide (e.2 = n) then 1 else 0)%Z.
Proof. unfold owned. rewrite filter_cons. case_decide; cbn [length]; lia. Qed.

Lemma owned_perm plan plan' n : plan ≡ₚ plan' -> owned plan n = owned plan' n.
Proof. intros Hp. unfold owned. by rewrite Hp. Qed.

Lemma count_incr m counts n : count (incr m counts) n = (count counts n + if decide (m = n) then 1 else 0)%Z.
Proof.
  unfold incr, count. case_decide as Hm; [subst m; by rewrite lookup_insert_eq|].
  rewrite lookup_insert_ne by done. lia.
Qed.

Lemma count_plan_spec plan n : count (count_plan plan) n = owned (map_to_list plan) n.
Proof.
  unfold count_plan. assert (forall l c, count (foldl (fun c e => incr e.2 c) c l) n = (count c n + owned l n)%Z) as ->.
  { induction l as [|e l IH]; intros c; cbn [foldl]; [unfold owned; cbn; lia|].
    rewrite IH, count_incr, owned_cons. lia. }
  unfold count. by rewrite lookup_empty.
Qed.

Lemma owned_insert (plan : gmap string string) k v n : plan !! k = None ->
  owned (map_to_list (<[k:=v]> plan)) n = (owned (map_to_list plan) n + if decide (v = n) then 1 else 0)%Z.
Proof. intros Hk. rewrite (owned_perm _ _ n (map_to_list_insert _ _ _ Hk)). apply owned_cons. Qed.

Lemma length_GetSoulsForNode d n : Z.of_nat (length (GetSoulsForNode d n)) = owned (map_to_list (soulMap d)) n.
Proof. unfold GetSoulsForNode, owned. by rewrite length_map. Qed.

Section balance.
Context (strategy : DistributionStrategy) (nodes : list NodeLoad).
Hypothesis even_strategy : strategy = StrategyRoundRobin \/ strategy = StrategyLoadBased.
Hypothesis nodes_pool : pool nodes.

(** Counts are what the plan says, and differ by at most one. *)
Definition balanced (st : plan_state) : Prop :=
  (forall n, count (ps_counts st) n = owned (map_to_list (first_owner <$> ps_plan st)) n) /\
  (forall a b, a ∈ nodes -> b ∈ nodes -> (count (ps_counts st) (NodeID a) <= count (ps_counts st) (NodeID b) + 1)%Z).

Lemma balanced_step st soul :
  Regions soul = [] -> ps_plan st !! ID soul = None -> balanced st -> balanced (plan_soul strategy nodes 1 st soul).
Proof.
  intros Hr Hf [H1 H2]. assert (eligible nodes soul = nodes) as He.
  { unfold eligible. rewrite Hr. by rewrite decide_False by (cbn; lia). }
  destruct (plan_soul_eq strategy nodes 1 st soul) as [Ep Ec]. unfold balanced. rewrite Ep, Ec, He.
  destruct (decide (nodes = [])) as [|Hne]; [done|].
  assert (primary strategy (ps_counts st) nodes soul = leastLoaded (ps_counts st) nodes) as Eo
    by (destruct even_strategy as [-> | ->]; done).
  destruct (leastLoaded_spec (ps_counts st) nodes (proj1 nodes_pool) Hne) as [Hin Hmin].
  rewrite Forall_forall in Hmin. unfold soul_owners. rewrite Eo. set (o := leastLoaded _ _) in *. split.
  - intros n. rewrite count_incr, fmap_insert, owned_insert, H1 by (by rewrite lookup_fmap, Hf). done.
  - intros a b Ha Hb. rewrite !count_incr. specialize (H2 a b Ha Hb). pose proof (Hmin b Hb).
    destruct (decide (o = NodeID a)) as [E|]; [rewrite <- E|]; repeat case_decide; lia.
Qed.

Lemma balanced_fold : forall souls st, NoDup (map ID souls) -> Forall (fun s => Regions s = []) souls ->
  (forall s, s ∈ souls -> ps_plan st !! ID s = None) -> balanced st ->
  balanced (foldl (plan_soul strategy nodes 1) st souls).
Proof.
  induction souls as [|s souls IH]; intros st Hd Hr Hf Hb; [done|]. cbn in Hd. apply NoDup_cons in Hd as [Hs Hd].
  apply Forall_cons in Hr as [Hr1 Hr]. cbn [foldl]. apply IH; [done|done| |by apply balanced_step; [|apply Hf; left|]].
  intros s' Hin. rewrite (proj1 (plan_soul_eq strategy nodes 1 st s)). case_decide; [apply Hf; by right|].
  rewrite lookup_insert_ne; [apply Hf; by right|]. intros E. apply Hs. rewrite E. by apply list_elem_of_fmap_2.
Qed.
End balance.

Lemma member_planned members a : a <> "" -> a ∈ map NodeID members -> exists n, n ∈ planner_nodes members /\ NodeID n = a.
Proof.
  intros Ha Hin. assert (forall seen, a ∉ seen -> a ∈ map NodeID (distinct_members seen members)) as Hd.
  { induction members as [|m members IH]; [by apply elem_of_nil in Hin|]. intros seen Hs. cbn in *.
    destruct (decide (NodeID m = a)) as [E|E].
    - rewrite decide_False; [rewrite <- E; by left|]. rewrite E. tauto.
    - apply elem_of_cons in Hin as [->|Hin]; [done|]. case_decide; [by apply IH|]. cbn. right. apply IH; [done|set_solver]. }
  specialize (Hd ∅ (not_elem_of_empty _)). apply list_elem_of_fmap in Hd as (n & -> & Hn).
  exists n. split; [|done]. unfold planner_nodes. by rewrite sort_by_perm.
Qed.

(** Round-robin and load-based plans keep the load even. After [Rebuild]
    under one of these strategies, with no soul restricted to regions, any
    two members own numbers of souls that differ by at most one; and the soul
    counts [Rebuild] stores are, under every strategy, the numbers of souls
    [GetSoulsForNode] lists. *)
Lemma rebuild_balanced d souls members :
  souls_ok souls ->
  let d' := (Rebuild d souls members).1 in
  (forall nodeID n, nodeLoads d' !! nodeID = Some n ->
     SoulCount n = Z.of_nat (length (GetSoulsForNode d' nodeID))) /\
  (strategy d = StrategyRoundRobin \/ strategy d = StrategyLoadBased ->
   (forall s, Some s ∈ souls -> Regions s = []) ->
   forall a b, a ∈ map NodeID members -> b ∈ map NodeID members -> a <> "" -> b <> "" ->
     length (GetSoulsForNode d' a) <= S (length (GetSoulsForNode d' b))).
Proof.
  intros Hd d'. split.
  - intros nodeID n Hn. rewrite length_GetSoulsForNode. cbn in *. rewrite map_lookup_imap in Hn.
    destruct (nodeLoads d !! nodeID); [|done]. cbn in Hn. simplify_eq. cbn. apply count_plan_spec.
  - intros Hs Hr a b Ha Hb Ha' Hb'. destruct (planner_souls_spec souls Hd) as [Hn Hin].
    destruct (member_planned members a Ha' Ha) as (na & Hna & <-), (member_planned members b Hb' Hb) as (nb & Hnb & <-).
    destruct (balanced_fold (strategy d) (planner_nodes members) Hs (pool_nodes members) (planner_souls souls)
      (PlanState ∅ ∅ ∅)) as [H1 H2]; [done| |done| |].
    + apply Forall_forall. intros s [Hs' _]%Hin. auto.
    + split; [|intros; unfold count; cbn; rewrite !lookup_empty; cbn; lia].
      intros n. unfold count. cbn. rewrite lookup_empty, fmap_empty, map_to_list_empty. done.
    + specialize (H2 na nb Hna Hnb). rewrite !H1 in H2.
      apply Nat2Z.inj_le. rewrite Nat2Z.inj_succ, !length_GetSoulsForNode. cbn.
      unfold PlanOwnership, PlanOwnerSets. lia.
Qed.

(** ** Examples *)

Definition sample_souls : list (option Soul) :=
  [Some (MkSoul "db" "" []); None; Some (MkSoul "api" "" []); Some (MkSoul "web" "" [])].

Definition sample_members : list NodeLoad := [MkNode "n2" "eu" 0; MkNode "n1" "us" 0; MkNode "n3" "eu" 0].

Lemma sample_souls_ok : souls_ok sample_souls.
Proof. apply (bool_decide_unpack _). by vm_compute. Qed.

Lemma sample_members_ok : NoDup (map NodeID sample_members).
Proof. apply (bool_decide_unpack _). by vm_compute. Qed.

Lemma plan_deterministic_witness :
  PlanOwnerSets StrategyHashBased (reverse sample_souls) (reverse sample_members) 2 =
  PlanOwnerSets StrategyHashBased sample_souls sample_members 2.
Proof.
  apply (plan_deterministic StrategyHashBased sample_souls (reverse sample_souls) sample_members
    (reverse sample_members) 2 sample_souls_ok sample_members_ok); apply reverse_Permutation.
Defined.

(** A soul of two regions, probed from its second one only where it has to. *)
Definition sample_regional : list (option Soul) := [Some (MkSoul "mail" "" ["asia"; "eu"]); Some (MkSoul "ftp" "" ["asia"])].

Lemma plan_valid_witness :
  exists owners, PlanOwnerSets StrategyLoadBased sample_regional sample_members 2 !! "mail" = Some owners /\
    NoDup owners /\ (forall o, o ∈ owners -> may_probe sample_members (MkSoul "mail" "" ["asia"; "eu"]) o) /\
    PlanOwnerSets StrategyLoadBased sample_regional sample_members 2 !! "ftp" = None.
Proof.
  destruct (plan_valid StrategyLoadBased sample_regional sample_members 2) as [Hv _].
  { apply (bool_decide_unpack _). by vm_compute. }
  destruct (Hv (MkSoul "mail" "" ["asia"; "eu"]) ltac:(by left) ltac:(done)) as (able & Ha & Hp). cbn [ID] in Hp.
  destruct (PlanOwnerSets _ _ _ _ !! "mail") as [owners|].
  - destruct Hp as (_ & H2 & H3 & _). exists owners. split_and!; [done|done|exact H3|by vm_compute].
  - exfalso. assert ("n2" ∈ able) as H; [|set_solver]. apply Ha. split; [done|].
    exists (MkNode "n2" "eu" 0). split; [done|]. right. by exists 1.
Defined.

(** Member [n3] leaves; the soul stays where it is. *)
Lemma hash_plan_stable_witness :
  exists owners, PlanOwnerSets StrategyHashBased sample_souls sample_members 1 !! "db" = Some owners /\
    match PlanOwnerSets StrategyHashBased sample_souls (filter (fun n => NodeID n <> "n3") sample_members) 1 !! "db" with
    | Some owners' => owners' = owners
    | None => False
    end.
Proof.
  eexists. split; [vm_compute; reflexivity|].
  pose proof (hash_plan_stable sample_souls sample_members 1 "n3" (MkSoul "db" "" []) _ sample_souls_ok
    ltac:(by left) ltac:(done) ltac:(by vm_compute)) as Hs.
  cbn [ID] in Hs. destruct (PlanOwnerSets _ _ (filter _ _) _ !! "db") as [o|]; [|done].
  destruct Hs as (_ & Hs & _). apply Hs. by intros ?%list_elem_of_singleton.
Defined.

Lemma rebuild_balanced_witness :
  let d := (Rebuild (MkDistributor StrategyRoundRobin ∅ ∅) sample_souls sample_members).1 in
  length (GetSoulsForNode d "n1") <= S (length (GetSoulsForNode d "n3")).
Proof.
  apply (rebuild_balanced (MkDistributor StrategyRoundRobin ∅ ∅) sample_souls sample_members sample_souls_ok);
    [by left| |by right; left|by right; right; left|done|done].
  intros s Hs. repeat (apply elem_of_cons in Hs as [Hs|Hs]; [by simplify_eq|]). by apply elem_of_nil in Hs.
Defined.

(** A published test vector of FNV-1a. *)
Example fnv1a_a : fnv_write fnvOffset "a" = 12638187200555641996%Z.
Proof. by vm_compute. Qed.
