(* ===== verification/AuthData.v ===== *)
(** * Authentication: addresses, passwords, roles and records

    The pure parts of src/internal/auth/local.go and users.go with the roles of
    src/internal/core: the canonical form of an email address, what an address
    and a password must look like, which role may grant which, and the records
    the authenticator keeps. Times and durations are nanoseconds; 0 is Go's
    zero time. A string is the list of its bytes. *)
From stdpp Require Import base gmap strings list sorting.
From Stdlib Require Import ZArith Lia Strings.Ascii.
From Stdlib Require Strings.String.
From S2P Require Import Prelude GoStrings.

Open Scope Z_scope.

(** ** Addresses *)

Definition lower (c : ascii) : ascii :=
  if decide (65 <= code c <= 90)%N then ascii_of_N (code c + 32) else c.

Definition normalizeEmail (email : string) : string :=
  String.string_of_list_ascii (lower <$> trim_bytes (String.list_ascii_of_string email)).

Definition sameEmail (a b : string) : bool :=
  let na := normalizeEmail a in
  let nb := normalizeEmail b in
  bool_decide (na <> "") && bool_decide (na = nb).

Definition maxEmailLength : nat := 254.
Definition maxNameLength : nat := 100.

Definition at_sign : ascii := "@"%char.

Definition validateEmail (email : string) : bool :=
  let l := String.list_ascii_of_string email in
  if decide (email = "" \/ (maxEmailLength < String.length email)%nat \/
             Exists (fun c => code c ∈ [32; 9; 13; 10; 60; 62; 34]%N) l) then false else
  if decide (Exists (fun c => code c < 33 \/ 126 < code c)%N l) then false else
  match last_index at_sign email with
  | None => false
  | Some at_ =>
      if decide (at_ = O \/ at_ = (String.length email - 1)%nat \/
                 ~ ("."%char ∈ drop (S at_) l)) then false else true
  end.

(** ** Passwords *)

Definition minPasswordLength : nat := 12.

Definition upper_case (c : ascii) : Prop := (65 <= code c <= 90)%N.
Definition lower_case (c : ascii) : Prop := (97 <= code c <= 122)%N.
Definition digit (c : ascii) : Prop := (48 <= code c <= 57)%N.
Definition special (c : ascii) : Prop := ~ upper_case c /\ ~ lower_case c /\ ~ digit c.

#[export] Instance upper_case_dec c : Decision (upper_case c).
Proof. unfold upper_case; apply _. Defined.
#[export] Instance lower_case_dec c : Decision (lower_case c).
Proof. unfold lower_case; apply _. Defined.
#[export] Instance digit_dec c : Decision (digit c).
Proof. unfold digit; apply _. Defined.
#[export] Instance special_dec c : Decision (special c).
Proof. unfold special; apply _. Defined.

(** The code ranges over runes; a byte above 127 belongs to a rune that is
    special in every case, and every other rune is its own byte. *)
Definition validatePassword (password : string) : bool :=
  let l := String.list_ascii_of_string password in
  if decide (String.length password < minPasswordLength)%nat then false else
  let count (b : bool) : nat := if b then 1%nat else 0%nat in
  let classes :=
    (count (bool_decide (Exists upper_case l)) + count (bool_decide (Exists lower_case l)) +
     count (bool_decide (Exists digit l)) + count (bool_decide (Exists special l)))%nat in
  negb (bool_decide (classes < 3)%nat).

(** A configured password that is already a bcrypt hash. *)
Definition bcrypt_hashed (s : string) : bool :=
  HasPrefix s "$2a$" || HasPrefix s "$2b$" || HasPrefix s "$2y$".

(** ** Roles *)

Notation MemberRole := string (only parsing).
Definition RoleOwner : MemberRole := "owner".
Definition RoleAdmin : MemberRole := "admin".
Definition RoleEditor : MemberRole := "editor".
Definition RoleViewer : MemberRole := "viewer".
Definition RoleAPI : MemberRole := "api".

Definition apiKeyRoleRank (role : MemberRole) : Z :=
  if decide (role = RoleViewer) then 1 else
  if decide (role = RoleAPI) then 2 else
  if decide (role = RoleEditor) then 3 else
  if decide (role = RoleAdmin) then 4 else
  if decide (role = RoleOwner) then 5 else 0.

Definition ValidAPIKeyRole (role : MemberRole) : bool := bool_decide (apiKeyRoleRank role > 0).

Definition RoleWithin (role limit : MemberRole) : bool :=
  let r := apiKeyRoleRank role in
  let l := apiKeyRoleRank limit in
  bool_decide (r > 0 /\ l > 0 /\ r <= l).

Definition validMemberRole (role : MemberRole) : bool := ValidAPIKeyRole role.

Definition strictUpgrade (old next : MemberRole) : bool :=
  RoleWithin old next && negb (RoleWithin next old).

Definition perm_grants (permission p : string) : bool :=
  String.eqb p "*" || String.eqb p permission ||
  (HasSuffix p ":*" && HasPrefix permission (TrimSuffix p "*")).

Definition Can (r : MemberRole) (permission : string) : bool :=
  if decide (r = RoleOwner) then true else
  let perms :=
    if decide (r = RoleAdmin) then
      ["souls:*"; "judgments:read"; "channels:*"; "rules:*"; "members:*"; "settings:read";
       "settings:write"; "apikeys:*"]
    else if decide (r = RoleEditor) then ["souls:*"; "judgments:read"; "channels:read"; "rules:read"]
    else if decide (r = RoleViewer) then ["souls:read"; "judgments:read"; "channels:read"; "rules:read"]
    else if decide (r = RoleAPI) then ["souls:*"; "judgments:read"; "api:*"]
    else [] in
  existsb (perm_grants permission) perms.

(** ** Records *)

(** [api.User]: an identity, and what a request is authenticated as. *)
Record User := MkUser {
  u_ID : string;
  u_Email : string;
  u_Name : string;
  u_Role : string;
  u_Workspace : string;
  u_CreatedAt : Z;
  u_APIKeyID : string;
  u_MustChangePassword : bool;
}.

Definition IsAPIKey (u : User) : bool := bool_decide (u_APIKeyID u <> "").

Record session := MkSession { UserID : string; ExpiresAt : Z }.
Record resetToken := MkReset { rt_Email : string; rt_ExpiresAt : Z }.
Record loginAttempt := MkAttempt { Count : Z; LastTry : Z; LockedUntil : Z }.

Definition SourceLocal : string := "local".
Definition SourceOIDC : string := "oidc".
Definition SourceLDAP : string := "ldap".

Record accountRecord := MkAccount {
  PasswordHash : string;
  Source : string;
  Disabled : bool;
  MustChangePassword : bool;
  Memberships : gmap string MemberRole;
  UpdatedAt : Z;
  LastLoginAt : option Z;
}.

Definition source (r : accountRecord) : string := if decide (Source r = "") then SourceLocal else Source r.

Record invitationRecord := MkInvitation {
  inv_ID : string;
  inv_Email : string;
  inv_Role : MemberRole;
  inv_Workspace : string;
  inv_TokenHash : string;
  inv_InvitedBy : string;
  inv_InvitedByID : string;
  inv_CreatedAt : Z;
  inv_ExpiresAt : Z;
}.

Record Member := MkMember {
  m_ID : string;
  m_Email : string;
  m_Name : string;
  m_Role : MemberRole;
  m_Workspace : string;
  m_Source : string;
  m_Disabled : bool;
  m_MustChangePassword : bool;
  m_ConfiguredAdmin : bool;
  m_CreatedAt : Z;
  m_UpdatedAt : Z;
  m_LastLoginAt : option Z;
}.

Record Invitation := MkInvitationView {
  iv_ID : string;
  iv_Email : string;
  iv_Role : MemberRole;
  iv_Workspace : string;
  iv_InvitedBy : string;
  iv_CreatedAt : Z;
  iv_ExpiresAt : Z;
}.

Record CreateUserRequest := MkCreateUser {
  cr_Email : string;
  cr_Name : string;
  cr_Password : string;
  cr_Role : MemberRole;
}.

Record MemberUpdate := MkUpdate {
  mu_Role : option MemberRole;
  mu_Disabled : option bool;
  mu_Name : option string;
}.

Record MemberChange := MkChange { mc_Member : Member; mc_Revoked : bool }.

Definition workspaceOrDefault (ws : string) : string := if decide (ws = "") then "default" else ws.

Definition invitationView (inv : invitationRecord) : Invitation :=
  MkInvitationView (inv_ID inv) (inv_Email inv) (inv_Role inv) (inv_Workspace inv) (inv_InvitedBy inv)
    (inv_CreatedAt inv) (inv_ExpiresAt inv).

Definition sortedWorkspaces (m : gmap string MemberRole) : list string :=
  sort_by (fun a b => String.ltb a b) (map_to_list m).*1.

(** ** Facts about addresses *)

Lemma code_lower c : code (lower c) = (if decide (65 <= code c <= 90)%N then code c + 32 else code c)%N.
Proof.
  unfold lower. repeat case_decide; try done. unfold code at 1. by rewrite N_ascii_embedding by lia.
Qed.

Lemma lower_space1 a : space1 (lower a) = space1 a.
Proof. unfold space1; rewrite !code_lower. apply bool_decide_ext. case_decide; set_unfold; lia. Qed.
Lemma lower_space2 a b : space2 (lower a) (lower b) = space2 a b.
Proof. unfold space2; rewrite !code_lower. apply bool_decide_ext. repeat case_decide; set_unfold; lia. Qed.
Lemma lower_space3 a b c : space3 (lower a) (lower b) (lower c) = space3 a b c.
Proof. unfold space3; rewrite !code_lower. apply bool_decide_ext. repeat case_decide; set_unfold; lia. Qed.

Lemma lower_idem c : lower (lower c) = lower c.
Proof. unfold lower at 1. rewrite code_lower. repeat case_decide; try lia; done. Qed.

(** The canonical form is canonical: normalising again changes nothing. *)
Lemma normalizeEmail_idem e : normalizeEmail (normalizeEmail e) = normalizeEmail e.
Proof.
  unfold normalizeEmail. rewrite String.list_ascii_of_string_of_list_ascii. f_equal.
  destruct (trim_bytes_ends (String.list_ascii_of_string e)) as [H1 H2].
  set (l := trim_bytes (String.list_ascii_of_string e)) in *. clearbody l.
  rewrite trim_bytes_done.
  - rewrite <- list_fmap_compose. apply list_fmap_ext. intros ? x _. apply lower_idem.
  - rewrite starts_space_map; eauto using lower_space1, lower_space2, lower_space3.
  - change (rev (lower <$> l)) with (rev (map lower l)). rewrite <- map_rev.
    rewrite (starts_space_map _ _ lower); eauto using lower_space1, lower_space2, lower_space3.
Qed.

Lemma sameEmail_spec a b :
  sameEmail a b = true <-> normalizeEmail a <> "" /\ normalizeEmail a = normalizeEmail b.
Proof. unfold sameEmail. rewrite andb_true_iff, !bool_decide_eq_true. done. Qed.

Lemma sameEmail_normal e b : sameEmail (normalizeEmail e) b = sameEmail e b.
Proof. unfold sameEmail. by rewrite normalizeEmail_idem. Qed.

Lemma validateEmail_normal e : validateEmail e = true -> normalizeEmail e <> "".
Proof.
  unfold validateEmail. case_decide as H1; [done|]. case_decide as H2; [done|]. intros _.
  unfold normalizeEmail. rewrite trim_bytes_done.
  - destruct e as [|c e]; [naive_solver|]. simpl. done.
  - destruct e as [|a e]; [done|]. destruct (starts_front _) eqn:E; [|done]. exfalso. apply H2.
    apply Exists_cons_hd. destruct e as [|b [|c e]]; simpl in E; unfold space1, space2, space3 in E;
      rewrite ?orb_true_iff, !bool_decide_eq_true in E; set_unfold; lia.
  - destruct (rev _) as [|c l] eqn:E; [done|]. destruct (starts_back _) eqn:Es; [|done]. exfalso. apply H2.
    rewrite <- (rev_involutive (String.list_ascii_of_string e)), E. apply Exists_exists. exists c.
    split; [apply list_elem_of_In, in_rev; rewrite rev_involutive; by left|].
    destruct l as [|b [|a l]]; simpl in Es; unfold space1, space2, space3 in Es;
      rewrite ?orb_true_iff, !bool_decide_eq_true in Es; set_unfold; lia.
Qed.

(** ** Facts about roles *)

Lemma apiKeyRoleRank_inj r r' : apiKeyRoleRank r = apiKeyRoleRank r' -> 0 < apiKeyRoleRank r -> r = r'.
Proof. unfold apiKeyRoleRank. repeat case_decide; intros; subst; done || lia. Qed.

Lemma RoleWithin_valid r l : RoleWithin r l = true -> validMemberRole r = true.
Proof. unfold RoleWithin, validMemberRole, ValidAPIKeyRole. rewrite !bool_decide_eq_true. tauto. Qed.

Lemma RoleWithin_trans a b c : RoleWithin a b = true -> RoleWithin b c = true -> RoleWithin a c = true.
Proof. unfold RoleWithin. rewrite !bool_decide_eq_true. lia. Qed.

(** Only owners and administrators manage members. *)
Lemma Can_members r : Can r "members:*" = true <-> r = RoleOwner \/ r = RoleAdmin.
Proof.
  unfold Can. destruct (decide (r = RoleOwner)) as [->|]; [naive_solver|].
  destruct (decide (r = RoleAdmin)) as [->|]; [split; [auto|by vm_compute]|].
  repeat case_decide; split; vm_compute; naive_solver.
Qed.

Lemma workspaceOrDefault_nonempty ws : workspaceOrDefault ws <> "".
Proof. unfold workspaceOrDefault. by case_decide. Qed.

Lemma sortedWorkspaces_spec m ws : ws ∈ sortedWorkspaces m <-> is_Some (m !! ws).
Proof.
  unfold sortedWorkspaces. rewrite sort_by_perm, list_elem_of_fmap. split.
  - intros ([k v] & -> & H%elem_of_map_to_list). eauto.
  - intros [v Hv]. exists (ws, v). split; [done|]. by apply elem_of_map_to_list.
Qed.

Lemma sortedWorkspaces_nil m : sortedWorkspaces m = [] <-> m = ∅.
Proof.
  split.
  - intros E. apply map_empty. intros ws. destruct (m !! ws) eqn:H; [|done].
    assert (ws ∈ sortedWorkspaces m) as Hin by (apply sortedWorkspaces_spec; eauto). rewrite E in Hin. set_solver.
  - intros ->. done.
Qed.
