(* ===== verification/Auth.v ===== *)
(** * The local authenticator

    src/internal/auth/local.go and users.go: sign-in with brute-force
    protection, sessions, passwords and their reset, and the directory of
    accounts, workspace roles and invitations, kept in memory and written to a
    session file. Each critical section under [a.mu] is one function; an
    operation that checks a password between two of them is split there.
    [time.Now()], the random identifiers and the outcome of a write are
    arguments. Go maps of pointers are maps of values; the code keeps no nil
    pointer in memory, so nil occurs in the session file only. *)
From stdpp Require Import base gmap strings list sorting.
From Stdlib Require Import ZArith Lia.
From Stdlib Require Strings.String.
From S2P Require Import Prelude GoStrings AuthData.

Open Scope Z_scope.

(** ** State *)

(** What [rollbackStateLocked] saves and restores, and the configured address,
    which does not change. *)
Record directory := MkDirectory {
  tokens : gmap string session;
  resetTokens : gmap string resetToken;
  users : gmap string User;
  adminEmail : string;
  adminPasswordHash : string;
  accounts : gmap string accountRecord;
  invitations : gmap string invitationRecord;
}.

Definition set_tokens x d := MkDirectory x (resetTokens d) (users d) (adminEmail d) (adminPasswordHash d) (accounts d) (invitations d).
Definition set_resetTokens x d := MkDirectory (tokens d) x (users d) (adminEmail d) (adminPasswordHash d) (accounts d) (invitations d).
Definition set_users x d := MkDirectory (tokens d) (resetTokens d) x (adminEmail d) (adminPasswordHash d) (accounts d) (invitations d).
Definition set_adminPasswordHash x d := MkDirectory (tokens d) (resetTokens d) (users d) (adminEmail d) x (accounts d) (invitations d).
Definition set_accounts x d := MkDirectory (tokens d) (resetTokens d) (users d) (adminEmail d) (adminPasswordHash d) x (invitations d).
Definition set_invitations x d := MkDirectory (tokens d) (resetTokens d) (users d) (adminEmail d) (adminPasswordHash d) (accounts d) x.

(** Brute-force protection, guarded by [attemptsMu]. *)
Record attempts := MkAttempts {
  loginAttempts : gmap string loginAttempt;
  accountFailures : gmap string loginAttempt;
  knownLoginIPs : gmap string Z;
}.

(** The session file; a JSON null is [None]. *)
Record sessionData := MkSessionData {
  sd_Tokens : gmap string (option session);
  sd_Users : gmap string (option User);
  sd_ResetTokens : gmap string (option resetToken);
  sd_Lockouts : gmap string (option loginAttempt);
  sd_AccountBackoff : gmap string (option loginAttempt);
  sd_KnownLoginIPs : gmap string Z;
  sd_AdminEmail : string;
  sd_AdminPasswordHash : string;
  sd_AdminSeedHash : string;
  sd_Accounts : gmap string (option accountRecord);
  sd_Invitations : gmap string (option invitationRecord);
}.

Inductive auth_error :=
| ErrLocked (remaining : Z)
| ErrRateLimited (remaining : Z)
| ErrInvalidCredentials
| ErrInvalidToken
| ErrTokenExpired
| ErrUserNotFound
| ErrAccountDisabled
| ErrNoWorkspaceAccess
| ErrWorkspaceRequired
| ErrNoLocalPassword
| ErrWrongPassword
| ErrPolicy
| ErrHash
| ErrInvalidReset
| ErrResetExpired
| ErrInvalidInvitation
| ErrEmailUnavailable
| ErrOtherMethod
| ErrKeyOwner
| ErrAdminEmailRequired
| ErrBadFile
| ErrForbidden (why : string)
| ErrValidation (field : string)
| ErrConflict (why : string)
| ErrNotFound (entity id : string)
| ErrQuota (workspace : string)
| ErrPersist (committed : bool).

(** bcrypt, SHA-256 in hexadecimal, encoding/json of the session file, and the
    check [SetMemberQuota] installs. A generated hash verifies its password
    and carries one of the prefixes the constructor recognises. The round trip
    of the session file is that of valid UTF-8 text: encoding/json replaces
    other bytes. *)
Class AuthEnv := {
  bcrypt_generate : string -> string -> option string;
  bcrypt_compare : string -> string -> bool;
  sha256_hex : string -> string;
  memberQuota : string -> Z -> bool;
  auth_file : Type;
  encode_file : sessionData -> auth_file;
  decode_file : auth_file -> option sessionData;
  bcrypt_verifies salt p h : bcrypt_generate salt p = Some h -> bcrypt_compare h p = true;
  bcrypt_prefix salt p h : bcrypt_generate salt p = Some h -> bcrypt_hashed h = true;
  sha256_nonempty t : sha256_hex t <> "";
  decode_encode sd : decode_file (encode_file sd) = Some sd;
}.

(** The outcome of writing the session file: the rename may have happened
    although its directory could not be synced. *)
Inductive save_io := SaveOk | SaveFailed | SaveCommitted.

Section auth.
Context `{!AuthEnv}.

Record LocalAuthenticator := MkAuth {
  dir : directory;
  att : attempts;
  configSeedHash : string;
  sessionPath : string;
  credIndex : gmap string string;
  file : option auth_file;
}.

Definition set_dir x a := MkAuth x (att a) (configSeedHash a) (sessionPath a) (credIndex a) (file a).
Definition set_att x a := MkAuth (dir a) x (configSeedHash a) (sessionPath a) (credIndex a) (file a).
Definition set_seed x a := MkAuth (dir a) (att a) x (sessionPath a) (credIndex a) (file a).
Definition set_credIndex x a := MkAuth (dir a) (att a) (configSeedHash a) (sessionPath a) x (file a).
Definition set_file x a := MkAuth (dir a) (att a) (configSeedHash a) (sessionPath a) (credIndex a) x.

(** ** Limits *)

Definition second : Z := 1000000000.
Definition maxLoginAttempts : Z := 5.
Definition lockoutDuration : Z := 15 * 60 * second.
Definition attemptResetWindow : Z := 30 * 60 * second.
Definition accountBackoffThreshold : Z := 50.
Definition accountBackoffBase : Z := second.
Definition accountBackoffMax : Z := lockoutDuration.
Definition knownLoginIPTTL : Z := 30 * 24 * 3600 * second.
Definition maxKnownLoginIPs : nat := 64.
Definition maxTrackedLoginSources : nat := 4096.
Definition maxSessionsPerUser : nat := 10.
Definition maxSessions : nat := 200.
Definition maxResetTokens : nat := 20.
Definition sessionLifetime : Z := 24 * 3600 * second.
Definition resetLifetime : Z := 3600 * second.
Definition maxAccounts : nat := 150.
Definition maxPendingInvitations : nat := 25.
Definition invitationLifetime : Z := 7 * 24 * 3600 * second.

(** ** Accounts and their roles *)

Definition isConfiguredAdminLocked (d : directory) (u : User) : bool := sameEmail (u_Email u) (adminEmail d).

(** Go visits the map in any order; addresses are unique in every reachable
    state, so that there is one account to find. *)
Definition findByEmailLocked (d : directory) (email : string) : option User :=
  let key := normalizeEmail email in
  if decide (key = "") then None else
  head (filter (fun u => normalizeEmail (u_Email u) = key) (map_to_list (users d)).*2).

Definition knownEmailLocked (d : directory) (email : string) : bool :=
  if sameEmail email (adminEmail d) then true else
  match findByEmailLocked d email with
  | None => false
  | Some u =>
      match accounts d !! u_ID u with
      | None => false
      | Some rec => bool_decide (PasswordHash rec <> "")
      end
  end.

Definition migrated_account (d : directory) (u : User) : accountRecord :=
  MkAccount "" SourceLocal false false
    (if isConfiguredAdminLocked d u then {[ "default" := RoleOwner ]}
     else {[ workspaceOrDefault (u_Workspace u) :=
               if validMemberRole (u_Role u) then u_Role u else RoleViewer ]})
    (u_CreatedAt u) None.

Definition migrateDirectoryLocked (d : directory) : directory :=
  let kept := filter (fun kv => is_Some (users d !! kv.1)) (accounts d) in
  set_accounts (kept ∪ (migrated_account d <$> users d)) d.

Definition set_workspace ws u :=
  MkUser (u_ID u) (u_Email u) (u_Name u) (u_Role u) ws (u_CreatedAt u) (u_APIKeyID u) (u_MustChangePassword u).
Definition set_name n u :=
  MkUser (u_ID u) (u_Email u) n (u_Role u) (u_Workspace u) (u_CreatedAt u) (u_APIKeyID u) (u_MustChangePassword u).

Definition resolved_as (u : User) (rec : accountRecord) (ws : string) (role : MemberRole) : User :=
  MkUser (u_ID u) (u_Email u) (u_Name u) role ws (u_CreatedAt u) (u_APIKeyID u) (MustChangePassword rec).

Definition resolveLocked (d : directory) (u : User) : auth_error + User :=
  match accounts d !! u_ID u with
  | None => inr u
  | Some rec =>
      if Disabled rec then inl ErrAccountDisabled else
      let ws := workspaceOrDefault (u_Workspace u) in
      match Memberships rec !! ws with
      | Some role => inr (resolved_as u rec ws role)
      | None =>
          if isConfiguredAdminLocked d u then inr (resolved_as u rec ws RoleOwner) else
          match sortedWorkspaces (Memberships rec) with
          | [] => inl ErrNoWorkspaceAccess
          | first :: _ => inr (resolved_as u rec first (default "" (Memberships rec !! first)))
          end
      end
  end.

Definition passwordHashForLocked (d : directory) (email : string) : string :=
  if sameEmail email (adminEmail d) then adminPasswordHash d else
  match findByEmailLocked d email with
  | None => ""
  | Some user =>
      match accounts d !! u_ID user with
      | None => ""
      | Some rec => if decide (source rec <> SourceLocal) then "" else PasswordHash rec
      end
  end.

(** The index of credentials read without the lock, rebuilt after each change. *)
Definition index_account (d : directory) (id : string) (rec : accountRecord) (idx : gmap string string)
    : gmap string string :=
  match users d !! id with
  | Some u =>
      if decide (source rec = SourceLocal /\ PasswordHash rec <> "")
      then <[normalizeEmail (u_Email u) := PasswordHash rec]> idx else idx
  | None => idx
  end.

Definition credentials (d : directory) : gmap string string :=
  let idx := map_fold (index_account d) ∅ (accounts d) in
  if decide (adminEmail d <> "" /\ adminPasswordHash d <> "")
  then <[normalizeEmail (adminEmail d) := adminPasswordHash d]> idx else idx.

Definition refreshCredIndexLocked (a : LocalAuthenticator) : LocalAuthenticator :=
  set_credIndex (credentials (dir a)) a.

Definition lookupCredential (a : LocalAuthenticator) (email : string) : string :=
  default "" (credIndex a !! normalizeEmail email).

(** ** The session file *)

Definition snapshot (a : LocalAuthenticator) : sessionData :=
  let d := dir a in
  MkSessionData (Some <$> tokens d) (Some <$> users d) (Some <$> resetTokens d)
    (Some <$> loginAttempts (att a)) (Some <$> accountFailures (att a)) (knownLoginIPs (att a))
    (adminEmail d) (adminPasswordHash d) (configSeedHash a) (Some <$> accounts d) (Some <$> invitations d).

(** The answer is the error, and whether the file was replaced all the same. *)
Definition saveSessionsLocked (a : LocalAuthenticator) (io : save_io) : LocalAuthenticator * option bool :=
  if decide (sessionPath a = "") then (a, None) else
  let written := set_file (Some (encode_file (snapshot a))) a in
  match io with
  | SaveOk => (written, None)
  | SaveFailed => (a, Some false)
  | SaveCommitted => (written, Some true)
  end.

Definition persistOrRollbackLocked (before : directory) (a : LocalAuthenticator) (io : save_io)
    : LocalAuthenticator * option auth_error :=
  match saveSessionsLocked a io with
  | (a, None) => (refreshCredIndexLocked a, None)
  | (a, Some committed) =>
      let a := if committed : bool then a else set_dir before a in
      (refreshCredIndexLocked a, Some (ErrPersist committed))
  end.

(** The tick of [cleanupExpiredSessions]. *)
Definition cleanup_tick (a : LocalAuthenticator) (now : Z) (io : save_io) : LocalAuthenticator :=
  let d := dir a in
  let d := set_tokens (filter (fun kv => ~ now > ExpiresAt kv.2) (tokens d)) d in
  let d := set_resetTokens (filter (fun kv => ~ now > rt_ExpiresAt kv.2) (resetTokens d)) d in
  (saveSessionsLocked (set_dir d a) io).1.

(** ** Brute-force protection *)

Definition loginSourceKey (email clientIP : string) : string :=
  if decide (clientIP = "") then email else email +:+ "|" +:+ clientIP.

Definition knownLoginIPLocked (t : attempts) (email clientIP : string) (now : Z) : bool :=
  if decide (clientIP = "") then false else
  match knownLoginIPs t !! loginSourceKey email clientIP with
  | Some at_ => bool_decide (now - at_ <= knownLoginIPTTL)
  | None => false
  end.

Definition set_loginAttempts x t := MkAttempts x (accountFailures t) (knownLoginIPs t).
Definition set_accountFailures x t := MkAttempts (loginAttempts t) x (knownLoginIPs t).
Definition set_knownLoginIPs x t := MkAttempts (loginAttempts t) (accountFailures t) x.

Definition checkBruteForceProtectionFrom (t : attempts) (email clientIP : string) (now : Z)
    : attempts * option auth_error :=
  let key := loginSourceKey email clientIP in
  let account (t : attempts) :=
    match accountFailures t !! email with
    | Some acct =>
        if decide (now < LockedUntil acct /\ knownLoginIPLocked t email clientIP now = false)
        then (t, Some (ErrRateLimited (LockedUntil acct - now))) else (t, None)
    | None => (t, None)
    end in
  match loginAttempts t !! key with
  | Some attempt =>
      if decide (LockedUntil attempt <> 0 /\ now < LockedUntil attempt)
      then (t, Some (ErrLocked (LockedUntil attempt - now))) else
      if decide (LockedUntil attempt <> 0 /\ now > LockedUntil attempt)
      then account (set_loginAttempts (<[key := MkAttempt 0 (LastTry attempt) 0]> (loginAttempts t)) t)
      else account t
  | None => account t
  end.

Definition pruneLoginAttemptsLocked (now : Z) (m : gmap string loginAttempt) : gmap string loginAttempt :=
  filter (fun kv => ~ (now > LockedUntil kv.2 /\ now - LastTry kv.2 > attemptResetWindow)) m.

Definition book_source (now : Z) (attempt : loginAttempt) : loginAttempt :=
  let count := (if decide (now - LastTry attempt > attemptResetWindow) then 0 else Count attempt) + 1 in
  MkAttempt count now
    (if decide (count >= maxLoginAttempts) then now + lockoutDuration else LockedUntil attempt).

Definition book_account (now : Z) (acct : loginAttempt) : loginAttempt :=
  let acct := if decide (now - LastTry acct > attemptResetWindow)
              then MkAttempt 0 (LastTry acct) 0 else acct in
  let count := Count acct + 1 in
  let over := count - accountBackoffThreshold in
  MkAttempt count now
    (if decide (over >= 0) then
       now + (if decide (over < 20) then Z.min (Z.shiftl accountBackoffBase over) accountBackoffMax
              else accountBackoffMax)
     else LockedUntil acct).

Definition zero_attempt : loginAttempt := MkAttempt 0 0 0.

(** With the table of sources full, a new source is not tracked and the failure
    counts against the account only. *)
Definition book_failure (t : attempts) (email clientIP : string) (now : Z) : attempts :=
  let key := loginSourceKey email clientIP in
  let m := loginAttempts t in
  let m :=
    match m !! key with
    | Some attempt => <[key := book_source now attempt]> m
    | None =>
        let m := if decide (maxTrackedLoginSources <= size m)%nat then pruneLoginAttemptsLocked now m else m in
        if decide (size m < maxTrackedLoginSources)%nat
        then <[key := book_source now zero_attempt]> m else m
    end in
  let acct := default zero_attempt (accountFailures t !! email) in
  MkAttempts m (<[email := book_account now acct]> (accountFailures t)) (knownLoginIPs t).

Definition recordFailedAttemptFrom (a : LocalAuthenticator) (email clientIP : string) (now : Z) (io : save_io)
    : LocalAuthenticator :=
  if knownEmailLocked (dir a) email
  then (saveSessionsLocked (set_att (book_failure (att a) email clientIP now) a) io).1
  else a.

(** The oldest of the addresses that have not expired, with the expired ones
    dropped on the way. *)
Definition oldest_known (now : Z) (m : gmap string Z) : string * Z :=
  map_fold (fun key at_ '(oldestKey, oldest) => if decide (at_ > oldest) then (oldestKey, oldest) else (key, at_))
    ("", now) m.

Definition evictKnownLoginIPLocked (now : Z) (m : gmap string Z) : gmap string Z :=
  let m := filter (fun kv => ~ now - kv.2 > knownLoginIPTTL) m in
  let oldestKey := (oldest_known now m).1 in
  if decide ((maxKnownLoginIPs <= size m)%nat /\ oldestKey <> "") then delete oldestKey m else m.

Definition clear_attempts (t : attempts) (email clientIP : string) (now : Z) : attempts :=
  let key := loginSourceKey email clientIP in
  let t := set_loginAttempts (delete key (loginAttempts t)) t in
  if decide (clientIP <> "") then
    let m := knownLoginIPs t in
    let m := if decide (maxKnownLoginIPs <= size m)%nat then evictKnownLoginIPLocked now m else m in
    set_knownLoginIPs (<[key := now]> m) t
  else t.

Definition clearFailedAttemptsFrom (a : LocalAuthenticator) (email clientIP : string) (now : Z) (io : save_io)
    : LocalAuthenticator :=
  (saveSessionsLocked (set_att (clear_attempts (att a) email clientIP now) a) io).1.

(** ** Sessions *)

(** The loop that finds the entry that expires first; an empty key means that
    none was found yet. *)
Definition oldest_entry {A} (expires : A -> Z) (wanted : A -> bool) (m : gmap string A) : string * Z :=
  map_fold (fun t x '(oldest, at_) =>
    if wanted x && (bool_decide (oldest = "") || bool_decide (expires x < at_))
    then (t, expires x) else (oldest, at_)) ("", 0) m.

Definition evictOldest {A} (expires : A -> Z) (wanted : A -> bool) (m : gmap string A) : gmap string A :=
  delete (oldest_entry expires wanted m).1 m.

Definition owned_by (userID : string) (s : session) : bool := bool_decide (UserID s = userID).

Fixpoint evict_mine (userID : string) (mine : nat) (m : gmap string session) : gmap string session :=
  match mine with
  | O => m
  | S mine' =>
      if decide (maxSessionsPerUser <= mine)%nat
      then evict_mine userID mine' (evictOldest ExpiresAt (owned_by userID) m) else m
  end.

Fixpoint evict_until {A} (expires : A -> Z) (cap : nat) (fuel : nat) (m : gmap string A) : gmap string A :=
  match fuel with
  | O => m
  | S fuel =>
      if decide (cap <= size m)%nat
      then evict_until expires cap fuel (evictOldest expires (fun _ => true) m) else m
  end.

Definition capSessionsLocked (userID : string) (now : Z) (m : gmap string session) : gmap string session :=
  let m := filter (fun kv => ~ now > ExpiresAt kv.2) m in
  let mine := size (filter (fun kv => UserID kv.2 = userID) m) in
  let m := evict_mine userID mine m in
  evict_until ExpiresAt maxSessions (size m) m.

Definition Authenticate (a : LocalAuthenticator) (token : string) (now : Z) (io : save_io)
    : LocalAuthenticator * (auth_error + User) :=
  let d := dir a in
  match tokens d !! token with
  | None => (a, inl ErrInvalidToken)
  | Some sess =>
      if decide (now > ExpiresAt sess) then
        ((saveSessionsLocked (set_dir (set_tokens (delete token (tokens d)) d) a) io).1, inl ErrTokenExpired)
      else
      match users d !! UserID sess with
      | None => (a, inl ErrUserNotFound)
      | Some user => (a, resolveLocked d user)
      end
  end.

(** ** Sign-in *)

Definition admin_identity (d : directory) (newID : string) (now : Z) : User :=
  MkUser newID (adminEmail d) "Administrator" "admin" "default" now "" false.

Definition touch_login (now : Z) (rec : accountRecord) : accountRecord :=
  MkAccount (PasswordHash rec) (Source rec) (Disabled rec) (MustChangePassword rec) (Memberships rec)
    (UpdatedAt rec) (Some now).

(** The critical section of [LoginFrom] after the password was verified
    against [expectedHash]. *)
Definition login_finish (a : LocalAuthenticator) (email expectedHash clientIP newID token : string) (now : Z)
    (io_clear io : save_io) : LocalAuthenticator * (auth_error + User * string) :=
  let before := dir a in
  if decide (passwordHashForLocked before email <> expectedHash) then (a, inl ErrInvalidCredentials) else
  let '(user, d) :=
    match findByEmailLocked before email with
    | Some user => (user, before)
    | None =>
        let user := admin_identity before newID now in
        (user, migrateDirectoryLocked (set_users (<[newID := user]> (users before)) before))
    end in
  match resolveLocked d user with
  | inl _ => (set_dir before a, inl ErrInvalidCredentials)
  | inr resolved =>
      let a := clearFailedAttemptsFrom (set_dir d a) email clientIP now io_clear in
      let d := set_accounts (alter (touch_login now) (u_ID user) (accounts d)) d in
      let d := set_tokens (<[token := MkSession (u_ID user) (now + sessionLifetime)]>
                             (capSessionsLocked (u_ID user) now (tokens d))) d in
      match persistOrRollbackLocked before (set_dir d a) io with
      | (a, Some err) => (a, inl err)
      | (a, None) => (a, inr (resolved, token))
      end
  end.

(** [LoginFrom] of one caller with nobody in between: its critical sections in
    their order. *)
Definition LoginFrom (a : LocalAuthenticator) (email password clientIP newID token : string) (now : Z)
    (io_clear io : save_io) : LocalAuthenticator * (auth_error + User * string) :=
  let email := normalizeEmail email in
  match checkBruteForceProtectionFrom (att a) email clientIP now with
  | (t, Some err) => (set_att t a, inl err)
  | (t, None) =>
      let a := set_att t a in
      if decide (password = "") then
        (recordFailedAttemptFrom a email clientIP now io, inl ErrInvalidCredentials) else
      let expectedHash := lookupCredential a email in
      if decide (expectedHash = "") then (a, inl ErrInvalidCredentials) else
      if bcrypt_compare expectedHash password
      then login_finish a email expectedHash clientIP newID token now io_clear io
      else (recordFailedAttemptFrom a email clientIP now io, inl ErrInvalidCredentials)
  end.

Definition Logout (a : LocalAuthenticator) (token : string) (io : save_io)
    : LocalAuthenticator * option auth_error :=
  let before := dir a in
  persistOrRollbackLocked before (set_dir (set_tokens (delete token (tokens before)) before) a) io.

Definition SwitchWorkspace (a : LocalAuthenticator) (token workspace : string) (now : Z) (io : save_io)
    : LocalAuthenticator * (auth_error + User) :=
  if decide (workspace = "") then (a, inl ErrWorkspaceRequired) else
  let before := dir a in
  match tokens before !! token with
  | None => (a, inl ErrInvalidToken)
  | Some sess =>
      if decide (now > ExpiresAt sess) then
        ((saveSessionsLocked (set_dir (set_tokens (delete token (tokens before)) before) a) io).1,
         inl ErrTokenExpired)
      else
      match users before !! UserID sess with
      | None => (a, inl ErrUserNotFound)
      | Some user =>
          let user := set_workspace workspace user in
          let d := set_users (<[UserID sess := user]> (users before)) before in
          match resolveLocked d user with
          | inl err => (a, inl err)
          | inr resolved =>
              match persistOrRollbackLocked before (set_dir d a) io with
              | (a, Some err) => (a, inl err)
              | (a, None) => (a, inr resolved)
              end
          end
      end
  end.

(** ** Passwords *)

Definition set_password (now : Z) (hash : string) (rec : accountRecord) : accountRecord :=
  MkAccount hash (Source rec) (Disabled rec) false (Memberships rec) now (LastLoginAt rec).

Definition setPasswordHashLocked (d : directory) (user : User) (hash : string) (now : Z) : directory :=
  if isConfiguredAdminLocked d user then
    set_accounts (alter (fun rec => set_password now (PasswordHash rec) rec) (u_ID user) (accounts d))
      (set_adminPasswordHash hash d)
  else set_accounts (alter (set_password now hash) (u_ID user) (accounts d)) d.

Definition revokeUserSessionsLocked (userID : string) (d : directory) : directory :=
  set_tokens (filter (fun kv => ~ UserID kv.2 = userID) (tokens d)) d.

Definition drop_resets (email : string) (d : directory) : directory :=
  set_resetTokens (filter (fun kv => ~ sameEmail (rt_Email kv.2) email = true) (resetTokens d)) d.

Definition revokeCredentialsLocked (user : User) (d : directory) : directory :=
  drop_resets (u_Email user) (revokeUserSessionsLocked (u_ID user) d).

Definition ChangePassword (a : LocalAuthenticator) (token currentPassword newPassword salt : string) (now : Z)
    (io : save_io) : LocalAuthenticator * option auth_error :=
  let before := dir a in
  match tokens before !! token with
  | None => (a, Some ErrInvalidToken)
  | Some sess =>
      if decide (now > ExpiresAt sess) then
        (set_dir (set_tokens (delete token (tokens before)) before) a, Some ErrTokenExpired) else
      match users before !! UserID sess with
      | None => (a, Some ErrUserNotFound)
      | Some user =>
          let currentHash := passwordHashForLocked before (u_Email user) in
          if decide (currentHash = "") then (a, Some ErrNoLocalPassword) else
          if negb (bcrypt_compare currentHash currentPassword) then (a, Some ErrWrongPassword) else
          if negb (validatePassword newPassword) then (a, Some ErrPolicy) else
          match bcrypt_generate salt newPassword with
          | None => (a, Some ErrHash)
          | Some newHash =>
              let d := revokeCredentialsLocked user (setPasswordHashLocked before user newHash now) in
              persistOrRollbackLocked before (set_dir d a) io
          end
      end
  end.

(** The critical section of [RequestPasswordResetTo]; the answer is the token
    and the address it is sent to, both empty when there is no such account. *)
Definition reset_request (a : LocalAuthenticator) (email token : string) (now : Z) (io : save_io)
    : LocalAuthenticator * (auth_error + string * string) :=
  let before := dir a in
  let user :=
    match findByEmailLocked before email with
    | Some user => Some user
    | None => if decide (passwordHashForLocked before email <> "")
              then Some (MkUser "" (adminEmail before) "" "" "" 0 "" false) else None
    end in
  match user with
  | None => (a, inr ("", ""))
  | Some user =>
      if decide (passwordHashForLocked before email = "" \/
                 default false (Disabled <$> accounts before !! u_ID user) = true)
      then (a, inr ("", "")) else
      let m := filter (fun kv => ~ (now > rt_ExpiresAt kv.2 \/ sameEmail (rt_Email kv.2) (u_Email user) = true))
                 (resetTokens before) in
      let m := evict_until rt_ExpiresAt maxResetTokens (size m) m in
      let m := <[token := MkReset (u_Email user) (now + resetLifetime)]> m in
      match persistOrRollbackLocked before (set_dir (set_resetTokens m before) a) io with
      | (a, Some err) => (a, inl err)
      | (a, None) => (a, inr (token, u_Email user))
      end
  end.

Definition RequestPasswordResetTo (a : LocalAuthenticator) (email token : string) (now : Z) (io : save_io)
    : LocalAuthenticator * (auth_error + string * string) :=
  if decide (lookupCredential a email = "") then (a, inr ("", "")) else reset_request a email token now io.

Definition ConfirmPasswordReset (a : LocalAuthenticator) (token newPassword salt : string) (now : Z)
    (io : save_io) : LocalAuthenticator * option auth_error :=
  let before := dir a in
  match resetTokens before !! token with
  | None => (a, Some ErrInvalidReset)
  | Some rt =>
      let spent d := set_resetTokens (delete token (resetTokens d)) d in
      if decide (now > rt_ExpiresAt rt) then (set_dir (spent before) a, Some ErrResetExpired) else
      if negb (validatePassword newPassword) then (a, Some ErrPolicy) else
      match bcrypt_generate salt newPassword with
      | None => (a, Some ErrHash)
      | Some newHash =>
          match findByEmailLocked before (rt_Email rt) with
          | Some user =>
              let d := revokeCredentialsLocked user (setPasswordHashLocked before user newHash now) in
              persistOrRollbackLocked before (set_dir (spent d) a) io
          | None =>
              if sameEmail (rt_Email rt) (adminEmail before) then
                persistOrRollbackLocked before (set_dir (spent (set_adminPasswordHash newHash before)) a) io
              else (set_dir (spent before) a, Some ErrInvalidReset)
          end
      end
  end.

(** ** The directory *)

Definition ownersLocked (d : directory) (ws skipID : string) : nat :=
  size (filter (fun kv => ~ (kv.1 = skipID \/ Disabled kv.2 = true) /\ Memberships kv.2 !! ws = Some RoleOwner)
          (accounts d)).

Definition membersLocked (d : directory) (ws : string) (now : Z) : nat :=
  (size (filter (fun kv => is_Some (Memberships kv.2 !! ws)) (accounts d)) +
   size (filter (fun kv => inv_Workspace kv.2 = ws /\ (now < inv_ExpiresAt kv.2)%Z) (invitations d)))%nat.

(** [memberQuota] is called with the members and pending invitations; true is
    no error. *)
Definition checkMemberQuotaLocked (d : directory) (ws : string) (now : Z) : option auth_error :=
  if memberQuota ws (Z.of_nat (membersLocked d ws now)) then None else Some (ErrQuota ws).

Definition actorLocked (d : directory) (actor : option User) : auth_error + string * MemberRole :=
  match actor with
  | None => inl (ErrForbidden "authenticated user required")
  | Some actor =>
      if decide (u_ID actor = "") then inl (ErrForbidden "authenticated user required") else
      if IsAPIKey actor then inl (ErrForbidden "API keys cannot manage members") else
      match users d !! u_ID actor with
      | None => inl (ErrForbidden "not in this directory")
      | Some stored =>
          let view := if decide (u_Workspace actor <> "") then set_workspace (u_Workspace actor) stored
                      else stored in
          match resolveLocked d view with
          | inl _ => inl (ErrForbidden "no access")
          | inr resolved =>
              if Can (u_Role resolved) "members:*" then inr (u_Workspace resolved, u_Role resolved)
              else inl (ErrForbidden "role cannot manage members")
          end
      end
  end.

Definition memberViewLocked (d : directory) (u : User) (ws : string) : Member :=
  match accounts d !! u_ID u with
  | Some rec =>
      MkMember (u_ID u) (u_Email u) (u_Name u) (default "" (Memberships rec !! ws)) ws (source rec) (Disabled rec)
        (MustChangePassword rec) (isConfiguredAdminLocked d u) (u_CreatedAt u) (UpdatedAt rec) (LastLoginAt rec)
  | None =>
      MkMember (u_ID u) (u_Email u) (u_Name u) "" ws SourceLocal false false (isConfiguredAdminLocked d u)
        (u_CreatedAt u) 0 None
  end.

Definition ListMembers (d : directory) (workspace : string) : list Member :=
  let ws := workspaceOrDefault workspace in
  let member '(id, rec) :=
    if decide (is_Some (Memberships rec !! ws)) then (fun u => memberViewLocked d u ws) <$> users d !! id
    else None in
  sort_by (fun x y => String.ltb (normalizeEmail (m_Email x)) (normalizeEmail (m_Email y)))
    (omap member (map_to_list (accounts d))).

Definition IsMember (d : directory) (userID workspace : string) : bool :=
  match accounts d !! userID with
  | None => false
  | Some rec => if Disabled rec then false else bool_decide (is_Some (Memberships rec !! workspaceOrDefault workspace))
  end.

Definition CountMembers (d : directory) (workspace : string) (now : Z) : nat :=
  membersLocked d (workspaceOrDefault workspace) now.

Definition local_part (email : string) : string :=
  String.substring 0 (default O (last_index at_sign email)) email.

(** The part of [CreateUser] under the lock; [hash] is empty when no password
    was given. *)
Definition create_user (a : LocalAuthenticator) (actor : option User) (email name hash id : string)
    (role : MemberRole) (now : Z) (io : save_io) : LocalAuthenticator * (auth_error + Member) :=
  let before := dir a in
  match actorLocked before actor with
  | inl err => (a, inl err)
  | inr (ws, actorRole) =>
      if negb (RoleWithin role actorRole) then (a, inl (ErrForbidden "role above your own")) else
      if decide (is_Some (findByEmailLocked before email)) then (a, inl ErrEmailUnavailable) else
      if decide (hash = "") then (a, inl (ErrValidation "password")) else
      if decide (maxAccounts <= size (users before))%nat then (a, inl (ErrConflict "too many accounts")) else
      match checkMemberQuotaLocked before ws now with
      | Some err => (a, inl err)
      | None =>
          let name := if decide (name = "") then local_part email else name in
          let user := MkUser id email name role ws now "" false in
          let rec := MkAccount hash SourceLocal false true {[ ws := role ]} now None in
          let d := set_accounts (<[id := rec]> (accounts before))
                     (set_users (<[id := user]> (users before)) before) in
          match persistOrRollbackLocked before (set_dir d a) io with
          | (a, Some err) => (a, inl err)
          | (a, None) => (a, inr (memberViewLocked (dir a) user ws))
          end
      end
  end.

Definition CreateUser (a : LocalAuthenticator) (actor : option User) (req : CreateUserRequest) (id salt : string)
    (now : Z) (io : save_io) : LocalAuthenticator * (auth_error + Member) :=
  let email := TrimSpace (cr_Email req) in
  if negb (validateEmail email) then (a, inl (ErrValidation "email")) else
  let name := TrimSpace (cr_Name req) in
  if decide (maxNameLength < String.length name)%nat then (a, inl (ErrValidation "name")) else
  let role := if decide (cr_Role req = "") then RoleViewer else cr_Role req in
  if negb (validMemberRole role) then (a, inl (ErrValidation "role")) else
  if decide (cr_Password req = "") then create_user a actor email name "" id role now io else
  if negb (validatePassword (cr_Password req)) then (a, inl (ErrValidation "password")) else
  match bcrypt_generate salt (cr_Password req) with
  | None => (a, inl ErrHash)
  | Some hash => create_user a actor email name hash id role now io
  end.

Definition targetLocked (d : directory) (ws : string) (actorRole : MemberRole) (userID : string)
    : auth_error + User * accountRecord * MemberRole :=
  match users d !! userID, accounts d !! userID with
  | Some user, Some rec =>
      match Memberships rec !! ws with
      | None => inl (ErrNotFound "member" userID)
      | Some role =>
          if RoleWithin role actorRole then inr (user, rec, role)
          else inl (ErrForbidden "member above your own role")
      end
  | _, _ => inl (ErrNotFound "member" userID)
  end.

Definition actor_is_admin (d : directory) (actor : User) : bool :=
  match users d !! u_ID actor with Some u => isConfiguredAdminLocked d u | None => false end.

Definition accountScopeLocked (d : directory) (actor : User) (rec : accountRecord) (ws : string)
    : option auth_error :=
  if actor_is_admin d actor then None else
  if decide (map_Forall (fun other _ => other = ws) (Memberships rec)) then None
  else Some (ErrForbidden "belongs to other workspaces").

Definition sole_owner (d : directory) (userID : string) (kv : string * MemberRole) : Prop :=
  kv.2 = RoleOwner /\ ownersLocked d kv.1 userID = O.

#[export] Instance sole_owner_dec d userID kv : Decision (sole_owner d userID kv).
Proof. unfold sole_owner; apply _. Defined.

Definition lastOwnerError (ws : string) : auth_error := ErrConflict ws.

Definition accountWideLocked (d : directory) (actor user : User) (rec : accountRecord) (ws : string)
    : option auth_error :=
  if decide (u_ID user = u_ID actor) then Some (ErrForbidden "your own account") else
  if isConfiguredAdminLocked d user then Some (ErrForbidden "configured administrator") else
  match accountScopeLocked d actor rec ws with
  | Some err => Some err
  | None =>
      match filter (sole_owner d (u_ID user)) (map_to_list (Memberships rec)) with
      | (other, _) :: _ => Some (lastOwnerError other)
      | [] => None
      end
  end.

(** Whether [UpdateMember] accepts the request, all of it checked first. *)
Definition update_name (d : directory) (actor user : User) (rec : accountRecord) (ws : string)
    (update : MemberUpdate) : auth_error + option string :=
  match mu_Name update with
  | None => inr None
  | Some n =>
      let name := TrimSpace n in
      if decide (name = "" \/ (maxNameLength < String.length name)%nat) then inl (ErrValidation "name") else
      if decide (u_ID user = u_ID actor) then inr (Some name) else
      match accountScopeLocked d actor rec ws with Some err => inl err | None => inr (Some name) end
  end.

Definition update_role (d : directory) (actorRole current : MemberRole) (userID ws : string)
    (update : MemberUpdate) : auth_error + option MemberRole :=
  match mu_Role update with
  | None => inr None
  | Some next =>
      if decide (next = current) then inr None else
      if negb (validMemberRole next) then inl (ErrValidation "role") else
      if negb (RoleWithin next actorRole) then inl (ErrForbidden "role above your own") else
      if decide (current = RoleOwner /\ ownersLocked d ws userID = O) then inl (lastOwnerError ws)
      else inr (Some next)
  end.

Definition update_disabled (d : directory) (actor user : User) (rec : accountRecord) (ws : string)
    (update : MemberUpdate) : auth_error + option bool :=
  match mu_Disabled update with
  | None => inr None
  | Some b =>
      if decide (b = Disabled rec) then inr None else
      match (if b : bool then accountWideLocked d actor user rec ws else accountScopeLocked d actor rec ws) with
      | Some err => inl err
      | None => inr (Some b)
      end
  end.

Definition updated_account (now : Z) (ws : string) (role : option MemberRole) (disabled : option bool)
    (rec : accountRecord) : accountRecord :=
  MkAccount (PasswordHash rec) (Source rec) (default (Disabled rec) disabled) (MustChangePassword rec)
    (match role with Some r => <[ws := r]> (Memberships rec) | None => Memberships rec end) now (LastLoginAt rec).

Definition UpdateMember (a : LocalAuthenticator) (actor : option User) (userID : string) (update : MemberUpdate)
    (now : Z) (io : save_io) : LocalAuthenticator * (auth_error + MemberChange) :=
  let before := dir a in
  match actor with
  | None => (a, inl (ErrForbidden "authenticated user required"))
  | Some actor =>
  match actorLocked before (Some actor) with
  | inl err => (a, inl err)
  | inr (ws, actorRole) =>
      match targetLocked before ws actorRole userID with
      | inl err => (a, inl err)
      | inr (user, rec, current) =>
          match update_name before actor user rec ws update with
          | inl err => (a, inl err)
          | inr name =>
          match update_role before actorRole current userID ws update with
          | inl err => (a, inl err)
          | inr role =>
          match update_disabled before actor user rec ws update with
          | inl err => (a, inl err)
          | inr disabled =>
              let revoke :=
                match role with Some r => negb (strictUpgrade current r) | None => false end ||
                match disabled with Some b => b | None => false end in
              let user := match name with Some n => set_name n user | None => user end in
              let d := set_accounts (<[userID := updated_account now ws role disabled rec]> (accounts before))
                         (set_users (<[userID := user]> (users before)) before) in
              let d := if revoke then revokeUserSessionsLocked userID d else d in
              match persistOrRollbackLocked before (set_dir d a) io with
              | (a, Some err) => (a, inl err)
              | (a, None) => (a, inr (MkChange (memberViewLocked (dir a) user ws) revoke))
              end
          end
          end
          end
      end
  end
  end.

Definition deleteAccountLocked (user : User) (d : directory) : directory :=
  drop_resets (u_Email user)
    (set_accounts (delete (u_ID user) (accounts d)) (set_users (delete (u_ID user) (users d)) d)).

Definition left_workspace (now : Z) (ws : string) (rec : accountRecord) : accountRecord :=
  MkAccount (PasswordHash rec) (Source rec) (Disabled rec) (MustChangePassword rec)
    (delete ws (Memberships rec)) now (LastLoginAt rec).

Definition remove_member_state (before : directory) (user : User) (rec : accountRecord) (userID ws : string)
    (now : Z) : directory :=
  match sortedWorkspaces (delete ws (Memberships rec)) with
  | [] => deleteAccountLocked user before
  | first :: _ =>
      let user := if decide (workspaceOrDefault (u_Workspace user) = ws) then set_workspace first user else user in
      set_accounts (<[userID := left_workspace now ws rec]> (accounts before))
        (set_users (<[userID := user]> (users before)) before)
  end.

Definition RemoveMember (a : LocalAuthenticator) (actor : option User) (userID : string) (now : Z) (io : save_io)
    : LocalAuthenticator * (auth_error + MemberChange) :=
  let before := dir a in
  match actorLocked before actor with
  | inl err => (a, inl err)
  | inr (ws, actorRole) =>
      match targetLocked before ws actorRole userID with
      | inl err => (a, inl err)
      | inr (user, rec, role) =>
          if decide (role = RoleOwner /\ ownersLocked before ws userID = O) then (a, inl (lastOwnerError ws)) else
          if isConfiguredAdminLocked before user && bool_decide (size (Memberships rec) = 1%nat)
          then (a, inl (ErrForbidden "configured administrator")) else
          let d := revokeUserSessionsLocked userID (remove_member_state before user rec userID ws now) in
          match persistOrRollbackLocked before (set_dir d a) io with
          | (a, Some err) => (a, inl err)
          | (a, None) => (a, inr (MkChange (memberViewLocked before user ws) true))
          end
      end
  end.

Definition DeleteUser (a : LocalAuthenticator) (actor : option User) (userID : string) (io : save_io)
    : LocalAuthenticator * (auth_error + MemberChange) :=
  let before := dir a in
  match actor with
  | None => (a, inl (ErrForbidden "authenticated user required"))
  | Some actor =>
  match actorLocked before (Some actor) with
  | inl err => (a, inl err)
  | inr (ws, actorRole) =>
      match targetLocked before ws actorRole userID with
      | inl err => (a, inl err)
      | inr (user, rec, _) =>
          match accountWideLocked before actor user rec ws with
          | Some err => (a, inl err)
          | None =>
              let d := revokeUserSessionsLocked userID (deleteAccountLocked user before) in
              match persistOrRollbackLocked before (set_dir d a) io with
              | (a, Some err) => (a, inl err)
              | (a, None) => (a, inr (MkChange (memberViewLocked before user ws) true))
              end
          end
      end
  end
  end.

(** ** Invitations *)

Definition hashInviteToken (token : string) : string := sha256_hex token.

Definition pruneInvitationsLocked (now : Z) (m : gmap string invitationRecord) : gmap string invitationRecord :=
  filter (fun kv => now < inv_ExpiresAt kv.2) m.

Definition CreateInvitation (a : LocalAuthenticator) (actor : option User) (email : string) (role : MemberRole)
    (id token : string) (now : Z) (io : save_io) : LocalAuthenticator * (auth_error + Invitation * string) :=
  let email := TrimSpace email in
  if negb (validateEmail email) then (a, inl (ErrValidation "email")) else
  let role := if decide (role = "") then RoleViewer else role in
  if negb (validMemberRole role) then (a, inl (ErrValidation "role")) else
  let before := dir a in
  match actor with
  | None => (a, inl (ErrForbidden "authenticated user required"))
  | Some actor =>
  match actorLocked before (Some actor) with
  | inl err => (a, inl err)
  | inr (ws, actorRole) =>
      if negb (RoleWithin role actorRole) then (a, inl (ErrForbidden "role above your own")) else
      let member :=
        match findByEmailLocked before email with
        | Some existing =>
            match accounts before !! u_ID existing with
            | Some rec => bool_decide (is_Some (Memberships rec !! ws))
            | None => false
            end
        | None => false
        end in
      if member : bool then (a, inl (ErrConflict "already a member")) else
      let pending := filter (fun kv => ~ (inv_Workspace kv.2 = ws /\ sameEmail (inv_Email kv.2) email = true))
                       (pruneInvitationsLocked now (invitations before)) in
      if decide (maxPendingInvitations <= size pending)%nat then (a, inl (ErrConflict "too many invitations")) else
      match checkMemberQuotaLocked (set_invitations pending before) ws now with
      | Some err => (a, inl err)
      | None =>
          let inv := MkInvitation id email role ws (hashInviteToken token) (u_Email actor) (u_ID actor) now
                       (now + invitationLifetime) in
          let d := set_invitations (<[id := inv]> pending) before in
          match persistOrRollbackLocked before (set_dir d a) io with
          | (a, Some err) => (a, inl err)
          | (a, None) => (a, inr (invitationView inv, token))
          end
      end
  end
  end.

Definition ListInvitations (d : directory) (workspace : string) (now : Z) : list Invitation :=
  let ws := workspaceOrDefault workspace in
  sort_by (fun x y => bool_decide (iv_CreatedAt x > iv_CreatedAt y))
    (invitationView <$>
      (map_to_list (filter (fun kv => inv_Workspace kv.2 = ws /\ now < inv_ExpiresAt kv.2) (invitations d))).*2).

Definition RevokeInvitation (a : LocalAuthenticator) (actor : option User) (id : string) (io : save_io)
    : LocalAuthenticator * option auth_error :=
  let before := dir a in
  match actorLocked before actor with
  | inl err => (a, Some err)
  | inr (ws, actorRole) =>
      match invitations before !! id with
      | None => (a, Some (ErrNotFound "invitation" id))
      | Some inv =>
          if decide (inv_Workspace inv <> ws) then (a, Some (ErrNotFound "invitation" id)) else
          if negb (RoleWithin (inv_Role inv) actorRole) then (a, Some (ErrForbidden "role above your own")) else
          persistOrRollbackLocked before (set_dir (set_invitations (delete id (invitations before)) before) a) io
      end
  end.

Definition findInvitationLocked (d : directory) (hash : string) : option invitationRecord :=
  head (filter (fun inv => inv_TokenHash inv = hash) (map_to_list (invitations d)).*2).

Definition inviterValidLocked (d : directory) (inv : invitationRecord) : bool :=
  if decide (inv_InvitedByID inv = "") then false else
  match users d !! inv_InvitedByID inv, accounts d !! inv_InvitedByID inv with
  | Some inviter, Some _ =>
      match resolveLocked d (set_workspace (inv_Workspace inv) inviter) with
      | inl _ => false
      | inr resolved =>
          bool_decide (u_Workspace resolved = inv_Workspace inv) &&
          Can (u_Role resolved) "members:*" && RoleWithin (inv_Role inv) (u_Role resolved)
      end
  | _, _ => false
  end.

(** The look-up of [AcceptInvitation] under the read lock: whether the address
    has an account and the hash its password must match. *)
Definition accept_lookup (d : directory) (hash : string) (now : Z) : option (bool * string) :=
  match findInvitationLocked d hash with
  | None => None
  | Some inv =>
      if bool_decide (now < inv_ExpiresAt inv) && inviterValidLocked d inv then
        Some (bool_decide (is_Some (findByEmailLocked d (inv_Email inv))),
              passwordHashForLocked d (inv_Email inv))
      else None
  end.

Definition join_workspace (now : Z) (inv : invitationRecord) (rec : accountRecord) : accountRecord :=
  MkAccount (PasswordHash rec) (Source rec) (Disabled rec) (MustChangePassword rec)
    (match Memberships rec !! inv_Workspace inv with
     | Some _ => Memberships rec
     | None => <[inv_Workspace inv := inv_Role inv]> (Memberships rec)
     end) now (LastLoginAt rec).

(** The critical section of [AcceptInvitation] after the password was checked
    against [existingHash], or hashed to [pw] for a new account. *)
Definition accept_finish (a : LocalAuthenticator) (hash name : string) (existing : bool) (existingHash pw id : string)
    (now : Z) (io : save_io) : LocalAuthenticator * (auth_error + Member) :=
  let before := dir a in
  match findInvitationLocked before hash with
  | None => (a, inl ErrInvalidInvitation)
  | Some inv =>
      if negb (bool_decide (now < inv_ExpiresAt inv) && inviterValidLocked before inv)
      then (a, inl ErrInvalidInvitation) else
      let finish d user :=
        let d := set_invitations (delete (inv_ID inv) (invitations d)) d in
        match persistOrRollbackLocked before (set_dir d a) io with
        | (a, Some err) => (a, inl err)
        | (a, None) => (a, inr (memberViewLocked (dir a) user (inv_Workspace inv)))
        end in
      let changed := (a, inl (ErrConflict "account changed while accepting")) in
      match findByEmailLocked before (inv_Email inv) with
      | Some user =>
          if existing && bool_decide (passwordHashForLocked before (inv_Email inv) = existingHash) then
            match accounts before !! u_ID user with
            | None => changed
            | Some rec =>
                if Disabled rec then (a, inl ErrInvalidInvitation) else
                finish (set_accounts (<[u_ID user := join_workspace now inv rec]> (accounts before)) before) user
            end
          else changed
      | None =>
          if existing then changed else
          if decide (maxAccounts <= size (users before))%nat then (a, inl (ErrConflict "too many accounts")) else
          let user := MkUser id (inv_Email inv) name (inv_Role inv) (inv_Workspace inv) now "" false in
          let rec := MkAccount pw SourceLocal false false {[ inv_Workspace inv := inv_Role inv ]} now None in
          finish (set_accounts (<[id := rec]> (accounts before))
                    (set_users (<[id := user]> (users before)) before)) user
      end
  end.

Definition AcceptInvitation (a : LocalAuthenticator) (token name password id salt : string) (now : Z) (io : save_io)
    : LocalAuthenticator * (auth_error + Member) :=
  let name := TrimSpace name in
  if decide (token = "") then (a, inl ErrInvalidInvitation) else
  let hash := hashInviteToken token in
  match accept_lookup (dir a) hash now with
  | None => (a, inl ErrInvalidInvitation)
  | Some (true, existingHash) =>
      if decide (existingHash = "") then (a, inl (ErrValidation "password")) else
      if bcrypt_compare existingHash password
      then accept_finish a hash name true existingHash "" id now io
      else (a, inl (ErrValidation "password"))
  | Some (false, existingHash) =>
      if decide (name = "" \/ (maxNameLength < String.length name)%nat) then (a, inl (ErrValidation "name")) else
      if negb (validatePassword password) then (a, inl (ErrValidation "password")) else
      match bcrypt_generate salt password with
      | None => (a, inl ErrHash)
      | Some pw => accept_finish a hash name false existingHash pw id now io
      end
  end.

(** ** Accounts of identity providers, and API keys *)

Definition ProvisionExternalUser (a : LocalAuthenticator) (email name source_ id : string) (now : Z) (io : save_io)
    : LocalAuthenticator * (auth_error + User) :=
  let email := TrimSpace email in
  if negb (validateEmail email) then (a, inl (ErrValidation "email")) else
  let before := dir a in
  let finish d user :=
    match persistOrRollbackLocked before (set_dir d a) io with
    | (a, Some err) => (a, inl err)
    | (a, None) => (a, resolveLocked (dir a) user)
    end in
  match findByEmailLocked before email with
  | Some user =>
      match accounts before !! u_ID user with
      | None => (a, inl ErrOtherMethod)
      | Some rec =>
          if decide (source rec <> source_) then (a, inl ErrOtherMethod) else
          if Disabled rec then (a, inl ErrAccountDisabled) else
          let user := if decide (name <> "" /\ name <> u_Name user /\ (String.length name <= maxNameLength)%nat)
                      then set_name name user else user in
          finish (set_accounts (<[u_ID user := touch_login now rec]> (accounts before))
                    (set_users (<[u_ID user := user]> (users before)) before)) user
      end
  | None =>
      if decide (maxAccounts <= size (users before))%nat then (a, inl (ErrConflict "too many accounts")) else
      match checkMemberQuotaLocked before "default" now with
      | Some err => (a, inl err)
      | None =>
          let name := if decide (name = "" \/ (maxNameLength < String.length name)%nat) then email else name in
          let user := MkUser id email name RoleViewer "default" now "" false in
          let rec := MkAccount "" source_ false false {[ "default" := RoleViewer ]} now (Some now) in
          finish (set_accounts (<[id := rec]> (accounts before))
                    (set_users (<[id := user]> (users before)) before)) user
      end
  end.

Definition ResolveExternalUser (d : directory) (u : User) : auth_error + User :=
  match users d !! u_ID u with
  | None => inr u
  | Some stored => resolveLocked d (set_workspace (u_Workspace u) stored)
  end.

Definition CheckKeyOwner (d : directory) (ownerID workspace : string) (role : MemberRole) : option auth_error :=
  match users d !! ownerID, accounts d !! ownerID with
  | Some user, Some _ =>
      let ws := workspaceOrDefault workspace in
      match resolveLocked d (set_workspace ws user) with
      | inl err => Some err
      | inr resolved =>
          if bool_decide (u_Workspace resolved = ws) && RoleWithin role (u_Role resolved)
          then None else Some ErrKeyOwner
      end
  | _, _ => Some ErrKeyOwner
  end.

(** ** Construction from the session file *)

Definition configPasswordMatchesSeed (seed configured : string) : bool :=
  if decide (seed = "") then true else
  if decide (configured = "") then false else
  if bcrypt_hashed configured then bool_decide (configured = seed)
  else bcrypt_compare seed configured.

Definition present {A} (m : gmap string (option A)) : gmap string A := omap id m.

Definition attempt_live (now : Z) (att_ : loginAttempt) : Prop :=
  (LockedUntil att_ <> 0 /\ now < LockedUntil att_) \/
  (LastTry att_ <> 0 /\ now - LastTry att_ <= attemptResetWindow).

#[export] Instance attempt_live_dec now x : Decision (attempt_live now x).
Proof. unfold attempt_live; apply _. Defined.

Definition loadSessions (a : LocalAuthenticator) (configPassword : string) (now : Z) : LocalAuthenticator :=
  match (if decide (sessionPath a = "") then None else file a ≫= decode_file) with
  | None => a
  | Some sd =>
      let d := dir a in
      let keep := bool_decide (sd_AdminPasswordHash sd <> "") && bool_decide (sd_AdminEmail sd = adminEmail d) &&
                  configPasswordMatchesSeed (sd_AdminSeedHash sd) configPassword in
      let hash := if keep then sd_AdminPasswordHash sd else adminPasswordHash d in
      let seed := if keep && bool_decide (sd_AdminSeedHash sd <> "") then sd_AdminSeedHash sd
                  else configSeedHash a in
      let us := present (sd_Users sd) in
      let d := MkDirectory
        (filter (fun kv => now < ExpiresAt kv.2) (present (sd_Tokens sd)))
        (filter (fun kv => now < rt_ExpiresAt kv.2) (present (sd_ResetTokens sd)))
        us (adminEmail d) hash
        (filter (fun kv => is_Some (us !! kv.1)) (present (sd_Accounts sd)))
        (filter (fun kv => now < inv_ExpiresAt kv.2) (present (sd_Invitations sd))) in
      let t := MkAttempts
        (filter (fun kv => attempt_live now kv.2) (present (sd_Lockouts sd)))
        (filter (fun kv => attempt_live now kv.2) (present (sd_AccountBackoff sd)))
        (filter (fun kv => now - kv.2 <= knownLoginIPTTL) (sd_KnownLoginIPs sd)) in
      set_seed seed (set_att t (set_dir d a))
  end.

Definition hasUserWithEmail (d : directory) (email : string) : bool :=
  bool_decide (Exists (fun kv => u_Email kv.2 = email) (map_to_list (users d))).

Definition config_hash (adminPassword salt : string) : auth_error + string :=
  if decide (adminPassword = "") then inr "" else
  if bcrypt_hashed adminPassword then inr adminPassword else
  if negb (validatePassword adminPassword) then inl ErrPolicy else
  match bcrypt_generate salt adminPassword with Some h => inr h | None => inl ErrHash end.

Definition NewLocalAuthenticator (path email adminPassword salt adminID : string) (disk : option auth_file) (now : Z)
    : auth_error + LocalAuthenticator :=
  match config_hash adminPassword salt with
  | inl err => inl err
  | inr hash =>
      let a := MkAuth (MkDirectory ∅ ∅ ∅ email hash ∅ ∅) (MkAttempts ∅ ∅ ∅) hash path ∅ disk in
      let a := loadSessions a adminPassword now in
      let d := dir a in
      let d := if bool_decide (email <> "") && bool_decide (adminPassword <> "") && negb (hasUserWithEmail d email)
               then set_users (<[adminID := admin_identity d adminID now]> (users d)) d else d in
      inr (refreshCredIndexLocked (set_dir (migrateDirectoryLocked d) a))
  end.

(** [anubis admin reset-password] on the session file of a stopped server;
    [ok] is whether the new file could be written. *)
Definition ResetLocalAdminPassword (disk : option auth_file) (email newPassword salt : string) (ok : bool)
    : option auth_file * option auth_error :=
  if decide (email = "") then (disk, Some ErrAdminEmailRequired) else
  if negb (validatePassword newPassword) then (disk, Some ErrPolicy) else
  match bcrypt_generate salt newPassword with
  | None => (disk, Some ErrHash)
  | Some hash =>
      match (match disk with
             | None => Some (MkSessionData ∅ ∅ ∅ ∅ ∅ ∅ "" "" "" ∅ ∅)
             | Some f => decode_file f
             end) with
      | None => (disk, Some ErrBadFile)
      | Some sd =>
          let key := normalizeEmail email in
          let lockouts := filter (fun kv => ~ (kv.1 = email \/ kv.1 = key \/ HasPrefix kv.1 (key +:+ "|") = true))
                            (sd_Lockouts sd) in
          let backoff := filter (fun kv => ~ (kv.1 = email \/ kv.1 = key)) (sd_AccountBackoff sd) in
          let sd := MkSessionData ∅ (sd_Users sd) ∅ lockouts backoff (sd_KnownLoginIPs sd) email hash
                      (sd_AdminSeedHash sd) (sd_Accounts sd) (sd_Invitations sd) in
          if ok then (Some (encode_file sd), None) else (disk, Some (ErrPersist false))
      end
  end.

End auth.
