(* ===== verification/AuthInv.v ===== *)
(** * The authenticator's invariant

    What is well formed in the directory of accounts and how it relates to the
    session file, the runs of the authenticator as sequences of critical
    sections with restarts in between, and the proof that every one of them
    keeps the invariant. *)
From stdpp Require Import base gmap strings list sorting.
From Stdlib Require Import ZArith Lia.
From Stdlib Require Strings.String.
From S2P Require Import Prelude GoStrings AuthData Auth.

Open Scope Z_scope.

(** ** Maps *)

Section maps.
Context {A : Type}.
Implicit Types m : gmap string A.

Lemma map_Forall_sub (P : string -> A -> Prop) m m' : m ⊆ m' -> map_Forall P m' -> map_Forall P m.
Proof. intros Hm HP i x Hx. apply HP. by eapply lookup_weaken. Qed.

Lemma filter_mono (P : string * A -> Prop) `{!forall x, Decision (P x)} m m' : m ⊆ m' -> filter P m ⊆ filter P m'.
Proof.
  intros Hm. apply map_subseteq_spec. intros i x [Hi HP]%map_lookup_filter_Some.
  apply map_lookup_filter_Some. split; [by eapply lookup_weaken|done].
Qed.

Lemma filter_insert_sub (P : string * A -> Prop) `{!forall x, Decision (P x)} m i x :
  filter P (<[i := x]> m) ⊆ <[i := x]> (filter P m).
Proof.
  apply map_subseteq_spec. intros j y [Hj HP]%map_lookup_filter_Some.
  apply lookup_insert_Some in Hj as [[<- <-]|[Hne Hj]]; [apply lookup_insert_eq|].
  rewrite lookup_insert_ne by done. by apply map_lookup_filter_Some.
Qed.

Lemma filter_insert_skip (P : string * A -> Prop) `{!forall x, Decision (P x)} m i x :
  ~ P (i, x) -> filter P (<[i := x]> m) ⊆ filter P m.
Proof.
  intros Hn. apply map_subseteq_spec. intros j y [Hj HP]%map_lookup_filter_Some.
  apply lookup_insert_Some in Hj as [[<- <-]|[Hne Hj]]; [done|]. by apply map_lookup_filter_Some.
Qed.

Lemma sub_empty m : m ⊆ ∅ -> m = ∅.
Proof. intros Hm. apply map_empty. intros i. eapply lookup_weaken_None; [apply lookup_empty|exact Hm]. Qed.

Lemma size_insert_le m i x : (size (<[i := x]> m) <= S (size m))%nat.
Proof. rewrite map_size_insert. destruct (m !! i); simpl; lia. Qed.

Lemma insert_is_Some m i x j : is_Some (m !! j) -> is_Some (<[i := x]> m !! j).
Proof. destruct (decide (i = j)) as [->|]; [by rewrite lookup_insert_eq|by rewrite lookup_insert_ne]. Qed.
End maps.

(** ** Looking up accounts *)

Lemma find_by_email d email u :
  findByEmailLocked d email = Some u ->
  exists id, users d !! id = Some u /\ normalizeEmail (u_Email u) = normalizeEmail email /\
    normalizeEmail email <> "".
Proof.
  unfold findByEmailLocked. case_decide; [done|]. intros Hh.
  assert (u ∈ filter (fun u => normalizeEmail (u_Email u) = normalizeEmail email) (map_to_list (users d)).*2) as Hin.
  { destruct (filter _ _); simplify_eq/=. left. }
  apply list_elem_of_filter in Hin as [He Hin].
  apply list_elem_of_fmap in Hin as ([id u'] & -> & Hin%elem_of_map_to_list). eauto.
Qed.

Lemma find_by_email_none d email id u :
  findByEmailLocked d email = None -> normalizeEmail email <> "" -> users d !! id = Some u ->
  normalizeEmail (u_Email u) <> normalizeEmail email.
Proof.
  unfold findByEmailLocked. case_decide; [done|]. intros Hh _ Hu He.
  assert (u ∈ filter (fun u => normalizeEmail (u_Email u) = normalizeEmail email) (map_to_list (users d)).*2) as Hin.
  { apply list_elem_of_filter. split; [done|]. apply list_elem_of_fmap. exists (id, u). split; [done|].
    by apply elem_of_map_to_list. }
  destruct (filter _ _); [set_solver|done].
Qed.

Lemma find_invitation d hash inv :
  findInvitationLocked d hash = Some inv ->
  inv_TokenHash inv = hash /\ exists id, invitations d !! id = Some inv.
Proof.
  unfold findInvitationLocked. intros Hh.
  assert (inv ∈ filter (fun inv => inv_TokenHash inv = hash) (map_to_list (invitations d)).*2) as Hin.
  { destruct (filter _ _); simplify_eq/=. left. }
  apply list_elem_of_filter in Hin as [He Hin].
  apply list_elem_of_fmap in Hin as ([id i] & -> & Hin%elem_of_map_to_list). eauto.
Qed.

Lemma find_invitation_none d hash :
  findInvitationLocked d hash = None <-> map_Forall (fun _ inv => inv_TokenHash inv <> hash) (invitations d).
Proof.
  unfold findInvitationLocked. split.
  - intros Hh id inv Hi He.
    assert (inv ∈ filter (fun inv => inv_TokenHash inv = hash) (map_to_list (invitations d)).*2) as Hin.
    { apply list_elem_of_filter. split; [done|]. apply list_elem_of_fmap. exists (id, inv). split; [done|].
      by apply elem_of_map_to_list. }
    destruct (filter _ _); [set_solver|done].
  - intros Hno. destruct (filter _ _) as [|inv l] eqn:E; [done|]. exfalso.
    assert (inv ∈ inv :: l) as Hin by left. rewrite <- E in Hin. apply list_elem_of_filter in Hin as [He Hin].
    apply list_elem_of_fmap in Hin as ([id i] & -> & Hin%elem_of_map_to_list). by eapply Hno.
Qed.

(** ** Well-formed directories *)

(** Identities are filed under their own ID and have distinct addresses; every
    identity has an account and the other way round; an account belongs to a
    workspace and holds known roles; sessions and reset tokens belong to
    existing accounts; invitations are filed under their own ID with distinct
    tokens; the configured administrator exists and is enabled. *)
Record account_ok (rec : accountRecord) : Prop := {
  ac_member : Memberships rec <> ∅;
  ac_roles : map_Forall (fun ws role => ws <> "" /\ validMemberRole role = true) (Memberships rec);
}.

Record dir_ok (d : directory) : Prop := {
  ok_users : map_Forall (fun id u => u_ID u = id /\ id <> "" /\ normalizeEmail (u_Email u) <> "") (users d);
  ok_unique : forall i j u v, users d !! i = Some u -> users d !! j = Some v ->
    normalizeEmail (u_Email u) = normalizeEmail (u_Email v) -> i = j;
  ok_dom : forall id, is_Some (users d !! id) <-> is_Some (accounts d !! id);
  ok_accounts : map_Forall (fun _ rec => account_ok rec) (accounts d);
  ok_tokens : map_Forall (fun t s => t <> "" /\ is_Some (users d !! UserID s)) (tokens d);
  ok_resets : map_Forall (fun t r => t <> "" /\ exists id u, users d !! id = Some u /\
    normalizeEmail (rt_Email r) = normalizeEmail (u_Email u)) (resetTokens d);
  ok_invites : map_Forall (fun id i => inv_ID i = id /\ inv_Workspace i <> "" /\ inv_TokenHash i <> "" /\
    validMemberRole (inv_Role i) = true /\ normalizeEmail (inv_Email i) <> "") (invitations d);
  ok_tickets : forall i j x y, invitations d !! i = Some x -> invitations d !! j = Some y ->
    inv_TokenHash x = inv_TokenHash y -> i = j;
  ok_admin : exists id u rec, users d !! id = Some u /\ u_Email u = adminEmail d /\
    accounts d !! id = Some rec /\ Disabled rec = false;
}.

(** The limits of each collection. *)
Record within_limits (d : directory) : Prop := {
  lim_sessions : (size (tokens d) <= maxSessions)%nat;
  lim_user : forall id, (size (filter (fun kv => UserID kv.2 = id) (tokens d)) <= maxSessionsPerUser)%nat;
  lim_resets : (size (resetTokens d) <= maxResetTokens)%nat;
  lim_accounts : (size (users d) <= maxAccounts)%nat;
  lim_invites : (size (invitations d) <= maxPendingInvitations)%nat;
}.

Record attempts_ok (now : Z) (t : attempts) : Prop := {
  at_sources : (size (loginAttempts t) <= maxTrackedLoginSources)%nat;
  at_known : (size (knownLoginIPs t) <= maxKnownLoginIPs)%nat;
  at_past : map_Forall (fun key at_ => key <> "" /\ at_ <= now) (knownLoginIPs t);
}.

Section find.
Context (d : directory) (Hd : dir_ok d).

Lemma user_id id u : users d !! id = Some u -> u_ID u = id.
Proof using Hd. intros Hu. by apply (ok_users d Hd) in Hu as []. Qed.

Lemma find_unique id u email :
  users d !! id = Some u -> normalizeEmail (u_Email u) = normalizeEmail email -> findByEmailLocked d email = Some u.
Proof using Hd.
  intros Hu He. pose proof (ok_users d Hd _ _ Hu) as (_ & _ & Hn). destruct (findByEmailLocked d email) as [v|] eqn:Ef.
  - destruct (find_by_email _ _ _ Ef) as (j & Hj & Hje & _).
    assert (id = j) as -> by (eapply (ok_unique d Hd); eauto; congruence). congruence.
  - exfalso. eapply find_by_email_none; eauto. by rewrite <- He.
Qed.

Lemma find_user email u :
  findByEmailLocked d email = Some u ->
  users d !! u_ID u = Some u /\ normalizeEmail (u_Email u) = normalizeEmail email.
Proof using Hd.
  intros Hf. destruct (find_by_email _ _ _ Hf) as (id & Hu & He & _). by rewrite (user_id _ _ Hu).
Qed.

Lemma user_account id u : users d !! id = Some u -> exists rec, accounts d !! id = Some rec.
Proof using Hd. intros Hu. apply (ok_dom d Hd). eauto. Qed.

Lemma account_user id rec : accounts d !! id = Some rec -> exists u, users d !! id = Some u.
Proof using Hd. intros Hu. apply (ok_dom d Hd). eauto. Qed.

Lemma find_admin : exists u, findByEmailLocked d (adminEmail d) = Some u /\ users d !! u_ID u = Some u.
Proof using Hd.
  destruct (ok_admin d Hd) as (id & u & rec & Hu & He & _). exists u. rewrite (user_id _ _ Hu). split; [|done].
  apply (find_unique id); [done|]. by rewrite He.
Qed.

Lemma find_ticket id inv hash :
  invitations d !! id = Some inv -> inv_TokenHash inv = hash -> findInvitationLocked d hash = Some inv.
Proof using Hd.
  intros Hi He. destruct (findInvitationLocked d hash) as [x|] eqn:Ef.
  - apply find_invitation in Ef as [Hx [j Hj]]. assert (id = j) as -> by (eapply (ok_tickets d Hd); eauto; congruence).
    congruence.
  - apply find_invitation_none in Ef. by apply Ef in Hi.
Qed.
End find.

(** ** The index of credentials *)

Section credentials.
Context (d : directory) (Hd : dir_ok d).

Lemma fold_index (m : gmap string accountRecord) email :
  (forall id rec, m !! id = Some rec -> accounts d !! id = Some rec) -> normalizeEmail email <> "" ->
  map_fold (index_account d) ∅ m !! normalizeEmail email =
  match findByEmailLocked d email with
  | Some u => match m !! u_ID u with
              | Some rec => if decide (source rec = SourceLocal /\ PasswordHash rec <> "")
                            then Some (PasswordHash rec) else None
              | None => None
              end
  | None => None
  end.
Proof using Hd.
  intros Hm Hne. revert m Hm. refine (map_fold_weak_ind (fun r m => (forall id rec, m !! id = Some rec ->
    accounts d !! id = Some rec) -> r !! normalizeEmail email = _) _ _ _ _).
  - intros _. rewrite lookup_empty. by destruct (findByEmailLocked d email) as [u|]; rewrite ?lookup_empty.
  - intros id rec m r Hid IH Hsub. assert (accounts d !! id = Some rec) as Hrec by (apply Hsub, lookup_insert_eq).
    destruct (account_user d Hd _ _ Hrec) as [u Hu]. pose proof (user_id d Hd _ _ Hu) as Eid.
    unfold index_account at 1. rewrite Hu.
    destruct (decide (normalizeEmail (u_Email u) = normalizeEmail email)) as [He|He].
    + rewrite (find_unique d Hd _ _ _ Hu He), Eid, lookup_insert_eq.
      case_decide; [by rewrite He, lookup_insert_eq|].
      rewrite IH by (intros j x Hj; apply Hsub; rewrite lookup_insert_ne; [done|congruence]).
      by rewrite (find_unique d Hd _ _ _ Hu He), Eid, Hid.
    + assert (forall v, findByEmailLocked d email = Some v -> u_ID v <> id) as Hv.
      { intros v Hv E. destruct (find_user d Hd _ _ Hv) as [Hv1 Hv2]. congruence. }
      assert ((if decide (source rec = SourceLocal /\ PasswordHash rec <> "")
               then <[normalizeEmail (u_Email u) := PasswordHash rec]> r else r) !! normalizeEmail email =
              r !! normalizeEmail email) as -> by (case_decide; [by rewrite lookup_insert_ne|done]).
      rewrite IH by (intros j x Hj; apply Hsub; rewrite lookup_insert_ne; [done|congruence]).
      destruct (findByEmailLocked d email) as [v|]; [|done]. rewrite lookup_insert_ne; [done|].
      intros E. by eapply Hv.
Qed.

(** With the administrator configured, the index holds for each address the
    hash that [passwordHashForLocked] computes. *)
Lemma credentials_exact email :
  adminPasswordHash d <> "" -> default "" (credentials d !! normalizeEmail email) = passwordHashForLocked d email.
Proof using Hd.
  intros Hh. destruct (ok_admin d Hd) as (aid & au & arec & Hau & Hae & Harec & _).
  pose proof (ok_users d Hd _ _ Hau) as (_ & _ & Hn). rewrite Hae in Hn.
  assert (adminEmail d <> "") as Ha by (intros E; rewrite E in Hn; by apply Hn).
  unfold credentials, passwordHashForLocked. rewrite decide_True by done.
  destruct (sameEmail email (adminEmail d)) eqn:Es.
  { apply sameEmail_spec in Es as [_ ->]. by rewrite lookup_insert_eq. }
  destruct (decide (normalizeEmail email = "")) as [E0|Hne].
  - assert (findByEmailLocked d email = None) as Hf by (unfold findByEmailLocked; by rewrite decide_True).
    rewrite Hf, lookup_insert_ne by congruence. rewrite E0.
    enough (map_fold (index_account d) ∅ (accounts d) !! "" = None) as -> by done.
    refine (map_fold_weak_ind (fun r _ => r !! "" = None) _ _ _ _ _); [done|].
    intros id rec m r _ IH. unfold index_account. destruct (users d !! id) as [u|] eqn:Hu; [|done].
    case_decide; [|done]. rewrite lookup_insert_ne; [done|]. by apply (ok_users d Hd) in Hu as (_ & _ & Hx).
  - rewrite lookup_insert_ne.
    2: { intros E. assert (sameEmail email (adminEmail d) = true) by (apply sameEmail_spec; split; congruence). congruence. }
    rewrite fold_index by done. destruct (findByEmailLocked d email) as [u|]; [|done].
    destruct (accounts d !! u_ID u) as [rec|]; [|done].
    destruct (decide (PasswordHash rec = "")) as [Ep|Ep]; destruct (decide (source rec = SourceLocal)) as [Ec|Ec].
    + by rewrite decide_False, decide_False, Ep by tauto.
    + by rewrite decide_False, decide_True by tauto.
    + by rewrite decide_True, decide_False by tauto.
    + by rewrite decide_False, decide_True by tauto.
Qed.
End credentials.

(** ** Changes that keep a directory well formed *)

Section changes.
Context (d : directory) (Hd : dir_ok d) (Hl : within_limits d).

Lemma keep_tokens m : m ⊆ tokens d -> dir_ok (set_tokens m d) /\ within_limits (set_tokens m d).
Proof using Hd Hl.
  intros Hm. split.
  - destruct Hd. constructor; try done. simpl. eapply map_Forall_sub; eauto.
  - destruct Hl. constructor; simpl; try done.
    + etrans; [apply map_subseteq_size, Hm|done].
    + intros id. etrans; [|apply (lim_user0 id)]. apply map_subseteq_size. by apply filter_mono.
Qed.

Lemma keep_resets m : m ⊆ resetTokens d -> dir_ok (set_resetTokens m d) /\ within_limits (set_resetTokens m d).
Proof using Hd Hl.
  intros Hm. split.
  - destruct Hd. constructor; try done. simpl. eapply map_Forall_sub; eauto.
  - destruct Hl. constructor; simpl; try done. etrans; [apply map_subseteq_size, Hm|done].
Qed.

Lemma keep_invites m : m ⊆ invitations d -> dir_ok (set_invitations m d) /\ within_limits (set_invitations m d).
Proof using Hd Hl.
  intros Hm. split.
  - destruct Hd. constructor; try done; simpl.
    + eapply map_Forall_sub; eauto.
    + intros i j x y Hx Hy. apply ok_tickets0; by eapply lookup_weaken.
  - destruct Hl. constructor; simpl; try done. etrans; [apply map_subseteq_size, Hm|done].
Qed.

Lemma add_token t s :
  t <> "" -> is_Some (users d !! UserID s) -> (size (tokens d) < maxSessions)%nat ->
  (size (filter (fun kv => UserID kv.2 = UserID s) (tokens d)) < maxSessionsPerUser)%nat ->
  dir_ok (set_tokens (<[t := s]> (tokens d)) d) /\ within_limits (set_tokens (<[t := s]> (tokens d)) d).
Proof using Hd Hl.
  intros Ht Hu Hs Hm. split.
  - destruct Hd. constructor; try done. simpl. by apply map_Forall_insert_2.
  - destruct Hl. constructor; simpl; try done.
    + etrans; [apply size_insert_le|lia].
    + intros id. destruct (decide (UserID s = id)) as [<-|Hne].
      * etrans; [apply map_subseteq_size, filter_insert_sub|].
        etrans; [apply size_insert_le|lia].
      * etrans; [apply map_subseteq_size; by apply filter_insert_skip|apply (lim_user0 id)].
Qed.

Lemma add_reset t r id u :
  t <> "" -> users d !! id = Some u -> normalizeEmail (rt_Email r) = normalizeEmail (u_Email u) ->
  (size (resetTokens d) < maxResetTokens)%nat ->
  dir_ok (set_resetTokens (<[t := r]> (resetTokens d)) d) /\
  within_limits (set_resetTokens (<[t := r]> (resetTokens d)) d).
Proof using Hd Hl.
  intros Ht Hu He Hs. split.
  - destruct Hd. constructor; try done. simpl. apply map_Forall_insert_2; [|done]. eauto.
  - destruct Hl. constructor; simpl; try done. etrans; [apply size_insert_le|lia].
Qed.

Lemma add_invite i :
  invitations d !! inv_ID i = None -> map_Forall (fun _ j => inv_TokenHash j <> inv_TokenHash i) (invitations d) ->
  inv_Workspace i <> "" -> inv_TokenHash i <> "" -> validMemberRole (inv_Role i) = true ->
  normalizeEmail (inv_Email i) <> "" -> (size (invitations d) < maxPendingInvitations)%nat ->
  dir_ok (set_invitations (<[inv_ID i := i]> (invitations d)) d) /\
  within_limits (set_invitations (<[inv_ID i := i]> (invitations d)) d).
Proof using Hd Hl.
  intros Hi Hh Hw Ht Hr He Hs. split.
  - destruct Hd. constructor; try done; simpl.
    + by apply map_Forall_insert_2.
    + intros j k x y. rewrite !lookup_insert_Some. intros [[<- <-]|[Hj Hx]] [[<- <-]|[Hk Hy]] E; [done|..].
      * by apply Hh in Hy.
      * by apply Hh in Hx.
      * by eapply ok_tickets0.
  - destruct Hl. constructor; simpl; try done. etrans; [apply size_insert_le|lia].
Qed.

Lemma set_hash h : dir_ok (set_adminPasswordHash h d) /\ within_limits (set_adminPasswordHash h d).
Proof using Hd Hl. split; [destruct Hd|destruct Hl]; by constructor. Qed.

Definition with_account (id : string) (u : User) (rec : accountRecord) : directory :=
  set_accounts (<[id := rec]> (accounts d)) (set_users (<[id := u]> (users d)) d).

Lemma with_account_dom id u rec j :
  (forall id, is_Some (users d !! id) <-> is_Some (accounts d !! id)) ->
  is_Some (users (with_account id u rec) !! j) <-> is_Some (accounts (with_account id u rec) !! j).
Proof using Type.
  intros H. simpl. destruct (decide (id = j)) as [->|Hne]; [by rewrite !lookup_insert_eq|].
  by rewrite !lookup_insert_ne.
Qed.

Lemma new_account id u rec :
  users d !! id = None -> id <> "" -> u_ID u = id -> findByEmailLocked d (u_Email u) = None ->
  normalizeEmail (u_Email u) <> "" -> account_ok rec -> (size (users d) < maxAccounts)%nat ->
  dir_ok (with_account id u rec) /\ within_limits (with_account id u rec).
Proof using Hd Hl.
  intros Hf Hid Eid Hfe Hn Ha Hs. pose proof (find_by_email_none d (u_Email u)) as Hno. split.
  - destruct Hd. constructor; simpl; try done.
    + by apply map_Forall_insert_2.
    + intros j k x y. rewrite !lookup_insert_Some. intros [[<- <-]|[Hj Hx]] [[<- <-]|[Hk Hy]] E; [done|..].
      * by eapply Hno in Hy.
      * by eapply Hno in Hx.
      * by eapply ok_unique0.
    + intros j. by apply with_account_dom.
    + by apply map_Forall_insert_2.
    + eapply map_Forall_impl; [exact ok_tokens0|]. simpl. intros t s [Ht Hu]. split; [done|]. by apply insert_is_Some.
    + eapply map_Forall_impl; [exact ok_resets0|]. simpl. intros t r (Ht & j & v & Hv & E). split; [done|].
      exists j, v. split; [|done]. rewrite lookup_insert_ne; [done|congruence].
    + destruct ok_admin0 as (j & v & r & Hv & E & Hr & Hdis). exists j, v, r.
      rewrite !lookup_insert_ne by congruence. done.
  - destruct Hl. constructor; simpl; try done. rewrite map_size_insert, Hf. simpl. lia.
Qed.

(** The new record of the administrator stays enabled. *)
Lemma change_account id u rec u' rec' :
  users d !! id = Some u -> accounts d !! id = Some rec -> u_ID u' = id -> u_Email u' = u_Email u ->
  account_ok rec' -> (sameEmail (u_Email u) (adminEmail d) = true -> Disabled rec = false -> Disabled rec' = false) ->
  dir_ok (with_account id u' rec') /\ within_limits (with_account id u' rec').
Proof using Hd Hl.
  intros Hu Hr Eid Ee Ha Hdis. pose proof (ok_users d Hd _ _ Hu) as (_ & Hne & Hn). split.
  - pose proof (ok_unique d Hd) as Huq. destruct Hd. constructor; simpl; try done.
    + apply map_Forall_insert_2; [|done]. by rewrite Ee.
    + intros j k x y. rewrite !lookup_insert_Some. intros [[<- <-]|[Hj Hx]] [[<- <-]|[Hk Hy]] E; [done|..].
      * rewrite Ee in E. by eapply Huq.
      * rewrite Ee in E. by eapply Huq.
      * by eapply Huq.
    + intros j. by apply with_account_dom.
    + by apply map_Forall_insert_2.
    + eapply map_Forall_impl; [exact ok_tokens0|]. simpl. intros t s [Ht Hs]. split; [done|]. by apply insert_is_Some.
    + eapply map_Forall_impl; [exact ok_resets0|]. simpl. intros t r (Ht & j & v & Hv & E). split; [done|].
      destruct (decide (id = j)) as [<-|].
      * exists id, u'. rewrite lookup_insert_eq, Ee. split; [done|]. congruence.
      * exists j, v. by rewrite lookup_insert_ne.
    + destruct ok_admin0 as (j & v & r & Hv & E & Hjr & Hjd). destruct (decide (id = j)) as [<-|].
      * exists id, u', rec'. rewrite !lookup_insert_eq. split; [done|]. split; [congruence|]. split; [done|].
        simplify_eq. apply Hdis; [|done]. apply sameEmail_spec. split; [done|]. by rewrite E.
      * exists j, v, r. by rewrite !lookup_insert_ne.
  - destruct Hl. constructor; simpl; try done. rewrite map_size_insert, Hu. done.
Qed.

(** Deleting an account with its sessions and reset tokens. *)
Lemma drop_account id u :
  users d !! id = Some u -> sameEmail (u_Email u) (adminEmail d) = false ->
  let d' := revokeUserSessionsLocked id (deleteAccountLocked u d) in dir_ok d' /\ within_limits d'.
Proof using Hd Hl.
  intros Hu Hadm. pose proof (ok_users d Hd _ _ Hu) as (Eid & Hne & Hn). simpl. split.
  - pose proof (ok_unique d Hd) as Huq. pose proof (ok_dom d Hd) as Hdom. destruct Hd.
    constructor; simpl; rewrite ?Eid; try done.
    + by apply map_Forall_delete.
    + intros j k x y [_ Hx]%lookup_delete_Some [_ Hy]%lookup_delete_Some. by eapply Huq.
    + intros j. destruct (decide (id = j)) as [->|]; [by rewrite !lookup_delete_eq|by rewrite !lookup_delete_ne].
    + by apply map_Forall_delete.
    + intros t s [Hts Hns]%map_lookup_filter_Some. simpl in Hns. destruct (ok_tokens0 _ _ Hts). split; [done|].
      rewrite lookup_delete_ne; [done|congruence].
    + intros t r [Htr Hns]%map_lookup_filter_Some. simpl in Hns. destruct (ok_resets0 _ _ Htr) as (Ht & j & v & Hv & E).
      split; [done|]. exists j, v. split; [|done]. rewrite lookup_delete_ne; [done|]. intros <-. apply Hns.
      simplify_eq. apply sameEmail_spec. split; [congruence|done].
    + destruct ok_admin0 as (j & v & r & Hv & E & Hjr & Hjd). exists j, v, r.
      assert (id <> j); [|by rewrite !lookup_delete_ne]. intros <-. rewrite Hu in Hv. injection Hv as <-.
      enough (sameEmail (u_Email u) (adminEmail d) = true) by congruence. apply sameEmail_spec. rewrite <- E. done.
  - destruct Hl. constructor; simpl; try done.
    + etrans; [apply map_subseteq_size, map_filter_subseteq|done].
    + intros j. etrans; [apply map_subseteq_size, filter_mono, map_filter_subseteq|apply (lim_user0 j)].
    + etrans; [apply map_subseteq_size, map_filter_subseteq|done].
    + etrans; [apply map_subseteq_size, delete_subseteq|done].
Qed.
End changes.

Lemma with_user d id u rec :
  accounts d !! id = Some rec -> set_users (<[id := u]> (users d)) d = with_account d id u rec.
Proof.
  intros Hr. unfold with_account. destruct d; unfold set_accounts, set_users; simpl in *. by rewrite (insert_id _ id rec).
Qed.

Lemma alter_account d id u rec f :
  users d !! id = Some u -> accounts d !! id = Some rec ->
  set_accounts (alter f id (accounts d)) d = with_account d id u (f rec).
Proof.
  intros Hu Hr. unfold with_account. destruct d; unfold set_accounts, set_users; simpl in *. f_equal.
  - by rewrite insert_id.
  - apply map_eq. intros j. destruct (decide (id = j)) as [<-|].
    + by rewrite lookup_alter_eq, Hr, lookup_insert_eq.
    + by rewrite lookup_alter_ne, lookup_insert_ne.
Qed.

(** ** Authority *)

(** The role [id] has in a workspace: its account is enabled and lists it, or
    it is the configured administrator, an owner wherever it is not listed. *)
Definition holds (d : directory) (id ws : string) (R : MemberRole) : Prop :=
  exists u rec, users d !! id = Some u /\ accounts d !! id = Some rec /\ Disabled rec = false /\
    (Memberships rec !! ws = Some R \/
     Memberships rec !! ws = None /\ isConfiguredAdminLocked d u = true /\ R = RoleOwner).

Section authority.
Context (d : directory) (Hd : dir_ok d).

Lemma resolve_holds id u w v :
  users d !! id = Some u -> resolveLocked d (set_workspace w u) = inr v ->
  u_Workspace v <> "" /\ holds d id (u_Workspace v) (u_Role v).
Proof using Hd.
  intros Hu. unfold resolveLocked. simpl. pose proof (user_id d Hd _ _ Hu) as Eid. rewrite Eid.
  destruct (user_account d Hd _ _ Hu) as [rec Hr]. rewrite Hr.
  destruct (Disabled rec) eqn:Edis; [done|]. destruct (Memberships rec !! _) as [role|] eqn:Em.
  { intros [= <-]. simpl. split; [apply workspaceOrDefault_nonempty|]. exists u, rec. eauto 10. }
  destruct (isConfiguredAdminLocked d (set_workspace w u)) eqn:Ea.
  { intros [= <-]. simpl. split; [apply workspaceOrDefault_nonempty|]. exists u, rec. repeat (split; [done|]). right. done. }
  destruct (sortedWorkspaces (Memberships rec)) as [|first l] eqn:Es; [done|]. intros [= <-]. simpl.
  assert (is_Some (Memberships rec !! first)) as [r Hf] by (apply sortedWorkspaces_spec; rewrite Es; left).
  split; [by apply (ac_roles _ (ok_accounts d Hd _ _ Hr)) in Hf as []|].
  exists u, rec. repeat (split; [done|]). left. by rewrite Hf.
Qed.

Lemma set_workspace_same u : set_workspace (u_Workspace u) u = u.
Proof. by destruct u. Qed.

Lemma actor_holds actor ws R :
  actorLocked d actor = inr (ws, R) ->
  exists act, actor = Some act /\ ws <> "" /\ holds d (u_ID act) ws R /\ Can R "members:*" = true /\ IsAPIKey act = false.
Proof using Hd.
  unfold actorLocked. destruct actor as [act|]; [|done]. case_decide; [done|]. destruct (IsAPIKey act) eqn:Ek; [done|].
  destruct (users d !! u_ID act) as [u|] eqn:Hu; [|done]. set (view := if decide _ then _ else _).
  assert (exists w, view = set_workspace w u) as [w ->].
  { unfold view. case_decide; [eauto|]. exists (u_Workspace u). by rewrite set_workspace_same. }
  destruct (resolveLocked d _) as [|v] eqn:Ev; [done|]. destruct (Can _ _) eqn:Ec; [|done]. intros [= <- <-].
  destruct (resolve_holds _ _ _ _ Hu Ev). eauto 10.
Qed.

Lemma inviter_holds inv :
  inviterValidLocked d inv = true ->
  exists R, holds d (inv_InvitedByID inv) (inv_Workspace inv) R /\ Can R "members:*" = true /\
    RoleWithin (inv_Role inv) R = true.
Proof using Hd.
  unfold inviterValidLocked. case_decide; [done|]. destruct (users d !! inv_InvitedByID inv) as [u|] eqn:Hu; [|done].
  destruct (accounts d !! inv_InvitedByID inv) as [rec|]; [|done].
  destruct (resolveLocked d _) as [|v] eqn:Ev; [done|]. rewrite !andb_true_iff, bool_decide_eq_true.
  intros [[<- Hc] Hw]. destruct (resolve_holds _ _ _ _ Hu Ev). eauto.
Qed.

Lemma target_spec ws R id u rec role :
  targetLocked d ws R id = inr (u, rec, role) ->
  users d !! id = Some u /\ accounts d !! id = Some rec /\ Memberships rec !! ws = Some role /\ RoleWithin role R = true.
Proof using Type.
  unfold targetLocked. destruct (users d !! id) as [u'|]; [|done]. destruct (accounts d !! id) as [rec'|]; [|done].
  destruct (Memberships rec' !! ws) as [r|] eqn:Er; [|done]. destruct (RoleWithin r R) eqn:Ew; [|done].
  intros [= <- <- <-]. done.
Qed.

Lemma owners_other ws id :
  ownersLocked d ws id <> O ->
  exists j rec, j <> id /\ accounts d !! j = Some rec /\ Disabled rec = false /\ Memberships rec !! ws = Some RoleOwner.
Proof using Type.
  unfold ownersLocked. intros Hs. destruct (decide (filter (fun kv : string * accountRecord =>
    ~ (kv.1 = id \/ Disabled kv.2 = true) /\ Memberships kv.2 !! ws = Some RoleOwner) (accounts d) = ∅)) as [E|E].
  - rewrite E, map_size_empty in Hs. done.
  - apply map_choose in E as (j & rec & [Hj [Hn Ho]]%map_lookup_filter_Some). simpl in *. exists j, rec.
    split; [tauto|]. split; [done|]. split; [|done]. destruct (Disabled rec); tauto.
Qed.

Lemma scope_spec actor rec ws :
  accountScopeLocked d actor rec ws = None ->
  actor_is_admin d actor = true \/ map_Forall (fun other _ => other = ws) (Memberships rec).
Proof using Type. unfold accountScopeLocked. destruct (actor_is_admin d actor); [auto|]. case_decide; [auto|done]. Qed.

Lemma wide_spec actor user rec ws :
  accountWideLocked d actor user rec ws = None ->
  u_ID user <> u_ID actor /\ isConfiguredAdminLocked d user = false /\ accountScopeLocked d actor rec ws = None /\
  forall w, Memberships rec !! w = Some RoleOwner -> ownersLocked d w (u_ID user) <> O.
Proof using Type.
  clear Hd. unfold accountWideLocked. case_decide; [done|]. destruct (isConfiguredAdminLocked d user); [done|].
  destruct (accountScopeLocked d actor rec ws); [done|].
  destruct (filter _ _) as [|[w r] l] eqn:Ef; [|done]. intros _. repeat (split; [done|]). intros w Hw E.
  assert ((w, RoleOwner) ∈ filter (sole_owner d (u_ID user)) (map_to_list (Memberships rec))) as Hin.
  { apply list_elem_of_filter. split; [done|]. by apply elem_of_map_to_list. }
  rewrite Ef in Hin. set_solver.
Qed.
End authority.

(** ** Eviction *)

Section evict.
Context {A : Type} (expires : A -> Z) (wanted : A -> bool).
Implicit Types m : gmap string A.

Definition chosen_oldest m (r : string * Z) : Prop :=
  match decide (map_Exists (fun _ x => wanted x = true) m) with
  | left _ => r.1 <> "" /\ exists x, m !! r.1 = Some x /\ wanted x = true /\ expires x = r.2 /\
      map_Forall (fun _ y => wanted y = true -> r.2 <= expires y) m
  | right _ => r.1 = ""
  end.

Lemma chosen_oldest_some m r :
  r.1 <> "" -> (exists x, m !! r.1 = Some x /\ wanted x = true /\ expires x = r.2 /\
    map_Forall (fun _ y => wanted y = true -> r.2 <= expires y) m) -> chosen_oldest m r.
Proof.
  intros Hr Hx. unfold chosen_oldest. destruct (decide _) as [_|Hno]; [done|].
  destruct Hx as (x & Hx & Hw & _). exfalso. apply Hno. by exists r.1, x.
Qed.

(** The loop finds the wanted entry that expires first, whatever the order of
    the map. *)
Lemma oldest_entry_spec m : m !! "" = None -> chosen_oldest m (oldest_entry expires wanted m).
Proof.
  unfold oldest_entry. revert m. refine (map_fold_weak_ind (fun r m => m !! "" = None -> chosen_oldest m r) _ _ _ _).
  - intros _. unfold chosen_oldest. destruct (decide _) as [(i & x & Hx & _)|]; [by rewrite lookup_empty in Hx|done].
  - intros i x m [o at_] Hi IH Hne. apply lookup_insert_None in Hne as [Hne Hine]. specialize (IH Hne).
    assert (i <> "") as Hi0 by done. unfold chosen_oldest in IH.
    destruct (wanted x) eqn:Hw; cycle 1.
    { simpl. destruct (decide (map_Exists (fun _ x => wanted x = true) m)) as [He|Hno].
      - destruct IH as (Ho & y & Hy & Hyw & Hye & Hmin). apply chosen_oldest_some; [done|]. exists y.
        simpl in *. rewrite lookup_insert_ne by congruence. repeat (split; [done|]).
        apply map_Forall_insert_2; [congruence|done].
      - unfold chosen_oldest. destruct (decide _) as [(j & y & Hy & Hyw)|]; [|done]. exfalso. apply Hno.
        apply lookup_insert_Some in Hy as [[<- <-]|[_ Hy]]; [congruence|]. by exists j, y. }
    simpl. destruct (decide (map_Exists (fun _ x => wanted x = true) m)) as [He|Hno].
    + destruct IH as (Ho & y & Hy & Hyw & Hye & Hmin). simpl in *. rewrite (bool_decide_eq_false_2 (o = "")) by done.
      simpl. case_bool_decide as Hlt.
      * apply chosen_oldest_some; [done|]. exists x. simpl. rewrite lookup_insert_eq. repeat (split; [done|]).
        apply map_Forall_insert_2; [lia|]. eapply map_Forall_impl; [exact Hmin|]. simpl. intros ? z Hz Hzw. specialize (Hz Hzw). lia.
      * apply chosen_oldest_some; [done|]. exists y. simpl. rewrite lookup_insert_ne by congruence.
        repeat (split; [done|]). apply map_Forall_insert_2; [lia|done].
    + simpl in IH. subst o. rewrite bool_decide_eq_true_2 by done. simpl. apply chosen_oldest_some; [done|].
      exists x. simpl. rewrite lookup_insert_eq. repeat (split; [done|]). apply map_Forall_insert_2; [lia|].
      intros j y Hy Hyw. exfalso. apply Hno. by exists j, y.
Qed.

Lemma evictOldest_sub m : evictOldest expires wanted m ⊆ m.
Proof. apply delete_subseteq. Qed.

Lemma evictOldest_wanted m :
  m !! "" = None -> map_Exists (fun _ x => wanted x = true) m ->
  exists t x, m !! t = Some x /\ wanted x = true /\ evictOldest expires wanted m = delete t m /\
    map_Forall (fun _ y => wanted y = true -> expires x <= expires y) m.
Proof.
  intros Hne He. pose proof (oldest_entry_spec m Hne) as Ho. unfold chosen_oldest in Ho.
  destruct (decide _) as [_|]; [|done]. destruct Ho as (_ & x & Hx & Hw & Ex & Hmin).
  exists (oldest_entry expires wanted m).1, x. by rewrite Ex.
Qed.
End evict.

Lemma evict_until_sub {A} (expires : A -> Z) cap fuel m : evict_until expires cap fuel m ⊆ m.
Proof.
  revert m. induction fuel as [|f IH]; intros m; simpl; [done|]. case_decide; [|done].
  etrans; [apply IH|apply evictOldest_sub].
Qed.

Lemma evict_until_size {A} (expires : A -> Z) cap fuel m :
  m !! "" = None -> (0 < cap)%nat -> (size m <= fuel)%nat -> (size (evict_until expires cap fuel m) < cap)%nat.
Proof.
  intros Hne Hc. revert m Hne. induction fuel as [|f IH]; intros m Hne Hf; simpl; [lia|]. case_decide as Hs; [|lia].
  destruct (decide (m = ∅)) as [->|Hm]; [rewrite map_size_empty in Hs; lia|].
  apply map_choose in Hm as (i & x & Hx).
  destruct (evictOldest_wanted expires (fun _ => true) m Hne) as (t & y & Hy & _ & -> & _); [by exists i, x|].
  apply IH; [by apply lookup_delete_None; right|]. rewrite map_size_delete_Some by eauto. lia.
Qed.

Lemma evict_mine_sub id n m : evict_mine id n m ⊆ m.
Proof.
  revert m. induction n as [|n IH]; intros m; simpl; [done|]. case_decide; [|done].
  etrans; [apply IH|apply evictOldest_sub].
Qed.

Definition mine (id : string) (m : gmap string session) : nat := size (filter (fun kv => UserID kv.2 = id) m).

Lemma evict_mine_size id n m :
  m !! "" = None -> n = mine id m -> (mine id (evict_mine id n m) < maxSessionsPerUser)%nat.
Proof.
  revert m. induction n as [|n IH]; intros m Hne En; simpl.
  { rewrite <- En. unfold maxSessionsPerUser. lia. }
  case_decide as Hc; [|rewrite <- En; lia].
  destruct (evictOldest_wanted ExpiresAt (owned_by id) m Hne) as (t & y & Hy & Hw & -> & _).
  { destruct (decide (filter (fun kv => UserID kv.2 = id) m = ∅)) as [E|Hm].
    - unfold mine in En. rewrite E, map_size_empty in En. done.
    - apply map_choose in Hm as (i & x & [Hx Hi]%map_lookup_filter_Some). exists i, x. split; [done|].
      by apply bool_decide_eq_true. }
  apply bool_decide_eq_true in Hw. apply IH; [by apply lookup_delete_None; right|].
  unfold mine in *. rewrite map_filter_delete, map_size_delete_Some; [lia|].
  exists y. by apply map_lookup_filter_Some.
Qed.

Lemma capSessionsLocked_sub id now m : capSessionsLocked id now m ⊆ m.
Proof.
  unfold capSessionsLocked. etrans; [apply evict_until_sub|]. etrans; [apply evict_mine_sub|]. apply map_filter_subseteq.
Qed.

Lemma capSessionsLocked_size id now m :
  m !! "" = None ->
  (size (capSessionsLocked id now m) < maxSessions)%nat /\
  (mine id (capSessionsLocked id now m) < maxSessionsPerUser)%nat.
Proof.
  intros Hne. unfold capSessionsLocked. set (f := filter _ m).
  assert (f !! "" = None) as Hf by (apply map_lookup_filter_None; left; done).
  set (e := evict_mine id _ f). assert (e !! "" = None) as He by (eapply lookup_weaken_None; [exact Hf|apply evict_mine_sub]).
  split; [apply evict_until_size; [done|unfold maxSessions; lia|done]|].
  eapply Nat.le_lt_trans; [apply map_subseteq_size, filter_mono, evict_until_sub|]. by apply evict_mine_size.
Qed.

Lemma oldest_known_in now m :
  map_Forall (fun key at_ => key <> "" /\ at_ <= now) m -> m <> ∅ -> is_Some (m !! (oldest_known now m).1).
Proof.
  intros Hm Hne. unfold oldest_known.
  enough (forall n, n ⊆ m -> let r := map_fold (fun key at_ '(oldestKey, oldest) =>
    if decide (at_ > oldest) then (oldestKey, oldest) else (key, at_)) ("", now) n in
    (n = ∅ /\ r = ("", now)) \/ (is_Some (n !! r.1) /\ r.2 <= now)) as H.
  { destruct (H m ltac:(done)) as [[? _]|[? _]]; [done|]. done. }
  refine (map_fold_weak_ind (fun r n => n ⊆ m -> (n = ∅ /\ r = ("", now)) \/ (is_Some (n !! r.1) /\ r.2 <= now)) _ _ _ _).
  - by left.
  - intros i x n [o at_] Hi IH Hsub.
    assert (x <= now) as Hx by (apply (Hm i), (lookup_weaken _ _ _ _ (lookup_insert_eq n i x) Hsub)).
    right. destruct IH as [[-> E]|[Ho Hle]].
    + etrans; [by apply insert_subseteq|done].
    + injection E as -> ->. rewrite decide_False by lia. simpl. rewrite lookup_insert_eq. eauto.
    + simpl in *. case_decide; simpl; [|rewrite lookup_insert_eq; eauto]. split; [|done]. by apply insert_is_Some.
Qed.

Lemma clear_attempts_ok now t email ip : attempts_ok now t -> attempts_ok now (clear_attempts t email ip now).
Proof.
  intros [Hs Hk Hp]. unfold clear_attempts. simpl.
  assert (size (delete (loginSourceKey email ip) (loginAttempts t)) <= maxTrackedLoginSources)%nat as Hs'
    by (etrans; [apply map_subseteq_size, delete_subseteq|done]).
  case_decide as Hip; [|by constructor]. set (m := if decide _ then _ else _).
  assert (m ⊆ knownLoginIPs t /\ (size m < maxKnownLoginIPs)%nat) as [Hsub Hsz].
  { unfold m. case_decide as Hfull; [|split; [done|lia]]. unfold evictKnownLoginIPLocked. set (f := filter _ _).
    assert (f ⊆ knownLoginIPs t) as Hf by apply map_filter_subseteq. simpl. case_decide as Hc.
    - split; [etrans; [apply delete_subseteq|done]|]. rewrite map_size_delete_Some.
      + pose proof (map_subseteq_size _ _ Hf). destruct Hc as [Hc _].
        revert Hc. unfold maxKnownLoginIPs in *. lia.
      + apply oldest_known_in; [by eapply map_Forall_sub|]. intros E. destruct Hc as [Hc _].
        rewrite E, map_size_empty in Hc. revert Hc. unfold maxKnownLoginIPs. lia.
    - split; [done|]. destruct (decide (f = ∅)) as [E|E]; [rewrite E, map_size_empty; unfold maxKnownLoginIPs; lia|].
      destruct (oldest_known_in now f) as [at_ Hat]; [by eapply map_Forall_sub|done|].
      assert ((oldest_known now f).1 <> "") as Ho by (apply (Hp _ at_); by eapply lookup_weaken). apply not_and_l in Hc as [Hc|Hc]; [lia|done]. }
  constructor; simpl; [done|etrans; [apply size_insert_le|lia]|].
  apply map_Forall_insert_2; [|by eapply map_Forall_sub]. split; [|lia].
  unfold loginSourceKey. rewrite decide_False by done. by destruct email.
Qed.

Lemma book_failure_ok now t email ip : attempts_ok now t -> attempts_ok now (book_failure t email ip now).
Proof.
  intros [Hs Hk Hp]. unfold book_failure. constructor; simpl; [|done..].
  destruct (loginAttempts t !! _) as [x|] eqn:Ek.
  - by rewrite map_size_insert_Some by eauto.
  - set (m := if decide (maxTrackedLoginSources <= _)%nat then _ else _).
    assert (size m <= size (loginAttempts t))%nat by (unfold m; case_decide; [apply map_subseteq_size, map_filter_subseteq|done]).
    case_decide; [|lia]. etrans; [apply size_insert_le|lia].
Qed.

Lemma attempts_ok_le now now' t : now <= now' -> attempts_ok now t -> attempts_ok now' t.
Proof.
  intros Hle [Hs Hk Hp]. constructor; [done..|]. eapply map_Forall_impl; [exact Hp|]. simpl. intros k x [Hx Hy]. split; [done|lia].
Qed.

(** ** Runs *)

(** One critical section of the authenticator, with what its caller
    established before it, or a restart of the process. *)
Inductive operation :=
| OpCheck (email clientIP : string)
| OpFail (email clientIP : string) (io : save_io)
| OpLogin (email expectedHash clientIP newID token : string) (io_clear io : save_io)
| OpAuthenticate (token : string) (io : save_io)
| OpLogout (token : string) (io : save_io)
| OpSwitch (token workspace : string) (io : save_io)
| OpChangePassword (token currentPassword newPassword salt : string) (io : save_io)
| OpRequestReset (email token : string) (io : save_io)
| OpConfirmReset (token newPassword salt : string) (io : save_io)
| OpCreateUser (actor : option User) (req : CreateUserRequest) (id salt : string) (io : save_io)
| OpUpdateMember (actor : option User) (userID : string) (update : MemberUpdate) (io : save_io)
| OpRemoveMember (actor : option User) (userID : string) (io : save_io)
| OpDeleteUser (actor : option User) (userID : string) (io : save_io)
| OpInvite (actor : option User) (email : string) (role : MemberRole) (id token : string) (io : save_io)
| OpRevokeInvite (actor : option User) (id : string) (io : save_io)
| OpAccept (hash name : string) (existing : bool) (existingHash pw id : string) (io : save_io)
| OpProvision (email name source_ id : string) (io : save_io)
| OpCleanup (io : save_io)
| OpRestart (salt id : string).

Section runs.
Context `{!AuthEnv} (cfgPath cfgEmail cfgPassword : string).

(** [None] is a server that does not start. *)
Definition perform (op : operation) (now : Z) (a : LocalAuthenticator) : option LocalAuthenticator :=
  match op with
  | OpCheck email ip => Some (set_att (checkBruteForceProtectionFrom (att a) email ip now).1 a)
  | OpFail email ip io => Some (recordFailedAttemptFrom a email ip now io)
  | OpLogin email hash ip newID token io_clear io => Some (login_finish a email hash ip newID token now io_clear io).1
  | OpAuthenticate token io => Some (Authenticate a token now io).1
  | OpLogout token io => Some (Logout a token io).1
  | OpSwitch token ws io => Some (SwitchWorkspace a token ws now io).1
  | OpChangePassword token cur new salt io => Some (ChangePassword a token cur new salt now io).1
  | OpRequestReset email token io => Some (reset_request a email token now io).1
  | OpConfirmReset token new salt io => Some (ConfirmPasswordReset a token new salt now io).1
  | OpCreateUser actor req id salt io => Some (CreateUser a actor req id salt now io).1
  | OpUpdateMember actor id update io => Some (UpdateMember a actor id update now io).1
  | OpRemoveMember actor id io => Some (RemoveMember a actor id now io).1
  | OpDeleteUser actor id io => Some (DeleteUser a actor id io).1
  | OpInvite actor email role id token io => Some (CreateInvitation a actor email role id token now io).1
  | OpRevokeInvite actor id io => Some (RevokeInvitation a actor id io).1
  | OpAccept hash name existing eh pw id io => Some (accept_finish a hash name existing eh pw id now io).1
  | OpProvision email name src id io => Some (ProvisionExternalUser a email name src id now io).1
  | OpCleanup io => Some (cleanup_tick a now io)
  | OpRestart salt id =>
      match NewLocalAuthenticator cfgPath cfgEmail cfgPassword salt id (file a) now with
      | inr a => Some a
      | inl _ => None
      end
  end.

(** Random identifiers are new, and a sign-in has found a credential. *)
Definition fresh (op : operation) (d : directory) : Prop :=
  match op with
  | OpLogin _ hash _ _ token _ _ => hash <> "" /\ token <> "" /\ tokens d !! token = None
  | OpRequestReset _ token _ => token <> "" /\ resetTokens d !! token = None
  | OpCreateUser _ _ id _ _ | OpAccept _ _ _ _ _ id _ | OpProvision _ _ _ id _ => id <> "" /\ users d !! id = None
  | OpInvite _ _ _ id token _ =>
      invitations d !! id = None /\ map_Forall (fun _ inv => inv_TokenHash inv <> hashInviteToken token) (invitations d)
  | OpRestart _ id => id <> ""
  | _ => True
  end.

(** From state [a] at time [now], the operations at their times. *)
Inductive run : Z -> LocalAuthenticator -> list (Z * operation) -> Z -> LocalAuthenticator -> Prop :=
| run_nil now a : run now a [] now a
| run_cons now a now1 op a1 ops now2 a2 :
    now <= now1 -> fresh op (dir a) -> perform op now1 a = Some a1 -> run now1 a1 ops now2 a2 ->
    run now a ((now1, op) :: ops) now2 a2.

(** ** The invariant *)

Record core_inv (now : Z) (a : LocalAuthenticator) : Prop := {
  ci_dir : dir_ok (dir a);
  ci_lim : within_limits (dir a);
  ci_att : attempts_ok now (att a);
  ci_path : sessionPath a = cfgPath;
  ci_email : adminEmail (dir a) = cfgEmail;
  ci_hash : adminPasswordHash (dir a) <> "";
  ci_seed : configSeedHash a <> "" /\ configPasswordMatchesSeed (configSeedHash a) cfgPassword = true;
}.

(** Two directories that differ in expired sessions, reset tokens and
    invitations only. *)
Record agree (now : Z) (d d' : directory) : Prop := {
  ag_users : users d = users d';
  ag_accounts : accounts d = accounts d';
  ag_hash : adminPasswordHash d = adminPasswordHash d';
  ag_tokens : filter (fun kv => now < ExpiresAt kv.2) (tokens d) = filter (fun kv => now < ExpiresAt kv.2) (tokens d');
  ag_resets : filter (fun kv => now < rt_ExpiresAt kv.2) (resetTokens d) =
    filter (fun kv => now < rt_ExpiresAt kv.2) (resetTokens d');
  ag_invites : filter (fun kv => now < inv_ExpiresAt kv.2) (invitations d) =
    filter (fun kv => now < inv_ExpiresAt kv.2) (invitations d');
}.

(** What a first start builds. *)
Definition first_dir (id hash : string) (now : Z) : directory :=
  let d := MkDirectory ∅ ∅ ∅ cfgEmail hash ∅ ∅ in
  migrateDirectoryLocked (set_users {[ id := admin_identity d id now ]} d).

(** The session file holds the state of some earlier moment that agrees with
    the one in memory; before the first write nothing has changed. *)
Definition file_inv (now : Z) (a : LocalAuthenticator) : Prop :=
  match file a with
  | None => cfgPath <> "" -> exists id hash t, id <> "" /\ dir a = first_dir id hash t
  | Some f => cfgPath <> "" /\ exists b, f = encode_file (snapshot b) /\ core_inv now b /\ agree now (dir b) (dir a)
  end.

Record auth_inv (now : Z) (a : LocalAuthenticator) : Prop := {
  ai_core : core_inv now a;
  ai_cred : credIndex a = credentials (dir a);
  ai_file : file_inv now a;
}.

Lemma filter_later {A} (expires : A -> Z) (m m' : gmap string A) now now' :
  now <= now' -> filter (fun kv => now < expires kv.2) m = filter (fun kv => now < expires kv.2) m' ->
  filter (fun kv => now' < expires kv.2) m = filter (fun kv => now' < expires kv.2) m'.
Proof.
  intros Hle E. apply map_eq. intros i. assert (filter (fun kv => now < expires kv.2) m !! i =
    filter (fun kv => now < expires kv.2) m' !! i) as Ei by (by rewrite E). apply option_eq. intros x.
  rewrite !map_lookup_filter_Some. simpl.
  assert (forall n : gmap string A, n !! i = Some x /\ now' < expires x <->
    filter (fun kv => now < expires kv.2) n !! i = Some x /\ now' < expires x) as Hf.
  { intros n. rewrite map_lookup_filter_Some. simpl. intuition lia. }
  rewrite (Hf m), (Hf m'), Ei. done.
Qed.

Lemma agree_later now now' d d' : now <= now' -> agree now d d' -> agree now' d d'.
Proof. intros Hle [? ? ? Ht Hr Hi]. constructor; [done..| | |]; by eapply filter_later. Qed.

Lemma agree_refl now d : agree now d d.
Proof. by constructor. Qed.

Lemma agree_trans now d1 d2 d3 : agree now d1 d2 -> agree now d2 d3 -> agree now d1 d3.
Proof. intros [] []. constructor; congruence. Qed.

Lemma core_inv_later now now' a : now <= now' -> core_inv now a -> core_inv now' a.
Proof. intros Hle []. constructor; try done. by eapply attempts_ok_le. Qed.

Lemma auth_inv_later now now' a : now <= now' -> auth_inv now a -> auth_inv now' a.
Proof.
  intros Hle [Hc Hi Hf]. constructor; [by eapply core_inv_later|done|]. unfold file_inv in *.
  destruct (file a); [|done]. destruct Hf as (Hp & b & -> & Hb & Hag). split; [done|]. exists b. split; [done|].
  split; [by eapply core_inv_later|by eapply agree_later].
Qed.

(** Writing a state that agrees with the one on file. *)
Lemma save_inv now a0 a io :
  auth_inv now a0 -> core_inv now a -> file a = file a0 -> credIndex a = credentials (dir a) ->
  agree now (dir a0) (dir a) -> (cfgPath <> "" -> file a0 = None -> dir a = dir a0) ->
  auth_inv now (saveSessionsLocked a io).1.
Proof.
  intros H0 Ha Ef Ei Hag Hno. assert (auth_inv now a) as Hia.
  { constructor; [done|done|]. pose proof (ai_file _ _ H0) as Hf. unfold file_inv in *. rewrite Ef.
    destruct (file a0) as [f|] eqn:E0.
    - destruct Hf as (Hp & b & -> & Hb & Hab). split; [done|]. exists b. split; [done|]. split; [done|]. by eapply agree_trans.
    - intros Hp. rewrite (Hno Hp eq_refl). by apply Hf. }
  unfold saveSessionsLocked. case_decide as Hp; [exact Hia|].
  assert (auth_inv now (set_file (Some (encode_file (snapshot a))) a)) as Hw.
  { constructor; [by destruct Ha; constructor|done|]. split; [by rewrite <- (ci_path _ _ Ha)|].
    exists a. split; [done|]. split; [done|apply agree_refl]. }
  destruct io; [exact Hw|exact Hia|exact Hw].
Qed.

(** Committing a new directory, or taking it back. *)
Lemma persist_inv now a0 d' io :
  auth_inv now a0 -> core_inv now (set_dir d' a0) ->
  auth_inv now (persistOrRollbackLocked (dir a0) (set_dir d' a0) io).1.
Proof.
  intros H0 Hc. pose proof H0 as [Hc0 Hi0 Hf0]. unfold persistOrRollbackLocked, saveSessionsLocked.
  case_decide as Hp.
  - constructor; [by destruct Hc; constructor|done|]. unfold file_inv in *. simpl in *.
    rewrite (ci_path _ _ Hc0) in Hp. destruct (file a0); [by destruct Hf0|done].
  - assert (auth_inv now (refreshCredIndexLocked (set_file (Some (encode_file (snapshot (set_dir d' a0))))
      (set_dir d' a0)))) as Hw.
    { constructor; [by destruct Hc; constructor|done|]. split; [by rewrite <- (ci_path _ _ Hc0)|].
      exists (set_dir d' a0). split; [done|]. split; [done|apply agree_refl]. }
    assert (auth_inv now (refreshCredIndexLocked (set_dir (dir a0) (set_dir d' a0)))) as Hr.
    { constructor; [by destruct Hc0; constructor|done|]. exact Hf0. }
    destruct io; [exact Hw|exact Hr|exact Hw].
Qed.

(** ** Every operation keeps the invariant *)

Lemma core_dir now a d :
  core_inv now a -> dir_ok d /\ within_limits d -> adminEmail d = adminEmail (dir a) -> adminPasswordHash d <> "" ->
  core_inv now (set_dir d a).
Proof. intros [] [] He Hh. constructor; simpl; congruence || done. Qed.

Lemma core_att now a t : core_inv now a -> attempts_ok now t -> core_inv now (set_att t a).
Proof. intros [] Ht. by constructor. Qed.

Lemma att_inv now a t : auth_inv now a -> attempts_ok now t -> auth_inv now (set_att t a).
Proof. intros [] Ht. constructor; [by apply core_att|done..]. Qed.

(** A session dropped because it expired. *)
Lemma agree_expired now d m r :
  m ⊆ tokens d -> r ⊆ resetTokens d ->
  (forall t s, tokens d !! t = Some s -> now < ExpiresAt s -> m !! t = Some s) ->
  (forall t s, resetTokens d !! t = Some s -> now < rt_ExpiresAt s -> r !! t = Some s) ->
  agree now d (set_resetTokens r (set_tokens m d)).
Proof.
  intros Hm Hr Ht Hrt. constructor; simpl; [done..| | |done]; apply map_eq; intros i; apply option_eq; intros x;
    rewrite !map_lookup_filter_Some; simpl; split; intros [Hx He]; split; eauto using lookup_weaken.
Qed.

Lemma drop_expired now d t s :
  tokens d !! t = Some s -> now > ExpiresAt s ->
  agree now d (set_tokens (delete t (tokens d)) d).
Proof.
  intros Ht He. assert (set_tokens (delete t (tokens d)) d =
    set_resetTokens (resetTokens d) (set_tokens (delete t (tokens d)) d)) as -> by done.
  apply agree_expired; [apply delete_subseteq|done| |done]. intros t' s' Ht' He'. rewrite lookup_delete_ne; [done|].
  intros <-. simplify_eq. lia.
Qed.

Lemma drop_expired_reset now d t r :
  resetTokens d !! t = Some r -> now > rt_ExpiresAt r ->
  agree now d (set_resetTokens (delete t (resetTokens d)) d).
Proof.
  intros Ht He. assert (set_resetTokens (delete t (resetTokens d)) d =
    set_resetTokens (delete t (resetTokens d)) (set_tokens (tokens d) d)) as -> by done.
  apply agree_expired; [done|apply delete_subseteq|done|]. intros t' s' Ht' He'. rewrite lookup_delete_ne; [done|].
  intros <-. simplify_eq. lia.
Qed.

(** Before the first write there is nothing that could expire. *)
Lemma unwritten now a :
  auth_inv now a -> cfgPath <> "" -> file a = None -> tokens (dir a) = ∅ /\ resetTokens (dir a) = ∅ /\ invitations (dir a) = ∅.
Proof.
  intros [_ _ Hf] Hp E. unfold file_inv in Hf. rewrite E in Hf. destruct (Hf Hp) as (id & h & t & _ & ->). done.
Qed.

Lemma drop_token_inv now a t s io :
  auth_inv now a -> tokens (dir a) !! t = Some s -> now > ExpiresAt s ->
  auth_inv now (saveSessionsLocked (set_dir (set_tokens (delete t (tokens (dir a))) (dir a)) a) io).1.
Proof.
  intros Ha Ht He. pose proof Ha as [Hc Hi _]. apply (save_inv now a); [done| |done|done|by eapply drop_expired|].
  - apply core_dir; [done| |done|apply Hc]. apply keep_tokens; [apply Hc..|apply delete_subseteq].
  - intros Hp Ef. destruct (unwritten _ _ Ha Hp Ef) as (E & _). rewrite E, lookup_empty in Ht. done.
Qed.

(** Dropping it from memory only. *)
Lemma forget_inv now a d :
  auth_inv now a -> dir_ok d /\ within_limits d -> agree now (dir a) d -> adminEmail d = adminEmail (dir a) ->
  (cfgPath <> "" -> file a = None -> False) -> auth_inv now (set_dir d a).
Proof.
  intros Ha Hd Hag Hae Hno. pose proof Ha as [Hc Hi Hf].
  assert (adminPasswordHash d <> "") as Hh by (rewrite <- (ag_hash _ _ _ Hag); apply Hc). constructor.
  - by apply core_dir.
  - simpl. rewrite Hi. destruct Hag as [Eu Ea Eh _ _ _]. unfold credentials. rewrite <- Ea, <- Eh, Hae.
    replace (index_account d) with (index_account (dir a)); [done|].
    unfold index_account. by rewrite Eu.
  - unfold file_inv in *. simpl. destruct (file a) as [f|]; [|intros Hp; by destruct (Hno Hp)].
    destruct Hf as (Hp & b & -> & Hb & Hab). split; [done|]. exists b. split; [done|]. split; [done|]. by eapply agree_trans.
Qed.

Lemma persisted_inv {R} now a d io (no : LocalAuthenticator -> auth_error -> R) (yes : LocalAuthenticator -> R) :
  auth_inv now a -> core_inv now (set_dir d a) ->
  auth_inv now (match persistOrRollbackLocked (dir a) (set_dir d a) io with
                | (a, Some err) => (a, no a err)
                | (a, None) => (a, yes a)
                end).1.
Proof.
  intros Ha Hc. pose proof (persist_inv now a d io Ha Hc).
  by destruct (persistOrRollbackLocked _ _ _) as [a' [e|]].
Qed.

Lemma check_inv now a email ip :
  auth_inv now a -> auth_inv now (set_att (checkBruteForceProtectionFrom (att a) email ip now).1 a).
Proof.
  intros Ha. apply att_inv; [done|]. pose proof (ci_att _ _ (ai_core _ _ Ha)) as [Hs Hk Hp].
  assert (forall t : attempts, attempts_ok now t -> attempts_ok now (match accountFailures t !! email with
    | Some acct => if decide (now < LockedUntil acct /\ knownLoginIPLocked t email ip now = false)
                   then (t, Some (ErrRateLimited (LockedUntil acct - now))) else (t, None)
    | None => (t, None) end).1) as Hacct by (intros t Ht; destruct (_ !! _); [case_decide|]; done).
  unfold checkBruteForceProtectionFrom. destruct (loginAttempts (att a) !! _) as [x|] eqn:Ex; [|by apply Hacct].
  case_decide; [done|]. case_decide; [|by apply Hacct]. apply Hacct. constructor; [|done..]. simpl.
  by rewrite map_size_insert_Some by eauto.
Qed.

Lemma fail_inv now a email ip io : auth_inv now a -> auth_inv now (recordFailedAttemptFrom a email ip now io).
Proof.
  intros Ha. unfold recordFailedAttemptFrom. destruct (knownEmailLocked _ _); [|done]. pose proof Ha as [Hc Hi _].
  apply (save_inv now a); [done| |done|done|apply agree_refl|done]. apply core_att; [done|]. apply book_failure_ok, Hc.
Qed.

Lemma tokens_nonempty d : dir_ok d -> tokens d !! "" = None.
Proof. intros Hd. destruct (tokens d !! "") eqn:E; [|done]. by apply (ok_tokens d Hd) in E as []. Qed.

Lemma resets_nonempty d : dir_ok d -> resetTokens d !! "" = None.
Proof. intros Hd. destruct (resetTokens d !! "") eqn:E; [|done]. by apply (ok_resets d Hd) in E as []. Qed.

(** A credential names an account: the administrator has one. *)
Lemma credential_user d email :
  dir_ok d -> passwordHashForLocked d email <> "" -> exists u, findByEmailLocked d email = Some u.
Proof.
  intros Hd. unfold passwordHashForLocked. destruct (sameEmail email (adminEmail d)) eqn:E.
  - intros _. apply sameEmail_spec in E as [_ E]. destruct (find_admin d Hd) as (u & Hf & Hu). exists u.
    destruct (find_user d Hd _ _ Hf) as [_ He]. apply (find_unique d Hd (u_ID u)); [done|congruence].
  - destruct (findByEmailLocked d email); [eauto|done].
Qed.

Lemma new_session d id rec token now :
  dir_ok d -> within_limits d -> (exists u, users d !! id = Some u) -> accounts d !! id = Some rec -> token <> "" ->
  let d1 := set_accounts (alter (touch_login now) id (accounts d)) d in
  let d2 := set_tokens (<[token := MkSession id (now + sessionLifetime)]> (capSessionsLocked id now (tokens d1))) d1 in
  dir_ok d2 /\ within_limits d2.
Proof.
  intros Hd Hl [u Hu] Hr Ht. simpl. rewrite (alter_account d id u rec) by done.
  destruct (change_account d Hd Hl id u rec u (touch_login now rec)) as [Hd1 Hl1]; [done|done| |done| |done|].
  { by apply (user_id d Hd). }
  { destruct (ok_accounts d Hd _ _ Hr). by constructor. }
  set (d1 := with_account d id u (touch_login now rec)) in *.
  destruct (keep_tokens d1 Hd1 Hl1 (capSessionsLocked id now (tokens d))) as [Hd2 Hl2]; [apply capSessionsLocked_sub|].
  destruct (capSessionsLocked_size id now (tokens d) (tokens_nonempty d Hd)) as [Hs1 Hs2].
  destruct (add_token _ Hd2 Hl2 token (MkSession id (now + sessionLifetime))) as [Hd3 Hl3]; [done| |done|done|].
  { simpl. rewrite lookup_insert_eq. eauto. }
  done.
Qed.

Lemma login_inv now a email hash ip newID token io_clear io :
  auth_inv now a -> hash <> "" -> token <> "" ->
  auth_inv now (login_finish a email hash ip newID token now io_clear io).1.
Proof.
  intros Ha Hh Ht. unfold login_finish. case_decide as Hp; [done|].
  pose proof (ai_core _ _ Ha) as Hc. pose proof (ci_dir _ _ Hc) as Hd.
  destruct (credential_user (dir a) email Hd) as [u Hf]; [congruence|]. rewrite Hf.
  destruct (find_user _ Hd _ _ Hf) as [Hu _]. destruct (user_account _ Hd _ _ Hu) as [rec Hr].
  assert (set_dir (dir a) a = a) as Ea by (by destruct a). destruct (resolveLocked (dir a) u) as [e|v]; [by rewrite Ea|].
  rewrite Ea. unfold clearFailedAttemptsFrom. set (a0 := set_att _ a).
  assert (auth_inv now (saveSessionsLocked a0 io_clear).1) as Ha1.
  { apply (save_inv now a); [done| |done|apply Ha|apply agree_refl|done]. apply core_att; [done|].
    apply clear_attempts_ok, Hc. }
  assert (dir (saveSessionsLocked a0 io_clear).1 = dir a) as Ed
    by (unfold saveSessionsLocked; case_decide; [done|by destruct io_clear]).
  set (a1 := (saveSessionsLocked a0 io_clear).1) in *. clearbody a1 a0. rewrite <- Ed.
  apply (persisted_inv now a1 _ io (fun _ e => inl e) (fun _ => inr (v, token))); [done|].
  apply core_dir; [apply Ha1| |done|apply Ha1]. rewrite <- Ed in Hu, Hr.
  apply (new_session _ _ rec); [apply Ha1|apply Ha1|eauto|done|done].
Qed.

Lemma authenticate_inv now a token io : auth_inv now a -> auth_inv now (Authenticate a token now io).1.
Proof.
  intros Ha. unfold Authenticate. destruct (tokens (dir a) !! token) as [s|] eqn:Et; [|done].
  case_decide; [by eapply drop_token_inv|]. by destruct (users (dir a) !! UserID s).
Qed.

Lemma logout_inv now a token io : auth_inv now a -> auth_inv now (Logout a token io).1.
Proof.
  intros Ha. unfold Logout. apply persist_inv; [done|]. apply core_dir; [apply Ha| |done|apply Ha].
  apply keep_tokens; [apply Ha..|apply delete_subseteq].
Qed.

Lemma switch_inv now a token ws io : auth_inv now a -> auth_inv now (SwitchWorkspace a token ws now io).1.
Proof.
  intros Ha. pose proof (ai_core _ _ Ha) as Hc. pose proof (ci_dir _ _ Hc) as Hd.
  unfold SwitchWorkspace. case_decide; [done|]. destruct (tokens (dir a) !! token) as [s|] eqn:Et; [|done].
  case_decide; [by eapply drop_token_inv|]. destruct (users (dir a) !! UserID s) as [u|] eqn:Hu; [|done].
  destruct (resolveLocked _ _) as [e|v]; [done|].
  apply (persisted_inv now a _ io (fun _ e => inl e) (fun _ => inr v)); [done|].
  apply core_dir; [done| |done|apply Ha]. destruct (user_account _ Hd _ _ Hu) as [rec Hr].
  rewrite (with_user (dir a) _ _ rec) by done.
  apply (change_account _ Hd (ci_lim _ _ Hc) _ u rec); [done|done|exact (user_id _ Hd _ _ Hu)|done|exact (ok_accounts _ Hd _ _ Hr)|done].
Qed.

Lemma cleanup_inv now a io : auth_inv now a -> auth_inv now (cleanup_tick a now io).
Proof.
  intros Ha. pose proof (ai_core _ _ Ha) as Hc. unfold cleanup_tick. set (m := filter _ (tokens _)). set (r := filter _ _).
  assert (m ⊆ tokens (dir a)) as Hm by apply map_filter_subseteq.
  assert (r ⊆ resetTokens (dir a)) as Hr by apply map_filter_subseteq.
  apply (save_inv now a); [done| |done|apply Ha| |].
  - apply core_dir; [done| |done|apply Hc]. destruct (keep_tokens _ (ci_dir _ _ Hc) (ci_lim _ _ Hc) m Hm) as [Hd1 Hl1].
    by apply keep_resets.
  - apply agree_expired; [done..| |]; intros t x Ht He; apply map_lookup_filter_Some; simpl; split; [done|lia|done|lia].
  - intros Hp Ef. destruct (unwritten _ _ Ha Hp Ef) as (E1 & E2 & _). rewrite E1 in Hm. rewrite E2 in Hr.
    rewrite (sub_empty _ Hm), (sub_empty _ Hr).
    destruct (dir a); simpl in *; subst. done.
Qed.

Lemma generated_nonempty salt p h : bcrypt_generate salt p = Some h -> h <> "".
Proof. intros Hg. apply bcrypt_prefix in Hg. by intros ->. Qed.

(** Setting a password and revoking what was issued for the old one. *)
Lemma new_password d u rec hash now :
  dir_ok d -> within_limits d -> users d !! u_ID u = Some u -> accounts d !! u_ID u = Some rec -> adminPasswordHash d <> "" -> hash <> "" ->
  let d' := revokeCredentialsLocked u (setPasswordHashLocked d u hash now) in
  (dir_ok d' /\ within_limits d') /\ adminEmail d' = adminEmail d /\ adminPasswordHash d' <> "".
Proof.
  intros Hd Hl Hu Hr Hah Hh.
  assert (forall d, dir_ok d -> within_limits d -> dir_ok (revokeCredentialsLocked u d) /\ within_limits (revokeCredentialsLocked u d)) as Hrev.
  { intros e He Hle. unfold revokeCredentialsLocked, drop_resets, revokeUserSessionsLocked.
    destruct (keep_tokens e He Hle (filter (fun kv => ~ UserID kv.2 = u_ID u) (tokens e))) as [Hd1 Hl1];
      [apply map_filter_subseteq|].
    apply keep_resets; [exact Hd1|exact Hl1|apply map_filter_subseteq]. }
  assert (forall d f, dir_ok d -> within_limits d -> users d !! u_ID u = Some u -> accounts d !! u_ID u = Some rec ->
    Memberships (f rec) = Memberships rec -> Disabled (f rec) = Disabled rec ->
    dir_ok (set_accounts (alter f (u_ID u) (accounts d)) d) /\ within_limits (set_accounts (alter f (u_ID u) (accounts d)) d)) as Halt.
  { intros e f He Hle Heu Her Em Edis. rewrite (alter_account e (u_ID u) u rec) by done.
    apply (change_account e He Hle _ u rec); [done..| |by rewrite Edis].
    destruct (ok_accounts e He _ _ Her). constructor; by rewrite Em. }
  simpl. unfold setPasswordHashLocked. destruct (isConfiguredAdminLocked d u).
  - split; [|done]. destruct (set_hash d Hd Hl hash) as [Hd1 Hl1].
    destruct (Halt (set_adminPasswordHash hash d) (fun rec => set_password now (PasswordHash rec) rec)) as [Hd2 Hl2];
      [done..|]. by apply Hrev.
  - split; [|done]. destruct (Halt d (set_password now hash)) as [Hd2 Hl2]; [done..|]. by apply Hrev.
Qed.

Lemma change_password_inv now a token cur new salt io :
  auth_inv now a -> auth_inv now (ChangePassword a token cur new salt now io).1.
Proof.
  intros Ha. pose proof (ai_core _ _ Ha) as Hc. pose proof (ci_dir _ _ Hc) as Hd.
  unfold ChangePassword. destruct (tokens (dir a) !! token) as [s|] eqn:Et; [|done]. case_decide.
  { apply forget_inv; [done| |by eapply drop_expired|done|].
    - apply keep_tokens; [apply Hc..|apply delete_subseteq].
    - intros Hp Ef. destruct (unwritten _ _ Ha Hp Ef) as (E & _). by rewrite E, lookup_empty in Et. }
  destruct (users (dir a) !! UserID s) as [u|] eqn:Hu; [|done]. case_decide; [done|].
  destruct (negb _); [done|]. destruct (negb _); [done|]. destruct (bcrypt_generate salt new) as [h|] eqn:Eh; [|done].
  apply persist_inv; [done|]. pose proof (user_id _ Hd _ _ Hu) as Eid. rewrite <- Eid in Hu.
  destruct (user_account _ Hd _ _ Hu) as [rec Hr].
  destruct (new_password (dir a) u rec h now Hd (ci_lim _ _ Hc) Hu Hr (ci_hash _ _ Hc) (generated_nonempty _ _ _ Eh)) as (Hok & He & Hh).
  by apply core_dir.
Qed.

Lemma reset_request_inv now a email token io :
  auth_inv now a -> token <> "" -> auth_inv now (reset_request a email token now io).1.
Proof.
  intros Ha Ht. pose proof (ai_core _ _ Ha) as Hc. pose proof (ci_dir _ _ Hc) as Hd. unfold reset_request.
  set (user := match findByEmailLocked (dir a) email with Some _ => _ | None => _ end).
  assert (forall u, user = Some u -> users (dir a) !! u_ID u = Some u) as Huser.
  { intros u. unfold user. destruct (findByEmailLocked (dir a) email) as [v|] eqn:Ef.
    - intros [= <-]. by apply (find_user _ Hd email).
    - case_decide as Hp; [|done]. destruct (credential_user _ _ Hd Hp) as [v Hv]. congruence. }
  destruct user as [u|]; [|done]. specialize (Huser u eq_refl). case_decide; [done|].
  set (m := filter _ (resetTokens (dir a))).
  assert (m ⊆ resetTokens (dir a)) as Hm by apply map_filter_subseteq.
  assert (m !! "" = None) as Hm0 by (eapply lookup_weaken_None; [apply (resets_nonempty _ Hd)|exact Hm]).
  set (e := evict_until rt_ExpiresAt maxResetTokens (size m) m).
  assert (size e < maxResetTokens)%nat as He by (apply evict_until_size; [done|unfold maxResetTokens; lia|done]).
  assert (e ⊆ resetTokens (dir a)) as Hes by (etrans; [apply evict_until_sub|done]). clearbody e.
  apply (persisted_inv now a _ io (fun _ e => inl e) (fun _ => inr (token, u_Email u))); [done|].
  apply core_dir; [done| |done|apply Hc]. destruct (keep_resets _ Hd (ci_lim _ _ Hc) e Hes) as [Hd1 Hl1].
  by apply (add_reset _ Hd1 Hl1 token (MkReset (u_Email u) (now + resetLifetime)) (u_ID u) u).
Qed.

Lemma confirm_reset_inv now a token new salt io :
  auth_inv now a -> auth_inv now (ConfirmPasswordReset a token new salt now io).1.
Proof.
  intros Ha. pose proof (ai_core _ _ Ha) as Hc. pose proof (ci_dir _ _ Hc) as Hd.
  unfold ConfirmPasswordReset. destruct (resetTokens (dir a) !! token) as [rt|] eqn:Et; [|done]. case_decide.
  { apply forget_inv; [done| |by eapply drop_expired_reset|done|].
    - apply keep_resets; [apply Hc..|apply delete_subseteq].
    - intros Hp Ef. destruct (unwritten _ _ Ha Hp Ef) as (_ & E & _). by rewrite E, lookup_empty in Et. }
  destruct (negb _); [done|]. destruct (bcrypt_generate salt new) as [h|] eqn:Eh; [|done].
  destruct (ok_resets _ Hd _ _ Et) as (_ & id & u & Hu & E). rewrite (find_unique _ Hd id u) by done.
  apply persist_inv; [done|]. rewrite <- (user_id _ Hd _ _ Hu) in Hu. destruct (user_account _ Hd _ _ Hu) as [rec Hr].
  destruct (new_password (dir a) u rec h now Hd (ci_lim _ _ Hc) Hu Hr (ci_hash _ _ Hc) (generated_nonempty _ _ _ Eh)) as ([Hd1 Hl1] & He & Hh).
  apply core_dir; [done| |done|done]. apply keep_resets; [done|done|apply delete_subseteq].
Qed.

Lemma account_ok_one ws role h src dis must t l :
  ws <> "" -> validMemberRole role = true -> account_ok (MkAccount h src dis must {[ ws := role ]} t l).
Proof.
  intros Hw Hr. constructor; simpl; [apply map_non_empty_singleton|]. by apply map_Forall_singleton.
Qed.

Lemma create_user_inv now a actor req id salt io :
  auth_inv now a -> id <> "" -> users (dir a) !! id = None -> auth_inv now (CreateUser a actor req id salt now io).1.
Proof.
  intros Ha Hid Hf. pose proof (ai_core _ _ Ha) as Hc. pose proof (ci_dir _ _ Hc) as Hd. unfold CreateUser.
  destruct (negb (validateEmail _)) eqn:Ev; [done|]. apply negb_false_iff, validateEmail_normal in Ev.
  case_decide; [done|]. set (role := if decide _ then _ else _). destruct (negb (validMemberRole role)) eqn:Er; [done|].
  apply negb_false_iff in Er. assert (forall email name hash, normalizeEmail email <> "" ->
    auth_inv now (create_user a actor email name hash id role now io).1) as Hmk.
  { intros email name hash Hn. unfold create_user. destruct (actorLocked _ _) as [e|[ws R]] eqn:Eact; [done|].
    destruct (actor_holds _ Hd _ _ _ Eact) as (act & -> & Hws & _). destruct (negb _); [done|].
    case_decide as Hnf; [done|]. apply eq_None_not_Some in Hnf. case_decide; [done|]. case_decide; [done|].
    destruct (checkMemberQuotaLocked _ _ _); [done|].
    match goal with |- context [MkUser id email ?n role ws now "" false] => set (user := MkUser id email n role ws now "" false) end.
    apply (persisted_inv now a _ io (fun _ e => inl e) (fun a => inr (memberViewLocked (dir a) user ws))); [done|].
    apply core_dir; [done| |done|apply Hc]. apply (new_account _ Hd (ci_lim _ _ Hc) id user); try done; [|lia].
    by apply account_ok_one. }
  case_decide; [by apply Hmk|]. destruct (negb _); [done|]. destruct (bcrypt_generate _ _); [by apply Hmk|done].
Qed.

Lemma update_member_inv now a actor id update io :
  auth_inv now a -> auth_inv now (UpdateMember a actor id update now io).1.
Proof.
  intros Ha. pose proof (ai_core _ _ Ha) as Hc. pose proof (ci_dir _ _ Hc) as Hd. unfold UpdateMember.
  destruct actor as [act|]; [|done]. destruct (actorLocked (dir a) _) as [e|[ws R]] eqn:Eact; [done|].
  destruct (actor_holds _ Hd _ _ _ Eact) as (_ & _ & Hws & _).
  destruct (targetLocked _ _ _ _) as [e|[[u rec] current]] eqn:Etgt; [done|]. apply target_spec in Etgt as (Hu & Hr & Hm & _).
  destruct (update_name _ _ _ _ _ _) as [e|name]; [done|]. destruct (update_role _ _ _ _ _ _) as [e|role] eqn:Erole; [done|].
  destruct (update_disabled _ _ _ _ _ _) as [e|dis] eqn:Edis; [done|]. set (revoke := _ || _).
  set (user := match name with Some _ => _ | None => _ end).
  assert (u_ID user = id /\ u_Email user = u_Email u) as [Eid Ee].
  { pose proof (user_id _ Hd _ _ Hu). by destruct name. }
  assert (account_ok (updated_account now ws role dis rec)) as Hacc.
  { pose proof (ok_accounts _ Hd _ _ Hr) as [Hne Hv]. destruct role as [r|]; [|by constructor].
    unfold update_role in Erole. destruct (mu_Role update) as [next|]; [|done]. case_decide; [done|].
    destruct (negb (validMemberRole next)) eqn:Ev; [done|]. apply negb_false_iff in Ev. destruct (negb _); [done|].
    case_decide; [done|]. injection Erole as <-. constructor; simpl; [apply insert_non_empty|]. by apply map_Forall_insert_2. }
  destruct (change_account (dir a) Hd (ci_lim _ _ Hc) id u rec user (updated_account now ws role dis rec)) as [Hd1 Hl1]; [done..| |].
  { intros Hadm Hrd. simpl. destruct dis as [[]|]; [|done|done]. exfalso. unfold update_disabled in Edis.
    destruct (mu_Disabled update) as [b|]; [|done]. case_decide; [done|].
    destruct b; [|by destruct (accountScopeLocked _ _ _ _)]. destruct (accountWideLocked _ _ _ _ _) eqn:Ew; [done|].
    apply wide_spec in Ew as (_ & Hna & _). unfold isConfiguredAdminLocked in Hna. congruence. }
  apply (persisted_inv now a _ io (fun _ e => inl e) (fun a => inr (MkChange (memberViewLocked (dir a) user ws) revoke))); [done|].
  apply core_dir; [done| |by destruct revoke|by destruct revoke; apply Hc]. destruct revoke; [|done].
  apply keep_tokens; [done|done|apply map_filter_subseteq].
Qed.

Lemma removed_ok d u rec id ws now :
  dir_ok d -> within_limits d -> users d !! id = Some u -> accounts d !! id = Some rec -> is_Some (Memberships rec !! ws) ->
  isConfiguredAdminLocked d u && bool_decide (size (Memberships rec) = 1%nat) = false ->
  let d' := revokeUserSessionsLocked id (remove_member_state d u rec id ws now) in dir_ok d' /\ within_limits d'.
Proof.
  intros Hd Hl Hu Hr [role Hm] Hguard. unfold remove_member_state.
  destruct (sortedWorkspaces (delete ws (Memberships rec))) as [|first l] eqn:Es.
  - apply sortedWorkspaces_nil in Es. apply drop_account; [done..|]. apply andb_false_iff in Hguard as [Hg|Hg]; [done|].
    apply bool_decide_eq_false in Hg. exfalso. apply Hg. rewrite <- (insert_delete_id _ _ _ Hm), Es.
    by rewrite insert_empty, map_size_singleton.
  - match goal with |- context [<[id := ?x]> (users d)] => set (user := x) end.
    assert (u_ID user = id /\ u_Email user = u_Email u) as [Eid Ee].
    { pose proof (user_id _ Hd _ _ Hu). unfold user. destruct (decide _); auto. }
    destruct (change_account d Hd Hl id u rec user (left_workspace now ws rec)) as [Hd1 Hl1]; [done..| |done|].
    + constructor; simpl.
      * intros E. rewrite E in Es. done.
      * apply map_Forall_delete, (ok_accounts _ Hd _ _ Hr).
    + apply keep_tokens; [done|done|apply map_filter_subseteq].
Qed.

Lemma remove_state_fields d u rec id ws now :
  adminEmail (remove_member_state d u rec id ws now) = adminEmail d /\
  adminPasswordHash (remove_member_state d u rec id ws now) = adminPasswordHash d /\
  invitations (remove_member_state d u rec id ws now) = invitations d.
Proof. unfold remove_member_state. by destruct (sortedWorkspaces _). Qed.

Lemma remove_member_inv now a actor id io : auth_inv now a -> auth_inv now (RemoveMember a actor id now io).1.
Proof.
  intros Ha. pose proof (ai_core _ _ Ha) as Hc. pose proof (ci_dir _ _ Hc) as Hd. unfold RemoveMember.
  destruct (actorLocked (dir a) _) as [e|[ws R]] eqn:Eact; [done|].
  destruct (targetLocked _ _ _ _) as [e|[[u rec] role]] eqn:Etgt; [done|]. apply target_spec in Etgt as (Hu & Hr & Hm & _).
  case_decide; [done|]. destruct (_ && _) eqn:Eg; [done|].
  apply (persisted_inv now a _ io (fun _ e => inl e) (fun _ => inr (MkChange (memberViewLocked (dir a) u ws) true))); [done|].
  destruct (remove_state_fields (dir a) u rec id ws now) as (E1 & E2 & _).
  apply core_dir; [done| |exact E1|simpl; rewrite E2; apply Hc]. apply removed_ok; eauto. apply Hc.
Qed.

Lemma delete_user_inv now a actor id io : auth_inv now a -> auth_inv now (DeleteUser a actor id io).1.
Proof.
  intros Ha. pose proof (ai_core _ _ Ha) as Hc. pose proof (ci_dir _ _ Hc) as Hd. unfold DeleteUser.
  destruct actor as [act|]; [|done]. destruct (actorLocked (dir a) _) as [e|[ws R]] eqn:Eact; [done|].
  destruct (targetLocked _ _ _ _) as [e|[[u rec] role]] eqn:Etgt; [done|]. apply target_spec in Etgt as (Hu & Hr & Hm & _).
  destruct (accountWideLocked _ _ _ _ _) eqn:Ew; [done|]. apply wide_spec in Ew as (_ & Hna & _).
  apply (persisted_inv now a _ io (fun _ e => inl e) (fun _ => inr (MkChange (memberViewLocked (dir a) u ws) true))); [done|].
  apply core_dir; [done| |done|apply Hc]. apply drop_account; [done|apply Hc|done|done].
Qed.

Lemma invite_inv now a actor email role id token io :
  auth_inv now a -> fresh (OpInvite actor email role id token io) (dir a) ->
  auth_inv now (CreateInvitation a actor email role id token now io).1.
Proof.
  intros Ha [Hid Htok]. pose proof (ai_core _ _ Ha) as Hc. pose proof (ci_dir _ _ Hc) as Hd. unfold CreateInvitation.
  destruct (negb (validateEmail _)) eqn:Ev; [done|]. apply negb_false_iff, validateEmail_normal in Ev.
  set (r := if decide _ then _ else _). destruct (negb (validMemberRole r)) eqn:Er; [done|]. apply negb_false_iff in Er.
  destruct actor as [act|]; [|done]. destruct (actorLocked (dir a) _) as [e|[ws R]] eqn:Eact; [done|].
  destruct (actor_holds _ Hd _ _ _ Eact) as (_ & _ & Hws & _). destruct (negb _); [done|].
  match goal with |- context [if ?b : bool then (a, inl (ErrConflict "already a member")) else _] => destruct b; [done|] end.
  set (pending := filter _ (pruneInvitationsLocked _ _)).
  assert (pending ⊆ invitations (dir a)) as Hp by (etrans; apply map_filter_subseteq).
  case_decide as Hfull; [done|]. destruct (checkMemberQuotaLocked _ _ _); [done|]. clearbody pending.
  set (inv := MkInvitation id _ _ _ _ _ _ _ _).
  apply (persisted_inv now a _ io (fun _ e => inl e) (fun _ => inr (invitationView inv, token))); [done|].
  apply core_dir; [done| |done|apply Hc]. destruct (keep_invites _ Hd (ci_lim _ _ Hc) pending Hp) as [Hd1 Hl1].
  apply (add_invite _ Hd1 Hl1 inv); try done.
  - by eapply lookup_weaken_None.
  - by eapply map_Forall_sub.
  - apply sha256_nonempty.
  - simpl. lia.
Qed.

Lemma revoke_invite_inv now a actor id io : auth_inv now a -> auth_inv now (RevokeInvitation a actor id io).1.
Proof.
  intros Ha. unfold RevokeInvitation. destruct (actorLocked _ _) as [e|[ws R]]; [done|].
  destruct (invitations (dir a) !! id) as [inv|]; [|done]. case_decide; [done|]. destruct (negb _); [done|].
  apply persist_inv; [done|]. apply core_dir; [apply Ha| |done|apply Ha]. apply keep_invites; [apply Ha..|apply delete_subseteq].
Qed.

Lemma accept_inv now a hash name existing eh pw id io :
  auth_inv now a -> id <> "" -> users (dir a) !! id = None ->
  auth_inv now (accept_finish a hash name existing eh pw id now io).1.
Proof.
  intros Ha Hid Hf. pose proof (ai_core _ _ Ha) as Hc. pose proof (ci_dir _ _ Hc) as Hd. unfold accept_finish.
  destruct (findInvitationLocked _ _) as [inv|] eqn:Einv; [|done]. apply find_invitation in Einv as [_ [iid Hi]].
  destruct (ok_invites _ Hd _ _ Hi) as (_ & Hws & _ & Hrole & Hn). destruct (negb _); [done|].
  assert (forall d u, dir_ok d /\ within_limits d -> adminEmail d = adminEmail (dir a) -> adminPasswordHash d <> "" ->
    auth_inv now (match persistOrRollbackLocked (dir a) (set_dir (set_invitations (delete (inv_ID inv) (invitations d)) d) a) io with
      | (a, Some err) => (a, inl err)
      | (a, None) => (a, inr (memberViewLocked (dir a) u (inv_Workspace inv))) end).1) as Hfin.
  { intros d u [Hd1 Hl1] He Hh. apply (persisted_inv now a _ io (fun _ e => inl e)
      (fun a => inr (memberViewLocked (dir a) u (inv_Workspace inv)))); [done|].
    apply core_dir; [done| |done|done]. apply keep_invites; [done|done|apply delete_subseteq]. }
  destruct (findByEmailLocked _ _) as [u|] eqn:Ef.
  - destruct (_ && _); [|done]. destruct (accounts (dir a) !! u_ID u) as [rec|] eqn:Hr; [|done].
    destruct (Disabled rec) eqn:Edis; [done|]. apply Hfin; [|done|apply Hc]. destruct (find_user _ Hd _ _ Ef) as [Hu _].
    assert (set_accounts (<[u_ID u := join_workspace now inv rec]> (accounts (dir a))) (dir a) =
      with_account (dir a) (u_ID u) u (join_workspace now inv rec)) as ->.
    { unfold with_account. rewrite (insert_id _ _ _ Hu). by destruct (dir a). }
    apply (change_account _ Hd (ci_lim _ _ Hc) _ u rec); [done..| |done]. destruct (ok_accounts _ Hd _ _ Hr) as [Hne Hv].
    constructor; simpl; destruct (Memberships rec !! inv_Workspace inv); try done; [apply insert_non_empty|].
    by apply map_Forall_insert_2.
  - destruct existing; [done|]. case_decide as Hs; [done|]. apply Hfin; [|done|apply Hc].
    apply (new_account _ Hd (ci_lim _ _ Hc) id); try done; [|lia]. by apply account_ok_one.
Qed.

Lemma provision_inv now a email name src id io :
  auth_inv now a -> id <> "" -> users (dir a) !! id = None ->
  auth_inv now (ProvisionExternalUser a email name src id now io).1.
Proof.
  intros Ha Hid Hf. pose proof (ai_core _ _ Ha) as Hc. pose proof (ci_dir _ _ Hc) as Hd. unfold ProvisionExternalUser.
  destruct (negb (validateEmail _)) eqn:Ev; [done|]. apply negb_false_iff, validateEmail_normal in Ev.
  assert (forall d u, dir_ok d /\ within_limits d -> adminEmail d = adminEmail (dir a) -> adminPasswordHash d <> "" ->
    auth_inv now (match persistOrRollbackLocked (dir a) (set_dir d a) io with
      | (a, Some err) => (a, inl err)
      | (a, None) => (a, resolveLocked (dir a) u) end).1) as Hfin.
  { intros d u Hok He Hh. apply (persisted_inv now a _ io (fun _ e => inl e) (fun a => resolveLocked (dir a) u)); [done|].
    by apply core_dir. }
  destruct (findByEmailLocked _ _) as [u|] eqn:Ef.
  - destruct (accounts (dir a) !! u_ID u) as [rec|] eqn:Hr; [|done]. case_decide; [done|].
    destruct (Disabled rec) eqn:Edis; [done|]. destruct (find_user _ Hd _ _ Ef) as [Hu _].
    match goal with |- context [<[u_ID ?x := touch_login now rec]> _] => set (user := x) end.
    assert (u_ID user = u_ID u /\ u_Email user = u_Email u) as [Eid Ee] by (unfold user; destruct (decide _); auto).
    rewrite Eid. clearbody user. apply Hfin; [|done|apply Hc].
    apply (change_account _ Hd (ci_lim _ _ Hc) _ u rec user); [done..| |done]. destruct (ok_accounts _ Hd _ _ Hr). by constructor.
  - case_decide; [done|]. destruct (checkMemberQuotaLocked _ _ _); [done|]. apply Hfin; [|done|apply Hc].
    apply (new_account _ Hd (ci_lim _ _ Hc) id); try done; [|lia]. by apply account_ok_one.
Qed.

(** ** Restarts *)

Lemma present_some {A} (m : gmap string A) : present (Some <$> m) = m.
Proof. apply map_eq. intros i. unfold present. rewrite lookup_omap, lookup_fmap. by destruct (m !! i). Qed.

Lemma migrate_complete d :
  (forall id, is_Some (users d !! id) <-> is_Some (accounts d !! id)) -> migrateDirectoryLocked d = d.
Proof.
  intros Hdom. unfold migrateDirectoryLocked. transitivity (set_accounts (accounts d) d); [|by destruct d]. f_equal.
  rewrite map_filter_id by (intros i rec Hi; apply Hdom; eauto). apply map_eq. intros i.
  rewrite lookup_union, lookup_fmap. destruct (accounts d !! i) as [rec|] eqn:Ei.
  - by destruct (users d !! i).
  - destruct (users d !! i) as [u|] eqn:Eu; [|done]. destruct (proj1 (Hdom i)) as [x Hx]; [eauto|]. congruence.
Qed.

(** The directory a restart finds in the session file of [d]. *)
Definition revived (now : Z) (d : directory) : directory :=
  MkDirectory (filter (fun kv => now < ExpiresAt kv.2) (tokens d))
    (filter (fun kv => now < rt_ExpiresAt kv.2) (resetTokens d)) (users d) (adminEmail d) (adminPasswordHash d)
    (accounts d) (filter (fun kv => now < inv_ExpiresAt kv.2) (invitations d)).

Lemma revived_ok now d :
  dir_ok d -> within_limits d -> dir_ok (revived now d) /\ within_limits (revived now d).
Proof.
  intros Hd Hl.
  destruct (keep_tokens d Hd Hl (filter (fun kv => now < ExpiresAt kv.2) (tokens d))) as [Hd1 Hl1]; [apply map_filter_subseteq|].
  destruct (keep_resets _ Hd1 Hl1 (filter (fun kv => now < rt_ExpiresAt kv.2) (resetTokens d))) as [Hd2 Hl2]; [apply map_filter_subseteq|].
  exact (keep_invites _ Hd2 Hl2 (filter (fun kv => now < inv_ExpiresAt kv.2) (invitations d)) (map_filter_subseteq _ _)).
Qed.

Lemma filter_twice {A} (P : string * A -> Prop) `{!forall x, Decision (P x)} (m : gmap string A) :
  filter P (filter P m) = filter P m.
Proof. apply map_filter_id. by intros i x [_ HP]%map_lookup_filter_Some. Qed.

Lemma agree_revived now d : agree now d (revived now d).
Proof. constructor; simpl; try done; by rewrite filter_twice. Qed.

Context (Hemail : normalizeEmail cfgEmail <> "") (Hpassword : cfgPassword <> "").

Lemma config_hash_seed salt h :
  config_hash cfgPassword salt = inr h -> h <> "" /\ configPasswordMatchesSeed h cfgPassword = true.
Proof using Hpassword.
  unfold config_hash. rewrite decide_False by done. destruct (bcrypt_hashed cfgPassword) eqn:Eb.
  - intros [= <-]. split; [done|]. unfold configPasswordMatchesSeed. rewrite !decide_False, Eb by done.
    by apply bool_decide_eq_true.
  - destruct (negb _); [done|]. destruct (bcrypt_generate salt cfgPassword) as [g|] eqn:Eg; [|done]. intros [= <-].
    assert (g <> "") as Hg by by eapply generated_nonempty. split; [done|].
    unfold configPasswordMatchesSeed. rewrite !decide_False, Eb by done. by eapply bcrypt_verifies.
Qed.

(** What a first start builds is well formed. *)
Lemma first_dir_ok id h t : id <> "" -> dir_ok (first_dir id h t) /\ within_limits (first_dir id h t).
Proof using Hemail.
  intros Hid. set (u := admin_identity (MkDirectory ∅ ∅ ∅ cfgEmail h ∅ ∅) id t).
  assert (first_dir id h t = MkDirectory ∅ ∅ {[ id := u ]} cfgEmail h
    {[ id := MkAccount "" SourceLocal false false {[ "default" := RoleOwner ]} t None ]} ∅) as ->.
  { unfold first_dir, migrateDirectoryLocked, set_accounts, set_users. simpl. f_equal.
    rewrite map_filter_empty, (left_id_L ∅ (∪)), map_fmap_singleton. unfold migrated_account. f_equal. f_equal.
    unfold isConfiguredAdminLocked. simpl. assert (sameEmail cfgEmail cfgEmail = true) as ->; [|done].
    by apply sameEmail_spec. }
  split; constructor; simpl; rewrite ?map_size_empty;
    match goal with |- map_Forall _ ∅ => apply map_Forall_empty | |- (0 <= _)%nat => lia | |- _ => idtac end.
  - by apply map_Forall_singleton.
  - intros i j x y [<- _]%lookup_singleton_Some [<- _]%lookup_singleton_Some. done.
  - intros j. destruct (decide (id = j)) as [->|]; [by rewrite !lookup_singleton_eq|by rewrite !lookup_singleton_ne].
  - apply map_Forall_singleton. by apply account_ok_one.
  - intros i j x y Hx. by rewrite lookup_empty in Hx.
  - exists id, u. eexists. rewrite !lookup_singleton_eq. done.
  - intros i. rewrite map_filter_empty, map_size_empty. lia.
  - rewrite map_size_singleton. unfold maxAccounts. lia.
Qed.

Lemma attempts_empty now : attempts_ok now (MkAttempts ∅ ∅ ∅).
Proof. constructor; simpl; rewrite ?map_size_empty; try lia. apply map_Forall_empty. Qed.

Lemma start_fresh salt id now a :
  NewLocalAuthenticator cfgPath cfgEmail cfgPassword salt id None now = inr a -> id <> "" ->
  auth_inv now a /\ file a = None /\ exists h, dir a = first_dir id h now.
Proof using Hemail Hpassword.
  unfold NewLocalAuthenticator. destruct (config_hash cfgPassword salt) as [e|h] eqn:Eh; [done|].
  destruct (config_hash_seed _ _ Eh) as [Hh Hseed]. set (d := MkDirectory ∅ ∅ ∅ cfgEmail h ∅ ∅). set (a0 := MkAuth d _ _ _ _ _).
  assert (loadSessions a0 cfgPassword now = a0) as -> by (unfold loadSessions; simpl; by case_decide).
  assert (cfgEmail <> "") as He by (by intros ->).
  rewrite (bool_decide_eq_true_2 (cfgEmail <> "")), (bool_decide_eq_true_2 (cfgPassword <> "")) by done. simpl.
  assert (hasUserWithEmail d cfgEmail = false) as -> by (apply bool_decide_eq_false; simpl; rewrite map_to_list_empty; inversion 1).
  simpl. intros [= <-] Hid. rewrite insert_empty.
  assert (migrateDirectoryLocked (set_users {[id := admin_identity d id now]} d) = first_dir id h now) as -> by done.
  split; [|simpl; eauto]. destruct (first_dir_ok id h now Hid). constructor; [|done|].
  - constructor; simpl; try done. apply attempts_empty.
  - unfold file_inv. simpl. eauto 10.
Qed.

Definition loaded_attempts (now : Z) (t : attempts) : attempts :=
  MkAttempts (filter (fun kv => attempt_live now kv.2) (loginAttempts t))
    (filter (fun kv => attempt_live now kv.2) (accountFailures t))
    (filter (fun kv => now - kv.2 <= knownLoginIPTTL) (knownLoginIPs t)).

Lemma start_found salt id now b a :
  NewLocalAuthenticator cfgPath cfgEmail cfgPassword salt id (Some (encode_file (snapshot b))) now = inr a ->
  cfgPath <> "" -> core_inv now b ->
  auth_inv now a /\ dir a = revived now (dir b) /\ att a = loaded_attempts now (att b) /\
  file a = Some (encode_file (snapshot b)).
Proof using Hemail Hpassword.
  unfold NewLocalAuthenticator. destruct (config_hash cfgPassword salt) as [e|h] eqn:Eh; [done|]. intros Hstart Hp Hb.
  destruct (ci_seed _ _ Hb) as [Hs1 Hs2]. unfold loadSessions in Hstart. simpl in Hstart. rewrite decide_False in Hstart by done.
  simpl in Hstart. rewrite decode_encode in Hstart. simpl in Hstart.
  rewrite !present_some, Hs2, (ci_email _ _ Hb), (bool_decide_eq_true_2 (adminPasswordHash (dir b) <> "")),
    (bool_decide_eq_true_2 (cfgEmail = cfgEmail)), (bool_decide_eq_true_2 (configSeedHash b <> "")) in Hstart by (done || apply Hb).
  simpl in Hstart. rewrite (map_filter_id _ (accounts (dir b))) in Hstart.
  2: { intros i rec Hi. apply (ok_dom _ (ci_dir _ _ Hb)). eauto. }
  set (d := MkDirectory _ _ _ _ _ _ _) in Hstart.
  assert (d = revived now (dir b)) as Ed by (unfold d, revived; by rewrite (ci_email _ _ Hb)). clearbody d. subst d.
  destruct (revived_ok now (dir b) (ci_dir _ _ Hb) (ci_lim _ _ Hb)) as [Hd Hl].
  assert (hasUserWithEmail (revived now (dir b)) cfgEmail = true) as Hhas.
  { apply bool_decide_eq_true, Exists_exists. destruct (ok_admin _ (ci_dir _ _ Hb)) as (i & u & rec & Hu & He & _).
    exists (i, u). split; [by apply elem_of_map_to_list|]. simpl. rewrite He. apply Hb. }
  rewrite Hhas, andb_false_r in Hstart. simpl in Hstart. rewrite (migrate_complete _ (ok_dom _ Hd)) in Hstart.
  injection Hstart as <-. simpl. split; [|done]. constructor; [|done|].
  - constructor; simpl; try done; try apply Hb. constructor; simpl.
    + etrans; [apply map_subseteq_size, map_filter_subseteq|apply Hb].
    + etrans; [apply map_subseteq_size, map_filter_subseteq|apply Hb].
    + eapply map_Forall_sub; [apply map_filter_subseteq|apply Hb].
  - unfold file_inv. simpl. split; [done|]. exists b. split; [done|]. split; [done|apply agree_revived].
Qed.

Lemma restart_inv now a salt id a' :
  auth_inv now a -> id <> "" -> perform (OpRestart salt id) now a = Some a' -> auth_inv now a'.
Proof using Hemail Hpassword.
  intros Ha Hid. simpl. destruct (NewLocalAuthenticator _ _ _ _ _ _ _) as [e|x] eqn:En; [done|]. intros [= <-].
  pose proof (ai_file _ _ Ha) as Hf. unfold file_inv in Hf. destruct (file a) as [f|].
  - destruct Hf as (Hp & b & -> & Hb & _). by eapply start_found.
  - by eapply start_fresh.
Qed.

(** Every critical section and every restart keeps the invariant. *)
Lemma perform_inv op now a a' :
  auth_inv now a -> fresh op (dir a) -> perform op now a = Some a' -> auth_inv now a'.
Proof using Hemail Hpassword.
  intros Ha Hf Hp. destruct op; try (injection Hp as <-); simpl in Hf.
  - by apply check_inv.
  - by apply fail_inv.
  - apply login_inv; tauto.
  - by apply authenticate_inv.
  - by apply logout_inv.
  - by apply switch_inv.
  - by apply change_password_inv.
  - apply reset_request_inv; tauto.
  - by apply confirm_reset_inv.
  - apply create_user_inv; tauto.
  - by apply update_member_inv.
  - by apply remove_member_inv.
  - by apply delete_user_inv.
  - by eapply invite_inv.
  - by apply revoke_invite_inv.
  - apply accept_inv; tauto.
  - apply provision_inv; tauto.
  - by apply cleanup_inv.
  - by eapply restart_inv.
Qed.

Lemma run_inv now a ops now' a' : run now a ops now' a' -> auth_inv now a -> auth_inv now' a' /\ now <= now'.
Proof using Hemail Hpassword.
  induction 1 as [|now a now1 op a1 ops now2 a2 Hle Hf Hp _ IH]; [split; [done|lia]|].
  intros Ha. destruct IH as [IH1 IH2]; [|split; [done|lia]]. eapply perform_inv; [|done|done]. by eapply auth_inv_later.
Qed.
End runs.
