(* ===== verification/AuthProps.v ===== *)
(** * Correctness of the authenticator

    Theorems about every run of the authenticator from its first start, with
    failing writes and restarts: the directory stays well formed and within
    its limits, the session file restores what was in memory, roles are
    granted within the granter's authority, workspaces keep an owner, an
    invitation is redeemed once, and a locked source stays locked. *)
From stdpp Require Import base gmap strings list sorting.
From Stdlib Require Import ZArith Lia.
From Stdlib Require Strings.String.
From S2P Require Import Prelude GoStrings AuthData Auth AuthInv.

Open Scope Z_scope.

(** ** How operations change memberships *)

(** What decides about access: the workspaces of an account and whether it is
    disabled. *)
Definition seat (rec : accountRecord) : gmap string MemberRole * bool := (Memberships rec, Disabled rec).
Definition seats (d : directory) : gmap string (gmap string MemberRole * bool) := seat <$> accounts d.

Lemma seats_lookup d id : seats d !! id = seat <$> accounts d !! id.
Proof. apply lookup_fmap. Qed.

Lemma seats_with d id u rec : seats (with_account d id u rec) = <[id := seat rec]> (seats d).
Proof. apply fmap_insert. Qed.

(** An enabled owner of [ws] other than [id]. *)
Definition other_owner (d : directory) (id ws : string) : Prop :=
  exists j m, j <> id /\ seats d !! j = Some (m, false) /\ m !! ws = Some RoleOwner.

Lemma owners_seat d id ws : ownersLocked d ws id <> O -> other_owner d id ws.
Proof.
  intros H. destruct (owners_other d ws id H) as (j & rec & Hj & Hr & Hdis & Hm). exists j, (Memberships rec).
  split; [done|]. rewrite seats_lookup, Hr. simpl. unfold seat. by rewrite Hdis.
Qed.

(** The account on whose authority an operation changes memberships: its
    actor, or the inviter of an accepted invitation. *)
Definition responsible (op : operation) (d : directory) : option string :=
  match op with
  | OpCreateUser actor _ _ _ _ | OpUpdateMember actor _ _ _ | OpRemoveMember actor _ _
  | OpDeleteUser actor _ _ => u_ID <$> actor
  | OpAccept hash _ _ _ _ _ _ => inv_InvitedByID <$> findInvitationLocked d hash
  | _ => None
  end.

Definition manages (op : operation) (d : directory) (ws : string) (R : MemberRole) : Prop :=
  exists id, responsible op d = Some id /\ holds d id ws R /\ Can R "members:*" = true.

(** The ways memberships change, with the checks that precede each. *)
Inductive seat_step (op : operation) (d : directory) : gmap string (gmap string MemberRole * bool) -> Prop :=
| seat_join R ws role id (m : gmap string MemberRole) (dis : bool) :
    manages op d ws R -> RoleWithin role R = true -> default (∅, false) (seats d !! id) = (m, dis) -> m !! ws = None ->
    seat_step op d (<[id := (<[ws := role]> m, dis)]> (seats d))
| seat_update R ws current id (m : gmap string MemberRole) (dis : bool) role dis' :
    manages op d ws R -> RoleWithin current R = true -> seats d !! id = Some (m, dis) -> m !! ws = Some current ->
    (forall r, role = Some r -> RoleWithin r R = true /\ (current = RoleOwner -> other_owner d id ws)) ->
    (dis' = Some true -> forall w, m !! w = Some RoleOwner -> other_owner d id w) ->
    seat_step op d (<[id := (match role with Some r => <[ws := r]> m | None => m end, default dis dis')]> (seats d))
| seat_leave R ws current id (m : gmap string MemberRole) (dis : bool) :
    manages op d ws R -> RoleWithin current R = true -> seats d !! id = Some (m, dis) -> m !! ws = Some current ->
    (current = RoleOwner -> other_owner d id ws) ->
    seat_step op d (if decide (delete ws m = ∅) then delete id (seats d) else <[id := (delete ws m, dis)]> (seats d))
| seat_delete R ws current id (m : gmap string MemberRole) (dis : bool) actor io :
    manages op d ws R -> RoleWithin current R = true -> seats d !! id = Some (m, dis) -> m !! ws = Some current ->
    op = OpDeleteUser (Some actor) id io ->
    (actor_is_admin d actor = true \/ map_Forall (fun other _ => other = ws) m) ->
    (forall w, m !! w = Some RoleOwner -> other_owner d id w) ->
    seat_step op d (delete id (seats d))
| seat_provision id email name src io :
    op = OpProvision email name src id io -> seats d !! id = None ->
    seat_step op d (<[id := ({[ "default" := RoleViewer ]}, false)]> (seats d)).

(** Directories with the same accounts as far as access goes. *)
Definition seats_changed `{!AuthEnv} (op : operation) (a a' : LocalAuthenticator) : Prop :=
  seats (dir a') = seats (dir a) \/ seat_step op (dir a) (seats (dir a')).

Section seats.
Context `{!AuthEnv} (cfgPath cfgEmail cfgPassword : string).
Context (Hemail : normalizeEmail cfgEmail <> "") (Hpassword : cfgPassword <> "").

Notation auth_inv := (auth_inv cfgPath cfgEmail cfgPassword).
Notation perform := (perform cfgPath cfgEmail cfgPassword).
Notation run := (run cfgPath cfgEmail cfgPassword).

Lemma save_dir a io : dir (saveSessionsLocked a io).1 = dir a.
Proof using Type. unfold saveSessionsLocked. case_decide; [done|]. by destruct io. Qed.

Lemma persist_dir before a io (P : directory -> Prop) :
  P before -> P (dir a) -> P (dir (persistOrRollbackLocked before a io).1).
Proof using Type.
  intros Hb Ha. unfold persistOrRollbackLocked, saveSessionsLocked. case_decide; [done|]. by destruct io.
Qed.

Lemma persisted_dir {R} before a io (no : LocalAuthenticator -> auth_error -> R) (yes : LocalAuthenticator -> R)
    (P : directory -> Prop) :
  P before -> P (dir a) ->
  P (dir (match persistOrRollbackLocked before a io with
          | (a, Some err) => (a, no a err)
          | (a, None) => (a, yes a)
          end).1).
Proof using Type.
  intros Hb Ha. pose proof (persist_dir before a io P Hb Ha). by destruct (persistOrRollbackLocked _ _ _) as [a' [e|]].
Qed.

(** Walks through the branches of an operation for a property [P] of the
    directory it leaves. *)
Ltac walk P :=
  cbn [fst];
  lazymatch goal with
  | |- P (dir (saveSessionsLocked _ _).1) => rewrite save_dir
  | |- P (dir (persistOrRollbackLocked _ _ _).1) => apply (persist_dir _ _ _ P)
  | |- P (dir (match persistOrRollbackLocked ?b ?x ?io with _ => _ end).1) =>
      let Hw := fresh in
      assert (P (dir (persistOrRollbackLocked b x io).1)) as Hw;
      [apply (persist_dir _ _ _ P)|destruct (persistOrRollbackLocked b x io) as [? [?|]]; exact Hw]
  | |- P (dir (match ?x with _ => _ end).1) => destruct x eqn:?; walk P
  | |- _ => idtac
  end.

Notation unchanged d := (fun d' => seats d' = seats d).
Notation changed op d := (fun d' => seats d' = seats d \/ seat_step op d (seats d')).

Lemma seats_alter d f id :
  (forall rec, seat (f rec) = seat rec) -> seats (set_accounts (alter f id (accounts d)) d) = seats d.
Proof using Type.
  intros Hf. apply map_eq. intros j. rewrite !seats_lookup. simpl. destruct (decide (id = j)) as [<-|].
  - rewrite lookup_alter_eq. destruct (accounts d !! id); simpl; [by rewrite Hf|done].
  - by rewrite lookup_alter_ne.
Qed.

Lemma seats_same_seat d id u rec rec' :
  accounts d !! id = Some rec -> seat rec' = seat rec -> seats (with_account d id u rec') = seats d.
Proof using Type. intros Hr E. rewrite seats_with, E. apply insert_id. by rewrite seats_lookup, Hr. Qed.

Lemma login_seats now a email hash ip newID token ioc io :
  auth_inv now a -> hash <> "" ->
  seats (dir (login_finish a email hash ip newID token now ioc io).1) = seats (dir a).
Proof using Type.
  intros Ha Hh. pose proof (ai_core _ _ _ _ _ Ha) as Hc. pose proof (ci_dir _ _ _ _ _ Hc) as Hd.
  unfold login_finish. case_decide as Hp; [done|].
  destruct (credential_user (dir a) email Hd) as [u Hf]; [congruence|]. rewrite Hf.
  destruct (resolveLocked (dir a) u) as [e|v]; [done|].
  apply (persisted_dir (dir a) _ io (fun _ e => inl e) (fun _ => inr (v, token)) (unchanged (dir a))); [done|].
  apply (seats_alter (dir a)). done.
Qed.

Lemma seats_password d u hash now : seats (revokeCredentialsLocked u (setPasswordHashLocked d u hash now)) = seats d.
Proof using Type.
  unfold setPasswordHashLocked. destruct (isConfiguredAdminLocked d u).
  - apply (seats_alter (set_adminPasswordHash hash d)). done.
  - apply (seats_alter d). done.
Qed.

Lemma create_seats now a actor req id salt io :
  auth_inv now a -> users (dir a) !! id = None ->
  seats_changed (OpCreateUser actor req id salt io) a (CreateUser a actor req id salt now io).1.
Proof using Type.
  intros Ha Hf. pose proof (ai_core _ _ _ _ _ Ha) as Hc. pose proof (ci_dir _ _ _ _ _ Hc) as Hd. unfold CreateUser.
  destruct (negb (validateEmail _)); [by left|]. case_decide; [by left|]. set (role := if decide _ then _ else _).
  destruct (negb (validMemberRole role)); [by left|].
  assert (forall email name hash, seats_changed (OpCreateUser actor req id salt io) a
    (create_user a actor email name hash id role now io).1) as Hmk.
  { intros email name hash. unfold create_user. destruct (actorLocked _ _) as [e|[ws R]] eqn:Eact; [by left|].
    destruct (actor_holds _ Hd _ _ _ Eact) as (act & -> & Hws & Hh & Hcan & _). destruct (negb (RoleWithin role R)) eqn:Ew; [by left|].
    apply negb_false_iff in Ew. case_decide; [by left|]. case_decide; [by left|]. case_decide; [by left|].
    destruct (checkMemberQuotaLocked _ _ _); [by left|].
    match goal with |- context [MkUser id email ?n role ws now "" false] => set (user := MkUser id email n role ws now "" false) end.
    unfold seats_changed. apply (persisted_dir (dir a) _ io (fun _ e => inl e) (fun a => inr (memberViewLocked (dir a) user ws))
      (changed (OpCreateUser (Some act) req id salt io) (dir a))); [by left|]. right.
    change (seat_step (OpCreateUser (Some act) req id salt io) (dir a) (seats (with_account (dir a) id user
      (MkAccount hash SourceLocal false true {[ws := role]} now None)))). rewrite seats_with.
    apply (seat_join _ _ R ws role id ∅ false); [by exists (u_ID act)|done| |done].
    rewrite seats_lookup. destruct (accounts (dir a) !! id) eqn:Eacc; [|done].
    destruct (account_user _ Hd _ _ Eacc). congruence. }
  case_decide; [by apply Hmk|]. destruct (negb _); [by left|]. destruct (bcrypt_generate _ _); [by apply Hmk|by left].
Qed.

Lemma update_seats now a actor id update io :
  auth_inv now a -> seats_changed (OpUpdateMember actor id update io) a (UpdateMember a actor id update now io).1.
Proof using Type.
  intros Ha. pose proof (ai_core _ _ _ _ _ Ha) as Hc. pose proof (ci_dir _ _ _ _ _ Hc) as Hd. unfold UpdateMember.
  destruct actor as [act|]; [|by left]. destruct (actorLocked (dir a) _) as [e|[ws R]] eqn:Eact; [by left|].
  destruct (actor_holds _ Hd _ _ _ Eact) as (x & [= <-] & Hws & Hh & Hcan & _).
  destruct (targetLocked _ _ _ _) as [e|[[u rec] current]] eqn:Etgt; [by left|]. apply target_spec in Etgt as (Hu & Hr & Hm & Hw).
  destruct (update_name _ _ _ _ _ _) as [e|name]; [by left|]. destruct (update_role _ _ _ _ _ _) as [e|role] eqn:Erole; [by left|].
  destruct (update_disabled _ _ _ _ _ _) as [e|dis] eqn:Edis; [by left|]. set (revoke := _ || _).
  set (user := match name with Some _ => _ | None => _ end). unfold seats_changed.
  apply (persisted_dir (dir a) _ io (fun _ e => inl e) (fun a => inr (MkChange (memberViewLocked (dir a) user ws) revoke))
    (changed (OpUpdateMember (Some act) id update io) (dir a))); [by left|]. right. simpl.
  assert (seats (if revoke then revokeUserSessionsLocked id (with_account (dir a) id user (updated_account now ws role dis rec))
    else with_account (dir a) id user (updated_account now ws role dis rec)) =
    <[id := seat (updated_account now ws role dis rec)]> (seats (dir a))) as E
    by (destruct revoke; apply seats_with). unfold with_account in E. rewrite E. clear E.
  refine (seat_update _ _ R ws current id (Memberships rec) (Disabled rec) role dis _ Hw _ Hm _ _).
  - by exists (u_ID act).
  - by rewrite seats_lookup, Hr.
  - intros r ->. unfold update_role in Erole. destruct (mu_Role update) as [next|]; [|done]. case_decide; [done|].
    destruct (negb (validMemberRole next)); [done|]. destruct (negb (RoleWithin next R)) eqn:Ew; [done|].
    case_decide as Ho; [done|]. injection Erole as ->. apply negb_false_iff in Ew. split; [done|]. intros ->.
    apply owners_seat. intros E. by apply Ho.
  - intros -> w Hw'. unfold update_disabled in Edis. destruct (mu_Disabled update) as [b|]; [|done]. case_decide; [done|].
    destruct b; [|by destruct (accountScopeLocked _ _ _ _)]. destruct (accountWideLocked _ _ _ _ _) eqn:Ew; [done|].
    apply wide_spec in Ew as (_ & _ & _ & Hown). rewrite (user_id _ Hd _ _ Hu) in Hown. by apply owners_seat, Hown.
Qed.

Lemma remove_seats now a actor id io :
  auth_inv now a -> seats_changed (OpRemoveMember actor id io) a (RemoveMember a actor id now io).1.
Proof using Type.
  intros Ha. pose proof (ai_core _ _ _ _ _ Ha) as Hc. pose proof (ci_dir _ _ _ _ _ Hc) as Hd. unfold RemoveMember.
  destruct (actorLocked (dir a) _) as [e|[ws R]] eqn:Eact; [by left|].
  destruct (actor_holds _ Hd _ _ _ Eact) as (act & -> & Hws & Hh & Hcan & _).
  destruct (targetLocked _ _ _ _) as [e|[[u rec] role]] eqn:Etgt; [by left|]. apply target_spec in Etgt as (Hu & Hr & Hm & Hw).
  case_decide as Ho; [by left|]. destruct (_ && _); [by left|]. unfold seats_changed.
  apply (persisted_dir (dir a) _ io (fun _ e => inl e) (fun _ => inr (MkChange (memberViewLocked (dir a) u ws) true))
    (changed (OpRemoveMember (Some act) id io) (dir a))); [by left|]. right. simpl.
  assert (seats (revokeUserSessionsLocked id (remove_member_state (dir a) u rec id ws now)) =
    if decide (delete ws (Memberships rec) = ∅) then delete id (seats (dir a))
    else <[id := (delete ws (Memberships rec), Disabled rec)]> (seats (dir a))) as ->.
  { unfold remove_member_state. destruct (sortedWorkspaces _) as [|w l] eqn:Es.
    - apply sortedWorkspaces_nil in Es. rewrite decide_True by done. unfold seats. simpl. rewrite (user_id _ Hd _ _ Hu). apply fmap_delete.
    - destruct (decide (delete ws (Memberships rec) = ∅)) as [E|_]; [by rewrite E in Es|]. apply (fmap_insert seat). }
  apply (seat_leave _ _ R ws role id (Memberships rec) (Disabled rec)); [by exists (u_ID act)|done| |done|].
  - by rewrite seats_lookup, Hr.
  - intros ->. apply owners_seat. intros E. by apply Ho.
Qed.

Lemma delete_seats now a actor id io :
  auth_inv now a -> seats_changed (OpDeleteUser actor id io) a (DeleteUser a actor id io).1.
Proof using Type.
  intros Ha. pose proof (ai_core _ _ _ _ _ Ha) as Hc. pose proof (ci_dir _ _ _ _ _ Hc) as Hd. unfold DeleteUser.
  destruct actor as [act|]; [|by left]. destruct (actorLocked (dir a) _) as [e|[ws R]] eqn:Eact; [by left|].
  destruct (actor_holds _ Hd _ _ _ Eact) as (x & [= <-] & Hws & Hh & Hcan & _).
  destruct (targetLocked _ _ _ _) as [e|[[u rec] role]] eqn:Etgt; [by left|]. apply target_spec in Etgt as (Hu & Hr & Hm & Hw).
  destruct (accountWideLocked _ _ _ _ _) eqn:Ew; [by left|]. apply wide_spec in Ew as (_ & _ & Hsc & Hown).
  rewrite (user_id _ Hd _ _ Hu) in Hown. unfold seats_changed.
  apply (persisted_dir (dir a) _ io (fun _ e => inl e) (fun _ => inr (MkChange (memberViewLocked (dir a) u ws) true))
    (changed (OpDeleteUser (Some act) id io) (dir a))); [by left|]. right. simpl.
  assert (seats (revokeUserSessionsLocked id (deleteAccountLocked u (dir a))) = delete id (seats (dir a))) as ->.
  { unfold seats. simpl. rewrite (user_id _ Hd _ _ Hu). apply fmap_delete. }
  apply (seat_delete _ _ R ws role id (Memberships rec) (Disabled rec) act io); [by exists (u_ID act)|done| |done|done| |].
  - by rewrite seats_lookup, Hr.
  - by apply scope_spec.
  - intros w Hw'. by apply owners_seat, Hown.
Qed.

Lemma accept_seats now a hash name existing eh pw id io :
  auth_inv now a -> users (dir a) !! id = None ->
  seats_changed (OpAccept hash name existing eh pw id io) a (accept_finish a hash name existing eh pw id now io).1.
Proof using Type.
  intros Ha Hf. pose proof (ai_core _ _ _ _ _ Ha) as Hc. pose proof (ci_dir _ _ _ _ _ Hc) as Hd. unfold accept_finish.
  destruct (findInvitationLocked _ _) as [inv|] eqn:Einv; [|by left].
  destruct (negb _) eqn:Ev; [by left|]. apply negb_false_iff, andb_true_iff in Ev as [_ Ev].
  destruct (inviter_holds _ Hd _ Ev) as (R & Hh & Hcan & Hw).
  assert (manages (OpAccept hash name existing eh pw id io) (dir a) (inv_Workspace inv) R) as Hman.
  { exists (inv_InvitedByID inv). simpl. by rewrite Einv. }
  assert (forall d u, seats d = seats (dir a) \/ seat_step (OpAccept hash name existing eh pw id io) (dir a) (seats d) ->
    seats_changed (OpAccept hash name existing eh pw id io) a
    (match persistOrRollbackLocked (dir a) (set_dir (set_invitations (delete (inv_ID inv) (invitations d)) d) a) io with
      | (a, Some err) => (a, inl err)
      | (a, None) => (a, inr (memberViewLocked (dir a) u (inv_Workspace inv))) end).1) as Hfin.
  { intros d u Hch. unfold seats_changed. apply (persisted_dir (dir a) _ io (fun _ e => inl e)
      (fun a => inr (memberViewLocked (dir a) u (inv_Workspace inv)))
      (changed (OpAccept hash name existing eh pw id io) (dir a))); [by left|done]. }
  destruct (findByEmailLocked _ _) as [u|] eqn:Ef.
  - destruct (_ && _); [|by left]. destruct (accounts (dir a) !! u_ID u) as [rec|] eqn:Hr; [|by left].
    destruct (Disabled rec) eqn:Edis; [by left|]. apply Hfin.
    assert (seats (set_accounts (<[u_ID u := join_workspace now inv rec]> (accounts (dir a))) (dir a)) =
      <[u_ID u := seat (join_workspace now inv rec)]> (seats (dir a))) as -> by apply (fmap_insert seat).
    unfold seat, join_workspace. simpl. destruct (Memberships rec !! inv_Workspace inv) eqn:Em.
    + left. apply insert_id. by rewrite seats_lookup, Hr.
    + right. apply (seat_join _ _ R); [done|done| |done]. by rewrite seats_lookup, Hr.
  - destruct existing; [by left|]. case_decide; [by left|]. apply Hfin. right.
    match goal with |- context [set_users (<[id := ?u]> _) _] => set (user := u) end.
    assert (seats (set_accounts (<[id := MkAccount pw SourceLocal false false {[inv_Workspace inv := inv_Role inv]} now None]>
      (accounts (dir a))) (set_users (<[id := user]> (users (dir a))) (dir a))) =
      <[id := (<[inv_Workspace inv := inv_Role inv]> ∅, false)]> (seats (dir a))) as -> by apply (fmap_insert seat).
    apply (seat_join _ _ R); [done|done| |done]. rewrite seats_lookup.
    destruct (accounts (dir a) !! id) eqn:Eacc; [|done]. destruct (account_user _ Hd _ _ Eacc). congruence.
Qed.

Lemma provision_seats now a email name src id io :
  auth_inv now a -> users (dir a) !! id = None ->
  seats_changed (OpProvision email name src id io) a (ProvisionExternalUser a email name src id now io).1.
Proof using Type.
  intros Ha Hf. pose proof (ai_core _ _ _ _ _ Ha) as Hc. pose proof (ci_dir _ _ _ _ _ Hc) as Hd. unfold ProvisionExternalUser.
  destruct (negb (validateEmail _)); [by left|].
  assert (forall d u, seats d = seats (dir a) \/ seat_step (OpProvision email name src id io) (dir a) (seats d) ->
    seats_changed (OpProvision email name src id io) a (match persistOrRollbackLocked (dir a) (set_dir d a) io with
      | (a, Some err) => (a, inl err)
      | (a, None) => (a, resolveLocked (dir a) u) end).1) as Hfin.
  { intros d u Hch. unfold seats_changed. apply (persisted_dir (dir a) _ io (fun _ e => inl e)
      (fun a => resolveLocked (dir a) u) (changed (OpProvision email name src id io) (dir a))); [by left|done]. }
  destruct (findByEmailLocked _ _) as [u|] eqn:Ef.
  - destruct (accounts (dir a) !! u_ID u) as [rec|] eqn:Hr; [|by left]. case_decide; [by left|].
    destruct (Disabled rec) eqn:Edis; [by left|]. destruct (find_user _ Hd _ _ Ef) as [Hu _].
    match goal with |- context [<[u_ID ?x := touch_login now rec]> _] => set (user := x) end.
    assert (u_ID user = u_ID u) as Eid by (unfold user; destruct (decide _); auto). rewrite Eid. clearbody user.
    apply Hfin. left. apply (seats_same_seat (dir a) (u_ID u) user rec (touch_login now rec)); done.
  - case_decide; [by left|]. destruct (checkMemberQuotaLocked _ _ _); [by left|]. apply Hfin. right.
    match goal with |- context [set_users (<[id := ?u]> _) _] => set (user := u) end.
    assert (seats (set_accounts (<[id := MkAccount "" src false false {["default" := RoleViewer]} now (Some now)]>
      (accounts (dir a))) (set_users (<[id := user]> (users (dir a))) (dir a))) =
      <[id := ({["default" := RoleViewer]}, false)]> (seats (dir a))) as -> by apply (fmap_insert seat).
    eapply seat_provision; [done|]. rewrite seats_lookup.
    destruct (accounts (dir a) !! id) eqn:Eacc; [|done]. destruct (account_user _ Hd _ _ Eacc). congruence.
Qed.

(** A restart finds the accounts of the session file, which are those in
    memory; before the first write it builds a new administrator. *)
Lemma restart_seats now a salt id a' :
  auth_inv now a -> file a <> None -> perform (OpRestart salt id) now a = Some a' -> seats (dir a') = seats (dir a).
Proof using Hemail Hpassword.
  intros Ha Hf. simpl. destruct (NewLocalAuthenticator _ _ _ _ _ _ _) as [e|x] eqn:En; [done|]. intros [= <-].
  pose proof (ai_file _ _ _ _ _ Ha) as Hfi. unfold file_inv in Hfi. destruct (file a) as [f|]; [|done].
  destruct Hfi as (Hp & b & -> & Hb & Hag).
  destruct (start_found cfgPath cfgEmail cfgPassword Hemail Hpassword _ _ _ _ _ En Hp Hb) as (_ & -> & _).
  unfold seats. simpl. by rewrite (ag_accounts _ _ _ Hag).
Qed.

Lemma perform_seats op now a a' :
  auth_inv now a -> fresh op (dir a) -> perform op now a = Some a' ->
  seats_changed op a a' \/ (exists salt id, op = OpRestart salt id /\ file a = None).
Proof using Hemail Hpassword.
  intros Ha Hf Hp. set (P := fun d' => seats d' = seats (dir a)).
  destruct op; try (injection Hp as <-; left); simpl in Hf.
  - by left.
  - left. unfold recordFailedAttemptFrom. change (P (dir (if knownEmailLocked (dir a) email then
      (saveSessionsLocked (set_att (book_failure (att a) email clientIP now) a) io).1 else a))).
    destruct (knownEmailLocked _ _); walk P; done.
  - left. apply (login_seats now); tauto.
  - left. fold (P (dir (Authenticate a token now io).1)). unfold Authenticate. walk P; done.
  - left. fold (P (dir (Logout a token io).1)). unfold Logout. walk P; done.
  - left. fold (P (dir (SwitchWorkspace a token workspace now io).1)). unfold SwitchWorkspace. walk P; done.
  - left. fold (P (dir (ChangePassword a token currentPassword newPassword salt now io).1)). unfold ChangePassword.
    walk P; done || apply (seats_password (dir a)).
  - left. fold (P (dir (reset_request a email token now io).1)). unfold reset_request. walk P; done.
  - left. fold (P (dir (ConfirmPasswordReset a token newPassword salt now io).1)). unfold ConfirmPasswordReset.
    walk P; done || apply (seats_password (dir a)).
  - apply (create_seats now); tauto.
  - by apply (update_seats now).
  - by apply (remove_seats now).
  - by apply (delete_seats now).
  - left. fold (P (dir (CreateInvitation a actor email role id token now io).1)). unfold CreateInvitation. walk P; done.
  - left. fold (P (dir (RevokeInvitation a actor id io).1)). unfold RevokeInvitation. walk P; done.
  - apply (accept_seats now); tauto.
  - apply (provision_seats now); tauto.
  - left. fold (P (dir (cleanup_tick a now io))). unfold cleanup_tick. walk P; done.
  - destruct (file a) as [f|] eqn:Ef; [|right; eauto]. left. left. eapply restart_seats; [exact Ha|by rewrite Ef|exact Hp].
Qed.

(** ** The theorems *)

(** A server that was started without a session file and has run since. *)
Definition reached (now : Z) (a : LocalAuthenticator) : Prop :=
  exists salt id now0 a0 ops, id <> "" /\
    NewLocalAuthenticator cfgPath cfgEmail cfgPassword salt id None now0 = inr a0 /\ run now0 a0 ops now a.

Lemma reached_inv now a : reached now a -> auth_inv now a.
Proof using Hemail Hpassword.
  intros (salt & id & now0 & a0 & ops & Hid & Hs & Hr). eapply run_inv; [done|done|done|].
  by eapply start_fresh.
Qed.

(** C29: in every run, with failing writes and restarts, the directory is well
    formed, and the index that sign-ins read without the lock has exactly the
    credentials of the accounts. *)
Theorem directory_well_formed now a :
  reached now a -> dir_ok (dir a) /\ (forall email, lookupCredential a email = passwordHashForLocked (dir a) email).
Proof using Hemail Hpassword.
  intros Hr. pose proof (reached_inv _ _ Hr) as [Hc Hi _]. split; [apply Hc|]. intros email.
  unfold lookupCredential. rewrite Hi. apply credentials_exact; apply Hc.
Qed.

(** C30: no sequence of operations makes a table of the authenticator exceed
    its limit. *)
Theorem tables_bounded now a :
  reached now a ->
  (size (tokens (dir a)) <= maxSessions)%nat /\
  (forall id, (size (filter (fun kv => UserID kv.2 = id) (tokens (dir a))) <= maxSessionsPerUser)%nat) /\
  (size (resetTokens (dir a)) <= maxResetTokens)%nat /\ (size (users (dir a)) <= maxAccounts)%nat /\
  (size (accounts (dir a)) <= maxAccounts)%nat /\ (size (invitations (dir a)) <= maxPendingInvitations)%nat /\
  (size (loginAttempts (att a)) <= maxTrackedLoginSources)%nat /\
  (size (knownLoginIPs (att a)) <= maxKnownLoginIPs)%nat.
Proof using Hemail Hpassword.
  intros Hr. pose proof (ai_core _ _ _ _ _ (reached_inv _ _ Hr)) as Hc.
  assert (size (accounts (dir a)) = size (users (dir a))) as Es.
  { rewrite <- !(size_dom (D := gset string)). f_equal. apply set_eq. intros id. rewrite !elem_of_dom.
    symmetry. apply (ok_dom _ (ci_dir _ _ _ _ _ Hc)). }
  rewrite Es. destruct (ci_lim _ _ _ _ _ Hc), (ci_att _ _ _ _ _ Hc). auto 10.
Qed.

(** C25: once something was written, a restart at any later time rebuilds the
    directory that was in memory, without the sessions, reset tokens and
    invitations that have expired: what a failed write took back is not on
    file, and what succeeded is. *)
Theorem restart_restores now a now' salt id a' :
  reached now a -> file a <> None -> now <= now' ->
  NewLocalAuthenticator cfgPath cfgEmail cfgPassword salt id (file a) now' = inr a' ->
  dir a' = revived now' (dir a) /\ credIndex a' = credIndex a.
Proof using Hemail Hpassword.
  intros Hr Hf Hle Hs. pose proof (auth_inv_later _ _ _ _ _ _ Hle (reached_inv _ _ Hr)) as Ha.
  pose proof (ai_file _ _ _ _ _ Ha) as Hfi. unfold file_inv in Hfi. destruct (file a) as [f|]; [|done].
  destruct Hfi as (Hp & b & -> & Hb & Hag).
  destruct (start_found cfgPath cfgEmail cfgPassword Hemail Hpassword _ _ _ _ _ Hs Hp Hb) as (Ha' & Ed & _).
  pose proof (ci_email _ _ _ _ _ Hb) as Eb. pose proof (ci_email _ _ _ _ _ (ai_core _ _ _ _ _ Ha)) as Ea.
  destruct Hag as [Eu Eac Eh Et Er Ei].
  assert (revived now' (dir b) = revived now' (dir a)) as Erev.
  { unfold revived. rewrite Eu, Eac, Eh, Et, Er, Ei, Eb, Ea. done. }
  rewrite Ed, Erev. split; [done|]. rewrite (ai_cred _ _ _ _ _ Ha'), (ai_cred _ _ _ _ _ Ha), Ed, Erev. done.
Qed.

(** ** Owners *)

Definition owned (d : directory) (ws : string) : Prop :=
  exists id rec, accounts d !! id = Some rec /\ Disabled rec = false /\ Memberships rec !! ws = Some RoleOwner.

Lemma owned_seats d ws : owned d ws <-> exists id m, seats d !! id = Some (m, false) /\ m !! ws = Some RoleOwner.
Proof using Type.
  split.
  - intros (id & rec & Hr & Hdis & Hm). exists id, (Memberships rec). rewrite seats_lookup, Hr. simpl. unfold seat. by rewrite Hdis.
  - intros (id & m & Hs & Hm). rewrite seats_lookup in Hs. destruct (accounts d !! id) as [rec|] eqn:Er; [|done].
    injection Hs as <- Hdis. by exists id, rec.
Qed.

Lemma seat_step_owned op d s ws :
  seat_step op d s -> owned d ws -> exists id m, s !! id = Some (m, false) /\ m !! ws = Some RoleOwner.
Proof using Type.
  intros Hs Ho%owned_seats. destruct Ho as (j & mj & Hj & Hmj).
  assert (forall id x, other_owner d id ws -> exists j m, <[id := x]> (seats d) !! j = Some (m, false) /\ m !! ws = Some RoleOwner) as Hins.
  { intros id x (k & m & Hk & Hs' & Hm). exists k, m. by rewrite lookup_insert_ne. }
  assert (forall id, other_owner d id ws -> exists j m, delete id (seats d) !! j = Some (m, false) /\ m !! ws = Some RoleOwner) as Hdel.
  { intros id (k & m & Hk & Hs' & Hm). exists k, m. by rewrite lookup_delete_ne. }
  assert (forall id x, j <> id -> exists j m, <[id := x]> (seats d) !! j = Some (m, false) /\ m !! ws = Some RoleOwner) as Hne.
  { intros id x Hji. exists j, mj. by rewrite lookup_insert_ne. }
  destruct Hs as [R w role id m dis _ _ Hsd Hw|R w cur id m dis role dis' _ _ Hsd Hw Hrole Hdis
    |R w cur id m dis _ _ Hsd Hw Hcur|R w cur id m dis actor io _ _ Hsd Hw _ _ Hown|id email name src io _ Hsd].
  - destruct (decide (j = id)) as [->|]; [|by apply Hne]. rewrite Hj in Hsd. injection Hsd as -> <-.
    exists id, (<[w := role]> m). rewrite lookup_insert_eq. split; [done|]. rewrite lookup_insert_ne; [done|congruence].
  - destruct (decide (j = id)) as [->|]; [|by apply Hne]. rewrite Hj in Hsd. injection Hsd as <- <-.
    destruct (decide (dis' = Some true)) as [->|Hnd]; [by apply Hins, Hdis|].
    assert (default false dis' = false) as -> by (destruct dis' as [[]|]; done). destruct role as [r|].
    + destruct (decide (w = ws)) as [->|]; [apply Hins, (Hrole r); [done|congruence]|]. eexists id, _.
      rewrite lookup_insert_eq. split; [done|]. by rewrite lookup_insert_ne.
    + exists id, mj. by rewrite lookup_insert_eq.
  - destruct (decide (j = id)) as [->|].
    + rewrite Hj in Hsd. injection Hsd as <- <-. destruct (decide (w = ws)) as [->|Hwn].
      * assert (other_owner d id ws) as Hoo by (apply Hcur; congruence). case_decide; [by apply Hdel|by apply Hins].
      * assert (delete w mj !! ws = Some RoleOwner) as Hd by (by rewrite lookup_delete_ne). rewrite decide_False.
        -- exists id, (delete w mj). by rewrite lookup_insert_eq.
        -- intros E. by rewrite E, lookup_empty in Hd.
    + case_decide; [|by apply Hne]. exists j, mj. by rewrite lookup_delete_ne.
  - destruct (decide (j = id)) as [->|]; [|exists j, mj; by rewrite lookup_delete_ne]. rewrite Hj in Hsd. injection Hsd as <- <-.
    by apply Hdel, Hown.
  - apply Hne. intros ->. congruence.
Qed.

Lemma first_dir_owned id h t ws : owned (first_dir cfgEmail id h t) ws -> ws = "default".
Proof using Hemail.
  intros (j & rec & Hr & _ & Hm). unfold first_dir, migrateDirectoryLocked in Hr. simpl in Hr.
  rewrite map_filter_empty, (left_id_L ∅ (∪)), map_fmap_singleton in Hr. apply lookup_singleton_Some in Hr as [_ <-].
  unfold migrated_account, isConfiguredAdminLocked in Hm. simpl in Hm.
  assert (sameEmail cfgEmail cfgEmail = true) as E by (by apply sameEmail_spec). rewrite E in Hm. simpl in Hm.
  by apply lookup_singleton_Some in Hm as [<- _].
Qed.

Lemma first_dir_default id h t : owned (first_dir cfgEmail id h t) "default".
Proof using Hemail.
  exists id. eexists. unfold first_dir, migrateDirectoryLocked. simpl.
  rewrite map_filter_empty, (left_id_L ∅ (∪)), map_fmap_singleton, lookup_singleton_eq. split; [done|]. split; [done|].
  unfold migrated_account, isConfiguredAdminLocked. simpl.
  assert (sameEmail cfgEmail cfgEmail = true) as -> by (by apply sameEmail_spec). done.
Qed.

Lemma perform_owned op now a a' ws :
  cfgPath <> "" -> auth_inv now a -> fresh op (dir a) -> perform op now a = Some a' -> owned (dir a) ws -> owned (dir a') ws.
Proof using Hemail Hpassword.
  intros Hpath Ha Hf Hp Ho. destruct (perform_seats op now a a' Ha Hf Hp) as [[E|Hs]|(salt & id & -> & Hn)].
  - apply owned_seats. rewrite E. by apply owned_seats.
  - apply owned_seats. by eapply seat_step_owned.
  - pose proof (ai_file _ _ _ _ _ Ha) as Hfi. unfold file_inv in Hfi. rewrite Hn in Hfi.
    destruct (Hfi Hpath) as (i & h & t & _ & E). rewrite E in Ho. apply first_dir_owned in Ho as ->.
    simpl in Hp, Hf. rewrite Hn in Hp. destruct (NewLocalAuthenticator _ _ _ _ _ _ _) as [e|x] eqn:En; [done|]. injection Hp as ->.
    destruct (start_fresh cfgPath cfgEmail cfgPassword Hemail Hpassword _ _ _ _ En Hf) as (_ & _ & h' & ->).
    apply first_dir_default.
Qed.

(** C27: a workspace that has an enabled owner has one ever after. *)
Theorem workspaces_keep_owner now a ops now' a' ws :
  cfgPath <> "" -> reached now a -> run now a ops now' a' -> owned (dir a) ws -> owned (dir a') ws.
Proof using Hemail Hpassword.
  intros Hpath Hr Hrun. apply reached_inv in Hr as Ha. clear Hr. revert Ha.
  induction Hrun as [|now a now1 op a1 ops now2 a2 Hle Hf Hp _ IH]; [done|]. intros Ha Ho.
  assert (auth_inv now1 a) as Ha' by (by eapply auth_inv_later).
  apply IH; [by eapply perform_inv|by eapply perform_owned].
Qed.

(** ** Authority *)

Definition membership (d : directory) (id ws : string) : option MemberRole :=
  accounts d !! id ≫= fun rec => Memberships rec !! ws.

Lemma membership_seats d id ws : membership d id ws = seats d !! id ≫= fun s => s.1 !! ws.
Proof using Type. unfold membership. rewrite seats_lookup. by destruct (accounts d !! id). Qed.

Definition within (role : option MemberRole) (R : MemberRole) : Prop := forall r, role = Some r -> RoleWithin r R = true.

Lemma seat_step_authority op d s id ws :
  seat_step op d s -> membership d id ws <> (s !! id ≫= fun x => x.1 !! ws) ->
  (exists R, manages op d ws R /\ within (membership d id ws) R /\ within (s !! id ≫= fun x => x.1 !! ws) R) \/
  (exists actor io, op = OpDeleteUser (Some actor) id io /\ actor_is_admin d actor = true) \/
  (exists email name src io, op = OpProvision email name src id io /\ ws = "default" /\
     membership d id ws = None /\ s !! id ≫= (fun x => x.1 !! ws) = Some RoleViewer).
Proof using Type.
  rewrite membership_seats. intros Hs Hch.
  destruct Hs as [R w role j m dis Hman Hrole Hsd Hw|R w cur j m dis role dis' Hman Hcur Hsd Hw Hrole Hdis
    |R w cur j m dis Hman Hcur Hsd Hw Hown|R w cur j m dis actor io Hman Hcur Hsd Hw -> Hsc Hown|j email name src io -> Hsd].
  - destruct (decide (j = id)) as [->|]; [|by rewrite lookup_insert_ne in Hch]. rewrite lookup_insert_eq in *. simpl in *.
    assert ((seats d !! id ≫= fun s => s.1 !! ws) = m !! ws) as E.
    { destruct (seats d !! id) as [x|]; simpl in *; [by rewrite Hsd|]. by injection Hsd as <- _. }
    rewrite E in *. destruct (decide (w = ws)) as [->|]; [|by rewrite lookup_insert_ne in Hch]. left. exists R.
    split; [done|]. rewrite Hw, lookup_insert_eq. split; [done|]. by intros r [= <-].
  - destruct (decide (j = id)) as [->|]; [|by rewrite lookup_insert_ne in Hch]. rewrite lookup_insert_eq, Hsd in *. simpl in *.
    destruct role as [r|]; [|done]. destruct (decide (w = ws)) as [->|]; [|by rewrite lookup_insert_ne in Hch].
    left. exists R. split; [done|]. rewrite Hw, lookup_insert_eq. split; [by intros ? [= <-]|]. intros ? [= <-]. by apply Hrole.
  - destruct (decide (j = id)) as [->|]; cycle 1.
    { exfalso. apply Hch. case_decide; [by rewrite lookup_delete_ne|by rewrite lookup_insert_ne]. }
    assert (((if decide (delete w m = ∅) then delete id (seats d) else <[id := (delete w m, dis)]> (seats d)) !! id
      ≫= fun x => x.1 !! ws) = delete w m !! ws) as E.
    { case_decide as Ed; [by rewrite lookup_delete_eq, Ed, lookup_empty|by rewrite lookup_insert_eq]. }
    rewrite E, Hsd in *. simpl in *. destruct (decide (w = ws)) as [->|]; [|by rewrite lookup_delete_ne in Hch].
    left. exists R. split; [done|]. rewrite Hw, lookup_delete_eq. split; [by intros ? [= <-]|done].
  - destruct (decide (j = id)) as [->|]; [|by rewrite lookup_delete_ne in Hch]. rewrite lookup_delete_eq, Hsd in *. simpl in *.
    destruct Hsc as [Hadm|Hall]; [right; left; eauto|]. destruct (m !! ws) as [r|] eqn:Em; [|done].
    apply Hall in Em as E. subst w. left. exists R. split; [done|]. split; [|done]. intros ? [= <-]. congruence.
  - destruct (decide (j = id)) as [->|]; [|by rewrite lookup_insert_ne in Hch]. rewrite lookup_insert_eq, Hsd in *. simpl in *.
    right. right. exists email, name, src, io. split; [done|]. destruct (decide ("default" = ws)) as [<-|].
    + by rewrite lookup_singleton_eq.
    + by rewrite lookup_singleton_ne in Hch.
Qed.

(** C26: a membership changes only by an account that manages members of that
    workspace and holds at least the role it takes away and the role it gives;
    for an accepted invitation that is the inviter at that moment. The
    exceptions: the configured administrator deletes an account of several
    workspaces, and an identity provider's user becomes a viewer of the default
    workspace at the first sign-in. *)
Theorem roles_within_authority now a now' op a' id ws :
  reached now a -> now <= now' -> fresh op (dir a) -> perform op now' a = Some a' -> file a <> None ->
  membership (dir a) id ws <> membership (dir a') id ws ->
  (exists R, manages op (dir a) ws R /\ within (membership (dir a) id ws) R /\ within (membership (dir a') id ws) R) \/
  (exists actor io, op = OpDeleteUser (Some actor) id io /\ actor_is_admin (dir a) actor = true) \/
  (exists email name src io, op = OpProvision email name src id io /\ ws = "default" /\
     membership (dir a) id ws = None /\ membership (dir a') id ws = Some RoleViewer).
Proof using Hemail Hpassword.
  intros Hr Hle Hf Hp Hfile Hch. pose proof (auth_inv_later _ _ _ _ _ _ Hle (reached_inv _ _ Hr)) as Ha.
  destruct (perform_seats op now' a a' Ha Hf Hp) as [[E|Hs]|(salt & i & _ & Hn)]; [| |done].
  - exfalso. apply Hch. by rewrite !membership_seats, E.
  - rewrite (membership_seats (dir a')) in *. by apply seat_step_authority.
Qed.

(** ** Invitations *)

Lemma persist_kept before a io a' : persistOrRollbackLocked before a io = (a', None) -> dir a' = dir a.
Proof using Type.
  unfold persistOrRollbackLocked, saveSessionsLocked. case_decide; [by intros [= <-]|].
  destruct io; simpl; [by intros [= <-]|done|done].
Qed.

Notation no_ticket h d := (map_Forall (fun _ inv => inv_TokenHash inv <> h) (invitations d)).

Lemma accept_spent now a hash name existing eh pw id io a' m :
  auth_inv now a -> accept_finish a hash name existing eh pw id now io = (a', inr m) -> no_ticket hash (dir a').
Proof using Type.
  intros Ha. pose proof (ci_dir _ _ _ _ _ (ai_core _ _ _ _ _ Ha)) as Hd. unfold accept_finish.
  destruct (findInvitationLocked _ _) as [inv|] eqn:Einv; [|done]. apply find_invitation in Einv as [Hh [i Hi]].
  assert (map_Forall (fun _ x => inv_TokenHash x <> hash) (delete (inv_ID inv) (invitations (dir a)))) as Hsp.
  { intros j x [Hj Hx]%lookup_delete_Some Hxh. apply Hj. destruct (ok_invites _ Hd _ _ Hi) as [-> _].
    eapply (ok_tickets _ Hd); [exact Hi|exact Hx|congruence]. }
  destruct (negb _); [done|].
  assert (forall d u, invitations d = invitations (dir a) -> match persistOrRollbackLocked (dir a)
      (set_dir (set_invitations (delete (inv_ID inv) (invitations d)) d) a) io with
      | (a, Some err) => (a, inl err)
      | (a, None) => (a, inr (memberViewLocked (dir a) u (inv_Workspace inv))) end = (a', inr m) -> no_ticket hash (dir a')) as Hfin.
  { intros d u Ei. destruct (persistOrRollbackLocked _ _ _) as [x [e|]] eqn:Ep; [done|]. intros [= <- _].
    rewrite (persist_kept _ _ _ _ Ep). simpl. by rewrite Ei. }
  destruct (findByEmailLocked _ _) as [u|].
  - destruct (_ && _); [|done]. destruct (accounts (dir a) !! u_ID u) as [rec|]; [|done]. destruct (Disabled rec); [done|].
    by apply Hfin.
  - destruct existing; [done|]. case_decide; [done|]. by apply Hfin.
Qed.

(** Only [CreateInvitation] adds an invitation. *)
Lemma perform_tickets op now a a' h :
  auth_inv now a -> fresh op (dir a) -> perform op now a = Some a' ->
  (forall actor email role id token io, op = OpInvite actor email role id token io -> hashInviteToken token <> h) ->
  no_ticket h (dir a) -> no_ticket h (dir a').
Proof using Hemail Hpassword.
  intros Ha Hf Hp Hinv Hno. pose proof (ci_dir _ _ _ _ _ (ai_core _ _ _ _ _ Ha)) as Hd.
  set (P := fun d : directory => no_ticket h d).
  change (P (dir a')). change (P (dir a)) in Hno.
  assert (forall i, P (set_invitations (delete i (invitations (dir a))) (dir a))) as Hdel
    by (intros i; by apply map_Forall_delete).
  destruct op; try (injection Hp as <-); simpl in Hf.
  - done.
  - unfold recordFailedAttemptFrom. destruct (knownEmailLocked _ _); walk P; done.
  - unfold login_finish. destruct (decide (passwordHashForLocked (dir a) email <> expectedHash)) as [|Hpw]; [done|].
    apply dec_stable in Hpw. destruct (credential_user (dir a) email Hd) as [u Hu]; [rewrite Hpw; tauto|].
    rewrite Hu. walk P; done.
  - unfold Authenticate. walk P; done.
  - unfold Logout. walk P; done.
  - unfold SwitchWorkspace. walk P; done.
  - unfold ChangePassword, setPasswordHashLocked. walk P; done || by destruct (isConfiguredAdminLocked _ _).
  - unfold reset_request. walk P; done.
  - unfold ConfirmPasswordReset, setPasswordHashLocked. walk P; done || by destruct (isConfiguredAdminLocked _ _).
  - unfold CreateUser, create_user. walk P; done.
  - unfold UpdateMember. walk P; try done. cbn [dir set_dir]. by case_match.
  - unfold RemoveMember. walk P; try done. unfold P. simpl.
    match goal with |- context [remove_member_state _ ?u ?r ?i ?w ?n] => destruct (remove_state_fields (dir a) u r i w n) as (_ & _ & ->) end.
    done.
  - unfold DeleteUser. walk P; done.
  - unfold CreateInvitation. walk P; try done. apply map_Forall_insert_2; [by eapply Hinv|].
    eapply map_Forall_sub; [|exact Hno]. etrans; apply map_filter_subseteq.
  - unfold RevokeInvitation. walk P; done || apply Hdel.
  - unfold accept_finish. walk P; done || apply Hdel.
  - unfold ProvisionExternalUser. walk P; done.
  - unfold cleanup_tick. walk P; done.
  - simpl in Hp. destruct (NewLocalAuthenticator _ _ _ _ _ _ _) as [e|x] eqn:En; [done|]. injection Hp as ->.
    pose proof (ai_file _ _ _ _ _ Ha) as Hfi. unfold file_inv in Hfi. destruct (file a) as [f|].
    + destruct Hfi as (Hpth & b & -> & Hb & Hag).
      destruct (start_found cfgPath cfgEmail cfgPassword Hemail Hpassword _ _ _ _ _ En Hpth Hb) as (_ & -> & _).
      unfold P. simpl. rewrite (ag_invites _ _ _ Hag). eapply map_Forall_sub; [apply map_filter_subseteq|done].
    + destruct (start_fresh cfgPath cfgEmail cfgPassword Hemail Hpassword _ _ _ _ En Hf) as (_ & _ & h' & ->). apply map_Forall_empty.
Qed.

(** An invitation is redeemed once: after it was accepted its token is
    refused in every later state, also after restarts, as long as no new
    invitation is issued with the same token hash. *)
Lemma invitation_redeemed_once now a hash name existing eh pw id io a1 m ops now2 a2 token name' password' id' salt' now3 io' :
  reached now a -> fresh (OpAccept hash name existing eh pw id io) (dir a) ->
  accept_finish a hash name existing eh pw id now io = (a1, inr m) -> run now a1 ops now2 a2 ->
  Forall (fun x => forall actor email role i t o, x.2 = OpInvite actor email role i t o -> hashInviteToken t <> hash) ops ->
  hashInviteToken token = hash ->
  AcceptInvitation a2 token name' password' id' salt' now3 io' = (a2, inl ErrInvalidInvitation).
Proof using Hemail Hpassword.
  intros Hr Hf Hacc Hrun Hops Htok. apply reached_inv in Hr as Ha.
  assert (auth_inv now a1) as Ha1.
  { eapply (perform_inv cfgPath cfgEmail cfgPassword Hemail Hpassword (OpAccept hash name existing eh pw id io)); [exact Ha|done|].
    simpl. by rewrite Hacc. }
  pose proof (accept_spent _ _ _ _ _ _ _ _ _ _ _ Ha Hacc) as Hno. clear Hr Hf Hacc Ha.
  assert (no_ticket hash (dir a2)) as Hno2.
  { revert Hops Ha1 Hno. induction Hrun as [|now a1 now1 op a3 ops now2 a2 Hle Hf Hp _ IH]; [done|].
    intros [Hop Hops]%Forall_cons Ha1 Hno. assert (auth_inv now1 a1) by (by eapply auth_inv_later).
    apply IH; [done|by eapply perform_inv|]. eapply perform_tickets; [done|done|exact Hp|exact Hop|done]. }
  unfold AcceptInvitation. case_decide; [done|]. unfold accept_lookup. rewrite Htok.
  by rewrite (proj2 (find_invitation_none (dir a2) hash) Hno2).
Qed.

(** ** Lockouts *)

(** [a'] has the failed attempts [t], and its session file is that of [a] or
    holds them, too. *)
Definition logged (t : attempts) (a a' : LocalAuthenticator) : Prop :=
  att a' = t /\ (file a' = file a \/ exists b, file a' = Some (encode_file (snapshot b)) /\ att b = t).

Lemma save_logged t a x io : att x = t -> file x = file a -> logged t a (saveSessionsLocked x io).1.
Proof using Type.
  intros Et Ef. unfold saveSessionsLocked. assert (logged t a x) as Hx by (split; auto).
  assert (logged t a (set_file (Some (encode_file (snapshot x))) x)) as Hw by (split; [done|right; by exists x]).
  case_decide; [exact Hx|]. destruct io; [exact Hw|exact Hx|exact Hw].
Qed.

Lemma persist_logged t a before x io : logged t a x -> logged t a (persistOrRollbackLocked before x io).1.
Proof using Type.
  intros Hx. unfold persistOrRollbackLocked, saveSessionsLocked. destruct Hx as [Et Hf].
  assert (logged t a (refreshCredIndexLocked (set_file (Some (encode_file (snapshot x))) x))) as Hw
    by (split; [done|right; by exists x]).
  case_decide; [by split|]. destruct io; [exact Hw|by split|exact Hw].
Qed.

Ltac walk_logged :=
  cbn [fst];
  lazymatch goal with
  | |- logged _ _ (saveSessionsLocked _ _).1 => apply save_logged
  | |- logged _ _ (persistOrRollbackLocked _ _ _).1 => apply persist_logged
  | |- logged ?t ?a (match persistOrRollbackLocked ?b ?x ?io with _ => _ end).1 =>
      let Hw := fresh in
      assert (logged t a (persistOrRollbackLocked b x io).1) as Hw;
      [apply persist_logged|destruct (persistOrRollbackLocked b x io) as [? [?|]]; exact Hw]
  | |- logged _ _ (match ?x with _ => _ end).1 => destruct x; walk_logged
  | |- _ => idtac
  end.

Ltac solve_logged := walk_logged; try (split; [reflexivity|left; reflexivity]); reflexivity.

Lemma perform_logged op now a a' :
  perform op now a = Some a' ->
  match op with
  | OpCheck email ip => logged (checkBruteForceProtectionFrom (att a) email ip now).1 a a'
  | OpFail email ip _ => logged (att a) a a' \/ logged (book_failure (att a) email ip now) a a'
  | OpLogin email _ ip _ _ _ _ => logged (att a) a a' \/ logged (clear_attempts (att a) email ip now) a a'
  | OpRestart _ _ => True
  | _ => logged (att a) a a'
  end.
Proof using Type.
  intros Hp. destruct op; try (injection Hp as <-).
  - split; [done|by left].
  - unfold recordFailedAttemptFrom. destruct (knownEmailLocked _ _); [right|left]; [by apply save_logged|split; [done|by left]].
  - unfold login_finish. case_decide; [left; split; [done|by left]|].
    destruct (match findByEmailLocked (dir a) email with Some _ => _ | None => _ end) as [u d].
    destruct (resolveLocked d u) as [e|v]; [left; split; [done|by left]|]. right.
    assert (logged (clear_attempts (att a) email clientIP now) a (clearFailedAttemptsFrom (set_dir d a) email clientIP now io_clear)) as Hcl
      by (by apply save_logged).
    walk_logged. destruct Hcl as [Ht Hf]. by split.
  - unfold Authenticate. solve_logged.
  - unfold Logout. solve_logged.
  - unfold SwitchWorkspace. solve_logged.
  - unfold ChangePassword. solve_logged.
  - unfold reset_request. solve_logged.
  - unfold ConfirmPasswordReset. solve_logged.
  - unfold CreateUser, create_user. solve_logged.
  - unfold UpdateMember. solve_logged.
  - unfold RemoveMember. solve_logged.
  - unfold DeleteUser. solve_logged.
  - unfold CreateInvitation. solve_logged.
  - unfold RevokeInvitation. solve_logged.
  - unfold accept_finish. solve_logged.
  - unfold ProvisionExternalUser. solve_logged.
  - unfold cleanup_tick. by apply save_logged.
  - done.
Qed.

(** The source [key] is locked until [T] or longer. *)
Definition locked (T : Z) (key : string) (m : gmap string loginAttempt) : Prop :=
  exists x, m !! key = Some x /\ T <= LockedUntil x /\ maxLoginAttempts <= Count x /\ T <= LastTry x + lockoutDuration.

Lemma locked_insert T key m k x : locked T key m -> k <> key -> locked T key (<[k := x]> m).
Proof using Type. intros (y & Hy & Hl) Hk. exists y. by rewrite lookup_insert_ne. Qed.

Lemma check_locked T key t email ip now :
  0 < T -> now < T -> locked T key (loginAttempts t) -> locked T key (loginAttempts (checkBruteForceProtectionFrom t email ip now).1).
Proof using Type.
  intros HT Hnow Hl. assert (forall t', locked T key (loginAttempts t') -> locked T key (loginAttempts
    (match accountFailures t' !! email with
     | Some acct => if decide (now < LockedUntil acct /\ knownLoginIPLocked t' email ip now = false)
                    then (t', Some (ErrRateLimited (LockedUntil acct - now))) else (t', None)
     | None => (t', None) end).1)) as Hacct by (intros t' Ht; destruct (_ !! _); [case_decide|]; done).
  unfold checkBruteForceProtectionFrom. destruct (loginAttempts t !! loginSourceKey email ip) as [x|] eqn:Ex; [|by apply Hacct].
  case_decide; [done|]. case_decide as Hexp; [|by apply Hacct]. apply Hacct. simpl. apply locked_insert; [done|]. intros E.
  destruct Hl as (y & Hy & HyT & _). rewrite <- E in Hy. simplify_eq. lia.
Qed.

Lemma book_locked T key t email ip now :
  now < T -> T <= now + lockoutDuration -> locked T key (loginAttempts t) -> locked T key (loginAttempts (book_failure t email ip now)).
Proof using Type.
  intros Hnow HT Hl. unfold book_failure. simpl. destruct (loginAttempts t !! loginSourceKey email ip) as [x|] eqn:Ex.
  - destruct (decide (loginSourceKey email ip = key)) as [<-|Hne]; [|by apply locked_insert].
    destruct Hl as (y & Hy & HyT & Hc & Hlast). simplify_eq. eexists. rewrite lookup_insert_eq. split; [done|].
    unfold book_source. simpl. rewrite (decide_False (P := now - LastTry y > attemptResetWindow))
      by (unfold attemptResetWindow, lockoutDuration, second in *; lia).
    unfold maxLoginAttempts in *. rewrite decide_True by lia. lia.
  - assert (loginSourceKey email ip <> key) as Hne by (intros E; destruct Hl as (y & Hy & _); congruence).
    set (m := if decide (maxTrackedLoginSources <= _)%nat then _ else _).
    assert (locked T key m) as Hm.
    { unfold m. case_decide; [|done]. destruct Hl as (y & Hy & HyT & Hrest). exists y. split; [|done].
      apply map_lookup_filter_Some. split; [done|]. simpl. lia. }
    clearbody m. case_decide; [by apply locked_insert|done].
Qed.

Definition guarded (T : Z) (key : string) (a : LocalAuthenticator) : Prop :=
  locked T key (loginAttempts (att a)) /\
  exists b, file a = Some (encode_file (snapshot b)) /\ locked T key (loginAttempts (att b)).

Lemma logged_guarded T key t a a' :
  logged t a a' -> guarded T key a -> locked T key (loginAttempts t) -> guarded T key a'.
Proof using Type.
  intros [Et Hf] [_ Hfa] Hl. split; [by rewrite Et|]. destruct Hf as [->|(b & -> & Eb)]; [done|].
  exists b. by rewrite Eb.
Qed.

(** Any operation but a successful sign-in from the source itself. *)
Definition spares (key : string) (op : operation) : Prop :=
  match op with OpLogin email _ ip _ _ _ _ => loginSourceKey email ip <> key | _ => True end.

Lemma perform_guarded T key op now a a' :
  cfgPath <> "" -> 0 < T -> now < T -> T <= now + lockoutDuration -> spares key op -> auth_inv now a ->
  perform op now a = Some a' -> guarded T key a -> guarded T key a'.
Proof using Hemail Hpassword.
  intros Hpath HT Hnow Hle Hsp Ha Hp Hg. pose proof (perform_logged op now a a' Hp) as Hl. pose proof Hg as [Hg1 Hg2].
  destruct op; try (by eapply logged_guarded).
  - eapply logged_guarded; [exact Hl|done|]. by apply check_locked.
  - destruct Hl as [Hl|Hl]; eapply logged_guarded; [exact Hl|done|done|exact Hl|done|]. by apply book_locked.
  - destruct Hl as [Hl|Hl]; eapply logged_guarded; [exact Hl|done|done|exact Hl|done|]. unfold clear_attempts.
    assert (locked T key (delete (loginSourceKey email clientIP) (loginAttempts (att a)))) as Hd.
    { destruct Hg1 as (y & Hy & Hrest). exists y. split; [|done]. by rewrite lookup_delete_ne. }
    by case_decide.
  - simpl in Hp. destruct (NewLocalAuthenticator _ _ _ _ _ _ _) as [e|x] eqn:En; [done|]. injection Hp as ->.
    destruct Hg2 as (b & Ef & Hb). pose proof (ai_file _ _ _ _ _ Ha) as Hfi. unfold file_inv in Hfi. rewrite Ef in Hfi, En.
    destruct Hfi as (_ & c & Ec & Hc & _).
    assert (snapshot b = snapshot c) as Esn.
    { apply (inj Some). rewrite <- !decode_encode. by rewrite Ec. }
    rewrite Ec in En. destruct (start_found cfgPath cfgEmail cfgPassword Hemail Hpassword _ _ _ _ _ En Hpath Hc) as (_ & _ & Eat & Ef').
    assert (loginAttempts (att b) = loginAttempts (att c)) as El.
    { rewrite <- (present_some (loginAttempts (att b))), <- (present_some (loginAttempts (att c))).
      f_equal. exact (f_equal sd_Lockouts Esn). }
    split; [|exists c; by rewrite <- El]. rewrite Eat. simpl. destruct Hb as (y & Hy & HyT & Hrest). exists y. split; [|done].
    apply map_lookup_filter_Some. rewrite <- El. split; [done|]. left. simpl. lia.
Qed.

Lemma run_guarded T key now a ops now' a' :
  cfgPath <> "" -> 0 < T -> now' < T -> T <= now + lockoutDuration -> Forall (fun x => spares key x.2) ops ->
  auth_inv now a -> run now a ops now' a' -> guarded T key a -> guarded T key a'.
Proof using Hemail Hpassword.
  intros Hpath HT Hlt Hle Hsp Ha Hrun. revert Hlt Hle Hsp Ha.
  induction Hrun as [|now a now1 op a1 ops now2 a2 Hn Hf Hp Hrun IH]; [done|]. intros Hlt Hle [Hop Hsp]%Forall_cons Ha Hg.
  assert (auth_inv now1 a) as Ha' by (by eapply auth_inv_later).
  assert (auth_inv now1 a1) as Ha1 by (by eapply perform_inv).
  destruct (run_inv _ _ _ Hemail Hpassword _ _ _ _ _ Hrun Ha1) as [_ Hle'].
  apply IH; [done|lia|done|done|]. eapply perform_guarded; [done|done| | |exact Hop|exact Ha'|exact Hp|done]; lia.
Qed.

(** C28: a source is an e-mail address with a client address. When a tracked
    source of a known account fails for the fifth time within the window, and
    that was written, every further attempt from it is refused for fifteen
    minutes, however the address is spelled and whatever else happens in
    between, restarts and attempts from other sources included; excepted is a
    sign-in of that very source that was already being checked and succeeds.
    (When the table of sources is full a new source is not tracked.) *)
Theorem locked_source_refused now a email ip x io ops now2 a2 t email' password newID token io1 io2 :
  cfgPath <> "" -> reached now a -> 0 <= now -> knownEmailLocked (dir a) (normalizeEmail email) = true ->
  loginAttempts (att a) !! loginSourceKey (normalizeEmail email) ip = Some x ->
  maxLoginAttempts - 1 <= Count x -> now - LastTry x <= attemptResetWindow -> io <> SaveFailed ->
  run now (recordFailedAttemptFrom a (normalizeEmail email) ip now io) ops now2 a2 ->
  Forall (fun o => spares (loginSourceKey (normalizeEmail email) ip) o.2) ops ->
  now2 <= t < now + lockoutDuration -> normalizeEmail email' = normalizeEmail email ->
  exists remaining, 0 < remaining /\
    LoginFrom a2 email' password ip newID token t io1 io2 = (a2, inl (ErrLocked remaining)).
Proof using Hemail Hpassword.
  intros Hpath Hr H0 Hk Hx Hcount Hwin Hio Hrun Hsp Ht He. apply reached_inv in Hr as Ha.
  set (key := loginSourceKey (normalizeEmail email) ip) in *. set (T := now + lockoutDuration) in *.
  assert (0 < T) as HT by (unfold T, lockoutDuration, second; lia).
  assert (guarded T key (recordFailedAttemptFrom a (normalizeEmail email) ip now io)) as Hg.
  { unfold recordFailedAttemptFrom. rewrite Hk. set (t0 := book_failure (att a) (normalizeEmail email) ip now).
    assert (locked T key (loginAttempts t0)) as Hl.
    { unfold t0, book_failure. simpl. fold key. rewrite Hx. eexists. rewrite lookup_insert_eq. split; [done|].
      unfold book_source. simpl. rewrite (decide_False (P := now - LastTry x > attemptResetWindow)) by lia.
      unfold maxLoginAttempts in *. rewrite decide_True by lia. unfold T. lia. }
    assert (sessionPath a <> "") as Hsp' by (rewrite (ci_path _ _ _ _ _ (ai_core _ _ _ _ _ Ha)); done).
    unfold saveSessionsLocked. simpl. rewrite decide_False by done.
    destruct io; [|done|]; (split; [done|]; exists (set_att t0 a); done). }
  assert (auth_inv now (recordFailedAttemptFrom a (normalizeEmail email) ip now io)) as Ha1 by (by apply fail_inv).
  assert (guarded T key a2) as [(y & Hy & HyT & _) _].
  { eapply (run_guarded T key now _ ops now2 a2 Hpath HT); [lia|unfold T; lia|exact Hsp|exact Ha1|exact Hrun|exact Hg]. }
  exists (LockedUntil y - t). split; [lia|]. unfold LoginFrom. rewrite He. unfold checkBruteForceProtectionFrom. fold key.
  rewrite Hy. rewrite decide_True by lia. destruct a2; done.
Qed.
End seats.
