(* ===== verification/AuthExamples.v ===== *)
(** * A run of the authenticator

    An instance of the cryptography and a small deployment: the administrator
    signs in, invites a colleague, who accepts and mistypes a password until
    the source is locked; the theorems of AuthProps.v applied to it. *)
From stdpp Require Import base gmap strings list sorting.
From Stdlib Require Import ZArith Lia.
From Stdlib Require Strings.String.
From S2P Require Import Prelude GoStrings AuthData Auth AuthInv AuthProps.

Open Scope Z_scope.

(** ** Running operations *)

#[export] Instance fresh_dec `{!AuthEnv} op d : Decision (fresh op d).
Proof. destruct op; simpl; apply _. Defined.

Section exec.
Context `{!AuthEnv} (cfgPath cfgEmail cfgPassword : string).

Fixpoint exec (ops : list (Z * operation)) (now : Z) (a : LocalAuthenticator) : option (Z * LocalAuthenticator) :=
  match ops with
  | [] => Some (now, a)
  | (now1, op) :: ops =>
      if decide (now <= now1 /\ fresh op (dir a)) then
        match perform cfgPath cfgEmail cfgPassword op now1 a with
        | Some a1 => exec ops now1 a1
        | None => None
        end
      else None
  end.

Lemma exec_run ops now a now' a' :
  exec ops now a = Some (now', a') -> run cfgPath cfgEmail cfgPassword now a ops now' a'.
Proof.
  revert now a. induction ops as [|[now1 op] ops IH]; intros now a; simpl; [intros [= <- <-]; constructor|].
  case_decide as Hd; [|done]. destruct (perform _ _ _ op now1 a) as [a1|] eqn:Ep; [|done]. intros He.
  econstructor; [tauto|tauto|exact Ep|]. by apply IH.
Qed.
End exec.

(** ** The deployment *)

#[export] Instance sample_auth : AuthEnv.
Proof.
  refine {| bcrypt_generate _ p := Some ("$2a$" +:+ p); bcrypt_compare h p := String.eqb h ("$2a$" +:+ p);
    sha256_hex t := "sha:" +:+ t; memberQuota _ n := bool_decide (n < 10); auth_file := sessionData;
    encode_file sd := sd; decode_file sd := Some sd |}.
  - intros salt p h [= <-]. by apply String.eqb_eq.
  - intros salt p h [= <-]. unfold bcrypt_hashed, HasPrefix. simpl. by destruct p.
  - done.
  - done.
Defined.

Definition path : string := "/var/lib/anubis/sessions.json".
Definition email : string := "Admin@example.com".
Definition password : string := "Correct-Horse-1".

Definition fallback : LocalAuthenticator :=
  MkAuth (MkDirectory ∅ ∅ ∅ "" "" ∅ ∅) (MkAttempts ∅ ∅ ∅) "" "" ∅ None.

Definition state0 : LocalAuthenticator :=
  match NewLocalAuthenticator path email password "salt" "id-admin" None (1000 * second) with
  | inr a => a
  | inl _ => fallback
  end.

Definition after (ops : list (Z * operation)) (now : Z) (a : LocalAuthenticator) : Z * LocalAuthenticator :=
  default (0, fallback) (exec path email password ops now a).

Lemma after_run ops now a :
  bool_decide (is_Some (exec path email password ops now a)) = true ->
  run path email password now a ops (after ops now a).1 (after ops now a).2.
Proof.
  rewrite bool_decide_eq_true. unfold after. intros [[t x] E]. rewrite E. simpl. by apply exec_run.
Qed.

(** The administrator as its session authenticates it. *)
Definition admin : User := MkUser "id-admin" email "Administrator" RoleOwner "default" 0 "" false.

Definition invite : operation := OpInvite (Some admin) "bob@example.com" RoleEditor "id-inv" "ticket" SaveOk.
Definition redeem : operation := OpAccept "sha:ticket" "Bob" false "" "$2a$Battery-Staple-2" "id-bob" SaveOk.
Definition login (em pw token : string) : operation :=
  OpLogin (normalizeEmail em) ("$2a$" +:+ pw) "10.0.0.1" "id-new" token SaveOk SaveOk.
Definition failed : operation := OpFail "bob@example.com" "10.9.9.9" SaveOk.

Definition opening : list (Z * operation) :=
  [(1001 * second, OpCheck "admin@example.com" "10.0.0.1"); (1001 * second, login email password "t-admin");
   (1002 * second, invite)].
Definition state1 : LocalAuthenticator := (after opening (1000 * second) state0).2.

Definition joining : list (Z * operation) :=
  opening ++ [(1010 * second, redeem); (1020 * second, login "bob@example.com" "Battery-Staple-2" "t-bob");
    (1030 * second, failed); (1031 * second, failed); (1032 * second, failed); (1033 * second, failed)].
Definition state2 : LocalAuthenticator := (after joining (1000 * second) state0).2.

Lemma reached_by ops now :
  bool_decide (is_Some (exec path email password ops (1000 * second) state0)) = true ->
  (after ops (1000 * second) state0).1 = now ->
  reached path email password now (after ops (1000 * second) state0).2.
Proof.
  intros H <-. exists "salt", "id-admin", (1000 * second), state0, ops. split; [done|].
  split; [by vm_compute|by apply after_run].
Qed.

(** ** The theorems on the run *)

Lemma email_ok : normalizeEmail email <> "".
Proof. by vm_compute. Qed.
Lemma password_ok : password <> "".
Proof. done. Qed.
Lemma path_ok : path <> "".
Proof. done. Qed.

Lemma reached1 : reached path email password (1002 * second) state1.
Proof. apply reached_by; by vm_compute. Qed.

Lemma reached2 : reached path email password (1033 * second) state2.
Proof. apply reached_by; by vm_compute. Qed.

Lemma directory_well_formed_witness :
  dir_ok (dir state2) /\ (forall e, lookupCredential state2 e = passwordHashForLocked (dir state2) e).
Proof. apply (directory_well_formed path email password email_ok password_ok (1033 * second)). exact reached2. Defined.

Lemma tables_bounded_witness : (size (tokens (dir state2)) <= maxSessions)%nat /\ size (tokens (dir state2)) = 2%nat.
Proof.
  split; [|by vm_compute]. pose proof (tables_bounded path email password email_ok password_ok (1033 * second) state2 reached2) as Hb.
  exact (proj1 Hb).
Defined.

(** A restart a day later finds the accounts and no session. *)
Definition restarted : LocalAuthenticator :=
  match NewLocalAuthenticator path email password "salt2" "id-x" (file state2) (90000 * second) with
  | inr a => a
  | inl _ => fallback
  end.

Lemma restart_restores_witness :
  dir restarted = revived (90000 * second) (dir state2) /\ credIndex restarted = credIndex state2.
Proof.
  apply (restart_restores path email password email_ok password_ok (1033 * second) state2 (90000 * second) "salt2" "id-x").
  - exact reached2.
  - by vm_compute.
  - by vm_compute.
  - by vm_compute.
Defined.

Definition later : list (Z * operation) :=
  [(1010 * second, redeem);
   (1011 * second, OpUpdateMember (Some admin) "id-admin" (MkUpdate (Some RoleViewer) None None) SaveOk);
   (1012 * second, OpRestart "salt3" "id-y")].
Definition state3 : LocalAuthenticator := (after later (1002 * second) state1).2.

Lemma workspaces_keep_owner_witness : owned (dir state1) "default" /\ owned (dir state3) "default".
Proof.
  assert (owned (dir state1) "default") as Ho.
  { exists "id-admin". eexists. split; [by vm_compute|]. by split. }
  split; [exact Ho|].
  apply (workspaces_keep_owner path email password email_ok password_ok (1002 * second) state1 later
    (after later (1002 * second) state1).1 state3 "default").
  - exact path_ok.
  - exact reached1.
  - apply after_run. by vm_compute.
  - exact Ho.
Defined.

Definition state1' : LocalAuthenticator := default fallback (perform path email password redeem (1010 * second) state1).

Lemma roles_within_authority_witness :
  (exists R, manages redeem (dir state1) "default" R /\ within (membership (dir state1) "id-bob" "default") R /\
     within (membership (dir state1') "id-bob" "default") R) \/
  (exists actor io, redeem = OpDeleteUser (Some actor) "id-bob" io /\ actor_is_admin (dir state1) actor = true) \/
  (exists em name src io, redeem = OpProvision em name src "id-bob" io /\ "default" = "default" /\
     membership (dir state1) "id-bob" "default" = None /\ membership (dir state1') "id-bob" "default" = Some RoleViewer).
Proof.
  apply (roles_within_authority path email password email_ok password_ok (1002 * second) state1 (1010 * second)).
  - exact reached1.
  - by vm_compute.
  - by vm_compute.
  - by vm_compute.
  - by vm_compute.
  - by vm_compute.
Defined.

Definition accepted : LocalAuthenticator * (auth_error + Member) :=
  accept_finish state1 "sha:ticket" "Bob" false "" "$2a$Battery-Staple-2" "id-bob" (1002 * second) SaveOk.
Definition bob : Member :=
  MkMember "id-bob" "bob@example.com" "Bob" RoleEditor "default" SourceLocal false false false (1002 * second) (1002 * second) None.
Definition afterwards : list (Z * operation) := [(1003 * second, OpRestart "salt4" "id-z"); (1004 * second, OpCleanup SaveOk)].

Lemma invitation_redeemed_once_witness :
  AcceptInvitation (after afterwards (1002 * second) accepted.1).2 "ticket" "Eve" "Another-Pass-3" "id-eve" "salt"
    (1005 * second) SaveOk = ((after afterwards (1002 * second) accepted.1).2, inl ErrInvalidInvitation).
Proof.
  apply (invitation_redeemed_once path email password email_ok password_ok (1002 * second) state1 "sha:ticket" "Bob" false ""
    "$2a$Battery-Staple-2" "id-bob" SaveOk accepted.1 bob afterwards (after afterwards (1002 * second) accepted.1).1).
  - exact reached1.
  - by vm_compute.
  - by vm_compute.
  - apply after_run. by vm_compute.
  - repeat constructor; done.
  - done.
Defined.

Definition besieged : list (Z * operation) :=
  [(1040 * second, OpFail "bob@example.com" "10.8.8.8" SaveOk); (1050 * second, OpRestart "salt5" "id-w");
   (1060 * second, OpCheck "bob@example.com" "10.9.9.9"); (1070 * second, login email password "t-two")].
Definition locked_out : LocalAuthenticator :=
  recordFailedAttemptFrom state2 (normalizeEmail "bob@example.com") "10.9.9.9" (1033 * second) SaveOk.
Definition state4 : LocalAuthenticator := (after besieged (1033 * second) locked_out).2.

Lemma locked_source_refused_witness :
  exists remaining, 0 < remaining /\
    LoginFrom state4 " BOB@Example.com " "Battery-Staple-2" "10.9.9.9" "id-n" "t-n" (1900 * second) SaveOk SaveOk =
      (state4, inl (ErrLocked remaining)).
Proof.
  apply (locked_source_refused path email password email_ok password_ok (1033 * second) state2 "bob@example.com" "10.9.9.9"
    (MkAttempt 4 (1033 * second) 0) SaveOk besieged (after besieged (1033 * second) locked_out).1).
  - exact path_ok.
  - exact reached2.
  - by vm_compute.
  - by vm_compute.
  - by vm_compute.
  - by vm_compute.
  - by vm_compute.
  - done.
  - apply after_run. by vm_compute.
  - repeat constructor; by vm_compute.
  - by vm_compute.
  - by vm_compute.
Defined.
