(* ===== verification/AuthCluster.v ===== *)
(** * Shared authentication in a cluster

    src/internal/auth/cluster.go and cmd/anubis/cluster_auth.go: the
    authentication state of all nodes is one value in the replicated store,
    changed by compare-and-swap entries of the Raft log. An operation of the
    local authenticator is evaluated on an imported copy and committed only if
    nobody else changed the value meanwhile. The changes of other nodes, and
    what becomes of a proposal, are arguments; the barrier is one of
    quorum.go. *)
From stdpp Require Import base gmap strings list sorting.
From Stdlib Require Import ZArith Lia.
From S2P Require Import Prelude GoStrings AuthData Auth.

Open Scope Z_scope.

Definition MaxClusterAuthStateBytes : Z := 192 * 1024.
Definition clusterAuthReceiptLimit : nat := 64.
Definition maxSharedLockouts : nat := 64.
Definition maxUint64 : Z := 2 ^ 64 - 1.

Record ClusterAuthReceipt := MkReceipt { rc_Revision : Z; rc_WriteID : string }.

(** The length and the equality of encoded states. *)
Class ClusterEnv `{!AuthEnv} := {
  raw_length : auth_file -> Z;
  raw_eq_dec : EqDecision auth_file;
}.
#[export] Existing Instance raw_eq_dec.

Section cluster.
Context `{!AuthEnv} {CE : ClusterEnv}.

Record ClusterAuthState := MkShared {
  cs_Revision : Z;
  cs_Data : auth_file;
  cs_Receipts : list ClusterAuthReceipt;
}.

Record ClusterAuthChange := MkSharedChange {
  cc_Expected : Z;
  cc_WriteID : string;
  cc_Data : auth_file;
}.

Inductive cluster_error :=
| ErrNoReceipt
| ErrRevisionExhausted
| ErrBadState
| ErrNotVisible
| ErrUncertain
| ErrCommit
| ErrContention.

Definition null_free {A} (m : gmap string (option A)) : Prop := map_Forall (fun _ v => is_Some v) m.

Definition valid_data (sd : sessionData) : Prop :=
  map_Forall (fun id u => exists x, u = Some x /\ id <> "" /\ u_ID x = id) (sd_Users sd) /\
  map_Forall (fun _ s => exists x, s = Some x /\ is_Some (present (sd_Users sd) !! UserID x)) (sd_Tokens sd) /\
  null_free (sd_ResetTokens sd) /\ null_free (sd_Lockouts sd) /\
  map_Forall (fun id r => is_Some r /\ is_Some (present (sd_Users sd) !! id)) (sd_Accounts sd) /\
  map_Forall (fun id i => exists x, i = Some x /\ inv_ID x = id /\ inv_TokenHash x <> "") (sd_Invitations sd).

#[export] Instance valid_data_dec sd : Decision (valid_data sd).
Proof. unfold valid_data, null_free; apply _. Defined.

Definition validateClusterAuthData (raw : auth_file) : bool :=
  if decide (MaxClusterAuthStateBytes < raw_length raw) then false else
  match decode_file raw with
  | None => false
  | Some sd => bool_decide (valid_data sd)
  end.

Definition last_n {A} (n : nat) (l : list A) : list A := drop (length l - n) l.

(** [inr None] is a conflict or a replay. *)
Definition BuildClusterAuthState (current : option ClusterAuthState) (change : ClusterAuthChange)
    : cluster_error + option ClusterAuthState :=
  let revision := match current with Some s => cs_Revision s | None => 0 end in
  if decide (revision <> cc_Expected change) then inr None else
  if decide (cc_WriteID change = "") then inl ErrNoReceipt else
  if decide (revision = maxUint64) then inl ErrRevisionExhausted else
  if negb (validateClusterAuthData (cc_Data change)) then inl ErrBadState else
  let receipts := (match current with Some s => cs_Receipts s | None => [] end) ++
                  [MkReceipt (revision + 1) (cc_WriteID change)] in
  inr (Some (MkShared (revision + 1) (cc_Data change)
    (if decide (clusterAuthReceiptLimit < length receipts)%nat
     then last_n clusterAuthReceiptLimit receipts else receipts))).

Definition ClusterAuthCommitOutcome (current : option ClusterAuthState) (expected : Z) (writeID : string)
    : cluster_error + bool :=
  match current with
  | None => inl ErrNotVisible
  | Some s =>
      if decide (cs_Revision s <= expected) then inl ErrNotVisible else
      if decide (Exists (fun r => rc_WriteID r = writeID) (cs_Receipts s)) then inr true else
      match cs_Receipts s with
      | r :: _ => if decide (rc_Revision r > expected + 1) then inl ErrUncertain else inr false
      | [] => inr false
      end
  end.

(** The handler of a committed entry: conflicts and rejected changes leave the
    state as it is. *)
Definition apply_change (s : option ClusterAuthState) (change : ClusterAuthChange) : option ClusterAuthState :=
  match BuildClusterAuthState s change with
  | inr (Some next) => Some next
  | _ => s
  end.

Definition apply_all (s : option ClusterAuthState) (cs : list ClusterAuthChange) : option ClusterAuthState :=
  foldl apply_change s cs.

(** What becomes of a proposal: it is lost, committed without the proposer
    learning of it, or committed and acknowledged. *)
Inductive commit_io := CommitLost | CommitUnknown | CommitDone.

(** Other nodes' changes are committed before this one and before it is
    looked up. *)
Definition CompareAndSwap (s : option ClusterAuthState) (expected : Z) (id : string) (data : auth_file)
    (before behind : list ClusterAuthChange) (io : commit_io)
    : option ClusterAuthState * (cluster_error + bool) :=
  let change := MkSharedChange expected id data in
  match BuildClusterAuthState (Some (MkShared expected data [])) change with
  | inl err => (s, inl err)
  | inr _ =>
      let s := apply_all s before in
      match io with
      | CommitLost => (s, inl ErrCommit)
      | CommitUnknown => (apply_change s change, inl ErrCommit)
      | CommitDone =>
          let s := apply_all (apply_change s change) behind in
          (s, ClusterAuthCommitOutcome s expected id)
      end
  end.

(** ** Export and import of the local authenticator *)

Definition recent_lockouts (m : gmap string loginAttempt) : gmap string loginAttempt :=
  if decide (maxSharedLockouts < size m)%nat then
    list_to_map (take maxSharedLockouts
      (sort_by (fun x y => bool_decide (LastTry x.2 > LastTry y.2)) (map_to_list m)))
  else m.

Definition snapshotClusterAuth (a : LocalAuthenticator) (now : Z) : option auth_file :=
  let d := dir a in
  let lockouts := filter (fun kv => LockedUntil kv.2 > now \/ now - LastTry kv.2 <= attemptResetWindow)
                    (loginAttempts (att a)) in
  let raw := encode_file (MkSessionData
    (Some <$> filter (fun kv => ExpiresAt kv.2 > now) (tokens d)) (Some <$> users d)
    (Some <$> filter (fun kv => rt_ExpiresAt kv.2 > now) (resetTokens d))
    (Some <$> recent_lockouts lockouts) ∅ ∅ (adminEmail d) (adminPasswordHash d) (configSeedHash a)
    (Some <$> accounts d) (Some <$> filter (fun kv => inv_ExpiresAt kv.2 > now) (invitations d))) in
  if validateClusterAuthData raw then Some raw else None.

Definition importClusterAuth (a : LocalAuthenticator) (raw : auth_file) : option LocalAuthenticator :=
  if negb (validateClusterAuthData raw) then None else
  match decode_file raw with
  | None => None
  | Some sd =>
      let d := MkDirectory (present (sd_Tokens sd)) (present (sd_ResetTokens sd)) (present (sd_Users sd))
                 (sd_AdminEmail sd) (sd_AdminPasswordHash sd) (present (sd_Accounts sd))
                 (present (sd_Invitations sd)) in
      let t := set_loginAttempts (present (sd_Lockouts sd)) (att a) in
      Some (refreshCredIndexLocked (set_seed (sd_AdminSeedHash sd) (set_att t (set_dir (migrateDirectoryLocked d) a))))
  end.

(** ** The cluster authenticator *)

Record ClusterAuthenticator := MkClusterAuth {
  ca_local : LocalAuthenticator;
  ca_seed : auth_file;
  ca_imported : Z;
}.

Definition NewClusterAuthenticator (local : LocalAuthenticator) (now : Z) : option ClusterAuthenticator :=
  let local := MkAuth (dir local) (att local) (configSeedHash local) "" (credIndex local) (file local) in
  match snapshotClusterAuth local now with
  | None => None
  | Some seed => Some (MkClusterAuth local seed 0)
  end.

(** The inputs of one compare-and-swap: the random receipt ID, the changes of
    other nodes around it and the fate of the proposal. *)
Record cas_inputs := MkCas {
  ci_id : string;
  ci_before : list ClusterAuthChange;
  ci_behind : list ClusterAuthChange;
  ci_io : commit_io;
}.

(** [sync]: the first load that finds a state imports it, up to eight
    attempts to create it from the seed. *)
Fixpoint sync (c : ClusterAuthenticator) (s : option ClusterAuthState) (ins : list cas_inputs)
    : ClusterAuthenticator * option ClusterAuthState * (cluster_error + ClusterAuthState) :=
  match s with
  | Some st =>
      if decide (cs_Revision st = 0) then (c, s, inl ErrBadState) else
      if decide (cs_Revision st <> ca_imported c) then
        match importClusterAuth (ca_local c) (cs_Data st) with
        | None => (MkClusterAuth (ca_local c) (ca_seed c) 0, s, inl ErrBadState)
        | Some local => (MkClusterAuth local (ca_seed c) (cs_Revision st), s, inr st)
        end
      else (c, s, inr st)
  | None =>
      match ins with
      | [] => (c, s, inl ErrContention)
      | i :: ins =>
          match CompareAndSwap s 0 (ci_id i) (ca_seed c) (ci_before i) (ci_behind i) (ci_io i) with
          | (s, inl err) => (c, s, inl err)
          | (s, inr _) => sync c s ins
          end
      end
  end.

(** One round of [mutate] after [sync]: [inr None] is a conflict. *)
Definition mutate_round {R} (fn : LocalAuthenticator -> LocalAuthenticator * R) (now : Z) (c : ClusterAuthenticator)
    (s : option ClusterAuthState) (st : ClusterAuthState) (i : cas_inputs)
    : ClusterAuthenticator * option ClusterAuthState * (cluster_error + option R) :=
  match snapshotClusterAuth (ca_local c) now with
  | None => (c, s, inl ErrBadState)
  | Some before =>
      let '(local, r) := fn (ca_local c) in
      let c := MkClusterAuth local (ca_seed c) 0 in
      match snapshotClusterAuth local now with
      | None => (c, s, inl ErrBadState)
      | Some after =>
          if decide (before = after) then (c, s, inr (Some r)) else
          match CompareAndSwap s (cs_Revision st) (ci_id i) after (ci_before i) (ci_behind i) (ci_io i) with
          | (s, inl err) => (c, s, inl err)
          | (s, inr true) => (c, s, inr (Some r))
          | (s, inr false) => (c, s, inr None)
          end
      end
  end.

(** The rounds of [mutate], sixteen at most; each has the changes other nodes
    commit before it loads the state, and the inputs of its writes. *)
Fixpoint mutate {R} (fn : LocalAuthenticator -> LocalAuthenticator * R) (now : Z) (c : ClusterAuthenticator)
    (s : option ClusterAuthState) (rounds : list (list cas_inputs * cas_inputs))
    : ClusterAuthenticator * option ClusterAuthState * (cluster_error + R) :=
  match rounds with
  | [] => (c, s, inl ErrContention)
  | (ins, i) :: rounds =>
      match sync c s ins with
      | (c, s, inl err) => (c, s, inl err)
      | (c, s, inr st) =>
          match mutate_round fn now c s st i with
          | (c, s, inl err) => (c, s, inl err)
          | (c, s, inr (Some r)) => (c, s, inr r)
          | (c, s, inr None) => mutate fn now c s rounds
          end
      end
  end.
End cluster.

(** ** The replicated value *)

Section shared.
Context `{!AuthEnv} {CE : ClusterEnv}.
Implicit Types s : option ClusterAuthState.

(** Receipts are those of the last revisions, the oldest first. *)
Definition shared_ok (s : option ClusterAuthState) : Prop :=
  match s with
  | None => True
  | Some st => 0 < cs_Revision st /\
      length (cs_Receipts st) = Nat.min clusterAuthReceiptLimit (Z.to_nat (cs_Revision st)) /\
      forall k r, cs_Receipts st !! k = Some r ->
        rc_Revision r = cs_Revision st - Z.of_nat (length (cs_Receipts st)) + 1 + Z.of_nat k
  end.

Definition revision (s : option ClusterAuthState) : Z := match s with Some st => cs_Revision st | None => 0 end.
Definition receipts (s : option ClusterAuthState) : list ClusterAuthReceipt :=
  match s with Some st => cs_Receipts st | None => [] end.

(** A change that takes effect. *)
Definition takes (s : option ClusterAuthState) (change : ClusterAuthChange) : Prop :=
  revision s = cc_Expected change /\ cc_WriteID change <> "" /\ revision s <> maxUint64 /\
  validateClusterAuthData (cc_Data change) = true.

Lemma apply_change_cases s change :
  (takes s change /\ exists st, apply_change s change = Some st /\ BuildClusterAuthState s change = inr (Some st) /\
     cs_Revision st = revision s + 1 /\ cs_Data st = cc_Data change /\
     cs_Receipts st = last_n clusterAuthReceiptLimit (receipts s ++ [MkReceipt (revision s + 1) (cc_WriteID change)])) \/
  (~ takes s change /\ apply_change s change = s).
Proof.
  unfold takes, apply_change, BuildClusterAuthState. fold (revision s). fold (receipts s).
  case_decide as H1; [right; tauto|]. case_decide as H2; [right; tauto|]. case_decide as H3; [right; tauto|].
  destruct (validateClusterAuthData (cc_Data change)) eqn:Ev; simpl; [left|right; split; [naive_solver|done]].
  split; [done|]. eexists. split; [done|]. split; [done|]. simpl. split; [done|]. split; [done|].
  case_decide as Hl; [done|]. unfold last_n. set (l := receipts s ++ _) in *.
  replace (length l - clusterAuthReceiptLimit)%nat with O by lia. done.
Qed.

Lemma apply_change_ok s change : shared_ok s -> shared_ok (apply_change s change).
Proof.
  intros Hs. destruct (apply_change_cases s change) as [(_ & st & -> & _ & Er & _ & El)|[_ ->]]; [|done].
  assert (0 <= revision s /\ length (receipts s) = Nat.min clusterAuthReceiptLimit (Z.to_nat (revision s)) /\
    forall k r, receipts s !! k = Some r -> rc_Revision r = revision s - Z.of_nat (length (receipts s)) + 1 + Z.of_nat k)
    as (H0 & Hlen & Hrev).
  { destruct s as [st0|]; simpl in *; [destruct Hs as (? & ? & ?); split; [lia|done]|]. split; [lia|]. split; [done|].
    intros k r Hk. by rewrite lookup_nil in Hk. }
  unfold shared_ok. split; [lia|]. rewrite El. unfold last_n. rewrite length_drop, length_app. cbn [length].
  unfold clusterAuthReceiptLimit in *. split; [lia|]. intros k r. rewrite lookup_drop, lookup_app_Some.
  intros [Hk|[Hge Hk]].
  - apply lookup_lt_Some in Hk as Hlt. apply Hrev in Hk. lia.
  - apply list_lookup_singleton_Some in Hk as [Hk <-]. simpl. lia.
Qed.

Lemma apply_all_ok s cs : shared_ok s -> shared_ok (apply_all s cs).
Proof. revert s. induction cs as [|c cs IH]; intros s Hs; simpl; [done|]. by apply IH, apply_change_ok. Qed.

(** The revision identifies the value: it changes with every change. *)
Lemma apply_all_revision s cs :
  revision s <= revision (apply_all s cs) /\ (revision (apply_all s cs) = revision s -> apply_all s cs = s).
Proof.
  revert s. induction cs as [|c cs IH]; intros s; simpl; [split; [lia|done]|].
  destruct (IH (apply_change s c)) as [Hle He].
  destruct (apply_change_cases s c) as [(_ & st & E & _ & Er & _)|[_ E]]; rewrite E in *; [|done]. simpl in *. split; [lia|].
  intros. lia.
Qed.

(** A receipt stays until sixty-four later changes. *)
Lemma receipt_kept s cs r :
  shared_ok s -> r ∈ receipts s -> rc_Revision r <= revision s ->
  r ∈ receipts (apply_all s cs) \/ rc_Revision r + Z.of_nat clusterAuthReceiptLimit <= revision (apply_all s cs).
Proof.
  intros Hs Hr Hle.
  assert (r ∈ receipts s \/ rc_Revision r + Z.of_nat clusterAuthReceiptLimit <= revision s) as Hk by (by left).
  clear Hr Hle. revert s Hs Hk. induction cs as [|c cs IH]; intros s Hs Hk; simpl; [done|].
  apply IH; [by apply apply_change_ok|].
  destruct (apply_change_cases s c) as [(_ & st & E & _ & Er & _ & El)|[_ E]]; rewrite E; [|done].
  simpl. destruct Hk as [Hk|Hk]; [|right; lia].
  apply list_elem_of_lookup in Hk as [k Hk]. apply lookup_lt_Some in Hk as Hlt.
  assert (rc_Revision r = revision s - Z.of_nat (length (receipts s)) + 1 + Z.of_nat k /\
    length (receipts s) = Nat.min clusterAuthReceiptLimit (Z.to_nat (revision s)) /\ 0 <= revision s) as (Hrev & Hlen & H0).
  { destruct s as [st0|]; simpl in *; [|by rewrite lookup_nil in Hk]. destruct Hs as (? & ? & Hr). split; [by apply Hr|]. split; [done|lia]. }
  unfold clusterAuthReceiptLimit in *. rewrite El. unfold last_n. rewrite length_app. cbn [length].
  destruct (decide (length (receipts s) + 1 - 64 <= k)%nat) as [Hc|Hc]; [left|right; lia].
  apply list_elem_of_lookup. exists (k - (length (receipts s) + 1 - 64))%nat. rewrite lookup_drop.
  rewrite lookup_app_l by lia. rewrite <- Hk. f_equal. lia.
Qed.

(** Receipts come from changes. *)
Definition unused (id : string) (s : option ClusterAuthState) : Prop := Forall (fun r => rc_WriteID r <> id) (receipts s).
Definition foreign (id : string) (cs : list ClusterAuthChange) : Prop := Forall (fun c => cc_WriteID c <> id) cs.

Lemma unused_apply id s cs : unused id s -> foreign id cs -> unused id (apply_all s cs).
Proof.
  revert s. induction cs as [|c cs IH]; intros s Hs Hf; simpl; [done|]. apply Forall_cons in Hf as [Hc Hf]. apply IH; [|done].
  destruct (apply_change_cases s c) as [(_ & st & E & _ & _ & _ & El)|[_ E]]; rewrite E; [|done].
  unfold unused. simpl. rewrite El. apply Forall_drop, Forall_app. split; [done|]. by constructor.
Qed.

(** The answer of a compare-and-swap is the truth: yes means that the change
    took effect on the expected revision, no that it did not. *)
Lemma outcome_truthful s change behind b :
  shared_ok s -> unused (cc_WriteID change) s -> foreign (cc_WriteID change) behind ->
  ClusterAuthCommitOutcome (apply_all (apply_change s change) behind) (cc_Expected change) (cc_WriteID change) = inr b ->
  b = true <-> takes s change.
Proof.
  intros Hs Hun Hfor Hout. pose proof (apply_change_ok s change Hs) as Hs1.
  destruct (apply_change_cases s change) as [(Ht & st & E & _ & Er & _ & El)|[Hnt E]].
  - split; [done|]. intros _. rewrite E in *. set (r := MkReceipt (revision s + 1) (cc_WriteID change)).
    assert (r ∈ receipts (Some st)) as Hr.
    { cbn [receipts]. rewrite El. unfold last_n. rewrite length_app. cbn [length]. apply list_elem_of_lookup.
      exists (length (receipts s) - (length (receipts s) + 1 - clusterAuthReceiptLimit))%nat. rewrite lookup_drop.
      unfold clusterAuthReceiptLimit. rewrite lookup_app_r by lia. apply list_lookup_singleton_Some. split; [lia|done]. }
    pose proof (receipt_kept (Some st) behind r Hs1 Hr) as Hk. destruct Ht as (Hexp & _).
    pose proof (apply_all_ok (Some st) behind Hs1) as Hs2. destruct (apply_all (Some st) behind) as [st2|] eqn:E2;
      cbn [receipts revision shared_ok ClusterAuthCommitOutcome] in *; [|done].
    case_decide; [done|]. case_decide as Hex; [congruence|]. destruct Hk as [Hk|Hk]; [unfold r; cbn [rc_Revision]; lia| |].
    + exfalso. apply Hex, Exists_exists. by exists r.
    + exfalso. destruct Hs2 as (_ & Hlen & Hrev). destruct (cs_Receipts st2) as [|r0 l] eqn:El2.
      { unfold clusterAuthReceiptLimit in *. cbn [length] in Hlen. unfold r in Hk. cbn [rc_Revision] in Hk. lia. }
      specialize (Hrev O r0 eq_refl). unfold clusterAuthReceiptLimit in *. rewrite Hlen in Hrev.
      unfold r in Hk. cbn [rc_Revision] in Hk. rewrite decide_True in Hout by lia. done.
  - split; [|done]. intros ->. exfalso. rewrite E in Hout. pose proof (unused_apply _ s behind Hun Hfor) as Hun2.
    destruct (apply_all s behind) as [st2|]; [|done]. simpl in Hout. case_decide; [done|]. case_decide as Hex.
    + apply Exists_exists in Hex as (r & Hr & He). unfold unused in Hun2. rewrite Forall_forall in Hun2. by eapply Hun2.
    + destruct (cs_Receipts st2); [done|]. by case_decide.
Qed.

Lemma apply_all_app s cs cs' : apply_all s (cs ++ cs') = apply_all (apply_all s cs) cs'.
Proof. apply foldl_app. Qed.

Lemma cas_cases s expected id data before behind io s' b :
  CompareAndSwap s expected id data before behind io = (s', inr b) -> shared_ok s -> unused id s ->
  foreign id before -> foreign id behind ->
  let s1 := apply_all s before in
  let change := MkSharedChange expected id data in
  if b : bool then takes s1 change /\ s' = apply_all (apply_change s1 change) behind else s' = apply_all s1 behind.
Proof.
  unfold CompareAndSwap. intros Hcas Hs Hun Hb Hbe. simpl. destruct (BuildClusterAuthState _ _); [done|].
  destruct io; [done|done|]. injection Hcas as <- Hout.
  assert (shared_ok (apply_all s before)) as Hs1 by by apply apply_all_ok.
  assert (unused id (apply_all s before)) as Hu1 by by apply unused_apply.
  pose proof (outcome_truthful _ (MkSharedChange expected id data) behind b Hs1 Hu1 Hbe Hout) as Ht. destruct b.
  - split; [by apply Ht|done].
  - destruct (apply_change_cases (apply_all s before) (MkSharedChange expected id data)) as [[Htk _]|[_ ->]]; [|done].
    apply Ht in Htk. done.
Qed.

(** ** Operations of one node among the others *)

Section node.
Context (others : list ClusterAuthChange) (seed : auth_file).

(** A change that is not an operation of this node: one of another node, or
    the creation of the value from the seed. *)
Definition external (ch : ClusterAuthChange) : Prop := ch ∈ others \/ (cc_Expected ch = 0 /\ cc_Data ch = seed).

Definition inputs_ok (i : cas_inputs) : Prop := ci_before i ⊆ others /\ ci_behind i ⊆ others /\ foreign (ci_id i) others.
Definition clean (ids : list string) (s : option ClusterAuthState) : Prop := Forall (fun id => unused id s) ids.

Lemma foreign_sub id cs : cs ⊆ others -> foreign id others -> foreign id cs.
Proof. unfold foreign. rewrite !Forall_forall. intros Hs Hf x Hx. by apply Hf, Hs. Qed.

Lemma external_sub cs : cs ⊆ others -> Forall external cs.
Proof. intros Hs. apply Forall_forall. intros x Hx. left. by apply Hs. Qed.

Lemma clean_apply ids s cs : clean ids s -> Forall (fun id => foreign id cs) ids -> clean ids (apply_all s cs).
Proof.
  unfold clean. rewrite !Forall_forall. intros Hc Hf id Hid. apply unused_apply; [by apply Hc|by apply Hf].
Qed.

(** The local copy is an import of the value it claims to mirror. *)
Definition mirrors (c : ClusterAuthenticator) (s : option ClusterAuthState) : Prop :=
  (s = None -> ca_imported c = 0) /\
  forall st, s = Some st -> cs_Revision st = ca_imported c -> exists l0, importClusterAuth l0 (cs_Data st) = Some (ca_local c).

Lemma sync_spec c s ins c1 s1 st rest :
  sync c s ins = (c1, s1, inr st) -> ca_seed c = seed -> shared_ok s -> mirrors c s -> Forall inputs_ok ins ->
  NoDup ((ci_id <$> ins) ++ rest) -> clean ((ci_id <$> ins) ++ rest) s -> Forall (fun id => foreign id others) rest ->
  exists env, Forall external env /\ apply_all s env = Some st /\ s1 = Some st /\ ca_seed c1 = seed /\
    shared_ok (Some st) /\ clean rest (Some st) /\ exists l0, importClusterAuth l0 (cs_Data st) = Some (ca_local c1).
Proof.
  intros Hsync Hseed Hs Hm Hin Hnd Hcl Hrest. revert s Hsync Hs Hm Hcl. induction Hin as [|i ins Hi Hin IH]; intros s Hsync Hs Hm Hcl.
  - destruct s as [st0|]; simpl in Hsync; [|done]. exists []. simpl. case_decide; [done|]. case_decide as Hne.
    + destruct (importClusterAuth _ _) as [l|] eqn:Ei; [|done]. injection Hsync as <- <- <-. eauto 10.
    + injection Hsync as <- <- <-. destruct Hm as [_ Hm]. eauto 10.
  - destruct s as [st0|].
    { simpl in Hsync. exists []. simpl. apply Forall_app in Hcl as [_ Hcl]. case_decide; [done|]. case_decide as Hne.
      + destruct (importClusterAuth _ _) as [l|] eqn:Ei; [|done]. injection Hsync as <- <- <-. eauto 10.
      + injection Hsync as <- <- <-. destruct Hm as [_ Hm]. eauto 10. }
    cbn [sync] in Hsync. destruct (CompareAndSwap _ _ _ _ _ _ _) as [s2 [err|b]] eqn:Ec; [done|]. destruct Hi as (Hb & Hbe & Hf).
    simpl in Hnd, Hcl. apply NoDup_cons in Hnd as [Hnin Hnd]. apply Forall_cons in Hcl as [Hun Hcl].
    pose proof (cas_cases _ _ _ _ _ _ _ _ _ Ec Hs Hun (foreign_sub _ _ Hb Hf) (foreign_sub _ _ Hbe Hf)) as Hcas. simpl in Hcas.
    set (ch := MkSharedChange 0 (ci_id i) (ca_seed c)) in *.
    assert (exists env, Forall external env /\ s2 = apply_all None env /\ Forall (fun id => foreign id env) ((ci_id <$> ins) ++ rest))
      as (env & Henv & E2 & Hfor).
    { assert (Forall (fun id => foreign id others) ((ci_id <$> ins) ++ rest)) as Hall.
      { apply Forall_app. split; [|done]. apply Forall_fmap. eapply Forall_impl; [exact Hin|]. by intros x (_ & _ & Hx). }
      rewrite Forall_forall in Hall. destruct b.
      - destruct Hcas as [_ ->]. exists (ci_before i ++ ch :: ci_behind i). split; [|split].
        + apply Forall_app. split; [by apply external_sub|]. constructor; [by right|by apply external_sub].
        + by rewrite apply_all_app.
        + apply Forall_forall. intros id Hid. apply Forall_app. split; [eapply foreign_sub; eauto|].
          constructor; [simpl; intros Eid; apply Hnin; by rewrite Eid|eapply foreign_sub; eauto].
      - exists (ci_before i ++ ci_behind i). split; [apply Forall_app; split; by apply external_sub|].
        split; [by rewrite apply_all_app|]. apply Forall_forall. intros id Hid. apply Forall_app. split; eapply foreign_sub; eauto. }
    destruct (IH Hnd s2) as (env' & Henv' & Ea & Hrest'); [done|rewrite E2; by apply apply_all_ok| |rewrite E2; by apply clean_apply|].
    { destruct Hm as [Hm _]. specialize (Hm eq_refl). split; [done|]. intros st0 Est Hrev. exfalso.
      assert (shared_ok s2) as Hs2 by (rewrite E2; by apply apply_all_ok). rewrite Est in Hs2. destruct Hs2 as [Hpos _]. lia. }
    exists (env ++ env'). split; [by apply Forall_app|]. split; [|done]. rewrite apply_all_app, <- E2. done.
Qed.

Definition round_ids (x : list cas_inputs * cas_inputs) : list string := (ci_id <$> x.1) ++ [ci_id x.2].

(** C31: an operation of the cluster authenticator that returns took effect at
    one moment, on the value all nodes share: the shared value was [st] when
    the operation was evaluated on a copy of it, and it either changed nothing
    or its result replaced [st] itself; no write of another node was lost in
    between, and rounds that lost the race left no trace. *)
Theorem cluster_mutation_atomic {R} (fn : LocalAuthenticator -> LocalAuthenticator * R) now c s rounds c' s' r :
  mutate fn now c s rounds = (c', s', inr r) -> ca_seed c = seed -> shared_ok s -> mirrors c s ->
  Forall (fun x => Forall inputs_ok x.1 /\ inputs_ok x.2) rounds -> NoDup (rounds ≫= round_ids) ->
  clean (rounds ≫= round_ids) s ->
  exists env st l0 l l', Forall external env /\ apply_all s env = Some st /\
    importClusterAuth l0 (cs_Data st) = Some l /\ fn l = (l', r) /\
    ((snapshotClusterAuth l' now = snapshotClusterAuth l now /\ s' = Some st) \/
     (exists id raw st' behind, snapshotClusterAuth l' now = Some raw /\
        BuildClusterAuthState (Some st) (MkSharedChange (cs_Revision st) id raw) = inr (Some st') /\
        Forall external behind /\ s' = apply_all (Some st') behind)).
Proof.
  intros Hmut Hseed Hs Hm Hins Hnd Hcl. revert c s Hmut Hseed Hs Hm Hcl.
  induction Hins as [|[ins i] rounds [Hin Hi] Hins IH]; intros c s Hmut Hseed Hs Hm Hcl; [done|].
  simpl in Hin, Hi. cbn [mutate] in Hmut. destruct (sync c s ins) as [[c1 s1] [err|st]] eqn:Esync; [done|].
  assert (Forall (fun id => foreign id others) (ci_id i :: (rounds ≫= round_ids))) as Hrest.
  { constructor; [apply Hi|]. apply Forall_bind. eapply Forall_impl; [exact Hins|]. intros [ins' i'] [Hx Hy]. simpl in *.
    apply Forall_app. split; [|constructor; [apply Hy|done]]. apply Forall_fmap. eapply Forall_impl; [exact Hx|]. by intros ? (_ & _ & ?). }
  assert (((ins, i) :: rounds) ≫= round_ids = (ci_id <$> ins) ++ ci_id i :: (rounds ≫= round_ids)) as Eids
    by (rewrite bind_cons; unfold round_ids at 1; simpl; by rewrite <- app_assoc).
  rewrite Eids in Hnd, Hcl.
  destruct (sync_spec _ _ _ _ _ _ _ Esync Hseed Hs Hm Hin Hnd Hcl Hrest) as (env & Henv & Est & -> & Hseed1 & Hs1 & Hcl1 & l0 & Himp).
  apply NoDup_app in Hnd as (_ & _ & Hnd). apply NoDup_cons in Hnd as [Hnin Hnd]. apply Forall_cons in Hcl1 as [Hun Hcl1].
  apply Forall_cons in Hrest as [Hfi Hrest]. unfold mutate_round in Hmut.
  destruct (snapshotClusterAuth (ca_local c1) now) as [before|] eqn:Eb; [|done].
  destruct (fn (ca_local c1)) as [l' r'] eqn:Efn. destruct (snapshotClusterAuth l' now) as [after|] eqn:Ea; [|done].
  destruct (decide (before = after)) as [->|Hne].
  { injection Hmut as <- <- <-. exists env, st, l0, (ca_local c1), l'. rewrite Ea, Eb. auto 10. }
  destruct (CompareAndSwap _ _ _ _ _ _ _) as [s2 [err|b]] eqn:Ec; [done|]. destruct Hi as (Hb & Hbe & Hf).
  pose proof (cas_cases _ _ _ _ _ _ _ _ _ Ec Hs1 Hun (foreign_sub _ _ Hb Hf) (foreign_sub _ _ Hbe Hf)) as Hcas. cbn zeta in Hcas. destruct b.
  - injection Hmut as <- <- <-. destruct Hcas as [Ht ->]. pose proof Ht as (Hrev & _). simpl in Hrev.
    assert (apply_all (Some st) (ci_before i) = Some st) as E1 by (by apply apply_all_revision).
    rewrite E1 in *. destruct (apply_change_cases (Some st) (MkSharedChange (cs_Revision st) (ci_id i) after)) as [(_ & st' & -> & Hbuild & _)|[Hnt _]]; [|done].
    exists env, st, l0, (ca_local c1), l'. repeat (split; [done|]). right. exists (ci_id i), after, st', (ci_behind i).
    split; [done|]. split; [done|]. split; [by apply external_sub|done].
  - assert (s2 = apply_all s (env ++ ci_before i ++ ci_behind i)) as E2 by (rewrite !apply_all_app, Est; done).
    destruct (IH Hnd (MkClusterAuth l' (ca_seed c1) 0) s2) as (env' & st2 & m0 & m & m' & Henv' & Est2 & Hrest2).
    + exact Hmut.
    + done.
    + rewrite E2. by apply apply_all_ok.
    + split; [done|]. intros st2 Est2 Hr2. exfalso. assert (shared_ok s2) as Hok by (rewrite E2; by apply apply_all_ok).
      rewrite Est2 in Hok. simpl in Hr2. destruct Hok as [Hpos _]. lia.
    + rewrite Hcas, <- apply_all_app. apply clean_apply; [done|]. eapply Forall_impl; [exact Hrest|]. intros id Hid.
      apply Forall_app. split; eapply foreign_sub; eauto.
    + exists ((env ++ ci_before i ++ ci_behind i) ++ env'), st2, m0, m, m'. split.
      { apply Forall_app. split; [|done]. apply Forall_app. split; [done|]. apply Forall_app. split; by apply external_sub. }
      split; [|done]. by rewrite apply_all_app, <- E2.
Qed.
End node.
End shared.
