(* ===== verification/ApiKeys.v ===== *)
(** * API keys

    src/internal/core/apikey.go and src/internal/auth/apikey.go: bearer
    credentials of the form anb_<id>_<secret>, stored as a hash, and their use
    on the authority of the account that created them;
    src/cmd/anubis/apikey_store.go: their records in the key/value store,
    written directly on a single node and through Raft in a cluster. The fate
    of a proposal, the random parts of a key and the time are arguments; JSON
    is a parameter. *)
From stdpp Require Import base gmap strings list sorting.
From Stdlib Require Import ZArith Lia Strings.Ascii.
From Stdlib Require Strings.String.
From S2P Require Import Prelude GoStrings Engine KeyValue Index Membership Raft LogStore Fsm AuthData Auth AuthInv AuthProps.

Open Scope Z_scope.

Definition APIKeyPrefix : string := "anb_".
Definition APIKeyMaxLifetime : Z := 366 * 24 * 3600 * second.
Definition APIKeyMaxNameLength : nat := 100.
Definition apiKeyIDBytes : nat := 12.
Definition DefaultAPIKeyTouchInterval : Z := 5 * 60 * second.

Record APIKey := MkKey {
  k_ID : string;
  k_Name : string;
  k_WorkspaceID : string;
  k_OwnerID : string;
  k_OwnerEmail : string;
  k_Role : MemberRole;
  k_SecretHash : string;
  k_CreatedAt : Z;
  k_ExpiresAt : option Z;
  k_LastUsedAt : option Z;
  k_RevokedAt : option Z;
  k_RevokedBy : string;
}.

Inductive api_key_error :=
| ErrAPIKeyInvalid
| ErrAPIKeyRevoked
| ErrAPIKeyExpired
| ErrKeyForbidden
| ErrKeyValidation (field : string)
| ErrKeyNotFound (id : string)
| ErrKeyStore.

(** ** Keys *)

Definition Expired (k : APIKey) (now : Z) : bool :=
  match k_ExpiresAt k with Some e => negb (bool_decide (now < e)) | None => false end.

Definition Status (k : APIKey) (now : Z) : string :=
  match k_RevokedAt k with
  | Some _ => "revoked"
  | None => if Expired k now then "expired" else "active"
  end.

Definition IsAPIKeyToken (token : string) : bool := HasPrefix token APIKeyPrefix.

Definition hex_digit (c : ascii) : Prop :=
  (48 <= code c <= 57)%N \/ (97 <= code c <= 102)%N \/ (65 <= code c <= 70)%N.
#[export] Instance hex_digit_dec c : Decision (hex_digit c).
Proof. unfold hex_digit; apply _. Defined.

(** [hex.DecodeString] accepts an even number of hexadecimal digits. *)
Definition hex_decodes (s : string) : bool :=
  Nat.even (String.length s) && bool_decide (Forall hex_digit (String.list_ascii_of_string s)).

Definition ParseAPIKey (token : string) : option string :=
  if negb (IsAPIKeyToken token) then None else
  match cut_at "_"%char (TrimPrefix token APIKeyPrefix) with
  | None => None
  | Some (id, secret) =>
      if decide (String.length id <> (2 * apiKeyIDBytes)%nat \/ secret = "" \/ (128 < String.length secret)%nat)
      then None else
      if hex_decodes id then Some id else None
  end.

(** The random parts: [id] in hexadecimal, the secret in URL-safe base64. *)
Definition GenerateAPIKey (id secret : string) : string := APIKeyPrefix +:+ id +:+ "_" +:+ secret.

(** ** The store *)

(** encoding/json of key records, of valid UTF-8 text, and of times. *)
Class KeyCodec := {
  encode_key : APIKey -> bytes;
  decode_key : bytes -> option APIKey;
  encode_time : Z -> bytes;
  decode_time : bytes -> option Z;
  decode_encode_key k : decode_key (encode_key k) = Some k;
}.

Definition apiKeyRecordKey (workspace id : string) : string := workspace +:+ "/apikeys/" +:+ id.
Definition apiKeyUsageKey (workspace id : string) : string := workspace +:+ "/apikey-usage/" +:+ id.

Definition validAPIKeyStorageID (id : string) : bool :=
  bool_decide (is_Some (ParseAPIKey (APIKeyPrefix +:+ id +:+ "_x"))).

(** What becomes of a proposal: it is lost, or committed and applied without
    or with the proposer learning of it. *)
Inductive mutation_io := MutationLost | MutationUnknown | MutationDone.

Definition set_last_used (t : option Z) (k : APIKey) : APIKey :=
  MkKey (k_ID k) (k_Name k) (k_WorkspaceID k) (k_OwnerID k) (k_OwnerEmail k) (k_Role k) (k_SecretHash k)
    (k_CreatedAt k) (k_ExpiresAt k) t (k_RevokedAt k) (k_RevokedBy k).

Definition set_revoked (now : Z) (by_ : string) (k : APIKey) : APIKey :=
  MkKey (k_ID k) (k_Name k) (k_WorkspaceID k) (k_OwnerID k) (k_OwnerEmail k) (k_Role k) (k_SecretHash k)
    (k_CreatedAt k) (k_ExpiresAt k) (k_LastUsedAt k) (Some now) by_.

Section service.
Context {D : Type} `{KeyValue D} {KC : KeyCodec} `{!AuthEnv}.

Definition HashAPIKey (plaintext : string) : string := sha256_hex plaintext.
Definition VerifyAPIKeyHash (plaintext storedHash : string) : bool := bool_decide (HashAPIKey plaintext = storedHash).

(** Direct writes leave the indexes alone. *)
Definition putReplicated (replicator : bool) (s : store) (c : call_env) (io : mutation_io) (key : string) (value : bytes)
    : store * option api_key_error :=
  let report '(s, err) := (s, if err : option db_error then Some ErrKeyStore else None) in
  if replicator then
    let cmd := MkCommand FSMSet "" key value "" in
    match io with
    | MutationLost => (s, Some ErrKeyStore)
    | MutationUnknown => ((ApplyFSMCommand s c cmd).1, Some ErrKeyStore)
    | MutationDone => report (ApplyFSMCommand s c cmd)
    end
  else let '(d, err) := kv_put s.1 c key value in report ((d, s.2), err).

Definition contains_slash (s : string) : bool := existsb (fun a => bool_decide (a = slash)) (String.list_ascii_of_string s).

Definition SaveAPIKey (replicator : bool) (s : store) (c : call_env) (io : mutation_io) (key : APIKey)
    : store * option api_key_error :=
  if negb (validAPIKeyStorageID (k_ID key)) || bool_decide (k_WorkspaceID key = "") || contains_slash (k_WorkspaceID key)
  then (s, Some (ErrKeyValidation "api_key"))
  else putReplicated replicator s c io (apiKeyRecordKey (k_WorkspaceID key) (k_ID key)) (encode_key (set_last_used None key)).

Definition attachAPIKeyUsage (d : D) (key : APIKey) : APIKey :=
  match kv_get d (apiKeyUsageKey (k_WorkspaceID key) (k_ID key)) with
  | inl _ => key
  | inr raw =>
      match decode_time raw with
      | Some at_ => if decide (at_ <> zero_time) then set_last_used (Some at_) key else key
      | None => key
      end
  end.

Fixpoint find_key (d : D) (id : string) (workspaces : list string) : api_key_error + APIKey :=
  match workspaces with
  | [] => inl (ErrKeyNotFound id)
  | ws :: workspaces =>
      match kv_get d (apiKeyRecordKey ws id) with
      | inl (Engine.ErrNotFound _) => find_key d id workspaces
      | inl _ => inl ErrKeyStore
      | inr raw =>
          match decode_key raw with
          | None => inl ErrKeyStore
          | Some key =>
              if decide (k_ID key <> id \/ k_WorkspaceID key <> ws) then find_key d id workspaces
              else inr (attachAPIKeyUsage d key)
          end
      end
  end.

Definition GetAPIKey (s : store) (id : string) : api_key_error + APIKey :=
  if negb (validAPIKeyStorageID id) then inl (ErrKeyNotFound id) else
  let workspaces := workspaceOrder s.2 in
  find_key s.1 id (if decide (workspaces = []) then ["default"] else workspaces).

Definition ListAPIKeys (s : store) (workspace : string) : api_key_error + list APIKey :=
  if bool_decide (workspace = "") || contains_slash workspace then inr [] else
  match kv_scan s.1 (workspace +:+ "/apikeys/") with
  | inl _ => inl ErrKeyStore
  | inr results =>
      inr (omap (fun '(_, raw) =>
             match decode_key raw with
             | Some key => if decide (k_WorkspaceID key <> workspace) then None else Some (attachAPIKeyUsage s.1 key)
             | None => None
             end) (map_to_list results))
  end.

Definition RecordAPIKeyUse (replicator : bool) (s : store) (c : call_env) (io : mutation_io) (key : APIKey) (at_ : Z)
    : store * option api_key_error :=
  if negb (validAPIKeyStorageID (k_ID key)) then (s, None)
  else putReplicated replicator s c io (apiKeyUsageKey (k_WorkspaceID key) (k_ID key)) (encode_time at_).

(** ** The service *)

(** When each key's use was last recorded, as the service remembers it. *)
Definition key_touches := gmap string Z.

(** What the service remembers, and the use it records in the background. *)
Definition touch (lastTouch : key_touches) (key : APIKey) (now : Z) : key_touches * option (APIKey * Z) :=
  if decide (exists last, lastTouch !! k_ID key = Some last /\ now - last < DefaultAPIKeyTouchInterval)
  then (lastTouch, None) else
  match k_LastUsedAt key with
  | Some used =>
      if decide (now - used < DefaultAPIKeyTouchInterval) then (<[k_ID key := used]> lastTouch, None)
      else (<[k_ID key := now]> lastTouch, Some (key, now))
  | None => (<[k_ID key := now]> lastTouch, Some (key, now))
  end.

Definition key_user (key : APIKey) : User :=
  MkUser ("apikey:" +:+ k_ID key) (k_OwnerEmail key) (k_Name key) (k_Role key) (k_WorkspaceID key) (k_CreatedAt key)
    (k_ID key) false.

(** [ownerCheck] is what [SetOwnerCheck] installed, if anything: the server
    installs [CheckKeyOwner] of the directory. *)
Definition AuthenticateKey (ownerCheck : option (string -> string -> MemberRole -> option auth_error))
    (s : store) (lastTouch : key_touches) (token : string) (now : Z)
    : key_touches * option (APIKey * Z) * (api_key_error + User) :=
  match ParseAPIKey token with
  | None => (lastTouch, None, inl ErrAPIKeyInvalid)
  | Some id =>
      match GetAPIKey s id with
      | inl _ => (lastTouch, None, inl ErrAPIKeyInvalid)
      | inr key =>
          if negb (VerifyAPIKeyHash token (k_SecretHash key)) then (lastTouch, None, inl ErrAPIKeyInvalid) else
          if decide (is_Some (k_RevokedAt key)) then (lastTouch, None, inl ErrAPIKeyRevoked) else
          if Expired key now then (lastTouch, None, inl ErrAPIKeyExpired) else
          if decide (ValidAPIKeyRole (k_Role key) = false \/ k_WorkspaceID key = "")
          then (lastTouch, None, inl ErrAPIKeyInvalid) else
          if decide (exists check, ownerCheck = Some check /\
                       is_Some (check (k_OwnerID key) (k_WorkspaceID key) (k_Role key)))
          then (lastTouch, None, inl ErrAPIKeyInvalid)
          else (touch lastTouch key now, inr (key_user key))
      end
  end.

Definition CreateKey (replicator : bool) (s : store) (c : call_env) (io : mutation_io) (creator : option User)
    (name : string) (role : MemberRole) (expiresAt : option Z) (id secret : string) (now : Z)
    : store * (api_key_error + APIKey * string) :=
  match creator with
  | None => (s, inl ErrKeyForbidden)
  | Some creator =>
      if decide (u_ID creator = "") then (s, inl ErrKeyForbidden) else
      if IsAPIKey creator then (s, inl ErrKeyForbidden) else
      let name := TrimSpace name in
      if decide (name = "") then (s, inl (ErrKeyValidation "name")) else
      if decide (APIKeyMaxNameLength < String.length name)%nat then (s, inl (ErrKeyValidation "name")) else
      if negb (ValidAPIKeyRole role) then (s, inl (ErrKeyValidation "role")) else
      if negb (RoleWithin role (u_Role creator)) then (s, inl ErrKeyForbidden) else
      if decide (exists e, expiresAt = Some e /\ (e <= now \/ e - now > APIKeyMaxLifetime))
      then (s, inl (ErrKeyValidation "expires_at")) else
      let plaintext := GenerateAPIKey id secret in
      let key := MkKey id name (workspaceOrDefault (u_Workspace creator)) (u_ID creator) (u_Email creator) role
                   (HashAPIKey plaintext) now expiresAt None None "" in
      match SaveAPIKey replicator s c io key with
      | (s, Some err) => (s, inl err)
      | (s, None) => (s, inr (key, plaintext))
      end
  end.

Definition ListKeys (s : store) (workspace : string) : api_key_error + list APIKey :=
  match ListAPIKeys s workspace with
  | inl err => inl err
  | inr keys =>
      inr (sort_by (fun x y => bool_decide (k_CreatedAt x > k_CreatedAt y))
             (filter (fun k => k_WorkspaceID k = workspace) keys))
  end.

Definition RevokeKey (replicator : bool) (s : store) (c : call_env) (io : mutation_io) (workspace id revokedBy : string)
    (now : Z) : store * (api_key_error + APIKey) :=
  match GetAPIKey s id with
  | inl (ErrKeyNotFound _) => (s, inl (ErrKeyNotFound id))
  | inl err => (s, inl err)
  | inr key =>
      if decide (k_WorkspaceID key <> workspace) then (s, inl (ErrKeyNotFound id)) else
      if decide (is_Some (k_RevokedAt key)) then (s, inr key) else
      let key := set_revoked now revokedBy key in
      match SaveAPIKey replicator s c io key with
      | (s, Some err) => (s, inl err)
      | (s, None) => (s, inr key)
      end
  end.
End service.

(** ** Strings of keys *)

Lemma parse_valid token id : ParseAPIKey token = Some id -> String.length id = 24%nat /\ hex_decodes id = true.
Proof.
  unfold ParseAPIKey. destruct (negb _); [done|]. destruct (cut_at _ _) as [[i s]|]; [|done]. case_decide as Hd; [done|].
  destruct (hex_decodes i) eqn:Eh; [|done]. intros [= <-]. split; [|done].
  destruct (decide (String.length i = 24%nat)); [done|]. exfalso. apply Hd. by left.
Qed.

(** A generated key parses to its ID: hexadecimal has no underscore. *)
Lemma hex_digit_underscore c : hex_digit c -> c <> "_"%char.
Proof. intros Hc ->. unfold hex_digit, code in Hc. simpl in Hc. lia. Qed.

Lemma cut_underscore_hex id rest :
  Forall hex_digit (String.list_ascii_of_string id) -> cut_at "_"%char (id +:+ String.String "_" rest) = Some (id, rest).
Proof.
  induction id as [|c id IH]; simpl; intros Hf; [done|]. apply Forall_cons in Hf as [Hc Hf].
  rewrite decide_False by by apply hex_digit_underscore. by rewrite IH.
Qed.

Lemma parse_generated id secret :
  String.length id = 24%nat -> hex_decodes id = true -> secret <> "" -> (String.length secret <= 128)%nat ->
  ParseAPIKey (GenerateAPIKey id secret) = Some id.
Proof.
  intros Hl Hh Hs Hm. unfold ParseAPIKey, IsAPIKeyToken, TrimPrefix, HasPrefix, GenerateAPIKey.
  rewrite prefix_append. simpl negb. cbv iota.
  rewrite substring_suffix.
  pose proof Hh as Hf. unfold hex_decodes in Hf. apply andb_true_iff in Hf as [_ Hf]. apply bool_decide_eq_true in Hf.
  change ("_" +:+ secret) with (String.String "_" secret). rewrite cut_underscore_hex by done.
  rewrite decide_False by (unfold apiKeyIDBytes; intros [?|[?|?]]; [lia|done|lia]). by rewrite Hh.
Qed.

Lemma storage_id id : String.length id = 24%nat -> hex_decodes id = true -> validAPIKeyStorageID id = true.
Proof.
  intros Hl Hh. unfold validAPIKeyStorageID. apply bool_decide_eq_true. exists id.
  apply (parse_generated id "x" Hl Hh); [done|simpl; lia].
Qed.

(** The last part of a key has no slash, so the parts of a key are unique. *)
Lemma record_key_inj ws ws' id id' :
  String.length id = String.length id' -> apiKeyRecordKey ws id = apiKeyRecordKey ws' id' -> ws = ws' /\ id = id'.
Proof.
  intros Hl He. unfold apiKeyRecordKey in He. apply append_inj_suffix in He as [-> He]; [|by rewrite !length_string_app, Hl].
  split; [done|]. by apply append_inj_suffix in He as [_ ->].
Qed.

Lemma record_usage_key ws ws' id id' : String.length id = String.length id' -> apiKeyRecordKey ws id <> apiKeyUsageKey ws' id'.
Proof.
  unfold apiKeyRecordKey, apiKeyUsageKey. intros Hl He.
  replace (ws +:+ "/apikeys/" +:+ id) with ((ws +:+ "/apikey") +:+ "s/" +:+ id) in He by by rewrite !string_app_assoc.
  replace (ws' +:+ "/apikey-usage/" +:+ id') with ((ws' +:+ "/apikey-usag") +:+ "e/" +:+ id') in He
    by by rewrite !string_app_assoc.
  apply append_inj_suffix in He as [_ He]; [|by rewrite !length_string_app, Hl]. done.
Qed.

(** ** Stored keys *)

Section stored.
Context {D : Type} `{KeyValueOk D} {KC : KeyCodec} `{!AuthEnv}.
Implicit Types (s : @store D) (k : APIKey).

(** The record of a key in a workspace. *)
Definition stored_key s (ws id : string) (k : APIKey) : Prop :=
  exists raw, kv_map s.1 !! apiKeyRecordKey ws id = Some raw /\ decode_key raw = Some k /\ k_ID k = id /\ k_WorkspaceID k = ws.

Lemma attach_usage (d : D) k : attachAPIKeyUsage d k = set_last_used (k_LastUsedAt (attachAPIKeyUsage d k)) k.
Proof.
  unfold attachAPIKeyUsage. destruct (kv_get d _) as [e|raw]; [by destruct k|]. destruct (decode_time raw); [|by destruct k].
  case_decide; [done|by destruct k].
Qed.

Lemma find_key_found s id wss k :
  kv_inv s.1 -> find_key s.1 id wss = inr k ->
  exists ws k0, ws ∈ wss /\ stored_key s ws id k0 /\ k = set_last_used (k_LastUsedAt k) k0.
Proof.
  intros Hi. induction wss as [|ws wss IH]; simpl; [done|].
  assert (find_key s.1 id wss = inr k ->
    exists ws' k0, ws' ∈ ws :: wss /\ stored_key s ws' id k0 /\ k = set_last_used (k_LastUsedAt k) k0) as Hrec.
  { intros (w & k0 & Hw & Hk)%IH. exists w, k0. split; [by right|done]. }
  rewrite kv_get_spec by done. destruct (kv_map s.1 !! _) as [raw|] eqn:Er; [|exact Hrec].
  destruct (decode_key raw) as [k0|] eqn:Ed; [|done]. case_decide as Hd; [exact Hrec|]. intros [= <-].
  exists ws, k0. split; [by left|]. split; [|apply attach_usage]. exists raw. split; [done|]. split; [done|].
  destruct (decide (k_ID k0 = id)), (decide (k_WorkspaceID k0 = ws)); naive_solver.
Qed.

Lemma GetAPIKey_found s id k :
  kv_inv s.1 -> GetAPIKey s id = inr k ->
  exists ws k0, stored_key s ws id k0 /\ k = set_last_used (k_LastUsedAt k) k0 /\ validAPIKeyStorageID id = true.
Proof.
  intros Hi. unfold GetAPIKey. destruct (validAPIKeyStorageID id); [|done]. simpl.
  intros (ws & k0 & _ & Hk & He)%find_key_found; [|done]. eauto.
Qed.

(** The walk stops at the first workspace that has the key. *)
Lemma find_key_known s ws id k wss :
  kv_inv s.1 -> stored_key s ws id k -> (forall w, w <> ws -> kv_map s.1 !! apiKeyRecordKey w id = None) ->
  find_key s.1 id wss = if decide (ws ∈ wss) then inr (attachAPIKeyUsage s.1 k) else inl (ErrKeyNotFound id).
Proof.
  intros Hi (raw & Hr & Hd & Hid & Hws) Ho. induction wss as [|w wss IH]; simpl; [done|].
  rewrite kv_get_spec by done. destruct (decide (w = ws)) as [->|Hne].
  - rewrite Hr, Hd, decide_False by naive_solver. by rewrite decide_True by left.
  - rewrite Ho by done. rewrite IH. destruct (decide (ws ∈ wss)) as [Hin|Hin].
    + by rewrite decide_True by by right.
    + rewrite decide_False; [done|]. by intros [?|?]%elem_of_cons.
Qed.

(** A write happened or not; if it is reported, it happened. *)
Lemma put_cases replicator s c io key value s' err :
  kv_inv s.1 -> call_env_ok c -> putReplicated replicator s c io key value = (s', err) ->
  kv_inv s'.1 /\
  ((kv_map s'.1 = kv_map s.1 /\ is_Some err) \/
   (kv_map s'.1 = <[key := value]> (kv_map s.1) /\
    s'.2 = if replicator then updateIndexForSet key s.2 else s.2)).
Proof.
  intros Hi Hc. unfold putReplicated. destruct s as [d x]. destruct replicator.
  - assert (forall s1 e, ApplyFSMCommand (d, x) c (MkCommand FSMSet "" key value "") = (s1, e) ->
      kv_inv s1.1 /\ ((kv_map s1.1 = kv_map d /\ is_Some e) \/
        (kv_map s1.1 = <[key := value]> (kv_map d) /\ s1.2 = updateIndexForSet key x))) as Ha.
    { intros s1 e. simpl. destruct (kv_put d c key value) as [d' [err'|]] eqn:Ep; intros [= <- <-];
        destruct (kv_put_spec _ _ _ _ _ _ Hi Hc Ep) as [Hi' Hm]; eauto 10. }
    destruct (ApplyFSMCommand _ _ _) as [s1 e] eqn:Ea. specialize (Ha _ _ eq_refl) as [Hi1 Hm]. destruct io.
    + intros [= <- <-]. split; [done|]. left. eauto.
    + intros [= <- <-]. split; [done|]. destruct Hm as [[Hm _]|Hm]; [left; eauto|by right].
    + intros [= <- <-]. split; [done|]. destruct Hm as [[Hm [e' ->]]|Hm]; [left; eauto|by right].
  - simpl. destruct (kv_put d c key value) as [d' e] eqn:Ep. intros [= <- <-].
    destruct (kv_put_spec _ _ _ _ _ _ Hi Hc Ep) as [Hi' Hm]. split; [done|]. destruct e; simpl; [left; eauto|right; eauto].
Qed.

Lemma save_cases replicator s c io k s' err :
  kv_inv s.1 -> call_env_ok c -> SaveAPIKey replicator s c io k = (s', err) ->
  kv_inv s'.1 /\
  ((kv_map s'.1 = kv_map s.1 /\ is_Some err) \/
   (kv_map s'.1 = <[apiKeyRecordKey (k_WorkspaceID k) (k_ID k) := encode_key (set_last_used None k)]> (kv_map s.1) /\
    validAPIKeyStorageID (k_ID k) = true /\ k_WorkspaceID k <> "" /\ contains_slash (k_WorkspaceID k) = false /\
    s'.2 = if replicator then updateIndexForSet (apiKeyRecordKey (k_WorkspaceID k) (k_ID k)) s.2 else s.2)).
Proof.
  intros Hi Hc. unfold SaveAPIKey. destruct (validAPIKeyStorageID (k_ID k)) eqn:Ev; simpl; [|intros [= <- <-]; eauto].
  destruct (bool_decide _) eqn:Ew; simpl; [intros [= <- <-]; eauto|]. apply bool_decide_eq_false in Ew.
  destruct (contains_slash _) eqn:Es; simpl; [intros [= <- <-]; eauto|].
  intros Hp. destruct (put_cases _ _ _ _ _ _ _ _ Hi Hc Hp) as [Hi' Hm]. split; [done|]. naive_solver.
Qed.

(** ** A key acts on the authority of its owner *)

Lemma owner_holds d id ws role :
  dir_ok d -> ws <> "" -> CheckKeyOwner d id ws role = None -> exists R, holds d id ws R /\ RoleWithin role R = true.
Proof.
  intros Hd Hw. unfold CheckKeyOwner. destruct (users d !! id) as [u|] eqn:Hu; [|done].
  destruct (accounts d !! id) as [rec|]; [|done]. destruct (resolveLocked d _) as [e|v] eqn:Er; [done|].
  destruct (bool_decide _ && _) eqn:Eb; [|done]. apply andb_true_iff in Eb as [Ew Hr]. apply bool_decide_eq_true in Ew.
  intros _. destruct (resolve_holds d Hd _ _ _ _ Hu Er) as [_ Hh]. rewrite Ew in Hh.
  unfold workspaceOrDefault in Hh. rewrite decide_False in Hh by done. eauto.
Qed.

Section owner.
Context (cfgPath cfgEmail cfgPassword : string).
Hypothesis cfgEmail_ok : normalizeEmail cfgEmail <> "".
Hypothesis cfgPassword_ok : cfgPassword <> "".

(** C32: a bearer of an API key acts within what the account that created it
    holds at that moment: the key is a stored record with the hash of the
    token, neither revoked nor expired; its owner is enabled and has, in the
    key's own workspace, a role that covers the key's; and whatever that role
    is, the bearer can neither manage members nor create keys. *)
Theorem api_key_within_owner now0 a s t token now t' use u :
  reached cfgPath cfgEmail cfgPassword now0 a -> kv_inv s.1 ->
  AuthenticateKey (Some (CheckKeyOwner (dir a))) s t token now = (t', use, inr u) ->
  exists id k R, stored_key s (u_Workspace u) id k /\ HashAPIKey token = k_SecretHash k /\ Status k now = "active" /\
    holds (dir a) (k_OwnerID k) (u_Workspace u) R /\ RoleWithin (u_Role u) R = true /\
    (exists why, actorLocked (dir a) (Some u) = inl (ErrForbidden why)) /\
    (forall replicator c io name role expiresAt id' secret,
       CreateKey replicator s c io (Some u) name role expiresAt id' secret now = (s, inl ErrKeyForbidden)).
Proof using All.
  intros Hr Hi. unfold AuthenticateKey. destruct (ParseAPIKey token) as [id|] eqn:Ep; [|done].
  destruct (GetAPIKey s id) as [e|key] eqn:Eg; [done|]. destruct (VerifyAPIKeyHash token _) eqn:Ev; [|done]. cbn [negb].
  case_decide as Hrev; [done|]. destruct (Expired key now) eqn:Ee; [done|]. case_decide as Hro; [done|].
  case_decide as Hch; [done|]. intros [= _ <-]. destruct (GetAPIKey_found _ _ _ Hi Eg) as (ws & k0 & Hk & Ek & _).
  pose proof Hk as (raw & _ & _ & Hid & Hws). apply parse_valid in Ep as [Hlen _].
  apply bool_decide_eq_true in Ev. rewrite Ek in Hrev, Ee, Hro, Hch, Ev |- *. simpl in Hrev, Ee, Hro, Hch, Ev |- *. subst ws.
  destruct (owner_holds (dir a) (k_OwnerID k0) (k_WorkspaceID k0) (k_Role k0)) as (R & Hh & Hw).
  { destruct (reached_inv cfgPath cfgEmail cfgPassword cfgEmail_ok cfgPassword_ok _ _ Hr) as [Hc _ _]. apply Hc. }
  { naive_solver. }
  { destruct (CheckKeyOwner _ _ _ _) eqn:Ec; [|done]. exfalso. apply Hch. eexists. split; [done|]. rewrite Ec. eauto. }
  assert (IsAPIKey (key_user k0) = true) as Hap.
  { apply bool_decide_eq_true. simpl. rewrite Hid. intros ->. done. }
  exists id, k0, R. split; [done|]. split; [done|]. split.
  { unfold Status. destruct (k_RevokedAt k0); [exfalso; apply Hrev; eauto|]. change (Expired k0 now = false) in Ee. by rewrite Ee. }
  split; [done|]. split; [done|]. split.
  - simpl. unfold IsAPIKey in *. simpl in *. rewrite Hap. eauto.
  - intros. unfold CreateKey. simpl. unfold IsAPIKey in *. simpl in *. by rewrite Hap.
Qed.
End owner.

(** ** A new key *)

Lemma no_slash_contains ws : contains_slash ws = false -> no_slash ws.
Proof.
  unfold contains_slash. induction ws as [|a ws IH]; simpl; [done|]. intros Ho%orb_false_iff. destruct Ho as [Ha Hr].
  apply bool_decide_eq_false in Ha. auto.
Qed.

Definition workspaces_listed (x : indexes) : Prop := forall ws, ws ∈ workspaceIndex x -> ws ∈ workspaceOrder x.

Lemma recorded_listed ws x : workspaces_listed x -> ws <> "" -> ws ∈ workspaceOrder (recordWorkspaceLocked ws x).
Proof.
  intros Hl Hw. unfold recordWorkspaceLocked. rewrite decide_False by done. case_decide as Hin; [by apply Hl|].
  simpl. apply elem_of_app. right. by left.
Qed.

Lemma indexed_workspace ws id x :
  no_slash ws -> ws <> "" -> workspaces_listed x -> ws ∈ workspaceOrder (updateIndexForSet (apiKeyRecordKey ws id) x).
Proof.
  intros Hs Hw Hl. unfold updateIndexForSet.
  assert (cut3 (apiKeyRecordKey ws id) = Some (ws, "apikeys", id)) as ->.
  { apply cut3_spec. split; [done|]. split; [done|]. vm_compute. repeat (split; [done|]). done. }
  assert (forall e y, workspaceOrder (set_id e y) = workspaceOrder y) as -> by (by intros [[[??]?]|]).
  by apply recorded_listed.
Qed.

(** Where [GetAPIKey] looks after the key was written. *)
Definition searched (replicator : bool) (s : @store D) (ws : string) : Prop :=
  replicator = true \/ ws ∈ (if decide (workspaceOrder s.2 = []) then ["default"] else workspaceOrder s.2).
#[local] Instance searched_dec replicator s ws : Decision (searched replicator s ws).
Proof. unfold searched. apply _. Defined.

(** The plaintext [CreateKey] returns is good for a request as the key, in
    the creator's workspace and with the role asked for, as long as it has not
    expired and its owner is accepted; except on a single node in a workspace
    the store has not seen: the direct write does not make it known, and the
    key is reported as invalid. *)
Lemma created_key_works replicator s c io creator name role expiresAt id secret now s' k plaintext check t now' :
  kv_inv s.1 -> call_env_ok c -> workspaces_listed s.2 ->
  String.length id = 24%nat -> hex_decodes id = true -> secret <> "" -> (String.length secret <= 128)%nat ->
  (forall ws, kv_map s.1 !! apiKeyRecordKey ws id = None) ->
  CreateKey replicator s c io creator name role expiresAt id secret now = (s', inr (k, plaintext)) ->
  check (k_OwnerID k) (k_WorkspaceID k) (k_Role k) = None -> Expired k now' = false ->
  (AuthenticateKey (Some check) s' t plaintext now').2 =
    if decide (searched replicator s (k_WorkspaceID k)) then inr (key_user k) else inl ErrAPIKeyInvalid.
Proof.
  intros Hi Hc Hx Hlen Hhex Hsec Hmax Hfresh Hcr Hcheck Hexp.
  assert (exists cr, SaveAPIKey replicator s c io k = (s', None) /\ plaintext = GenerateAPIKey id secret /\
    k = MkKey id (TrimSpace name) (workspaceOrDefault (u_Workspace cr)) (u_ID cr) (u_Email cr) role
          (HashAPIKey plaintext) now expiresAt None None "" /\ ValidAPIKeyRole role = true) as (cr & Hsave & -> & Ek & Hrole).
  { unfold CreateKey in Hcr. destruct creator as [cr|]; [|done]. repeat (case_decide; [done|]).
    destruct (IsAPIKey cr); [done|]. repeat (case_decide; [done|]). destruct (ValidAPIKeyRole role) eqn:Ev; [|done].
    cbn [negb] in Hcr. destruct (negb _); [done|]. case_decide; [done|].
    destruct (SaveAPIKey _ _ _ _ _) as [s1 [e|]] eqn:Es; [done|]. injection Hcr as <- <- <-. eauto 10. }
  destruct (save_cases _ _ _ _ _ _ _ Hi Hc Hsave) as [Hi' [[_ [? ?]]|(Hm & _ & Hw & Hns & Hx')]]; [done|].
  assert (k_ID k = id) as Eid by by rewrite Ek.
  assert (stored_key s' (k_WorkspaceID k) id (set_last_used None k)) as Hst.
  { eexists. rewrite Hm, Eid, lookup_insert_eq. split; [done|]. rewrite decode_encode_key. by rewrite <- Eid. }
  assert (forall w, w <> k_WorkspaceID k -> kv_map s'.1 !! apiKeyRecordKey w id = None) as Hoth.
  { intros w Hne. rewrite Hm, Eid, lookup_insert_ne; [done|]. intros [He _]%record_key_inj; congruence. }
  unfold AuthenticateKey. rewrite parse_generated by done. unfold GetAPIKey. rewrite storage_id by done. cbn [negb].
  rewrite (find_key_known _ _ _ _ _ Hi' Hst Hoth).
  assert (k_WorkspaceID k ∈ (if decide (workspaceOrder s'.2 = []) then ["default"] else workspaceOrder s'.2) <->
    searched replicator s (k_WorkspaceID k)) as Hiff.
  { unfold searched. rewrite Hx'. destruct replicator; [|naive_solver]. split; [by left|]. intros _.
    pose proof (indexed_workspace (k_WorkspaceID k) (k_ID k) s.2 (no_slash_contains _ Hns) Hw Hx) as Hin.
    case_decide as Hnil; [|done]. rewrite Hnil in Hin. inversion Hin. }
  destruct (decide (searched _ _ _)) as [Hse|Hse].
  - rewrite decide_True by by apply Hiff. rewrite attach_usage. cbn [set_last_used k_SecretHash k_RevokedAt k_Role k_WorkspaceID].
    replace (VerifyAPIKeyHash _ _) with true by (symmetry; apply bool_decide_eq_true; by rewrite Ek). cbn [negb].
    rewrite decide_False by (rewrite Ek; by intros [? ?]).
    match goal with |- context [Expired ?x now'] => change (Expired x now') with (Expired k now') end. rewrite Hexp.
    rewrite decide_False by (rewrite Ek in *; simpl in *; intros [?|?]; congruence).
    rewrite decide_False; [done|]. intros (ch & [= <-] & Hs). change (is_Some (check (k_OwnerID k) (k_WorkspaceID k) (k_Role k))) in Hs.
    rewrite Hcheck in Hs. by destruct Hs.
  - rewrite decide_False; [done|]. by rewrite Hiff.
Qed.

(** ** Revocation *)

(** What else happens to the store: other keys are created and revoked, uses
    are recorded, of keys as they were read some time ago, other components
    write their own keys, and the store is opened again, which scans the tree
    for workspaces. *)
Inductive key_op :=
| KeyCreate (creator : option User) (name : string) (role : MemberRole) (expiresAt : option Z) (id secret : string)
| KeyRevoke (workspace id revokedBy : string)
| KeyUse (key : APIKey) (at_ : Z)
| KeyOther (key : string) (value : bytes)
| KeyReopen.

Record key_step := MkStep { st_op : key_op; st_now : Z; st_env : call_env; st_io : mutation_io }.

Definition perform_key (replicator : bool) (s : @store D) (e : key_step) : @store D :=
  match st_op e with
  | KeyCreate creator name role expiresAt id secret =>
      (CreateKey replicator s (st_env e) (st_io e) creator name role expiresAt id secret (st_now e)).1
  | KeyRevoke workspace id revokedBy => (RevokeKey replicator s (st_env e) (st_io e) workspace id revokedBy (st_now e)).1
  | KeyUse key at_ => (RecordAPIKeyUse replicator s (st_env e) (st_io e) key at_).1
  | KeyOther key value => (putReplicated replicator s (st_env e) (st_io e) key value).1
  | KeyReopen => (s.1, rebuildIndexes (kv_keys s.1))
  end.

(** IDs of new keys are random; uses are of keys that authenticated. *)
Definition step_ok (id : string) (e : key_step) : Prop :=
  call_env_ok (st_env e) /\
  match st_op e with
  | KeyCreate _ _ _ _ id' _ => id' <> id /\ String.length id' = 24%nat
  | KeyUse key _ => exists token, ParseAPIKey token = Some (k_ID key)
  | KeyOther key _ => forall ws, key <> apiKeyRecordKey ws id
  | _ => True
  end.

(** The records of a key that a token opens are all revoked. *)
Definition burnt (token id : string) (s : @store D) : Prop :=
  forall ws k, stored_key s ws id k -> HashAPIKey token = k_SecretHash k -> is_Some (k_RevokedAt k).

Lemma burnt_put token id s s' key value :
  (kv_map s'.1 = kv_map s.1 \/ kv_map s'.1 = <[key := value]> (kv_map s.1)) ->
  (forall ws, key <> apiKeyRecordKey ws id) -> burnt token id s -> burnt token id s'.
Proof.
  intros Hm Hk Hb ws k (raw & Hr & Hrest). apply (Hb ws). exists raw. split; [|done].
  destruct Hm as [Hm|Hm]; rewrite Hm in Hr; [done|]. by rewrite lookup_insert_ne in Hr.
Qed.

Lemma perform_burnt token id replicator s e :
  String.length id = 24%nat -> step_ok id e -> kv_inv s.1 -> burnt token id s ->
  kv_inv (perform_key replicator s e).1 /\ burnt token id (perform_key replicator s e).
Proof.
  intros Hlen [Hc Hok] Hi Hb. destruct e as [op now c io]. unfold perform_key. simpl in *. destruct op; simpl in *.
  - unfold CreateKey. destruct creator as [cr|]; [|done]. repeat (case_decide; [done|]). destruct (IsAPIKey cr); [done|].
    repeat (case_decide; [done|]). do 2 (destruct (negb _); [done|]). case_decide; [done|].
    destruct (SaveAPIKey _ _ _ _ _) as [s1 err] eqn:Es. destruct (save_cases _ _ _ _ _ _ _ Hi Hc Es) as [Hi' Hm].
    enough (kv_inv s1.1 /\ burnt token id s1) by by destruct err. split; [done|].
    eapply burnt_put; [|intros ws|exact Hb]; [destruct Hm as [[Hm _]|[Hm _]]; [by left|right; exact Hm]|].
    simpl. intros [_ ->]%record_key_inj; [naive_solver|lia].
  - unfold RevokeKey. destruct (GetAPIKey s _) as [[]|key] eqn:Eg; try done. do 2 (case_decide; [done|]).
    destruct (SaveAPIKey _ _ _ _ _) as [s1 err] eqn:Es. destruct (save_cases _ _ _ _ _ _ _ Hi Hc Es) as [Hi' Hm].
    enough (kv_inv s1.1 /\ burnt token id s1) by by destruct err. split; [done|]. intros ws k (raw & Hr & Hd & Hid & Hw) Hh.
    destruct Hm as [[Hm _]|[Hm _]]; rewrite Hm in Hr; [by eapply Hb; [exists raw|]|].
    destruct (decide (apiKeyRecordKey (k_WorkspaceID key) (k_ID key) = apiKeyRecordKey ws id)) as [He|He].
    + simpl in Hr. rewrite He, lookup_insert_eq in Hr. injection Hr as <-. rewrite decode_encode_key in Hd.
      injection Hd as <-. simpl. eauto.
    + rewrite lookup_insert_ne in Hr by done. eapply Hb; [by exists raw|done].
  - unfold RecordAPIKeyUse. destruct (negb _); [done|]. destruct Hok as [tok [Hl _]%parse_valid].
    destruct (putReplicated _ _ _ _ _ _) as [s1 err] eqn:Ep. destruct (put_cases _ _ _ _ _ _ _ _ Hi Hc Ep) as [Hi' Hm].
    split; [done|]. eapply burnt_put; [|intros ws|exact Hb]; [destruct Hm as [[Hm _]|[Hm _]]; [by left|right; exact Hm]|].
    symmetry. apply record_usage_key. lia.
  - destruct (putReplicated _ _ _ _ _ _) as [s1 err] eqn:Ep. destruct (put_cases _ _ _ _ _ _ _ _ Hi Hc Ep) as [Hi' Hm].
    split; [done|]. eapply burnt_put; [|exact Hok|exact Hb]. destruct Hm as [[Hm _]|[Hm _]]; [by left|right; exact Hm].
  - done.
Qed.

Lemma burnt_refused token id s check t now :
  kv_inv s.1 -> ParseAPIKey token = Some id -> burnt token id s ->
  exists err, AuthenticateKey check s t token now = (t, None, inl err) /\ (err = ErrAPIKeyRevoked \/ err = ErrAPIKeyInvalid).
Proof.
  intros Hi Hp Hb. unfold AuthenticateKey. rewrite Hp. destruct (GetAPIKey s id) as [e|key] eqn:Eg; [eauto|].
  destruct (GetAPIKey_found _ _ _ Hi Eg) as (ws & k0 & Hk & Ek & _). destruct (VerifyAPIKeyHash _ _) eqn:Ev; [|eauto].
  cbn [negb]. rewrite decide_True; [eauto|]. rewrite Ek in Ev |- *. simpl in *. apply bool_decide_eq_true in Ev.
  eapply Hb; [exact Hk|exact Ev].
Qed.

(** Once a revocation is acknowledged, the key never authenticates again:
    not after any number of later writes to the store, among them recordings
    of uses of the key that were under way when it was revoked, retried or
    repeated revocations, and restarts. *)
Lemma revoked_key_refused replicator s c io workspace id revokedBy now s1 k token steps check t now' :
  kv_inv s.1 -> call_env_ok c ->
  (forall ws1 ws2 k1 k2, stored_key s ws1 id k1 -> stored_key s ws2 id k2 -> ws1 = ws2) ->
  RevokeKey replicator s c io workspace id revokedBy now = (s1, inr k) ->
  ParseAPIKey token = Some id -> Forall (step_ok id) steps ->
  exists err, AuthenticateKey check (foldl (perform_key replicator) s1 steps) t token now' = (t, None, inl err) /\
    (err = ErrAPIKeyRevoked \/ err = ErrAPIKeyInvalid).
Proof.
  intros Hi Hc Huniq Hrev Hp Hsteps. destruct (parse_valid _ _ Hp) as [Hlen _].
  assert (kv_inv s1.1 /\ burnt token id s1) as [Hi1 Hb1].
  { unfold RevokeKey in Hrev. destruct (GetAPIKey s id) as [[]|key] eqn:Eg; try done.
    destruct (GetAPIKey_found _ _ _ Hi Eg) as (ws & k0 & Hk & Ek & _). pose proof Hk as (_ & _ & _ & Hid & Hws).
    case_decide; [done|]. case_decide as Hr.
    - injection Hrev as <- <-. split; [done|]. intros ws' k' Hk' _. pose proof (Huniq _ _ _ _ Hk Hk') as <-.
      destruct Hk as (raw & Hr1 & Hd1 & _), Hk' as (raw' & Hr2 & Hd2 & _). rewrite Ek in Hr. simpl in Hr. naive_solver.
    - destruct (SaveAPIKey _ _ _ _ _) as [s2 [e|]] eqn:Es; [done|]. injection Hrev as <- <-.
      destruct (save_cases _ _ _ _ _ _ _ Hi Hc Es) as [Hi' [[_ [? ?]]|[Hm _]]]; [done|]. split; [done|].
      assert (k_ID key = id) as Eid by by rewrite Ek. assert (k_WorkspaceID key = ws) as Ews by by rewrite Ek.
      intros ws' k' (raw & Hr' & Hd' & Hid' & Hws') _. rewrite Hm in Hr'. simpl in Hr'. rewrite Eid, Ews in Hr'.
      destruct (decide (ws = ws')) as [<-|Hne].
      + rewrite lookup_insert_eq in Hr'. injection Hr' as <-. rewrite decode_encode_key in Hd'. injection Hd' as <-. simpl. eauto.
      + exfalso. rewrite lookup_insert_ne in Hr' by (intros [? _]%record_key_inj; congruence).
        apply Hne. eapply Huniq; [exact Hk|by exists raw]. }
  clear Hrev. revert s1 Hi1 Hb1. induction Hsteps as [|e steps He _ IH]; intros s1 Hi1 Hb1; simpl.
  - by eapply burnt_refused.
  - destruct (perform_burnt token id replicator s1 e Hlen He Hi1 Hb1). by apply IH.
Qed.
End stored.
