(* ===== verification/AccessExamples.v ===== *)
(** * Shared authentication and API keys on a run

    The deployment of AuthExamples.v continued: its state becomes the value
    the nodes of a cluster share, and one of its members uses API keys; the
    theorems of AuthCluster.v and ApiKeys.v applied to it. *)
From stdpp Require Import base gmap strings list sorting countable.
From Stdlib Require Import ZArith Lia Strings.Byte.
From Stdlib Require Strings.String.
From S2P Require Import Prelude GoStrings Engine Store KeyValue Index Fsm AuthData Auth AuthInv AuthProps AuthExamples AuthCluster ApiKeys.

Open Scope Z_scope.

(** ** A concrete codec of key records *)

(** Fields one after another, each byte marked and each field closed. *)
Definition put_field (f rest : bytes) : bytes := foldr (fun b r => x01 :: b :: r) (x00 :: rest) f.

Fixpoint get_field (b : bytes) : option (bytes * bytes) :=
  match b with
  | x00 :: rest => Some ([], rest)
  | x01 :: c :: rest => '(f, rest) ← get_field rest; Some (c :: f, rest)
  | _ => None
  end.

Lemma get_put_field f rest : get_field (put_field f rest) = Some (f, rest).
Proof. induction f as [|b f IH]; [done|]. cbn [put_field foldr get_field]. unfold put_field in IH. by rewrite IH. Qed.

Definition put_text (s : string) : bytes -> bytes := put_field (String.list_byte_of_string s).
Definition get_text (b : bytes) : option (string * bytes) := '(f, b) ← get_field b; Some (String.string_of_list_byte f, b).
Definition put_time (t : option Z) : bytes -> bytes := put_field (digits (encode t)).
Definition get_time (b : bytes) : option (option Z * bytes) := '(f, b) ← get_field b; p ← undigits f; t ← decode p; Some (t, b).

Lemma get_put_text s rest : get_text (put_text s rest) = Some (s, rest).
Proof. unfold get_text, put_text. rewrite get_put_field. simpl. by rewrite String.string_of_list_byte_of_string. Qed.
Lemma get_put_time t rest : get_time (put_time t rest) = Some (t, rest).
Proof.
  unfold get_time, put_time. rewrite get_put_field. cbn [mbind option_bind]. rewrite undigits_digits. cbn [mbind option_bind].
  by rewrite countable.decode_encode.
Qed.

Definition sample_encode (k : APIKey) : bytes :=
  put_text (k_ID k) (put_text (k_Name k) (put_text (k_WorkspaceID k) (put_text (k_OwnerID k) (put_text (k_OwnerEmail k)
    (put_text (k_Role k) (put_text (k_SecretHash k) (put_time (Some (k_CreatedAt k)) (put_time (k_ExpiresAt k)
    (put_time (k_LastUsedAt k) (put_time (k_RevokedAt k) (put_text (k_RevokedBy k) []))))))))))).

Definition sample_decode (b : bytes) : option APIKey :=
  '(i, b) ← get_text b; '(n, b) ← get_text b; '(w, b) ← get_text b; '(o, b) ← get_text b; '(e, b) ← get_text b;
  '(r, b) ← get_text b; '(h, b) ← get_text b; '(c, b) ← get_time b; '(x, b) ← get_time b; '(l, b) ← get_time b;
  '(v, b) ← get_time b; '(y, b) ← get_text b; c ← c; Some (MkKey i n w o e r h c x l v y).

#[export] Instance sample_keys : KeyCodec.
Proof.
  refine {| encode_key := sample_encode; decode_key := sample_decode;
            encode_time t := digits (encode t); decode_time b := p ← undigits b; decode p |}.
  intros k. unfold sample_encode, sample_decode.
  repeat first [rewrite get_put_text|rewrite get_put_time|progress cbn [mbind option_bind]]. by destruct k.
Defined.

Definition key_id : string := "0123456789abcdef01234567".
Definition key_token : string := GenerateAPIKey key_id "s3cret".
Definition key_bob : User := MkUser "id-bob" "bob@example.com" "Bob" RoleEditor "default" 0 "" false.
Definition key_call : call_env := CallEnv (fun _ => sample_env) sample_env.

Lemma key_call_ok : call_env_ok key_call.
Proof. by repeat split. Qed.

Definition empty_store : @store (gmap string bytes) := (∅, no_indexes).
Definition create_key (name : string) (ws : string) (s : @store (gmap string bytes)) :=
  CreateKey false s key_call MutationDone (Some (set_workspace ws key_bob)) name RoleEditor (Some (5000 * second)) key_id "s3cret"
    (1040 * second).
Definition with_key : @store (gmap string bytes) := (create_key "ci" "default" empty_store).1.
Definition bob_key : APIKey :=
  MkKey key_id "ci" "default" "id-bob" "bob@example.com" RoleEditor (HashAPIKey key_token) (1040 * second) (Some (5000 * second))
    None None "".

Lemma api_key_within_owner_witness :
  exists id k R, stored_key with_key "default" id k /\ HashAPIKey key_token = k_SecretHash k /\ Status k (1050 * second) = "active" /\
    holds (dir state2) (k_OwnerID k) "default" R /\ RoleWithin RoleEditor R = true /\
    (exists why, actorLocked (dir state2) (Some (key_user bob_key)) = inl (ErrForbidden why)) /\
    (forall replicator c io name role expiresAt id' secret,
       CreateKey replicator with_key c io (Some (key_user bob_key)) name role expiresAt id' secret (1050 * second) =
         (with_key, inl ErrKeyForbidden)).
Proof.
  apply (api_key_within_owner path email password email_ok password_ok (1033 * second) state2 with_key ∅ key_token (1050 * second)
    {[key_id := 1050 * second]} (Some (bob_key, 1050 * second)) (key_user bob_key)).
  - exact reached2.
  - exact I.
  - vm_compute; reflexivity.
Defined.

Lemma created_key_works_witness :
  (AuthenticateKey (Some (CheckKeyOwner (dir state2))) with_key ∅ key_token (1050 * second)).2 = inr (key_user bob_key).
Proof.
  rewrite (created_key_works false empty_store key_call MutationDone (Some key_bob) "ci" RoleEditor (Some (5000 * second)) key_id
    "s3cret" (1040 * second) with_key bob_key key_token (CheckKeyOwner (dir state2)) ∅ (1050 * second)).
  - vm_compute; reflexivity.
  - exact I.
  - exact key_call_ok.
  - intros ws Hw. exfalso. by apply not_elem_of_empty in Hw.
  - vm_compute; reflexivity.
  - vm_compute; reflexivity.
  - done.
  - vm_compute; lia.
  - intros ws. exact (lookup_empty (M := gmap string) _).
  - vm_compute; reflexivity.
  - vm_compute; reflexivity.
  - vm_compute; reflexivity.
Defined.

(** A single node that knows another workspace only: the new key is neither
    accepted nor found for revocation. *)
Definition acme_store : @store (gmap string bytes) := (∅, recordWorkspaceLocked "default" no_indexes).
Definition with_acme_key : @store (gmap string bytes) := (create_key "ci" "acme" acme_store).1.

Lemma key_in_new_workspace_unusable :
  (create_key "ci" "acme" acme_store).2 = inr (MkKey key_id "ci" "acme" "id-bob" "bob@example.com" RoleEditor (HashAPIKey key_token)
    (1040 * second) (Some (5000 * second)) None None "", key_token) /\
  (AuthenticateKey None with_acme_key ∅ key_token (1050 * second)).2 = inl ErrAPIKeyInvalid /\
  (RevokeKey false with_acme_key key_call MutationDone "acme" key_id "id-bob" (1060 * second)).2 = inl (ErrKeyNotFound key_id) /\
  (AuthenticateKey None (perform_key false with_acme_key (MkStep KeyReopen (1070 * second) key_call MutationDone)) ∅ key_token
    (1080 * second)).2 <> inl ErrAPIKeyInvalid.
Proof. split; [vm_compute; reflexivity|]. split; [vm_compute; reflexivity|]. split; [vm_compute; reflexivity|vm_compute; discriminate]. Qed.

(** A use that was under way, another key and a restart after the key was
    revoked. *)
Definition revoked_store : @store (gmap string bytes) :=
  (RevokeKey false with_key key_call MutationDone "default" key_id "id-admin" (1060 * second)).1.
Definition aftermath : list key_step :=
  [MkStep (KeyUse bob_key (1059 * second)) (1061 * second) key_call MutationDone;
   MkStep (KeyCreate (Some key_bob) "other" RoleViewer None "ffffffffffffffffffffffff" "t0ken") (1062 * second) key_call MutationDone;
   MkStep KeyReopen (1063 * second) key_call MutationDone].

Lemma revoked_key_refused_witness :
  exists err, AuthenticateKey (Some (CheckKeyOwner (dir state2))) (foldl (perform_key false) revoked_store aftermath) ∅ key_token
    (1070 * second) = (∅, None, inl err) /\ (err = ErrAPIKeyRevoked \/ err = ErrAPIKeyInvalid).
Proof.
  apply (revoked_key_refused false with_key key_call MutationDone "default" key_id "id-admin" (1060 * second) revoked_store
    (set_revoked (1060 * second) "id-admin" bob_key) key_token).
  - exact I.
  - exact key_call_ok.
  - intros ws1 ws2 k1 k2 (raw1 & H1 & _) (raw2 & H2 & _).
    assert (with_key.1 = {[apiKeyRecordKey "default" key_id := encode_key bob_key]}) as Ek by (vm_compute; reflexivity).
    cbn [kv_map map_kv_ok] in H1, H2. rewrite Ek in H1, H2. apply lookup_singleton_Some in H1 as [H1 _], H2 as [H2 _].
    rewrite H1 in H2. by apply record_key_inj in H2 as [-> _].
  - vm_compute; reflexivity.
  - vm_compute; reflexivity.
  - repeat constructor; try exact key_call_ok; try done. by exists key_token; vm_compute.
Defined.

(** ** A cluster *)

#[local] Instance User_eq_dec : EqDecision User.
Proof. solve_decision. Defined.
#[local] Instance session_eq_dec : EqDecision session.
Proof. solve_decision. Defined.
#[local] Instance resetToken_eq_dec : EqDecision resetToken.
Proof. solve_decision. Defined.
#[local] Instance loginAttempt_eq_dec : EqDecision loginAttempt.
Proof. solve_decision. Defined.
#[local] Instance accountRecord_eq_dec : EqDecision accountRecord.
Proof. solve_decision. Defined.
#[local] Instance invitationRecord_eq_dec : EqDecision invitationRecord.
Proof. solve_decision. Defined.
#[local] Instance sessionData_eq_dec : EqDecision sessionData.
Proof. solve_decision. Defined.

#[export] Instance sample_cluster : ClusterEnv :=
  {| raw_length sd := 100 * Z.of_nat (size (sd_Users (sd : sessionData)));
     raw_eq_dec := sessionData_eq_dec : EqDecision (@auth_file sample_auth) |}.

Definition no_data : sessionData := MkSessionData ∅ ∅ ∅ ∅ ∅ ∅ "" "" "" ∅ ∅.
Definition member0 : ClusterAuthenticator :=
  default (MkClusterAuth fallback (encode_file no_data) 0) (NewClusterAuthenticator state2 (1033 * second)).

(** Another node signs the administrator out; it loses nothing to this node,
    which signs its own user out at the same time. *)
Definition rival : ClusterAuthChange :=
  MkSharedChange 1 "w-rival" (default (encode_file no_data)
    (snapshotClusterAuth (Logout state2 "t-admin" SaveOk).1 (1040 * second))).
Definition retries : list (list cas_inputs * cas_inputs) :=
  [([MkCas "w-0" [] [] CommitDone], MkCas "w-1" [rival] [] CommitDone); ([], MkCas "w-2" [] [] CommitDone)].
Definition sign_out (a : LocalAuthenticator) := Logout a "t-bob" SaveOk.
Definition outcome := mutate sign_out (1040 * second) member0 None retries.

Lemma rival_inputs id before io : before ⊆ [rival] -> id <> "w-rival" -> inputs_ok [rival] (MkCas id before [] io).
Proof.
  intros Hb Hid. split; [exact Hb|]. split; [apply list_subseteq_nil|]. constructor; [|constructor].
  intros He. exact (Hid (eq_sym He)).
Qed.

Lemma triple_eta {A B C} (x : A * B * C) : x = (x.1.1, x.1.2, x.2).
Proof. by destruct x as [[]]. Qed.

Lemma both_signed_out :
  outcome.2 = inr None /\
  (exists st, outcome.1.2 = Some st /\ cs_Revision st = 3 /\
     fmap (fun sd => map fst (map_to_list (sd_Tokens sd))) (decode_file (cs_Data st)) = Some []).
Proof. split; [vm_compute; reflexivity|]. eexists. split; [vm_compute; reflexivity|]. split; vm_compute; reflexivity. Qed.

Lemma cluster_mutation_atomic_witness :
  exists env st l0 l l', Forall (external [rival] (ca_seed member0)) env /\ apply_all None env = Some st /\
    importClusterAuth l0 (cs_Data st) = Some l /\ sign_out l = (l', None) /\
    ((snapshotClusterAuth l' (1040 * second) = snapshotClusterAuth l (1040 * second) /\ outcome.1.2 = Some st) \/
     (exists id raw st' behind, snapshotClusterAuth l' (1040 * second) = Some raw /\
        BuildClusterAuthState (Some st) (MkSharedChange (cs_Revision st) id raw) = inr (Some st') /\
        Forall (external [rival] (ca_seed member0)) behind /\ outcome.1.2 = apply_all (Some st') behind)).
Proof.
  apply (cluster_mutation_atomic [rival] (ca_seed member0) sign_out (1040 * second) member0 None retries outcome.1.1).
  - rewrite <- (proj1 both_signed_out). exact (triple_eta outcome).
  - reflexivity.
  - exact I.
  - split; [intros _; vm_compute; reflexivity|intros st [=]].
  - constructor; [split; [constructor; [|constructor]|]|constructor; [split; [constructor|]|constructor]];
      apply rival_inputs; solve [discriminate|apply list_subseteq_nil|reflexivity].
  - apply (bool_decide_unpack _). vm_compute; reflexivity.
  - apply (bool_decide_unpack _). vm_compute; reflexivity.
Defined.
