(* ===== verification/Ssrf.v ===== *)
(** * Which addresses probes may reach

    src/internal/probe/ssrf.go: the policy that keeps checks and alert
    channels away from local, metadata and reserved addresses, in whatever
    form they are written and whatever the name server answers. An address is
    the list of its bytes, as in package net; the parsers of addresses,
    networks and host:port pairs are those of the standard library. [url.Parse]
    and the name server are parameters. *)
From stdpp Require Import base strings list gmap.
From Stdlib Require Import ZArith Lia Strings.Ascii.
From Stdlib Require Strings.String.
From S2P Require Import Prelude GoStrings.

Open Scope Z_scope.

(** ** Addresses *)

Abbreviation IP := (list Z).

Definition octet (s : string) : option Z :=
  match ParseUint s 10 32 with
  | Some v =>
      if decide (255 < v) then None else
      match s with
      | String.String c (String.String _ _) => if decide (c = "0"%char) then None else Some v
      | _ => Some v
      end
  | None => None
  end.

(** [parseIPv4Fields] of net/netip. *)
Definition parseIPv4Fields (s : string) : option (list Z) :=
  match split_at "."%char s with
  | [a; b; c; d] => a ← octet a; b ← octet b; c ← octet c; d ← octet d; Some [a; b; c; d]
  | _ => None
  end.

Definition hex_value (c : ascii) : option Z := digit_value 16 c.

(** The hexadecimal digits in front, at most four of them. *)
Fixpoint hex_group (s : string) (n : nat) (acc : Z) : option (nat * Z * string) :=
  match s with
  | EmptyString => Some (n, acc, s)
  | String.String c rest =>
      match hex_value c with
      | None => Some (n, acc, s)
      | Some v => if decide (3 < n)%nat then None else hex_group rest (S n) (16 * acc + v)
      end
  end.

(** The groups of an IPv6 address from byte [length bs] on: the bytes and the
    position of the ellipsis. *)
Fixpoint ipv6_groups (fuel : nat) (s : string) (bs : list Z) (ellipsis : option nat) : option (list Z * option nat) :=
  match fuel with
  | O => match s with EmptyString => Some (bs, ellipsis) | _ => None end
  | S fuel =>
      match hex_group s 0 0 with
      | None => None
      | Some (O, _, _) => None
      | Some (_, acc, rest) =>
          match rest with
          | String.String "."%char _ =>
              if decide (ellipsis = None /\ length bs <> 12%nat) then None else
              if decide (16 < length bs + 4)%nat then None else
              v4 ← parseIPv4Fields s; Some (bs ++ v4, ellipsis)
          | EmptyString => Some (bs ++ [acc / 256; acc mod 256], ellipsis)
          | String.String ":"%char rest =>
              let bs := bs ++ [acc / 256; acc mod 256] in
              match rest with
              | EmptyString => None
              | String.String ":"%char rest =>
                  match ellipsis with
                  | Some _ => None
                  | None =>
                      match rest with
                      | EmptyString => Some (bs, Some (length bs))
                      | _ => ipv6_groups fuel rest bs (Some (length bs))
                      end
                  end
              | _ => ipv6_groups fuel rest bs ellipsis
              end
          | _ => None
          end
      end
  end.

Definition expand (bs : list Z) (ellipsis : option nat) : option (list Z) :=
  match ellipsis with
  | None => if decide (length bs = 16)%nat then Some bs else None
  | Some e => if decide (length bs < 16)%nat then Some (take e bs ++ replicate (16 - length bs) 0 ++ drop e bs) else None
  end.

Definition parseIPv6 (s : string) : option (list Z) :=
  '(bs, e) ← match s with
             | String.String ":"%char (String.String ":"%char rest) =>
                 match rest with EmptyString => Some ([], Some O) | _ => ipv6_groups 8 rest [] (Some O) end
             | _ => ipv6_groups 8 s [] None
             end;
  expand bs e.

(** Which of the two it is, by the first dot, colon or percent sign. *)
Fixpoint address_kind (s : string) : option ascii :=
  match s with
  | EmptyString => None
  | String.String c s => if decide (c = "."%char \/ c = ":"%char \/ c = "%"%char) then Some c else address_kind s
  end.

(** [netip.ParseAddr] without zones: four or sixteen bytes. *)
Definition ParseAddr (s : string) : option (list Z) :=
  match address_kind s with
  | Some "."%char => parseIPv4Fields s
  | Some ":"%char => if decide ("%"%char ∈ String.list_ascii_of_string s) then None else parseIPv6 s
  | _ => None
  end.

Definition v4InV6Prefix : list Z := [0; 0; 0; 0; 0; 0; 0; 0; 0; 0; 255; 255].
Definition IPv4 (a b c d : Z) : IP := v4InV6Prefix ++ [a; b; c; d].

Definition As16 (bs : list Z) : IP := if decide (length bs = 4)%nat then v4InV6Prefix ++ bs else bs.

(** [net.ParseIP]: always sixteen bytes. *)
Definition ParseIP (s : string) : option IP := As16 <$> ParseAddr s.

Definition To4 (ip : IP) : option IP :=
  if decide (length ip = 4)%nat then Some ip else
  if decide (length ip = 16%nat /\ take 12 ip = v4InV6Prefix) then Some (drop 12 ip) else None.

Definition normal (ip : IP) : IP := default ip (To4 ip).

(** ** Networks *)

Record IPNet := MkNet { net_IP : IP; net_Mask : list Z }.

(** [net.CIDRMask]. *)
Definition mask_byte (ones : nat) : Z := 255 - (2 ^ Z.of_nat (8 - Nat.min 8 ones) - 1).
Fixpoint CIDRMask (ones : nat) (bytes : nat) : list Z :=
  match bytes with O => [] | S n => mask_byte ones :: CIDRMask (ones - 8) n end.

Definition masked (ip mask : list Z) : list Z := zip_with Z.land ip mask.

Definition ParseCIDR (s : string) : option IPNet :=
  '(a, m) ← cut_at "/"%char s;
  bs ← ParseAddr a;
  n ← ParseUint m 10 32;
  if decide (8 * Z.of_nat (length bs) < n) then None else
  let mask := CIDRMask (Z.to_nat n) (length bs) in
  Some (MkNet (masked bs mask) mask).

(** [IPNet.Contains]: network and address in their short forms. *)
Definition Contains (n : IPNet) (ip : IP) : bool :=
  let nn := normal (net_IP n) in
  let m := if decide (length nn = 4%nat /\ length (net_Mask n) = 16%nat) then drop 12 (net_Mask n) else net_Mask n in
  let x := normal ip in
  bool_decide (length m = length nn /\ length x = length nn /\ masked nn m = masked x m).

(** ** The policy *)

Definition hardBlockedCIDRs : list string :=
  ["0.0.0.0/8"; "169.254.0.0/16"; "100.100.100.200/32"; "224.0.0.0/4"; "240.0.0.0/4"; "255.255.255.255/32"; "::/128";
   "fe80::/10"; "ff00::/8"; "fd00:ec2::254/128"; "64:ff9b:1::/48"; "2001::/32"].
Definition privateCIDRs : list string :=
  ["10.0.0.0/8"; "172.16.0.0/12"; "192.168.0.0/16"; "127.0.0.0/8"; "100.64.0.0/10"; "192.0.0.0/24"; "192.0.2.0/24";
   "198.18.0.0/15"; "198.51.100.0/24"; "203.0.113.0/24"; "fc00::/7"; "::1/128"; "2001:db8::/32"].

Definition mustParseCIDRs (cidrs : list string) : list IPNet := omap ParseCIDR cidrs.

Definition hardBlockedNetworks : list IPNet := Eval vm_compute in mustParseCIDRs hardBlockedCIDRs.
Definition privateNetworks : list IPNet := Eval vm_compute in mustParseCIDRs privateCIDRs.
Definition no_network : IPNet := MkNet [] [].
Definition nat64Network : IPNet := Eval vm_compute in default no_network (ParseCIDR "64:ff9b::/96").
Definition sixToFourNetwork : IPNet := Eval vm_compute in default no_network (ParseCIDR "2002::/16").
Definition ipv4CompatNet : IPNet := Eval vm_compute in default no_network (ParseCIDR "::/96").

Definition blockedHosts : list string :=
  ["169.254.169.254"; "169.254.170.2"; "169.254.170.254"; "metadata.google.internal"; "metadata.google.internal."; "169.254.169.254";
   "169.254.169.254"; "169.254.169.250"; "169.254.169.251"; "169.254.169.254"; "100.100.100.200"; "169.254.169.254"; "169.254.169.254"].

Record SSRFValidator := MkValidator {
  AllowPrivate : bool;
  AllowedNetworks : list IPNet;
  BlockedHosts : list string;
}.

Definition isHardBlockedIP (ip : IP) : bool := existsb (fun n => Contains n ip) hardBlockedNetworks.

Definition byte_at (ip : IP) (i : nat) : Z := default 0 (ip !! i).

Definition IPv6unspecified : IP := replicate 16 0.
Definition IPv6loopback : IP := replicate 15 0 ++ [1].

(** Addresses passed here are in short form. *)
Definition embeddedIPv4 (ip : IP) : option IP :=
  if decide (length ip <> 16)%nat then None else
  if Contains nat64Network ip then Some [byte_at ip 12; byte_at ip 13; byte_at ip 14; byte_at ip 15] else
  if Contains sixToFourNetwork ip then Some [byte_at ip 2; byte_at ip 3; byte_at ip 4; byte_at ip 5] else
  if Contains ipv4CompatNet ip then
    if decide (ip = IPv6unspecified \/ ip = IPv6loopback) then None
    else Some [byte_at ip 12; byte_at ip 13; byte_at ip 14; byte_at ip 15]
  else None.

(** An embedded address has four bytes and embeds nothing, so the recursive
    call of [isBlockedIP] is the last one. *)
Definition isBlockedIP_short (v : SSRFValidator) (ip : IP) : bool :=
  if isHardBlockedIP ip then true else
  if existsb (fun n => Contains n ip) (AllowedNetworks v) then false else
  if existsb (fun n => Contains n ip) privateNetworks then negb (AllowPrivate v) else false.

Definition isBlockedIP (v : SSRFValidator) (ip : option IP) : bool :=
  match ip with
  | None => true
  | Some ip =>
      let ip := normal ip in
      match embeddedIPv4 ip with
      | None => isBlockedIP_short v ip
      | Some e =>
          if isHardBlockedIP ip || isHardBlockedIP e then true else
          if existsb (fun n => Contains n ip) (AllowedNetworks v) then false else
          isBlockedIP_short v e
      end
  end.

(** ** Hosts *)

Definition to_lower (s : string) : string :=
  String.string_of_list_ascii
    ((fun c => if decide (65 <= code c <= 90)%N then ascii_of_N (code c + 32) else c) <$> String.list_ascii_of_string s).

Definition isBlockedHost (v : SSRFValidator) (host : string) : bool :=
  let host := to_lower host in
  existsb (fun b => String.eqb host (to_lower b)) (blockedHosts ++ BlockedHosts v).

(** The bytes of a 32-bit number, [net.IPv4(byte(parsed>>24&0xff), ...)]. *)
Definition ip_of_number (n : Z) : IP :=
  IPv4 (Z.land (Z.shiftr n 24) 255) (Z.land (Z.shiftr n 16) 255) (Z.land (Z.shiftr n 8) 255) (Z.land n 255).

Definition hex_literal (host : string) : option Z :=
  match host with
  | String.String "0"%char (String.String x rest) =>
      if decide ((x = "x"%char \/ x = "X"%char) /\ rest <> "") then ParseUint rest 16 32 else None
  | _ => None
  end.

Definition parseIP (host : string) : option IP :=
  match ParseIP host with
  | Some ip => Some ip
  | None =>
      match ParseUint host 10 32 with
      | Some n => Some (ip_of_number n)
      | None =>
          match hex_literal host with
          | Some n => Some (ip_of_number n)
          | None =>
              match ParseUint host 8 32 with
              | Some n => if decide ("."%char ∈ String.list_ascii_of_string host) then None else Some (ip_of_number n)
              | None => None
              end
          end
      end
  end.

(** [net.SplitHostPort]. *)
Definition has_byte (c : ascii) (s : string) : bool := bool_decide (c ∈ String.list_ascii_of_string s).
Definition slice (s : string) (i j : nat) : string := String.substring i (j - i) s.

Fixpoint index_byte (c : ascii) (s : string) : option nat :=
  match s with
  | EmptyString => None
  | String.String a s => if decide (a = c) then Some O else S <$> index_byte c s
  end.

Definition SplitHostPort (hostport : string) : option (string * string) :=
  let n := String.length hostport in
  match last_index ":"%char hostport with
  | None => None
  | Some i =>
      let finish host j k :=
        if has_byte "["%char (slice hostport j n) || has_byte "]"%char (slice hostport k n) then None
        else Some (host, slice hostport (S i) n) in
      match hostport with
      | String.String "["%char _ =>
          match index_byte "]"%char hostport with
          | None => None
          | Some end_ => if decide (S end_ = i) then finish (slice hostport 1 end_) 1%nat (S end_) else None
          end
      | _ =>
          let host := slice hostport 0 i in
          if has_byte ":"%char host then None else finish host O O
      end
  end.

Inductive ssrf_error :=
| ErrEmptyTarget | ErrBadURL | ErrScheme | ErrNoHost | ErrBlockedHost | ErrBlockedIP (ip : IP) | ErrResolve
| ErrResolvesBlocked (addr : string) | ErrUnparseable (addr : string) | ErrNoAddresses.

Section validator.
Context (v : SSRFValidator) (url_parse : string -> option (string * string)) (LookupHost : string -> option (list string)).

(** The check of a host that is no literal: answers that do not parse are let
    through here. *)
Fixpoint check_answers (addrs : list string) : option ssrf_error :=
  match addrs with
  | [] => None
  | addr :: addrs =>
      match ParseIP addr with
      | Some ip => if isBlockedIP v (Some ip) then Some (ErrResolvesBlocked addr) else check_answers addrs
      | None => check_answers addrs
      end
  end.

Definition validate_host (host : string) : option ssrf_error :=
  if isBlockedHost v host then Some ErrBlockedHost else
  match parseIP host with
  | Some ip => if isBlockedIP v (Some ip) then Some (ErrBlockedIP ip) else None
  | None =>
      match LookupHost host with
      | None => Some ErrResolve
      | Some addrs => check_answers addrs
      end
  end.

Definition ValidateTarget (target : string) : option ssrf_error :=
  if decide (target = "") then Some ErrEmptyTarget else
  match url_parse target with
  | None => Some ErrBadURL
  | Some (scheme, host) =>
      if decide (scheme ∈ ["http"; "https"; "ws"; "wss"]) then
        if decide (host = "") then Some ErrNoHost else validate_host host
      else Some ErrScheme
  end.

Definition ValidateAddress (address : string) : option ssrf_error :=
  if decide (address = "") then Some ErrEmptyTarget else
  validate_host (match SplitHostPort address with Some (host, _) => host | None => address end).

(** What is handed to the dialer: an address as bytes, printed as a literal,
    or the text as it came. *)
Inductive dialled := DialIP (ip : IP) (port : option string) | DialText (addr : string).

(** All answers are checked, and the first one is dialled. *)
Fixpoint pin (addrs : list string) (pinned : option IP) : ssrf_error + IP :=
  match addrs with
  | [] => match pinned with Some ip => inr ip | None => inl ErrNoAddresses end
  | addr :: addrs =>
      match parseIP addr with
      | None => inl (ErrUnparseable addr)
      | Some ip =>
          if isBlockedIP v (Some ip) then inl (ErrResolvesBlocked addr)
          else pin addrs (match pinned with Some p => Some p | None => Some ip end)
      end
  end.

Definition split_addr (addr : string) : string * option string :=
  match SplitHostPort addr with Some (host, port) => (host, Some port) | None => (addr, None) end.

Definition resolve_and_pin (host : string) (port : option string) : ssrf_error + dialled :=
  match LookupHost host with
  | None => inl ErrResolve
  | Some addrs => match pin addrs None with inl err => inl err | inr ip => inr (DialIP ip port) end
  end.

Definition WrapDialer (addr : string) : ssrf_error + dialled :=
  let '(host, port) := split_addr addr in
  match parseIP host with
  | Some ip => if isBlockedIP v (Some ip) then inl (ErrBlockedIP ip) else inr (DialText addr)
  | None => resolve_and_pin host port
  end.

Definition WrapDialerContext (addr : string) : ssrf_error + dialled :=
  let '(host, port) := split_addr addr in
  match parseIP host with
  | Some ip => if isBlockedIP v (Some ip) then inl (ErrBlockedIP ip) else inr (DialIP ip port)
  | None => resolve_and_pin host port
  end.
End validator.

(** [privateHint] is not empty. *)
Definition privateHint (ip : IP) : bool :=
  let ip := normal ip in
  let embedded := embeddedIPv4 ip in
  if isHardBlockedIP ip || match embedded with Some e => isHardBlockedIP e | None => false end then false else
  existsb (fun n => Contains n (default ip embedded)) privateNetworks.

(** [ConfigureDefaultValidator]; the environment variable is an argument. *)
Fixpoint parse_allowed (cidrs : list string) : option (list IPNet) :=
  match cidrs with
  | [] => Some []
  | c :: cidrs => n ← ParseCIDR (TrimSpace c); l ← parse_allowed cidrs; Some (n :: l)
  end.

Definition ConfigureDefaultValidator (env allowPrivate : bool) (allowedCIDRs : list string) : option SSRFValidator :=
  l ← parse_allowed allowedCIDRs; Some (MkValidator (env || allowPrivate) l []).

(** ** A network is a prefix *)

Definition is_byte (z : Z) : Prop := 0 <= z < 256.

(** The number that the bytes spell, most significant first. *)
Definition be_value (bs : list Z) : Z := fold_left (fun acc b => 256 * acc + b) bs 0.

Lemma fold_value bs acc :
  fold_left (fun acc b => 256 * acc + b) bs acc = acc * 256 ^ Z.of_nat (length bs) + be_value bs.
Proof.
  unfold be_value. revert acc. induction bs as [|b bs IH]; intros acc; cbn [fold_left length]; [lia |].
  rewrite IH, (IH (256 * 0 + b)), Nat2Z.inj_succ, Z.pow_succ_r by lia. lia.
Qed.

Lemma be_value_cons b bs : be_value (b :: bs) = b * 256 ^ Z.of_nat (length bs) + be_value bs.
Proof. unfold be_value at 1. cbn [fold_left]. rewrite fold_value. lia. Qed.

Lemma be_value_bound bs : Forall is_byte bs -> 0 <= be_value bs < 256 ^ Z.of_nat (length bs).
Proof.
  unfold is_byte. induction 1 as [|b bs Hb _ IH]; [cbn; lia |].
  rewrite be_value_cons. cbn [length]. rewrite Nat2Z.inj_succ, Z.pow_succ_r by lia. nia.
Qed.

Lemma mask_byte_spec ones x : is_byte x -> Z.land x (mask_byte ones) = x / 2 ^ Z.of_nat (8 - ones) * 2 ^ Z.of_nat (8 - ones).
Proof.
  intros Hx. unfold mask_byte. replace (8 - Nat.min 8 ones)%nat with (8 - ones)%nat by lia.
  set (k := Z.of_nat (8 - ones)). assert (0 <= k <= 8) by lia.
  rewrite <- Z.shiftr_div_pow2, <- Z.shiftl_mul_pow2 by lia.
  replace (255 - (2 ^ k - 1)) with (Z.shiftl (Z.ones (8 - k)) k).
  2:{ rewrite Z.shiftl_mul_pow2, Z.ones_equiv by lia. replace (Z.pred (2 ^ (8 - k)) * 2 ^ k) with (2 ^ (8 - k) * 2 ^ k - 2 ^ k) by lia.
      rewrite <- Z.pow_add_r by lia. replace (8 - k + k) with 8 by lia. lia. }
  apply Z.bits_inj'. intros n Hn. rewrite Z.land_spec, !Z.shiftl_spec by lia.
  destruct (Z.lt_ge_cases n k) as [?|?]; [rewrite !(Z.testbit_neg_r _ (n - k)) by lia; by rewrite andb_false_r |].
  rewrite Z.shiftr_spec by lia. replace (n - k + k) with n by lia.
  destruct (Z.lt_ge_cases n 8) as [?|?]; [rewrite Z.ones_spec_low by lia; by rewrite andb_true_r |].
  rewrite Z.ones_spec_high by lia. rewrite andb_false_r. symmetry.
  destruct (decide (x = 0)) as [->|]; [apply Z.testbit_0_l |].
  apply Z.bits_above_log2; [apply Hx |]. apply Z.log2_lt_pow2; [unfold is_byte in Hx; lia |].
  apply Z.lt_le_trans with (2 ^ 8); [apply Hx | apply Z.pow_le_mono_r; lia].
Qed.

Lemma pow_pos k : 0 < 2 ^ Z.of_nat k.
Proof. apply Z.pow_pos_nonneg; lia. Qed.

Lemma mask_byte_eq ones x y : is_byte x -> is_byte y ->
  Z.land x (mask_byte ones) = Z.land y (mask_byte ones) <-> x / 2 ^ Z.of_nat (8 - ones) = y / 2 ^ Z.of_nat (8 - ones).
Proof. intros Hx Hy. rewrite !mask_byte_spec by done. pose proof (pow_pos (8 - ones)). nia. Qed.

(** Nothing is left of the last bytes when the mask has ended. *)
Lemma masked_zero bs n : length bs = n -> Forall is_byte bs -> masked bs (CIDRMask 0 n) = replicate n 0.
Proof.
  intros <-. unfold masked. induction 1 as [|b bs Hb _ IH]; [done |]. cbn [length CIDRMask zip_with replicate].
  rewrite (mask_byte_spec 0) by done. change (2 ^ Z.of_nat (8 - 0)) with 256. rewrite Z.div_small by exact Hb. f_equal. exact IH.
Qed.

Lemma pow256 n : 256 ^ Z.of_nat n = 2 ^ Z.of_nat (8 * n).
Proof. rewrite Nat2Z.inj_mul, Z.pow_mul_r by lia. done. Qed.

Lemma prefix_head ones n x r : (ones <= 8)%nat -> 0 <= r < 256 ^ Z.of_nat n ->
  (x * 256 ^ Z.of_nat n + r) / 2 ^ Z.of_nat (8 * S n - ones) = x / 2 ^ Z.of_nat (8 - ones).
Proof.
  intros Ho Hr. replace (8 * S n - ones)%nat with (8 * n + (8 - ones))%nat by lia.
  rewrite Nat2Z.inj_add, Z.pow_add_r, <- pow256 by lia. rewrite <- Z.div_div by (try apply Z.pow_nonzero; try apply pow_pos; lia).
  rewrite Z.div_add_l, (Z.div_small r) by lia. f_equal. lia.
Qed.

Lemma prefix_tail ones n x y r s : (8 <= ones <= 8 * S n)%nat -> is_byte x -> is_byte y ->
  0 <= r < 256 ^ Z.of_nat n -> 0 <= s < 256 ^ Z.of_nat n ->
  (x * 256 ^ Z.of_nat n + r) / 2 ^ Z.of_nat (8 * S n - ones) = (y * 256 ^ Z.of_nat n + s) / 2 ^ Z.of_nat (8 * S n - ones)
  <-> x = y /\ r / 2 ^ Z.of_nat (8 * n - (ones - 8)) = s / 2 ^ Z.of_nat (8 * n - (ones - 8)).
Proof.
  intros Ho Hx Hy Hr Hs. replace (8 * S n - ones)%nat with (8 * n - (ones - 8))%nat by lia.
  set (j := (8 * n - (ones - 8))%nat). rewrite !pow256 in *. replace (8 * n)%nat with ((8 * n - j) + j)%nat in * by lia.
  rewrite Nat2Z.inj_add, Z.pow_add_r in * by lia. pose proof (pow_pos j) as Hj. pose proof (pow_pos (8 * n - j)) as Hh.
  set (J := 2 ^ Z.of_nat j) in *. set (H := 2 ^ Z.of_nat (8 * n - j)) in *.
  assert (0 <= r / J < H) by (split; [apply Z.div_pos; lia | apply Z.div_lt_upper_bound; lia]).
  assert (0 <= s / J < H) by (split; [apply Z.div_pos; lia | apply Z.div_lt_upper_bound; lia]).
  rewrite !Z.mul_assoc, !Z.div_add_l by lia. split; [| intros [-> ->]; done]. intros E.
  assert (x = y) as -> by nia. split; [done | lia].
Qed.

Lemma masked_prefix ones n xs ys :
  length xs = n -> length ys = n -> Forall is_byte xs -> Forall is_byte ys -> (ones <= 8 * n)%nat ->
  masked xs (CIDRMask ones n) = masked ys (CIDRMask ones n) <->
  be_value xs / 2 ^ Z.of_nat (8 * n - ones) = be_value ys / 2 ^ Z.of_nat (8 * n - ones).
Proof.
  revert ones xs ys. induction n as [|n IH]; intros ones [|x xs] [|y ys] Lx Ly Fx Fy Ho; try discriminate; [done |].
  injection Lx as Lx. injection Ly as Ly. apply Forall_cons in Fx as [Hx Fx]. apply Forall_cons in Fy as [Hy Fy].
  pose proof (be_value_bound _ Fx) as Bx. pose proof (be_value_bound _ Fy) as By. rewrite Lx in Bx. rewrite Ly in By.
  rewrite !be_value_cons, Lx, Ly. unfold masked. cbn [CIDRMask zip_with].
  destruct (le_lt_dec 8 ones) as [H8|H8].
  - rewrite prefix_tail by (done || lia). rewrite <- (IH (ones - 8)%nat xs ys) by (done || lia).
    rewrite !mask_byte_spec by done. replace (8 - ones)%nat with 0%nat by lia. change (2 ^ Z.of_nat 0) with 1.
    rewrite !Z.div_1_r, !Z.mul_1_r. unfold masked. split; [intros [= -> E]; done | intros [-> E]; by f_equal].
  - replace (ones - 8)%nat with 0%nat by lia. rewrite !prefix_head, <- mask_byte_eq by (done || lia).
    change (zip_with Z.land xs (CIDRMask 0 n)) with (masked xs (CIDRMask 0 n)).
    change (zip_with Z.land ys (CIDRMask 0 n)) with (masked ys (CIDRMask 0 n)).
    rewrite !masked_zero by done. split; [intros [= E]; done | intros E; by f_equal].
Qed.

Lemma ParseUint_nonneg s base bits v : 0 <= base -> ParseUint s base bits = Some v -> 0 <= v.
Proof.
  intros Hb. unfold ParseUint. repeat case_match; intros; simplify_eq. eapply parse_digits_nonneg; [..| eassumption]; lia.
Qed.

(** ** The parser yields addresses *)

Definition address (bs : list Z) : Prop := Forall is_byte bs /\ (length bs = 4%nat \/ length bs = 16%nat).

Lemma octet_byte s v : octet s = Some v -> is_byte v.
Proof.
  unfold octet, is_byte. destruct (ParseUint s 10 32) as [w|] eqn:E; [| done]. apply ParseUint_nonneg in E; [| lia].
  repeat case_match; intros; simplify_eq; lia.
Qed.

Lemma parseIPv4Fields_wf s bs : parseIPv4Fields s = Some bs -> Forall is_byte bs /\ length bs = 4%nat.
Proof.
  unfold parseIPv4Fields. destruct (split_at _ s) as [|? [|? [|? [|? [|]]]]]; try done.
  intros (a & Ha & H)%bind_Some. apply bind_Some in H as (b & Hb & H). apply bind_Some in H as (c & Hc & H).
  apply bind_Some in H as (d & Hd & [= <-]). split; [| done].
  repeat (apply Forall_cons; split; [by eapply octet_byte |]). constructor.
Qed.

Lemma hex_group_bound s n acc m v rest : (n <= 4)%nat -> 0 <= acc < 16 ^ Z.of_nat n ->
  hex_group s n acc = Some (m, v, rest) -> (m <= 4)%nat /\ 0 <= v < 16 ^ Z.of_nat m.
Proof.
  revert n acc. induction s as [|c s IH]; intros n acc Hn Ha; cbn; [intros [= <- <- <-]; done |].
  destruct (hex_value c) as [d|] eqn:E; [| intros [= <- <- <-]; done].
  case_decide; [done |]. apply IH; [lia |]. rewrite Nat2Z.inj_succ, Z.pow_succ_r by lia.
  assert (0 <= d < 16) by (revert E; unfold hex_value, digit_value; repeat case_match; intros; simplify_eq; lia). lia.
Qed.

Lemma group_bytes s m v rest : hex_group s 0 0 = Some (m, v, rest) -> Forall is_byte [v / 256; v mod 256].
Proof.
  intros H. apply hex_group_bound in H as [Hm Hv]; [| lia | done].
  assert (16 ^ Z.of_nat m <= 16 ^ 4) by (apply Z.pow_le_mono_r; lia).
  repeat constructor; unfold is_byte; [apply Z.div_pos | apply Z.div_lt_upper_bound | apply Z.mod_pos_bound | apply Z.mod_pos_bound]; lia.
Qed.

Lemma ipv6_groups_wf fuel s bs e bs' e' :
  Forall is_byte bs -> from_option (fun i => i <= length bs)%nat True e -> ipv6_groups fuel s bs e = Some (bs', e') ->
  Forall is_byte bs' /\ from_option (fun i => i <= length bs')%nat True e'.
Proof.
  revert s bs e. induction fuel as [|fuel IH]; intros s bs e Hb He; cbn [ipv6_groups]; [case_match; naive_solver |].
  destruct (hex_group s 0 0) as [[[m v] rest]|] eqn:G; [| done]. apply group_bytes in G.
  assert (forall x, length (bs ++ x) >= length bs)%nat as Hlen by (intros; rewrite length_app; lia).
  assert (forall x, Forall is_byte x -> Forall is_byte (bs ++ x) /\ from_option (fun i => i <= length (bs ++ x))%nat True e) as Happ.
  { intros x Hx. split; [by apply Forall_app |]. destruct e; cbn in *; [specialize (Hlen x); lia | done]. }
  destruct (Happ _ G) as [Hb' He'].
  repeat first [case_match; try done | case_decide; try done]; intros H'; simplify_option_eq; try (by eauto);
    try (eapply IH; [| | eassumption]; cbn; by auto with lia).
  apply Happ. by eapply parseIPv4Fields_wf.
Qed.

Lemma expand_wf bs e l : Forall is_byte bs -> from_option (fun i => i <= length bs)%nat True e -> expand bs e = Some l ->
  Forall is_byte l /\ length l = 16%nat.
Proof.
  intros Hb He. unfold expand. destruct e as [e|]; case_decide; intros [= <-]; [| done]. cbn in He. split.
  - apply Forall_app. split; [by apply Forall_take |]. apply Forall_app. split; [| by apply Forall_drop].
    apply Forall_replicate. unfold is_byte. lia.
  - rewrite !length_app, length_take, length_replicate, length_drop. lia.
Qed.

Lemma parseIPv6_wf s bs : parseIPv6 s = Some bs -> Forall is_byte bs /\ length bs = 16%nat.
Proof.
  unfold parseIPv6. intros ([b e] & H & E)%bind_Some. revert E.
  enough (Forall is_byte b /\ from_option (fun i => i <= length b)%nat True e) as [Hb He] by by apply expand_wf.
  repeat (case_match; try (eapply ipv6_groups_wf; [| | eassumption]; [constructor | cbn; by auto with lia])).
  simplify_eq. split; [constructor | cbn; lia].
Qed.

Lemma ParseAddr_wf s bs : ParseAddr s = Some bs -> address bs.
Proof.
  unfold ParseAddr, address. repeat (case_match; try done); intros.
  all: first [edestruct parseIPv4Fields_wf; [eassumption |]; tauto | edestruct parseIPv6_wf; [eassumption |]; tauto].
Qed.

(** ** Membership of a parsed network *)

Lemma length_mask n ones : length (CIDRMask ones n) = n.
Proof. revert ones. induction n as [|n IH]; intros; cbn; [done | by rewrite IH]. Qed.

Lemma length_masked bs n ones : length bs = n -> length (masked bs (CIDRMask ones n)) = n.
Proof. intros <-. unfold masked. rewrite length_zip_with, length_mask. lia. Qed.

Lemma masked_idem bs m : masked (masked bs m) m = masked bs m.
Proof.
  unfold masked. revert m. induction bs as [|b bs IH]; intros [|x m]; cbn; [done.. |].
  f_equal; [| apply IH]. by rewrite <- Z.land_assoc, Z.land_diag.
Qed.

(** A mask that is not over before a whole byte keeps it: a masked address
    written in the IPv4-mapped range was there before. *)
Lemma full_byte ones b : is_byte b -> Z.land b (mask_byte ones) = 255 -> b = 255 /\ (8 <= ones)%nat.
Proof.
  intros Hb. rewrite mask_byte_spec by done. unfold is_byte in Hb. intros E.
  destruct (le_lt_dec 8 ones) as [?|?].
  - replace (8 - ones)%nat with 0%nat in E by lia. change (2 ^ Z.of_nat 0) with 1 in E. rewrite Z.div_1_r in E. lia.
  - exfalso. replace (8 - ones)%nat with (S (7 - ones))%nat in E by lia. rewrite Nat2Z.inj_succ, Z.pow_succ_r in E by lia.
    set (q := b / _) in E. pose proof (pow_pos (7 - ones)). nia.
Qed.

Lemma kept_byte ones b : is_byte b -> (8 <= ones)%nat -> Z.land b (mask_byte ones) = b.
Proof.
  intros Hb Ho. rewrite mask_byte_spec by done. replace (8 - ones)%nat with 0%nat by lia.
  change (2 ^ Z.of_nat 0) with 1. rewrite Z.div_1_r. lia.
Qed.

Lemma mapped_before_mask bs k : length bs = 16%nat -> Forall is_byte bs ->
  take 12 (masked bs (CIDRMask k 16)) = v4InV6Prefix -> take 12 bs = v4InV6Prefix.
Proof.
  intros L F. do 16 (destruct bs as [|? bs]; [done |]). destruct bs; [clear L | discriminate L].
  rewrite !Forall_cons in F. destruct_and!. unfold masked, v4InV6Prefix. cbn [CIDRMask zip_with take].
  intros [= E0 E1 E2 E3 E4 E5 E6 E7 E8 E9 E10 E11]. apply full_byte in E11 as [-> Hk]; [| done].
  rewrite kept_byte in E0, E1, E2, E3, E4, E5, E6, E7, E8, E9, E10 by (done || lia). by subst.
Qed.

Lemma To4_None bs : To4 bs = None -> length bs = 4%nat \/ length bs = 16%nat -> length bs = 16%nat /\ take 12 bs <> v4InV6Prefix.
Proof. unfold To4. repeat case_decide; [done.. |]. intuition lia. Qed.

Lemma normal_short bs : To4 bs = None -> normal bs = bs.
Proof. unfold normal. by intros ->. Qed.

Lemma normal_masked bs k : address bs -> To4 bs = None \/ length bs = 4%nat ->
  normal (masked bs (CIDRMask k (length bs))) = masked bs (CIDRMask k (length bs)).
Proof.
  intros [Hb Hl] H. destruct (decide (length bs = 4%nat)) as [E|E].
  - unfold normal, To4. by rewrite decide_True by (rewrite length_masked; done).
  - destruct H as [H|H]; [| done]. destruct (To4_None _ H Hl) as [L P]. rewrite L. apply normal_short.
    unfold To4. rewrite length_masked by done. rewrite decide_False by lia. apply decide_False.
    intros [_ P']. by apply P, (mapped_before_mask _ k).
Qed.

Lemma normal_address ip : address ip -> address (normal ip).
Proof.
  intros [Hb Hl]. unfold normal, To4, address. repeat case_decide; cbn; [tauto | | tauto].
  split; [by apply Forall_drop |]. rewrite length_drop. lia.
Qed.

(** A network an operator or the built-in list writes as [address/bits]
    contains exactly the addresses of the same family whose first [bits] bits
    are those of [address], IPv4-mapped addresses counting as IPv4. *)
Lemma cidr_prefix_match s a m bs k ip :
  cut_at "/"%char s = Some (a, m) -> ParseAddr a = Some bs -> ParseUint m 10 32 = Some k ->
  k <= 8 * Z.of_nat (length bs) -> To4 bs = None \/ length bs = 4%nat -> address ip ->
  exists n, ParseCIDR s = Some n /\
    (Contains n ip = true <->
     length (normal ip) = length bs /\
     be_value (normal ip) / 2 ^ (8 * Z.of_nat (length bs) - k) = be_value bs / 2 ^ (8 * Z.of_nat (length bs) - k)).
Proof.
  intros Hs Ha Hm Hk Hf Hip. pose proof (ParseAddr_wf _ _ Ha) as Hbs. assert (Hk0 : 0 <= k) by (eapply ParseUint_nonneg; [| exact Hm]; lia).
  unfold ParseCIDR. rewrite Hs. cbn. rewrite Ha. cbn. rewrite Hm. cbn. rewrite decide_False by lia. eexists; split; [done |].
  unfold Contains. cbn [net_IP net_Mask]. rewrite normal_masked, length_masked, length_mask by done.
  rewrite decide_False by lia. rewrite length_mask, masked_idem, bool_decide_eq_true.
  replace (8 * Z.of_nat (length bs) - k) with (Z.of_nat (8 * length bs - Z.to_nat k)) by lia.
  split.
  - intros (_ & L & E). split; [done |]. symmetry. apply (masked_prefix (Z.to_nat k)); try done; try lia; [apply Hbs |].
    by apply normal_address.
  - intros [L E]. split; [done |]. split; [done |]. apply (masked_prefix (Z.to_nat k)); try done; try lia; [apply Hbs |].
    by apply normal_address.
Qed.

Lemma cidr_prefix_match_witness : exists n, ParseCIDR "172.16.0.0/12" = Some n /\ Contains n [172; 31; 255; 1] = true /\ Contains n [172; 32; 0; 1] = false.
Proof.
  destruct (cidr_prefix_match "172.16.0.0/12" "172.16.0.0" "12" [172; 16; 0; 0] 12 [172; 31; 255; 1]) as (n & Hn & H);
    [vm_compute; reflexivity.. | vm_compute; discriminate | right; reflexivity | split; [repeat constructor; vm_compute; intuition discriminate | left; reflexivity] |].
  exists n. split; [exact Hn |]. split; [apply H; split; vm_compute; reflexivity |]. injection Hn as <-. vm_compute. reflexivity.
Defined.

(** ** What the policy permits *)

(** The ranges no policy can allow, by their bytes: "this network",
    link-local and the metadata addresses, multicast, reserved and broadcast;
    for IPv6 the unspecified address, link-local, multicast, the metadata
    address, local-use NAT64 and Teredo. *)
Definition always_refused (f : IP) : Prop :=
  match f with
  | [a; b; c; d] => a = 0 \/ (a = 169 /\ b = 254) \/ (a = 100 /\ b = 100 /\ c = 100 /\ d = 200) \/ 224 <= a < 240 \/ 240 <= a
  | [a; b; c; d; e; g; _; _; _; _; _; _; _; _; _; _] =>
      f = replicate 16 0 \/ (a = 254 /\ 128 <= b < 192) \/ a = 255 \/
      f = [253; 0; 14; 194; 0; 0; 0; 0; 0; 0; 0; 0; 0; 0; 2; 84] \/
      (a = 0 /\ b = 100 /\ c = 255 /\ d = 155 /\ e = 0 /\ g = 1) \/ (a = 32 /\ b = 1 /\ c = 0 /\ d = 0)
  | _ => False
  end.

(** The ranges that are no public destinations: private and loopback
    networks, shared address space, protocol assignments, benchmarking and
    documentation. *)
Definition private_range (f : IP) : Prop :=
  match f with
  | [a; b; c; d] =>
      a = 10 \/ a = 127 \/ (a = 172 /\ 16 <= b < 32) \/ (a = 192 /\ b = 168) \/ (a = 100 /\ 64 <= b < 128) \/
      (a = 192 /\ b = 0 /\ (c = 0 \/ c = 2)) \/ (a = 198 /\ 18 <= b < 20) \/
      (a = 198 /\ b = 51 /\ c = 100) \/ (a = 203 /\ b = 0 /\ c = 113)
  | [a; b; c; d; _; _; _; _; _; _; _; _; _; _; _; _] =>
      252 <= a < 254 \/ f = replicate 15 0 ++ [1] \/ (a = 32 /\ b = 1 /\ c = 13 /\ d = 184)
  | _ => False
  end.

Definition in_networks (ns : list IPNet) (ip : IP) : Prop := Exists (fun n => Contains n ip = true) ns.

Lemma existsb_in ns ip : existsb (fun n => Contains n ip) ns = true <-> in_networks ns ip.
Proof. unfold in_networks. rewrite existsb_exists, List.Exists_exists. done. Qed.

Lemma in_networks_reflect ns ip : reflect (in_networks ns ip) (existsb (fun n => Contains n ip) ns).
Proof. apply iff_reflect. symmetry. apply existsb_in. Qed.

(** Masks of whole and partial bytes. *)
Lemma mask_255 x : is_byte x -> Z.land x 255 = x.
Proof. intros Hx. by rewrite land_255, Z.mod_small. Qed.

Lemma mask_part ones k x : is_byte x -> k = 2 ^ Z.of_nat (8 - ones) ->
  exists q, Z.land x (mask_byte ones) = k * q /\ k * q <= x < k * q + k.
Proof.
  intros Hx ->. pose proof (pow_pos (8 - ones)) as Hk. exists (x / 2 ^ Z.of_nat (8 - ones)).
  split; [by rewrite mask_byte_spec, Z.mul_comm by done |].
  pose proof (Z.mul_div_le x _ Hk). pose proof (Z.mul_succ_div_gt x _ Hk). lia.
Qed.

Lemma contains_short ns m f : normal f = f -> normal ns = ns -> length m = length ns ->
  Contains (MkNet ns m) f = true <-> length f = length ns /\ masked ns m = masked f m.
Proof.
  intros Hf Hn Hm. unfold Contains. cbn [net_IP net_Mask]. rewrite Hf, Hn, Hm.
  rewrite decide_False by lia. rewrite bool_decide_eq_true. tauto.
Qed.

Lemma cons_eq {A} (x y : A) l k : x :: l = y :: k <-> x = y /\ l = k.
Proof. split; [by intros [= -> ->] | by intros [-> ->]]. Qed.

Lemma nil_eq {A} : @nil A = [] <-> True.
Proof. done. Qed.

(** Membership of a list of networks, byte by byte. *)
Ltac by_bytes Hn :=
  unfold in_networks; rewrite ?Exists_cons, ?Exists_nil;
  repeat (rewrite contains_short by (exact Hn || (vm_compute; reflexivity)));
  unfold masked; cbn [length zip_with replicate app];
  repeat match goal with |- context [Z.land (Zpos ?a) (Zpos ?b)] =>
    let v := eval vm_compute in (Z.land (Zpos a) (Zpos b)) in change (Z.land (Zpos a) (Zpos b)) with v end;
  repeat match goal with H : is_byte ?x |- context [Z.land ?x 255] => rewrite !(mask_255 x H) end;
  repeat match goal with
  | H : is_byte ?x |- context [Z.land ?x 240] => destruct (mask_part 4 16 x H eq_refl) as (? & E & ?); change (mask_byte 4) with 240 in E; rewrite !E; clear E
  | H : is_byte ?x |- context [Z.land ?x 192] => destruct (mask_part 2 64 x H eq_refl) as (? & E & ?); change (mask_byte 2) with 192 in E; rewrite !E; clear E
  | H : is_byte ?x |- context [Z.land ?x 254] => destruct (mask_part 7 2 x H eq_refl) as (? & E & ?); change (mask_byte 7) with 254 in E; rewrite !E; clear E
  end;
  rewrite ?Z.land_0_l, ?Z.land_0_r, ?cons_eq, ?nil_eq; unfold is_byte in *.

(** Each case of one side is a case of the other. *)
Ltac pick_case := first [left; repeat apply conj; (exact I || reflexivity || assumption || lia) | right; pick_case | repeat apply conj; (exact I || reflexivity || assumption || lia)].
Ltac cases_match :=
  split; intros Hcase;
  repeat match goal with H : _ \/ _ |- _ => destruct H as [H | H] | H : _ /\ _ |- _ => destruct H end;
  try discriminate; subst; first [contradiction | discriminate | pick_case | exfalso; lia].

Lemma hard_ranges4 a b c d : Forall is_byte [a; b; c; d] ->
  in_networks hardBlockedNetworks [a; b; c; d] <-> always_refused [a; b; c; d].
Proof.
  intros F. rewrite !Forall_cons in F. destruct F as (? & ? & ? & ? & _).
  assert (normal [a; b; c; d] = [a; b; c; d]) as Hn by reflexivity.
  unfold hardBlockedNetworks, always_refused. by_bytes Hn. cases_match.
Qed.

Lemma private_ranges4 a b c d : Forall is_byte [a; b; c; d] ->
  in_networks privateNetworks [a; b; c; d] <-> private_range [a; b; c; d].
Proof.
  intros F. rewrite !Forall_cons in F. destruct F as (? & ? & ? & ? & _).
  assert (normal [a; b; c; d] = [a; b; c; d]) as Hn by reflexivity.
  unfold privateNetworks, private_range. by_bytes Hn. cases_match.
Qed.

Lemma hard_ranges16 f : length f = 16%nat -> Forall is_byte f -> To4 f = None ->
  in_networks hardBlockedNetworks f <-> always_refused f.
Proof.
  intros L F H4. do 16 (destruct f as [|? f]; [discriminate L |]). destruct f; [clear L | discriminate L].
  pose proof (normal_short _ H4) as Hn. rewrite !Forall_cons in F. destruct_and!.
  unfold hardBlockedNetworks, always_refused. by_bytes Hn. cases_match.
Qed.

Lemma private_ranges16 f : length f = 16%nat -> Forall is_byte f -> To4 f = None ->
  in_networks privateNetworks f <-> private_range f.
Proof.
  intros L F H4. do 16 (destruct f as [|? f]; [discriminate L |]). destruct f; [clear L | discriminate L].
  pose proof (normal_short _ H4) as Hn. rewrite !Forall_cons in F. destruct_and!.
  unfold privateNetworks, private_range. by_bytes Hn. cases_match.
Qed.

(** The IPv6 addresses that carry the IPv4 address [a.b.c.d]: IPv4-mapped,
    NAT64 (64:ff9b::/96), 6to4 (2002::/16) and IPv4-compatible (::/96, but for
    the unspecified and the loopback address). *)
Inductive carries (a b c d : Z) : IP -> Prop :=
| carries_mapped : carries a b c d (IPv4 a b c d)
| carries_nat64 : carries a b c d ([0; 100; 255; 155; 0; 0; 0; 0; 0; 0; 0; 0] ++ [a; b; c; d])
| carries_6to4 rest : length rest = 10%nat -> carries a b c d ([32; 2; a; b; c; d] ++ rest)
| carries_compat : [a; b; c; d] <> [0; 0; 0; 0] -> [a; b; c; d] <> [0; 0; 0; 1] ->
    carries a b c d (replicate 12 0 ++ [a; b; c; d]).

(** The hosts a packet to the address may end at: the address itself (an
    IPv4-mapped address is the IPv4 address), and the IPv4 host it carries. *)
Definition face (ip f : IP) : Prop :=
  (f = ip /\ forall a b c d, ip <> IPv4 a b c d) \/ exists a b c d, f = [a; b; c; d] /\ carries a b c d ip.

(** The one that decides whether the target is private: the IPv4 host if the
    address carries one. *)
Definition endpoint (ip f : IP) : Prop :=
  (f = ip /\ forall a b c d, ~ carries a b c d ip) \/ exists a b c d, f = [a; b; c; d] /\ carries a b c d ip.

(** No host behind the address is in a range that is always refused; and if
    the endpoint is private, the operator allowed private targets or a network
    that holds one of the hosts. *)
Definition permitted (v : SSRFValidator) (ip : IP) : Prop :=
  (forall f, face ip f -> ~ always_refused f) /\
  (forall f, endpoint ip f -> private_range f ->
     AllowPrivate v = true \/ exists g, face ip g /\ in_networks (AllowedNetworks v) g).

Lemma carries_unique a b c d a' b' c' d' ip :
  carries a b c d ip -> carries a' b' c' d' ip -> [a; b; c; d] = [a'; b'; c'; d'].
Proof.
  intros [| | rest L | N0 N1] H; inversion H as [E | E | rest' L' E | N0' N1' E]; try done;
    unfold IPv4, v4InV6Prefix in *; cbn in *; congruence.
Qed.

Lemma To4_mapped ip : length ip = 16%nat ->
  match To4 ip with
  | Some s => exists a b c d, s = [a; b; c; d] /\ ip = IPv4 a b c d
  | None => forall a b c d, ip <> IPv4 a b c d
  end.
Proof.
  intros L. unfold To4. rewrite decide_False by lia. case_decide as H.
  - destruct H as [_ H]. pose proof (take_drop 12 ip) as E. rewrite H in E.
    assert (length (drop 12 ip) = 4%nat) as L4 by (rewrite length_drop; lia).
    destruct (drop 12 ip) as [|a [|b [|c [|d [|]]]]]; try discriminate L4. by exists a, b, c, d.
  - intros a b c d ->. by apply H.
Qed.

(** What the three embedding networks hold. *)
Lemma embedding_networks ip : length ip = 16%nat -> Forall is_byte ip -> To4 ip = None ->
  (Contains nat64Network ip = true <-> take 12 ip = [0; 100; 255; 155; 0; 0; 0; 0; 0; 0; 0; 0]) /\
  (Contains sixToFourNetwork ip = true <-> take 2 ip = [32; 2]) /\
  (Contains ipv4CompatNet ip = true <-> take 12 ip = replicate 12 0).
Proof.
  intros L F H4. do 16 (destruct ip as [|? ip]; [discriminate L |]). destruct ip; [clear L | discriminate L].
  pose proof (normal_short _ H4) as Hn. rewrite !Forall_cons in F. destruct_and!. cbn [take replicate].
  unfold nat64Network, sixToFourNetwork, ipv4CompatNet. by_bytes Hn. intuition lia.
Qed.

Lemma carries_prefix a b c d ip : carries a b c d ip ->
  ip = IPv4 a b c d \/ take 12 ip = [0; 100; 255; 155; 0; 0; 0; 0; 0; 0; 0; 0] \/ take 2 ip = [32; 2] \/
  (take 12 ip = replicate 12 0 /\ ip <> IPv6unspecified /\ ip <> IPv6loopback).
Proof.
  intros [| | rest L | N0 N1]; [by left | by right; left | by right; right; left |]. right; right; right.
  split; [done |]. split; intros [= -> -> -> ->]; done.
Qed.

Lemma embedded_form ip : length ip = 16%nat -> Forall is_byte ip -> To4 ip = None ->
  match embeddedIPv4 ip with
  | Some e => exists a b c d, e = [a; b; c; d] /\ carries a b c d ip
  | None => forall a b c d, ~ carries a b c d ip
  end.
Proof.
  intros L F H4. destruct (embedding_networks ip L F H4) as (N1 & N2 & N3).
  pose proof (To4_mapped ip L) as Hm. rewrite H4 in Hm. unfold embeddedIPv4. rewrite decide_False by lia.
  do 16 (destruct ip as [|? ip]; [discriminate L |]). destruct ip; [clear L | discriminate L]. cbn [take replicate] in *.
  unfold byte_at. cbn.
  destruct (Contains nat64Network _).
  { apply proj1 in N1. injection (N1 eq_refl) as -> -> -> -> -> -> -> -> -> -> -> ->. do 4 eexists. split; [done |]. apply carries_nat64. }
  destruct (Contains sixToFourNetwork _).
  { apply proj1 in N2. injection (N2 eq_refl) as -> ->. do 4 eexists. split; [done |]. by apply carries_6to4. }
  destruct (Contains ipv4CompatNet _).
  - apply proj1 in N3. injection (N3 eq_refl) as -> -> -> -> -> -> -> -> -> -> -> ->. case_decide as Hd.
    + intros a b c d [E|[E|[E|(_ & E1 & E2)]]]%carries_prefix; [by apply (Hm a b c d) | done | done | tauto].
    + do 4 eexists. split; [done |]. apply carries_compat; intros [= -> -> -> ->]; apply Hd; [left | right]; done.
  - intros a b c d [E|[E|[E|(E & _)]]]%carries_prefix; [by apply (Hm a b c d) | by apply N1 in E | by apply N2 in E | by apply N3 in E].
Qed.

(** The faces and the endpoint as the validator computes them. *)
Lemma faces_computed ip : length ip = 16%nat -> Forall is_byte ip ->
  (forall f, face ip f <-> f = normal ip \/ embeddedIPv4 (normal ip) = Some f) /\
  (forall f, endpoint ip f <-> f = default (normal ip) (embeddedIPv4 (normal ip))).
Proof.
  intros L F. pose proof (To4_mapped ip L) as Hm. unfold normal. destruct (To4 ip) as [s|] eqn:H4; cbn [default from_option].
  - destruct Hm as (a & b & c & d & -> & ->). pose proof (carries_mapped a b c d) as Hc.
    assert (forall f, (exists a' b' c' d', f = [a'; b'; c'; d'] /\ carries a' b' c' d' (IPv4 a b c d)) <-> f = [a; b; c; d]) as Hu.
    { intros f. split; [intros (a' & b' & c' & d' & -> & H); by apply (carries_unique _ _ _ _ _ _ _ _ _ H Hc) | intros ->; eauto 10]. }
    unfold face, endpoint, embeddedIPv4. rewrite decide_True by (cbn; lia). cbn. split; intros f; rewrite Hu.
    + split; [intros [[_ H]|H]; [by destruct (H a b c d) | by left] | intros [H|?]; [by right | done]].
    + split; [intros [[_ H]|H]; [by destruct (H a b c d) | done] | by right].
  - pose proof (embedded_form ip L F H4) as He. unfold face, endpoint. destruct (embeddedIPv4 ip) as [e|]; cbn.
    + destruct He as (a & b & c & d & -> & Hc).
      assert (forall f, (exists a' b' c' d', f = [a'; b'; c'; d'] /\ carries a' b' c' d' ip) <-> f = [a; b; c; d]) as Hu.
      { intros f. split; [intros (a' & b' & c' & d' & -> & H); by apply (carries_unique _ _ _ _ _ _ _ _ _ H Hc) | intros ->; eauto 10]. }
      split; intros f; rewrite Hu; [naive_solver |]. split; [intros [[_ H]|H]; [by destruct (H a b c d) | done] | by right].
    + split; intros f; split; naive_solver.
Qed.

Lemma embedded_bytes ip e : Forall is_byte ip -> length ip = 16%nat -> To4 ip = None -> embeddedIPv4 ip = Some e -> Forall is_byte e.
Proof.
  intros F L H4 E. pose proof (embedded_form ip L F H4) as H. rewrite E in H. destruct H as (a & b & c & d & -> & Hc).
  rewrite List.Forall_forall in F. apply List.Forall_forall. intros x Hx. apply F. destruct Hc; cbn in *; tauto.
Qed.

Lemma ranges_computed ip : length ip = 16%nat -> Forall is_byte ip ->
  (forall f, face ip f -> (in_networks hardBlockedNetworks f <-> always_refused f) /\
     (in_networks privateNetworks f <-> private_range f)).
Proof.
  intros L F f. destruct (faces_computed ip L F) as [Hf _]. rewrite Hf. pose proof (To4_mapped ip L) as Hm.
  unfold normal. destruct (To4 ip) as [s|] eqn:H4; cbn [default from_option].
  - destruct Hm as (a & b & c & d & -> & ->). unfold embeddedIPv4. rewrite decide_True by (cbn; lia).
    intros [->|?]; [| done]. unfold IPv4 in F. apply Forall_app in F as [_ F].
    split; [by apply hard_ranges4 | by apply private_ranges4].
  - intros [->|E]; [split; [by apply hard_ranges16 | by apply private_ranges16] |].
    pose proof (embedded_bytes ip f F L H4 E) as Fe. pose proof (embedded_form ip L F H4) as He. rewrite E in He.
    destruct He as (a & b & c & d & -> & _). split; [by apply hard_ranges4 | by apply private_ranges4].
Qed.

Lemma all_of_pair {A} (P : A -> Prop) s o : (forall f, f = s \/ o = Some f -> P f) <-> P s /\ from_option P True o.
Proof. destruct o; cbn; split; [naive_solver.. | by intros [? _] f [->|?]]. Qed.

Lemma some_of_pair {A} (P : A -> Prop) s o : (exists f, (f = s \/ o = Some f) /\ P f) <-> P s \/ from_option P False o.
Proof. destruct o; cbn; naive_solver. Qed.

Lemma isBlockedIP_networks v ip :
  isBlockedIP v (Some ip) = false <->
  (forall f, f = normal ip \/ embeddedIPv4 (normal ip) = Some f -> ~ in_networks hardBlockedNetworks f) /\
  (in_networks privateNetworks (default (normal ip) (embeddedIPv4 (normal ip))) ->
   AllowPrivate v = true \/ exists g, (g = normal ip \/ embeddedIPv4 (normal ip) = Some g) /\ in_networks (AllowedNetworks v) g).
Proof.
  rewrite all_of_pair, some_of_pair. unfold isBlockedIP, isBlockedIP_short, isHardBlockedIP.
  destruct (embeddedIPv4 (normal ip)) as [e|]; cbn [default from_option];
    repeat match goal with |- context [existsb (fun n => Contains n ?x) ?ns] => destruct (in_networks_reflect ns x) end; cbn [orb];
    destruct (AllowPrivate v); cbn [negb]; intuition congruence.
Qed.

Lemma isBlockedIP_permitted v ip : length ip = 16%nat -> Forall is_byte ip ->
  isBlockedIP v (Some ip) = false <-> permitted v ip.
Proof.
  intros L F. rewrite isBlockedIP_networks. destruct (faces_computed ip L F) as [Hf He]. pose proof (ranges_computed ip L F) as Hr.
  unfold permitted. setoid_rewrite <- Hf. set (p := default _ _) in *.
  assert (face ip p) as Hp.
  { apply Hf. subst p. destruct (embeddedIPv4 (normal ip)); [by right | by left]. }
  split; intros [H1 H2]; (split; [intros f Hface H3; apply (H1 f Hface); by apply (Hr f Hface) |]).
  - intros f ->%He H3. apply H2. by apply (Hr p Hp).
  - intros H3. apply (H2 p); [by apply He | by apply (Hr p Hp)].
Qed.

(** ** What a host stands for *)

(** A number of 32 bits in decimal digits, in hexadecimal after 0x, or, if it
    is no such decimal number, in octal digits. *)
Inductive numeral (host : string) : Z -> Prop :=
| numeral_decimal n : ParseUint host 10 32 = Some n -> numeral host n
| numeral_hex rest n : host = "0x" +:+ rest \/ host = "0X" +:+ rest -> ParseUint rest 16 32 = Some n -> numeral host n
| numeral_octal n : ParseUint host 10 32 = None -> ParseUint host 8 32 = Some n -> numeral host n.

(** The address a host is: a literal, or the four bytes of a number. *)
Inductive denotes (host : string) : IP -> Prop :=
| denotes_literal ip : ParseIP host = Some ip -> denotes host ip
| denotes_number n a b c d :
    ParseIP host = None -> numeral host n -> Forall is_byte [a; b; c; d] ->
    n = ((a * 256 + b) * 256 + c) * 256 + d -> denotes host (IPv4 a b c d).

Lemma ParseUint_range32 s base n : 0 <= base -> ParseUint s base 32 = Some n -> 0 <= n < 2 ^ 32.
Proof.
  intros Hb H. split; [by eapply ParseUint_nonneg |]. revert H. unfold ParseUint. repeat case_match; try done. intros [= <-]. lia.
Qed.

Lemma number_bytes n a b c d : 0 <= n < 2 ^ 32 ->
  (ip_of_number n = IPv4 a b c d <-> Forall is_byte [a; b; c; d] /\ n = ((a * 256 + b) * 256 + c) * 256 + d).
Proof.
  intros Hn. unfold ip_of_number, IPv4. rewrite !land_255, !Z.shiftr_div_pow2 by lia.
  change (2 ^ 24) with 16777216. change (2 ^ 16) with 65536. change (2 ^ 8) with 256.
  rewrite !Forall_cons, Forall_nil. unfold is_byte. split.
  - intros E. apply app_inv_head in E. injection E as <- <- <- <-.
    pose proof (Z.mod_pos_bound (n / 16777216) 256). pose proof (Z.mod_pos_bound (n / 65536) 256).
    pose proof (Z.mod_pos_bound (n / 256) 256). pose proof (Z.mod_pos_bound n 256). split_and!; try lia; try done.
    Z.to_euclidean_division_equations. lia.
  - intros [(Ha & Hb & Hc & Hd & _) ->]. do 2 f_equal; [|f_equal; [|f_equal; [|f_equal]]]; Z.to_euclidean_division_equations; lia.
Qed.

Lemma number_address n : 0 <= n < 2 ^ 32 ->
  exists a b c d, ip_of_number n = IPv4 a b c d /\ Forall is_byte [a; b; c; d] /\ n = ((a * 256 + b) * 256 + c) * 256 + d.
Proof.
  intros Hn. unfold ip_of_number. do 4 eexists. split; [reflexivity |]. by apply number_bytes.
Qed.

Lemma hex_literal_spec host n : hex_literal host = Some n <->
  exists rest, (host = "0x" +:+ rest \/ host = "0X" +:+ rest) /\ ParseUint rest 16 32 = Some n.
Proof.
  split.
  - destruct host as [|c [|x rest]]; [done | by destruct c as [[] [] [] [] [] [] [] []] |]. unfold hex_literal.
    destruct (decide (c = "0"%char)) as [->|Hc]; [| by destruct c as [[] [] [] [] [] [] [] []]].
    case_decide as Hx; [| done]. intros H. exists rest. split; [| done]. destruct Hx as [[->| ->] _]; [by left | by right].
  - intros (rest & Hh & H). assert (rest <> "") as Hne by (by intros ->).
    destruct Hh as [->| ->];
      [change (hex_literal _) with (if decide (("x"%char = "x"%char \/ "x"%char = "X"%char) /\ rest <> "") then ParseUint rest 16 32 else None)
      |change (hex_literal _) with (if decide (("X"%char = "x"%char \/ "X"%char = "X"%char) /\ rest <> "") then ParseUint rest 16 32 else None)];
      rewrite decide_True by auto; exact H.
Qed.

Lemma no_hex_digits rest base : 0 < base <= 16 ->
  ParseUint ("0x" +:+ rest) base 32 = None /\ ParseUint ("0X" +:+ rest) base 32 = None.
Proof.
  intros Hb. assert (digit_value base "x"%char = None /\ digit_value base "X"%char = None) as [H1 H2].
  { unfold digit_value. change (Z.of_N (code "x"%char)) with 120. change (Z.of_N (code "X"%char)) with 88. cbv zeta.
    split; repeat case_decide; (lia || done). }
  split; unfold ParseUint; rewrite decide_False by done.
  - change ("0x" +:+ rest) with (String.String "0" (String.String "x" rest)). cbn [parse_digits]. rewrite H1.
    destruct (digit_value base "0"%char); reflexivity.
  - change ("0X" +:+ rest) with (String.String "0" (String.String "X" rest)). cbn [parse_digits]. rewrite H2.
    destruct (digit_value base "0"%char); reflexivity.
Qed.

Lemma digits_no_dot base s acc v : 0 < base <= 10 -> parse_digits base acc s = Some v -> "."%char ∉ String.list_ascii_of_string s.
Proof.
  intros Hb. revert acc. induction s as [|c s IH]; intros acc; cbn; [intros _; apply not_elem_of_nil |].
  destruct (digit_value base c) as [d|] eqn:Ed; [| done]. intros H. apply not_elem_of_cons. split; [| by eapply IH].
  intros <-. revert Ed. unfold digit_value. change (Z.of_N (code "."%char)) with 46. cbv zeta.
  repeat case_decide; (lia || done).
Qed.

Lemma parseIP_denotes host ip : parseIP host = Some ip <-> denotes host ip.
Proof.
  unfold parseIP. destruct (ParseIP host) as [i|] eqn:E0.
  { split; [intros [= <-]; by constructor |]. intros []; congruence. }
  assert (forall n, 0 <= n < 2 ^ 32 -> numeral host n -> denotes host (ip_of_number n)) as Hnum.
  { intros n Hn Hnum. destruct (number_address n Hn) as (a & b & c & d & -> & Hb & En). by apply (denotes_number host n). }
  destruct (ParseUint host 10 32) as [n|] eqn:E1.
  { split; [intros [= <-]; apply Hnum; [by apply (ParseUint_range32 host 10) | by constructor] |].
    intros [|m a b c d _ Hm Hb Em]; [congruence |]. assert (m = n) as ->.
    { destruct Hm as [| rest m [->| ->] |]; [congruence | | | congruence]; by rewrite (proj1 (no_hex_digits rest 10 ltac:(lia))) in E1
        || by rewrite (proj2 (no_hex_digits rest 10 ltac:(lia))) in E1. }
    f_equal. by apply number_bytes; [apply (ParseUint_range32 host 10) |]. }
  destruct (hex_literal host) as [n|] eqn:E2.
  { apply hex_literal_spec in E2 as (rest & Hh & E2). assert (ParseUint host 8 32 = None) as E8.
    { destruct Hh as [->| ->]; apply no_hex_digits; lia. }
    split; [intros [= <-]; apply Hnum; [by apply (ParseUint_range32 rest 16) | by apply (numeral_hex _ rest)] |].
    intros [|m a b c d _ Hm Hb Em]; [congruence |]. f_equal. apply number_bytes; [by apply (ParseUint_range32 rest 16) |].
    split; [done |]. rewrite <- Em. destruct Hm as [| rest' m Hh' E' |]; [congruence | | congruence].
    assert (rest' = rest) as -> by (destruct Hh as [->| ->], Hh' as [H|H]; by injection H). congruence. }
  destruct (ParseUint host 8 32) as [n|] eqn:E3.
  - assert ("."%char ∉ String.list_ascii_of_string host) as Hdot.
    { unfold ParseUint in E3. destruct (decide (host = "")); [done |]. destruct (parse_digits 8 0 host) eqn:E; [| done].
      eapply (digits_no_dot 8); [lia | exact E]. }
    rewrite decide_False by done. split; [intros [= <-]; apply Hnum; [by apply (ParseUint_range32 host 8) | by apply numeral_octal] |].
    intros [|m a b c d _ Hm Hb Em]; [congruence |]. f_equal. apply number_bytes; [by apply (ParseUint_range32 host 8) |].
    split; [done |]. rewrite <- Em. destruct Hm as [| rest' m Hh' E' |]; [congruence | | congruence].
    assert (hex_literal host = Some m) by (apply hex_literal_spec; eauto). congruence.
  - split; [done |]. intros [|m a b c d _ Hm Hb Em]; [congruence |]. destruct Hm as [| rest' m Hh' E' |]; [congruence | | congruence].
    assert (hex_literal host = Some m) by (apply hex_literal_spec; eauto). congruence.
Qed.

Lemma denotes_address host ip : denotes host ip -> length ip = 16%nat /\ Forall is_byte ip.
Proof.
  intros [i H|n a b c d _ _ Hb _].
  - unfold ParseIP in H. apply fmap_Some in H as (bs & [Hb Hl]%ParseAddr_wf & ->). unfold As16. case_decide as E.
    + split; [rewrite length_app, E; done |]. apply Forall_app. split; [| done]. unfold v4InV6Prefix, is_byte. repeat constructor; lia.
    + destruct Hl; [done |]. done.
  - split; [done |]. unfold IPv4, v4InV6Prefix. apply Forall_app. split; [unfold is_byte; repeat constructor; lia | done].
Qed.

(** ** The guarded dialer *)

Section dial.
Context (v : SSRFValidator) (LookupHost : string -> option (list string)).

(** The addresses a host stands for: itself when it is a number or a literal,
    all answers of the name server otherwise, each of which has to be one. *)
Definition stands_for (host : string) (ips : list IP) : Prop :=
  (exists ip, denotes host ip /\ ips = [ip]) \/
  ((forall ip, ~ denotes host ip) /\ exists addrs, LookupHost host = Some addrs /\ Forall2 denotes addrs ips).

Lemma blocked_denoted host ip : denotes host ip -> isBlockedIP v (Some ip) = false <-> permitted v ip.
Proof. intros [L F]%denotes_address. by apply isBlockedIP_permitted. Qed.

Lemma pin_exact addrs p ip : pin v addrs p = inr ip <->
  exists ips, Forall2 denotes addrs ips /\ Forall (permitted v) ips /\ head (option_list p ++ ips) = Some ip.
Proof.
  revert p. induction addrs as [|addr addrs IH]; intros p; cbn [pin].
  - destruct p as [q|]; cbn; split; try done.
    + intros [= ->]. exists []. by split_and!.
    + intros (ips & H & _ & E). by injection E as ->.
    + intros (ips & H & _ & E). by apply Forall2_nil_inv_l in H as ->.
  - destruct (parseIP addr) as [a|] eqn:Ea.
    + apply parseIP_denotes in Ea as Hd. pose proof (blocked_denoted addr a Hd) as Hb.
      assert (forall ips, Forall2 denotes (addr :: addrs) ips <-> exists l, ips = a :: l /\ Forall2 denotes addrs l) as H2.
      { intros ips. split; [| intros (l & -> & ?); by constructor].
        intros (b & l & Hb' & Hl & ->)%Forall2_cons_inv_l. apply parseIP_denotes in Hb'. exists l. split; [congruence | done]. }
      destruct (isBlockedIP v (Some a)).
      * split; [done |]. intros (ips & (l & -> & _)%H2 & F & _). apply Forall_cons in F as [F _]. by apply Hb in F.
      * rewrite IH. split.
        -- intros (ips & Hl & F & H). exists (a :: ips). split; [by apply H2; eauto |].
           split; [constructor; [by apply Hb | done] |]. by destruct p.
        -- intros (ips & (l & -> & Hl)%H2 & F & H). apply Forall_cons in F as [_ F]. exists l. split_and!; [done.. |]. by destruct p.
    + split; [done |]. intros (ips & (b & l & Hb & _)%Forall2_cons_inv_l & _). apply parseIP_denotes in Hb. congruence.
Qed.

End dial.

(** The networks are concrete; what is masked away may be anything. *)
Ltac in_network :=
  apply bool_decide_eq_true; split; [reflexivity |]; split; [reflexivity |]; cbv -[Z.land]; rewrite !Z.land_0_r; reflexivity.

Lemma nat64_form a b c d :
  let ip := [0; 100; 255; 155; 0; 0; 0; 0; 0; 0; 0; 0; a; b; c; d] in
  isHardBlockedIP ip = false /\ embeddedIPv4 ip = Some [a; b; c; d].
Proof.
  split; [vm_compute; reflexivity |]. assert (Contains nat64Network [0; 100; 255; 155; 0; 0; 0; 0; 0; 0; 0; 0; a; b; c; d] = true) as H
    by in_network. unfold embeddedIPv4. by rewrite decide_False, H by (intros []; reflexivity).
Qed.

Lemma sixtofour_form a b c d rest : length rest = 10%nat ->
  let ip := [32; 2; a; b; c; d] ++ rest in
  To4 ip = None /\ isHardBlockedIP ip = false /\ embeddedIPv4 ip = Some [a; b; c; d].
Proof.
  intros L. do 10 (destruct rest as [|? rest]; [discriminate L |]). destruct rest; [| discriminate L]. cbn [app].
  split; [reflexivity |]. split; [vm_compute; reflexivity |]. unfold embeddedIPv4. rewrite decide_False by (intros []; reflexivity).
  match goal with |- context [Contains nat64Network ?ip] => assert (Contains sixToFourNetwork ip = true) as H by in_network end.
  rewrite H. vm_compute. reflexivity.
Qed.

Lemma compat_form a b c d : Forall is_byte [a; b; c; d] -> [a; b; c; d] <> [0; 0; 0; 0] -> [a; b; c; d] <> [0; 0; 0; 1] ->
  let ip := [0; 0; 0; 0; 0; 0; 0; 0; 0; 0; 0; 0; a; b; c; d] in
  isHardBlockedIP ip = false /\ embeddedIPv4 ip = Some [a; b; c; d].
Proof.
  intros F N0 N1 ip. rewrite !Forall_cons in F. destruct_and!.
  assert (Contains (MkNet (replicate 16 0) (replicate 16 255)) ip = false) as E0.
  { apply bool_decide_eq_false. intros (_ & _ & E). cbv -[Z.land] in E. injection E as E1 E2 E3 E4.
    apply N0. rewrite !land_255, Zmod_0_l, Z.mod_small in E1, E2, E3, E4 by assumption. by subst. }
  split.
  - unfold isHardBlockedIP, hardBlockedNetworks. cbn [existsb]. cbn [replicate] in E0. rewrite E0. vm_compute. reflexivity.
  - assert (Contains ipv4CompatNet ip = true) as HC by in_network. unfold embeddedIPv4.
    rewrite decide_False by (intros []; reflexivity). rewrite HC, decide_False by (intros [[= -> -> -> ->]|[= -> -> -> ->]]; done).
    vm_compute. reflexivity.
Qed.

Lemma judged_by_embedded v ip e : AllowedNetworks v = [] -> To4 ip = None -> isHardBlockedIP ip = false ->
  embeddedIPv4 ip = Some e -> length e = 4%nat -> isBlockedIP v (Some ip) = isBlockedIP v (Some e).
Proof.
  intros Ha H4 Hh He L. assert (normal e = e) as N by (unfold normal, To4; by rewrite decide_True).
  assert (embeddedIPv4 e = None) as E by (unfold embeddedIPv4; by rewrite decide_True by lia).
  unfold isBlockedIP. rewrite (normal_short _ H4), He, Hh, N, E. unfold isBlockedIP_short. rewrite Ha. cbn [existsb orb].
  by destruct (isHardBlockedIP e).
Qed.

(** Unless the operator lists exceptions, an IPv6 address that carries an
    IPv4 address is judged exactly as that address: no way to write or to
    translate it gets around the policy. *)
Lemma embedded_forms_equivalent v a b c d ip :
  AllowedNetworks v = [] -> Forall is_byte [a; b; c; d] -> carries a b c d ip ->
  isBlockedIP v (Some ip) = isBlockedIP v (Some [a; b; c; d]).
Proof.
  intros Ha F [| | rest L | N0 N1].
  - reflexivity.
  - destruct (nat64_form a b c d). by apply judged_by_embedded.
  - destruct (sixtofour_form a b c d rest L) as (? & ? & ?). by apply judged_by_embedded.
  - destruct (compat_form a b c d F N0 N1). by apply judged_by_embedded.
Qed.

Lemma embedded_forms_equivalent_witness :
  isBlockedIP (MkValidator false [] []) (Some [32; 2; 127; 0; 0; 1; 0; 0; 0; 0; 0; 0; 0; 0; 0; 9]) = true /\
  isBlockedIP (MkValidator true [] []) (Some [32; 2; 127; 0; 0; 1; 0; 0; 0; 0; 0; 0; 0; 0; 0; 9]) = false.
Proof.
  split; refine (eq_trans (embedded_forms_equivalent _ 127 0 0 1 _ _ _ _) _); try reflexivity;
    try (apply (carries_6to4 127 0 0 1 [0; 0; 0; 0; 0; 0; 0; 0; 0; 9]); reflexivity);
    repeat constructor; vm_compute; discriminate.
Defined.

(** Decimal comes first: a short octal number is read as decimal, and only one
    that is no decimal of 32 bits is read as octal. *)
Lemma octal_read_as_decimal : parseIP "0177" = Some (IPv4 0 0 0 177) /\ parseIP "017700000001" = Some (IPv4 127 0 0 1).
Proof. split; vm_compute; reflexivity. Qed.

(** The loopback addresses are private, not always refused. *)
Lemma loopback_may_be_allowed :
  isBlockedIP (MkValidator true [] []) (ParseIP "127.0.0.1") = false /\ isBlockedIP (MkValidator true [] []) (ParseIP "::1") = false.
Proof. split; vm_compute; reflexivity. Qed.

(** [WrapDialer] hands a number it judged as an address to the dialer as it
    came, for the dialer to resolve. *)
Lemma plain_dialer_keeps_text v LookupHost : isBlockedIP v (Some (IPv4 8 8 8 8)) = false ->
  WrapDialer v LookupHost "134744072:80" = inr (DialText "134744072:80").
Proof.
  intros H. unfold WrapDialer. assert (split_addr "134744072:80" = ("134744072", Some "80")) as -> by (vm_compute; reflexivity).
  assert (parseIP "134744072" = Some (IPv4 8 8 8 8)) as -> by (vm_compute; reflexivity). by rewrite H.
Qed.
